(* ===== verification/_CoqProject ===== *)
-Q . S2P
Prelude.v
GoStd.v
Utf8.v
GoText.v
WorkspacePath.v
FileTree.v
ApplyPatch.v
ApplyPatchText.v
ApplyPatchFiles.v
ApplyPatchProps.v
ModelHealth.v
StatusStream.v
Llm.v
Events.v
ContextText.v
ThreadTypes.v
ThreadFacts.v
ContextBudget.v
ContextBudgetProps.v
ModelFallback.v
ModelFallbackProps.v
ThreadStore.v
ThreadReplay.v
ContextCompaction.v
ThreadStoreInv.v
ThreadStoreOps.v
ThreadStoreOpen.v
ThreadStoreProps.v
ThreadStoreRestart.v
ThreadStoreSafety.v
ThreadStoreExamples.v
ThreadTree.v
ThreadTreeInv.v
ThreadTreeScan.v
ThreadTreeSteps.v
ThreadTreeProps.v
ThreadTreeOps.v
ThreadTreeLeftover.v
ThreadTreeSafety.v
ThreadTreeExamples.v
ProtocolRepair.v
ProtocolRepairProps.v
ProtocolRepairExamples.v
ContextExamples.v
SummaryRequest.v
SummaryText.v
SummaryHeadings.v
SummaryTextProps.v
SummaryGeneration.v
SummaryGenerationProps.v
Compaction.v
CompactionProps.v
PendingInputs.v
PendingQueue.v
PendingQueueInv.v
PendingQueueProps.v
PendingQueueRecovery.v
PendingQueueExamples.v
EngineInput.v
EngineInputFrame.v
EngineInputDrain.v
EngineInputSound.v
EngineInputProps.v
EngineInputAdmission.v
EngineInputExamples.v
ToolPolicies.v
ToolBatch.v
ToolBatchProps.v
ToolBatchInv.v
ToolBatchSafety.v
ToolBatchPolicies.v
ToolBatchExamples.v
LlmText.v
TurnLoop.v
TurnFrame.v
TurnEnds.v
TurnSees.v
TurnStops.v
TurnTranscript.v
TurnExamples.v
