(* ===== verification/Prelude.v ===== *)
(** * Juex: a verification development for the Juex agent runtime

    Juex runs language-model agents. An agent is a set of threads (Main and its
    workers) in a state directory. A thread is a conversation: its messages,
    turns and usage are facts appended to journals, and a metadata file
    summarises them. Inputs wait in a durable queue per thread; the turn engine
    takes them, calls a model of a fallback chain, runs tools, and commits what
    happened. This library models the state that must survive failures and
    restarts, and the rules that keep it consistent.

    ** Parts and files

    All sources are under [src/internal]. A definition bears the name of the Go
    function, type or constant it translates; the name of a helper in
    lower_case marks a loop or a part of a function.

    - [Prelude], [GoStd]: results, the state and error monad, tactics and list
      lemmas; the parts of the Go library the sources use (strings, UTF-8, case
      folding, calendar, SHA-256).
    - [ModelHealth]: [framework/modelhealth]. The circuit breaker of the model
      chain: [Acquire] picks a candidate, [Complete] reports the outcome.
    - [StatusStream]: [foundation/statusstream]. Replaceable values with a
      bounded replay history and one buffered channel per subscriber, as small
      steps that interleave.
    - [Llm]: [foundation/llm]. Messages and blocks, the projection of a history
      for a provider, and the tool-protocol check of a transcript.
    - [Events]: the committed events that the other parts exchange.
    - [ThreadTypes], [ThreadFacts]: [framework/thread] [types.go], [id.go],
      [usage.go], [journal.go], [metadata.go], [replay.go],
      [generation_seed.go]. Facts and commits, their validation, the projection
      kept in [thread.json], and the replay of commits into it.
    - [ThreadStore]: [event_store.go], [thread.go], [foundation/jsonl/file.go]
      and the one-thread parts of [store.go], [lifecycle.go]. The directory of a
      thread ([Disk]), the handles opened on it ([Handle]), appending, rollover
      to a new generation, metadata writes, opening with recovery, archiving.
    - [ThreadReplay], [ThreadStoreInv], [ThreadStoreOps], [ThreadStoreOpen],
      [ThreadStoreProps], [ThreadStoreRestart], [ThreadStoreSafety],
      [ThreadStoreExamples]: the proofs about one thread. [ThreadStoreInv] holds
      the invariant, [ThreadStoreOps] and [ThreadStoreOpen] that each method
      keeps it, [ThreadStoreSafety] and [ThreadStoreRestart] the guarantees.
    - [ThreadTree]: [store.go], [lifecycle.go], [worker_depth.go], [inspect.go].
      All threads of an agent ([Agent]): both namespaces, trash and index; the
      parent chain, creation of workers, deletion, recovery of the layout. It
      runs the methods of [ThreadStore] on one of its directories, so [Tree]
      (an agent and all handles) refines to one [ThreadStore] system per thread.
    - [ThreadTreeInv], [ThreadTreeScan], [ThreadTreeSteps], [ThreadTreeProps],
      [ThreadTreeOps], [ThreadTreeSafety], [ThreadTreeExamples]: its proofs.
    - [ProtocolRepair], [ProtocolRepairProps], [ProtocolRepairExamples]:
      [protocol_repair.go]. The results a thread is given for tool calls that an
      interruption left open; it appends through [ThreadStore] and ends with a
      transcript that [Llm] accepts.
    - [Utf8], [ContextText], [ContextBudget]: [framework/runtime/contextbudget]
      and the part of [runtime/compact.go] that decides. Estimates of tokens,
      previews of long texts, the budgets of a context window, and the split of
      a context into what a compaction summarises and what it keeps.
      [ContextBudgetProps], [ContextCompaction] and [ContextExamples] are its
      proofs; a compaction ends in a new generation of [ThreadStore]
      ([ThreadReplay] says what such a boundary leaves behind).
    - [SummaryRequest], [SummaryText], [SummaryGeneration]:
      [contextbudget/summary.go], [runtime/compaction_summary.go],
      [compaction_reconcile.go], [compaction_summary_generation.go] and
      [foundation/markdown/literal.go]. The request for a summary and how it is
      made to fit, the headings of a summary and the sections that modules own,
      and the attempts over the models, on the breaker of [ModelHealth]. Its
      properties are in [SummaryGenerationProps], the others in the same file.
    - [Compaction], [CompactionProps]: [runtime/compact.go],
      [context_generation.go] and [framework/module/lifecycle.go]. The whole of a
      compaction from the selection of [ContextBudget] over [SummaryGeneration]
      to [ThreadStore.BeginCompactedGeneration], with the changes that modules
      stage, finish or give up; automatic compaction and a new context.
    - [ModelFallback], [ModelFallbackProps]:
      [runtime/model_fallback.go], the loop of [requestProviderTurnLocked]
      ([runtime/loop.go]) and the classification of provider errors
      ([foundation/llm/provider.go]). The candidates of a turn, the attempts over
      the breaker of [ModelHealth] with every exit, the notice of a change.
    - [PendingInputs], [PendingQueue]: [framework/runtime/pending_queue.go],
      [input_tracking.go]. The queue: the document on disk, the tables in
      memory, acceptance, state changes, retries, replay and recovery from the
      events of the thread. [PendingQueueInv], [PendingQueueProps],
      [PendingQueueRecovery], [PendingQueueExamples] are its proofs.
    - [EngineInput]: the input lifecycle of [runtime/loop.go] with
      [pending_lifecycle.go], [maintenance.go], [input_preparation.go] and the
      end of a turn in [turn_lifecycle.go]. Admitting, queueing, draining,
      restoring and withdrawing inputs over [PendingQueue], the order of the
      events, closing a turn, maintenance. [EngineInputFrame] shows what its
      calls leave alone, [EngineInputDrain] what draining does to the transcript,
      [EngineInputSound] why its loops end; [EngineInputProps],
      [EngineInputAdmission] and [EngineInputExamples] hold the properties.
    - [ToolPolicies], [ToolBatch]: [framework/module/policy.go] and the tool calls
      of a response in [runtime/loop.go] ([recordToolBatchLocked], [runToolCalls],
      [runToolCall]). A call is a process ([Proc]) that emits events, asks
      policies and calls its tool; a batch runs the calls concurrently, writes
      their outcomes to the journal and their results to the history.
      [ToolBatchProps] says what a call may do next, [ToolBatchInv] holds the
      invariant of a batch over the journal that [ProtocolRepair] reads;
      [ToolBatchSafety], [ToolBatchPolicies] and [ToolBatchExamples] hold the
      properties.
    - [LlmText], [TurnLoop]: [foundation/llm/text.go], [runtime/turn_lifecycle.go]
      with the start of a turn in [loop.go] and [context_control.go]. A turn from
      its admission to its end: it restores and records its inputs, then asks the
      model, records the answer and runs its tools until an answer ends it. It
      calls [EngineInput] for its inputs and its end, and runs a batch of
      [ToolBatch] on the journal and history of the thread; other callers receive
      inputs between its parts ([interlude]). [TurnFrame] says what a part leaves
      alone and writes, and has the rules ([triple], [calm]) of the other proofs;
      [TurnEnds], [TurnSees], [TurnStops], [TurnTranscript] hold one property
      each, [TurnExamples] the runs.
    - [GoText], [WorkspacePath], [FileTree], [ApplyPatch]: the patch tool
      ([features/applypatch/apply_patch.go]) over the resolution of paths
      ([foundation/sandbox/workspace_path.go]). [GoText] has the string and path
      functions of the Go library they use, [FileTree] the calls on files and
      directories, each with an outcome. [ApplyPatchText] is about the text of a
      patch and its hunks, [ApplyPatchFiles] about its changes to the tree,
      [ApplyPatchProps] about the whole tool, with runs.

    ** How code becomes definitions

    - State is passed explicitly. A method whose body runs under one mutex is
      one atomic step: the queue's own mutex, the lock of the agent's Store, the
      mutex of the model health. The status stream is finer, since its channels
      are used outside the mutex; the engine releases its mutex while it
      publishes an event, and the inputs that arrive then are data of the world
      ([ew_windows]), one list for each publication to come. Reachable states are the runs of a step
      relation over those methods, so any interleaving of calls is covered.
    - Errors are values of [result]; a method that fails keeps the changes it
      made before failing. Error texts are constructors. Where Go would panic on
      a nil pointer the result is an error of its own.
    - Storage calls take their outcome from an argument: success, failure
      without effect, or failure after the effect ([IoFailCommitted]), as an
      atomic write can report an error after its rename. Each theorem quantifies
      over these outcomes. A crash between two storage calls is the failure of
      the later one followed by opening again.
    - A file is its decoded content, absent, or corrupt. A journal is its list
      of commits and the length of a torn last line; the encoded size of a
      commit is a parameter ([json_size]), with no assumption but that it is not
      negative. The simple case-folding table of [unicode] ([fold]), the text of
      an effective tool input and its encoded size are parameters too, and so are
      the text of the state of modules, the ids of derived messages and the
      encoded size of a message in a request for a summary. A
      [float64] is computed in IEEE binary64 ([SpecFloat]).
    - Integers of 64 bits wrap where the code lets them. Times are nanoseconds
      since the zero time. A Go map is visited in one fixed order, and a comment
      says where another order could give another result.
    - A loop without a structural measure takes fuel, and a theorem shows that
      the fuel given is enough: [chain_fuel] (two more than the directories, each
      of which a parent chain visits once), one draw more than there are records
      for a fresh input id, one round more than there are candidates for a
      request and for a summary, one more than the binary logarithm for halving a
      budget, one probe more than there are exchanges for the search of the
      fewest to leave out, two rounds more than there are windows in which inputs arrive for
      the loops of the engine (a round that goes on has used up a window), one
      more than the length of a path for the walk to an existing ancestor
      ([ancestor_fuel]), one more than its lines for parsing a patch. The 64
      attempts for a worker id are the code's own. The loop of a turn has no bound
      in the code: its theorems hold for any fuel, and [cancelled_turn_ends] says
      how much is enough once it is cancelled. The processes of a tool batch
      need no fuel: every step goes to a part of an inductive value.
    - The links of the file system ([Links]), the mode mask and the outcome of
      each call are inputs of the patch tool; the answers of policies and tools,
      the public text of an error and the bound on shell output are inputs of a
      tool batch.

    ** What the theorems show

    - Journals ([ThreadStoreSafety], [ThreadStoreRestart], [ThreadReplay]):
      published records are never lost, changed or reordered; a handle that
      passes the staleness check holds exactly what replaying the journal gives,
      and at most one does; opening again restores it; an append that was
      interrupted before the metadata write is applied once when it records
      usage and is refused otherwise; replaying one generation over the metadata
      is replaying the whole history.
    - The agent ([ThreadTreeSafety]): the metadata of all threads stays
      consistent (unique aliases, existing parents, no cycles), depth is the
      distance to Main and creation respects its limit, the index lists exactly
      the threads, and recovering the layout repairs interrupted moves.
    - The queue ([PendingQueueProps], [PendingQueueRecovery]): memory, indexes
      and disk agree in every reachable state, an accepted input is durable, a
      completed one never runs again, an admitted one never expires, and
      recovery resolves every open admission.
    - Transcripts ([Llm], [ProtocolRepairProps]): validation decides balance of
      calls and results, the provider projection is a normal form, and a repair
      completes an interrupted transcript.
    - The context ([ContextCompaction], [ContextBudgetProps], [ContextText]): a
      compaction keeps the newest inputs that fit and the unfinished execution,
      the context it commits is the one it measured and follows the tool
      protocol; derived budgets stay within the window; previews keep their
      budgets and never split a rune.
    - Compaction ([CompactionProps], [SummaryGenerationProps],
      [SummaryRequest], [SummaryText]): a compaction is all or nothing
      for the thread and the modules, and begins only a context that it has
      measured; a summary is asked for at most once per model and once more, never
      hurts the circuit of a model, and fits its room; its request leaves out no
      more than it must; what modules say about themselves in it is exact;
      automatic compaction stops after its limit of failures.
    - Model chain ([ModelHealth], [ModelFallbackProps]): one probe at a time,
      cooldowns as tabled, stale completions fenced; a request walks the chain
      in order, ends after at most one attempt per candidate, and settles every
      circuit it reserves, whatever other turns do to the breaker in between.
    - The engine's inputs ([EngineInputProps], [EngineInputAdmission]): draining
      delivers every input once and in order, and however often it fails and
      whatever arrives meanwhile, the drain that succeeds leaves the transcript
      of one undisturbed drain; a turn starts only in an idle engine, a start
      that fails leaves it idle, a turn closes only when nothing waits for it,
      and maintenance and turns exclude each other.
    - Tool batches ([ToolBatchSafety], [ToolBatchPolicies]): a batch may stop
      anywhere and the repair tells the truth about each of its calls; every call
      is answered once, in one message that completes the transcript; no policy
      is bypassed; serial calls never overlap.
    - The turn ([TurnEnds], [TurnSees], [TurnStops], [TurnTranscript]): a call with
      a turn leaves the engine idle and the end of the turn committed or its
      failure reported; the model is shown every input before the turn ends; no
      request is built from a transcript that breaks the tool protocol; a
      cancelled turn ends.
    - Patches ([ApplyPatchText], [ApplyPatchProps]): printing and parsing are
      inverse, hunks edit in order or are refused, a patch does exactly its
      operations or leaves every file as it was, and it stays in the workspace.
    - Status streams ([StatusStream]): no lost update, exact replay, bounded
      history.
    - Some runs show flaws: an explicit retry makes the queue unloadable
      ([PendingQueueExamples]), a rollover whose metadata write fails late loses
      the thread ([ThreadStoreExamples]), a reused call id makes a repair break
      the transcript ([ProtocolRepairExamples]), a repair reports a declared
      input where a policy took it away ([ToolBatchExamples]), a hunk matches in
      the middle of a line or at overlapping places and a complete rollback is
      reported as failed ([ApplyPatchProps]), two modules can own one section
      of a summary ([SummaryText]).

    ** Not modelled

    The JSON and JSONL text layers (values are modelled decoded); nil receivers
    of handles; reads that fail although the file is there, other than the
    index; a process that dies between the creation of a thread's directory and
    its first metadata write; the content of the Context renewal files, of which
    the outcome of recovery is an input; the timeline and event views of a
    thread. Of a compaction, what reads modules and files (their contributions and
    context, the projection of inputs and of the request), the policies and the
    call of a provider are outcomes. Of the turn engine, the projection of a
    message, the input policies, the preparation of an input and the repair of
    the transcript are outcomes, and the notices to modules are left out; the
    interval in which a turn's end is published is one step, in which other calls
    only find the turn closing. Of the turn loop, compaction, a new context, the
    answer of a model and the finish policies are outcomes, and its own events are
    drawn and not logged; the active context and the projection that turn a
    history into a request are modelled by themselves ([ContextBudget], [Llm]). Of
    a tool batch, transient output, the observation
    of a result beside its outcome and the ledger of failures are left out. The
    workspace of a patch has no links or hard links inside, and its paths keep
    their case. The rest of the turn engine, modules, tools, providers, memory,
    fleet, configuration and the entry points are outside: they call services,
    processes and the network, or are candidates for extending this library (the
    write policy of the sandbox, the task list and the chunked write come first). *)

From stdpp Require Export base gmap sets list strings option fin_maps.
From Stdlib Require Export ZArith Lia.


(** ** Notations *)

Declare Scope juex_scope.
Delimit Scope juex_scope with juex.

(** Go's [time.Time] as the number of nanoseconds since the zero time (January
    1, year 1, UTC), so that [IsZero] is the test against 0 and [Truncate],
    which Go counts from the zero time, is a subtraction of a remainder.
    [time.Duration] is a number of nanoseconds. *)
Abbreviation Time := Z (only parsing).
Abbreviation Duration := Z (only parsing).

Notation "x =?s y" := (bool_decide (x = y))
  (at level 70, no associativity) : juex_scope.
Notation "x <>?s y" := (negb (bool_decide (x = y)))
  (at level 70, no associativity) : juex_scope.

(** ** Fallible results *)

(** A Go pair [(value, error)]: an error value of a component's own type. *)
Inductive result (E A : Type) : Type :=
| Ok (a : A)
| Err (e : E).

Arguments Ok {E A} a.
Arguments Err {E A} e.

#[export] Instance result_eq_dec {E A} `{EqDecision E, EqDecision A} :
  EqDecision (result E A).
Proof. solve_decision. Defined.

Definition rbind {E A B} (r : result E A) (f : A -> result E B) : result E B :=
  match r with
  | Ok a => f a
  | Err e => Err e
  end.

Definition is_ok {E A} (r : result E A) : bool :=
  match r with
  | Ok _ => true
  | Err _ => false
  end.

Notation "'try' x := c 'in' k" := (rbind c (fun x => k))
  (at level 10, x pattern, c at level 100, k at level 200) : juex_scope.
Notation "'guard_err' b 'with' e ;; k" := (if b then Err e else k)
  (at level 10, b at level 100, e at level 100, k at level 200) : juex_scope.

(** ** State and errors

    A method that threads a world and may fail. An error does not undo what the
    method has already done to the world. *)

Definition SM (W E A : Type) : Type := W -> result E A * W.

Definition ret {W E A} (a : A) : SM W E A := fun w => (Ok a, w).
Definition fail {W E A} (e : E) : SM W E A := fun w => (Err e, w).
Definition bind {W E A B} (m : SM W E A) (k : A -> SM W E B) : SM W E B := fun w =>
  match m w with
  | (Ok a, w') => k a w'
  | (Err e, w') => (Err e, w')
  end.

Notation "'do' x <- m ';;' k" := (bind m (fun x => k))
  (at level 100, x pattern, m at next level, k at level 200, right associativity) : juex_scope.
Notation "'do_' m ';;' k" := (bind m (fun _ => k))
  (at level 100, m at next level, k at level 200, right associativity) : juex_scope.

(** ** Storage outcomes

    A call to the file system may succeed, fail without effect, or take effect
    and still report an error ([homestore.WriteFileAtomic] fails this way when
    the directory cannot be synced after the rename). *)

Inductive IoResult := IoOk | IoFail | IoFailCommitted.

#[export] Instance IoResult_eq_dec : EqDecision IoResult.
Proof. solve_decision. Defined.

(** ** Tactics *)

(** Opens the conjunctions and existentials of the context. *)
Ltac destruct_all :=
  repeat match goal with
         | H : _ /\ _ |- _ => destruct H
         | H : exists _, _ |- _ => destruct H
         end.

(** One case split on a [match] or [if] of the goal or of a hypothesis. *)
Ltac split_case :=
  match goal with
  | |- context [match ?x with _ => _ end] => destruct x eqn:?
  | H : context [match ?x with _ => _ end] |- _ => destruct x eqn:?
  end.

(** The same for a scrutinee of the goal that holds no further match. *)
Ltac split_innermost :=
  match goal with
  | |- context [match ?x with _ => _ end] =>
    lazymatch x with
    | context [match _ with _ => _ end] => fail
    | _ => destruct x eqn:?
    end
  end.

(** Walks the guards of a handler from an equation about its result: splits on
    the scrutinees and drops the branches whose constructors clash. *)
Ltac walk :=
  repeat (split_case; simplify_eq/=; try done).

(** Turns decided booleans of the context into propositions. *)
Ltac to_prop :=
  repeat match goal with
         | H : bool_decide _ = true |- _ => apply bool_decide_eq_true_1 in H
         | H : bool_decide _ = false |- _ => apply bool_decide_eq_false_1 in H
         | H : negb _ = true |- _ => apply negb_true_iff in H
         | H : negb _ = false |- _ => apply negb_false_iff in H
         | H : andb _ _ = true |- _ => apply andb_true_iff in H; destruct H
         | H : orb _ _ = false |- _ => apply orb_false_iff in H; destruct H
         | H : orb _ _ = true |- _ => apply orb_true_iff in H
         | H : andb _ _ = false |- _ => apply andb_false_iff in H
         | H : (_ <? _)%Z = true |- _ => apply Z.ltb_lt in H
         | H : (_ <? _)%Z = false |- _ => apply Z.ltb_ge in H
         | H : (_ <=? _)%Z = true |- _ => apply Z.leb_le in H
         | H : (_ <=? _)%Z = false |- _ => apply Z.leb_gt in H
         | H : (_ =? _)%Z = true |- _ => apply Z.eqb_eq in H
         | H : (_ =? _)%Z = false |- _ => apply Z.eqb_neq in H
         end.

(** ** Machine integers

    Go's [int] and [int64] are 64-bit two's complement on the supported
    platforms, [uint64] is modular. *)

Definition wrap_uint64 (z : Z) : Z := z mod 2 ^ 64.

Definition wrap_int64 (z : Z) : Z := (z + 2 ^ 63) mod 2 ^ 64 - 2 ^ 63.

Definition max_int64 : Z := 2 ^ 63 - 1.
Definition min_int64 : Z := - 2 ^ 63.

(** [Time.Sub] saturates at the bounds of [Duration]. *)
Definition time_sub (t u : Time) : Duration :=
  Z.max min_int64 (Z.min max_int64 (t - u)).

(** [t.UTC().Truncate(time.Millisecond)]. *)
Definition truncate_ms (t : Time) : Time := t - t mod 1000000.

Definition second : Duration := 1000000000.

Lemma wrap_uint64_small z : (0 <= z < 2 ^ 64)%Z -> wrap_uint64 z = z.
Proof. intros H. by apply Z.mod_small. Qed.

Lemma wrap_int64_small z : (min_int64 <= z <= max_int64)%Z -> wrap_int64 z = z.
Proof.
  unfold wrap_int64, min_int64, max_int64. intros H.
  rewrite Z.mod_small; lia.
Qed.

Lemma wrap_int64_add_l a b : wrap_int64 (wrap_int64 a + b) = wrap_int64 (a + b).
Proof.
  unfold wrap_int64.
  replace ((a + 2 ^ 63) mod 2 ^ 64 - 2 ^ 63 + b + 2 ^ 63)%Z
    with ((a + 2 ^ 63) mod 2 ^ 64 + b)%Z by lia.
  rewrite Zplus_mod_idemp_l. do 2 f_equal. lia.
Qed.

Lemma wrap_int64_add_r a b : wrap_int64 (a + wrap_int64 b) = wrap_int64 (a + b).
Proof. by rewrite Z.add_comm, wrap_int64_add_l, Z.add_comm. Qed.

Lemma truncate_ms_idem t : truncate_ms (truncate_ms t) = truncate_ms t.
Proof.
  unfold truncate_ms.
  rewrite (Zminus_mod t (t mod 1000000)), Zmod_mod, Z.sub_diag, Zmod_0_l. lia.
Qed.

(** ** Runs of a step relation *)

Section Runs.
  Context {S : Type} (step : S -> S -> Prop).

Inductive runs : S -> S -> Prop :=
| runs_refl s : runs s s
| runs_step s1 s2 s3 : step s1 s2 -> runs s2 s3 -> runs s1 s3.

Lemma runs_one s1 s2 : step s1 s2 -> runs s1 s2.
Proof. intros H. eapply runs_step; [exact H | apply runs_refl]. Qed.

Lemma runs_trans s1 s2 s3 : runs s1 s2 -> runs s2 s3 -> runs s1 s3.
Proof. induction 1; eauto using runs. Qed.

(** Rule induction: a property closed under the steps holds of every state
    a run reaches. *)
Lemma runs_invariant (I : S -> Prop) :
  (forall s1 s2, I s1 -> step s1 s2 -> I s2) ->
  forall s1 s2, runs s1 s2 -> I s1 -> I s2.
Proof. intros Hstep s1 s2. induction 1; eauto. Qed.
End Runs.

(** ** Lists *)

(** At most one element of a duplicate-free list of keys is selected by a test
    that fixes the key. *)
Lemma filter_same_key {A} (key : A -> Z) (P Q : A -> Prop)
    `{!forall a, Decision (P a), !forall a, Decision (Q a)} (k : Z) (l : list A) :
  NoDup (key <$> filter P l) ->
  (forall a, Q a -> P a /\ key a = k) ->
  (length (filter Q l) <= 1)%nat.
Proof.
  intros Hnd HQ. induction l as [|a l IH]; simpl; [lia|].
  rewrite !filter_cons in *. case_decide as HPa; case_decide as HQa.
  - simpl. inversion Hnd as [|? ? Hni Hnd']; subst.
    enough (filter Q l = []) as -> by (simpl; lia).
    apply elem_of_nil_inv. intros b [HQb Hb]%list_elem_of_filter. apply Hni.
    apply list_elem_of_fmap. exists b. split.
    + destruct (HQ a HQa), (HQ b HQb). congruence.
    + apply list_elem_of_filter. split; [by apply HQ | done].
  - apply IH. by inversion Hnd.
  - destruct (HQ a HQa). contradiction.
  - by apply IH.
Qed.

Create HintDb juex.
#[export] Hint Resolve runs_refl runs_one : juex.
