(* ===== verification/GoStd.v ===== *)
(** * The parts of the Go standard library the modelled sources use

    [strings.TrimSpace] byte for byte (Go trims Unicode white space, so the
    multi-byte sequences are spelled out), prefixes and splits of strings,
    case folding of UTF-8 text, decimal and hexadecimal digits, the calendar of
    [time.Time.Format], and [crypto/sha256]. Strings are byte strings, as in Go. *)

From S2P Require Import Prelude.
From Stdlib Require Import Ascii.

Local Open Scope Z_scope.
Local Open Scope juex_scope.

(** ** Bytes *)

Definition byte_of (c : ascii) : Z := Z.of_N (N_of_ascii c).
Definition byte_to (b : Z) : ascii := ascii_of_N (Z.to_N (b mod 256)).

Fixpoint bytes_of (s : string) : list Z :=
  match s with
  | EmptyString => []
  | String c r => byte_of c :: bytes_of r
  end.

Definition string_of_bytes (l : list Z) : string :=
  foldr (fun b s => String (byte_to b) s) EmptyString l.

(** [len(s)]. *)
Definition len (s : string) : Z := Z.of_nat (String.length s).

(** [s[i:j]] for bounds within the string. *)
Definition slice (i j : Z) (s : string) : string :=
  String.substring (Z.to_nat i) (Z.to_nat (j - i)) s.

(** ** White space *)

Definition is_space_byte (b : Z) : bool :=
  (b =? 32) || ((9 <=? b) && (b <=? 13)).

(** The multi-byte white space of [unicode.IsSpace]: U+0085, U+00A0, U+1680,
    U+2000..U+200A, U+2028, U+2029, U+202F, U+205F, U+3000. *)
Definition is_space2 (a b : Z) : bool :=
  (a =? 194) && ((b =? 133) || (b =? 160)).

Definition is_space3 (a b c : Z) : bool :=
  ((a =? 225) && (b =? 154) && (c =? 128)) ||
  ((a =? 226) && (b =? 128) &&
     (((128 <=? c) && (c <=? 138)) || (c =? 168) || (c =? 169) || (c =? 175))) ||
  ((a =? 226) && (b =? 129) && (c =? 159)) ||
  ((a =? 227) && (b =? 128) && (c =? 128)).

(** How many bytes of white space start the list. *)
Definition space_prefix (l : list Z) : nat :=
  match l with
  | a :: r =>
    if is_space_byte a then 1
    else match r with
         | b :: r' =>
           if is_space2 a b then 2
           else match r' with
                | c :: _ => if is_space3 a b c then 3 else 0
                | [] => 0
                end
         | [] => 0
         end
  | [] => 0
  end%nat.

(** The same at the end, on the reversed list. *)
Definition space_suffix (l : list Z) : nat :=
  match l with
  | c :: r =>
    if is_space_byte c then 1
    else match r with
         | b :: r' =>
           if is_space2 b c then 2
           else match r' with
                | a :: _ => if is_space3 a b c then 3 else 0
                | [] => 0
                end
         | [] => 0
         end
  | [] => 0
  end%nat.

Fixpoint strip (measure : list Z -> nat) (fuel : nat) (l : list Z) : list Z :=
  match fuel with
  | O => l
  | S fuel =>
    match measure l with
    | O => l
    | n => strip measure fuel (drop n l)
    end
  end.

Definition trim_left_bytes (l : list Z) : list Z := strip space_prefix (length l) l.
Definition trim_right_bytes (l : list Z) : list Z :=
  rev (strip space_suffix (length l) (rev l)).

(** [strings.TrimSpace]. *)
Definition TrimSpace (s : string) : string :=
  string_of_bytes (trim_right_bytes (trim_left_bytes (bytes_of s))).

(** ** Digits *)

Definition digit (n : Z) : ascii := byte_to (48 + n mod 10).

(** The [w] low decimal digits of [n], zero padded. *)
Fixpoint pad_digits (w : nat) (n : Z) : string :=
  match w with
  | O => EmptyString
  | S w => (pad_digits w (n / 10) ++ String (digit n) EmptyString)%string
  end.

Fixpoint digits_fuel (fuel : nat) (n : Z) : string :=
  match fuel with
  | O => EmptyString
  | S fuel =>
    if n <? 10 then String (digit n) EmptyString
    else (digits_fuel fuel (n / 10) ++ String (digit n) EmptyString)%string
  end.

(** [strconv.Itoa]; 20 digits hold every 64-bit value. *)
Definition Itoa (n : Z) : string :=
  if n <? 0 then String "-" (digits_fuel 20 (- n)) else digits_fuel 20 n.

(** [fmt.Sprintf("%06d", n)]: zero padding to a width that counts the sign. *)
Definition zeros (n : nat) : string := string_of_bytes (repeat 48 n).
Definition Sprintf06d (n : Z) : string :=
  if n <? 0
  then let d := digits_fuel 20 (- n) in
       String "-" (zeros (5 - String.length d) ++ d)%string
  else let d := digits_fuel 20 n in (zeros (6 - String.length d) ++ d)%string.

Definition is_digit (b : Z) : bool := (48 <=? b) && (b <=? 57).

Fixpoint digits_value (acc : Z) (l : list Z) : option Z :=
  match l with
  | [] => Some acc
  | b :: r => if is_digit b then digits_value (acc * 10 + (b - 48)) r else None
  end.

(** [strconv.Atoi]: an optional sign, decimal digits, a value that fits. *)
Definition Atoi (s : string) : option Z :=
  let l := bytes_of s in
  let '(neg, d) := match l with
                   | 45 :: r => (true, r)
                   | 43 :: r => (false, r)
                   | _ => (false, l)
                   end in
  match d, digits_value 0 d with
  | _ :: _, Some n =>
    let v := if neg : bool then - n else n in
    if (min_int64 <=? v) && (v <=? max_int64) then Some v else None
  | _, _ => None
  end.

(** [strings.Cut] at a one-byte separator. *)
Fixpoint Cut (sep : ascii) (s : string) : option (string * string) :=
  match s with
  | EmptyString => None
  | String c r =>
    if Ascii.eqb c sep then Some (EmptyString, r)
    else match Cut sep r with
         | Some (a, b) => Some (String c a, b)
         | None => None
         end
  end.

(** ** Case folding

    The runes of a string as [range] yields them: an invalid byte is the rune
    error and takes one byte. *)

Definition RuneError : Z := 65533.
Definition continuation (b : Z) : bool := (128 <=? b) && (b <=? 191).

(** The second byte after [b0]; four first bytes narrow its range. *)
Definition second_byte (b0 b1 : Z) : bool :=
  if b0 =? 224 then (160 <=? b1) && (b1 <=? 191)
  else if b0 =? 237 then (128 <=? b1) && (b1 <=? 159)
  else if b0 =? 240 then (144 <=? b1) && (b1 <=? 191)
  else if b0 =? 244 then (128 <=? b1) && (b1 <=? 143)
  else continuation b1.

Definition low_bits (b : Z) : Z := Z.land b 63.
Definition rune2 (b0 b1 : Z) : Z := Z.land b0 31 * 64 + low_bits b1.
Definition rune3 (b0 b1 b2 : Z) : Z := (Z.land b0 15 * 64 + low_bits b1) * 64 + low_bits b2.
Definition rune4 (b0 b1 b2 b3 : Z) : Z :=
  ((Z.land b0 7 * 64 + low_bits b1) * 64 + low_bits b2) * 64 + low_bits b3.

Fixpoint runes (l : list Z) : list Z :=
  match l with
  | [] => []
  | b0 :: r =>
    if b0 <? 128 then b0 :: runes r
    else match r with
    | b1 :: r1 =>
      if (194 <=? b0) && (b0 <=? 223) && second_byte b0 b1 then rune2 b0 b1 :: runes r1
      else match r1 with
      | b2 :: r2 =>
        if (224 <=? b0) && (b0 <=? 239) && second_byte b0 b1 && continuation b2
        then rune3 b0 b1 b2 :: runes r2
        else match r2 with
        | b3 :: r3 =>
          if (240 <=? b0) && (b0 <=? 244) && second_byte b0 b1 && continuation b2 &&
             continuation b3
          then rune4 b0 b1 b2 b3 :: runes r3
          else RuneError :: runes r
        | [] => RuneError :: runes r
        end
      | [] => RuneError :: runes r
      end
    | [] => RuneError :: runes r
    end
  end.

(** [strings.EqualFold]: rune by rune, up to [unicode.SimpleFold]; [fold] is the
    table of the [unicode] package, as the representative of a rune's orbit. *)
Definition EqualFold (fold : Z -> Z) (s t : string) : bool :=
  bool_decide (map fold (runes (bytes_of s)) = map fold (runes (bytes_of t))).

Definition lower_byte (b : Z) : Z := if (65 <=? b) && (b <=? 90) then b + 32 else b.

(** [strings.ToLower] of a string of single-byte runes. *)
Definition ToLower (s : string) : string := string_of_bytes (map lower_byte (bytes_of s)).

(** The part of the table below 128. *)
Definition fold_ascii (r : Z) : Z := lower_byte r.

(** ** Digests *)

Definition hex_digit (n : Z) : ascii :=
  byte_to (if n <? 10 then 48 + n else 87 + n).

(** [hex.EncodeToString]. *)
Definition hex_encode (l : list Z) : string :=
  foldr (fun b s => String (hex_digit (b / 16 mod 16)) (String (hex_digit (b mod 16)) s))
    EmptyString l.

(** ** Calendar *)

(** Year, month and day of a day count from January 1, year 1 (proleptic
    Gregorian), counting years from March. *)
Definition civil (days : Z) : Z * Z * Z :=
  let z := days + 306 in
  let era := z / 146097 in
  let doe := z mod 146097 in
  let yoe := (doe - doe / 1460 + doe / 36524 - doe / 146096) / 365 in
  let doy := doe - (365 * yoe + yoe / 4 - yoe / 100) in
  let mp := (5 * doy + 2) / 153 in
  let d := doy - (153 * mp + 2) / 5 + 1 in
  let m := if mp <? 10 then mp + 3 else mp - 9 in
  (yoe + era * 400 + (if m <=? 2 then 1 else 0), m, d).

Definition format_year (y : Z) : string :=
  if y <? 0 then String "-" (pad_digits 4 (- y))
  else if y <? 10000 then pad_digits 4 y else Itoa y.

(** [t.UTC().Format("20060102T150405.000")]. *)
Definition format_compact_ms (t : Time) : string :=
  let days := t / (86400 * second) in
  let ns := t mod (86400 * second) in
  let s := ns / second in
  let '(y, m, d) := civil days in
  (format_year y ++ pad_digits 2 m ++ pad_digits 2 d ++ "T" ++
   pad_digits 2 (s / 3600) ++ pad_digits 2 (s / 60 mod 60) ++ pad_digits 2 (s mod 60) ++
   "." ++ pad_digits 3 (ns mod second / 1000000))%string.

(** ** SHA-256 *)

Module Sha256.

Definition word (z : Z) : Z := z mod 2 ^ 32.
Definition rotr (n x : Z) : Z :=
  Z.lor (Z.shiftr x n) (word (Z.shiftl x (32 - n))).
Definition lnot32 (x : Z) : Z := Z.lxor x (2 ^ 32 - 1).

(** The first 64 primes; the constants of the hash are the first 32 fractional
    bits of their cube roots and, for the first eight, of their square roots. *)
Definition primes : list Z :=
  filter (fun n => forallb (fun d => negb (n mod d =? 0)) (map Z.of_nat (seq 2 (Z.to_nat n - 2))) = true)
    (map Z.of_nat (seq 2 310)).

(** The largest [r] with [r ^ 3 <= n], bit by bit from [2 ^ k]. *)
Fixpoint cbrt_from (k : nat) (r n : Z) : Z :=
  let r' := if (r + 2 ^ Z.of_nat k) ^ 3 <=? n then r + 2 ^ Z.of_nat k else r in
  match k with
  | O => r'
  | S k => cbrt_from k r' n
  end.

Definition K : list Z :=
  Eval vm_compute in map (fun p => cbrt_from 36 0 (p * 2 ^ 96) mod 2 ^ 32) primes.

Record state := mkH { h0 : Z; h1 : Z; h2 : Z; h3 : Z; h4 : Z; h5 : Z; h6 : Z; h7 : Z }.

Definition init : state :=
  Eval vm_compute in
  match map (fun p => Z.sqrt (p * 2 ^ 64) mod 2 ^ 32) primes with
  | a :: b :: c :: d :: e :: f :: g :: h :: _ => mkH a b c d e f g h
  | _ => mkH 0 0 0 0 0 0 0 0
  end.

Fixpoint be_word (l : list Z) (acc : Z) : Z :=
  match l with
  | [] => acc
  | b :: r => be_word r (acc * 256 + b)
  end.

Definition be_bytes (n : nat) (z : Z) : list Z :=
  map (fun i => Z.shiftr z (8 * Z.of_nat i) mod 256) (rev (seq 0 n)).

Definition pad (l : list Z) : list Z :=
  let n := Z.of_nat (length l) in
  let zeros := Z.to_nat ((55 - n) mod 64) in
  l ++ [128] ++ replicate zeros 0 ++ be_bytes 8 (n * 8).

Fixpoint chunks (fuel n : nat) (l : list Z) : list (list Z) :=
  match fuel, l with
  | S fuel, _ :: _ => take n l :: chunks fuel n (drop n l)
  | _, _ => []
  end.

(** The message schedule, newest word first. *)
Fixpoint extend (k : nat) (w : list Z) : list Z :=
  match k with
  | O => w
  | S k =>
    let at_ i := nth i w 0 in
    let x := at_ 14%nat in
    let y := at_ 1%nat in
    let s0 := Z.lxor (rotr 7 x) (Z.lxor (rotr 18 x) (Z.shiftr x 3)) in
    let s1 := Z.lxor (rotr 17 y) (Z.lxor (rotr 19 y) (Z.shiftr y 10)) in
    extend k (word (at_ 15%nat + s0 + at_ 6%nat + s1) :: w)
  end.

Definition round (s : state) (kw : Z * Z) : state :=
  let '(k, w) := kw in
  let 'mkH a b c d e f g h := s in
  let S1 := Z.lxor (rotr 6 e) (Z.lxor (rotr 11 e) (rotr 25 e)) in
  let ch := Z.lxor (Z.land e f) (Z.land (lnot32 e) g) in
  let t1 := h + S1 + ch + k + w in
  let S0 := Z.lxor (rotr 2 a) (Z.lxor (rotr 13 a) (rotr 22 a)) in
  let maj := Z.lxor (Z.land a b) (Z.lxor (Z.land a c) (Z.land b c)) in
  mkH (word (t1 + S0 + maj)) a b c (word (d + t1)) e f g.

Definition add (s t : state) : state :=
  mkH (word (h0 s + h0 t)) (word (h1 s + h1 t)) (word (h2 s + h2 t)) (word (h3 s + h3 t))
      (word (h4 s + h4 t)) (word (h5 s + h5 t)) (word (h6 s + h6 t)) (word (h7 s + h7 t)).

Definition block (s : state) (b : list Z) : state :=
  let w := rev (extend 48 (rev (map (fun c => be_word c 0) (chunks 16 4 b)))) in
  add s (fold_left round (combine K w) s).

(** [sha256.Sum256]: the 32 bytes of the digest. *)
Definition Sum256 (l : list Z) : list Z :=
  let p := pad l in
  let s := fold_left block (chunks (length p) 64 p) init in
  concat (map (be_bytes 4)
    [h0 s; h1 s; h2 s; h3 s; h4 s; h5 s; h6 s; h7 s]).

Example Sum256_abc : hex_encode (Sum256 (bytes_of "abc")) =
  "ba7816bf8f01cfea414140de5dae2223b00361a396177a9cb410ff61f20015ad".
Proof. vm_compute. reflexivity. Qed.

End Sha256.

(** ** Lemmas *)

Definition is_byte (b : Z) : Prop := 0 <= b < 256.

Lemma byte_of_range c : is_byte (byte_of c).
Proof. unfold is_byte, byte_of. pose proof (N_ascii_bounded c). lia. Qed.

Lemma byte_to_of c : byte_to (byte_of c) = c.
Proof.
  unfold byte_to. pose proof (byte_of_range c). unfold is_byte, byte_of in *.
  rewrite Z.mod_small by lia. rewrite N2Z.id. apply ascii_N_embedding.
Qed.

Lemma byte_of_to b : is_byte b -> byte_of (byte_to b) = b.
Proof.
  unfold is_byte, byte_of, byte_to. intros H.
  rewrite Z.mod_small by lia. rewrite N_ascii_embedding; lia.
Qed.

Lemma string_of_bytes_of s : string_of_bytes (bytes_of s) = s.
Proof. induction s as [|c s IH]; [done|]. simpl. by rewrite byte_to_of, IH. Qed.

Lemma bytes_of_range s : Forall is_byte (bytes_of s).
Proof. induction s; simpl; constructor; auto using byte_of_range. Qed.

Lemma bytes_of_string l : Forall is_byte l -> bytes_of (string_of_bytes l) = l.
Proof. induction 1; simpl; [done|]. by rewrite byte_of_to, IHForall. Qed.

Lemma bytes_of_app s t : bytes_of (s ++ t)%string = bytes_of s ++ bytes_of t.
Proof. induction s; simpl; [done|]. by f_equal. Qed.

Lemma bytes_of_length s : length (bytes_of s) = String.length s.
Proof. induction s; simpl; congruence. Qed.

Lemma bytes_of_inj s t : bytes_of s = bytes_of t -> s = t.
Proof. intros H. rewrite <- (string_of_bytes_of s), H. apply string_of_bytes_of. Qed.

(** Stripping ends at a list that starts with no white space. *)
Section Strip.
  Context (measure : list Z -> nat).
  Hypothesis measure_le : forall l, (measure l <= length l)%nat.

Lemma strip_stops fuel l : (length l <= fuel)%nat -> measure (strip measure fuel l) = 0%nat.
Proof.
  revert l. induction fuel as [|fuel IH]; intros l Hl; simpl.
  - pose proof (measure_le l). lia.
  - pose proof (measure_le l). destruct (measure l) as [|n] eqn:E; [done|].
    apply IH. rewrite length_drop. lia.
Qed.

Lemma strip_fixed fuel l : measure l = 0%nat -> strip measure fuel l = l.
Proof. destruct fuel; simpl; [done|]. by intros ->. Qed.

Lemma strip_suffix fuel l : exists p, l = p ++ strip measure fuel l.
Proof.
  revert l. induction fuel as [|fuel IH]; intros l; simpl; [by exists []|].
  destruct (measure l) as [|n] eqn:E; [by exists []|].
  destruct (IH (drop (S n) l)) as [p Hp]. exists (take (S n) l ++ p).
  rewrite <- app_assoc, <- Hp. by rewrite take_drop.
Qed.
End Strip.

Lemma space_prefix_le l : (space_prefix l <= length l)%nat.
Proof. unfold space_prefix. repeat case_match; simpl; lia. Qed.

Lemma space_suffix_le l : (space_suffix l <= length l)%nat.
Proof. unfold space_suffix. repeat case_match; simpl; lia. Qed.

(** White space that starts a prefix of a list starts the list. *)
Lemma space_prefix_app l r : space_prefix (l ++ r) = 0%nat -> space_prefix l = 0%nat.
Proof.
  destruct l as [|a [|b [|c l]]]; simpl; [done|..];
    repeat case_match; simplify_eq/=; done.
Qed.

Lemma trim_right_bytes_spec l :
  exists r, l = trim_right_bytes l ++ r /\ space_suffix (rev (trim_right_bytes l)) = 0%nat.
Proof.
  unfold trim_right_bytes. destruct (strip_suffix space_suffix (length l) (rev l)) as [p Hp].
  exists (rev p). rewrite rev_involutive. split.
  - rewrite <- rev_app_distr, <- Hp. by rewrite rev_involutive.
  - apply strip_stops; [apply space_suffix_le|]. by rewrite length_rev.
Qed.

Lemma trim_bytes_fixed l : space_prefix l = 0%nat -> space_suffix (rev l) = 0%nat ->
  trim_right_bytes (trim_left_bytes l) = l.
Proof.
  intros Hp Hs. unfold trim_left_bytes. rewrite strip_fixed by done.
  unfold trim_right_bytes. rewrite strip_fixed by done. apply rev_involutive.
Qed.

Lemma TrimSpace_ends s :
  let l := bytes_of (TrimSpace s) in
  space_prefix l = 0%nat /\ space_suffix (rev l) = 0%nat.
Proof.
  unfold TrimSpace. cbv zeta.
  destruct (strip_suffix space_prefix (length (bytes_of s)) (bytes_of s)) as [p Hp].
  fold (trim_left_bytes (bytes_of s)) in Hp.
  destruct (trim_right_bytes_spec (trim_left_bytes (bytes_of s))) as (r & Hr & Hsuf).
  assert (Forall is_byte (trim_right_bytes (trim_left_bytes (bytes_of s)))) as HF.
  { pose proof (bytes_of_range s) as HF. rewrite Hp, Hr in HF.
    apply Forall_app in HF as [_ HF]. by apply Forall_app in HF as [HF _]. }
  rewrite bytes_of_string by done. split; [|done].
  eapply space_prefix_app. rewrite <- Hr. apply strip_stops; [apply space_prefix_le | done].
Qed.

Lemma TrimSpace_fixed s :
  space_prefix (bytes_of s) = 0%nat -> space_suffix (rev (bytes_of s)) = 0%nat ->
  TrimSpace s = s.
Proof.
  intros Hp Hs. unfold TrimSpace. rewrite trim_bytes_fixed by done.
  apply string_of_bytes_of.
Qed.

Lemma TrimSpace_idem s : TrimSpace (TrimSpace s) = TrimSpace s.
Proof. destruct (TrimSpace_ends s). by apply TrimSpace_fixed. Qed.

(** A string between two printable ASCII bytes is already trimmed. *)
Definition printable (b : Z) : Prop := 33 <= b < 127.

Lemma space_ends_printable l a r : l = a :: r -> printable a -> space_prefix l = 0%nat.
Proof.
  unfold printable. intros -> Ha. simpl. unfold is_space_byte, is_space2, is_space3.
  repeat (rewrite (proj2 (Z.eqb_neq _ _)) by lia). rewrite (proj2 (Z.leb_gt a 13)) by lia.
  rewrite !andb_false_r. simpl. by repeat case_match.
Qed.

Lemma space_suffix_printable l a r : l = a :: r -> printable a -> space_suffix l = 0%nat.
Proof.
  unfold printable. intros -> Ha. simpl. unfold is_space_byte, is_space2, is_space3.
  rewrite (proj2 (Z.leb_gt a 13)) by lia.
  rewrite (proj2 (Z.eqb_neq a 32)), (proj2 (Z.eqb_neq a 133)), (proj2 (Z.eqb_neq a 160)),
    (proj2 (Z.eqb_neq a 128)), (proj2 (Z.eqb_neq a 159)), (proj2 (Z.eqb_neq a 168)),
    (proj2 (Z.eqb_neq a 169)), (proj2 (Z.eqb_neq a 175)), (proj2 (Z.leb_gt 128 a)) by lia.
  rewrite !andb_false_r. repeat case_match; simplify_eq/=; try done;
    rewrite ?andb_false_r in *; done.
Qed.

Lemma TrimSpace_printable s a m b :
  bytes_of s = a :: m ++ [b] -> printable a -> printable b -> TrimSpace s = s.
Proof.
  intros H Ha Hb. apply TrimSpace_fixed.
  - by eapply space_ends_printable.
  - eapply (space_suffix_printable _ b (rev (a :: m))); [|done].
    rewrite H. change (a :: m ++ [b]) with ((a :: m) ++ [b]). by rewrite rev_app_distr.
Qed.

Lemma hex_digit_printable n : 0 <= n < 16 -> printable (byte_of (hex_digit n)).
Proof.
  intros H. unfold hex_digit, printable. rewrite byte_of_to; unfold is_byte;
    destruct (Z.ltb_spec n 10); lia.
Qed.

Lemma hex_encode_app l r : hex_encode (l ++ r) = (hex_encode l ++ hex_encode r)%string.
Proof. induction l; simpl; [done|]. by rewrite IHl. Qed.

Lemma hex_encode_last l b : exists m c,
  bytes_of (hex_encode (l ++ [b])) = m ++ [c] /\ printable c.
Proof.
  rewrite hex_encode_app, bytes_of_app. simpl. eexists (_ ++ [_]), _.
  rewrite <- app_assoc. split; [done|]. apply hex_digit_printable. apply Z.mod_pos_bound. lia.
Qed.

Lemma Sum256_length l : length (Sha256.Sum256 l) = 32%nat.
Proof. reflexivity. Qed.

(** ** Decimal digits *)

Lemma is_digit_byte n : 0 <= n < 10 -> is_digit (48 + n) = true.
Proof. intros H. unfold is_digit. apply andb_true_iff. rewrite !Z.leb_le. lia. Qed.

Lemma bytes_of_digit n : bytes_of (String (digit n) EmptyString) = [48 + n mod 10].
Proof.
  cbn [bytes_of]. unfold digit. rewrite byte_of_to; [done|].
  pose proof (Z.mod_pos_bound n 10). unfold is_byte. lia.
Qed.

Lemma pad_digits_length w n : length (bytes_of (pad_digits w n)) = w.
Proof.
  revert n. induction w as [|w IH]; intros n; [done|].
  cbn [pad_digits]. rewrite bytes_of_app, bytes_of_digit, length_app, IH. simpl. lia.
Qed.

Lemma digits_value_app acc l r : digits_value acc (l ++ r) =
  match digits_value acc l with Some n => digits_value n r | None => None end.
Proof.
  revert acc. induction l as [|b l IH]; intros acc; [done|]. simpl.
  destruct (is_digit b); [apply IH | done].
Qed.

(** Reading the padded digits of a number that fits gives it back. *)
Lemma digits_value_pad w acc n : 0 <= n < 10 ^ Z.of_nat w ->
  digits_value acc (bytes_of (pad_digits w n)) = Some (acc * 10 ^ Z.of_nat w + n).
Proof.
  revert n. induction w as [|w IH]; intros n Hn.
  - cbn [pad_digits bytes_of digits_value]. change (10 ^ Z.of_nat 0) with 1 in *. f_equal. lia.
  - rewrite Nat2Z.inj_succ, Z.pow_succ_r in * by lia.
    cbn [pad_digits]. rewrite bytes_of_app, digits_value_app, bytes_of_digit, IH.
    2: { split; [apply Z.div_pos; lia | apply Z.div_lt_upper_bound; lia]. }
    pose proof (Z.mod_pos_bound n 10). pose proof (Z.div_mod n 10).
    cbn [digits_value]. rewrite is_digit_byte by lia. f_equal. lia.
Qed.

(** Zero padding to a width the digits fit in. *)
Lemma bytes_of_zeros k : bytes_of (zeros k) = repeat 48 k.
Proof.
  unfold zeros. apply bytes_of_string.
  induction k; simpl; constructor; [unfold is_byte; lia | done].
Qed.

Lemma pad_zero k : bytes_of (pad_digits k 0) = repeat 48 k.
Proof.
  induction k as [|k IH]; [done|]. cbn [pad_digits].
  rewrite bytes_of_app, bytes_of_digit, Z.div_0_l, IH by lia.
  change (48 + 0 mod 10) with 48. change ([48]) with (repeat 48 1).
  rewrite <- repeat_app. f_equal. lia.
Qed.

Lemma digits_fuel_pad fuel k n : 0 <= n < 10 ^ Z.of_nat k -> (1 <= k <= fuel)%nat ->
  (String.length (digits_fuel fuel n) <= k)%nat /\
  repeat 48 (k - String.length (digits_fuel fuel n)) ++ bytes_of (digits_fuel fuel n) =
  bytes_of (pad_digits k n).
Proof.
  revert k n. induction fuel as [|fuel IH]; intros k n Hn Hk; [lia|].
  destruct k as [|k]; [lia|]. cbn [digits_fuel pad_digits].
  rewrite <- (bytes_of_length (if n <? 10 then _ else _)).
  destruct (n <? 10) eqn:Hlt; to_prop.
  - rewrite bytes_of_app, bytes_of_digit. cbn [length].
    rewrite (Z.div_small n 10), pad_zero by lia. split; [lia|].
    replace (S k - 1)%nat with k by lia. done.
  - assert (1 <= k)%nat.
    { destruct k; [|lia]. change (10 ^ Z.of_nat 1) with 10 in Hn. lia. }
    rewrite Nat2Z.inj_succ, Z.pow_succ_r in Hn by lia.
    destruct (IH k (n / 10)) as [Hlen Heq]; [|lia|].
    { split; [apply Z.div_pos; lia | apply Z.div_lt_upper_bound; lia]. }
    rewrite !bytes_of_app, !bytes_of_digit, <- Heq, length_app, bytes_of_length. simpl.
    split; [lia|]. rewrite app_assoc. f_equal. f_equal. f_equal. lia.
Qed.

Lemma Sprintf06d_pad n : 0 <= n < 1000000 -> Sprintf06d n = pad_digits 6 n.
Proof.
  intros Hn. unfold Sprintf06d. destruct (n <? 0) eqn:Hneg; to_prop; [lia|].
  apply bytes_of_inj. rewrite bytes_of_app, bytes_of_zeros.
  apply (digits_fuel_pad 20 6); [exact Hn | lia].
Qed.

(** A number that needs more digits is printed longer. *)
Lemma digits_fuel_long fuel k n : 10 ^ Z.of_nat k <= n -> (S k <= fuel)%nat ->
  (S k <= String.length (digits_fuel fuel n))%nat.
Proof.
  revert k n. induction fuel as [|fuel IH]; intros k n Hn Hk; [lia|].
  cbn [digits_fuel]. destruct (n <? 10) eqn:Hlt; to_prop.
  - simpl. destruct k as [|k]; [lia|].
    rewrite Nat2Z.inj_succ, Z.pow_succ_r in Hn by lia.
    pose proof (Z.pow_pos_nonneg 10 (Z.of_nat k)). lia.
  - rewrite <- bytes_of_length, bytes_of_app, bytes_of_digit, length_app, bytes_of_length. simpl.
    destruct k as [|k]; [lia|].
    assert (S k <= String.length (digits_fuel fuel (n / 10)))%nat; [|lia].
    apply IH; [|lia]. rewrite Nat2Z.inj_succ, Z.pow_succ_r in Hn by lia.
    apply Z.div_le_lower_bound; lia.
Qed.

Lemma Sprintf06d_long n : 1000000 <= n -> 7 <= len (Sprintf06d n).
Proof.
  intros Hn. unfold Sprintf06d. destruct (n <? 0) eqn:Hneg; to_prop; [lia|].
  unfold len. rewrite <- bytes_of_length, bytes_of_app, length_app, !bytes_of_length.
  pose proof (digits_fuel_long 20 6 n). lia.
Qed.

Lemma Atoi_pad w n : 0 <= n < 10 ^ Z.of_nat w -> (1 <= w <= 18)%nat ->
  Atoi (pad_digits w n) = Some n.
Proof.
  intros Hn Hw. unfold Atoi.
  pose proof (digits_value_pad w 0 n Hn) as Hv. rewrite Z.add_0_l in Hv.
  pose proof (pad_digits_length w n) as Hl.
  destruct (bytes_of (pad_digits w n)) as [|b r]; [simpl in Hl; lia|].
  assert (is_digit b = true) as Hb.
  { simpl in Hv. by destruct (is_digit b). }
  unfold is_digit in Hb. apply andb_true_iff in Hb. rewrite !Z.leb_le in Hb.
  assert (10 ^ Z.of_nat w <= 10 ^ 18) by (apply Z.pow_le_mono_r; lia).
  assert ((min_int64 <=? n) && (n <=? max_int64) = true) as Hr.
  { apply andb_true_iff. rewrite !Z.leb_le. unfold min_int64, max_int64. lia. }
  replace (match b with 45 => (true, r) | 43 => (false, r) | _ => (false, b :: r) end)
    with (false, b :: r).
  - rewrite Hv. simpl. by rewrite Hr.
  - destruct b as [|b|b]; [lia| |lia]. by do 6 (destruct b as [b|b|]; try done; try lia).
Qed.

(** ** Substrings *)

Definition occurs (s text : string) : Prop := exists before after, text = (before ++ s ++ after)%string.

Lemma append_assoc (a b c : string) : ((a ++ b) ++ c)%string = (a ++ b ++ c)%string.
Proof. induction a as [|x a IH]; [done|exact (f_equal (String x) IH)]. Qed.

Lemma append_nil_r (a : string) : (a ++ "")%string = a.
Proof. induction a as [|x a IH]; [done|exact (f_equal (String x) IH)]. Qed.

Lemma occurs_refl s : occurs s s.
Proof. exists ""%string, ""%string. exact (eq_sym (append_nil_r s)). Qed.

Lemma occurs_nil s : occurs "" s.
Proof. by exists ""%string, s. Qed.

Lemma occurs_l s a b : occurs s a -> occurs s (a ++ b)%string.
Proof. intros (x & y & ->). exists x, (y ++ b)%string. by rewrite !append_assoc. Qed.

Lemma occurs_r s a b : occurs s b -> occurs s (a ++ b)%string.
Proof. intros (x & y & ->). exists (a ++ x)%string, y. by rewrite !append_assoc. Qed.

Lemma occurs_concat s x l : x ∈ l -> occurs s x -> occurs s (String.concat "" l).
Proof.
  intros Hx Hs. induction l as [|y l IH]; [by apply elem_of_nil in Hx|]. destruct l as [|z l].
  - apply list_elem_of_singleton in Hx as ->. exact Hs.
  - cbn [String.concat]. apply elem_of_cons in Hx as [->|Hx]; [by apply occurs_l|].
    apply occurs_r. simpl. by apply IH.
Qed.
