(* ===== verification/Utf8.v ===== *)
(** * UTF-8 as the Go package [unicode/utf8] decodes it

    Decoding the first and the last rune of a byte string, valid or not, and the
    segmentation of a string into the runes that [range] visits. The two
    directions agree: decoding backwards takes the last segment. With them the
    functions of [strings] that search and lower text. *)

From S2P Require Import Prelude GoStd.

Local Open Scope Z_scope.
Local Open Scope juex_scope.

(** [utf8.DecodeRuneInString]. *)
Definition decode_rune (l : list Z) : Z * nat :=
  match l with
  | [] => (RuneError, 0%nat)
  | b0 :: r =>
    if b0 <? 128 then (b0, 1%nat)
    else match r with
    | b1 :: r1 =>
      if (194 <=? b0) && (b0 <=? 223) && second_byte b0 b1 then (rune2 b0 b1, 2%nat)
      else match r1 with
      | b2 :: r2 =>
        if (224 <=? b0) && (b0 <=? 239) && second_byte b0 b1 && continuation b2
        then (rune3 b0 b1 b2, 3%nat)
        else match r2 with
        | b3 :: _ =>
          if (240 <=? b0) && (b0 <=? 244) && second_byte b0 b1 && continuation b2 &&
             continuation b3
          then (rune4 b0 b1 b2 b3, 4%nat)
          else (RuneError, 1%nat)
        | [] => (RuneError, 1%nat)
        end
      | [] => (RuneError, 1%nat)
      end
    | [] => (RuneError, 1%nat)
    end
  end.

(** [utf8.RuneStart]. *)
Definition RuneStart (b : Z) : bool := negb (continuation b).

Fixpoint seek_start (fuel : nat) (l : list Z) (lim start : Z) : Z :=
  match fuel with
  | O => start
  | S k =>
    if start <? lim then start
    else if RuneStart (default 0 (l !! Z.to_nat start)) then start
    else seek_start k l lim (start - 1)
  end.

(** [utf8.DecodeLastRuneInString]: at most [UTFMax] bytes back. *)
Definition decode_last_rune (l : list Z) : Z * nat :=
  let e := Z.of_nat (length l) in
  match last l with
  | None => (RuneError, 0%nat)
  | Some b =>
    if b <? 128 then (b, 1%nat)
    else
      let lim := Z.max 0 (e - 4) in
      let start := Z.max 0 (seek_start 4 l lim (e - 2)) in
      let '(r, size) := decode_rune (drop (Z.to_nat start) l) in
      if negb (start + Z.of_nat size =? e) then (RuneError, 1%nat) else (r, size)
  end.

(** [utf8.RuneCountInString]. *)
Definition RuneCount (l : list Z) : Z := Z.of_nat (length (runes l)).

(** [utf8.AppendRune]. *)
Definition encode_rune (r : Z) : list Z :=
  if (r <? 0) || (1114111 <? r) || ((55296 <=? r) && (r <=? 57343)) then [239; 191; 189]
  else if r <? 128 then [r]
  else if r <? 2048 then [192 + r / 64; 128 + r mod 64]
  else if r <? 65536 then [224 + r / 4096; 128 + r / 64 mod 64; 128 + r mod 64]
  else [240 + r / 262144; 128 + r / 4096 mod 64; 128 + r / 64 mod 64; 128 + r mod 64].

(** [strings.ToLower]: rune by rune; [lower] is the table of [unicode.ToLower]. *)
Definition LowerText (lower : Z -> Z) (s : string) : string :=
  string_of_bytes (concat (map (fun r => encode_rune (lower r)) (runes (bytes_of s)))).

(** [strings.Contains]. *)
Fixpoint has_prefix (p l : list Z) : bool :=
  match p, l with
  | [], _ => true
  | a :: p', b :: l' => (a =? b) && has_prefix p' l'
  | _, [] => false
  end.

Fixpoint contains_bytes (p l : list Z) : bool :=
  has_prefix p l ||
  match l with
  | [] => false
  | _ :: r => contains_bytes p r
  end.

Definition Contains (s sub : string) : bool := contains_bytes (bytes_of sub) (bytes_of s).

(** [strings.FieldsFunc] for separators that are everything but some ASCII
    characters, which [keep] tells. *)
Fixpoint fields (keep : Z -> bool) (current : list Z) (l : list Z) : list (list Z) :=
  match l with
  | [] => match current with [] => [] | _ => [current] end
  | b :: r =>
    if keep b then fields keep (current ++ [b]) r
    else match current with
         | [] => fields keep [] r
         | _ => current :: fields keep [] r
         end
  end.

(** ** Decoding forwards *)

Lemma second_byte_continuation b0 b1 : second_byte b0 b1 = true -> continuation b1 = true.
Proof.
  unfold second_byte, continuation. intros H.
  repeat (case_match; to_prop; try (apply andb_true_iff; split; apply Z.leb_le; lia)); done.
Qed.

(** A rune of more than one byte: a first byte that starts runes, continuations,
    and the same result whatever follows. *)
Lemma decode_multi l n : (decode_rune l).2 = n -> (2 <= n)%nat ->
  exists b0 cs r, l = b0 :: cs ++ r /\ length cs = (n - 1)%nat /\ (n <= 4)%nat /\
    194 <= b0 /\ Forall (fun b => continuation b = true) cs /\
    forall r', decode_rune (b0 :: cs ++ r') = decode_rune l.
Proof.
  intros <- Hn.
  destruct l as [|b0 [|b1 r1]]; simpl in *; [lia|case_match; simpl in *; lia|].
  destruct (b0 <? 128) eqn:E0; simpl in *; [lia|].
  destruct (_ && second_byte b0 b1) eqn:E1; simpl in *.
  { exists b0, [b1], r1.
    assert (forall r', decode_rune (b0 :: [b1] ++ r') = (rune2 b0 b1, 2%nat)) as Hs
      by (intros r'; simpl; by rewrite E0, E1).
    to_prop. split_and!; [done..|lia|lia| |done].
    repeat constructor. by eapply second_byte_continuation. }
  destruct r1 as [|b2 r2]; simpl in *; [lia|].
  destruct (_ && continuation b2) eqn:E2; simpl in *.
  { exists b0, [b1; b2], r2.
    assert (forall r', decode_rune (b0 :: [b1; b2] ++ r') = (rune3 b0 b1 b2, 3%nat)) as Hs
      by (intros r'; simpl; by rewrite E0, E1, E2).
    clear E1. to_prop. split_and!; [done..|lia|lia| |done].
    repeat constructor; [by eapply second_byte_continuation|done]. }
  destruct r2 as [|b3 r3]; simpl in *; [lia|].
  destruct (_ && continuation b3) eqn:E3; simpl in *; [|lia].
  exists b0, [b1; b2; b3], r3.
  assert (forall r', decode_rune (b0 :: [b1; b2; b3] ++ r') = (rune4 b0 b1 b2 b3, 4%nat)) as Hs
    by (intros r'; simpl; by rewrite E0, E1, E2, E3).
  clear E1 E2. to_prop. split_and!; [done..|lia|lia| |done].
  repeat constructor; [by eapply second_byte_continuation|done..].
Qed.

Lemma decode_size_pos l : l <> [] -> (1 <= (decode_rune l).2 <= length l)%nat.
Proof.
  destruct l as [|b0 [|b1 [|b2 [|b3 r]]]]; intros H; [done|..];
    simpl; repeat (case_match; simpl; try lia).
Qed.

(** What follows a complete first rune does not matter. *)
Lemma decode_app l1 l2 : l1 <> [] -> ((decode_rune (l1 ++ l2)).2 <= length l1)%nat ->
  decode_rune (l1 ++ l2) = decode_rune l1.
Proof.
  intros Hne Hle. remember (decode_rune (l1 ++ l2)).2 as n eqn:Hn.
  destruct (decide (2 <= n)%nat) as [H2|H2].
  - destruct (decode_multi _ _ (eq_sym Hn) H2) as (b0 & cs & r & E & Hlen & _ & _ & _ & Hd).
    assert (exists r', l1 = b0 :: cs ++ r') as [r' ->].
    { destruct l1 as [|a l1]; [done|]. rewrite <- app_comm_cons in E. injection E as -> E.
      rewrite length_cons in Hle. exists (drop (length cs) l1). f_equal.
      rewrite <- (take_drop (length cs) l1) at 1. f_equal.
      apply (f_equal (take (length cs))) in E.
      rewrite take_app_le, take_app_length in E by lia. done. }
    by rewrite Hd.
  - destruct (decide (2 <= (decode_rune l1).2)%nat) as [H3|H3].
    + destruct (decode_multi _ _ eq_refl H3) as (b0 & cs & r & E & _ & _ & _ & _ & Hd).
      exfalso. rewrite E, <- app_comm_cons, <- app_assoc, Hd in Hn. lia.
    + clear Hle. destruct l1 as [|b0 l1]; [done|]. clear Hne. subst n.
      destruct l1 as [|b1 [|b2 [|b3 r]]]; simpl in *;
        repeat (case_match; simpl in *; try lia; try done).
Qed.

(** ** Segments *)

(** A list of runes, each with its bytes, as [range] takes a string apart. *)
Inductive segmented : list (list Z) -> Prop :=
| segmented_nil : segmented []
| segmented_cons g ss :
    g <> [] -> (decode_rune (g ++ concat ss)).2 = length g -> segmented ss ->
    segmented (g :: ss).

Definition rune_of (g : list Z) : Z := (decode_rune g).1.

Lemma segmented_head g ss : segmented (g :: ss) ->
  decode_rune (g ++ concat ss) = (rune_of g, length g).
Proof.
  inversion 1 as [|? ? Hne Hd _]; subst.
  rewrite (surjective_pairing (decode_rune (g ++ concat ss))), Hd.
  unfold rune_of. by rewrite decode_app by (done || lia).
Qed.

Lemma segments_exist l : exists ss, segmented ss /\ concat ss = l.
Proof.
  remember (length l) as n eqn:Hn. revert l Hn.
  induction n as [n IH] using lt_wf_ind. intros l ->.
  destruct (decide (l = [])) as [->|Hne]; [exists []; split; [constructor|done]|].
  pose proof (decode_size_pos l Hne) as Hs. set (k := (decode_rune l).2) in *.
  destruct (IH (length (drop k l)) ltac:(rewrite length_drop; lia) _ eq_refl) as (ss & Hss & E).
  exists (take k l :: ss). split; [constructor|]; [..|done|].
  - intros H. apply (f_equal length) in H. rewrite length_take in H. simpl in H. lia.
  - rewrite E, take_drop, length_take. fold k. lia.
  - simpl. by rewrite E, take_drop.
Qed.

Lemma runes_step l : l <> [] ->
  runes l = (decode_rune l).1 :: runes (drop (decode_rune l).2 l).
Proof.
  destruct l as [|b0 [|b1 [|b2 [|b3 r]]]]; intros H; [done|..]; simpl;
    repeat (case_match; simpl; try done).
Qed.

Lemma runes_segmented ss : segmented ss -> runes (concat ss) = map rune_of ss.
Proof.
  induction 1 as [|g ss Hne Hd Hss IH]; [done|].
  pose proof (segmented_head g ss ltac:(by constructor)) as Hh. simpl.
  rewrite runes_step by (by destruct g). rewrite Hh. simpl. by rewrite drop_app_length, IH.
Qed.

Lemma segmented_app_r s1 s2 : segmented (s1 ++ s2) -> segmented s2.
Proof. induction s1 as [|g s1 IH]; simpl; [done|]. inversion 1; subst. auto. Qed.

Lemma segmented_app_l s1 s2 : segmented (s1 ++ s2) -> segmented s1.
Proof.
  induction s1 as [|g s1 IH]; simpl; [constructor|]. inversion 1 as [|? ? Hne Hd Hss]; subst.
  constructor; [done| |auto]. rewrite concat_app, app_assoc in Hd.
  rewrite <- Hd. f_equal. symmetry. apply decode_app; [by destruct g|].
  rewrite Hd, length_app. lia.
Qed.

Lemma runes_segmented_app s1 s2 : segmented (s1 ++ s2) ->
  runes (concat (s1 ++ s2)) = runes (concat s1) ++ runes (concat s2).
Proof.
  intros H. rewrite !runes_segmented; eauto using segmented_app_l, segmented_app_r.
  by rewrite map_app.
Qed.

Lemma runes_one g : segmented [g] -> runes g = [rune_of g].
Proof. intros H. pose proof (runes_segmented [g] H) as E. simpl in E. by rewrite app_nil_r in E. Qed.

(** ** Decoding backwards *)

(** A rune of two bytes or more that ends the string is its last segment: no
    segment before it reaches into it. *)
Lemma multi_is_last ss b : forall p,
  segmented (ss ++ [[b]]) -> (p < length (concat ss))%nat ->
  (decode_rune (drop p (concat ss ++ [b]))).2 <> (length (concat ss) + 1 - p)%nat.
Proof.
  induction ss as [|g ss IH]; intros p Hs Hp Hd; simpl in *; [lia|].
  rewrite length_app in *. inversion Hs as [|? ? Hne Hg Hss]; subst.
  rewrite concat_app in Hg. simpl in Hg. rewrite ?app_nil_r in Hg.
  destruct (decide (length g <= p)%nat) as [Hle|Hlt].
  - apply (IH (p - length g)%nat Hss); [lia|].
    rewrite <- app_assoc, drop_app_ge in Hd by lia. rewrite Hd. lia.
  - destruct p as [|p].
    + rewrite drop_0, <- app_assoc, Hg in Hd. lia.
    + destruct (decode_multi (g ++ concat ss ++ [b]) _ Hg ltac:(lia))
        as (b0 & cs & r & E & Hlen & _ & _ & Hcs & _).
      destruct (decode_multi _ _ Hd ltac:(lia)) as (c0 & cs' & r' & E' & _ & _ & Hc0 & _ & _).
      rewrite <- app_assoc, E in E'. simpl in E'.
      assert (cs !! p = Some c0) as Hc.
      { apply (f_equal (lookup 0%nat)) in E'. rewrite lookup_drop, Nat.add_0_r in E'.
        rewrite lookup_app_l in E' by lia. done. }
      rewrite Forall_lookup in Hcs. specialize (Hcs _ _ Hc). unfold continuation in Hcs.
      to_prop. lia.
Qed.

(** What [seek_start] passes over does not start a rune. *)
Lemma seek_start_spec fuel l lim start s :
  seek_start fuel l lim start = s -> -1 <= start -> 0 <= lim ->
  s <= start /\ (start < lim + Z.of_nat fuel -> lim <= s -> RuneStart (default 0 (l !! Z.to_nat s)) = true) /\
  forall i, s < i <= start -> RuneStart (default 0 (l !! Z.to_nat i)) = false.
Proof.
  revert start. induction fuel as [|k IH]; intros start Hs H1 H2; simpl in Hs.
  { subst s. split_and!; [lia|lia|]. intros i Hi. lia. }
  destruct (start <? lim) eqn:E1.
  { to_prop. subst s. split_and!; [lia|lia|]. intros i Hi. lia. }
  destruct (RuneStart (default 0 (l !! Z.to_nat start))) eqn:E2.
  { to_prop. subst s. split_and!; [lia|done|]. intros i Hi. lia. }
  to_prop. destruct (IH _ Hs ltac:(lia) ltac:(lia)) as (H3 & H4 & H5). split_and!; [lia|..].
  - intros Hlt. apply H4. lia.
  - intros i Hi. destruct (decide (i = start)) as [->|]; [done|]. apply H5. lia.
Qed.

(** [DecodeLastRuneInString] takes the last rune of [range]. *)
Lemma decode_last_segment ss g : segmented (ss ++ [g]) ->
  decode_last_rune (concat (ss ++ [g])) = (rune_of g, length g).
Proof.
  intros Hs. pose proof (segmented_app_r _ _ Hs) as Hg. rewrite concat_app. simpl. rewrite app_nil_r.
  pose proof (segmented_head _ _ Hg) as Hd. simpl in Hd. rewrite app_nil_r in Hd.
  unfold decode_last_rune. set (L := concat ss ++ g).
  assert (0 < length g)%nat as Hpos by (inversion Hg; subst; destruct g; [done|simpl; lia]).
  assert (length L = length (concat ss) + length g)%nat as HL by (apply length_app).
  destruct (seek_start_spec 4 L (Z.max 0 (Z.of_nat (length L) - 4)) (Z.of_nat (length L) - 2) _ eq_refl
              ltac:(lia) ltac:(lia)) as (H1 & H2 & H3).
  set (s := seek_start _ _ _ _) in *.
  destruct (decide (2 <= length g)%nat) as [Hm|Hm].
  - assert ((decode_rune g).2 = length g) as Hd2 by (by rewrite Hd).
    destruct (decode_multi g _ Hd2 Hm) as (b0 & cs & r & E & Hlen & H4 & Hb0 & Hcs & _).
    assert (r = []) as -> by (apply length_zero_iff_nil; rewrite E in Hlen; simpl in Hlen;
      rewrite length_app in Hlen; lia).
    rewrite app_nil_r in E.
    assert (forall i, Z.of_nat (length (concat ss)) < i < Z.of_nat (length L) ->
      RuneStart (default 0 (L !! Z.to_nat i)) = false) as Hcont.
    { intros i Hi. unfold L. rewrite lookup_app_r by lia. rewrite E.
      destruct (Z.to_nat i - length (concat ss))%nat as [|k] eqn:Ek; [lia|]. simpl.
      destruct (cs !! k) as [b|] eqn:Eb; [|apply lookup_ge_None in Eb; lia].
      rewrite Forall_lookup in Hcs. simpl. unfold RuneStart. by rewrite (Hcs _ _ Eb). }
    assert (L !! length (concat ss) = Some b0) as Hp
      by (unfold L; rewrite lookup_app_r by lia; rewrite E; by rewrite Nat.sub_diag).
    assert (RuneStart b0 = true) as Hb.
    { unfold RuneStart, continuation. rewrite (proj2 (Z.leb_gt b0 191)) by lia.
      by rewrite andb_false_r. }
    assert (s = Z.of_nat (length (concat ss))) as Es.
    { destruct (Z.lt_trichotomy s (Z.of_nat (length (concat ss)))) as [Hlt|[|Hgt]]; [|done|].
      - specialize (H3 (Z.of_nat (length (concat ss))) ltac:(lia)).
        rewrite Nat2Z.id, Hp in H3. simpl in H3. congruence.
      - specialize (H2 ltac:(lia) ltac:(lia)). rewrite Hcont in H2 by lia. done. }
    assert (exists b, last L = Some b /\ 128 <= b) as (b & -> & Hb128).
    { destruct cs as [|c cs] using rev_ind; [simpl in Hlen; lia|]. clear IHcs. exists c. split.
      - unfold L. by rewrite E, app_comm_cons, app_assoc, last_snoc.
      - apply Forall_app in Hcs as [_ Hc]. inversion Hc as [|? ? Hc' _]; subst.
        unfold continuation in Hc'. to_prop. lia. }
    rewrite (proj2 (Z.ltb_ge b 128)) by lia. rewrite Es.
    replace (Z.to_nat (Z.max 0 (Z.of_nat (length (concat ss))))) with (length (concat ss)) by lia.
    unfold L. rewrite drop_app_length, Hd.
    rewrite (proj2 (Z.eqb_eq _ _)) by (rewrite length_app; lia). done.
  - destruct g as [|b [|]]; simpl in Hpos, Hm; [lia| |lia]. unfold L. rewrite last_snoc.
    unfold rune_of. simpl. destruct (b <? 128) eqn:Eb; [done|]. simpl.
    rewrite length_app. simpl length. fold L.
    destruct (decode_rune (drop (Z.to_nat (Z.max 0 s)) L)) as [r k] eqn:Ek.
    destruct (decide (Z.to_nat (Z.max 0 s) < length (concat ss))%nat) as [Hlt|Hge].
    + pose proof (multi_is_last ss b _ Hs Hlt) as Hne. fold L in Hne. rewrite Ek in Hne. simpl in Hne.
      rewrite (proj2 (Z.eqb_neq _ _)); [done|]. lia.
    + assert (length (concat ss) = 0%nat) as Hz by (simpl in HL; lia).
      apply length_zero_iff_nil in Hz. unfold L in Ek. rewrite Hz in Ek. simpl in Ek.
      replace (Z.to_nat (Z.max 0 s)) with 0%nat in Ek by (rewrite Hz in *; simpl in *; lia).
      simpl in Ek. rewrite Eb in Ek. simplify_eq. by destruct (negb _).
Qed.
