(* ===== verification/GoText.v ===== *)
(** * Texts as lists of characters

    The functions of Go's [strings] package that cut texts into pieces, on lists
    of bytes: prefixes, splitting, searching and replacing. *)

From Stdlib Require Import Ascii String.
From S2P Require Import Prelude GoStd.

Local Open Scope Z_scope.
Local Open Scope juex_scope.

Abbreviation text := (list ascii) (only parsing).

Definition T (s : string) : text := String.list_ascii_of_string s.
Definition string_of (l : text) : string := String.string_of_list_ascii l.

Definition newline : ascii := "010"%char.
Definition carriage_return : ascii := "013"%char.

Definition Trim (l : text) : text := T (TrimSpace (string_of l)).

Fixpoint HasPrefix (p s : text) : bool :=
  match p, s with
  | [], _ => true
  | a :: p, b :: s => bool_decide (a = b) && HasPrefix p s
  | _ :: _, [] => false
  end.

Definition TrimPrefix (p s : text) : text := if HasPrefix p s then drop (length p) s else s.

(** [strings.Split] at a character. *)
Fixpoint SplitOn (c : ascii) (s : text) : list text :=
  match s with
  | [] => [[]]
  | a :: s =>
    if bool_decide (a = c) then [] :: SplitOn c s
    else match SplitOn c s with
         | l :: ls => (a :: l) :: ls
         | [] => [[a]]
         end
  end.

(** [strings.Join]. *)
Fixpoint JoinWith (c : ascii) (l : list text) : text :=
  match l with
  | [] => []
  | [x] => x
  | x :: l => x ++ c :: JoinWith c l
  end.

(** [strings.ReplaceAll(s, "\r\n", "\n")]. *)
Fixpoint ReplaceCRLF (s : text) : text :=
  match s with
  | [] => []
  | a :: s =>
    if bool_decide (a = carriage_return) && HasPrefix [newline] s then ReplaceCRLF s
    else a :: ReplaceCRLF s
  end.

(** What lies before and behind the first occurrence ([strings.Index]). *)
Fixpoint Find (sub s : text) : option (text * text) :=
  if HasPrefix sub s then Some ([], drop (length sub) s)
  else match s with
       | [] => None
       | a :: s =>
         match Find sub s with
         | Some (p, q) => Some (a :: p, q)
         | None => None
         end
       end.

(** [strings.Count] of a text that is not empty: disjoint occurrences from the
    left. The fuel bounds the occurrences. *)
Fixpoint count_from (fuel : nat) (sub s : text) : nat :=
  match fuel with
  | O => O
  | S k => match Find sub s with
           | Some (_, q) => S (count_from k sub q)
           | None => O
           end
  end.

Definition Count (s sub : text) : nat := count_from (S (length s)) sub s.

(** [strings.Replace(s, old, new, 1)]. *)
Definition ReplaceFirst (s old new : text) : text :=
  match Find old s with
  | Some (p, q) => p ++ new ++ q
  | None => s
  end.

(** ** Prefixes *)

Lemma HasPrefix_app p s : HasPrefix p (p ++ s) = true.
Proof. induction p as [|a p IH]; simpl; [done|]. by rewrite bool_decide_eq_true_2, IH. Qed.

Lemma HasPrefix_spec p s : HasPrefix p s = true <-> s = p ++ drop (length p) s.
Proof.
  split; [|intros ->; apply HasPrefix_app].
  revert s. induction p as [|a p IH]; intros s; simpl; [done|].
  destruct s as [|b s]; [done|]. intros [->%bool_decide_eq_true H]%andb_prop. simpl. by rewrite <- IH.
Qed.

Lemma HasPrefix_prefix p s : HasPrefix p s = true <-> p `prefix_of` s.
Proof.
  rewrite HasPrefix_spec. split; [intros ->; by exists (drop (length p) s)|].
  intros [k ->]. by rewrite drop_app_length.
Qed.

Lemma TrimPrefix_app p s : TrimPrefix p (p ++ s) = s.
Proof. unfold TrimPrefix. by rewrite HasPrefix_app, drop_app_length. Qed.

(** ** Pieces *)

Lemma SplitOn_nonempty c s : SplitOn c s <> [].
Proof. destruct s as [|a s]; simpl; [done|]. case_bool_decide; [done|]. by destruct (SplitOn c s). Qed.

Lemma SplitOn_app c x s : c ∉ x -> SplitOn c (x ++ c :: s) = x :: SplitOn c s.
Proof.
  induction x as [|a x IH]; simpl; intros Hc.
  - by rewrite bool_decide_eq_true_2.
  - rewrite bool_decide_eq_false_2 by set_solver. by rewrite IH by set_solver.
Qed.

Lemma SplitOn_none c x : c ∉ x -> SplitOn c x = [x].
Proof.
  induction x as [|a x IH]; simpl; intros Hc; [done|].
  rewrite bool_decide_eq_false_2 by set_solver. by rewrite IH by set_solver.
Qed.

Lemma SplitOn_join c (l : list text) : l <> [] -> Forall (fun x => c ∉ x) l ->
  SplitOn c (JoinWith c l) = l.
Proof.
  induction l as [|x l IH]; [done|]. intros _ [Hx Hl]%Forall_cons. simpl.
  destruct l as [|y l]; [by apply SplitOn_none|]. rewrite SplitOn_app by done. by rewrite IH.
Qed.

Lemma SplitOn_pieces c s : Forall (fun x => c ∉ x) (SplitOn c s).
Proof.
  induction s as [|a s IH]; simpl; [repeat constructor; set_solver|].
  case_bool_decide; [constructor; [set_solver|done]|].
  destruct (SplitOn c s) as [|x l]; [repeat constructor; set_solver|].
  apply Forall_cons in IH as [Hx Hl]. constructor; [set_solver|done].
Qed.

Lemma JoinWith_split c s : JoinWith c (SplitOn c s) = s.
Proof.
  induction s as [|a s IH]; simpl; [done|]. pose proof (SplitOn_nonempty c s).
  case_bool_decide as Ha.
  - subst a. simpl. destruct (SplitOn c s); [done|]. by rewrite IH.
  - destruct (SplitOn c s) as [|x l]; [done|]. simpl in *. destruct l; by rewrite <- IH.
Qed.

Lemma JoinWith_app c (l k : list text) : l <> [] -> k <> [] ->
  JoinWith c (l ++ k) = JoinWith c l ++ c :: JoinWith c k.
Proof.
  induction l as [|x l IH]; [done|]. intros _ Hk. destruct l as [|y l].
  - simpl. by destruct k.
  - change ((x :: y :: l) ++ k) with (x :: y :: (l ++ k)).
    change (JoinWith c (x :: y :: l ++ k)) with (x ++ c :: JoinWith c ((y :: l) ++ k)).
    rewrite IH by done. simpl. by rewrite <- app_assoc.
Qed.

(** ** Searching *)

Lemma Find_Some sub s p q : Find sub s = Some (p, q) -> s = p ++ sub ++ q.
Proof.
  revert p q. induction s as [|a s IH]; simpl; intros p q; destruct (HasPrefix sub _) eqn:E.
  - intros [= <- <-]. by apply HasPrefix_spec in E.
  - done.
  - intros [= <- <-]. by apply HasPrefix_spec in E.
  - destruct (Find sub s) as [[p' q']|]; [|done]. intros [= <- <-]. simpl. by rewrite <- IH.
Qed.

(** No occurrence starts earlier. *)
Lemma Find_first sub s p q : Find sub s = Some (p, q) ->
  forall p' q', s = p' ++ sub ++ q' -> (length p <= length p')%nat.
Proof.
  revert p q. induction s as [|a s IH]; simpl; intros p q; destruct (HasPrefix sub _) eqn:E.
  - intros [= <- <-] p' q' _. simpl. lia.
  - done.
  - intros [= <- <-] p' q' _. simpl. lia.
  - destruct (Find sub s) as [[p1 q1]|] eqn:E1; [|done]. intros [= <- <-] p' q' Hs.
    destruct p' as [|b p'].
    + simpl in Hs. rewrite Hs, HasPrefix_app in E. done.
    + simpl in Hs. injection Hs as <- Hs. pose proof (IH _ _ eq_refl _ _ Hs). simpl. lia.
Qed.

Lemma Find_None sub s : Find sub s = None -> forall p q, s <> p ++ sub ++ q.
Proof.
  induction s as [|a s IH]; simpl; destruct (HasPrefix sub _) eqn:E; try done.
  - intros _ p q Hs. destruct p; simpl in Hs; [rewrite Hs, HasPrefix_app in E; done|done].
  - destruct (Find sub s) as [[p1 q1]|]; [done|]. intros _ p q Hs. destruct p as [|b p]; simpl in Hs.
    + rewrite Hs, HasPrefix_app in E. done.
    + injection Hs as -> Hs. by eapply IH.
Qed.

Lemma Find_complete sub p q : exists p' q', Find sub (p ++ sub ++ q) = Some (p', q').
Proof.
  destruct (Find sub (p ++ sub ++ q)) as [[p' q']|] eqn:E; [by eauto|].
  by destruct (Find_None _ _ E p q).
Qed.

(** Exactly one occurrence: the first one, and none behind it. *)
Lemma Count_one s sub : Count s sub = 1%nat <->
  exists p q, Find sub s = Some (p, q) /\ (Find sub q = None \/ length s = 0%nat).
Proof.
  unfold Count. simpl. destruct (Find sub s) as [[p q]|] eqn:E.
  - split.
    + intros H. exists p, q. split; [done|]. destruct (length s) as [|n]; [by right|].
      left. simpl in H. destruct (Find sub q) as [[]|]; [|done]. lia.
    + intros (p' & q' & [= <- <-] & [Hn|Hn]); [|by rewrite Hn].
      destruct (length s); simpl; [done|]. by rewrite Hn.
  - split; [done|]. by intros (? & ? & ? & _).
Qed.
