(* ===== verification/WorkspacePath.v ===== *)
(** * Paths inside a workspace

    [foundation/sandbox/workspace_path.go]: how a path of a tool call becomes a
    file of the workspace, or is refused, on a system whose separator is a slash.
    The parts of [path/filepath] it uses are defined here. *)

From Stdlib Require Import Ascii String.
From S2P Require Import Prelude GoStd Utf8 GoText.

Local Open Scope Z_scope.
Local Open Scope juex_scope.

Definition slash : ascii := "/"%char.
Definition dot : text := T ".".
Definition dotdot : text := T "..".

(** ** [path/filepath] *)

Definition IsAbs (p : text) : bool := HasPrefix [slash] p.

(** One element of a path, over the elements that are kept, last first. *)
Definition clean_step (rooted : bool) (kept : list text) (c : text) : list text :=
  if bool_decide (c = []) || bool_decide (c = dot) then kept
  else if bool_decide (c = dotdot) then
    match kept with
    | [] => if rooted then [] else [c]
    | top :: rest => if bool_decide (top = dotdot) then c :: kept else rest
    end
  else c :: kept.

Definition clean_elements (p : text) : list text :=
  reverse (foldl (clean_step (IsAbs p)) [] (SplitOn slash p)).

Definition Clean (p : text) : text :=
  match p with
  | [] => dot
  | _ =>
    let body := JoinWith slash (clean_elements p) in
    if IsAbs p then slash :: body
    else match body with [] => dot | _ => body end
  end.

(** [filepath.Dir]: the path up to its last slash. *)
Definition Dir (p : text) : text := Clean (JoinWith slash (removelast (SplitOn slash p) ++ [[]])).

(** [filepath.Join] of two paths that are not empty. *)
Definition Join (a b : text) : text := Clean (a ++ slash :: b).

(** The elements of a clean absolute path. *)
Definition elements (p : text) : list text :=
  filter (fun c => c <> []) (SplitOn slash p).

Fixpoint strip_common (base targ : list text) : list text * list text :=
  match base, targ with
  | b :: base', t :: targ' => if bool_decide (b = t) then strip_common base' targ' else (base, targ)
  | _, _ => (base, targ)
  end.

(** [filepath.Rel] of two absolute paths. *)
Definition Rel (base targ : text) : text :=
  let base := Clean base in
  let targ := Clean targ in
  if bool_decide (base = targ) then dot
  else
    let '(b, t) := strip_common (elements base) (elements targ) in
    JoinWith slash (repeat dotdot (length b) ++ t).

(** ** The resolver *)

Record WorkspacePath := mkWorkspacePath {
  wp_Relative : text;
  wp_Absolute : text;
  wp_Identity : text;
}.

Record WorkspacePathResolver := mkResolver {
  wr_root : text;
  wr_evalRoot : text;
  wr_caseInsensitive : bool;
}.

Inductive PathError :=
| ErrUnsafePath (input : text)
| ErrEscapes (input : text)
| ErrNoWorkspace.

(** What [os.Lstat] answers. *)
Inductive LstatResult := LstatFound | LstatMissing | LstatFails.

(** The symbolic links of the file system, as a resolution finds them:
    [os.Lstat] and [filepath.EvalSymlinks]. *)
Record Links := mkLinks {
  lk_Lstat : text -> LstatResult;
  lk_EvalSymlinks : text -> option text;
}.

(** The walk of [checkSymlinkBoundary] to the nearest parent that exists. *)
Inductive Ancestor := AncestorFound (p : text) | AncestorNone | AncestorError.

Fixpoint existing_ancestor (fuel : nat) (lk : Links) (p : text) : option Ancestor :=
  match fuel with
  | O => None
  | S k =>
    match lk_Lstat lk p with
    | LstatFound => Some (AncestorFound p)
    | LstatFails => Some AncestorError
    | LstatMissing =>
      if bool_decide (Dir p = p) then Some AncestorNone else existing_ancestor k lk (Dir p)
    end
  end.

Definition ancestor_fuel (p : text) : nat := S (length p).

Section Resolver.
  (** The simple case tables of [unicode]. *)
  Context (lower fold : Z -> Z).

Definition to_lower (l : text) : text := T (LowerText lower (string_of l)).
Definition equal_fold (a b : text) : bool := EqualFold fold (string_of a) (string_of b).

(** [NewWorkspacePathResolver]: the working directory of the process, the links
    that evaluate the root, and whether its file system folds case. *)
Definition NewWorkspacePathResolver (cwd : option text) (lk : Links) (caseInsensitive : bool)
    (workDir : text) : result PathError WorkspacePathResolver :=
  match (if bool_decide (Trim workDir = []) then cwd else Some workDir) with
  | None => Err ErrNoWorkspace
  | Some root =>
    match (if IsAbs root then Some (Clean root)
           else match cwd with Some wd => Some (Join wd root) | None => None end) with
    | None => Err ErrNoWorkspace
    | Some absRoot =>
      match lk_EvalSymlinks lk (Clean absRoot) with
      | Some eval => Ok (mkResolver (Clean absRoot) (Clean eval) caseInsensitive)
      | None => Err ErrNoWorkspace
      end
    end
  end.

Definition Identity (r : WorkspacePathResolver) (rel : text) : text :=
  if wr_caseInsensitive r then to_lower rel else rel.

Definition SameAbsolute (r : WorkspacePathResolver) (left right : text) : bool :=
  if wr_caseInsensitive r then equal_fold (Clean left) (Clean right)
  else bool_decide (Clean left = Clean right).

Definition relative (r : WorkspacePathResolver) (root target : text) : text :=
  if negb (wr_caseInsensitive r) then Rel root target
  else
    let rel := Rel (to_lower root) (to_lower target) in
    if bool_decide (rel = dot) then rel
    else if bool_decide (length root < length target)%nat &&
            equal_fold (take (length root) target) root then
      if bool_decide (last root = Some slash) then drop (length root) target
      else if bool_decide (target !! length root = Some slash) then drop (S (length root)) target
      else rel
    else rel.

(** [".."] or below it. *)
Definition upward (rel : text) : bool := bool_decide (rel = dotdot) || HasPrefix (dotdot ++ [slash]) rel.

Definition leaves_root (rel : text) : bool := bool_decide (rel = dot) || upward rel.

Definition pathWithin (r : WorkspacePathResolver) (root target : text) : bool :=
  negb (upward (relative r root target)).

(** [None] when the walk had too little fuel. *)
Definition checkSymlinkBoundary (r : WorkspacePathResolver) (lk : Links) (abs : text) : option bool :=
  match existing_ancestor (ancestor_fuel abs) lk abs with
  | Some (AncestorFound checkPath) =>
    Some match lk_EvalSymlinks lk checkPath with
         | Some evaluated => pathWithin r (wr_evalRoot r) evaluated
         | None => false
         end
  | Some _ => Some false
  | None => None
  end.

Definition Resolve (r : WorkspacePathResolver) (lk : Links) (input : text) :
    result PathError WorkspacePath :=
  if bool_decide (Trim input = []) then Err (ErrUnsafePath input)
  else if HasPrefix (T "//") input || HasPrefix (T "\") input then Err (ErrUnsafePath input)
  else if bool_decide (":"%char ∈ input) then Err (ErrUnsafePath input)
  else
    let relpath := Clean input in
    if negb (IsAbs input) && leaves_root relpath then Err (ErrEscapes input)
    else
      let abs := if IsAbs input then Clean input else Join (wr_root r) relpath in
      let rel := relative r (wr_root r) abs in
      if leaves_root rel then Err (ErrEscapes input)
      else match checkSymlinkBoundary r lk abs with
           | Some true => Ok (mkWorkspacePath rel abs (Identity r rel))
           | _ => Err (ErrEscapes input)
           end.

End Resolver.

(** ** Clean paths *)

(** An element that names an entry of its directory. *)
Definition plain_element (c : text) : Prop :=
  c <> [] /\ c <> dot /\ c <> dotdot /\ slash ∉ c.

Lemma clean_step_plain kept c : slash ∉ c -> Forall plain_element kept ->
  Forall plain_element (clean_step true kept c).
Proof.
  intros Hs Hk. unfold clean_step.
  destruct (bool_decide (c = []) || bool_decide (c = dot)) eqn:E; [done|].
  apply orb_false_elim in E as [E1%bool_decide_eq_false E2%bool_decide_eq_false].
  case_bool_decide as E3; [|by constructor].
  destruct kept as [|top rest]; [done|]. apply Forall_cons in Hk as [Ht Hr].
  rewrite bool_decide_eq_false_2 by apply Ht. done.
Qed.

Lemma clean_fold_plain l : forall kept, Forall (fun c => slash ∉ c) l -> Forall plain_element kept ->
  Forall plain_element (foldl (clean_step true) kept l).
Proof.
  induction l as [|c l IH]; intros kept Hl Hk; simpl; [done|].
  apply Forall_cons in Hl as [Hc Hl]. apply IH; [done|]. by apply clean_step_plain.
Qed.

Lemma clean_elements_plain p : IsAbs p = true -> Forall plain_element (clean_elements p).
Proof.
  intros Ha. unfold clean_elements. rewrite Ha. apply Forall_reverse, clean_fold_plain; [|done].
  apply SplitOn_pieces.
Qed.

Definition absolute (l : list text) : text := slash :: JoinWith slash l.

Lemma SplitOn_absolute l : Forall plain_element l ->
  SplitOn slash (absolute l) = [] :: match l with [] => [[]] | _ => l end.
Proof.
  intros Hl. unfold absolute. simpl. f_equal. destruct l as [|c l]; [done|].
  apply SplitOn_join; [done|]. eapply Forall_impl; [exact Hl|]. by intros x (_ & _ & _ & ?).
Qed.

Lemma elements_absolute l : Forall plain_element l -> elements (absolute l) = l.
Proof.
  intros Hl. unfold elements. rewrite SplitOn_absolute by done. rewrite filter_cons_False by auto.
  destruct l as [|c l]; [done|]. induction Hl as [|x k Hx Hk IH]; [done|].
  rewrite filter_cons_True by apply Hx. by rewrite IH.
Qed.

Lemma Clean_absolute p : IsAbs p = true -> Clean p = absolute (clean_elements p).
Proof. intros Ha. unfold Clean. destruct p; [done|]. by rewrite Ha. Qed.

Lemma clean_fold_id l : forall kept, Forall plain_element l ->
  foldl (clean_step true) kept l = reverse l ++ kept.
Proof.
  induction l as [|c l IH]; intros kept Hl; simpl; [done|].
  apply Forall_cons in Hl as [(H1 & H2 & H3 & _) Hl]. rewrite IH by done.
  unfold clean_step. rewrite !bool_decide_eq_false_2 by done. simpl.
  by rewrite reverse_cons, <- app_assoc.
Qed.

Lemma clean_elements_absolute l : Forall plain_element l -> clean_elements (absolute l) = l.
Proof.
  intros Hl. unfold clean_elements. change (IsAbs (absolute l)) with true.
  rewrite SplitOn_absolute by done. simpl. destruct l as [|c l]; [done|].
  rewrite clean_fold_id by done. by rewrite app_nil_r, reverse_involutive.
Qed.

Lemma Clean_fixed l : Forall plain_element l -> Clean (absolute l) = absolute l.
Proof. intros Hl. rewrite Clean_absolute by done. by rewrite clean_elements_absolute. Qed.

Lemma exists_last' {A} (l : list A) : l = [] \/ exists k x, l = k ++ [x].
Proof. destruct l as [|a l _] using rev_ind; [by left|]. right. eauto. Qed.

Lemma Dir_absolute l : Forall plain_element l -> Dir (absolute l) = absolute (removelast l).
Proof.
  intros Hl. unfold Dir. rewrite SplitOn_absolute by done.
  assert (Forall plain_element (removelast l)) as Hr.
  { destruct (exists_last' l) as [->|(k & x & ->)]; [done|]. rewrite removelast_last. by apply Forall_app in Hl as [? _]. }
  assert (removelast ([] :: match l with [] => [[]] | _ => l end) = [] :: removelast l) as ->.
  { by destruct l. }
  rewrite Clean_absolute by (by destruct (removelast l)). unfold clean_elements.
  assert (JoinWith slash (([] :: removelast l) ++ [[]]) = slash :: JoinWith slash (removelast l ++ [[]])) as Hj.
  { simpl. by destruct (removelast l). }
  rewrite Hj. change (IsAbs (slash :: _)) with true.
  change (slash :: JoinWith slash (removelast l ++ [[]])) with ([] ++ slash :: JoinWith slash (removelast l ++ [[]])).
  rewrite SplitOn_app, SplitOn_join; [| |apply Forall_app; split|set_solver].
  - simpl. rewrite foldl_app, (clean_fold_id (removelast l)) by done.
    by change (absolute (reverse (reverse (removelast l) ++ [])) = absolute (removelast l));
      rewrite app_nil_r, reverse_involutive.
  - by destruct (removelast l).
  - eapply Forall_impl; [exact Hr|]. by intros x (_ & _ & _ & ?).
  - repeat constructor. set_solver.
Qed.

(** The walk to an existing parent ends within its fuel. *)
Lemma existing_ancestor_ends lk fuel : forall l, Forall plain_element l -> (length l < fuel)%nat ->
  existing_ancestor fuel lk (absolute l) <> None.
Proof.
  induction fuel as [|k IH]; intros l Hl Hf; [lia|]. simpl. destruct (lk_Lstat lk _); try done.
  rewrite Dir_absolute by done. case_bool_decide as E; [done|].
  destruct (exists_last' l) as [->|(m & x & ->)]; [done|]. rewrite removelast_last.
  rewrite length_app in Hf. simpl in Hf. apply Forall_app in Hl as [Hl _]. apply IH; [done|lia].
Qed.

Lemma JoinWith_length l : Forall plain_element l -> (length l <= length (JoinWith slash l))%nat.
Proof.
  induction 1 as [|x l Hx Hl IH]; [done|]. simpl. destruct l as [|y l].
  - destruct Hx as (Hx & _). destruct x; simpl; [done|lia].
  - rewrite length_app. simpl in *. lia.
Qed.

Lemma checkSymlinkBoundary_total lower fold r lk l : Forall plain_element l ->
  checkSymlinkBoundary lower fold r lk (absolute l) <> None.
Proof.
  intros Hl. unfold checkSymlinkBoundary.
  pose proof (existing_ancestor_ends lk (ancestor_fuel (absolute l)) l Hl) as H.
  destruct (existing_ancestor _ _ _) as [[]|]; try done. exfalso. apply H; [|done].
  unfold ancestor_fuel, absolute. simpl. pose proof (JoinWith_length l Hl). lia.
Qed.

(** ** Paths from the root *)

Lemma strip_common_spec base : forall targ b t, strip_common base targ = (b, t) ->
  exists common, base = common ++ b /\ targ = common ++ t.
Proof.
  induction base as [|x base IH]; intros targ b t; simpl.
  - intros [= <- <-]. by exists [].
  - destruct targ as [|y targ]; [intros [= <- <-]; by exists []|].
    case_bool_decide as E; [|intros [= <- <-]; by exists []].
    intros (common & -> & ->)%IH. subst y. by exists (x :: common).
Qed.

Lemma leaves_upward n (t : list text) : (0 < n)%nat -> leaves_root (JoinWith slash (repeat dotdot n ++ t)) = true.
Proof.
  intros Hn. destruct n as [|n]; [lia|]. unfold leaves_root, upward. simpl repeat. rewrite <- app_comm_cons.
  destruct (repeat dotdot n ++ t) as [|x l] eqn:E; [done|].
  change (JoinWith slash (dotdot :: x :: l)) with ((dotdot ++ [slash]) ++ JoinWith slash (x :: l)).
  by rewrite HasPrefix_app, orb_true_r.
Qed.

Lemma Rel_inside root targ : Forall plain_element root -> Forall plain_element targ ->
  leaves_root (Rel (absolute root) (absolute targ)) = false ->
  exists t, t <> [] /\ targ = root ++ t /\ Rel (absolute root) (absolute targ) = JoinWith slash t.
Proof.
  intros Hr Ht. unfold Rel. rewrite !Clean_fixed by done. case_bool_decide as E; [done|].
  rewrite !elements_absolute by done.
  destruct (strip_common root targ) as [b t] eqn:Es. apply strip_common_spec in Es as (c & Hc & Hc').
  destruct b as [|x b]; [|by rewrite leaves_upward by (simpl; lia)]. intros _.
  rewrite app_nil_r in Hc. subst c. simpl. exists t. split_and!; [|done|done].
  intros ->. apply E. by rewrite Hc', app_nil_r.
Qed.

(** A path of the workspace at [root]. *)
Definition below (root p : text) : Prop :=
  exists t, t <> [] /\ Forall plain_element t /\ p = absolute (elements root ++ t).

(** The same where case does not tell files apart: a directory above [p] is the
    root up to folding, or [p] in lower case lies below the root in lower case. *)
Definition below_folded (lower fold : Z -> Z) (root p : text) : Prop :=
  exists dirs t, t <> [] /\ Forall plain_element (dirs ++ t) /\ p = absolute (dirs ++ t) /\
    (equal_fold fold (absolute dirs) root = true \/
     exists u, u <> [] /\ elements (Clean (to_lower lower p)) = elements (Clean (to_lower lower root)) ++ u).

Definition inside (lower fold : Z -> Z) (r : WorkspacePathResolver) (p : text) : Prop :=
  if wr_caseInsensitive r then below_folded lower fold (wr_root r) p else below (wr_root r) p.

Definition clean_root (r : WorkspacePathResolver) : Prop :=
  exists l, Forall plain_element l /\ wr_root r = absolute l.

Section Resolution.
  Context (lower fold : Z -> Z).

Lemma new_resolver_clean cwd lk ci workDir r : match cwd with Some wd => IsAbs wd = true | None => True end ->
  NewWorkspacePathResolver cwd lk ci workDir = Ok r -> clean_root r.
Proof.
  intros Hwd. unfold NewWorkspacePathResolver. intros E.
  destruct (if bool_decide (Trim workDir = []) then cwd else Some workDir) as [root|]; [|done].
  assert (exists p, IsAbs p = true /\ wr_root r = Clean (Clean p)) as (p & Hp & Hr).
  { destruct (IsAbs root) eqn:Ea.
    - exists root. destruct (lk_EvalSymlinks lk (Clean (Clean root))); [|done]. by injection E as <-.
    - destruct cwd as [wd|]; [|done]. exists (wd ++ slash :: root). split.
      + unfold IsAbs in *. apply HasPrefix_spec in Hwd. by rewrite Hwd.
      + unfold Join in E. destruct (lk_EvalSymlinks lk _); [|done]. by injection E as <-. }
  exists (clean_elements p). pose proof (clean_elements_plain p Hp). split; [done|].
  rewrite Hr, (Clean_absolute p Hp). by apply Clean_fixed.
Qed.

Lemma JoinWith_plain_nonempty t : t <> [] -> Forall plain_element t -> JoinWith slash t <> [].
Proof.
  intros Hne Ht. destruct Ht as [|x l (Hx & _) Hl]; [done|]. simpl. destruct l; [done|]. by destruct x.
Qed.

(** *** Where case does not tell files apart *)

Lemma SplitOn_split c x s : SplitOn c (x ++ c :: s) = SplitOn c x ++ SplitOn c s.
Proof.
  induction x as [|a x IH]; simpl; [by rewrite bool_decide_eq_true_2|].
  case_bool_decide; [by rewrite IH|]. rewrite IH. pose proof (SplitOn_nonempty c x). by destruct (SplitOn c x).
Qed.

Lemma SplitOn_inv c s : JoinWith c (SplitOn c s) = s.
Proof.
  induction s as [|a s IH]; simpl; [done|]. pose proof (SplitOn_nonempty c s) as Hne.
  case_bool_decide as E; destruct (SplitOn c s) as [|x l]; try done.
  - change (JoinWith c ([] :: x :: l)) with (c :: JoinWith c (x :: l)). by rewrite IH, E.
  - rewrite <- IH. simpl. by destruct l.
Qed.

(** A path cut behind a prefix that ends at a slash. *)
Lemma cut_at_slash k pre rest : Forall plain_element k -> absolute k = pre ++ slash :: rest -> pre <> [] ->
  exists dirs, k = dirs ++ SplitOn slash rest /\ pre = absolute dirs.
Proof.
  intros Hk E Hpre. pose proof (SplitOn_absolute k Hk) as Es. rewrite E, SplitOn_split in Es.
  pose proof (SplitOn_inv slash pre) as Hj.
  destruct (SplitOn slash pre) as [|x dirs] eqn:Ep; [by destruct (SplitOn_nonempty slash pre)|].
  simpl in Es. injection Es as -> Es. destruct k as [|y k].
  - exfalso. destruct dirs as [|d dirs]; [by subst pre|]. simpl in Es. injection Es as -> Es.
    apply (f_equal length) in Es. rewrite length_app in Es. pose proof (SplitOn_nonempty slash rest).
    destruct (SplitOn slash rest); simpl in Es; [done|lia].
  - exists dirs. split; [done|]. rewrite <- Hj. unfold absolute. destruct dirs as [|d dirs]; [by subst pre|done].
Qed.

Lemma take_lookup_drop (l : text) n x : l !! n = Some x -> l = take n l ++ x :: drop (S n) l.
Proof. intros H. by rewrite (take_drop_middle l n x H). Qed.

Lemma IsAbs_to_lower p : lower 47 = 47 -> IsAbs p = true -> IsAbs (to_lower lower p) = true.
Proof.
  intros Hl. unfold IsAbs. destruct p as [|c p]; [done|]. cbn [HasPrefix].
  intros [<-%bool_decide_eq_true _]%andb_prop. unfold to_lower, LowerText.
  change (string_of (slash :: p)) with (String slash (string_of p)). cbn [bytes_of].
  change (byte_of slash) with 47. cbn [runes]. change (47 <? 128) with true. cbn [map concat]. by rewrite Hl.
Qed.

Lemma Rel_extends a b : IsAbs a = true -> IsAbs b = true -> leaves_root (Rel a b) = false ->
  exists u, u <> [] /\ elements (Clean b) = elements (Clean a) ++ u /\ Rel a b = JoinWith slash u /\
    Forall (fun c => c <> []) u.
Proof.
  intros Ha Hb. pose proof (clean_elements_plain a Ha) as Pa. pose proof (clean_elements_plain b Hb) as Pb.
  assert (Rel a b = Rel (Clean a) (Clean b)) as ->.
  { unfold Rel. by rewrite (Clean_absolute a Ha), (Clean_absolute b Hb), !Clean_fixed. }
  rewrite (Clean_absolute a Ha), (Clean_absolute b Hb). intros H.
  destruct (Rel_inside _ _ Pa Pb H) as (u & Hu & E & HR). exists u. rewrite !elements_absolute by done.
  split_and!; [done..|]. rewrite E in Pb. apply Forall_app in Pb as [_ Pb].
  eapply Forall_impl; [exact Pb|]. by intros x (? & _).
Qed.

Lemma JoinWith_nonempty t : t <> [] -> Forall (fun c => c <> []) t -> JoinWith slash t <> [].
Proof. intros Hne Ht. destruct Ht as [|x l Hx Hl]; [done|]. simpl. destruct l; [done|]. by destruct x. Qed.

Lemma relative_folded r k : wr_caseInsensitive r = true -> lower 47 = 47 -> clean_root r -> Forall plain_element k ->
  leaves_root (relative lower fold r (wr_root r) (absolute k)) = false ->
  below_folded lower fold (wr_root r) (absolute k) /\ relative lower fold r (wr_root r) (absolute k) <> [].
Proof.
  intros Hci Hlow (l & Hl & Hroot) Hk. unfold relative. rewrite Hci. cbv zeta. simpl negb. cbv iota.
  set (rel := Rel (to_lower lower (wr_root r)) (to_lower lower (absolute k))).
  assert (leaves_root rel = false -> below_folded lower fold (wr_root r) (absolute k) /\ rel <> []) as Hrel.
  { intros H. destruct (Rel_extends _ _ (IsAbs_to_lower (wr_root r) Hlow ltac:(by rewrite Hroot))
      (IsAbs_to_lower (absolute k) Hlow eq_refl) H) as (u & Hu & E & HR & Hne).
    split; [|unfold rel; rewrite HR; by apply JoinWith_nonempty].
    destruct (exists_last' k) as [->|(dirs & x & ->)].
    - exfalso. change (elements (Clean (to_lower lower (absolute []))) = elements (Clean (to_lower lower (wr_root r))) ++ u) in E.
      assert (elements (Clean (to_lower lower (absolute []))) = []) as E0; [|rewrite E0 in E; by destruct (elements (Clean (to_lower lower (wr_root r)))), u].
      assert (to_lower lower (absolute []) = [slash]) as ->; [|done].
      unfold to_lower, LowerText, absolute. change (bytes_of _) with [47]. change (runes [47]) with [47].
      cbn [map concat]. by rewrite Hlow.
    - exists dirs, [x]. split_and!; [done..|]. right. by exists u. }
  case_bool_decide as Edot; [rewrite Edot; by intros ?|].
  destruct (_ && _) eqn:Ep; [|exact Hrel]. apply andb_prop in Ep as [Hlen Hfold]. apply bool_decide_eq_true in Hlen.
  assert (forall rest, absolute k = take (length (wr_root r)) (absolute k) ++ slash :: rest -> wr_root r <> [] ->
    below_folded lower fold (wr_root r) (absolute k) /\ rest <> []) as Hcut.
  { intros rest E Hne. destruct (cut_at_slash k _ rest Hk E) as (dirs & Ek & Ed).
    { intros E0. apply (f_equal length) in E0. rewrite length_take_le in E0 by lia. by destruct (wr_root r). }
    assert (Forall plain_element (SplitOn slash rest)) as Hr by (rewrite Ek in Hk; by apply Forall_app in Hk as [_ ?]).
    split.
    - exists dirs, (SplitOn slash rest). split_and!; [apply SplitOn_nonempty|by rewrite <- Ek|by rewrite Ek|]. left. by rewrite <- Ed.
    - intros ->. simpl in Hr. by apply Forall_cons in Hr as [(? & _) _]. }
  case_bool_decide as Elast.
  - destruct l as [|x l]; [|exfalso].
    + rewrite Hroot in *. change (length (absolute [])) with 1%nat in *. intros _. destruct k as [|y k]; [simpl in Hlen; lia|].
      change (drop 1 (absolute (y :: k))) with (JoinWith slash (y :: k)). split.
      * exists [], (y :: k). split_and!; [done..|]. left. exact Hfold.
      * apply JoinWith_nonempty; [done|]. eapply Forall_impl; [exact Hk|]. by intros z (? & _).
    + assert (exists p c, absolute (x :: l) = p ++ [c] /\ c <> slash) as (p & c & E & Hc).
      { clear -Hl. assert (x :: l <> []) as Hne by done. revert Hne Hl. generalize (x :: l) as m. intros m Hne Hm.
        destruct (exists_last' m) as [->|(m' & z & ->)]; [done|]. apply Forall_app in Hm as [_ Hz].
        apply Forall_cons in Hz as [(Hz & _ & _ & Hs) _]. destruct (exists_last' z) as [->|(z' & c & ->)]; [done|].
        unfold absolute. destruct m' as [|y m'].
        - exists (slash :: z'), c. split; [done|]. intros ->. apply Hs. set_solver.
        - exists (slash :: JoinWith slash (y :: m') ++ slash :: z'), c. split; [|intros ->; apply Hs; set_solver].
          rewrite <- app_comm_cons. f_equal. clear. revert y. induction m' as [|a m' IH]; intros y; simpl.
          + by rewrite <- app_assoc.
          + specialize (IH a). simpl in IH. rewrite IH. by rewrite <- !app_assoc. }
      rewrite Hroot, E, last_snoc in Elast. congruence.
  - case_bool_decide as Esl; [|exact Hrel]. intros _. apply Hcut; [by apply take_lookup_drop|by rewrite Hroot].
Qed.

(** A path that resolves is inside the workspace, under its relative name. *)
Lemma Resolve_inside r lk input wp : clean_root r -> (wr_caseInsensitive r = true -> lower 47 = 47) ->
  Resolve lower fold r lk input = Ok wp ->
  checkSymlinkBoundary lower fold r lk (wp_Absolute wp) = Some true /\ inside lower fold r (wp_Absolute wp) /\
  wp_Relative wp <> [] /\ Clean (wp_Absolute wp) = wp_Absolute wp.
Proof.
  intros Hclean Hlow. pose proof Hclean as (l & Hl & Hroot). unfold Resolve.
  destruct (bool_decide (Trim input = [])); [done|].
  destruct (HasPrefix (T "//") input || HasPrefix (T "\") input); [done|].
  destruct (bool_decide (":"%char ∈ input)); [done|].
  destruct (negb (IsAbs input) && leaves_root (Clean input)); [done|].
  set (abs := if IsAbs input then Clean input else Join (wr_root r) (Clean input)).
  assert (exists k, Forall plain_element k /\ abs = absolute k) as (k & Hk & Habs).
  { unfold abs. destruct (IsAbs input) eqn:Ea.
    - exists (clean_elements input). split; [by apply clean_elements_plain|by apply Clean_absolute].
    - unfold Join. rewrite Hroot.
      eexists. split; [|by apply Clean_absolute]. by apply clean_elements_plain. }
  rewrite Habs. destruct (leaves_root (relative lower fold r (wr_root r) (absolute k))) eqn:El; [done|].
  destruct (checkSymlinkBoundary lower fold r lk (absolute k)) as [[|]|] eqn:Eb; try done. intros [= <-].
  cbn [wp_Absolute wp_Relative]. rewrite Clean_fixed by done. unfold inside.
  destruct (wr_caseInsensitive r) eqn:Hci.
  { destruct (relative_folded r k Hci (Hlow eq_refl) Hclean Hk El). by split_and!. }
  unfold relative in *. rewrite Hci in *. simpl in El |- *. rewrite Hroot in *.
  destruct (Rel_inside l k Hl Hk El) as (t & Hne & -> & ->). apply Forall_app in Hk as [_ Hk].
  split_and!; [done| |by apply JoinWith_plain_nonempty|done].
  exists t. by rewrite elements_absolute.
Qed.

(** The identity of the file at an absolute path. *)
Definition abs_id (r : WorkspacePathResolver) (p : text) : text :=
  Identity lower r (relative lower fold r (wr_root r) p).

(** The identity is a function of the absolute path. *)
Lemma Resolve_identity r lk input w : Resolve lower fold r lk input = Ok w ->
  wp_Identity w = abs_id r (wp_Absolute w).
Proof.
  unfold Resolve. destruct (bool_decide (Trim input = [])); [done|].
  destruct (HasPrefix (T "//") input || HasPrefix (T "\") input); [done|].
  destruct (bool_decide (":"%char ∈ input)); [done|].
  destruct (negb (IsAbs input) && leaves_root (Clean input)); [done|].
  destruct (leaves_root _); [done|].
  destruct (checkSymlinkBoundary _ _ _ _ _) as [[|]|]; try done. by intros [= <-].
Qed.

Lemma Clean_nonempty p : Clean p <> [].
Proof. unfold Clean. destruct p; [done|]. destruct (IsAbs _); [done|]. by destruct (JoinWith _ _). Qed.

Lemma Resolve_nonempty r lk input w : Resolve lower fold r lk input = Ok w -> wp_Absolute w <> [].
Proof.
  unfold Resolve. destruct (bool_decide (Trim input = [])); [done|].
  destruct (HasPrefix (T "//") input || HasPrefix (T "\") input); [done|].
  destruct (bool_decide (":"%char ∈ input)); [done|].
  destruct (negb (IsAbs input) && leaves_root (Clean input)); [done|].
  destruct (leaves_root _); [done|].
  destruct (checkSymlinkBoundary _ _ _ _ _) as [[|]|]; try done. intros [= <-]. simpl.
  destruct (IsAbs input); apply Clean_nonempty.
Qed.

End Resolution.
