(* ===== verification/FileTree.v ===== *)
(** * A directory tree and the calls of package [os] on it

    The files of a workspace as the tools that edit them see them: regular files
    and directories under clean absolute paths, and [Stat], [ReadFile],
    [MkdirAll], [WriteFile] and [Remove] with their error cases. Each call also
    takes an outcome from the environment, so it may fail for another reason; a
    write can fail after it truncated the file. There are no symbolic links and
    no two names for one file. *)

From Stdlib Require Import Ascii String.
From S2P Require Import Prelude GoStd Utf8 GoText WorkspacePath.

Local Open Scope Z_scope.
Local Open Scope juex_scope.

Inductive Node :=
| NFile (data : text) (mode : Z)
| NDir.

#[export] Instance Node_eq_dec : EqDecision Node.
Proof. solve_decision. Defined.

Inductive FileError := ErrNotExist | ErrNotDir | ErrIsDir | ErrNotEmpty | ErrIO.

(** What the environment adds to a call: nothing, a failure without effect, or a
    failure after part of the effect. *)
Inductive CallOutcome := CallOk | CallFails | CallPartial (n : nat).

Record Files := mkFiles {
  fs_tree : gmap text Node;
  fs_calls : nat;  (** calls made so far *)
}.

Definition IsNotExist (e : FileError) : bool :=
  match e with ErrNotExist => true | _ => false end.

(** The directories above a clean absolute path, the root first. *)
Definition parents (p : text) : list text :=
  map (fun i => absolute (take i (elements p))) (seq 0 (length (elements p))).

Definition is_file (t : gmap text Node) (p : text) : bool :=
  match t !! p with Some (NFile _ _) => true | _ => false end.

(** The error for a path that names nothing. *)
Definition missing (t : gmap text Node) (p : text) : FileError :=
  if existsb (is_file t) (parents p) then ErrNotDir else ErrNotExist.

Definition parent_is_dir (t : gmap text Node) (p : text) : bool :=
  match last (parents p) with
  | Some d => bool_decide (t !! d = Some NDir)
  | None => false
  end.

Definition has_children (t : gmap text Node) (p : text) : bool :=
  existsb (fun q => bool_decide (p ∈ parents q)) (map_to_list t).*1.

Fixpoint make_dirs (l : list text) (t : gmap text Node) : result FileError unit * gmap text Node :=
  match l with
  | [] => (Ok tt, t)
  | d :: l =>
    match t !! d with
    | Some NDir => make_dirs l t
    | Some (NFile _ _) => (Err ErrNotDir, t)
    | None => make_dirs l (<[d := NDir]> t)
    end
  end.

Section Calls.
  (** The outcome of each call, by its number; the mode bits of the process. *)
  Context (outcome : nat -> CallOutcome) (umask : Z).

(** One call: the world counts it, [f] is its work under the outcome it has. *)
Definition call {A} (f : CallOutcome -> gmap text Node -> result FileError A * gmap text Node) :
    SM Files FileError A := fun w =>
  let r := f (outcome (fs_calls w)) (fs_tree w) in
  (r.1, mkFiles r.2 (S (fs_calls w))).

Definition Stat (p : text) : SM Files FileError Node := call (fun o t =>
  match o with
  | CallOk => (match t !! p with Some n => Ok n | None => Err (missing t p) end, t)
  | _ => (Err ErrIO, t)
  end).

Definition ReadFile (p : text) : SM Files FileError text := call (fun o t =>
  match o with
  | CallOk =>
    (match t !! p with
     | Some (NFile data _) => Ok data
     | Some NDir => Err ErrIsDir
     | None => Err (missing t p)
     end, t)
  | _ => (Err ErrIO, t)
  end).

Definition MkdirAll (p : text) : SM Files FileError unit := call (fun o t =>
  match o with
  | CallOk => make_dirs (parents p ++ [p]) t
  | CallFails => (Err ErrIO, t)
  | CallPartial n =>
    let r := make_dirs (take n (parents p ++ [p])) t in
    (match r.1 with Ok _ => Err ErrIO | Err e => Err e end, r.2)
  end).

(** The mode of a file that is there does not change. *)
Definition written_mode (t : gmap text Node) (p : text) (mode : Z) : Z :=
  match t !! p with
  | Some (NFile _ m) => m
  | _ => Z.land mode (Z.lnot umask)
  end.

Definition WriteFile (p data : text) (mode : Z) : SM Files FileError unit := call (fun o t =>
  match o with
  | CallFails => (Err ErrIO, t)
  | _ =>
    if bool_decide (t !! p = Some NDir) then (Err ErrIsDir, t)
    else if negb (parent_is_dir t p) then (Err (missing t p), t)
    else match o with
         | CallPartial n => (Err ErrIO, <[p := NFile (take n data) (written_mode t p mode)]> t)
         | _ => (Ok tt, <[p := NFile data (written_mode t p mode)]> t)
         end
  end).

Definition Remove (p : text) : SM Files FileError unit := call (fun o t =>
  match o with
  | CallOk =>
    match t !! p with
    | None => (Err (missing t p), t)
    | Some (NFile _ _) => (Ok tt, delete p t)
    | Some NDir => if has_children t p then (Err ErrNotEmpty, t) else (Ok tt, delete p t)
    end
  | _ => (Err ErrIO, t)
  end).

End Calls.

(** ** Contents *)

(** What a reader finds at a path. *)
Definition content (w : Files) (p : text) : option text :=
  match fs_tree w !! p with Some (NFile data _) => Some data | _ => None end.

(** No file but those at [l] has changed. *)
Definition same_except (l : list text) (w w' : Files) : Prop :=
  forall p, p ∉ l -> content w' p = content w p.

Lemma same_except_refl l w : same_except l w w.
Proof. by intros p _. Qed.

Lemma same_except_trans l w1 w2 w3 : same_except l w1 w2 -> same_except l w2 w3 -> same_except l w1 w3.
Proof. intros H1 H2 p Hp. by rewrite H2, H1. Qed.

Lemma same_except_sub l k w w' : l ⊆ k -> same_except l w w' -> same_except k w w'.
Proof. intros Hs H p Hp. apply H. set_solver. Qed.

#[export] Hint Resolve same_except_refl : juex.

Section CallLemmas.
  Context (outcome : nat -> CallOutcome) (umask : Z).

Lemma make_dirs_content l : forall t r t', make_dirs l t = (r, t') ->
  forall p d m, t' !! p = Some (NFile d m) <-> t !! p = Some (NFile d m).
Proof.
  induction l as [|x l IH]; intros t r t'; simpl; [by intros [= _ <-]|].
  destruct (t !! x) as [[]|] eqn:Ex; [by intros [= _ <-]|by apply IH|].
  intros E p d m. rewrite (IH _ _ _ E). rewrite lookup_insert_Some. split; [|].
  - by intros [[_ ?]|[_ ?]].
  - intros H. right. split; [by intros ->; rewrite Ex in H|done].
Qed.

Lemma content_eq w w' p : (forall d m, fs_tree w' !! p = Some (NFile d m) <-> fs_tree w !! p = Some (NFile d m)) ->
  content w' p = content w p.
Proof.
  intros H. unfold content. destruct (fs_tree w' !! p) as [[d m|]|] eqn:E'.
  - by rewrite (proj1 (H d m) eq_refl).
  - destruct (fs_tree w !! p) as [[d m|]|] eqn:E; try done. pose proof (proj2 (H d m) eq_refl). done.
  - destruct (fs_tree w !! p) as [[d m|]|] eqn:E; try done. pose proof (proj2 (H d m) eq_refl). done.
Qed.

Lemma Stat_tree p w r w' : Stat outcome p w = (r, w') -> fs_tree w' = fs_tree w.
Proof. unfold Stat, call. intros [= _ <-]. simpl. by destruct (outcome _). Qed.

Lemma Stat_Ok p w n w' : Stat outcome p w = (Ok n, w') -> fs_tree w !! p = Some n.
Proof.
  unfold Stat, call. intros [= H _]. destruct (outcome _); try done. simpl in H.
  destruct (fs_tree w !! p); [by injection H as ->|done].
Qed.

Lemma Stat_missing p w e w' : Stat outcome p w = (Err e, w') -> IsNotExist e = true ->
  fs_tree w !! p = None.
Proof.
  unfold Stat, call. intros [= H _] He. destruct (outcome _); simpl in H; try by injection H as <-.
  by destruct (fs_tree w !! p).
Qed.

Lemma ReadFile_tree p w r w' : ReadFile outcome p w = (r, w') -> fs_tree w' = fs_tree w.
Proof. unfold ReadFile, call. intros [= _ <-]. simpl. by destruct (outcome _). Qed.

Lemma ReadFile_Ok p w d w' : ReadFile outcome p w = (Ok d, w') -> exists m, fs_tree w !! p = Some (NFile d m).
Proof.
  unfold ReadFile, call. intros [= H _]. destruct (outcome _); try done. simpl in H.
  destruct (fs_tree w !! p) as [[d' m|]|]; try done. injection H as ->. eauto.
Qed.

Lemma MkdirAll_content p w r w' : MkdirAll outcome p w = (r, w') -> forall q, content w' q = content w q.
Proof.
  unfold MkdirAll, call. intros [= _ <-] q. apply content_eq. intros d m. simpl.
  destruct (outcome _) as [| |n]; simpl; [|done|].
  - destruct (make_dirs _ _) as [r0 t0] eqn:E. exact (make_dirs_content _ _ _ _ E q d m).
  - destruct (make_dirs _ _) as [r0 t0] eqn:E. exact (make_dirs_content _ _ _ _ E q d m).
Qed.

Lemma content_insert w p d m c q : content (mkFiles (<[p := NFile d m]> (fs_tree w)) c) q =
  if bool_decide (q = p) then Some d else content w q.
Proof.
  unfold content. simpl. case_bool_decide as E; [subst; by rewrite lookup_insert_eq|].
  by rewrite lookup_insert_ne by done.
Qed.

Lemma content_delete w p c q : content (mkFiles (delete p (fs_tree w)) c) q =
  if bool_decide (q = p) then None else content w q.
Proof.
  unfold content. simpl. case_bool_decide as E; [subst; by rewrite lookup_delete_eq|].
  by rewrite lookup_delete_ne by done.
Qed.

Lemma WriteFile_content p d m w r w' : WriteFile outcome umask p d m w = (r, w') ->
  same_except [p] w w' /\ (r = Ok tt -> content w' p = Some d).
Proof.
  unfold WriteFile, call. intros [= Hr <-]. unfold same_except.
  destruct (outcome _) as [| |n]; simpl in *; [|by subst r|];
    (case_bool_decide; [by subst r|]); (destruct (negb _); [by subst r|]); simpl in *;
    setoid_rewrite content_insert.
  - split; [intros q Hq; by rewrite bool_decide_eq_false_2 by set_solver|by rewrite bool_decide_eq_true_2].
  - split; [intros q Hq; by rewrite bool_decide_eq_false_2 by set_solver|by subst r].
Qed.

Lemma Remove_content p w r w' : Remove outcome p w = (r, w') ->
  same_except [p] w w' /\ (r = Ok tt -> content w' p = None) /\
  (forall e, r = Err e -> fs_tree w' = fs_tree w /\ (IsNotExist e = true -> content w p = None)).
Proof.
  unfold Remove, call. intros [= Hr <-]. unfold same_except.
  destruct (outcome _) as [| |n]; simpl in *; subst r; try by (split_and!; [done|done|by intros e [= <-]]).
  destruct (fs_tree w !! p) as [[d m|]|] eqn:Ep; simpl.
  - setoid_rewrite content_delete. rewrite bool_decide_eq_true_2 by done.
    split_and!; [|done|done]. intros q Hq. by rewrite bool_decide_eq_false_2 by set_solver.
  - destruct (has_children _ _); simpl; [by split_and!; [done|done|intros e [= <-]]|].
    setoid_rewrite content_delete. rewrite bool_decide_eq_true_2 by done.
    split_and!; [|done|done]. intros q Hq. by rewrite bool_decide_eq_false_2 by set_solver.
  - split_and!; [done|done|]. intros e _. split; [done|]. intros _. unfold content. by rewrite Ep.
Qed.

End CallLemmas.

(** ** Runs of the calls *)

Lemma run_bind {W E A B} (m : SM W E A) (k : A -> SM W E B) w r w' : bind m k w = (r, w') ->
  (exists a w1, m w = (Ok a, w1) /\ k a w1 = (r, w')) \/ (exists e, m w = (Err e, w') /\ r = Err e).
Proof.
  unfold bind. destruct (m w) as [[a|e] w1]; intros H; [left; eauto|right].
  injection H as <- <-. eauto.
Qed.

Lemma run_bind_ok {W E A B} (m : SM W E A) (k : A -> SM W E B) w b w' : bind m k w = (Ok b, w') ->
  exists a w1, m w = (Ok a, w1) /\ k a w1 = (Ok b, w').
Proof. intros [H|(e & _ & ?)]%run_bind; [exact H|done]. Qed.

(** [m] changes no file but those at [l]. *)
Definition writes_only {E A} (l : list text) (m : SM Files E A) : Prop :=
  forall w r w', m w = (r, w') -> same_except l w w'.

(** [m] leaves the tree alone. *)
Definition reads_only {E A} (m : SM Files E A) : Prop :=
  forall w r w', m w = (r, w') -> fs_tree w' = fs_tree w.

Lemma reads_writes {E A} l (m : SM Files E A) : reads_only m -> writes_only l m.
Proof. intros H w r w' E' p _. unfold content. by rewrite (H _ _ _ E'). Qed.

Lemma reads_ret {E A} (a : A) : reads_only (ret (E := E) a).
Proof. by intros w r w' [= _ <-]. Qed.

Lemma reads_fail {E A} (e : E) : reads_only (fail (A := A) e).
Proof. by intros w r w' [= _ <-]. Qed.

Lemma reads_bind {E A B} (m : SM Files E A) (k : A -> SM Files E B) :
  reads_only m -> (forall a, reads_only (k a)) -> reads_only (bind m k).
Proof.
  intros Hm Hk w r w' [(a & w1 & E1 & E2)|(e & E1 & _)]%run_bind; [|by apply Hm in E1].
  apply Hm in E1. apply Hk in E2. by rewrite E2.
Qed.

Lemma writes_only_bind {E A B} l (m : SM Files E A) (k : A -> SM Files E B) :
  writes_only l m -> (forall a, writes_only l (k a)) -> writes_only l (bind m k).
Proof.
  intros Hm Hk w r w' [(a & w1 & E1 & E2)|(e & E1 & _)]%run_bind; [|by apply Hm in E1].
  apply Hm in E1. apply Hk in E2. by eapply same_except_trans.
Qed.

Lemma writes_sub {E A} l k (m : SM Files E A) : l ⊆ k -> writes_only l m -> writes_only k m.
Proof. intros Hs H w r w' E'. eapply same_except_sub; [exact Hs|by eapply H]. Qed.

#[export] Hint Resolve reads_ret reads_fail reads_bind reads_writes writes_only_bind : juex.
#[export] Hint Resolve Stat_tree ReadFile_tree : juex.
