(* ===== verification/ApplyPatch.v ===== *)
(** * The patch tool: [features/applypatch/apply_patch.go]

    The text of a patch becomes operations on files ([parsePatch]), the
    operations become changes with their new contents ([planPatch]), the paths
    are checked again, and the changes are written; when a write fails, the
    snapshot taken before is written back. The resolver of [WorkspacePath] finds
    the files, the calls of [FileTree] read and write them. *)

From Stdlib Require Import Ascii String.
From S2P Require Import Prelude GoStd Utf8 GoText WorkspacePath FileTree.

Local Open Scope Z_scope.
Local Open Scope juex_scope.

(** ** Data *)

Definition patchHeader : text := T "*** Begin Patch".
Definition patchFooter : text := T "*** End Patch".
Definition addFile : text := T "*** Add File: ".
Definition updateFile : text := T "*** Update File: ".
Definition moveTo_ : text := T "*** Move to: ".
Definition deleteFile : text := T "*** Delete File: ".
Definition stars : text := T "*** ".

Inductive patchOperationKind := patchAdd | patchUpdate | patchDelete.

Record patchLine := mkLine {
  pl_kind : ascii;
  pl_text : text;
}.

Record patchOperation := mkOp {
  po_kind : patchOperationKind;
  po_path : text;
  po_moveTo : text;
  po_lines : list patchLine;
}.

Record patchHunk := mkHunk {
  ph_oldText : text;
  ph_newText : text;
  ph_additions : Z;
  ph_deletions : Z;
}.

Record patchChange := mkChange {
  pc_kind : patchOperationKind;
  pc_rel : text;
  pc_abs : text;
  pc_moveRel : text;
  pc_moveAbs : text;
  pc_content : text;
  pc_mode : Z;
  pc_additions : Z;
  pc_deletions : Z;
}.

Record patchSummary := mkSummary {
  ps_changes : list patchChange;
  ps_adds : Z;
  ps_updates : Z;
  ps_deletes : Z;
  ps_moves : Z;
  ps_additions : Z;
  ps_deletions : Z;
}.

Record patchSnapshot := mkSnapshot {
  sn_abs : text;
  sn_existed : bool;
  sn_data : text;
  sn_mode : Z;
}.

Definition kind_add : ascii := "+"%char.
Definition kind_delete : ascii := "-"%char.
Definition kind_context : ascii := " "%char.
Definition kind_hunk : ascii := "@"%char.

(** [ErrOutOfFuel] is no error of the code: the loop of [parsePatch] had too
    little fuel. *)
Inductive PatchError :=
| ErrMissingText
| ErrFrame
| ErrAddLine (path line : text)
| ErrUpdateLine (path line : text)
| ErrUnexpectedLine (line : text)
| ErrEmptyPatch
| ErrOutOfFuel
| ErrPath (e : PathError)
| ErrGuard (abs : text)
| ErrDuplicate (rel : text)
| ErrMatchesSource (rel : text)
| ErrAddExists (rel : text)
| ErrMoveExists (rel : text)
| ErrDirectory (rel : text)
| ErrUpdateNoHunks (rel : text)
| ErrNoHunks
| ErrHunkNoContext
| ErrContextNotFound (rel : text)
| ErrAmbiguousContext (rel : text) (count : nat)
| ErrCanceled
| ErrIdentityChanged (rel : text)
| ErrFile (e : FileError)
| ErrRollbackFailed (e : FileError) (rollback : FileError).

(** ** Parsing *)

Fixpoint parse_add_lines (path : text) (lines : list text) :
    result PatchError (list patchLine * list text) :=
  match lines with
  | [] => Ok ([], [])
  | line :: rest =>
    if HasPrefix stars line then Ok ([], line :: rest)
    else if negb (HasPrefix [kind_add] line) then Err (ErrAddLine path line)
    else try r := parse_add_lines path rest in
         Ok (mkLine kind_add (TrimPrefix [kind_add] line) :: r.1, r.2)
  end.

Fixpoint parse_update_lines (path : text) (lines : list text) :
    result PatchError (list patchLine * list text) :=
  match lines with
  | [] => Ok ([], [])
  | line :: rest =>
    if HasPrefix stars line then Ok ([], line :: rest)
    else if HasPrefix (T "@@") line then
      try r := parse_update_lines path rest in Ok (mkLine kind_hunk [] :: r.1, r.2)
    else match line with
         | [] =>
           if match rest with [] => true | next :: _ => HasPrefix stars next end then
             parse_update_lines path rest
           else try r := parse_update_lines path rest in Ok (mkLine kind_context [] :: r.1, r.2)
         | prefix :: tail =>
           if bool_decide (prefix <> kind_context) && bool_decide (prefix <> kind_add) &&
              bool_decide (prefix <> kind_delete) then Err (ErrUpdateLine path line)
           else try r := parse_update_lines path rest in Ok (mkLine prefix tail :: r.1, r.2)
         end
  end.

Definition parse_move (lines : list text) : text * list text :=
  match lines with
  | line :: rest =>
    if HasPrefix moveTo_ line then (Trim (TrimPrefix moveTo_ line), rest) else ([], lines)
  | [] => ([], [])
  end.

Fixpoint parse_ops (fuel : nat) (lines : list text) : result PatchError (list patchOperation) :=
  match fuel with
  | O => Err ErrOutOfFuel
  | S k =>
    match lines with
    | [] => Ok []
    | line :: rest =>
      if HasPrefix addFile line then
        let path := Trim (TrimPrefix addFile line) in
        try r := parse_add_lines path rest in
        try ops := parse_ops k r.2 in
        Ok (mkOp patchAdd path [] r.1 :: ops)
      else if HasPrefix updateFile line then
        let path := Trim (TrimPrefix updateFile line) in
        let move := parse_move rest in
        try r := parse_update_lines path move.2 in
        try ops := parse_ops k r.2 in
        Ok (mkOp patchUpdate path move.1 r.1 :: ops)
      else if HasPrefix deleteFile line then
        let path := Trim (TrimPrefix deleteFile line) in
        try ops := parse_ops k rest in
        Ok (mkOp patchDelete path [] [] :: ops)
      else Err (ErrUnexpectedLine line)
    end
  end.

(** The lines between the first and the last, when these are the frame. *)
Definition patch_body (lines : list text) : option (list text) :=
  match lines with
  | header :: rest =>
    match last rest with
    | Some footer =>
      if bool_decide (header = patchHeader) && bool_decide (footer = patchFooter) then
        Some (removelast rest)
      else None
    | None => None
    end
  | [] => None
  end.

Definition parsePatch (patchText : text) : result PatchError (list patchOperation) :=
  let text := Trim (ReplaceCRLF patchText) in
  match patch_body (SplitOn newline text) with
  | None => Err ErrFrame
  | Some body =>
    try ops := parse_ops (S (length body)) body in
    match ops with
    | [] => Err ErrEmptyPatch
    | _ => Ok ops
    end
  end.

(** ** Hunks *)

Definition line_text (l : patchLine) : text := pl_text l ++ [newline].

Definition count_kind (k : ascii) (lines : list patchLine) : Z :=
  Z.of_nat (length (filter (fun l => pl_kind l = k) lines)).

Definition patchLinesContent (lines : list patchLine) : text * Z :=
  (concat (map line_text lines), count_kind kind_add lines).

Definition buildPatchHunk (lines : list patchLine) : patchHunk :=
  mkHunk
    (concat (map line_text (filter (fun l => pl_kind l = kind_context \/ pl_kind l = kind_delete) lines)))
    (concat (map line_text (filter (fun l => pl_kind l = kind_context \/ pl_kind l = kind_add) lines)))
    (count_kind kind_add lines) (count_kind kind_delete lines).

(** [flush] of [patchHunks], over the hunks so far and the current lines. *)
Definition flush_hunk (hunks : list patchHunk) (current : list patchLine) :
    result PatchError (list patchHunk) :=
  match current with
  | [] => Ok hunks
  | _ =>
    let hunk := buildPatchHunk current in
    match ph_oldText hunk with
    | [] => Err ErrHunkNoContext
    | _ => Ok (hunks ++ [hunk])
    end
  end.

Fixpoint collect_hunks (lines : list patchLine) (hunks : list patchHunk) (current : list patchLine) :
    result PatchError (list patchHunk) :=
  match lines with
  | [] => flush_hunk hunks current
  | line :: lines =>
    if bool_decide (pl_kind line = kind_hunk) then
      try hunks := flush_hunk hunks current in collect_hunks lines hunks []
    else collect_hunks lines hunks (current ++ [line])
  end.

Definition patchHunks (lines : list patchLine) : result PatchError (list patchHunk) :=
  try hunks := collect_hunks lines [] [] in
  match hunks with
  | [] => Err ErrNoHunks
  | _ => Ok hunks
  end.

Fixpoint applyPatchHunks (rel content : text) (hunks : list patchHunk) (additions deletions : Z) :
    result PatchError (text * Z * Z) :=
  match hunks with
  | [] => Ok (content, additions, deletions)
  | hunk :: hunks =>
    match Count content (ph_oldText hunk) with
    | O => Err (ErrContextNotFound rel)
    | S O => applyPatchHunks rel (ReplaceFirst content (ph_oldText hunk) (ph_newText hunk)) hunks
               (additions + ph_additions hunk) (deletions + ph_deletions hunk)
    | n => Err (ErrAmbiguousContext rel n)
    end
  end.

(** What an update makes of the content of its file. *)
Definition update_content (rel moveAbs content : text) (op : patchOperation) :
    result PatchError (text * Z * Z) :=
  match po_lines op with
  | [] => match moveAbs with [] => Err (ErrUpdateNoHunks rel) | _ => Ok (content, 0, 0) end
  | lines => try hunks := patchHunks lines in applyPatchHunks rel content hunks 0 0
  end.

(** ** Planning *)

(** What a run takes from its surroundings. The links of the file system may
    change between planning and the last check ([pe_links_late]). *)
Record PatchEnv := mkEnv {
  pe_workDir : text;
  pe_cwd : option text;
  pe_links : Links;
  pe_links_late : Links;
  pe_caseInsensitive : bool;
  pe_CheckWrite : text -> bool;
  pe_canceled : bool;
  pe_outcome : nat -> CallOutcome;
  pe_umask : Z;
}.

Definition PM (A : Type) : Type := SM Files PatchError A.

(** An error of a file call is the error of the tool. *)
Definition io {A} (m : SM Files FileError A) : PM A := fun w =>
  match m w with
  | (Ok a, w') => (Ok a, w')
  | (Err e, w') => (Err (ErrFile e), w')
  end.

(** A call whose error the code looks at. *)
Definition tried {W E A} (m : SM W E A) : SM W PatchError (result E A) := fun w =>
  let r := m w in (Ok r.1, r.2).

Definition lift {A} (r : result PatchError A) : PM A := fun w => (r, w).

Section Patch.
  Context (lower fold : Z -> Z) (env : PatchEnv).

Definition resolve_in (lk : Links) (paths : WorkspacePathResolver) (input : text) : result PatchError WorkspacePath :=
  match Resolve lower fold paths lk input with
  | Ok wp => Ok wp
  | Err e => Err (ErrPath e)
  end.

Definition check_guard (abs : text) : result PatchError unit :=
  if pe_CheckWrite env abs then Ok tt else Err (ErrGuard abs).

(** The path must name nothing; [exists_] is the error when it does. *)
Definition must_be_absent (abs : text) (exists_ : PatchError) : PM unit :=
  do r <- tried (Stat (pe_outcome env) abs);;
  match r with
  | Ok _ => fail exists_
  | Err e => if IsNotExist e then ret tt else fail (ErrFile e)
  end.

Definition planPatchAdd (rel abs : text) (op : patchOperation) : PM patchChange :=
  do_ must_be_absent abs (ErrAddExists rel);;
  let r := patchLinesContent (po_lines op) in
  ret (mkChange patchAdd rel abs [] [] r.1 420 r.2 0).

Definition planPatchUpdate (rel abs moveRel moveAbs : text) (op : patchOperation) : PM patchChange :=
  do info <- io (Stat (pe_outcome env) abs);;
  match info with
  | NDir => fail (ErrDirectory rel)
  | NFile _ mode =>
    do_ (match moveAbs with
         | [] => ret tt
         | _ => must_be_absent moveAbs (ErrMoveExists moveRel)
         end);;
    do data <- io (ReadFile (pe_outcome env) abs);;
    do r <- lift (update_content rel moveAbs data op);;
    let '(content, additions, deletions) := r in
    ret (mkChange patchUpdate rel abs moveRel moveAbs content mode additions deletions)
  end.

Definition planPatchDelete (rel abs : text) : PM patchChange :=
  do info <- io (Stat (pe_outcome env) abs);;
  match info with
  | NDir => fail (ErrDirectory rel)
  | NFile _ _ => ret (mkChange patchDelete rel abs [] [] [] 0 0 0)
  end.

(** The target of a move: its names and the identities touched with it. *)
Definition plan_move (paths : WorkspacePathResolver) (touched : gset text) (rel identity moveTo : text) :
    result PatchError (text * text * gset text) :=
  match moveTo with
  | [] => Ok ([], [], touched)
  | _ =>
    try move := resolve_in (pe_links env) paths moveTo in
    try u := check_guard (wp_Absolute move) in
    if bool_decide (wp_Identity move = identity) then Err (ErrMatchesSource rel)
    else if bool_decide (wp_Identity move ∈ touched) then Err (ErrDuplicate (wp_Relative move))
    else Ok (wp_Relative move, wp_Absolute move, {[wp_Identity move]} ∪ touched)
  end.

(** [summary] with one more change. *)
Definition add_change (summary : patchSummary) (change : patchChange) : patchSummary :=
  let s := summary in
  match pc_kind change with
  | patchAdd =>
    mkSummary (ps_changes s ++ [change]) (ps_adds s + 1) (ps_updates s) (ps_deletes s) (ps_moves s)
      (ps_additions s + pc_additions change) (ps_deletions s)
  | patchUpdate =>
    mkSummary (ps_changes s ++ [change]) (ps_adds s) (ps_updates s + 1) (ps_deletes s)
      (match pc_moveRel change with [] => ps_moves s | _ => ps_moves s + 1 end)
      (ps_additions s + pc_additions change) (ps_deletions s + pc_deletions change)
  | patchDelete =>
    mkSummary (ps_changes s ++ [change]) (ps_adds s) (ps_updates s) (ps_deletes s + 1) (ps_moves s)
      (ps_additions s) (ps_deletions s)
  end.

(** One round of the loop of [planPatch]. *)
Definition plan_op (paths : WorkspacePathResolver) (touched : gset text) (op : patchOperation) :
    PM (patchChange * gset text) :=
  do resolved <- lift (resolve_in (pe_links env) paths (po_path op));;
  let rel := wp_Relative resolved in
  let abs := wp_Absolute resolved in
  let identity := wp_Identity resolved in
  do_ lift (check_guard abs);;
  if bool_decide (identity ∈ touched) then fail (ErrDuplicate rel)
  else
    let touched := {[identity]} ∪ touched in
    match po_kind op with
    | patchAdd => do change <- planPatchAdd rel abs op;; ret (change, touched)
    | patchUpdate =>
      do m <- lift (plan_move paths touched rel identity (po_moveTo op));;
      let '(moveRel, moveAbs, touched) := m in
      do change <- planPatchUpdate rel abs moveRel moveAbs op;; ret (change, touched)
    | patchDelete => do change <- planPatchDelete rel abs;; ret (change, touched)
    end.

Fixpoint plan_ops (paths : WorkspacePathResolver) (touched : gset text) (summary : patchSummary)
    (ops : list patchOperation) : PM patchSummary :=
  match ops with
  | [] => ret summary
  | op :: ops =>
    do r <- plan_op paths touched op;;
    plan_ops paths r.2 (add_change summary r.1) ops
  end.

Definition planPatch (paths : WorkspacePathResolver) (ops : list patchOperation) : PM patchSummary :=
  plan_ops paths ∅ (mkSummary [] 0 0 0 0 0 0) ops.

(** ** The last check of the paths *)

Definition validate_target (paths : WorkspacePathResolver) (rel abs : text) : result PatchError unit :=
  match rel with
  | [] => Ok tt
  | _ =>
    try resolved := resolve_in (pe_links_late env) paths rel in
    if bool_decide (wp_Identity resolved <> Identity lower paths rel) ||
       negb (SameAbsolute fold paths (wp_Absolute resolved) abs) then Err (ErrIdentityChanged rel)
    else check_guard (wp_Absolute resolved)
  end.

Fixpoint validatePatchChanges (paths : WorkspacePathResolver) (changes : list patchChange) :
    result PatchError unit :=
  match changes with
  | [] => Ok tt
  | change :: changes =>
    try u := validate_target paths (pc_rel change) (pc_abs change) in
    try v := validate_target paths (pc_moveRel change) (pc_moveAbs change) in
    validatePatchChanges paths changes
  end.

(** ** Writing *)

Definition snapshot_one (abs : text) : PM patchSnapshot :=
  do r <- tried (Stat (pe_outcome env) abs);;
  match r with
  | Ok NDir => fail (ErrDirectory abs)
  | Ok (NFile _ mode) =>
    do data <- io (ReadFile (pe_outcome env) abs);;
    ret (mkSnapshot abs true data mode)
  | Err e => if IsNotExist e then ret (mkSnapshot abs false [] 0) else fail (ErrFile e)
  end.

(** The loop of [snapshotPatchChanges], over the paths of the changes. *)
Fixpoint snapshot_paths (seen : gset text) (paths : list text) : PM (list patchSnapshot) :=
  match paths with
  | [] => ret []
  | abs :: paths =>
    if bool_decide (abs = []) || bool_decide (abs ∈ seen) then snapshot_paths seen paths
    else
      do s <- snapshot_one abs;;
      do l <- snapshot_paths ({[abs]} ∪ seen) paths;;
      ret (s :: l)
  end.

Definition change_paths (change : patchChange) : list text := [pc_abs change; pc_moveAbs change].

Definition snapshotPatchChanges (changes : list patchChange) : PM (list patchSnapshot) :=
  snapshot_paths ∅ (concat (map change_paths changes)).

Definition writePatchFile (path data : text) (mode : Z) : SM Files FileError unit :=
  let mode := if mode =? 0 then 420 else mode in
  do_ MkdirAll (pe_outcome env) (Dir path);;
  WriteFile (pe_outcome env) (pe_umask env) path data mode.

Definition write_change (change : patchChange) : SM Files FileError unit :=
  match pc_kind change with
  | patchAdd => writePatchFile (pc_abs change) (pc_content change) (pc_mode change)
  | patchUpdate =>
    match pc_moveAbs change with
    | [] => writePatchFile (pc_abs change) (pc_content change) (pc_mode change)
    | moveAbs =>
      do_ writePatchFile moveAbs (pc_content change) (pc_mode change);;
      Remove (pe_outcome env) (pc_abs change)
    end
  | patchDelete => Remove (pe_outcome env) (pc_abs change)
  end.

Fixpoint writePatchChanges (changes : list patchChange) : SM Files FileError unit :=
  match changes with
  | [] => ret tt
  | change :: changes => do_ write_change change;; writePatchChanges changes
  end.

Definition restore_snapshot (snapshot : patchSnapshot) : SM Files PatchError (option FileError) :=
  if sn_existed snapshot then
    do r <- tried (writePatchFile (sn_abs snapshot) (sn_data snapshot) (sn_mode snapshot));;
    ret (match r with Ok _ => None | Err e => Some e end)
  else
    do r <- tried (Remove (pe_outcome env) (sn_abs snapshot));;
    ret (match r with Ok _ => None | Err e => if IsNotExist e then None else Some e end).

(** The snapshots, last first; the first error is kept, and every snapshot is
    tried. *)
Fixpoint rollback_from (firstErr : option FileError) (snapshots : list patchSnapshot) :
    SM Files PatchError (option FileError) :=
  match snapshots with
  | [] => ret firstErr
  | snapshot :: snapshots =>
    do err <- restore_snapshot snapshot;;
    rollback_from (match firstErr with Some e => Some e | None => err end) snapshots
  end.

Definition rollbackPatchChanges (snapshots : list patchSnapshot) : SM Files PatchError (option FileError) :=
  rollback_from None (reverse snapshots).

Definition applyPatchChanges (changes : list patchChange) : PM unit :=
  do snapshots <- snapshotPatchChanges changes;;
  do r <- tried (writePatchChanges changes);;
  match r with
  | Ok _ => ret tt
  | Err e =>
    do rollbackErr <- rollbackPatchChanges snapshots;;
    match rollbackErr with
    | Some re => fail (ErrRollbackFailed e re)
    | None => fail (ErrFile e)
    end
  end.

(** ** The tool *)

Definition new_resolver : result PatchError WorkspacePathResolver :=
  match NewWorkspacePathResolver (pe_cwd env) (pe_links env) (pe_caseInsensitive env) (pe_workDir env) with
  | Ok r => Ok r
  | Err e => Err (ErrPath e)
  end.

Definition applyPatch (patchText : text) : PM patchSummary :=
  do ops <- lift (parsePatch patchText);;
  do paths <- lift new_resolver;;
  do summary <- planPatch paths ops;;
  if pe_canceled env then fail ErrCanceled
  else
    do_ lift (validatePatchChanges paths (ps_changes summary));;
    do_ applyPatchChanges (ps_changes summary);;
    ret summary.

Definition kind_name (k : patchOperationKind) : string :=
  match k with patchAdd => "add" | patchUpdate => "update" | patchDelete => "delete" end.

Definition format_change (c : patchChange) : string :=
  match pc_kind c, pc_moveRel c with
  | patchUpdate, (_ :: _) as moveRel =>
    "- move " +:+ string_of (pc_rel c) +:+ " -> " +:+ string_of moveRel
  | _, _ => "- " +:+ kind_name (pc_kind c) +:+ " " +:+ string_of (pc_rel c)
  end.

Definition formatPatchSummary (s : patchSummary) : string :=
  "applied patch: " +:+ Itoa (Z.of_nat (length (ps_changes s))) +:+ " files changed (add=" +:+ Itoa (ps_adds s)
  +:+ " update=" +:+ Itoa (ps_updates s) +:+ " delete=" +:+ Itoa (ps_deletes s) +:+ " move=" +:+ Itoa (ps_moves s)
  +:+ ", +" +:+ Itoa (ps_additions s) +:+ " -" +:+ Itoa (ps_deletions s) +:+ ")"
  +:+ String.concat "" (map (fun c => String "010"%char (format_change c)) (ps_changes s)).

Definition applyPatchTool (patchText : text) : PM string :=
  match Trim patchText with
  | [] => fail ErrMissingText
  | _ => do summary <- applyPatch patchText;; ret (formatPatchSummary summary)
  end.

End Patch.
