(* ===== verification/ApplyPatchText.v ===== *)
(** * The text of a patch and the edits of its hunks

    Printing operations and parsing them again, why the parser ends, and what
    the hunks of an update do to the content of its file. *)

From Stdlib Require Import Ascii String.
From S2P Require Import Prelude GoStd Utf8 GoText WorkspacePath FileTree ApplyPatch.

Local Open Scope Z_scope.
Local Open Scope juex_scope.

(** ** Printing a patch *)

Definition render_line (l : patchLine) : text :=
  if bool_decide (pl_kind l = kind_hunk) then T "@@" else pl_kind l :: pl_text l.

Definition render_move (m : text) : list text :=
  match m with [] => [] | _ => [moveTo_ ++ m] end.

Definition render_op (op : patchOperation) : list text :=
  match po_kind op with
  | patchAdd => (addFile ++ po_path op) :: map render_line (po_lines op)
  | patchUpdate =>
    (updateFile ++ po_path op) ::
    render_move (po_moveTo op) ++ map render_line (po_lines op)
  | patchDelete => [deleteFile ++ po_path op]
  end.

Definition render_lines (ops : list patchOperation) : list text :=
  patchHeader :: concat (map render_op ops) ++ [patchFooter].

(** Lines joined by a newline, or by a carriage return and a newline. *)
Fixpoint join_lines (crlf : bool) (l : list text) : text :=
  match l with
  | [] => []
  | [x] => x
  | x :: l => x ++ (if crlf then [carriage_return] else []) ++ newline :: join_lines crlf l
  end.

Definition render_patch (crlf : bool) (ops : list patchOperation) : text :=
  join_lines crlf (render_lines ops).

(** ** Operations that a patch can say *)

Definition one_line (x : text) : Prop := newline ∉ x /\ last x <> Some carriage_return.

Definition wf_path (p : text) : Prop := Trim p = p /\ one_line p.

Definition wf_update_line (l : patchLine) : Prop :=
  one_line (pl_text l) /\
  (pl_kind l = kind_context \/ pl_kind l = kind_add \/ pl_kind l = kind_delete \/
   (pl_kind l = kind_hunk /\ pl_text l = [])).

Definition wf_op (op : patchOperation) : Prop :=
  wf_path (po_path op) /\
  match po_kind op with
  | patchAdd => po_moveTo op = [] /\ Forall (fun l => one_line (pl_text l) /\ pl_kind l = kind_add) (po_lines op)
  | patchUpdate => wf_path (po_moveTo op) /\ Forall wf_update_line (po_lines op)
  | patchDelete => po_moveTo op = [] /\ po_lines op = []
  end.

(** ** Lines *)

Lemma HasPrefix_cons_ne a p b s : a <> b -> HasPrefix (a :: p) (b :: s) = false.
Proof. intros H. simpl. by rewrite bool_decide_eq_false_2. Qed.

Lemma ReplaceCRLF_line x s : one_line x -> ReplaceCRLF (x ++ s) = x ++ ReplaceCRLF s.
Proof.
  induction x as [|a x IH]; intros [Hn Hl]; [done|]. rewrite <- !app_comm_cons. cbn [ReplaceCRLF].
  assert (bool_decide (a = carriage_return) && HasPrefix [newline] (x ++ s) = false) as ->.
  { case_bool_decide as Ha; [|done]. subst a. destruct x as [|b x]; [done|]. simpl.
    rewrite bool_decide_eq_false_2 by set_solver. done. }
  f_equal. apply IH. split; [set_solver|]. destruct x; [done|exact Hl].
Qed.

Lemma ReplaceCRLF_eol (crlf : bool) s :
  ReplaceCRLF ((if crlf then [carriage_return] else []) ++ newline :: s) = newline :: ReplaceCRLF s.
Proof. by destruct crlf. Qed.

Lemma ReplaceCRLF_join crlf l : Forall one_line l -> ReplaceCRLF (join_lines crlf l) = JoinWith newline l.
Proof.
  induction 1 as [|x l Hx Hl IH]; [done|]. destruct l as [|y l].
  - simpl. rewrite <- (app_nil_r x) at 1. rewrite ReplaceCRLF_line by done. simpl. by rewrite app_nil_r.
  - change (join_lines crlf (x :: y :: l)) with
      (x ++ (if crlf then [carriage_return] else []) ++ newline :: join_lines crlf (y :: l)).
    rewrite ReplaceCRLF_line, ReplaceCRLF_eol, IH by done. done.
Qed.

Lemma last_app_ne {A} (l k : list A) x : last k = Some x -> last (l ++ k) = Some x.
Proof. intros H. rewrite last_app, H. done. Qed.

Lemma one_line_app x y : newline ∉ x -> last x <> Some carriage_return -> one_line y -> one_line (x ++ y).
Proof.
  intros Hx Hl [Hy Hy2]. split; [set_solver|]. rewrite last_app. by destruct (last y).
Qed.

Lemma render_line_one_line l : (pl_kind l = kind_hunk \/ (pl_kind l <> newline /\ pl_kind l <> carriage_return)) ->
  one_line (pl_text l) -> one_line (render_line l).
Proof.
  intros Hk Ht. unfold render_line. case_bool_decide as E; [split; [vm_compute; set_solver|done]|].
  destruct Hk as [|[Hk1 Hk2]]; [done|]. apply (one_line_app [pl_kind l]); [set_solver| |done].
  simpl. congruence.
Qed.

Lemma bytes_of_string_of l : bytes_of (string_of l) = map byte_of l.
Proof. induction l as [|a l IH]; [done|]. simpl. by rewrite <- IH. Qed.

Lemma Trim_printable a m b : printable (byte_of a) -> printable (byte_of b) ->
  Trim (a :: m ++ [b]) = a :: m ++ [b].
Proof.
  intros Ha Hb. unfold Trim. rewrite (TrimSpace_printable _ (byte_of a) (map byte_of m) (byte_of b)).
  - apply list_ascii_of_string_of_list_ascii.
  - rewrite bytes_of_string_of. simpl. by rewrite map_app.
  - done.
  - done.
Qed.

Lemma Trim_frame (body : list text) :
  Trim (JoinWith newline (patchHeader :: body ++ [patchFooter])) = JoinWith newline (patchHeader :: body ++ [patchFooter]).
Proof.
  assert (exists m, JoinWith newline (patchHeader :: body ++ [patchFooter]) = "*"%char :: m ++ ["h"%char]) as [m ->].
  { change (patchHeader :: body ++ [patchFooter]) with ((patchHeader :: body) ++ [patchFooter]).
    rewrite JoinWith_app by done.
    exists (match body with [] => T "** Begin Patch" | _ => T "** Begin Patch" ++ newline :: JoinWith newline body end
            ++ newline :: T "*** End Patc").
    destruct body as [|x body]; [done|].
    change (JoinWith newline (patchHeader :: x :: body)) with (patchHeader ++ newline :: JoinWith newline (x :: body)).
    change patchHeader with ("*"%char :: T "** Begin Patch").
    change (JoinWith newline [patchFooter]) with (T "*** End Patc" ++ ["h"%char]).
    simpl. by rewrite <- !app_assoc. }
  apply Trim_printable; vm_compute; split; done.
Qed.

(** ** Parsing what was printed *)

(** What may follow the lines of an operation. *)
Definition ends_lines (rest : list text) : Prop :=
  match rest with [] => True | x :: _ => HasPrefix stars x = true /\ HasPrefix moveTo_ x = false end.

Lemma ends_parse_add path rest : ends_lines rest -> parse_add_lines path rest = Ok ([], rest).
Proof. destruct rest as [|x rest]; [done|]. intros [H _]. cbn [parse_add_lines]. by rewrite H. Qed.

Lemma ends_parse_update path rest : ends_lines rest -> parse_update_lines path rest = Ok ([], rest).
Proof. destruct rest as [|x rest]; [done|]. intros [H _]. cbn [parse_update_lines]. by rewrite H. Qed.

Lemma parse_add_rendered path ls rest :
  Forall (fun l => one_line (pl_text l) /\ pl_kind l = kind_add) ls -> ends_lines rest ->
  parse_add_lines path (map render_line ls ++ rest) = Ok (ls, rest).
Proof.
  intros Hl Hr. induction Hl as [|[k x] ls [_ Hk] Hls IH]; [by apply ends_parse_add|]. simpl in Hk. subst k.
  rewrite map_cons, <- app_comm_cons. change (render_line (mkLine kind_add x)) with (kind_add :: x).
  cbn [parse_add_lines]. change (HasPrefix stars (kind_add :: x)) with false.
  change (HasPrefix [kind_add] (kind_add :: x)) with true. simpl negb. cbv iota. rewrite IH. simpl.
  change (kind_add :: x) with ([kind_add] ++ x). by rewrite TrimPrefix_app.
Qed.

Lemma parse_update_rendered path ls rest : Forall wf_update_line ls -> ends_lines rest ->
  parse_update_lines path (map render_line ls ++ rest) = Ok (ls, rest).
Proof.
  intros Hl Hr. induction Hl as [|[k x] ls [_ Hk] Hls IH]; [by apply ends_parse_update|]. simpl in Hk.
  rewrite map_cons, <- app_comm_cons. cbn [parse_update_lines].
  assert (HasPrefix stars (render_line (mkLine k x)) = false) as ->.
  { by destruct Hk as [->|[->|[->|[-> ->]]]]. }
  destruct (decide (k = kind_hunk)) as [->|Hh].
  - destruct Hk as [?|[?|[?|[_ ->]]]]; [done..|]. simpl. by rewrite IH.
  - assert (render_line (mkLine k x) = k :: x) as ->.
    { unfold render_line. simpl. by rewrite bool_decide_eq_false_2. }
    assert (HasPrefix (T "@@") (k :: x) = false) as ->.
    { by destruct Hk as [->|[->|[->|[? _]]]]. }
    assert (bool_decide (k <> kind_context) && bool_decide (k <> kind_add) && bool_decide (k <> kind_delete) = false) as ->.
    { by destruct Hk as [->|[->|[->|[? _]]]]. }
    by rewrite IH.
Qed.

Lemma render_op_starts op rest : ends_lines (render_op op ++ rest).
Proof. unfold render_op, ends_lines. destruct (po_kind op); simpl; split; reflexivity. Qed.

Lemma ends_ops ops : ends_lines (concat (map render_op ops)).
Proof. destruct ops as [|op ops]; [done|]. apply render_op_starts. Qed.

Lemma wf_path_trim p prefix : wf_path p -> Trim (TrimPrefix prefix (prefix ++ p)) = p.
Proof. intros [H _]. by rewrite TrimPrefix_app. Qed.

Lemma parse_move_lines ls rest : Forall wf_update_line ls -> ends_lines rest ->
  parse_move (map render_line ls ++ rest) = ([], map render_line ls ++ rest).
Proof.
  intros Hl Hr. destruct Hl as [|[k x] ls [_ Hk] Hls].
  - destruct rest as [|y rest]; [done|]. destruct Hr as [_ Hr].
    change (parse_move (y :: rest) = ([], y :: rest)). unfold parse_move. by rewrite Hr.
  - rewrite map_cons, <- app_comm_cons. unfold parse_move. simpl in Hk.
    assert (HasPrefix moveTo_ (render_line (mkLine k x)) = false) as ->; [|done].
    by destruct Hk as [->|[->|[->|[-> ->]]]].
Qed.

Lemma render_op_length op : (1 <= length (render_op op))%nat.
Proof. unfold render_op. destruct (po_kind op); cbn [length]; lia. Qed.

Lemma parse_ops_rendered ops : forall fuel, Forall wf_op ops ->
  (length (concat (map render_op ops)) < fuel)%nat ->
  parse_ops fuel (concat (map render_op ops)) = Ok ops.
Proof.
  induction ops as [|op ops IH]; intros fuel Hw Hf; (destruct fuel as [|fuel]; [lia|]); [done|].
  apply Forall_cons in Hw as [[Hp Hop] Hw]. rewrite map_cons in *. cbn [concat] in *.
  rewrite length_app in Hf. pose proof (ends_ops ops) as He. specialize (IH fuel Hw).
  generalize dependent (concat (map render_op ops)). intros rest IH Hf He.
  assert (length rest < fuel)%nat as Hr by (pose proof (render_op_length op); lia).
  specialize (IH Hr). clear Hf Hr. destruct op as [kind path mv ls]. simpl in Hp, Hop.
  destruct kind; unfold render_op; cbn [po_kind po_path po_moveTo po_lines]; rewrite <- app_comm_cons; cbn [parse_ops].
  - destruct Hop as [-> Hls]. change (HasPrefix addFile (addFile ++ path)) with true. cbv iota zeta.
    rewrite (wf_path_trim path) by done. rewrite parse_add_rendered by done. simpl.
    by rewrite IH.
  - destruct Hop as [Hm Hls].
    change (HasPrefix addFile (updateFile ++ path)) with false.
    change (HasPrefix updateFile (updateFile ++ path)) with true. cbv iota zeta.
    rewrite (wf_path_trim path) by done. rewrite <- app_assoc.
    assert (parse_move (render_move mv ++ map render_line ls ++ rest) = (mv, map render_line ls ++ rest)) as Hmv.
    { destruct mv as [|c mv]; [by apply parse_move_lines|]. change (render_move (c :: mv) ++ ?k) with ((moveTo_ ++ c :: mv) :: k).
      unfold parse_move. change (HasPrefix moveTo_ (moveTo_ ++ c :: mv)) with true. by rewrite (wf_path_trim (c :: mv)). }
    rewrite Hmv. cbn [fst snd]. rewrite parse_update_rendered by done. simpl.
    by rewrite IH.
  - destruct Hop as [-> ->]. change (HasPrefix addFile (deleteFile ++ path)) with false.
    change (HasPrefix updateFile (deleteFile ++ path)) with false.
    change (HasPrefix deleteFile (deleteFile ++ path)) with true. cbv iota zeta.
    rewrite (wf_path_trim path) by done. simpl. by rewrite IH.
Qed.

Lemma wf_op_lines op : wf_op op -> Forall one_line (render_op op).
Proof.
  intros [[_ Hp] Hop]. unfold render_op. destruct (po_kind op).
  - destruct Hop as [_ Hl]. constructor; [apply one_line_app; [vm_compute; set_solver|done|done]|].
    apply Forall_map. eapply Forall_impl; [exact Hl|]. intros l [H1 H2]. apply render_line_one_line; [right|done].
    by rewrite H2.
  - destruct Hop as [[_ Hm] Hl]. constructor; [apply one_line_app; [vm_compute; set_solver|done|done]|].
    apply Forall_app. split.
    + unfold render_move. destruct (po_moveTo op); [done|]. repeat constructor; [|].
      all: apply (one_line_app moveTo_); [vm_compute; set_solver|done|done].
    + apply Forall_map. eapply Forall_impl; [exact Hl|]. intros l [H1 H2]. apply render_line_one_line; [|done].
      destruct H2 as [H2|[H2|[H2|[H2 _]]]]; rewrite H2; [right..|by left]; done.
  - repeat constructor; apply (one_line_app deleteFile); try done; vm_compute; set_solver.
Qed.

Lemma wf_render_lines ops : Forall wf_op ops -> Forall one_line (render_lines ops).
Proof.
  intros Hw. unfold render_lines. constructor; [split; [vm_compute; set_solver|done]|].
  apply Forall_app. split; [|repeat constructor; [vm_compute; set_solver|done]].
  induction Hw as [|op ops Hop Hw IH]; [constructor|]. simpl. apply Forall_app. split; [by apply wf_op_lines|done].
Qed.

Lemma patch_body_frame body : patch_body (patchHeader :: body ++ [patchFooter]) = Some body.
Proof.
  unfold patch_body. rewrite last_snoc. rewrite !bool_decide_eq_true_2 by done. simpl.
  by rewrite removelast_last.
Qed.

(** ** The parser ends *)

Lemma parse_add_shorter path lines r : parse_add_lines path lines = Ok r -> (length r.2 <= length lines)%nat.
Proof.
  revert r. induction lines as [|l lines IH]; intros r; cbn [parse_add_lines]; [by intros [= <-]|].
  destruct (HasPrefix stars l); [by intros [= <-]|]. destruct (negb _); [done|].
  destruct (parse_add_lines path lines) as [x|]; [|done]. intros [= <-]. simpl. specialize (IH _ eq_refl). lia.
Qed.

Lemma parse_update_shorter path lines r : parse_update_lines path lines = Ok r -> (length r.2 <= length lines)%nat.
Proof.
  revert r. induction lines as [|l lines IH]; intros r; cbn [parse_update_lines]; [by intros [= <-]|].
  destruct (HasPrefix stars l); [by intros [= <-]|].
  assert (forall k x, (try q := parse_update_lines path lines in Ok (mkLine k x :: q.1, q.2)) = Ok r ->
    (length r.2 <= S (length lines))%nat) as Hgo.
  { intros k x. destruct (parse_update_lines path lines) as [q|]; [|done]. intros [= <-]. simpl.
    specialize (IH _ eq_refl). lia. }
  destruct (HasPrefix (T "@@") l); [by apply Hgo|]. destruct l as [|c l].
  - destruct (match lines with [] => true | _ => _ end); [|by apply Hgo]. intros H. apply IH in H. simpl. lia.
  - destruct (_ && _); [done|]. by apply Hgo.
Qed.

Lemma parse_add_error path lines : parse_add_lines path lines <> Err ErrOutOfFuel.
Proof.
  induction lines as [|l lines IH]; cbn [parse_add_lines]; [done|]. destruct (HasPrefix stars l); [done|].
  destruct (negb _); [done|]. by destruct (parse_add_lines path lines).
Qed.

Lemma parse_update_error path lines : parse_update_lines path lines <> Err ErrOutOfFuel.
Proof.
  induction lines as [|l lines IH]; cbn [parse_update_lines]; [done|]. destruct (HasPrefix stars l); [done|].
  destruct (HasPrefix (T "@@") l); [by destruct (parse_update_lines path lines)|]. destruct l as [|c l].
  - destruct (match lines with [] => true | _ => _ end); [done|]. by destruct (parse_update_lines path lines).
  - destruct (_ && _); [done|]. by destruct (parse_update_lines path lines).
Qed.

Lemma parse_ops_total fuel : forall lines, (length lines < fuel)%nat -> parse_ops fuel lines <> Err ErrOutOfFuel.
Proof.
  induction fuel as [|fuel IH]; intros lines Hf; [lia|]. destruct lines as [|l lines]; [done|].
  simpl in Hf. cbn [parse_ops].
  assert (forall A (f : list patchOperation -> result PatchError A) rest, (length rest <= length lines)%nat ->
    (forall x, f x <> Err ErrOutOfFuel) -> rbind (parse_ops fuel rest) f <> Err ErrOutOfFuel) as Hgo.
  { intros A f rest Hr Hk. pose proof (IH rest) as H. destruct (parse_ops fuel rest); simpl; [apply Hk|].
    intros [= ->]. apply H; [lia|done]. }
  destruct (HasPrefix addFile l); [|destruct (HasPrefix updateFile l); [|destruct (HasPrefix deleteFile l); [|done]]].
  - pose proof (parse_add_error (Trim (TrimPrefix addFile l)) lines) as He.
    destruct (parse_add_lines _ lines) as [r|] eqn:E; [|by simpl; intros [= ->]]. apply parse_add_shorter in E. by apply Hgo.
  - assert (length (parse_move lines).2 <= length lines)%nat as Hm.
    { destruct lines as [|x lines]; [done|]. unfold parse_move. destruct (HasPrefix moveTo_ x); simpl; lia. }
    pose proof (parse_update_error (Trim (TrimPrefix updateFile l)) (parse_move lines).2) as He.
    destruct (parse_update_lines _ _) as [r|] eqn:E; [|by simpl; intros [= ->]]. apply parse_update_shorter in E.
    apply Hgo; [lia|done].
  - by apply Hgo.
Qed.

(** ** Edits *)

Definition occurs_at (old s p : text) : Prop := exists q, s = p ++ old ++ q.

(** The text before a hunk and after it: what the hunk removes occurs, no second
    occurrence lies apart from the first, and the first is replaced. *)
Definition edit (h : patchHunk) (s s' : text) : Prop :=
  exists p q, s = p ++ ph_oldText h ++ q /\ s' = p ++ ph_newText h ++ q /\
    forall p', occurs_at (ph_oldText h) s p' -> (length p <= length p' < length p + length (ph_oldText h))%nat.

Inductive edits : list patchHunk -> text -> text -> Prop :=
| edits_nil s : edits [] s s
| edits_cons h hs s1 s2 s3 : edit h s1 s2 -> edits hs s2 s3 -> edits (h :: hs) s1 s3.

Definition sum_additions (hs : list patchHunk) : Z := foldr (fun h n => ph_additions h + n) 0 hs.
Definition sum_deletions (hs : list patchHunk) : Z := foldr (fun h n => ph_deletions h + n) 0 hs.

(** Two occurrences that do not overlap. *)
Definition ambiguous (old s : text) : Prop := exists p m q, s = p ++ old ++ m ++ old ++ q.

Lemma Find_none_iff sub s : Find sub s = None <-> forall p, ~ occurs_at sub s p.
Proof.
  split; [intros H p [q Hq]; by eapply Find_None|]. intros H.
  destruct (Find sub s) as [[p q]|] eqn:E; [|done]. destruct (H p). exists q. by apply Find_Some.
Qed.

Lemma Count_zero s sub : Count s sub = 0%nat <-> forall p, ~ occurs_at sub s p.
Proof.
  rewrite <- Find_none_iff. unfold Count. simpl. destruct (Find sub s) as [[p q]|]; by split.
Qed.

Lemma Count_edit h s : ph_oldText h <> [] -> Count s (ph_oldText h) = 1%nat ->
  edit h s (ReplaceFirst s (ph_oldText h) (ph_newText h)).
Proof.
  intros Hne (p & q & Hf & Hq)%Count_one. unfold ReplaceFirst. rewrite Hf.
  pose proof (Find_Some _ _ _ _ Hf) as Hs. destruct Hq as [Hq|Hq].
  - exists p, q. split_and!; [done|done|]. intros p' [q' Hp']. pose proof (Find_first _ _ _ _ Hf p' q' Hp').
    split; [done|]. destruct (decide (length p' < length p + length (ph_oldText h))%nat) as [|Hge]; [done|].
    exfalso. rewrite Hs in Hp'. rewrite !(app_assoc p) in Hp'.
    apply app_eq_inv in Hp' as [(k & Hk & Hk')|(k & Hk & Hk')].
    + apply (f_equal length) in Hk. rewrite !length_app in Hk.
      assert (length k = 0%nat) as Hk0 by lia. apply length_zero_iff_nil in Hk0. subst k.
      apply (proj1 (Find_none_iff _ _) Hq []). by exists q'.
    + apply (proj1 (Find_none_iff _ _) Hq k). by exists q'.
  - apply length_zero_iff_nil in Hq. subst s. destruct p; [|done]. by destruct (ph_oldText h).
Qed.

Lemma edit_Count h s s' : ph_oldText h <> [] -> edit h s s' ->
  Count s (ph_oldText h) = 1%nat /\ s' = ReplaceFirst s (ph_oldText h) (ph_newText h).
Proof.
  intros Hne (p & q & Hs & Hs' & Ho).
  destruct (Find_complete (ph_oldText h) p q) as (p1 & q1 & Hf). rewrite <- Hs in Hf.
  pose proof (Find_Some _ _ _ _ Hf) as H1. pose proof (Find_first _ _ _ _ Hf p q Hs) as H2.
  destruct (Ho p1) as [H3 _]; [by exists q1|].
  assert (p1 = p /\ q1 = q) as [-> ->].
  { rewrite Hs in H1. assert (length p = length p1) by lia. apply app_inj_1 in H1 as [-> H1]; [|done].
    by apply app_inv_head in H1. }
  split; [|by unfold ReplaceFirst; rewrite Hf].
  apply Count_one. exists p, q. split; [done|]. left. apply Find_none_iff. intros k [m Hm].
  destruct (Ho (p ++ ph_oldText h ++ k)) as [_ H4].
  - exists m. rewrite Hs, Hm. by rewrite <- !app_assoc.
  - rewrite !length_app in H4. lia.
Qed.

Lemma Count_many s sub n : sub <> [] -> Count s sub = S (S n) -> ambiguous sub s.
Proof.
  intros Hne. unfold Count. simpl. destruct (Find sub s) as [[p q]|] eqn:E; [|done].
  intros [= H]. destruct (length s) as [|m]; [done|]. simpl in H.
  destruct (Find sub q) as [[p2 q2]|] eqn:E2; [|done]. apply Find_Some in E. apply Find_Some in E2.
  exists p, p2, q2. by rewrite E, E2.
Qed.

Lemma flush_hunk_nonempty hunks current r : Forall (fun h => ph_oldText h <> []) hunks ->
  flush_hunk hunks current = Ok r -> Forall (fun h => ph_oldText h <> []) r.
Proof.
  intros Hh. unfold flush_hunk. destruct current as [|l current]; [by intros [= <-]|].
  destruct (ph_oldText (buildPatchHunk (l :: current))) eqn:E; [done|]. intros [= <-].
  apply Forall_app. split; [done|]. constructor; [by rewrite E|done].
Qed.

Lemma patchHunks_nonempty lines hunks : patchHunks lines = Ok hunks -> Forall (fun h => ph_oldText h <> []) hunks.
Proof.
  unfold patchHunks.
  assert (forall ls hs cur r, Forall (fun h => ph_oldText h <> []) hs -> collect_hunks ls hs cur = Ok r ->
    Forall (fun h => ph_oldText h <> []) r) as H.
  { induction ls as [|l ls IH]; intros hs cur r Hh; simpl; [by apply flush_hunk_nonempty|].
    case_bool_decide; [|by apply IH]. destruct (flush_hunk hs cur) as [hs'|] eqn:E; [|done]. simpl.
    apply IH. by eapply flush_hunk_nonempty. }
  destruct (collect_hunks lines [] []) as [hs|] eqn:E; [|done]. simpl. destruct hs; [done|]. intros [= <-].
  by apply (H _ _ _ _ (Forall_nil_2 _) E).
Qed.

(** [additions] and [deletions] are those of the hunks before. *)
Lemma applyPatchHunks_spec rel hunks (Hne : Forall (fun h => ph_oldText h <> []) hunks) : forall a d c,
  match applyPatchHunks rel c hunks a d with
    | Ok (c', a', d') => edits hunks c c' /\ a' = a + sum_additions hunks /\ d' = d + sum_deletions hunks
    | Err e => exists done_ h rest s, hunks = done_ ++ h :: rest /\ edits done_ c s /\
      ((e = ErrContextNotFound rel /\ forall p, ~ occurs_at (ph_oldText h) s p) \/
       (exists n, e = ErrAmbiguousContext rel n /\ (2 <= n)%nat /\ ambiguous (ph_oldText h) s))
    end /\ forall c', edits hunks c c' -> applyPatchHunks rel c hunks a d =
             Ok (c', a + sum_additions hunks, d + sum_deletions hunks).
Proof.
  induction Hne as [|h hunks Hh Hne IH]; intros a d c.
  - split; [split_and!; [constructor|simpl; lia|simpl; lia]|]. intros c' E. inversion E; subst. simpl. by rewrite !Z.add_0_r.
  - cbn [applyPatchHunks]. destruct (IH (a + ph_additions h) (d + ph_deletions h)
      (ReplaceFirst c (ph_oldText h) (ph_newText h))) as [H1 H2]. split.
    + destruct (Count c (ph_oldText h)) as [|[|n]] eqn:Ec.
      * exists [], h, hunks, c. split_and!; [done|constructor|]. left. split; [done|]. by apply Count_zero.
      * pose proof (Count_edit h c Hh Ec) as He. destruct (applyPatchHunks _ _ _ _ _) as [[[c' a'] d']|e].
        -- destruct H1 as (E & -> & ->). split_and!; [by econstructor|simpl; lia|simpl; lia].
        -- destruct H1 as (dn & h' & rest & s & -> & E & Hor). exists (h :: dn), h', rest, s.
           split_and!; [done|by econstructor|done].
      * exists [], h, hunks, c. split_and!; [done|constructor|]. right. exists (S (S n)).
        split_and!; [done|lia|by eapply Count_many].
    + intros c' E. inversion E as [|h' hs s1 s2 s3 He Hes]; subst. apply edit_Count in He as [-> ->]; [|done].
      rewrite (H2 c') by done. simpl. by rewrite !Z.add_assoc.
Qed.

(** ** The properties *)

(** C37: A patch that is printed and parsed gives its operations again, with
    either kind of line ends. *)
Theorem parse_render_roundtrip crlf ops (Hne : ops <> []) (Hw : Forall wf_op ops) :
  parsePatch (render_patch crlf ops) = Ok ops.
Proof.
  unfold parsePatch, render_patch. rewrite ReplaceCRLF_join by by apply wf_render_lines.
  unfold render_lines. rewrite Trim_frame, SplitOn_join; [|done|].
  - rewrite patch_body_frame, parse_ops_rendered by (done || lia). simpl. by destruct ops.
  - eapply Forall_impl; [by apply (wf_render_lines ops)|]. by intros x [? _].
Qed.

Lemma parsePatch_total patchText : parsePatch patchText <> Err ErrOutOfFuel.
Proof.
  unfold parsePatch. destruct (patch_body _) as [body|]; [|done].
  pose proof (parse_ops_total (S (length body)) body ltac:(lia)) as H.
  destruct (parse_ops _ _) as [[|op ops]|e]; simpl; [done|done|]. by intros [= ->].
Qed.

(** The hunks of an update are applied in order. Each must occur, and nowhere apart from its
    first occurrence, which is replaced; otherwise the update is refused at the
    first hunk that is absent or occurs twice. *)
Theorem hunks_edit_in_order rel content lines hunks (Hh : patchHunks lines = Ok hunks) :
  match applyPatchHunks rel content hunks 0 0 with
  | Ok (content', additions, deletions) =>
    edits hunks content content' /\ additions = sum_additions hunks /\ deletions = sum_deletions hunks
  | Err e =>
    exists done_ h rest s, hunks = done_ ++ h :: rest /\ edits done_ content s /\
      ((e = ErrContextNotFound rel /\ forall p, ~ occurs_at (ph_oldText h) s p) \/
       (exists n, e = ErrAmbiguousContext rel n /\ (2 <= n)%nat /\ ambiguous (ph_oldText h) s))
  end /\
  forall content', edits hunks content content' ->
    applyPatchHunks rel content hunks 0 0 = Ok (content', sum_additions hunks, sum_deletions hunks).
Proof.
  apply (applyPatchHunks_spec rel hunks (patchHunks_nonempty _ _ Hh) 0 0 content).
Qed.
