(* ===== verification/ApplyPatchFiles.v ===== *)
(** * What a patch does to the files

    Planning reads only; the planned changes have different files as targets;
    writing them, and writing their snapshots back, changes nothing else. *)

From Stdlib Require Import Ascii String.
From S2P Require Import Prelude GoStd Utf8 GoText WorkspacePath FileTree ApplyPatch.

Local Open Scope Z_scope.
Local Open Scope juex_scope.

(** The files a change writes or removes. *)
Definition change_targets (c : patchChange) : list text :=
  pc_abs c :: match pc_moveAbs c with [] => [] | m => [m] end.

Definition all_targets (cs : list patchChange) : list text := concat (map change_targets cs).

Lemma io_run {A} (m : SM Files FileError A) w r w' : io m w = (r, w') ->
  exists r0, m w = (r0, w') /\ r = match r0 with Ok a => Ok a | Err e => Err (ErrFile e) end.
Proof. unfold io. destruct (m w) as [[a|e] w1]; intros [= <- <-]; eauto. Qed.

Lemma tried_run {E A} (m : SM Files E A) w r w' : tried m w = (r, w') -> exists r0, m w = (r0, w') /\ r = Ok r0.
Proof. unfold tried. intros [= <- <-]. exists (m w).1. split; [by destruct (m w)|done]. Qed.

Lemma reads_io {A} (m : SM Files FileError A) : reads_only m -> reads_only (io m).
Proof. by intros H w r w' (r0 & E & _)%io_run; eapply H. Qed.

Lemma reads_tried {E A} (m : SM Files E A) : reads_only m -> reads_only (tried m).
Proof. by intros H w r w' (r0 & E' & _)%tried_run; eapply H. Qed.

Lemma writes_tried {E A} l (m : SM Files E A) : writes_only l m -> writes_only l (tried m).
Proof. by intros H w r w' (r0 & E' & _)%tried_run; eapply H. Qed.

Lemma reads_lift {A} (r : result PatchError A) : reads_only (lift r).
Proof. by intros w r' w' [= _ <-]. Qed.

#[export] Hint Resolve reads_io reads_tried writes_tried reads_lift : juex.

Section Run.
  Context (lower fold : Z -> Z) (env : PatchEnv).

Local Abbreviation out := (pe_outcome env).

(** ** Planning *)

Lemma reads_Stat p : reads_only (Stat out p).
Proof. intros w r w'. apply Stat_tree. Qed.

Lemma reads_ReadFile p : reads_only (ReadFile out p).
Proof. intros w r w'. apply ReadFile_tree. Qed.

Hint Resolve reads_Stat reads_ReadFile : juex.

Lemma must_be_absent_reads abs e : reads_only (must_be_absent env abs e).
Proof. apply reads_bind; [auto with juex|]. intros [n|x]; [auto with juex|]. destruct (IsNotExist x); auto with juex. Qed.

Lemma must_be_absent_ok abs e w u w' : must_be_absent env abs e w = (Ok u, w') -> fs_tree w !! abs = None.
Proof.
  intros (r & w1 & (r0 & E1 & [= <-])%tried_run & E2)%run_bind_ok. destruct r as [n|x]; [done|].
  destruct (IsNotExist x) eqn:Ex; [|done]. by eapply Stat_missing.
Qed.

Hint Resolve must_be_absent_reads : juex.

(** What planning promises about one operation, on the files it read. *)
Definition planned (paths : WorkspacePathResolver) (t : gmap text Node) (op : patchOperation) (c : patchChange) : Prop :=
  exists wp, Resolve lower fold paths (pe_links env) (po_path op) = Ok wp /\
    pe_CheckWrite env (wp_Absolute wp) = true /\
    pc_kind c = po_kind op /\ pc_abs c = wp_Absolute wp /\ pc_rel c = wp_Relative wp /\
    match po_kind op with
    | patchAdd =>
      t !! pc_abs c = None /\ pc_moveAbs c = [] /\ pc_moveRel c = [] /\
      pc_content c = (patchLinesContent (po_lines op)).1
    | patchUpdate =>
      exists data mode adds dels, t !! pc_abs c = Some (NFile data mode) /\
        update_content (pc_rel c) (pc_moveAbs c) data op = Ok (pc_content c, adds, dels) /\
        match po_moveTo op with
        | [] => pc_moveAbs c = [] /\ pc_moveRel c = []
        | mv => exists wm, Resolve lower fold paths (pe_links env) mv = Ok wm /\
                  pe_CheckWrite env (wp_Absolute wm) = true /\
                  pc_moveAbs c = wp_Absolute wm /\ pc_moveRel c = wp_Relative wm /\ t !! pc_moveAbs c = None
        end
    | patchDelete =>
      pc_moveAbs c = [] /\ pc_moveRel c = [] /\ exists data mode, t !! pc_abs c = Some (NFile data mode)
    end.

Local Abbreviation ids paths c := (map (abs_id lower fold paths) (change_targets c)).

(** The identities of one change are new, and are remembered. *)
Definition touches (paths : WorkspacePathResolver) (touched touched' : gset text) (c : patchChange) : Prop :=
  NoDup (ids paths c) /\ (forall i, i ∈ ids paths c -> i ∉ touched) /\
  touched' = list_to_set (ids paths c) ∪ touched.

Lemma planPatchUpdate_reads rel abs mr ma op : reads_only (planPatchUpdate env rel abs mr ma op).
Proof.
  apply reads_bind; [auto with juex|]. intros [data mode|]; [|auto with juex].
  apply reads_bind; [destruct ma; auto with juex|]. intros _. apply reads_bind; [auto with juex|]. intros d.
  apply reads_bind; [auto with juex|]. intros [[c a] de]. auto with juex.
Qed.

Lemma plan_op_reads paths touched op : reads_only (plan_op lower fold env paths touched op).
Proof.
  apply reads_bind; [auto with juex|]. intros wp. apply reads_bind; [auto with juex|]. intros _.
  case_bool_decide; [auto with juex|]. destruct (po_kind op).
  - apply reads_bind; [apply reads_bind; auto with juex|auto with juex].
  - apply reads_bind; [auto with juex|]. intros [[mr ma] t].
    apply reads_bind; [apply planPatchUpdate_reads|auto with juex].
  - apply reads_bind; [apply reads_bind; [auto with juex|]|auto with juex]. intros []; auto with juex.
Qed.

Lemma resolve_in_ok lk paths input wp : resolve_in lower fold lk paths input = Ok wp ->
  Resolve lower fold paths lk input = Ok wp.
Proof. unfold resolve_in. destruct (Resolve _ _ _ _ _); [by intros [= ->]|done]. Qed.

Lemma check_guard_ok abs u : check_guard env abs = Ok u -> pe_CheckWrite env abs = true.
Proof. unfold check_guard. by destruct (pe_CheckWrite env abs). Qed.

Lemma planPatchUpdate_ok rel abs mr ma op w c w' : planPatchUpdate env rel abs mr ma op w = (Ok c, w') ->
  exists data mode adds dels, fs_tree w !! abs = Some (NFile data mode) /\
    update_content rel ma data op = Ok (pc_content c, adds, dels) /\
    (ma <> [] -> fs_tree w !! ma = None) /\
    c = mkChange patchUpdate rel abs mr ma (pc_content c) mode adds dels.
Proof.
  intros (info & w1 & E1 & E)%run_bind_ok. apply io_run in E1 as (r0 & E1 & Er). destruct r0 as [n|]; [|done].
  injection Er as ->. pose proof (Stat_tree _ _ _ _ _ E1) as T1. apply Stat_Ok in E1.
  destruct n as [data mode|]; [|done]. apply run_bind_ok in E as (u & w2 & E2 & E).
  assert (fs_tree w2 = fs_tree w1 /\ (ma <> [] -> fs_tree w1 !! ma = None)) as [T2 Hma].
  { destruct ma; [injection E2 as _ <-; done|]. split; [by eapply must_be_absent_reads|intros _; by eapply must_be_absent_ok]. }
  apply run_bind_ok in E as (d & w3 & E3 & E). apply io_run in E3 as (r1 & E3 & Er). destruct r1 as [d'|]; [|done].
  injection Er as ->. apply ReadFile_Ok in E3 as [m' E3]. rewrite T2, T1, E1 in E3. injection E3 as -> ->.
  apply run_bind_ok in E as (r & w4 & E4 & E). destruct r as [[ct a] de].
  assert (c = mkChange patchUpdate rel abs mr ma ct m' a de) as -> by (by injection E).
  exists d', m', a, de. rewrite <- T1. rewrite T1 at 1. split_and!; [done|by injection E4|done|done].
Qed.

Lemma targets_single c : pc_moveAbs c = [] -> change_targets c = [pc_abs c].
Proof. unfold change_targets. by intros ->. Qed.

Lemma touches_single paths touched identity c : pc_moveAbs c = [] ->
  identity = abs_id lower fold paths (pc_abs c) -> identity ∉ touched ->
  touches paths touched ({[identity]} ∪ touched) c.
Proof.
  intros Hm -> Hn. unfold touches. rewrite targets_single by done. simpl. split_and!.
  - apply NoDup_singleton.
  - intros i ->%list_elem_of_singleton. done.
  - by rewrite union_empty_r_L.
Qed.

Lemma plan_move_ok paths touched rel identity mv r : plan_move lower fold env paths touched rel identity mv = Ok r ->
  match mv with
  | [] => r = ([], [], touched)
  | _ => exists wm, Resolve lower fold paths (pe_links env) mv = Ok wm /\
           pe_CheckWrite env (wp_Absolute wm) = true /\ wp_Identity wm <> identity /\ wp_Identity wm ∉ touched /\
           r = (wp_Relative wm, wp_Absolute wm, {[wp_Identity wm]} ∪ touched)
  end.
Proof.
  unfold plan_move. destruct mv as [|a mv]; [by intros [= <-]|].
  destruct (resolve_in _ _ _ _ _) as [wm|] eqn:Er; [|done]. simpl.
  destruct (check_guard env (wp_Absolute wm)) as [u|] eqn:Eg; [|done]. simpl.
  case_bool_decide as H1; [done|]. case_bool_decide as H2; [done|]. intros [= <-]. exists wm.
  split_and!; [by eapply resolve_in_ok|by eapply check_guard_ok|done..].
Qed.

Lemma plan_op_ok paths touched op w c touched' w' :
  plan_op lower fold env paths touched op w = (Ok (c, touched'), w') ->
  planned paths (fs_tree w) op c /\ touches paths touched touched' c.
Proof.
  intros (wp & w1 & E1 & E)%run_bind_ok. injection E1 as E1 <-. apply resolve_in_ok in E1.
  apply run_bind_ok in E as (u & w2 & E2 & E). injection E2 as E2 <-. apply check_guard_ok in E2.
  case_bool_decide as Hn; [done|]. pose proof (Resolve_identity _ _ _ _ _ _ E1) as Hid.
  unfold planned. destruct (po_kind op) eqn:Ek.
  - apply run_bind_ok in E as (c0 & w3 & E3 & E). injection E as -> <- _.
    apply run_bind_ok in E3 as (u3 & w4 & E3 & E). apply must_be_absent_ok in E3.
    injection E as <- _. split; [exists wp; by split_and!|]. by apply touches_single.
  - apply run_bind_ok in E as ([[mr ma] t] & w3 & E3 & E). injection E3 as E3 <-. apply plan_move_ok in E3.
    apply run_bind_ok in E as (c0 & w4 & E4 & E). injection E as -> <- _.
    apply planPatchUpdate_ok in E4 as (data & mode & adds & dels & H1 & H2 & H3 & ->). simpl in *.
    destruct (po_moveTo op) as [|a mv].
    + injection E3 as -> -> ->. split; [|by apply touches_single].
      exists wp. split_and!; try done. by exists data, mode, adds, dels.
    + destruct E3 as (wm & Er & Eg & Hne & Hnt & [= -> -> ->]).
      pose proof (Resolve_nonempty _ _ _ _ _ _ Er) as Hma. pose proof (Resolve_identity _ _ _ _ _ _ Er) as Hidm. split.
      * exists wp. split_and!; try done. exists data, mode, adds, dels. split_and!; try done.
        exists wm. split_and!; try done. by apply H3.
      * unfold touches, change_targets. simpl. destruct (wp_Absolute wm) as [|x l] eqn:Ea; [done|]. simpl.
        rewrite <- Hid, <- Hidm. split_and!.
        -- apply NoDup_cons. split; [|apply NoDup_singleton]. intros Hin%list_elem_of_singleton. congruence.
        -- intros i Hi. apply elem_of_cons in Hi as [->|Hi%list_elem_of_singleton]; [done|]. subst i. set_solver.
        -- set_solver.
  - apply run_bind_ok in E as (c0 & w3 & E3 & E). injection E as -> <- _.
    apply run_bind_ok in E3 as (info & w4 & E3 & E). apply io_run in E3 as (r0 & E3 & Er).
    destruct r0 as [n|]; [|done]. injection Er as ->. apply Stat_Ok in E3. destruct n as [data mode|]; [|done].
    injection E as <- _. split; [exists wp; split_and!; eauto|]. by apply touches_single.
Qed.

Lemma ps_changes_add s c : ps_changes (add_change s c) = ps_changes s ++ [c].
Proof. unfold add_change. by destruct (pc_kind c). Qed.

Lemma planned_tree paths t t' op c : t = t' -> planned paths t op c -> planned paths t' op c.
Proof. by intros ->. Qed.

Lemma plan_ops_reads paths ops : forall touched s, reads_only (plan_ops lower fold env paths touched s ops).
Proof.
  induction ops as [|op ops IH]; intros touched s; simpl; [auto with juex|].
  apply reads_bind; [apply plan_op_reads|]. intros r. apply IH.
Qed.

Lemma plan_ops_ok paths ops : forall touched s w s' w',
  plan_ops lower fold env paths touched s ops w = (Ok s', w') ->
  exists cs, ps_changes s' = ps_changes s ++ cs /\ Forall2 (planned paths (fs_tree w)) ops cs /\
    NoDup (map (abs_id lower fold paths) (all_targets cs)) /\
    (forall i, i ∈ map (abs_id lower fold paths) (all_targets cs) -> i ∉ touched).
Proof.
  induction ops as [|op ops IH]; intros touched s w s' w'.
  - intros [= <- _]. exists []. rewrite app_nil_r. split_and!; [done|constructor|constructor|]. intros i Hi. inversion Hi.
  - simpl. intros ([c t'] & w1 & E1 & E)%run_bind_ok. simpl in E.
    pose proof (plan_op_reads _ _ _ _ _ _ E1) as Ht. apply plan_op_ok in E1 as (Hp & Hnd & Hnt & ->).
    apply IH in E as (cs & Hcs & Hf & Hnd2 & Hnt2). rewrite ps_changes_add, <- app_assoc in Hcs. exists (c :: cs).
    rewrite Ht in Hf. unfold all_targets in *. cbn [map concat]. rewrite map_app. split_and!; [done|by constructor| |].
    + apply NoDup_app. split_and!; [done| |done]. intros i Hi Hi2. apply Hnt2 in Hi2. set_solver.
    + intros i [Hi|Hi]%elem_of_app; [by apply Hnt|]. apply Hnt2 in Hi. set_solver.
Qed.

(** ** Writing *)

Lemma writePatchFile_spec p d m w r w' : writePatchFile env p d m w = (r, w') ->
  same_except [p] w w' /\ (r = Ok tt -> content w' p = Some d).
Proof.
  intros [(u & w1 & E1 & E2)|(e & E1 & ->)]%run_bind.
  - pose proof (MkdirAll_content _ _ _ _ _ E1) as H1. apply WriteFile_content in E2 as [H2 H3]. split; [|done].
    intros q Hq. by rewrite H2, H1.
  - split; [|done]. intros q _. by eapply MkdirAll_content.
Qed.

Lemma writes_WritePatchFile p d m : writes_only [p] (writePatchFile env p d m).
Proof. intros w r w' E. by apply writePatchFile_spec in E as [? _]. Qed.

Lemma writes_Remove p : writes_only [p] (Remove out p).
Proof. intros w r w' E. by apply Remove_content in E as [? _]. Qed.

Lemma write_change_writes c : writes_only (change_targets c) (write_change env c).
Proof.
  unfold write_change, change_targets. destruct (pc_kind c).
  - eapply writes_sub; [|apply writes_WritePatchFile]. set_solver.
  - destruct (pc_moveAbs c) as [|a l]; [apply writes_WritePatchFile|]. apply writes_only_bind.
    + eapply writes_sub; [|apply writes_WritePatchFile]. set_solver.
    + intros _. eapply writes_sub; [|apply writes_Remove]. set_solver.
  - eapply writes_sub; [|apply writes_Remove]. set_solver.
Qed.

Lemma writePatchChanges_writes cs : writes_only (all_targets cs) (writePatchChanges env cs).
Proof.
  induction cs as [|c cs IH]; simpl; [apply reads_writes, reads_ret|]. unfold all_targets. simpl. apply writes_only_bind.
  - eapply writes_sub; [|apply write_change_writes]. set_solver.
  - intros _. eapply writes_sub; [|exact IH]. set_solver.
Qed.

(** What a change leaves at its files. *)
Definition written (w : Files) (c : patchChange) : Prop :=
  match pc_kind c with
  | patchDelete => content w (pc_abs c) = None
  | _ =>
    match pc_moveAbs c with
    | [] => content w (pc_abs c) = Some (pc_content c)
    | m => content w m = Some (pc_content c) /\ (pc_kind c = patchUpdate -> content w (pc_abs c) = None)
    end
  end.

Lemma written_later w w' l c : same_except l w w' -> (forall p, p ∈ change_targets c -> p ∉ l) -> written w c -> written w' c.
Proof.
  intros Hs Hd. unfold written, change_targets in *.
  assert (content w' (pc_abs c) = content w (pc_abs c)) as -> by (apply Hs, Hd; set_solver).
  destruct (pc_kind c); [| |done]; (destruct (pc_moveAbs c) as [|a m] eqn:Em; [done|]);
    rewrite (Hs (a :: m)) by (apply Hd; set_solver); done.
Qed.

Lemma write_change_ok c w u w' : NoDup (change_targets c) -> (pc_kind c = patchAdd -> pc_moveAbs c = []) ->
  write_change env c w = (Ok u, w') -> written w' c.
Proof.
  intros Hnd Ha. unfold write_change, written. destruct u, (pc_kind c) eqn:Ek.
  - rewrite Ha by done. intros [_ H]%writePatchFile_spec. by apply H.
  - unfold change_targets in Hnd. destruct (pc_moveAbs c) as [|a l].
    + intros [_ H]%writePatchFile_spec. by apply H.
    + intros ([] & w1 & E1 & E2)%run_bind_ok. apply writePatchFile_spec in E1 as [_ E1].
      apply Remove_content in E2 as (E2 & E3 & _). split; [|intros _; by apply E3].
      rewrite E2; [by apply E1|]. apply NoDup_cons in Hnd as [Hnd _]. set_solver.
  - intros (_ & H & _)%Remove_content. by apply H.
Qed.

Lemma writePatchChanges_ok cs : forall w u w', NoDup (all_targets cs) ->
  Forall (fun c => pc_kind c = patchAdd -> pc_moveAbs c = []) cs ->
  writePatchChanges env cs w = (Ok u, w') -> Forall (written w') cs.
Proof.
  induction cs as [|c cs IH]; intros w u w' Hnd Ha; [constructor|]. simpl.
  intros (u1 & w1 & E1 & E2)%run_bind_ok. apply Forall_cons in Ha as [Ha Has].
  unfold all_targets in Hnd. cbn [map concat] in Hnd. apply NoDup_app in Hnd as (Hn1 & Hn2 & Hn3). constructor.
  - eapply written_later; [by eapply writePatchChanges_writes|exact Hn2|]. by eapply write_change_ok.
  - by eapply IH.
Qed.

(** ** Snapshots and rollback *)

(** What a snapshot has recorded. *)
Definition snapshot_of (w : Files) (s : patchSnapshot) : Prop :=
  content w (sn_abs s) = if sn_existed s then Some (sn_data s) else None.

Lemma snapshot_one_reads abs : reads_only (snapshot_one env abs).
Proof.
  apply reads_bind; [auto with juex|]. intros [[d m|]|e]; [|auto with juex|destruct (IsNotExist e); auto with juex].
  apply reads_bind; auto with juex.
Qed.

Lemma snapshot_one_ok abs w s w' : snapshot_one env abs w = (Ok s, w') -> sn_abs s = abs /\ snapshot_of w s.
Proof.
  intros (r & w1 & E1 & E)%run_bind_ok. apply tried_run in E1 as (r0 & E1 & [= ->]).
  pose proof (Stat_tree _ _ _ _ _ E1) as T1. unfold snapshot_of, content. destruct r0 as [[d m|]|e].
  - apply Stat_Ok in E1. apply run_bind_ok in E as (d' & w2 & E2 & E).
    apply io_run in E2 as (r1 & E2 & Er). destruct r1 as [x|]; [|done]. injection Er as ->.
    apply ReadFile_Ok in E2 as [m' E2]. rewrite T1 in E2. injection E as <- _. simpl. by rewrite E2.
  - done.
  - destruct (IsNotExist e) eqn:Ee; [|done]. injection E as <- _. simpl.
    by rewrite (Stat_missing _ _ _ _ _ E1 Ee).
Qed.

Lemma snapshot_paths_reads l : forall seen, reads_only (snapshot_paths env seen l).
Proof.
  induction l as [|p l IH]; intros seen; simpl; [auto with juex|]. destruct (_ || _); [apply IH|].
  apply reads_bind; [apply snapshot_one_reads|]. intros s. apply reads_bind; [apply IH|]. auto with juex.
Qed.

Lemma snapshot_paths_ok l : forall seen w ss w', snapshot_paths env seen l w = (Ok ss, w') ->
  Forall (snapshot_of w) ss /\ NoDup (map sn_abs ss) /\
  (forall p, p ∈ map sn_abs ss <-> p ∈ l /\ p <> [] /\ p ∉ seen).
Proof.
  induction l as [|p l IH]; intros seen w ss w'; simpl.
  - intros [= <- _]. split_and!; [constructor|constructor|]. set_solver.
  - destruct (bool_decide (p = []) || bool_decide (p ∈ seen)) eqn:Ep.
    + intros (H1 & H2 & H3)%IH. split_and!; [done|done|]. intros q. rewrite H3.
      apply orb_true_iff in Ep as [Ep%bool_decide_eq_true|Ep%bool_decide_eq_true]; set_solver.
    + apply orb_false_iff in Ep as [Ep1%bool_decide_eq_false Ep2%bool_decide_eq_false].
      intros (s & w1 & E1 & E)%run_bind_ok. apply run_bind_ok in E as (ss' & w2 & E2 & E). injection E as <- _.
      pose proof (snapshot_one_reads _ _ _ _ E1) as T. apply snapshot_one_ok in E1 as [Ha Hs].
      apply IH in E2 as (H1 & H2 & H3). simpl. rewrite Ha. split_and!.
      * constructor; [done|]. eapply Forall_impl; [exact H1|]. intros x. unfold snapshot_of, content. by rewrite T.
      * apply NoDup_cons. split; [|done]. rewrite H3. set_solver.
      * intros q. rewrite elem_of_cons, H3. destruct (decide (q = p)); set_solver.
Qed.

(** The recorded content is back. *)
Definition restored (w : Files) (s : patchSnapshot) : Prop :=
  content w (sn_abs s) = if sn_existed s then Some (sn_data s) else None.

Lemma restore_snapshot_run s w r w' : restore_snapshot env s w = (r, w') ->
  same_except [sn_abs s] w w' /\ exists err, r = Ok err /\ (err = None -> restored w' s).
Proof.
  unfold restore_snapshot, restored. destruct (sn_existed s).
  - intros [(x & w1 & E1 & E2)|(e & E1 & _)]%run_bind; [|done].
    apply tried_run in E1 as (r0 & E1 & [= ->]). injection E2 as <- <-.
    apply writePatchFile_spec in E1 as [H1 H2]. split; [done|]. eexists. split; [done|].
    destruct r0 as [[]|]; [|done]. intros _. by apply H2.
  - intros [(x & w1 & E1 & E2)|(e & E1 & _)]%run_bind; [|done].
    apply tried_run in E1 as (r0 & E1 & [= ->]). injection E2 as <- <-.
    apply Remove_content in E1 as (H1 & H2 & H3). split; [done|]. eexists. split; [done|].
    destruct r0 as [[]|e]; [intros _; by apply H2|]. destruct (IsNotExist e) eqn:Ee; [|done]. intros _.
    destruct (H3 e eq_refl) as [Ht Hc]. unfold content in *. rewrite Ht. by apply Hc.
Qed.

Lemma rollback_from_run ss : forall fe w r w', NoDup (map sn_abs ss) -> rollback_from env fe ss w = (r, w') ->
  same_except (map sn_abs ss) w w' /\
  exists err, r = Ok err /\ (err = None -> fe = None /\ Forall (restored w') ss).
Proof.
  induction ss as [|s ss IH]; intros fe w r w' Hnd; simpl.
  - intros [= <- <-]. split; [done|]. exists fe. split; [done|]. intros ->. by split.
  - apply NoDup_cons in Hnd as [Hs Hnd].
    intros [(x & w1 & E1 & E2)|(e & E1 & _)]%run_bind; apply restore_snapshot_run in E1 as (H1 & err & He & Hr); [|done].
    injection He as ->. apply IH in E2 as (H2 & err2 & -> & Hr2); [|done]. split.
    + eapply same_except_trans; (eapply same_except_sub; [|done]); set_solver.
    + exists err2. split; [done|]. intros Hn. destruct (Hr2 Hn) as [Hfe Hall]. destruct fe; [done|]. split; [done|].
      constructor; [|done]. unfold restored. rewrite H2 by done. by apply Hr.
Qed.

Lemma target_paths cs p : Forall (fun c => pc_abs c <> []) cs ->
  p ∈ all_targets cs <-> p ∈ concat (map change_paths cs) /\ p <> [].
Proof.
  unfold all_targets. induction 1 as [|c cs Hc Hcs IH]; simpl.
  - split; [intros H; inversion H|intros [H _]; inversion H].
  - rewrite elem_of_cons, elem_of_app, IH, elem_of_cons, elem_of_cons.
    destruct (pc_moveAbs c) as [|a l]; set_solver.
Qed.

(** The three ways [applyPatchChanges] ends. *)
Lemma applyPatchChanges_run cs w r w' : Forall (fun c => pc_abs c <> []) cs ->
  Forall (fun c => pc_kind c = patchAdd -> pc_moveAbs c = []) cs -> NoDup (all_targets cs) ->
  applyPatchChanges env cs w = (r, w') ->
  same_except (all_targets cs) w w' /\
  match r with
  | Ok _ => Forall (written w') cs
  | Err (ErrRollbackFailed _ _) => True
  | Err _ => forall p, content w' p = content w p
  end.
Proof.
  intros Ha Hk Hnd E. unfold applyPatchChanges in E. apply run_bind in E as [(ss & w1 & E1 & E)|(e & E1 & ->)].
  2:{ pose proof (snapshot_paths_reads _ _ _ _ _ E1) as T. unfold same_except, content. rewrite T.
      split; [done|]. by destruct e. }
  pose proof (snapshot_paths_reads _ _ _ _ _ E1) as T. apply snapshot_paths_ok in E1 as (Hs & Hsn & Hsp).
  assert (forall p, content w1 p = content w p) as T1 by (intros p; unfold content; by rewrite T).
  apply run_bind in E as [(x & w2 & E2 & E)|(e & E2 & ->)]; apply tried_run in E2 as (r0 & E2 & Ex); [|done].
  injection Ex as ->. pose proof (writePatchChanges_writes _ _ _ _ E2) as W.
  destruct r0 as [u|e0].
  - injection E as <- <-. split; [intros p Hp; by rewrite W, T1|]. by eapply writePatchChanges_ok.
  - apply run_bind in E as [(err & w3 & E3 & E)|(e & E3 & ->)];
      apply rollback_from_run in E3 as (H3 & err' & He & Hr);
      try (rewrite (fmap_reverse sn_abs), reverse_Permutation; done); [|done]. injection He as ->.
    assert (forall p, p ∈ map sn_abs ss <-> p ∈ all_targets cs) as Hp.
    { intros p. rewrite Hsp, target_paths by done. set_solver. }
    assert (same_except (all_targets cs) w1 w3) as H4.
    { eapply same_except_trans; [exact W|]. eapply same_except_sub; [|exact H3].
      intros p. rewrite (fmap_reverse sn_abs), elem_of_reverse. apply Hp. }
    destruct err' as [re|]; injection E as <- <-; (split; [intros p Hq; by rewrite H4, T1|]); [done|].
    intros p. destruct (decide (p ∈ all_targets cs)) as [Hin|Hout]; [|by rewrite H4, T1].
    destruct (Hr eq_refl) as [_ Hall]. rewrite Forall_reverse in Hall. apply Hp, list_elem_of_fmap in Hin as (s & -> & Hin).
    rewrite Forall_forall in Hall, Hs. rewrite (Hall s Hin). symmetry. by apply Hs.
Qed.

(** ** The last check *)

Lemma validate_ok paths cs : validatePatchChanges lower fold env paths cs = Ok tt ->
  Forall (fun c => forall rel abs, (rel, abs) ∈ [(pc_rel c, pc_abs c); (pc_moveRel c, pc_moveAbs c)] -> rel <> [] ->
    exists wp, Resolve lower fold paths (pe_links_late env) rel = Ok wp /\
      SameAbsolute fold paths (wp_Absolute wp) abs = true /\ pe_CheckWrite env (wp_Absolute wp) = true) cs.
Proof.
  assert (forall rel abs, validate_target lower fold env paths rel abs = Ok tt -> rel <> [] ->
    exists wp, Resolve lower fold paths (pe_links_late env) rel = Ok wp /\
      SameAbsolute fold paths (wp_Absolute wp) abs = true /\ pe_CheckWrite env (wp_Absolute wp) = true) as Hone.
  { intros rel abs E Hr. destruct rel as [|a rel]; [done|]. unfold validate_target in E.
    destruct (resolve_in _ _ _ _ _) as [wp|] eqn:Er; [|done]. simpl in E. apply resolve_in_ok in Er.
    destruct (_ || _) eqn:Eb in E; [done|]. apply orb_false_iff in Eb as [_ Eb%negb_false_iff].
    exists wp. split_and!; [done|done|by eapply check_guard_ok]. }
  induction cs as [|c cs IH]; simpl; [constructor|].
  destruct (validate_target _ _ _ _ (pc_rel c) _) as [[]|] eqn:E1; [|done]. simpl.
  destruct (validate_target _ _ _ _ (pc_moveRel c) _) as [[]|] eqn:E2; [|done]. simpl. intros E.
  constructor; [|by apply IH]. intros rel abs [[= -> ->]|[[= -> ->]|H]%elem_of_cons]%elem_of_cons Hr; [by eapply Hone..|].
  inversion H.
Qed.

End Run.
