(* ===== verification/ApplyPatchProps.v ===== *)
(** * What the patch tool guarantees

    A patch that succeeds has done its operations and nothing else; one that
    fails, and could write its snapshots back, has done nothing; only files of
    the workspace ever change. *)

From Stdlib Require Import Ascii String.
From S2P Require Import Prelude GoStd Utf8 GoText WorkspacePath FileTree ApplyPatch ApplyPatchText ApplyPatchFiles.

Local Open Scope Z_scope.
Local Open Scope juex_scope.

Section Guarantees.
  Context (lower fold : Z -> Z) (env : PatchEnv).

(** ** The run of a patch *)

Lemma new_resolver_facts paths : match pe_cwd env with Some wd => IsAbs wd = true | None => True end ->
  new_resolver env = Ok paths -> clean_root paths /\ wr_caseInsensitive paths = pe_caseInsensitive env.
Proof.
  intros Hwd. unfold new_resolver. destruct (NewWorkspacePathResolver _ _ _ _) as [r|] eqn:E; [|done]. intros [= <-].
  split; [by eapply new_resolver_clean|]. unfold NewWorkspacePathResolver in E.
  destruct (if bool_decide _ then _ else _); [|done]. destruct (if IsAbs _ then _ else _); [|done].
  destruct (lk_EvalSymlinks _ _); [|done]. by injection E as <-.
Qed.

Lemma planned_shape paths t ops cs : Forall2 (planned lower fold env paths t) ops cs ->
  Forall (fun c => pc_abs c <> []) cs /\ Forall (fun c => pc_kind c = patchAdd -> pc_moveAbs c = []) cs.
Proof.
  induction 1 as [|op c ops cs Hp _ [IH1 IH2]]; [done|]. destruct Hp as (wp & Hr & _ & Hk & Ha & _ & Hm).
  split; (constructor; [|done]).
  - rewrite Ha. by eapply Resolve_nonempty.
  - rewrite Hk. intros Hadd. rewrite Hadd in Hm. apply Hm.
Qed.

(** A run ends before it writes, or is a run of [applyPatchChanges] on planned
    and checked changes. *)
Lemma applyPatch_run patchText w r w' : applyPatch lower fold env patchText w = (r, w') ->
  (exists e, r = Err e /\ fs_tree w' = fs_tree w) \/
  (exists ops paths summary w1 r1, parsePatch patchText = Ok ops /\ new_resolver env = Ok paths /\
     planPatch lower fold env paths ops w = (Ok summary, w1) /\ fs_tree w1 = fs_tree w /\
     validatePatchChanges lower fold env paths (ps_changes summary) = Ok tt /\
     Forall2 (planned lower fold env paths (fs_tree w)) ops (ps_changes summary) /\
     NoDup (all_targets (ps_changes summary)) /\
     applyPatchChanges env (ps_changes summary) w1 = (r1, w') /\
     r = match r1 with Ok _ => Ok summary | Err e => Err e end).
Proof.
  intros [(ops & w0 & E0 & E)|(e & E0 & ->)]%run_bind; [|injection E0 as _ <-; left; eauto].
  injection E0 as E0 <-. apply run_bind in E as [(paths & w0 & E1 & E)|(e & E1 & ->)]; [|injection E1 as _ <-; left; eauto].
  injection E1 as E1 <-. apply run_bind in E as [(summary & w1 & E2 & E)|(e & E2 & ->)].
  2:{ left. exists e. split; [done|]. by eapply plan_ops_reads. }
  pose proof (plan_ops_reads _ _ _ _ _ _ _ _ _ _ E2) as T1. pose proof E2 as E2'.
  unfold planPatch in E2'. destruct (plan_ops_ok _ _ _ _ _ _ _ _ _ _ E2') as (cs & Hcs & Hf & Hnd & _).
  simpl in Hcs. subst cs. apply NoDup_fmap_1 in Hnd.
  destruct (pe_canceled env); [injection E as <- <-; left; eauto|].
  apply run_bind in E as [(u & w2 & E3 & E)|(e & E3 & ->)]; [|injection E3 as _ <-; left; eauto].
  injection E3 as E3 <-. destruct u.
  apply run_bind in E as [(u & w3 & E4 & E)|(e & E4 & ->)]; right; exists ops, paths, summary, w1.
  - injection E as <- <-. exists (Ok u). by split_and!.
  - exists (Err e). by split_and!.
Qed.

(** ** Success and failure *)

(** What an update is to make of a file. *)
Definition updates (op : patchOperation) (old new : text) : Prop :=
  match po_lines op with
  | [] => new = old
  | lines => exists hunks, patchHunks lines = Ok hunks /\ edits hunks old new
  end.

(** An operation has been done between two states of the files. *)
Definition op_done (paths : WorkspacePathResolver) (w w' : Files) (op : patchOperation) : Prop :=
  exists wp, Resolve lower fold paths (pe_links env) (po_path op) = Ok wp /\
    match po_kind op with
    | patchAdd =>
      content w (wp_Absolute wp) = None /\
      content w' (wp_Absolute wp) = Some (concat (map line_text (po_lines op)))
    | patchUpdate =>
      exists old new, content w (wp_Absolute wp) = Some old /\ updates op old new /\
        match po_moveTo op with
        | [] => content w' (wp_Absolute wp) = Some new
        | mv => exists wm, Resolve lower fold paths (pe_links env) mv = Ok wm /\
                  content w (wp_Absolute wm) = None /\ content w' (wp_Absolute wm) = Some new /\
                  content w' (wp_Absolute wp) = None
        end
    | patchDelete => is_Some (content w (wp_Absolute wp)) /\ content w' (wp_Absolute wp) = None
    end.

(** The files an operation names. *)
Definition op_names (paths : WorkspacePathResolver) (op : patchOperation) (p : text) : Prop :=
  exists input wp, (input = po_path op \/ (po_kind op = patchUpdate /\ input = po_moveTo op /\ input <> [])) /\
    Resolve lower fold paths (pe_links env) input = Ok wp /\ wp_Absolute wp = p.

Lemma update_content_ok rel moveAbs data op new a d : update_content rel moveAbs data op = Ok (new, a, d) -> updates op data new.
Proof.
  unfold update_content, updates. destruct (po_lines op) as [|l ls].
  - destruct moveAbs; [done|]. by intros [= <- _ _].
  - destruct (patchHunks (l :: ls)) as [hs|] eqn:Eh; [|done]. simpl. intros E. exists hs. split; [done|].
    pose proof (proj1 (applyPatchHunks_spec rel hs (patchHunks_nonempty _ _ Eh) 0 0 data)) as H.
    rewrite E in H. by destruct H.
Qed.

Lemma planned_done paths w w1 w' op c : fs_tree w1 = fs_tree w ->
  planned lower fold env paths (fs_tree w) op c -> written w' c -> op_done paths w w' op.
Proof.
  intros T (wp & Hr & _ & Hk & Ha & _ & Hm) Hw. exists wp. split; [done|]. unfold written in Hw. rewrite Hk, Ha in Hw.
  assert (forall q, content w q = match fs_tree w !! q with Some (NFile d _) => Some d | _ => None end) as Hw0 by done.
  rewrite Ha in Hm. destruct (po_kind op); rewrite Hw0.
  - destruct Hm as (Ht & Hmv & _ & Hc). rewrite Hmv in Hw. rewrite Ht. split; [done|]. rewrite Hw. by rewrite Hc.
  - destruct Hm as (data & mode & a & d & Ht & Hu & Hm). rewrite Ht. exists data, (pc_content c).
    split_and!; [done|by eapply update_content_ok|]. destruct (po_moveTo op) as [|x mv].
    + destruct Hm as [Hm _]. by rewrite Hm in Hw.
    + destruct Hm as (wm & Hrm & _ & Hma & _ & Hno). exists wm. split; [done|].
      pose proof (Resolve_nonempty _ _ _ _ _ _ Hrm). rewrite Hma in *. destruct (wp_Absolute wm) as [|y l]; [done|].
      destruct Hw as [Hw1 Hw2]. rewrite Hw0, Hno. split_and!; [done|done|by apply Hw2].
  - destruct Hm as (Hmv & _ & data & mode & Ht). rewrite Ht. split; [by eexists|done].
Qed.

Lemma target_named paths t ops cs p : Forall2 (planned lower fold env paths t) ops cs -> p ∈ all_targets cs ->
  exists op, op ∈ ops /\ op_names paths op p.
Proof.
  unfold all_targets. induction 1 as [|op c ops cs Hp _ IH]; cbn [map concat]; [intros H; inversion H|].
  intros [Hin|Hin]%elem_of_app; [|destruct (IH Hin) as (op' & ? & ?); exists op'; split; [by right|done]].
  exists op. split; [by left|]. destruct Hp as (wp & Hr & _ & Hk & Ha & _ & Hm). unfold change_targets in Hin.
  apply elem_of_cons in Hin as [->|Hin]; [exists (po_path op), wp; auto|].
  destruct (po_kind op) eqn:Ek.
  - destruct Hm as (_ & Hmv & _). rewrite Hmv in Hin. inversion Hin.
  - destruct Hm as (data & mode & a & d & _ & _ & Hm). destruct (po_moveTo op) as [|x mv] eqn:Em.
    + destruct Hm as [Hm _]. rewrite Hm in Hin. inversion Hin.
    + destruct Hm as (wm & Hrm & _ & Hma & _). exists (x :: mv), wm. split_and!; [right; by rewrite Ek, Em|done|].
      rewrite Hma in Hin. destruct (wp_Absolute wm) eqn:Ewm; [inversion Hin|]. apply list_elem_of_singleton in Hin. congruence.
  - destruct Hm as (Hmv & _). rewrite Hmv in Hin. inversion Hin.
Qed.

(** C19: A patch that succeeds has done each of its operations on the files as
    they were, and no other file has changed. *)
Theorem patch_does_its_operations patchText w summary w'
  (H : applyPatch lower fold env patchText w = (Ok summary, w')) :
  exists ops paths, parsePatch patchText = Ok ops /\ new_resolver env = Ok paths /\
    Forall (op_done paths w w') ops /\
    forall p, (forall op, op ∈ ops -> ~ op_names paths op p) -> content w' p = content w p.
Proof.
  apply applyPatch_run in H as [(e & ? & _)|(ops & paths & s & w1 & r1 & Hp & Hn & _ & T & _ & Hf & Hnd & E & Hr)]; [done|].
  destruct r1 as [u|]; [|done]. injection Hr as <-. exists ops, paths. split_and!; [done|done| |].
  - destruct (planned_shape _ _ _ _ Hf) as [S1 S2]. apply applyPatchChanges_run in E as [_ Hw]; [|done..].
    clear -Hf Hw T. induction Hf as [|op c ops cs Hp _ IH]; [done|]. apply Forall_cons in Hw as [Hw Hws].
    constructor; [by eapply planned_done|by apply IH].
  - intros p Hno. destruct (planned_shape _ _ _ _ Hf) as [S1 S2]. apply applyPatchChanges_run in E as [Hs _]; [|done..].
    rewrite Hs; [by unfold content; rewrite T|]. intros Hin. destruct (target_named _ _ _ _ _ Hf Hin) as (op & Ho & Hnm).
    by eapply Hno.
Qed.

(** C18: A patch that fails leaves every file with the content it had, whichever
    call failed, unless writing the snapshots back failed too. *)
Theorem failed_patch_changes_nothing patchText w e w' (H : applyPatch lower fold env patchText w = (Err e, w'))
  (Hrb : forall e1 e2, e <> ErrRollbackFailed e1 e2) : forall p, content w' p = content w p.
Proof.
  apply applyPatch_run in H as [(e' & _ & T)|(ops & paths & s & w1 & r1 & _ & _ & _ & T & _ & Hf & Hnd & E & Hr)].
  { intros p. unfold content. by rewrite T. }
  destruct r1 as [u|e1]; [done|]. injection Hr as ->. destruct (planned_shape _ _ _ _ Hf) as [S1 S2].
  apply applyPatchChanges_run in E as [_ Hc]; [|done..].
  assert (forall p, content w1 p = content w p) as T' by (intros p; unfold content; by rewrite T).
  intros p. rewrite <- T'. destruct e1 as [| | | | | | | | | | | | | | | | | | | | | |e1 e2]; try done. by destruct (Hrb e1 e2).
Qed.

(** ** Confinement *)

Lemma all_targets_elem cs p : p ∈ all_targets cs -> exists c, c ∈ cs /\ p ∈ change_targets c.
Proof.
  unfold all_targets. induction cs as [|c cs IH]; cbn [map concat]; [intros H; inversion H|].
  intros [H|H]%elem_of_app; [exists c; split; [by left|done]|]. destruct (IH H) as (x & ? & ?). exists x. split; [by right|done].
Qed.

Lemma planned_in_workspace paths t op c (p : text) : clean_root paths ->
  (wr_caseInsensitive paths = true -> lower 47 = 47) ->
  planned lower fold env paths t op c -> p ∈ change_targets c ->
  exists rel : text, (rel, p) ∈ [(pc_rel c, pc_abs c); (pc_moveRel c, pc_moveAbs c)] /\ rel <> [] /\
    inside lower fold paths p /\ Clean p = p /\ pe_CheckWrite env p = true.
Proof.
  intros Hroot Hlow (wp & Hr & Hg & Hk & Ha & Hrel & Hm) Hin.
  assert (forall input w, Resolve lower fold paths (pe_links env) input = Ok w -> pe_CheckWrite env (wp_Absolute w) = true ->
    wp_Relative w <> [] /\ inside lower fold paths (wp_Absolute w) /\ Clean (wp_Absolute w) = wp_Absolute w /\
    pe_CheckWrite env (wp_Absolute w) = true) as Hin1.
  { intros input w E Eg. pose proof (Resolve_inside _ _ _ _ _ _ Hroot Hlow E) as (_ & Hb & Hne & Hc). by split_and!. }
  unfold change_targets in Hin. apply elem_of_cons in Hin as [->|Hin].
  - exists (pc_rel c). destruct (Hin1 _ _ Hr Hg) as (? & ? & ? & ?). rewrite Hrel, Ha. split_and!; [by left|done..].
  - destruct (po_kind op).
    + destruct Hm as (_ & Hmv & _). rewrite Hmv in Hin. inversion Hin.
    + destruct Hm as (data & mode & a & d & _ & _ & Hm). destruct (po_moveTo op) as [|x mv].
      * destruct Hm as [Hm _]. rewrite Hm in Hin. inversion Hin.
      * destruct Hm as (wm & Hrm & Hgm & Hma & Hmr & _). destruct (Hin1 _ _ Hrm Hgm) as (? & ? & ? & ?).
        rewrite Hma in Hin. exists (pc_moveRel c). rewrite Hmr, Hma.
        assert (p = wp_Absolute wm) as -> by (destruct (wp_Absolute wm); [inversion Hin|by apply list_elem_of_singleton in Hin]).
        split_and!; [right; by left|done..].
    + destruct Hm as (Hmv & _). rewrite Hmv in Hin. inversion Hin.
Qed.

(** C17: Whatever the patch says and whichever calls fail, a file that changes is
    inside the workspace, the policy lets it be written, and the last check of
    the links found its directory in the workspace. On a file system that tells
    case apart, inside means below the root. On one that does not, it means below
    a directory that is the root up to folding, or below the root in lower case
    (the tables of [unicode] leave the slash alone); there, the last check has
    looked at a path that is the file's up to folding. *)
Theorem patch_stays_in_workspace patchText w r w' p
  (Hcwd : match pe_cwd env with Some wd => IsAbs wd = true | None => True end)
  (Hlow : pe_caseInsensitive env = true -> lower 47 = 47)
  (H : applyPatch lower fold env patchText w = (r, w')) (Hp : content w' p <> content w p) :
  exists paths, new_resolver env = Ok paths /\ pe_CheckWrite env p = true /\
    if pe_caseInsensitive env then
      below_folded lower fold (wr_root paths) p /\
      exists q, equal_fold fold q p = true /\ checkSymlinkBoundary lower fold paths (pe_links_late env) q = Some true
    else
      below (wr_root paths) p /\ checkSymlinkBoundary lower fold paths (pe_links_late env) p = Some true.
Proof.
  apply applyPatch_run in H as [(e' & _ & T)|(ops & paths & s & w1 & r1 & _ & Hn & _ & T & Hv & Hf & Hnd & E & _)].
  { destruct Hp. unfold content. by rewrite T. }
  exists paths. split; [done|]. destruct (new_resolver_facts _ Hcwd Hn) as [Hroot Hci]. rewrite <- Hci in *.
  destruct (planned_shape _ _ _ _ Hf) as [S1 S2]. apply applyPatchChanges_run in E as [Hs _]; [|done..].
  destruct (decide (p ∈ all_targets (ps_changes s))) as [Hin|Hout].
  2:{ destruct Hp. rewrite Hs by done. unfold content. by rewrite T. }
  apply all_targets_elem in Hin as (c & Hc & Hpl).
  apply validate_ok in Hv. rewrite Forall_forall in Hv.
  apply list_elem_of_lookup in Hc as Hci2. destruct Hci2 as [i Hi].
  destruct (Forall2_lookup_r _ _ _ _ _ Hf Hi) as (op & _ & Hplan).
  destruct (planned_in_workspace _ _ _ _ _ Hroot Hlow Hplan Hpl) as (rel & Hmem & Hne & Hb & Hcl & Hg).
  split; [done|]. destruct (Hv c Hc rel p Hmem Hne) as (wp & Hr & Hsame & _).
  destruct (Resolve_inside _ _ _ _ _ _ Hroot Hlow Hr) as (Hl & _ & _ & Hclw).
  unfold SameAbsolute in Hsame. rewrite Hclw, Hcl in Hsame. unfold inside in Hb.
  destruct (wr_caseInsensitive paths); [split; [done|by exists (wp_Absolute wp)]|].
  apply bool_decide_eq_true in Hsame. by rewrite Hsame in Hl.
Qed.

End Guarantees.

(** ** Patches on concrete files

    Runs of the tool at which the theorems about it apply, and three runs that
    do what a user of the tool would not expect. *)

Definition lines_of (l : list string) : text := JoinWith newline (map T l) ++ [newline].

(** No links; the workspace is [/w]. *)
Definition ex_links : Links :=
  mkLinks (fun p => if bool_decide (p = T "/") || bool_decide (p = T "/w") then LstatFound else LstatMissing) Some.

(** Call [n] fails as told, the others succeed. *)
Definition ex_env (n : nat) (o : CallOutcome) : PatchEnv :=
  mkEnv (T "/w") None ex_links ex_links false (fun _ => true) false
    (fun k => if bool_decide (k = n) then o else CallOk) 18.

Definition ex_files : Files :=
  mkFiles (list_to_map [(T "/", NDir); (T "/w", NDir);
    (T "/w/a", NFile (lines_of ["one"; "two"]%string) 420); (T "/w/old", NFile (lines_of ["x"]%string) 384)]) 0.

Definition ex_patch : text := lines_of
  ["*** Begin Patch"; "*** Add File: d/b"; "+hello"; "*** Update File: a"; "@@"; " one"; "-two"; "+three";
   "*** Update File: old"; "*** Move to: new"; "*** End Patch"]%string.

(** A case table that changes nothing. *)
Definition same_case (r : Z) : Z := r.

Local Abbreviation ex_run n o patch := (applyPatch same_case same_case (ex_env n o) patch ex_files).

Definition dummy_summary : patchSummary := mkSummary [] 0 0 0 0 0 0.
Definition summary_of (r : result PatchError patchSummary * Files) : patchSummary :=
  match r.1 with Ok s => s | Err _ => dummy_summary end.

(** ** The text *)

Definition ex_ops : list patchOperation :=
  [mkOp patchAdd (T "d/b") [] [mkLine kind_add (T "hello"); mkLine kind_add []];
   mkOp patchUpdate (T "a") (T "c") [mkLine kind_hunk []; mkLine kind_context []; mkLine kind_delete (T "two")];
   mkOp patchDelete (T "e f") [] []].

Lemma one_line_check x : bool_decide (newline ∉ x) && bool_decide (last x <> Some carriage_return) = true -> one_line x.
Proof. intros [H1%bool_decide_eq_true H2%bool_decide_eq_true]%andb_prop. by split. Qed.

Ltac check_line := apply one_line_check; vm_compute; reflexivity.

Lemma ex_ops_wf : Forall wf_op ex_ops.
Proof.
  repeat match goal with
         | |- Forall _ _ => constructor
         | |- _ /\ _ => split
         | |- wf_op _ => unfold wf_op; simpl
         | |- wf_path _ => split
         | |- wf_update_line _ => unfold wf_update_line; simpl
         | |- one_line _ => check_line
         | |- Trim _ = _ => vm_compute; reflexivity
         | |- _ => first [done | left; done | right]
         end.
Qed.

Lemma parse_render_roundtrip_witness :
  ex_ops <> [] /\ Forall wf_op ex_ops /\ parsePatch (render_patch true ex_ops) = Ok ex_ops.
Proof.
  split; [discriminate|]. split; [exact ex_ops_wf|].
  exact (parse_render_roundtrip true ex_ops ltac:(discriminate) ex_ops_wf).
Defined.

Definition ex_hunk_lines : list patchLine :=
  [mkLine kind_hunk []; mkLine kind_context (T "one"); mkLine kind_delete (T "two"); mkLine kind_add (T "three")].

Lemma hunks_edit_in_order_witness : exists hunks, patchHunks ex_hunk_lines = Ok hunks /\
  edits hunks (lines_of ["one"; "two"]%string) (lines_of ["one"; "three"]%string).
Proof.
  eexists. split; [vm_compute; reflexivity|].
  match goal with |- edits ?h _ _ =>
    exact (proj1 (proj1 (hunks_edit_in_order (T "a") (lines_of ["one"; "two"]%string) ex_hunk_lines h eq_refl)))
  end.
Defined.

(** ** The files *)

Local Abbreviation ok_run := (ex_run 100 CallOk ex_patch).

Lemma ok_run_eq : ok_run = (Ok (summary_of ok_run), ok_run.2).
Proof. vm_compute. reflexivity. Qed.

Lemma patch_does_its_operations_witness : exists ops paths, parsePatch ex_patch = Ok ops /\
  new_resolver (ex_env 100 CallOk) = Ok paths /\
  Forall (op_done same_case same_case (ex_env 100 CallOk) paths ex_files ok_run.2) ops /\
  forall p, (forall op, op ∈ ops -> ~ op_names same_case same_case (ex_env 100 CallOk) paths op p) ->
    content ok_run.2 p = content ex_files p.
Proof. exact (patch_does_its_operations _ _ _ _ _ _ _ ok_run_eq). Defined.

(** The tenth call, a write, stops after two bytes. *)
Local Abbreviation bad_run := (ex_run 9 (CallPartial 2) ex_patch).

Lemma bad_run_eq : bad_run = (Err (ErrFile ErrIO), bad_run.2).
Proof. vm_compute. reflexivity. Qed.

Lemma failed_patch_changes_nothing_witness :
  bad_run.1 = Err (ErrFile ErrIO) /\ forall p, content bad_run.2 p = content ex_files p.
Proof.
  split; [vm_compute; reflexivity|].
  refine (failed_patch_changes_nothing _ _ _ _ _ _ _ bad_run_eq _). intros e1 e2. discriminate.
Defined.

Lemma patch_stays_in_workspace_witness : exists paths, new_resolver (ex_env 100 CallOk) = Ok paths /\
  pe_CheckWrite (ex_env 100 CallOk) (T "/w/d/b") = true /\ below (wr_root paths) (T "/w/d/b") /\
  checkSymlinkBoundary same_case same_case paths (pe_links_late (ex_env 100 CallOk)) (T "/w/d/b") = Some true.
Proof.
  refine (patch_stays_in_workspace _ _ (ex_env 100 CallOk) ex_patch ex_files _ _ (T "/w/d/b") I _ ok_run_eq _);
    [discriminate|vm_compute; discriminate].
Defined.

(** ** Unexpected runs *)

(** Two places match, they overlap, and the update is not called ambiguous. *)
Example overlapping_context_is_accepted :
  let old := lines_of ["a"; "b"; "a"]%string in
  let s := lines_of ["a"; "b"; "a"; "b"; "a"]%string in
  occurs_at old s [] /\ occurs_at old s (lines_of ["a"; "b"]%string) /\
  applyPatchHunks (T "f") s [mkHunk old [] 0 3] 0 0 = Ok (lines_of ["b"; "a"]%string, 0, 3).
Proof.
  split_and!.
  - exists (lines_of ["b"; "a"]%string). vm_compute. reflexivity.
  - exists []. vm_compute. reflexivity.
  - vm_compute. reflexivity.
Qed.

(** A hunk that deletes the line [ab] deletes the end of the line [xab]. *)
Example hunk_matches_inside_a_line : exists hunks, patchHunks [mkLine kind_delete (T "ab")] = Ok hunks /\
  applyPatchHunks (T "f") (lines_of ["xab"; "c"]%string) hunks 0 0 = Ok (lines_of ["xc"]%string, 0, 1).
Proof. eexists. split; vm_compute; reflexivity. Qed.

(** A file is added, and a file below it: the write fails, every file is as it
    was, and the tool reports that the rollback failed. *)
Definition nested_patch : text :=
  lines_of ["*** Begin Patch"; "*** Add File: n"; "+x"; "*** Add File: n/m"; "+y"; "*** End Patch"]%string.

Example restored_rollback_reports_failure :
  (ex_run 100 CallOk nested_patch).1 = Err (ErrRollbackFailed ErrNotDir ErrNotDir) /\
  fs_tree (ex_run 100 CallOk nested_patch).2 = fs_tree ex_files.
Proof.
  split; [vm_compute; reflexivity|]. refine (bool_decide_eq_true_1 _ _). vm_compute. reflexivity.
Qed.

(** What the tool answers. *)
Example ex_answer : (applyPatchTool same_case same_case (ex_env 100 CallOk) ex_patch ex_files).1 =
  Ok (string_of (JoinWith newline (map T
    ["applied patch: 3 files changed (add=1 update=2 delete=0 move=1, +2 -1)"; "- add d/b"; "- update a";
     "- move old -> new"]%string))).
Proof. vm_compute. reflexivity. Qed.
