(* ===== verification/ModelHealth.v ===== *)
(** * Model health: the circuit breaker of the model fallback chain

    [src/internal/framework/modelhealth/model_health.go]. A [ModelHealth] keeps
    one circuit per model reference; [Acquire] reserves a candidate of a chain,
    [Complete] reports the outcome of the attempt. The mutex makes each method
    atomic, so concurrent use is an interleaving of whole calls ([step]). *)

From S2P Require Import Prelude.

Local Open Scope Z_scope.
Local Open Scope juex_scope.

(** ** Data *)

Definition modelHealthCooldowns : list Duration :=
  [30 * second; 60 * second; 120 * second; 300 * second].

Inductive ModelHealthOutcome :=
| ModelHealthSuccess
| ModelHealthEligibleFailure
| ModelHealthNeutral
| ModelHealthOther (code : Z).

Record ModelAttemptTicket := mkTicket {
  t_Ref : string;
  t_Probe : bool;
  t_generation : Z;
  t_probeToken : Z;
}.

Record ModelHealthSkip := mkSkip {
  sk_Ref : string;
  sk_Reason : string;
  sk_CooldownRemaining : Duration;
}.

Record ModelSelection := mkSelection {
  sel_Index : Z;
  sel_Ticket : ModelAttemptTicket;
  sel_Skipped : list ModelHealthSkip;
}.

Record ModelHealthTransition := mkTransition {
  tr_Applied : bool;
  tr_Stale : bool;
  tr_Cooldown : Duration;
  tr_CooldownUntil : Time;
}.

Record modelHealthState := mkState {
  generation : Z;
  failures : Z;
  cooldownUntil : Time;
  lastReason : string;
  probeInFlight : bool;
  probeToken : Z;
}.

Record ModelHealth := mkHealth {
  states : gmap string modelHealthState;
  nextToken : Z;
}.

#[export] Instance ticket_eq_dec : EqDecision ModelAttemptTicket.
Proof. solve_decision. Defined.

Definition zeroState : modelHealthState := mkState 0 0 0 "" false 0.
Definition zeroTicket : ModelAttemptTicket := mkTicket "" false 0 0.
Definition zeroTransition : ModelHealthTransition := mkTransition false false 0 0.

Definition NewModelHealth : ModelHealth := mkHealth ∅ 0.

(** ** Operations *)

(** The body of the loop of [Acquire] over the rest of the chain, from the
    index [index] on, with the candidates already skipped. *)
Fixpoint acquire_loop (now : Time) (attempted : gset string) (index : Z)
    (chain : list string) (skipped : list ModelHealthSkip) (h : ModelHealth) :
    ModelSelection * bool * ModelHealth :=
  match chain with
  | [] => (mkSelection (-1) zeroTicket skipped, false, h)
  | ref :: rest =>
    if ref =?s "" then acquire_loop now attempted (index + 1) rest skipped h
    else if bool_decide (ref ∈ attempted) then
      acquire_loop now attempted (index + 1) rest skipped h
    else
      match states h !! ref with
      | None => (mkSelection index (mkTicket ref false 0 0) skipped, true, h)
      | Some st =>
        if failures st =? 0 then
          (mkSelection index (mkTicket ref false (generation st) 0) skipped, true, h)
        else if now <? cooldownUntil st then
          acquire_loop now attempted (index + 1) rest
            (skipped ++ [mkSkip ref (lastReason st) (time_sub (cooldownUntil st) now)]) h
        else if probeInFlight st then
          acquire_loop now attempted (index + 1) rest
            (skipped ++ [mkSkip ref "probe_in_flight" 0]) h
        else
          let token := wrap_uint64 (nextToken h + 1) in
          let st' := mkState (generation st) (failures st) (cooldownUntil st)
                       (lastReason st) true token in
          (mkSelection index (mkTicket ref true (generation st) token) skipped, true,
           mkHealth (<[ref := st']> (states h)) token)
      end
  end.

(** [None] is the nil receiver. *)
Definition Acquire (now : Time) (chain : list string) (attempted : gset string)
    (h : option ModelHealth) : ModelSelection * bool * option ModelHealth :=
  match h with
  | None => (mkSelection 0 zeroTicket [], false, None)
  | Some h =>
    let '(sel, ok, h') := acquire_loop now attempted 0 chain [] h in
    (sel, ok, Some h')
  end.

(** [modelHealthCooldowns[min(failures-1, len-1)]]: an index below 0 panics. *)
Definition cooldownFor (failures : Z) : option Duration :=
  let i := Z.min (failures - 1) (Z.of_nat (length modelHealthCooldowns) - 1) in
  if i <? 0 then None else modelHealthCooldowns !! Z.to_nat i.

Definition staleTicket (st : modelHealthState) (t : ModelAttemptTicket) : bool :=
  negb (generation st =? t_generation t) ||
  (t_Probe t && (negb (probeInFlight st) || negb (probeToken st =? t_probeToken t))).

(** The state a completion of a live ticket leaves, with its transition; [None]
    is a run-time panic (index out of range). *)
Definition complete_state (now : Time) (t : ModelAttemptTicket)
    (outcome : ModelHealthOutcome) (reason : string) (st : modelHealthState) :
    option (ModelHealthTransition * modelHealthState) :=
  match outcome with
  | ModelHealthNeutral =>
    Some (mkTransition true false 0 0,
      if t_Probe t then
        mkState (generation st) (failures st) (cooldownUntil st) (lastReason st) false 0
      else st)
  | ModelHealthSuccess =>
    Some (mkTransition true false 0 0,
      mkState (wrap_uint64 (generation st + 1)) 0 0 "" false 0)
  | ModelHealthEligibleFailure =>
    let failures' := wrap_int64 (failures st + 1) in
    match cooldownFor failures' with
    | None => None
    | Some cooldown =>
      let until := now + cooldown in
      Some (mkTransition true false cooldown until,
        mkState (wrap_uint64 (generation st + 1)) failures' until reason false 0)
    end
  | ModelHealthOther _ => Some (zeroTransition, st)
  end.

(** [Complete]: an unknown reference gets a fresh circuit before the ticket is
    checked against it. *)
Definition complete (now : Time) (t : ModelAttemptTicket)
    (outcome : ModelHealthOutcome) (reason : string) (h : ModelHealth) :
    option (ModelHealthTransition * ModelHealth) :=
  if t_Ref t =?s "" then Some (zeroTransition, h)
  else
    let st := default zeroState (states h !! t_Ref t) in
    let put st' := mkHealth (<[t_Ref t := st']> (states h)) (nextToken h) in
    if staleTicket st t then Some (mkTransition false true 0 0, put st)
    else
      match complete_state now t outcome reason st with
      | None => None
      | Some (tr, st') => Some (tr, put st')
      end.

Definition Complete (now : Time) (t : ModelAttemptTicket)
    (outcome : ModelHealthOutcome) (reason : string) (h : option ModelHealth) :
    option (ModelHealthTransition * option ModelHealth) :=
  match h with
  | None => Some (zeroTransition, None)
  | Some h =>
    match complete now t outcome reason h with
    | None => None
    | Some (tr, h') => Some (tr, Some h')
    end
  end.

(** ** Concurrent use

    Callers hold tickets; every call is atomic under the mutex. The ghost list
    [sys_issued] records the tickets handed out, newest first. *)

Record System := mkSystem {
  sys_health : ModelHealth;
  sys_issued : list ModelAttemptTicket;
}.

Definition initSystem : System := mkSystem NewModelHealth [].

Inductive step : System -> System -> Prop :=
| step_acquire s now chain attempted sel h' :
    acquire_loop now attempted 0 chain [] (sys_health s) = (sel, true, h') ->
    step s (mkSystem h' (sel_Ticket sel :: sys_issued s))
| step_acquire_none s now chain attempted sel h' :
    acquire_loop now attempted 0 chain [] (sys_health s) = (sel, false, h') ->
    step s (mkSystem h' (sys_issued s))
| step_complete s now t outcome reason tr h' :
    t ∈ sys_issued s ->
    complete now t outcome reason (sys_health s) = Some (tr, h') ->
    step s (mkSystem h' (sys_issued s)).

(** ** Specification *)

(** The circuit of a reference: an absent entry is a closed fresh circuit. *)
Definition circuit (h : ModelHealth) (ref : string) : modelHealthState :=
  default zeroState (states h !! ref).

Definition eligible (now : Time) (attempted : gset string) (h : ModelHealth)
    (ref : string) : bool :=
  (ref <>?s "") && negb (bool_decide (ref ∈ attempted)) &&
  ((failures (circuit h ref) =? 0) ||
   ((cooldownUntil (circuit h ref) <=? now) && negb (probeInFlight (circuit h ref)))).

(** What an ineligible candidate contributes to [Skipped]. *)
Definition skip_of (now : Time) (attempted : gset string) (h : ModelHealth)
    (ref : string) : option ModelHealthSkip :=
  let st := circuit h ref in
  if (ref =?s "") || bool_decide (ref ∈ attempted) then None
  else if now <? cooldownUntil st then
    Some (mkSkip ref (lastReason st) (time_sub (cooldownUntil st) now))
  else Some (mkSkip ref "probe_in_flight" 0).

Definition live_probe (h : ModelHealth) (ref : string) (t : ModelAttemptTicket) : Prop :=
  t_Probe t = true /\ t_Ref t = ref /\ staleTicket (circuit h ref) t = false.

#[export] Instance live_probe_dec h ref t : Decision (live_probe h ref t).
Proof. unfold live_probe. apply _. Defined.

(** Two breakers no caller can tell apart: the same circuits, the same token
    counter. [Complete] may turn an absent entry into a zero one. *)
Definition health_equiv (h1 h2 : ModelHealth) : Prop :=
  (forall ref, circuit h1 ref = circuit h2 ref) /\ nextToken h1 = nextToken h2.

(** ** Lemmas *)

#[export] Instance health_equiv_equivalence : Equivalence health_equiv.
Proof.
  split; unfold health_equiv.
  - done.
  - intros ?? [? ?]. split; [|done]. intros. by symmetry.
  - intros ??? [H ?] [H' ?]. split; [|congruence]. intros. by rewrite H.
Qed.

Lemma circuit_put_eq m ref st tok :
  circuit (mkHealth (<[ref := st]> m) tok) ref = st.
Proof. unfold circuit. simpl. by rewrite lookup_insert_eq. Qed.

Lemma circuit_put_ne h ref ref' st tok : ref <> ref' ->
  circuit (mkHealth (<[ref := st]> (states h)) tok) ref' = circuit h ref'.
Proof. intros H. unfold circuit. simpl. by rewrite lookup_insert_ne. Qed.

#[export] Hint Rewrite circuit_put_eq : juex.
#[export] Hint Rewrite circuit_put_ne using done : juex.

(** The loop reads a circuit only through [circuit]. *)
Lemma acquire_loop_cons now attempted i ref rest skipped h :
  acquire_loop now attempted i (ref :: rest) skipped h =
  let st := circuit h ref in
  if eligible now attempted h ref then
    if failures st =? 0 then
      (mkSelection i (mkTicket ref false (generation st) 0) skipped, true, h)
    else
      let token := wrap_uint64 (nextToken h + 1) in
      (mkSelection i (mkTicket ref true (generation st) token) skipped, true,
       mkHealth (<[ref := mkState (generation st) (failures st) (cooldownUntil st)
                            (lastReason st) true token]> (states h)) token)
  else acquire_loop now attempted (i + 1) rest
         (skipped ++ option_list (skip_of now attempted h ref)) h.
Proof.
  simpl. unfold eligible, skip_of, circuit.
  destruct (bool_decide (ref = "")) eqn:?; simpl; [by rewrite app_nil_r|].
  destruct (bool_decide (ref ∈ attempted)) eqn:?; simpl; [by rewrite app_nil_r|].
  destruct (states h !! ref) as [st|] eqn:E; simpl; [|done].
  destruct (failures st =? 0); simpl; [done|].
  rewrite (Z.leb_antisym now).
  destruct (now <? cooldownUntil st); simpl; [done|].
  by destruct (probeInFlight st).
Qed.

Lemma acquire_loop_spec now attempted h chain : forall i skipped sel ok h',
  acquire_loop now attempted i chain skipped h = (sel, ok, h') ->
  match list_find (fun ref => eligible now attempted h ref = true) chain with
  | Some (n, ref) =>
    ok = true /\ sel_Index sel = i + Z.of_nat n /\ t_Ref (sel_Ticket sel) = ref /\
    t_generation (sel_Ticket sel) = generation (circuit h ref) /\
    t_Probe (sel_Ticket sel) = negb (failures (circuit h ref) =? 0) /\
    sel_Skipped sel = skipped ++ omap (skip_of now attempted h) (take n chain)
  | None =>
    ok = false /\ sel_Index sel = -1 /\ h' = h /\
    sel_Skipped sel = skipped ++ omap (skip_of now attempted h) chain
  end.
Proof.
  induction chain as [|ref rest IH]; intros i skipped sel ok h' H.
  - simpl in *. simplify_eq. by rewrite app_nil_r.
  - rewrite acquire_loop_cons in H. cbv zeta in H. cbn [list_find].
    case_decide as Hel.
    + rewrite Hel in H. cbn [take omap list_omap].
      destruct (failures (circuit h ref) =? 0) in *; simplify_eq/=;
        rewrite ?app_nil_r; split_and!; done || lia.
    + apply not_true_is_false in Hel. rewrite Hel in H.
      apply IH in H. destruct (list_find _ rest) as [[n r]|] eqn:E; simpl.
      * destruct H as (? & -> & ? & ? & ? & ->).
        split_and!; try done; [lia|]. rewrite <- app_assoc.
        f_equal. by destruct (skip_of now attempted h ref).
      * destruct H as (? & ? & ? & ->). split_and!; try done.
        rewrite <- app_assoc. f_equal.
        by destruct (skip_of now attempted h ref).
Qed.

(** A completed step of the loop leaves the breaker alone or reserves a probe
    of the selected reference with the next token. *)
Lemma acquire_loop_effect now attempted chain : forall i skipped h sel ok h',
  acquire_loop now attempted i chain skipped h = (sel, ok, h') ->
  (h' = h /\ t_Probe (sel_Ticket sel) = false) \/
  (ok = true /\ t_Probe (sel_Ticket sel) = true /\
  t_probeToken (sel_Ticket sel) = nextToken h' /\
  nextToken h' = wrap_uint64 (nextToken h + 1) /\
  probeInFlight (circuit h (t_Ref (sel_Ticket sel))) = false /\
  failures (circuit h (t_Ref (sel_Ticket sel))) <> 0 /\
  forall ref, circuit h' ref =
     (let st := circuit h ref in
      if ref =?s t_Ref (sel_Ticket sel) then
        mkState (generation st) (failures st) (cooldownUntil st) (lastReason st)
          true (nextToken h')
      else st)).
Proof.
  induction chain as [|ref rest IH]; intros i skipped h sel ok h' H.
  - simpl in H. simplify_eq. by left.
  - rewrite acquire_loop_cons in H. cbv zeta in H.
    destruct (eligible now attempted h ref) eqn:Hel; [|by eapply IH].
    destruct (failures (circuit h ref) =? 0) eqn:Hf; simplify_eq; [by left|].
    right. unfold eligible in Hel. rewrite Hf in Hel. to_prop. simpl.
    match goal with H : _ \/ _ |- _ => destruct H; [done|] end.
    to_prop. split_and!; try done. intros ref'.
    case_bool_decide; subst; by autorewrite with juex.
Qed.

Lemma complete_effect now t outcome reason h tr h' :
  complete now t outcome reason h = Some (tr, h') ->
  nextToken h' = nextToken h /\
  forall ref, ref <> t_Ref t -> circuit h' ref = circuit h ref.
Proof.
  unfold complete. intros H. walk; split; try done; intros ref Hne;
    by rewrite circuit_put_ne.
Qed.

(** Stale tickets stay stale. A completion that keeps the generation can only
    clear a probe, one that moves it fences every ticket of the old one. *)
Lemma complete_stale_unchanged now t outcome reason h :
  t_Ref t <> "" -> staleTicket (circuit h (t_Ref t)) t = true ->
  exists h', complete now t outcome reason h = Some (mkTransition false true 0 0, h') /\
             health_equiv h h'.
Proof.
  intros Href Hst. unfold complete. rewrite (bool_decide_eq_false_2 _ Href).
  unfold circuit in Hst. rewrite Hst. eexists. split; [done|].
  split; [|done]. intros ref. destruct (decide (t_Ref t = ref)) as [<-|].
  - by rewrite circuit_put_eq.
  - by rewrite circuit_put_ne.
Qed.

(** ** Invariant of the concurrent system *)

Definition probes (s : System) : list ModelAttemptTicket :=
  filter (fun t => t_Probe t = true) (sys_issued s).

(** Probe tokens are the distinct values of the counter so far. *)
Definition tokens_inv (s : System) : Prop :=
  nextToken (sys_health s) = Z.of_nat (length (probes s)) /\
  NoDup (t_probeToken <$> probes s) /\
  Forall (fun t => t_probeToken t <= nextToken (sys_health s)) (probes s).

Lemma probes_length s : (length (probes s) <= length (sys_issued s))%nat.
Proof. apply length_filter. Qed.

Lemma tokens_inv_step s1 s2 :
  Z.of_nat (length (sys_issued s2)) < 2 ^ 64 ->
  tokens_inv s1 -> step s1 s2 -> tokens_inv s2.
Proof.
  intros Hlt (Hn & Hnd & Hle) Hstep. unfold tokens_inv.
  destruct Hstep as [s ? ? ? sel h' H|s ? ? ? sel h' H|s ? t ? ? tr h' Hin H]; simpl in *.
  - apply acquire_loop_effect in H as [[-> Hp]|(_ & Hp & Htok & Hnext & _)];
      unfold probes in *; simpl; rewrite filter_cons, Hp; simpl; [done|].
    pose proof (probes_length s) as Hlen. unfold probes in Hlen.
    rewrite wrap_uint64_small in Hnext by lia.
    split_and!; [simpl; lia| |].
    + constructor; [|done]. intros Hin. apply list_elem_of_fmap in Hin as (t & Ht & Htin).
      rewrite Forall_forall in Hle. specialize (Hle _ Htin). lia.
    + constructor; [lia|]. eapply Forall_impl; [exact Hle|]. simpl. lia.
  - apply acquire_loop_effect in H as [[-> _]|(? & _)]; done.
  - apply complete_effect in H as [Hn' _]. unfold probes in *. simpl.
    rewrite Hn'. done.
Qed.

Lemma issued_grows s1 s2 : runs step s1 s2 ->
  (length (sys_issued s1) <= length (sys_issued s2))%nat.
Proof. induction 1 as [|s1 s2 s3 Hstep _ IH]; [lia|]. destruct Hstep; simpl in *; lia. Qed.

Lemma tokens_inv_runs s1 s2 : runs step s1 s2 -> tokens_inv s1 ->
  Z.of_nat (length (sys_issued s2)) < 2 ^ 64 -> tokens_inv s2.
Proof.
  induction 1 as [|s1 s2 s3 Hstep Hruns IH]; [done|]. intros Hinv Hlt.
  apply IH; [|done]. eapply tokens_inv_step; [|done..].
  apply issued_grows in Hruns. lia.
Qed.

Lemma tokens_inv_init : tokens_inv initSystem.
Proof. split_and!; constructor. Qed.

#[export] Hint Resolve tokens_inv_init : juex.

(** Only an open circuit has a probe in flight. *)
Definition probes_open (h : ModelHealth) : Prop :=
  forall ref, probeInFlight (circuit h ref) = true -> failures (circuit h ref) <> 0.

Lemma complete_probes_open now t outcome reason h tr h' :
  complete now t outcome reason h = Some (tr, h') -> probes_open h -> probes_open h'.
Proof.
  intros H Ho ref. pose proof (complete_effect _ _ _ _ _ _ _ H) as [_ Hne].
  destruct (decide (ref = t_Ref t)) as [->|Hr]; [|rewrite Hne by done; apply Ho].
  unfold complete in H. specialize (Ho (t_Ref t)). unfold circuit in Ho.
  case_bool_decide; [by simplify_eq|]. case_match; [simplify_eq; by rewrite circuit_put_eq|].
  destruct (complete_state _ _ _ _ _) as [[tr' st']|] eqn:E; simplify_eq.
  rewrite circuit_put_eq. destruct outcome; simpl in E; repeat case_match; by simplify_eq.
Qed.

Lemma probes_open_step s1 s2 : step s1 s2 -> probes_open (sys_health s1) -> probes_open (sys_health s2).
Proof.
  assert (forall now attempted chain h sel ok h', acquire_loop now attempted 0 chain [] h = (sel, ok, h') ->
    probes_open h -> probes_open h') as Ha.
  { intros now attempted chain h sel ok h' H Ho.
    apply acquire_loop_effect in H as [[-> _]|(_ & _ & _ & _ & _ & Hf & Hc)]; [done|].
    intros ref. rewrite Hc. case_bool_decide; subst; [done|apply Ho]. }
  destruct 1; simpl; [by eapply Ha..|by eapply complete_probes_open].
Qed.

Lemma probes_open_runs s : runs step initSystem s -> probes_open (sys_health s).
Proof.
  intros Hr. eapply (runs_invariant step (fun s => probes_open (sys_health s))); [|exact Hr|done].
  intros s1 s2 H1 H2. by eapply probes_open_step.
Qed.

Lemma acquired_eligible now attempted chain h sel h' :
  acquire_loop now attempted 0 chain [] h = (sel, true, h') ->
  eligible now attempted h (t_Ref (sel_Ticket sel)) = true.
Proof.
  intros H. apply acquire_loop_spec in H. destruct (list_find _ chain) as [[n ref]|] eqn:E; [|by destruct H].
  apply list_find_Some in E as (_ & E & _). by destruct H as (_ & _ & -> & _).
Qed.

Lemma acquired_probe_live now attempted chain h sel h' :
  acquire_loop now attempted 0 chain [] h = (sel, true, h') -> t_Probe (sel_Ticket sel) = true ->
  live_probe h' (t_Ref (sel_Ticket sel)) (sel_Ticket sel).
Proof.
  intros H Hp. pose proof (acquire_loop_spec _ _ _ _ _ _ _ _ _ H) as Hs.
  apply acquire_loop_effect in H as [[_ ?]|(_ & _ & Htok & _ & _ & _ & Hc)]; [congruence|].
  destruct (list_find _ chain) as [[n ref]|]; [|by destruct Hs].
  destruct Hs as (_ & _ & Href & Hg & _). split_and!; [done..|].
  unfold staleTicket. rewrite Hc, bool_decide_eq_true_2 by done. cbv zeta. simpl.
  rewrite Hp, Htok, Hg, Href. by rewrite !Z.eqb_refl.
Qed.

(** Callers cannot tell equivalent breakers apart. *)
Lemma acquire_loop_equiv now attempted h1 h2 chain : health_equiv h1 h2 ->
  forall i skipped,
  let '(sel1, ok1, h1') := acquire_loop now attempted i chain skipped h1 in
  let '(sel2, ok2, h2') := acquire_loop now attempted i chain skipped h2 in
  sel1 = sel2 /\ ok1 = ok2 /\ health_equiv h1' h2'.
Proof.
  intros Heq. pose proof Heq as [Hc Hn].
  induction chain as [|ref rest IH]; intros i skipped; [done|].
  rewrite !acquire_loop_cons. cbv zeta.
  unfold eligible, skip_of in *. rewrite !Hc, !Hn.
  destruct (_ && _ && _); [|by apply IH].
  destruct (failures (circuit h2 ref) =? 0); [done|].
  split_and!; try done. split; [|done]. intros ref'. destruct (decide (ref = ref')) as [<-|].
  - by rewrite !circuit_put_eq.
  - by rewrite !circuit_put_ne.
Qed.

(** ** Properties *)

(** C38: half-open probes exclude each other. In every state that any
    interleaving of [Acquire] and [Complete] calls reaches (before the 64-bit
    token counter can wrap): of all tickets handed out, at most one probe ticket
    of a given reference would still be accepted by [Complete]; while there is
    one, no [Acquire] selects the reference, whatever the time, the chain and the
    attempts so far; and a probe ticket that [Acquire] hands out is accepted. *)
Theorem probe_exclusive s ref :
  runs step initSystem s ->
  Z.of_nat (length (sys_issued s)) < 2 ^ 64 ->
  (length (filter (live_probe (sys_health s) ref) (sys_issued s)) <= 1)%nat /\
  (forall t now chain attempted sel h', t ∈ sys_issued s -> live_probe (sys_health s) ref t ->
     Acquire now chain attempted (Some (sys_health s)) = (sel, true, h') -> t_Ref (sel_Ticket sel) <> ref) /\
  (forall now chain attempted sel h', Acquire now chain attempted (Some (sys_health s)) = (sel, true, Some h') ->
     t_Ref (sel_Ticket sel) = ref -> t_Probe (sel_Ticket sel) = true -> live_probe h' ref (sel_Ticket sel)).
Proof.
  intros Hruns Hlt. split_and!.
  - destruct (tokens_inv_runs _ _ Hruns tokens_inv_init Hlt) as (_ & Hnd & _).
    eapply (filter_same_key t_probeToken (fun t => t_Probe t = true) _
              (probeToken (circuit (sys_health s) ref))); [exact Hnd|].
    intros t (Hp & Href & Hst). split; [done|].
    unfold staleTicket in Hst. rewrite Hp in Hst. simpl in Hst. by to_prop.
  - intros t now chain attempted sel h' _ (Hp & Href & Hst) H Heq. unfold Acquire in H.
    destruct (acquire_loop _ _ _ _ _ _) as [[sel' ok] h''] eqn:E. injection H as -> -> _.
    apply acquired_eligible in E. unfold eligible in E. rewrite Heq in E.
    assert (probeInFlight (circuit (sys_health s) ref) = true) as Hin
      by (unfold staleTicket in Hst; rewrite Hp in Hst; simpl in Hst; by to_prop).
    pose proof (probes_open_runs s Hruns ref Hin) as Hf.
    rewrite Hin, (proj2 (Z.eqb_neq _ 0) Hf), andb_false_r in E. simpl in E. by rewrite andb_false_r in E.
  - intros now chain attempted sel h' H <- Hp. unfold Acquire in H.
    destruct (acquire_loop _ _ _ _ _ _) as [[sel' ok] h''] eqn:E. injection H as -> -> ->.
    by eapply acquired_probe_live.
Qed.

(** [Acquire] serves the first candidate of the chain that is named, not
    attempted yet and not behind an open circuit; it reports one skip, with the
    remaining cooldown, for each open candidate before it; and it fails exactly
    when no candidate is eligible, leaving the breaker unchanged. *)
Theorem acquire_first_eligible now chain attempted h :
  let '(sel, ok, h') := Acquire now chain attempted (Some h) in
  match list_find (fun ref => eligible now attempted h ref = true) chain with
  | Some (n, ref) =>
    ok = true /\ sel_Index sel = Z.of_nat n /\ t_Ref (sel_Ticket sel) = ref /\
    t_generation (sel_Ticket sel) = generation (circuit h ref) /\
    t_Probe (sel_Ticket sel) = negb (failures (circuit h ref) =? 0) /\
    sel_Skipped sel = omap (skip_of now attempted h) (take n chain)
  | None =>
    ok = false /\ sel_Index sel = -1 /\ h' = Some h /\
    sel_Skipped sel = omap (skip_of now attempted h) chain
  end.
Proof.
  unfold Acquire. destruct (acquire_loop now attempted 0 chain [] h) as [[sel ok] h'] eqn:E.
  apply acquire_loop_spec in E. destruct (list_find _ chain) as [[n ref]|]; [done|].
  by destruct E as (? & ? & -> & ?).
Qed.

(** A failed attempt opens the circuit for the next cooldown of the table
    (30 s, 1, 2, then 5 min, by consecutive failures): the reference is not
    selectable before the deadline, and at the deadline exactly one probe of it
    is. *)
Theorem failure_opens_circuit now t reason h tr h' :
  let st := circuit h (t_Ref t) in
  t_Ref t <> "" -> staleTicket st t = false ->
  0 <= failures st < max_int64 ->
  complete now t ModelHealthEligibleFailure reason h = Some (tr, h') ->
  let ref := t_Ref t in
  Some (tr_Cooldown tr) =
    modelHealthCooldowns !! Z.to_nat (Z.min (failures st) 3) /\
  failures (circuit h' ref) = failures st + 1 /\
  (forall later attempted, later < now + tr_Cooldown tr ->
     eligible later attempted h' ref = false) /\
  (forall later chain, now + tr_Cooldown tr <= later ->
     let '(sel, ok, h'') := Acquire later (ref :: chain) ∅ (Some h') in
     ok = true /\ sel_Ticket sel = mkTicket ref true (generation (circuit h' ref)) (wrap_uint64 (nextToken h' + 1)) /\
     forall h3 attempted, h'' = Some h3 -> eligible later attempted h3 ref = false).
Proof.
  intros st Href Hlive Hf H ref. unfold complete in H.
  rewrite (bool_decide_eq_false_2 _ Href) in H. fold (circuit h (t_Ref t)) in H.
  fold st in H. rewrite Hlive in H. unfold complete_state in H.
  rewrite wrap_int64_small in H by (unfold min_int64; lia).
  destruct (cooldownFor (failures st + 1)) as [c|] eqn:Hc; [|done].
  injection H as <- <-. cbn [tr_Cooldown].
  assert (c > 0) as Hcpos.
  { unfold cooldownFor in Hc. case_match; [done|]. simpl in Hc.
    apply list_elem_of_lookup_2 in Hc. unfold modelHealthCooldowns, second in Hc.
    set_unfold in Hc. lia. }
  rewrite circuit_put_eq. split_and!; try done.
  - rewrite <- Hc. unfold cooldownFor. simpl length.
    replace (Z.min (failures st + 1 - 1) (Z.of_nat 4 - 1)) with (Z.min (failures st) 3) by lia.
    by destruct (Z.ltb_spec (Z.min (failures st) 3) 0); [lia|].
  - intros later att Hlt. unfold eligible. rewrite circuit_put_eq. simpl.
    rewrite (proj2 (Z.eqb_neq _ 0)), (proj2 (Z.leb_gt _ _)) by lia.
    by rewrite andb_false_r.
  - intros later chain Hle. unfold Acquire. rewrite acquire_loop_cons. cbv zeta.
    unfold eligible at 1. rewrite !circuit_put_eq. simpl.
    rewrite (bool_decide_eq_false_2 _ Href), (proj2 (Z.leb_le _ _) Hle).
    rewrite (bool_decide_eq_false_2 (ref ∈ ∅)) by set_solver.
    rewrite (proj2 (Z.eqb_neq _ 0)) by lia. simpl. split_and!; try done.
    intros h3 att [= <-]. unfold eligible. rewrite circuit_put_eq. simpl.
    rewrite (proj2 (Z.eqb_neq _ 0)) by lia. by rewrite !andb_false_r.
Qed.

(** An applied success or failure fences every ticket of the same model
    issued before it (one generation, below the 64-bit bound): their later
    completions, whatever the outcome, are reported stale and change nothing
    that a later [Acquire] can observe. *)
Theorem completion_fences_stale now t outcome reason h tr h' t2 now2 outcome2 reason2 :
  outcome = ModelHealthSuccess \/ outcome = ModelHealthEligibleFailure ->
  t_Ref t <> "" -> t_Ref t2 = t_Ref t ->
  t_generation t2 = generation (circuit h (t_Ref t)) ->
  0 <= generation (circuit h (t_Ref t)) < 2 ^ 64 - 1 ->
  complete now t outcome reason h = Some (tr, h') ->
  tr_Applied tr = true ->
  exists h'', complete now2 t2 outcome2 reason2 h' = Some (mkTransition false true 0 0, h'') /\
    forall later chain attempted,
      let '(sel1, ok1, _) := Acquire later chain attempted (Some h') in
      let '(sel2, ok2, _) := Acquire later chain attempted (Some h'') in
      sel1 = sel2 /\ ok1 = ok2.
Proof.
  intros Ho Href Href2 Hgen Hg H Happ.
  assert (staleTicket (circuit h' (t_Ref t2)) t2 = true) as Hst.
  { unfold complete in H. rewrite (bool_decide_eq_false_2 _ Href) in H.
    fold (circuit h (t_Ref t)) in H. case_match; [simplify_eq/=|].
    unfold staleTicket. rewrite Href2.
    assert (generation (circuit h' (t_Ref t)) = generation (circuit h (t_Ref t)) + 1) as ->.
    { destruct Ho as [-> | ->]; simpl in H; [|destruct (cooldownFor _)]; simplify_eq;
        rewrite circuit_put_eq; simpl; apply wrap_uint64_small; lia. }
    rewrite (proj2 (Z.eqb_neq _ _)) by lia. done. }
  rewrite <- Href2 in Href.
  destruct (complete_stale_unchanged now2 t2 outcome2 reason2 h' Href Hst) as (h'' & -> & Heq).
  exists h''. split; [done|]. intros later chain attempted.
  pose proof (acquire_loop_equiv later attempted _ _ chain Heq 0 []) as Hacq.
  unfold Acquire. repeat case_match; simplify_eq; tauto.
Qed.

(** ** Witnesses: a failure at time 0, then a probe after the cooldown. *)

Definition ex_ticket : ModelAttemptTicket := mkTicket "m" false 0 0.
Definition ex_probe : ModelAttemptTicket := mkTicket "m" true 1 1.
Definition ex_open : ModelHealth :=
  mkHealth {["m" := mkState 1 1 (30 * second) "timeout" false 0]} 0.
Definition ex_half_open : ModelHealth :=
  mkHealth {["m" := mkState 1 1 (30 * second) "timeout" true 1]} 1.

Lemma mh_run : runs step initSystem (mkSystem ex_half_open [ex_probe; ex_ticket]).
Proof.
  eapply runs_step; [apply (step_acquire _ 0 ["m"] ∅ (mkSelection 0 ex_ticket []) NewModelHealth); reflexivity|].
  eapply runs_step; [apply (step_complete _ 0 ex_ticket ModelHealthEligibleFailure "timeout"
    (mkTransition true false (30 * second) (30 * second)) ex_open); [set_solver | vm_compute; reflexivity]|].
  eapply runs_step; [|apply runs_refl].
  apply (step_acquire (mkSystem ex_open [ex_ticket]) (30 * second) ["m"] ∅ (mkSelection 0 ex_probe []) ex_half_open).
  vm_compute. reflexivity.
Qed.

Lemma probe_exclusive_witness :
  (length (filter (live_probe ex_half_open "m") [ex_probe; ex_ticket]) <= 1)%nat /\
  filter (live_probe ex_half_open "m") [ex_probe; ex_ticket] = [ex_probe].
Proof.
  split; [|vm_compute; reflexivity].
  exact (proj1 (probe_exclusive (mkSystem ex_half_open [ex_probe; ex_ticket]) "m" mh_run eq_refl)).
Defined.

Lemma failure_opens_circuit_witness :
  exists tr h', complete 0 ex_ticket ModelHealthEligibleFailure "timeout" NewModelHealth = Some (tr, h') /\
    failures (circuit h' "m") = 1.
Proof.
  eexists _, _. split; [vm_compute; reflexivity|].
  refine (proj1 (proj2 (failure_opens_circuit 0 ex_ticket "timeout" NewModelHealth _ _ _ _ _ _))).
  - discriminate.
  - reflexivity.
  - vm_compute. split; congruence.
  - vm_compute. reflexivity.
Defined.

Lemma completion_fences_stale_witness :
  exists h'', complete 1 ex_ticket ModelHealthSuccess "" ex_open =
    Some (mkTransition false true 0 0, h'').
Proof.
  destruct (completion_fences_stale 0 ex_ticket ModelHealthEligibleFailure "timeout"
    NewModelHealth (mkTransition true false (30 * second) (30 * second)) ex_open
    ex_ticket 1 ModelHealthSuccess "") as (h'' & H & _).
  - by right.
  - discriminate.
  - reflexivity.
  - reflexivity.
  - vm_compute. split; congruence.
  - vm_compute. reflexivity.
  - reflexivity.
  - by exists h''.
Defined.
