(* ===== verification/StatusStream.v ===== *)
(** * Status streams: replaceable snapshots with cursor replay

    [src/internal/foundation/statusstream/store.go]. A [Store] owns the current
    value, a bounded replay history and one buffered channel per subscriber.
    Publishers are serialised by [publishMu]; the store's own mutex protects
    the fields only, so channel sends interleave with the receives and the
    closing of the consumers. The model therefore has one small step per
    channel operation ([step]), and one atomic step per critical section. *)

From S2P Require Import Prelude GoStd.

Local Open Scope Z_scope.
Local Open Scope juex_scope.

(** [subscriberBuffer]: the capacity of a subscriber's channel. *)
Definition subscriberBuffer : nat := 16.

Section StatusStream.

(** The type of snapshots with the caller's [Options]: [Clone] copies a value
    (values of the model are immutable, so a copy is the value), [Cursor] names
    it and [Equal] compares two. *)
Context {T : Type} (cursorOf : T -> string) (equal : T -> T -> bool).

(** ** Data *)

Record entry := mkEntry { e_value : T; e_cursor : string }.

Record Options := mkOptions { HistoryLimit : Z }.

Record OpenOptions := mkOpenOptions { After : string; Follow : bool }.

Record Store := mkStore {
  historyLimit : Z;
  current : entry;
  history : list entry;
  subscribers : gmap Z (list entry);
  nextID : Z;
}.

(** A stream as its consumer holds it. [st_id] is its key in [subscribers]
    ([Follow] streams only); the channel itself outlives [Close], which only
    removes it from the store. *)
Record Stream := mkStream {
  st_replay : list T;
  st_index : nat;
  st_follow : bool;
  st_id : Z;
  st_done : bool;
}.

Definition mk_entry (v : T) : entry := mkEntry v (cursorOf v).

(** ** Operations *)

(** [New]: a negative limit panics. *)
Definition New (initial : T) (o : Options) : option Store :=
  if HistoryLimit o <? 0 then None
  else
    let e := mk_entry initial in
    Some (mkStore (HistoryLimit o) e (if 0 <? HistoryLimit o then [e] else []) ∅ 0).

Definition Snapshot (s : Store) : T := e_value (current s).

Definition Values (s : Store) : T * list T :=
  (e_value (current s), e_value <$> history s).

(** The last [n] elements: [h[len(h)-n:]]. *)
Definition last_n {A} (n : nat) (l : list A) : list A := drop (length l - n) l.

Definition bound_history (limit : Z) (l : list entry) : list entry :=
  if limit <? Z.of_nat (length l) then last_n (Z.to_nat limit) l else l.

(** The critical section of [Publish]: the fields of the store. *)
Definition publish_store (next : T) (record : bool) (s : Store) : Store :=
  let e := mk_entry next in
  let h := if record && (0 <? historyLimit s)
           then bound_history (historyLimit s) (history s ++ [e])
           else history s in
  mkStore (historyLimit s) e h (subscribers s) (nextID s).

(** The critical section of [Replace]. *)
Definition replace_store (cur : T) (values : list T) (s : Store) : Store :=
  let entries :=
    if historyLimit s =? 0 then []
    else bound_history (historyLimit s) (mk_entry <$> values) in
  let currentEntry :=
    match last entries with
    | Some e => if equal (e_value e) cur then e else mk_entry cur
    | None => mk_entry cur
    end in
  mkStore (historyLimit s) currentEntry entries (subscribers s) (nextID s).

(** The index of the last history entry with the cursor. *)
Fixpoint last_index (after : string) (l : list entry) : option nat :=
  match l with
  | [] => None
  | e :: rest =>
    match last_index after rest with
    | Some i => Some (S i)
    | None => if e_cursor e =?s after then Some 0%nat else None
    end
  end.

Definition replayAfterLocked (after : string) (s : Store) : list entry * bool * entry :=
  if (after =?s "") || (historyLimit s =? 0) then ([current s], false, current s)
  else
    match last_index after (history s) with
    | None => ([current s], false, current s)
    | Some i => (drop (S i) (history s), true, current s)
    end.

(** [Open]: the cursor arrives trimmed. The replay and the registration of the
    channel are one critical section. *)
Definition Open (o : OpenOptions) (s : Store) : Stream * Store :=
  let '(replayEntries, compareCurrent, cur) := replayAfterLocked (TrimSpace (After o)) s in
  let differs :=
    match last replayEntries with
    | None => true
    | Some e => negb (equal (e_value e) (e_value cur))
    end in
  let replay := if compareCurrent && differs then replayEntries ++ [cur] else replayEntries in
  let id := wrap_uint64 (nextID s + 1) in
  if Follow o then
    (mkStream (e_value <$> replay) 0 true id false,
     mkStore (historyLimit s) (current s) (history s) (<[id := []]> (subscribers s)) id)
  else (mkStream (e_value <$> replay) 0 false 0 false, s).

Definition Close (st : Stream) (s : Store) : Stream * Store :=
  if st_done st then (st, s)
  else
    (mkStream (st_replay st) (st_index st) (st_follow st) (st_id st) true,
     if st_follow st then
       mkStore (historyLimit s) (current s) (history s)
         (delete (st_id st) (subscribers s)) (nextID s)
     else s).

(** One poll of [Next] without cancellation: a replayed or received value, the
    end of the stream, or nothing to read yet ([None]: the call blocks). The
    channel of a live stream is its entry of [subscribers]. *)
Inductive NextResult := Value (v : T) | End | Blocked.

Definition Next (st : Stream) (s : Store) : NextResult * Stream * Store :=
  if st_done st then (End, st, s)
  else
    match st_replay st !! st_index st with
    | Some v =>
      (Value v, mkStream (st_replay st) (S (st_index st)) (st_follow st) (st_id st) false, s)
    | None =>
      if negb (st_follow st) then let '(st', s') := Close st s in (End, st', s')
      else
        match subscribers s !! st_id st with
        | Some (e :: rest) =>
          (Value (e_value e), st,
           mkStore (historyLimit s) (current s) (history s)
             (<[st_id st := rest]> (subscribers s)) (nextID s))
        | _ => (Blocked, st, s)
        end
    end.

(** The channel operations: a non-blocking send and a non-blocking receive. *)
Definition try_send (e : entry) (ch : list entry) : option (list entry) :=
  if bool_decide (length ch < subscriberBuffer)%nat then Some (ch ++ [e]) else None.

Definition try_recv (ch : list entry) : option (list entry) :=
  match ch with
  | [] => None
  | _ :: rest => Some rest
  end.

(** [publishLatest] and [replacePending] when no receive interleaves. *)
Definition publishLatest (ch : list entry) (e : entry) : list entry :=
  match try_send e ch with
  | Some ch' => ch'
  | None =>
    let ch1 := default ch (try_recv ch) in
    default ch1 (try_send e ch1)
  end.

Definition replacePending (ch : list entry) (e : entry) : list entry :=
  default [] (try_send e []).

(** ** Interleavings

    At most one publication is in flight ([publishMu]); it holds the channels
    registered when it left the critical section, each at its next channel
    operation. [sys_seen] is the last value each live consumer has got, from
    its replay first and its channel afterwards. *)

Inductive phase := Send1 | Drop | Send2 | Drain | SendFinal.

Record System := mkSystem {
  sys_store : Store;
  sys_seen : gmap Z T;
  sys_inflight : option (entry * list (Z * phase));
}.

Definition set_channel (id : Z) (ch : list entry) (s : Store) : Store :=
  mkStore (historyLimit s) (current s) (history s)
    (<[id := ch]> (subscribers s)) (nextID s).

(** One channel operation of a publication on the channel of [id]: the new
    contents and the next operation, [None] when the delivery is over. *)
Definition deliver_op (e : entry) (p : phase) (ch : list entry) :
    list entry * option phase :=
  match p with
  | Send1 =>
    match try_send e ch with
    | Some ch' => (ch', None)
    | None => (ch, Some Drop)
    end
  | Drop => (default ch (try_recv ch), Some Send2)
  | Send2 => (default ch (try_send e ch), None)
  | Drain =>
    match try_recv ch with
    | Some ch' => (ch', Some Drain)
    | None => (ch, Some SendFinal)
    end
  | SendFinal => (default ch (try_send e ch), None)
  end.

(** Every registered channel with its first operation. *)
Definition targets (p : phase) (s : Store) : list (Z * phase) :=
  (fun id => (id, p)) <$> elements (dom (subscribers s)).

Definition next_delivery (id : Z) (p : option phase) (rest : list (Z * phase)) :
    list (Z * phase) :=
  match p with
  | Some p => (id, p) :: rest
  | None => rest
  end.

Inductive step : System -> System -> Prop :=
| step_publish s seen next record :
    step (mkSystem s seen None)
      (mkSystem (publish_store next record s) seen
         (Some (mk_entry next, targets Send1 s)))
| step_replace s seen cur values :
    let s' := replace_store cur values s in
    step (mkSystem s seen None)
      (mkSystem s' seen (Some (current s', targets Drain s)))
| step_deliver s seen e id p rest ch ch' p' :
    subscribers s !! id = Some ch ->
    deliver_op e p ch = (ch', p') ->
    step (mkSystem s seen (Some (e, (id, p) :: rest)))
      (mkSystem (set_channel id ch' s) seen (Some (e, next_delivery id p' rest)))
| step_deliver_closed s seen e id p rest :
    subscribers s !! id = None ->
    step (mkSystem s seen (Some (e, (id, p) :: rest)))
      (mkSystem s seen (Some (e, rest)))
| step_published s seen e :
    step (mkSystem s seen (Some (e, []))) (mkSystem s seen None)
| step_open s seen inflight after st s' v :
    Open (mkOpenOptions after true) s = (st, s') ->
    last (st_replay st) = Some v ->
    (* fewer than 2^64 streams are opened *)
    nextID s + 1 < 2 ^ 64 ->
    step (mkSystem s seen inflight) (mkSystem s' (<[st_id st := v]> seen) inflight)
| step_receive s seen inflight id e rest :
    subscribers s !! id = Some (e :: rest) ->
    step (mkSystem s seen inflight)
      (mkSystem (set_channel id rest s) (<[id := e_value e]> seen) inflight)
| step_close s seen inflight st st' s' :
    Close st s = (st', s') ->
    step (mkSystem s seen inflight) (mkSystem s' seen inflight).

(** ** Invariant *)

(** What a consumer will have seen once it has drained its channel. *)
Definition view (ch : list entry) (seen : T) : T :=
  match last ch with
  | Some e => e_value e
  | None => seen
  end.

Definition up_to_date (s : Store) (v : T) : Prop :=
  v = e_value (current s) \/ equal v (e_value (current s)) = true.

Definition phase_ok (p : phase) (ch : list entry) : Prop :=
  match p with
  | Send2 => (length ch < subscriberBuffer)%nat
  | SendFinal => ch = []
  | _ => True
  end.

Definition pending (inflight : option (entry * list (Z * phase))) : list (Z * phase) :=
  match inflight with
  | Some (_, l) => l
  | None => []
  end.

(** A subscriber with no delivery outstanding is up to date; one with a
    delivery outstanding is ready for its next operation. *)
Definition subscriber_ok (sys : System) (id : Z) (ch : list entry) : Prop :=
  (length ch <= subscriberBuffer)%nat /\
  (forall p, (id, p) ∈ pending (sys_inflight sys) -> phase_ok p ch) /\
  exists v, sys_seen sys !! id = Some v /\
    (id ∉ (pending (sys_inflight sys)).*1 -> up_to_date (sys_store sys) (view ch v)).

Definition system_ok (sys : System) : Prop :=
  0 <= nextID (sys_store sys) /\
  (forall id, nextID (sys_store sys) < id -> subscribers (sys_store sys) !! id = None) /\
  (forall id ch, subscribers (sys_store sys) !! id = Some ch -> subscriber_ok sys id ch) /\
  (forall e l, sys_inflight sys = Some (e, l) ->
     e = current (sys_store sys) /\ NoDup l.*1 /\
     forall id p, (id, p) ∈ l -> id <= nextID (sys_store sys)).

Definition history_bounded (s : Store) : Prop :=
  Z.of_nat (length (history s)) <= historyLimit s.

(** ** Lemmas *)

Lemma deliver_op_ok e p ch ch' p' :
  (length ch <= subscriberBuffer)%nat -> phase_ok p ch ->
  deliver_op e p ch = (ch', p') ->
  (length ch' <= subscriberBuffer)%nat /\
  match p' with
  | Some q => phase_ok q ch'
  | None => last ch' = Some e
  end.
Proof.
  intros Hlen Hp H. destruct p; simpl in *; unfold try_send, subscriberBuffer in *;
    try case_bool_decide; simplify_eq/=; rewrite ?length_app, ?last_snoc; simpl; try lia;
    try (split; [lia|done]).
  - destruct ch; simpl in *; unfold subscriberBuffer; lia.
  - destruct ch; simplify_eq/=; unfold subscriberBuffer; split; (lia || done).
Qed.

Lemma last_index_lookup after l i :
  last_index after l = Some i -> exists e, l !! i = Some e /\ e_cursor e = after.
Proof.
  revert i. induction l as [|e l IH]; intros i H; simpl in H; [done|].
  destruct (last_index after l) as [j|].
  - simplify_eq. by apply IH.
  - case_bool_decide; simplify_eq. by exists e.
Qed.

(** A replay is never empty and ends with a value up to date with the store. *)
Lemma open_replay_up_to_date o s st s' :
  Open o s = (st, s') -> exists v, last (st_replay st) = Some v /\ up_to_date s v.
Proof.
  unfold Open. intros H.
  destruct (replayAfterLocked (TrimSpace (After o)) s) as [[replay cmp] cur] eqn:Hr.
  assert (cur = current s /\ (cmp = false -> replay = [current s])) as [-> Hcmp].
  { unfold replayAfterLocked in Hr. repeat case_match; by simplify_eq. }
  set (r := if cmp && _ then _ else _) in H.
  assert (exists e, last r = Some e /\ up_to_date s (e_value e)) as (e & He & Hup).
  { subst r. destruct cmp; simpl.
    - destruct (last replay) as [e|] eqn:Hl.
      + destruct (equal (e_value e) (e_value (current s))) eqn:Heq; simpl.
        * exists e. split; [done|]. by right.
        * exists (current s). rewrite last_snoc. split; [done|]. by left.
      + exists (current s). rewrite last_snoc. split; [done|]. by left.
    - rewrite Hcmp by done. exists (current s). split; [done|]. by left. }
  exists (e_value e). split; [|done].
  destruct (Follow o); simplify_eq; simpl; by rewrite fmap_last, He.
Qed.

Lemma open_store o s st s' : Open o s = (st, s') ->
  current s' = current s /\ history s' = history s /\ historyLimit s' = historyLimit s.
Proof. unfold Open. intros H. repeat case_match; by simplify_eq. Qed.

Lemma open_follow after s st s' :
  Open (mkOpenOptions after true) s = (st, s') ->
  st_id st = wrap_uint64 (nextID s + 1) /\ nextID s' = wrap_uint64 (nextID s + 1) /\
  subscribers s' = <[wrap_uint64 (nextID s + 1) := []]> (subscribers s).
Proof. unfold Open. intros H. repeat case_match; by simplify_eq. Qed.

Lemma targets_keys p s id : id ∈ (targets p s).*1 <-> is_Some (subscribers s !! id).
Proof.
  unfold targets. rewrite <- list_fmap_compose. simpl.
  rewrite list_fmap_id, elem_of_elements, elem_of_dom. done.
Qed.

Lemma targets_nodup p s : NoDup (targets p s).*1.
Proof.
  unfold targets. rewrite <- list_fmap_compose. simpl.
  rewrite list_fmap_id. apply NoDup_elements.
Qed.

Lemma targets_phase p q s id : (id, q) ∈ targets p s -> q = p.
Proof. unfold targets. intros H. apply list_elem_of_fmap in H. naive_solver. Qed.

Lemma key_of_pending {B} (l : list (Z * B)) id p : (id, p) ∈ l -> id ∈ l.*1.
Proof. intros H. apply list_elem_of_fmap. by exists (id, p). Qed.

(** Opening a publication: the store's fields change, every subscriber gets a
    delivery. *)
Lemma begin_ok p s s' seen :
  (p = Send1 \/ p = Drain) -> subscribers s' = subscribers s -> nextID s' = nextID s ->
  system_ok (mkSystem s seen None) ->
  system_ok (mkSystem s' seen (Some (current s', targets p s))).
Proof.
  intros Hp Hsub Hid (Hpos & Hfresh & Hok & _). unfold system_ok. simpl in *.
  rewrite Hsub, Hid. split_and!; try done.
  - intros id ch Hch. destruct (Hok id ch Hch) as (Hlen & _ & v & Hv & _). split_and!; [done| |].
    + intros q Hq. simpl in Hq. apply targets_phase in Hq as ->. by destruct Hp as [-> | ->].
    + exists v. split; [done|]. intros Hnin. destruct Hnin. simpl. apply targets_keys. by exists ch.
  - intros e l [= <- <-]. split_and!; [done|apply targets_nodup|].
    intros id q Hq%key_of_pending%targets_keys. destruct (decide (id <= nextID s)); [done|].
    destruct Hq as [ch Hch]. rewrite Hfresh in Hch; [done|lia].
Qed.

Lemma set_channel_subscribers id ch s id' :
  subscribers (set_channel id ch s) !! id' =
  if decide (id = id') then Some ch else subscribers s !! id'.
Proof. unfold set_channel. simpl. apply lookup_insert. Qed.

Lemma deliver_ok s seen e id p rest ch ch' p' :
  subscribers s !! id = Some ch -> deliver_op e p ch = (ch', p') ->
  system_ok (mkSystem s seen (Some (e, (id, p) :: rest))) ->
  system_ok (mkSystem (set_channel id ch' s) seen (Some (e, next_delivery id p' rest))).
Proof.
  intros Hch Hop (Hpos & Hfresh & Hok & Hin). simpl in *.
  destruct (Hin _ _ eq_refl) as (He & Hnd & Hle). simpl in Hnd.
  apply NoDup_cons in Hnd as [Hnotin Hnd].
  assert (forall id', id' <> id ->
    (id' ∈ (next_delivery id p' rest).*1 <-> id' ∈ id :: rest.*1) /\
    forall q, (id', q) ∈ next_delivery id p' rest -> (id', q) ∈ (id, p) :: rest) as Hother.
  { intros id' Hne. destruct p'; simpl; set_solver. }
  destruct (Hok id ch Hch) as (Hlen & Hph & v & Hv & _). simpl in *.
  destruct (deliver_op_ok e p ch ch' p' Hlen) as [Hlen' Hp']; [apply Hph; by left|done|].
  unfold system_ok. simpl. split_and!; [done| | |].
  - intros id' Hlt. rewrite lookup_insert_ne; [by apply Hfresh|].
    intros <-. rewrite (Hfresh id Hlt) in Hch. done.
  - intros id' ch2. rewrite lookup_insert. case_decide as Hid.
    + intros [= <-]. subst id'. split_and!; simpl; [done| |].
      * intros q Hq. destruct p' as [p'|]; simpl in Hq.
        -- apply elem_of_cons in Hq as [[= ->]|Hq%key_of_pending]; [done|contradiction].
        -- apply key_of_pending in Hq. contradiction.
      * exists v. split; [done|]. intros Hnin. destruct p' as [p'|]; simpl in Hnin; [set_solver|].
        unfold view. rewrite Hp', He. by left.
    + intros Hch2. destruct (Hok id' ch2 Hch2) as (? & Hph2 & v2 & Hv2 & Hup). simpl in *.
      destruct (Hother id') as [Hiff Hincl]; [done|]. split_and!; simpl; [done| |].
      * intros q Hq. apply Hph2. by apply Hincl.
      * exists v2. split; [done|]. intros Hnin. apply Hup. by rewrite <- Hiff.
  - intros e2 l [= <- <-]. split_and!; [done| |].
    + destruct p'; simpl; [by constructor|done].
    + intros id' q Hq. destruct (decide (id' = id)) as [->|Hne].
      * apply (Hle id p). by left.
      * apply (Hle id' q). by apply (proj2 (Hother id' Hne)).
Qed.

Lemma deliver_closed_ok s seen e id p rest :
  subscribers s !! id = None ->
  system_ok (mkSystem s seen (Some (e, (id, p) :: rest))) ->
  system_ok (mkSystem s seen (Some (e, rest))).
Proof.
  intros Hch (Hpos & Hfresh & Hok & Hin). unfold system_ok. simpl in *.
  destruct (Hin _ _ eq_refl) as (He & Hnd & Hle). simpl in Hnd.
  apply NoDup_cons in Hnd as [Hnotin Hnd].
  split_and!; [done|done| |].
  - intros id' ch' Hch'. destruct (Hok id' ch' Hch') as (? & Hph & v & Hv & Hup). simpl in *.
    assert (id' <> id) as Hne by congruence.
    split_and!; simpl; [done| |].
    + intros q Hq. apply Hph. by right.
    + exists v. split; [done|]. intros Hnin. apply Hup. set_solver.
  - intros e2 l [= <- <-]. split_and!; [done..|]. intros id' q Hq. apply (Hle id' q). by right.
Qed.

Lemma published_ok s seen e :
  system_ok (mkSystem s seen (Some (e, []))) -> system_ok (mkSystem s seen None).
Proof. intros (? & ? & Hok & _). by split_and!. Qed.

Lemma open_ok s seen inflight after st s' v :
  Open (mkOpenOptions after true) s = (st, s') -> last (st_replay st) = Some v ->
  nextID s + 1 < 2 ^ 64 ->
  system_ok (mkSystem s seen inflight) ->
  system_ok (mkSystem s' (<[st_id st := v]> seen) inflight).
Proof.
  intros Ho Hl Hlt (Hpos & Hfresh & Hok & Hin). simpl in *.
  destruct (open_store _ _ _ _ Ho) as (Hcur & _).
  destruct (open_follow _ _ _ _ Ho) as (Hid & Hnext & Hsub).
  rewrite wrap_uint64_small in * by lia.
  destruct (open_replay_up_to_date _ _ _ _ Ho) as (v' & Hl' & Hup).
  assert (v' = v) as -> by congruence.
  unfold system_ok. simpl. rewrite Hnext, Hsub, Hid. split_and!; [lia| | |].
  - intros id Hid'. rewrite lookup_insert_ne by lia. apply Hfresh. lia.
  - intros id ch. rewrite lookup_insert. case_decide as Heq.
    + intros [= <-]. subst id. split_and!; simpl; [lia| |].
      * intros p Hp. destruct inflight as [[e l]|]; simpl in Hp; [|set_solver].
        destruct (Hin _ _ eq_refl) as (_ & _ & Hle). specialize (Hle _ _ Hp). lia.
      * exists v. rewrite lookup_insert_eq. split; [done|]. intros _.
        unfold view, up_to_date. simpl. rewrite Hcur. exact Hup.
    + intros Hch. destruct (Hok id ch Hch) as (? & Hph & v2 & Hv2 & Hup2). split_and!; [done..|].
      exists v2. simpl in *. rewrite lookup_insert_ne by done. split; [done|].
      unfold up_to_date. by rewrite Hcur.
  - intros e l Hel. rewrite Hcur. destruct (Hin e l Hel) as (? & ? & Hle). split_and!; [done..|].
    intros id p Hp. specialize (Hle id p Hp). lia.
Qed.

Lemma receive_ok s seen inflight id e rest :
  subscribers s !! id = Some (e :: rest) ->
  system_ok (mkSystem s seen inflight) ->
  system_ok (mkSystem (set_channel id rest s) (<[id := e_value e]> seen) inflight).
Proof.
  intros Hch (Hpos & Hfresh & Hok & Hin). unfold system_ok. simpl in *. split_and!; [done| | |done].
  - intros id' Hlt. rewrite lookup_insert_ne; [by apply Hfresh|].
    intros <-. rewrite (Hfresh id Hlt) in Hch. done.
  - intros id' ch. rewrite lookup_insert. case_decide as Heq.
    + intros [= <-]. subst id'. destruct (Hok id _ Hch) as (Hlen & Hph & v & Hv & Hup). simpl in *.
      split_and!; simpl; [lia| |].
      * intros p Hp. specialize (Hph p Hp). destruct p; simpl in *; [done..|lia|done|done].
      * exists (e_value e). rewrite lookup_insert_eq. split; [done|]. intros Hnin.
        specialize (Hup Hnin). unfold view in *. rewrite last_cons in Hup.
        by destruct (last rest).
    + intros Hch2. destruct (Hok id' ch Hch2) as (? & ? & v2 & Hv2 & ?). split_and!; [done..|].
      exists v2. simpl in *. by rewrite lookup_insert_ne.
Qed.

Lemma close_ok s seen inflight st st' s' :
  Close st s = (st', s') ->
  system_ok (mkSystem s seen inflight) -> system_ok (mkSystem s' seen inflight).
Proof.
  intros Hc (Hpos & Hfresh & Hok & Hin). unfold Close in Hc.
  repeat case_match; simplify_eq; [done| |done].
  unfold system_ok. simpl in *. split_and!; [done| | |done].
  - intros id Hlt. apply lookup_delete_None. right. by apply Hfresh.
  - intros id ch [Hne Hch]%lookup_delete_Some. by apply Hok.
Qed.

Lemma step_ok s1 s2 : system_ok s1 -> step s1 s2 -> system_ok s2.
Proof.
  intros Hinv Hstep. destruct Hstep as
    [s seen next record|s seen cur values s'|s seen e id p rest ch ch' p' Hch Hop
    |s seen e id p rest Hch|s seen e|s seen inflight after st s' v Ho Hl Hlt
    |s seen inflight id e rest Hch|s seen inflight st st' s' Hc].
  - by apply (begin_ok Send1 s (publish_store next record s)); [left|..].
  - by apply (begin_ok Drain s s'); [right|..].
  - by eapply deliver_ok.
  - by eapply deliver_closed_ok.
  - by eapply published_ok.
  - by eapply open_ok.
  - by eapply receive_ok.
  - by eapply close_ok.
Qed.

Lemma new_ok initial o s : New initial o = Some s -> system_ok (mkSystem s ∅ None).
Proof.
  unfold New. intros H. case_match; simplify_eq. unfold system_ok. simpl.
  split_and!; [lia|done|intros id ch Hch; by rewrite lookup_empty in Hch|done].
Qed.

(** *** The replay window *)

Lemma bound_history_last_n limit l : 0 <= limit ->
  bound_history limit l = last_n (Z.to_nat limit) l.
Proof.
  intros Hpos. unfold bound_history, last_n. case_match eqn:E; [done|]. to_prop.
  by replace (length l - Z.to_nat limit)%nat with 0%nat by lia.
Qed.

Lemma last_n_snoc {A} k (l : list A) x :
  last_n (S k) (last_n (S k) l ++ [x]) = last_n (S k) (l ++ [x]).
Proof.
  unfold last_n. rewrite !length_app, length_drop. simpl.
  rewrite !drop_app_le by (rewrite ?length_drop; lia).
  rewrite drop_drop. do 2 f_equal. lia.
Qed.

Lemma last_n_length {A} k (l : list A) : (length (last_n k l) <= k)%nat.
Proof. unfold last_n. rewrite length_drop. lia. Qed.

Definition publish_all (vs : list T) (s : Store) : Store :=
  fold_left (fun s v => publish_store v true s) vs s.

Lemma publish_all_history vs : forall s, 0 < historyLimit s -> history_bounded s ->
  history (publish_all vs s) =
    last_n (Z.to_nat (historyLimit s)) (history s ++ (mk_entry <$> vs)) /\
  historyLimit (publish_all vs s) = historyLimit s /\
  subscribers (publish_all vs s) = subscribers s /\
  current (publish_all vs s) = default (current s) (last (mk_entry <$> vs)).
Proof.
  unfold history_bounded. induction vs as [|v vs IH] using rev_ind; intros s Hpos Hb; simpl.
  - rewrite app_nil_r. split_and!; try done. unfold last_n.
    by replace (length (history s) - Z.to_nat (historyLimit s))%nat with 0%nat by lia.
  - unfold publish_all in *. rewrite fold_left_app. simpl.
    destruct (IH s Hpos Hb) as (Hh & Hl & Hs & Hc).
    set (s1 := fold_left _ vs s) in *. rewrite Hl, fmap_app. cbn [fmap list_fmap].
    rewrite last_snoc.
    rewrite (proj2 (Z.ltb_lt 0 _) Hpos). simpl. split_and!; try done.
    rewrite bound_history_last_n by lia. rewrite Hh, app_assoc.
    destruct (Z.to_nat (historyLimit s)) eqn:E; [lia|]. apply last_n_snoc.
Qed.

Lemma last_index_app after l1 l2 :
  Forall (fun e => e_cursor e <> after) l2 -> last_index after (l1 ++ l2) = last_index after l1.
Proof.
  intros H. induction l1 as [|e l1 IH]; simpl.
  - induction H as [|e l2 He _ IH]; simpl; [done|]. rewrite IH.
    by rewrite bool_decide_eq_false_2.
  - by rewrite IH.
Qed.

Lemma last_index_snoc l e : last_index (e_cursor e) (l ++ [e]) = Some (length l).
Proof.
  induction l as [|e' l IH]; simpl; [by rewrite bool_decide_eq_true_2|]. by rewrite IH.
Qed.

Lemma last_n_app_last {A} k (l1 l2 : list A) x : (length l2 < k)%nat ->
  exists l0, last_n k ((l1 ++ [x]) ++ l2) = (l0 ++ [x]) ++ l2.
Proof.
  intros Hlt. unfold last_n. rewrite !length_app. simpl.
  exists (drop (length l1 + 1 + length l2 - k) l1).
  rewrite drop_app_le by (rewrite length_app; simpl; lia).
  by rewrite drop_app_le by lia.
Qed.

Lemma history_bounded_step s1 s2 :
  0 <= historyLimit (sys_store s1) /\ history_bounded (sys_store s1) -> step s1 s2 ->
  0 <= historyLimit (sys_store s2) /\ history_bounded (sys_store s2).
Proof.
  unfold history_bounded. intros [Hpos Hb] Hstep. destruct Hstep; simpl in *; try done.
  - split; [done|]. destruct (_ && _); [|done].
    rewrite bound_history_last_n by done. pose proof (last_n_length (Z.to_nat (historyLimit s)) (history s ++ [mk_entry next])). lia.
  - split; [done|]. destruct (_ =? _); [simpl; lia|].
    rewrite bound_history_last_n by done. pose proof (last_n_length (Z.to_nat (historyLimit s)) (mk_entry <$> values)). lia.
  - match goal with H : Open _ _ = _ |- _ => apply open_store in H as (_ & -> & ->) end. done.
  - match goal with H : Close _ _ = _ |- _ => unfold Close in H end. by repeat case_match; simplify_eq.
Qed.

(** ** Properties *)

(** C26: no follower misses the last state. Whatever the interleaving of
    publications, replacements, subscriptions, receives and closes, when no
    publication is in flight every live subscriber holds at most 16 buffered
    values, and the last value it has seen or still has buffered is the store's
    current value (or one the store's [Equal] identifies with it): a slow
    consumer can lose intermediate values, never the final one. *)
Theorem no_lost_update initial o s0 s seen id ch :
  New initial o = Some s0 ->
  runs step (mkSystem s0 ∅ None) (mkSystem s seen None) ->
  subscribers s !! id = Some ch ->
  (length ch <= subscriberBuffer)%nat /\
  exists v, seen !! id = Some v /\ up_to_date s (view ch v).
Proof.
  intros Hnew Hruns Hch. apply new_ok in Hnew.
  assert (system_ok (mkSystem s seen None)) as (_ & _ & Hok & _).
  { eapply runs_invariant; [|exact Hruns|exact Hnew]. apply step_ok. }
  destruct (Hok id ch Hch) as (Hlen & _ & v & Hv & Hup). split; [done|].
  exists v. split; [done|]. apply Hup. simpl. set_solver.
Qed.

(** A reconnecting client that still names the newest history entry resumes
    without a gap or a repetition. If fewer than [HistoryLimit] values, none
    with the client's (space-free) cursor, were recorded since, [Open] after that cursor
    replays exactly those values, in order. *)
Theorem resume_replays_exactly_missed s e vs :
  0 < historyLimit s -> history_bounded s ->
  last (history s) = Some e -> e_cursor e <> "" -> TrimSpace (e_cursor e) = e_cursor e ->
  (forall v, equal v v = true) ->
  Forall (fun v => cursorOf v <> e_cursor e) vs -> vs <> [] ->
  Z.of_nat (length vs) < historyLimit s ->
  st_replay (fst (Open (mkOpenOptions (e_cursor e) false) (publish_all vs s))) = vs.
Proof.
  intros Hpos Hb Hlast Hcur Htrim Hrefl Hfresh Hne Hlen.
  destruct (publish_all_history vs s Hpos Hb) as (Hh & Hl & _ & Hc).
  apply last_Some in Hlast as [l Hl0]. rewrite Hl0 in Hh.
  destruct (last_n_app_last (Z.to_nat (historyLimit s)) l (mk_entry <$> vs) e) as [l0 Hl1].
  { rewrite length_fmap. lia. }
  rewrite Hl1 in Hh. unfold Open, replayAfterLocked. cbn [After Follow]. rewrite Htrim.
  rewrite (bool_decide_eq_false_2 _ Hcur), Hl, Hh. simpl.
  rewrite (proj2 (Z.eqb_neq _ 0)) by lia.
  rewrite last_index_app, last_index_snoc
    by (apply Forall_fmap; eapply Forall_impl; [exact Hfresh|done]).
  assert (drop (S (length l0)) ((l0 ++ [e]) ++ (mk_entry <$> vs)) = mk_entry <$> vs) as ->.
  { apply drop_app_length'. rewrite length_app. simpl. lia. }
  destruct (last (mk_entry <$> vs)) as [e'|] eqn:Hlast'.
  - simpl in Hc. rewrite Hc, Hrefl. simpl. rewrite <- list_fmap_compose.
    apply list_fmap_id.
  - apply last_None in Hlast'. by destruct vs.
Qed.

(** The replay history never holds more than [HistoryLimit] entries, in any
    state an interleaving reaches. *)
Theorem history_never_exceeds_limit initial o s0 sys :
  New initial o = Some s0 -> runs step (mkSystem s0 ∅ None) sys ->
  history_bounded (sys_store sys).
Proof.
  intros Hnew Hruns.
  eapply (runs_invariant step (fun s => 0 <= historyLimit (sys_store s) /\ history_bounded (sys_store s)));
    [apply history_bounded_step|exact Hruns|].
  unfold New in Hnew. case_match; simplify_eq. to_prop. simpl. split; [done|].
  unfold history_bounded. simpl. case_match; to_prop; simpl; lia.
Qed.

End StatusStream.

(** ** Witnesses: three publications to one follower *)

Definition ex_cursor (v : string) : string := v.
Definition ex_equal (a b : string) : bool := bool_decide (a = b).
Definition ex_e (v : string) : entry := mkEntry v v.
Definition ex_store : Store :=
  mkStore 2 (ex_e "b") [ex_e "a"; ex_e "b"] {[1 := [ex_e "b"]]} 1.

Lemma ss_run : runs (step ex_cursor ex_equal)
  (mkSystem (mkStore 2 (ex_e "a") [ex_e "a"] ∅ 0) ∅ None)
  (mkSystem ex_store {[1 := "a"]} None).
Proof.
  eapply runs_step.
  { apply (step_open _ _ (mkStore 2 (ex_e "a") [ex_e "a"] ∅ 0) ∅ None ""
      (mkStream ["a"] 0 true 1 false) (mkStore 2 (ex_e "a") [ex_e "a"] {[1 := []]} 1) "a");
      [vm_compute; reflexivity..]. }
  eapply runs_step.
  { apply (step_publish _ _ (mkStore 2 (ex_e "a") [ex_e "a"] {[1 := []]} 1) _ "b" true). }
  eapply runs_step.
  { apply (step_deliver _ _ (mkStore 2 (ex_e "b") [ex_e "a"; ex_e "b"] {[1 := []]} 1) _ (ex_e "b")
      1 Send1 [] [] [ex_e "b"] None); vm_compute; reflexivity. }
  eapply runs_step; [apply step_published|apply runs_refl].
Qed.

Lemma no_lost_update_witness :
  exists v, view [ex_e "b"] "a" = v /\ up_to_date ex_equal ex_store v.
Proof.
  destruct (no_lost_update ex_cursor ex_equal "a" (mkOptions 2) _ ex_store {[1 := "a"]} 1 [ex_e "b"]
    eq_refl ss_run eq_refl) as (_ & v & Hv & Hup).
  exists "b". split; [reflexivity|]. injection Hv as <-. exact Hup.
Defined.

Lemma resume_replays_exactly_missed_witness :
  st_replay (fst (Open ex_equal (mkOpenOptions "b" false)
    (publish_all ex_cursor ["c"] ex_store))) = ["c"].
Proof.
  apply (resume_replays_exactly_missed ex_cursor ex_equal ex_store (ex_e "b") ["c"]).
  - reflexivity.
  - vm_compute. congruence.
  - reflexivity.
  - discriminate.
  - vm_compute. reflexivity.
  - intros v. by apply bool_decide_eq_true_2.
  - by repeat constructor.
  - discriminate.
  - reflexivity.
Defined.

Lemma history_never_exceeds_limit_witness : history_bounded ex_store.
Proof.
  exact (history_never_exceeds_limit ex_cursor ex_equal "a" (mkOptions 2) _
    (mkSystem ex_store {[1 := "a"]} None) eq_refl ss_run).
Defined.
