(* ===== verification/Llm.v ===== *)
(** * Canonical messages: [src/internal/foundation/llm]

    The transcript data of [types.go], the provider projection of [history.go]
    ([compactHistoryForProvider]) and the tool-protocol check of
    [transcript_validation.go]. A slice or map that the code compares with [nil]
    is an [option]; [elems] reads a nil slice as empty, as [range] does. *)

From S2P Require Import Prelude.

Local Open Scope Z_scope.
Local Open Scope juex_scope.

(** ** Data *)

(** What [encoding/json] produces for an [any]; numbers keep their text. *)
Inductive Json :=
| JNull
| JBool (b : bool)
| JNum (text : string)
| JStr (s : string)
| JArr (l : list Json)
| JObj (l : list (string * Json)).

Inductive Role :=
| RoleUser
| RoleAssistant
| RoleSystem
| RoleOther (name : string).

Inductive BlockType :=
| BlockText
| BlockImage
| BlockToolUse
| BlockToolResult
| BlockReasoning
| BlockOther (name : string).

#[export] Instance Role_eq_dec : EqDecision Role.
Proof. solve_decision. Defined.
#[export] Instance BlockType_eq_dec : EqDecision BlockType.
Proof. solve_decision. Defined.

Definition MessageKindDirect : string := "direct".
Definition MessageKindContinuation : string := "continuation".
Definition MessageKindToolResult : string := "tool_result".
Definition MessageKindMCPEvent : string := "mcp_event".
Definition MessageKindObservation : string := "observation".
Definition MessageKindWorkerThread : string := "worker_thread".
Definition MessageKindPolicyEvent : string := "policy_event".
Definition MessageKindCompact : string := "compact".
Definition MessageKindRuntimeContext : string := "runtime_context".
Definition MessageKindModelChange : string := "model_change".
Definition MessageKindSystemNotice : string := "system_notice".

Record ResultFact := mkResultFact { rf_Owner : string; rf_Data : string }.

Record MediaRef := mkMediaRef {
  md_ArtifactPath : string;
  md_MediaType : string;
  md_SHA256 : string;
  md_OriginalBytes : Z;
  md_Width : Z;
  md_Height : Z;
}.

Record ContextArtifactProjection := mkArtifact {
  ar_SourceKind : string;
  ar_MessageID : string;
  ar_ToolUseID : string;
  ar_ToolName : string;
  ar_OriginalBytes : Z;
  ar_StoredPath : string;
  ar_SHA256 : string;
  ar_HeadBytes : Z;
  ar_TailBytes : Z;
  ar_Truncated : bool;
}.

Record Block := mkBlock {
  b_Type : BlockType;
  b_Text : string;
  b_Media : option MediaRef;
  b_ToolUseID : string;
  b_ToolName : string;
  b_Input : option (list (string * Json));
  b_TimeoutSeconds : Z;
  b_Content : string;
  b_IsError : bool;
  b_Signature : string;
  b_Redacted : bool;
  b_Artifact : option ContextArtifactProjection;
  b_ResultFact : option ResultFact;
}.

Inductive Message := mkMessage {
  m_ID : string;
  m_Role : Role;
  m_Blocks : option (list Block);
  m_Kind : string;
  m_PolicyBlocked : bool;
  m_Model : string;
  m_Compaction : option CompactionMetadata;
}
with CompactionMetadata := mkCompaction {
  cm_Auto : bool;
  cm_Reason : string;
  cm_PreviousSummaryID : string;
  cm_FirstKeptMessageID : string;
  cm_TailStartMessageID : string;
  cm_RetainedMessageIDs : option (list string);
  cm_RetainedInputReferences : option (list Message);
  cm_TokensBefore : Z;
  cm_TokensAfter : Z;
  cm_SummaryChars : Z;
  cm_SummaryModel : string;
}.

(** [reflect.DeepEqual] of messages is equality of their values. *)
Fixpoint Json_eq_dec (a b : Json) {struct a} : Decision (a = b).
Proof.
  refine (match a, b with
  | JNull, JNull => left eq_refl
  | JBool x, JBool y => cast_if (decide (x = y))
  | JNum x, JNum y => cast_if (decide (x = y))
  | JStr x, JStr y => cast_if (decide (x = y))
  | JArr l, JArr m => cast_if (list_eq_dec (dec := Json_eq_dec) l m)
  | JObj l, JObj m =>
      cast_if (list_eq_dec (dec := prod_eq_dec (EqDecision1 := Json_eq_dec)) l m)
  | _, _ => right _
  end); clear Json_eq_dec; abstract congruence.
Defined.
#[export] Instance Json_EqDecision : EqDecision Json := Json_eq_dec.
#[export] Instance MediaRef_eq_dec : EqDecision MediaRef.
Proof. solve_decision. Defined.
#[export] Instance ResultFact_eq_dec : EqDecision ResultFact.
Proof. solve_decision. Defined.
#[export] Instance ContextArtifactProjection_eq_dec : EqDecision ContextArtifactProjection.
Proof. solve_decision. Defined.
#[export] Instance Block_eq_dec : EqDecision Block.
Proof. solve_decision. Defined.

Fixpoint Message_eq_dec (a b : Message) {struct a} : Decision (a = b)
with Compaction_eq_dec (a b : CompactionMetadata) {struct a} : Decision (a = b).
Proof.
- refine (match a, b with
  | mkMessage i r bs k p m c, mkMessage i' r' bs' k' p' m' c' =>
    cast_if_and (decide ((i, r, bs, k, p, m) = (i', r', bs', k', p', m')))
      (option_eq_dec (dec := Compaction_eq_dec) c c')
  end); clear Message_eq_dec Compaction_eq_dec; abstract congruence.
- refine (match a, b with
  | mkCompaction a1 a2 a3 a4 a5 a6 a7 a8 a9 a10 a11, mkCompaction b1 b2 b3 b4 b5 b6 b7 b8 b9 b10 b11 =>
    cast_if_and (decide ((a1,a2,a3,a4,a5,a6,a8,a9,a10,a11) = (b1,b2,b3,b4,b5,b6,b8,b9,b10,b11)))
      (option_eq_dec (dec := list_eq_dec (dec := Message_eq_dec)) a7 b7)
  end); clear Message_eq_dec Compaction_eq_dec; abstract congruence.
Defined.
#[export] Instance Message_EqDecision : EqDecision Message := Message_eq_dec.

(** A nil slice ranges as an empty one. *)
Definition elems {A} (s : option (list A)) : list A := default [] s.
Definition blocks (m : Message) : list Block := elems (m_Blocks m).

Definition with_ID (id : string) (m : Message) : Message :=
  mkMessage id (m_Role m) (m_Blocks m) (m_Kind m) (m_PolicyBlocked m) (m_Model m) (m_Compaction m).
Definition with_Kind (k : string) (m : Message) : Message :=
  mkMessage (m_ID m) (m_Role m) (m_Blocks m) k (m_PolicyBlocked m) (m_Model m) (m_Compaction m).
Definition with_Blocks (bs : list Block) (m : Message) : Message :=
  mkMessage (m_ID m) (m_Role m) (Some bs) (m_Kind m) (m_PolicyBlocked m) (m_Model m) (m_Compaction m).

Definition emptyBlock (t : BlockType) : Block :=
  mkBlock t "" None "" "" None 0 "" false "" false None None.
Definition textBlock (text : string) : Block :=
  mkBlock BlockText text None "" "" None 0 "" false "" false None None.

Definition TextMessage (role : Role) (text : string) : Message :=
  mkMessage "" role (Some [textBlock text]) "" false "" None.

Definition ClassifyUserMessage (m : Message) : Message :=
  if negb (bool_decide (m_Role m = RoleUser)) || (m_Kind m <>?s "") then m
  else if negb (Nat.eqb (length (blocks m)) 0) &&
          forallb (fun b => bool_decide (b_Type b = BlockToolResult)) (blocks m)
       then with_Kind MessageKindToolResult m
       else with_Kind MessageKindDirect m.

Fixpoint first_text (l : list Block) : string :=
  match l with
  | [] => ""
  | b :: r => if bool_decide (b_Type b = BlockText) then b_Text b else first_text r
  end.

Definition FirstText (m : Message) : string := first_text (blocks m).

Definition ToolCalls (m : Message) : list Block :=
  filter (fun b => b_Type b = BlockToolUse) (blocks m).

Record Usage := mkUsage {
  u_InputTokens : Z;
  u_OutputTokens : Z;
  u_CachedInputTokens : Z;
}.

#[export] Instance Usage_eq_dec : EqDecision Usage.
Proof. solve_decision. Defined.

Record ContextUsagePart := mkContextUsagePart {
  cup_Key : string;
  cup_Label : string;
  cup_Tokens : Z;
}.

Record ContextUsage := mkContextUsage {
  cu_Model : string;
  cu_ContextWindow : Z;
  cu_InputTokens : Z;
  cu_OutputTokens : Z;
  cu_CachedInputTokens : Z;
  cu_TotalTokens : Z;
  cu_Breakdown : list ContextUsagePart;
}.

Definition Usage_TotalTokens (u : Usage) : Z := wrap_int64 (u_InputTokens u + u_OutputTokens u).
Definition Usage_IsZero (u : Usage) : bool :=
  (u_InputTokens u =? 0) && (u_OutputTokens u =? 0) && (u_CachedInputTokens u =? 0).
Definition Usage_Add (u v : Usage) : Usage :=
  mkUsage (wrap_int64 (u_InputTokens u + u_InputTokens v))
    (wrap_int64 (u_OutputTokens u + u_OutputTokens v))
    (wrap_int64 (u_CachedInputTokens u + u_CachedInputTokens v)).
Definition CanonicalUsage (input output cached : Z) : Usage :=
  mkUsage (if input <? cached then cached else input) output cached.

(** ** Provider projection *)

Definition keepBlock (b : Block) : bool :=
  match b_Type b with
  | BlockText => b_Text b <>?s ""
  | BlockImage => true
  | BlockReasoning => negb ((b_Text b =?s "") && (b_Content b =?s ""))
  | BlockToolUse => negb ((b_ToolUseID b =?s "") || (b_ToolName b =?s ""))
  | BlockToolResult => b_ToolUseID b <>?s ""
  | BlockOther _ => false
  end.

Definition compactBlocksForProvider (l : list Block) : list Block :=
  filter (fun b => keepBlock b = true) l.

Definition providerMessagesMergeable (left right : Message) : bool :=
  bool_decide (m_Role left = m_Role right) && (m_Kind left =?s m_Kind right).

Definition compact_message (out : list Message) (m : Message) : list Message :=
  let bs := compactBlocksForProvider (blocks m) in
  match bs with
  | [] => out
  | _ =>
    match last out with
    | Some l =>
      if providerMessagesMergeable l m
      then removelast out ++ [with_Blocks (blocks l ++ bs) l]
      else out ++ [with_Blocks bs m]
    | None => out ++ [with_Blocks bs m]
    end
  end.

Definition compactHistoryForProvider (history : list Message) : list Message :=
  foldl compact_message [] history.

(** ** Tool transcript validation *)

Record pendingToolResult := mkPendingTool { pt_id : string; pt_name : string }.

Inductive TranscriptError :=
| MissingToolResult (pending : list pendingToolResult) (message block : Z)
| UnknownToolResult (id : string) (message block : Z).

Definition providerVisibleValidationBoundary (b : Block) : bool :=
  match b_Type b with
  | BlockText => b_Text b <>?s ""
  | BlockImage => true
  | BlockReasoning => (b_Text b <>?s "") || (b_Content b <>?s "")
  | BlockToolUse => b_ToolUseID b <>?s ""
  | _ => false
  end.

Fixpoint removePendingToolResult (pending : list pendingToolResult) (id : string) :
    option (list pendingToolResult) :=
  match pending with
  | [] => None
  | p :: r =>
    if pt_id p =?s id then Some r
    else match removePendingToolResult r id with
         | Some r' => Some (p :: r')
         | None => None
         end
  end.

(** The block loop of one message. *)
Fixpoint validate_blocks (pendingAtStart : bool) (msgIndex blockIndex : Z)
    (pending : list pendingToolResult) (l : list Block) :
    result TranscriptError (list pendingToolResult) :=
  match l with
  | [] => Ok pending
  | b :: r =>
    if pendingAtStart && negb (bool_decide (b_Type b = BlockToolResult)) &&
       negb (Nat.eqb (length pending) 0) && providerVisibleValidationBoundary b
    then Err (MissingToolResult pending msgIndex blockIndex)
    else
      match b_Type b with
      | BlockToolUse =>
        if b_ToolUseID b =?s "" then
          validate_blocks pendingAtStart msgIndex (blockIndex + 1) pending r
        else
          validate_blocks pendingAtStart msgIndex (blockIndex + 1)
            (pending ++ [mkPendingTool (b_ToolUseID b) (b_ToolName b)]) r
      | BlockToolResult =>
        if b_ToolUseID b =?s "" then
          validate_blocks pendingAtStart msgIndex (blockIndex + 1) pending r
        else
          match removePendingToolResult pending (b_ToolUseID b) with
          | Some pending' =>
            validate_blocks pendingAtStart msgIndex (blockIndex + 1) pending' r
          | None => Err (UnknownToolResult (b_ToolUseID b) msgIndex blockIndex)
          end
      | _ => validate_blocks pendingAtStart msgIndex (blockIndex + 1) pending r
      end
  end.

Fixpoint validate_messages (msgIndex : Z) (pending : list pendingToolResult)
    (history : list Message) : result TranscriptError (list pendingToolResult) :=
  match history with
  | [] => Ok pending
  | m :: r =>
    try pending' := validate_blocks (negb (Nat.eqb (length pending) 0)) msgIndex 0 pending (blocks m) in
    validate_messages (msgIndex + 1) pending' r
  end.

(** [ValidateToolTranscript]: [None] is the nil error. *)
Definition ValidateToolTranscript (history : list Message) : option TranscriptError :=
  match validate_messages 0 [] history with
  | Err e => Some e
  | Ok [] => None
  | Ok pending => Some (MissingToolResult pending (Z.of_nat (length history)) (-1))
  end.

(** ** Specification of the tool protocol *)

(** What a block adds to the number of open calls of an id. *)
Definition delta (id : string) (b : Block) : Z :=
  if (b_ToolUseID b =?s "") || (b_ToolUseID b <>?s id) then 0
  else match b_Type b with
       | BlockToolUse => 1
       | BlockToolResult => -1
       | _ => 0
       end.

Fixpoint open_calls (id : string) (l : list Block) : Z :=
  match l with
  | [] => 0
  | b :: r => delta id b + open_calls id r
  end.

Definition flat (history : list Message) : list Block := concat (map blocks history).

(** Starting with [f id] open calls: no result comes before its call and, when
    the message starts with open calls ([s]), nothing a provider would show
    comes before they are all answered. *)
Definition good_blocks (s : Prop) (f : string -> Z) (l : list Block) : Prop :=
  forall l1 b l2, l = l1 ++ b :: l2 ->
    (s -> providerVisibleValidationBoundary b = true ->
     forall id, f id + open_calls id l1 = 0) /\
    (forall id, 0 <= f id + open_calls id (l1 ++ [b])).

Definition good_history (f : string -> Z) (history : list Message) : Prop :=
  forall pre m post, history = pre ++ m :: post ->
    good_blocks (exists id, f id + open_calls id (flat pre) <> 0)
      (fun id => f id + open_calls id (flat pre)) (blocks m).

(** A transcript is balanced when every call is answered, by a later result,
    before normal conversation continues. *)
Definition balanced (history : list Message) : Prop :=
  good_history (fun _ => 0) history /\ forall id, open_calls id (flat history) = 0.

(** ** Lemmas *)

Lemma open_calls_app id l r : open_calls id (l ++ r) = open_calls id l + open_calls id r.
Proof. induction l; simpl; lia. Qed.

Lemma flat_app h1 h2 : flat (h1 ++ h2) = flat h1 ++ flat h2.
Proof. unfold flat. by rewrite map_app, concat_app. Qed.

Lemma flat_singleton m : flat [m] = blocks m.
Proof. apply app_nil_r. Qed.

Lemma blocks_with bs m : blocks (with_Blocks bs m) = bs.
Proof. done. Qed.

Lemma good_blocks_cons s f b r :
  good_blocks s f (b :: r) <->
  (s -> providerVisibleValidationBoundary b = true -> forall id, f id = 0) /\
  (forall id, 0 <= f id + delta id b) /\
  good_blocks s (fun id => f id + delta id b) r.
Proof.
  split.
  - intros H. split_and!.
    + intros Hs Hb id. destruct (H [] b r eq_refl) as [H1 _].
      specialize (H1 Hs Hb id). simpl in H1. lia.
    + intros id. destruct (H [] b r eq_refl) as [_ H2]. specialize (H2 id). simpl in H2. lia.
    + intros l1 c l2 ->. destruct (H (b :: l1) c l2 eq_refl) as [H1 H2]. split.
      * intros Hs Hc id. specialize (H1 Hs Hc id). simpl in H1. lia.
      * intros id. specialize (H2 id). simpl in H2. lia.
  - intros (H1 & H2 & H3) [|c l1] c' l2 E; simplify_eq/=.
    + split; [intros Hs Hb id; specialize (H1 Hs Hb id); lia|].
      intros id. specialize (H2 id). lia.
    + destruct (H3 l1 c' l2 eq_refl) as [H4 H5]. split.
      * intros Hs Hc id. specialize (H4 Hs Hc id). lia.
      * intros id. specialize (H5 id). lia.
Qed.

Lemma good_blocks_ext (s s' : Prop) f g l : (s <-> s') -> (forall id, f id = g id) ->
  good_blocks s f l <-> good_blocks s' g l.
Proof.
  intros Hs Hfg. unfold good_blocks.
  split; intros H l1 b l2 E; destruct (H l1 b l2 E) as [H1 H2]; split;
    intros; (rewrite Hfg || rewrite <- Hfg); [apply H1; tauto | apply H2 | apply H1; tauto | apply H2].
Qed.

Lemma good_history_cons f m r :
  good_history f (m :: r) <->
  good_blocks (exists id, f id <> 0) f (blocks m) /\
  good_history (fun id => f id + open_calls id (blocks m)) r.
Proof.
  split.
  - intros H. split.
    + specialize (H [] m r eq_refl). simpl in H.
      eapply good_blocks_ext; [..|exact H]; simpl; [|intros; lia].
      split; intros [id Hid]; exists id; lia.
    + intros pre c post ->. specialize (H (m :: pre) c post eq_refl).
      eapply good_blocks_ext; [..|exact H]; simpl; unfold flat; simpl.
      * split; intros [id Hid]; exists id; rewrite open_calls_app in *; lia.
      * intros. rewrite open_calls_app. lia.
  - intros [H1 H2] [|c pre] c' post E; simplify_eq/=.
    + eapply good_blocks_ext; [..|exact H1]; simpl; [|intros; lia].
      split; intros [id Hid]; exists id; lia.
    + specialize (H2 pre c' post eq_refl).
      eapply good_blocks_ext; [..|exact H2]; simpl; unfold flat; simpl.
      * split; intros [id Hid]; exists id; rewrite open_calls_app in *; lia.
      * intros. rewrite open_calls_app. lia.
Qed.

Lemma good_history_ext f g h : (forall id, f id = g id) -> good_history f h <-> good_history g h.
Proof.
  intros Hfg. unfold good_history. split; intros H pre m post E;
    (eapply good_blocks_ext; [..|exact (H pre m post E)]); simpl;
    (intros; rewrite ?Hfg; done) ||
    (split; intros [id Hid]; exists id; rewrite ?Hfg in *; done).
Qed.

(** The pending list represents the open-call counts. *)
Definition pending_count (P : list pendingToolResult) (id : string) : Z :=
  Z.of_nat (length (filter (fun p => pt_id p = id) P)).

Definition represents (P : list pendingToolResult) (f : string -> Z) : Prop :=
  forall id, pending_count P id = f id.

Lemma pending_count_nonneg P id : 0 <= pending_count P id.
Proof. unfold pending_count. lia. Qed.

Lemma pending_count_snoc P p id :
  pending_count (P ++ [p]) id = pending_count P id + (if pt_id p =?s id then 1 else 0).
Proof.
  unfold pending_count. rewrite filter_app, length_app, filter_cons, filter_nil.
  case_decide; [rewrite bool_decide_eq_true_2 by done | rewrite bool_decide_eq_false_2 by done];
    simpl; lia.
Qed.

Lemma removePending_spec P id :
  match removePendingToolResult P id with
  | Some P' => forall k, pending_count P' k = pending_count P k - (if id =?s k then 1 else 0)
  | None => pending_count P id = 0
  end.
Proof.
  induction P as [|p P IH]; simpl; [done|].
  case_bool_decide as Hp.
  - intros k. unfold pending_count. rewrite filter_cons. case_decide as Hk; case_bool_decide;
      simpl; first [congruence | lia].
  - destruct (removePendingToolResult P id) as [P'|].
    + intros k. specialize (IH k). unfold pending_count in *. rewrite !filter_cons.
      revert IH. case_decide; rewrite ?length_cons; case_bool_decide; lia.
    + unfold pending_count in *. rewrite filter_cons, decide_False by done. done.
Qed.

Lemma pending_nil_iff P f : represents P f -> P = [] <-> (forall id, f id = 0).
Proof.
  intros HP. split.
  - intros -> id. by rewrite <- HP.
  - intros H. destruct P as [|p P]; [done|]. specialize (H (pt_id p)). rewrite <- HP in H.
    unfold pending_count in H. rewrite filter_cons, decide_True in H by done. simpl in H. lia.
Qed.

Lemma represents_delta_other P f b :
  represents P f -> (forall id, delta id b = 0) -> represents P (fun id => f id + delta id b).
Proof. intros HP Hd id. rewrite Hd, HP. lia. Qed.

Lemma delta_no_call b id :
  b_ToolUseID b = "" \/ (b_Type b <> BlockToolUse /\ b_Type b <> BlockToolResult) -> delta id b = 0.
Proof.
  unfold delta. intros [H | [H1 H2]].
  - by rewrite bool_decide_eq_true_2.
  - case_match; [done|]. destruct (b_Type b); done.
Qed.

(** One message: the loop accepts exactly the good block lists and leaves the
    pending calls. *)
Lemma validate_blocks_spec s l : forall i j P f,
  represents P f -> (forall id, 0 <= f id) ->
  match validate_blocks s i j P l with
  | Ok P' => represents P' (fun id => f id + open_calls id l) /\ good_blocks (s = true) f l
  | Err _ => ~ good_blocks (s = true) f l
  end.
Proof.
  induction l as [|b l IH]; intros i j P f HP Hf; simpl.
  { split; [intros id; rewrite HP; lia|]. intros [|] ? ? ?; done. }
  destruct (s && _ && _ && _) eqn:Hg.
  { rewrite good_blocks_cons. intros (H1 & _). to_prop. destruct P; [done|].
    enough (p :: P = []) by done. apply (pending_nil_iff _ f HP). by apply H1. }
  assert (s = true -> providerVisibleValidationBoundary b = true -> forall id, f id = 0) as Hhead.
  { intros -> Hb. rewrite Hb in Hg. apply (pending_nil_iff P f HP).
    rewrite andb_true_r in Hg. simpl in Hg.
    destruct P; [done|]. simpl in Hg. rewrite andb_true_r in Hg. to_prop.
    unfold providerVisibleValidationBoundary in Hb. by rewrite Hg in Hb. }
  clear Hg.
  assert (forall P', represents P' (fun id => f id + delta id b) ->
    match validate_blocks s i (j + 1) P' l with
    | Ok P'' => represents P'' (fun id => f id + (delta id b + open_calls id l)) /\
                good_blocks (s = true) f (b :: l)
    | Err _ => ~ good_blocks (s = true) f (b :: l)
    end) as Hrest.
  { intros P' HP'.
    assert (forall id, 0 <= f id + delta id b) as Hf'
      by (intros id; rewrite <- HP'; apply pending_count_nonneg).
    specialize (IH i (j + 1) P' _ HP' Hf'). destruct (validate_blocks _ _ _ _ _).
    - destruct IH as [H1 H2]. split; [intros id; rewrite H1; lia|].
      rewrite good_blocks_cons. auto.
    - rewrite good_blocks_cons. intros (_ & _ & H). by apply IH. }
  assert (b_ToolUseID b = "" \/ (b_Type b <> BlockToolUse /\ b_Type b <> BlockToolResult) ->
          represents P (fun id => f id + delta id b)) as Hsame.
  { intros H. apply represents_delta_other; [done|]. intros; by apply delta_no_call. }
  destruct (b_Type b) eqn:Ht; try (apply Hrest, Hsame; right; done);
    (case_bool_decide as Hid; [apply Hrest, Hsame; by left|]).
  - apply Hrest. intros id. rewrite pending_count_snoc, HP. unfold delta. simpl.
    rewrite (bool_decide_eq_false_2 (b_ToolUseID b = "")) by done. simpl.
    case_bool_decide; simpl; rewrite ?Ht; lia.
  - pose proof (removePending_spec P (b_ToolUseID b)) as Hr.
    destruct (removePendingToolResult P (b_ToolUseID b)) as [P'|].
    + apply Hrest. intros id. rewrite Hr, HP. unfold delta.
      rewrite (bool_decide_eq_false_2 (b_ToolUseID b = "")) by done. simpl.
      case_bool_decide; simpl; rewrite ?Ht; lia.
    + rewrite good_blocks_cons. intros (_ & H & _). specialize (H (b_ToolUseID b)).
      unfold delta in H. rewrite (bool_decide_eq_false_2 (b_ToolUseID b = "")) in H by done.
      rewrite (bool_decide_eq_true_2 (b_ToolUseID b = b_ToolUseID b)) in H by done.
      simpl in H. rewrite Ht, <- HP, Hr in H. lia.
Qed.

Lemma pending_nonempty_iff P f : represents P f ->
  negb (Nat.eqb (length P) 0) = true <-> (exists id, f id <> 0).
Proof.
  intros HP. destruct P as [|p P]; simpl.
  - split; [done|]. intros [id Hid]. by rewrite <- HP in Hid.
  - split; [|done]. intros _. exists (pt_id p). rewrite <- HP.
    unfold pending_count. rewrite filter_cons, decide_True by done. simpl. lia.
Qed.

Lemma validate_messages_spec h : forall i P f,
  represents P f -> (forall id, 0 <= f id) ->
  match validate_messages i P h with
  | Ok P' => represents P' (fun id => f id + open_calls id (flat h)) /\ good_history f h
  | Err _ => ~ good_history f h
  end.
Proof.
  induction h as [|m h IH]; intros i P f HP Hf; simpl.
  { split; [intros id; rewrite HP; simpl; lia|]. intros [|] ? ? ?; done. }
  pose proof (validate_blocks_spec (negb (Nat.eqb (length P) 0)) (blocks m) i 0 P f HP Hf) as Hb.
  assert (good_blocks (negb (Nat.eqb (length P) 0) = true) f (blocks m) <->
          good_blocks (exists id, f id <> 0) f (blocks m)) as Hiff
    by (apply good_blocks_ext; [by apply pending_nonempty_iff | done]).
  assert (good_history f (m :: h) <->
          good_blocks (negb (Nat.eqb (length P) 0) = true) f (blocks m) /\
          good_history (fun id => f id + open_calls id (blocks m)) h) as Hcons
    by (rewrite good_history_cons; tauto).
  destruct (validate_blocks _ _ _ _ _) as [P'|e]; simpl; [|tauto].
  destruct Hb as [HP' Hg].
  assert (forall id, 0 <= f id + open_calls id (blocks m)) as Hf'
    by (intros id; rewrite <- HP'; apply pending_count_nonneg).
  specialize (IH (i + 1) P' _ HP' Hf'). destruct (validate_messages _ _ _); [|tauto].
  destruct IH as [H1 H2]. split; [|tauto].
  intros id. rewrite H1. unfold flat. simpl. rewrite open_calls_app. lia.
Qed.

Lemma validate_iff_balanced history :
  ValidateToolTranscript history = None <-> balanced history.
Proof.
  unfold ValidateToolTranscript, balanced.
  assert (represents [] (fun _ => 0)) as H0 by done.
  pose proof (validate_messages_spec history 0 [] _ H0 ltac:(intros; simpl; lia)) as H.
  destruct (validate_messages 0 [] history) as [P|e].
  - destruct H as [HP Hg]. pose proof (pending_nil_iff P _ HP) as Hnil. split.
    + intros HN. split; [done|]. intros id.
      assert (P = []) as HPn by (destruct P; done).
      apply (proj1 Hnil HPn id).
    + intros [_ Hz]. assert (P = []) as -> by (apply Hnil; intros id; rewrite Hz; lia). done.
  - split; [done|]. intros [Hg _]. contradiction.
Qed.

(** ** Properties *)

(** C22: [ValidateToolTranscript] accepts exactly the balanced transcripts: no
    result before its call, every call answered, and once a message starts with
    open calls, nothing a provider would show comes before all are answered. *)
Theorem transcript_valid_iff_balanced history :
  ValidateToolTranscript history = None <-> balanced history.
Proof. apply validate_iff_balanced. Qed.

(** Messages ready for a provider: nothing to drop, nothing left to merge. *)
Definition provider_ready (l : list Message) : Prop :=
  Forall (fun m => exists bs, m_Blocks m = Some bs /\ bs <> [] /\
                              compactBlocksForProvider bs = bs) l /\
  forall l1 a b l2, l = l1 ++ a :: b :: l2 -> providerMessagesMergeable a b = false.

Lemma mergeable_with_Blocks bs a b :
  providerMessagesMergeable (with_Blocks bs a) b = providerMessagesMergeable a b.
Proof. done. Qed.

Lemma mergeable_with_Blocks_r bs a b :
  providerMessagesMergeable a (with_Blocks bs b) = providerMessagesMergeable a b.
Proof. done. Qed.

Lemma compactBlocks_idem l :
  compactBlocksForProvider (compactBlocksForProvider l) = compactBlocksForProvider l.
Proof.
  unfold compactBlocksForProvider. rewrite list_filter_filter_l; [done|]. done.
Qed.

Lemma provider_ready_snoc l m bs :
  provider_ready l -> bs <> [] -> compactBlocksForProvider bs = bs ->
  (forall a, last l = Some a -> providerMessagesMergeable a m = false) ->
  provider_ready (l ++ [with_Blocks bs m]).
Proof.
  intros [HF Hadj] Hne Hc Hlast. split.
  - apply Forall_app. split; [done|]. constructor; [by exists bs | constructor].
  - intros l1 a b l2 E. destruct l2 as [|c l2] using rev_ind.
    + change (l1 ++ [a; b]) with (l1 ++ [a] ++ [b]) in E. rewrite app_assoc in E.
      apply app_inj_tail in E as [-> <-]. rewrite mergeable_with_Blocks_r.
      apply Hlast. apply last_snoc.
    + clear IHl2. rewrite !app_comm_cons, app_assoc in E.
      apply app_inj_tail in E as [-> _]. by eapply Hadj.
Qed.

Lemma compact_message_ready out m :
  provider_ready out ->
  provider_ready (compact_message out m) /\
  flat (compact_message out m) = flat out ++ compactBlocksForProvider (blocks m).
Proof.
  intros Hr. unfold compact_message.
  pose proof (compactBlocks_idem (blocks m)) as Hidem.
  destruct (compactBlocksForProvider (blocks m)) as [|b0 bs0] eqn:E; [by rewrite app_nil_r|].
  rewrite <- E in *. assert (compactBlocksForProvider (blocks m) <> []) as Hne by (by rewrite E).
  clear E b0 bs0. set (bs := compactBlocksForProvider (blocks m)) in *.
  destruct (last out) as [l|] eqn:Hl.
  - apply last_Some in Hl as [out' ->]. destruct (providerMessagesMergeable l m) eqn:Hm.
    + rewrite removelast_last. split.
      * destruct Hr as [HF Hadj]. apply Forall_app in HF as [HF Hlst].
        inversion Hlst as [|? ? (lb & Hlb & Hlne & Hlc) _]; subst.
        apply provider_ready_snoc.
        -- split; [done|]. intros l1 a b l2 ->. apply (Hadj l1 a b (l2 ++ [l])).
           by rewrite <- app_assoc.
        -- unfold blocks. rewrite Hlb. simpl. destruct lb; done.
        -- unfold blocks. rewrite Hlb. simpl. unfold compactBlocksForProvider in *.
           rewrite filter_app. by rewrite Hlc, Hidem.
        -- intros a Ha. apply last_Some in Ha as [o ->]. apply (Hadj o a l []).
           by rewrite <- app_assoc.
      * rewrite !flat_app, !flat_singleton, blocks_with. by rewrite app_assoc.
    + split.
      * apply provider_ready_snoc; [done..|]. intros a Ha. rewrite last_snoc in Ha. congruence.
      * by rewrite flat_app, flat_singleton, blocks_with.
  - split.
    + apply provider_ready_snoc; [done..|]. congruence.
    + by rewrite flat_app, flat_singleton, blocks_with.
Qed.

Lemma compact_fold_ready h : forall out, provider_ready out ->
  provider_ready (foldl compact_message out h) /\
  flat (foldl compact_message out h) = flat out ++ compactBlocksForProvider (flat h).
Proof.
  induction h as [|m h IH]; intros out Hr; simpl; [by rewrite app_nil_r|].
  destruct (compact_message_ready out m Hr) as [Hr' Hf].
  destruct (IH _ Hr') as [H1 H2]. split; [done|]. rewrite H2, Hf.
  change (flat (m :: h)) with (blocks m ++ flat h). unfold compactBlocksForProvider.
  by rewrite filter_app, app_assoc.
Qed.

Lemma provider_ready_nil : provider_ready [].
Proof. split; [constructor|]. by intros [|? [|? ?]] ? ? ? ?. Qed.

(** A transcript that is already ready goes through unchanged. *)
Lemma compact_fold_id h : forall out, provider_ready (out ++ h) ->
  foldl compact_message out h = out ++ h.
Proof.
  induction h as [|m h IH]; intros out Hr; simpl; [by rewrite app_nil_r|].
  pose proof Hr as [HF Hadj]. apply Forall_app in HF as [_ HF].
  inversion HF as [|? ? (bs & Hbs & Hne & Hc) _]; subst.
  assert (with_Blocks bs m = m) as Hm by (destruct m; simpl in *; subst; done).
  assert (compact_message out m = out ++ [m]) as ->.
  { unfold compact_message. replace (blocks m) with bs by (by unfold blocks; rewrite Hbs).
    rewrite Hc, Hm. destruct bs as [|b0 bs0]; [done|].
    destruct (last out) as [l|] eqn:Hl; [|done].
    apply last_Some in Hl as [o ->]. rewrite (Hadj o l m h); [done|].
    by rewrite <- app_assoc. }
  rewrite IH; rewrite <- app_assoc; done.
Qed.

(** The provider projection keeps exactly the sendable blocks in order,
    leaves no empty message and no two adjacent messages of the same role and
    kind, and projecting again changes nothing. *)
Theorem compact_history_normal_form history :
  let out := compactHistoryForProvider history in
  flat out = compactBlocksForProvider (flat history) /\
  provider_ready out /\
  compactHistoryForProvider out = out.
Proof.
  cbv zeta. unfold compactHistoryForProvider.
  destruct (compact_fold_ready history [] provider_ready_nil) as [Hr Hf].
  split_and!; [done|done|]. by apply (compact_fold_id _ []).
Qed.
