(* ===== verification/Events.v ===== *)
(** * Events: [src/internal/foundation/events], [foundation/toolevents]

    The committed events of a thread, reduced to what the modelled code reads:
    identity, type, turn and the payloads that the pending queue and the
    protocol repair decode. A payload is a decoded value; decoding it as another
    type reads the members the two JSON objects share. *)

From S2P Require Import Prelude Llm.

Local Open Scope Z_scope.

(** The first generation of every thread ([framework/thread/types.go]). *)
Definition InitialGeneration : string := "g000001".

(** ** Tool lifecycle payloads *)

Record RecordedOutcome := mkOutcome {
  ro_MessageID : string;
  ro_Block : Block;
}.

(** The members of the tool payloads that some decoder reads. *)
Record ToolEventPayload := mkToolPayload {
  tp_ToolUseID : string;
  tp_Name : string;
  tp_Input : option (list (string * Json));
  tp_TimeoutSeconds : Z;
  tp_Iter : Z;
  tp_CallIndex : Z;
  tp_MessageID : string;
  tp_Outcome : option RecordedOutcome;
}.

Definition RequestedType : string := "tool.requested".
Definition RunningType : string := "tool.running".
Definition InputResolvedType : string := "tool.input_resolved".
Definition CompletedType : string := "tool.completed".
Definition ErroredType : string := "tool.errored".
Definition OutcomeUnknownType : string := "tool.outcome_unknown".

(** ** Input tracking payloads *)

Record InputCheckedPayload := mkChecked {
  ic_InputIDs : list string;
  ic_ScopeID : string;
  ic_CheckedAt : Time;
  ic_ToolUseID : string;
  ic_MessageID : string;
}.

Definition InputCheckedType : string := "input.checked".
Definition InputTrackedType : string := "input.tracked".

(** ** Events *)

(** Any payload of another kind decodes to zero values. *)
Inductive EventPayload :=
| TerminalPayload (input_ids : list string) (error error_kind : string)
| CheckedPayload (p : InputCheckedPayload)
| TrackedPayload (input_id message_id scope_id : string)
| ToolPayload (p : ToolEventPayload)
| OtherPayload.

Record Event := mkEvent {
  ev_ID : string;
  ev_Type : string;
  ev_TurnID : string;
  ev_Payload : EventPayload;
}.
