(* ===== verification/ContextText.v ===== *)
(** * Token estimates and previews of text: [runtime/contextbudget]

    [usage.go] (the estimate of a text) and [preview.go]: a text that is over its
    budget keeps a head and a tail, cut between runes. Counts of runes and bytes
    are bounded by the length of a string, so they are plain numbers. *)

From S2P Require Import Prelude GoStd Utf8.
From Stdlib Require Import SpecFloat.

Local Open Scope Z_scope.
Local Open Scope juex_scope.

(** ** Estimates *)

Definition in_range (lo hi r : Z) : bool := (lo <=? r) && (r <=? hi).

Definition isCJKRune (r : Z) : bool :=
  in_range 0x3400 0x4dbf r ||
  in_range 0x4e00 0x9fff r ||
  in_range 0xf900 0xfaff r ||
  in_range 0x20000 0x2a6df r ||
  in_range 0x2a700 0x2b73f r ||
  in_range 0x2b740 0x2b81f r ||
  in_range 0x2b820 0x2ceaf r ||
  in_range 0x3040 0x309f r ||
  in_range 0x30a0 0x30ff r ||
  in_range 0x31f0 0x31ff r ||
  in_range 0x1100 0x11ff r ||
  in_range 0x3130 0x318f r ||
  in_range 0xa960 0xa97f r ||
  in_range 0xac00 0xd7af r ||
  in_range 0xd7b0 0xd7ff r.

Definition ceilDiv (n d : Z) : Z := if n <=? 0 then 0 else Z.quot (n + d - 1) d.

Definition EstimateCharsAsTokens (chars : Z) : Z :=
  if chars <=? 0 then 0 else ceilDiv chars 4.

Record textTokenCounts := mkCounts { tc_ascii : Z; tc_cjk : Z; tc_other : Z }.

Definition withRune (c : textTokenCounts) (r : Z) : textTokenCounts :=
  if r <=? 127 then mkCounts (tc_ascii c + 1) (tc_cjk c) (tc_other c)
  else if isCJKRune r then mkCounts (tc_ascii c) (tc_cjk c + 1) (tc_other c)
  else mkCounts (tc_ascii c) (tc_cjk c) (tc_other c + 1).

Definition tokens (c : textTokenCounts) : Z :=
  ceilDiv (tc_ascii c) 4 + tc_cjk c + ceilDiv (tc_other c) 3.

Definition no_counts : textTokenCounts := mkCounts 0 0 0.

(** The loop of [EstimateTextTokens] counts in the same three classes. *)
Definition EstimateTextTokens (text : string) : Z :=
  tokens (foldl withRune no_counts (runes (bytes_of text))).

(** ** Previews *)

Record TextPreview := mkPreview {
  tp_Head : string;
  tp_Tail : string;
  tp_OmittedBytes : Z;
  tp_OmittedCharacters : Z;
}.

Definition TextExceedsBudget (text : string) (maxTokens maxBytes : Z) : bool :=
  ((0 <? maxTokens) && (maxTokens <? EstimateTextTokens text)) ||
  ((0 <? maxBytes) && (maxBytes <? len text)).

Definition splitPreviewBudget (total : Z) : Z * Z :=
  if total <=? 0 then (0, 0)
  else
    let head := Z.quot (total + 1) 2 in
    (head, total - head).

(** The loop of [prefixEndWithinBudget]: [end_] is where the last accepted rune
    ends, [rest] the text from there on. *)
Fixpoint prefix_loop (fuel : nat) (tokensLimited : bool) (maxTokens : Z) (bytesLimited : bool)
    (maxBytes : Z) (counts : textTokenCounts) (end_ : Z) (rest : list Z) : Z :=
  match fuel, rest with
  | S k, _ :: _ =>
    let '(r, size) := decode_rune rest in
    let runeEnd := end_ + Z.of_nat size in
    if bytesLimited && (maxBytes <? runeEnd) then end_
    else
      let next := withRune counts r in
      if tokensLimited && (maxTokens <? tokens next) then end_
      else prefix_loop k tokensLimited maxTokens bytesLimited maxBytes next runeEnd (drop size rest)
  | _, _ => end_
  end.

Definition prefixEndWithinBudget (text : list Z) (tokensLimited : bool) (maxTokens : Z)
    (bytesLimited : bool) (maxBytes : Z) : Z :=
  prefix_loop (length text) tokensLimited maxTokens bytesLimited maxBytes no_counts 0 text.

(** The loop of [suffixStartWithinBudget]. *)
Fixpoint suffix_loop (fuel : nat) (text : list Z) (tokensLimited : bool) (maxTokens : Z)
    (bytesLimited : bool) (maxBytes : Z) (counts : textTokenCounts) (start : nat) : nat :=
  match fuel with
  | O => start
  | S k =>
    if (start =? 0)%nat then start
    else
      let '(r, size) := decode_last_rune (take start text) in
      if (size =? 0)%nat then start
      else
        let nextStart := (start - size)%nat in
        if bytesLimited && (maxBytes <? Z.of_nat (length text) - Z.of_nat nextStart) then start
        else
          let next := withRune counts r in
          if tokensLimited && (maxTokens <? tokens next) then start
          else suffix_loop k text tokensLimited maxTokens bytesLimited maxBytes next nextStart
  end.

Definition suffixStartWithinBudget (text : list Z) (tokensLimited : bool) (maxTokens : Z)
    (bytesLimited : bool) (maxBytes : Z) : Z :=
  Z.of_nat (suffix_loop (length text) text tokensLimited maxTokens bytesLimited maxBytes
              no_counts (length text)).

Definition whole (text : string) : TextPreview := mkPreview text "" 0 0.

Definition previewTextWithSideBudgets (text : string) (tokensLimited : bool)
    (headTokens tailTokens : Z) (bytesLimited : bool) (headBytes tailBytes : Z) : TextPreview :=
  let l := bytes_of text in
  let headEnd := prefixEndWithinBudget l tokensLimited headTokens bytesLimited headBytes in
  let after := drop (Z.to_nat headEnd) l in
  let tailStart :=
    Z.max headEnd
      (headEnd + suffixStartWithinBudget after tokensLimited tailTokens bytesLimited tailBytes) in
  let omitted := take (Z.to_nat (tailStart - headEnd)) after in
  if tailStart - headEnd <=? 0 then whole text
  else mkPreview (string_of_bytes (take (Z.to_nat headEnd) l))
         (string_of_bytes (drop (Z.to_nat tailStart) l)) (tailStart - headEnd) (RuneCount omitted).

Definition PreviewText (text : string) (maxTokens maxBytes : Z) : TextPreview :=
  if negb (TextExceedsBudget text maxTokens maxBytes) then whole text
  else
    let '(headTokens, tailTokens) := splitPreviewBudget maxTokens in
    let '(headBytes, tailBytes) := splitPreviewBudget maxBytes in
    previewTextWithSideBudgets text (0 <? maxTokens) headTokens tailTokens (0 <? maxBytes)
      headBytes tailBytes.

(** ** [float64] *)

Definition float_of_int (z : Z) : spec_float := binary_normalize 53 1024 z 0 false.
Definition fmul : spec_float -> spec_float -> spec_float := SFmul 53 1024.
Definition fdiv : spec_float -> spec_float -> spec_float := SFdiv 53 1024.
Definition fadd : spec_float -> spec_float -> spec_float := SFadd 53 1024.
Definition fsub : spec_float -> spec_float -> spec_float := SFsub 53 1024.

(** [int(f)] of a finite [f] in the range of [int]: truncation. *)
Definition int_of_float (f : spec_float) : Z :=
  match f with
  | S754_finite s m e =>
    let v := if 0 <=? e then Z.pos m * 2 ^ e else Z.pos m / 2 ^ (- e) in
    if s then - v else v
  | _ => 0
  end.

(** [math.Ceil] and the conversion to [int]. *)
Definition ceil_of_float (f : spec_float) : Z :=
  match f with
  | S754_finite s m e =>
    if 0 <=? e then (if s then - (Z.pos m * 2 ^ e) else Z.pos m * 2 ^ e)
    else if s then - (Z.pos m / 2 ^ (- e))
    else - (- Z.pos m / 2 ^ (- e))
  | _ => 0
  end.

Definition splitPreviewTokenAllocation (total headBytes tailBytes : Z) : Z * Z :=
  if total <=? 0 then (0, 0)
  else
    let byteTotal := headBytes + tailBytes in
    if byteTotal <=? 0 then splitPreviewBudget total
    else
      let head := int_of_float
        (fdiv (fmul (float_of_int total) (float_of_int headBytes)) (float_of_int byteTotal)) in
      (head, total - head).

Definition PreviewTextWithByteAllocation (text : string) (maxTokens headBytes tailBytes : Z) :
    TextPreview :=
  let maxBytes := headBytes + tailBytes in
  if negb (TextExceedsBudget text maxTokens maxBytes) then whole text
  else
    let '(headTokens, tailTokens) := splitPreviewTokenAllocation maxTokens headBytes tailBytes in
    previewTextWithSideBudgets text (0 <? maxTokens) headTokens tailTokens true headBytes tailBytes.

(** ** Calibration of estimates *)

Definition tokenCalibrationAlpha : spec_float := fdiv (float_of_int 3) (float_of_int 10).
Definition tokenCalibrationMinRatio : spec_float := fdiv (float_of_int 1) (float_of_int 2).
Definition tokenCalibrationMaxRatio : spec_float := float_of_int 3.
(** [1-tokenCalibrationAlpha] is a constant expression, exact until it is rounded. *)
Definition tokenCalibrationRest : spec_float := fdiv (float_of_int 7) (float_of_int 10).

(** A calibration that is not initialized has no ratio. *)
Definition TokenEstimateCalibration : Type := option spec_float.

Definition clampTokenCalibrationRatio (ratio : spec_float) : spec_float :=
  if SFltb ratio tokenCalibrationMinRatio then tokenCalibrationMinRatio
  else if SFltb tokenCalibrationMaxRatio ratio then tokenCalibrationMaxRatio
  else ratio.

Definition Calibration_Update (c : TokenEstimateCalibration) (realTokens estimatedTokens : Z) :
    TokenEstimateCalibration :=
  if (realTokens <=? 0) || (estimatedTokens <=? 0) then c
  else
    let observed := clampTokenCalibrationRatio
                      (fdiv (float_of_int realTokens) (float_of_int estimatedTokens)) in
    match c with
    | None => Some observed
    | Some ratio =>
      Some (clampTokenCalibrationRatio
              (fadd (fmul ratio tokenCalibrationRest) (fmul observed tokenCalibrationAlpha)))
    end.

Definition Calibration_Apply (c : TokenEstimateCalibration) (tokens : Z) : Z :=
  if tokens <=? 0 then 0
  else match c with
  | None => tokens
  | Some ratio => ceil_of_float (fmul (float_of_int tokens) ratio)
  end.

(** ** Counting *)

Definition cadd (c d : textTokenCounts) : textTokenCounts :=
  mkCounts (tc_ascii c + tc_ascii d) (tc_cjk c + tc_cjk d) (tc_other c + tc_other d).

Definition count (rs : list Z) : textTokenCounts := foldl withRune no_counts rs.

(** The estimate of bytes that need not be valid text. *)
Definition estimate (l : list Z) : Z := tokens (count (runes l)).

Definition counts_ok (c : textTokenCounts) : Prop :=
  0 <= tc_ascii c /\ 0 <= tc_cjk c /\ 0 <= tc_other c.

Lemma withRune_cadd c d r : withRune (cadd c d) r = cadd c (withRune d r).
Proof. unfold withRune, cadd. repeat case_match; simpl; f_equal; lia. Qed.

Lemma cadd_0_r c : cadd c no_counts = c.
Proof. destruct c. unfold cadd. simpl. f_equal; lia. Qed.

Lemma cadd_comm c d : cadd c d = cadd d c.
Proof. unfold cadd. f_equal; lia. Qed.

Lemma foldl_withRune c rs : foldl withRune c rs = cadd c (count rs).
Proof.
  unfold count. revert c. induction rs as [|r rs IH] using rev_ind; intros c; simpl;
    [by rewrite cadd_0_r|].
  by rewrite !foldl_snoc, IH, withRune_cadd.
Qed.

Lemma count_app l r : count (l ++ r) = cadd (count l) (count r).
Proof. unfold count at 1. by rewrite foldl_app, foldl_withRune. Qed.

Lemma count_rev l : count (rev l) = count l.
Proof.
  induction l as [|r l IH]; [done|]. simpl rev. rewrite count_app, IH.
  change (r :: l) with ([r] ++ l). by rewrite count_app, cadd_comm.
Qed.

Lemma count_ok l : counts_ok (count l).
Proof.
  induction l as [|r l IH] using rev_ind; [unfold counts_ok; simpl; lia|].
  rewrite count_app. change (count [r]) with (withRune no_counts r).
  destruct IH as (? & ? & ?). unfold counts_ok, cadd, withRune. repeat case_match; simpl; lia.
Qed.

Lemma ceilDiv_div a d : 0 <= a -> 0 < d -> ceilDiv a d = (a + d - 1) / d.
Proof.
  unfold ceilDiv. intros Ha Hd. case_match; to_prop.
  - rewrite Z.div_small by lia. done.
  - by rewrite Z.quot_div_nonneg by lia.
Qed.

Lemma ceilDiv_add a b d : 0 <= a -> 0 <= b -> 0 < d -> ceilDiv (a + b) d <= ceilDiv a d + ceilDiv b d.
Proof.
  intros Ha Hb Hd. rewrite !ceilDiv_div by lia.
  apply Z.lt_succ_r, Z.div_lt_upper_bound; [lia|].
  pose proof (Z.mod_pos_bound (a + d - 1) d Hd). pose proof (Z.mod_pos_bound (b + d - 1) d Hd).
  pose proof (Z.div_mod (a + d - 1) d ltac:(lia)). pose proof (Z.div_mod (b + d - 1) d ltac:(lia)).
  rewrite Z.mul_succ_r, Z.mul_add_distr_l. lia.
Qed.

Lemma tokens_cadd c d : counts_ok c -> counts_ok d -> tokens (cadd c d) <= tokens c + tokens d.
Proof.
  unfold counts_ok, tokens, cadd. intros (? & ? & ?) (? & ? & ?). simpl.
  pose proof (ceilDiv_add (tc_ascii c) (tc_ascii d) 4 ltac:(lia) ltac:(lia) ltac:(lia)).
  pose proof (ceilDiv_add (tc_other c) (tc_other d) 3 ltac:(lia) ltac:(lia) ltac:(lia)). lia.
Qed.

Lemma estimate_app l r : runes (l ++ r) = runes l ++ runes r ->
  estimate (l ++ r) <= estimate l + estimate r.
Proof. unfold estimate. intros ->. rewrite count_app. apply tokens_cadd; apply count_ok. Qed.

(** ** The two cuts *)

(** [l] is over a limit. *)
Definition over (tokensLimited : bool) (maxTokens : Z) (bytesLimited : bool) (maxBytes : Z)
    (l : list Z) : Prop :=
  (tokensLimited = true /\ maxTokens < estimate l) \/
  (bytesLimited = true /\ maxBytes < Z.of_nat (length l)).

Lemma estimate_segments ss : segmented ss -> estimate (concat ss) = tokens (count (map rune_of ss)).
Proof. intros H. unfold estimate. by rewrite runes_segmented. Qed.

Section Cuts.
  Context (tl : bool) (mt : Z) (bl : bool) (mb : Z).

Lemma prefix_loop_spec ss2 : forall fuel ss1,
  segmented (ss1 ++ ss2) -> (length (concat ss2) <= fuel)%nat ->
  exists s1 s2, ss2 = s1 ++ s2 /\
    prefix_loop fuel tl mt bl mb (count (map rune_of ss1)) (Z.of_nat (length (concat ss1))) (concat ss2) =
      Z.of_nat (length (concat (ss1 ++ s1))) /\
    (s1 <> [] -> ~ over tl mt bl mb (concat (ss1 ++ s1))) /\
    (forall g s2', s2 = g :: s2' -> over tl mt bl mb (concat (ss1 ++ s1 ++ [g]))).
Proof.
  induction ss2 as [|g ss2 IH]; intros fuel ss1 Hs Hf; simpl in *.
  { exists [], []. split_and!; [done| |done|done]. rewrite app_nil_r. by destruct fuel. }
  pose proof (segmented_app_r _ _ Hs) as Hg. pose proof (segmented_head _ _ Hg) as Hd.
  assert (g <> []) as Hne by (by inversion Hg).
  assert (segmented (ss1 ++ [g])) as Hs1
    by (apply (segmented_app_l _ ss2); by rewrite <- app_assoc).
  destruct fuel as [|k]; [destruct g; [done|simpl in Hf; lia]|].
  simpl. destruct (g ++ concat ss2) as [|b l] eqn:E; [destruct g; [done|done]|]. rewrite <- E in *.
  clear E b l. rewrite Hd.
  assert (Z.of_nat (length (concat ss1)) + Z.of_nat (length g) =
          Z.of_nat (length (concat (ss1 ++ [g])))) as El
    by (rewrite concat_app, length_app; simpl; rewrite app_nil_r; lia).
  assert (withRune (count (map rune_of ss1)) (rune_of g) = count (map rune_of (ss1 ++ [g]))) as Ec
    by (rewrite map_app, count_app; simpl; by rewrite <- (foldl_withRune _ [rune_of g])).
  rewrite El, Ec, <- estimate_segments by done.
  destruct (bl && _) eqn:Eb.
  { exists [], (g :: ss2). rewrite app_nil_r. split_and!; [done..|].
    intros ? ? [= <- <-]. right. to_prop. simpl. split; [done|lia]. }
  destruct (tl && _) eqn:Et.
  { exists [], (g :: ss2). rewrite app_nil_r. split_and!; [done..|].
    intros ? ? [= <- <-]. left. to_prop. simpl. split; [done|lia]. }
  rewrite drop_app_length.
  destruct (IH k (ss1 ++ [g])) as (s1 & s2 & -> & Hr & H1 & H2);
    [by rewrite <- app_assoc|rewrite length_app in Hf; destruct g; [done|simpl in *; lia]|].
  exists (g :: s1), s2. rewrite <- app_assoc in *. split_and!; [done|exact Hr| |].
  - intros _. destruct s1 as [|g' s1]; [|by apply H1].
    intros [[-> Ho]|[-> Ho]]; simpl in *; to_prop; lia.
  - intros g' s2' E. specialize (H2 _ _ E). by rewrite <- app_assoc in H2.
Qed.

Lemma suffix_loop_spec text : forall ss2 ss1 fuel,
  segmented (ss1 ++ ss2) -> concat (ss1 ++ ss2) = text -> (length (concat ss1) <= fuel)%nat ->
  exists s1 s2, ss1 = s1 ++ s2 /\
    suffix_loop fuel text tl mt bl mb (count (rev (map rune_of ss2))) (length (concat ss1)) =
      length (concat s1) /\
    (s2 <> [] -> ~ over tl mt bl mb (concat (s2 ++ ss2))) /\
    (forall s1' g, s1 = s1' ++ [g] -> over tl mt bl mb (concat (g :: s2 ++ ss2))).
Proof.
  intros ss2 ss1. revert ss2. induction ss1 as [|g ss1 IH] using rev_ind; intros ss2 fuel Hs Etext Hf.
  { exists [], []. split_and!; [done| |done|by intros []]. by destruct fuel. }
  pose proof (segmented_app_l _ _ Hs) as Hg. pose proof (decode_last_segment _ _ Hg) as Hd.
  rewrite <- app_assoc in Hs. simpl in Hs.
  assert (g <> []) as Hne by (apply segmented_app_r in Hg; by inversion Hg).
  assert (segmented (g :: ss2)) as Hs2 by (by apply segmented_app_r in Hs).
  assert (length (concat (ss1 ++ [g])) = length (concat ss1) + length g)%nat as El
    by (rewrite concat_app, length_app; simpl; by rewrite app_nil_r).
  assert (0 < length g)%nat as Hpos by (destruct g; simpl; [done|lia]).
  destruct fuel as [|k]; [lia|]. simpl.
  rewrite (proj2 (Nat.eqb_neq _ _)) by lia.
  assert (take (length (concat (ss1 ++ [g]))) text = concat (ss1 ++ [g])) as ->
    by (by rewrite <- Etext, (concat_app (ss1 ++ [g])), take_app_length).
  rewrite Hd.
  rewrite (proj2 (Nat.eqb_neq (length g) 0)) by lia.
  assert (Z.of_nat (length text) - Z.of_nat (length (concat (ss1 ++ [g])) - length g) =
          Z.of_nat (length (concat (g :: ss2)))) as Eb
    by (rewrite <- Etext, (concat_app (ss1 ++ [g])); simpl; rewrite !length_app, El; lia).
  rewrite Eb.
  assert (withRune (count (rev (map rune_of ss2))) (rune_of g) = count (rev (map rune_of (g :: ss2)))) as Ec
    by (simpl; rewrite count_app; by rewrite <- (foldl_withRune _ [rune_of g])).
  rewrite Ec. rewrite (count_rev (map rune_of (g :: ss2))), <- estimate_segments by done.
  destruct (bl && _) eqn:Ebl.
  { exists (ss1 ++ [g]), []. rewrite app_nil_r. split_and!; [done..|].
    intros ? ? [_ ->]%app_inj_tail. right. to_prop. split; [done|]. simpl in *. lia. }
  destruct (tl && _) eqn:Etl.
  { exists (ss1 ++ [g]), []. rewrite app_nil_r. split_and!; [done..|].
    intros ? ? [_ ->]%app_inj_tail. left. to_prop. split; [done|]. simpl in *. lia. }
  replace (length (concat (ss1 ++ [g])) - length g)%nat with (length (concat ss1)) by lia.
  rewrite <- (count_rev (map rune_of (g :: ss2))).
  destruct (IH (g :: ss2) k Hs) as (s1 & s2 & -> & Hr & H1 & H2);
    [by rewrite <- Etext, <- app_assoc|lia|].
  exists s1, (s2 ++ [g]). rewrite <- !app_assoc. split_and!; [done|exact Hr| |].
  - intros _. destruct s2 as [|g' s2]; [|by apply H1].
    intros [[-> Ho]|[-> Ho]]; simpl in *; to_prop; lia.
  - intros s1' g' E. exact (H2 _ _ E).
Qed.
End Cuts.

(** ** What a preview keeps *)

(** [h], [o], [t]: the head, what is omitted, the tail. Both ends are within
    their budgets, and neither could be one rune longer. *)
Record cut (text : list Z) (tl : bool) (ht tt : Z) (bl : bool) (hb tb : Z) (h o t : list Z) : Prop := {
  cut_text : text = h ++ o ++ t;
  cut_runes : runes text = runes h ++ runes o ++ runes t;
  cut_head : ~ over tl ht bl hb h;
  cut_tail : ~ over tl tt bl tb t;
  cut_head_longest : o <> [] -> over tl ht bl hb (h ++ take (decode_rune o).2 o);
  cut_tail_longest : o <> [] ->
    over tl tt bl tb (drop (length o - (decode_last_rune o).2) o ++ t);
}.

Definition preview_of (text : string) (h o t : list Z) : TextPreview :=
  if bool_decide (o = []) then whole text
  else mkPreview (string_of_bytes h) (string_of_bytes t) (Z.of_nat (length o)) (RuneCount o).

Lemma empty_not_over tl mt bl mb : (tl = true -> 0 <= mt) -> (bl = true -> 0 <= mb) ->
  ~ over tl mt bl mb [].
Proof.
  intros Ht Hb [[H1 H2]|[H1 H2]]; [specialize (Ht H1)|specialize (Hb H1); simpl in *; lia].
  change (estimate []) with 0 in H2. lia.
Qed.

Lemma previewTextWithSideBudgets_spec text tl ht tt bl hb tb :
  (tl = true -> 0 <= ht /\ 0 <= tt) -> (bl = true -> 0 <= hb /\ 0 <= tb) ->
  exists h o t, cut (bytes_of text) tl ht tt bl hb tb h o t /\
    previewTextWithSideBudgets text tl ht tt bl hb tb = preview_of text h o t.
Proof.
  intros Ht Hb. destruct (segments_exist (bytes_of text)) as (ss & Hs & E).
  destruct (prefix_loop_spec tl ht bl hb ss (length (bytes_of text)) [] Hs ltac:(by rewrite E))
    as (s1 & s2 & -> & Hp & Hp1 & Hp2). simpl in Hp, Hp1, Hp2.
  pose proof (segmented_app_r _ _ Hs) as Hs2. pose proof (segmented_app_l _ _ Hs) as Hs1.
  destruct (suffix_loop_spec tl tt bl tb (concat s2) [] s2 (length (concat s2)))
    as (s3 & s4 & -> & Hq & Hq1 & Hq2); [by rewrite app_nil_r..|done|].
  rewrite app_nil_r in *. simpl in Hq.
  pose proof (segmented_app_l _ _ Hs2) as Hs3. pose proof (segmented_app_r _ _ Hs2) as Hs4.
  exists (concat s1), (concat s3), (concat s4). split.
  - assert (forall s : list (list Z), segmented s -> concat s = [] -> s = []) as Hnil.
    { intros [|g s] Hg En; [done|]. simpl in En. apply app_eq_nil in En as [-> _]. by inversion Hg. }
    split.
    + by rewrite <- E, !concat_app.
    + rewrite <- E, !runes_segmented_app by done. done.
    + destruct s1 as [|g s1]; [apply empty_not_over; naive_solver|]. by apply Hp1.
    + destruct s4 as [|g s4]; [apply empty_not_over; naive_solver|]. by apply Hq1.
    + intros Ho. destruct s3 as [|g s3]; [done|].
      pose proof (segmented_head _ _ Hs3) as Hd. simpl concat in *. rewrite Hd. simpl.
      rewrite take_app_length. specialize (Hp2 g (s3 ++ s4) eq_refl).
      rewrite concat_app in Hp2. simpl in Hp2. by rewrite app_nil_r in Hp2.
    + intros Ho. destruct s3 as [|g s3 _] using rev_ind; [done|].
      rewrite (decode_last_segment _ _ Hs3). simpl. rewrite concat_app, length_app. simpl.
      rewrite app_nil_r, Nat.add_sub, drop_app_length. exact (Hq2 s3 g eq_refl).
  - assert (prefixEndWithinBudget (bytes_of text) tl ht bl hb = Z.of_nat (length (concat s1))) as Ep
      by (unfold prefixEndWithinBudget; rewrite <- E at 2; exact Hp).
    assert (drop (length (concat s1)) (bytes_of text) = concat (s3 ++ s4)) as Ed
      by (rewrite <- E, concat_app; apply drop_app_length).
    assert (suffixStartWithinBudget (concat (s3 ++ s4)) tl tt bl tb = Z.of_nat (length (concat s3))) as Eq
      by (unfold suffixStartWithinBudget; f_equal; exact Hq).
    unfold previewTextWithSideBudgets. rewrite Ep, Nat2Z.id, Ed, Eq.
    replace (Z.max _ _ - _) with (Z.of_nat (length (concat s3))) by lia.
    rewrite Nat2Z.id, concat_app, take_app_length. unfold preview_of.
    replace (Z.to_nat (Z.max _ _)) with (length (concat s1) + length (concat s3))%nat by lia.
    rewrite <- E, !concat_app, drop_app_add, drop_app_length, take_app_length.
    destruct (concat s3); [done|]. case_match; to_prop; [simpl in *; lia|].
    by rewrite bool_decide_eq_false_2.
Qed.

Lemma splitPreviewBudget_spec total : 0 < total ->
  exists head tail, splitPreviewBudget total = (head, tail) /\ head + tail = total /\
    0 < head /\ 0 <= tail.
Proof.
  intros Ht. unfold splitPreviewBudget. rewrite (proj2 (Z.leb_gt total 0)) by lia.
  do 2 eexists. split; [done|]. rewrite Z.quot_div_nonneg by lia.
  pose proof (Z.div_mod (total + 1) 2 ltac:(lia)). pose proof (Z.mod_pos_bound (total + 1) 2 ltac:(lia)).
  lia.
Qed.

Lemma splitPreviewBudget_nonneg total : 0 <= (splitPreviewBudget total).1 /\ 0 <= (splitPreviewBudget total).2.
Proof.
  destruct (decide (0 < total)) as [H|H].
  - destruct (splitPreviewBudget_spec total H) as (? & ? & -> & ?). simpl. lia.
  - unfold splitPreviewBudget. rewrite (proj2 (Z.leb_le total 0)) by lia. done.
Qed.

Lemma cut_bytes text tl ht tt bl hb tb h o t :
  cut (bytes_of text) tl ht tt bl hb tb h o t ->
  bytes_of (string_of_bytes h) = h /\ bytes_of (string_of_bytes t) = t.
Proof.
  intros Hc. pose proof (bytes_of_range text) as Hr. rewrite (cut_text _ _ _ _ _ _ _ _ _ _ Hc) in Hr.
  rewrite !Forall_app in Hr. destruct Hr as (? & _ & ?). by rewrite !bytes_of_string.
Qed.

(** A limit that is not positive does not count. *)
Definition within (limit x : Z) : Prop := limit <= 0 \/ x <= limit.

Lemma cut_within text mT ht tt mB hb tb h o t :
  cut text (0 <? mT) ht tt (0 <? mB) hb tb h o t ->
  (0 < mT -> ht + tt = mT) -> (0 < mB -> hb + tb = mB) ->
  within mT (estimate h + estimate t) /\ within mB (Z.of_nat (length h) + Z.of_nat (length t)).
Proof.
  intros Hc HT HB. pose proof (cut_head _ _ _ _ _ _ _ _ _ _ Hc) as Hh.
  pose proof (cut_tail _ _ _ _ _ _ _ _ _ _ Hc) as Hl. unfold over, within in *.
  split.
  - destruct (0 <? mT) eqn:E; to_prop; [right|by left]. specialize (HT E).
    enough (~ ht < estimate h /\ ~ tt < estimate t) by lia. tauto.
  - destruct (0 <? mB) eqn:E; to_prop; [right|by left]. specialize (HB E).
    enough (~ hb < Z.of_nat (length h) /\ ~ tb < Z.of_nat (length t)) by lia. tauto.
Qed.

Lemma exceeds_spec text mT mB : TextExceedsBudget text mT mB = false <->
  within mT (EstimateTextTokens text) /\ within mB (len text).
Proof.
  unfold TextExceedsBudget, within. rewrite orb_false_iff, !andb_false_iff, !Z.ltb_ge. tauto.
Qed.

(** Head and tail that meet are the whole text, which was within its budgets. *)
Lemma cut_omits text mT ht tt mB hb tb h o t :
  cut (bytes_of text) (0 <? mT) ht tt (0 <? mB) hb tb h o t ->
  (0 < mT -> ht + tt = mT) -> (0 < mB -> hb + tb = mB) ->
  TextExceedsBudget text mT mB = true -> o <> [].
Proof.
  intros Hc HT HB Hx ->. destruct (cut_within _ _ _ _ _ _ _ _ _ _ Hc HT HB) as [H1 H2].
  enough (TextExceedsBudget text mT mB = false) by congruence. apply exceeds_spec.
  pose proof (cut_text _ _ _ _ _ _ _ _ _ _ Hc) as E. pose proof (cut_runes _ _ _ _ _ _ _ _ _ _ Hc) as Er.
  simpl in E, Er. rewrite E in Er. pose proof (estimate_app h t Er) as Ha. rewrite <- E in Ha.
  unfold len. rewrite <- bytes_of_length, E, length_app.
  change (EstimateTextTokens text) with (estimate (bytes_of text)). unfold within in *. lia.
Qed.

(** A preview is the text itself when that is within its budgets, and else a
    head and a tail of it, cut between runes also when the text is not valid
    UTF-8, with what lies between counted and left out. Head and tail are
    together within both budgets, and neither could take one rune more of its
    half. *)
Theorem preview_within_budget text maxTokens maxBytes :
  let p := PreviewText text maxTokens maxBytes in
  let '(headTokens, tailTokens) := splitPreviewBudget maxTokens in
  let '(headBytes, tailBytes) := splitPreviewBudget maxBytes in
  within maxTokens (EstimateTextTokens (tp_Head p) + EstimateTextTokens (tp_Tail p)) /\
  within maxBytes (len (tp_Head p) + len (tp_Tail p)) /\
  (p = whole text /\ TextExceedsBudget text maxTokens maxBytes = false \/
   TextExceedsBudget text maxTokens maxBytes = true /\
   exists h o t, o <> [] /\ p = preview_of text h o t /\
     cut (bytes_of text) (0 <? maxTokens) headTokens tailTokens
       (0 <? maxBytes) headBytes tailBytes h o t).
Proof.
  cbv zeta. pose proof (splitPreviewBudget_nonneg maxTokens) as Hn1.
  pose proof (splitPreviewBudget_nonneg maxBytes) as Hn2.
  pose proof (splitPreviewBudget_spec maxTokens) as Hs1.
  pose proof (splitPreviewBudget_spec maxBytes) as Hs2. unfold PreviewText.
  destruct (splitPreviewBudget maxTokens) as [ht tt], (splitPreviewBudget maxBytes) as [hb tb].
  simpl in Hn1, Hn2. destruct (TextExceedsBudget text maxTokens maxBytes) eqn:Ex; simpl.
  - destruct (previewTextWithSideBudgets_spec text (0 <? maxTokens) ht tt (0 <? maxBytes) hb tb)
      as (h & o & t & Hc & ->); [done..|].
    assert (0 < maxTokens -> ht + tt = maxTokens) as HT by (intros H; by destruct (Hs1 H) as (? & ? & [= <- <-] & ? & _)).
    assert (0 < maxBytes -> hb + tb = maxBytes) as HB by (intros H; by destruct (Hs2 H) as (? & ? & [= <- <-] & ? & _)).
    pose proof (cut_omits _ _ _ _ _ _ _ _ _ _ Hc HT HB Ex) as Ho.
    destruct (cut_within _ _ _ _ _ _ _ _ _ _ Hc HT HB) as [H1 H2].
    destruct (cut_bytes _ _ _ _ _ _ _ _ _ _ Hc) as [Eh Et].
    unfold preview_of. rewrite bool_decide_eq_false_2 by done. simpl.
    unfold EstimateTextTokens, len. rewrite <- !bytes_of_length, Eh, Et.
    split_and!; [done..|]. right. split; [done|]. exists h, o, t. by rewrite bool_decide_eq_false_2.
  - apply exceeds_spec in Ex as [H1 H2]. change (EstimateTextTokens "") with 0. change (len "") with 0.
    rewrite !Z.add_0_r. split_and!; [done..|by left].
Qed.
