(* ===== verification/ThreadTypes.v ===== *)
(** * Thread data: [src/internal/framework/thread/types.go], [id.go]

    Commits and facts of a thread's journals, the projection kept in
    [thread.json] and the replay state a handle holds in memory. An absolute
    time is a [Timestamp]: nanoseconds since Go's zero time, always a whole
    number of milliseconds once it has passed [NewTimestamp]. Slices are lists
    (nothing here distinguishes a nil slice), pointers and the token map are
    options. The [float64] percentage of a context projection is kept as the
    exact fraction the code divides. *)

From S2P Require Import Prelude GoStd Llm Events.
From Stdlib Require Import Ascii.

Local Open Scope Z_scope.
Local Open Scope juex_scope.

(** ** Constants and enumerations *)

Definition JournalVersion : Z := 1.
Definition ProjectionVersion : Z := 1.

Inductive FactType :=
| FactThreadCreated
| FactMessageAppended
| FactEventRecorded
| FactTurnStarted
| FactTurnCompleted
| FactTurnFailed
| FactTurnCancelled
| FactThreadSettled
| FactContextRenewed
| FactContextCompacted
| FactUsageRecorded
| FactOther (name : string).

Inductive RetentionState :=
| RetentionActive
| RetentionArchived
| RetentionOther (name : string).

(** [ExecutionNone] is the empty string of an archived thread. *)
Inductive ExecutionState :=
| ExecutionIdle
| ExecutionWorking
| ExecutionFailed
| ExecutionNone
| ExecutionOther (name : string).

#[export] Instance FactType_eq_dec : EqDecision FactType.
Proof. solve_decision. Defined.
#[export] Instance RetentionState_eq_dec : EqDecision RetentionState.
Proof. solve_decision. Defined.
#[export] Instance ExecutionState_eq_dec : EqDecision ExecutionState.
Proof. solve_decision. Defined.

(** The sentinel errors of the package and the untyped ones. [ErrNilPointer]
    is the panic of a nil dereference. *)
Inductive ThreadError :=
| ErrCorruptJournal
| ErrInvalidFact
| ErrInvalidTransition
| ErrProjectionStale (seq : Z)
| ErrStaleHandle
| ErrInvalidMetadata
| ErrInvalidID
| ErrNilPointer
| ErrCommitVersion
| ErrZeroSequence
| ErrZeroTimestamp
| ErrFactCount
| ErrMarshal
| ErrCommitTooLarge
| ErrClosed
| ErrNotExist
| ErrJournalExists
| ErrBusy
| ErrNegativeCount
| ErrAlias
| ErrIndex
| ErrContextRenewal
| ErrIO.

#[export] Instance ThreadError_eq_dec : EqDecision ThreadError.
Proof. solve_decision. Defined.

(** ** Facts and commits *)

Record GenerationSeed := mkSeed {
  sd_Version : Z;
  sd_ContextScopeID : string;
  sd_ProviderMessages : list Message;
  sd_RecoveryEvents : list Event;
  sd_CompactionCount : Z;
  sd_ContextUsage : option ContextUsage;
}.

Record Fact := mkFact {
  f_Type : FactType;
  f_ThreadID : string;
  f_Alias : string;
  f_ParentThreadID : string;
  f_GenerationID : string;
  f_FromGenerationID : string;
  f_ToGenerationID : string;
  f_TurnID : string;
  f_Message : option Message;
  f_Event : option Event;
  f_Summary : option Message;
  f_Automatic : bool;
  f_Error : string;
  f_ModelRef : string;
  f_Usage : option Usage;
  f_ContextUsage : option ContextUsage;
  f_Seed : option GenerationSeed;
}.

(** The composite literals of the package. *)
Definition zero_fact (t : FactType) : Fact :=
  mkFact t "" "" "" "" "" "" "" None None None false "" "" None None None.
Definition created_fact (thread alias parent : string) : Fact :=
  mkFact FactThreadCreated thread alias parent InitialGeneration "" "" "" None None None
    false "" "" None None None.
Definition message_fact (generation turn : string) (m : Message) : Fact :=
  mkFact FactMessageAppended "" "" "" generation "" "" turn (Some m) None None
    false "" "" None None None.
Definition event_fact (e : Event) : Fact :=
  mkFact FactEventRecorded "" "" "" "" "" "" "" None (Some e) None false "" "" None None None.
Definition turn_fact (t : FactType) (turn : string) : Fact :=
  mkFact t "" "" "" "" "" "" turn None None None false "" "" None None None.
Definition boundary_fact (t : FactType) (from to : string) (summary : option Message)
    (automatic : bool) (seed : GenerationSeed) : Fact :=
  mkFact t "" "" "" "" from to "" None None summary automatic "" "" None None (Some seed).
Definition usage_fact (turn model : string) (u : Usage) (c : option ContextUsage) : Fact :=
  mkFact FactUsageRecorded "" "" "" "" "" "" turn None None None false "" model (Some u) c None.

Record Commit := mkCommit {
  c_Version : Z;
  c_Seq : Z;
  c_At : Time;
  c_Facts : list Fact;
}.

Record scannedCommit := mkScanned {
  sc_Commit : Commit;
  sc_GenerationID : string;
  sc_StartOffset : Z;
  sc_EndOffset : Z;
}.

(** ** Projection *)

Record GenerationProjection := mkGeneration {
  g_ID : string;
  g_Ordinal : Z;
  g_BoundarySeq : Z;
}.

Record Counts := mkCounts {
  n_GenerationCount : Z;
  n_TurnCount : Z;
  n_PendingInputCount : Z;
}.

Record ContextProjection := mkContextProjection {
  cp_ContextWindow : Z;
  cp_CurrentTokens : Z;
  cp_Percentage : Z * Z;
  cp_CalibratedAt : option Time;
}.

Record EventCursor := mkCursor {
  k_GenerationID : string;
  k_Seq : Z;
  k_Offset : Z;
}.

Record UsageAggregate := mkAggregate {
  a_Total : Usage;
  a_ByModel : option (gmap string Usage);
}.

Record Projection := mkProjection {
  p_Version : Z;
  p_ThreadID : string;
  p_Alias : string;
  p_ParentThreadID : string;
  p_CreatedAt : Time;
  p_UpdatedAt : Time;
  p_ArchivedAt : option Time;
  p_RetentionState : RetentionState;
  p_ExecutionState : ExecutionState;
  p_Revision : Z;
  p_CurrentGeneration : GenerationProjection;
  p_Generations : list GenerationProjection;
  p_Counts : Counts;
  p_TokenUsage : UsageAggregate;
  p_ContextUsage : option ContextProjection;
  p_LastActivityAt : Time;
  p_EventCursor : EventCursor;
  p_UsageAggregatedThrough : EventCursor;
}.

#[export] Instance GenerationProjection_eq_dec : EqDecision GenerationProjection.
Proof. solve_decision. Defined.
#[export] Instance EventCursor_eq_dec : EqDecision EventCursor.
Proof. solve_decision. Defined.

(** ** Replay state *)

Record Activity := mkActivity {
  v_Type : FactType;
  v_At : Time;
  v_FromGenerationID : string;
  v_ToGenerationID : string;
  v_Summary : option Message;
  v_Automatic : bool;
}.

Record ReplayState := mkReplay {
  s_ContextScopeID : string;
  s_Projection : Projection;
  s_Messages : list Message;
  s_ProviderMessages : list Message;
  s_Events : list Event;
  s_Activities : list Activity;
  s_CompactionCount : Z;
  s_ContextUsage : option ContextUsage;
}.

(** The zero values of the types. *)
Definition zero_usage : Usage := mkUsage 0 0 0.
Definition zero_cursor : EventCursor := mkCursor "" 0 0.
Definition zero_projection : Projection :=
  mkProjection 0 "" "" "" 0 0 None (RetentionOther "") ExecutionNone 0
    (mkGeneration "" 0 0) [] (mkCounts 0 0 0) (mkAggregate zero_usage None) None 0
    zero_cursor zero_cursor.
Definition zero_state : ReplayState := mkReplay "" zero_projection [] [] [] [] 0 None.

(** ** Updates *)

Definition set_ExecutionState (x : ExecutionState) (p : Projection) : Projection :=
  mkProjection (p_Version p) (p_ThreadID p) (p_Alias p) (p_ParentThreadID p) (p_CreatedAt p)
    (p_UpdatedAt p) (p_ArchivedAt p) (p_RetentionState p) x (p_Revision p)
    (p_CurrentGeneration p) (p_Generations p) (p_Counts p) (p_TokenUsage p)
    (p_ContextUsage p) (p_LastActivityAt p) (p_EventCursor p) (p_UsageAggregatedThrough p).
Definition set_Counts (c : Counts) (p : Projection) : Projection :=
  mkProjection (p_Version p) (p_ThreadID p) (p_Alias p) (p_ParentThreadID p) (p_CreatedAt p)
    (p_UpdatedAt p) (p_ArchivedAt p) (p_RetentionState p) (p_ExecutionState p)
    (p_Revision p) (p_CurrentGeneration p) (p_Generations p) c (p_TokenUsage p)
    (p_ContextUsage p) (p_LastActivityAt p) (p_EventCursor p) (p_UsageAggregatedThrough p).
Definition set_TokenUsage (u : UsageAggregate) (p : Projection) : Projection :=
  mkProjection (p_Version p) (p_ThreadID p) (p_Alias p) (p_ParentThreadID p) (p_CreatedAt p)
    (p_UpdatedAt p) (p_ArchivedAt p) (p_RetentionState p) (p_ExecutionState p)
    (p_Revision p) (p_CurrentGeneration p) (p_Generations p) (p_Counts p) u
    (p_ContextUsage p) (p_LastActivityAt p) (p_EventCursor p) (p_UsageAggregatedThrough p).
Definition set_ContextUsage (c : option ContextProjection) (p : Projection) : Projection :=
  mkProjection (p_Version p) (p_ThreadID p) (p_Alias p) (p_ParentThreadID p) (p_CreatedAt p)
    (p_UpdatedAt p) (p_ArchivedAt p) (p_RetentionState p) (p_ExecutionState p)
    (p_Revision p) (p_CurrentGeneration p) (p_Generations p) (p_Counts p) (p_TokenUsage p) c
    (p_LastActivityAt p) (p_EventCursor p) (p_UsageAggregatedThrough p).
Definition set_Generations (g : GenerationProjection) (l : list GenerationProjection) (p : Projection) : Projection :=
  mkProjection (p_Version p) (p_ThreadID p) (p_Alias p) (p_ParentThreadID p) (p_CreatedAt p)
    (p_UpdatedAt p) (p_ArchivedAt p) (p_RetentionState p) (p_ExecutionState p)
    (p_Revision p) g l (p_Counts p) (p_TokenUsage p) (p_ContextUsage p) (p_LastActivityAt p)
    (p_EventCursor p) (p_UsageAggregatedThrough p).
Definition set_EventCursor (c : EventCursor) (p : Projection) : Projection :=
  mkProjection (p_Version p) (p_ThreadID p) (p_Alias p) (p_ParentThreadID p) (p_CreatedAt p)
    (p_UpdatedAt p) (p_ArchivedAt p) (p_RetentionState p) (p_ExecutionState p)
    (p_Revision p) (p_CurrentGeneration p) (p_Generations p) (p_Counts p) (p_TokenUsage p)
    (p_ContextUsage p) (p_LastActivityAt p) c (p_UsageAggregatedThrough p).
Definition set_UsageAggregatedThrough (c : EventCursor) (p : Projection) : Projection :=
  mkProjection (p_Version p) (p_ThreadID p) (p_Alias p) (p_ParentThreadID p) (p_CreatedAt p)
    (p_UpdatedAt p) (p_ArchivedAt p) (p_RetentionState p) (p_ExecutionState p)
    (p_Revision p) (p_CurrentGeneration p) (p_Generations p) (p_Counts p) (p_TokenUsage p)
    (p_ContextUsage p) (p_LastActivityAt p) (p_EventCursor p) c.
Definition set_Activity (at_ : Time) (p : Projection) : Projection :=
  mkProjection (p_Version p) (p_ThreadID p) (p_Alias p) (p_ParentThreadID p) (p_CreatedAt p)
    at_ (p_ArchivedAt p) (p_RetentionState p) (p_ExecutionState p) (p_Revision p)
    (p_CurrentGeneration p) (p_Generations p) (p_Counts p) (p_TokenUsage p)
    (p_ContextUsage p) at_ (p_EventCursor p) (p_UsageAggregatedThrough p).
Definition set_Revision (r : Z) (at_ : Time) (p : Projection) : Projection :=
  mkProjection (p_Version p) (p_ThreadID p) (p_Alias p) (p_ParentThreadID p) (p_CreatedAt p)
    at_ (p_ArchivedAt p) (p_RetentionState p) (p_ExecutionState p) r (p_CurrentGeneration p)
    (p_Generations p) (p_Counts p) (p_TokenUsage p) (p_ContextUsage p) (p_LastActivityAt p)
    (p_EventCursor p) (p_UsageAggregatedThrough p).
Definition set_Alias (a : string) (p : Projection) : Projection :=
  mkProjection (p_Version p) (p_ThreadID p) a (p_ParentThreadID p) (p_CreatedAt p)
    (p_UpdatedAt p) (p_ArchivedAt p) (p_RetentionState p) (p_ExecutionState p)
    (p_Revision p) (p_CurrentGeneration p) (p_Generations p) (p_Counts p) (p_TokenUsage p)
    (p_ContextUsage p) (p_LastActivityAt p) (p_EventCursor p) (p_UsageAggregatedThrough p).
Definition set_Retention (r : RetentionState) (x : ExecutionState) (at_ : option Time) (p : Projection) : Projection :=
  mkProjection (p_Version p) (p_ThreadID p) (p_Alias p) (p_ParentThreadID p) (p_CreatedAt p)
    (p_UpdatedAt p) at_ r x (p_Revision p) (p_CurrentGeneration p) (p_Generations p)
    (p_Counts p) (p_TokenUsage p) (p_ContextUsage p) (p_LastActivityAt p) (p_EventCursor p)
    (p_UsageAggregatedThrough p).

Definition set_projection (p : Projection) (s : ReplayState) : ReplayState :=
  mkReplay (s_ContextScopeID s) p (s_Messages s) (s_ProviderMessages s) (s_Events s)
    (s_Activities s) (s_CompactionCount s) (s_ContextUsage s).

Definition inc_TurnCount (c : Counts) : Counts :=
  mkCounts (n_GenerationCount c) (wrap_int64 (n_TurnCount c + 1)) (n_PendingInputCount c).
Definition inc_GenerationCount (c : Counts) : Counts :=
  mkCounts (wrap_int64 (n_GenerationCount c + 1)) (n_TurnCount c) (n_PendingInputCount c).
Definition set_PendingInputCount (n : Z) (c : Counts) : Counts :=
  mkCounts (n_GenerationCount c) (n_TurnCount c) n.

(** ** Identifiers *)

Definition MainID : string := "0".
Definition MainAlias : string := "main".
Definition workerAlphabet : string := "0123456789abcdefghjkmnpqrstvwxyz".

Definition alphabet_byte (b : Z) : bool := bool_decide (b ∈ bytes_of workerAlphabet).

(** The rune loop of [ValidID] sees single bytes: a multi-byte rune is not in
    the alphabet, and neither is any byte of it. *)
Definition ValidID (id : string) : bool :=
  if id =?s MainID then true
  else if negb (len id =? 6) then false
  else forallb alphabet_byte (bytes_of id).

Definition ValidWorkerID (id : string) : bool := (id <>?s MainID) && ValidID id.

Definition worker_char (b : Z) : Z := nth (Z.to_nat (Z.land b 31)) (bytes_of workerAlphabet) 0.

(** Six random bytes; a reader that delivers fewer is an error. *)
Definition newWorkerID (raw : list Z) : option string :=
  if (length raw <? 6)%nat then None
  else Some (string_of_bytes (map worker_char (firstn 6 raw))).

Definition DefaultWorkerAlias (id : string) : string := ("worker_#" ++ id)%string.

Definition generationID (ordinal : Z) : string := ("g" ++ Sprintf06d ordinal)%string.

Definition parseGenerationID (id : string) : result ThreadError Z :=
  match id with
  | String "g"%char r =>
    if negb (len id =? 7) then Err ErrInvalidFact
    else match Atoi r with
         | Some ordinal =>
           if (ordinal <=? 0) || (generationID ordinal <>?s id) then Err ErrInvalidFact
           else Ok ordinal
         | None => Err ErrInvalidFact
         end
  | _ => Err ErrInvalidFact
  end.

(** [NewTimestamp]. *)
Definition NewTimestamp (t : Time) : Time := truncate_ms t.
