(* ===== verification/ThreadFacts.v ===== *)
(** * Thread facts: validation and replay

    [src/internal/framework/thread]: [usage.go], [journal.go] (the checks; the
    JSON decoder is not modelled, a decoded commit is a value), [metadata.go]
    (the checks of [thread.json]), [replay.go], [generation_seed.go] and
    [prepareMessage] of [record_id.go]. A function that returns [error] here
    returns a [result]; where Go would dereference a nil pointer the result is
    [ErrNilPointer]. *)

From S2P Require Import Prelude GoStd Llm Events ThreadTypes.
From Stdlib Require Import Ascii.

Local Open Scope Z_scope.
Local Open Scope juex_scope.

(** ** Usage *)

Definition by_model (a : UsageAggregate) : gmap string Usage := default ∅ (a_ByModel a).

Definition UsageAggregate_Add (modelRef : string) (u : Usage) (a : UsageAggregate) :
    UsageAggregate :=
  let total := default zero_usage (by_model a !! modelRef) in
  mkAggregate (Usage_Add (a_Total a) u)
    (Some (<[modelRef := Usage_Add total u]> (by_model a))).

Definition UsageAggregate_Clone (a : UsageAggregate) : UsageAggregate :=
  mkAggregate (a_Total a) (Some (by_model a)).

Definition UsageAggregate_IsZero (a : UsageAggregate) : bool :=
  Usage_IsZero (a_Total a) && bool_decide (by_model a = ∅).

Definition validateUsage (u : Usage) : bool :=
  negb ((u_InputTokens u <? 0) || (u_OutputTokens u <? 0) || (u_CachedInputTokens u <? 0)) &&
  negb (u_InputTokens u <? u_CachedInputTokens u).

Definition validateModelRef (modelRef : string) : bool :=
  match Cut ":"%char modelRef with
  | Some (provider, model) =>
    negb ((provider =?s "") || (model =?s "") ||
          (TrimSpace provider <>?s provider) || (TrimSpace model <>?s model))
  | None => false
  end.

(** The by-model sum; addition commutes, so the order of the map is no matter. *)
Definition usage_sum (m : gmap string Usage) : Usage :=
  map_fold (fun _ u acc => Usage_Add acc u) zero_usage m.

Definition validateUsageAggregate (a : UsageAggregate) : bool :=
  validateUsage (a_Total a) &&
  forallb (fun mu => validateModelRef mu.1 && validateUsage mu.2) (map_to_list (by_model a)) &&
  bool_decide (usage_sum (by_model a) = a_Total a).

(** ** Fact and commit validation *)

Definition check (ok : bool) (e : ThreadError) : result ThreadError unit :=
  if ok then Ok tt else Err e.

Definition parsed (id : string) : option Z :=
  match parseGenerationID id with
  | Ok n => Some n
  | Err _ => None
  end.

(** The work-scope condition of a generation boundary. *)
Definition valid_scope (f : Fact) (seed : GenerationSeed) : bool :=
  match parsed (sd_ContextScopeID seed), parsed (f_FromGenerationID f) with
  | Some scope, Some from =>
    negb (bool_decide (f_Type f = FactContextRenewed) &&
          (sd_ContextScopeID seed <>?s f_ToGenerationID f)) &&
    negb (bool_decide (f_Type f = FactContextCompacted) && (from <? scope))
  | _, _ => false
  end.

(** [Summary] is set and begins the provider messages. *)
Definition begins_with_summary (f : Fact) (seed : GenerationSeed) : bool :=
  match f_Summary f, sd_ProviderMessages seed with
  | Some summary, first :: _ => bool_decide (summary = first)
  | _, _ => false
  end.

Definition empty_context (seed : GenerationSeed) : bool :=
  match sd_ProviderMessages seed, sd_ContextUsage seed with
  | [], None => true
  | _, _ => false
  end.

Definition validate_boundary (f : Fact) : bool :=
  if (f_FromGenerationID f =?s "") || (f_ToGenerationID f =?s "") then false
  else match f_Seed f with
       | None => false
       | Some seed =>
         if negb (sd_Version seed =? ProjectionVersion) then false
         else if negb (valid_scope f seed) then false
         else if bool_decide (f_Type f = FactContextRenewed) then empty_context seed
         else begins_with_summary f seed
       end.

Definition validateFactShape (threadID : string) (f : Fact) : result ThreadError unit :=
  if (f_ThreadID f <>?s "") && (f_ThreadID f <>?s threadID) then Err ErrInvalidFact
  else match f_Type f with
  | FactThreadCreated =>
    if (f_ThreadID f <>?s threadID) || (f_GenerationID f <>?s InitialGeneration) ||
       (f_Alias f =?s "") then Err ErrInvalidFact
    else if (threadID =?s MainID) &&
            ((f_Alias f <>?s MainAlias) || (f_ParentThreadID f <>?s "")) then Err ErrInvalidFact
    else if (threadID <>?s MainID) && negb (ValidID (f_ParentThreadID f)) then Err ErrInvalidFact
    else Ok tt
  | FactMessageAppended =>
    match f_Message f with
    | Some m => check (negb (bool_decide (m_Role m = RoleOther "") || (f_GenerationID f =?s "")))
                  ErrInvalidFact
    | None => Err ErrInvalidFact
    end
  | FactEventRecorded =>
    match f_Event f with
    | Some e => check (ev_Type e <>?s "") ErrInvalidFact
    | None => Err ErrInvalidFact
    end
  | FactContextRenewed | FactContextCompacted => check (validate_boundary f) ErrInvalidFact
  | FactUsageRecorded =>
    match f_Usage f with
    | Some u => check ((f_TurnID f <>?s "") && validateModelRef (f_ModelRef f) && validateUsage u)
                  ErrInvalidFact
    | None => Err ErrInvalidFact
    end
  | FactTurnStarted | FactTurnCompleted | FactTurnFailed | FactTurnCancelled
  | FactThreadSettled => Ok tt
  | FactOther _ => Err ErrInvalidFact
  end.

Definition maxFactsPerCommit : Z := 64.

Fixpoint validate_facts (threadID : string) (l : list Fact) : result ThreadError unit :=
  match l with
  | [] => Ok tt
  | f :: r =>
    try _ := validateFactShape threadID f in
    validate_facts threadID r
  end.

Definition only_fact (t : FactType) : bool :=
  match t with
  | FactThreadCreated | FactContextRenewed | FactContextCompacted => true
  | _ => false
  end.

Definition validateCommit (threadID : string) (c : Commit) : result ThreadError unit :=
  let count := Z.of_nat (length (c_Facts c)) in
  if negb (c_Version c =? JournalVersion) then Err ErrCommitVersion
  else if c_Seq c =? 0 then Err ErrZeroSequence
  else if c_At c =? 0 then Err ErrZeroTimestamp
  else if (count =? 0) || (maxFactsPerCommit <? count) then Err ErrFactCount
  else
    try _ := validate_facts threadID (c_Facts c) in
    check (negb (negb (count =? 1) && existsb (fun f => only_fact (f_Type f)) (c_Facts c)))
      ErrInvalidFact.

(** ** Metadata validation *)

Definition validateProjectionLifecycle (p : Projection) : result ThreadError unit :=
  match p_RetentionState p with
  | RetentionActive =>
    match p_ArchivedAt p, p_ExecutionState p with
    | Some _, _ => Err ErrInvalidTransition
    | None, (ExecutionIdle | ExecutionWorking | ExecutionFailed) => Ok tt
    | None, _ => Err ErrInvalidTransition
    end
  | RetentionArchived =>
    match p_ArchivedAt p, p_ExecutionState p with
    | Some _, ExecutionNone => Ok tt
    | _, _ => Err ErrInvalidTransition
    end
  | RetentionOther _ => Err ErrInvalidTransition
  end.

(** The identity conditions. *)
Definition valid_identity (p : Projection) (id : string) : bool :=
  (p_Version p =? ProjectionVersion) && (p_ThreadID p =?s id) && ValidID id &&
  (p_Alias p <>?s "") &&
  (if id =?s MainID
   then (p_Alias p =?s MainAlias) && (p_ParentThreadID p =?s "")
   else ValidID (p_ParentThreadID p) && (p_ParentThreadID p <>?s id)).

Definition valid_times (p : Projection) : bool :=
  negb ((p_CreatedAt p =? 0) || (p_UpdatedAt p =? 0) || (p_LastActivityAt p =? 0)) &&
  negb ((p_UpdatedAt p <? p_CreatedAt p) || (p_LastActivityAt p <? p_CreatedAt p) ||
        (p_UpdatedAt p <? p_LastActivityAt p)).

Definition valid_archived_at (p : Projection) : bool :=
  match p_ArchivedAt p with
  | Some t => negb ((t <? p_CreatedAt p) || (p_UpdatedAt p <? t))
  | None => true
  end.

(** The generation registry from entry [index], after [previous]. *)
Fixpoint valid_registry (index : Z) (previous : option GenerationProjection)
    (l : list GenerationProjection) : bool :=
  match l with
  | [] => true
  | g :: r =>
    (g_ID g =?s generationID (index + 1)) && (g_Ordinal g =? index + 1) &&
    negb (g_BoundarySeq g =? 0) &&
    match previous with
    | Some p => g_BoundarySeq p <? g_BoundarySeq g
    | None => true
    end &&
    valid_registry (index + 1) (Some g) r
  end.

(** The usage cursor in the generation it names, the first of that id. *)
Fixpoint usage_cursor_in (k : EventCursor) (l : list GenerationProjection) : bool :=
  match l with
  | [] => false
  | g :: r =>
    if g_ID g <>?s k_GenerationID k then usage_cursor_in k r
    else negb (k_Seq k <? g_BoundarySeq g) &&
         match r with
         | next :: _ => negb (g_BoundarySeq next <=? k_Seq k)
         | [] => true
         end
  end.

Definition valid_cursors (p : Projection) : bool :=
  let cursor := p_EventCursor p in
  let usage := p_UsageAggregatedThrough p in
  (k_GenerationID cursor =?s g_ID (p_CurrentGeneration p)) && negb (k_Seq cursor =? 0) &&
  negb (k_Offset cursor <=? 0) &&
  forallb (fun g => negb (k_Seq cursor <? g_BoundarySeq g)) (p_Generations p) &&
  (k_GenerationID usage <>?s "") && negb (k_Seq usage =? 0) && negb (k_Offset usage <=? 0) &&
  usage_cursor_in usage (p_Generations p) &&
  negb (k_Seq cursor <? k_Seq usage) &&
  negb ((k_Seq usage =? k_Seq cursor) && negb (bool_decide (usage = cursor))).

Definition valid_projection (p : Projection) (id : string) : bool :=
  valid_identity p id && valid_times p && negb (p_Revision p =? 0) &&
  is_ok (validateProjectionLifecycle p) &&
  negb ((id =?s MainID) && negb (bool_decide (p_RetentionState p = RetentionActive))) &&
  valid_archived_at p &&
  negb (Nat.eqb (length (p_Generations p)) 0) &&
  (n_GenerationCount (p_Counts p) =? Z.of_nat (length (p_Generations p))) &&
  valid_registry 0 None (p_Generations p) &&
  bool_decide (last (p_Generations p) = Some (p_CurrentGeneration p)) &&
  negb ((n_TurnCount (p_Counts p) <? 0) || (n_PendingInputCount (p_Counts p) <? 0)) &&
  bool_decide (is_Some (a_ByModel (p_TokenUsage p))) &&
  validateUsageAggregate (p_TokenUsage p) &&
  valid_cursors p.

Definition validateProjectionMetadata (p : Projection) (id : string) : result ThreadError unit :=
  check (valid_projection p id) ErrInvalidMetadata.

(** ** Replay *)

(** [cloneProjection]: a deep copy, which makes the token map non-nil. *)
Definition cloneProjection (p : Projection) : Projection :=
  set_TokenUsage (UsageAggregate_Clone (p_TokenUsage p)) p.

Definition cloneReplayState (s : ReplayState) : ReplayState :=
  set_projection (cloneProjection (s_Projection s)) s.

Definition contextProjection (usage : option ContextUsage) (at_ : Time) :
    option ContextProjection :=
  match usage with
  | None => None
  | Some u =>
    let percentage := if 0 <? cu_ContextWindow u
                      then (cu_TotalTokens u * 100, cu_ContextWindow u) else (0, 1) in
    Some (mkContextProjection (cu_ContextWindow u) (cu_TotalTokens u) percentage (Some at_))
  end.

Definition applyGenerationSeed (s : ReplayState) (seed : GenerationSeed) : ReplayState :=
  mkReplay (sd_ContextScopeID seed) (s_Projection s) [] (sd_ProviderMessages seed)
    (sd_RecoveryEvents seed) (s_Activities s) (sd_CompactionCount seed) (sd_ContextUsage seed).

Definition append_message (m : Message) (s : ReplayState) : ReplayState :=
  mkReplay (s_ContextScopeID s) (s_Projection s) (s_Messages s ++ [m])
    (s_ProviderMessages s ++ [m]) (s_Events s) (s_Activities s) (s_CompactionCount s)
    (s_ContextUsage s).

Definition append_event (e : Event) (s : ReplayState) : ReplayState :=
  mkReplay (s_ContextScopeID s) (s_Projection s) (s_Messages s) (s_ProviderMessages s)
    (s_Events s ++ [e]) (s_Activities s) (s_CompactionCount s) (s_ContextUsage s).

Definition set_context_usage (c : option ContextUsage) (s : ReplayState) : ReplayState :=
  mkReplay (s_ContextScopeID s) (s_Projection s) (s_Messages s) (s_ProviderMessages s)
    (s_Events s) (s_Activities s) (s_CompactionCount s) c.

Definition set_scope (scope : string) (s : ReplayState) : ReplayState :=
  mkReplay scope (s_Projection s) (s_Messages s) (s_ProviderMessages s)
    (s_Events s) (s_Activities s) (s_CompactionCount s) (s_ContextUsage s).

(** The activity of a boundary fact; a compaction is counted. *)
Definition boundary_activity (c : scannedCommit) (f : Fact) : Activity :=
  mkActivity (f_Type f) (c_At (sc_Commit c)) (f_FromGenerationID f) (f_ToGenerationID f)
    (f_Summary f) (f_Automatic f).

Definition record_boundary (c : scannedCommit) (f : Fact) (s : ReplayState) : ReplayState :=
  mkReplay (s_ContextScopeID s) (s_Projection s) (s_Messages s) (s_ProviderMessages s)
    (s_Events s) [boundary_activity c f]
    (if bool_decide (f_Type f = FactContextCompacted)
     then wrap_int64 (s_CompactionCount s + 1) else s_CompactionCount s)
    (s_ContextUsage s).

Definition created_projection (threadID : string) (c : Commit) (f : Fact) (p : Projection) :
    Projection :=
  let g := mkGeneration InitialGeneration 1 (c_Seq c) in
  mkProjection ProjectionVersion threadID (f_Alias f) (f_ParentThreadID f) (c_At c) (c_At c)
    (p_ArchivedAt p) RetentionActive ExecutionIdle (p_Revision p) g [g]
    (mkCounts 1 (n_TurnCount (p_Counts p)) (n_PendingInputCount (p_Counts p)))
    (mkAggregate (a_Total (p_TokenUsage p)) (Some ∅)) (p_ContextUsage p) (c_At c)
    (p_EventCursor p) (p_UsageAggregatedThrough p).

(** The registry and counters after a rollover. *)
Definition rolled_projection (c : scannedCommit) (f : Fact) (ordinal : Z)
    (usage : option ContextUsage) (p : Projection) : Projection :=
  let g := mkGeneration (f_ToGenerationID f) ordinal (c_Seq (sc_Commit c)) in
  set_ContextUsage (contextProjection usage (c_At (sc_Commit c)))
    (set_Counts (inc_GenerationCount (p_Counts p))
       (set_Generations g (p_Generations p ++ [g]) p)).

Definition over_projection (f : Projection -> Projection) (s : ReplayState) : ReplayState :=
  set_projection (f (s_Projection s)) s.

Definition applyFact (threadID : string) (s : ReplayState) (c : scannedCommit) (f : Fact) :
    result ThreadError ReplayState :=
  let p := s_Projection s in
  match f_Type f with
  | FactThreadCreated =>
    if (p_ThreadID p <>?s "") || negb (c_Seq (sc_Commit c) =? 1) then Err ErrInvalidTransition
    else Ok (set_scope InitialGeneration
               (over_projection (created_projection threadID (sc_Commit c) f) s))
  | FactMessageAppended =>
    if f_GenerationID f <>?s g_ID (p_CurrentGeneration p) then Err ErrInvalidTransition
    else match f_Message f with
         | Some m => Ok (append_message m s)
         | None => Err ErrNilPointer
         end
  | FactEventRecorded =>
    match f_Event f with
    | Some e => Ok (append_event e s)
    | None => Err ErrNilPointer
    end
  | FactTurnStarted => Ok (over_projection (set_ExecutionState ExecutionWorking) s)
  | FactTurnCompleted | FactTurnCancelled =>
    Ok (over_projection (set_Counts (inc_TurnCount (p_Counts p))) s)
  | FactTurnFailed =>
    Ok (over_projection (fun q => set_ExecutionState ExecutionFailed
                                    (set_Counts (inc_TurnCount (p_Counts p)) q)) s)
  | FactThreadSettled =>
    if bool_decide (p_RetentionState p = RetentionActive)
    then Ok (over_projection (set_ExecutionState ExecutionIdle) s) else Ok s
  | FactContextRenewed | FactContextCompacted =>
    if f_FromGenerationID f <>?s g_ID (p_CurrentGeneration p) then Err ErrInvalidTransition
    else match parseGenerationID (f_ToGenerationID f) with
         | Err _ => Err ErrInvalidTransition
         | Ok next =>
           if negb (next =? wrap_int64 (g_Ordinal (p_CurrentGeneration p) + 1))
           then Err ErrInvalidTransition
           else match f_Seed f with
                | None => Err ErrNilPointer
                | Some seed =>
                  let s' := record_boundary c f (applyGenerationSeed s seed) in
                  Ok (over_projection (rolled_projection c f next (s_ContextUsage s')) s')
                end
         end
  | FactUsageRecorded =>
    let s1 := match f_Usage f with
              | Some u => over_projection
                            (set_TokenUsage (UsageAggregate_Add (f_ModelRef f) u (p_TokenUsage p))) s
              | None => s
              end in
    Ok match f_ContextUsage f with
       | Some u => over_projection
                     (set_ContextUsage (contextProjection (Some u) (c_At (sc_Commit c))))
                     (set_context_usage (Some u) s1)
       | None => s1
       end
  | FactOther _ => Ok s
  end.

Fixpoint apply_facts (threadID : string) (c : scannedCommit) (l : list Fact) (s : ReplayState) :
    result ThreadError ReplayState :=
  match l with
  | [] => Ok s
  | f :: r =>
    try s' := applyFact threadID s c f in
    apply_facts threadID c r s'
  end.

Definition commit_cursor (c : scannedCommit) : EventCursor :=
  mkCursor (sc_GenerationID c) (c_Seq (sc_Commit c)) (sc_EndOffset c).

(** The stamps of a committed record. *)
Definition stamp (c : scannedCommit) (p : Projection) : Projection :=
  set_UsageAggregatedThrough (commit_cursor c)
    (set_EventCursor (commit_cursor c) (set_Activity (c_At (sc_Commit c)) p)).

Definition applyCommit (threadID : string) (s : ReplayState) (c : scannedCommit) :
    result ThreadError ReplayState :=
  try s' := apply_facts threadID c (c_Facts (sc_Commit c)) s in
  try _ := validateProjectionLifecycle (s_Projection s') in
  Ok (over_projection (stamp c) s').

Fixpoint apply_commits (threadID : string) (l : list scannedCommit) (s : ReplayState) :
    result ThreadError ReplayState :=
  match l with
  | [] => Ok s
  | c :: r =>
    try s' := applyCommit threadID s c in
    apply_commits threadID r s'
  end.

Definition replay (threadID : string) (commits : list scannedCommit) :
    result ThreadError ReplayState :=
  match apply_commits threadID commits zero_state with
  | Err _ => Err ErrCorruptJournal
  | Ok s => if Nat.eqb (length commits) 0 then Err ErrCorruptJournal else Ok s
  end.

(** ** Generation boundaries *)

Definition retained_in (summary : Message) (m : Message) : bool :=
  match m_Compaction summary with
  | Some c => bool_decide (m_ID m ∈ elems (cm_RetainedMessageIDs c))
  | None => false
  end.

Definition compactProviderMessages (summary : Message) (history : list Message) :
    list Message :=
  match m_Compaction summary with
  | Some c =>
    if Nat.eqb (length (elems (cm_RetainedMessageIDs c))) 0 then [summary]
    else summary :: filter (fun m => retained_in summary m = true) history
  | None => [summary]
  end.

Definition settled_type (t : string) : bool :=
  (t =?s "turn.completed") || (t =?s "turn.errored") || (t =?s "turn.cancelled").

(** The index loop, downwards from the last event: [below] is what is still to
    be visited, last first, [above] the events after it. *)
Fixpoint recovery_loop (below above : list Event) : list Event :=
  match below with
  | [] => above
  | e :: r => if settled_type (ev_Type e) then e :: above else recovery_loop r (e :: above)
  end.

Definition generationRecoveryEvents (recorded : list Event) : list Event :=
  recovery_loop (rev recorded) [].

Definition generationSeedFromState (s : ReplayState) (provider : list Message)
    (usage : option ContextUsage) : GenerationSeed :=
  mkSeed ProjectionVersion (s_ContextScopeID s) provider
    (generationRecoveryEvents (s_Events s)) (s_CompactionCount s) usage.

(** [prepareMessage] with the id [newRecordID] would draw. *)
Definition prepareMessage (fresh : string) (m : Message) : Message :=
  let m := ClassifyUserMessage m in
  let m := if m_ID m =?s "" then with_ID fresh m else m in
  match m_Blocks m with
  | None => with_Blocks [] m
  | Some _ => m
  end.
