(* ===== verification/ContextBudget.v ===== *)
(** * The context budget and compaction

    [src/internal/framework/runtime/contextbudget] ([policy.go], [usage.go],
    [select.go], [active.go]) with [runtime/policy/policy.go], and from
    [runtime/compact.go] the search for the room of a summary and the compact
    message. A compaction splits the context of a thread into a part that is
    summarised and a part that is kept, and begins a generation of the thread
    with the summary and the kept messages ([ThreadFacts.compactProviderMessages]).

    A request to a model is estimated as a number of tokens. [int] is 64 bits
    wide: the products of [scaledContextBudget] and of the image sizes wrap, sums
    of estimates are bounded by the size of the text. The encoded size of a tool
    input ([json.Marshal]) is a parameter. *)

From S2P Require Import Prelude GoStd Llm ContextText ThreadTypes ThreadFacts.

Local Open Scope Z_scope.
Local Open Scope juex_scope.

(** ** Policy *)

Definition DefaultContextWindowTokens : Z := 256000.

Record CompactionPolicy := mkCompactionPolicy {
  cp_Enabled : bool;
  cp_Instructions : string;
  cp_ReserveTokens : Z;
  cp_KeepRecentTokens : Z;
  cp_SummaryModel : string;
  cp_SummaryMaxTokens : Z;
  cp_ToolResultMaxChars : Z;
  cp_UserInputInlineMaxBytes : Z;
  cp_UserInputPreviewHeadBytes : Z;
  cp_UserInputPreviewTailBytes : Z;
  cp_MaxAutoFailures : Z;
}.

Definition DefaultCompactionPolicy : CompactionPolicy :=
  mkCompactionPolicy true "" 0 0 "" 0 0 65536 8192 8192 3.

Record Policy := mkPolicy {
  pl_Enabled : bool;
  pl_Instructions : string;
  pl_ContextWindow : Z;
  pl_ReserveTokens : Z;
  pl_KeepRecentTokens : Z;
  pl_SummaryModel : string;
  pl_SummaryRequestTokens : Z;
  pl_SummaryMaxTokens : Z;
  pl_ToolResultMaxTokens : Z;
  pl_ToolResultMaxChars : Z;
  pl_UserInputInlineMaxBytes : Z;
  pl_UserInputPreviewHeadBytes : Z;
  pl_UserInputPreviewTailBytes : Z;
  pl_MaxAutoFailures : Z;
  pl_TriggerTokens : Z;
}.

Definition smallContextWindow : Z := 100000.
Definition largeContextWindow : Z := 1000000.
Definition smallSummaryTokens : Z := 1000.
Definition mediumSummaryTokens : Z := 2000.
Definition smallToolTokens : Z := 500.
Definition mediumToolTokens : Z := 2000.

Definition minPositiveBudget (a b : Z) : Z := if a <? b then a else b.

Definition scaledContextBudget (contextWindow numerator denominator : Z) : Z :=
  if (contextWindow <=? 0) || (numerator <=? 0) || (denominator <=? 0) then 1
  else
    let budget := Z.quot (wrap_int64 (contextWindow * numerator)) denominator in
    if budget <? 1 then 1 else budget.

Definition cappedContextBudget (derived configured : Z) : Z :=
  if 0 <? configured then minPositiveBudget derived configured else derived.

Definition summaryOutputTokenBudget (contextWindow : Z) : Z :=
  if contextWindow <? smallContextWindow then smallSummaryTokens
  else if contextWindow <? largeContextWindow then mediumSummaryTokens
  else scaledContextBudget contextWindow 1 200.

Definition toolResultContentBudgets (contextWindow configuredMaxChars : Z) : Z * Z :=
  let '(maxTokens, maxChars) :=
    if contextWindow <? smallContextWindow then (smallToolTokens, 0)
    else if contextWindow <? largeContextWindow then (mediumToolTokens, 0)
    else (0, scaledContextBudget contextWindow 1 200) in
  let maxChars :=
    if 0 <? configuredMaxChars then
      if 0 <? maxChars then minPositiveBudget maxChars configuredMaxChars
      else configuredMaxChars
    else maxChars in
  (maxTokens, maxChars).

Definition ToolResultTokenBudget (contextWindow : Z) : Z :=
  (toolResultContentBudgets contextWindow 0).1.

(** A configured value, or the default where it is not positive. *)
Definition or_default (configured default : Z) : Z := if configured <=? 0 then default else configured.

Definition EffectivePolicy (policy : CompactionPolicy) (contextWindow defaultContextWindow : Z) :
    Policy :=
  let contextWindow := or_default contextWindow defaultContextWindow in
  let defaults := DefaultCompactionPolicy in
  let trigger := scaledContextBudget contextWindow 80 100 in
  let trigger :=
    if 0 <? cp_ReserveTokens policy then
      let configuredTrigger := contextWindow - cp_ReserveTokens policy in
      minPositiveBudget trigger (if configuredTrigger <? 1 then 1 else configuredTrigger)
    else trigger in
  let reserve := contextWindow - trigger in
  let keep := cappedContextBudget (scaledContextBudget contextWindow 5 64)
                (cp_KeepRecentTokens policy) in
  let summaryRequest := scaledContextBudget contextWindow 90 100 in
  let summaryMax := cappedContextBudget (summaryOutputTokenBudget contextWindow)
                      (cp_SummaryMaxTokens policy) in
  let '(toolMaxTokens, toolMaxChars) :=
    toolResultContentBudgets contextWindow (cp_ToolResultMaxChars policy) in
  mkPolicy (cp_Enabled policy) (cp_Instructions policy) contextWindow reserve keep
    (cp_SummaryModel policy) summaryRequest summaryMax toolMaxTokens toolMaxChars
    (or_default (cp_UserInputInlineMaxBytes policy) (cp_UserInputInlineMaxBytes defaults))
    (or_default (cp_UserInputPreviewHeadBytes policy) (cp_UserInputPreviewHeadBytes defaults))
    (or_default (cp_UserInputPreviewTailBytes policy) (cp_UserInputPreviewTailBytes defaults))
    (or_default (cp_MaxAutoFailures policy) (cp_MaxAutoFailures defaults))
    trigger.

(** ** Estimates of messages *)

Definition role_text (r : Role) : string :=
  match r with
  | RoleUser => "user"
  | RoleAssistant => "assistant"
  | RoleSystem => "system"
  | RoleOther s => s
  end.

Definition block_type_text (t : BlockType) : string :=
  match t with
  | BlockText => "text"
  | BlockImage => "image"
  | BlockToolUse => "tool_use"
  | BlockToolResult => "tool_result"
  | BlockReasoning => "reasoning"
  | BlockOther s => s
  end.

Definition EstimateMediaReferenceChars (media : MediaRef) : Z :=
  let chars := len (md_ArtifactPath media) + len (md_MediaType media) + len (md_SHA256 media) + 24 in
  let imageTokens :=
    if (0 <? md_Width media) && (0 <? md_Height media) then
      let pixels := wrap_int64 (md_Width media * md_Height media) in
      if 0 <? pixels then
        let estimated := Z.quot (wrap_int64 (pixels + 749)) 750 in
        if 85 <? estimated then estimated else 85
      else 85
    else 85 in
  wrap_int64 (chars + imageTokens * 4).

Section Estimates.
  (** The length of the JSON text of a tool input, if it can be encoded. *)
  Context (input_size : list (string * Json) -> option Z).

Definition EstimateBlockTokens (b : Block) : Z :=
  EstimateCharsAsTokens
    (len (block_type_text (b_Type b)) + len (b_ToolUseID b) + len (b_ToolName b) + 8) +
  EstimateTextTokens (b_Text b) + EstimateTextTokens (b_Content b) +
  (match b_Media b with
   | Some media => EstimateCharsAsTokens (EstimateMediaReferenceChars media)
   | None => 0
   end) +
  (match elems (b_Input b) with
   | [] => 0
   | input => match input_size input with
              | Some size => EstimateCharsAsTokens size
              | None => 0
              end
   end).

Definition EstimateMessageTokens (history : list Message) : Z :=
  foldl (fun tokens m =>
    foldl (fun tokens b => tokens + EstimateBlockTokens b)
      (tokens + EstimateCharsAsTokens (len (role_text (m_Role m)) + len (m_Kind m) + 8)) (blocks m))
    0 history.

Definition EstimateCompactSummaryTokens (history : list Message) : Z :=
  EstimateMessageTokens (filter (fun m => m_Kind m = MessageKindCompact) history).

Definition EstimateContextArtifactTokens (history : list Message) : Z :=
  foldl (fun tokens m =>
    foldl (fun tokens b =>
      match b_Artifact b with
      | None => tokens
      | Some _ => tokens + (EstimateTextTokens (b_Text b) + EstimateTextTokens (b_Content b))
      end) tokens (blocks m)) 0 history.

Definition EstimateOrdinaryMessageTokens (history : list Message) : Z :=
  EstimateMessageTokens
    (map (fun m => with_Blocks (filter (fun b => b_Artifact b = None) (blocks m)) m)
       (filter (fun m => m_Kind m <> MessageKindCompact) history)).
End Estimates.

(** ** The active context *)

Definition providerVisible (m : Message) : bool :=
  (m_Kind m <>?s MessageKindPolicyEvent) && negb (m_PolicyBlocked m).

Definition ProviderVisibleMessages (msgs : list Message) : list Message :=
  filter (fun m => providerVisible m = true) msgs.

(** The messages before the last compact message of a history, that message, and
    the messages after it. *)
Fixpoint latest_compact (before history : list Message) (found : option (list Message * Message * list Message)) :
    option (list Message * Message * list Message) :=
  match history with
  | [] => found
  | m :: r =>
    latest_compact (before ++ [m]) r
      (if m_Kind m =?s MessageKindCompact then Some (before, m, r) else found)
  end.

(** The messages from the first one with an id on. *)
Fixpoint from_id (id : string) (history : list Message) : option (list Message) :=
  match history with
  | [] => None
  | m :: r => if m_ID m =?s id then Some history else from_id id r
  end.

Definition wanted (ids : list string) (m : Message) : bool := bool_decide (m_ID m ∈ ids).

(** What a compact message keeps of the messages before it. *)
Definition retainedMessagesForCompact (history : list Message) (compact : Message) : list Message :=
  match m_Compaction compact with
  | None => []
  | Some c =>
    match elems (cm_RetainedMessageIDs c) with
    | [] =>
      if cm_TailStartMessageID c =?s "" then []
      else default [] (from_id (cm_TailStartMessageID c) history)
    | ids => filter (fun m => wanted ids m = true) history
    end
  end.

(** The messages of [AssembleActiveContext], whose estimate the callers take. *)
Definition AssembleActiveContext (history incoming : list Message) : list Message :=
  let history := ProviderVisibleMessages history in
  let incoming := ProviderVisibleMessages incoming in
  match latest_compact [] history None with
  | None => history ++ incoming
  | Some (before, compact, after) =>
    [compact] ++ retainedMessagesForCompact before compact ++ after ++ incoming
  end.

(** ** Selection of the input of a summary *)

(** The indexes into the history that [Selection] also records are left out: no
    code reads them. *)
Record Selection := mkSelection {
  sl_PreviousSummary : option Message;
  sl_SummaryInput : list Message;
  sl_RetainedTail : list Message;
  sl_RetainedMessageIDs : list string;
  sl_OversizedInputIDs : list string;
  sl_FirstKeptMessageID : string;
  sl_TailStartMessageID : string;
}.

Definition relevant_kind (kind : string) : bool :=
  negb (bool_decide (kind ∈ [MessageKindPolicyEvent; MessageKindRuntimeContext;
          MessageKindModelChange; MessageKindSystemNotice; MessageKindCompact])).

Definition compactionRelevant (m : Message) : bool :=
  negb (m_PolicyBlocked m) && relevant_kind (m_Kind m).

Definition compactionRelevantMessages (messages : list Message) : list Message :=
  filter (fun m => compactionRelevant m = true) messages.

Definition isRealInput (m : Message) : bool :=
  bool_decide (m_Role m = RoleUser) &&
  (bool_decide (m_Kind m ∈ [MessageKindDirect; MessageKindMCPEvent; MessageKindObservation;
      MessageKindWorkerThread]) ||
   ((m_Kind m =?s "") && (m_Kind (ClassifyUserMessage m) =?s MessageKindDirect))).

Definition requiresExecutionTail (m : Message) : bool :=
  (m_Kind m =?s MessageKindContinuation) || (m_Kind m =?s MessageKindToolResult) ||
  existsb (fun b => bool_decide (b_Type b = BlockToolUse) ||
                    bool_decide (b_Type b = BlockToolResult)) (blocks m).

(** The index of the last message of a kind. *)
Fixpoint last_message_index (P : Message -> bool) (i : nat) (l : list Message) (found : option nat) : option nat :=
  match l with
  | [] => found
  | m :: r => last_message_index P (S i) r (if P m then Some i else found)
  end.

(** [None] is the result [-1]. *)
Definition executionTailStart (work : list Message) : option nat :=
  match last work with
  | None => None
  | Some m =>
    if negb (requiresExecutionTail m) then None
    else match last_message_index isRealInput 0 work None with
    | Some i => Some i
    | None =>
      Some (default 0%nat
              (last_message_index (fun m => m_Kind m =?s MessageKindContinuation) 0 work None))
    end
  end.

Definition messageHasRetainableReference (m : Message) : bool :=
  existsb (fun b =>
    (bool_decide (b_Type b = BlockText) && (b_Text b <>?s "")) ||
    (bool_decide (b_Type b = BlockImage) &&
     match b_Media b with
     | Some media => md_ArtifactPath media <>?s ""
     | None => false
     end)) (blocks m).

Section Select.
  Context (estimateMessages : list Message -> Z).

(** The messages from the last one down. *)
Fixpoint newest_oversized (down : list Message) (budget : Z) : string :=
  match down with
  | [] => ""
  | m :: r =>
    if negb (isRealInput m) then newest_oversized r budget
    else if messageHasRetainableReference m && (budget <? estimateMessages [m]) then m_ID m
    else ""
  end.

Definition newestOversizedInputID (work : list Message) (budget : Z) : string :=
  if budget <=? 0 then "" else newest_oversized (rev work) budget.

(** The real inputs that fit, from the last one down. *)
Fixpoint keep_inputs (down : list Message) (budget tokens : Z) (keep : gset string) : gset string :=
  match down with
  | [] => keep
  | m :: r =>
    if negb (isRealInput m) then keep_inputs r budget tokens keep
    else
      let cost := estimateMessages [m] in
      if (0 <? budget) && (budget <? tokens + cost) then keep
      else keep_inputs r budget (tokens + cost) ({[m_ID m]} ∪ keep)
  end.

Definition chooseRetainedMessages (work : list Message) (budget : Z) : gset string :=
  let keep := keep_inputs (rev work) budget 0 ∅ in
  match executionTailStart work with
  | Some start => list_to_set (map m_ID (drop start work)) ∪ keep
  | None => keep
  end.

(** The last compact message and the messages to choose from. *)
Definition selection_work (history : list Message) : option Message * list Message :=
  match latest_compact [] history None with
  | Some (before, compact, after) =>
    (Some compact, compactionRelevantMessages (retainedMessagesForCompact before compact ++ after))
  | None => (None, compactionRelevantMessages history)
  end.

Definition SelectInputWithEstimator (history : list Message) (policy : Policy) : Selection :=
  let '(previous, work) := selection_work history in
  match work with
  | [] => mkSelection previous [] [] [] [] "" ""
  | _ =>
    let keep := chooseRetainedMessages work (pl_KeepRecentTokens policy) in
    let oversized := newestOversizedInputID work (pl_KeepRecentTokens policy) in
    let retained (m : Message) := negb (m_ID m =?s oversized) && bool_decide (m_ID m ∈ keep) in
    let tail := filter (fun m => retained m = true) work in
    let input := filter (fun m => retained m = false) work in
    mkSelection previous
      (match input with [] => tail | _ => input end)
      tail
      (filter (fun id => id <> "") (map m_ID tail))
      (if oversized =?s "" then [] else [oversized])
      (match tail with
       | m :: _ => m_ID m
       | [] => oversized
       end)
      (match executionTailStart work with
       | Some start => match work !! start with Some m => m_ID m | None => "" end
       | None => ""
       end)
  end.
End Select.

(** ** Compaction *)

(** The search of [compactLocked] for the largest room of a summary; [apply] is
    the calibration of the engine. *)
Fixpoint summary_room (fuel : nat) (apply : Z -> Z) (baseTokens trigger low high : Z) : Z :=
  match fuel with
  | O => low
  | S k =>
    if low <? high then
      let mid := low + Z.quot (high - low + 1) 2 in
      if apply (baseTokens + mid) <=? trigger
      then summary_room k apply baseTokens trigger mid high
      else summary_room k apply baseTokens trigger low (mid - 1)
    else low
  end.

(** [None] is the error that no room is left. *)
Definition summaryRoom (c : TokenEstimateCalibration) (baseTokens : Z) (policy : Policy) : option Z :=
  let low := summary_room (S (Z.to_nat (pl_SummaryMaxTokens policy))) (Calibration_Apply c)
               baseTokens (pl_TriggerTokens policy) 0 (pl_SummaryMaxTokens policy) in
  if low =? 0 then None else Some low.

(** A copy of a slice: nil when there is nothing to copy. *)
Definition copied {A} (l : list A) : option (list A) :=
  match l with
  | [] => None
  | _ => Some l
  end.

(** The compact message of a selection; [text] is the summary in its envelope. *)
Definition newSummaryMessage (selection : Selection) (auto : bool) (reason text model : string)
    (references : list Message) (tokensBefore tokensAfter summaryChars : Z) : Message :=
  mkMessage "" RoleUser (Some [textBlock text]) MessageKindCompact false ""
    (Some (mkCompaction auto reason
       (match sl_PreviousSummary selection with Some m => m_ID m | None => "" end)
       (sl_FirstKeptMessageID selection) (sl_TailStartMessageID selection)
       (copied (sl_RetainedMessageIDs selection)) (copied references)
       tokensBefore tokensAfter summaryChars model)).
