(* ===== verification/ContextBudgetProps.v ===== *)
(** * The context budget and compaction: what a compaction keeps

    The budgets derived from a context window, the split of a context into what
    is summarised and what is kept, and the context after the compaction. *)

From S2P Require Import Prelude GoStd Llm ContextText ThreadTypes ThreadFacts ContextBudget.

Local Open Scope Z_scope.
Local Open Scope juex_scope.

(** ** Messages without tool blocks *)

Definition plain (m : Message) : Prop :=
  Forall (fun b => b_Type b <> BlockToolUse /\ b_Type b <> BlockToolResult) (blocks m).

(** A message that shows something to a provider. *)
Definition spoken (m : Message) : Prop :=
  Exists (fun b => providerVisibleValidationBoundary b = true) (blocks m).

Lemma plain_open_calls id l :
  Forall (fun b => b_Type b <> BlockToolUse /\ b_Type b <> BlockToolResult) l -> open_calls id l = 0.
Proof.
  induction 1 as [|b l Hb _ IH]; simpl; [done|]. rewrite IH, delta_no_call by auto. lia.
Qed.

Lemma plain_good s f m : (forall id, 0 <= f id) -> (s -> forall id, f id = 0) -> plain m ->
  good_blocks s f (blocks m).
Proof.
  intros Hf Hs Hp l1 b l2 E. unfold plain in Hp. rewrite E in Hp. apply Forall_app in Hp as [H1 H2].
  split.
  - intros H _ id. rewrite plain_open_calls by done. rewrite Hs; [lia|done].
  - intros id. rewrite plain_open_calls; [rewrite Z.add_0_r; apply Hf|].
    apply Forall_app. split; [done|]. inversion H2; subst. constructor; [done|constructor].
Qed.

(** Removing messages without tool blocks keeps a history good. *)
Lemma good_history_filter (P : Message -> bool) h : forall f,
  good_history f h -> Forall (fun m => P m = false -> plain m) h ->
  good_history f (filter (fun m => P m = true) h) /\
  forall id, open_calls id (flat (filter (fun m => P m = true) h)) = open_calls id (flat h).
Proof.
  induction h as [|m h IH]; intros f Hg HF; [by split|].
  apply good_history_cons in Hg as [Hm Hh]. inversion HF as [|? ? Hp HF']; subst.
  destruct (IH _ Hh HF') as [IH1 IH2]. rewrite filter_cons.
  change (flat (m :: h)) with (blocks m ++ flat h). case_decide as HP.
  - split; [by apply good_history_cons|]. intros id.
    change (flat (m :: ?l)) with (blocks m ++ flat l). by rewrite !open_calls_app, IH2.
  - assert (plain m) as Hpm by (apply Hp; by destruct (P m)).
    split.
    + eapply good_history_ext; [|exact IH1]. intros id. simpl. rewrite plain_open_calls by done. lia.
    + intros id. rewrite open_calls_app, IH2, (plain_open_calls id (blocks m)) by done. lia.
Qed.

Lemma balanced_filter (P : Message -> bool) h :
  balanced h -> Forall (fun m => P m = false -> plain m) h ->
  balanced (filter (fun m => P m = true) h).
Proof.
  intros [Hg Hz] HF. destruct (good_history_filter P h _ Hg HF) as [H1 H2].
  split; [done|]. intros id. by rewrite H2.
Qed.

Lemma balanced_plain_app h1 h2 : Forall plain h1 -> balanced h2 -> balanced (h1 ++ h2).
Proof.
  intros HF [Hg Hz]. induction HF as [|m h1 Hm _ IH]; [by split|].
  destruct IH as [IH1 IH2]. split.
  - simpl. apply good_history_cons. split; [apply plain_good; [done| |done]; intros [id Hid]; lia|].
    eapply good_history_ext; [|exact IH1]. intros id. simpl. rewrite plain_open_calls by done. lia.
  - intros id. change (flat ((m :: h1) ++ h2)) with (blocks m ++ flat (h1 ++ h2)).
    by rewrite open_calls_app, IH2, (plain_open_calls id (blocks m)).
Qed.

(** No call is open before a message that speaks without tool blocks. *)
Lemma balanced_suffix pre m post :
  balanced (pre ++ m :: post) -> plain m -> spoken m -> balanced (m :: post).
Proof.
  intros [Hg Hz] Hp Hs.
  assert (forall id, open_calls id (flat pre) = 0) as Hpre.
  { intros id. destruct (decide (open_calls id (flat pre) = 0)) as [|Hne]; [done|exfalso].
    apply Exists_exists in Hs as (b & Hin & Hb). apply list_elem_of_split in Hin as (l1 & l2 & E).
    destruct (Hg pre m post eq_refl l1 b l2 E) as [H1 _].
    specialize (H1 ltac:(exists id; lia) Hb id). unfold plain in Hp. rewrite E in Hp.
    apply Forall_app in Hp as [Hp _]. rewrite (plain_open_calls id l1) in H1 by done. lia. }
  split.
  - intros pre' c post' E. specialize (Hg (pre ++ pre') c post').
    rewrite E, <- app_assoc in Hg. specialize (Hg eq_refl).
    eapply good_blocks_ext; [..|exact Hg]; simpl.
    + split; intros [id Hid]; exists id; rewrite flat_app, open_calls_app, Hpre in *; lia.
    + intros id. rewrite flat_app, open_calls_app, Hpre. lia.
  - intros id. specialize (Hz id). rewrite flat_app, open_calls_app, Hpre in Hz. lia.
Qed.

(** ** The latest compact message *)

Definition not_compact (m : Message) : Prop := m_Kind m <> MessageKindCompact.

Lemma latest_compact_spec h : forall before found,
  (Forall not_compact h /\ latest_compact before h found = found) \/
  (exists b c a, h = b ++ c :: a /\ m_Kind c = MessageKindCompact /\ Forall not_compact a /\
     latest_compact before h found = Some (before ++ b, c, a)).
Proof.
  induction h as [|m h IH]; intros before found; simpl; [left; split; [constructor|done]|].
  case_bool_decide as Hm.
  - destruct (IH (before ++ [m]) (Some (before, m, h))) as [[HF E]|(b & c & a & -> & Hc & Ha & E)]; rewrite E.
    + right. exists [], m, h. by rewrite app_nil_r.
    + right. exists (m :: b), c, a. by rewrite <- app_assoc.
  - destruct (IH (before ++ [m]) found) as [[HF E]|(b & c & a & -> & Hc & Ha & E)]; rewrite E.
    + left. split; [by constructor|done].
    + right. exists (m :: b), c, a. by rewrite <- app_assoc.
Qed.

Lemma latest_compact_None h : Forall not_compact h -> latest_compact [] h None = None.
Proof.
  intros HF. destruct (latest_compact_spec h [] None) as [[_ E]|(b & c & a & -> & Hc & _)]; [done|].
  apply Forall_app in HF as [_ HF]. by inversion HF.
Qed.

Lemma latest_compact_Some b c a : m_Kind c = MessageKindCompact -> Forall not_compact a ->
  latest_compact [] (b ++ c :: a) None = Some (b, c, a).
Proof.
  intros Hc Ha. destruct (latest_compact_spec (b ++ c :: a) [] None)
    as [[HF _]|(b' & c' & a' & E & Hc' & Ha' & ->)].
  - apply Forall_app in HF as [_ HF]. inversion HF; subst. contradiction.
  - assert (b' = b /\ c' = c /\ a' = a) as (-> & -> & ->); [|done].
    clear -E Hc Ha Hc' Ha'. revert b' E. induction b as [|x b IH]; intros [|y b'] E; simplify_eq/=.
    + done.
    + apply Forall_app in Ha as [_ Ha]. by inversion Ha.
    + apply Forall_app in Ha' as [_ Ha']. by inversion Ha'.
    + destruct (IH _ H0) as (-> & -> & ->). done.
Qed.

(** ** Messages chosen by id *)

Lemma ids_sublist (R H : list Message) : R `sublist_of` H -> map m_ID R `sublist_of` map m_ID H.
Proof. induction 1; simpl; constructor; auto. Qed.

Lemma id_inj H m n : NoDup (map m_ID H) -> m ∈ H -> n ∈ H -> m_ID m = m_ID n -> m = n.
Proof.
  intros Hnd Hm Hn E. induction H as [|x H IH]; [by apply not_elem_of_nil in Hm|].
  apply NoDup_cons in Hnd as [Hx Hnd].
  assert (forall y, y ∈ H -> m_ID y <> m_ID x) as Hne.
  { intros y Hy Ey. apply Hx. rewrite <- Ey. by apply (list_elem_of_fmap_2 m_ID). }
  apply elem_of_cons in Hm as [->|Hm], Hn as [->|Hn]; [done| | |by apply IH].
  - by destruct (Hne _ Hn).
  - by destruct (Hne _ Hm).
Qed.

Lemma filter_ext_in (P Q : Message -> bool) (b : bool) (l : list Message) : (forall m, m ∈ l -> P m = Q m) ->
  filter (fun m => P m = b) l = filter (fun m => Q m = b) l.
Proof.
  intros H. induction l as [|m l IH]; [done|]. rewrite !filter_cons, (H m) by (by left).
  rewrite IH by (intros n Hn; apply H; by right). done.
Qed.

Lemma list_filter_all {A} (P : A -> Prop) `{!forall x, Decision (P x)} (l : list A) :
  (forall x, x ∈ l -> P x) -> filter P l = l.
Proof.
  intros Hall. induction l as [|x l IH]; [done|].
  rewrite filter_cons, decide_True by (apply Hall; by left).
  rewrite IH; [done|]. intros y Hy. apply Hall. by right.
Qed.

Lemma filter_sublist_eq (P : Message -> bool) (R H : list Message) :
  R `sublist_of` H -> NoDup H -> (forall m, m ∈ H -> P m = true <-> m ∈ R) ->
  filter (fun m => P m = true) H = R.
Proof.
  induction 1 as [|x R H HRH IH|x R H HRH IH]; intros Hnd HP; [done|..];
    apply NoDup_cons in Hnd as [Hx Hnd]; rewrite filter_cons.
  - rewrite decide_True by (apply HP; by left). f_equal. apply IH; [done|].
    intros m Hm. rewrite HP by (by right). rewrite elem_of_cons. split; [|tauto].
    intros [->|]; done.
  - rewrite decide_False.
    + apply IH; [done|]. intros m Hm. apply HP. by right.
    + rewrite HP by (by left). intros Hin. by apply Hx, (sublist_subseteq _ _ HRH).
Qed.

(** Selecting by the ids of a sublist gives the sublist back. *)
Lemma filter_wanted R H : R `sublist_of` H -> NoDup (map m_ID H) ->
  filter (fun m => wanted (map m_ID R) m = true) H = R.
Proof.
  intros HRH Hnd. apply filter_sublist_eq; [done|by eapply NoDup_fmap_1|].
  intros m Hm. unfold wanted. rewrite bool_decide_eq_true, list_elem_of_fmap. split; [|by exists m].
  intros (n & E & Hn). rewrite (id_inj H m n); [done..|by apply (sublist_subseteq _ _ HRH)|done].
Qed.

Lemma from_id_suffix id h l : from_id id h = Some l -> l `suffix_of` h.
Proof.
  induction h as [|m h IH]; simpl; [done|]. case_bool_decide; [by intros [= <-]|].
  intros E. apply suffix_cons_r. by apply IH.
Qed.

Lemma retained_sublist before compact : retainedMessagesForCompact before compact `sublist_of` before.
Proof.
  unfold retainedMessagesForCompact. destruct (m_Compaction compact) as [c|]; [|apply sublist_nil_l].
  destruct (elems (cm_RetainedMessageIDs c)) as [|id ids]; [|apply sublist_filter].
  case_bool_decide; [apply sublist_nil_l|].
  destruct (from_id _ before) as [l|] eqn:E; [|apply sublist_nil_l].
  apply from_id_suffix in E as [k ->]. by apply sublist_inserts_l.
Qed.

(** ** The messages a compaction chooses from *)

Lemma visible_idem h : ProviderVisibleMessages (ProviderVisibleMessages h) = ProviderVisibleMessages h.
Proof. unfold ProviderVisibleMessages. by rewrite list_filter_filter_l. Qed.

Lemma relevant_compact m : m_Kind m = MessageKindCompact -> compactionRelevant m = false.
Proof.
  intros E. unfold compactionRelevant, relevant_kind. rewrite E. by destruct (m_PolicyBlocked m).
Qed.

Lemma selection_work_active history :
  (selection_work (ProviderVisibleMessages history)).2 =
  compactionRelevantMessages (AssembleActiveContext history []).
Proof.
  unfold selection_work, AssembleActiveContext. 
  destruct (latest_compact_spec (ProviderVisibleMessages history) [] None)
    as [[_ E]|(b & c & a & _ & Hc & _ & E)]; rewrite E; simpl.
  - by rewrite app_nil_r.
  - unfold compactionRelevantMessages. rewrite app_nil_r, filter_cons, decide_False; [done|].
    by rewrite relevant_compact.
Qed.

Lemma selection_work_sublist history : (selection_work history).2 `sublist_of` history.
Proof.
  unfold selection_work, compactionRelevantMessages.
  destruct (latest_compact_spec history [] None) as [[_ E]|(b & c & a & Eh & _ & _ & E)]; rewrite E; simpl.
  - apply sublist_filter.
  - etransitivity; [apply sublist_filter|]. rewrite Eh. apply sublist_app; [apply retained_sublist|].
    by apply sublist_cons.
Qed.

Lemma relevant_work history m : m ∈ (selection_work history).2 -> compactionRelevant m = true.
Proof.
  unfold selection_work, compactionRelevantMessages.
  destruct (latest_compact [] history None) as [[[b c] a]|]; simpl;
    by intros [? _]%list_elem_of_filter.
Qed.

(** ** The real inputs that are kept *)

Definition cost (estimate : list Message -> Z) (l : list Message) : Z :=
  foldr (fun m n => estimate [m] + n) 0 l.

Definition inputs_of (work : list Message) : list Message :=
  filter (fun m => isRealInput m = true) work.

Section Selecting.
  Context (estimate : list Message -> Z).

(** [newest] are the newest real inputs of [work] that fit into [budget]: their
    cost does, and one more would not. *)
Definition newest_fitting (budget : Z) (work newest : list Message) : Prop :=
  exists older, inputs_of work = older ++ newest /\
    (newest = [] \/ cost estimate newest <= budget) /\
    forall m, last older = Some m -> budget < estimate [m] + cost estimate newest.

Lemma keep_inputs_spec budget : 0 < budget -> forall down taken keep tokens,
  tokens = cost estimate taken -> (taken = [] \/ tokens <= budget) ->
  exists older newest,
    inputs_of (rev down) = older ++ newest /\
    keep_inputs estimate down budget tokens keep = list_to_set (map m_ID newest) ∪ keep /\
    (newest ++ taken = [] \/ cost estimate (newest ++ taken) <= budget) /\
    forall m, last older = Some m -> budget < estimate [m] + cost estimate (newest ++ taken).
Proof.
  intros Hb. induction down as [|m down IH]; intros taken keep tokens Ht Hle; simpl.
  { exists [], []. split_and!; [done|set_solver| |done]. simpl. by subst. }
  unfold inputs_of in *. rewrite filter_app, filter_cons, filter_nil.
  destruct (isRealInput m) eqn:Hm; simpl.
  2: { rewrite app_nil_r. by apply IH. }
  rewrite (proj2 (Z.ltb_lt 0 budget)) by done. simpl.
  destruct (budget <? tokens + estimate [m]) eqn:E; to_prop.
  - exists (filter (fun m => isRealInput m = true) (rev down) ++ [m]), [].
    split_and!; [by rewrite app_nil_r|set_solver|simpl; by subst|].
    intros m'. rewrite last_snoc. intros [= <-]. simpl. subst. lia.
  - destruct (IH (m :: taken) ({[m_ID m]} ∪ keep) (tokens + estimate [m])) as (o & n & E1 & E2 & E3 & E4);
      [simpl; lia|right; lia|].
    exists o, (n ++ [m]). rewrite <- !app_assoc. split_and!; [by rewrite E1, app_assoc| |done|done].
    rewrite E2, map_app, list_to_set_app_L. simpl. set_solver.
Qed.

Lemma keep_inputs_newest budget work : 0 < budget ->
  exists newest, newest_fitting budget work newest /\
    keep_inputs estimate (rev work) budget 0 ∅ = list_to_set (map m_ID newest).
Proof.
  intros Hb. destruct (keep_inputs_spec budget Hb (rev work) [] ∅ 0 eq_refl (or_introl eq_refl))
    as (o & n & E1 & E2 & E3 & E4). rewrite rev_involutive in E1. rewrite app_nil_r in *.
  exists n. split; [by exists o|]. rewrite E2. set_solver.
Qed.
End Selecting.

(** ** The execution tail and the oversized input *)

Definition execution_tail (work : list Message) : list Message :=
  match executionTailStart work with
  | Some i => drop i work
  | None => []
  end.

Lemma last_index_spec P l : forall i found,
  (Forall (fun m => P m = false) l /\ last_message_index P i l found = found) \/
  (exists j m, l !! j = Some m /\ P m = true /\ last_message_index P i l found = Some (i + j)%nat).
Proof.
  induction l as [|m l IH]; intros i found; simpl; [left; split; [constructor|done]|].
  destruct (IH (S i) (if P m then Some i else found)) as [[HF E]|(j & x & Hj & Hx & E)]; rewrite E.
  - destruct (P m) eqn:Hm; [right; exists 0%nat, m; split_and!; [done..|f_equal; lia]|].
    left. split; [by constructor|done].
  - right. exists (S j), x. split_and!; [done..|f_equal; lia].
Qed.

(** The tail starts at a real input, at a continuation, or with the whole work. *)
Lemma execution_tail_spec work :
  (executionTailStart work = None /\ execution_tail work = []) \/
  exists pre, work = pre ++ execution_tail work /\ execution_tail work <> [] /\
    (pre = [] \/ exists m rest, execution_tail work = m :: rest /\
       (isRealInput m = true \/ m_Kind m = MessageKindContinuation)) /\
    exists m, last work = Some m /\ requiresExecutionTail m = true.
Proof.
  unfold execution_tail, executionTailStart.
  destruct (last work) as [l|] eqn:El; [|by left].
  destruct (requiresExecutionTail l) eqn:Er; simpl; [|by left]. right.
  assert (forall i m, work !! i = Some m -> exists rest, drop i work = m :: rest) as Hdrop
    by (intros i m Hi; eexists; by apply drop_S).
  destruct (last_index_spec isRealInput work 0 None) as [[_ E]|(j & m & Hj & Hm & E)]; rewrite E; simpl.
  - destruct (last_index_spec (fun m => m_Kind m =?s MessageKindContinuation) work 0 None)
      as [[_ E']|(j & m & Hj & Hm & E')]; rewrite E'; simpl.
    + exists []. rewrite drop_0. split_and!; [done|by intros ->|by left|by exists l].
    + exists (take j work). rewrite take_drop. to_prop. destruct (Hdrop _ _ Hj) as [rest ->].
      split_and!; [done..|right; exists m, rest; by split; [|right]|by exists l].
  - exists (take j work). rewrite take_drop. destruct (Hdrop _ _ Hj) as [rest ->].
    split_and!; [done..|right; exists m, rest; by split; [|left]|by exists l].
Qed.

Section Oversized.
  Context (estimate : list Message -> Z).

Definition oversized_input (budget : Z) (work : list Message) : option Message :=
  match last (inputs_of work) with
  | Some m =>
    if messageHasRetainableReference m && (budget <? estimate [m]) then Some m else None
  | None => None
  end.

Lemma newest_oversized_spec budget down :
  newest_oversized estimate down budget =
  match oversized_input budget (rev down) with
  | Some m => m_ID m
  | None => ""
  end.
Proof.
  unfold oversized_input, inputs_of.
  induction down as [|m down IH]; simpl; [done|]. rewrite filter_app, filter_cons, filter_nil.
  destruct (isRealInput m); simpl.
  - rewrite last_snoc. by destruct (_ && _).
  - rewrite app_nil_r. exact IH.
Qed.

Lemma oversized_in_work budget work m : oversized_input budget work = Some m ->
  m ∈ work /\ isRealInput m = true /\ budget < estimate [m].
Proof.
  unfold oversized_input. destruct (last _) as [x|] eqn:E; [|done].
  destruct (_ && _) eqn:Eb; [|done]. intros [= ->]. to_prop.
  apply last_Some_elem_of in E. apply list_elem_of_filter in E as [? ?]. done.
Qed.

(** Whether a message is kept, as a property of the message. *)
Definition kept (budget : Z) (work newest : list Message) (m : Message) : bool :=
  bool_decide (m ∈ newest ++ execution_tail work) &&
  negb (bool_decide (oversized_input budget work = Some m)).

Lemma newest_in_work budget work newest : newest_fitting estimate budget work newest ->
  forall m, m ∈ newest -> m ∈ work /\ isRealInput m = true.
Proof.
  intros (older & E & _) m Hm. assert (m ∈ inputs_of work) as Hi by (rewrite E; set_solver).
  by apply list_elem_of_filter in Hi as [? ?].
Qed.

Lemma tail_in_work work m : m ∈ execution_tail work -> m ∈ work.
Proof.
  unfold execution_tail. destruct (executionTailStart work); [|by intros ?%not_elem_of_nil].
  apply (sublist_subseteq _ _ (sublist_drop work _)).
Qed.

Lemma ids_elem work l m : NoDup (map m_ID work) -> m ∈ work -> (forall n, n ∈ l -> n ∈ work) ->
  m_ID m ∈ map m_ID l <-> m ∈ l.
Proof.
  intros Hnd Hm Hl. rewrite list_elem_of_fmap. split; [|by exists m].
  intros (n & E & Hn). by rewrite (id_inj work m n) by auto.
Qed.

(** The test of the code by ids is the test by messages. *)
Lemma retained_kept budget work newest m :
  0 < budget -> NoDup (map m_ID work) -> Forall (fun m => m_ID m <> "") work ->
  newest_fitting estimate budget work newest ->
  keep_inputs estimate (rev work) budget 0 ∅ = list_to_set (map m_ID newest) ->
  m ∈ work ->
  negb (m_ID m =?s newestOversizedInputID estimate work budget) &&
    bool_decide (m_ID m ∈ chooseRetainedMessages estimate work budget) = kept budget work newest m.
Proof.
  intros Hb Hnd Hne Hnew Hkeep Hm. rewrite Forall_forall in Hne.
  unfold newestOversizedInputID. rewrite (proj2 (Z.leb_gt budget 0)) by done.
  rewrite newest_oversized_spec, rev_involutive.
  unfold chooseRetainedMessages, kept, execution_tail. rewrite Hkeep.
  pose proof (newest_in_work _ _ _ Hnew) as Hnw. pose proof (tail_in_work work) as Htw.
  unfold execution_tail in Htw.
  rewrite andb_comm. f_equal; [|f_equal].
  - apply bool_decide_ext. rewrite elem_of_app.
    destruct (executionTailStart work) as [i|]; rewrite ?elem_of_union, !elem_of_list_to_set.
    + rewrite !(ids_elem work) by naive_solver. tauto.
    + rewrite (ids_elem work) by naive_solver. set_solver.
  - apply bool_decide_ext. destruct (oversized_input budget work) as [o|] eqn:Eo.
    + destruct (oversized_in_work _ _ _ Eo) as (Ho & _). split; [|congruence].
      intros E. f_equal. symmetry. by apply (id_inj work).
    + split; [|done]. intros E. by destruct (Hne m Hm).
Qed.
End Oversized.

(** ** The selection *)

Section Selection.
  Context (estimate : list Message -> Z).

(** Distinct ids: what the thread's journal gives every message. *)
Definition identified (l : list Message) : Prop :=
  NoDup (map m_ID l) /\ Forall (fun m => m_ID m <> "") l.

Lemma identified_sublist l k : l `sublist_of` k -> identified k -> identified l.
Proof.
  intros Hs [Hnd Hne]. split.
  - eapply sublist_NoDup; [done|by apply ids_sublist].
  - rewrite Forall_forall in *. intros m Hm. by apply Hne, (sublist_subseteq _ _ Hs).
Qed.

Lemma selection_spec history policy :
  identified history -> 0 < pl_KeepRecentTokens policy ->
  let s := SelectInputWithEstimator estimate history policy in
  let work := (selection_work history).2 in
  exists newest, newest_fitting estimate (pl_KeepRecentTokens policy) work newest /\
    let keep := kept estimate (pl_KeepRecentTokens policy) work newest in
    sl_RetainedTail s = filter (fun m => keep m = true) work /\
    sl_RetainedMessageIDs s = map m_ID (sl_RetainedTail s) /\
    (sl_SummaryInput s = filter (fun m => keep m = false) work \/
     sl_RetainedTail s = work /\ sl_SummaryInput s = work).
Proof.
  intros Hid Hb. cbv zeta. pose proof (identified_sublist _ _ (selection_work_sublist history) Hid) as Hw.
  unfold SelectInputWithEstimator. destruct (selection_work history) as [previous work]. simpl in *.
  destruct (keep_inputs_newest estimate _ work Hb) as (newest & Hnew & Hkeep).
  exists newest. split; [done|]. destruct Hw as [Hnd Hne].
  destruct work as [|w0 work0]; [simpl; split_and!; [done..|by left]|].
  set (work := w0 :: work0) in *. simpl.
  set (P := fun m => negb (m_ID m =?s newestOversizedInputID estimate work (pl_KeepRecentTokens policy)) &&
      bool_decide (m_ID m ∈ chooseRetainedMessages estimate work (pl_KeepRecentTokens policy))).
  assert (forall b, filter (fun m => P m = b) work =
      filter (fun m => kept estimate (pl_KeepRecentTokens policy) work newest m = b) work) as Hf
    by (intros b; apply filter_ext_in; intros m Hm; by apply retained_kept).
  rewrite !Hf. split_and!; [done| |].
  - apply list_filter_all. intros id Hin. apply list_elem_of_fmap in Hin as (m & -> & Hm).
    apply list_elem_of_filter in Hm as [_ Hm]. rewrite Forall_forall in Hne. by apply Hne.
  - destruct (filter (fun m => _ = false) work) eqn:Ei; [right|by left].
    enough (filter (fun m => kept estimate (pl_KeepRecentTokens policy) work newest m = true) work = work)
      as -> by done.
    apply list_filter_all. intros m Hm. destruct (kept _ _ _ _ m) eqn:E; [done|].
    assert (m ∈ []) as H%not_elem_of_nil by (rewrite <- Ei; by apply list_elem_of_filter). done.
Qed.
End Selection.

(** ** Budgets *)

Lemma scaled_small w n d : 0 < w -> 0 < n -> 0 < d -> w * n <= max_int64 ->
  scaledContextBudget w n d = Z.max 1 (w * n / d).
Proof.
  intros Hw Hn Hd Hm. unfold scaledContextBudget.
  rewrite !(proj2 (Z.leb_gt _ 0)) by done. simpl.
  rewrite wrap_int64_small by (unfold min_int64; nia).
  rewrite Z.quot_div_nonneg by nia. destruct (_ <? 1) eqn:E; to_prop; lia.
Qed.

Lemma min_positive a b : minPositiveBudget a b = Z.min a b.
Proof. unfold minPositiveBudget. destruct (a <? b) eqn:E; to_prop; lia. Qed.

Lemma summary_output_pos w : 0 < w -> w * 200 <= max_int64 -> 1 <= summaryOutputTokenBudget w.
Proof.
  intros Hw Hm. unfold summaryOutputTokenBudget.
  destruct (_ <? _); [done|]. destruct (_ <? _); [done|]. rewrite scaled_small by lia. lia.
Qed.

Lemma tool_limits w configured : 0 < w -> w * 200 <= max_int64 ->
  0 <= (toolResultContentBudgets w configured).1 /\ 0 <= (toolResultContentBudgets w configured).2 /\
  (0 < (toolResultContentBudgets w configured).1 \/ 0 < (toolResultContentBudgets w configured).2) /\
  (0 < configured -> 0 < (toolResultContentBudgets w configured).2 <= configured).
Proof.
  intros Hw Hm. unfold toolResultContentBudgets.
  assert (1 <= scaledContextBudget w 1 200) as Hs by (rewrite scaled_small by lia; lia).
  destruct (w <? smallContextWindow); [|destruct (w <? largeContextWindow)];
    destruct (0 <? configured) eqn:E; simpl; to_prop;
    unfold smallToolTokens, mediumToolTokens; try lia.
  all: rewrite ?(proj2 (Z.ltb_lt 0 (scaledContextBudget w 1 200))) by lia; rewrite ?min_positive; lia.
Qed.

(** The budgets derived from a context window [w] (the configured one, or the
    default) that does not make a product overflow. Compaction is triggered at
    four fifths of the window, or earlier to leave the configured reserve; the
    trigger, what is kept, the summary and its request are positive and within
    the window; a configured limit only lowers a budget; a tool result always
    has a limit. *)
Theorem effective_policy_bounds policy contextWindow defaultContextWindow :
  let w := or_default contextWindow defaultContextWindow in
  0 < w -> w * 200 <= max_int64 ->
  let p := EffectivePolicy policy contextWindow defaultContextWindow in
  1 <= pl_TriggerTokens p <= Z.max 1 (w * 80 / 100) /\
  pl_ReserveTokens p = w - pl_TriggerTokens p /\ 0 <= pl_ReserveTokens p /\
  (0 < cp_ReserveTokens policy -> Z.min (w - 1) (cp_ReserveTokens policy) <= pl_ReserveTokens p) /\
  1 <= pl_KeepRecentTokens p <= Z.max 1 (w * 5 / 64) /\
  (0 < cp_KeepRecentTokens policy -> pl_KeepRecentTokens p <= cp_KeepRecentTokens policy) /\
  1 <= pl_SummaryRequestTokens p <= w /\ 1 <= pl_SummaryMaxTokens p /\
  (0 < cp_SummaryMaxTokens policy -> pl_SummaryMaxTokens p <= cp_SummaryMaxTokens policy) /\
  (0 < pl_ToolResultMaxTokens p \/ 0 < pl_ToolResultMaxChars p) /\
  1 <= pl_MaxAutoFailures p.
Proof.
  intros w Hw Hm p. subst p. unfold EffectivePolicy. fold w.
  pose proof (summary_output_pos w Hw Hm) as Hso.
  pose proof (tool_limits w (cp_ToolResultMaxChars policy) Hw Hm) as (_ & _ & Htool & _).
  destruct (toolResultContentBudgets w (cp_ToolResultMaxChars policy)) as [tt tc]. simpl in *.
  rewrite !scaled_small by lia. unfold cappedContextBudget. rewrite !min_positive.
  assert (w * 80 / 100 <= w) by (apply Z.div_le_upper_bound; lia).
  assert (w * 90 / 100 <= w) by (apply Z.div_le_upper_bound; lia).
  assert (1 <= or_default (cp_MaxAutoFailures policy) 3) as Hf
    by (unfold or_default; destruct (_ <=? 0) eqn:E; to_prop; lia).
  destruct (0 <? cp_ReserveTokens policy) eqn:E1, (0 <? cp_KeepRecentTokens policy) eqn:E2,
    (0 <? cp_SummaryMaxTokens policy) eqn:E3; to_prop;
    try (destruct (w - cp_ReserveTokens policy <? 1) eqn:E4; to_prop); split_and!; lia || done || auto.
Qed.

(** ** The room of a summary *)

Lemma summary_room_spec apply baseTokens trigger top fuel : forall low high,
  low <= high -> high - low < Z.of_nat fuel ->
  (low = 0 \/ apply (baseTokens + low) <= trigger) ->
  (high = top \/ trigger < apply (baseTokens + high + 1)) ->
  let r := summary_room fuel apply baseTokens trigger low high in
  low <= r <= high /\ (r = 0 \/ apply (baseTokens + r) <= trigger) /\
  (r = top \/ trigger < apply (baseTokens + r + 1)).
Proof.
  induction fuel as [|k IH]; intros low high Hle Hf Hlow Hhigh; [lia|]. simpl.
  destruct (low <? high) eqn:E; to_prop.
  2: { assert (low = high) as -> by lia. split_and!; [lia|lia|done|done]. }
  assert (low < low + (high - low + 1) ÷ 2 <= high) as Hmid.
  { rewrite Z.quot_div_nonneg by lia. split.
    - enough (1 <= (high - low + 1) / 2) by lia. apply Z.div_le_lower_bound; lia.
    - enough ((high - low + 1) / 2 <= high - low) by lia. apply Z.div_le_upper_bound; lia. }
  set (mid := low + _) in *. destruct (apply (baseTokens + mid) <=? trigger) eqn:Ea; to_prop.
  - destruct (IH mid high ltac:(lia) ltac:(lia) (or_intror Ea) Hhigh) as (H1 & H2). split; [lia|done].
  - destruct (IH low (mid - 1) ltac:(lia) ltac:(lia) Hlow) as (H1 & H2).
    + right. replace (baseTokens + (mid - 1) + 1) with (baseTokens + mid) by lia. done.
    + split; [lia|done].
Qed.

(** The search for the room of a summary ends, and with a positive limit
    finds one that fits and that no single token more would, under the engine's
    rounding calibration whatever it is; only when not even one token fits is
    there no room. *)
Theorem summary_room_largest c baseTokens policy :
  0 < pl_SummaryMaxTokens policy ->
  match summaryRoom c baseTokens policy with
  | Some room =>
    0 < room <= pl_SummaryMaxTokens policy /\
    Calibration_Apply c (baseTokens + room) <= pl_TriggerTokens policy /\
    (room = pl_SummaryMaxTokens policy \/
     pl_TriggerTokens policy < Calibration_Apply c (baseTokens + room + 1))
  | None => pl_TriggerTokens policy < Calibration_Apply c (baseTokens + 1)
  end.
Proof.
  intros Hp. unfold summaryRoom.
  destruct (summary_room_spec (Calibration_Apply c) baseTokens (pl_TriggerTokens policy)
    (pl_SummaryMaxTokens policy) (S (Z.to_nat (pl_SummaryMaxTokens policy))) 0 (pl_SummaryMaxTokens policy))
    as (H1 & H2 & H3); [lia|lia|by left|by left|].
  destruct (_ =? 0) eqn:E; to_prop.
  - rewrite E in H3. replace (baseTokens + 0 + 1) with (baseTokens + 1) in H3 by lia. lia.
  - split_and!; [lia|lia|lia|done].
Qed.

(** ** The split of a context

    What a compaction splits and what it keeps, said of messages and lists
    without the code's searches, indexes and tests by id. *)

Definition relevant (m : Message) : Prop :=
  m_PolicyBlocked m = false /\ m_Kind m ∉ [MessageKindPolicyEvent; MessageKindRuntimeContext;
    MessageKindModelChange; MessageKindSystemNotice; MessageKindCompact].

(** An input of the user or of a source of events. *)
Definition real_input (m : Message) : Prop :=
  m_Role m = RoleUser /\
  (m_Kind m ∈ [MessageKindDirect; MessageKindMCPEvent; MessageKindObservation; MessageKindWorkerThread] \/
   m_Kind m = "" /\ (blocks m = [] \/ Exists (fun b => b_Type b <> BlockToolResult) (blocks m))).

(** A message of a running execution. *)
Definition execution_step (m : Message) : Prop :=
  m_Kind m = MessageKindContinuation \/ m_Kind m = MessageKindToolResult \/
  Exists (fun b => b_Type b = BlockToolUse \/ b_Type b = BlockToolResult) (blocks m).

(** A message with text, or with an image that has a file. *)
Definition referable (m : Message) : Prop :=
  Exists (fun b => b_Type b = BlockText /\ b_Text b <> "" \/
    b_Type b = BlockImage /\ exists media, b_Media b = Some media /\ md_ArtifactPath media <> "") (blocks m).

#[export] Instance relevant_dec m : Decision (relevant m).
Proof. unfold relevant. apply _. Defined.
#[export] Instance real_input_dec m : Decision (real_input m).
Proof. unfold real_input. apply _. Defined.

(** What the compact message [c] has kept of the messages before it. *)
Inductive kept_by (before : list Message) (c : Message) : list Message -> Prop :=
| kb_none : m_Compaction c = None -> kept_by before c []
| kb_ids r : m_Compaction c = Some r -> elems (cm_RetainedMessageIDs r) <> [] ->
    kept_by before c (filter (fun m => m_ID m ∈ elems (cm_RetainedMessageIDs r)) before)
| kb_tail r pre m post : m_Compaction c = Some r -> elems (cm_RetainedMessageIDs r) = [] ->
    cm_TailStartMessageID r <> "" -> before = pre ++ m :: post -> m_ID m = cm_TailStartMessageID r ->
    Forall (fun n => m_ID n <> m_ID m) pre -> kept_by before c (m :: post)
| kb_lost r : m_Compaction c = Some r -> elems (cm_RetainedMessageIDs r) = [] ->
    cm_TailStartMessageID r = "" \/ Forall (fun n => m_ID n <> cm_TailStartMessageID r) before -> kept_by before c [].

(** What a compaction considers: everything relevant, or what the last compact
    message has kept and what came after it. *)
Inductive considered (history : list Message) : option Message -> list Message -> Prop :=
| cd_all : Forall not_compact history -> considered history None (filter relevant history)
| cd_after b c a l : history = b ++ c :: a -> m_Kind c = MessageKindCompact -> Forall not_compact a ->
    kept_by b c l -> considered history (Some c) (filter relevant (l ++ a)).

(** The messages of an unfinished execution: when the work ends in one, from its
    last real input on, else from its last continuation on, else all. *)
Inductive unfinished (work : list Message) : list Message -> Prop :=
| uf_finished : (forall m, last work = Some m -> ~ execution_step m) -> unfinished work []
| uf_input pre m rest e : last work = Some e -> execution_step e -> work = pre ++ m :: rest -> real_input m ->
    Forall (fun n => ~ real_input n) rest -> unfinished work (m :: rest)
| uf_continuation pre m rest e : last work = Some e -> execution_step e -> Forall (fun n => ~ real_input n) work ->
    work = pre ++ m :: rest -> m_Kind m = MessageKindContinuation ->
    Forall (fun n => m_Kind n <> MessageKindContinuation) rest -> unfinished work (m :: rest)
| uf_all e : last work = Some e -> execution_step e -> Forall (fun n => ~ real_input n) work ->
    Forall (fun n => m_Kind n <> MessageKindContinuation) work -> unfinished work work.

(** The newest input, when it alone exceeds the budget and can be referred to. *)
Definition too_large (estimate : list Message -> Z) (budget : Z) (work : list Message) (o : option Message) : Prop :=
  match last (filter real_input work) with
  | Some m => (referable m /\ budget < estimate [m] /\ o = Some m) \/ (~ (referable m /\ budget < estimate [m]) /\ o = None)
  | None => o = None
  end.

(** The newest inputs that fit into the budget: one more would not. *)
Definition newest_inputs (estimate : list Message -> Z) (budget : Z) (work newest : list Message) : Prop :=
  exists older, filter real_input work = older ++ newest /\
    (newest = [] \/ cost estimate newest <= budget) /\
    forall m, last older = Some m -> budget < estimate [m] + cost estimate newest.

(** *** The code's tests are these *)

Lemma compactionRelevant_spec m : compactionRelevant m = true <-> relevant m.
Proof. unfold compactionRelevant, relevant_kind, relevant. rewrite andb_true_iff, !negb_true_iff. by rewrite bool_decide_eq_false. Qed.

Lemma classified_direct m : m_Role m = RoleUser -> m_Kind m = "" ->
  m_Kind (ClassifyUserMessage m) = MessageKindDirect <-> blocks m = [] \/ Exists (fun b => b_Type b <> BlockToolResult) (blocks m).
Proof.
  intros Hr Hk. unfold ClassifyUserMessage. rewrite Hr, Hk. cbn [bool_decide negb orb].
  rewrite (bool_decide_eq_true_2 (RoleUser = RoleUser)), bool_decide_eq_true_2 by done. cbn [negb orb].
  destruct (blocks m) as [|b l] eqn:Eb; [split; [by left|done]|]. cbn [length Nat.eqb negb andb].
  destruct (forallb _ _) eqn:Ef; cbn [m_Kind with_Kind].
  - split; [done|]. intros [?|Hx]; [done|]. rewrite forallb_forall in Ef. apply Exists_exists in Hx as (x & Hx & Hn).
    apply list_elem_of_In, Ef in Hx. by apply bool_decide_eq_true in Hx.
  - split; [|done]. intros _. right. apply Exists_exists. apply not_true_iff_false in Ef.
    destruct (decide (Exists (fun x => b_Type x <> BlockToolResult) (b :: l))) as [Hx|Hx]; [by apply Exists_exists in Hx|].
    exfalso. apply Ef, forallb_forall. intros x Hin%list_elem_of_In. apply bool_decide_eq_true.
    destruct (decide (b_Type x = BlockToolResult)); [done|]. exfalso. apply Hx, Exists_exists. eauto.
Qed.

Lemma isRealInput_spec m : isRealInput m = true <-> real_input m.
Proof.
  unfold isRealInput, real_input. rewrite andb_true_iff, orb_true_iff, andb_true_iff, !bool_decide_eq_true.
  split; (intros [Hr [Hk|[Hk Hd]]]; (split; [done|])); first [by left|right; split; [done|by apply classified_direct]].
Qed.

Lemma existsb_Exists {A} (f : A -> bool) (P : A -> Prop) l : (forall x, f x = true <-> P x) -> existsb f l = true <-> Exists P l.
Proof.
  intros H. rewrite existsb_exists, Exists_exists. split; intros (x & Hx & Hf); exists x; (split; [by apply list_elem_of_In|by apply H]).
Qed.

Lemma requiresExecutionTail_spec m : requiresExecutionTail m = true <-> execution_step m.
Proof.
  unfold requiresExecutionTail, execution_step. rewrite !orb_true_iff, !bool_decide_eq_true.
  rewrite (existsb_Exists _ (fun b => b_Type b = BlockToolUse \/ b_Type b = BlockToolResult)); [tauto|].
  intros b. by rewrite orb_true_iff, !bool_decide_eq_true.
Qed.

Lemma referable_spec m : messageHasRetainableReference m = true <-> referable m.
Proof.
  unfold messageHasRetainableReference, referable. apply existsb_Exists. intros b.
  rewrite orb_true_iff, !andb_true_iff, !bool_decide_eq_true. split.
  - intros [[H1 H2]|[H1 H2]]; [left; split; [done|by to_prop]|right; split; [done|]].
    destruct (b_Media b) as [media|]; [|done]. exists media. split; [done|by to_prop].
  - intros [[H1 H2]|(H1 & media & Hm & H2)]; [left; split; [done|]|right; split; [done|]]; rewrite ?Hm;
      by apply negb_true_iff, bool_decide_eq_false.
Qed.

Lemma filter_spec (f : Message -> bool) (P : Message -> Prop) `{!forall m, Decision (P m)} (l : list Message) :
  (forall m, f m = true <-> P m) -> filter (fun m => f m = true) l = filter P l.
Proof. intros HfP. by apply list_filter_iff. Qed.

Lemma not_real_input m : isRealInput m = false <-> ~ real_input m.
Proof. by rewrite <- isRealInput_spec, not_true_iff_false. Qed.

Lemma retained_kept_by before c : kept_by before c (retainedMessagesForCompact before c).
Proof.
  unfold retainedMessagesForCompact. destruct (m_Compaction c) as [r|] eqn:Ec; [|by constructor].
  destruct (elems (cm_RetainedMessageIDs r)) as [|id ids] eqn:Ei.
  - case_bool_decide as Ht; [by eapply kb_lost; eauto|].
    assert (forall l, (exists pre m post, l = pre ++ m :: post /\ m_ID m = cm_TailStartMessageID r /\
        Forall (fun n => m_ID n <> m_ID m) pre /\ from_id (cm_TailStartMessageID r) l = Some (m :: post)) \/
      (Forall (fun n => m_ID n <> cm_TailStartMessageID r) l /\ from_id (cm_TailStartMessageID r) l = None)) as Hf.
    { induction l as [|m l IH]; simpl; [right; by split|]. case_bool_decide as Em.
      - left. exists [], m, l. by split_and!.
      - destruct IH as [(pre & n & post & -> & Hn & Hp & E)|[Hl E]]; rewrite E.
        + left. exists (m :: pre), n, post. split_and!; [done..| |done]. constructor; [congruence|done].
        + right. split; [by constructor|done]. }
    destruct (Hf before) as [(pre & m & post & Eb & Hm & Hp & ->)|[Hl ->]]; simpl; [by eapply kb_tail|by eapply kb_lost; eauto].
  - rewrite <- Ei. rewrite (filter_spec _ (fun m => m_ID m ∈ elems (cm_RetainedMessageIDs r))).
    + eapply kb_ids; [done|by rewrite Ei].
    + intros m. unfold wanted. apply bool_decide_eq_true.
Qed.

Lemma selection_work_considered history : considered history (selection_work history).1 (selection_work history).2.
Proof.
  unfold selection_work, compactionRelevantMessages.
  destruct (latest_compact_spec history [] None) as [[Hn ->]|(b & c & a & Eh & Hc & Ha & ->)]; cbn [fst snd];
    rewrite (filter_spec _ relevant) by apply compactionRelevant_spec; [by constructor|].
  eapply cd_after; [done..|]. apply retained_kept_by.
Qed.

(** The last message with a property splits the list. *)
Lemma last_index_split P l :
  (Forall (fun m => P m = false) l /\ last_message_index P 0 l None = None) \/
  exists i m, last_message_index P 0 l None = Some i /\ l = take i l ++ m :: drop (S i) l /\ drop i l = m :: drop (S i) l /\
    P m = true /\ Forall (fun n => P n = false) (drop (S i) l).
Proof.
  enough (forall k found, (Forall (fun m => P m = false) l /\ last_message_index P k l found = found) \/
    exists i m, last_message_index P k l found = Some (k + i)%nat /\ l !! i = Some m /\ P m = true /\
      Forall (fun n => P n = false) (drop (S i) l)) as H.
  { destruct (H 0%nat None) as [?|(i & m & E & Hi & Hm & Hr)]; [by left|]. right. exists i, m.
    pose proof (drop_S _ _ _ Hi) as Hd. split_and!; [done| |done..]. by rewrite <- Hd, take_drop. }
  induction l as [|m l IH]; intros k found; simpl; [by left; split|].
  destruct (IH (S k) (if P m then Some k else found)) as [[HF ->]|(i & x & -> & Hi & Hx & Hr)].
  - destruct (P m) eqn:Hm; [right; exists 0%nat, m; split_and!; [f_equal; lia|done|done|by rewrite drop_0]|].
    left. split; [by constructor|done].
  - right. exists (S i), x. split_and!; [f_equal; lia|done..].
Qed.

Lemma execution_tail_unfinished work : unfinished work (execution_tail work).
Proof.
  unfold execution_tail, executionTailStart. destruct (last work) as [e|] eqn:El; [|constructor; congruence].
  destruct (requiresExecutionTail e) eqn:Er; cbn [negb].
  2:{ constructor. rewrite El. intros m [= <-]. rewrite <- requiresExecutionTail_spec. congruence. }
  apply requiresExecutionTail_spec in Er. destruct (last_index_split isRealInput work) as [[Hn ->]|(i & m & -> & Ew & Ed & Hm & Hr)].
  - assert (Forall (fun n => ~ real_input n) work) as Hn'.
    { eapply Forall_impl; [exact Hn|]. intros x. apply not_real_input. }
    destruct (last_index_split (fun m => m_Kind m =?s MessageKindContinuation) work) as [[Hc ->]|(i & m & -> & Ew & Ed & Hm & Hr)];
      cbn [default].
    + rewrite drop_0. eapply uf_all; [done..|]. eapply Forall_impl; [exact Hc|]. intros x. apply bool_decide_eq_false.
    + cbn. rewrite Ed. eapply uf_continuation; [done..|by apply bool_decide_eq_true in Hm|].
      eapply Forall_impl; [exact Hr|]. intros x. apply bool_decide_eq_false.
  - rewrite Ed. eapply uf_input; [done..|by apply isRealInput_spec|]. eapply Forall_impl; [exact Hr|]. intros x. apply not_real_input.
Qed.

Lemma oversized_too_large estimate budget work : too_large estimate budget work (oversized_input estimate budget work).
Proof.
  unfold too_large, oversized_input, inputs_of. rewrite (filter_spec _ real_input) by apply isRealInput_spec.
  destruct (last (filter real_input work)) as [m|]; [|done].
  destruct (messageHasRetainableReference m && (budget <? estimate [m])) eqn:E.
  - apply andb_prop in E as [E1%referable_spec E2%Z.ltb_lt]. by left.
  - right. split; [|done]. intros [H1 H2]. apply referable_spec in H1. apply Z.ltb_lt in H2. by rewrite H1, H2 in E.
Qed.

Lemma fitting_newest estimate budget work newest : newest_fitting estimate budget work newest -> newest_inputs estimate budget work newest.
Proof. unfold newest_fitting, newest_inputs, inputs_of. by rewrite (filter_spec _ real_input) by apply isRealInput_spec. Qed.

Lemma split_some (keep : Message -> bool) m l :
  match filter (fun m => keep m = false) (m :: l) with
  | [] => filter (fun m => keep m = true) (m :: l)
  | _ => filter (fun m => keep m = false) (m :: l)
  end <> [].
Proof. rewrite !filter_cons. destruct (keep m); simpl; [|done]. by destruct (filter _ l) eqn:E. Qed.

(** The ids that a selection records beside the messages. *)
Lemma selection_records estimate history policy : identified history -> 0 < pl_KeepRecentTokens policy ->
  let s := SelectInputWithEstimator estimate history policy in
  let work := (selection_work history).2 in
  let o := oversized_input estimate (pl_KeepRecentTokens policy) work in
  sl_PreviousSummary s = (selection_work history).1 /\
  sl_OversizedInputIDs s = match o with Some m => [m_ID m] | None => [] end /\
  (sl_SummaryInput s = [] -> work = []).
Proof.
  intros Hid Hb. cbv zeta. pose proof (identified_sublist _ _ (selection_work_sublist history) Hid) as [_ Hne].
  unfold SelectInputWithEstimator. destruct (selection_work history) as [previous work]. cbn [fst snd] in *.
  pose proof (newest_oversized_spec estimate (pl_KeepRecentTokens policy) (rev work)) as Ho. rewrite rev_involutive in Ho.
  destruct work as [|w0 work0]; [done|]. set (work := w0 :: work0) in *.
  cbn [sl_PreviousSummary sl_OversizedInputIDs sl_SummaryInput]. unfold newestOversizedInputID.
  rewrite (proj2 (Z.leb_gt _ 0)) by done. rewrite Ho. split_and!; [done| |].
  - destruct (oversized_input _ _ work) as [m|] eqn:Eo; [|done].
    apply oversized_in_work in Eo as (Hm & _). rewrite Forall_forall in Hne. rewrite bool_decide_eq_false_2; [done|by apply Hne].
  - intros Es. exfalso.
    exact (split_some (fun m => negb (m_ID m =?s _) &&
      bool_decide (m_ID m ∈ chooseRetainedMessages estimate work (pl_KeepRecentTokens policy))) w0 work0 Es).
Qed.

(** C33: how a compaction splits a context whose messages have distinct ids. It
    considers every relevant message, or, after a compaction, what that one has
    recorded to be kept and everything since. Kept are, in order, the newest
    inputs that fit into the budget and the messages of an unfinished execution
    from its last input on, without a newest input that alone exceeds the budget;
    the others, in order, are the input of the summary. With nothing left to
    summarise, the input is what is kept, so it is empty only when nothing is
    considered. The ids recorded are those of the messages kept and of the input
    left out. *)
Theorem compaction_splits_context estimate history policy :
  identified history -> 0 < pl_KeepRecentTokens policy ->
  let budget := pl_KeepRecentTokens policy in
  let s := SelectInputWithEstimator estimate history policy in
  exists previous work newest tail large,
    considered history previous work /\ newest_inputs estimate budget work newest /\
    unfinished work tail /\ too_large estimate budget work large /\
    let keeps m := m ∈ newest ++ tail /\ large <> Some m in
    sl_PreviousSummary s = previous /\
    sl_RetainedTail s = filter keeps work /\
    sl_RetainedMessageIDs s = map m_ID (filter keeps work) /\
    sl_OversizedInputIDs s = match large with Some m => [m_ID m] | None => [] end /\
    (sl_SummaryInput s = filter (fun m => ~ keeps m) work \/
     filter keeps work = work /\ sl_SummaryInput s = work) /\
    (sl_SummaryInput s = [] -> work = []).
Proof.
  intros Hid Hb budget s. destruct (selection_spec estimate history policy Hid Hb) as (newest & Hnew & Ht & Hids & Hin).
  destruct (selection_records estimate history policy Hid Hb) as (Hp & Ho & He). fold s in Ht, Hids, Hin, Hp, Ho, He.
  set (work := (selection_work history).2) in *. fold budget in Hnew, Ht, Hin, Ho.
  exists (selection_work history).1, work, newest, (execution_tail work), (oversized_input estimate budget work).
  split_and!; [apply selection_work_considered|by apply fitting_newest|apply execution_tail_unfinished|apply oversized_too_large|].
  cbv zeta. set (keeps := fun m => _ /\ _).
  assert (forall m, kept estimate budget work newest m = true <-> keeps m) as Hk.
  { intros m. unfold kept, keeps. by rewrite andb_true_iff, negb_true_iff, bool_decide_eq_true, bool_decide_eq_false. }
  rewrite (filter_spec _ keeps work Hk) in Ht. rewrite Hids, Ht in *. split_and!; try done.
  destruct Hin as [Hin|[Hin1 Hin2]]; [left|right; by split]. rewrite Hin. apply list_filter_iff. intros m.
  by rewrite <- Hk, not_true_iff_false.
Qed.
