(* ===== verification/ModelFallback.v ===== *)
(** * The model fallback chain of a turn

    [src/internal/framework/runtime/model_fallback.go] and the loop of
    [requestProviderTurnLocked] ([loop.go]) over the circuit breaker of
    [ModelHealth.v], with the classification of provider errors
    ([foundation/llm/provider.go]) that decides whether the next model is tried.

    The breaker is shared by all turns of the process, so other calls may change
    it before and after every call of this loop; they are arbitrary functions of
    an attempt. What an attempt meets (the preparation of the request, its
    checkpoint, the answer of the provider, the commits) is given by an
    environment. A provider error is its text and what the error chain tells of
    it; the lower-casing table of [unicode] is a parameter. *)

From S2P Require Import Prelude GoStd Utf8 Llm ModelHealth ContextBudget.
From Stdlib Require Import Ascii.

Local Open Scope Z_scope.
Local Open Scope juex_scope.

(** ** Provider errors *)

(** [pe_Canceled], [pe_DeadlineExceeded]: [errors.Is] of the context errors;
    [pe_Timeout]: a [net.Error] that timed out; [pe_StatusCode]: what an error
    with a status code reports. *)
Record ProviderError := mkProviderError {
  pe_Text : string;
  pe_Canceled : bool;
  pe_DeadlineExceeded : bool;
  pe_Timeout : bool;
  pe_StatusCode : option Z;
}.

Inductive FallbackFailureReason :=
| FallbackFailureTransient
| FallbackFailureUnauthorized
| FallbackFailureForbidden
| FallbackFailureModelNotFound.

Definition reason_text (r : FallbackFailureReason) : string :=
  match r with
  | FallbackFailureTransient => "transient"
  | FallbackFailureUnauthorized => "unauthorized"
  | FallbackFailureForbidden => "forbidden"
  | FallbackFailureModelNotFound => "model_not_found"
  end.

Definition overflow_needles : list string :=
  ["context_length_exceeded"; "context window"; "maximum context length";
   "prompt is too long"; "input length"]%string.

Definition retryable_markers : list string :=
  ["connection reset"; "connection refused"; "connection aborted"; "broken pipe";
   "network is unreachable"; "no route to host"; "server disconnected"; "unexpected eof";
   "unexpected end of json input"; ": eof"; "sse read"; "stream idle timeout";
   "websocket: close 1006"; "rate limit"; "too many requests"; "temporary server error";
   "temporarily unavailable"; "internal server error"; "service unavailable"; "bad gateway";
   "gateway timeout"; "deadline exceeded"; "timed out"; "timeout"]%string.

Definition not_found_markers : list string :=
  ["model_not_found"; "model not found"; "unknown model"; "model does not exist";
   "model doesn't exist"]%string.

Definition contains_any (text : string) (markers : list string) : bool :=
  existsb (Contains text) markers.

Definition validHTTPStatusCode (status : Z) : bool := (100 <=? status) && (status <=? 599).

Definition is_lower_alnum (b : Z) : bool :=
  ((97 <=? b) && (b <=? 122)) || ((48 <=? b) && (b <=? 57)).

(** The loop over the words of a text: the number after [status], [status code],
    [http] or [error code]. *)
Fixpoint status_in (previous : string) (words : list string) : option Z :=
  match words with
  | [] => None
  | word :: rest =>
    let next :=
      if word =?s "status" then
        match rest with
        | second :: more => if second =?s "code" then head more else Some second
        | [] => None
        end
      else if (word =?s "http") || ((word =?s "code") && (previous =?s "error")) then head rest
      else None in
    match next ≫= Atoi with
    | Some status => if validHTTPStatusCode status then Some status else status_in word rest
    | None => status_in word rest
    end
  end.

Section Errors.
  Context (lower : Z -> Z).

Definition lowered (err : ProviderError) : string := LowerText lower (pe_Text err).

Definition IsContextOverflowError (err : ProviderError) : bool :=
  contains_any (lowered err) overflow_needles.

Definition providerHTTPStatusCode (err : ProviderError) : option Z :=
  let from_text :=
    status_in "" (map string_of_bytes (fields is_lower_alnum [] (bytes_of (lowered err)))) in
  match pe_StatusCode err with
  | Some status => if validHTTPStatusCode status then Some status else from_text
  | None => from_text
  end.

Definition IsRetryableProviderError (err : ProviderError) : bool :=
  if pe_Canceled err then false
  else match providerHTTPStatusCode err with
  | Some status => (status =? 408) || (status =? 409) || (status =? 429) || (500 <=? status)
  | None =>
    if IsContextOverflowError err then false
    else if pe_DeadlineExceeded err then true
    else if pe_Timeout err then true
    else if Contains (lowered err) "stream error: stream id" &&
            Contains (lowered err) "received from peer" then true
    else contains_any (lowered err) retryable_markers
  end.

Definition modelNotFoundError (text : string) : bool := contains_any text not_found_markers.

Definition ClassifyFallbackError (err : ProviderError) : option FallbackFailureReason :=
  if pe_Canceled err || IsContextOverflowError err then None
  else if IsRetryableProviderError err then Some FallbackFailureTransient
  else
    let not_found :=
      if modelNotFoundError (lowered err) then Some FallbackFailureModelNotFound else None in
    match providerHTTPStatusCode err with
    | Some status =>
      if status =? 401 then Some FallbackFailureUnauthorized
      else if status =? 403 then Some FallbackFailureForbidden
      else not_found
    | None => not_found
    end.
End Errors.

(** ** Candidates *)

(** [mc_Provider]: the name of the provider; [None] when there is none. *)
Record ModelCandidate := mkCandidate {
  mc_Ref : string;
  mc_Provider : option string;
  mc_ContextWindow : Z;
  mc_MaxOutputTokens : Z;
}.

Definition with_ref (ref : string) (c : ModelCandidate) : ModelCandidate :=
  mkCandidate ref (mc_Provider c) (mc_ContextWindow c) (mc_MaxOutputTokens c).

(** The loop over the configured candidates. *)
Fixpoint distinct_candidates (seen : gset string) (l : list ModelCandidate) : list ModelCandidate :=
  match l with
  | [] => []
  | c :: r =>
    match mc_Provider c with
    | None => distinct_candidates seen r
    | Some name =>
      let c := if mc_Ref c =?s "" then with_ref name c else c in
      if bool_decide (mc_Ref c ∈ seen) then distinct_candidates seen r
      else c :: distinct_candidates ({[mc_Ref c]} ∪ seen) r
    end
  end.

Definition effectiveModelCandidatesLocked (configured : list ModelCandidate)
    (provider : option string) (contextWindow maxOutputTokens : Z) : list ModelCandidate :=
  match configured with
  | [] =>
    match provider with
    | None => []
    | Some name => [mkCandidate name provider contextWindow maxOutputTokens]
    end
  | _ => distinct_candidates ∅ configured
  end.

Definition candidateContextWindow (c : ModelCandidate) (fallback : Z) : Z :=
  if 0 <? mc_ContextWindow c then mc_ContextWindow c
  else if 0 <? fallback then fallback
  else DefaultContextWindowTokens.

Definition candidateMaxOutputTokens (c : ModelCandidate) (fallback : Z) : Z :=
  if 0 <? mc_MaxOutputTokens c then mc_MaxOutputTokens c else fallback.

Definition usageModelRef (c : ModelCandidate) : string :=
  let ref := TrimSpace (mc_Ref c) in
  let name :=
    match mc_Provider c with
    | Some n => if TrimSpace n =?s "" then "provider"%string else TrimSpace n
    | None => "provider"%string
    end in
  match Cut ":"%char ref with
  | Some (providerID, modelID) =>
    if (providerID <>?s "") && (modelID <>?s "") then ref else (name ++ ":" ++ name)%string
  | None => (name ++ ":" ++ name)%string
  end.

(** The loop of [previousAssistantModel], from the last message down. *)
Fixpoint previous_model (down : list Message) : string :=
  match down with
  | [] => ""
  | m :: r =>
    if bool_decide (m_Role m = RoleAssistant) && (m_Model m <>?s "") then m_Model m
    else previous_model r
  end.

Definition previousAssistantModel (history : list Message) : string := previous_model (rev history).

(** ** The loop of a request *)

Record modelFallbackTransition := mkFallback {
  mf_from : string;
  mf_reason : string;
  mf_cooldown : Duration;
  mf_probe : bool;
}.

(** What one attempt meets. [ai_before] and [ai_between]: what other turns do to
    the breaker before the candidate is acquired and before it is completed.
    [ai_answer]: the error of the provider, or its response. *)
Record AttemptIo := mkAttemptIo {
  ai_before : ModelHealth -> ModelHealth;
  ai_acquired_at : Time;
  ai_prepared : bool;
  ai_context : bool;
  ai_checkpoint : bool;
  ai_requested : bool;
  ai_answer : option ProviderError;
  ai_usage : bool;
  ai_canceled : bool;
  ai_committed : bool;
  ai_between : ModelHealth -> ModelHealth;
  ai_completed_at : Time;
  ai_next_context : bool;
}.

Inductive RequestError :=
| ErrNoCandidates
| ErrPrepare
| ErrContext
| ErrCheckpoint
| ErrRequested
| ErrUsage
| ErrDiscarded
| ErrCanceled
| ErrRequest (err : ProviderError) (contextWindow : Z) (committed : bool)
| ErrChain (failures : list (string * ProviderError)) (skipped : list ModelHealthSkip)
| ErrPanic.

Inductive RequestEnd :=
| Response (index : nat) (ref : string)
| Failed (e : RequestError).

(** What the loop does that others see, in order. *)
Inductive LogEntry :=
| LogAcquired (ticket : ModelAttemptTicket)
| LogFallback (transition : modelFallbackTransition) (to : string)
| LogCalled (index : nat) (ref : string)
| LogCompleted (ticket : ModelAttemptTicket) (outcome : ModelHealthOutcome) (reason : string).

Definition skip_transition (s : ModelHealthSkip) : modelFallbackTransition :=
  mkFallback (sk_Ref s) (sk_Reason s) (sk_CooldownRemaining s) false.

(** The fallback events of an attempt: the failure before it, then the
    candidates it passed over. *)
Definition announce (pending : option modelFallbackTransition) (skips : list ModelHealthSkip)
    (to : string) : list LogEntry :=
  (match pending with Some t => [LogFallback t to] | None => [] end) ++
  map (fun s => LogFallback (skip_transition s) to) skips.

Definition skip_refs (l : list ModelHealthSkip) : gset string := list_to_set (map sk_Ref l).

(** The variables of the loop. *)
Record Progress := mkProgress {
  pr_attempted : gset string;
  pr_failures : list (string * ProviderError);
  pr_skipped : list ModelHealthSkip;
  pr_pending : option modelFallbackTransition;
  pr_log : list LogEntry;
}.

Definition fresh_progress : Progress := mkProgress ∅ [] [] None [].

Definition RequestResult : Type := RequestEnd * list LogEntry * ModelHealth.

(** [health.Complete] on the way out of the loop. *)
Definition settle (io : AttemptIo) (ticket : ModelAttemptTicket) (outcome : ModelHealthOutcome)
    (end_ : RequestEnd) (log : list LogEntry) (h : ModelHealth) : RequestResult :=
  match complete (ai_completed_at io) ticket outcome "" (ai_between io h) with
  | Some (_, h') => (end_, log ++ [LogCompleted ticket outcome ""], h')
  | None => (Failed ErrPanic, log, h)
  end.

Section Request.
  Context (lower : Z -> Z).
  Context (candidates : list ModelCandidate) (fallbackWindow : Z) (env : nat -> AttemptIo).

Definition refs : list string := map mc_Ref candidates.

(** What happens with an acquired candidate up to the answer of its provider:
    [inl] ends the request, [inr] is an error that may fall back. *)
Definition attempt_candidate (io : AttemptIo) (index : nat) (c : ModelCandidate)
    (ticket : ModelAttemptTicket) (announced log : list LogEntry) (h : ModelHealth) :
    RequestResult + (ProviderError * FallbackFailureReason * list LogEntry) :=
  let stop outcome e log := inl (settle io ticket outcome (Failed e) log h) in
  if negb (ai_prepared io) then stop ModelHealthNeutral ErrPrepare log
  else if negb (ai_context io) then stop ModelHealthNeutral ErrContext log
  else
    let log := log ++ announced in
    if negb (ai_checkpoint io) then stop ModelHealthNeutral ErrCheckpoint log
    else if negb (ai_requested io) then stop ModelHealthNeutral ErrRequested log
    else
      let log := log ++ [LogCalled index (mc_Ref c)] in
      if negb (ai_usage io) then stop ModelHealthNeutral ErrUsage log
      else match ai_answer io with
      | None =>
        if ai_canceled io
        then stop ModelHealthSuccess (if ai_committed io then ErrCanceled else ErrDiscarded) log
        else inl (settle io ticket ModelHealthSuccess (Response index (mc_Ref c)) log h)
      | Some err =>
        let request := ErrRequest err (candidateContextWindow c fallbackWindow) in
        if negb (ai_committed io) then stop ModelHealthNeutral (request false) log
        else match ClassifyFallbackError lower err with
        | None => stop ModelHealthNeutral (request true) log
        | Some reason =>
          if (length candidates =? 1)%nat then stop ModelHealthNeutral (request true) log
          else inr (err, reason, log)
        end
      end.

(** [None] when the fuel runs out. *)
Fixpoint request_loop (fuel attempt : nat) (p : Progress) (h : ModelHealth) : option RequestResult :=
  match fuel with
  | O => None
  | S k =>
    let io := env attempt in
    let '(sel, ok, h) := acquire_loop (ai_acquired_at io) (pr_attempted p) 0 refs [] (ai_before io h) in
    let skips := sel_Skipped sel in
    let skipped := pr_skipped p ++ skips in
    let attempted := skip_refs skips ∪ pr_attempted p in
    if negb ok then
      Some (Failed (ErrChain (pr_failures p) skipped),
            pr_log p ++ announce (pr_pending p) skips "", h)
    else
      let index := Z.to_nat (sel_Index sel) in
      match candidates !! index with
      | None => Some (Failed ErrPanic, pr_log p, h)
      | Some c =>
        let ticket := sel_Ticket sel in
        let log := pr_log p ++ [LogAcquired ticket] in
        match attempt_candidate io index c ticket (announce (pr_pending p) skips (mc_Ref c)) log h with
        | inl result => Some result
        | inr (err, reason, log) =>
          match complete (ai_completed_at io) ticket ModelHealthEligibleFailure (reason_text reason)
                  (ai_between io h) with
          | None => Some (Failed ErrPanic, log, h)
          | Some (tr, h) =>
            let log := log ++ [LogCompleted ticket ModelHealthEligibleFailure (reason_text reason)] in
            if negb (ai_next_context io) then Some (Failed ErrContext, log, h)
            else
              request_loop k (S attempt)
                (mkProgress ({[mc_Ref c]} ∪ attempted) (pr_failures p ++ [(mc_Ref c, err)]) skipped
                   (Some (mkFallback (mc_Ref c) (reason_text reason) (tr_Cooldown tr) (t_Probe ticket)))
                   log) h
          end
        end
      end
  end.

Definition requestProviderTurnLocked (h : ModelHealth) : option RequestResult :=
  match candidates with
  | [] => Some (Failed ErrNoCandidates, [], h)
  | _ => request_loop (S (length candidates)) 0 fresh_progress h
  end.
End Request.

(** ** The notice of a model change *)

Fixpoint ref_index (chain : list string) (ref : string) (i : Z) : Z :=
  match chain with
  | [] => -1
  | r :: rest => if r =?s ref then i else ref_index rest ref (i + 1)
  end.

Definition modelRefIndex (chain : list string) (ref : string) : Z := ref_index chain ref 0.

Section Notice.
  Context (lower : Z -> Z).

Fixpoint failure_reason (ref : string) (failures : list (string * ProviderError)) : option string :=
  match failures with
  | [] => None
  | (r, err) :: rest =>
    if r =?s ref then
      match ClassifyFallbackError lower err with
      | Some reason => Some (reason_text reason)
      | None => failure_reason ref rest
      end
    else failure_reason ref rest
  end.

Definition failureReasonFor (ref : string) (failures : list (string * ProviderError))
    (skips : list ModelHealthSkip) (pending : option modelFallbackTransition) : string :=
  match failure_reason ref failures with
  | Some reason => reason
  | None =>
    match list_find (fun s => sk_Ref s = ref) skips with
    | Some (_, s) => sk_Reason s
    | None =>
      match pending with
      | Some t => if mf_from t =?s ref then mf_reason t else ""
      | None => ""
      end
    end
  end.

Definition modelSwitchNotice (previous selected : string) (chain : list string)
    (selection : ModelSelection) (pending : option modelFallbackTransition)
    (failures : list (string * ProviderError)) (skipped : list ModelHealthSkip) : option Message :=
  let previousIndex := modelRefIndex chain previous in
  let selectedIndex := modelRefIndex chain selected in
  let notice text := Some (with_Kind MessageKindModelChange (TextMessage RoleUser text)) in
  if (previousIndex <? 0) || (selectedIndex <? 0) || (previousIndex =? selectedIndex) then None
  else if (selectedIndex <? previousIndex) && t_Probe (sel_Ticket selection) then
    notice ("<system-reminder>A higher-priority model is healthy again. You are now serving this conversation as "
            ++ selected ++ " instead of " ++ previous
            ++ ". Briefly tell the user that the model recovered and was switched back.</system-reminder>")%string
  else if previousIndex <? selectedIndex then
    let reason := failureReasonFor previous failures skipped pending in
    if reason =?s "" then None
    else notice ("<system-reminder>The previous serving model " ++ previous ++ " became unavailable ("
            ++ reason ++ "). You are now serving this conversation as " ++ selected
            ++ ". Briefly tell the user that the model was switched so work could continue.</system-reminder>")%string
  else None.
End Notice.
