(* ===== verification/ModelFallbackProps.v ===== *)
(** * The model fallback chain: what a request guarantees

    The loop of [ModelFallback.v] for any environment whose other turns leave
    the failure counters of the breaker within their range. An invariant
    ([loop_inv]) relates the variables of the loop with the chain and the log;
    [attempt_candidate_spec] says what one candidate adds to the log. *)

From S2P Require Import Prelude GoStd Utf8 ModelHealth Llm ContextBudget ModelFallback.
From Stdlib Require Import Sorted.

Local Open Scope Z_scope.
Local Open Scope juex_scope.

(** ** Specification *)

(** The ticket held after a log, when each reservation of the log is settled
    before the next and each call holds the ticket of its model. *)
Fixpoint held (open : option ModelAttemptTicket) (log : list LogEntry) :
    option (option ModelAttemptTicket) :=
  match log with
  | [] => Some open
  | LogAcquired t :: r => match open with None => held (Some t) r | Some _ => None end
  | LogFallback _ _ :: r => held open r
  | LogCalled _ ref :: r =>
    match open with
    | Some t => if t_Ref t =?s ref then held open r else None
    | None => None
    end
  | LogCompleted t _ _ :: r =>
    match open with
    | Some t' => if decide (t = t') then held None r else None
    | None => None
    end
  end.

Definition call_of (e : LogEntry) : option (nat * string) :=
  match e with LogCalled i ref => Some (i, ref) | _ => None end.

(** The candidates called, in order. *)
Definition called (log : list LogEntry) : list (nat * string) := omap call_of log.

Definition fallback_of (e : LogEntry) : option string :=
  match e with LogFallback t _ => Some (mf_from t) | _ => None end.

(** The models a log announces as fallen back from. *)
Definition left_behind (log : list LogEntry) : list string := omap fallback_of log.

(** Counters no completion can overflow. *)
Definition counters_ok (h : ModelHealth) : Prop :=
  forall ref, 0 <= failures (circuit h ref) < max_int64.

(** ** Lemmas on logs *)

Lemma held_app log1 : forall log2 open,
  held open (log1 ++ log2) = o ← held open log1; held o log2.
Proof.
  induction log1 as [|e log1 IH]; intros log2 open; [done|].
  destruct e; simpl; repeat case_match; try done; apply IH.
Qed.

Lemma called_app log1 log2 : called (log1 ++ log2) = called log1 ++ called log2.
Proof. apply omap_app. Qed.

Lemma left_behind_app log1 log2 :
  left_behind (log1 ++ log2) = left_behind log1 ++ left_behind log2.
Proof. apply omap_app. Qed.

Lemma held_announce pending skips to open : held open (announce pending skips to) = Some open.
Proof.
  unfold announce. rewrite held_app.
  assert (forall o, held o (map (fun s => LogFallback (skip_transition s) to) skips) = Some o) as E.
  { intros o. by induction skips. }
  destruct pending; simpl; apply E.
Qed.

Lemma called_announce pending skips to : called (announce pending skips to) = [].
Proof.
  unfold announce. rewrite called_app.
  assert (called (map (fun s => LogFallback (skip_transition s) to) skips) = []) as ->
    by (by induction skips).
  by destruct pending.
Qed.

Lemma left_behind_announce pending skips to :
  left_behind (announce pending skips to) =
    option_list (mf_from <$> pending) ++ map sk_Ref skips.
Proof.
  unfold announce. rewrite left_behind_app. f_equal; [by destruct pending|].
  induction skips as [|s l IH]; [done|]. simpl. by f_equal.
Qed.

#[export] Hint Rewrite held_app called_app left_behind_app held_announce called_announce
  left_behind_announce : fallback.

Lemma sorted_snoc (l : list nat) n :
  StronglySorted lt l -> Forall (fun i => (i < n)%nat) l -> StronglySorted lt (l ++ [n]).
Proof.
  induction l as [|a l IH]; simpl; intros Hs Hf; [repeat constructor|].
  apply StronglySorted_inv in Hs as [Hs Ha]. apply Forall_cons in Hf as [? Hf].
  constructor; [by apply IH|]. apply Forall_app. split; [done|]. by constructor.
Qed.

(** ** Candidates the breaker passes over *)

Lemma skip_of_ref now attempted h ref s :
  skip_of now attempted h ref = Some s -> sk_Ref s = ref.
Proof. unfold skip_of. cbv zeta. intros E. repeat case_match; by simplify_eq. Qed.

Lemma skip_of_ineligible now attempted h ref :
  ref = ""%string \/ ref ∈ attempted \/
  exists s, skip_of now attempted h ref = Some s /\ sk_Ref s = ref.
Proof.
  unfold skip_of. destruct (decide (ref = ""%string)); [by left|].
  destruct (decide (ref ∈ attempted)); [by right; left|]. right. right.
  rewrite !bool_decide_eq_false_2 by done. simpl. case_match; eauto.
Qed.

Lemma skips_cover now attempted h (l : list string) r : r ∈ l ->
  r = ""%string \/ r ∈ attempted \/ r ∈ map sk_Ref (omap (skip_of now attempted h) l).
Proof.
  intros Hin. destruct (skip_of_ineligible now attempted h r) as [?|[?|(s & E & <-)]]; auto.
  right. right. apply list_elem_of_fmap. exists s. split; [done|].
  apply list_elem_of_omap. eauto.
Qed.

Lemma skip_refs_spec (l : list ModelHealthSkip) r : r ∈ skip_refs l <-> r ∈ map sk_Ref l.
Proof. unfold skip_refs. by rewrite elem_of_list_to_set. Qed.

Lemma complete_safe now t outcome reason h :
  outcome = ModelHealthNeutral \/ outcome = ModelHealthSuccess \/ counters_ok h ->
  exists tr h', complete now t outcome reason h = Some (tr, h').
Proof.
  intros Ho. unfold complete. fold (circuit h (t_Ref t)).
  case_bool_decide; [eauto|]. case_match; [eauto|].
  unfold complete_state. destruct outcome; [eauto| |destruct (t_Probe t); eauto|eauto].
  destruct Ho as [?|[?|Hc]]; [done..|]. specialize (Hc (t_Ref t)).
  rewrite wrap_int64_small by (unfold min_int64; lia). unfold cooldownFor.
  set (i := Z.min _ _). assert (0 <= i < 4) as Hi by (unfold i; simpl; lia).
  rewrite (proj2 (Z.ltb_ge i 0)) by lia.
  assert (i = 0 \/ i = 1 \/ i = 2 \/ i = 3) as [-> | [-> | [-> | ->]]] by lia; simpl; eauto.
Qed.

(** ** The loop *)

Lemma request_nonempty lower candidates fallbackWindow env h : candidates <> [] ->
  requestProviderTurnLocked lower candidates fallbackWindow env h =
    request_loop lower candidates fallbackWindow env (S (length candidates)) 0 fresh_progress h.
Proof. by destruct candidates. Qed.

Section Loop.
  #[local] Arguments announce : simpl never.
  Context (lower : Z -> Z).
  Context (candidates : list ModelCandidate) (fallbackWindow : Z) (env : nat -> AttemptIo).
  Context (others_sane : forall a h, counters_ok (ai_between (env a) h)).

Definition falls_back (err : ProviderError) : Prop := is_Some (ClassifyFallbackError lower err).

(** What a request guarantees of how it ended and of its log. *)
Definition end_ok (end_ : RequestEnd) (log : list LogEntry) : Prop :=
  match end_ with
  | Response i ref =>
    last (called log) = Some (i, ref) /\ refs candidates !! i = Some ref /\
    forall j r, (j < i)%nat -> refs candidates !! j = Some r -> r <> ""%string -> r ∈ left_behind log
  | Failed (ErrChain failures skipped) =>
    map fst failures = map snd (called log) /\ Forall (fun f => falls_back (snd f)) failures /\
    forall r, r ∈ refs candidates -> r <> ""%string ->
      r ∈ left_behind log /\ (r ∈ map fst failures \/ r ∈ map sk_Ref skipped)
  | Failed (ErrRequest err _ committed) =>
    committed = true -> falls_back err -> length candidates = 1%nat
  | Failed ErrPanic => False
  | Failed _ => True
  end.

Definition request_ok (result : RequestResult) : Prop :=
  let '(end_, log, _) := result in
  held None log = Some None /\ StronglySorted lt (map fst (called log)) /\
  Forall (fun ic => refs candidates !! ic.1 = Some ic.2) (called log) /\ end_ok end_ log.

(** [n]: the candidates below it are behind the loop. *)
Record loop_inv (n : nat) (p : Progress) : Prop := mkLoopInv {
  li_held : held None (pr_log p) = Some None;
  li_sorted : StronglySorted lt (map fst (called (pr_log p)));
  li_below : Forall (fun i => (i < n)%nat) (map fst (called (pr_log p)));
  li_refs : Forall (fun ic => refs candidates !! ic.1 = Some ic.2) (called (pr_log p));
  li_behind : forall j r, (j < n)%nat -> refs candidates !! j = Some r ->
    r = ""%string \/ r ∈ pr_attempted p;
  li_left : forall r, r ∈ pr_attempted p ->
    r ∈ left_behind (pr_log p) ++ option_list (mf_from <$> pr_pending p);
  li_reported : forall r, r ∈ pr_attempted p ->
    r ∈ map fst (pr_failures p) \/ r ∈ map sk_Ref (pr_skipped p);
  li_failures : map fst (pr_failures p) = map snd (called (pr_log p));
  li_eligible : Forall (fun f => falls_back (snd f)) (pr_failures p);
}.

Lemma loop_inv_fresh : loop_inv 0 fresh_progress.
Proof. constructor; simpl; try done; try constructor; intros; try lia; set_solver. Qed.

Lemma settle_ok a ticket outcome e log h :
  outcome = ModelHealthNeutral \/ outcome = ModelHealthSuccess ->
  exists h', settle (env a) ticket outcome e log h =
    (e, log ++ [LogCompleted ticket outcome ""], h').
Proof.
  intros Ho. unfold settle.
  destruct (complete_safe (ai_completed_at (env a)) ticket outcome "" (ai_between (env a) h))
    as (tr & h' & ->); [tauto|]. eauto.
Qed.

(** What an acquired candidate adds to the log before its ticket is settled. *)
Definition attempt_adds (index : nat) (c : ModelCandidate) (announced added : list LogEntry)
    (end_ : RequestEnd) : Prop :=
  match end_ with
  | Response i ref => i = index /\ ref = mc_Ref c /\ added = announced ++ [LogCalled index (mc_Ref c)]
  | Failed (ErrChain _ _ | ErrPanic) => False
  | Failed (ErrRequest err _ committed) =>
    added = announced ++ [LogCalled index (mc_Ref c)] /\
    (committed = true -> falls_back err -> length candidates = 1%nat)
  | Failed _ => added = [] \/ added = announced \/ added = announced ++ [LogCalled index (mc_Ref c)]
  end.

Lemma attempt_candidate_spec a index c ticket announced log h :
  match attempt_candidate lower candidates fallbackWindow (env a) index c ticket announced log h with
  | inl result => exists end_ added outcome h',
      result = (end_, log ++ added ++ [LogCompleted ticket outcome ""], h') /\
      attempt_adds index c announced added end_
  | inr (err, reason, log') =>
      log' = log ++ announced ++ [LogCalled index (mc_Ref c)] /\
      ClassifyFallbackError lower err = Some reason
  end.
Proof.
  assert (forall outcome e log' added h',
    outcome = ModelHealthNeutral \/ outcome = ModelHealthSuccess ->
    log' = log ++ added -> attempt_adds index c announced added e ->
    exists end_ added outcome' h2,
      settle (env a) ticket outcome e log' h' =
        (end_, log ++ added ++ [LogCompleted ticket outcome' ""], h2) /\
      attempt_adds index c announced added end_) as Hstop.
  { intros outcome e log' added h' Ho -> Hadds.
    destruct (settle_ok a ticket outcome e (log ++ added) h' Ho) as (h2 & ->).
    exists e, added, outcome, h2. by rewrite <- app_assoc. }
  unfold attempt_candidate.
  destruct (ai_prepared (env a)); simpl; [|by eapply (Hstop _ _ _ []); rewrite ?app_nil_r; auto; left].
  destruct (ai_context (env a)); simpl; [|by eapply (Hstop _ _ _ []); rewrite ?app_nil_r; auto; left].
  destruct (ai_checkpoint (env a)); simpl; [|by eapply Hstop; auto; right; left].
  destruct (ai_requested (env a)); simpl; [|by eapply Hstop; auto; right; left].
  destruct (ai_usage (env a)); simpl;
    [|by eapply Hstop; rewrite <- ?app_assoc; auto; right; right].
  destruct (ai_answer (env a)) as [err|].
  - destruct (ai_committed (env a)); simpl;
      [|by eapply Hstop; rewrite <- ?app_assoc; auto].
    destruct (ClassifyFallbackError lower err) as [reason|] eqn:Ec; simpl.
    + destruct (length candidates =? 1)%nat eqn:El; [|by rewrite <- app_assoc].
      apply Nat.eqb_eq in El. by eapply Hstop; rewrite <- ?app_assoc; auto.
    + eapply Hstop; rewrite <- ?app_assoc; auto. split; [done|]. intros _ [? ?]. congruence.
  - destruct (ai_canceled (env a)); simpl; [|by eapply Hstop; rewrite <- ?app_assoc; auto].
    eapply Hstop; rewrite <- ?app_assoc; auto. destruct (ai_committed (env a)); by right; right.
Qed.

Lemma refs_lookup i c : candidates !! i = Some c -> refs candidates !! i = Some (mc_Ref c).
Proof. intros E. unfold refs. by rewrite list_lookup_fmap, E. Qed.

(** The candidate acquired lies past all earlier ones. *)
Lemma acquire_next n p now h sel ok h' :
  loop_inv n p ->
  acquire_loop now (pr_attempted p) 0 (refs candidates) [] h = (sel, ok, h') ->
  if ok then exists m c,
    Z.to_nat (sel_Index sel) = m /\ candidates !! m = Some c /\ (n <= m)%nat /\
    t_Ref (sel_Ticket sel) = mc_Ref c /\
    (forall j r, (j < m)%nat -> refs candidates !! j = Some r ->
      r = ""%string \/ r ∈ pr_attempted p \/ r ∈ map sk_Ref (sel_Skipped sel))
  else forall r, r ∈ refs candidates ->
    r = ""%string \/ r ∈ pr_attempted p \/ r ∈ map sk_Ref (sel_Skipped sel).
Proof.
  intros Hinv Hacq. apply acquire_loop_spec in Hacq.
  destruct (list_find _ (refs candidates)) as [[m ref]|] eqn:E.
  - destruct Hacq as (-> & Hi & Ht & _ & _ & ->). simpl.
    apply list_find_Some in E as (Hm & Hel & _).
    unfold refs in Hm. rewrite list_lookup_fmap in Hm.
    destruct (candidates !! m) as [c|] eqn:Hc; [|done]. injection Hm as <-.
    exists m, c. split_and!; [lia|done| |done|].
    + destruct (decide (n <= m)%nat) as [|Hlt]; [done|]. exfalso.
      unfold eligible in Hel. to_prop.
      destruct (li_behind _ _ Hinv m (mc_Ref c)) as [?|?]; [lia|by apply refs_lookup|done..].
    + intros j r Hj Hr. apply skips_cover. apply list_elem_of_lookup. exists j.
      by rewrite lookup_take_lt.
  - destruct Hacq as (-> & _ & _ & ->). simpl. intros r. apply skips_cover.
Qed.

(** The request ends while the ticket of candidate [m] is held. *)
Lemma ends_at n p m c ticket announced end_ added outcome h :
  loop_inv n p -> candidates !! m = Some c -> (n <= m)%nat -> t_Ref ticket = mc_Ref c ->
  (forall open, held open announced = Some open) -> called announced = [] ->
  (forall j r, (j < m)%nat -> refs candidates !! j = Some r -> r <> ""%string ->
    r ∈ left_behind (pr_log p) \/ r ∈ left_behind announced) ->
  attempt_adds m c announced added end_ ->
  request_ok (end_, pr_log p ++ LogAcquired ticket :: added ++ [LogCompleted ticket outcome ""], h).
Proof.
  intros Hinv Hc Hm Href Hheld Hcalls Hleft Hadds.
  assert (added = [] \/ added = announced \/ added = announced ++ [LogCalled m (mc_Ref c)]) as Hadded.
  { destruct end_ as [|[]]; simpl in Hadds; tauto. }
  assert (held (Some ticket) added = Some (Some ticket)) as Hh.
  { destruct Hadded as [->|[->| ->]]; rewrite ?held_app, ?Hheld; simpl;
      rewrite ?bool_decide_eq_true_2 by done; done. }
  assert (called added = [] \/ called added = [(m, mc_Ref c)]) as Ha.
  { destruct Hadded as [->|[->| ->]]; rewrite ?called_app, ?Hcalls; auto. }
  assert (called (pr_log p ++ LogAcquired ticket :: added ++ [LogCompleted ticket outcome ""]) =
    called (pr_log p) ++ called added) as Hcs.
  { rewrite called_app. unfold called at 2. simpl. fold (called (added ++ [LogCompleted ticket outcome ""])).
    rewrite called_app. simpl. by rewrite app_nil_r. }
  destruct Hinv. unfold request_ok. rewrite Hcs. split_and!.
  - rewrite held_app, li_held0. simpl. rewrite held_app, Hh. simpl. by rewrite decide_True.
  - rewrite map_app. destruct Ha as [-> | ->]; simpl; rewrite ?app_nil_r; [done|].
    apply sorted_snoc; [done|]. eapply Forall_impl; [done|]. simpl. lia.
  - apply Forall_app. split; [done|]. destruct Ha as [-> | ->]; [done|].
    constructor; [by apply refs_lookup|done].
  - destruct end_ as [i ref|e]; [|destruct e; simpl in *; try done; tauto].
    simpl in Hadds. destruct Hadds as (-> & -> & ->). simpl. rewrite Hcs.
    rewrite called_app, Hcalls. simpl. rewrite last_snoc. split_and!; [done|by apply refs_lookup|].
    intros j r Hj Hr Hne. rewrite left_behind_app. apply elem_of_app.
    destruct (Hleft j r Hj Hr Hne) as [?|?]; [by left|]. right.
    unfold left_behind. simpl. change (r ∈ left_behind ((announced ++ [LogCalled m (mc_Ref c)]) ++
      [LogCompleted ticket outcome ""])). rewrite !left_behind_app. set_solver.
Qed.

(** The candidate [m] fails and the loop goes on behind it. *)
Lemma goes_on n p m c ticket skips err reason cooldown :
  loop_inv n p -> candidates !! m = Some c -> (n <= m)%nat -> t_Ref ticket = mc_Ref c ->
  (forall j r, (j < m)%nat -> refs candidates !! j = Some r ->
    r = ""%string \/ r ∈ pr_attempted p \/ r ∈ map sk_Ref skips) ->
  ClassifyFallbackError lower err = Some reason ->
  loop_inv (S m)
    (mkProgress ({[mc_Ref c]} ∪ (skip_refs skips ∪ pr_attempted p))
       (pr_failures p ++ [(mc_Ref c, err)]) (pr_skipped p ++ skips)
       (Some (mkFallback (mc_Ref c) (reason_text reason) cooldown (t_Probe ticket)))
       (((pr_log p ++ [LogAcquired ticket]) ++ announce (pr_pending p) skips (mc_Ref c) ++
          [LogCalled m (mc_Ref c)]) ++
        [LogCompleted ticket ModelHealthEligibleFailure (reason_text reason)])).
Proof.
  intros Hinv Hc Hm Href Hcover Hclass. destruct Hinv.
  assert (called (((pr_log p ++ [LogAcquired ticket]) ++ announce (pr_pending p) skips (mc_Ref c) ++
          [LogCalled m (mc_Ref c)]) ++
        [LogCompleted ticket ModelHealthEligibleFailure (reason_text reason)]) =
    called (pr_log p) ++ [(m, mc_Ref c)]) as Hcs.
  { rewrite !called_app, called_announce. simpl. by rewrite !app_nil_r. }
  constructor; cbn [pr_attempted pr_failures pr_skipped pr_pending pr_log]; rewrite ?Hcs.
  - rewrite !held_app, li_held0. simpl. rewrite held_app, held_announce. simpl.
    rewrite bool_decide_eq_true_2 by done. simpl. by rewrite decide_True.
  - rewrite map_app. apply sorted_snoc; [done|]. eapply Forall_impl; [done|]. simpl. lia.
  - rewrite map_app. apply Forall_app. split; [eapply Forall_impl; [done|]; simpl; lia|].
    constructor; [simpl; lia|done].
  - apply Forall_app. split; [done|]. constructor; [by apply refs_lookup|done].
  - intros j r Hj Hr. rewrite elem_of_union, elem_of_union, skip_refs_spec.
    destruct (decide (j = m)) as [->|].
    + rewrite (refs_lookup m c Hc) in Hr. injection Hr as <-. set_solver.
    + destruct (Hcover j r ltac:(lia) Hr) as [?|[?|?]]; tauto.
  - intros r. rewrite !elem_of_union, skip_refs_spec, !left_behind_app, left_behind_announce.
    simpl. intros [?|[?|Ha]]; [set_solver..|]. specialize (li_left0 r Ha). set_solver.
  - intros r. rewrite !elem_of_union, skip_refs_spec, !map_app. simpl.
    intros [?|[?|Ha]]; [set_solver..|]. specialize (li_reported0 r Ha). set_solver.
  - rewrite !map_app, li_failures0. done.
  - apply Forall_app. split; [done|]. constructor; [by eexists|done].
Qed.

Lemma request_loop_spec fuel : forall attempt n p h,
  loop_inv n p -> (n <= length candidates < fuel + n)%nat ->
  exists result,
    request_loop lower candidates fallbackWindow env fuel attempt p h = Some result /\
    request_ok result.
Proof.
  induction fuel as [|fuel IH]; intros attempt n p h Hinv Hfuel; [lia|].
  cbn [request_loop].
  destruct (acquire_loop _ _ _ _ _ _) as [[sel ok] h1] eqn:Hacq.
  pose proof (acquire_next _ _ _ _ _ _ _ Hinv Hacq) as Hnext.
  destruct ok; simpl.
  - destruct Hnext as (m & c & -> & Hc & Hm & Href & Hcover). rewrite Hc.
    pose proof (lookup_lt_Some _ _ _ Hc) as Hlen.
    pose proof (attempt_candidate_spec attempt m c (sel_Ticket sel)
      (announce (pr_pending p) (sel_Skipped sel) (mc_Ref c))
      (pr_log p ++ [LogAcquired (sel_Ticket sel)]) h1) as Hspec.
    destruct (attempt_candidate _ _ _ _ _ _ _ _ _ _) as [result|[[err reason] log']].
    + destruct Hspec as (end_ & added & outcome & h2 & -> & Hadds).
      eexists. split; [done|]. rewrite <- app_assoc.
      eapply ends_at; try done.
      * intros open. apply held_announce.
      * apply called_announce.
      * intros j r Hj Hr Hne. rewrite left_behind_announce.
        destruct (Hcover j r Hj Hr) as [?|[Ha|?]]; [done| |set_solver].
        apply (li_left _ _ Hinv) in Ha. set_solver.
    + destruct Hspec as [-> Hclass].
      destruct (complete_safe (ai_completed_at (env attempt)) (sel_Ticket sel)
        ModelHealthEligibleFailure (reason_text reason) (ai_between (env attempt) h1))
        as (tr & h2 & ->); [by right; right|].
      pose proof (goes_on n p m c (sel_Ticket sel) (sel_Skipped sel) err reason (tr_Cooldown tr)
        Hinv Hc Hm Href Hcover Hclass) as Hinv'.
      destruct (ai_next_context (env attempt)); simpl; [apply (IH _ (S m)); [done|lia]|].
      eexists. split; [done|]. destruct Hinv'. by split_and!.
  - eexists. split; [done|]. destruct Hinv. unfold request_ok.
    rewrite called_app, called_announce, app_nil_r, held_app, li_held0. simpl.
    rewrite held_announce, called_app, called_announce, app_nil_r. split_and!; try done.
    intros r Hr Hne. rewrite left_behind_app, left_behind_announce, map_app.
    destruct (Hnext r Hr) as [?|[Ha|?]]; [done| |set_solver].
    pose proof (li_left0 r Ha). pose proof (li_reported0 r Ha). set_solver.
Qed.

Lemma request_spec h : exists result,
  requestProviderTurnLocked lower candidates fallbackWindow env h = Some result /\
  request_ok result.
Proof.
  destruct (decide (candidates = [])) as [->|Hne].
  - eexists. split; [done|]. split_and!; try done; constructor.
  - rewrite (request_nonempty _ _ _ _ _ Hne).
    apply (request_loop_spec _ _ 0 _ _ loop_inv_fresh). lia.
Qed.
End Loop.

(** ** The candidates of a request *)

Lemma distinct_candidates_spec l : forall seen,
  NoDup (map mc_Ref (distinct_candidates seen l)) /\
  forall r, r ∈ map mc_Ref (distinct_candidates seen l) -> r ∉ seen.
Proof.
  induction l as [|c l IH]; intros seen; simpl; [split; [constructor|set_solver]|].
  destruct (mc_Provider c) as [name|]; [|apply IH].
  set (c' := if mc_Ref c =?s "" then with_ref name c else c).
  case_bool_decide; [apply IH|].
  destruct (IH ({[mc_Ref c']} ∪ seen)) as [Hnd Hout]. simpl. split.
  - constructor; [|done]. intros Hin. apply Hout in Hin. set_solver.
  - intros r Hr. apply elem_of_cons in Hr as [->|Hr]; [done|]. apply Hout in Hr. set_solver.
Qed.

Lemma effective_candidates_distinct configured provider window tokens :
  NoDup (refs (effectiveModelCandidatesLocked configured provider window tokens)).
Proof.
  unfold effectiveModelCandidatesLocked, refs.
  destruct configured as [|c l]; [|apply (distinct_candidates_spec (c :: l))].
  destruct provider; simpl; [apply NoDup_singleton|constructor].
Qed.

Lemma sorted_nodup (l : list nat) : StronglySorted lt l -> NoDup l.
Proof.
  induction 1 as [|a l _ IH Ha]; constructor; [|done]. intros Hin.
  rewrite Forall_forall in Ha. specialize (Ha _ Hin). lia.
Qed.

Lemma nodup_names (names : list string) (l : list (nat * string)) : NoDup names ->
  NoDup (map fst l) -> Forall (fun ic => names !! ic.1 = Some ic.2) l -> NoDup (map snd l).
Proof.
  intros Hn. induction l as [|[i r] l IH]; simpl; intros Hnd Hf; [constructor|].
  apply NoDup_cons in Hnd as [Hni Hnd]. apply Forall_cons in Hf as [Hi Hf].
  constructor; [|by apply IH]. intros Hin.
  apply list_elem_of_fmap in Hin as ([j r'] & Er & Hj). simpl in Er. subst r'.
  rewrite Forall_forall in Hf. specialize (Hf _ Hj). simpl in *.
  assert (i = j) as -> by exact (NoDup_lookup names i j r Hn Hi Hf).
  apply Hni. apply list_elem_of_fmap. by exists (j, r).
Qed.

(** ** Properties *)


(** C34: the fallback chain of a turn is walked in its configured order. The
    candidates called are a strictly ascending choice of the chain and no model
    is called twice. A response comes from the last model called, and each
    named model before it in the chain was announced as fallen back from. The
    chain is given up only when every named model was announced, and either
    failed with an error that may fall back or was skipped by the breaker; the
    reported failures are the calls, in order. A committed provider error ends
    the request before the chain does only when it may not fall back, or there
    is no other model. *)
Theorem request_walks_chain_in_order lower configured provider window tokens fallbackWindow env h :
  (forall attempt h', counters_ok (ai_between (env attempt) h')) ->
  let chain := refs (effectiveModelCandidatesLocked configured provider window tokens) in
  exists end_ log h',
    requestProviderTurnLocked lower
      (effectiveModelCandidatesLocked configured provider window tokens) fallbackWindow env h =
      Some (end_, log, h') /\
    StronglySorted lt (map fst (called log)) /\ NoDup (map snd (called log)) /\
    Forall (fun ic => chain !! ic.1 = Some ic.2) (called log) /\
    match end_ with
    | Response i ref =>
      last (called log) = Some (i, ref) /\
      forall j r, (j < i)%nat -> chain !! j = Some r -> r <> ""%string -> r ∈ left_behind log
    | Failed (ErrChain failures skipped) =>
      map fst failures = map snd (called log) /\
      Forall (fun f => is_Some (ClassifyFallbackError lower f.2)) failures /\
      forall r, r ∈ chain -> r <> ""%string ->
        r ∈ left_behind log /\ (r ∈ map fst failures \/ r ∈ map sk_Ref skipped)
    | Failed (ErrRequest err _ true) =>
      ClassifyFallbackError lower err = None \/ length chain = 1%nat
    | _ => True
    end.
Proof.
  intros Hsane chain.
  set (candidates := effectiveModelCandidatesLocked configured provider window tokens) in *.
  destruct (request_spec lower candidates fallbackWindow env Hsane h) as ([[e log] h'] & -> & Hok).
  destruct Hok as (_ & Hsorted & Hrefs & He). exists e, log, h'. split_and!; try done.
  - eapply nodup_names; [apply effective_candidates_distinct|by apply sorted_nodup|exact Hrefs].
  - destruct e as [i ref|[]]; try done; [by destruct He as (? & _ & ?)|].
    destruct committed; [|done]. simpl in He.
    destruct (ClassifyFallbackError lower err) eqn:E; [right|by left].
    unfold chain, refs. rewrite length_map. apply He; [done|]. by exists f.
Qed.

(** ** The model fallback chain: runs

    Three models: the first fails, the circuit of the second is open, the third
    answers. The run instantiates the properties of [ModelFallbackProps.v]. *)

(** The lower case of ASCII. *)
Definition ex_lower (r : Z) : Z := if (65 <=? r) && (r <=? 90) then r + 32 else r.

Definition text_error (text : string) : ProviderError := mkProviderError text false false false None.

(** The status is read from the text; a cancellation and an overflow of the
    context never fall back, whatever else the error says. *)
Example classified :
  map (ClassifyFallbackError ex_lower)
    [text_error "openai: Status Code 503: overloaded";
     text_error "HTTP 401 Unauthorized";
     text_error "http 404: Unknown Model";
     text_error "read: connection reset by peer";
     text_error "status 429: prompt is too long";
     mkProviderError "timeout" true false false (Some 503);
     text_error "status 400: bad request"] =
  [Some FallbackFailureTransient; Some FallbackFailureUnauthorized;
   Some FallbackFailureModelNotFound; Some FallbackFailureTransient; None; None; None].
Proof. by vm_compute. Qed.

Definition ex_candidates : list ModelCandidate :=
  [mkCandidate "p:first" (Some "p") 0 0; mkCandidate "p:second" (Some "p") 0 0;
   mkCandidate "p:first" (Some "p") 0 0; mkCandidate "" (Some "q") 0 0]%string.

(** The other turns keep a sane breaker as it is. *)
Definition sane_state (st : modelHealthState) : Prop := 0 <= failures st < max_int64.

Definition ex_others (h : ModelHealth) : ModelHealth :=
  if decide (map_Forall (fun _ st => sane_state st) (states h)) then h else NewModelHealth.

Lemma ex_others_sane h : counters_ok (ex_others h).
Proof.
  intros ref. unfold ex_others, circuit.
  case_decide as Hall; [|done].
  destruct (states h !! ref) as [st|] eqn:E; [exact (Hall ref st E)|done].
Qed.

Definition ex_env (attempt : nat) : AttemptIo :=
  mkAttemptIo id 10 true true true true
    (match attempt with O => Some (text_error "status 503") | _ => None end)
    true false true ex_others 20 true.

Definition ex_breaker : ModelHealth :=
  mkHealth {["p:second"%string := mkState 1 1 100 "transient" false 0]} 0.

Definition ex_request : option RequestResult :=
  requestProviderTurnLocked ex_lower (effectiveModelCandidatesLocked ex_candidates None 0 0) 0
    ex_env ex_breaker.

Example ex_request_log :
  (fun r => (r.1.1, r.1.2)) <$> ex_request =
  Some (Response 2 "q",
    [LogAcquired (mkTicket "p:first" false 0 0); LogCalled 0 "p:first";
     LogCompleted (mkTicket "p:first" false 0 0) ModelHealthEligibleFailure "transient";
     LogAcquired (mkTicket "q" false 0 0);
     LogFallback (mkFallback "p:first" "transient" (30 * second) false) "q";
     LogFallback (mkFallback "p:second" "transient" 90 false) "q";
     LogCalled 2 "q";
     LogCompleted (mkTicket "q" false 0 0) ModelHealthSuccess ""])%string.
Proof. by vm_compute. Qed.


Lemma request_walks_chain_in_order_witness : exists log h',
  ex_request = Some (Response 2 "q", log, h') /\ StronglySorted lt (map fst (called log)) /\
  "p:second"%string ∈ left_behind log.
Proof.
  destruct (request_walks_chain_in_order ex_lower ex_candidates None 0 0 0 ex_env ex_breaker
    (fun _ => ex_others_sane)) as (end_ & log & h' & Hr & Hsorted & _ & _ & Hend).
  fold ex_request in Hr. pose proof ex_request_log as Hlog. rewrite Hr in Hlog.
  injection Hlog as -> Hl. exists log, h'. split_and!; [exact Hr|exact Hsorted|].
  apply (proj2 Hend 1%nat "p:second"%string); [lia|by vm_compute|done].
Defined.
