(* ===== verification/ThreadStore.v ===== *)
(** * Thread storage: [event_store.go], [thread.go], [store.go], [lifecycle.go]

    The directory of one thread ([thread.json] and the generation journals) and
    the handles opened on it ([src/internal/framework/thread]). A method of a
    handle runs under the Agent-wide Store lock, so it is one atomic step over
    the handle and the directory. Every storage call of a method takes its
    outcome from an [Io] value. A journal is its list of decoded commits (one
    record per commit, one commit per batch) and the bytes of a torn last line;
    offsets are computed from the encoded sizes. The refresh of the Agent index
    and the Context renewal files are reduced to whether they succeed. *)

From S2P Require Import Prelude GoStd Llm Events ThreadTypes ThreadFacts.
From stdpp Require Import sorting.

Local Open Scope Z_scope.
Local Open Scope juex_scope.

(** ** Directory *)

Record JournalFile := mkFile { jf_records : list Commit; jf_torn : Z }.

Inductive MetaFile :=
| MetaAbsent
| MetaCorrupt
| MetaProjection (p : Projection).

(** [d_archived]: the directory is in the archive namespace. *)
Record Disk := mkDisk {
  d_archived : bool;
  d_meta : MetaFile;
  d_files : gmap string JournalFile;
}.

Definition set_meta (m : MetaFile) (d : Disk) : Disk := mkDisk (d_archived d) m (d_files d).
Definition set_files (f : gmap string JournalFile) (d : Disk) : Disk :=
  mkDisk (d_archived d) (d_meta d) f.
Definition set_archived (b : bool) (d : Disk) : Disk := mkDisk b (d_meta d) (d_files d).

(** ** Handles *)

Record EventStore := mkEventStore {
  es_currentID : string;
  es_current : bool;
  es_size : Z;
  es_nextSeq : Z;
}.

Record Handle := mkHandle {
  h_ID : string;
  h_archived : bool;
  h_eventStore : EventStore;
  h_state : ReplayState;
  h_closed : bool;
}.

Definition set_eventStore (e : EventStore) (h : Handle) : Handle :=
  mkHandle (h_ID h) (h_archived h) e (h_state h) (h_closed h).
Definition set_state (s : ReplayState) (h : Handle) : Handle :=
  mkHandle (h_ID h) (h_archived h) (h_eventStore h) s (h_closed h).
Definition h_projection (h : Handle) : Projection := s_Projection (h_state h).

(** How an append ends: written; rolled back; the rollback failed and left a
    torn line, or the whole line. *)
Inductive AppendOutcome :=
| AppendOk
| AppendRolledBack
| AppendTorn (bytes : positive)
| AppendStuck.

(** The outcomes of the storage calls of one method, in the order of the code:
    the clock, opening a journal file, the append, removing or closing a file,
    writing [thread.json], the directory layout, the Context renewal files, the
    rename between namespaces and the index. *)
Record Io := mkIo {
  io_now : Time;
  io_open : bool;
  io_append : AppendOutcome;
  io_remove : bool;
  io_close : bool;
  io_meta : IoResult;
  io_layout : IoResult;
  io_renewal : bool;
  io_rename : IoResult;
  io_index : bool;
}.

Definition io_ok (now : Time) : Io :=
  mkIo now true AppendOk true true IoOk IoOk true IoOk true.

(** What [os.RemoveAll] leaves of the directory of a thread: nothing, or the
    directory with or without the metadata and some journals. *)
Inductive Removal :=
| Removed
| Remains (keep_meta : bool) (keep : string -> bool).

(** The outcomes of making the directory of a new thread, and of removing it
    again. *)
Record CreateIo := mkCreateIo {
  io_mkdir : IoResult;
  io_cleanup : Removal;
}.

Definition create_ok : CreateIo := mkCreateIo IoOk Removed.

Definition World : Type := Handle * Disk.
Definition M (A : Type) : Type := SM World ThreadError A.

Definition get_handle : M Handle := fun w => (Ok w.1, w).
Definition get_disk : M Disk := fun w => (Ok w.2, w).
Definition modify_handle (f : Handle -> Handle) : M unit := fun w => (Ok tt, (f w.1, w.2)).
Definition modify_disk (f : Disk -> Disk) : M unit := fun w => (Ok tt, (w.1, f w.2)).
Definition lift {A} (r : result ThreadError A) : M A := fun w => (r, w).

(** An error of [m] reported as [e]. *)
Definition report {A} (e : ThreadError) (m : M A) : M A := fun w =>
  match m w with
  | (Ok a, w') => (Ok a, w')
  | (Err _, w') => (Err e, w')
  end.

(** [errors.Join(err, cleanup())]: the clean-up runs when [m] fails. *)
Definition on_error {A} (cleanup : M unit) (m : M A) : M A := fun w =>
  match m w with
  | (Ok a, w') => (Ok a, w')
  | (Err e, w') => (Err e, (cleanup w').2)
  end.

Definition maxCommitBytes : Z := 16 * 2 ^ 20.

Definition journalName (id : string) : string := (id ++ ".jsonl")%string.

Section Store.
  (** The length of [json.Marshal] of a commit; [None] when it fails. *)
  Context (json_size : Commit -> option Z).

(** ** Journal files: [foundation/jsonl] *)

(** A disk line frames the record: version, index 0 of a batch of 1, data. *)
Definition frame_bytes : Z := 36.
Definition line_size (c : Commit) : Z := frame_bytes + default 0 (json_size c).

Fixpoint records_size (l : list Commit) : Z :=
  match l with
  | [] => 0
  | c :: r => line_size c + records_size r
  end.

Definition file_size (f : JournalFile) : Z := records_size (jf_records f) + jf_torn f.

(** The records with their offsets. *)
Fixpoint scan (generation : string) (offset : Z) (l : list Commit) : list scannedCommit :=
  match l with
  | [] => []
  | c :: r =>
    mkScanned c generation offset (offset + line_size c) ::
    scan generation (offset + line_size c) r
  end.

(** [File.Append] of one record through a handle that knows [size]. *)
Definition jsonl_Append (io : Io) (size : Z) (c : Commit) (f : JournalFile) :
    result ThreadError (Z * Z) * JournalFile :=
  if negb (file_size f =? size) then (Err ErrCorruptJournal, f)
  else
    let written := mkFile (jf_records f ++ [c]) (jf_torn f) in
    match io_append io with
    | AppendOk => (Ok (size, size + line_size c), written)
    | AppendRolledBack => (Err ErrIO, f)
    | AppendTorn n => (Err ErrIO, mkFile (jf_records f) (jf_torn f + Z.pos n))
    | AppendStuck => (Err ErrIO, written)
    end.

Definition is_boundary (offset : Z) (l : list scannedCommit) : bool :=
  (offset =? 0) || existsb (fun c => sc_EndOffset c =? offset) l.

(** [File.ReadForwardTo] of a snapshot: the records between two boundaries. *)
Definition ReadForwardTo (generation : string) (start end_ : Z) (f : JournalFile) :
    result ThreadError (list scannedCommit) :=
  let l := scan generation 0 (jf_records f) in
  if is_boundary start l && is_boundary end_ l && (start <=? end_)
  then Ok (filter (fun c => start <= sc_StartOffset c /\ sc_EndOffset c <= end_) l)
  else Err ErrCorruptJournal.

(** ** EventStore: append and rollover *)

Definition prepareCommit (io : Io) (id : string) (e : EventStore) (facts : list Fact) :
    result ThreadError Commit :=
  if negb (es_current e) then Err ErrClosed
  else
    let commit := mkCommit JournalVersion (es_nextSeq e) (NewTimestamp (io_now io)) facts in
    try _ := validateCommit id commit in
    match json_size commit with
    | None => Err ErrMarshal
    | Some n => if maxCommitBytes <? n then Err ErrCommitTooLarge else Ok commit
    end.

Definition appendCurrent (io : Io) (c : Commit) : M scannedCommit :=
  do h <- get_handle;;
  do d <- get_disk;;
  let e := h_eventStore h in
  if negb (es_current e) then fail ErrClosed
  else if negb (c_Seq c =? es_nextSeq e) then fail ErrCorruptJournal
  else match json_size c, d_files d !! journalName (es_currentID e) with
  | None, _ => fail ErrMarshal
  | _, None => fail ErrCorruptJournal
  | Some _, Some f =>
    let '(r, f') := jsonl_Append io (es_size e) c f in
    do_ modify_disk (fun d => set_files (<[journalName (es_currentID e) := f']> (d_files d)) d);;
    do batch <- lift r;;
    do_ modify_handle (set_eventStore (mkEventStore (es_currentID e) true batch.2
                                         (wrap_uint64 (es_nextSeq e + 1))));;
    ret (mkScanned c (es_currentID e) batch.1 batch.2)
  end.

(** Closes and removes a journal file ([cleanupGenerationFile], [discard]). *)
Definition remove_journal (io : Io) (id : string) : M unit :=
  if io_remove io
  then modify_disk (fun d => set_files (delete (journalName id) (d_files d)) d)
  else ret tt.

Definition stageNextGeneration (io : Io) (c : Commit) (generation : string) : M scannedCommit :=
  do h <- get_handle;;
  do d <- get_disk;;
  let e := h_eventStore h in
  if negb (es_current e) then fail ErrClosed
  else if negb (c_Seq c =? es_nextSeq e) then fail ErrCorruptJournal
  else
    do want <- lift (parseGenerationID generation);;
    match parseGenerationID (es_currentID e) with
    | Err _ => fail ErrInvalidTransition
    | Ok current =>
      if negb (want =? current + 1) then fail ErrInvalidTransition
      else if negb (bool_decide (d_files d !! journalName generation = None))
      then fail ErrJournalExists
      else
        do_ modify_disk (fun d => set_files (<[journalName generation := mkFile [] 0]> (d_files d)) d);;
        on_error (remove_journal io generation)
          (if negb (io_open io) then fail ErrIO
           else match json_size c with
                | None => fail ErrMarshal
                | Some _ =>
                  let '(r, f') := jsonl_Append io 0 c (mkFile [] 0) in
                  do_ modify_disk
                        (fun d => set_files (<[journalName generation := f']> (d_files d)) d);;
                  do batch <- lift r;;
                  ret (mkScanned c generation batch.1 batch.2)
                end)
    end.

(** Makes the staged generation current; closing the previous file may fail. *)
Definition activate (staged : scannedCommit) : M unit :=
  modify_handle (set_eventStore (mkEventStore (sc_GenerationID staged) true (sc_EndOffset staged)
                                   (wrap_uint64 (c_Seq (sc_Commit staged) + 1)))).

(** ** Metadata *)

Definition readProjectionFile (archived : bool) (id : string) (d : Disk) :
    result ThreadError Projection :=
  if negb (Bool.eqb archived (d_archived d)) then Err ErrNotExist
  else match d_meta d with
  | MetaAbsent => Err ErrNotExist
  | MetaCorrupt => Err ErrInvalidMetadata
  | MetaProjection p => try _ := validateProjectionMetadata p id in Ok p
  end.

Definition write_meta (io : Io) (p : Projection) : M unit :=
  match io_meta io with
  | IoOk => modify_disk (set_meta (MetaProjection p))
  | IoFail => fail ErrIO
  | IoFailCommitted => do_ modify_disk (set_meta (MetaProjection p));; fail ErrIO
  end.

Definition persistProjectionValueLocked (io : Io) (p : Projection) : M unit :=
  do h <- get_handle;;
  do_ lift (validateProjectionMetadata p (h_ID h));;
  write_meta io p.

Definition ensureProjectionCurrentLocked : M unit :=
  do h <- get_handle;;
  do d <- get_disk;;
  do metadata <- lift (readProjectionFile (h_archived h) (h_ID h) d);;
  let current := h_projection h in
  if negb (p_Revision metadata =? p_Revision current) ||
     negb (bool_decide (p_EventCursor metadata = p_EventCursor current))
  then fail ErrStaleHandle else ret tt.

Definition advanceProjectionRevision (at_ : Time) (p : Projection) : Projection :=
  set_Revision (wrap_uint64 (p_Revision p + 1)) at_ p.

Definition updateIndex (io : Io) (e : ThreadError) : M unit :=
  if io_index io then ret tt else fail e.

(** ** Appending facts *)

Definition is_boundary_fact (f : Fact) : bool :=
  bool_decide (f_Type f = FactContextRenewed) || bool_decide (f_Type f = FactContextCompacted).

(** [applyCommit] of the provisional record, the new revision, the check. *)
Definition candidate_of (id : string) (s : ReplayState) (provisional : scannedCommit) :
    result ThreadError ReplayState :=
  try s' := applyCommit id (cloneReplayState s) provisional in
  let s'' := over_projection (advanceProjectionRevision (c_At (sc_Commit provisional))) s' in
  try _ := validateProjectionMetadata (s_Projection s'') id in
  Ok s''.

Definition prepareAppendLocked (io : Io) (h : Handle) (facts : list Fact) :
    result ThreadError (Commit * ReplayState) :=
  let e := h_eventStore h in
  try commit := prepareCommit io (h_ID h) e facts in
  try candidate := candidate_of (h_ID h) (h_state h)
                     (mkScanned commit (es_currentID e) (es_size e) (es_size e + 1)) in
  Ok (commit, candidate).

Definition set_offset (offset : Z) (k : EventCursor) : EventCursor :=
  mkCursor (k_GenerationID k) (k_Seq k) offset.

(** The cursors of a candidate at the offset the append reports. *)
Definition set_cursor_offsets (offset : Z) (p : Projection) : Projection :=
  set_UsageAggregatedThrough (set_offset offset (p_UsageAggregatedThrough p))
    (set_EventCursor (set_offset offset (p_EventCursor p)) p).

Definition guard_open (h : Handle) : M unit :=
  if h_closed h || negb (es_current (h_eventStore h)) then fail ErrClosed else ret tt.

Definition guard_active (h : Handle) : M unit :=
  if negb (bool_decide (p_RetentionState (h_projection h) = RetentionActive))
  then fail ErrInvalidTransition else ret tt.

Definition AppendFacts (io : Io) (facts : list Fact) : M Commit :=
  do h <- get_handle;;
  do_ guard_open h;;
  do_ ensureProjectionCurrentLocked;;
  do_ guard_active h;;
  if existsb is_boundary_fact facts then fail ErrInvalidTransition
  else
    do cc <- lift (prepareAppendLocked io h facts);;
    do scanned <- appendCurrent io cc.1;;
    let candidate := over_projection (set_cursor_offsets (sc_EndOffset scanned)) cc.2 in
    do_ lift (validateProjectionMetadata (s_Projection candidate) (h_ID h));;
    do_ modify_handle (set_state candidate);;
    do_ report (ErrProjectionStale (c_Seq cc.1))
          (persistProjectionValueLocked io (s_Projection candidate));;
    do_ updateIndex io (ErrProjectionStale (c_Seq cc.1));;
    ret cc.1.

(** [fresh i] is what [newRecordID] draws for message [i]; the associated events
    are durable and normalized. *)
Definition appendBatchAssigned (io : Io) (fresh : nat -> string) (messages : list Message)
    (turnID : string) (associated : list Event) : M (list Message) :=
  if Nat.eqb (length messages) 0 then ret []
  else
    do h <- get_handle;;
    if h_closed h then fail ErrClosed
    else
      let generation := g_ID (p_CurrentGeneration (h_projection h)) in
      let prepared := imap (fun i m => prepareMessage (fresh i) m) messages in
      do_ AppendFacts io (map (message_fact generation turnID) prepared ++
                          map event_fact associated);;
      ret prepared.

(** The facts a durable event is committed with. *)
Definition event_facts (e : Event) : list Fact :=
  event_fact e ::
  (if ev_Type e =?s "turn.started" then [turn_fact FactTurnStarted (ev_TurnID e)]
   else if ev_Type e =?s "turn.completed" then
     [turn_fact FactTurnCompleted (ev_TurnID e); turn_fact FactThreadSettled (ev_TurnID e)]
   else if ev_Type e =?s "turn.errored" then [turn_fact FactTurnFailed (ev_TurnID e)]
   else if ev_Type e =?s "turn.cancelled" then
     [turn_fact FactTurnCancelled (ev_TurnID e); turn_fact FactThreadSettled (ev_TurnID e)]
   else []).

Definition AppendEvent (io : Io) (transient : bool) (e : Event) : M unit :=
  if transient then ret tt
  else
    do h <- get_handle;;
    if existsb (fun r => ev_ID r =?s ev_ID e) (s_Events (h_state h)) then ret tt
    else do_ AppendFacts io (event_facts e);; ret tt.

Definition RecordProviderUsage (io : Io) (turnID modelRef : string) (u : Usage)
    (c : option ContextUsage) : M unit :=
  if Usage_IsZero u && negb (bool_decide (is_Some c)) then ret tt
  else do_ AppendFacts io [usage_fact turnID modelRef u c];; ret tt.

(** ** Generations *)

(** The boundary fact, its seed built from the replay state. *)
Definition rollover_fact (h : Handle) (compacted : bool) (summary : Message) (automatic : bool)
    (usage : option ContextUsage) : Fact :=
  let s := h_state h in
  let current := p_CurrentGeneration (s_Projection s) in
  let next := generationID (wrap_int64 (g_Ordinal current + 1)) in
  if compacted
  then boundary_fact FactContextCompacted (g_ID current) next (Some summary) automatic
         (generationSeedFromState s (compactProviderMessages summary (s_ProviderMessages s)) usage)
  else
    let seed := generationSeedFromState s [] usage in
    boundary_fact FactContextRenewed (g_ID current) next None automatic
      (mkSeed (sd_Version seed) next (sd_ProviderMessages seed) (sd_RecoveryEvents seed)
         (sd_CompactionCount seed) (sd_ContextUsage seed)).

Definition beginGeneration (io : Io) (compacted : bool) (summary : Message) (automatic : bool)
    (usage : option ContextUsage) : M Commit :=
  do h <- get_handle;;
  do_ guard_open h;;
  do_ ensureProjectionCurrentLocked;;
  do_ guard_active h;;
  let fact := rollover_fact h compacted summary automatic usage in
  let next := f_ToGenerationID fact in
  do commit <- lift (prepareCommit io (h_ID h) (h_eventStore h) [fact]);;
  do candidate <- lift (candidate_of (h_ID h) (h_state h) (mkScanned commit next 0 1));;
  do staged <- stageNextGeneration io commit next;;
  let candidate := over_projection (set_cursor_offsets (sc_EndOffset staged)) candidate in
  do_ on_error (remove_journal io next)
        (do_ lift (validateProjectionMetadata (s_Projection candidate) (h_ID h));;
         persistProjectionValueLocked io (s_Projection candidate));;
  do_ modify_handle (set_state candidate);;
  do_ activate staged;;
  do_ (if io_close io then ret tt else fail (ErrProjectionStale (c_Seq commit)));;
  do_ updateIndex io (ErrProjectionStale (c_Seq commit));;
  ret commit.

Definition BeginNewGeneration (io : Io) : M Commit :=
  beginGeneration io false (TextMessage RoleUser "") false None.

Definition BeginCompactedGeneration (io : Io) (fresh : string) (summary : Message)
    (automatic : bool) (usage : option ContextUsage) : M Commit :=
  beginGeneration io true (prepareMessage fresh summary) automatic usage.

(** ** Metadata mutations *)

Definition publish_projection (io : Io) (p : Projection) : M unit :=
  do h <- get_handle;;
  do_ lift (validateProjectionMetadata p (h_ID h));;
  do_ persistProjectionValueLocked io p;;
  modify_handle (set_state (set_projection p (h_state h))).

Definition mutateProjectionLocked (io : Io) (mutate : Time -> Projection -> Projection) : M unit :=
  do h <- get_handle;;
  do_ guard_open h;;
  do_ ensureProjectionCurrentLocked;;
  let at_ := NewTimestamp (io_now io) in
  publish_projection io
    (advanceProjectionRevision at_ (mutate at_ (cloneProjection (h_projection h)))).

(** [available]: the alias check against the loaded index. *)
Definition ApplyAlias (io : Io) (available : bool) (alias : string) : M unit :=
  if alias =?s "" then fail ErrAlias
  else if negb available then fail ErrAlias
  else
    do_ mutateProjectionLocked io (fun _ => set_Alias alias);;
    updateIndex io ErrIndex.

Definition SetPendingInputCount (io : Io) (count : Z) : M unit :=
  if count <? 0 then fail ErrNegativeCount
  else
    do h <- get_handle;;
    do_ guard_open h;;
    do_ ensureProjectionCurrentLocked;;
    if n_PendingInputCount (p_Counts (h_projection h)) =? count then updateIndex io ErrIndex
    else
      let p := cloneProjection (h_projection h) in
      do_ publish_projection io
            (advanceProjectionRevision (NewTimestamp (io_now io))
               (set_Counts (set_PendingInputCount count (p_Counts p)) p));;
      updateIndex io ErrIndex.

(** The handle is unusable afterwards whatever closing the file reports. *)
Definition Close (io : Io) : M unit :=
  do h <- get_handle;;
  if h_closed h then ret tt
  else
    let e := h_eventStore h in
    do_ modify_handle (fun h => mkHandle (h_ID h) (h_archived h)
                                  (mkEventStore (es_currentID e) false (es_size e) (es_nextSeq e))
                                  (h_state h) true);;
    if io_close io then ret tt else fail ErrIO.

(** Runs [m] and keeps its error for later. *)
Definition attempt (m : M unit) : M (option ThreadError) := fun w =>
  match m w with
  | (Ok _, w') => (Ok None, w')
  | (Err e, w') => (Ok (Some e), w')
  end.

Definition rename (io : Io) (archived : bool) : M unit :=
  match io_rename io with
  | IoOk => modify_disk (set_archived archived)
  | IoFail => fail ErrIO
  | IoFailCommitted => do_ modify_disk (set_archived archived);; fail ErrIO
  end.

(** [active_child]: the index lists an active thread whose parent this is, or
    cannot be loaded. *)
Definition Archive (io : Io) (active_child : bool) : M unit :=
  do h <- get_handle;;
  let p := h_projection h in
  if h_ID h =?s MainID then fail ErrBusy
  else if negb (bool_decide (p_RetentionState p = RetentionActive)) ||
          bool_decide (p_ExecutionState p = ExecutionWorking) ||
          negb (n_PendingInputCount (p_Counts p) =? 0) then fail ErrBusy
  else if active_child then fail ErrBusy
  else
    do_ mutateProjectionLocked io (fun at_ p => set_Retention RetentionArchived ExecutionNone (Some at_) p);;
    do closed <- attempt (Close io);;
    do_ rename io true;;
    do_ modify_handle (fun h => mkHandle (h_ID h) true (h_eventStore h) (h_state h) (h_closed h));;
    do_ updateIndex io ErrIndex;;
    match closed with
    | Some e => fail e
    | None => ret tt
    end.

(** ** Opening *)

Definition trim_jsonl (name : string) : string :=
  let n := (String.length name - 6)%nat in
  if String.substring n 6 name =?s ".jsonl" then String.substring 0 n name else name.

(** [os.ReadDir] sorts by name. *)
Definition name_le (a b : string) : Prop := String.leb a b = true.
#[export] Instance name_le_dec : RelDecision name_le.
Proof. intros a b. unfold name_le. apply _. Defined.

Definition sorted_names (files : gmap string JournalFile) : list string :=
  merge_sort name_le (map fst (map_to_list files)).

(** The directory loop of [recoverGenerationLayout]: unregistered journals of
    later generations are removed, anything else is refused. The flag says
    whether a file has been removed. *)
Fixpoint layout_loop (io : Io) (wanted : list string) (lastOrdinal : Z) (names : list string)
    (removed : bool) (files : gmap string JournalFile) :
    result ThreadError bool * gmap string JournalFile :=
  match names with
  | [] => (Ok removed, files)
  | name :: rest =>
    if bool_decide (name ∈ wanted) then layout_loop io wanted lastOrdinal rest removed files
    else
      let id := trim_jsonl name in
      match parseGenerationID id with
      | Err _ => (Err ErrCorruptJournal, files)
      | Ok ordinal =>
        if (ordinal <=? lastOrdinal) || (name <>?s journalName id)
        then (Err ErrCorruptJournal, files)
        else if bool_decide (io_layout io = IoFail) then (Err ErrIO, files)
        else layout_loop io wanted lastOrdinal rest true (delete name files)
      end
  end.

Definition recoverGenerationLayout (io : Io) (generations : list GenerationProjection)
    (files : gmap string JournalFile) : result ThreadError unit * gmap string JournalFile :=
  let wanted := map (fun g => journalName (g_ID g)) generations in
  let lastOrdinal := match last generations with Some g => g_Ordinal g | None => 0 end in
  match layout_loop io wanted lastOrdinal (sorted_names files) false files with
  | (Err e, files') => (Err e, files')
  | (Ok removed, files') =>
    if existsb (fun name => bool_decide (files' !! name = None)) wanted
    then (Err ErrCorruptJournal, files')
    else if removed && bool_decide (io_layout io = IoFailCommitted) then (Err ErrIO, files')
    else (Ok tt, files')
  end.

(** The record loop of [readGenerationCommits]. *)
Fixpoint read_commits (id : string) (wantSeq : Z) (l : list scannedCommit) :
    result ThreadError unit :=
  match l with
  | [] => Ok tt
  | c :: r =>
    if negb (c_Seq (sc_Commit c) =? wantSeq) then Err ErrCorruptJournal
    else match validateCommit id (sc_Commit c) with
         | Err _ => Err ErrCorruptJournal
         | Ok _ => read_commits id (wrap_uint64 (wantSeq + 1)) r
         end
  end.

Definition readGenerationCommits (id : string) (g : GenerationProjection) (f : JournalFile) :
    result ThreadError (list scannedCommit) :=
  let commits := scan (g_ID g) 0 (jf_records f) in
  try _ := read_commits id (g_BoundarySeq g) commits in
  if Nat.eqb (length commits) 0 then Err ErrCorruptJournal else Ok commits.

(** [jsonl.Open] drops a torn last line. *)
Definition openGenerationFile (io : Io) (id : string) (g : GenerationProjection)
    (files : gmap string JournalFile) :
    result ThreadError (Z * list scannedCommit) * gmap string JournalFile :=
  if negb (io_open io) then (Err ErrIO, files)
  else
    let f := default (mkFile [] 0) (files !! journalName (g_ID g)) in
    let f' := mkFile (jf_records f) 0 in
    (try commits := readGenerationCommits id g f' in Ok (file_size f', commits),
     <[journalName (g_ID g) := f']> files).

Definition usageOnlyCommit (c : scannedCommit) : bool :=
  negb (Nat.eqb (length (c_Facts (sc_Commit c))) 0) &&
  forallb (fun f => bool_decide (f_Type f = FactUsageRecorded)) (c_Facts (sc_Commit c)).

Fixpoint split_loop (before commits : list scannedCommit) (cursor : EventCursor) :
    result ThreadError (list scannedCommit * list scannedCommit) :=
  match commits with
  | [] => Err ErrInvalidMetadata
  | c :: tail =>
    if negb (bool_decide (commit_cursor c = cursor)) then split_loop (before ++ [c]) tail cursor
    else match tail with
         | [] => Ok (before ++ [c], [])
         | [u] => if usageOnlyCommit u then Ok (before ++ [c], [u]) else Err ErrInvalidMetadata
         | _ => Err ErrInvalidMetadata
         end
  end.

Definition splitCommitsAtCursor (commits : list scannedCommit) (cursor : EventCursor) :
    result ThreadError (list scannedCommit * list scannedCommit) :=
  split_loop [] commits cursor.

Definition applyRuntimeFact (id generation : string) (c : scannedCommit) (first : bool)
    (s : ReplayState) (f : Fact) : result ThreadError ReplayState :=
  match f_Type f with
  | FactThreadCreated =>
    if negb first || (generation <>?s InitialGeneration) || (f_ThreadID f <>?s id)
    then Err ErrInvalidTransition else Ok (set_scope InitialGeneration s)
  | FactContextRenewed | FactContextCompacted =>
    match first, f_Seed f with
    | true, Some seed => Ok (record_boundary c f (applyGenerationSeed s seed))
    | _, _ => Err ErrInvalidTransition
    end
  | FactMessageAppended =>
    if f_GenerationID f <>?s generation then Err ErrInvalidTransition
    else match f_Message f with
         | Some m => Ok (append_message m s)
         | None => Err ErrNilPointer
         end
  | FactEventRecorded =>
    match f_Event f with
    | Some e => Ok (append_event e s)
    | None => Err ErrNilPointer
    end
  | FactUsageRecorded =>
    match f_ContextUsage f with
    | Some u => Ok (set_context_usage (Some u) s)
    | None => Ok s
    end
  | _ => Ok s
  end.

Fixpoint applyRuntimeCommit (id generation : string) (c : scannedCommit) (first : bool)
    (l : list Fact) (s : ReplayState) : result ThreadError ReplayState :=
  match l with
  | [] => Ok s
  | f :: r =>
    try s' := applyRuntimeFact id generation c first s f in
    applyRuntimeCommit id generation c first r s'
  end.

Fixpoint runtime_loop (id generation : string) (first : bool) (l : list scannedCommit)
    (s : ReplayState) : result ThreadError ReplayState :=
  match l with
  | [] => Ok s
  | c :: r =>
    match applyRuntimeCommit id generation c first (c_Facts (sc_Commit c)) s with
    | Err _ => Err ErrCorruptJournal
    | Ok s' => runtime_loop id generation false r s'
    end
  end.

(** How the first commit of the current generation must look. *)
Definition valid_first (metadata : Projection) (c : scannedCommit) : bool :=
  let current := p_CurrentGeneration metadata in
  match c_Facts (sc_Commit c) with
  | [f] =>
    if g_Ordinal current =? 1
    then bool_decide (f_Type f = FactThreadCreated) && (c_Seq (sc_Commit c) =? 1)
    else
      is_boundary_fact f &&
      match f_Seed f, p_Generations metadata !! Z.to_nat (g_Ordinal current - 2) with
      | Some seed, Some previous =>
        (sd_Version seed =? ProjectionVersion) && (f_FromGenerationID f =?s g_ID previous) &&
        (f_ToGenerationID f =?s g_ID current) &&
        (c_Seq (sc_Commit c) =? g_BoundarySeq current)
      | _, _ => false
      end
  | _ => false
  end.

Definition replayCurrentGeneration (id : string) (metadata : Projection)
    (commits : list scannedCommit) : result ThreadError ReplayState :=
  match commits, last commits with
  | c :: _, Some l =>
    if negb (valid_first metadata c) then Err ErrCorruptJournal
    else if negb (bool_decide (commit_cursor l = p_EventCursor metadata)) then Err ErrInvalidMetadata
    else runtime_loop id (g_ID (p_CurrentGeneration metadata)) true commits
           (set_projection (cloneProjection metadata) zero_state)
  | _, _ => Err ErrCorruptJournal
  end.

(** ** Usage recovery *)

(** The last entry with the id, as the assigning loop leaves it. *)
Fixpoint index_loop (id : string) (index : nat) (found : option nat)
    (l : list GenerationProjection) : option nat :=
  match l with
  | [] => found
  | g :: r => index_loop id (S index) (if g_ID g =?s id then Some index else found) r
  end.

(** The commits after a cursor: the visitor of one captured journal. *)
Fixpoint visit_loop (id : string) (wantSeq : Z) (l : list scannedCommit)
    (visit : scannedCommit -> ReplayState -> result ThreadError ReplayState) (s : ReplayState) :
    result ThreadError (Z * ReplayState) :=
  match l with
  | [] => Ok (wantSeq, s)
  | c :: r =>
    if negb (c_Seq (sc_Commit c) =? wantSeq) then Err ErrCorruptJournal
    else match validateCommit id (sc_Commit c) with
         | Err _ => Err ErrCorruptJournal
         | Ok _ =>
           try s' := visit c s in
           visit_loop id (wrap_uint64 (wantSeq + 1)) r visit s'
         end
  end.

(** The captured journals in order: only the first starts at the cursor, only
    the last (generation [through]) ends at its offset. *)
Fixpoint captured_loop (id : string) (files : gmap string JournalFile) (through : EventCursor)
    (start wantSeq : Z) (l : list GenerationProjection)
    (visit : scannedCommit -> ReplayState -> result ThreadError ReplayState) (s : ReplayState) :
    result ThreadError (Z * ReplayState) :=
  match l with
  | [] => Ok (wantSeq, s)
  | g :: r =>
    match files !! journalName (g_ID g) with
    | None => Err ErrIO
    | Some f =>
      let end_ := match r with [] => k_Offset through | _ => file_size f end in
      try commits := ReadForwardTo (g_ID g) start end_ f in
      try ws := visit_loop id wantSeq commits visit s in
      captured_loop id files through 0 ws.1 r visit ws.2
    end
  end.

Definition visitCommitsAfterCursor (id : string) (files : gmap string JournalFile)
    (generations : list GenerationProjection) (after through : EventCursor)
    (visit : scannedCommit -> ReplayState -> result ThreadError ReplayState) (s : ReplayState) :
    result ThreadError ReplayState :=
  match index_loop (k_GenerationID after) 0 None generations,
        index_loop (k_GenerationID through) 0 None generations with
  | Some start, Some end_ =>
    if (end_ <? start)%nat then Err ErrInvalidMetadata
    else
      let selected := firstn (S end_ - start) (skipn start generations) in
      try ws := captured_loop id files through (k_Offset after)
                  (wrap_uint64 (k_Seq after + 1)) selected visit s in
      if ws.1 =? wrap_uint64 (k_Seq through + 1) then Ok ws.2 else Err ErrInvalidMetadata
  | _, _ => Err ErrInvalidMetadata
  end.

Fixpoint add_usage_facts (l : list Fact) (a : UsageAggregate) : result ThreadError UsageAggregate :=
  match l with
  | [] => Ok a
  | f :: r =>
    if bool_decide (f_Type f = FactUsageRecorded)
    then match f_Usage f with
         | Some u => add_usage_facts r (UsageAggregate_Add (f_ModelRef f) u a)
         | None => Err ErrNilPointer
         end
    else add_usage_facts r a
  end.

Definition recover_visit (c : scannedCommit) (s : ReplayState) : result ThreadError ReplayState :=
  try a := add_usage_facts (c_Facts (sc_Commit c)) (p_TokenUsage (s_Projection s)) in
  Ok (over_projection
        (fun p => set_UsageAggregatedThrough (commit_cursor c) (set_TokenUsage a p)) s).

Definition recoverUsageAggregate (id : string) (files : gmap string JournalFile)
    (through : EventCursor) (s : ReplayState) : result ThreadError (bool * ReplayState) :=
  let after := p_UsageAggregatedThrough (s_Projection s) in
  if bool_decide (after = through) then Ok (false, s)
  else
    try s' := visitCommitsAfterCursor id files (p_Generations (s_Projection s)) after through
                recover_visit s in
    if bool_decide (p_UsageAggregatedThrough (s_Projection s') = through) then Ok (true, s')
    else Err ErrInvalidMetadata.

(** ** Opening a thread *)

Definition apply_tail (id : string) (tail : list scannedCommit) (recovered : bool)
    (s : ReplayState) : result ThreadError (bool * ReplayState) :=
  match tail with
  | [u] =>
    match applyCommit id s u with
    | Ok s' => Ok (true, s')
    | Err _ => Err ErrCorruptJournal
    end
  | _ => Ok (recovered, s)
  end.

(** The new revision of a recovered projection. *)
Definition recovered_revision (io : Io) (recovered : bool) (s : ReplayState) : ReplayState :=
  if recovered
  then
    let at_ := NewTimestamp (io_now io) in
    over_projection
      (advanceProjectionRevision
         (if at_ <? p_UpdatedAt (s_Projection s) then p_UpdatedAt (s_Projection s) else at_)) s
  else s.

Definition openEventStore (io : Io) (id : string) (metadata : Projection)
    (files : gmap string JournalFile) :
    result ThreadError (EventStore * ReplayState * bool) * gmap string JournalFile :=
  match recoverGenerationLayout io (p_Generations metadata) files with
  | (Err e, files1) => (Err e, files1)
  | (Ok _, files1) =>
    match openGenerationFile io id (p_CurrentGeneration metadata) files1 with
    | (Err e, files2) => (Err e, files2)
    | (Ok (size, commits), files2) =>
      (try parts := splitCommitsAtCursor commits (p_EventCursor metadata) in
       try s := replayCurrentGeneration id metadata parts.1 in
       let lastSeq := match last commits with Some l => c_Seq (sc_Commit l) | None => 0 end in
       let store := mkEventStore (g_ID (p_CurrentGeneration metadata)) true size
                      (wrap_uint64 (lastSeq + 1)) in
       try rs := recoverUsageAggregate id files2 (p_EventCursor metadata) s in
       try rs' := apply_tail id parts.2 rs.1 rs.2 in
       let s' := recovered_revision io rs'.1 rs'.2 in
       try _ := validateProjectionMetadata (s_Projection s') id in
       Ok (store, s', rs'.1), files2)
    end
  end.

Definition openLocked (io : Io) (archived : bool) (id : string) (d : Disk) :
    result ThreadError Handle * Disk :=
  if negb (ValidID id) then (Err ErrInvalidID, d)
  else match readProjectionFile archived id d with
  | Err e => (Err e, d)
  | Ok metadata =>
    if negb (Bool.eqb (bool_decide (p_RetentionState metadata = RetentionArchived)) archived)
    then (Err ErrInvalidMetadata, d)
    else match openEventStore io id metadata (d_files d) with
    | (Err e, files) => (Err e, set_files files d)
    | (Ok (store, s, recovered), files) =>
      let d' := set_files files d in
      if negb (io_renewal io) then (Err ErrContextRenewal, d')
      else
        let h := mkHandle id archived store s false in
        match (do_ (if recovered then persistProjectionValueLocked io (s_Projection s) else ret tt);;
               updateIndex io ErrIndex) (h, d') with
        | (Ok _, w) => (Ok h, w.2)
        | (Err e, w) => (Err e, w.2)
        end
    end
  end.

(** ** Creating a thread *)

(** [cleanupGenerationFile] of a journal that is not published. *)
Definition cleanup_journal (io : Io) (generation : string) (files : gmap string JournalFile) :
    gmap string JournalFile :=
  if io_remove io then delete (journalName generation) files else files.

(** [createEventStore], up to the first record, and the files it leaves. *)
Definition createEventStore (io : Io) (id alias parent : string)
    (files : gmap string JournalFile) :
    result ThreadError (EventStore * scannedCommit) * gmap string JournalFile :=
  let name := journalName InitialGeneration in
  if negb (ValidID id) then (Err ErrInvalidID, files)
  else if negb (bool_decide (files !! name = None)) then (Err ErrJournalExists, files)
  else if negb (io_open io) then (Err ErrIO, files)
  else
    let e := mkEventStore InitialGeneration true 0 1 in
    match prepareCommit io id e [created_fact id alias parent] with
    | Err err => (Err err, cleanup_journal io InitialGeneration (<[name := mkFile [] 0]> files))
    | Ok commit =>
      match jsonl_Append io 0 commit (mkFile [] 0) with
      | (Err err, f) => (Err err, cleanup_journal io InitialGeneration (<[name := f]> files))
      | (Ok (start, end_), f) =>
        (Ok (mkEventStore InitialGeneration true end_ (wrap_uint64 2),
             mkScanned commit InitialGeneration start end_),
         <[name := f]> files)
      end
    end.

Definition empty_disk : Disk := mkDisk false MetaAbsent ∅.

(** [os.RemoveAll] of the directory after a failure: a removal that fails in turn
    leaves the directory with any of its files. *)
Definition cleanupCreatedThreadDir (c : CreateIo) (d : Disk) : option Disk :=
  match io_cleanup c with
  | Removed => None
  | Remains keep_meta keep =>
    Some (mkDisk (d_archived d) (if keep_meta then d_meta d else MetaAbsent)
            (filter (fun x => keep x.1 = true) (d_files d)))
  end.

(** In a directory of its own; returns what is left of the directory, if anything.
    [os.MkdirAll] that fails may have made it, and nothing removes it then. An index
    failure leaves the published thread and closes its handle. *)
Definition createLocked (io : Io) (c : CreateIo) (id alias parent : string) :
    result ThreadError Handle * option Disk :=
  match io_mkdir c with
  | IoFail => (Err ErrIO, None)
  | IoFailCommitted => (Err ErrIO, Some empty_disk)
  | IoOk =>
    match createEventStore io id alias parent ∅ with
    | (Err e, files) => (Err e, cleanupCreatedThreadDir c (mkDisk false MetaAbsent files))
    | (Ok (store, created), files) =>
      let d := mkDisk false MetaAbsent files in
      match replay id [created] with
      | Err e => (Err e, cleanupCreatedThreadDir c d)
      | Ok s0 =>
        let s := over_projection (fun p => set_Revision 1 (p_UpdatedAt p) p) s0 in
        let h := mkHandle id false store s false in
        match persistProjectionValueLocked io (s_Projection s) (h, d) with
        | (Err e, w) => (Err e, cleanupCreatedThreadDir c w.2)
        | (Ok _, w) => (if io_index io then Ok h else Err ErrIndex, Some w.2)
        end
      end
    end
  end.

(** [RecoverLayout] for this directory: moves it to the namespace its metadata
    names. *)
Definition recoverNamespace (io : Io) (id : string) (d : Disk) : result ThreadError unit * Disk :=
  match readProjectionFile (d_archived d) id d with
  | Err e => (Err e, d)
  | Ok p =>
    let shouldArchive := bool_decide (p_RetentionState p = RetentionArchived) in
    if Bool.eqb shouldArchive (d_archived d) then (Ok tt, d)
    else match io_rename io with
         | IoOk => (Ok tt, set_archived shouldArchive d)
         | IoFail => (Err ErrIO, d)
         | IoFailCommitted => (Err ErrIO, set_archived shouldArchive d)
         end
  end.

(** [Unarchive]: a second opening, with outcomes of its own, gives the handle. *)
Definition Unarchive (io io' : Io) (id : string) (d : Disk) : result ThreadError Handle * Disk :=
  if negb (ValidWorkerID id) then (Err ErrInvalidID, d)
  else match openLocked io true id d with
  | (Err e, d') => (Err e, d')
  | (Ok h, d') =>
    let m :=
      do_ mutateProjectionLocked io (fun _ => set_Retention RetentionActive ExecutionIdle None);;
      do closed <- attempt (Close io);;
      do_ rename io false;;
      ret closed in
    match m (h, d') with
    | (Err e, w) => (Err e, w.2)
    | (Ok closed, w) =>
      match openLocked io' false id w.2, closed, io_index io with
      | (Ok h', d''), None, true => (Ok h', d'')
      | (Ok _, d''), _, _ => (Err ErrIndex, d'')
      | (Err e, d''), _, _ => (Err e, d'')
      end
    end
  end.

(** ** A thread directory and its handles *)

Record System := mkSystem { sys_disk : Disk; sys_handles : list Handle }.

Inductive Call :=
| CallAppendFacts (facts : list Fact)
| CallAppendBatch (fresh : nat -> string) (messages : list Message) (turn : string)
    (associated : list Event)
| CallAppendEvent (transient : bool) (e : Event)
| CallRecordProviderUsage (turn model : string) (u : Usage) (c : option ContextUsage)
| CallBeginNewGeneration
| CallBeginCompactedGeneration (fresh : string) (summary : Message) (automatic : bool)
    (usage : option ContextUsage)
| CallApplyAlias (available : bool) (alias : string)
| CallSetPendingInputCount (count : Z)
| CallArchive (active_child : bool)
| CallClose.

Definition discard_result {A} (m : M A) : M unit := do _ <- m;; ret tt.

Definition run_call (io : Io) (c : Call) : M unit :=
  match c with
  | CallAppendFacts facts => discard_result (AppendFacts io facts)
  | CallAppendBatch fresh messages turn associated =>
    discard_result (appendBatchAssigned io fresh messages turn associated)
  | CallAppendEvent transient e => AppendEvent io transient e
  | CallRecordProviderUsage turn model u c => RecordProviderUsage io turn model u c
  | CallBeginNewGeneration => discard_result (BeginNewGeneration io)
  | CallBeginCompactedGeneration fresh summary automatic usage =>
    discard_result (BeginCompactedGeneration io fresh summary automatic usage)
  | CallApplyAlias available alias => ApplyAlias io available alias
  | CallSetPendingInputCount count => SetPendingInputCount io count
  | CallArchive active_child => Archive io active_child
  | CallClose => Close io
  end.

(** The handle an opening returns, if it succeeds. *)
Definition opened (r : result ThreadError Handle) : list Handle :=
  match r with
  | Ok h => [h]
  | Err _ => []
  end.

Section Steps.
  Context (id : string).

Inductive step : System -> System -> Prop :=
| step_call i io c h d hs r h' d' :
    hs !! i = Some h -> run_call io c (h, d) = (r, (h', d')) ->
    step (mkSystem d hs) (mkSystem d' (<[i := h']> hs))
| step_open io archived d hs r d' :
    openLocked io archived id d = (r, d') ->
    step (mkSystem d hs) (mkSystem d' (hs ++ opened r))
| step_unarchive io io' d hs r d' :
    Unarchive io io' id d = (r, d') ->
    step (mkSystem d hs) (mkSystem d' (hs ++ opened r))
| step_recover io d hs r d' :
    recoverNamespace io id d = (r, d') ->
    step (mkSystem d hs) (mkSystem d' hs).

(** A system as [createLocked] leaves it, with the metadata and the journal of
    the thread: one that is published, by a creation that may have failed. *)
Definition created (s : System) : Prop :=
  exists io c alias parent r d,
    createLocked io c id alias parent = (r, Some d) /\ d_meta d <> MetaAbsent /\
    d_files d <> ∅ /\ s = mkSystem d (opened r).

Definition reachable (s : System) : Prop := exists s0, created s0 /\ runs step s0 s.
End Steps.
End Store.
