(* ===== verification/ThreadReplay.v ===== *)
(** * Thread replay: identifiers, accounting and the cold-open replay

    Lemmas and theorems about the pure part of thread storage
    ([ThreadFacts.v] and the replay half of [ThreadStore.v]): generation ids,
    the projection as a fold of the history, the absence of nil dereferences in
    validated commits, and the agreement of the replay of the current
    generation, which a cold open runs, with the replay of the whole history. *)

From S2P Require Import Prelude GoStd Llm Events ThreadTypes ThreadFacts ThreadStore.
From Stdlib Require Import Ascii.

Local Open Scope Z_scope.
Local Open Scope juex_scope.

(** ** Generation ids *)

Lemma generationID_small n : 0 <= n < 1000000 ->
  generationID n = String "g"%char (pad_digits 6 n).
Proof. intros H. unfold generationID. by rewrite Sprintf06d_pad. Qed.

Lemma parse_generationID n : 1 <= n <= 999999 -> parseGenerationID (generationID n) = Ok n.
Proof.
  intros Hn. unfold parseGenerationID.
  rewrite generationID_small by lia. cbn [String.append].
  assert (len (String "g"%char (pad_digits 6 n)) = 7) as ->.
  { unfold len. cbn [String.length]. by rewrite <- bytes_of_length, pad_digits_length. }
  rewrite Atoi_pad by (simpl; lia). simpl.
  destruct (n <=? 0) eqn:E; to_prop; [lia|]. simpl.
  rewrite generationID_small by lia. by rewrite bool_decide_eq_true_2.
Qed.

Lemma generationID_len n : len (generationID n) = 1 + len (Sprintf06d n).
Proof.
  unfold generationID, len. rewrite <- !bytes_of_length, bytes_of_app, length_app.
  change (length (bytes_of "g")) with 1%nat. lia.
Qed.

Lemma parse_inv id n : parseGenerationID id = Ok n -> id = generationID n /\ 1 <= n <= 999999.
Proof.
  unfold parseGenerationID. intros H.
  destruct id as [|c r]; [done|].
  assert (c = "g"%char) as -> by (by destruct c as [[] [] [] [] [] [] [] []]).
  destruct (len (String "g"%char r) =? 7) eqn:Hl; [|done]. to_prop.
  walk. to_prop. rewrite <- H0 in Hl |- *.
  split; [done|]. destruct (decide (n <= 999999)) as [?|Hgt]; [lia|].
  assert (7 <= len (Sprintf06d n)) as Hlong by (apply Sprintf06d_long; lia).
  rewrite generationID_len in Hl. lia.
Qed.

Lemma generationID_inj n m : 1 <= n <= 999999 -> generationID n = generationID m ->
  1 <= m <= 999999 -> n = m.
Proof.
  intros Hn He Hm. apply parse_generationID in Hn, Hm. rewrite He in Hn. congruence.
Qed.

(** [parseGenerationID] accepts exactly the ids that [generationID] prints
    for the ordinals 1 to 999999, and gives the ordinal back; past the last
    ordinal no id parses, so a thread has at most 999999 generations. *)
Theorem generation_id_roundtrip id n :
  parseGenerationID id = Ok n <-> id = generationID n /\ 1 <= n <= 999999.
Proof.
  split; [apply parse_inv|]. intros [-> Hn]. by apply parse_generationID.
Qed.

(** ** Validated commits *)

Definition shaped (id : string) (f : Fact) : Prop := validateFactShape id f = Ok tt.
Definition validated (id : string) (c : Commit) : Prop := validateCommit id c = Ok tt.

(** A fact that opens a generation. *)
Definition opens (f : Fact) : bool := only_fact (f_Type f).

Lemma validate_facts_inv id l : validate_facts id l = Ok tt -> Forall (shaped id) l.
Proof.
  induction l as [|f l IH]; [constructor|]. cbn [validate_facts]. intros H.
  destruct (validateFactShape id f) as [[]|] eqn:Hf; [|done]. constructor; auto.
Qed.

Lemma check_inv b e : check b e = Ok tt -> b = true.
Proof. by destruct b. Qed.

Lemma validated_inv id c : validated id c ->
  c_Seq c <> 0 /\ c_At c <> 0 /\ c_Facts c <> [] /\ Forall (shaped id) (c_Facts c) /\
  (length (c_Facts c) = 1%nat \/ Forall (fun f => opens f = false) (c_Facts c)).
Proof.
  unfold validated, validateCommit. intros H. walk. to_prop.
  pose proof (validate_facts_inv id (c_Facts c)) as Hf.
  destruct (validate_facts id (c_Facts c)) as [[]|e]; [|done]. simpl in H.
  apply check_inv in H. to_prop.
  repeat split; auto; [by intros E; rewrite E in *|].
  destruct H as [H|H]; to_prop; [left; lia|].
  right. apply Forall_forall. intros f Hin.
  destruct (opens f) eqn:Ho; [|done].
  enough (existsb (fun f => only_fact (f_Type f)) (c_Facts c) = true) by congruence.
  apply existsb_exists. exists f. split; [by apply list_elem_of_In | exact Ho].
Qed.

(** What [applyFact] and [applyRuntimeFact] read of a shaped fact. *)
Lemma shaped_message id f : shaped id f -> f_Type f = FactMessageAppended ->
  exists m, f_Message f = Some m.
Proof. unfold shaped, validateFactShape. intros H E. rewrite E in H. walk; eauto. Qed.

Lemma shaped_event id f : shaped id f -> f_Type f = FactEventRecorded ->
  exists e, f_Event f = Some e.
Proof. unfold shaped, validateFactShape. intros H E. rewrite E in H. walk; eauto. Qed.

Lemma shaped_usage id f : shaped id f -> f_Type f = FactUsageRecorded ->
  exists u, f_Usage f = Some u.
Proof. unfold shaped, validateFactShape. intros H E. rewrite E in H. walk; eauto. Qed.

Lemma shaped_created id f : shaped id f -> f_Type f = FactThreadCreated -> f_ThreadID f = id.
Proof.
  unfold shaped, validateFactShape. intros H E. rewrite E in H.
  destruct (f_ThreadID f <>?s id) eqn:Ht; [by walk|]. by to_prop.
Qed.

Lemma shaped_boundary id f : shaped id f -> is_boundary_fact f = true ->
  exists seed, f_Seed f = Some seed /\ sd_Version seed = ProjectionVersion.
Proof.
  unfold shaped, validateFactShape, is_boundary_fact. intros H Hb.
  apply orb_true_iff in Hb. rewrite !bool_decide_eq_true in Hb.
  assert (check (validate_boundary f) ErrInvalidFact = Ok tt) as Hc.
  { destruct Hb as [E|E]; rewrite E in H; by walk. }
  apply check_inv in Hc. unfold validate_boundary in Hc. walk; to_prop; eauto.
Qed.

Lemma is_boundary_cases f : is_boundary_fact f = true <->
  f_Type f = FactContextRenewed \/ f_Type f = FactContextCompacted.
Proof. unfold is_boundary_fact. by rewrite orb_true_iff, !bool_decide_eq_true. Qed.

Lemma opens_cases f : opens f = true <-> f_Type f = FactThreadCreated \/ is_boundary_fact f = true.
Proof.
  rewrite is_boundary_cases. unfold opens. destruct (f_Type f); simpl; naive_solver.
Qed.

(** Closes a case in which a shaped fact would lack what its type requires. *)
Ltac not_nil id f Hf Et :=
  first [ by destruct (shaped_message id f Hf Et); congruence
        | by destruct (shaped_event id f Hf Et); congruence
        | by destruct (shaped_usage id f Hf Et); congruence
        | by destruct (shaped_boundary id f Hf) as (? & ? & ?);
          [rewrite is_boundary_cases; auto | congruence] ].

(** A validated commit is never applied through a nil pointer: neither the
    full replay nor the cold-open replay can panic on it. *)
Theorem validated_commit_never_panics id generation c first s :
  validated id (sc_Commit c) ->
  applyCommit id s c <> Err ErrNilPointer /\
  applyRuntimeCommit id generation c first (c_Facts (sc_Commit c)) s <> Err ErrNilPointer.
Proof.
  intros (_ & _ & _ & Hs & _)%validated_inv. split.
  - unfold applyCommit. intros H.
    assert (apply_facts id c (c_Facts (sc_Commit c)) s <> Err ErrNilPointer) as Hne.
    { clear H. revert s. induction Hs as [|f l Hf Hs IH]; intros s; [done|]. cbn [apply_facts].
      destruct (applyFact id s c f) as [s'|e] eqn:E; simpl; [apply IH|].
      intros [= ->]. unfold applyFact in E.
      destruct (f_Type f) eqn:Et; walk; not_nil id f Hf Et. }
    destruct (apply_facts id c _ s) as [s'|e]; simpl in H; [|congruence].
    unfold validateProjectionLifecycle in H. walk.
  - revert s. induction Hs as [|f l Hf Hs IH]; intros s; [done|]. cbn [applyRuntimeCommit].
    destruct (applyRuntimeFact id generation c first s f) as [s'|e] eqn:E; simpl; [apply IH|].
    intros [= ->]. unfold applyRuntimeFact in E.
    destruct (f_Type f) eqn:Et; walk; not_nil id f Hf Et.
Qed.

(** ** The cold-open replay of one fact *)

Ltac walk_eq := walk; simplify_eq/=; try done.

Definition current_id (s : ReplayState) : string := g_ID (p_CurrentGeneration (s_Projection s)).

Lemma set_projection_twice p q s : set_projection p (set_projection q s) = set_projection p s.
Proof. done. Qed.

Lemma set_projection_self s : set_projection (s_Projection s) s = s.
Proof. by destruct s. Qed.

(** What the full replay does to everything but the projection is what the
    runtime replay does. *)
Lemma runtime_fact_agrees id generation c first s s' f :
  shaped id f -> applyFact id s c f = Ok s' ->
  (opens f = true -> first = true) ->
  (f_Type f = FactThreadCreated -> generation = InitialGeneration) ->
  (f_Type f = FactMessageAppended -> generation = current_id s) ->
  forall p, applyRuntimeFact id generation c first (set_projection p s) f =
            Ok (set_projection p s').
Proof.
  intros Hf Ha Hfirst Hcreated Hmessage p.
  unfold applyRuntimeFact. unfold applyFact in Ha. fold (current_id s) in Ha.
  destruct (f_Type f) eqn:Et;
    try (assert (opens f = true) as Ho by (unfold opens; by rewrite Et);
         specialize (Hfirst Ho); subst first).
  - rewrite (shaped_created id f Hf Et), Hcreated, !bool_decide_eq_true_2 by done. simpl.
    by walk_eq.
  - rewrite Hmessage by done. by walk_eq.
  - by walk_eq.
  - by walk_eq.
  - by walk_eq.
  - by walk_eq.
  - by walk_eq.
  - by walk_eq.
  - destruct (shaped_boundary id f Hf) as (seed & Hseed & _).
    { rewrite is_boundary_cases. auto. }
    rewrite Hseed in *. by walk_eq.
  - destruct (shaped_boundary id f Hf) as (seed & Hseed & _).
    { rewrite is_boundary_cases. auto. }
    rewrite Hseed in *. by walk_eq.
  - by walk_eq.
  - by walk_eq.
Qed.

(** Only an opening fact changes the generation or the registry. *)
Lemma applyFact_keeps_generation id c s s' f :
  opens f = false -> applyFact id s c f = Ok s' ->
  p_CurrentGeneration (s_Projection s') = p_CurrentGeneration (s_Projection s) /\
  p_Generations (s_Projection s') = p_Generations (s_Projection s).
Proof.
  unfold opens, applyFact. intros Ho Ha. destruct (f_Type f) eqn:Et; try done; by walk_eq.
Qed.

Lemma apply_facts_keep_generation id c s s' l :
  Forall (fun f => opens f = false) l -> apply_facts id c l s = Ok s' ->
  p_CurrentGeneration (s_Projection s') = p_CurrentGeneration (s_Projection s) /\
  p_Generations (s_Projection s') = p_Generations (s_Projection s).
Proof.
  intros Hl. revert s. induction Hl as [|f l Hf Hl IH]; intros s Ha; [by simplify_eq/=|].
  cbn [apply_facts] in Ha. destruct (applyFact id s c f) as [s1|] eqn:E; [|done]. simpl in Ha.
  destruct (IH _ Ha) as [-> ->]. by apply (applyFact_keeps_generation id c s s1 f).
Qed.

(** A commit without an opening fact, in the generation it appends to. *)
Lemma runtime_facts_agree id c first s s' l :
  Forall (shaped id) l -> Forall (fun f => opens f = false) l ->
  apply_facts id c l s = Ok s' ->
  forall p, applyRuntimeCommit id (current_id s) c first l (set_projection p s) =
            Ok (set_projection p s').
Proof.
  intros Hs Ho. revert s. induction Ho as [|f l Hf Ho IH]; intros s Ha p.
  { by simplify_eq/=. }
  inversion Hs as [|? ? Hsf Hsl]; subst.
  cbn [apply_facts applyRuntimeCommit] in *.
  destruct (applyFact id s c f) as [s1|] eqn:E; [|done]. simpl in Ha.
  rewrite (runtime_fact_agrees id (current_id s) c first s s1 f); try done.
  - simpl. destruct (applyFact_keeps_generation id c s s1 f Hf E) as [Hg _].
    unfold current_id in *. rewrite <- Hg. by apply IH.
  - congruence.
  - intros Et. unfold opens in Hf. by rewrite Et in Hf.
Qed.

(** A commit that opens a generation, whatever it opens. *)
Lemma runtime_opening_agrees id generation c s s' f :
  shaped id f -> c_Facts (sc_Commit c) = [f] -> opens f = true ->
  (f_Type f = FactThreadCreated -> generation = InitialGeneration) ->
  apply_facts id c [f] s = Ok s' ->
  forall p, applyRuntimeCommit id generation c true [f] (set_projection p s) =
            Ok (set_projection p s').
Proof.
  intros Hf _ Ho Hc Ha p. cbn [apply_facts applyRuntimeCommit] in *.
  destruct (applyFact id s c f) as [s1|] eqn:E; [|done]. simpl in Ha. simplify_eq.
  rewrite (runtime_fact_agrees id generation c true s s' f); try done.
  intros Et. unfold opens in Ho. by rewrite Et in Ho.
Qed.

(** ** Stamping *)

Lemma applyCommit_inv id s c s' : applyCommit id s c = Ok s' ->
  exists s1, apply_facts id c (c_Facts (sc_Commit c)) s = Ok s1 /\
    validateProjectionLifecycle (s_Projection s1) = Ok tt /\
    s' = over_projection (stamp c) s1.
Proof.
  unfold applyCommit. intros H.
  destruct (apply_facts id c _ s) as [s1|]; [|done]. simpl in H.
  destruct (validateProjectionLifecycle _) as [[]|] eqn:Hv; [|done]. simpl in H.
  simplify_eq. eauto.
Qed.

Lemma applyCommit_generation id s c s' :
  Forall (fun f => opens f = false) (c_Facts (sc_Commit c)) -> applyCommit id s c = Ok s' ->
  p_CurrentGeneration (s_Projection s') = p_CurrentGeneration (s_Projection s) /\
  p_Generations (s_Projection s') = p_Generations (s_Projection s).
Proof.
  intros Ho (s1 & Ha & _ & ->)%applyCommit_inv.
  by apply (apply_facts_keep_generation id c s s1 (c_Facts (sc_Commit c))).
Qed.

Lemma applyCommit_cursor id s c s' : applyCommit id s c = Ok s' ->
  p_EventCursor (s_Projection s') = commit_cursor c /\
  p_UsageAggregatedThrough (s_Projection s') = commit_cursor c.
Proof. by intros (s1 & _ & _ & ->)%applyCommit_inv. Qed.

Lemma runtime_commit_agrees id c first s s' :
  validated id (sc_Commit c) -> Forall (fun f => opens f = false) (c_Facts (sc_Commit c)) ->
  applyCommit id s c = Ok s' ->
  forall p, applyRuntimeCommit id (current_id s) c first (c_Facts (sc_Commit c))
              (set_projection p s) = Ok (set_projection p s').
Proof.
  intros Hv Ho (s1 & Ha & _ & ->)%applyCommit_inv p.
  apply validated_inv in Hv as (_ & _ & _ & Hs & _).
  by apply (runtime_facts_agree id c first s s1 (c_Facts (sc_Commit c))).
Qed.

(** The commits of one generation after its first. *)
Lemma runtime_loop_agrees id s s' l :
  Forall (fun c => validated id (sc_Commit c)) l ->
  Forall (fun c => Forall (fun f => opens f = false) (c_Facts (sc_Commit c))) l ->
  apply_commits id l s = Ok s' ->
  current_id s' = current_id s /\
  forall p, runtime_loop id (current_id s) false l (set_projection p s) =
            Ok (set_projection p s').
Proof.
  intros Hv Ho. revert s. induction Ho as [|c l Hc Ho IH]; intros s Ha.
  { by simplify_eq/=. }
  inversion Hv as [|? ? Hvc Hvl]; subst. cbn [apply_commits runtime_loop] in *.
  destruct (applyCommit id s c) as [s1|] eqn:E; [|done]. simpl in Ha.
  destruct (applyCommit_generation id s c s1 Hc E) as [Hg _].
  assert (current_id s1 = current_id s) as Hid by (unfold current_id; by rewrite Hg).
  destruct (IH Hvl s1 Ha) as [H1 H2]. split; [congruence|]. intros p.
  rewrite (runtime_commit_agrees id c false s s1) by done. rewrite <- Hid. apply H2.
Qed.

(** ** The cold-open replay of a history *)

Definition opens_commit (c : scannedCommit) : bool := existsb opens (c_Facts (sc_Commit c)).

Lemma opens_commit_false c :
  opens_commit c = false -> Forall (fun f => opens f = false) (c_Facts (sc_Commit c)).
Proof.
  unfold opens_commit. intros H. apply Forall_forall. intros f Hf.
  destruct (opens f) eqn:E; [|done].
  enough (existsb opens (c_Facts (sc_Commit c)) = true) by congruence.
  apply existsb_exists. exists f. by rewrite <- list_elem_of_In.
Qed.

(** An opening fact is alone in its commit. *)
Lemma opens_commit_true id c : validated id (sc_Commit c) -> opens_commit c = true ->
  exists f, c_Facts (sc_Commit c) = [f] /\ shaped id f /\ opens f = true.
Proof.
  intros (_ & _ & Hne & Hs & Hcase)%validated_inv Ho. unfold opens_commit in Ho.
  apply existsb_exists in Ho as (f & Hin & Hf). rewrite <- list_elem_of_In in Hin.
  destruct Hcase as [Hl|Hall].
  - destruct (c_Facts (sc_Commit c)) as [|g [|]]; try done.
    apply list_elem_of_singleton in Hin as ->. inversion Hs; subst. eauto.
  - rewrite Forall_forall in Hall. rewrite (Hall f Hin) in Hf. done.
Qed.

(** The state of a created thread: its identity and a registry that ends with
    the current generation. *)
Record live (id : string) (s : ReplayState) : Prop := {
  live_id : p_ThreadID (s_Projection s) = id;
  live_length : Z.of_nat (length (p_Generations (s_Projection s))) =
                g_Ordinal (p_CurrentGeneration (s_Projection s));
  live_ordinal : 1 <= g_Ordinal (p_CurrentGeneration (s_Projection s)) <= 999999;
  live_last : last (p_Generations (s_Projection s)) = Some (p_CurrentGeneration (s_Projection s));
  live_models : is_Some (a_ByModel (p_TokenUsage (s_Projection s)));
}.

Lemma applyFact_keeps_identity id c s s' f :
  opens f = false -> applyFact id s c f = Ok s' ->
  p_ThreadID (s_Projection s') = p_ThreadID (s_Projection s) /\
  p_RetentionState (s_Projection s') = p_RetentionState (s_Projection s) /\
  (is_Some (a_ByModel (p_TokenUsage (s_Projection s))) ->
   is_Some (a_ByModel (p_TokenUsage (s_Projection s')))).
Proof.
  unfold opens, applyFact. intros Ho Ha. destruct (f_Type f) eqn:Et; try done; by walk_eq.
Qed.

Lemma apply_facts_keep_identity id c s s' l :
  Forall (fun f => opens f = false) l -> apply_facts id c l s = Ok s' ->
  p_ThreadID (s_Projection s') = p_ThreadID (s_Projection s) /\
  p_RetentionState (s_Projection s') = p_RetentionState (s_Projection s) /\
  (is_Some (a_ByModel (p_TokenUsage (s_Projection s))) ->
   is_Some (a_ByModel (p_TokenUsage (s_Projection s')))).
Proof.
  intros Hl. revert s. induction Hl as [|f l Hf Hl IH]; intros s Ha; [by simplify_eq/=|].
  cbn [apply_facts] in Ha. destruct (applyFact id s c f) as [s1|] eqn:E; [|done]. simpl in Ha.
  destruct (IH _ Ha) as (-> & -> & H).
  destruct (applyFact_keeps_identity id c s s1 f Hf E) as (-> & -> & H'). auto.
Qed.

(** A boundary, where it succeeds. *)
Lemma boundary_inv id c s s' f :
  shaped id f -> is_boundary_fact f = true -> applyFact id s c f = Ok s' ->
  exists seed next,
    f_Seed f = Some seed /\ sd_Version seed = ProjectionVersion /\
    f_FromGenerationID f = current_id s /\ f_ToGenerationID f = generationID next /\
    1 <= next <= 999999 /\ next = wrap_int64 (g_Ordinal (p_CurrentGeneration (s_Projection s)) + 1) /\
    s' = let s1 := record_boundary c f (applyGenerationSeed s seed) in
         over_projection (rolled_projection c f next (s_ContextUsage s1)) s1.
Proof.
  intros Hf Hb Ha. destruct (shaped_boundary id f Hf Hb) as (seed & Hseed & Hv).
  exists seed. unfold applyFact in Ha. rewrite Hseed in Ha.
  assert ((if f_FromGenerationID f <>?s current_id s then Err ErrInvalidTransition
           else match parseGenerationID (f_ToGenerationID f) with
                | Err _ => Err ErrInvalidTransition
                | Ok next =>
                  if negb (next =? wrap_int64 (g_Ordinal (p_CurrentGeneration (s_Projection s)) + 1))
                  then Err ErrInvalidTransition
                  else let s1 := record_boundary c f (applyGenerationSeed s seed) in
                       Ok (over_projection (rolled_projection c f next (s_ContextUsage s1)) s1)
                end) = Ok s') as H.
  { apply is_boundary_cases in Hb as [E|E]; by rewrite E in Ha. }
  clear Ha. destruct (parseGenerationID (f_ToGenerationID f)) as [next|] eqn:Hp; [|by walk].
  apply parse_inv in Hp as [Hto Hn]. exists next.
  destruct (f_FromGenerationID f <>?s current_id s) eqn:Hfrom; [done|].
  destruct (negb (next =? _)) eqn:Hnext; to_prop; [done|].
  injection H as <-. repeat split; auto; lia.
Qed.

(** The first commit that succeeds creates the thread; the later ones keep it
    live. *)
Lemma applyCommit_live id c s s' :
  id <> ""%string -> validated id (sc_Commit c) -> s = zero_state \/ live id s ->
  applyCommit id s c = Ok s' -> live id s'.
Proof.
  intros Hid Hv Hs (s1 & Ha & Hlife & ->)%applyCommit_inv.
  enough (live id s1) as [] by by split.
  destruct (opens_commit c) eqn:Ho.
  - destruct (opens_commit_true id c Hv Ho) as (f & Hfs & Hf & Hof).
    rewrite Hfs in Ha. cbn [apply_facts] in Ha.
    destruct (applyFact id s c f) as [s2|] eqn:E; [|done]. simpl in Ha. simplify_eq.
    apply opens_cases in Hof as [Et|Hb].
    + unfold applyFact in E. rewrite Et in E. by walk_eq.
    + destruct (boundary_inv id c s s1 f Hf Hb E) as (seed & next & Hseed & _ & Hfrom & Hto & Hn & Hnext & ->).
      destruct Hs as [->|[]].
      { apply (f_equal (fun r => bool_decide (r = Ok tt))) in Hf.
        unfold validateFactShape in Hf. exfalso.
        assert (check (validate_boundary f) ErrInvalidFact = Ok tt) as Hc.
        { apply is_boundary_cases in Hb as [E'|E']; rewrite E' in Hf;
            destruct ((f_ThreadID f <>?s "") && _); by to_prop. }
        apply check_inv in Hc. unfold validate_boundary in Hc.
        by rewrite Hfrom in Hc. }
      split; simpl; auto.
      * rewrite length_app. simpl. rewrite Hnext, wrap_int64_small; [lia|].
        unfold min_int64, max_int64. lia.
      * by rewrite last_snoc.
  - apply opens_commit_false in Ho.
    destruct (apply_facts_keep_identity id c s s1 _ Ho Ha) as (Hi & Hr & Hm).
    destruct (apply_facts_keep_generation id c s s1 _ Ho Ha) as (Hg & Hgs).
    destruct Hs as [->|[]].
    + unfold validateProjectionLifecycle in Hlife. rewrite Hr in Hlife. done.
    + split; rewrite ?Hi, ?Hg, ?Hgs; auto.
Qed.

Lemma apply_commits_app id l r s :
  apply_commits id (l ++ r) s = rbind (apply_commits id l s) (apply_commits id r).
Proof.
  revert s. induction l as [|c l IH]; intros s; [done|]. cbn [apply_commits app].
  destruct (applyCommit id s c); [apply IH | done].
Qed.

Lemma apply_commits_live id l s s' :
  id <> ""%string -> Forall (fun c => validated id (sc_Commit c)) l ->
  s = zero_state \/ live id s -> apply_commits id l s = Ok s' ->
  (l = [] /\ s' = s) \/ live id s'.
Proof.
  intros Hid Hv. revert s. induction Hv as [|c l Hc Hl IH]; intros s Hs Ha.
  { simplify_eq/=. auto. }
  cbn [apply_commits] in Ha. destruct (applyCommit id s c) as [s1|] eqn:E; [|done]. simpl in Ha.
  pose proof (applyCommit_live id c s s1 Hid Hc Hs E) as H1.
  destruct (IH s1 (or_intror H1) Ha) as [[-> ->]|]; auto.
Qed.

Lemma apply_commits_cursor id l c s s' :
  apply_commits id l s = Ok s' -> last l = Some c ->
  p_EventCursor (s_Projection s') = commit_cursor c /\
  p_UsageAggregatedThrough (s_Projection s') = commit_cursor c.
Proof.
  intros Ha Hl. apply last_Some in Hl as [l' ->].
  rewrite apply_commits_app in Ha. destruct (apply_commits id l' s) as [s1|]; [|done].
  cbn [rbind apply_commits] in Ha. destruct (applyCommit id s1 c) as [s2|] eqn:E; [|done].
  simpl in Ha. simplify_eq. by apply (applyCommit_cursor id s1).
Qed.

Lemma cloneProjection_id p : is_Some (a_ByModel (p_TokenUsage p)) -> cloneProjection p = p.
Proof. intros [m Hm]. destruct p as [? ? ? ? ? ? ? ? ? ? ? ? ? [] ? ? ? ?]. simpl in *. by subst. Qed.

(** The commit that opens the generation, in a thread that exists or not. *)
Lemma opening_commit id c s s' : id <> ""%string -> validated id (sc_Commit c) ->
  opens_commit c = true -> s = zero_state \/ live id s -> applyCommit id s c = Ok s' ->
  valid_first (s_Projection s') c = true /\
  forall p, applyRuntimeCommit id (current_id s') c true (c_Facts (sc_Commit c))
              (set_projection p zero_state) = Ok (set_projection p s').
Proof.
  intros Hid Hv Ho Hs (s1 & Ha & Hlife & ->)%applyCommit_inv.
  destruct (opens_commit_true id c Hv Ho) as (f & Hfs & Hf & Hof).
  unfold valid_first. rewrite Hfs in *.
  assert (forall q, applyRuntimeCommit id (current_id s1) c true [f] (set_projection q s) =
                    Ok (set_projection q s1)) as Hrun.
  { intros q. apply (runtime_opening_agrees id _ c s s1 f); auto.
    cbn [apply_facts] in Ha. intros Et. unfold applyFact in Ha. rewrite Et in Ha.
    destruct (_ || _); [done|]. simpl in Ha. by simplify_eq. }
  cbn [apply_facts] in Ha.
  destruct (applyFact id s c f) as [s2|] eqn:E; [|done]. simpl in Ha. simplify_eq.
  apply opens_cases in Hof as [Et|Hb].
  - assert (s = zero_state /\ c_Seq (sc_Commit c) = 1) as [-> Hseq].
    { unfold applyFact in E. rewrite Et in E.
      destruct (_ || _) eqn:Hc; [done|]. to_prop. split; [|done].
      destruct Hs as [|[]]; congruence. }
    split; [|exact Hrun].
    unfold applyFact in E. rewrite Et in E. walk_eq. rewrite Et, Hseq. done.
  - destruct (boundary_inv id c s s1 f Hf Hb E)
      as (seed & next & Hseed & Hver & Hfrom & Hto & Hn & Hnext & ->).
    split.
    + destruct Hs as [->|[]]; [|].
      { unfold current_id in Hfrom. simpl in Hfrom.
        unfold shaped, validateFactShape in Hf.
        assert (validate_boundary f = true) as Hvb.
        { apply is_boundary_cases in Hb as [E'|E']; rewrite E' in Hf;
            by destruct ((f_ThreadID f <>?s "") && _), (validate_boundary f). }
        unfold validate_boundary in Hvb. by rewrite Hfrom in Hvb. }
      rewrite wrap_int64_small in Hnext by (unfold min_int64, max_int64; lia).
      cbn. destruct (next =? 1) eqn:Hone; to_prop; [lia|].
      rewrite Hb, Hseed. cbn [andb].
      assert (((p_Generations (s_Projection s) ++
                [mkGeneration (f_ToGenerationID f) next (c_Seq (sc_Commit c))])
               !! Z.to_nat (next - 2)) = Some (p_CurrentGeneration (s_Projection s))) as ->.
      { rewrite lookup_app_l by lia. rewrite <- live_last0, last_lookup. f_equal. lia. }
      rewrite Hver, Hfrom. unfold current_id.
      by rewrite !bool_decide_eq_true_2, !Z.eqb_refl.
    + intros p. etransitivity; [|exact (Hrun p)].
      cbn [applyRuntimeCommit]. unfold applyRuntimeFact. rewrite Hseed.
      by apply is_boundary_cases in Hb as [-> | ->].
Qed.

(** Opening a thread from its metadata and the journal of the current
    generation gives the state that replaying its whole history gives: for every
    history of validated commits whose last opening commit is [c], the cold-open
    replay of [c] and what follows, over the projection of the full replay,
    returns the full replay's state, messages, events, activities and usage
    included. *)
Theorem current_generation_replay_is_full_replay id before c rest s :
  ValidID id = true ->
  Forall (fun c => validated id (sc_Commit c)) (before ++ c :: rest) ->
  opens_commit c = true ->
  Forall (fun c => opens_commit c = false) rest ->
  replay id (before ++ c :: rest) = Ok s ->
  replayCurrentGeneration id (s_Projection s) (c :: rest) = Ok s.
Proof.
  intros Hvalid Hv Ho Hrest Hr.
  assert (id <> ""%string) as Hid by (by intros ->).
  unfold replay in Hr. rewrite apply_commits_app in Hr.
  apply Forall_app in Hv as [Hvb Hvc]. inversion Hvc as [|? ? Hc Hvr]; subst.
  destruct (apply_commits id before zero_state) as [s0|] eqn:E0; [|done].
  cbn [rbind apply_commits] in Hr.
  destruct (applyCommit id s0 c) as [s1|] eqn:E1; [|done]. simpl in Hr.
  destruct (apply_commits id rest s1) as [s2|] eqn:E2; [|done].
  assert (s2 = s) as -> by (destruct (Nat.eqb _ 0); congruence). clear Hr.
  assert (s0 = zero_state \/ live id s0) as H0.
  { destruct (apply_commits_live id before zero_state s0) as [[_ ->]|]; auto. }
  pose proof (applyCommit_live id c s0 s1 Hid Hc H0 E1) as H1.
  assert (live id s) as H2.
  { destruct (apply_commits_live id rest s1 s) as [[_ ->]|]; auto. }
  assert (Forall (fun c => Forall (fun f => opens f = false) (c_Facts (sc_Commit c))) rest) as Hof.
  { eapply Forall_impl; [exact Hrest|]. intros x. apply opens_commit_false. }
  destruct (runtime_loop_agrees id s1 s rest Hvr Hof E2) as [Hcur Hloop].
  destruct (opening_commit id c s0 s1 Hid Hc Ho H0 E1) as [Hfirst Hrun].
  assert (p_CurrentGeneration (s_Projection s) = p_CurrentGeneration (s_Projection s1) /\
          p_Generations (s_Projection s) = p_Generations (s_Projection s1)) as [Hg Hgs].
  { clear -Hof E2. revert s1 E2. induction Hof as [|x l Hx _ IH]; intros s1 E2; [by simplify_eq/=|].
    cbn [apply_commits] in E2. destruct (applyCommit id s1 x) as [s3|] eqn:E; [|done].
    destruct (IH s3 E2) as [-> ->]. by apply (applyCommit_generation id s1 x s3). }
  unfold replayCurrentGeneration.
  destruct (last (c :: rest)) as [lc|] eqn:Hl; [|by apply last_None in Hl].
  assert (valid_first (s_Projection s) c = true) as ->.
  { unfold valid_first in *. by rewrite Hg, Hgs. }
  assert (apply_commits id (c :: rest) s0 = Ok s) as Hall by (cbn [apply_commits]; by rewrite E1).
  destruct (apply_commits_cursor id (c :: rest) lc s0 s Hall Hl) as [-> _].
  rewrite bool_decide_eq_true_2 by done. cbn [negb].
  rewrite cloneProjection_id by apply H2.
  cbn [runtime_loop]. fold (current_id s). rewrite Hcur, Hrun, Hloop.
  by rewrite set_projection_self.
Qed.

(** ** Accounting *)

Lemma Usage_Add_comm u v : Usage_Add u v = Usage_Add v u.
Proof. unfold Usage_Add. f_equal; f_equal; lia. Qed.

Lemma Usage_Add_assoc u v w : Usage_Add (Usage_Add u v) w = Usage_Add u (Usage_Add v w).
Proof.
  unfold Usage_Add. simpl. f_equal; rewrite wrap_int64_add_l, wrap_int64_add_r; f_equal; lia.
Qed.

(** The sum over the models grows by what is added to one of them. *)
Lemma usage_sum_insert (m : gmap string Usage) k u :
  usage_sum (<[k := Usage_Add (default zero_usage (m !! k)) u]> m) = Usage_Add (usage_sum m) u.
Proof.
  unfold usage_sum.
  assert (forall y z1 z2 : Usage,
    Usage_Add (Usage_Add y z2) z1 = Usage_Add (Usage_Add y z1) z2) as Hcomm.
  { intros. by rewrite !Usage_Add_assoc, (Usage_Add_comm z1). }
  destruct (m !! k) as [v|] eqn:E; simpl.
  - rewrite <- insert_delete_eq.
    rewrite map_fold_insert_L; [|by intros; apply Hcomm | apply lookup_delete_eq].
    rewrite <- (insert_delete_id m k v E) at 2.
    rewrite map_fold_insert_L; [|by intros; apply Hcomm | apply lookup_delete_eq].
    by rewrite Usage_Add_assoc.
  - rewrite map_fold_insert_L; [|by intros; apply Hcomm | done].
    unfold Usage_Add. simpl. by rewrite !wrap_int64_add_r.
Qed.

Lemma aggregate_add_sum a k u : usage_sum (by_model a) = a_Total a ->
  usage_sum (by_model (UsageAggregate_Add k u a)) = a_Total (UsageAggregate_Add k u a).
Proof.
  intros H. etransitivity; [apply (usage_sum_insert (by_model a) k u)|]. simpl. by rewrite H.
Qed.

(** The facts of a history and what they say about usage and turns. *)
Definition history_facts (l : list scannedCommit) : list Fact :=
  mjoin (map (fun c => c_Facts (sc_Commit c)) l).

Definition add_usage_fact (model : option string) (u : Usage) (f : Fact) : Usage :=
  if bool_decide (f_Type f = FactUsageRecorded) &&
     match model with Some m => f_ModelRef f =?s m | None => true end
  then Usage_Add u (default zero_usage (f_Usage f)) else u.

(** The usage recorded in a history, of one model or of all. *)
Definition recorded_usage (model : option string) (l : list Fact) : Usage :=
  foldl (add_usage_fact model) zero_usage l.

Definition ends_turn (f : Fact) : bool :=
  match f_Type f with
  | FactTurnCompleted | FactTurnFailed | FactTurnCancelled => true
  | _ => false
  end.

Definition count (P : Fact -> bool) (l : list Fact) : Z := Z.of_nat (length (List.filter P l)).

Lemma count_snoc P l f : count P (l ++ [f]) = count P l + (if P f then 1 else 0).
Proof.
  unfold count. rewrite List.filter_app, length_app. simpl. destruct (P f); simpl; lia.
Qed.

(** The counters of a state are those of the facts [l]. *)
Record accounts (l : list Fact) (s : ReplayState) : Prop := {
  acc_total : a_Total (p_TokenUsage (s_Projection s)) = recorded_usage None l;
  acc_model : forall m, default zero_usage (by_model (p_TokenUsage (s_Projection s)) !! m) =
                        recorded_usage (Some m) l;
  acc_sum : usage_sum (by_model (p_TokenUsage (s_Projection s))) =
            a_Total (p_TokenUsage (s_Projection s));
  acc_turns : n_TurnCount (p_Counts (s_Projection s)) = wrap_int64 (count ends_turn l);
  acc_generations : Z.of_nat (length (p_Generations (s_Projection s))) = count opens l;
}.

Lemma recorded_usage_snoc model l f :
  recorded_usage model (l ++ [f]) = add_usage_fact model (recorded_usage model l) f.
Proof. unfold recorded_usage. by rewrite foldl_app. Qed.

(** A fact that records no usage, ends no turn and opens no generation. *)
Lemma accounts_neutral l f s s' :
  f_Type f <> FactUsageRecorded -> accounts l s ->
  a_Total (p_TokenUsage (s_Projection s')) = a_Total (p_TokenUsage (s_Projection s)) ->
  by_model (p_TokenUsage (s_Projection s')) = by_model (p_TokenUsage (s_Projection s)) ->
  n_TurnCount (p_Counts (s_Projection s')) =
    wrap_int64 (n_TurnCount (p_Counts (s_Projection s)) + (if ends_turn f then 1 else 0)) ->
  Z.of_nat (length (p_Generations (s_Projection s'))) =
    Z.of_nat (length (p_Generations (s_Projection s))) + (if opens f then 1 else 0) ->
  accounts (l ++ [f]) s'.
Proof.
  intros Hf [] Hu Hm Ht Hg.
  assert (forall m u, add_usage_fact m u f = u) as Hn.
  { intros. unfold add_usage_fact. by rewrite bool_decide_eq_false_2. }
  split; intros; rewrite ?recorded_usage_snoc, ?count_snoc, ?Hn, ?Hu, ?Hm; auto.
  - by rewrite Ht, acc_turns0, wrap_int64_add_l.
  - by rewrite Hg, acc_generations0.
Qed.

Lemma accounts_wrap l s : accounts l s ->
  n_TurnCount (p_Counts (s_Projection s)) =
  wrap_int64 (n_TurnCount (p_Counts (s_Projection s)) + 0).
Proof. intros []. by rewrite acc_turns0, wrap_int64_add_l, Z.add_0_r. Qed.

Lemma accounts_usage l f u s s' :
  f_Type f = FactUsageRecorded -> f_Usage f = Some u -> accounts l s ->
  p_TokenUsage (s_Projection s') =
    UsageAggregate_Add (f_ModelRef f) u (p_TokenUsage (s_Projection s)) ->
  p_Counts (s_Projection s') = p_Counts (s_Projection s) ->
  p_Generations (s_Projection s') = p_Generations (s_Projection s) ->
  accounts (l ++ [f]) s'.
Proof.
  intros Et Eu Hacc Hu Hc Hg. pose proof Hacc as [].
  split; intros; rewrite ?recorded_usage_snoc, ?count_snoc, ?Hu, ?Hc, ?Hg.
  - unfold add_usage_fact. rewrite bool_decide_eq_true_2, Eu by done. simpl. by rewrite acc_total0.
  - unfold add_usage_fact. rewrite bool_decide_eq_true_2, Eu by done. simpl.
    unfold UsageAggregate_Add, by_model at 1. simpl.
    destruct (f_ModelRef f =?s m) eqn:Em; to_prop.
    + subst m. rewrite lookup_insert_eq. simpl. by rewrite acc_model0.
    + rewrite lookup_insert_ne by done. apply acc_model0.
  - by apply aggregate_add_sum.
  - unfold ends_turn. rewrite Et, Z.add_0_r. apply Hacc.
  - unfold opens. rewrite Et. simpl. by rewrite Z.add_0_r.
Qed.

Lemma accounts_fact id c l f s s' :
  shaped id f -> (f_Type f = FactThreadCreated -> s = zero_state) ->
  accounts l s -> applyFact id s c f = Ok s' -> accounts (l ++ [f]) s'.
Proof.
  intros Hf Hzero Hacc Ha. pose proof (accounts_wrap l s Hacc) as Hw.
  destruct (is_boundary_fact f) eqn:Hb.
  { destruct (boundary_inv id c s s' f Hf Hb Ha) as (seed & next & _ & _ & _ & _ & _ & _ & ->).
    assert (opens f = true) as Ho by (apply opens_cases; auto).
    apply is_boundary_cases in Hb.
    apply (accounts_neutral l f s); rewrite ?Ho; auto; simpl.
    - by destruct Hb as [-> | ->].
    - rewrite Hw at 1. unfold ends_turn. by destruct Hb as [-> | ->].
    - rewrite length_app. simpl. lia. }
  destruct (f_Type f) eqn:Et;
    try (rewrite (proj2 (is_boundary_cases f)) in Hb by auto; done);
    [specialize (Hzero eq_refl); subst s| ..];
    try (unfold applyFact in Ha; rewrite Et in Ha; eapply accounts_neutral; [..|exact Hacc| | | |];
         unfold ends_turn, opens; rewrite ?Et; try done; walk_eq; lia).
  destruct (shaped_usage id f Hf Et) as [u Eu].
  unfold applyFact in Ha. rewrite Et, Eu in Ha. apply (accounts_usage l f u s); auto; by walk_eq.
Qed.

Lemma accounts_commit id c l s s' :
  id <> ""%string -> validated id (sc_Commit c) -> s = zero_state \/ live id s ->
  accounts l s -> applyCommit id s c = Ok s' ->
  accounts (l ++ c_Facts (sc_Commit c)) s'.
Proof.
  intros Hid Hv Hs Hacc (s1 & Ha & _ & ->)%applyCommit_inv.
  enough (accounts (l ++ c_Facts (sc_Commit c)) s1) as [] by by split.
  pose proof (validated_inv id _ Hv) as (_ & _ & _ & Hsh & _).
  destruct (opens_commit c) eqn:Ho.
  - destruct (opens_commit_true id c Hv Ho) as (f & Hfs & Hf & _). rewrite Hfs in *.
    cbn [apply_facts] in Ha. destruct (applyFact id s c f) as [s2|] eqn:E; [|done].
    simpl in Ha. simplify_eq. apply (accounts_fact id c l f s); auto.
    intros Et. destruct Hs as [|[]]; [done|].
    unfold applyFact in E. rewrite Et in E. destruct (_ || _) eqn:Hc; [done|]. to_prop. congruence.
  - apply opens_commit_false in Ho. clear Hs Hv. revert l s Hacc Ha.
    induction Ho as [|f r Hf Ho IH]; intros l s Hacc Ha.
    { simplify_eq/=. by rewrite app_nil_r. }
    inversion Hsh as [|? ? Hsf Hsr]; subst. cbn [apply_facts] in Ha.
    destruct (applyFact id s c f) as [s2|] eqn:E; [|done]. simpl in Ha.
    rewrite cons_middle, app_assoc. apply (IH Hsr _ s2); [|done].
    apply (accounts_fact id c l f s); auto.
    intros Et. unfold opens in Hf. by rewrite Et in Hf.
Qed.

Lemma accounts_commits id l cs s s' :
  id <> ""%string -> Forall (fun c => validated id (sc_Commit c)) cs ->
  s = zero_state \/ live id s -> accounts l s -> apply_commits id cs s = Ok s' ->
  accounts (l ++ history_facts cs) s'.
Proof.
  intros Hid Hv. revert l s. induction Hv as [|c cs Hc Hv IH]; intros l s Hs Hacc Ha.
  { simplify_eq/=. by rewrite app_nil_r. }
  cbn [apply_commits] in Ha. destruct (applyCommit id s c) as [s1|] eqn:E; [|done]. simpl in Ha.
  unfold history_facts. cbn [map mjoin list_join]. rewrite app_assoc. apply (IH _ s1); auto.
  - right. by apply (applyCommit_live id c s s1).
  - by apply (accounts_commit id c l s s1).
Qed.

(** The projection of a replayed history accounts for exactly what the
    history recorded: total token usage is the sum of every usage fact and of
    the by-model entries, each by-model entry the sum of that model's facts,
    the turn count the number of turns that ended (as a 64-bit integer) and the
    registry one generation per opening fact. *)
Theorem replay_accounts_for_history id commits s :
  ValidID id = true ->
  Forall (fun c => validated id (sc_Commit c)) commits ->
  replay id commits = Ok s ->
  let usage := p_TokenUsage (s_Projection s) in
  let l := history_facts commits in
  a_Total usage = recorded_usage None l /\
  usage_sum (by_model usage) = a_Total usage /\
  (forall m, default zero_usage (by_model usage !! m) = recorded_usage (Some m) l) /\
  n_TurnCount (p_Counts (s_Projection s)) = wrap_int64 (count ends_turn l) /\
  Z.of_nat (length (p_Generations (s_Projection s))) = count opens l.
Proof.
  intros Hvalid Hv Hr. unfold replay in Hr.
  destruct (apply_commits id commits zero_state) as [s1|] eqn:E; [|done].
  assert (s1 = s) as -> by (destruct (Nat.eqb _ 0); congruence).
  destruct (accounts_commits id [] commits zero_state s) as []; auto.
  - by intros ->.
  - by split.
Qed.

(** ** Generation seeds *)

Lemma recovery_loop_spec below above :
  exists dropped, rev below ++ above = dropped ++ recovery_loop below above /\
    ((exists e r, recovery_loop below above = e :: r /\ settled_type (ev_Type e) = true /\
        (Forall (fun e => settled_type (ev_Type e) = false) above ->
         Forall (fun e => settled_type (ev_Type e) = false) r)) \/
     (dropped = [] /\ Forall (fun e => settled_type (ev_Type e) = false) below)).
Proof.
  revert above. induction below as [|e below IH]; intros above; simpl.
  - exists []. split; [done|]. right. auto.
  - destruct (settled_type (ev_Type e)) eqn:He.
    + exists (rev below). split; [by rewrite <- app_assoc|]. left. eauto.
    + destruct (IH (e :: above)) as (d & Heq & Hc). exists d. split.
      { by rewrite <- app_assoc. }
      destruct Hc as [(e' & r & -> & He' & Hr)|[-> Hb]]; [left|right; auto].
      exists e', r. split; [done|]. split; [done|]. intros Ha. apply Hr. by constructor.
Qed.

(** The recovery events a new generation is seeded with are the events from
    the latest settled turn on: a suffix of the recorded events which starts
    with a settled event and has none after it, or all of them when no turn has
    settled. *)
Theorem recovery_events_since_last_settled recorded :
  let kept := generationRecoveryEvents recorded in
  exists dropped, recorded = dropped ++ kept /\
    ((exists e r, kept = e :: r /\ settled_type (ev_Type e) = true /\
        Forall (fun e => settled_type (ev_Type e) = false) r) \/
     (dropped = [] /\ Forall (fun e => settled_type (ev_Type e) = false) recorded)).
Proof.
  unfold generationRecoveryEvents.
  destruct (recovery_loop_spec (rev recorded) []) as (d & Heq & Hc).
  rewrite rev_involutive, app_nil_r in Heq. exists d. split; [done|].
  destruct Hc as [(e & r & He & Hs & Hr)|[Hd Hb]];
    [left; exists e, r; auto using Forall_nil | right].
  split; [done|]. apply Forall_forall. intros e He. rewrite Forall_forall in Hb.
  apply Hb. apply list_elem_of_In. rewrite <- in_rev. by apply list_elem_of_In.
Qed.

(** The provider messages a compaction starts with: the summary, then the
    retained messages of the history, in order. *)
Lemma compactProviderMessages_spec summary history :
  compactProviderMessages summary history =
  summary :: filter (fun m => retained_in summary m = true) history.
Proof.
  assert ((forall m, retained_in summary m = false) ->
          filter (fun m => retained_in summary m = true) history = []) as Hnone.
  { intros H. induction history as [|m h IH]; [done|]. rewrite filter_cons, H. by case_decide. }
  unfold compactProviderMessages, retained_in in *.
  destruct (m_Compaction summary) as [c|]; [|by rewrite Hnone].
  revert Hnone. destruct (elems (cm_RetainedMessageIDs c)) as [|i r]; simpl; [|done]. intros Hnone.
  by rewrite Hnone.
Qed.

(** ** Thread storage: what a rollover leaves behind

    A generation boundary ([ThreadStore.beginGeneration]) either leaves the handle
    as it was, or the handle holds the next generation; the error of the call
    tells which ([ProjectionPersistError]). *)

(** [errors.As(err, &persistErr)] for a [ProjectionPersistError]. *)
Definition is_persist_error (e : ThreadError) : bool :=
  match e with ErrProjectionStale _ => true | _ => false end.

(** No error of [r] says that the journal has a boundary. *)
Definition clean {A} (r : result ThreadError A) : Prop :=
  match r with Ok _ => True | Err e => is_persist_error e = false end.

(** [m] leaves the handle as it is, with clean errors. *)
Definition still {A} (m : M A) : Prop := forall w, (m w).2.1 = w.1 /\ clean (m w).1.

Lemma clean_rbind {A B} (r : result ThreadError A) (k : A -> result ThreadError B) :
  clean r -> (forall a, clean (k a)) -> clean (rbind r k).
Proof. destruct r; simpl; auto. Qed.

Ltac clean_tac :=
  unfold check;
  repeat first [ exact I | reflexivity | assumption | apply clean_rbind; [|intros ?] | case_match ].

Lemma clean_generation id : clean (parseGenerationID id).
Proof. unfold parseGenerationID. clean_tac. Qed.

Lemma clean_metadata p id : clean (validateProjectionMetadata p id).
Proof. unfold validateProjectionMetadata. clean_tac. Qed.

Lemma clean_facts id l : clean (validate_facts id l).
Proof.
  induction l as [|f l IH]; simpl; [done|]. apply clean_rbind; [|done]. unfold validateFactShape. clean_tac.
Qed.

Lemma clean_commit id c : clean (validateCommit id c).
Proof. unfold validateCommit. repeat (case_match; [done|]). apply clean_rbind; [apply clean_facts|]. intros. clean_tac. Qed.

Lemma clean_apply id s c : clean (applyCommit id s c).
Proof.
  unfold applyCommit. apply clean_rbind.
  - generalize (c_Facts (sc_Commit c)) as l. intros l. revert s. induction l as [|f l IH]; intros s; simpl; [done|].
    apply clean_rbind; [|done]. unfold applyFact. clean_tac.
  - intros s'. apply clean_rbind; [|done]. unfold validateProjectionLifecycle. clean_tac.
Qed.

Section Boundary.
  Context (json_size : Commit -> option Z).

Lemma clean_candidate id s c : clean (candidate_of id s c).
Proof.
  unfold candidate_of. apply clean_rbind; [apply clean_apply|]. intros s'. apply clean_rbind; [apply clean_metadata|done].
Qed.

Lemma clean_prepare io id e facts : clean (prepareCommit json_size io id e facts).
Proof. unfold prepareCommit. case_match; [done|]. apply clean_rbind; [apply clean_commit|]. intros. clean_tac. Qed.

Lemma still_bind {A B} (m : M A) (k : A -> M B) : still m -> (forall a, still (k a)) -> still (bind m k).
Proof.
  intros Hm Hk w. unfold bind. specialize (Hm w). destruct (m w) as [[a|e] w1]; simpl in *; [|tauto].
  destruct (Hk a w1) as [E ?]. split; [|done]. rewrite E. tauto.
Qed.

Lemma still_lift {A} (r : result ThreadError A) : clean r -> still (lift r).
Proof. done. Qed.

Lemma still_fail {A} e : is_persist_error e = false -> still (fail e : M A).
Proof. done. Qed.

Lemma still_on_error {A} cleanup (m : M A) : still cleanup -> still m -> still (on_error cleanup m).
Proof.
  intros Hc Hm w. unfold on_error. specialize (Hm w). destruct (m w) as [[a|e] w1]; simpl in *; [done|].
  destruct (Hc w1) as [E _]. rewrite E. tauto.
Qed.

Lemma still_modify_disk f : still (modify_disk f).
Proof. done. Qed.
Lemma still_get_handle : still get_handle.
Proof. done. Qed.
Lemma still_get_disk : still get_disk.
Proof. done. Qed.
Lemma still_ret {A} (a : A) : still (ret a : M A).
Proof. done. Qed.

Hint Resolve still_bind still_lift still_fail still_on_error still_modify_disk still_get_handle still_get_disk still_ret
  clean_generation clean_metadata clean_candidate clean_prepare : core.

Ltac still_tac :=
  repeat first [ apply still_bind; [|intros ?] | apply still_on_error | solve [eauto 2] | case_match ].

Lemma still_remove io id : still (remove_journal io id).
Proof. unfold remove_journal. still_tac. Qed.

Lemma still_append io size c f : clean (jsonl_Append json_size io size c f).1.
Proof. unfold jsonl_Append. clean_tac. Qed.

Lemma still_stage io c generation : still (stageNextGeneration json_size io c generation).
Proof.
  pose proof still_remove. unfold stageNextGeneration. still_tac.
  apply still_lift. match goal with H : _ = (_, _) |- _ => apply (f_equal fst) in H; simpl in H; rewrite <- H end.
  apply still_append.
Qed.

Lemma still_persist io p : still (persistProjectionValueLocked io p).
Proof. unfold persistProjectionValueLocked, write_meta. still_tac. Qed.

Lemma clean_read archived id d : clean (readProjectionFile archived id d).
Proof. unfold readProjectionFile. clean_tac. apply clean_metadata. Qed.

Lemma still_current : still ensureProjectionCurrentLocked.
Proof. pose proof clean_read. unfold ensureProjectionCurrentLocked. still_tac. Qed.

(** A still step at the beginning of a method. *)
Lemma still_step {A B} (m : M A) (k : A -> M B) h d r w' : still m -> bind m k (h, d) = (r, w') ->
  (w'.1 = h /\ exists e, r = Err e /\ is_persist_error e = false) \/
  exists a d1, m (h, d) = (Ok a, (h, d1)) /\ k a (h, d1) = (r, w').
Proof.
  intros Hm H. unfold bind in H. specialize (Hm (h, d)). destruct (m (h, d)) as [[a|e] [h1 d1]]; simpl in *.
  - right. destruct Hm as [-> _]. eauto.
  - left. simplify_eq. split; [tauto|]. exists e. tauto.
Qed.

(** The messages of the state that a boundary fact leads to. *)
Lemma candidate_provider io h d d1 d2 compacted summary auto usage c s' :
  let f := rollover_fact h compacted summary auto usage in
  lift (prepareCommit json_size io (h_ID h) (h_eventStore h) [f]) (h, d) = (Ok c, (h, d1)) ->
  lift (candidate_of (h_ID h) (h_state h) (mkScanned c (f_ToGenerationID f) 0 1)) (h, d1) = (Ok s', (h, d2)) ->
  s_ProviderMessages s' = if compacted then compactProviderMessages summary (s_ProviderMessages (h_state h)) else [].
Proof.
  intros f Hc Ha. unfold lift in Hc, Ha. apply (f_equal fst) in Hc, Ha. cbn [fst] in Hc, Ha.
  assert (c_Facts c = [f]) as Hf.
  { unfold prepareCommit in Hc. destruct (negb _); [done|].
    destruct (validateCommit _ _); [|done]. cbn in Hc. destruct (json_size _); [|done].
    destruct (_ <? _); by simplify_eq/=. }
  unfold candidate_of in Ha. destruct (applyCommit _ _ _) as [s1|] eqn:E; [|done]. cbn [rbind] in Ha.
  destruct (validateProjectionMetadata _ _) as [[]|]; [|done]. cbn [rbind] in Ha. simplify_eq. cbn.
  unfold applyCommit in E. cbn [sc_Commit] in E. rewrite Hf in E. cbn [apply_facts] in E.
  unfold applyFact, f, rollover_fact in E.
  destruct compacted; cbn [boundary_fact f_Type f_FromGenerationID f_ToGenerationID f_Seed] in E;
    (destruct (_ <>?s _); [done|]); (destruct (parseGenerationID _) as [next|]; [|done]);
    (destruct (negb _); [done|]); cbn [rbind] in E;
    (destruct (validateProjectionLifecycle _) as [[]|]; [|done]); cbn in E; by simplify_eq.
Qed.

Ltac still_step_in H :=
  apply still_step in H; [destruct H as [H|(? & ? & ? & H)]; [by left|]|].

(** A rollover changes the handle only when the journal has the boundary, and
    its error says so. *)
Lemma beginGeneration_outcome io compacted summary auto usage h d r w' :
  beginGeneration json_size io compacted summary auto usage (h, d) = (r, w') ->
  (w'.1 = h /\ exists e, r = Err e /\ is_persist_error e = false) \/
  (s_ProviderMessages (h_state w'.1) =
     (if compacted then compactProviderMessages summary (s_ProviderMessages (h_state h)) else []) /\
   forall e, r = Err e -> is_persist_error e = true).
Proof.
  intros H. unfold beginGeneration in H. unfold bind at 1, get_handle in H. cbn [fst] in H.
  still_step_in H; [|unfold guard_open; still_tac]. still_step_in H; [|apply still_current].
  still_step_in H; [|unfold guard_active; still_tac]. cbv zeta in H.
  still_step_in H; [|auto]. rename H3 into Hprep. still_step_in H; [|auto].
  pose proof (candidate_provider _ _ _ _ _ _ _ _ _ _ _ Hprep H3) as Hp.
  still_step_in H; [|apply still_stage].
  still_step_in H; [|apply still_on_error; [apply still_remove|]; apply still_bind;
    [apply still_lift, clean_metadata|intros; apply still_persist]].
  right. unfold bind, modify_handle, activate, updateIndex, ret, fail in H. cbn in H.
  destruct (io_close io); [destruct (io_index io)|]; simplify_eq; (split; [exact Hp|]); intros e He; by simplify_eq.
Qed.
End Boundary.
