(* ===== verification/ContextCompaction.v ===== *)
(** * The context budget and compaction: the context after a compaction

    A compaction selects what to keep, asks for a summary of the rest, checks
    that the context it is about to commit is small enough, and begins a
    generation of the thread ([ThreadStore.BeginCompactedGeneration]). The
    context of the new generation is the summary and what was kept, exactly what
    was checked, and it follows the tool protocol if the old one did. *)

From S2P Require Import Prelude GoStd Llm ContextText ThreadTypes ThreadFacts ThreadStore ThreadReplay ContextBudget ContextBudgetProps.

Local Open Scope Z_scope.
Local Open Scope juex_scope.

Lemma relevant_visible m : compactionRelevant m = true -> providerVisible m = true.
Proof.
  unfold compactionRelevant, providerVisible, relevant_kind. intros H. to_prop.
  apply andb_true_iff. split; [|by rewrite H].
  apply negb_true_iff, bool_decide_eq_false_2. intros E. apply H0. rewrite E. by left.
Qed.

Lemma relevant_not_compact m : compactionRelevant m = true -> not_compact m.
Proof. intros H E. by rewrite relevant_compact in H. Qed.

Lemma visible_relevant l : Forall (fun m => compactionRelevant m = true) l ->
  ProviderVisibleMessages l = l.
Proof.
  intros HF. apply list_filter_all. intros m Hm. rewrite Forall_forall in HF.
  by apply relevant_visible, HF.
Qed.

(** What the messages of a context are by their kind: inputs and the messages
    that a compaction passes over have no tool blocks, and inputs and
    continuations have something to say. *)
Definition well_kinded (l : list Message) : Prop :=
  Forall (fun m =>
    (isRealInput m = true \/ m_Kind m = MessageKindContinuation -> plain m /\ spoken m) /\
    (compactionRelevant m = false -> plain m)) l.

(** Kept inputs and an execution tail follow the tool protocol. *)
Lemma kept_balanced estimate budget work newest :
  identified work -> well_kinded work -> balanced work ->
  newest_fitting estimate budget work newest ->
  balanced (filter (fun m => kept estimate budget work newest m = true) work).
Proof.
  intros [Hnd Hne] Hk Hb Hnew. unfold well_kinded in Hk. rewrite Forall_forall in Hk.
  assert (forall m, m ∈ newest -> m ∈ work /\ plain m) as Hplain.
  { intros m Hm. destruct (newest_in_work _ _ _ _ Hnew m Hm) as [Hw Hr].
    split; [done|]. destruct (Hk m Hw) as [H1 _]. by apply H1; left. }
  assert (forall m, oversized_input estimate budget work = Some m -> plain m) as Hover.
  { intros m Hm. destruct (oversized_in_work _ _ _ _ Hm) as (Hw & Hr & _).
    destruct (Hk m Hw) as [H1 _]. by apply H1; left. }
  destruct (execution_tail_spec work) as [[_ Et]|(pre & Ew & _ & Hstart & _)].
  - rewrite <- (app_nil_r (filter _ work)). apply balanced_plain_app.
    + apply Forall_forall. intros m Hm. apply list_elem_of_filter in Hm as [Hm _].
      unfold kept in Hm. rewrite Et, app_nil_r in Hm. to_prop. by apply Hplain.
    + split; [by intros []|done].
  - set (tail := execution_tail work) in *.
    assert (balanced tail) as Hbt.
    { destruct Hstart as [->|(m & rest & E & Hm)]; [by rewrite Ew in Hb|].
      rewrite E in *. destruct (Hk m) as [H1 _]; [rewrite Ew; set_solver|].
      destruct (H1 Hm) as [Hp Hs]. rewrite Ew in Hb. by eapply balanced_suffix. }
    assert (forall m, m ∈ pre -> m ∉ tail) as Hdisj.
    { intros m Hm Ht. apply NoDup_fmap_1 in Hnd. rewrite Ew in Hnd.
      apply NoDup_app in Hnd as (_ & Hd & _). by apply (Hd m). }
    set (P := kept estimate budget work newest). rewrite Ew, filter_app. apply balanced_plain_app.
    + apply Forall_forall. intros m Hm. apply list_elem_of_filter in Hm as [Hm Hp].
      unfold P, kept in Hm. fold tail in Hm. to_prop. apply elem_of_app in H as [Hn|Ht]; [by apply Hplain|].
      by destruct (Hdisj m Hp).
    + apply balanced_filter; [done|]. apply Forall_forall. intros m Hm Hf.
      unfold P, kept in Hf. fold tail in Hf.
      rewrite bool_decide_eq_true_2 in Hf by (apply elem_of_app; by right).
      simpl in Hf. to_prop. by apply Hover.
Qed.

Lemma real_input_no_tail m : isRealInput m = true -> plain m -> requiresExecutionTail m = false.
Proof.
  unfold isRealInput, requiresExecutionTail. intros H Hp. to_prop.
  assert (m_Kind m <> MessageKindContinuation /\ m_Kind m <> MessageKindToolResult) as [H1 H2].
  { destruct H0 as [Hk|Hk].
    - to_prop. rewrite !elem_of_cons, elem_of_nil in Hk. destruct_or! Hk; rewrite ?Hk; done.
    - to_prop. by rewrite H0. }
  rewrite !bool_decide_eq_false_2 by done. simpl. apply not_true_iff_false. intros E.
  apply existsb_exists in E as (b & Hin & Hb). apply list_elem_of_In in Hin.
  unfold plain in Hp. rewrite Forall_forall in Hp. destruct (Hp b Hin).
  apply orb_true_iff in Hb as [Hb|Hb]; by to_prop.
Qed.

(** With nothing kept there is no tail to start. *)
Lemma nothing_kept estimate budget work newest :
  well_kinded work -> filter (fun m => kept estimate budget work newest m = true) work = [] ->
  executionTailStart work = None.
Proof.
  intros Hk Hf. destruct (execution_tail_spec work) as [[E _]|(pre & Ew & Hne & _ & l & El & Er)]; [done|].
  exfalso. assert (l ∈ execution_tail work) as Ht.
  { rewrite Ew, last_app in El. destruct (last (execution_tail work)) eqn:E.
    - simplify_eq. by apply last_Some_elem_of.
    - by apply last_None in E. }
  assert (l ∈ work) as Hl by (by apply tail_in_work).
  destruct (kept estimate budget work newest l) eqn:Ek.
  - assert (l ∈ []) as H%not_elem_of_nil by (rewrite <- Hf; by apply list_elem_of_filter). done.
  - unfold kept in Ek. rewrite bool_decide_eq_true_2 in Ek by (apply elem_of_app; by right).
    simpl in Ek. to_prop. destruct (oversized_in_work _ _ _ _ Ek) as (_ & Hr & _).
    unfold well_kinded in Hk. rewrite Forall_forall in Hk. destruct (Hk l Hl) as [H1 _].
    destruct (H1 (or_introl Hr)) as [Hp _]. by rewrite real_input_no_tail in Er.
Qed.

(** ** The context of the new generation *)

Section Compaction.
  Context (estimate : list Message -> Z).

(** The compact message of a selection is one: it has no tool blocks, and it
    keeps what the selection keeps. *)
Lemma summary_message fresh s auto reason text model refs before after chars :
  let m := prepareMessage fresh (newSummaryMessage s auto reason text model refs before after chars) in
  m_Kind m = MessageKindCompact /\ providerVisible m = true /\ plain m /\
  exists c, m_Compaction m = Some c /\ elems (cm_RetainedMessageIDs c) = sl_RetainedMessageIDs s /\
    cm_TailStartMessageID c = sl_TailStartMessageID s.
Proof.
  unfold prepareMessage, ClassifyUserMessage, newSummaryMessage. simpl. split_and!; [done|done| |].
  - repeat constructor; done.
  - eexists. split; [done|]. simpl. split; [|done]. by destruct (sl_RetainedMessageIDs s).
Qed.

Lemma visible_app a b : ProviderVisibleMessages (a ++ b) = ProviderVisibleMessages a ++ ProviderVisibleMessages b.
Proof. apply filter_app. Qed.

Lemma visible_sublist a : ProviderVisibleMessages a `sublist_of` a.
Proof. apply sublist_filter. Qed.

(** A compact message at the end of a history, or before what it kept. *)
Lemma assemble_snoc history m incoming :
  m_Kind m = MessageKindCompact -> providerVisible m = true ->
  AssembleActiveContext (history ++ [m]) incoming =
  m :: retainedMessagesForCompact (ProviderVisibleMessages history) m ++ ProviderVisibleMessages incoming.
Proof.
  intros Hm Hv. unfold AssembleActiveContext. rewrite visible_app.
  assert (ProviderVisibleMessages [m] = [m]) as -> by (apply list_filter_all; by intros ? ->%list_elem_of_singleton).
  rewrite latest_compact_Some by (done || constructor). done.
Qed.

Lemma retained_nil m : retainedMessagesForCompact [] m = [].
Proof. apply sublist_nil_r. apply retained_sublist. Qed.

Lemma assemble_cons m kept incoming :
  m_Kind m = MessageKindCompact -> providerVisible m = true ->
  Forall (fun m => compactionRelevant m = true) kept ->
  AssembleActiveContext (m :: kept) incoming = m :: kept ++ ProviderVisibleMessages incoming.
Proof.
  intros Hm Hv Hk. unfold AssembleActiveContext.
  assert (ProviderVisibleMessages (m :: kept) = m :: kept) as ->.
  { apply list_filter_all. rewrite Forall_forall in Hk. intros x [->|Hx]%elem_of_cons; [done|].
    by apply relevant_visible, Hk. }
  assert (latest_compact [] (m :: kept) None = Some ([], m, kept)) as ->
    by (apply (latest_compact_Some [] m kept); [done|]; eapply Forall_impl; [exact Hk|];
        apply relevant_not_compact).
  by rewrite retained_nil.
Qed.

(** Selecting the kept ids in a history that holds them. *)
Lemma retained_wanted history s work m c :
  m_Compaction m = Some c -> elems (cm_RetainedMessageIDs c) = sl_RetainedMessageIDs s ->
  sl_RetainedMessageIDs s = map m_ID (sl_RetainedTail s) ->
  sl_RetainedTail s `sublist_of` work -> work `sublist_of` history -> identified history ->
  compactProviderMessages m history = m :: sl_RetainedTail s /\
  (sl_RetainedTail s <> [] -> retainedMessagesForCompact history m = sl_RetainedTail s).
Proof.
  intros Hc Hr Hids H1 H2 [Hnd _].
  assert (sl_RetainedTail s `sublist_of` history) as Hsub by (by etransitivity).
  pose proof (filter_wanted _ _ Hsub Hnd) as Hf. rewrite <- Hids, <- Hr in Hf. split.
  - rewrite compactProviderMessages_spec. f_equal. unfold retained_in. rewrite Hc. exact Hf.
  - intros Hne. unfold retainedMessagesForCompact. rewrite Hc.
    destruct (elems (cm_RetainedMessageIDs c)) eqn:E; [|done].
    rewrite Hids in Hr. by destruct (sl_RetainedTail s).
Qed.

(** The pure part of a compaction: from the history of a thread to the one the
    next generation starts with. *)
Lemma compaction_context history policy fresh auto reason text model refs before after chars incoming :
  identified history -> well_kinded (AssembleActiveContext history []) ->
  0 < pl_KeepRecentTokens policy ->
  let s := SelectInputWithEstimator estimate (ProviderVisibleMessages history) policy in
  let summary := newSummaryMessage s auto reason text model refs before after chars in
  let m := prepareMessage fresh summary in
  let next := compactProviderMessages m history in
  AssembleActiveContext next incoming = m :: sl_RetainedTail s ++ ProviderVisibleMessages incoming /\
  AssembleActiveContext (history ++ [summary]) incoming =
    summary :: sl_RetainedTail s ++ ProviderVisibleMessages incoming /\
  (balanced (AssembleActiveContext history []) -> balanced (AssembleActiveContext next [])).
Proof.
  intros Hid Hk Hb. cbv zeta.
  set (s := SelectInputWithEstimator _ _ _). set (summary := newSummaryMessage _ _ _ _ _ _ _ _ _).
  pose proof (identified_sublist _ _ (visible_sublist history) Hid) as Hidv.
  destruct (selection_spec estimate _ _ Hidv Hb) as (newest & Hnew & Htail & Hids & _).
  fold s in Htail, Hids. set (work := (selection_work (ProviderVisibleMessages history)).2) in *.
  assert (work = compactionRelevantMessages (AssembleActiveContext history [])) as Hwork
    by apply selection_work_active.
  pose proof (selection_work_sublist (ProviderVisibleMessages history)) as Hsub. fold work in Hsub.
  assert (sl_RetainedTail s `sublist_of` work) as Hts by (rewrite Htail; apply sublist_filter).
  assert (Forall (fun m => compactionRelevant m = true) (sl_RetainedTail s)) as Hrel.
  { apply Forall_forall. intros x Hx. apply (relevant_work (ProviderVisibleMessages history)).
    by apply (sublist_subseteq _ _ Hts). }
  assert (well_kinded work) as Hkw.
  { unfold well_kinded in *. rewrite Forall_forall in *. intros x Hx. apply Hk.
    rewrite Hwork in Hx. unfold compactionRelevantMessages in Hx. by apply list_elem_of_filter in Hx as [_ ?]. }
  destruct (summary_message fresh s auto reason text model refs before after chars)
    as (Hmk & Hmv & Hmp & c & Hc & Hcr & _).
  assert (m_Kind summary = MessageKindCompact /\ providerVisible summary = true) as [Hsk Hsv] by done.
  destruct (retained_wanted history s work _ c Hc Hcr Hids Hts
              ltac:(etransitivity; [exact Hsub|apply visible_sublist]) Hid) as [Hnext _].
  fold summary in Hnext. rewrite Hnext. split_and!.
  - by apply assemble_cons.
  - rewrite assemble_snoc by done. f_equal. f_equal.
    destruct (decide (sl_RetainedTail s = [])) as [E|Hne].
    + rewrite E. rewrite Htail in E. pose proof (nothing_kept _ _ _ _ Hkw E) as Hn.
      unfold retainedMessagesForCompact. subst summary. simpl.
      rewrite Hids, Htail, E. simpl.
      assert (sl_TailStartMessageID s = "") as ->; [|done].
      subst s. unfold SelectInputWithEstimator in *. subst work.
      destruct (selection_work (ProviderVisibleMessages history)) as [prev [|w work]]; [done|].
      simpl in Hn |- *. by rewrite Hn.
    + destruct (retained_wanted (ProviderVisibleMessages history) s work summary
        (mkCompaction auto reason (match sl_PreviousSummary s with Some m => m_ID m | None => "" end)
           (sl_FirstKeptMessageID s) (sl_TailStartMessageID s) (copied (sl_RetainedMessageIDs s))
           (copied refs) before after chars model) eq_refl) as [_ H]; [|done..|by apply H].
      by destruct (sl_RetainedMessageIDs s).
  - intros Hbal. rewrite assemble_cons, app_nil_r by done.
    change (prepareMessage fresh summary :: sl_RetainedTail s) with
      ([prepareMessage fresh summary] ++ sl_RetainedTail s).
    apply balanced_plain_app; [by constructor|]. rewrite Htail.
    apply kept_balanced; [|done| |done].
    + eapply identified_sublist; [exact Hsub|done].
    + rewrite Hwork. apply balanced_filter; [done|].
      unfold well_kinded in Hk. eapply Forall_impl; [exact Hk|]. by intros x [_ ?].
Qed.
End Compaction.

(** ** A compaction of a thread *)

Section Thread.
  Context (json_size : Commit -> option Z) (estimate : list Message -> Z).

(** What the handle holds after a rollover that succeeds. *)
Lemma BeginCompactedGeneration_provider io fresh summary auto usage h d c h' d' :
  BeginCompactedGeneration json_size io fresh summary auto usage (h, d) = (Ok c, (h', d')) ->
  s_ProviderMessages (h_state h') =
    compactProviderMessages (prepareMessage fresh summary) (s_ProviderMessages (h_state h)).
Proof.
  intros H. by destruct (beginGeneration_outcome _ _ _ _ _ _ _ _ _ _ H) as [[_ (e & [=] & _)]|[E _]].
Qed.

(** A compaction that begins a generation continues the conversation. The
    context of the new generation is the summary followed by the messages that
    were kept, which is the context whose size the code checked before it
    committed (but for the id the summary is given), and if the old context
    followed the tool protocol, so does the new one: no call is separated from
    its result. *)
Theorem compaction_continues_conversation io fresh policy auto reason text model refs before after
    chars usage incoming h d c h' d' :
  let history := s_ProviderMessages (h_state h) in
  let s := SelectInputWithEstimator estimate (ProviderVisibleMessages history) policy in
  let summary := newSummaryMessage s auto reason text model refs before after chars in
  identified history -> well_kinded (AssembleActiveContext history []) ->
  0 < pl_KeepRecentTokens policy ->
  BeginCompactedGeneration json_size io fresh summary auto usage (h, d) = (Ok c, (h', d')) ->
  let next := s_ProviderMessages (h_state h') in
  AssembleActiveContext next incoming =
    prepareMessage fresh summary :: sl_RetainedTail s ++ ProviderVisibleMessages incoming /\
  AssembleActiveContext (history ++ [summary]) incoming =
    summary :: sl_RetainedTail s ++ ProviderVisibleMessages incoming /\
  (ValidateToolTranscript (AssembleActiveContext history []) = None ->
   ValidateToolTranscript (AssembleActiveContext next []) = None).
Proof.
  intros history s summary Hid Hk Hb H. cbv zeta.
  apply BeginCompactedGeneration_provider in H. rewrite H. fold history.
  rewrite !validate_iff_balanced. by apply compaction_context.
Qed.
End Thread.
