(* ===== verification/ThreadStoreInv.v ===== *)
(** * Thread storage: the invariant of a directory and its handles

    The relation between [thread.json], the current journal and every open
    handle that the methods of [ThreadStore.v] keep, and the lemmas that each
    of them keeps it. A directory is [published]: the metadata is valid, the
    commits up to its cursor replay to a state with that projection, and at most
    one commit follows them; or it is [lost]: its current journal is missing.
    A handle that passes the staleness check holds the replayed state. *)

From S2P Require Import Prelude GoStd Llm Events ThreadTypes ThreadFacts ThreadStore ThreadReplay.
From stdpp Require Import sorting.

Local Open Scope Z_scope.
Local Open Scope juex_scope.

(** ** The staleness check *)

(** The check of [ensureProjectionCurrentLocked], which changes nothing. *)
Definition current (h : Handle) (d : Disk) : bool :=
  is_ok (ensureProjectionCurrentLocked (h, d)).1.

Lemma ensure_run h d :
  ensureProjectionCurrentLocked (h, d) = (Ok tt, (h, d)) /\ current h d = true \/
  (exists e, ensureProjectionCurrentLocked (h, d) = (Err e, (h, d))) /\ current h d = false.
Proof.
  unfold current.
  assert ((ensureProjectionCurrentLocked (h, d)).2 = (h, d)) as H.
  { unfold ensureProjectionCurrentLocked, bind, get_handle, get_disk, lift, ret, fail. simpl.
    destruct (readProjectionFile _ _ _); simpl; [|done]. by destruct (_ || _). }
  destruct (ensureProjectionCurrentLocked (h, d)) as [[[]|e] w]; simpl in *; subst w; eauto.
Qed.

Lemma current_inv h d : current h d = true ->
  exists p, d_meta d = MetaProjection p /\ h_archived h = d_archived d /\
    valid_projection p (h_ID h) = true /\
    p_Revision p = p_Revision (h_projection h) /\ p_EventCursor p = p_EventCursor (h_projection h).
Proof.
  unfold current, ensureProjectionCurrentLocked, bind, get_handle, get_disk, lift, ret, fail. simpl.
  unfold readProjectionFile, validateProjectionMetadata, check. intros H.
  destruct (Bool.eqb (h_archived h) (d_archived d)) eqn:Ha; [|done].
  destruct (d_meta d) as [| |p]; [done..|]. simpl in H.
  destruct (valid_projection p (h_ID h)) eqn:Hv; [|done]. simpl in H.
  destruct (_ || _) eqn:Hc; [done|]. to_prop.
  exists p. apply eqb_prop in Ha. auto.
Qed.

(** ** Guards of the methods *)

Definition is_open (h : Handle) : bool := negb (h_closed h) && es_current (h_eventStore h).

Lemma guard_open_run h d :
  guard_open h (h, d) = (if is_open h then Ok tt else Err ErrClosed, (h, d)).
Proof.
  unfold guard_open, is_open, fail, ret.
  by destruct (h_closed h), (es_current (h_eventStore h)).
Qed.

Section Guards.
  Context (json_size : Commit -> option Z).

(** The two guards every writing method starts with. *)
Lemma guarded_run {A} h d (m : M A) :
  (is_open h = true /\ current h d = true /\
   (do_ guard_open h;; do_ ensureProjectionCurrentLocked;; m) (h, d) = m (h, d)) \/
  ((is_open h = false \/ current h d = false) /\
   exists e, (do_ guard_open h;; do_ ensureProjectionCurrentLocked;; m) (h, d) = (Err e, (h, d))).
Proof.
  unfold bind. rewrite guard_open_run. destruct (is_open h); [|eauto].
  destruct (ensure_run h d) as [[-> ->]|[[e ->] ->]]; eauto.
Qed.

(** Runs the guards of a method whose handle fails them. *)
Ltac refused h d Hs :=
  unfold bind at 1, get_handle; cbn [fst];
  match goal with |- context [bind (guard_open h) (fun _ => bind _ (fun _ => ?k))] =>
    destruct (guarded_run h d k) as [(? & ? & _)|(_ & e & E)];
    [destruct Hs; congruence | rewrite E; eauto] end.

Lemma AppendFacts_stale io facts h d : is_open h = false \/ current h d = false ->
  exists e, AppendFacts json_size io facts (h, d) = (Err e, (h, d)).
Proof.
  intros Hs. unfold AppendFacts. refused h d Hs.
Qed.

Lemma beginGeneration_stale io compacted summary automatic usage h d :
  is_open h = false \/ current h d = false ->
  exists e, beginGeneration json_size io compacted summary automatic usage (h, d) = (Err e, (h, d)).
Proof.
  intros Hs. unfold beginGeneration. refused h d Hs.
Qed.

Lemma mutateProjectionLocked_stale io mutate h d : is_open h = false \/ current h d = false ->
  exists e, mutateProjectionLocked io mutate (h, d) = (Err e, (h, d)).
Proof.
  intros Hs. unfold mutateProjectionLocked. refused h d Hs.
Qed.

Lemma SetPendingInputCount_stale io count h d : is_open h = false \/ current h d = false ->
  exists e, SetPendingInputCount io count (h, d) = (Err e, (h, d)).
Proof.
  intros Hs. unfold SetPendingInputCount. destruct (count <? 0); [by eexists|].
  refused h d Hs.
Qed.

Lemma Close_run io h d : exists r h', Close io (h, d) = (r, (h', d)) /\
  h_ID h' = h_ID h /\ h_state h' = h_state h /\ h_closed h' = true.
Proof.
  unfold Close, bind, get_handle, modify_handle, ret, fail. simpl.
  destruct (h_closed h) eqn:Hc; simpl; [|destruct (io_close io)]; eauto 10.
Qed.

(** Whatever is called through a handle that is closed or stale leaves the
    directory alone, and only [Close] changes the handle. *)
Lemma stale_call io c h d : is_open h = false \/ current h d = false ->
  exists r h', run_call json_size io c (h, d) = (r, (h', d)) /\
    (h' = h \/ (c = CallClose /\ Close io (h, d) = (r, (h', d)))).
Proof.
  intros Hs. destruct c; cbn [run_call]; unfold discard_result.
  - unfold bind. destruct (AppendFacts_stale io facts h d Hs) as [e ->]. eauto.
  - unfold appendBatchAssigned, bind, get_handle, fail, ret.
    destruct (Nat.eqb _ 0); [eauto|]. cbn [fst]. destruct (h_closed h); [eauto|].
    destruct (AppendFacts_stale io
      (map (message_fact (g_ID (p_CurrentGeneration (h_projection h))) turn)
         (imap (fun i m => prepareMessage (fresh i) m) messages) ++ map event_fact associated) h d Hs)
      as [e ->]. eauto.
  - unfold AppendEvent, bind, get_handle, ret. destruct transient; [eauto|]. cbn [fst].
    destruct (existsb _ _); [eauto|].
    destruct (AppendFacts_stale io (event_facts e) h d Hs) as [e' ->]. eauto.
  - unfold RecordProviderUsage, bind, ret. destruct (_ && _); [eauto|].
    destruct (AppendFacts_stale io [usage_fact turn model u c] h d Hs) as [e' ->]. eauto.
  - unfold BeginNewGeneration, bind.
    destruct (beginGeneration_stale io false (TextMessage RoleUser "") false None h d Hs) as [e ->].
    eauto.
  - unfold BeginCompactedGeneration, bind.
    destruct (beginGeneration_stale io true (prepareMessage fresh summary) automatic usage h d Hs)
      as [e ->]. eauto.
  - unfold ApplyAlias, bind, fail. destruct (alias =?s ""); [eauto|].
    destruct (negb available); [eauto|].
    destruct (mutateProjectionLocked_stale io (fun _ => set_Alias alias) h d Hs) as [e ->]. eauto.
  - destruct (SetPendingInputCount_stale io count h d Hs) as [e ->]. eauto.
  - unfold Archive, bind, get_handle, fail. cbn [fst].
    destruct (h_ID h =?s MainID); [eauto|].
    destruct (_ || _ || _); [eauto|]. destruct active_child; [eauto|].
    destruct (mutateProjectionLocked_stale io
      (fun at_ p => set_Retention RetentionArchived ExecutionNone (Some at_) p) h d Hs) as [e ->].
    eauto.
  - destruct (Close_run io h d) as (r & h' & E & _). eauto 6.
Qed.
End Guards.

(** ** Insensitivity of the replay *)

(** A record of another extent: only the cursors see it. *)
Lemma apply_facts_extent id c a b a' b' g l s :
  apply_facts id (mkScanned c g a b) l s = apply_facts id (mkScanned c g a' b') l s.
Proof.
  revert s. induction l as [|f l IH]; intros s; [done|]. cbn [apply_facts].
  assert (applyFact id s (mkScanned c g a b) f = applyFact id s (mkScanned c g a' b') f) as -> by done.
  destruct (applyFact _ _ _ _); simpl; [apply IH | done].
Qed.

Lemma applyCommit_extent id c g a b a' b' s s' :
  applyCommit id s (mkScanned c g a b) = Ok s' ->
  applyCommit id s (mkScanned c g a' b') = Ok (over_projection (set_cursor_offsets b') s').
Proof.
  intros (s1 & Ha & Hl & ->)%applyCommit_inv. unfold applyCommit. cbn [sc_Commit].
  rewrite (apply_facts_extent id c a' b' a b). cbn [sc_Commit] in Ha. rewrite Ha. simpl.
  by rewrite Hl.
Qed.

(** [UpdatedAt] is overwritten before anything reads it. *)
Definition touch (u : Time) (s : ReplayState) : ReplayState :=
  over_projection (fun p => set_Revision (p_Revision p) u p) s.

Lemma touch_touch u v s : touch u (touch v s) = touch u s.
Proof. done. Qed.

Lemma touch_self s : touch (p_UpdatedAt (s_Projection s)) s = s.
Proof. by destruct s as [? []]. Qed.

Lemma applyFact_touch id u c f s :
  match applyFact id s c f, applyFact id (touch u s) c f with
  | Ok s1, Ok s2 => exists v, s2 = touch v s1
  | Err e1, Err e2 => e1 = e2
  | _, _ => False
  end.
Proof.
  unfold applyFact.
  destruct (f_Type f); simpl;
    repeat split_innermost; try done; try (by exists u); by eexists; reflexivity.
Qed.

Lemma apply_facts_touch id u c l s :
  match apply_facts id c l s, apply_facts id c l (touch u s) with
  | Ok s1, Ok s2 => exists v, s2 = touch v s1
  | Err e1, Err e2 => e1 = e2
  | _, _ => False
  end.
Proof.
  revert u s. induction l as [|f l IH]; intros u s; cbn [apply_facts]; [by exists u|].
  pose proof (applyFact_touch id u c f s) as H.
  destruct (applyFact id s c f) as [s1|], (applyFact id (touch u s) c f) as [s2|]; simpl; try done.
  destruct H as [v ->]. apply IH.
Qed.

Lemma applyCommit_touch id u c s : applyCommit id (touch u s) c = applyCommit id s c.
Proof.
  unfold applyCommit. pose proof (apply_facts_touch id u c (c_Facts (sc_Commit c)) s) as H.
  destruct (apply_facts id c _ s) as [s1|], (apply_facts id c _ (touch u s)) as [s2|];
    simpl; try done; [|by subst].
  destruct H as [v ->]. done.
Qed.

Lemma cloneReplayState_id s : is_Some (a_ByModel (p_TokenUsage (s_Projection s))) ->
  cloneReplayState s = s.
Proof.
  intros H. unfold cloneReplayState. rewrite (cloneProjection_id _ H). apply set_projection_self.
Qed.

(** The runtime replay only carries the projection. *)
Lemma applyRuntimeFact_carries id g c first s f p s' :
  applyRuntimeFact id g c first s f = Ok s' ->
  applyRuntimeFact id g c first (set_projection p s) f = Ok (set_projection p s') /\
  s_Projection s' = s_Projection s.
Proof. unfold applyRuntimeFact. intros H. destruct (f_Type f); by walk_eq. Qed.

Lemma applyRuntimeCommit_carries id g c first l s p s' :
  applyRuntimeCommit id g c first l s = Ok s' ->
  applyRuntimeCommit id g c first l (set_projection p s) = Ok (set_projection p s') /\
  s_Projection s' = s_Projection s.
Proof.
  revert s. induction l as [|f l IH]; intros s H; [by simplify_eq/=|].
  cbn [applyRuntimeCommit] in *.
  destruct (applyRuntimeFact id g c first s f) as [s1|] eqn:E; [|done]. simpl in H.
  destruct (applyRuntimeFact_carries id g c first s f p s1 E) as [-> <-]. simpl. by apply IH.
Qed.

Lemma runtime_loop_carries id g first l s p s' :
  runtime_loop id g first l s = Ok s' ->
  runtime_loop id g first l (set_projection p s) = Ok (set_projection p s') /\
  s_Projection s' = s_Projection s.
Proof.
  revert first s. induction l as [|c l IH]; intros first s H; [by simplify_eq/=|].
  cbn [runtime_loop] in *.
  destruct (applyRuntimeCommit id g c first _ s) as [s1|] eqn:E; [|done].
  destruct (applyRuntimeCommit_carries id g c first _ s p s1 E) as [-> <-]. by apply IH.
Qed.

Lemma runtime_loop_snoc id g first l c s s1 s2 :
  l <> [] -> runtime_loop id g first l s = Ok s1 ->
  applyRuntimeCommit id g c false (c_Facts (sc_Commit c)) s1 = Ok s2 ->
  runtime_loop id g first (l ++ [c]) s = Ok s2.
Proof.
  revert first s. induction l as [|x l IH]; intros first s Hne H1 H2; [done|].
  cbn [runtime_loop app] in *.
  destruct (applyRuntimeCommit id g x first _ s) as [s3|] eqn:E; [|done].
  destruct l as [|y l]; [|by apply IH].
  simplify_eq/=. by rewrite H2.
Qed.

(** The parts of a successful cold-open replay. *)
Lemma replayCurrent_inv id p l s : replayCurrentGeneration id p l = Ok s ->
  exists c r lc, l = c :: r /\ last l = Some lc /\ valid_first p c = true /\
    commit_cursor lc = p_EventCursor p /\
    runtime_loop id (g_ID (p_CurrentGeneration p)) true l
      (set_projection (cloneProjection p) zero_state) = Ok s /\
    s_Projection s = cloneProjection p.
Proof.
  unfold replayCurrentGeneration. intros H. destruct l as [|c r]; [done|].
  destruct (last (c :: r)) as [lc|] eqn:El; [|done].
  destruct (valid_first p c) eqn:Ef; [|done]. cbn [negb] in H.
  destruct (negb (bool_decide _)) eqn:Ec in H; [done|]. to_prop.
  exists c, r, lc. repeat split; auto.
  by destruct (runtime_loop_carries id _ true (c :: r) _ (cloneProjection p) s H) as [_ ->].
Qed.

(** Another projection of the same generation, at the same cursor. *)
Lemma replay_reproject id p p' l s :
  p_CurrentGeneration p' = p_CurrentGeneration p -> p_Generations p' = p_Generations p ->
  p_EventCursor p' = p_EventCursor p -> is_Some (a_ByModel (p_TokenUsage p')) ->
  replayCurrentGeneration id p l = Ok s ->
  replayCurrentGeneration id p' l = Ok (set_projection p' s).
Proof.
  intros Hg Hgs Hk Hm (c & r & lc & -> & Hl & Hf & Hc & Hr & Hp)%replayCurrent_inv.
  unfold replayCurrentGeneration. rewrite Hl.
  assert (valid_first p' c = true) as -> by (unfold valid_first in *; by rewrite Hg, Hgs).
  rewrite Hk, bool_decide_eq_true_2, Hg by done. cbn [negb].
  rewrite (cloneProjection_id p' Hm).
  exact (proj1 (runtime_loop_carries id _ true (c :: r) _ p' s Hr)).
Qed.

(** One more commit of the same generation. *)
Lemma replay_extend id p p' l s c s' :
  validated id (sc_Commit c) -> Forall (fun f => opens f = false) (c_Facts (sc_Commit c)) ->
  s_Projection s = p -> replayCurrentGeneration id p l = Ok s -> applyCommit id s c = Ok s' ->
  p_CurrentGeneration p' = p_CurrentGeneration p -> p_Generations p' = p_Generations p ->
  p_EventCursor p' = commit_cursor c -> is_Some (a_ByModel (p_TokenUsage p')) ->
  replayCurrentGeneration id p' (l ++ [c]) = Ok (set_projection p' s').
Proof.
  intros Hv Ho Hp (c0 & r & lc & -> & Hl & Hf & Hc & Hr & Hp')%replayCurrent_inv Ha Hg Hgs Hk Hm.
  unfold replayCurrentGeneration. cbn [app]. rewrite app_comm_cons, last_snoc.
  assert (valid_first p' c0 = true) as -> by (unfold valid_first in *; by rewrite Hg, Hgs).
  rewrite Hk, bool_decide_eq_true_2, Hg by done. cbn [negb].
  rewrite (cloneProjection_id p' Hm).
  destruct (runtime_loop_carries id _ true (c0 :: r) _ p' s Hr) as [Hr' _].
  apply (runtime_loop_snoc id _ true (c0 :: r) c _ (set_projection p' s)); [done|exact Hr'|].
  rewrite <- (runtime_commit_agrees id c false s s' Hv Ho Ha p').
  unfold current_id. by rewrite Hp.
Qed.

(** ** Journals *)

Section Invariant.
  Context (json_size : Commit -> option Z).
  Context (json_size_nonneg : forall c n, json_size c = Some n -> 0 <= n).
  Context (id : string) (id_valid : ValidID id = true).

Abbreviation line := (line_size json_size).
Abbreviation scanned := (scan json_size).
Abbreviation total := (records_size json_size).

Lemma line_size_pos c : 0 < line c.
Proof.
  unfold line_size, frame_bytes. destruct (json_size c) as [n|] eqn:E; simpl; [|lia].
  specialize (json_size_nonneg c n E). lia.
Qed.

Lemma records_size_app l r : total (l ++ r) = total l + total r.
Proof. induction l; simpl; lia. Qed.

Lemma records_size_nonneg l : 0 <= total l.
Proof. induction l as [|c l IH]; simpl; [lia|]. pose proof (line_size_pos c). lia. Qed.

Lemma scan_app g off l r : scanned g off (l ++ r) = scanned g off l ++ scanned g (off + total l) r.
Proof.
  revert off. induction l as [|c l IH]; intros off; simpl; [by rewrite Z.add_0_r|].
  by rewrite IH, Z.add_assoc.
Qed.

Lemma scan_length g off l : length (scanned g off l) = length l.
Proof. revert off. induction l; intros; simpl; auto. Qed.

(** The record [c] as it is scanned after [l]. *)
Definition record_after (g : string) (l : list Commit) (c : Commit) : scannedCommit :=
  mkScanned c g (total l) (total l + line c).

Lemma scan_snoc g l c : scanned g 0 (l ++ [c]) = scanned g 0 l ++ [record_after g l c].
Proof. by rewrite scan_app. Qed.

Lemma read_commits_app want l r :
  read_commits id want (l ++ r) =
  rbind (read_commits id want l)
    (fun _ => read_commits id (foldl (fun w _ => wrap_uint64 (w + 1)) want l) r).
Proof.
  revert want. induction l as [|c l IH]; intros want; [done|]. cbn [read_commits app foldl].
  destruct (negb _); [done|]. destruct (validateCommit _ _); [apply IH | done].
Qed.

Lemma read_commits_validated want l : read_commits id want l = Ok tt ->
  Forall (fun c => validated id (sc_Commit c)) l.
Proof.
  revert want. induction l as [|c l IH]; intros want H; [constructor|].
  cbn [read_commits] in H. destruct (negb _); [done|].
  destruct (validateCommit id (sc_Commit c)) as [[]|] eqn:E; [|done]. constructor; eauto.
Qed.

Lemma read_commits_last want l c : read_commits id want (l ++ [c]) = Ok tt ->
  c_Seq (sc_Commit c) = foldl (fun w _ => wrap_uint64 (w + 1)) want l.
Proof.
  rewrite read_commits_app. intros H.
  destruct (read_commits id want l) as [[]|]; [|done]. cbn [rbind read_commits] in H.
  destruct (negb _) eqn:E; [done|]. by to_prop.
Qed.

(** ** Published directories *)

Definition seq_after (c : Commit) : Z := wrap_uint64 (c_Seq c + 1).

(** Every registered journal exists, and every journal belongs to an ordinal. *)
Definition layout (p : Projection) (files : gmap string JournalFile) : Prop :=
  (forall g, g ∈ p_Generations p -> is_Some (files !! journalName (g_ID g))) /\
  (forall name, is_Some (files !! name) ->
     exists k, 1 <= k <= 999999 /\ name = journalName (generationID k)).

Record published (d : Disk) (p : Projection) (pre tail : list Commit) (st : ReplayState) : Prop := {
  pub_meta : d_meta d = MetaProjection p;
  pub_valid : valid_projection p id = true;
  pub_file : exists torn, 0 <= torn /\
    d_files d !! journalName (g_ID (p_CurrentGeneration p)) = Some (mkFile (pre ++ tail) torn);
  pub_tail : (length tail <= 1)%nat;
  pub_read : read_commits id (g_BoundarySeq (p_CurrentGeneration p))
               (scanned (g_ID (p_CurrentGeneration p)) 0 (pre ++ tail)) = Ok tt;
  pub_replay : replayCurrentGeneration id p (scanned (g_ID (p_CurrentGeneration p)) 0 pre) = Ok st;
  pub_proj : s_Projection st = p;
  pub_usage : p_UsageAggregatedThrough p = p_EventCursor p;
  pub_live : live id st;
  pub_layout : layout p (d_files d);
  pub_revision : 0 < p_Revision p < 2 ^ 64;
}.

(** The event store of a handle that has read or written [l], ending with [c]. *)
Definition store_at (g : string) (l : list Commit) (c : Commit) : EventStore :=
  mkEventStore g true (total l) (seq_after c).

Definition synced (p : Projection) (pre : list Commit) (st : ReplayState) (h : Handle) : Prop :=
  (exists u, h_state h = touch u st) /\
  exists l, last pre = Some l /\ h_eventStore h = store_at (g_ID (p_CurrentGeneration p)) pre l.

(** A handle whose last append is on disk but not yet in the metadata. *)
Definition ahead (p : Projection) (pre tail : list Commit) (st : ReplayState) (h : Handle) : Prop :=
  exists c st' u, tail = [c] /\
    applyCommit id st (record_after (g_ID (p_CurrentGeneration p)) pre c) = Ok st' /\
    opens_commit (record_after (g_ID (p_CurrentGeneration p)) pre c) = false /\
    h_state h = over_projection (advanceProjectionRevision u) st' /\
    h_eventStore h = store_at (g_ID (p_CurrentGeneration p)) (pre ++ [c]) c.

Definition h_rev (h : Handle) : Z := p_Revision (h_projection h).
Definition h_cursor (h : Handle) : EventCursor := p_EventCursor (h_projection h).

Definition handle_ok (p : Projection) (pre tail : list Commit) (st : ReplayState) (h : Handle) :
    Prop :=
  h_ID h = id /\
  (h_closed h = true \/
   es_current (h_eventStore h) = true /\
   (h_rev h < p_Revision p \/
    h_rev h = p_Revision p /\ h_cursor h <> p_EventCursor p \/
    h_rev h = p_Revision p /\ synced p pre st h \/
    h_rev h = p_Revision p + 1 /\ ahead p pre tail st h)).

(** The directory names a journal that does not exist. *)
Definition lost (d : Disk) : Prop :=
  exists p, d_meta d = MetaProjection p /\ valid_projection p id = true /\
    d_files d !! journalName (g_ID (p_CurrentGeneration p)) = None.

Definition stale (d : Disk) (h : Handle) : Prop :=
  h_closed h = true \/
  forall p, d_meta d = MetaProjection p -> h_rev h <> p_Revision p \/ h_cursor h <> p_EventCursor p.

Definition invariant (d : Disk) (hs : list Handle) : Prop :=
  (exists p pre tail st, published d p pre tail st /\ Forall (handle_ok p pre tail st) hs) \/
  (lost d /\ Forall (stale d) hs).

(** ** Consequences *)

Lemma pub_models d p pre tail st : published d p pre tail st ->
  is_Some (a_ByModel (p_TokenUsage p)).
Proof. intros []. destruct pub_live0. by rewrite pub_proj0 in *. Qed.

Lemma pub_last d p pre tail st : published d p pre tail st ->
  exists l c, pre = l ++ [c] /\
    p_EventCursor p = mkCursor (g_ID (p_CurrentGeneration p)) (c_Seq c) (total pre).
Proof.
  intros []. apply replayCurrent_inv in pub_replay0 as (c0 & r & lc & _ & Hl & _ & Hc & _).
  destruct pre as [|c1 l] using rev_ind; [done|].
  exists l, c1. split; [done|].
  rewrite scan_snoc, last_snoc in Hl. simplify_eq. rewrite <- Hc. unfold commit_cursor.
  cbn. f_equal. rewrite records_size_app. simpl. lia.
Qed.

Lemma revision_pos p i : valid_projection p i = true -> p_Revision p <> 0.
Proof. unfold valid_projection. intros H. by to_prop. Qed.

(** A handle that passes the check is in step with the directory. *)
Lemma current_synced d p pre tail st h :
  published d p pre tail st -> handle_ok p pre tail st h -> is_open h = true ->
  current h d = true -> synced p pre st h /\ h_rev h = p_Revision p.
Proof.
  intros Hp [Hid Hh] Ho (q & Hq & _ & Hv & Hr & Hk)%current_inv.
  unfold is_open in Ho. apply andb_true_iff in Ho as [Hc _]. to_prop.
  rewrite (pub_meta _ _ _ _ _ Hp) in Hq. simplify_eq. unfold h_rev, h_cursor in *.
  destruct Hh as [|[_ [?|[[_ ?]|[[_ ?]|[? _]]]]]]; [congruence|lia|congruence|done|lia].
Qed.

Lemma lost_current d h : lost d -> stale d h -> is_open h = false \/ current h d = false.
Proof.
  intros (p & Hm & _) Hs. destruct (is_open h) eqn:Ho; [right|by left].
  destruct (current h d) eqn:Hc; [|done].
  apply current_inv in Hc as (q & Hq & _ & _ & Hr & Hk). simplify_eq.
  unfold is_open in Ho. apply andb_true_iff in Ho as [Hcl _]. to_prop.
  destruct Hs as [|Hs]; [congruence|].
  rewrite Hm in Hq. simplify_eq. destruct (Hs q Hm); unfold h_rev, h_cursor in *; congruence.
Qed.

(** ** Evolution of a directory *)

(** No record of a registered journal is ever removed or changed. *)
Definition grows (p : Projection) (d d' : Disk) : Prop :=
  forall g f, g ∈ p_Generations p -> d_files d !! journalName (g_ID g) = Some f ->
    exists f', d_files d' !! journalName (g_ID g) = Some f' /\
      jf_records f `prefix_of` jf_records f'.

(** What a method may do to a published directory, the handle it is called on
    and the others: the directory stays published with all its generations. *)
Definition continues (p : Projection) (pre tail : list Commit) (st : ReplayState) (h : Handle)
    (d : Disk) : Prop :=
  exists p' pre' tail' st', published d p' pre' tail' st' /\ handle_ok p' pre' tail' st' h /\
    (p' = p \/ p_Revision p < p_Revision p') /\ p_Generations p `prefix_of` p_Generations p' /\
    forall x, handle_ok p pre tail st x -> handle_ok p' pre' tail' st' x.

(** The metadata still registers every generation of [p], in order. *)
Definition registers (p : Projection) (d : Disk) : Prop :=
  exists p', d_meta d = MetaProjection p' /\ p_Generations p `prefix_of` p_Generations p'.

(** Or it is lost, and every handle is stale. *)
Definition evolves (p : Projection) (pre tail : list Commit) (st : ReplayState) (h : Handle)
    (d : Disk) : Prop :=
  continues p pre tail st h d \/
  (lost d /\ registers p d /\ stale d h /\ forall x, handle_ok p pre tail st x -> stale d x).

Lemma continues_same d p pre tail st h :
  published d p pre tail st -> handle_ok p pre tail st h -> continues p pre tail st h d.
Proof. intros Hp Hh. exists p, pre, tail, st. auto 8. Qed.

Lemma evolves_same d p pre tail st h :
  published d p pre tail st -> handle_ok p pre tail st h -> evolves p pre tail st h d.
Proof. left. by apply continues_same. Qed.

Lemma grows_refl p d : grows p d d.
Proof. intros g f _ Hf. eauto. Qed.

(** The next revision does not wrap around in valid metadata. *)
Lemma next_revision d p pre tail st u q :
  published d p pre tail st -> p_Revision q = p_Revision p ->
  valid_projection (advanceProjectionRevision u q) id = true ->
  p_Revision (advanceProjectionRevision u q) = p_Revision p + 1 /\ p_Revision p + 1 < 2 ^ 64.
Proof.
  intros Hp Hq Hv. apply revision_pos in Hv. destruct (pub_revision _ _ _ _ _ Hp).
  cbn in *. rewrite Hq in *. unfold wrap_uint64 in *.
  destruct (decide (p_Revision p + 1 = 2 ^ 64)) as [E|]; [by rewrite E, Z_mod_same_full in Hv|].
  rewrite Z.mod_small by lia. lia.
Qed.

(** Handles other than the one that publishes the next revision. *)
Lemma handle_behind p pre tail st p' pre' tail' st' x :
  p_Revision p' = p_Revision p + 1 ->
  (forall c, tail = [c] ->
     p_EventCursor p' <>
     commit_cursor (record_after (g_ID (p_CurrentGeneration p)) pre c)) ->
  handle_ok p pre tail st x -> handle_ok p' pre' tail' st' x.
Proof.
  intros Hr Hk [Hid Hx]. split; [done|]. destruct Hx as [?|[Ho Hx]]; [by left|right].
  split; [done|]. destruct Hx as [?|[[? _]|[[? _]|[? Ha]]]]; [left; lia..|].
  destruct Ha as (c & st1 & u & -> & Hc & _ & Hs & _). right. left. split; [lia|].
  apply applyCommit_cursor in Hc as [Hc _]. unfold h_cursor, h_projection. rewrite Hs. cbn.
  rewrite Hc. intros E. by apply (Hk c).
Qed.

(** The same handles, against metadata whose journal is gone. *)
Lemma handle_behind_stale p pre tail st p' d x :
  p_Revision p' = p_Revision p + 1 ->
  (forall c, tail = [c] ->
     p_EventCursor p' <>
     commit_cursor (record_after (g_ID (p_CurrentGeneration p)) pre c)) ->
  d_meta d = MetaProjection p' -> handle_ok p pre tail st x -> stale d x.
Proof.
  intros Hr Hk Hm Hx. unfold stale. destruct (h_closed x) eqn:Hc; [by left|right].
  intros q Hq. rewrite Hm in Hq. injection Hq as <-.
  destruct (handle_behind p pre tail st p' [] [] st x Hr Hk Hx)
    as [_ [?|[_ [?|[[_ ?]|[[_ [_ (l & Hl & _)]]|[? _]]]]]]]; [congruence|left; lia|by right|done|left; lia].
Qed.

Lemma record_after_cursor g l c p pre :
  p_EventCursor p = mkCursor g (c_Seq l) (total pre) ->
  p_EventCursor p <> commit_cursor (record_after g pre c).
Proof.
  intros -> H. pose proof (line_size_pos c). unfold commit_cursor in H. simplify_eq/=. lia.
Qed.

(** New metadata over the same records. *)
Lemma published_meta d p pre tail st u q :
  published d p pre tail st ->
  p_CurrentGeneration q = p_CurrentGeneration p -> p_Generations q = p_Generations p ->
  p_EventCursor q = p_EventCursor p -> p_UsageAggregatedThrough q = p_UsageAggregatedThrough p ->
  p_Revision q = p_Revision p ->
  let p' := advanceProjectionRevision u q in
  valid_projection p' id = true ->
  published (set_meta (MetaProjection p') d) p' pre tail (set_projection p' st) /\
  p_Revision p' = p_Revision p + 1 /\
  forall x, handle_ok p pre tail st x -> handle_ok p' pre tail (set_projection p' st) x.
Proof.
  intros Hp Hg Hgs Hk Hu Hr p' Hv.
  destruct (next_revision _ _ _ _ _ _ _ Hp Hr Hv) as [Hrev Hmax].
  assert (is_Some (a_ByModel (p_TokenUsage p'))) as Hm.
  { unfold valid_projection in Hv. to_prop. done. }
  assert (p_ThreadID p' = id) as Hid.
  { unfold valid_projection, valid_identity in Hv. to_prop. done. }
  destruct (pub_last _ _ _ _ _ Hp) as (l & c & _ & Hcur).
  pose proof Hp as []. split; [split|split]; auto.
  - cbn. by rewrite Hg.
  - cbn. by rewrite Hg.
  - cbn. rewrite Hg. by apply (replay_reproject id p p').
  - cbn. by rewrite Hu, Hk.
  - destruct pub_live0. rewrite pub_proj0 in *. split; cbn; rewrite ?Hgs, ?Hg; auto.
  - unfold layout. cbn. by rewrite Hgs.
  - fold p' in Hrev. rewrite Hrev. lia.
  - intros x. apply handle_behind; [done|]. intros c' _. cbn. rewrite Hk.
    by apply (record_after_cursor _ c).
Qed.

(** ** Appending a commit *)

Lemma applyFact_revision i c s s' f : applyFact i s c f = Ok s' ->
  p_Revision (s_Projection s') = p_Revision (s_Projection s).
Proof. unfold applyFact. intros H. destruct (f_Type f); by walk_eq. Qed.

Lemma applyCommit_revision i c s s' : applyCommit i s c = Ok s' ->
  p_Revision (s_Projection s') = p_Revision (s_Projection s).
Proof.
  intros (s1 & Ha & _ & ->)%applyCommit_inv. cbn.
  revert s Ha. induction (c_Facts (sc_Commit c)) as [|f l IH]; intros s Ha; [by simplify_eq/=|].
  cbn [apply_facts] in Ha. destruct (applyFact i s c f) as [s2|] eqn:E; [|done]. simpl in Ha.
  rewrite (IH _ Ha). by apply (applyFact_revision i c s s2 f).
Qed.

Lemma id_nonempty : id <> ""%string.
Proof. by intros ->. Qed.

(** A commit that may follow the published ones: checked and applied. *)
Record appendable (p : Projection) (pre : list Commit) (st : ReplayState) (c : Commit)
    (st' : ReplayState) : Prop := {
  app_seq : exists l, last pre = Some l /\ c_Seq c = seq_after l;
  app_valid : validated id c;
  app_plain : opens_commit (record_after (g_ID (p_CurrentGeneration p)) pre c) = false;
  app_apply : applyCommit id st (record_after (g_ID (p_CurrentGeneration p)) pre c) = Ok st';
}.

Lemma read_commits_extend want g pre l c :
  read_commits id want (scanned g 0 pre) = Ok tt -> last pre = Some l -> c_Seq c = seq_after l ->
  validated id c -> read_commits id want (scanned g 0 (pre ++ [c])) = Ok tt.
Proof.
  intros Hr Hl Hs Hv. apply last_Some in Hl as [l' ->].
  rewrite scan_snoc in Hr. apply read_commits_last in Hr as Hlast. cbn in Hlast.
  rewrite scan_snoc, read_commits_app, scan_snoc, Hr, foldl_app. cbn [foldl rbind read_commits].
  rewrite <- Hlast. cbn [sc_Commit record_after]. rewrite Hs. unfold seq_after. rewrite Z.eqb_refl.
  cbn [negb]. unfold validated in Hv. by rewrite Hv.
Qed.

(** On disk, not in the metadata. *)
Lemma published_tail d p pre st c st' torn :
  published d p pre [] st -> appendable p pre st c st' -> 0 <= torn ->
  let d' := set_files (<[journalName (g_ID (p_CurrentGeneration p)) := mkFile (pre ++ [c]) torn]>
                         (d_files d)) d in
  published d' p pre [c] st /\
  forall x, handle_ok p pre [] st x -> handle_ok p pre [c] st x.
Proof.
  intros Hp [(l & Hl & Hs) Hv _ _] Ht d'. pose proof Hp as []. rewrite app_nil_r in *.
  split; [split; auto|].
  - exists torn. cbn. by rewrite lookup_insert_eq.
  - by apply (read_commits_extend _ _ _ l).
  - destruct pub_layout0 as [H1 H2]. split.
    + intros g Hg. cbn. apply lookup_insert_is_Some'. auto.
    + intros name. cbn. rewrite lookup_insert_is_Some. intros [<-|[_ ?]]; [|auto].
      apply H2. destruct pub_file0 as (? & _ & ->). eauto.
  - intros x [Hid Hx]. split; [done|].
    destruct Hx as [?|[Ho [?|[?|[?|[? (c' & ? & ? & ? & _)]]]]]]; [auto|auto 10..|done].
Qed.

(** A record that is on disk enters the metadata: a handle that was ahead is in
    step again. *)
Lemma published_promote d p pre st c st' u :
  published d p pre [c] st -> appendable p pre st c st' ->
  let p' := advanceProjectionRevision u (s_Projection st') in
  valid_projection p' id = true ->
  published (set_meta (MetaProjection p') d) p' (pre ++ [c]) [] (set_projection p' st') /\
  p_CurrentGeneration p' = p_CurrentGeneration p /\ p_Generations p' = p_Generations p /\
  p_Revision p' = p_Revision p + 1 /\
  forall x, handle_ok p pre [c] st x -> handle_ok p' (pre ++ [c]) [] (set_projection p' st') x.
Proof.
  intros Ht Ha p' Hv.
  pose proof Ha as [_ Hvc Hplain Happ]. apply opens_commit_false in Hplain.
  destruct (applyCommit_generation id _ _ _ Hplain Happ) as [Hg Hgs].
  destruct (applyCommit_cursor id _ _ _ Happ) as [Hk Huk].
  pose proof (applyCommit_revision id _ _ _ Happ) as Hr.
  pose proof (applyCommit_live id (record_after (g_ID (p_CurrentGeneration p)) pre c) _ _
                id_nonempty Hvc (or_intror (pub_live _ _ _ _ _ Ht)) Happ) as Hlive.
  rewrite (pub_proj _ _ _ _ _ Ht) in *.
  destruct (next_revision _ _ _ _ _ u _ Ht Hr Hv) as [Hrev Hmax].
  assert (is_Some (a_ByModel (p_TokenUsage p'))) as Hm by apply Hlive.
  pose proof Ht as [].
  split; [split|split; [|split; [|split]]]; auto; cbn; rewrite ?app_nil_r, ?Hg; auto.
  - rewrite scan_snoc. by apply (replay_extend id p p' _ st _ st'); auto.
  - by rewrite Hk, Huk.
  - by destruct Hlive; split.
  - destruct pub_layout0 as [H1 H2]. split; [|exact H2]. cbn. by rewrite Hgs.
  - cbn in Hrev. rewrite Hrev. lia.
  - intros x [Hid Hx]. split; [done|]. destruct Hx as [?|[Ho Hx]]; [by left|right].
    split; [done|]. fold p' in Hrev.
    destruct Hx as [?|[[? _]|[[? _]|[Hrx Hax]]]]; [left; lia..|].
    destruct Hax as (c' & st1 & v & Hc' & Happ' & _ & Hs & Hes). simplify_eq.
    rewrite Happ in Happ'. simplify_eq. right. right. left. split; [lia|]. split.
    + exists v. by rewrite Hs.
    + exists c'. rewrite last_snoc. split; [done|]. rewrite Hes. cbn. by rewrite Hg.
Qed.

(** Appended and published. *)
Lemma published_append d p pre st c st' u :
  published d p pre [] st -> appendable p pre st c st' ->
  let p' := advanceProjectionRevision u (s_Projection st') in
  valid_projection p' id = true ->
  let d' := set_meta (MetaProjection p')
              (set_files (<[journalName (g_ID (p_CurrentGeneration p)) := mkFile (pre ++ [c]) 0]>
                            (d_files d)) d) in
  published d' p' (pre ++ [c]) [] (set_projection p' st') /\
  p_CurrentGeneration p' = p_CurrentGeneration p /\ p_Generations p' = p_Generations p /\
  p_Revision p' = p_Revision p + 1 /\
  forall x, handle_ok p pre [] st x -> handle_ok p' (pre ++ [c]) [] (set_projection p' st') x.
Proof.
  intros Hp Ha p' Hv d'. destruct (published_tail d p pre st c st' 0 Hp Ha) as [Ht Hx]; [done|].
  destruct (published_promote _ p pre st c st' u Ht Ha Hv) as (? & ? & ? & ? & Hx').
  split; [done|]. split; [done|]. split; [done|]. split; [done|]. intros x Hh. by apply Hx', Hx.
Qed.

(** ** Rolling over *)

Lemma journalName_inj a b : journalName a = journalName b -> a = b.
Proof.
  unfold journalName. intros H. apply (f_equal bytes_of) in H. rewrite !bytes_of_app in H.
  apply app_inj_2 in H as [H _]; [|done]. by apply bytes_of_inj.
Qed.

(** The first record of a new generation. *)
Definition first_record (next : string) (c : Commit) : scannedCommit :=
  mkScanned c next 0 (line c).

Lemma published_rollover d p pre tail st f c st' u :
  published d p pre tail st ->
  c_Facts c = [f] -> is_boundary_fact f = true -> validated id c ->
  d_files d !! journalName (f_ToGenerationID f) = None ->
  applyCommit id st (first_record (f_ToGenerationID f) c) = Ok st' ->
  let p' := advanceProjectionRevision u (s_Projection st') in
  valid_projection p' id = true ->
  let d' := set_meta (MetaProjection p')
              (set_files (<[journalName (f_ToGenerationID f) := mkFile [c] 0]> (d_files d)) d) in
  published d' p' [c] [] (set_projection p' st') /\
  g_ID (p_CurrentGeneration p') = f_ToGenerationID f /\
  p_Generations p `prefix_of` p_Generations p' /\
  p_Revision p' = p_Revision p + 1 /\
  forall x, handle_ok p pre tail st x ->
    handle_ok p' [c] [] (set_projection p' st') x /\
    forall d2, d_meta d2 = MetaProjection p' -> stale d2 x.
Proof.
  intros Hp Hfs Hb Hv Hnone Happ p' Hvalid d'.
  set (sc := first_record (f_ToGenerationID f) c) in *.
  assert (opens_commit sc = true) as Ho.
  { unfold opens_commit. cbn. rewrite Hfs. cbn. rewrite (proj2 (opens_cases f)); auto. }
  pose proof (applyCommit_revision id sc _ _ Happ) as Hr. rewrite (pub_proj _ _ _ _ _ Hp) in Hr.
  destruct (next_revision _ _ _ _ _ u _ Hp Hr Hvalid) as [Hrev Hmax].
  pose proof (pub_live _ _ _ _ _ Hp) as Hlive.
  destruct (opening_commit id sc st st' id_nonempty Hv Ho (or_intror Hlive) Happ) as [Hfirst Hrun].
  pose proof (applyCommit_live id sc _ _ id_nonempty Hv (or_intror Hlive) Happ) as Hlive'.
  destruct (applyCommit_cursor id _ _ _ Happ) as [Hk Huk].
  pose proof Happ as (s1 & Ha & _ & Hst')%applyCommit_inv.
  cbn [sc_Commit sc first_record] in Ha. rewrite Hfs in Ha. cbn [apply_facts] in Ha.
  destruct (applyFact id st sc f) as [s2|] eqn:Haf; [|done]. simpl in Ha. simplify_eq.
  pose proof (validated_inv id c Hv) as (_ & _ & _ & Hsh & _). rewrite Hfs in Hsh.
  apply Forall_inv in Hsh.
  destruct (boundary_inv id sc st s1 f Hsh Hb Haf)
    as (seed & next & Hseed & _ & _ & Hto & Hn & _ & Hs1).
  set (g := mkGeneration (f_ToGenerationID f) next (c_Seq c)).
  assert (p_CurrentGeneration p' = g /\ p_Generations p' = p_Generations p ++ [g]) as [Hg Hgs].
  { subst s1. cbn. by rewrite <- (pub_proj _ _ _ _ _ Hp). }
  assert (is_Some (a_ByModel (p_TokenUsage p'))) as Hm by apply Hlive'.
  split; [split|split; [|split; [|split]]]; auto.
  - exists 0. split; [lia|]. rewrite Hg. cbn. by rewrite lookup_insert_eq.
  - rewrite Hg. cbn. rewrite Z.eqb_refl. cbn. unfold validated in Hv. by rewrite Hv.
  - rewrite Hg. change (scanned (g_ID g) 0 [c]) with [sc].
    unfold replayCurrentGeneration. cbn [last].
    assert (valid_first p' sc = true) as -> by (by unfold valid_first in *).
    change (p_EventCursor p') with (p_EventCursor (s_Projection (over_projection (stamp sc) s1))).
    rewrite Hk, bool_decide_eq_true_2 by done. cbn [negb runtime_loop].
    rewrite (cloneProjection_id p' Hm), Hg. cbn [g g_ID].
    assert (current_id (over_projection (stamp sc) s1) = f_ToGenerationID f) as Hcur.
    { unfold current_id. change (g_ID (p_CurrentGeneration p') = f_ToGenerationID f). by rewrite Hg. }
    by rewrite <- Hcur, Hrun.
  - by destruct Hlive'; split.
  - destruct (pub_layout _ _ _ _ _ Hp) as [H1 H2]. split; cbn.
    + intros x Hx. change (x ∈ p_Generations p') in Hx.
      rewrite Hgs, elem_of_app, list_elem_of_singleton in Hx.
      apply lookup_insert_is_Some'. destruct Hx as [Hx| ->]; auto.
    + intros name. rewrite lookup_insert_is_Some. intros [<-|[_ ?]]; [|auto].
      exists next. by rewrite Hto.
  - fold p' in Hrev. rewrite Hrev. destruct Hp. lia.
  - by rewrite Hg.
  - rewrite Hgs. by apply prefix_app_r.
  - enough (forall c', tail = [c'] -> p_EventCursor p' <>
      commit_cursor (record_after (g_ID (p_CurrentGeneration p)) pre c')) as Hne.
    { intros x Hx. split; [by apply (handle_behind p pre tail st)|].
      intros d2 Hm2. by apply (handle_behind_stale p pre tail st p'). }
    intros c' _ E.
    change (p_EventCursor p') with (p_EventCursor (s_Projection (over_projection (stamp sc) s1))) in E.
    rewrite Hk in E. unfold commit_cursor in E. cbn in E. simplify_eq.
    destruct (pub_file _ _ _ _ _ Hp) as (? & _ & Hf). congruence.
Qed.
End Invariant.
