(* ===== verification/ThreadStoreOps.v ===== *)
(** * Thread storage: every method keeps the invariant

    For a handle on a published directory: appending facts, beginning a
    generation, mutating the metadata, archiving and closing, then opening,
    recovering and creating a thread, whatever their storage calls report. *)

From S2P Require Import Prelude GoStd Llm Events ThreadTypes ThreadFacts ThreadStore ThreadReplay ThreadStoreInv.
From stdpp Require Import sorting.

Local Open Scope Z_scope.
Local Open Scope juex_scope.

Section Operations.
  Context (json_size : Commit -> option Z).
  Context (json_size_nonneg : forall c n, json_size c = Some n -> 0 <= n).
  Context (id : string) (id_valid : ValidID id = true).

Abbreviation line := (line_size json_size).
Abbreviation scanned := (scan json_size).
Abbreviation total := (records_size json_size).
Abbreviation published := (published json_size id).
Abbreviation handle_ok := (handle_ok json_size id).
Abbreviation synced := (synced json_size).
Abbreviation evolves := (evolves json_size id).
Abbreviation continues := (continues json_size id).
Abbreviation record_after := (record_after json_size).
Abbreviation first_record := (first_record json_size).
Abbreviation appendable := (appendable json_size id).
Abbreviation store_at := (store_at json_size).

(** ** Preparing a commit *)

(** The offset of the last record does not matter to the metadata checks. *)
Lemma valid_offset p i o : valid_projection p i = true ->
  p_UsageAggregatedThrough p = p_EventCursor p -> 0 < o ->
  valid_projection (set_cursor_offsets o p) i = true.
Proof.
  unfold valid_projection. intros H Hu Ho. apply andb_true_iff in H as [H Hc].
  apply andb_true_iff. split; [exact H|].
  unfold valid_cursors in *. cbn -[Z.leb]. rewrite Hu in *.
  repeat (apply andb_true_iff in Hc as [Hc ?]). to_prop.
  assert ((o <=? 0) = false) as -> by (apply Z.leb_gt; lia).
  assert (forall l, usage_cursor_in (set_offset o (p_EventCursor p)) l =
                    usage_cursor_in (p_EventCursor p) l) as Hin.
  { induction l as [|g l IH]; [done|]. cbn [usage_cursor_in]. by rewrite IH. }
  repeat (apply andb_true_iff; split); try done; try by apply bool_decide_eq_true_2.
  all: try (apply negb_true_iff; first [by apply Z.eqb_neq | by apply bool_decide_eq_false_2
                                       | apply Z.ltb_ge; lia]).
  - by rewrite Hin.
  - by rewrite bool_decide_eq_true_2, andb_false_r.
Qed.

Lemma prepareCommit_inv io e facts c : prepareCommit json_size io id e facts = Ok c ->
  es_current e = true /\ c = mkCommit JournalVersion (es_nextSeq e) (NewTimestamp (io_now io)) facts /\
  validated id c /\ exists n, json_size c = Some n.
Proof.
  unfold prepareCommit, validated. intros H. destruct (es_current e); [|done]. cbn [negb] in H.
  destruct (validateCommit id _) as [[]|] eqn:Hv; [|done]. simpl in H.
  destruct (json_size _) as [n|] eqn:Hn; [|done]. destruct (maxCommitBytes <? n); [done|].
  simplify_eq. eauto.
Qed.

Lemma candidate_inv s prov cand :
  is_Some (a_ByModel (p_TokenUsage (s_Projection s))) -> candidate_of id s prov = Ok cand ->
  exists s', applyCommit id s prov = Ok s' /\
    cand = over_projection (advanceProjectionRevision (c_At (sc_Commit prov))) s' /\
    valid_projection (s_Projection cand) id = true.
Proof.
  unfold candidate_of, validateProjectionMetadata. intros Hm H.
  rewrite (cloneReplayState_id s Hm) in H.
  destruct (applyCommit id s prov) as [s'|] eqn:E; [|done]. cbn [rbind] in H.
  destruct (check _ _) as [[]|] eqn:Hc in H; [|done]. apply check_inv in Hc.
  simpl in H. simplify_eq. eauto.
Qed.

(** An appended commit opens no generation. *)
Lemma plain_facts s c g a b s' :
  live id s -> validated id c -> existsb is_boundary_fact (c_Facts c) = false ->
  applyCommit id s (mkScanned c g a b) = Ok s' -> opens_commit (mkScanned c g a b) = false.
Proof.
  intros Hlive Hv Hb (s1 & Ha & _)%applyCommit_inv.
  destruct (opens_commit (mkScanned c g a b)) eqn:Ho; [|done].
  destruct (opens_commit_true id (mkScanned c g a b) Hv Ho) as (f & Hfs & Hf & Hof).
  cbn [sc_Commit] in *. rewrite Hfs in *. apply opens_cases in Hof as [Et|Hbf].
  - cbn [apply_facts] in Ha. unfold applyFact in Ha. rewrite Et in Ha.
    destruct Hlive. rewrite live_id in Ha.
    rewrite bool_decide_eq_false_2 in Ha; [done|]. intros ->. done.
  - cbn [existsb] in Hb. by rewrite Hbf in Hb.
Qed.

Lemma synced_models d p pre tail st h : published d p pre tail st -> synced p pre st h ->
  is_Some (a_ByModel (p_TokenUsage (h_projection h))).
Proof.
  intros Hp [[u Hu] _]. unfold h_projection. rewrite Hu. cbn.
  destruct Hp. by destruct pub_live.
Qed.

(** What a prepared commit is, for a handle in step with the directory. *)
Lemma prepare_synced io h facts d p pre tail st c cand :
  published d p pre tail st -> h_ID h = id -> synced p pre st h ->
  existsb is_boundary_fact facts = false ->
  prepareAppendLocked json_size io h facts = Ok (c, cand) ->
  exists st', appendable p pre st c st' /\ c_Facts c = facts /\ (exists n, json_size c = Some n) /\
    over_projection (set_cursor_offsets (total pre + line c)) cand =
      over_projection (advanceProjectionRevision (c_At c)) st' /\
    valid_projection (advanceProjectionRevision (c_At c) (s_Projection st')) id = true.
Proof.
  intros Hp Hid Hsync Hb Hprep. pose proof (synced_models _ _ _ _ _ _ Hp Hsync) as Hm.
  destruct Hsync as [[u Hu] (l & Hl & Hes)].
  unfold prepareAppendLocked in Hprep. rewrite Hid in Hprep. clear Hid.
  destruct (prepareCommit json_size io id (h_eventStore h) facts) as [c0|] eqn:Hc; [|done].
  cbn [rbind] in Hprep.
  destruct (candidate_of id (h_state h) _) as [cand0|] eqn:Hcand; [|done]. simpl in Hprep. simplify_eq.
  apply prepareCommit_inv in Hc as (_ & Hcdef & Hv & Hn).
  apply candidate_inv in Hcand as (s' & Ha & -> & Hvalid); [|done].
  rewrite Hu, applyCommit_touch, Hes in Ha. cbn [es_currentID es_size store_at ThreadStoreInv.store_at] in Ha.
  pose proof (applyCommit_extent id c _ _ _ (total pre) (total pre + line c) st s' Ha) as Ha'.
  pose proof (pub_live _ _ _ _ _ _ _ Hp) as Hlive.
  assert (c_Facts c = facts) as Hfacts by (by rewrite Hcdef).
  destruct (applyCommit_cursor id _ _ _ Ha) as [Hk Huk].
  exists (over_projection (set_cursor_offsets (total pre + line c)) s'). split; [split|].
  - exists l. split; [done|]. rewrite Hcdef, Hes. done.
  - done.
  - eapply plain_facts; [exact Hlive|done|by rewrite Hfacts|exact Ha'].
  - exact Ha'.
  - split; [done|]. split; [done|]. split; [done|].
    pose proof (records_size_nonneg json_size json_size_nonneg pre).
    pose proof (line_size_pos json_size json_size_nonneg c).
    apply (valid_offset _ id (total pre + line c)) in Hvalid; [exact Hvalid| |lia].
    cbn. by rewrite Hk, Huk.
Qed.

(** ** The append *)

Abbreviation current_name p := (journalName (g_ID (p_CurrentGeneration p))).

(** The directory with the journal of the current generation replaced. *)
Definition with_current (p : Projection) (l : list Commit) (torn : Z) (d : Disk) : Disk :=
  set_files (<[current_name p := mkFile l torn]> (d_files d)) d.

Lemma layout_insert p name f files : layout p files -> is_Some (files !! name) ->
  layout p (<[name := f]> files).
Proof.
  intros [H1 H2] Hn. split.
  - intros g Hg. apply lookup_insert_is_Some'. auto.
  - intros x. rewrite lookup_insert_is_Some. intros [<-|[_ ?]]; auto.
Qed.

(** A journal rewritten with the same records. *)
Lemma published_torn d p pre tail st torn :
  published d p pre tail st -> 0 <= torn ->
  published (with_current p (pre ++ tail) torn d) p pre tail st.
Proof.
  intros Hp Ht. pose proof Hp as []. split; auto.
  - exists torn. cbn. by rewrite lookup_insert_eq.
  - apply layout_insert; [done|]. destruct pub_file as (? & _ & ->). eauto.
Qed.

Lemma grows_current d p pre tail st l torn :
  published d p pre tail st -> (pre ++ tail) `prefix_of` l -> grows p d (with_current p l torn d).
Proof.
  intros Hp Hl g f Hg Hf. cbn.
  destruct (decide (journalName (g_ID g) = current_name p)) as [E|E].
  - rewrite E, lookup_insert_eq. eexists. split; [done|].
    destruct (pub_file _ _ _ _ _ _ _ Hp) as (t & _ & Ht). rewrite E, Ht in Hf. by simplify_eq/=.
  - rewrite lookup_insert_ne by done. eauto.
Qed.

Lemma set_files_id d : set_files (d_files d) d = d.
Proof. by destruct d. Qed.

Lemma total_tail pre tail torn : 0 <= torn -> total (pre ++ tail) + torn = total pre ->
  tail = [] /\ torn = 0.
Proof.
  rewrite records_size_app. intros Ht H.
  destruct tail as [|c r]; [simpl in H; split; [done|lia]|]. exfalso. simpl in H.
  pose proof (line_size_pos json_size json_size_nonneg c).
  pose proof (records_size_nonneg json_size json_size_nonneg r). lia.
Qed.

Lemma appendCurrent_cases io h d p pre tail st c st' r h' d' :
  published d p pre tail st -> synced p pre st h -> appendable p pre st c st' ->
  (exists n, json_size c = Some n) ->
  appendCurrent json_size io c (h, d) = (r, (h', d')) ->
  (h' = h /\ (exists e, r = Err e) /\
   (d' = d \/ tail = [] /\ (exists torn, 0 <= torn /\ d' = with_current p pre torn d) \/
    tail = [] /\ d' = with_current p (pre ++ [c]) 0 d)) \/
  (tail = [] /\ d' = with_current p (pre ++ [c]) 0 d /\
   h' = set_eventStore (store_at (g_ID (p_CurrentGeneration p)) (pre ++ [c]) c) h /\
   exists sc, r = Ok sc /\ sc_EndOffset sc = total pre + line c).
Proof.
  intros Hp [_ (l & Hl & Hes)] [(l' & Hl' & Hseq) _ _ _] [n Hn] H.
  rewrite Hl in Hl'. simplify_eq.
  destruct (pub_file _ _ _ _ _ _ _ Hp) as (torn & Ht & Hf).
  unfold appendCurrent, bind, get_handle, get_disk, fail, lift, modify_disk, modify_handle, ret in H.
  cbn [fst snd] in H. rewrite Hes in H. cbn [store_at ThreadStoreInv.store_at es_current negb es_nextSeq
    es_currentID es_size] in H.
  rewrite Hseq, Z.eqb_refl, Hn, Hf in H. cbn [negb] in H.
  unfold jsonl_Append, file_size in H. cbn [jf_records jf_torn] in H.
  destruct (total (pre ++ tail) + torn =? total pre) eqn:Hsz; to_prop; cbn [negb] in H.
  - apply total_tail in Hsz as [-> ->]; [|done]. rewrite app_nil_r in *.
    unfold with_current.
    destruct (io_append io); simplify_eq/=.
    + right. split; [done|]. split; [done|]. split; [|by eexists].
      unfold store_at, ThreadStoreInv.store_at, seq_after. rewrite records_size_app. cbn. rewrite Hseq.
      do 3 f_equal. lia.
    + left. split; [done|]. split; [eauto|]. left. by rewrite insert_id, set_files_id.
    + left. split; [done|]. split; [eauto|]. right; left. split; [done|]. exists (Z.pos bytes).
      by split; [lia|].
    + left. split; [done|]. split; [eauto|]. auto.
  - simplify_eq/=. left. split; [done|]. split; [eauto|]. left. by rewrite insert_id, set_files_id.
Qed.

(** ** Publishing metadata *)

Lemma persist_cases io p' h d r h' d' :
  h_ID h = id -> valid_projection p' id = true ->
  persistProjectionValueLocked io p' (h, d) = (r, (h', d')) ->
  h' = h /\ (d' = d /\ is_ok r = false \/ d' = set_meta (MetaProjection p') d).
Proof.
  unfold persistProjectionValueLocked, write_meta, bind, get_handle, lift, modify_disk, fail,
    validateProjectionMetadata. cbn [fst snd]. intros -> -> H. cbn in H.
  destruct (io_meta io); simplify_eq/=; auto.
Qed.

(** A handle in step with what has just been published. *)
Lemma handle_synced p' pre' st' h l :
  h_ID h = id -> es_current (h_eventStore h) = true -> h_state h = set_projection p' st' ->
  last pre' = Some l ->
  h_eventStore h = store_at (g_ID (p_CurrentGeneration p')) pre' l ->
  handle_ok p' pre' [] (set_projection p' st') h.
Proof.
  intros Hid Ho Hs Hl Hes. split; [done|]. right. split; [done|]. right. right. left.
  unfold h_rev, h_projection. rewrite Hs. split; [done|]. split; [|eauto].
  exists (p_UpdatedAt p'). rewrite Hs. symmetry. apply (touch_self (set_projection p' st')).
Qed.

(** ** AppendFacts *)

(** What an append may leave: nothing, an unfinished or unpublished record with
    the handle unchanged, an unpublished record with the handle ahead, or a
    published record. *)
Definition append_result (p : Projection) (pre : list Commit) (st : ReplayState) (h h' : Handle)
    (d d' : Disk) (c : Commit) (st' : ReplayState) : Prop :=
  let next := over_projection (advanceProjectionRevision (c_At c)) st' in
  let written := with_current p (pre ++ [c]) 0 d in
  let h1 := set_state next
              (set_eventStore (store_at (g_ID (p_CurrentGeneration p)) (pre ++ [c]) c) h) in
  h' = h /\ d' = d \/
  h' = h /\ (exists torn, 0 <= torn /\ d' = with_current p pre torn d) \/
  h' = h /\ d' = written \/
  h' = h1 /\ d' = written \/
  h' = h1 /\ d' = set_meta (MetaProjection (s_Projection next)) written.

Lemma AppendFacts_cases io facts h d p pre tail st r h' d' :
  published d p pre tail st -> h_ID h = id -> synced p pre st h ->
  AppendFacts json_size io facts (h, d) = (r, (h', d')) ->
  (h' = h /\ d' = d) \/
  (exists c st', tail = [] /\ c_Facts c = facts /\ appendable p pre st c st' /\
     valid_projection (advanceProjectionRevision (c_At c) (s_Projection st')) id = true /\
     append_result p pre st h h' d d' c st').
Proof.
  intros Hp Hid Hsync H. unfold AppendFacts, bind at 1, get_handle in H. cbn [fst] in H.
  match type of H with bind (guard_open h) (fun _ => bind _ (fun _ => ?k)) _ = _ =>
    destruct (guarded_run h d k) as [(_ & _ & E)|(_ & e & E)]; rewrite E in H; clear E end;
    [|by simplify_eq; left].
  unfold bind at 1 in H. unfold guard_active, fail, ret in H.
  destruct (negb (bool_decide (p_RetentionState _ = _))); [by simplify_eq; left|].
  destruct (existsb is_boundary_fact facts) eqn:Hb; [by simplify_eq; left|].
  unfold bind at 1, lift in H.
  destruct (prepareAppendLocked json_size io h facts) as [[c cand]|] eqn:Hprep;
    [|by simplify_eq; left].
  destruct (prepare_synced io h facts d p pre tail st c cand Hp Hid Hsync Hb Hprep)
    as (st' & Happ & Hfacts & Hn & Hcand & Hvalid).
  unfold bind at 1 in H. cbn [fst snd] in H.
  destruct (appendCurrent json_size io c (h, d)) as [r1 [h1 d1]] eqn:Hac.
  destruct (appendCurrent_cases io h d p pre tail st c st' r1 h1 d1 Hp Hsync Happ Hn Hac)
    as [(-> & [e ->] & Hd)|(-> & Hd & Hh1 & sc & -> & Hend)].
  - simplify_eq. destruct Hd as [->|[[-> Ht]|[-> ->]]]; [by left|right|right];
      exists c, st'; unfold append_result; auto 10.
  - right. exists c, st'. do 4 (split; [done|]). unfold append_result.
    rewrite Hend, Hcand in H. set (next := over_projection _ st') in *.
    unfold bind at 1, lift in H.
    assert (validateProjectionMetadata (s_Projection next) (h_ID h) = Ok tt) as Hval.
    { unfold validateProjectionMetadata. rewrite Hid.
      by assert (valid_projection (s_Projection next) id = true) as -> by exact Hvalid. }
    rewrite Hval in H. unfold bind at 1, modify_handle in H. cbn [fst snd] in H.
    subst h1. unfold bind at 1, report in H.
    set (h1 := set_state next (set_eventStore _ h)) in *.
    destruct (persistProjectionValueLocked io (s_Projection next) (h1, d1)) as [r2 [h2 d2]] eqn:Hper.
    destruct (persist_cases io (s_Projection next) h1 d1 r2 h2 d2 Hid Hvalid Hper) as [-> Hd2].
    assert (h' = h1 /\ d' = d2) as [-> ->].
    { destruct r2; [|by simplify_eq]. unfold bind, updateIndex, ret, fail in H.
      destruct (io_index io); by simplify_eq/=. }
    subst d1. destruct Hd2 as [[-> _] | ->]; auto 10.
Qed.

Lemma grows_trans_meta p d d' m : grows p d d' -> grows p d (set_meta m d').
Proof. done. Qed.

Lemma append_evolves h h' d d' p pre st c st' :
  published d p pre [] st -> handle_ok p pre [] st h -> synced p pre st h ->
  h_rev h = p_Revision p -> is_open h = true ->
  appendable p pre st c st' ->
  valid_projection (advanceProjectionRevision (c_At c) (s_Projection st')) id = true ->
  append_result p pre st h h' d d' c st' ->
  evolves p pre [] st h' d' /\ grows p d d'.
Proof.
  intros Hp Hh Hsync Hrev Hopen Happ Hvalid Hres.
  assert (grows p d (with_current p (pre ++ [c]) 0 d)) as Hgrow.
  { apply (grows_current d p pre [] st); [done|]. rewrite app_nil_r. by apply prefix_app_r. }
  unfold is_open in Hopen. apply andb_true_iff in Hopen as [_ Hcur].
  destruct (published_tail json_size id d p pre st c st' 0 Hp Happ) as [Ht Hothers]; [done|].
  destruct Hres as [[-> ->]|[[-> (torn & Hle & ->)]|[[-> ->]|[[-> ->]|[-> ->]]]]].
  - split; [by apply evolves_same|apply grows_refl].
  - split; [|apply (grows_current d p pre [] st); by rewrite ?app_nil_r].
    apply evolves_same; [|done]. rewrite <- (app_nil_r pre) at 1. by apply published_torn.
  - split; [|done]. left. exists p, pre, [c], st. split; [done|]. split; [by apply Hothers|]. auto with lia.
  - split; [|done]. left. exists p, pre, [c], st. split; [done|]. split; [|auto with lia].
    split; [by destruct Hh|right]. split; [done|]. right; right; right. split.
    + unfold h_rev, h_projection. cbn.
      pose proof (applyCommit_revision id _ _ _ (app_apply _ _ _ _ _ _ _ Happ)) as Hr.
      rewrite (pub_proj _ _ _ _ _ _ _ Hp) in Hr.
      exact (proj1 (next_revision json_size id d p pre [] st _ _ Hp Hr Hvalid)).
    + exists c, st', (c_At c). destruct Happ. auto.
  - destruct (published_append json_size id id_valid d p pre st c st' (c_At c) Hp Happ Hvalid)
      as (Hp' & Hg & Hgs & Hr & Hx).
    split; [|by apply grows_trans_meta].
    left. eexists _, (pre ++ [c]), [], _. split; [exact Hp'|]. split.
    + apply (handle_synced _ _ _ _ c); try done; [by destruct Hh|by rewrite last_snoc|].
      cbn. unfold advanceProjectionRevision in Hg. cbn in Hg. by rewrite Hg.
    + split; [lia|]. split; [by rewrite Hgs|exact Hx].
Qed.

Lemma AppendFacts_evolves io facts h d p pre tail st r h' d' :
  published d p pre tail st -> handle_ok p pre tail st h ->
  AppendFacts json_size io facts (h, d) = (r, (h', d')) ->
  evolves p pre tail st h' d' /\ grows p d d'.
Proof.
  intros Hp Hh H.
  destruct (is_open h && current h d) eqn:Hoc.
  - apply andb_true_iff in Hoc as [Ho Hc].
    destruct (current_synced json_size id d p pre tail st h Hp Hh Ho Hc) as [Hsync Hrev].
    destruct (AppendFacts_cases io facts h d p pre tail st r h' d' Hp (proj1 Hh) Hsync H)
      as [[-> ->]|(c & st' & -> & _ & Happ & Hv & Hres)].
    + split; [by apply evolves_same|apply grows_refl].
    + by apply (append_evolves h h' d d' p pre st c st').
  - apply andb_false_iff in Hoc.
    destruct (AppendFacts_stale json_size io facts h d Hoc) as [e E]. rewrite E in H. simplify_eq.
    split; [by apply evolves_same|apply grows_refl].
Qed.

(** ** Metadata mutations *)

(** The parts of a projection the journals depend on. *)
Definition same_journal (q p : Projection) : Prop :=
  p_CurrentGeneration q = p_CurrentGeneration p /\ p_Generations q = p_Generations p /\
  p_EventCursor q = p_EventCursor p /\
  p_UsageAggregatedThrough q = p_UsageAggregatedThrough p /\ p_Revision q = p_Revision p.

Lemma grows_files p d d' : d_files d' = d_files d -> grows p d d'.
Proof. intros E g f _ Hf. rewrite E. eauto. Qed.

Lemma set_projection_advance p' h st u : h_state h = touch u st ->
  set_projection p' (h_state h) = set_projection p' st.
Proof. by intros ->. Qed.

Lemma publish_evolves io u q h d p pre tail st r h' d' :
  published d p pre tail st -> handle_ok p pre tail st h -> synced p pre st h ->
  h_rev h = p_Revision p -> is_open h = true -> same_journal q p ->
  publish_projection io (advanceProjectionRevision u q) (h, d) = (r, (h', d')) ->
  continues p pre tail st h' d' /\ d_files d' = d_files d /\ h_ID h' = id /\
  (r = Ok tt -> d_meta d' = MetaProjection (advanceProjectionRevision u q) /\
                h_state h' = set_projection (advanceProjectionRevision u q) st).
Proof.
  intros Hp Hh Hsync Hrev Hopen (Hg & Hgs & Hk & Hu & Hr) H.
  pose proof (proj1 Hh) as Hid. destruct Hsync as [[v Hs] (l & Hl & Hes)].
  unfold publish_projection, bind at 1, get_handle in H. cbn [fst] in H.
  unfold bind at 1, lift, validateProjectionMetadata in H. rewrite Hid in H.
  destruct (valid_projection (advanceProjectionRevision u q) id) eqn:Hv; cbn [check] in H.
  2: { simplify_eq. split; [by apply continues_same|]. by split. }
  destruct (published_meta json_size json_size_nonneg id d p pre tail st u q Hp Hg Hgs Hk Hu Hr Hv)
    as (Hp' & Hr' & Hx).
  unfold bind at 1 in H.
  destruct (persistProjectionValueLocked io _ (h, d)) as [r1 [h1 d1]] eqn:Hper.
  apply persist_cases in Hper as [-> Hd]; [|done|done].
  destruct r1 as [[]|e].
  - destruct Hd as [[_ ?]| ->]; [done|].
    unfold modify_handle in H. simplify_eq. cbn [fst snd].
    assert (set_projection (advanceProjectionRevision u q) (h_state h) =
            set_projection (advanceProjectionRevision u q) st) as Hst by (by rewrite Hs).
    split; [|repeat split; auto]. eexists _, pre, tail, _. split; [exact Hp'|].
    split; [|split; [lia|split; [cbn; by rewrite Hgs|exact Hx]]].
    split; [done|]. destruct (Hx h Hh) as [_ [?|[Ho _]]]; [by left|right].
    split; [done|]. right. right. left. unfold h_rev, h_projection. cbn [h_state set_state].
    rewrite Hst. split; [done|]. split.
    + exists u. symmetry. apply (touch_self (set_projection (advanceProjectionRevision u q) st)).
    + exists l. split; [done|]. cbn. by rewrite Hes, Hg.
  - simplify_eq. destruct Hd as [[-> _] | ->]; (split; [|by repeat split]).
    + by apply continues_same.
    + eexists _, pre, tail, _. split; [exact Hp'|]. split; [by apply Hx|].
      split; [lia|]. split; [cbn; by rewrite Hgs|exact Hx].
Qed.

Lemma same_journal_synced d p pre tail st h f :
  published d p pre tail st -> synced p pre st h -> h_rev h = p_Revision p ->
  (forall q, same_journal (f q) q) ->
  same_journal (f (cloneProjection (h_projection h))) p.
Proof.
  intros Hp Hsync Hrev Hf. rewrite cloneProjection_id by (by apply (synced_models d p pre tail st)).
  unfold same_journal. destruct (Hf (h_projection h)) as (-> & -> & -> & -> & ->).
  destruct Hsync as [[u Hu] _]. unfold h_projection. rewrite Hu. cbn.
  by rewrite (pub_proj _ _ _ _ _ _ _ Hp).
Qed.

Lemma mutate_evolves io mutate h d p pre tail st r h' d' :
  published d p pre tail st -> handle_ok p pre tail st h ->
  (forall t q, same_journal (mutate t q) q) ->
  mutateProjectionLocked io mutate (h, d) = (r, (h', d')) ->
  continues p pre tail st h' d' /\ d_files d' = d_files d /\ h_ID h' = id.
Proof.
  intros Hp Hh Hm H.
  destruct (is_open h && current h d) eqn:Hoc.
  2: { apply andb_false_iff in Hoc.
    destruct (mutateProjectionLocked_stale io mutate h d Hoc) as [e E]. rewrite E in H. simplify_eq.
    split; [by apply continues_same|]. split; [done|apply Hh]. }
  apply andb_true_iff in Hoc as [Ho Hc].
  destruct (current_synced json_size id d p pre tail st h Hp Hh Ho Hc) as [Hsync Hrev].
  unfold mutateProjectionLocked, bind at 1, get_handle in H. cbn [fst] in H.
  match type of H with bind (guard_open h) (fun _ => bind _ (fun _ => ?k)) _ = _ =>
    destruct (guarded_run h d k) as [(_ & _ & E)|([?|?] & _)]; [|congruence..];
    rewrite E in H; clear E end.
  pose proof (same_journal_synced d p pre tail st h (mutate (NewTimestamp (io_now io))) Hp Hsync Hrev
                (Hm _)) as Hq.
  destruct (publish_evolves io _ _ h d p pre tail st r h' d' Hp Hh Hsync Hrev Ho Hq H)
    as (? & ? & ? & _). auto.
Qed.

Lemma SetPendingInputCount_evolves io count h d p pre tail st r h' d' :
  published d p pre tail st -> handle_ok p pre tail st h ->
  SetPendingInputCount io count (h, d) = (r, (h', d')) ->
  continues p pre tail st h' d' /\ d_files d' = d_files d.
Proof.
  intros Hp Hh H.
  destruct (is_open h && current h d) eqn:Hoc.
  2: { apply andb_false_iff in Hoc.
    destruct (SetPendingInputCount_stale io count h d Hoc) as [e E]. rewrite E in H. simplify_eq.
    split; [by apply continues_same|done]. }
  apply andb_true_iff in Hoc as [Ho Hc].
  destruct (current_synced json_size id d p pre tail st h Hp Hh Ho Hc) as [Hsync Hrev].
  unfold SetPendingInputCount in H. destruct (count <? 0).
  { unfold fail in H. simplify_eq. split; [by apply continues_same|done]. }
  unfold bind at 1, get_handle in H. cbn [fst] in H.
  match type of H with bind (guard_open h) (fun _ => bind _ (fun _ => ?k)) _ = _ =>
    destruct (guarded_run h d k) as [(_ & _ & E)|([?|?] & _)]; [|congruence..];
    rewrite E in H; clear E end.
  destruct (_ =? count).
  { unfold updateIndex, ret, fail in H. destruct (io_index io); simplify_eq;
      (split; [by apply continues_same|done]). }
  unfold bind at 1 in H.
  destruct (publish_projection io _ (h, d)) as [r1 [h1 d1]] eqn:Hpub.
  assert (h' = h1 /\ d' = d1) as [-> ->].
  { unfold updateIndex, ret, fail in H. destruct r1, (io_index io); by simplify_eq. }
  pose proof (same_journal_synced d p pre tail st h
    (fun q => set_Counts (set_PendingInputCount count (p_Counts q)) q) Hp Hsync Hrev) as Hq.
  destruct (publish_evolves io _ _ h d p pre tail st r1 h1 d1 Hp Hh Hsync Hrev Ho
              (Hq (fun q => conj eq_refl (conj eq_refl (conj eq_refl (conj eq_refl eq_refl))))) Hpub)
    as (? & ? & _). auto.
Qed.

(** Closing a handle, moving the directory. *)
Lemma continues_closed p pre tail st h h' d :
  continues p pre tail st h d -> h_ID h' = id -> h_closed h' = true -> continues p pre tail st h' d.
Proof.
  intros (p' & pre' & tail' & st' & Hp & _ & Hr & Hx) Hid Hc.
  exists p', pre', tail', st'. split; [done|]. split; [|done]. by split; [|left].
Qed.

Lemma published_archived b d p pre tail st :
  published d p pre tail st -> published (set_archived b d) p pre tail st.
Proof. by intros []; split. Qed.

Lemma continues_archived b p pre tail st h d :
  continues p pre tail st h d -> continues p pre tail st h (set_archived b d).
Proof.
  intros (p' & pre' & tail' & st' & Hp & Hh & Hx).
  exists p', pre', tail', st'. split; [by apply published_archived|done].
Qed.

Lemma same_journal_retention r x t q : same_journal (set_Retention r x t q) q.
Proof. done. Qed.

Lemma same_journal_alias a q : same_journal (set_Alias a q) q.
Proof. done. Qed.

Lemma Archive_evolves io active_child h d p pre tail st r h' d' :
  published d p pre tail st -> handle_ok p pre tail st h ->
  Archive io active_child (h, d) = (r, (h', d')) ->
  continues p pre tail st h' d' /\ d_files d' = d_files d.
Proof.
  intros Hp Hh H. unfold Archive, bind at 1, get_handle in H. cbn [fst] in H.
  assert (continues p pre tail st h d /\ d_files d = d_files d) as Hsame
    by (split; [by apply continues_same|done]).
  unfold fail in H. destruct (h_ID h =?s MainID); [by simplify_eq|].
  destruct (_ || _ || _); [by simplify_eq|]. destruct active_child; [by simplify_eq|].
  unfold bind at 1 in H.
  destruct (mutateProjectionLocked io _ (h, d)) as [r1 [h1 d1]] eqn:Hm.
  destruct (mutate_evolves io _ h d p pre tail st r1 h1 d1 Hp Hh
              (fun t q => same_journal_retention _ _ (Some t) q) Hm) as (He & Hf & Hid).
  destruct r1; [|by simplify_eq].
  unfold bind at 1, attempt in H.
  destruct (Close_run io h1 d1) as (r2 & h2 & E & Hid2 & _ & Hc2). rewrite E in H.
  assert (forall b h3, h_ID h3 = h_ID h2 -> h_closed h3 = true ->
            continues p pre tail st h3 d1 /\ continues p pre tail st h3 (set_archived b d1)) as He3.
  { intros b h3 Hid3 Hc3.
    assert (continues p pre tail st h3 d1) as He'
      by (apply (continues_closed p pre tail st h1); congruence).
    split; [done|by apply continues_archived]. }
  clear Hid Hid2.
  destruct r2; unfold bind, rename, modify_disk, modify_handle, updateIndex, ret, fail in H;
    destruct (io_rename io), (io_index io); simplify_eq/=;
    (split; [first [by apply (He3 true) | by apply (He3 false)] | done]).
Qed.


(** ** Beginning a generation *)

(** A journal file of an ordinal the registry does not have. *)
Definition staged_name (d : Disk) (next : string) : Prop :=
  d_files d !! journalName next = None /\ exists k, 1 <= k <= 999999 /\ next = generationID k.

Definition with_file (next : string) (f : JournalFile) (d : Disk) : Disk :=
  set_files (<[journalName next := f]> (d_files d)) d.

Lemma published_extra d p pre tail st next f :
  published d p pre tail st -> staged_name d next -> published (with_file next f d) p pre tail st.
Proof.
  intros Hp [Hnone (k & Hk & Hn)]. pose proof Hp as [].
  assert (forall name, is_Some (d_files d !! name) -> name <> journalName next) as Hne.
  { intros name [? Hs] ->. congruence. }
  destruct pub_layout as [H1 H2]. split; auto.
  - destruct pub_file as (torn & Ht & Hf). exists torn. split; [done|]. cbn.
    rewrite lookup_insert_ne; [done|]. symmetry. apply Hne. eauto.
  - split.
    + intros g Hg. apply lookup_insert_is_Some'. auto.
    + intros name. cbn. rewrite lookup_insert_is_Some. intros [<-|[_ ?]]; [|auto].
      exists k. by rewrite Hn.
Qed.

Lemma grows_extra p d next f : staged_name d next -> grows p d (with_file next f d).
Proof.
  intros [Hnone _] g x _ Hx. cbn.
  destruct (decide (journalName (g_ID g) = journalName next)) as [E|E]; [congruence|].
  rewrite lookup_insert_ne by done. eauto.
Qed.

Lemma with_file_twice next f f' d :
  set_files (<[journalName next := f]> (d_files (with_file next f' d))) (with_file next f' d) =
  with_file next f d.
Proof. unfold with_file, set_files. cbn. by rewrite insert_insert_eq. Qed.

(** Removing the staged file restores the directory. *)
Lemma remove_run io next f h d m : d_files d !! journalName next = None ->
  (remove_journal io next (h, set_meta m (with_file next f d))).2 =
  (h, set_meta m (if io_remove io then d else with_file next f d)).
Proof.
  intros Hn. unfold remove_journal. destruct (io_remove io); [|done]. cbn.
  unfold set_meta, set_files. cbn. by rewrite delete_insert_id.
Qed.

Lemma set_meta_id d m : d_meta d = m -> set_meta m d = d.
Proof. destruct d. by intros <-. Qed.

Ltac stays := split; [done|]; left; eexists; split; [done|]; by left.

Lemma stage_cases io c next h d r h' d' :
  (exists n, json_size c = Some n) ->
  stageNextGeneration json_size io c next (h, d) = (r, (h', d')) ->
  h' = h /\
  ((exists e, r = Err e /\ (d' = d \/ staged_name d next /\ exists f, d' = with_file next f d)) \/
   (r = Ok (first_record next c) /\ staged_name d next /\
    d' = with_file next (mkFile [c] 0) d)).
Proof.
  intros [n Hn] H.
  unfold stageNextGeneration, bind at 1, get_handle in H. cbn [fst] in H.
  unfold bind at 1, get_disk in H. cbn [snd] in H.
  unfold fail in H. destruct (es_current _); [|by simplify_eq/=; stays].
  destruct (c_Seq c =? _); [|by simplify_eq/=; stays]. cbn [negb] in H.
  unfold bind at 1, lift in H.
  destruct (parseGenerationID next) as [want|] eqn:Hw; [|by simplify_eq/=; stays].
  destruct (parseGenerationID (es_currentID _)); [|by simplify_eq/=; stays].
  destruct (want =? _); [|by simplify_eq/=; stays]. cbn [negb] in H.
  destruct (negb (bool_decide (d_files d !! _ = None))) eqn:Hnone; [by simplify_eq/=; stays|].
  to_prop. apply parse_inv in Hw as [Hname Hk].
  assert (staged_name d next) as Hst by (split; eauto).
  unfold bind at 1, modify_disk, on_error in H. rewrite Hn in H. cbn [fst snd] in H.
  change (set_files (<[journalName next := mkFile [] 0]> (d_files d)) d)
    with (with_file next (mkFile [] 0) d) in H.
  assert (forall f h2 d2, (remove_journal io next (h, with_file next f d)).2 = (h2, d2) ->
            h2 = h /\ (d2 = d \/ exists f, d2 = with_file next f d)) as Hrm.
  { intros f h2 d2 E. pose proof (remove_run io next f h d (d_meta d) Hnone) as Hr.
    rewrite set_meta_id in Hr by done. rewrite E in Hr. simplify_eq. split; [done|].
    destruct (io_remove io); rewrite set_meta_id by done; eauto. }
  destruct (io_open io); cbn [negb] in H.
  2: { injection H as <- E. apply Hrm in E as [-> Hd]. split; [done|]. left. naive_solver. }
  unfold jsonl_Append in H. cbn [jf_records jf_torn app] in H.
  change (file_size json_size (mkFile [] 0) =? 0) with true in H. cbn [negb] in H.
  unfold bind, ret in H. cbn [fst snd] in H.
  destruct (io_append io); cbn [fst snd] in H; rewrite with_file_twice in H;
    [ injection H as <- <- <-; split; [done|]; by right
    | | | ];
    injection H as <- E; apply Hrm in E as [-> Hd]; (split; [done|]); left; naive_solver.
Qed.

Lemma rollover_fact_boundary h compacted summary automatic usage :
  is_boundary_fact (rollover_fact h compacted summary automatic usage) = true.
Proof. by destruct compacted. Qed.

(** A commit prepared for a rollover, as the directory will have it. *)
Lemma prepare_rollover io h f d p pre tail st c cand :
  published d p pre tail st -> synced p pre st h ->
  prepareCommit json_size io id (h_eventStore h) [f] = Ok c ->
  candidate_of id (h_state h) (mkScanned c (f_ToGenerationID f) 0 1) = Ok cand ->
  exists st', applyCommit id st (first_record (f_ToGenerationID f) c) = Ok st' /\
    validated id c /\ c_Facts c = [f] /\ (exists n, json_size c = Some n) /\
    over_projection (set_cursor_offsets (line c)) cand =
      over_projection (advanceProjectionRevision (c_At c)) st' /\
    valid_projection (advanceProjectionRevision (c_At c) (s_Projection st')) id = true.
Proof.
  intros Hp Hsync Hc Hcand. pose proof (synced_models _ _ _ _ _ _ Hp Hsync) as Hm.
  destruct Hsync as [[u Hu] _].
  apply prepareCommit_inv in Hc as (_ & Hcdef & Hv & Hn).
  apply candidate_inv in Hcand as (s' & Ha & -> & Hvalid); [|done].
  rewrite Hu, applyCommit_touch in Ha.
  pose proof (applyCommit_extent id c _ _ _ 0 (line c) st s' Ha) as Ha'.
  destruct (applyCommit_cursor id _ _ _ Ha) as [Hk Huk].
  exists (over_projection (set_cursor_offsets (line c)) s').
  split; [exact Ha'|]. split; [done|]. split; [by rewrite Hcdef|]. split; [done|]. split; [done|].
  pose proof (line_size_pos json_size json_size_nonneg c).
  apply (valid_offset _ id (line c)) in Hvalid; [exact Hvalid| |lia]. cbn. by rewrite Hk, Huk.
Qed.

(** What a rollover may leave: the same records and metadata, perhaps with a
    staged file; the new metadata, with its journal or without; or the new
    generation in memory too. *)
Definition rollover_result (next : string) (h h' : Handle) (d d' : Disk) (c : Commit)
    (st' : ReplayState) : Prop :=
  let state := over_projection (advanceProjectionRevision (c_At c)) st' in
  let meta := set_meta (MetaProjection (s_Projection state)) in
  let written := with_file next (mkFile [c] 0) d in
  h' = h /\ (d' = d \/ d' = written \/ d' = meta d \/ d' = meta written) \/
  h' = set_eventStore (mkEventStore next true (line c) (wrap_uint64 (c_Seq c + 1)))
         (set_state state h) /\ d' = meta written.

Lemma beginGeneration_cases io compacted summary automatic usage h d p pre tail st r h' d' :
  published d p pre tail st -> h_ID h = id -> synced p pre st h ->
  beginGeneration json_size io compacted summary automatic usage (h, d) = (r, (h', d')) ->
  let f := rollover_fact h compacted summary automatic usage in
  let next := f_ToGenerationID f in
  h' = h /\ (d' = d \/ staged_name d next /\ exists x, d' = with_file next x d) \/
  exists c st', staged_name d next /\ c_Facts c = [f] /\ validated id c /\
    applyCommit id st (first_record next c) = Ok st' /\
    valid_projection (advanceProjectionRevision (c_At c) (s_Projection st')) id = true /\
    rollover_result next h h' d d' c st'.
Proof.
  intros Hp Hid Hsync H f next. unfold beginGeneration, bind at 1, get_handle in H. cbn [fst] in H.
  fold f next in H.
  match type of H with bind (guard_open h) (fun _ => bind _ (fun _ => ?k)) _ = _ =>
    destruct (guarded_run h d k) as [(_ & _ & E)|(_ & e & E)]; rewrite E in H; clear E end;
    [|by simplify_eq; auto].
  unfold bind at 1, guard_active, fail, ret in H.
  destruct (negb (bool_decide (p_RetentionState _ = _))); [by simplify_eq; auto|].
  unfold bind at 1, lift in H. rewrite Hid in H.
  destruct (prepareCommit json_size io id (h_eventStore h) [f]) as [c|] eqn:Hc; [|by simplify_eq; auto].
  unfold bind at 1 in H.
  destruct (candidate_of id (h_state h) (mkScanned c next 0 1)) as [cand|] eqn:Hcand;
    [|by simplify_eq; auto].
  destruct (prepare_rollover io h f d p pre tail st c cand Hp Hsync Hc Hcand)
    as (st' & Happ & Hv & Hfs & Hn & Hst & Hvalid).
  unfold bind at 1 in H.
  destruct (stageNextGeneration json_size io c next (h, d)) as [r1 [h1 d1]] eqn:Hstage.
  destruct (stage_cases io c next h d r1 h1 d1 Hn Hstage) as [-> [(e & -> & Hd)|(-> & Hnone & ->)]].
  { simplify_eq. left. auto. }
  right. exists c, st'. do 5 (split; [done|]).
  change (sc_EndOffset (first_record next c)) with (line c) in H. rewrite Hst in H.
  unfold rollover_result. set (state := over_projection _ st') in *.
  set (written := with_file next (mkFile [c] 0) d) in *.
  assert (validateProjectionMetadata (s_Projection state) id = Ok tt) as Hval.
  { unfold validateProjectionMetadata.
    by assert (valid_projection (s_Projection state) id = true) as -> by exact Hvalid. }
  unfold bind at 1, on_error in H. unfold bind at 1 in H. rewrite Hval in H.
  destruct (persistProjectionValueLocked io (s_Projection state) (h, written)) as [r2 [h2 d2]] eqn:Hper.
  destruct (persist_cases io (s_Projection state) h written r2 h2 d2 Hid Hvalid Hper) as [-> Hd2].
  destruct r2 as [[]|e2].
  - destruct Hd2 as [[_ ?]| ->]; [done|]. right.
    unfold bind, modify_handle, activate, modify_handle, updateIndex, ret, fail in H.
    destruct (io_close io), (io_index io); by simplify_eq/=.
  - left. pose proof (fun m => remove_run io next (mkFile [c] 0) h d m (proj1 Hnone)) as Hrm.
    fold written in Hrm. destruct Hd2 as [[-> _]| ->].
    + rewrite <- (set_meta_id written (d_meta d)) in H by done. rewrite Hrm in H.
      destruct (io_remove io); simplify_eq; (split; [done|]); rewrite set_meta_id by done; auto.
    + rewrite Hrm in H. destruct (io_remove io); simplify_eq; auto.
Qed.

Lemma beginGeneration_evolves io compacted summary automatic usage h d p pre tail st r h' d' :
  published d p pre tail st -> handle_ok p pre tail st h ->
  beginGeneration json_size io compacted summary automatic usage (h, d) = (r, (h', d')) ->
  evolves p pre tail st h' d' /\ grows p d d'.
Proof.
  intros Hp Hh H.
  assert (evolves p pre tail st h d /\ grows p d d) as Hsame
    by (split; [by apply evolves_same|apply grows_refl]).
  destruct (is_open h && current h d) eqn:Hoc.
  2: { apply andb_false_iff in Hoc.
    destruct (beginGeneration_stale json_size io compacted summary automatic usage h d Hoc) as [e E].
    rewrite E in H. by simplify_eq. }
  apply andb_true_iff in Hoc as [Ho Hc].
  destruct (current_synced json_size id d p pre tail st h Hp Hh Ho Hc) as [Hsync _].
  destruct (beginGeneration_cases io compacted summary automatic usage h d p pre tail st r h' d'
              Hp (proj1 Hh) Hsync H) as [[-> [->|[Hst [x ->]]]]|(c & st' & Hst & Hfs & Hv & Happ & Hvalid & Hres)];
    [done| |].
  { split; [|by apply grows_extra]. apply evolves_same; [by apply published_extra|done]. }
  set (f := rollover_fact h compacted summary automatic usage) in *.
  destruct (published_rollover json_size id id_valid d p pre tail st f c st' (c_At c) Hp Hfs
              (rollover_fact_boundary h compacted summary automatic usage) Hv (proj1 Hst) Happ Hvalid)
    as (Hp' & Hg & Hgs & Hr & Hx).
  fold (with_file (f_ToGenerationID f) (mkFile [c] 0) d) in Hp'.
  assert (grows p d (with_file (f_ToGenerationID f) (mkFile [c] 0) d)) as Hgrow
    by (by apply grows_extra).
  unfold is_open in Ho. apply andb_true_iff in Ho as [_ Hcur].
  destruct Hres as [[-> [->|[->|[->| ->]]]]|[-> ->]]; [done| | | |].
  - split; [|done]. apply evolves_same; [by apply published_extra|done].
  - split; [|apply grows_files; done]. right. split; [|split; [by eexists|split; [by apply Hx|]]].
    + eexists. split; [done|]. split; [exact Hvalid|]. cbn.
      change (g_ID (p_CurrentGeneration (s_Projection st')) = f_ToGenerationID f) in Hg.
      rewrite Hg. apply Hst.
    + intros x Hxx. by apply (Hx x Hxx).
  - split; [|done]. left. eexists _, [c], [], _. split; [exact Hp'|].
    split; [by apply Hx|]. split; [lia|]. split; [done|]. intros x Hxx. by apply Hx.
  - split; [|done]. left. eexists _, [c], [], _. split; [exact Hp'|]. split.
    + apply (handle_synced _ _ _ _ c); try done; [by destruct Hh|].
      cbn. change (g_ID (p_CurrentGeneration (s_Projection st')) = f_ToGenerationID f) in Hg.
      rewrite Hg. unfold store_at, ThreadStoreInv.store_at, seq_after. f_equal. cbn. lia.
    + split; [lia|]. split; [done|]. intros x Hxx. by apply Hx.
Qed.
End Operations.
