(* ===== verification/ThreadStoreOpen.v ===== *)
(** * Thread storage: opening, and the invariant of every run

    Opening a published directory returns a handle in step with it; with the
    methods of [ThreadStoreOps.v] this gives the invariant of every reachable
    system of a directory and its handles. *)

From S2P Require Import Prelude GoStd Llm Events ThreadTypes ThreadFacts ThreadStore ThreadReplay ThreadStoreInv ThreadStoreOps.
From stdpp Require Import sorting.

Local Open Scope Z_scope.
Local Open Scope juex_scope.

Section Opening.
  Context (json_size : Commit -> option Z).
  Context (json_size_nonneg : forall c n, json_size c = Some n -> 0 <= n).
  Context (id : string) (id_valid : ValidID id = true).

Abbreviation line := (line_size json_size).
Abbreviation scanned := (scan json_size).
Abbreviation total := (records_size json_size).
Abbreviation published := (published json_size id).
Abbreviation handle_ok := (handle_ok json_size id).
Abbreviation synced := (synced json_size).
Abbreviation evolves := (evolves json_size id).
Abbreviation record_after := (record_after json_size).
Abbreviation appendable := (appendable json_size id).
Abbreviation store_at := (store_at json_size).
Abbreviation invariant := (invariant json_size id).
Abbreviation current_name p := (journalName (g_ID (p_CurrentGeneration p))).

(** ** The directory layout *)

(** Only unregistered files may disappear. *)
Definition swept (wanted : list string) (files files' : gmap string JournalFile) : Prop :=
  (forall name, name ∈ wanted -> files' !! name = files !! name) /\
  (forall name, is_Some (files' !! name) -> is_Some (files !! name)).

Lemma layout_loop_swept io wanted lastOrdinal names removed files r files' :
  layout_loop io wanted lastOrdinal names removed files = (r, files') -> swept wanted files files'.
Proof.
  revert removed files. induction names as [|name rest IH]; intros removed files H; simpl in H.
  { simplify_eq. by split. }
  destruct (bool_decide (name ∈ wanted)) eqn:Hw; [by eapply IH|]. to_prop.
  destruct (parseGenerationID (trim_jsonl name)) as [ordinal|]; [|by simplify_eq].
  destruct (_ || _); [by simplify_eq|].
  destruct (bool_decide (io_layout io = IoFail)); [by simplify_eq|].
  apply IH in H as [H1 H2]. split.
  - intros x Hx. rewrite (H1 x Hx). apply lookup_delete_ne. by intros ->.
  - intros x Hx. apply H2 in Hx as [y Hy]. apply lookup_delete_Some in Hy as [_ Hy]. eauto.
Qed.

Definition wanted_names (p : Projection) : list string :=
  map (fun g => journalName (g_ID g)) (p_Generations p).

Lemma recoverLayout_swept io p files r files' :
  recoverGenerationLayout io (p_Generations p) files = (r, files') ->
  swept (wanted_names p) files files' /\
  (r = Ok tt -> forall name, name ∈ wanted_names p -> is_Some (files' !! name)).
Proof.
  unfold recoverGenerationLayout. fold (wanted_names p). intros H.
  destruct (layout_loop io (wanted_names p) _ _ false files) as [[removed|e] files1] eqn:Hl.
  2: { simplify_eq. split; [by eapply layout_loop_swept|done]. }
  apply layout_loop_swept in Hl.
  destruct (existsb _ (wanted_names p)) eqn:He; [by simplify_eq|].
  assert (forall name, name ∈ wanted_names p -> is_Some (files1 !! name)) as Hall.
  { intros name Hn. destruct (files1 !! name) as [f|] eqn:Hf; [eauto|].
    enough (existsb (fun name => bool_decide (files1 !! name = None)) (wanted_names p) = true)
      by congruence.
    apply existsb_exists. exists name. rewrite <- list_elem_of_In. split; [done|].
    by apply bool_decide_eq_true_2. }
  destruct (_ && _); by simplify_eq.
Qed.

Lemma current_wanted p : last (p_Generations p) = Some (p_CurrentGeneration p) ->
  p_CurrentGeneration p ∈ p_Generations p /\ current_name p ∈ wanted_names p.
Proof.
  intros H. assert (p_CurrentGeneration p ∈ p_Generations p) as Hin
    by (by apply last_Some_elem_of).
  split; [done|]. apply list_elem_of_fmap. eauto.
Qed.

Lemma published_swept d p pre tail st files' :
  published d p pre tail st -> swept (wanted_names p) (d_files d) files' ->
  published (set_files files' d) p pre tail st.
Proof.
  intros Hp [H1 H2]. pose proof Hp as []. destruct pub_layout as [L1 L2].
  destruct (current_wanted p) as [Hin Hwant].
  { destruct pub_live. by rewrite pub_proj in *. }
  split; auto.
  - cbn. by rewrite (H1 _ Hwant).
  - split; [|auto]. intros g Hg. cbn. rewrite H1; [auto|]. apply list_elem_of_fmap. eauto.
Qed.

Lemma grows_swept p d files' : swept (wanted_names p) (d_files d) files' ->
  grows p d (set_files files' d).
Proof.
  intros [H1 _] g f Hg Hf. cbn. rewrite H1; [eauto|]. apply list_elem_of_fmap. eauto.
Qed.

(** ** The published prefix *)

Lemma split_before g off before l : forall acc k,
  k_Offset k = off + total before -> before <> [] ->
  k = commit_cursor (mkScanned (List.last before l) g
        (off + total (removelast before)) (off + total before)) ->
  forall rest, split_loop acc (scanned g off (before ++ rest)) k =
    match scanned g (off + total before) rest with
    | [] => Ok (acc ++ scanned g off before, [])
    | [u] => if usageOnlyCommit u then Ok (acc ++ scanned g off before, [u])
             else Err ErrInvalidMetadata
    | _ => Err ErrInvalidMetadata
    end.
Proof.
  revert off. induction before as [|c before IH]; intros off acc k Hk Hne Heq rest; [done|].
  cbn [app scan split_loop].
  destruct before as [|c' before].
  - assert (commit_cursor (mkScanned c g off (off + line c)) = k) as ->.
    { rewrite Heq. unfold commit_cursor. cbn. f_equal. lia. }
    rewrite bool_decide_eq_true_2 by done. cbn [negb app]. simpl (total [c]). rewrite Z.add_0_r.
    by destruct (scanned g (off + line c) rest) as [|u [|]].
  - pose proof (line_size_pos json_size json_size_nonneg c').
    pose proof (records_size_nonneg json_size json_size_nonneg before).
    rewrite bool_decide_eq_false_2.
    2: { intros E. apply (f_equal k_Offset) in E. rewrite Hk in E. cbn in E. lia. }
    cbn [negb]. rewrite (IH (off + line c) (acc ++ [mkScanned c g off (off + line c)]) k).
    + rewrite <- app_assoc. cbn [scan app].
      replace (off + line c + total (c' :: before)) with (off + total (c :: c' :: before))
        by (simpl; lia). done.
    + rewrite Hk. simpl. lia.
    + done.
    + rewrite Heq. unfold commit_cursor. cbn. f_equal. lia.
Qed.

Lemma split_published d p pre tail st :
  published d p pre tail st ->
  splitCommitsAtCursor (scanned (g_ID (p_CurrentGeneration p)) 0 (pre ++ tail)) (p_EventCursor p) =
  match tail with
  | [] => Ok (scanned (g_ID (p_CurrentGeneration p)) 0 pre, [])
  | c :: _ =>
    let u := record_after (g_ID (p_CurrentGeneration p)) pre c in
    if usageOnlyCommit u then Ok (scanned (g_ID (p_CurrentGeneration p)) 0 pre, [u])
    else Err ErrInvalidMetadata
  end.
Proof.
  intros Hp. destruct (pub_last json_size id d p pre tail st Hp) as (l & c & Hpre & Hk).
  unfold splitCommitsAtCursor.
  rewrite (split_before (g_ID (p_CurrentGeneration p)) 0 pre c [] (p_EventCursor p)).
  - pose proof (pub_tail _ _ _ _ _ _ _ Hp) as Hl.
    destruct tail as [|c1 [|]]; [done| |simpl in Hl; lia]. done.
  - by rewrite Hk.
  - by rewrite Hpre; destruct l.
  - rewrite Hk, Hpre, last_last. done.
Qed.

(** ** Opening a published directory *)

Lemma last_scan g l c : last l = Some c ->
  last (scanned g 0 l) = Some (mkScanned c g (total (removelast l)) (total l)).
Proof.
  intros [l' ->]%last_Some. rewrite scan_snoc, last_snoc, removelast_last. unfold record_after.
  unfold ThreadStoreInv.record_after. rewrite records_size_app. do 2 f_equal. simpl. lia.
Qed.

(** The unpublished record, if it is a usage record, is one that may follow. *)
Lemma tail_appendable d p pre c st st' :
  published d p pre [c] st ->
  usageOnlyCommit (record_after (g_ID (p_CurrentGeneration p)) pre c) = true ->
  applyCommit id st (record_after (g_ID (p_CurrentGeneration p)) pre c) = Ok st' ->
  appendable p pre st c st'.
Proof.
  intros Hp Hu Ha. destruct (pub_last json_size id d p pre [c] st Hp) as (l & c0 & Hpre & _).
  pose proof (pub_read _ _ _ _ _ _ _ Hp) as Hr.
  pose proof (read_commits_validated id _ _ Hr) as Hv.
  split; [|..|done].
  - exists c0. rewrite Hpre, last_snoc. split; [done|].
    rewrite scan_snoc in Hr. pose proof (read_commits_last id _ _ _ Hr) as Hseq.
    rewrite read_commits_app in Hr.
    destruct (read_commits id _ (scanned _ 0 pre)) as [[]|] eqn:Hr0; [|done].
    rewrite Hpre, scan_snoc in Hr0, Hseq. apply read_commits_last in Hr0.
    rewrite foldl_app in Hseq. cbn [foldl] in Hseq. rewrite <- Hr0 in Hseq. done.
  - rewrite scan_snoc, Forall_app, Forall_singleton in Hv. by destruct Hv.
  - unfold usageOnlyCommit in Hu. apply andb_true_iff in Hu as [_ Hu].
    rewrite forallb_forall in Hu. unfold opens_commit.
    destruct (existsb opens _) eqn:He; [|done]. apply existsb_exists in He as (f & Hin & Hf).
    specialize (Hu f Hin). to_prop. unfold opens in Hf. by rewrite Hu in Hf.
Qed.

(** The store and the state an opening returns. *)
Inductive opening (p : Projection) (pre tail : list Commit) (st : ReplayState) :
    EventStore -> ReplayState -> bool -> Prop :=
| opening_clean c :
    tail = [] -> last pre = Some c ->
    opening p pre tail st (store_at (g_ID (p_CurrentGeneration p)) pre c) st false
| opening_recovered c st' u :
    tail = [c] -> appendable p pre st c st' ->
    valid_projection (advanceProjectionRevision u (s_Projection st')) id = true ->
    usageOnlyCommit (record_after (g_ID (p_CurrentGeneration p)) pre c) = true ->
    opening p pre tail st (store_at (g_ID (p_CurrentGeneration p)) (pre ++ [c]) c)
      (over_projection (advanceProjectionRevision u) st') true.

Lemma openEventStore_cases io d p pre tail st r files' :
  published d p pre tail st ->
  openEventStore json_size io id p (d_files d) = (r, files') ->
  published (set_files files' d) p pre tail st /\ grows p d (set_files files' d) /\
  forall store s recovered, r = Ok (store, s, recovered) -> opening p pre tail st store s recovered.
Proof.
  intros Hp H. unfold openEventStore in H.
  destruct (recoverGenerationLayout io (p_Generations p) (d_files d)) as [r1 files1] eqn:Hl.
  destruct (recoverLayout_swept io p _ r1 files1 Hl) as [Hsw _].
  pose proof (published_swept d p pre tail st files1 Hp Hsw) as Hp1.
  pose proof (grows_swept p d files1 Hsw) as Hg1.
  destruct r1 as [[]|e]; [|by simplify_eq].
  unfold openGenerationFile in H. destruct (io_open io); cbn [negb] in H; [|by simplify_eq].
  destruct (pub_file _ _ _ _ _ _ _ Hp1) as (torn & Ht & Hf). cbn in Hf.
  rewrite Hf in H. cbn [from_option Datatypes.id jf_records] in H.
  assert (set_files (<[current_name p := mkFile (pre ++ tail) 0]> files1) d =
          with_current p (pre ++ tail) 0 (set_files files1 d)) as Hd2 by done.
  assert (published (set_files (<[current_name p := mkFile (pre ++ tail) 0]> files1) d) p pre tail st)
    as Hp2 by (rewrite Hd2; by apply published_torn).
  assert (grows p d (set_files (<[current_name p := mkFile (pre ++ tail) 0]> files1) d)) as Hg2.
  { intros g f Hgin Hgf. destruct (Hg1 g f Hgin Hgf) as (f1 & Hf1 & Hpre1).
    destruct (grows_current json_size id (set_files files1 d) p pre tail st (pre ++ tail) 0 Hp1
                ltac:(done) g f1 Hgin Hf1) as (f2 & Hf2 & Hpre2).
    exists f2. split; [done|]. by etransitivity. }
  unfold readGenerationCommits in H. cbn [jf_records] in H.
  rewrite (pub_read _ _ _ _ _ _ _ Hp) in H. cbn [rbind] in H.
  destruct (pub_last json_size id d p pre tail st Hp) as (l & c0 & Hpre & Hk).
  assert (exists lc, last (pre ++ tail) = Some lc) as [lc Hlc].
  { destruct (last (pre ++ tail)) as [lc|] eqn:E; [eauto|]. apply last_None in E.
    apply app_eq_nil in E as [E _]. rewrite Hpre in E. by destruct l. }
  destruct (Nat.eqb (length (scanned _ 0 (pre ++ tail))) 0) eqn:Hlen.
  { apply Nat.eqb_eq in Hlen. rewrite scan_length, Hpre, !length_app in Hlen. simpl in Hlen. lia. }
  cbn [rbind] in H. injection H as Hr <-. split; [done|]. split; [done|].
  intros store s recovered ->. rewrite (split_published d p pre tail st Hp) in Hr.
  rewrite (last_scan _ _ lc Hlc) in Hr. cbn [sc_Commit] in Hr.
  unfold file_size in Hr. cbn [jf_records jf_torn] in Hr. rewrite Z.add_0_r in Hr.
  destruct tail as [|c tail].
  - cbn [rbind fst snd] in Hr. rewrite (pub_replay _ _ _ _ _ _ _ Hp) in Hr. cbn [rbind] in Hr.
    unfold recoverUsageAggregate in Hr.
    rewrite (pub_proj _ _ _ _ _ _ _ Hp), (pub_usage _ _ _ _ _ _ _ Hp) in Hr.
    rewrite bool_decide_eq_true_2 in Hr by done. cbn [rbind fst snd apply_tail recovered_revision] in Hr.
    destruct (validateProjectionMetadata _ _); [|done]. simpl in Hr. simplify_eq.
    rewrite app_nil_r in *. by constructor.
  - assert (tail = []) as ->.
    { pose proof (pub_tail _ _ _ _ _ _ _ Hp) as Hl1. destruct tail; [done|simpl in Hl1; lia]. }
    destruct (usageOnlyCommit _) eqn:Hu; [|done].
    cbn [rbind fst snd] in Hr. rewrite (pub_replay _ _ _ _ _ _ _ Hp) in Hr. cbn [rbind] in Hr.
    unfold recoverUsageAggregate in Hr.
    rewrite (pub_proj _ _ _ _ _ _ _ Hp), (pub_usage _ _ _ _ _ _ _ Hp) in Hr.
    rewrite bool_decide_eq_true_2 in Hr by done. cbn [rbind fst snd apply_tail] in Hr.
    destruct (applyCommit id st _) as [st'|] eqn:Ha; [|done]. cbn [rbind fst snd recovered_revision] in Hr.
    destruct (validateProjectionMetadata _ _) as [[]|] eqn:Hv; [|done]. simpl in Hr.
    rewrite last_snoc in Hlc. simplify_eq.
    apply check_inv in Hv. econstructor; [done| |exact Hv|done].
    by apply (tail_appendable d).
Qed.

(** ** Opening keeps the invariant *)

(** The journals registered before are there and registered, with at least
    their records. *)
Definition history_kept (d d' : Disk) : Prop :=
  forall p, d_meta d = MetaProjection p -> grows p d d' /\ registers p d'.

Lemma history_kept_files d d' : d_meta d' = d_meta d ->
  (forall p, d_meta d = MetaProjection p -> grows p d d') -> history_kept d d'.
Proof. intros Hm Hg p Hp. split; [by apply Hg|]. exists p. by rewrite Hm. Qed.

Lemma history_kept_refl d : history_kept d d.
Proof. apply history_kept_files; [done|]. intros p _. apply grows_refl. Qed.

Lemma published_kept d p pre tail st d' p' pre' tail' st' :
  published d p pre tail st -> published d' p' pre' tail' st' ->
  p_Generations p `prefix_of` p_Generations p' -> grows p d d' -> history_kept d d'.
Proof.
  intros Hp Hp' Hgs Hg q Hq. rewrite (pub_meta _ _ _ _ _ _ _ Hp) in Hq. injection Hq as <-.
  split; [done|]. exists p'. split; [|done]. by rewrite (pub_meta _ _ _ _ _ _ _ Hp').
Qed.

Lemma published_invariant d p pre tail st hs :
  published d p pre tail st -> Forall (handle_ok p pre tail st) hs -> invariant d hs.
Proof. intros Hp Hhs. left. eauto 6. Qed.

Lemma lost_invariant d hs : lost id d -> Forall (stale d) hs -> invariant d hs.
Proof. by right. Qed.

Lemma open_published io archived d p pre tail st hs r d' :
  published d p pre tail st -> Forall (handle_ok p pre tail st) hs ->
  openLocked json_size io archived id d = (r, d') ->
  (exists p' pre' tail' st', published d' p' pre' tail' st' /\
     p_Generations p `prefix_of` p_Generations p' /\
     Forall (handle_ok p' pre' tail' st') (hs ++ opened r)) /\ grows p d d'.
Proof.
  intros Hp Hhs H.
  assert (forall e d2, published d2 p pre tail st -> grows p d d2 -> (Err e, d2) = (r, d') ->
    (exists p' pre' tail' st', published d' p' pre' tail' st' /\
       p_Generations p `prefix_of` p_Generations p' /\
       Forall (handle_ok p' pre' tail' st') (hs ++ opened r)) /\ grows p d d') as Hfail.
  { intros e d2 Hp2 Hg2 E. simplify_eq. split; [|done]. exists p, pre, tail, st.
    cbn [opened]. by rewrite app_nil_r. }
  pose proof (grows_refl p d) as Hg0.
  unfold openLocked in H. rewrite id_valid in H. cbn [negb] in H.
  destruct (readProjectionFile archived id d) as [metadata|e] eqn:Hread; [|by eapply Hfail].
  assert (metadata = p) as ->.
  { unfold readProjectionFile in Hread. destruct (negb _); [done|].
    rewrite (pub_meta _ _ _ _ _ _ _ Hp) in Hread.
    destruct (validateProjectionMetadata p id); [|done]. simpl in Hread. by simplify_eq. }
  destruct (negb (Bool.eqb _ archived)); [by eapply Hfail|].
  destruct (openEventStore json_size io id p (d_files d)) as [r1 files1] eqn:Hes.
  destruct (openEventStore_cases io d p pre tail st r1 files1 Hp Hes) as (Hp1 & Hg1 & Hop).
  destruct r1 as [[[store s] recovered]|e]; [|by eapply Hfail].
  destruct (io_renewal io); cbn [negb] in H; [|by eapply Hfail].
  specialize (Hop store s recovered eq_refl).
  destruct Hop as [c Htail Hlast|c st' u Htail Happ Hv _].
  - unfold bind, ret, updateIndex, fail in H. destruct (io_index io); [|by eapply Hfail].
    cbn [snd ret] in H. injection H as <- <-. split; [|done]. exists p, pre, tail, st.
    split; [done|]. split; [done|]. cbn [opened]. apply Forall_app. split; [done|].
    apply Forall_singleton. split; [done|]. right. split; [done|]. right. right. left.
    unfold h_rev, h_projection. cbn. rewrite (pub_proj _ _ _ _ _ _ _ Hp). split; [done|]. split.
    + eexists. symmetry. apply touch_self.
    + exists c. auto.
  - subst tail.
    destruct (published_promote json_size id id_valid (set_files files1 d) p pre st c st' u
                Hp1 Happ Hv) as (Hp2 & Hg & Hgs & Hr & Hx).
    unfold bind in H.
    match type of H with context [persistProjectionValueLocked io ?q ?w] =>
      destruct (persistProjectionValueLocked io q w) as [r2 [h2 d2]] eqn:Hper end.
    destruct (persist_cases id io _ _ _ r2 h2 d2 (eq_refl : h_ID (mkHandle _ _ _ _ _) = _) Hv Hper)
      as [-> Hd2].
    destruct Hd2 as [[-> Hr2]| ->].
    + destruct r2; [done|]. by eapply Hfail.
    + assert (forall hs2, Forall (handle_ok p pre [c] st) hs2 ->
        Forall (handle_ok (advanceProjectionRevision u (s_Projection st')) (pre ++ [c]) []
          (set_projection (advanceProjectionRevision u (s_Projection st')) st')) hs2) as Hmap
        by (intros hs2 Hhs2; eapply Forall_impl; [exact Hhs2|exact Hx]).
      destruct r2 as [[]|e2].
      * unfold updateIndex, ret, fail in H. destruct (io_index io); injection H as <- <-;
          (split; [|done]); eexists _, (pre ++ [c]), [], _; (split; [exact Hp2|]);
          (split; [by rewrite Hgs|]); cbn [opened]; rewrite ?app_nil_r; [|by apply Hmap].
        apply Forall_app. split; [by apply Hmap|]. apply Forall_singleton.
        apply (handle_synced json_size id _ _ _ _ c); try done; [by rewrite last_snoc|].
        cbn [h_eventStore]. by rewrite Hg.
      * injection H as <- <-. split; [|done]. eexists _, (pre ++ [c]), [], _.
        split; [exact Hp2|]. split; [by rewrite Hgs|]. cbn [opened]. rewrite app_nil_r. by apply Hmap.
Qed.

Lemma open_lost io archived d r d' :
  lost id d -> openLocked json_size io archived id d = (r, d') ->
  lost id d' /\ opened r = [] /\ d_meta d' = d_meta d /\ history_kept d d'.
Proof.
  intros (p & Hm & Hv & Hn) H.
  assert (lost id d) as Hlost by (exists p; auto).
  pose proof (history_kept_refl d) as Hkeep.
  unfold openLocked in H. rewrite id_valid in H. cbn [negb] in H.
  destruct (readProjectionFile archived id d) as [metadata|e] eqn:Hread; [|by simplify_eq].
  assert (metadata = p) as ->.
  { unfold readProjectionFile in Hread. destruct (negb _); [done|]. rewrite Hm in Hread.
    destruct (validateProjectionMetadata p id); [|done]. simpl in Hread. by simplify_eq. }
  destruct (negb (Bool.eqb _ archived)); [by simplify_eq|].
  unfold openEventStore in H.
  destruct (recoverGenerationLayout io (p_Generations p) (d_files d)) as [r1 files1] eqn:Hl.
  destruct (recoverLayout_swept io p _ r1 files1 Hl) as [[H1 H2] Hall].
  destruct r1 as [[]|e].
  - exfalso. destruct (current_wanted p) as [_ Hw].
    { clear -Hv. unfold valid_projection in Hv. by to_prop. }
    destruct (Hall eq_refl _ Hw) as [f Hf]. rewrite (H1 _ Hw), Hn in Hf. done.
  - simplify_eq. split; [|split; [done|split; [done|]]].
    + exists p. split; [done|]. split; [done|]. cbn.
      destruct (files1 !! _) as [f|] eqn:Hf; [|done].
      destruct (H2 (current_name p)) as [x Hx]; [eauto|]. congruence.
    + apply history_kept_files; [done|].
      intros q Hq. rewrite Hm in Hq. injection Hq as <-. by apply grows_swept.
Qed.

Lemma stale_meta d d' h : d_meta d' = d_meta d -> stale d h -> stale d' h.
Proof. unfold stale. by intros ->. Qed.

Lemma openLocked_keeps io archived d hs r d' :
  invariant d hs -> openLocked json_size io archived id d = (r, d') ->
  invariant d' (hs ++ opened r) /\ history_kept d d'.
Proof.
  intros [(p & pre & tail & st & Hp & Hhs)|[Hl Hhs]] H.
  - destruct (open_published io archived d p pre tail st hs r d' Hp Hhs H)
      as [(p' & pre' & tail' & st' & Hp' & Hgs & Hhs') Hg].
    split; [by eapply published_invariant|]. by eapply published_kept.
  - destruct (open_lost io archived d r d' Hl H) as (Hl' & -> & Hm & Hk). split; [|done].
    rewrite app_nil_r. right. split; [done|]. eapply Forall_impl; [exact Hhs|].
    intros x. by apply stale_meta.
Qed.
End Opening.
