(* ===== verification/ThreadStoreProps.v ===== *)
(** * Thread storage: theorems about every reachable directory

    The invariant of all runs of a thread directory and its handles, and what
    it gives: a cold open restores what a current handle holds, history is
    append-only, stale handles write nothing, and a crash between the append
    and the metadata loses nothing and repeats nothing. *)

From S2P Require Import Prelude GoStd Llm Events ThreadTypes ThreadFacts ThreadStore ThreadReplay ThreadStoreInv ThreadStoreOps ThreadStoreOpen.
From stdpp Require Import sorting.

Local Open Scope Z_scope.
Local Open Scope juex_scope.

(** ** Creation *)

Section Creation.
  Context (json_size : Commit -> option Z).

(** The first record of a thread, and the state it gives. *)
Definition first_scanned (c : Commit) : scannedCommit :=
  mkScanned c InitialGeneration 0 (0 + line_size json_size c).

Definition first_state (io : Io) (id alias parent : string) (c : Commit) (s : ReplayState) : Prop :=
  ValidID id = true /\
  c = mkCommit JournalVersion 1 (NewTimestamp (io_now io)) [created_fact id alias parent] /\
  validated id c /\
  exists s0, replay id [first_scanned c] = Ok s0 /\
    s = over_projection (fun p => set_Revision 1 (p_UpdatedAt p) p) s0 /\
    valid_projection (s_Projection s) id = true.

Definition first_handle (id : string) (c : Commit) (s : ReplayState) : Handle :=
  mkHandle id false
    (mkEventStore InitialGeneration true (0 + line_size json_size c) (wrap_uint64 2)) s false.

(** A thread directory with its metadata, and its journal or no file. *)
Definition first_disk (c : Commit) (s : ReplayState) : Disk :=
  mkDisk false (MetaProjection (s_Projection s)) {[journalName InitialGeneration := mkFile [c] 0]}.
Definition first_stub (s : ReplayState) : Disk :=
  mkDisk false (MetaProjection (s_Projection s)) ∅.

(** How a creation ends: without a directory, with one that has no metadata, with
    one that has lost its journal, or with a published thread. *)
Inductive creation (io : Io) (id alias parent : string) :
    result ThreadError Handle -> option Disk -> Prop :=
| creation_none e : creation io id alias parent (Err e) None
| creation_bare e d : d_meta d = MetaAbsent -> d_archived d = false ->
    creation io id alias parent (Err e) (Some d)
| creation_stub e c s : first_state io id alias parent c s ->
    creation io id alias parent (Err e) (Some (first_stub s))
| creation_whole r c s : first_state io id alias parent c s ->
    opened r = [] \/ r = Ok (first_handle id c s) ->
    creation io id alias parent r (Some (first_disk c s)).

Lemma cleanup_bare io c id alias parent e files :
  creation io id alias parent (Err e) (cleanupCreatedThreadDir c (mkDisk false MetaAbsent files)).
Proof.
  unfold cleanupCreatedThreadDir. destruct (io_cleanup c) as [|[] keep]; constructor; done.
Qed.

(** What is left of a directory whose metadata is written. *)
Lemma cleanup_written io c id alias parent e k s : first_state io id alias parent k s ->
  creation io id alias parent (Err e) (cleanupCreatedThreadDir c (first_disk k s)).
Proof.
  intros Hs. unfold cleanupCreatedThreadDir. destruct (io_cleanup c) as [|[] keep]; [constructor| |by constructor].
  cbn [first_disk d_archived d_meta d_files]. rewrite map_filter_singleton. cbn.
  case_decide; [apply (creation_whole _ _ _ _ _ k s); [done|by left]|by apply (creation_stub _ _ _ _ _ k)].
Qed.

Lemma createLocked_cases io c id alias parent r left :
  createLocked json_size io c id alias parent = (r, left) -> creation io id alias parent r left.
Proof.
  unfold createLocked. destruct (io_mkdir c); [|by intros [= <- <-]; constructor..].
  unfold createEventStore. destruct (ValidID id) eqn:Hid; cbn [negb].
  2: { intros [= <- <-]. apply cleanup_bare. }
  rewrite lookup_empty, bool_decide_eq_true_2 by done. cbn [negb].
  destruct (io_open io); cbn [negb]; [|intros [= <- <-]; apply cleanup_bare].
  destruct (prepareCommit json_size io id _ _) as [k|e] eqn:Hk; [|intros [= <- <-]; apply cleanup_bare].
  apply prepareCommit_inv in Hk as (_ & Hkdef & Hv & _).
  unfold jsonl_Append. change (file_size json_size (mkFile [] 0) =? 0) with true. cbn [negb jf_records jf_torn app].
  destruct (io_append io); try (intros [= <- <-]; apply cleanup_bare).
  change (mkScanned k InitialGeneration 0 (0 + line_size json_size k)) with (first_scanned k).
  destruct (replay id [first_scanned k]) as [s0|e] eqn:Hr; [|intros [= <- <-]; apply cleanup_bare].
  set (s := over_projection _ s0). cbv zeta.
  unfold persistProjectionValueLocked, bind, get_handle, lift, validateProjectionMetadata, check. cbn [fst h_ID].
  destruct (valid_projection (s_Projection s) id) eqn:Hvalid; [|intros [= <- <-]; apply cleanup_bare].
  assert (first_state io id alias parent k s) as Hs.
  { split; [done|]. split; [done|]. split; [done|]. by exists s0. }
  unfold write_meta, modify_disk, bind, fail. rewrite insert_empty.
  destruct (io_meta io); cbn [snd set_meta d_archived d_files].
  - intros [= <- <-]. change (set_meta _ _) with (first_disk k s).
    apply (creation_whole _ _ _ _ _ k s); [done|]. destruct (io_index io); [by right|by left].
  - intros [= <- <-]. apply cleanup_bare.
  - intros [= <- <-]. by apply (cleanup_written io c id alias parent ErrIO k s).
Qed.
End Creation.

Section Runs.
  Context (json_size : Commit -> option Z).
  Context (json_size_nonneg : forall c n, json_size c = Some n -> 0 <= n).
  Context (id : string) (id_valid : ValidID id = true).

Abbreviation published := (published json_size id).
Abbreviation handle_ok := (handle_ok json_size id).
Abbreviation evolves := (evolves json_size id).
Abbreviation invariant := (invariant json_size id).

(** ** Calls *)

(** A method that only wraps [AppendFacts] or [beginGeneration]. *)
Lemma bind_ret_world {A B} (m : M A) (k : A -> B) w r w' :
  (do a <- m;; ret (k a)) w = (r, w') -> exists r0, m w = (r0, w').
Proof. unfold bind, ret. destruct (m w) as [[a|e] w2]; intros; simplify_eq; eauto. Qed.

Lemma call_evolves io c h d p pre tail st r h' d' :
  published d p pre tail st -> handle_ok p pre tail st h ->
  run_call json_size io c (h, d) = (r, (h', d')) ->
  evolves p pre tail st h' d' /\ grows p d d'.
Proof.
  intros Hp Hh H.
  assert (evolves p pre tail st h d /\ grows p d d) as Hsame
    by (split; [by apply evolves_same|apply grows_refl]).
  destruct c; cbn [run_call] in H; unfold discard_result in H.
  - apply (bind_ret_world _ (fun _ => tt)) in H as [r0 H].
    by apply (AppendFacts_evolves json_size json_size_nonneg id id_valid io facts h d p pre tail st r0).
  - apply (bind_ret_world _ (fun _ => tt)) in H as [r0 H].
    unfold appendBatchAssigned in H.
    destruct (Nat.eqb _ 0); [unfold ret in H; by simplify_eq|].
    unfold bind at 1, get_handle in H. cbn [fst] in H.
    destruct (h_closed h); [unfold fail in H; by simplify_eq|].
    apply (bind_ret_world _ (fun _ => imap (fun i m => prepareMessage (fresh i) m) messages)) in H as [r1 H].
    by eapply (AppendFacts_evolves json_size json_size_nonneg id id_valid).
  - unfold AppendEvent in H. destruct transient; [unfold ret in H; by simplify_eq|].
    unfold bind at 1, get_handle in H. cbn [fst] in H.
    destruct (existsb _ _); [unfold ret in H; by simplify_eq|].
    apply (bind_ret_world _ (fun _ => tt)) in H as [r0 H].
    by eapply (AppendFacts_evolves json_size json_size_nonneg id id_valid).
  - unfold RecordProviderUsage in H. destruct (_ && _); [unfold ret in H; by simplify_eq|].
    apply (bind_ret_world _ (fun _ => tt)) in H as [r0 H].
    by eapply (AppendFacts_evolves json_size json_size_nonneg id id_valid).
  - apply (bind_ret_world _ (fun _ => tt)) in H as [r0 H]. unfold BeginNewGeneration in H.
    by eapply (beginGeneration_evolves json_size json_size_nonneg id id_valid).
  - apply (bind_ret_world _ (fun _ => tt)) in H as [r0 H]. unfold BeginCompactedGeneration in H.
    by eapply (beginGeneration_evolves json_size json_size_nonneg id id_valid).
  - unfold ApplyAlias, fail in H. destruct (alias =?s ""); [by simplify_eq|].
    destruct (negb available); [by simplify_eq|]. unfold bind in H.
    destruct (mutateProjectionLocked io _ (h, d)) as [r1 [h1 d1]] eqn:Hm.
    destruct (mutate_evolves json_size json_size_nonneg id id_valid io _ h d p pre tail st r1 h1 d1 Hp Hh
                (fun _ q => same_journal_alias alias q) Hm) as (He & Hf & _).
    assert (h' = h1 /\ d' = d1) as [-> ->].
    { unfold updateIndex, ret, fail in H. destruct r1, (io_index io); by simplify_eq. }
    split; [by left|by apply grows_files].
  - destruct (SetPendingInputCount_evolves json_size json_size_nonneg id id_valid io count h d p pre tail st r h' d'
                Hp Hh H) as [He Hf]. split; [by left|by apply grows_files].
  - destruct (Archive_evolves json_size json_size_nonneg id id_valid io active_child h d p pre tail st r h' d'
                Hp Hh H) as [He Hf]. split; [by left|by apply grows_files].
  - destruct (Close_run io h d) as (r1 & h1 & E & Hid & _ & Hc). rewrite E in H. simplify_eq.
    split; [|apply grows_refl]. destruct Hh as [Hi ?].
    left. apply (continues_closed json_size id _ _ _ _ h); [by apply continues_same|congruence|done].
Qed.

(** The other handles after a call through one of them. *)
Lemma evolves_invariant p pre tail st h d hs :
  evolves p pre tail st h d -> Forall (handle_ok p pre tail st) hs -> invariant d (h :: hs).
Proof.
  intros [(p' & pre' & tail' & st' & Hp & Hh & _ & _ & Hx)|(Hl & _ & Hh & Hx)] Hhs.
  - left. exists p', pre', tail', st'. split; [done|]. constructor; [done|].
    eapply Forall_impl; [exact Hhs|exact Hx].
  - right. split; [done|]. constructor; [done|]. eapply Forall_impl; [exact Hhs|exact Hx].
Qed.

Lemma invariant_perm d hs hs' : hs ≡ₚ hs' -> invariant d hs -> invariant d hs'.
Proof.
  intros Hperm [(p & pre & tail & st & Hp & Hhs)|[Hl Hhs]].
  - left. exists p, pre, tail, st. by rewrite <- Hperm.
  - right. by rewrite <- Hperm.
Qed.

Lemma lost_call io c h d r h' d' : lost id d -> stale d h ->
  run_call json_size io c (h, d) = (r, (h', d')) -> d' = d /\ stale d h'.
Proof.
  intros Hl Hs H.
  destruct (stale_call json_size io c h d (lost_current id d h Hl Hs))
    as (r1 & h1 & E & Hh). rewrite E in H. injection H as <- <- <-. split; [done|].
  destruct Hh as [->|[_ Hc]]; [done|].
  destruct (Close_run io h d) as (r2 & h2 & E2 & _ & _ & Hcl). rewrite E2 in Hc. injection Hc as _ <-.
  by left.
Qed.

Lemma call_keeps io c i h d hs r h' d' :
  invariant d hs -> hs !! i = Some h -> run_call json_size io c (h, d) = (r, (h', d')) ->
  invariant d' (<[i := h']> hs) /\ history_kept d d'.
Proof.
  intros Hinv Hi H. apply list_elem_of_split_length in Hi as (l1 & l2 & -> & ->).
  rewrite insert_app_r_alt, Nat.sub_diag by lia. cbn [insert list_insert].
  assert (invariant d (h :: l1 ++ l2)) as Hinv'.
  { eapply invariant_perm; [|exact Hinv]. symmetry. apply Permutation_middle. }
  enough (invariant d' (h' :: l1 ++ l2) /\ history_kept d d') as [? ?].
  { split; [|done]. eapply invariant_perm; [|done]. apply Permutation_middle. }
  destruct Hinv' as [(p & pre & tail & st & Hp & Hhs)|[Hl Hhs]].
  - inversion Hhs as [|? ? Hh Hrest]; subst.
    destruct (call_evolves io c h d p pre tail st r h' d' Hp Hh H) as [He Hg].
    split; [by apply (evolves_invariant p pre tail st)|].
    intros q Hq. rewrite (pub_meta _ _ _ _ _ _ _ Hp) in Hq. injection Hq as <-. split; [done|].
    destruct He as [(p' & pre' & tail' & st' & Hp' & _ & _ & Hgs & _)|(_ & Hreg & _)]; [|done].
    exists p'. split; [by apply Hp'|done].
  - inversion Hhs as [|? ? Hh Hrest]; subst.
    destruct (lost_call io c h d r h' d' Hl Hh H) as [-> Hs'].
    split; [|apply history_kept_refl]. right. split; [done|]. by constructor.
Qed.

(** ** Unarchiving and recovery *)

Lemma grows_trans p p' d d1 d2 : grows p d d1 -> p_Generations p `prefix_of` p_Generations p' ->
  grows p' d1 d2 -> grows p d d2.
Proof.
  intros H1 Hpre H2 g f Hg Hf. destruct (H1 g f Hg Hf) as (f1 & Hf1 & Hp1).
  destruct (H2 g f1) as (f2 & Hf2 & Hp2); [|done|].
  - destruct Hpre as [k ->]. apply elem_of_app. by left.
  - exists f2. split; [done|]. by etransitivity.
Qed.

(** The first half of [Unarchive], after its opening. *)
Lemma unarchive_published io h d p pre tail st hs r h' d' :
  published d p pre tail st -> Forall (handle_ok p pre tail st) hs -> handle_ok p pre tail st h ->
  (do_ mutateProjectionLocked io (fun _ => set_Retention RetentionActive ExecutionIdle None);;
   do closed <- attempt (Close io);;
   do_ rename io false;;
   ret closed) (h, d) = (r, (h', d')) ->
  d_files d' = d_files d /\
  exists p' pre' tail' st', published d' p' pre' tail' st' /\
    p_Generations p `prefix_of` p_Generations p' /\ Forall (handle_ok p' pre' tail' st') hs.
Proof.
  intros Hp Hhs Hh H. unfold bind at 1 in H.
  destruct (mutateProjectionLocked io _ (h, d)) as [r1 [h1 d1]] eqn:Hm.
  destruct (mutate_evolves json_size json_size_nonneg id id_valid io _ h d p pre tail st r1 h1 d1 Hp Hh
              (fun _ q => same_journal_retention _ _ _ q) Hm)
    as ((p' & pre' & tail' & st' & Hp' & _ & _ & Hgs & Hx) & Hf & _).
  assert (Forall (handle_ok p' pre' tail' st') hs) as Hhs'
    by (eapply Forall_impl; [exact Hhs|exact Hx]).
  assert (d' = d1 \/ d' = set_archived false d1) as [-> | ->].
  { destruct r1 as [[]|e]; [|simplify_eq; by left].
    unfold bind at 1, attempt in H.
    destruct (Close_run io h1 d1) as (r2 & h2 & E & _). rewrite E in H.
    destruct r2; unfold bind, rename, modify_disk, ret, fail in H;
      destruct (io_rename io); injection H as _ _ <-; auto. }
  - split; [done|]. exists p', pre', tail', st'. auto.
  - split; [done|]. exists p', pre', tail', st'. split; [by apply published_archived|auto].
Qed.

Lemma Unarchive_keeps io io' d hs r d' :
  invariant d hs -> Unarchive json_size io io' id d = (r, d') ->
  invariant d' (hs ++ opened r) /\ history_kept d d'.
Proof.
  intros Hinv H. unfold Unarchive in H.
  destruct (negb (ValidWorkerID id)).
  { injection H as <- <-. cbn [opened]. rewrite app_nil_r. split; [done|apply history_kept_refl]. }
  destruct (openLocked json_size io true id d) as [r1 d1] eqn:Ho.
  destruct (openLocked_keeps json_size json_size_nonneg id id_valid io true d hs r1 d1 Hinv Ho)
    as [Hinv1 Hk1].
  destruct r1 as [h|e]; [|by injection H as <- <-].
  destruct Hinv as [(p & pre & tail & st & Hp & Hhs)|[Hl Hhs]].
  2: { by destruct (open_lost json_size id id_valid io true d (Ok h) d1 Hl Ho) as (_ & ? & _). }
  destruct (open_published json_size json_size_nonneg id id_valid io true d p pre tail st hs (Ok h) d1
              Hp Hhs Ho) as [(p1 & pre1 & tail1 & st1 & Hp1 & Hgs1 & Hhs1) Hg1].
  cbn [opened] in Hhs1. apply Forall_app in Hhs1 as [Hhs1 Hh1]. apply Forall_inv in Hh1.
  match type of H with context [?m (h, d1)] => destruct (m (h, d1)) as [r2 [h2 d2]] eqn:Hm end.
  destruct (unarchive_published io h d1 p1 pre1 tail1 st1 hs r2 h2 d2 Hp1 Hhs1 Hh1 Hm)
    as (Hf2 & p2 & pre2 & tail2 & st2 & Hp2 & Hgs2 & Hhs2).
  assert (grows p d d2) as Hg2.
  { intros g f Hg Hf. destruct (Hg1 g f Hg Hf) as (f' & ? & ?). exists f'. by rewrite Hf2. }
  destruct r2 as [closed|e].
  2: { injection H as <- <-. cbn [opened]. rewrite app_nil_r.
       split; [by eapply published_invariant|].
       eapply published_kept; [exact Hp|exact Hp2|by etransitivity|done]. }
  cbn [snd] in H. destruct (openLocked json_size io' false id d2) as [r3 d3] eqn:Ho3.
  destruct (open_published json_size json_size_nonneg id id_valid io' false d2 p2 pre2 tail2 st2 hs
              r3 d3 Hp2 Hhs2 Ho3) as [(p3 & pre3 & tail3 & st3 & Hp3 & Hgs3 & Hhs3) Hg3].
  assert (history_kept d d3) as Hk3.
  { eapply published_kept; [done..| |apply (grows_trans p p2 d d2 d3); [done| |done]];
      (etransitivity; [exact Hgs1|]); [etransitivity; [exact Hgs2|exact Hgs3]|exact Hgs2]. }
  assert (Forall (handle_ok p3 pre3 tail3 st3) hs) as Hhs3' by (by apply Forall_app in Hhs3 as [? _]).
  destruct r3 as [h3|e3], closed as [e4|], (io_index io); injection H as <- <-;
    (split; [|exact Hk3]); eapply published_invariant; try exact Hp3; cbn [opened];
    rewrite ?app_nil_r; done.
Qed.

Lemma recoverNamespace_keeps io d hs r d' :
  invariant d hs -> recoverNamespace io id d = (r, d') -> invariant d' hs /\ history_kept d d'.
Proof.
  intros Hinv H.
  assert (d' = d \/ exists b, d' = set_archived b d) as Hd.
  { unfold recoverNamespace in H. destruct (readProjectionFile _ _ _); [|by simplify_eq; left].
    destruct (Bool.eqb _ _); [by simplify_eq; left|]. destruct (io_rename io); simplify_eq; eauto. }
  destruct Hd as [->|[b ->]]; [split; [done|apply history_kept_refl]|].
  split; [|apply history_kept_files; [done|]; intros p _; by apply grows_files].
  destruct Hinv as [(p & pre & tail & st & Hp & Hhs)|[Hl Hhs]]; [|by right].
  left. exists p, pre, tail, st. split; [by apply published_archived|done].
Qed.

Lemma created_published io c0 alias parent r d :
  createLocked json_size io c0 id alias parent = (r, Some d) -> d_meta d <> MetaAbsent ->
  d_files d <> ∅ ->
  exists p c st, published d p [c] [] st /\ Forall (handle_ok p [c] [] st) (opened r).
Proof.
  intros H Hne Hfs.
  assert (exists k s, first_state json_size io id alias parent k s /\ d = first_disk k s /\
    (opened r = [] \/ r = Ok (first_handle json_size id k s))) as (c & s & Hs & -> & Hor).
  { apply createLocked_cases in H. inversion H; subst; [done|by destruct Hfs|by eauto 6]. }
  clear H Hne Hfs. destruct Hs as (_ & Hcdef & Hv & s0 & Hr & -> & Hvalid).
  set (sc := first_scanned json_size c) in *.
  assert (applyCommit id zero_state sc = Ok s0) as Happ.
  { unfold replay in Hr. cbn [apply_commits] in Hr.
    destruct (applyCommit id zero_state sc) as [s1|]; [|done]. cbn in Hr. congruence. }
  set (s := over_projection (fun p => set_Revision 1 (p_UpdatedAt p) p) s0) in *.
  assert (opens_commit sc = true) as Ho by (unfold opens_commit; cbn; by rewrite Hcdef).
  pose proof (id_nonempty id id_valid) as Hid.
  destruct (opening_commit id sc zero_state s0 Hid Hv Ho (or_introl eq_refl) Happ) as [Hfirst Hrun].
  pose proof (applyCommit_live id sc _ _ Hid Hv (or_introl eq_refl) Happ) as Hlive.
  destruct (applyCommit_cursor id _ _ _ Happ) as [Hk Huk].
  assert (c_Seq c = 1) as Hseq by (by rewrite Hcdef).
  assert (p_CurrentGeneration (s_Projection s0) = mkGeneration InitialGeneration 1 1 /\
          p_Generations (s_Projection s0) = [mkGeneration InitialGeneration 1 1]) as [Hg Hgs].
  { pose proof Happ as (s1 & Ha & _ & ->)%applyCommit_inv. cbn [sc_Commit sc first_scanned] in Ha.
    assert (c_Facts c = [created_fact id alias parent]) as Hfacts by (by rewrite Hcdef).
    rewrite Hfacts in Ha. cbn in Ha. rewrite Hseq in Ha. cbn in Ha. injection Ha as <-. cbn.
    by rewrite Hseq. }
  exists (s_Projection s), c, s. split; [split|]; try done.
  - exists 0. split; [done|]. cbn. rewrite Hg. by rewrite lookup_singleton_eq.
  - cbn. lia.
  - cbn. rewrite Hg. cbn. rewrite Hseq. cbn. unfold validated in Hv. by rewrite Hv.
  - cbn [over_projection s set_projection s_Projection set_Revision p_CurrentGeneration].
    rewrite Hg. change (scan json_size (g_ID (mkGeneration InitialGeneration 1 1)) 0 [c]) with [sc].
    unfold replayCurrentGeneration. cbn [last].
    assert (valid_first (s_Projection s) sc = true) as Hf' by (by unfold valid_first in *).
    cbn [over_projection s set_projection s_Projection] in Hf'. rewrite Hf'.
    change (p_EventCursor (set_Revision 1 (p_UpdatedAt (s_Projection s0)) (s_Projection s0)))
      with (p_EventCursor (s_Projection s0)).
    rewrite Hk, bool_decide_eq_true_2 by done. cbn [negb].
    rewrite cloneProjection_id by apply Hlive. cbn [runtime_loop].
    assert (g_ID (p_CurrentGeneration (set_Revision 1 (p_UpdatedAt (s_Projection s0)) (s_Projection s0)))
            = current_id s0) as -> by done.
    by rewrite Hrun.
  - cbn. by rewrite Hk, Huk.
  - by destruct Hlive; split.
  - split; cbn.
    + rewrite Hgs. intros g Hg'. apply list_elem_of_singleton in Hg' as ->. cbn.
      rewrite lookup_singleton_eq. eauto.
    + intros name [f Hf]. exists 1. split; [lia|].
      destruct (decide (name = journalName (generationID 1))) as [|Hn]; [done|].
      by rewrite lookup_singleton_ne in Hf.
  - destruct Hor as [-> | ->]; [constructor|]. cbn [opened].
    apply Forall_singleton. split; [done|]. right. split; [done|]. right. right. left.
    split; [done|]. split.
    + eexists. symmetry. apply touch_self.
    + exists c. split; [done|]. cbn. rewrite Hg. unfold store_at, seq_after. cbn.
      rewrite Hseq. f_equal. lia.
Qed.

Lemma step_keeps s s' : step json_size id s s' ->
  invariant (sys_disk s) (sys_handles s) ->
  invariant (sys_disk s') (sys_handles s') /\ history_kept (sys_disk s) (sys_disk s').
Proof.
  intros [i io c h d hs r h' d' Hi H|io archived d hs r d' H|io io' d hs r d' H|io d hs r d' H] Hinv;
    cbn in *.
  - by apply (call_keeps io c i h d hs r h' d').
  - by apply (openLocked_keeps json_size json_size_nonneg id id_valid io archived d hs r d').
  - by apply (Unarchive_keeps io io' d hs r d').
  - by apply (recoverNamespace_keeps io d hs r d').
Qed.

(** The invariant holds of everything a created thread can become. *)
Lemma reachable_invariant s : reachable json_size id s -> invariant (sys_disk s) (sys_handles s).
Proof.
  intros (s0 & (io & c0 & alias & parent & r & d & Hc & Hne & Hfs & ->) & Hruns).
  apply (runs_invariant (step json_size id) (fun s => invariant (sys_disk s) (sys_handles s)))
    with (s1 := mkSystem d (opened r)); [|done|].
  - intros s1 s2 Hi Hs. by apply (step_keeps s1 s2).
  - destruct (created_published io c0 alias parent r d Hc Hne Hfs) as (p & c & st & Hp & Hh).
    by apply (published_invariant json_size id d p [c] [] st).
Qed.
End Runs.
