(* ===== verification/ThreadStoreRestart.v ===== *)
(** * Thread storage: opening again

    A thread that nothing interrupted opens, and gives the handle it was left
    with; one whose last append did not reach [thread.json] opens with that
    append applied if it records usage only, and is refused otherwise. *)

From S2P Require Import Prelude GoStd Llm Events ThreadTypes ThreadFacts ThreadStore ThreadReplay ThreadStoreInv ThreadStoreOps ThreadStoreOpen ThreadStoreProps.
From stdpp Require Import sorting.

Local Open Scope Z_scope.
Local Open Scope juex_scope.

Lemma snoc_longer {A} (l : list A) c : l <> l ++ [c].
Proof. intros H%(f_equal length). rewrite length_app in H. simpl in H. lia. Qed.

(** ** Journal names *)

Lemma append_cons c s t : (String c s ++ t)%string = String c (s ++ t)%string.
Proof. done. Qed.

Lemma append_length s t : String.length (s ++ t)%string = (String.length s + String.length t)%nat.
Proof. induction s as [|c s IH]; [done|]. rewrite append_cons. cbn. by rewrite IH. Qed.

Lemma substring_whole t : String.substring 0 (String.length t) t = t.
Proof. induction t as [|c t IH]; [done|]. cbn. by rewrite IH. Qed.

Lemma substring_app_l s t : String.substring 0 (String.length s) (s ++ t)%string = s.
Proof.
  induction s as [|c s IH]; [by destruct t|]. rewrite append_cons. cbn. by rewrite IH.
Qed.

Lemma substring_app_r s t : String.substring (String.length s) (String.length t) (s ++ t)%string = t.
Proof.
  induction s as [|c s IH]; [apply substring_whole|]. rewrite append_cons. exact IH.
Qed.

Lemma trim_journalName g : trim_jsonl (journalName g) = g.
Proof.
  unfold trim_jsonl, journalName.
  assert (String.length (g ++ ".jsonl")%string - 6 = String.length g)%nat as ->
    by (rewrite append_length; cbn; lia).
  change 6%nat with (String.length ".jsonl"). rewrite substring_app_r. cbn.
  apply substring_app_l.
Qed.

(** ** The directory layout *)

Lemma registry_ids index previous l k :
  valid_registry index previous l = true -> index < k <= index + Z.of_nat (length l) ->
  exists g, g ∈ l /\ g_ID g = generationID k.
Proof.
  revert index previous. induction l as [|g l IH]; intros index previous H Hk; cbn in H, Hk; [lia|].
  to_prop. destruct (decide (k = index + 1)) as [->|].
  - exists g. split; [by left|done].
  - destruct (IH (index + 1) (Some g)) as (g' & Hin & Hg'); [done|lia|].
    exists g'. split; [by right|done].
Qed.

Lemma registry_last index previous l g :
  valid_registry index previous l = true -> last l = Some g ->
  g_Ordinal g = index + Z.of_nat (length l).
Proof.
  revert index previous. induction l as [|x l IH]; intros index previous H Hl; [done|].
  cbn [valid_registry] in H. to_prop. destruct l as [|y l].
  - cbn in Hl. simplify_eq. cbn. lia.
  - rewrite (IH (index + 1) (Some x)); [cbn [length]; lia|done|done].
Qed.

(** The loop removes the journals after the last registered one and keeps the
    rest, when no removal fails. *)
Lemma layout_loop_ok io wanted lastOrdinal names removed files :
  io_layout io = IoOk ->
  (forall name, name ∈ names -> name ∈ wanted \/
     exists k, lastOrdinal < k <= 999999 /\ 1 <= k /\ name = journalName (generationID k)) ->
  exists removed' files', layout_loop io wanted lastOrdinal names removed files = (Ok removed', files').
Proof.
  intros Hio. revert removed files. induction names as [|name names IH]; intros removed files H.
  { by eexists _, _. }
  assert (forall b fs, exists b' fs', layout_loop io wanted lastOrdinal names b fs = (Ok b', fs')) as Hr.
  { intros b fs. apply IH. intros x Hx. apply H. by right. }
  cbn [layout_loop]. destruct (bool_decide (name ∈ wanted)) eqn:Hw; [apply Hr|]. to_prop.
  destruct (H name) as [|(k & Hk & Hk1 & ->)]; [by left|done|].
  rewrite trim_journalName, parse_generationID by lia.
  rewrite Hio, (bool_decide_eq_true_2 (journalName _ = journalName _)) by done.
  cbn [negb]. rewrite orb_false_r.
  destruct (Z.leb_spec k lastOrdinal) as [|_]; [lia|]. apply Hr.
Qed.

Lemma elem_of_sorted_names (files : gmap string JournalFile) name :
  name ∈ sorted_names files -> is_Some (files !! name).
Proof.
  unfold sorted_names. rewrite (merge_sort_Permutation name_le).
  intros ([x f] & -> & Hin)%list_elem_of_fmap. apply elem_of_map_to_list in Hin. eauto.
Qed.

Lemma recoverLayout_ok io p files id :
  valid_projection p id = true -> layout p files -> io_layout io = IoOk ->
  exists files', recoverGenerationLayout io (p_Generations p) files = (Ok tt, files').
Proof.
  intros Hv [H1 H2] Hio. unfold recoverGenerationLayout. fold (wanted_names p).
  assert (exists g, last (p_Generations p) = Some g /\
            g_Ordinal g = Z.of_nat (length (p_Generations p)) /\
            valid_registry 0 None (p_Generations p) = true) as (g & Hl & Ho & Hreg).
  { unfold valid_projection in Hv. to_prop. eexists. split; [eassumption|]. split; [|done].
    by erewrite (registry_last 0 None). }
  rewrite Hl, Ho.
  destruct (layout_loop_ok io (wanted_names p) (Z.of_nat (length (p_Generations p)))
              (sorted_names files) false files Hio) as (removed & files' & E).
  { intros name (k & Hk & ->)%elem_of_sorted_names%H2.
    destruct (decide (k <= Z.of_nat (length (p_Generations p)))) as [Hle|]; [left|right; exists k; split_and!; [lia..|done]].
    destruct (registry_ids 0 None (p_Generations p) k Hreg) as (g' & Hin & <-); [lia|].
    apply list_elem_of_fmap. eauto. }
  rewrite E. apply layout_loop_swept in E as [Hsw _]. rewrite Hio.
  rewrite (bool_decide_eq_false_2 (IoOk = IoFailCommitted)), andb_false_r by done.
  destruct (existsb _ (wanted_names p)) eqn:He; [|eauto].
  apply existsb_exists in He as (name & Hin & Hn). to_prop. apply list_elem_of_In in Hin.
  rewrite (Hsw name Hin) in Hn. apply list_elem_of_fmap in Hin as (g' & -> & Hg').
  destruct (H1 g' Hg') as [f Hf]. congruence.
Qed.

Section Restart.
  Context (json_size : Commit -> option Z).
  Context (json_size_nonneg : forall c n, json_size c = Some n -> 0 <= n).
  Context (id : string) (id_valid : ValidID id = true).

Abbreviation total := (records_size json_size).
Abbreviation published := (published json_size id).
Abbreviation handle_ok := (handle_ok json_size id).
Abbreviation record_after := (record_after json_size).
Abbreviation appendable := (appendable json_size id).
Abbreviation store_at := (store_at json_size).
Abbreviation current_name p := (journalName (g_ID (p_CurrentGeneration p))).

(** The outcomes an undisturbed opening needs. *)
Definition undisturbed (io : Io) : Prop :=
  io_open io = true /\ io_layout io = IoOk /\ io_renewal io = true /\ io_meta io = IoOk /\
  io_index io = true.

(** ** Opening a published directory *)

(** Everything up to the decision about the record after the cursor. *)
Lemma openEventStore_run io d p pre tail st :
  published d p pre tail st -> undisturbed io ->
  exists files', openEventStore json_size io id p (d_files d) =
    (match tail with
     | [] =>
       try _ := validateProjectionMetadata p id in
       Ok (mkEventStore (g_ID (p_CurrentGeneration p)) true (total pre)
             (match last pre with Some c => seq_after c | None => 1 end), st, false)
     | c :: _ =>
       if usageOnlyCommit (record_after (g_ID (p_CurrentGeneration p)) pre c)
       then match applyCommit id st (record_after (g_ID (p_CurrentGeneration p)) pre c) with
            | Err _ => Err ErrCorruptJournal
            | Ok st' =>
              try _ := validateProjectionMetadata (s_Projection (recovered_revision io true st')) id in
              Ok (store_at (g_ID (p_CurrentGeneration p)) (pre ++ [c]) c,
                  recovered_revision io true st', true)
            end
       else Err ErrInvalidMetadata
     end, files').
Proof.
  intros Hp (Hopen & Hlay & _). unfold openEventStore.
  destruct (recoverLayout_ok io p (d_files d) id (pub_valid _ _ _ _ _ _ _ Hp)
              (pub_layout _ _ _ _ _ _ _ Hp) Hlay) as [files1 Hl].
  rewrite Hl. destruct (recoverLayout_swept io p _ _ _ Hl) as [Hsw _].
  pose proof (published_swept json_size id d p pre tail st files1 Hp Hsw) as Hp1.
  unfold openGenerationFile. rewrite Hopen. cbn [negb].
  destruct (pub_file _ _ _ _ _ _ _ Hp1) as (torn & _ & Hf). cbn in Hf.
  rewrite Hf. cbn [from_option Datatypes.id jf_records].
  unfold readGenerationCommits. cbn [jf_records]. rewrite (pub_read _ _ _ _ _ _ _ Hp). cbn [rbind].
  destruct (pub_last json_size id d p pre tail st Hp) as (l & c0 & Hpre & _).
  destruct (Nat.eqb (length (scan json_size _ 0 (pre ++ tail))) 0) eqn:Hlen.
  { apply Nat.eqb_eq in Hlen. rewrite scan_length, Hpre, !length_app in Hlen. simpl in Hlen. lia. }
  cbn [rbind]. eexists. f_equal.
  rewrite (split_published json_size json_size_nonneg id d p pre tail st Hp).
  unfold file_size. cbn [jf_records jf_torn]. rewrite Z.add_0_r.
  assert (forall c, last (pre ++ tail) = Some c ->
    last (scan json_size (g_ID (p_CurrentGeneration p)) 0 (pre ++ tail)) =
      Some (mkScanned c (g_ID (p_CurrentGeneration p)) (total (removelast (pre ++ tail)))
              (total (pre ++ tail)))) as Hls by (intros c; apply last_scan).
  assert (recoverUsageAggregate json_size id
            (<[current_name p := mkFile (pre ++ tail) 0]> files1) (p_EventCursor p) st = Ok (false, st))
    as Hu.
  { unfold recoverUsageAggregate.
    rewrite (pub_proj _ _ _ _ _ _ _ Hp), (pub_usage _ _ _ _ _ _ _ Hp).
    by rewrite bool_decide_eq_true_2. }
  destruct tail as [|c tail].
  - cbn [rbind fst snd]. rewrite (pub_replay _ _ _ _ _ _ _ Hp). cbn [rbind].
    rewrite app_nil_r in *. rewrite (Hls c0) by (by rewrite Hpre, last_snoc).
    rewrite Hu. cbn [rbind fst snd apply_tail recovered_revision].
    rewrite (pub_proj _ _ _ _ _ _ _ Hp). by rewrite Hpre, last_snoc.
  - assert (tail = []) as ->.
    { pose proof (pub_tail _ _ _ _ _ _ _ Hp) as Hl1. destruct tail; [done|simpl in Hl1; lia]. }
    rewrite (Hls c) by (by rewrite last_snoc).
    destruct (usageOnlyCommit _); [|done]. cbn [rbind fst snd].
    rewrite (pub_replay _ _ _ _ _ _ _ Hp). cbn [rbind]. rewrite Hu. cbn [rbind fst snd apply_tail].
    destruct (applyCommit id st _) as [st'|]; [|done]. done.
Qed.

Lemma valid_later q i u v :
  valid_projection (advanceProjectionRevision u q) i = true -> u <= v -> v <> 0 ->
  valid_projection (advanceProjectionRevision v q) i = true.
Proof.
  intros H Huv Hv.
  assert (valid_times (advanceProjectionRevision v q) = true /\
          valid_archived_at (advanceProjectionRevision v q) = true) as [Ht Ha].
  { unfold valid_projection in H. to_prop. unfold valid_times, valid_archived_at in *. cbn in *.
    to_prop. split.
    - repeat (apply andb_true_iff; split); apply negb_true_iff; rewrite ?orb_false_iff, ?Z.eqb_neq, ?Z.ltb_ge;
        repeat split; first [done|lia].
    - destruct (p_ArchivedAt q); [|done]. to_prop.
      apply negb_true_iff. rewrite orb_false_iff, !Z.ltb_ge. lia. }
  unfold valid_projection in *. rewrite Ht, Ha.
  repeat match goal with K : _ && _ = true |- _ => apply andb_true_iff in K; destruct K end.
  repeat match goal with |- _ && _ = true => apply andb_true_iff; split end;
    first [reflexivity | assumption].
Qed.

(** A clock that is not at the zero time. *)
Definition clock_set (io : Io) : Prop := NewTimestamp (io_now io) <> 0.

Lemma openLocked_run io archived d p pre tail st :
  published d p pre tail st -> archived = d_archived d ->
  bool_decide (p_RetentionState p = RetentionArchived) = archived ->
  openLocked json_size io archived id d =
    match openEventStore json_size io id p (d_files d) with
    | (Err e, files) => (Err e, set_files files d)
    | (Ok (store, s, recovered), files) =>
      if negb (io_renewal io) then (Err ErrContextRenewal, set_files files d)
      else
        let h := mkHandle id archived store s false in
        match (do_ (if recovered then persistProjectionValueLocked io (s_Projection s) else ret tt);;
               updateIndex io ErrIndex) (h, set_files files d) with
        | (Ok _, w) => (Ok h, w.2)
        | (Err e, w) => (Err e, w.2)
        end
    end.
Proof.
  intros Hp Ha Hr. unfold openLocked, readProjectionFile. rewrite id_valid, (pub_meta _ _ _ _ _ _ _ Hp).
  rewrite <- Ha, eqb_reflx. cbn [negb]. unfold validateProjectionMetadata.
  rewrite (pub_valid _ _ _ _ _ _ _ Hp). cbn [check rbind]. by rewrite Hr, eqb_reflx.
Qed.

(** What is known of a handle that passes the check in a reachable system. *)
Lemma reachable_current sys h :
  reachable json_size id sys -> h ∈ sys_handles sys -> is_open h = true ->
  current h (sys_disk sys) = true ->
  exists p pre tail st, published (sys_disk sys) p pre tail st /\ handle_ok p pre tail st h /\
    synced json_size p pre st h /\ h_rev h = p_Revision p /\ h_archived h = d_archived (sys_disk sys).
Proof.
  intros Hr Hin Ho Hc.
  destruct (current_inv h _ Hc) as (_ & _ & Harch & _).
  destruct (reachable_invariant json_size json_size_nonneg id id_valid sys Hr)
    as [(p & pre & tail & st & Hp & Hhs)|[Hl Hhs]]; rewrite Forall_forall in Hhs;
    specialize (Hhs h Hin).
  - destruct (current_synced json_size id _ _ _ _ _ h Hp Hhs Ho Hc) as [Hs Hrev].
    exists p, pre, tail, st. auto.
  - destruct (lost_current id _ h Hl Hhs); congruence.
Qed.

(** C25: a thread that is left with every append published opens again, and the
    new handle has the state of the old one: if a handle passes the staleness
    check and the current journal holds the records the handle knows and no
    more (a torn last line may follow them), opening the directory anew reads
    the same messages, events, counters and token totals, appends at the same
    sequence number, and leaves [thread.json] as it was. *)
Theorem reopening_restores_handle sys h f io :
  reachable json_size id sys -> h ∈ sys_handles sys -> is_open h = true ->
  current h (sys_disk sys) = true ->
  d_files (sys_disk sys) !! journalName (es_currentID (h_eventStore h)) = Some f ->
  total (jf_records f) = es_size (h_eventStore h) ->
  bool_decide (p_RetentionState (h_projection h) = RetentionArchived) = h_archived h ->
  undisturbed io ->
  exists h' d', openLocked json_size io (h_archived h) id (sys_disk sys) = (Ok h', d') /\
    h_eventStore h' = h_eventStore h /\
    h_state h' = touch (p_UpdatedAt (h_projection h')) (h_state h) /\
    d_meta d' = d_meta (sys_disk sys).
Proof.
  intros Hr Hin Ho Hc Hf Hsize Hret Hio.
  destruct (reachable_current sys h Hr Hin Ho Hc) as
    (p & pre & tail & st & Hp & _ & ([u Hu] & l & Hlast & Hes) & _ & Harch).
  pose proof Hio as (_ & _ & Hren & _ & Hidx).
  rewrite Hes in Hf, Hsize. cbn in Hf, Hsize.
  destruct (pub_file _ _ _ _ _ _ _ Hp) as (torn & _ & Hf'). rewrite Hf in Hf'. simplify_eq.
  cbn [jf_records] in Hsize. rewrite records_size_app in Hsize.
  assert (tail = []) as ->.
  { destruct tail as [|c tail]; [done|]. cbn in Hsize.
    pose proof (line_size_pos json_size json_size_nonneg c).
    pose proof (records_size_nonneg json_size json_size_nonneg tail). lia. }
  assert (bool_decide (p_RetentionState p = RetentionArchived) = h_archived h) as Hret'.
  { rewrite <- Hret. unfold h_projection. rewrite Hu. cbn. by rewrite (pub_proj _ _ _ _ _ _ _ Hp). }
  rewrite (openLocked_run io _ _ p pre [] st Hp Harch Hret').
  destruct (openEventStore_run io _ p pre [] st Hp Hio) as [files ->].
  unfold validateProjectionMetadata. rewrite (pub_valid _ _ _ _ _ _ _ Hp). cbn [check rbind].
  rewrite Hren. cbn [negb]. unfold bind, ret, updateIndex. rewrite Hidx.
  eexists _, _. split; [done|]. cbn. split; [by rewrite Hes, Hlast|]. split; [|done].
  unfold h_projection. cbn. by rewrite Hu, touch_touch, touch_self.
Qed.

(** The state an append leaves on disk when its record was written and
    [thread.json] was not: what an interruption between the two steps leaves. *)
Lemma unpublished_append io sys h facts r h1 d1 f f1 c :
  reachable json_size id sys -> h ∈ sys_handles sys ->
  AppendFacts json_size io facts (h, sys_disk sys) = (r, (h1, d1)) ->
  d_meta d1 = d_meta (sys_disk sys) ->
  d_files (sys_disk sys) !! journalName (es_currentID (h_eventStore h)) = Some f ->
  d_files d1 !! journalName (es_currentID (h_eventStore h)) = Some f1 ->
  jf_records f1 = jf_records f ++ [c] ->
  exists p pre st st' u, published d1 p pre [c] st /\ h_state h = touch u st /\ c_Facts c = facts /\
    appendable p pre st c st' /\
    valid_projection (advanceProjectionRevision (c_At c) (s_Projection st')) id = true /\
    d_archived d1 = d_archived (sys_disk sys) /\
    h_archived h = d_archived (sys_disk sys) /\ jf_records f = pre /\
    g_ID (p_CurrentGeneration p) = es_currentID (h_eventStore h) /\
    total pre = es_size (h_eventStore h).
Proof.
  intros Hr Hin H Hm Hf Hf1 Hc1.
  assert (is_open h = true /\ current h (sys_disk sys) = true) as [Ho Hc].
  { destruct (is_open h) eqn:Ho, (current h (sys_disk sys)) eqn:Hc; [done|..];
      (destruct (AppendFacts_stale json_size io facts h (sys_disk sys)) as [e E]; [auto|];
       rewrite E in H; simplify_eq; by apply snoc_longer in Hc1). }
  destruct (reachable_current sys h Hr Hin Ho Hc) as
    (p & pre & tail & st & Hp & Hh & Hsync & Hrev & Harch).
  pose proof Hsync as ([u Hu] & l & Hlast & Hes).
  rewrite Hes in Hf, Hf1. cbn in Hf, Hf1.
  destruct (pub_file _ _ _ _ _ _ _ Hp) as (torn & _ & Hf'). rewrite Hf in Hf'. simplify_eq.
  cbn [jf_records] in Hc1.
  destruct (AppendFacts_cases json_size json_size_nonneg id id_valid io facts h (sys_disk sys) p pre tail st
              r h1 d1 Hp (proj1 Hh) Hsync H) as [[-> ->]|(c' & st' & -> & Hfacts & Happ & Hv & Hres)].
  { exfalso. rewrite Hf in Hf1. simplify_eq. cbn in Hc1. by apply snoc_longer in Hc1. }
  rewrite app_nil_r in *.
  assert (d1 = with_current p (pre ++ [c']) 0 (sys_disk sys)) as Hd1.
  { destruct Hres as [[-> ->]|[[-> (torn' & _ & ->)]|[[_ ->]|[[_ ->]|[_ ->]]]]]; try done; exfalso.
    - rewrite Hf in Hf1. simplify_eq. cbn in Hc1. by apply snoc_longer in Hc1.
    - cbn in Hf1. rewrite lookup_insert_eq in Hf1. simplify_eq. cbn in Hc1.
      by apply snoc_longer in Hc1.
    - cbn in Hm. rewrite (pub_meta _ _ _ _ _ _ _ Hp) in Hm. injection Hm as Hm.
      apply (f_equal p_Revision) in Hm.
      destruct (next_revision json_size id _ p pre [] st (c_At c') (s_Projection st') Hp) as [Hn _]; [|exact Hv|].
      + rewrite <- (pub_proj _ _ _ _ _ _ _ Hp). by eapply applyCommit_revision, app_apply.
      + cbn in Hm, Hn. lia. }
  rewrite Hd1 in Hf1. cbn in Hf1. rewrite lookup_insert_eq in Hf1. simplify_eq. cbn in Hc1.
  apply app_inv_head in Hc1. simplify_eq.
  destruct (published_tail json_size id (sys_disk sys) p pre st c st' 0 Hp Happ ltac:(done)) as [Ht _].
  exists p, pre, st, st', u. rewrite Hes. by split_and!.
Qed.

(** Token usage survives an interruption between the journal and
    [thread.json]. When the record of an append is in the journal and
    [thread.json] is as before, and the facts record provider usage only,
    opening the directory succeeds, with the facts applied exactly once to the
    state of the handle that appended them, and writes the metadata the append
    did not (the revision is the next one, stamped no earlier than the append). *)
Theorem interrupted_usage_append_recovered io io' sys h facts r h1 d1 f f1 c :
  reachable json_size id sys -> h ∈ sys_handles sys ->
  AppendFacts json_size io facts (h, sys_disk sys) = (r, (h1, d1)) ->
  d_meta d1 = d_meta (sys_disk sys) ->
  d_files (sys_disk sys) !! journalName (es_currentID (h_eventStore h)) = Some f ->
  d_files d1 !! journalName (es_currentID (h_eventStore h)) = Some f1 ->
  jf_records f1 = jf_records f ++ [c] ->
  Forall (fun x => f_Type x = FactUsageRecorded) facts ->
  p_RetentionState (h_projection h) = RetentionActive -> h_archived h = false ->
  undisturbed io' -> clock_set io' ->
  exists s' u h2 d2,
    applyCommit id (h_state h)
      (mkScanned c (es_currentID (h_eventStore h)) (es_size (h_eventStore h))
         (es_size (h_eventStore h) + line_size json_size c)) = Ok s' /\
    c_Facts c = facts /\
    openLocked json_size io' false id d1 = (Ok h2, d2) /\
    h_state h2 = over_projection (advanceProjectionRevision u) s' /\ c_At c <= u /\
    d_meta d2 = MetaProjection (h_projection h2) /\
    es_size (h_eventStore h2) = total (jf_records f1).
Proof.
  intros Hr Hin H Hm Hf Hf1 Hc1 Hu Hret Harch Hio Hclock.
  destruct (unpublished_append io sys h facts r h1 d1 f f1 c Hr Hin H Hm Hf Hf1 Hc1) as
    (p & pre & st & st' & u & Hp & Hs & Hfacts & Happ & Hv & Hd1 & Hd & Hpre & Hg & Hsize).
  pose proof Hio as (_ & _ & Hren & Hmeta & Hidx).
  assert (applyCommit id st (record_after (g_ID (p_CurrentGeneration p)) pre c) = Ok st') as Ha
    by (by destruct Happ).
  assert (p_RetentionState p = RetentionActive) as Hretp.
  { unfold h_projection in Hret. rewrite Hs in Hret. cbn in Hret. by rewrite (pub_proj _ _ _ _ _ _ _ Hp) in Hret. }
  rewrite (openLocked_run io' false d1 p pre [c] st Hp);
    [|congruence|by rewrite Hretp].
  destruct (openEventStore_run io' d1 p pre [c] st Hp Hio) as [files ->].
  assert (usageOnlyCommit (record_after (g_ID (p_CurrentGeneration p)) pre c) = true) as ->.
  { unfold usageOnlyCommit. cbn. rewrite Hfacts. apply andb_true_iff. split.
    - destruct Happ as [_ (_ & _ & Hne & _)%validated_inv _ _]. rewrite Hfacts in Hne.
      by destruct facts.
    - apply forallb_forall. intros x Hx. rewrite List.Forall_forall in Hu.
      apply bool_decide_eq_true_2. by apply Hu. }
  rewrite Ha. unfold recovered_revision at 1.
  set (v := if _ <? _ then _ else _).
  assert (p_UpdatedAt (s_Projection st') = c_At c) as Hupd.
  { by apply applyCommit_inv in Ha as (s1 & _ & _ & ->). }
  assert (c_At c <= v /\ v <> 0) as [Hle Hv0].
  { assert (c_At c <> 0) as Hc0.
    { unfold valid_projection, valid_times in Hv. cbn in Hv. by to_prop. }
    unfold v. rewrite Hupd. destruct (Z.ltb_spec (NewTimestamp (io_now io')) (c_At c)); [done|].
    split; [lia|exact Hclock]. }
  pose proof (valid_later _ _ _ v Hv Hle Hv0) as Hv'.
  unfold validateProjectionMetadata, recovered_revision. fold v.
  assert (valid_projection (s_Projection (over_projection (advanceProjectionRevision v) st')) id = true)
    as Hv'' by exact Hv'.
  rewrite Hv''. cbn [check rbind]. rewrite Hren. cbn [negb].
  unfold bind, persistProjectionValueLocked, bind, get_handle, lift, validateProjectionMetadata,
    write_meta, modify_disk, updateIndex, ret. cbn [fst snd h_ID].
  rewrite Hv'', Hmeta, Hidx. cbn [check fst snd].
  exists st', v. eexists _, _. rewrite Hs, applyCommit_touch, <- Hg, <- Hsize.
  split_and!; try done. cbn. by rewrite Hc1, Hpre.
Qed.

(** Any other record that follows the published ones is refused, and stays:
    when the interrupted append recorded a fact other than provider usage,
    opening the directory reports invalid metadata and changes neither
    [thread.json] nor the records of the journal. *)
Theorem interrupted_append_refused io io' sys h facts r h1 d1 f f1 c :
  reachable json_size id sys -> h ∈ sys_handles sys ->
  AppendFacts json_size io facts (h, sys_disk sys) = (r, (h1, d1)) ->
  d_meta d1 = d_meta (sys_disk sys) ->
  d_files (sys_disk sys) !! journalName (es_currentID (h_eventStore h)) = Some f ->
  d_files d1 !! journalName (es_currentID (h_eventStore h)) = Some f1 ->
  jf_records f1 = jf_records f ++ [c] ->
  Exists (fun x => f_Type x <> FactUsageRecorded) facts ->
  p_RetentionState (h_projection h) = RetentionActive -> h_archived h = false ->
  undisturbed io' ->
  exists d2 f2, openLocked json_size io' false id d1 = (Err ErrInvalidMetadata, d2) /\
    d_meta d2 = d_meta d1 /\
    d_files d2 !! journalName (es_currentID (h_eventStore h)) = Some f2 /\
    jf_records f2 = jf_records f1.
Proof.
  intros Hr Hin H Hm Hf Hf1 Hc1 Hu Hret Harch Hio.
  destruct (unpublished_append io sys h facts r h1 d1 f f1 c Hr Hin H Hm Hf Hf1 Hc1) as
    (p & pre & st & st' & u & Hp & Hs & Hfacts & Happ & Hv & Hd1 & Hd & Hpre & Hg & Hsize).
  assert (p_RetentionState p = RetentionActive) as Hretp.
  { unfold h_projection in Hret. rewrite Hs in Hret. cbn in Hret. by rewrite (pub_proj _ _ _ _ _ _ _ Hp) in Hret. }
  rewrite (openLocked_run io' false d1 p pre [c] st Hp);
    [|congruence|by rewrite Hretp].
  destruct (openEventStore json_size io' id p (d_files d1)) as [r2 files] eqn:Hopen.
  destruct (openEventStore_cases json_size json_size_nonneg id io' d1 p pre [c] st r2 files Hp Hopen)
    as (Hp2 & _ & _).
  destruct (openEventStore_run io' d1 p pre [c] st Hp Hio) as [files' E]. rewrite Hopen in E.
  assert (usageOnlyCommit (record_after (g_ID (p_CurrentGeneration p)) pre c) = false) as Hno.
  { apply not_true_iff_false. unfold usageOnlyCommit. cbn. rewrite Hfacts.
    intros [_ Hall]%andb_true_iff. rewrite forallb_forall in Hall.
    apply List.Exists_exists in Hu as (x & Hx & Hn). specialize (Hall x Hx). by to_prop. }
  rewrite Hno in E. injection E as -> ->.
  destruct (pub_file _ _ _ _ _ _ _ Hp2) as (torn & _ & Hf2). rewrite Hg in Hf2.
  eexists _, _. split; [done|]. split; [done|]. split; [exact Hf2|]. cbn. by rewrite Hc1, Hpre.
Qed.
End Restart.
