(* ===== verification/ThreadStoreSafety.v ===== *)
(** * Thread storage: what holds in every reachable system

    The guarantees of a directory and all the handles opened on it, whatever
    calls, openings, failures and moves between namespaces led there. *)

From S2P Require Import Prelude GoStd Llm Events ThreadTypes ThreadFacts ThreadStore ThreadReplay ThreadStoreInv ThreadStoreOps ThreadStoreOpen ThreadStoreProps ThreadStoreRestart.

Local Open Scope Z_scope.
Local Open Scope juex_scope.

Section Safety.
  Context (json_size : Commit -> option Z).
  Context (json_size_nonneg : forall c n, json_size c = Some n -> 0 <= n).
  Context (id : string) (id_valid : ValidID id = true).

Abbreviation total := (records_size json_size).
Abbreviation reachable := (reachable json_size id).
Abbreviation step := (step json_size id).

(** [thread.json] is valid in every reachable system: the directory always
    has metadata, and it passes [validateProjectionMetadata] for this thread
    (identity, times, lifecycle, generation registry, counters, token totals and
    cursors). *)
Theorem metadata_always_valid sys : reachable sys ->
  exists p, d_meta (sys_disk sys) = MetaProjection p /\ validateProjectionMetadata p id = Ok tt.
Proof.
  intros Hr. unfold validateProjectionMetadata.
  destruct (reachable_invariant json_size json_size_nonneg id id_valid sys Hr)
    as [(p & pre & tail & st & Hp & _)|[(p & Hm & Hv & _) _]]; exists p.
  - split; [by apply Hp|]. by rewrite (pub_valid _ _ _ _ _ _ _ Hp).
  - split; [done|]. by rewrite Hv.
Qed.

Lemma history_kept_trans d d1 d2 :
  history_kept d d1 -> history_kept d1 d2 -> history_kept d d2.
Proof.
  intros H1 H2 p Hp. destruct (H1 p Hp) as (Hg1 & p1 & Hp1 & Hgs1).
  destruct (H2 p1 Hp1) as (Hg2 & p2 & Hp2 & Hgs2). split.
  - by apply (grows_trans p p1 d d1 d2).
  - exists p2. split; [done|]. by etransitivity.
Qed.

Lemma reachable_step s s' : reachable s -> step s s' -> reachable s'.
Proof. intros (s0 & Hc & Hr) Hs. exists s0. split; [done|].
  eapply runs_trans; [exact Hr|by apply runs_one]. Qed.

(** C1: history is append-only. A generation that [thread.json] registers stays
    registered, at its place, and every record of its journal stays in the
    journal, in order, whatever happens later: no call, opening, recovery,
    archiving or failed write removes or rewrites a record of it. *)
Theorem published_history_append_only sys sys' p g f :
  reachable sys -> runs step sys sys' ->
  d_meta (sys_disk sys) = MetaProjection p -> g ∈ p_Generations p ->
  d_files (sys_disk sys) !! journalName (g_ID g) = Some f ->
  (exists p', d_meta (sys_disk sys') = MetaProjection p' /\
     p_Generations p `prefix_of` p_Generations p') /\
  exists f', d_files (sys_disk sys') !! journalName (g_ID g) = Some f' /\
    jf_records f `prefix_of` jf_records f'.
Proof.
  intros Hr Hruns Hm Hg Hf.
  assert (reachable sys' /\ history_kept (sys_disk sys) (sys_disk sys')) as [_ Hk].
  { apply (runs_invariant step (fun s => reachable s /\ history_kept (sys_disk sys) (sys_disk s)))
      with (s1 := sys); [|done|split; [done|apply history_kept_refl]].
    intros s1 s2 [Hr1 Hk1] Hs. split; [by eapply reachable_step|].
    eapply history_kept_trans; [exact Hk1|].
    apply (step_keeps json_size json_size_nonneg id id_valid s1 s2 Hs).
    by apply reachable_invariant. }
  destruct (Hk p Hm) as [Hgrow Hreg]. split; [exact Hreg|]. by apply (Hgrow g f).
Qed.

(** C2: a handle that passes the staleness check holds what the files hold.
    Replaying the records of the current journal up to the cursor of
    [thread.json] gives the state of the handle, its append position is the end
    of those records, and at most one record follows them; so two such handles
    agree on everything but the time of their last metadata write. *)
Theorem current_handle_holds_journal sys h :
  reachable sys -> h ∈ sys_handles sys -> is_open h = true -> current h (sys_disk sys) = true ->
  exists p f pre tail,
    d_meta (sys_disk sys) = MetaProjection p /\
    d_files (sys_disk sys) !! journalName (g_ID (p_CurrentGeneration p)) = Some f /\
    jf_records f = pre ++ tail /\ (length tail <= 1)%nat /\
    replayCurrentGeneration id p (scan json_size (g_ID (p_CurrentGeneration p)) 0 pre) =
      Ok (touch (p_UpdatedAt p) (h_state h)) /\
    es_currentID (h_eventStore h) = g_ID (p_CurrentGeneration p) /\
    es_size (h_eventStore h) = total pre /\
    es_nextSeq (h_eventStore h) = wrap_uint64 (k_Seq (p_EventCursor p) + 1).
Proof.
  intros Hr Hin Ho Hc.
  destruct (reachable_current json_size json_size_nonneg id id_valid sys h Hr Hin Ho Hc) as
    (p & pre & tail & st & Hp & _ & ([u Hu] & l & Hlast & Hes) & _).
  destruct (pub_file _ _ _ _ _ _ _ Hp) as (torn & _ & Hf).
  destruct (pub_last json_size id _ p pre tail st Hp) as (l' & c & Hpre & Hk).
  exists p, (mkFile (pre ++ tail) torn), pre, tail. split; [by apply Hp|].
  split; [done|]. split; [done|]. split; [by apply Hp|].
  split; [|rewrite Hes, Hk; cbn; rewrite Hpre, last_snoc in Hlast; by simplify_eq].
  rewrite (pub_replay _ _ _ _ _ _ _ Hp), Hu, touch_touch.
  by rewrite <- (pub_proj _ _ _ _ _ _ _ Hp), touch_self.
Qed.

(** Of the handles that pass the staleness check, at most one gets to write:
    once a call through one of them has changed [thread.json], every other one
    fails the check. *)
Theorem one_current_writer sys i j h x io c r h' d' :
  reachable sys -> sys_handles sys !! i = Some h -> sys_handles sys !! j = Some x -> i <> j ->
  current x (sys_disk sys) = true ->
  run_call json_size io c (h, sys_disk sys) = (r, (h', d')) ->
  d_meta d' <> d_meta (sys_disk sys) ->
  is_open x = false \/ current x d' = false.
Proof.
  intros Hr Hi Hj _ Hcx H Hne. destruct (is_open x) eqn:Hox; [right|by left].
  apply list_elem_of_lookup_2 in Hi, Hj.
  destruct (reachable_current json_size json_size_nonneg id id_valid sys x Hr Hj Hox Hcx) as
    (p & pre & tail & st & Hp & Hx & _ & Hrev & _).
  destruct (reachable_invariant json_size json_size_nonneg id id_valid sys Hr)
    as [(p1 & pre1 & tail1 & st1 & Hp1 & Hhs)|[(p1 & Hm & _ & Hn) _]].
  2: { rewrite (pub_meta _ _ _ _ _ _ _ Hp) in Hm. simplify_eq.
       destruct (pub_file _ _ _ _ _ _ _ Hp) as (torn & _ & Hf). congruence. }
  assert (p1 = p) as ->.
  { pose proof (pub_meta _ _ _ _ _ _ _ Hp1) as E. rewrite (pub_meta _ _ _ _ _ _ _ Hp) in E. congruence. }
  rewrite Forall_forall in Hhs. pose proof (Hhs h Hi) as Hh. pose proof (Hhs x Hj) as Hx1.
  destruct (call_evolves json_size json_size_nonneg id id_valid io c h _ p pre1 tail1 st1 r h' d' Hp1 Hh H)
    as [[(p' & pre' & tail' & st' & Hp' & _ & Hlt & _ & Hk)|(Hl & _ & _ & Hk)] _].
  - destruct (current x d') eqn:Hcx'; [|done]. exfalso.
    destruct (current_synced json_size id d' p' pre' tail' st' x Hp' (Hk x Hx1) Hox Hcx') as [_ Hrev'].
    destruct Hlt as [->|Hlt]; [|lia]. apply Hne.
    by rewrite (pub_meta _ _ _ _ _ _ _ Hp'), (pub_meta _ _ _ _ _ _ _ Hp).
  - destruct (lost_current id d' x Hl (Hk x Hx1)) as [?|?]; congruence.
Qed.

(** ** Lost directories *)

Lemma lost_meta d d' : d_meta d' = d_meta d -> d_files d' = d_files d -> lost id d -> lost id d'.
Proof. intros Hm Hf (p & Hp & Hv & Hn). exists p. by rewrite Hm, Hf. Qed.

(** No step repairs a directory whose current journal is missing, or opens it. *)
Lemma lost_step s s' : step s s' ->
  lost id (sys_disk s) /\ Forall (stale (sys_disk s)) (sys_handles s) ->
  lost id (sys_disk s') /\ Forall (stale (sys_disk s')) (sys_handles s').
Proof.
  intros [i io c h d hs r h' d' Hi H|io archived d hs r d' H|io io' d hs r d' H|io d hs r d' H] [Hl Hs];
    cbn in *.
  - destruct (lost_call json_size id io c h d r h' d' Hl) as [-> Hh']; [|done|].
    + rewrite Forall_forall in Hs. apply Hs. by eapply list_elem_of_lookup_2.
    + split; [done|]. by apply Forall_insert.
  - destruct (open_lost json_size id id_valid io archived d r d' Hl H) as (Hl' & -> & Hm & _).
    split; [done|]. rewrite app_nil_r. eapply Forall_impl; [exact Hs|]. intros x. by apply stale_meta.
  - unfold Unarchive in H. destruct (negb (ValidWorkerID id)); [by simplify_eq; rewrite app_nil_r|].
    destruct (openLocked json_size io true id d) as [r1 d1] eqn:Ho.
    destruct (open_lost json_size id id_valid io true d r1 d1 Hl Ho) as (Hl' & Hr1 & Hm & _).
    destruct r1; [done|]. simplify_eq. split; [done|]. rewrite app_nil_r.
    eapply Forall_impl; [exact Hs|]. intros x. by apply stale_meta.
  - assert (d_meta d' = d_meta d /\ d_files d' = d_files d) as [Hm Hf].
    { unfold recoverNamespace in H. destruct (readProjectionFile _ _ _); [|by simplify_eq].
      destruct (Bool.eqb _ _); [by simplify_eq|]. destruct (io_rename io); by simplify_eq. }
    split; [by eapply lost_meta|]. eapply Forall_impl; [exact Hs|]. intros x. by apply stale_meta.
Qed.

Lemma lost_runs s s' io archived : runs step s s' -> lost id (sys_disk s) ->
  Forall (stale (sys_disk s)) (sys_handles s) ->
  exists e, (openLocked json_size io archived id (sys_disk s')).1 = Err e.
Proof.
  intros Hr Hl Hs.
  destruct (runs_invariant step _ (fun a b Ha Hb => lost_step a b Hb Ha) s s' Hr (conj Hl Hs)) as [Hl' _].
  destruct (openLocked json_size io archived id (sys_disk s')) as [r d'] eqn:Ho.
  destruct (open_lost json_size id id_valid io archived _ r d' Hl' Ho) as (_ & Hn & _).
  destruct r; [done|eauto].
Qed.
End Safety.

(** A call through a handle that is closed, or that fails the staleness
    check, changes nothing: the directory stays as it is, and so does the
    handle, unless the call is [Close]. *)
Theorem stale_handle_writes_nothing json_size io c h d r h' d' :
  is_open h = false \/ current h d = false ->
  run_call json_size io c (h, d) = (r, (h', d')) ->
  d' = d /\ (c <> CallClose -> h' = h).
Proof.
  intros Hs H. destruct (stale_call json_size io c h d Hs) as (r1 & h1 & E & Hh).
  rewrite E in H. injection H as <- <- <-. split; [done|]. by destruct Hh as [?|[? _]].
Qed.
