(* ===== verification/ThreadStoreExamples.v ===== *)
(** * Thread storage: runs

    Concrete runs of a thread directory: they instantiate the properties of
    [ThreadStoreRestart.v] and [ThreadStoreSafety.v], and one of them shows how a
    rollover whose metadata write fails late loses the thread. *)

From S2P Require Import Prelude GoStd Llm Events ThreadTypes ThreadFacts ThreadStore ThreadReplay ThreadStoreInv ThreadStoreOps ThreadStoreOpen ThreadStoreProps ThreadStoreRestart ThreadStoreSafety.

Local Open Scope Z_scope.
Local Open Scope juex_scope.

(** Every commit takes 100 bytes; the worker [abc123] of the main thread. *)
Definition ex_size (c : Commit) : option Z := Some 100.
Definition ex_worker : string := "abc123".
Definition ex_io (n : Z) : Io := io_ok ((63900000000 + n) * second).
(** The write of [thread.json] fails: before replacing it, or after. *)
Definition ex_io_meta (n : Z) (m : IoResult) : Io :=
  let io := ex_io n in
  mkIo (io_now io) (io_open io) (io_append io) (io_remove io) (io_close io) m (io_layout io)
    (io_renewal io) (io_rename io) (io_index io).

Definition no_handle : Handle :=
  mkHandle "" false (mkEventStore "" false 0 0) zero_state true.
Definition ex_handle (i : nat) (s : System) : Handle := default no_handle (sys_handles s !! i).

(** A call through the first handle; an opening. *)
Definition ex_call (io : Io) (c : Call) (s : System) : System :=
  let w := (run_call ex_size io c (ex_handle 0 s, sys_disk s)).2 in
  mkSystem w.2 (<[0%nat := w.1]> (sys_handles s)).
Definition ex_open (io : Io) (s : System) : System :=
  let o := openLocked ex_size io false ex_worker (sys_disk s) in
  mkSystem o.2 (sys_handles s ++ opened o.1).

Definition ex_created : System :=
  let o := createLocked ex_size (ex_io 0) create_ok ex_worker "helper" "0" in
  mkSystem (default empty_disk o.2) (opened o.1).
Definition ex_hello : Fact :=
  message_fact InitialGeneration "turn-1"
    (mkMessage "m1" RoleUser (Some [textBlock "hello"]) "" false "" None).
Definition ex_usage : Fact := usage_fact "turn-1" "openai:gpt" (mkUsage 10 5 2) None.

(** A message appended; a second handle. *)
Definition ex_written : System := ex_call (ex_io 1) (CallAppendFacts [ex_hello]) ex_created.
Definition ex_two : System := ex_open (ex_io 2) ex_written.

Lemma ex_size_nonneg c n : ex_size c = Some n -> 0 <= n.
Proof. unfold ex_size. intros. by simplify_eq. Qed.
Lemma ex_worker_valid : ValidID ex_worker = true.
Proof. by vm_compute. Qed.

Lemma ex_call_step io c s h : sys_handles s !! 0%nat = Some h ->
  step ex_size ex_worker s (ex_call io c s).
Proof.
  intros Hh. unfold ex_call, ex_handle. rewrite Hh. destruct s as [d hs]. cbn in *.
  destruct (run_call ex_size io c (h, d)) as [r [h' d']] eqn:E. by eapply step_call.
Qed.

Lemma ex_open_step io s : step ex_size ex_worker s (ex_open io s).
Proof.
  unfold ex_open. destruct s as [d hs]. cbn.
  destruct (openLocked ex_size io false ex_worker d) as [r d'] eqn:E. by eapply step_open.
Qed.

Lemma ex_created_reachable : reachable ex_size ex_worker ex_created.
Proof.
  exists ex_created. split; [|apply runs_refl]. exists (ex_io 0), create_ok, "helper"%string, "0"%string.
  unfold ex_created. destruct (createLocked _ _ _ _ _ _) as [r left] eqn:E.
  assert (exists d, left = Some d /\ d_meta d <> MetaAbsent /\ d_files d <> ∅) as (d & -> & Hm & Hf).
  { apply (f_equal snd) in E. cbn [snd] in E. rewrite <- E. eexists. split; [by vm_compute|]. by vm_compute. }
  by exists r, d.
Qed.

Lemma ex_written_reachable : reachable ex_size ex_worker ex_written.
Proof.
  eapply reachable_step; [exact ex_created_reachable|]. by eapply ex_call_step.
Qed.

Lemma ex_two_reachable : reachable ex_size ex_worker ex_two.
Proof. eapply reachable_step; [exact ex_written_reachable|]. apply ex_open_step. Qed.

Example ex_two_handles : length (sys_handles ex_two) = 2%nat.
Proof. by vm_compute. Qed.

(** ** The properties on these runs *)

Definition ex_first : string := journalName InitialGeneration.
Definition ex_journal (s : System) : JournalFile := default (mkFile [] 0) (d_files (sys_disk s) !! ex_first).

(** An append whose record is written and whose metadata is not. *)
Definition ex_interrupted (facts : list Fact) : result ThreadError Commit * World :=
  AppendFacts ex_size (ex_io_meta 3 IoFail) facts (ex_handle 0 ex_written, sys_disk ex_written).
Definition ex_interrupted_disk (facts : list Fact) : Disk := (ex_interrupted facts).2.2.
Definition ex_interrupted_journal (facts : list Fact) : JournalFile :=
  default (mkFile [] 0) (d_files (ex_interrupted_disk facts) !! ex_first).
Definition ex_commit (facts : list Fact) : Commit :=
  default (mkCommit 0 0 0 []) (last (jf_records (ex_interrupted_journal facts))).

Lemma ex_handle_in i s : (i < length (sys_handles s))%nat -> ex_handle i s ∈ sys_handles s.
Proof.
  intros H. unfold ex_handle. destruct (lookup_lt_is_Some_2 _ _ H) as [h Hh]. rewrite Hh.
  by eapply list_elem_of_lookup_2.
Qed.

Lemma ex_undisturbed n : undisturbed (ex_io n).
Proof. by repeat split. Qed.

(** Decides a closed statement by evaluation. *)
Ltac evaluate := first [by vm_compute | vm_compute; lia].

Lemma reopening_restores_handle_witness :
  exists h' d', openLocked ex_size (ex_io 5) false ex_worker (sys_disk ex_written) = (Ok h', d') /\
    h_eventStore h' = h_eventStore (ex_handle 0 ex_written) /\
    h_state h' = touch (p_UpdatedAt (h_projection h')) (h_state (ex_handle 0 ex_written)) /\
    d_meta d' = d_meta (sys_disk ex_written).
Proof.
  apply (reopening_restores_handle ex_size ex_size_nonneg ex_worker ex_worker_valid ex_written
           (ex_handle 0 ex_written) (ex_journal ex_written) (ex_io 5));
    [exact ex_written_reachable|apply ex_handle_in; evaluate| | | | | |apply ex_undisturbed]; evaluate.
Defined.

Lemma interrupted_usage_append_recovered_witness :
  exists s' u h2 d2,
    applyCommit ex_worker (h_state (ex_handle 0 ex_written))
      (mkScanned (ex_commit [ex_usage]) InitialGeneration 272
         (272 + line_size ex_size (ex_commit [ex_usage]))) = Ok s' /\
    c_Facts (ex_commit [ex_usage]) = [ex_usage] /\
    openLocked ex_size (ex_io 5) false ex_worker (ex_interrupted_disk [ex_usage]) = (Ok h2, d2) /\
    h_state h2 = over_projection (advanceProjectionRevision u) s' /\
    c_At (ex_commit [ex_usage]) <= u /\
    d_meta d2 = MetaProjection (h_projection h2) /\
    es_size (h_eventStore h2) = records_size ex_size (jf_records (ex_interrupted_journal [ex_usage])).
Proof.
  apply (interrupted_usage_append_recovered ex_size ex_size_nonneg ex_worker ex_worker_valid
           (ex_io_meta 3 IoFail) (ex_io 5) ex_written (ex_handle 0 ex_written) [ex_usage]
           (ex_interrupted [ex_usage]).1 (ex_interrupted [ex_usage]).2.1 (ex_interrupted_disk [ex_usage])
           (ex_journal ex_written) (ex_interrupted_journal [ex_usage]) (ex_commit [ex_usage]));
    [exact ex_written_reachable|apply ex_handle_in; evaluate|..];
    [| | | | |by apply Forall_singleton| | |apply ex_undisturbed|]; evaluate.
Defined.

Lemma interrupted_append_refused_witness :
  exists d2 f2, openLocked ex_size (ex_io 5) false ex_worker (ex_interrupted_disk [ex_hello]) =
      (Err ErrInvalidMetadata, d2) /\
    d_meta d2 = d_meta (ex_interrupted_disk [ex_hello]) /\
    d_files d2 !! ex_first = Some f2 /\ jf_records f2 = jf_records (ex_interrupted_journal [ex_hello]).
Proof.
  apply (interrupted_append_refused ex_size ex_size_nonneg ex_worker ex_worker_valid
           (ex_io_meta 3 IoFail) (ex_io 5) ex_written (ex_handle 0 ex_written) [ex_hello]
           (ex_interrupted [ex_hello]).1 (ex_interrupted [ex_hello]).2.1 (ex_interrupted_disk [ex_hello])
           (ex_journal ex_written) (ex_interrupted_journal [ex_hello]) (ex_commit [ex_hello]));
    [exact ex_written_reachable|apply ex_handle_in; evaluate|..];
    [| | | | |by apply Exists_cons_hd| | |apply ex_undisturbed]; evaluate.
Defined.

Lemma metadata_always_valid_witness :
  exists p, d_meta (sys_disk ex_two) = MetaProjection p /\ validateProjectionMetadata p ex_worker = Ok tt.
Proof.
  apply (metadata_always_valid ex_size ex_size_nonneg ex_worker ex_worker_valid ex_two ex_two_reachable).
Defined.

(** The rollover of a thread with one message. *)
Definition ex_rolled : System := ex_call (ex_io 4) CallBeginNewGeneration ex_written.
Definition ex_meta (s : System) : Projection :=
  match d_meta (sys_disk s) with
  | MetaProjection p => p
  | _ => zero_projection
  end.

Lemma published_history_append_only_witness :
  (exists p', d_meta (sys_disk ex_rolled) = MetaProjection p' /\
     p_Generations (ex_meta ex_written) `prefix_of` p_Generations p') /\
  exists f', d_files (sys_disk ex_rolled) !! ex_first = Some f' /\
    jf_records (ex_journal ex_written) `prefix_of` jf_records f'.
Proof.
  apply (published_history_append_only ex_size ex_size_nonneg ex_worker ex_worker_valid
           ex_written ex_rolled (ex_meta ex_written) (mkGeneration InitialGeneration 1 1)
           (ex_journal ex_written)).
  - exact ex_written_reachable.
  - apply runs_one. by eapply ex_call_step.
  - evaluate.
  - apply (list_elem_of_lookup_2 _ 0). evaluate.
  - evaluate.
Defined.

Lemma current_handle_holds_journal_witness :
  exists p f pre tail,
    d_meta (sys_disk ex_two) = MetaProjection p /\
    d_files (sys_disk ex_two) !! journalName (g_ID (p_CurrentGeneration p)) = Some f /\
    jf_records f = pre ++ tail /\ (length tail <= 1)%nat /\
    replayCurrentGeneration ex_worker p (scan ex_size (g_ID (p_CurrentGeneration p)) 0 pre) =
      Ok (touch (p_UpdatedAt p) (h_state (ex_handle 1 ex_two))) /\
    es_currentID (h_eventStore (ex_handle 1 ex_two)) = g_ID (p_CurrentGeneration p) /\
    es_size (h_eventStore (ex_handle 1 ex_two)) = records_size ex_size pre /\
    es_nextSeq (h_eventStore (ex_handle 1 ex_two)) = wrap_uint64 (k_Seq (p_EventCursor p) + 1).
Proof.
  apply (current_handle_holds_journal ex_size ex_size_nonneg ex_worker ex_worker_valid ex_two
           (ex_handle 1 ex_two));
    [exact ex_two_reachable|apply ex_handle_in; evaluate|evaluate|evaluate].
Defined.

(** The first handle appends usage; the second is stale. *)
Definition ex_appended : result ThreadError unit * World :=
  run_call ex_size (ex_io 6) (CallAppendFacts [ex_usage]) (ex_handle 0 ex_two, sys_disk ex_two).

Lemma one_current_writer_witness :
  is_open (ex_handle 1 ex_two) = false \/ current (ex_handle 1 ex_two) ex_appended.2.2 = false.
Proof.
  apply (one_current_writer ex_size ex_size_nonneg ex_worker ex_worker_valid ex_two 0 1
           (ex_handle 0 ex_two) (ex_handle 1 ex_two) (ex_io 6) (CallAppendFacts [ex_usage])
           ex_appended.1 ex_appended.2.1 ex_appended.2.2);
    [exact ex_two_reachable|evaluate|evaluate|done|evaluate|evaluate|].
  intros H. apply (f_equal (fun m => match m with MetaProjection p => p_Revision p | _ => 0 end)) in H.
  by vm_compute in H.
Defined.

Lemma stale_handle_writes_nothing_witness :
  ex_appended.2.2 = (run_call ex_size (ex_io 7) (CallAppendFacts [ex_hello])
                       (ex_handle 1 ex_two, ex_appended.2.2)).2.2.
Proof.
  symmetry.
  refine (proj1 (stale_handle_writes_nothing ex_size (ex_io 7) (CallAppendFacts [ex_hello])
                   (ex_handle 1 ex_two) ex_appended.2.2
                   (run_call ex_size (ex_io 7) (CallAppendFacts [ex_hello]) (ex_handle 1 ex_two, ex_appended.2.2)).1
                   (run_call ex_size (ex_io 7) (CallAppendFacts [ex_hello]) (ex_handle 1 ex_two, ex_appended.2.2)).2.1
                   _ (or_intror _) _)); evaluate.
Defined.

(** ** Replay *)

(** Usage after the rollover, and the history it leaves. *)
Definition ex_used : System := ex_call (ex_io 5) (CallAppendFacts [ex_usage]) ex_rolled.
Definition ex_scanned (g : string) : list scannedCommit :=
  scan ex_size g 0
    (jf_records (default (mkFile [] 0) (d_files (sys_disk ex_used) !! journalName g))).
Definition ex_boundary : scannedCommit :=
  default (mkScanned (mkCommit 0 0 0 []) "" 0 0) (head (ex_scanned "g000002")).
Definition ex_replayed : ReplayState :=
  match replay ex_worker (ex_scanned InitialGeneration ++ ex_scanned "g000002") with
  | Ok s => s
  | Err _ => zero_state
  end.

Lemma forall_decided {A} (P : A -> Prop) (b : A -> bool) l :
  (forall a, b a = true -> P a) -> forallb b l = true -> Forall P l.
Proof.
  intros HP. induction l as [|a l IH]; cbn [forallb]; [constructor|].
  intros [Ha Hl]%andb_true_iff. constructor; [by apply HP|by apply IH].
Qed.

Lemma ex_history_validated :
  Forall (fun c => validated ex_worker (sc_Commit c))
    (ex_scanned InitialGeneration ++ ex_boundary :: tail (ex_scanned "g000002")).
Proof.
  apply (forall_decided _ (fun c => is_ok (validateCommit ex_worker (sc_Commit c)))); [|by vm_compute].
  intros c Hc. unfold validated. by destruct (validateCommit _ _) as [[]|].
Qed.

Lemma ex_rest_plain : Forall (fun c => opens_commit c = false) (tail (ex_scanned "g000002")).
Proof.
  apply (forall_decided _ (fun c => negb (opens_commit c))); [|by vm_compute].
  intros c. apply negb_true_iff.
Qed.

Lemma validated_commit_never_panics_witness :
  applyCommit ex_worker ex_replayed ex_boundary <> Err ErrNilPointer /\
  applyRuntimeCommit ex_worker "g000002" ex_boundary true (c_Facts (sc_Commit ex_boundary)) ex_replayed
    <> Err ErrNilPointer.
Proof.
  apply (validated_commit_never_panics ex_worker "g000002" ex_boundary true ex_replayed). evaluate.
Defined.

Lemma current_generation_replay_is_full_replay_witness :
  replayCurrentGeneration ex_worker (s_Projection ex_replayed)
    (ex_boundary :: tail (ex_scanned "g000002")) = Ok ex_replayed.
Proof.
  apply (current_generation_replay_is_full_replay ex_worker (ex_scanned InitialGeneration) ex_boundary
           (tail (ex_scanned "g000002")) ex_replayed);
    [exact ex_worker_valid|exact ex_history_validated|evaluate|exact ex_rest_plain|evaluate].
Defined.

Lemma replay_accounts_for_history_witness :
  a_Total (p_TokenUsage (s_Projection ex_replayed)) = mkUsage 10 5 2 /\
  Z.of_nat (length (p_Generations (s_Projection ex_replayed))) = 2.
Proof.
  destruct (replay_accounts_for_history ex_worker
              (ex_scanned InitialGeneration ++ ex_boundary :: tail (ex_scanned "g000002")) ex_replayed)
    as (H1 & _ & _ & _ & H2); [exact ex_worker_valid|exact ex_history_validated|evaluate|].
  rewrite H1, H2. split; evaluate.
Defined.

(** ** A rollover that loses the thread *)

(** [thread.json] is replaced, and its write still reports an error. *)
Definition ex_lost : System :=
  ex_call (ex_io_meta 4 IoFailCommitted) CallBeginNewGeneration ex_written.

Lemma ex_lost_lost : lost ex_worker (sys_disk ex_lost).
Proof. exists (ex_meta ex_lost). split_and!; evaluate. Qed.

Lemma ex_lost_stale : Forall (stale (sys_disk ex_lost)) (sys_handles ex_lost).
Proof.
  assert (sys_handles ex_lost = [ex_handle 0 ex_lost]) as -> by evaluate.
  apply Forall_singleton. right. intros p Hp. left.
  assert (p = ex_meta ex_lost) as -> by (unfold ex_meta; by rewrite Hp).
  by vm_compute.
Qed.

(** A rollover can lose the thread. When the write of [thread.json] replaces
    the file and then reports an error (the directory could not be synced),
    [beginGeneration] discards the journal that the new metadata names: the
    thread is never opened again, whatever the process does afterwards. *)
Theorem late_rollover_failure_loses_thread sys io archived :
  runs (step ex_size ex_worker) ex_lost sys ->
  reachable ex_size ex_worker ex_lost /\
  exists e, (openLocked ex_size io archived ex_worker (sys_disk sys)).1 = Err e.
Proof.
  intros Hr. split.
  - eapply reachable_step; [exact ex_written_reachable|]. by eapply ex_call_step.
  - apply (lost_runs ex_size ex_worker ex_worker_valid ex_lost sys io archived Hr);
      [exact ex_lost_lost|exact ex_lost_stale].
Qed.

Lemma late_rollover_failure_loses_thread_witness :
  reachable ex_size ex_worker ex_lost /\
  exists e, (openLocked ex_size (ex_io 9) false ex_worker (sys_disk ex_lost)).1 = Err e.
Proof.
  apply (late_rollover_failure_loses_thread ex_lost (ex_io 9) false). apply runs_refl.
Defined.
