(* ===== verification/ThreadTree.v ===== *)
(** * The threads of an agent: [store.go], [worker_depth.go], [inspect.go], [lifecycle.go]

    The two namespaces of thread directories, the index file that lists them
    and the Store methods that work on all of them
    ([src/internal/framework/thread]): the parent chain and its depth limit,
    creation, deletion through the trash, the index and the recovery of the
    layout. One directory is a [Disk] of [ThreadStore.v], and its own methods
    are the ones of that file; the index refresh they end with is composed
    here. Every method runs under the Store lock. A write or rename takes its
    outcome from an [Io] value; reading depends on the content only. *)

From S2P Require Import Prelude GoStd Llm Events ThreadTypes ThreadFacts ThreadStore.
From stdpp Require Import sorting.
From Stdlib Require Import Ascii.

Local Open Scope Z_scope.
Local Open Scope juex_scope.

(** ** Data *)

Definition IndexVersion : Z := 1.

Record IndexEntry := mkEntry {
  x_ThreadID : string;
  x_Alias : string;
  x_ParentThreadID : string;
  x_ArchivedAt : option Time;
  x_CreatedAt : Time;
  x_LastActivityAt : Time;
  x_RetentionState : RetentionState;
  x_ExecutionState : ExecutionState;
  x_PendingInputCount : Z;
  x_TurnCount : Z;
  x_GenerationCount : Z;
  x_CurrentGenerationID : string;
  x_CurrentContextTokens : Z;
  x_TokenUsage : UsageAggregate;
  x_ThreadRevision : Z;
}.

(** [ix_Threads]: a nil slice is [None], which JSON keeps apart from an empty
    one. *)
Record Index := mkIndex {
  ix_Version : Z;
  ix_Revision : Z;
  ix_UpdatedAt : Time;
  ix_Threads : option (list IndexEntry);
}.

#[export] Instance UsageAggregate_eq_dec : EqDecision UsageAggregate.
Proof. solve_decision. Defined.
#[export] Instance IndexEntry_eq_dec : EqDecision IndexEntry.
Proof. solve_decision. Defined.

(** What [readIndexFile] finds: no file, one that cannot be read, text that does
    not decode, a document. *)
Inductive IndexFile :=
| IndexAbsent
| IndexUnreadable
| IndexCorrupt
| IndexDocument (index : Index).

Inductive DirEntry :=
| EntryFile
| EntryDir (d : Disk).

(** The state directory of an agent. *)
Record Agent := mkAgent {
  ag_threads : gmap string DirEntry;
  ag_archive : gmap string DirEntry;
  ag_trash : gmap string DirEntry;
  ag_index : IndexFile;
}.

Definition set_index (x : IndexFile) (a : Agent) : Agent :=
  mkAgent (ag_threads a) (ag_archive a) (ag_trash a) x.
Definition set_trash (t : gmap string DirEntry) (a : Agent) : Agent :=
  mkAgent (ag_threads a) (ag_archive a) t (ag_index a).

Definition namespace (archived : bool) (a : Agent) : gmap string DirEntry :=
  if archived then ag_archive a else ag_threads a.
Definition set_namespace (archived : bool) (m : gmap string DirEntry) (a : Agent) : Agent :=
  if archived then mkAgent (ag_threads a) m (ag_trash a) (ag_index a)
  else mkAgent m (ag_archive a) (ag_trash a) (ag_index a).

(** The directory of a thread in a namespace. *)
Definition dir_at (archived : bool) (id : string) (a : Agent) : option Disk :=
  match namespace archived a !! id with
  | Some (EntryDir d) => Some (set_archived archived d)
  | _ => None
  end.

Definition put_dir (archived : bool) (id : string) (d : Disk) (a : Agent) : Agent :=
  set_namespace archived (<[id := EntryDir d]> (namespace archived a)) a.
Definition remove_dir (archived : bool) (id : string) (a : Agent) : Agent :=
  set_namespace archived (delete id (namespace archived a)) a.

(** The outcomes of one method: those of the thread's own files, of the directory
    of a new thread, of the two index writes (the refresh on loading and the one after a change), of the
    rename back out of the trash and of emptying the trash; the random part of
    a trash name. *)
Record AgentIo := mkAgentIo {
  a_io : Io;
  a_create : CreateIo;
  a_load : IoResult;
  a_index : IoResult;
  a_back : IoResult;
  a_empty : IoResult;
  a_token : string;
}.

Definition agent_ok (now : Time) (token : string) : AgentIo :=
  mkAgentIo (io_ok now) create_ok IoOk IoOk IoOk IoOk token.

(** The outcome of a thread's method as its last step, the index refresh, has it. *)
Definition with_index (refreshed : bool) (io : Io) : Io :=
  mkIo (io_now io) (io_open io) (io_append io) (io_remove io) (io_close io) (io_meta io)
    (io_layout io) (io_renewal io) (io_rename io) refreshed.

Definition A (X : Type) : Type := SM Agent ThreadError X.
Definition get_agent : A Agent := fun a => (Ok a, a).
Definition modify_agent (f : Agent -> Agent) : A unit := fun a => (Ok tt, f a).
Definition pure {X} (r : result ThreadError X) : A X := fun a => (r, a).

(** A call of the file system whose effect is [f]. *)
Definition effect (outcome : IoResult) (e : ThreadError) (f : Agent -> Agent) : A unit :=
  match outcome with
  | IoOk => modify_agent f
  | IoFail => fail e
  | IoFailCommitted => do_ modify_agent f;; fail e
  end.

(** ** Index entries and their order *)

Definition indexEntryFromProjection (p : Projection) : IndexEntry :=
  mkEntry (p_ThreadID p) (p_Alias p) (p_ParentThreadID p) (p_ArchivedAt p) (p_CreatedAt p)
    (p_LastActivityAt p) (p_RetentionState p) (p_ExecutionState p)
    (n_PendingInputCount (p_Counts p)) (n_TurnCount (p_Counts p)) (n_GenerationCount (p_Counts p))
    (g_ID (p_CurrentGeneration p))
    (match p_ContextUsage p with Some c => cp_CurrentTokens c | None => 0 end)
    (UsageAggregate_Clone (p_TokenUsage p)) (p_Revision p).

(** The comparison of [sortIndexEntries]. *)
Definition entry_less (l r : IndexEntry) : bool :=
  let main_l := x_ThreadID l =?s MainID in
  let main_r := x_ThreadID r =?s MainID in
  let active_l := bool_decide (x_RetentionState l = RetentionActive) in
  let active_r := bool_decide (x_RetentionState r = RetentionActive) in
  if negb (Bool.eqb main_l main_r) then main_l
  else if negb (Bool.eqb active_l active_r) then active_l
  else if negb (x_LastActivityAt l =? x_LastActivityAt r)
  then x_LastActivityAt r <? x_LastActivityAt l
  else String.ltb (x_ThreadID l) (x_ThreadID r).

Definition entry_le (l r : IndexEntry) : Prop := entry_less r l = false.
#[export] Instance entry_le_dec : RelDecision entry_le.
Proof. intros l r. unfold entry_le. apply _. Defined.

(** [sort.Slice]; the order is total on entries of different threads. *)
Definition sortIndexEntries (l : list IndexEntry) : list IndexEntry := merge_sort entry_le l.

Definition entries_of (ps : list Projection) : list IndexEntry :=
  map indexEntryFromProjection ps.

(** [reflect.DeepEqual] tells a nil slice from the empty one that [make] gives. *)
Definition indexMatchesProjections (x : Index) (ps : list Projection) : bool :=
  match ix_Threads x with
  | None => false
  | Some l => bool_decide (l = sortIndexEntries (entries_of ps))
  end.

Definition valid_entry (e : IndexEntry) : bool :=
  ValidID (x_ThreadID e) && (x_Alias e <>?s "") && negb (x_ThreadRevision e =? 0) &&
  (x_CurrentGenerationID e <>?s "") &&
  match x_RetentionState e with
  | RetentionActive =>
    bool_decide (x_ArchivedAt e = None) &&
    (bool_decide (x_ExecutionState e = ExecutionIdle) ||
     bool_decide (x_ExecutionState e = ExecutionWorking) ||
     bool_decide (x_ExecutionState e = ExecutionFailed))
  | RetentionArchived =>
    negb (bool_decide (x_ArchivedAt e = None)) &&
    bool_decide (x_ExecutionState e = ExecutionNone)
  | RetentionOther _ => false
  end.

Definition threads_of (x : Index) : list IndexEntry := default [] (ix_Threads x).

Definition validIndexLifecycle (x : Index) : bool :=
  negb ((ix_Revision x =? 0) || (ix_UpdatedAt x =? 0)) && forallb valid_entry (threads_of x).

(** The sorted copy of an empty slice is nil. *)
Definition indexIsSorted (x : Index) : bool :=
  match ix_Threads x with
  | None => true
  | Some [] => false
  | Some l => bool_decide (sortIndexEntries l = l)
  end.

(** ** Metadata of one thread, and the parent chain *)

(** [inspectLocked]: the active namespace first; an archived thread's metadata
    must say so. *)
Definition inspect_at (archived : bool) (id : string) (a : Agent) :
    option (result ThreadError (bool * Projection)) :=
  match namespace archived a !! id with
  | None => None
  | Some EntryFile => Some (Err ErrInvalidMetadata)
  | Some (EntryDir d) =>
    match d_meta d with
    | MetaAbsent => None
    | _ =>
      Some (try p := readProjectionFile archived id (set_archived archived d) in
            if Bool.eqb (bool_decide (p_RetentionState p = RetentionArchived)) archived
            then Ok (archived, p) else Err ErrInvalidMetadata)
    end
  end.

Definition inspectLocked (a : Agent) (id : string) : result ThreadError (bool * Projection) :=
  if negb (ValidID id) then Err ErrInvalidID
  else match inspect_at false id a with
  | Some r => r
  | None => default (Err ErrNotExist) (inspect_at true id a)
  end.

(** The loop of [depthLocked]; [None] when the fuel runs out. *)
Fixpoint depth_loop (fuel : nat) (a : Agent) (seen : gset string) (depth : Z) (id : string) :
    option (result ThreadError Z) :=
  match fuel with
  | O => None
  | S k =>
    if bool_decide (id ∈ seen) then Some (Err ErrInvalidMetadata)
    else match inspectLocked a id with
    | Err e => Some (Err e)
    | Ok (_, p) =>
      if id =?s MainID then Some (Ok depth)
      else depth_loop k a ({[id]} ∪ seen) (depth + 1) (p_ParentThreadID p)
    end
  end.

(** Every turn but the last one sees a directory it has not seen. *)
Definition chain_fuel (a : Agent) : nat := S (S (size (ag_threads a) + size (ag_archive a))).

Definition depthLocked (a : Agent) (id : string) : result ThreadError Z :=
  default (Err ErrInvalidMetadata) (depth_loop (chain_fuel a) a ∅ 0 id).

Definition checkWorkerDepthLocked (a : Agent) (parentID : string) (maxDepth : Z) :
    result ThreadError unit :=
  if maxDepth <? 1 then Err ErrBusy
  else
    try depth := depthLocked a parentID in
    if maxDepth <=? depth then Err ErrBusy else Ok tt.

Section Tree.
  (** [json.Marshal] of a commit, and the case folding table. *)
  Context (json_size : Commit -> option Z) (fold : Z -> Z).

Abbreviation EqualFold := (EqualFold fold).

(** ** The metadata of all threads *)

(** Whether an alias or a parent is acceptable; [previous] are the threads
    already visited, in order. *)
Fixpoint check_set (ids : gset string) (all previous rest : list Projection) : bool :=
  match rest with
  | [] => true
  | p :: r =>
    negb (existsb (fun q => EqualFold (p_Alias p) (p_ThreadID q)) all) &&
    negb (existsb (fun q => EqualFold (p_Alias p) (p_Alias q)) previous) &&
    negb ((p_ThreadID p <>?s MainID) && bool_decide (MainID ∈ ids) &&
          negb (bool_decide (ToLower (p_ParentThreadID p) ∈ ids))) &&
    check_set ids all (previous ++ [p]) r
  end.

(** The cycle check from one thread: [Some false] is a cycle, [None] no fuel. *)
Fixpoint chain_loop (fuel : nat) (parents : gmap string string) (seen : gset string)
    (current : string) : option bool :=
  match fuel with
  | O => None
  | S k =>
    if current =?s MainID then Some true
    else if bool_decide (current ∈ seen) then Some false
    else match parents !! current with
         | None => Some true
         | Some parent => chain_loop k parents ({[current]} ∪ seen) parent
         end
  end.

Definition parents_of (ps : list Projection) : gmap string string :=
  foldl (fun m p => <[p_ThreadID p := p_ParentThreadID p]> m) ∅ ps.

Definition ids_of (ps : list Projection) : gset string :=
  list_to_set (map (fun p => ToLower (p_ThreadID p)) ps).

Definition validateProjectionSet (ps : list Projection) : result ThreadError unit :=
  let parents := parents_of ps in
  check
    (check_set (ids_of ps) ps [] ps &&
     forallb (fun id => default false (chain_loop (S (S (size parents))) parents ∅ id))
       (elements (dom parents)))
    ErrInvalidMetadata.

(** [os.ReadDir]. *)
Definition dir_names (m : gmap string DirEntry) : list string :=
  merge_sort name_le (map fst (map_to_list m)).

Fixpoint scan_names (archived : bool) (a : Agent) (names : list string) (acc : list Projection) :
    result ThreadError (list Projection) :=
  match names with
  | [] => Ok acc
  | name :: rest =>
    match dir_at archived name a with
    | None => scan_names archived a rest acc
    | Some d =>
      if negb (ValidID name) then scan_names archived a rest acc
      else if bool_decide (name ∈ map p_ThreadID acc) then Err ErrInvalidMetadata
      else
        try p := readProjectionFile archived name d in
        if Bool.eqb (bool_decide (p_RetentionState p = RetentionArchived)) archived
        then scan_names archived a rest (acc ++ [p])
        else Err ErrInvalidMetadata
    end
  end.

Definition scanProjectionFilesLocked (a : Agent) : result ThreadError (list Projection) :=
  try active := scan_names false a (dir_names (ag_threads a)) [] in
  try all := scan_names true a (dir_names (ag_archive a)) active in
  try _ := validateProjectionSet all in
  Ok all.

(** ** The index file *)

Definition readIndexFile (a : Agent) : result ThreadError Index :=
  match ag_index a with
  | IndexAbsent => Err ErrNotExist
  | IndexUnreadable => Err ErrIO
  | IndexCorrupt => Err ErrIndex
  | IndexDocument x => Ok x
  end.

(** Returns the index as written. *)
Definition writeIndexLocked (outcome : IoResult) (now : Time) (x : Index) : A Index :=
  let x' := mkIndex IndexVersion (wrap_uint64 (ix_Revision x + 1)) (NewTimestamp now)
              (sortIndexEntries <$> ix_Threads x) in
  do_ effect outcome ErrIO (set_index (IndexDocument x'));;
  ret x'.

Definition writeProjectionIndexLocked (outcome : IoResult) (now : Time) (ps : list Projection)
    (revision : Z) : A Index :=
  writeIndexLocked outcome now
    (mkIndex IndexVersion revision (NewTimestamp now)
       (match ps with [] => None | _ => Some (entries_of ps) end)).

Definition known_revision (r : result ThreadError Index) : Z :=
  match r with
  | Ok x => if ix_Version x =? IndexVersion then ix_Revision x else 0
  | Err _ => 0
  end.

Definition updateProjectionLocked (outcome : IoResult) (now : Time) : A unit :=
  do a <- get_agent;;
  let revision := known_revision (readIndexFile a) in
  do ps <- pure (scanProjectionFilesLocked a);;
  do_ writeProjectionIndexLocked outcome now ps revision;;
  ret tt.

Definition loadOrRebuildIndexLocked (outcome : IoResult) (now : Time) : A Index :=
  do a <- get_agent;;
  do ps <- pure (scanProjectionFilesLocked a);;
  let rebuild := writeProjectionIndexLocked outcome now ps (known_revision (readIndexFile a)) in
  match readIndexFile a with
  | Ok x =>
    if (ix_Version x =? IndexVersion) && validIndexLifecycle x && indexMatchesProjections x ps
    then ret x else rebuild
  | Err ErrIO => fail ErrIO
  | Err _ => rebuild
  end.

Definition rebuildIndexLocked (outcome : IoResult) (now : Time) : A Index :=
  do a <- get_agent;;
  do ps <- pure (scanProjectionFilesLocked a);;
  writeProjectionIndexLocked outcome now ps 0.

Definition ListThreads (a : Agent) : result ThreadError (list IndexEntry) :=
  try x := readIndexFile a in
  if negb (ix_Version x =? IndexVersion) || negb (validIndexLifecycle x) || negb (indexIsSorted x)
  then Err ErrInvalidMetadata
  else Ok (threads_of x).

(** ** Opening and creating *)

(** [openLocked] with its last step, the index: a failure closes the handle. *)
Definition openThread (io : AgentIo) (archived : bool) (id : string) : A Handle :=
  do a <- get_agent;;
  if negb (ValidID id) then fail ErrInvalidID
  else match namespace archived a !! id with
  | None => fail ErrNotExist
  | Some EntryFile => fail ErrIO
  | Some (EntryDir d) =>
    let '(r, d') := openLocked json_size (with_index true (a_io io)) archived id
                      (set_archived archived d) in
    do_ modify_agent (put_dir archived id d');;
    do h <- pure r;;
    do_ loadOrRebuildIndexLocked (a_load io) (io_now (a_io io));;
    ret h
  end.

(** [createLocked] in the active namespace: the directory it leaves there, and the
    index refresh of a published thread. *)
Definition createThread (io : AgentIo) (id alias parentID : string) : A Handle :=
  let '(r, dir) :=
    createLocked json_size (with_index true (a_io io)) (a_create io) id alias parentID in
  do_ modify_agent (fun a => match dir with Some d => put_dir false id d a | None => a end);;
  do h <- pure r;;
  do_ updateProjectionLocked (a_index io) (io_now (a_io io));;
  ret h.

Definition EnsureMain (io : AgentIo) : A Handle :=
  do a <- get_agent;;
  match ag_threads a !! MainID with
  | Some (EntryDir d) =>
    match d_meta d with
    | MetaAbsent => fail ErrInvalidMetadata
    | _ => openThread io false MainID
    end
  | Some EntryFile => fail ErrIO
  | None => createThread io MainID MainAlias ""
  end.

Definition indexContainsIdentity (x : Index) (identity : string) : bool :=
  existsb (fun e => EqualFold (x_ThreadID e) identity || EqualFold (x_Alias e) identity)
    (threads_of x).

Definition workerIDAvailableLocked (a : Agent) (id : string) : bool :=
  bool_decide (ag_threads a !! id = None) && bool_decide (ag_archive a !! id = None).

Definition validateAliasAvailable (x : Index) (alias exceptID : string) : bool :=
  (alias <>?s "") &&
  forallb (fun e => negb (EqualFold (x_ThreadID e) alias) &&
                    negb ((x_ThreadID e <>?s exceptID) && EqualFold (x_Alias e) alias))
    (threads_of x).

Definition worker_alias (explicit id : string) : string :=
  if explicit =?s "" then DefaultWorkerAlias id else explicit.

(** The attempts of [CreateWorker] to draw an identity; [raw] are the bytes the
    random reader delivers to each. *)
Fixpoint draw_worker (attempts : nat) (x : Index) (a : Agent) (explicit : string)
    (raw : nat -> list Z) (attempt : nat) : result ThreadError (string * string) :=
  match attempts with
  | O => Err ErrBusy
  | S k =>
    match newWorkerID (raw attempt) with
    | None => Err ErrIO
    | Some id =>
      let alias := worker_alias explicit id in
      if indexContainsIdentity x id || EqualFold alias id || negb (workerIDAvailableLocked a id)
      then draw_worker k x a explicit raw (S attempt)
      else if validateAliasAvailable x alias "" then Ok (id, alias)
      else if explicit <>?s "" then Err ErrAlias
      else draw_worker k x a explicit raw (S attempt)
    end
  end.

Definition active_in (x : Index) (id : string) : bool :=
  existsb (fun e => (x_ThreadID e =?s id) && bool_decide (x_RetentionState e = RetentionActive))
    (threads_of x).

Definition CreateWorker (io : AgentIo) (raw : nat -> list Z) (parentID alias : string)
    (maxDepth : Z) : A Handle :=
  do a <- get_agent;;
  do_ pure (checkWorkerDepthLocked a parentID maxDepth);;
  do x <- loadOrRebuildIndexLocked (a_load io) (io_now (a_io io));;
  if negb (active_in x parentID) then fail ErrNotExist
  else if (alias <>?s "") && negb (validateAliasAvailable x alias "") then fail ErrAlias
  else
    do a <- get_agent;;
    do worker <- pure (draw_worker 64 x a alias raw 0);;
    createThread io worker.1 worker.2 parentID.

(** ** Guards of the methods of a thread *)

(** What [ApplyAlias] and [Archive] of a thread find in the index before they
    act, and the index they leave. *)
Definition alias_available (io : AgentIo) (id alias : string) : A bool :=
  do x <- loadOrRebuildIndexLocked (a_load io) (io_now (a_io io));;
  ret (validateAliasAvailable x alias id).

Definition has_active_child (io : AgentIo) (id : string) : A bool :=
  do x <- loadOrRebuildIndexLocked (a_load io) (io_now (a_io io));;
  ret (existsb (fun e => (x_ParentThreadID e =?s id) &&
                         bool_decide (x_RetentionState e = RetentionActive)) (threads_of x)).

(** ** Deletion *)

(** The entry loop of the two deletions: a child or the other namespace stops
    it, [Ok true] is a thread found. *)
Fixpoint find_deletable (id : string) (want : RetentionState) (found : bool)
    (l : list IndexEntry) : result ThreadError bool :=
  match l with
  | [] => Ok found
  | e :: r =>
    if x_ParentThreadID e =?s id then Err ErrBusy
    else if x_ThreadID e =?s id then
      if bool_decide (x_RetentionState e = want) then find_deletable id want true r
      else Err ErrBusy
    else find_deletable id want found r
  end.

Definition trash_name (prefix id token : string) : string :=
  (id ++ "." ++ prefix ++ token)%string.

(** [durableRename] into the trash and back: the destination must be free. *)
Definition to_trash (outcome : IoResult) (archived : bool) (id trash : string) : A unit :=
  do a <- get_agent;;
  match namespace archived a !! id, ag_trash a !! trash with
  | Some e, None =>
    effect outcome ErrIO (fun a => set_trash (<[trash := e]> (ag_trash a)) (remove_dir archived id a))
  | _, _ => fail ErrIO
  end.

Definition from_trash (outcome : IoResult) (archived : bool) (id trash : string) : A unit :=
  do a <- get_agent;;
  match ag_trash a !! trash, namespace archived a !! id with
  | Some e, None =>
    effect outcome ErrIO
      (fun a => set_trash (delete trash (ag_trash a))
                  (set_namespace archived (<[id := e]> (namespace archived a)) a))
  | _, _ => fail ErrIO
  end.

(** From the loaded index on: the thread moves to the trash, the index without it is
    written (or the thread moves back), and the trash is emptied. *)
Definition delete_thread (io : AgentIo) (archived : bool) (prefix id : string) (x : Index) : A unit :=
  let trash := trash_name prefix id (a_token io) in
  do_ to_trash (io_rename (a_io io)) archived id trash;;
  let x' := mkIndex (ix_Version x) (ix_Revision x) (ix_UpdatedAt x)
              (filter (fun e => x_ThreadID e <> id) <$> ix_Threads x) in
  fun a =>
    match writeIndexLocked (a_index io) (io_now (a_io io)) x' a with
    | (Err e, a') => (Err e, (from_trash (a_back io) archived id trash a').2)
    | (Ok _, a') =>
      effect (a_empty io) ErrIO (fun a => set_trash (delete trash (ag_trash a)) a) a'
    end.

Definition DeleteArchived (io : AgentIo) (id : string) : A unit :=
  if negb (ValidWorkerID id) then fail ErrInvalidID
  else
    do x <- loadOrRebuildIndexLocked (a_load io) (io_now (a_io io));;
    do found <- pure (find_deletable id RetentionArchived false (threads_of x));;
    if negb found then fail ErrNotExist
    else if negb (io_renewal (a_io io)) then fail ErrContextRenewal
    else delete_thread io true "delete_" id x.

Definition RollbackWorkerCreation (io : AgentIo) (id : string) : A unit :=
  if negb (ValidWorkerID id) then fail ErrInvalidID
  else
    do x <- loadOrRebuildIndexLocked (a_load io) (io_now (a_io io));;
    do found <- pure (find_deletable id RetentionActive false (threads_of x));;
    if negb found then fail ErrNotExist
    else delete_thread io false "rollback_" id x.

(** ** Recovery of the layout *)

(** One directory of [RecoverLayout]: it moves to the namespace its metadata
    names, which must not hold one of that name. *)
Definition recover_dir (io : Io) (archived : bool) (name : string) : A unit :=
  do a <- get_agent;;
  match dir_at archived name a with
  | None => ret tt
  | Some d =>
    if negb (ValidWorkerID name) then ret tt
    else
      do p <- pure (readProjectionFile archived name d);;
      let shouldArchive := bool_decide (p_RetentionState p = RetentionArchived) in
      do_ (if Bool.eqb shouldArchive archived then ret tt
           else match namespace shouldArchive a !! name with
                | Some _ => fail ErrIO
                | None =>
                  effect (io_rename io) ErrIO
                    (fun a => put_dir shouldArchive name (set_archived shouldArchive d)
                                (remove_dir archived name a))
                end);;
      if io_renewal io then ret tt else fail ErrContextRenewal
  end.

Fixpoint recover_dirs (ios : string -> Io) (archived : bool) (names : list string) : A unit :=
  match names with
  | [] => ret tt
  | name :: rest => do_ recover_dir (ios name) archived name;; recover_dirs ios archived rest
  end.

Fixpoint empty_trash (removed : string -> bool) (names : list string) : A unit :=
  match names with
  | [] => ret tt
  | name :: rest =>
    do a <- get_agent;;
    match ag_trash a !! name, Cut "."%char name with
    | Some (EntryDir _), Some (threadID, _) =>
      if negb (ValidWorkerID threadID) then fail ErrIO
      else if negb (removed name) then fail ErrIO
      else
        do_ modify_agent (fun a => set_trash (delete name (ag_trash a)) a);;
        empty_trash removed rest
    | _, _ => fail ErrIO
    end
  end.

Definition finishTrashOperationsLocked (synced : IoResult) (removed : string -> bool) : A unit :=
  do a <- get_agent;;
  do_ empty_trash removed (dir_names (ag_trash a));;
  if bool_decide (synced = IoOk) then ret tt else fail ErrIO.

Definition RecoverLayout (io : AgentIo) (ios : string -> Io) (removed : string -> bool) : A unit :=
  do a <- get_agent;;
  do_ recover_dirs ios false (dir_names (ag_threads a));;
  do a <- get_agent;;
  do_ recover_dirs ios true (dir_names (ag_archive a));;
  do_ rebuildIndexLocked (a_index io) (io_now (a_io io));;
  finishTrashOperationsLocked (a_empty io) removed.

(** ** An agent and the handles of its threads *)

Record Tree := mkTree { t_agent : Agent; t_handles : gmap string (list Handle) }.

Definition handles_of (t : Tree) (id : string) : list Handle := default [] (t_handles t !! id).

Definition add_opened (id : string) (r : result ThreadError Handle) (t : Tree) : gmap string (list Handle) :=
  <[id := handles_of t id ++ opened r]> (t_handles t).

(** The id of the thread [CreateWorker] returns. *)
Definition opened_id (r : result ThreadError Handle) : string :=
  match r with
  | Ok h => h_ID h
  | Err _ => ""
  end.

(** The directory after a method of the thread, in the namespace it is in now. *)
Definition relocate (archived : bool) (id : string) (d : Disk) (a : Agent) : Agent :=
  put_dir (d_archived d) id d (remove_dir archived id a).

(** What a method finds out about the other threads before it acts. *)
Definition informed (io : AgentIo) (id : string) (c : Call) (a : Agent) : Prop :=
  match c with
  | CallApplyAlias available alias =>
    (alias_available io id alias a).1 = Ok available \/
    is_ok (alias_available io id alias a).1 = false /\ available = false
  | CallArchive active_child =>
    (has_active_child io id a).1 = Ok active_child \/
    is_ok (has_active_child io id a).1 = false /\ active_child = true
  | _ => True
  end.

(** Handles of a deleted thread: its directory is gone and its id is not drawn
    again. *)
Definition drop_handles (id : string) (a : Agent) (hs : gmap string (list Handle)) :
    gmap string (list Handle) :=
  if workerIDAvailableLocked a id then delete id hs else hs.

(** A method of a thread also refreshes the index file, to [index]. *)
Inductive tree_step : Tree -> Tree -> Prop :=
| tree_main io t r a :
    EnsureMain io (t_agent t) = (r, a) ->
    tree_step t (mkTree a (add_opened MainID r t))
| tree_create io raw parentID alias maxDepth t r a :
    CreateWorker io raw parentID alias maxDepth (t_agent t) = (r, a) ->
    tree_step t (mkTree a (add_opened (opened_id r) r t))
| tree_open io archived id t r a :
    openThread io archived id (t_agent t) = (r, a) ->
    tree_step t (mkTree a (add_opened id r t))
| tree_call io archived id c t d i h r h' d' index :
    dir_at archived id (t_agent t) = Some d -> handles_of t id !! i = Some h ->
    informed io id c (t_agent t) ->
    run_call json_size (a_io io) c (h, d) = (r, (h', d')) ->
    tree_step t (mkTree (set_index index (relocate archived id d' (t_agent t)))
                   (<[id := <[i := h']> (handles_of t id)]> (t_handles t)))
| tree_unarchive io io' id t d r d' index :
    dir_at true id (t_agent t) = Some d -> Unarchive json_size io io' id d = (r, d') ->
    tree_step t (mkTree (set_index index (relocate true id d' (t_agent t))) (add_opened id r t))
| tree_delete io id t r a :
    DeleteArchived io id (t_agent t) = (r, a) ->
    tree_step t (mkTree a (drop_handles id a (t_handles t)))
| tree_rollback io id t r a :
    RollbackWorkerCreation io id (t_agent t) = (r, a) ->
    tree_step t (mkTree a (drop_handles id a (t_handles t)))
| tree_recover io ios removed t r a :
    RecoverLayout io ios removed (t_agent t) = (r, a) ->
    tree_step t (mkTree a (t_handles t)).

(** A new agent: no thread, whatever the index file is. *)
Definition empty_tree (t : Tree) : Prop :=
  ag_threads (t_agent t) = ∅ /\ ag_archive (t_agent t) = ∅ /\ t_handles t = ∅.

Definition tree_reachable (t : Tree) : Prop := exists t0, empty_tree t0 /\ runs tree_step t0 t.
End Tree.
