(* ===== verification/ThreadTreeInv.v ===== *)
(** * The threads of an agent: order, chains, consistent sets

    The lemmas about the definitions of [ThreadTree.v]: the order of the index,
    parent chains as a well-founded relation, and what the check of all
    metadata ([validateProjectionSet]) decides. *)

From S2P Require Import Prelude GoStd Llm Events ThreadTypes ThreadFacts ThreadStore ThreadTree.
From stdpp Require Import sorting relations.
From Stdlib Require Import Ascii.

Local Open Scope Z_scope.
Local Open Scope juex_scope.

(** ** The order of strings and of index entries *)

Lemma ascii_compare_N a b : Ascii.compare a b = N.compare (N_of_ascii a) (N_of_ascii b).
Proof. reflexivity. Qed.

Lemma string_ltb_cons a s b t :
  String.ltb (String a s) (String b t) = true <->
  (N_of_ascii a < N_of_ascii b)%N \/ a = b /\ String.ltb s t = true.
Proof.
  unfold String.ltb. cbn [String.compare]. rewrite ascii_compare_N.
  destruct (N.compare_spec (N_of_ascii a) (N_of_ascii b)) as [E|E|E].
  - split; [intros H; right; split; [|done]|intros [?|[_ ?]]; [lia|done]].
    by rewrite <- (ascii_N_embedding a), E, ascii_N_embedding.
  - split; [by left|done].
  - split; [done|]. intros [?|[-> _]]; lia.
Qed.

Lemma string_ltb_trans s t u :
  String.ltb s t = true -> String.ltb t u = true -> String.ltb s u = true.
Proof.
  revert t u. induction s as [|a s IH]; intros [|b t] [|c u]; try done.
  rewrite !string_ltb_cons. intros [?|[-> ?]] [?|[-> ?]]; [left; lia|by left|by left|right].
  split; [done|]. by eapply IH.
Qed.

Lemma string_ltb_irrefl s : String.ltb s s = false.
Proof.
  induction s as [|a s IH]; [done|]. apply not_true_iff_false. rewrite string_ltb_cons.
  intros [?|[_ ?]]; [lia|congruence].
Qed.

Lemma string_ltb_total s t : s <> t -> String.ltb s t = true \/ String.ltb t s = true.
Proof.
  intros Hne. unfold String.ltb. rewrite (String.compare_antisym t s).
  destruct (String.compare s t) eqn:E; cbn; [|by left|by right].
  by apply String.compare_eq_iff in E.
Qed.

Lemma entry_less_irrefl e : entry_less e e = false.
Proof.
  unfold entry_less. rewrite !eqb_reflx, Z.eqb_refl. cbn [negb]. apply string_ltb_irrefl.
Qed.

(** The comparison as an order of keys, compared one after the other. *)
Lemma entry_less_cases a b :
  entry_less a b = true <->
  (x_ThreadID a = MainID /\ x_ThreadID b <> MainID) \/
  ((x_ThreadID a = MainID <-> x_ThreadID b = MainID) /\
   ((x_RetentionState a = RetentionActive /\ x_RetentionState b <> RetentionActive) \/
    ((x_RetentionState a = RetentionActive <-> x_RetentionState b = RetentionActive) /\
     (x_LastActivityAt b < x_LastActivityAt a \/
      (x_LastActivityAt a = x_LastActivityAt b /\
       String.ltb (x_ThreadID a) (x_ThreadID b) = true))))).
Proof.
  unfold entry_less.
  destruct (decide (x_ThreadID a = MainID)) as [H1|H1],
           (decide (x_ThreadID b = MainID)) as [H2|H2];
    rewrite ?(bool_decide_eq_true_2 _ H1), ?(bool_decide_eq_false_2 _ H1),
            ?(bool_decide_eq_true_2 _ H2), ?(bool_decide_eq_false_2 _ H2); cbn;
    try (intuition done).
  all: destruct (decide (x_RetentionState a = RetentionActive)) as [H3|H3],
           (decide (x_RetentionState b = RetentionActive)) as [H4|H4];
    rewrite ?(bool_decide_eq_true_2 _ H3), ?(bool_decide_eq_false_2 _ H3),
            ?(bool_decide_eq_true_2 _ H4), ?(bool_decide_eq_false_2 _ H4); cbn;
    try (intuition done).
  all: destruct (Z.eqb_spec (x_LastActivityAt a) (x_LastActivityAt b)); cbn [negb];
    rewrite ?Z.ltb_lt; intuition (done || lia).
Qed.

Lemma entry_less_trans a b c :
  entry_less a b = true -> entry_less b c = true -> entry_less a c = true.
Proof.
  rewrite !entry_less_cases.
  pose proof (string_ltb_trans (x_ThreadID a) (x_ThreadID b) (x_ThreadID c)) as Ht.
  intros [H|[H1 [H|[H2 [H|[H3 H]]]]]] [K|[K1 [K|[K2 [K|[K3 K]]]]]];
    [left; tauto..|right|right|right|left; tauto|right|right|right|left; tauto|right|right|right];
    (split; [tauto|]); try (left; tauto); right; (split; [tauto|]); intuition (try lia).
Qed.

Lemma entry_less_total a b : x_ThreadID a <> x_ThreadID b ->
  entry_less a b = true \/ entry_less b a = true.
Proof.
  intros Hne. rewrite !entry_less_cases.
  destruct (decide (x_ThreadID a = MainID)), (decide (x_ThreadID b = MainID)); [congruence|tauto|tauto|].
  destruct (decide (x_RetentionState a = RetentionActive)), (decide (x_RetentionState b = RetentionActive));
    [|tauto|tauto|];
    destruct (Z.lt_total (x_LastActivityAt a) (x_LastActivityAt b)) as [?|[?|?]];
    try tauto; destruct (string_ltb_total _ _ Hne); intuition.
Qed.

Lemma entry_less_asym a b : entry_less a b = true -> entry_less b a = false.
Proof.
  intros H. apply not_true_iff_false. intros H'. pose proof (entry_less_trans a b a H H') as E.
  by rewrite entry_less_irrefl in E.
Qed.

#[export] Instance entry_le_total : Total entry_le.
Proof.
  intros a b. unfold entry_le. destruct (entry_less b a) eqn:E; [right|by left].
  by apply entry_less_asym.
Qed.

(** The order is total on entries of different threads. *)
Lemma entry_le_antisym a b : entry_le a b -> entry_le b a -> x_ThreadID a = x_ThreadID b.
Proof.
  unfold entry_le. intros H1 H2. destruct (decide (x_ThreadID a = x_ThreadID b)) as [|Hne]; [done|].
  destruct (entry_less_total a b Hne); congruence.
Qed.

Lemma entry_le_of_less a b : x_ThreadID a <> x_ThreadID b -> entry_le a b -> entry_less a b = true.
Proof.
  unfold entry_le. intros Hne H. destruct (entry_less_total a b Hne); congruence.
Qed.

Lemma Sorted_le_strong l :
  NoDup (map x_ThreadID l) -> Sorted entry_le l -> StronglySorted (fun a b => entry_less a b = true) l.
Proof.
  intros Hnd Hs. apply Sorted_StronglySorted.
  { intros a b c. apply entry_less_trans. }
  induction Hs as [|a l Hs IH Hhd]; [constructor|]. cbn in Hnd. apply NoDup_cons in Hnd as [Hn Hnd].
  constructor; [by apply IH|]. destruct Hhd as [|b l Hab]; constructor.
  apply entry_le_of_less; [|done]. intros E. apply Hn. rewrite E. cbn. left.
Qed.

(** Two sorted lists of the same entries are one list. *)
Lemma sorted_entries_unique l1 l2 : NoDup (map x_ThreadID l1) -> l1 ≡ₚ l2 ->
  Sorted entry_le l1 -> Sorted entry_le l2 -> l1 = l2.
Proof.
  intros Hnd Hp H1 H2.
  apply (StronglySorted_unique_strong (fun a b => entry_less a b = true)); [|by apply Sorted_le_strong| |done].
  - intros a b _ _ Hab Hba. rewrite (entry_less_asym _ _ Hab) in Hba. done.
  - apply Sorted_le_strong; [|done]. by rewrite <- Hp.
Qed.

Lemma sort_permutation l : sortIndexEntries l ≡ₚ l.
Proof. apply merge_sort_Permutation. Qed.

Lemma sort_sorted l : Sorted entry_le (sortIndexEntries l).
Proof. apply Sorted_merge_sort, _. Qed.

Lemma sort_idempotent l : NoDup (map x_ThreadID l) ->
  sortIndexEntries (sortIndexEntries l) = sortIndexEntries l.
Proof.
  intros Hnd. apply sorted_entries_unique; [|apply sort_permutation|apply sort_sorted..].
  by rewrite !sort_permutation.
Qed.

Lemma sort_perm_eq l1 l2 : NoDup (map x_ThreadID l1) -> l1 ≡ₚ l2 ->
  sortIndexEntries l1 = sortIndexEntries l2.
Proof.
  intros Hnd Hp. apply sorted_entries_unique; [|by rewrite !sort_permutation|apply sort_sorted..].
  by rewrite sort_permutation.
Qed.

(** ** Parent chains *)

(** One step up: the parent of a thread other than Main. *)
Definition up (parents : gmap string string) (id parent : string) : Prop :=
  id <> MainID /\ parents !! id = Some parent.

(** The chain from [id] ends, at Main or at a thread that is not there. *)
Definition rooted (parents : gmap string string) (id : string) : Prop :=
  Acc (fun parent id => up parents id parent) id.

Lemma up_functional parents id p q : up parents id p -> up parents id q -> p = q.
Proof. intros [_ H1] [_ H2]. congruence. Qed.

Lemma rooted_up parents id p : up parents id p -> rooted parents id <-> rooted parents p.
Proof.
  intros H. split; [intros [Ha]; by apply Ha|]. intros Ha. constructor. intros q Hq.
  by rewrite (up_functional parents id q p Hq H).
Qed.

Lemma rooted_no_cycle parents id : rooted parents id -> ~ tc (up parents) id id.
Proof.
  induction 1 as [x _ IH]. intros Ht.
  assert (exists y, up parents x y /\ tc (up parents) y y) as (y & Hy & Hc).
  { inversion Ht as [? ? H|? y ? H Hr]; subst; [by exists x|].
    exists y. split; [done|]. by eapply tc_r. }
  by apply (IH y Hy).
Qed.

Lemma chain_loop_spec parents fuel : forall seen id,
  seen ⊆ dom parents -> (forall s, s ∈ seen -> tc (up parents) s id) ->
  (size (dom parents) < fuel + size seen)%nat ->
  exists b, chain_loop fuel parents seen id = Some b /\ (b = true <-> rooted parents id).
Proof.
  induction fuel as [|k IH]; intros seen id Hsub Hseen Hf.
  { pose proof (subseteq_size seen (dom parents) Hsub). lia. }
  cbn [chain_loop]. destruct (decide (id = MainID)) as [Hm|Hm].
  { rewrite bool_decide_eq_true_2 by done. eexists. split; [done|]. split; [|done]. intros _.
    constructor. intros q [? _]. done. }
  rewrite bool_decide_eq_false_2 by done.
  destruct (decide (id ∈ seen)) as [Hs|Hs].
  { rewrite bool_decide_eq_true_2 by done. eexists. split; [done|]. split; [done|].
    intros Hr. destruct (rooted_no_cycle _ _ Hr). by apply Hseen. }
  rewrite bool_decide_eq_false_2 by done.
  destruct (parents !! id) as [p|] eqn:Hp.
  2: { eexists. split; [done|]. split; [|done]. intros _. constructor. intros q [_ ?]. congruence. }
  assert (up parents id p) as Hup by done.
  destruct (IH ({[id]} ∪ seen) p) as (b & E & Hb).
  - apply union_subseteq. split; [|done]. apply singleton_subseteq_l, elem_of_dom. eauto.
  - intros s [->%elem_of_singleton|Hin]%elem_of_union; [by apply tc_once|].
    by eapply tc_r; [apply Hseen|].
  - rewrite size_union, size_singleton by set_solver. lia.
  - exists b. split; [done|]. by rewrite Hb, (rooted_up parents id p).
Qed.

(** The fuel of [validateProjectionSet] is enough, and the check is right. *)
Lemma chain_check parents id :
  default false (chain_loop (S (S (size parents))) parents ∅ id) = true <-> rooted parents id.
Proof.
  destruct (chain_loop_spec parents (S (S (size parents))) ∅ id) as (b & -> & Hb);
    [set_solver|set_solver|rewrite size_dom; lia|done].
Qed.

(** ** Consistent sets of metadata *)

Lemma ValidID_lower id : ValidID id = true -> ToLower id = id.
Proof.
  intros H. unfold ToLower. rewrite <- (string_of_bytes_of id) at 2. f_equal.
  assert (Forall (fun b => lower_byte b = b) (bytes_of id)) as Hb.
  { unfold ValidID in H. destruct (decide (id = MainID)) as [->|].
    - repeat constructor.
    - rewrite bool_decide_eq_false_2 in H by done. destruct (negb _); [done|].
      apply Forall_forall. intros b Hin. rewrite forallb_forall in H.
      specialize (H b). rewrite <- list_elem_of_In in H. specialize (H Hin).
      unfold alphabet_byte in H. to_prop.
      enough (Forall (fun b => lower_byte b = b) (bytes_of workerAlphabet)) as Hall.
      { rewrite Forall_forall in Hall. by apply Hall. }
      by repeat constructor. }
  induction Hb as [|b l E Hb IH]; [done|]. cbn. by rewrite E, IH.
Qed.

Section Sets.
  Context (fold : Z -> Z).

Abbreviation EqualFold := (EqualFold fold).

Lemma EqualFold_sym s t : EqualFold s t = EqualFold t s.
Proof. apply bool_decide_ext. naive_solver. Qed.

Lemma EqualFold_refl s : EqualFold s s = true.
Proof. by apply bool_decide_eq_true_2. Qed.

(** The metadata of a set of threads by id. *)
Definition threads_map (ps : list Projection) : gmap string Projection :=
  list_to_map (map (fun p => (p_ThreadID p, p)) ps).

Definition parents (m : gmap string Projection) : gmap string string := p_ParentThreadID <$> m.

(** What the metadata of all threads of an agent satisfies together: no alias is
    an id or another alias, whatever the case; under a Main, every parent
    exists; and no chain of parents is a cycle. *)
Record consistent (m : gmap string Projection) : Prop := {
  con_id : forall i j p q, m !! i = Some p -> m !! j = Some q -> EqualFold (p_Alias p) j = false;
  con_alias : forall i j p q, m !! i = Some p -> m !! j = Some q -> i <> j ->
                EqualFold (p_Alias p) (p_Alias q) = false;
  con_parent : is_Some (m !! MainID) -> forall i p, m !! i = Some p -> i <> MainID ->
                is_Some (m !! p_ParentThreadID p);
  con_rooted : forall i, is_Some (m !! i) -> rooted (parents m) i;
}.

(** What [check_set] asks of one thread. *)
Definition acceptable (ids : gset string) (all previous : list Projection) (p : Projection) : Prop :=
  (forall q, q ∈ all -> EqualFold (p_Alias p) (p_ThreadID q) = false) /\
  (forall q, q ∈ previous -> EqualFold (p_Alias p) (p_Alias q) = false) /\
  (p_ThreadID p <> MainID -> MainID ∈ ids -> ToLower (p_ParentThreadID p) ∈ ids).

Lemma existsb_false {X} (f : X -> bool) l :
  existsb f l = false <-> forall x, x ∈ l -> f x = false.
Proof.
  rewrite <- not_true_iff_false, existsb_exists. split.
  - intros H x Hx. apply not_true_iff_false. intros Hf. apply H. exists x.
    by rewrite <- list_elem_of_In.
  - intros H (x & Hx%list_elem_of_In & Hf). by rewrite H in Hf.
Qed.

Lemma check_set_spec ids all rest : forall previous,
  check_set fold ids all previous rest = true <->
  forall i p, rest !! i = Some p -> acceptable ids all (previous ++ take i rest) p.
Proof.
  induction rest as [|p r IH]; intros previous; cbn [check_set]; [done|].
  rewrite !andb_true_iff, !negb_true_iff, IH, !existsb_false. unfold acceptable. split.
  - intros [[[H1 H2] H3] H4] [|i] q E; cbn in E |- *; [injection E as <-|].
    + rewrite app_nil_r. split; [done|]. split; [done|]. intros Hne Hm.
      rewrite (bool_decide_eq_false_2 (_ = MainID)), (bool_decide_eq_true_2 (MainID ∈ ids)) in H3 by done.
      cbn in H3. apply negb_false_iff in H3. by apply bool_decide_eq_true_1 in H3.
    + rewrite cons_middle, app_assoc. by apply H4.
  - intros H. destruct (H O p eq_refl) as (H1 & H2 & H3). cbn in H2. rewrite app_nil_r in H2. split.
    + split; [done|]. destruct (decide (p_ThreadID p = MainID)) as [E|E]; [by rewrite bool_decide_eq_true_2 by done|].
      rewrite bool_decide_eq_false_2 by done. cbn [negb andb].
      destruct (decide (MainID ∈ ids)) as [Hm|Hm]; [|by rewrite bool_decide_eq_false_2 by done].
      rewrite !bool_decide_eq_true_2 by auto. done.
    + intros i q Hq. specialize (H (S i) q Hq). cbn in H. rewrite cons_middle, app_assoc in H. exact H.
Qed.

Lemma threads_map_lookup ps i p : NoDup (map p_ThreadID ps) ->
  threads_map ps !! i = Some p <-> p ∈ ps /\ p_ThreadID p = i.
Proof.
  intros Hnd. unfold threads_map. rewrite <- elem_of_list_to_map.
  - rewrite list_elem_of_fmap. naive_solver.
  - by rewrite <- list_fmap_compose.
Qed.

Lemma parents_of_map ps : NoDup (map p_ThreadID ps) -> parents_of ps = parents (threads_map ps).
Proof.
  intros Hnd. unfold parents_of, parents. apply map_eq. intros i. rewrite lookup_fmap.
  enough (forall m : gmap string string,
    foldl (fun m p => <[p_ThreadID p := p_ParentThreadID p]> m) m ps !! i =
    match threads_map ps !! i with Some p => Some (p_ParentThreadID p) | None => m !! i end) as H.
  { rewrite (H ∅). by destruct (threads_map ps !! i). }
  induction ps as [|p r IH]; intros m; [done|]. cbn in Hnd. apply NoDup_cons in Hnd as [Hn Hnd].
  cbn [foldl]. rewrite (IH Hnd). unfold threads_map. cbn [map list_to_map foldr].
  fold (threads_map r). destruct (decide (i = p_ThreadID p)) as [->|Hne].
  - rewrite lookup_insert_eq. destruct (threads_map r !! p_ThreadID p) eqn:E; [|by rewrite lookup_insert_eq].
    apply threads_map_lookup in E as [Hin Hid]; [|done]. destruct Hn. rewrite <- Hid.
    by apply list_elem_of_fmap_2.
  - by rewrite !lookup_insert_ne by done.
Qed.

(** Metadata that each passed its own check, of different threads. *)
Definition known (ps : list Projection) : Prop :=
  NoDup (map p_ThreadID ps) /\
  Forall (fun p => valid_projection p (p_ThreadID p) = true) ps.

Lemma valid_projection_ids p id : valid_projection p id = true ->
  p_ThreadID p = id /\ ValidID id = true /\ p_Alias p <> ""%string /\
  (id <> MainID -> ValidID (p_ParentThreadID p) = true /\ p_ParentThreadID p <> id).
Proof.
  unfold valid_projection, valid_identity. intros H.
  repeat match goal with H : (_ && _)%bool = true |- _ => apply andb_true_iff in H as [H ?] end.
  to_prop. split; [done|]. split; [done|]. split; [done|]. intros Hne.
  match goal with H : (if _ then _ else _) = true |- _ =>
    rewrite bool_decide_eq_false_2 in H by done; apply andb_true_iff in H as [? ?] end.
  by to_prop.
Qed.

Lemma elem_of_ids ps id : known ps -> ValidID id = true ->
  ToLower id ∈ ids_of ps <-> is_Some (threads_map ps !! id).
Proof.
  intros [Hnd Hv] Hid. rewrite (ValidID_lower _ Hid). unfold ids_of.
  rewrite elem_of_list_to_set, list_elem_of_fmap. split.
  - intros (p & -> & Hin). rewrite Forall_forall in Hv. pose proof (Hv p Hin) as Hp.
    apply valid_projection_ids in Hp as (_ & Hp & _). rewrite (ValidID_lower _ Hp).
    exists p. by apply threads_map_lookup.
  - intros [p Hp]. apply threads_map_lookup in Hp as [Hin <-]; [|done].
    exists p. by rewrite ValidID_lower.
Qed.

Lemma ToLower_Main : ToLower MainID = MainID.
Proof. reflexivity. Qed.

Lemma sets_agree ps : known ps ->
  check_set fold (ids_of ps) ps [] ps = true <->
  (forall p q, p ∈ ps -> q ∈ ps -> EqualFold (p_Alias p) (p_ThreadID q) = false) /\
  (forall p q, p ∈ ps -> q ∈ ps -> p_ThreadID p <> p_ThreadID q ->
     EqualFold (p_Alias p) (p_Alias q) = false) /\
  (is_Some (threads_map ps !! MainID) -> forall p, p ∈ ps -> p_ThreadID p <> MainID ->
     is_Some (threads_map ps !! p_ParentThreadID p)).
Proof.
  intros Hk. pose proof Hk as [Hnd Hv]. rewrite Forall_forall in Hv.
  assert (forall p, p ∈ ps -> p_ThreadID p <> MainID ->
    ToLower (p_ParentThreadID p) ∈ ids_of ps <-> is_Some (threads_map ps !! p_ParentThreadID p)) as Hpar.
  { intros p Hin Hne. apply elem_of_ids; [done|].
    apply (valid_projection_ids p _ (Hv p Hin)) in Hne. by apply Hne. }
  pose proof (elem_of_ids ps MainID Hk eq_refl) as Hmain. rewrite ToLower_Main in Hmain.
  rewrite check_set_spec. cbn [app]. split.
  - intros H. split; [|split].
    + intros p q [i Hp]%list_elem_of_lookup Hq. destruct (H i p Hp) as [H1 _]. by apply H1.
    + intros p q [i Hp]%list_elem_of_lookup [j Hq]%list_elem_of_lookup Hne.
      destruct (Nat.lt_total i j) as [Hij|[->|Hji]].
      * rewrite EqualFold_sym. destruct (H j q Hq) as (_ & H2 & _). apply H2.
        apply elem_of_take. eauto.
      * simplify_eq.
      * destruct (H i p Hp) as (_ & H2 & _). apply H2. apply elem_of_take. eauto.
    + intros Hm p Hp Hne. apply Hpar; [done..|]. apply list_elem_of_lookup in Hp as [i Hp].
      destruct (H i p Hp) as (_ & _ & H3). apply H3; [done|]. by apply Hmain.
  - intros (H1 & H2 & H3) i p Hi.
    assert (p ∈ ps) as Hp by (by eapply list_elem_of_lookup_2). split; [|split].
    + intros q Hq. by apply H1.
    + intros q (j & Hj & Hlt)%elem_of_take. apply H2; [done|by eapply list_elem_of_lookup_2|].
      intros E. assert (i = j) as ->; [|lia].
      apply (NoDup_lookup (map p_ThreadID ps) i j (p_ThreadID p)); [done|..].
      * by rewrite list_lookup_fmap, Hi.
      * rewrite list_lookup_fmap, Hj. cbn. by rewrite E.
    + intros Hne Hm. apply Hpar; [done..|]. apply H3; [|done..]. by apply Hmain.
Qed.

Lemma dom_parents ps id : NoDup (map p_ThreadID ps) ->
  id ∈ elements (dom (parents_of ps)) <-> is_Some (threads_map ps !! id).
Proof.
  intros Hnd. rewrite elem_of_elements, parents_of_map by done. unfold parents.
  by rewrite dom_fmap, elem_of_dom.
Qed.

(** The loops of [validateProjectionSet] decide consistency. *)
Lemma validate_iff_consistent ps : known ps ->
  validateProjectionSet fold ps = Ok tt <-> consistent (threads_map ps).
Proof.
  intros Hk. pose proof Hk as [Hnd _]. unfold validateProjectionSet, check.
  assert (forallb (fun id => default false
            (chain_loop (S (S (size (parents_of ps)))) (parents_of ps) ∅ id))
            (elements (dom (parents_of ps))) = true <->
          forall i, is_Some (threads_map ps !! i) -> rooted (parents (threads_map ps)) i) as Hchain.
  { rewrite forallb_forall. rewrite (parents_of_map ps Hnd). setoid_rewrite chain_check.
    setoid_rewrite <- list_elem_of_In. rewrite <- (parents_of_map ps Hnd).
    setoid_rewrite dom_parents; [|done]. done. }
  pose proof (sets_agree ps Hk) as Hsets.
  transitivity (check_set fold (ids_of ps) ps [] ps = true /\
    forall i, is_Some (threads_map ps !! i) -> rooted (parents (threads_map ps)) i).
  { rewrite <- Hchain, <- andb_true_iff. by destruct (_ && _)%bool. }
  rewrite Hsets. split.
  - intros [(H1 & H2 & H3) H4]. split; [..|done].
    + intros i j p q [Hp _]%threads_map_lookup [Hq <-]%threads_map_lookup; [|done..]. by apply H1.
    + intros i j p q [Hp <-]%threads_map_lookup [Hq <-]%threads_map_lookup Hne; [|done..]. by apply H2.
    + intros Hm i p [Hp <-]%threads_map_lookup Hne; [|done]. by apply H3.
  - intros [H1 H2 H3 H4]. split; [|done]. split; [|split].
    + intros p q Hp Hq. by apply (H1 (p_ThreadID p) (p_ThreadID q) p q); apply threads_map_lookup.
    + intros p q Hp Hq Hne. by apply (H2 (p_ThreadID p) (p_ThreadID q) p q); try apply threads_map_lookup.
    + intros Hm p Hp Hne. by apply (H3 Hm (p_ThreadID p) p); [apply threads_map_lookup|].
Qed.
End Sets.

(** ** Depth *)

(** The distance of a thread to Main along parents whose metadata is valid. *)
Inductive Depth (a : Agent) : string -> Z -> Prop :=
| depth_main r : inspectLocked a MainID = Ok r -> Depth a MainID 0
| depth_up id archived p n :
    id <> MainID -> inspectLocked a id = Ok (archived, p) -> Depth a (p_ParentThreadID p) n ->
    Depth a id (n + 1).

Lemma Depth_functional a id n m : Depth a id n -> Depth a id m -> n = m.
Proof.
  intros H. revert m. induction H as [r Hr|id x p n Hne Hi Hd IH]; intros m Hm;
    inversion Hm as [|? y q k Hne' Hi' Hd']; subst; try done.
  rewrite Hi in Hi'. injection Hi' as <- <-. by rewrite (IH k).
Qed.

Lemma Depth_nonneg a id n : Depth a id n -> 0 <= n.
Proof. induction 1; lia. Qed.

Definition chains (a : Agent) (id parent : string) : Prop :=
  id <> MainID /\ exists archived p, inspectLocked a id = Ok (archived, p) /\ p_ParentThreadID p = parent.

Lemma chains_deeper a s t : tc (chains a) s t -> forall n, Depth a t n -> exists m, n < m /\ Depth a s m.
Proof.
  induction 1 as [s t (Hne & x & p & Hi & <-)|s u t (Hne & x & p & Hi & <-) Ht IH]; intros n Hn.
  - exists (n + 1). split; [lia|]. by eapply depth_up.
  - destruct (IH n Hn) as (m & Hlt & Hm). exists (m + 1). split; [lia|]. by eapply depth_up.
Qed.

(** The names in both namespaces. *)
Definition all_names (a : Agent) : gset string := dom (ag_threads a) ∪ dom (ag_archive a).

Lemma inspect_in a id r : inspectLocked a id = Ok r -> id ∈ all_names a.
Proof.
  unfold inspectLocked, inspect_at, all_names. intros H. destruct (negb (ValidID id)); [done|].
  cbn [namespace] in H. rewrite elem_of_union, !elem_of_dom.
  destruct (ag_threads a !! id) as [e|] eqn:E1; [left; eauto|].
  destruct (ag_archive a !! id) as [e|] eqn:E2; [right; eauto|done].
Qed.

Lemma depth_loop_spec a fuel : forall seen d id,
  seen ⊆ all_names a -> (forall s, s ∈ seen -> tc (chains a) s id) ->
  (size (all_names a) < fuel + size seen)%nat ->
  exists r, depth_loop fuel a seen d id = Some r /\
    (forall n, r = Ok n -> n - d + Z.of_nat (size seen) < Z.of_nat (size (all_names a))) /\
    (forall n, r = Ok n <-> Depth a id (n - d)).
Proof.
  induction fuel as [|k IH]; intros seen d id Hsub Hseen Hf.
  { pose proof (subseteq_size seen _ Hsub). lia. }
  cbn [depth_loop]. destruct (decide (id ∈ seen)) as [Hs|Hs].
  { rewrite bool_decide_eq_true_2 by done. eexists. split; [done|]. split; [done|].
    intros n. split; [done|]. intros Hd. exfalso.
    destruct (chains_deeper a id id (Hseen id Hs) _ Hd) as (m & Hlt & Hm).
    rewrite (Depth_functional _ _ _ _ Hd Hm) in Hlt. lia. }
  rewrite bool_decide_eq_false_2 by done.
  destruct (inspectLocked a id) as [[x p]|e] eqn:Hi.
  2: { eexists. split; [done|]. split; [done|]. intros n. split; [done|]. intros Hd.
       inversion Hd; congruence. }
  pose proof (inspect_in _ _ _ Hi) as Hin.
  assert ({[id]} ∪ seen ⊆ all_names a) as Hsub'.
  { apply union_subseteq. split; [by apply singleton_subseteq_l|done]. }
  assert (size ({[id]} ∪ seen) = S (size seen)) as Hsize.
  { rewrite size_union, size_singleton by set_solver. done. }
  destruct (decide (id = MainID)) as [Hm|Hm].
  { rewrite bool_decide_eq_true_2 by done. eexists. split; [done|].
    pose proof (subseteq_size _ _ Hsub') as Hle. split; [intros n [= ->]; lia|].
    intros n. rewrite Hm in *. split.
    - intros [= ->]. rewrite Z.sub_diag. by eapply depth_main.
    - intros Hd. f_equal. inversion Hd; [lia|done]. }
  rewrite bool_decide_eq_false_2 by done.
  destruct (IH ({[id]} ∪ seen) (d + 1) (p_ParentThreadID p)) as (r & E & Hb & Hr); [done|..].
  - assert (chains a id (p_ParentThreadID p)) as Hc by (split; eauto).
    intros s [->%elem_of_singleton|Hin']%elem_of_union; [by apply tc_once|].
    by eapply tc_r; [apply Hseen|].
  - lia.
  - exists r. split; [done|]. split.
    + intros n Hn. specialize (Hb n Hn). lia.
    + intros n. rewrite Hr. split; intros Hd.
      * replace (n - d) with (n - (d + 1) + 1) by lia. by eapply depth_up.
      * inversion Hd as [|? y q j _ Hi' Hd']; subst; [done|]. rewrite Hi in Hi'. injection Hi' as <- <-.
        by replace (n - (d + 1)) with j by lia.
Qed.

Lemma depth_run a id :
  exists r, depth_loop (chain_fuel a) a ∅ 0 id = Some r /\
    (forall n, r = Ok n -> n < Z.of_nat (size (all_names a))) /\
    (forall n, r = Ok n <-> Depth a id n).
Proof.
  destruct (depth_loop_spec a (chain_fuel a) ∅ 0 id) as (r & E & Hb & Hr); [set_solver|set_solver| |].
  - rewrite size_empty. unfold chain_fuel, all_names. rewrite size_union_alt.
    pose proof (subseteq_size (dom (ag_archive a) ∖ dom (ag_threads a)) (dom (ag_archive a)) ltac:(set_solver)).
    rewrite !size_dom in *. lia.
  - exists r. split; [done|]. split.
    + intros n Hn. specialize (Hb n Hn). rewrite size_empty in Hb. lia.
    + intros n. rewrite Hr. by rewrite Z.sub_0_r.
Qed.

Lemma depthLocked_spec a id n : depthLocked a id = Ok n <-> Depth a id n.
Proof. unfold depthLocked. destruct (depth_run a id) as (r & -> & _ & Hr). apply Hr. Qed.
