(* ===== verification/ThreadTreeScan.v ===== *)
(** * The threads of an agent: scanning the metadata, loading the index

    What [scanProjectionFilesLocked] and the index functions of [ThreadTree.v]
    return on a well-formed state directory, one in which every directory holds
    the valid metadata of a thread of that name and no name is in both
    namespaces. *)

From S2P Require Import Prelude GoStd Llm Events ThreadTypes ThreadFacts ThreadStore ThreadTree ThreadTreeInv.
From stdpp Require Import sorting relations.

Local Open Scope Z_scope.
Local Open Scope juex_scope.

(** ** Well-formed state directories *)

Definition entry_meta (e : DirEntry) : option Projection :=
  match e with
  | EntryDir d => match d_meta d with MetaProjection p => Some p | _ => None end
  | EntryFile => None
  end.

(** The metadata of every thread, by directory name. *)
Definition metas (a : Agent) : gmap string Projection :=
  omap entry_meta (ag_threads a) ∪ omap entry_meta (ag_archive a).

Definition thread_entry (id : string) (e : DirEntry) : Prop :=
  exists d p, e = EntryDir d /\ d_meta d = MetaProjection p /\ valid_projection p id = true.

Record wf (a : Agent) : Prop := {
  wf_entry : forall archived id e, namespace archived a !! id = Some e -> thread_entry id e;
  wf_once : forall archived id, is_Some (namespace archived a !! id) ->
              namespace (negb archived) a !! id = None;
}.

(** Every directory is in the namespace that its metadata names. *)
Definition placed (a : Agent) : Prop :=
  forall archived id d p, namespace archived a !! id = Some (EntryDir d) ->
    d_meta d = MetaProjection p -> bool_decide (p_RetentionState p = RetentionArchived) = archived.

Lemma metas_lookup a id p : wf a ->
  metas a !! id = Some p <->
  exists archived d, namespace archived a !! id = Some (EntryDir d) /\ d_meta d = MetaProjection p.
Proof.
  intros Hwf. unfold metas. rewrite lookup_union_Some_raw, !lookup_omap. split.
  - intros [H|[H0 H]]; apply bind_Some in H as (e & He & Hm);
      [exists false|exists true]; destruct e as [|d]; [done| |done|];
      exists d; (split; [done|]); cbn in Hm; by destruct (d_meta d); simplify_eq.
  - intros ([] & d & Hd & Hm).
    + right. pose proof (wf_once a Hwf true id) as Ho. cbn in Ho, Hd. rewrite Hd, Ho by eauto.
      cbn. by rewrite Hm.
    + left. cbn in Hd. rewrite Hd. cbn. by rewrite Hm.
Qed.

Lemma metas_valid a id p : wf a -> metas a !! id = Some p -> valid_projection p id = true.
Proof.
  intros Hwf (x & d & Hd & Hm)%metas_lookup; [|done].
  destruct (wf_entry a Hwf _ _ _ Hd) as (d' & p' & [= <-] & Hm' & Hv). by rewrite Hm in Hm'; simplify_eq.
Qed.

Lemma metas_none a id archived : wf a -> metas a !! id = None -> namespace archived a !! id = None.
Proof.
  intros Hwf H. destruct (namespace archived a !! id) as [e|] eqn:E; [|done].
  destruct (wf_entry a Hwf _ _ _ E) as (d & p & -> & Hm & _).
  assert (metas a !! id = Some p) as H' by (apply metas_lookup; eauto). congruence.
Qed.

(** ** The scan *)

(** One projection the scan collects. *)
Definition scanned_ok (archived : bool) (a : Agent) (p : Projection) : Prop :=
  exists d, namespace archived a !! p_ThreadID p = Some (EntryDir d) /\
    d_meta d = MetaProjection p /\ valid_projection p (p_ThreadID p) = true /\
    bool_decide (p_RetentionState p = RetentionArchived) = archived.

Lemma scan_names_run a archived : wf a -> forall names acc,
  (forall n, n ∈ names -> is_Some (namespace archived a !! n)) ->
  NoDup (map p_ThreadID acc ++ names) ->
  (exists l, scan_names archived a names acc = Ok (acc ++ l) /\ map p_ThreadID l = names /\
     Forall (scanned_ok archived a) l) \/
  ((exists e, scan_names archived a names acc = Err e) /\ ~ placed a).
Proof.
  intros Hwf names. induction names as [|n r IH]; intros acc Hin Hnd.
  { left. exists []. rewrite app_nil_r. done. }
  cbn [scan_names]. unfold dir_at.
  destruct (Hin n) as [e He]; [by left|]. rewrite He.
  destruct (wf_entry a Hwf _ _ _ He) as (d & p & -> & Hm & Hv).
  pose proof (valid_projection_ids _ _ Hv) as (Hid & Hvid & _).
  rewrite Hvid. cbn [negb]. rewrite bool_decide_eq_false_2.
  2: { intros Hacc. apply NoDup_app in Hnd as (_ & Hd & _). apply (Hd n Hacc). by left. }
  unfold readProjectionFile. cbn [set_archived d_archived d_meta]. rewrite eqb_reflx, Hm. cbn [negb].
  unfold validateProjectionMetadata. rewrite Hv. cbn [check rbind].
  destruct (Bool.eqb _ archived) eqn:Hr.
  2: { right. split; [by eexists|]. intros Hp. rewrite (Hp _ _ _ _ He Hm), eqb_reflx in Hr. done. }
  apply eqb_prop in Hr. destruct (IH (acc ++ [p])) as [(l & E & Hl & Hall)|H]; [..|by right].
  - intros k Hk. apply Hin. by right.
  - rewrite map_app, <- app_assoc. cbn. rewrite Hid. exact Hnd.
  - left. exists (p :: l). rewrite E, <- app_assoc. split; [done|]. cbn. rewrite Hl, Hid. split; [done|].
    constructor; [|done]. exists d. rewrite Hid. auto.
Qed.

Lemma dir_names_spec (m : gmap string DirEntry) :
  (forall n, n ∈ dir_names m <-> is_Some (m !! n)) /\ NoDup (dir_names m).
Proof.
  unfold dir_names. split.
  - intros n. rewrite (merge_sort_Permutation name_le), list_elem_of_fmap. split.
    + intros ([k e] & -> & H). apply elem_of_map_to_list in H. eauto.
    + intros [e H]. exists (n, e). split; [done|]. by apply elem_of_map_to_list.
  - rewrite (merge_sort_Permutation name_le). apply NoDup_fst_map_to_list.
Qed.

(** The projections of a scan that finds every directory in its place. *)
Definition scanned_set (a : Agent) (ps : list Projection) : Prop :=
  known ps /\ threads_map ps = metas a /\ placed a.

Lemma scan_run fold a : wf a ->
  (exists ps, scanned_set a ps /\
     scanProjectionFilesLocked fold a = try _ := validateProjectionSet fold ps in Ok ps) \/
  ((exists e, scanProjectionFilesLocked fold a = Err e) /\ ~ placed a).
Proof.
  intros Hwf. unfold scanProjectionFilesLocked.
  destruct (dir_names_spec (ag_threads a)) as [H1 N1], (dir_names_spec (ag_archive a)) as [H2 N2].
  destruct (scan_names_run a false Hwf (dir_names (ag_threads a)) []) as [(l1 & -> & Hl1 & Ha1)|[[e ->] ?]];
    [intros n Hn; by apply H1|done| |by right; split; [eexists|]].
  cbn [rbind app].
  destruct (scan_names_run a true Hwf (dir_names (ag_archive a)) l1) as [(l2 & -> & Hl2 & Ha2)|[[e ->] ?]];
    [intros n Hn; by apply H2| | |by right; split; [eexists|]].
  { rewrite Hl1. apply NoDup_app. split; [done|]. split; [|done].
    intros n Hn1%H1 Hn2%H2. pose proof (wf_once a Hwf false n Hn1) as E. cbn in E.
    rewrite E in Hn2. by destruct Hn2. }
  cbn [rbind]. left. exists (l1 ++ l2). split; [|done].
  assert (NoDup (map p_ThreadID (l1 ++ l2))) as Hnd.
  { rewrite map_app, Hl1, Hl2. apply NoDup_app. split; [done|]. split; [|done].
    intros n Hn1%H1 Hn2%H2. pose proof (wf_once a Hwf false n Hn1) as E. cbn in E.
    rewrite E in Hn2. by destruct Hn2. }
  rewrite Forall_forall in Ha1, Ha2.
  assert (forall archived id d p, namespace archived a !! id = Some (EntryDir d) ->
    d_meta d = MetaProjection p ->
    p ∈ l1 ++ l2 /\ p_ThreadID p = id /\
    bool_decide (p_RetentionState p = RetentionArchived) = archived) as Hall.
  { intros archived id d p Hd Hm. destruct (wf_entry a Hwf _ _ _ Hd) as (d' & p' & [= <-] & Hm' & Hv).
    rewrite Hm in Hm'. injection Hm' as <-. pose proof (valid_projection_ids _ _ Hv) as (Hid & _).
    assert (id ∈ map p_ThreadID (if archived then l2 else l1)) as Hin.
    { destruct archived; [rewrite Hl2; apply H2|rewrite Hl1; apply H1]; eauto. }
    apply list_elem_of_fmap in Hin as (q & Hq & Hin).
    assert (scanned_ok archived a q) as (d1 & Hd1 & Hm1 & _ & Hr1) by (destruct archived; auto).
    rewrite <- Hq, Hd in Hd1. injection Hd1 as <-. rewrite Hm in Hm1. injection Hm1 as <-.
    split; [|done]. apply elem_of_app. destruct archived; auto. }
  split; [|split].
  - split; [done|]. apply Forall_forall. intros p [Hp|Hp]%elem_of_app;
      [destruct (Ha1 p Hp) as (d & _ & _ & ? & _)|destruct (Ha2 p Hp) as (d & _ & _ & ? & _)]; done.
  - apply map_eq. intros id. apply option_eq. intros p.
    rewrite threads_map_lookup, metas_lookup by done. split.
    + intros [[Hp|Hp]%elem_of_app <-];
        [destruct (Ha1 p Hp) as (d & ? & ? & _)|destruct (Ha2 p Hp) as (d & ? & ? & _)]; eauto.
    + intros (x & d & Hd & Hm). destruct (Hall x id d p Hd Hm) as (? & ? & _). done.
  - intros archived id d p Hd Hm. by apply (Hall archived id d p).
Qed.

Lemma scan_ok fold a ps : wf a -> scanProjectionFilesLocked fold a = Ok ps ->
  scanned_set a ps /\ consistent fold (metas a).
Proof.
  intros Hwf H. destruct (scan_run fold a Hwf) as [(qs & Hs & E)|[[e E] _]]; [|congruence].
  rewrite E in H. destruct (validateProjectionSet fold qs) as [[]|e] eqn:Hv; [|done]. cbn in H.
  injection H as ->. split; [done|]. destruct Hs as (Hk & <- & _). by apply validate_iff_consistent.
Qed.

Lemma scan_complete fold a : wf a -> placed a -> consistent fold (metas a) ->
  exists ps, scanProjectionFilesLocked fold a = Ok ps /\ scanned_set a ps.
Proof.
  intros Hwf Hp Hc. destruct (scan_run fold a Hwf) as [(ps & Hs & E)|[_ ?]]; [|done].
  exists ps. split; [|done]. rewrite E.
  destruct Hs as (Hk & Hm & _). rewrite <- Hm in Hc.
  by rewrite (proj2 (validate_iff_consistent fold ps Hk) Hc).
Qed.

(** ** Loading the index *)

(** The list the index must hold: an entry per thread, in order. *)
Definition listing (a : Agent) : list IndexEntry :=
  sortIndexEntries (entries_of (map snd (map_to_list (metas a)))).

Lemma entries_ids ps : map x_ThreadID (entries_of ps) = map p_ThreadID ps.
Proof. unfold entries_of. by rewrite map_map. Qed.

Lemma threads_map_permutation ps : NoDup (map p_ThreadID ps) ->
  map snd (map_to_list (threads_map ps)) ≡ₚ ps.
Proof.
  intros Hnd. unfold threads_map. rewrite map_to_list_to_map.
  - by rewrite map_map, map_id.
  - by rewrite <- list_fmap_compose.
Qed.

Lemma scanned_listing a ps : scanned_set a ps -> sortIndexEntries (entries_of ps) = listing a.
Proof.
  intros ([Hnd _] & Hm & _). unfold listing. rewrite <- Hm. apply sort_perm_eq.
  - by rewrite entries_ids.
  - unfold entries_of. by rewrite threads_map_permutation.
Qed.

Lemma set_index_same a : set_index (ag_index a) a = a.
Proof. by destruct a. Qed.

Lemma set_index_twice x y a : set_index x (set_index y a) = set_index x a.
Proof. done. Qed.

Lemma writeIndex_run outcome now x a r a' : writeIndexLocked outcome now x a = (r, a') ->
  (exists ix, a' = set_index ix a) /\
  forall x', r = Ok x' -> outcome = IoOk /\ a' = set_index (IndexDocument x') a /\
    x' = mkIndex IndexVersion (wrap_uint64 (ix_Revision x + 1)) (NewTimestamp now)
           (sortIndexEntries <$> ix_Threads x).
Proof.
  unfold writeIndexLocked, effect, bind, modify_agent, ret, fail. intros H.
  destruct outcome; injection H as <- <-;
    (split; [first [by eexists|exists (ag_index a); by rewrite set_index_same]|]); intros x' [= <-]; done.
Qed.

Lemma threads_of_written ps revision t :
  threads_of (mkIndex IndexVersion revision t
    (sortIndexEntries <$> match ps with [] => None | _ => Some (entries_of ps) end)) =
  sortIndexEntries (entries_of ps).
Proof. by destruct ps. Qed.

(** Loading changes nothing but the index file, and succeeds only when the
    metadata is in order; it returns an entry per thread. *)
Lemma load_run fold outcome now a r a' : wf a ->
  loadOrRebuildIndexLocked fold outcome now a = (r, a') ->
  (exists ix, a' = set_index ix a) /\
  forall x, r = Ok x ->
    a' = set_index (IndexDocument x) a /\ threads_of x = listing a /\
    placed a /\ consistent fold (metas a).
Proof.
  intros Hwf. unfold loadOrRebuildIndexLocked. unfold bind at 1 2, get_agent, pure.
  destruct (scanProjectionFilesLocked fold a) as [ps|e] eqn:Hs.
  2: { intros [= <- <-]. split; [exists (ag_index a); by rewrite set_index_same|done]. }
  apply scan_ok in Hs as [Hset Hc]; [|done]. pose proof (scanned_listing a ps Hset) as Hl.
  assert (forall rev, writeProjectionIndexLocked outcome now ps rev a = (r, a') ->
    (exists ix, a' = set_index ix a) /\
    forall x, r = Ok x -> a' = set_index (IndexDocument x) a /\ threads_of x = listing a /\
      placed a /\ consistent fold (metas a)) as Hw.
  { intros rev H. apply writeIndex_run in H as [Hix H]. split; [done|].
    intros x Hx. destruct (H x Hx) as (_ & -> & ->). split; [done|]. cbn [ix_Revision ix_Threads].
    rewrite threads_of_written. split; [done|]. split; [by apply Hset|done]. }
  destruct (readIndexFile a) as [x|e] eqn:Hi; cbn [known_revision].
  - destruct (_ && _ && _) eqn:Hok; [|by apply Hw]. intros [= <- <-].
    split; [exists (ag_index a); by rewrite set_index_same|]. intros x' [= <-].
    assert (ag_index a = IndexDocument x) as Ha.
    { unfold readIndexFile in Hi. destruct (ag_index a); congruence. }
    split; [by rewrite <- Ha, set_index_same|]. split; [|split; [by apply Hset|done]].
    to_prop. unfold indexMatchesProjections in *. unfold threads_of.
    destruct (ix_Threads x); [|done]. to_prop. subst. done.
  - destruct e; try by apply Hw.
    intros [= <- <-]. split; [exists (ag_index a); by rewrite set_index_same|done].
Qed.

Lemma registry_named index previous l g : valid_registry index previous l = true -> g ∈ l ->
  g_ID g <> ""%string.
Proof.
  revert index previous. induction l as [|x l IH]; intros index previous H Hin; [by apply elem_of_nil in Hin|].
  cbn [valid_registry] in H. to_prop. apply elem_of_cons in Hin as [->|Hin].
  - intros E. assert (generationID (index + 1) = ""%string) as E' by congruence. done.
  - by apply (IH (index + 1) (Some x)).
Qed.

Lemma valid_entry_of p id : valid_projection p id = true ->
  valid_entry (indexEntryFromProjection p) = true.
Proof.
  intros H. pose proof (valid_projection_ids _ _ H) as (<- & Hid & Ha & _).
  unfold valid_projection in H. to_prop.
  assert (g_ID (p_CurrentGeneration p) <> ""%string) as Hg.
  { eapply registry_named; [eassumption|]. by apply last_Some_elem_of. }
  unfold valid_entry, indexEntryFromProjection. cbn.
  rewrite Hid, !bool_decide_eq_false_2 by done. cbn [negb andb].
  match goal with H : _ <> 0 |- _ => rewrite (proj2 (Z.eqb_neq _ _) H) end. cbn [negb andb].
  match goal with H : is_ok (validateProjectionLifecycle p) = true |- _ =>
    unfold validateProjectionLifecycle in H end.
  by destruct (p_RetentionState p), (p_ArchivedAt p), (p_ExecutionState p).
Qed.

Lemma entry_elem_valid a ps e : scanned_set a ps -> e ∈ entries_of ps ->
  valid_entry e = true.
Proof.
  intros ((_ & Hv) & _) (p & -> & Hin)%list_elem_of_fmap. rewrite Forall_forall in Hv.
  by eapply valid_entry_of, Hv.
Qed.

Lemma listing_spec a : wf a ->
  Forall valid_entry (listing a) /\
  Sorted entry_le (listing a) /\
  NoDup (map x_ThreadID (listing a)) /\
  forall e, e ∈ listing a <-> exists id p, metas a !! id = Some p /\ e = indexEntryFromProjection p.
Proof.
  intros Hwf. unfold listing.
  assert (forall e, e ∈ entries_of (map snd (map_to_list (metas a))) <->
    exists id p, metas a !! id = Some p /\ e = indexEntryFromProjection p) as Hin.
  { intros e. unfold entries_of. rewrite list_elem_of_fmap. split.
    - intros (p & -> & ([id q] & -> & Hm%elem_of_map_to_list)%list_elem_of_fmap). by exists id, q.
    - intros (id & p & Hm & ->). exists p. split; [done|]. apply list_elem_of_fmap.
      exists (id, p). split; [done|]. by apply elem_of_map_to_list. }
  split; [|split; [apply sort_sorted|split]].
  - rewrite sort_permutation. apply Forall_forall. intros e (id & p & Hm & ->)%Hin.
    by eapply Is_true_true, valid_entry_of, metas_valid.
  - rewrite sort_permutation, entries_ids, map_map.
    assert (map (fun x => p_ThreadID x.2) (map_to_list (metas a)) = map fst (map_to_list (metas a))) as ->.
    { apply map_ext_in. intros [id p] Hp%list_elem_of_In%elem_of_map_to_list. cbn.
      by apply (valid_projection_ids p id), (metas_valid a). }
    apply NoDup_fst_map_to_list.
  - intros e. by rewrite sort_permutation, Hin.
Qed.

(** What the loaded index reads as, once it is on disk. *)
Lemma loaded_is_listed fold a x revision t : wf a -> placed a -> consistent fold (metas a) ->
  metas a <> ∅ -> revision <> 0 -> t <> 0 ->
  x = mkIndex IndexVersion revision t (Some (listing a)) ->
  ListThreads (set_index (IndexDocument x) a) = Ok (listing a) /\
  forall outcome now, loadOrRebuildIndexLocked fold outcome now (set_index (IndexDocument x) a) =
    (Ok x, set_index (IndexDocument x) a).
Proof.
  intros Hwf Hp Hc Hne Hrev Ht ->. destruct (listing_spec a Hwf) as (Hv & Hs & Hnd & Hin).
  assert (validIndexLifecycle (mkIndex IndexVersion revision t (Some (listing a))) = true) as Hl.
  { unfold validIndexLifecycle. cbn.
    rewrite (proj2 (Z.eqb_neq _ _) Hrev), (proj2 (Z.eqb_neq _ _) Ht). cbn.
    apply forallb_forall. intros e He%list_elem_of_In. rewrite Forall_forall in Hv. by apply Is_true_true, Hv. }
  split.
  - unfold ListThreads, readIndexFile. cbn [set_index ag_index rbind ix_Version].
    rewrite Hl, Z.eqb_refl. cbn [negb orb].
    assert (indexIsSorted (mkIndex IndexVersion revision t (Some (listing a))) = true) as ->; [|done].
    unfold indexIsSorted. cbn. destruct (listing a) as [|e l] eqn:E.
    + exfalso. apply Hne, map_empty. intros i. apply eq_None_not_Some. intros [p Hm].
      assert (indexEntryFromProjection p ∈ []) as H by (apply Hin; eauto). by apply elem_of_nil in H.
    + rewrite <- E in *. apply bool_decide_eq_true_2. unfold listing. apply sort_idempotent.
      unfold listing in Hnd. by rewrite sort_permutation in Hnd.
  - intros outcome now.
    destruct (scan_complete fold (set_index (IndexDocument (mkIndex IndexVersion revision t (Some (listing a)))) a))
      as (ps & E & Hset); [by destruct Hwf|done|done|].
    unfold loadOrRebuildIndexLocked, bind at 1 2, get_agent, pure. rewrite E.
    unfold readIndexFile. cbn [set_index ag_index ix_Version]. rewrite Z.eqb_refl, Hl.
    unfold indexMatchesProjections. cbn [ix_Threads].
    rewrite bool_decide_eq_true_2; [done|]. symmetry. apply (scanned_listing _ ps Hset).
Qed.
