(* ===== verification/ThreadTreeSteps.v ===== *)
(** * The threads of an agent: the identity of a thread

    No method of a thread changes the id or the parent in its metadata, and only
    [ApplyAlias] changes the alias: what every write of [thread.json] in
    [ThreadStore.v] puts there has the identity of what the handle holds, and a
    handle that passes the staleness check holds that of the file. *)

From S2P Require Import Prelude GoStd Llm Events ThreadTypes ThreadFacts ThreadStore ThreadReplay ThreadStoreInv ThreadStoreOps ThreadStoreOpen ThreadStoreProps ThreadStoreRestart ThreadTree ThreadTreeInv.

Local Open Scope Z_scope.
Local Open Scope juex_scope.

(** Id, alias and parent. *)
Definition identity (p : Projection) : string * string * string :=
  (p_ThreadID p, p_Alias p, p_ParentThreadID p).

(** ** Replaying facts *)

Lemma applyFact_identity i c s s' f : applyFact i s c f = Ok s' ->
  p_ThreadID (s_Projection s) <> ""%string ->
  identity (s_Projection s') = identity (s_Projection s).
Proof.
  unfold applyFact. intros H Hne. rewrite (bool_decide_eq_false_2 _ Hne) in H.
  destruct (f_Type f); simplify_eq/=; try done; by walk.
Qed.

Lemma apply_facts_identity i c l : forall s s', apply_facts i c l s = Ok s' ->
  p_ThreadID (s_Projection s) <> ""%string ->
  identity (s_Projection s') = identity (s_Projection s).
Proof.
  induction l as [|f l IH]; intros s s' H Hne; [by simplify_eq/=|].
  cbn [apply_facts] in H. destruct (applyFact i s c f) as [s1|] eqn:E; [|done]. cbn [rbind] in H.
  apply applyFact_identity in E; [|done]. rewrite <- E. apply IH; [done|].
  unfold identity in E. congruence.
Qed.

Lemma applyCommit_identity i c s s' : applyCommit i s c = Ok s' ->
  p_ThreadID (s_Projection s) <> ""%string ->
  identity (s_Projection s') = identity (s_Projection s).
Proof.
  intros (s1 & Ha & _ & ->)%applyCommit_inv Hne. by apply apply_facts_identity in Ha.
Qed.

Lemma candidate_identity i s c s' : candidate_of i s c = Ok s' ->
  p_ThreadID (s_Projection s) <> ""%string ->
  identity (s_Projection s') = identity (s_Projection s).
Proof.
  unfold candidate_of. intros H Hne.
  destruct (applyCommit i (cloneReplayState s) c) as [s1|] eqn:E; [|done]. cbn [rbind] in H.
  destruct (validateProjectionMetadata _ i); [|done]. cbn [rbind] in H. simplify_eq.
  by apply applyCommit_identity in E.
Qed.

(** ** What a method writes *)

(** From [d] to [d']: [thread.json] is as before or holds a projection that
    satisfies [Q], and the directory stays in its namespace unless [R]. *)
Definition leaves (Q : Projection -> Prop) (R : Prop) (d d' : Disk) : Prop :=
  (d_meta d' = d_meta d \/ exists q, d_meta d' = MetaProjection q /\ Q q) /\
  (d_archived d' = d_archived d \/ R).

Definition writes {A} (Q : Projection -> Prop) (R : Prop) (m : M A) : Prop :=
  forall h d r h' d', m (h, d) = (r, (h', d')) -> leaves Q R d d'.

Lemma leaves_refl Q R d : leaves Q R d d.
Proof. split; by left. Qed.

Lemma leaves_trans Q R d d1 d2 : leaves Q R d d1 -> leaves Q R d1 d2 -> leaves Q R d d2.
Proof.
  intros [[E|(q & E & HQ)] Ha] [[E2|(q2 & E2 & HQ2)] Ha2].
  all: split; [|destruct Ha, Ha2; [left; congruence|by right..]].
  - left. congruence.
  - right. eauto.
  - right. exists q. split; [congruence|done].
  - right. eauto.
Qed.

Section Writes.
  Context (Q : Projection -> Prop) (R : Prop).

Lemma writes_ret {A} (a : A) : writes Q R (ret a).
Proof. intros h d r h' d' [= _ _ <-]. apply leaves_refl. Qed.

Lemma writes_fail {A} e : writes Q R (A := A) (fail e).
Proof. intros h d r h' d' [= _ _ <-]. apply leaves_refl. Qed.

Lemma writes_bind {A B} (m : M A) (k : A -> M B) :
  writes Q R m -> (forall a, writes Q R (k a)) -> writes Q R (bind m k).
Proof.
  intros Hm Hk h d r h' d' H. unfold bind in H.
  destruct (m (h, d)) as [[a|e] [h1 d1]] eqn:E; apply Hm in E; [|by simplify_eq].
  apply Hk in H. by eapply leaves_trans.
Qed.

Lemma writes_lift {A B} (r : result ThreadError A) (k : A -> M B) :
  (forall a, r = Ok a -> writes Q R (k a)) -> writes Q R (bind (lift r) k).
Proof.
  intros Hk h d x h' d' H. unfold bind, lift in H. destruct r as [a|e]; [by eapply Hk|].
  simplify_eq. apply leaves_refl.
Qed.

Lemma writes_get_handle {B} (k : Handle -> M B) :
  (forall h, writes Q R (k h)) -> writes Q R (bind get_handle k).
Proof. intros Hk h d r h' d' H. by apply (Hk h) in H. Qed.

Lemma writes_get_disk {B} (k : Disk -> M B) :
  (forall d, writes Q R (k d)) -> writes Q R (bind get_disk k).
Proof. intros Hk h d r h' d' H. by apply (Hk d) in H. Qed.

Lemma writes_modify_handle f : writes Q R (modify_handle f).
Proof. intros h d r h' d' [= _ _ <-]. apply leaves_refl. Qed.

Lemma writes_modify_disk f :
  (forall d, d_meta (f d) = d_meta d /\ (d_archived (f d) = d_archived d \/ R)) ->
  writes Q R (modify_disk f).
Proof. intros Hf h d r h' d' [= _ _ <-]. destruct (Hf d). split; [by left|done]. Qed.

Lemma writes_meta io p : Q p -> writes Q R (write_meta io p).
Proof.
  intros HQ h d r h' d'. unfold write_meta, modify_disk, bind, fail. cbn.
  destruct (io_meta io); intros [= _ _ <-]; (split; [cbn; eauto|by left]).
Qed.

Lemma writes_report {A} e (m : M A) : writes Q R m -> writes Q R (report e m).
Proof.
  intros Hm h d r h' d' H. unfold report in H.
  destruct (m (h, d)) as [[a|e'] [h1 d1]] eqn:E; apply Hm in E; by simplify_eq.
Qed.

Lemma writes_attempt (m : M unit) : writes Q R m -> writes Q R (attempt m).
Proof.
  intros Hm h d r h' d' H. unfold attempt in H.
  destruct (m (h, d)) as [[a|e'] [h1 d1]] eqn:E; apply Hm in E; by simplify_eq.
Qed.

Lemma writes_on_error {A} cleanup (m : M A) :
  writes Q R cleanup -> writes Q R m -> writes Q R (on_error cleanup m).
Proof.
  intros Hc Hm h d r h' d' H. unfold on_error in H.
  destruct (m (h, d)) as [[a|e'] [h1 d1]] eqn:E; apply Hm in E; [by simplify_eq|].
  destruct (cleanup (h1, d1)) as [r2 [h2 d2]] eqn:E2. apply Hc in E2. cbn in H. simplify_eq.
  by eapply leaves_trans.
Qed.
End Writes.

(** Walks a method by its structure; the goals left are about what it writes. *)
Ltac walk_writes :=
  repeat (cbv zeta;
  lazymatch goal with
  | |- writes _ _ (bind get_handle _) => apply writes_get_handle; intros ?
  | |- writes _ _ (bind get_disk _) => apply writes_get_disk; intros ?
  | |- writes _ _ (bind (lift _) _) => apply writes_lift; intros ? ?
  | |- writes _ _ (bind _ _) => apply writes_bind; [|intros ?]
  | |- writes _ _ (ret _) => apply writes_ret
  | |- writes _ _ (fail _) => apply writes_fail
  | |- writes _ _ (modify_handle _) => apply writes_modify_handle
  | |- writes _ _ (modify_disk _) => apply writes_modify_disk; intros ?; by auto
  | |- writes _ _ (report _ _) => apply writes_report
  | |- writes _ _ (attempt _) => apply writes_attempt
  | |- writes _ _ (on_error _ _) => apply writes_on_error
  | |- writes _ _ (write_meta _ _) => apply writes_meta; done
  | |- writes _ _ (match ?x with _ => _ end) => destruct x eqn:?
  end); try done.

Section Methods.
  Context (json_size : Commit -> option Z).

Lemma writes_guards Q R h : writes Q R (guard_open h) /\ writes Q R ensureProjectionCurrentLocked /\
  writes Q R (guard_active h).
Proof.
  unfold guard_open, ensureProjectionCurrentLocked, guard_active.
  split; [|split]; by walk_writes.
Qed.

Lemma writes_persist Q R io p : Q p -> writes Q R (persistProjectionValueLocked io p).
Proof. intros HQ. unfold persistProjectionValueLocked. by walk_writes. Qed.

Lemma writes_updateIndex Q R io e : writes Q R (updateIndex io e).
Proof. unfold updateIndex. by walk_writes. Qed.

Lemma writes_journal Q R io c g : writes Q R (appendCurrent json_size io c) /\
  writes Q R (remove_journal io g) /\ writes Q R (stageNextGeneration json_size io c g).
Proof.
  unfold appendCurrent, stageNextGeneration, remove_journal. split; [|split]; by walk_writes.
Qed.

Lemma writes_Close Q R io : writes Q R (Close io).
Proof. unfold Close. by walk_writes. Qed.

Lemma writes_rename Q (R : Prop) io b : R -> writes Q R (rename io b).
Proof.
  intros HR. unfold rename. destruct (io_rename io); walk_writes;
    apply writes_modify_disk; intros ?; by auto.
Qed.
End Methods.

(** ** Methods called on a handle *)

(** The same for a method that starts on the handle [h]. *)
Definition writes_from {A} (Q : Projection -> Prop) (R : Prop) (h : Handle) (m : M A) : Prop :=
  forall d r h' d', m (h, d) = (r, (h', d')) -> leaves Q R d d'.

Section From.
  Context (Q : Projection -> Prop) (R : Prop) (h : Handle).

Lemma from_writes {A} (m : M A) : writes Q R m -> writes_from Q R h m.
Proof. intros Hm d. apply Hm. Qed.

Lemma from_get_handle {B} (k : Handle -> M B) : writes_from Q R h (k h) -> writes_from Q R h (bind get_handle k).
Proof. intros Hk d r h' d' H. by apply (Hk d r h' d'). Qed.

Lemma from_bind {A B} (m : M A) (k : A -> M B) :
  writes_from Q R h m -> (forall a, writes Q R (k a)) -> writes_from Q R h (bind m k).
Proof.
  intros Hm Hk d r h' d' H. unfold bind in H.
  destruct (m (h, d)) as [[a|e] [h1 d1]] eqn:E; apply Hm in E; [|by simplify_eq].
  apply Hk in H. by eapply leaves_trans.
Qed.
End From.

Section Calls.
  Context (json_size : Commit -> option Z).

Definition keeps_identity (h : Handle) (q : Projection) : Prop :=
  identity q = identity (h_projection h).

(** Walks a method down to what it publishes. *)
Ltac walk_method h :=
  apply from_get_handle, from_writes; walk_writes;
  repeat match goal with
         | |- writes ?Q ?R (guard_open _) => apply (writes_guards Q R h)
         | |- writes ?Q ?R ensureProjectionCurrentLocked => apply (writes_guards Q R h)
         | |- writes ?Q ?R (guard_active _) => apply (writes_guards Q R h)
         | |- writes ?Q ?R (appendCurrent ?j ?io ?c) => apply (writes_journal j Q R io c ""%string)
         | |- writes ?Q ?R (stageNextGeneration ?j ?io ?c ?g) => apply (writes_journal j Q R io c g)
         | |- writes ?Q ?R (remove_journal ?io ?g) =>
           apply (writes_journal json_size Q R io (mkCommit 0 0 0 []) g)
         | |- writes _ _ (activate _) => apply writes_modify_handle
         | |- writes _ _ (updateIndex _ _) => apply writes_updateIndex
         | |- writes _ _ (persistProjectionValueLocked _ _) => apply writes_persist
         end.

Lemma AppendFacts_writes R io facts h : p_ThreadID (h_projection h) <> ""%string ->
  writes_from (keeps_identity h) R h (AppendFacts json_size io facts).
Proof.
  intros Hne. unfold AppendFacts. walk_method h.
  match goal with H : prepareAppendLocked _ _ _ _ = Ok _ |- _ => unfold prepareAppendLocked in H; revert H end.
  intros H. destruct (prepareCommit _ _ _ _ _) as [c|]; [|done]. cbn [rbind] in H.
  destruct (candidate_of _ _ _) as [s|] eqn:E; [|done]. cbn [rbind] in H. simplify_eq.
  apply candidate_identity in E; [|done]. exact E.
Qed.

Lemma beginGeneration_writes R io compacted summary automatic usage h :
  p_ThreadID (h_projection h) <> ""%string ->
  writes_from (keeps_identity h) R h (beginGeneration json_size io compacted summary automatic usage).
Proof.
  intros Hne. unfold beginGeneration. walk_method h.
  match goal with H : candidate_of _ _ _ = Ok _ |- _ => apply candidate_identity in H; [exact H|done] end.
Qed.

Lemma writes_publish Q R io p : Q p -> writes Q R (publish_projection io p).
Proof.
  intros HQ. unfold publish_projection. walk_writes. by apply writes_persist.
Qed.

Lemma mutate_writes Q R io mutate h :
  (forall u v, Q (advanceProjectionRevision u (mutate v (cloneProjection (h_projection h))))) ->
  writes_from Q R h (mutateProjectionLocked io mutate).
Proof. intros HQ. unfold mutateProjectionLocked. walk_method h. by apply writes_publish. Qed.

(** What a call may leave in [thread.json], but for [ApplyAlias]. *)
Definition call_result (c : Call) (h : Handle) (q : Projection) : Prop :=
  keeps_identity h q \/
  exists alias, c = CallApplyAlias true alias /\
    identity q = (p_ThreadID (h_projection h), alias, p_ParentThreadID (h_projection h)).

Lemma writes_weaken {A} (Q Q' : Projection -> Prop) R h (m : M A) :
  (forall q, Q q -> Q' q) -> writes_from Q R h m -> writes_from Q' R h m.
Proof.
  intros HQ Hm d r h' d' [[?|(q & ? & ?)] ?]%Hm; (split; [|done]); [by left|right; eauto].
Qed.

Lemma from_discard {A} Q R h (m : M A) : writes_from Q R h m -> writes_from Q R h (discard_result m).
Proof. intros Hm. unfold discard_result. apply from_bind; [done|]. intros. walk_writes. Qed.

Lemma call_writes io c h : p_ThreadID (h_projection h) <> ""%string ->
  writes_from (call_result c h) (h_ID h <> MainID) h (run_call json_size io c).
Proof.
  intros Hne.
  assert (forall A (m : M A), writes_from (keeps_identity h) (h_ID h <> MainID) h m ->
    writes_from (call_result c h) (h_ID h <> MainID) h m) as Hk.
  { intros A m. apply writes_weaken. by left. }
  destruct c; cbn [run_call].
  - by apply Hk, from_discard, AppendFacts_writes.
  - apply Hk, from_discard. unfold appendBatchAssigned.
    destruct (Nat.eqb _ 0); [apply from_writes; walk_writes|].
    apply from_get_handle. cbv zeta. destruct (h_closed h); [apply from_writes; walk_writes|].
    apply from_bind; [by apply AppendFacts_writes|]. intros. walk_writes.
  - apply Hk. unfold AppendEvent. destruct transient; [apply from_writes; walk_writes|].
    apply from_get_handle. destruct (existsb _ _); [apply from_writes; walk_writes|].
    apply from_bind; [by apply AppendFacts_writes|]. intros. walk_writes.
  - apply Hk. unfold RecordProviderUsage. destruct (_ && _); [apply from_writes; walk_writes|].
    apply from_bind; [by apply AppendFacts_writes|]. intros. walk_writes.
  - by apply Hk, from_discard, beginGeneration_writes.
  - by apply Hk, from_discard, beginGeneration_writes.
  - unfold ApplyAlias. destruct (alias =?s ""); [apply from_writes; walk_writes|].
    destruct available; cbn [negb]; [|apply from_writes; walk_writes].
    apply from_bind; [|intros; apply writes_updateIndex]. apply mutate_writes.
    intros u v. right. by exists alias.
  - apply Hk. unfold SetPendingInputCount. destruct (count <? 0); [apply from_writes; walk_writes|].
    walk_method h. by apply writes_publish.
  - apply Hk. unfold Archive. apply from_get_handle. cbv zeta.
    do 3 (match goal with |- writes_from _ _ _ (if ?b then _ else _) =>
      destruct b eqn:?; [apply from_writes; walk_writes|] end). to_prop.
    apply from_bind; [by apply mutate_writes|]. intros.
    walk_writes; [apply writes_Close|by apply writes_rename|apply writes_updateIndex].
  - apply Hk, from_writes, writes_Close.
Qed.
(** ** Opening *)

Definition open_result (p : Projection) (d' d : Disk) : Prop :=
  d_meta d' = d_meta d \/ exists q, d_meta d' = MetaProjection q /\ identity q = identity p.

(** A visitor that keeps the identity keeps it over all journals. *)
Lemma visit_identity id p visit l : (forall c s s', visit c s = Ok s' ->
    identity (s_Projection s) = identity p -> identity (s_Projection s') = identity p) ->
  forall want s ws, visit_loop id want l visit s = Ok ws ->
    identity (s_Projection s) = identity p -> identity (s_Projection ws.2) = identity p.
Proof.
  intros Hv. induction l as [|c l IH]; intros want s ws H Hs; cbn [visit_loop] in H; [by injection H as <-|].
  destruct (negb _); [done|]. destruct (validateCommit _ _); [|done].
  destruct (visit c s) as [s1|] eqn:E; [|done]. cbn [rbind] in H. eapply IH; [done|by eapply Hv].
Qed.

Lemma captured_identity id files through p visit l : (forall c s s', visit c s = Ok s' ->
    identity (s_Projection s) = identity p -> identity (s_Projection s') = identity p) ->
  forall start want s ws, captured_loop (json_size) id files through start want l visit s = Ok ws ->
    identity (s_Projection s) = identity p -> identity (s_Projection ws.2) = identity p.
Proof.
  intros Hv. induction l as [|g l IH]; intros start want s ws H Hs; cbn [captured_loop] in H; [by injection H as <-|].
  destruct (files !! _) as [f|]; [|done].
  destruct (ReadForwardTo _ _ _ _ _) as [commits|]; [|done]. cbn [rbind] in H.
  destruct (visit_loop _ _ _ _ _) as [ws1|] eqn:E; [|done]. cbn [rbind] in H.
  eapply IH; [done|]. by eapply visit_identity.
Qed.

Lemma recover_identity id files through s rs :
  recoverUsageAggregate json_size id files through s = Ok rs ->
  identity (s_Projection rs.2) = identity (s_Projection s).
Proof.
  unfold recoverUsageAggregate. intros H. destruct (bool_decide _); [by simplify_eq/=|].
  destruct (visitCommitsAfterCursor _ _ _ _ _ _ _ _) as [s'|] eqn:E; [|done]. cbn [rbind] in H.
  destruct (bool_decide _); [|done]. injection H as <-. cbn [snd]. unfold visitCommitsAfterCursor in E.
  destruct (index_loop _ _ _ _); [|done]. destruct (index_loop _ _ _ _); [|done].
  destruct (_ <? _)%nat; [done|].
  destruct (captured_loop _ _ _ _ _ _ _ _ _) as [ws|] eqn:Ec; [|done]. cbn [rbind] in E.
  destruct (_ =? _); [|done]. simplify_eq. eapply captured_identity; [|done|done].
  intros c s1 s2. unfold recover_visit. destruct (add_usage_facts _ _); [|done]. cbn [rbind].
  by intros [= <-].
Qed.

Lemma openEventStore_identity io id p files store s recovered files' :
  p_ThreadID p <> ""%string ->
  openEventStore json_size io id p files = (Ok (store, s, recovered), files') ->
  identity (s_Projection s) = identity p.
Proof.
  intros Hne H. unfold openEventStore in H.
  destruct (recoverGenerationLayout _ _ _) as [[[]|] files1]; [|done].
  destruct (openGenerationFile _ _ _ _) as [[[size commits]|] files2]; [|done].
  injection H as H _. destruct (splitCommitsAtCursor _ _) as [parts|]; [|done]. cbn [rbind] in H.
  destruct (replayCurrentGeneration id p parts.1) as [s0|] eqn:E0; [|done]. cbn [rbind] in H.
  apply replayCurrent_inv in E0 as (_ & _ & _ & _ & _ & _ & _ & _ & Hs0).
  destruct (recoverUsageAggregate _ _ _ _ _) as [rs|] eqn:E1; [|done]. cbn [rbind] in H.
  apply recover_identity in E1. rewrite Hs0 in E1.
  change (identity (cloneProjection p)) with (identity p) in E1.
  destruct (apply_tail id parts.2 rs.1 rs.2) as [rs'|] eqn:E2; [|done]. cbn [rbind] in H.
  assert (identity (s_Projection rs'.2) = identity p) as Hi.
  { unfold apply_tail in E2. destruct parts.2 as [|u [|]]; [by injection E2 as <-| |by injection E2 as <-].
    destruct (applyCommit id rs.2 u) as [s1|] eqn:Ea; [|done]. injection E2 as <-. cbn [snd].
    rewrite <- E1. apply (applyCommit_identity id u); [done|].
    unfold identity in E1. congruence. }
  destruct (validateProjectionMetadata _ id); [|done]. cbn [rbind] in H. injection H as _ <- _.
  unfold recovered_revision. by destruct rs'.1.
Qed.

Lemma openLocked_meta io archived id d p r d' :
  d_meta d = MetaProjection p -> openLocked json_size io archived id d = (r, d') ->
  open_result p d' d /\ d_archived d' = d_archived d /\
  forall h, r = Ok h -> h_ID h = id /\ identity (h_projection h) = identity p.
Proof.
  intros Hm H. unfold openLocked in H.
  assert (forall e, (Err e, d) = (r, d') -> open_result p d' d /\ d_archived d' = d_archived d /\
    forall h, r = Ok h -> h_ID h = id /\ identity (h_projection h) = identity p) as Hsame.
  { intros e [= <- <-]. split; [by left|]. done. }
  destruct (negb (ValidID id)); [by eapply Hsame|].
  destruct (readProjectionFile archived id d) as [q|] eqn:Hq; [|by eapply Hsame].
  unfold readProjectionFile in Hq. rewrite Hm in Hq. destruct (negb _); [done|].
  destruct (validateProjectionMetadata p id) as [[]|] eqn:Hv; [|done]. cbn [rbind] in Hq. injection Hq as <-.
  unfold validateProjectionMetadata, check in Hv. destruct (valid_projection p id) eqn:Hp; [|done].
  destruct (negb _); [by eapply Hsame|].
  destruct (openEventStore json_size io id p (d_files d)) as [[[[store s] recovered]|] files] eqn:E;
    [|injection H as <- <-; split; [by left|done]].
  assert (p_ThreadID p <> ""%string) as Hne.
  { intros E0. apply valid_projection_ids in Hp as (Hid & Hvid & _). rewrite E0 in Hid. by subst id. }
  apply openEventStore_identity in E; [|done].
  destruct (io_renewal io); cbn [negb] in H; [|injection H as <- <-; split; [by left|done]].
  set (h := mkHandle id archived store s false) in H.
  assert (writes (fun q => identity q = identity p) False
    (do_ (if recovered then persistProjectionValueLocked io (s_Projection s) else ret tt);;
     updateIndex io ErrIndex)) as Hw.
  { apply writes_bind; [|intros; apply writes_updateIndex].
    destruct recovered; [by apply writes_persist|apply writes_ret]. }
  match type of H with context [?m (h, _)] => destruct (m (h, set_files files d)) as [r1 [h1 d1]] eqn:Ew end.
  apply Hw in Ew as [Ew [Ha|[]]]. cbn in Ew, Ha.
  destruct r1; injection H as <- <-; (split; [exact Ew|split; [exact Ha|]]); intros h' [= <-]. done.
Qed.

Lemma open_result_trans p q d d1 d2 : open_result p d1 d -> d_meta d = MetaProjection p ->
  d_meta d1 = MetaProjection q -> open_result q d2 d1 -> open_result p d2 d.
Proof.
  intros H1 Hm Hq H2.
  assert (identity q = identity p) as Hi.
  { destruct H1 as [E|(q' & E & Hi)]; rewrite Hq in E; [congruence|by injection E as ->]. }
  destruct H2 as [E|(q' & E & Hi')]; [|right; exists q'; by rewrite Hi'].
  destruct H1 as [E1|(q' & E1 & Hi1)]; [left; congruence|]. right. exists q'. by rewrite E.
Qed.

(** ** Steps of a reachable thread *)

Section Reachable.
  Context (json_size_nonneg : forall c n, json_size c = Some n -> 0 <= n).
  Context (id : string) (id_valid : ValidID id = true).

Abbreviation reachable := (reachable json_size id).

Lemma reachable_metadata sys : reachable sys ->
  exists p, d_meta (sys_disk sys) = MetaProjection p /\ valid_projection p id = true.
Proof.
  intros Hr. destruct (reachable_invariant json_size json_size_nonneg id id_valid sys Hr)
    as [(p & pre & tail & st & Hp & _)|[(p & Hm & Hv & _) _]]; exists p; [|done].
  split; apply Hp.
Qed.

Lemma reachable_next s s' : reachable s -> step json_size id s s' -> reachable s'.
Proof.
  intros (s0 & Hc & Hr) Hs. exists s0. split; [done|]. eapply runs_trans; [done|by apply runs_one].
Qed.

(** The next metadata of a thread: the same identity, but for the alias that
    [ApplyAlias] sets. *)
Lemma call_meta d hs h io c r h' d' p : reachable (mkSystem d hs) -> h ∈ hs ->
  run_call json_size io c (h, d) = (r, (h', d')) -> d_meta d = MetaProjection p ->
  exists p', d_meta d' = MetaProjection p' /\
    (identity p' = identity p \/
     exists alias, c = CallApplyAlias true alias /\
       identity p' = (p_ThreadID p, alias, p_ParentThreadID p)) /\
    (d_archived d' = d_archived d \/ id <> MainID).
Proof.
  intros Hr Hin H Hm. destruct (is_open h && current h d) eqn:Hoc.
  2: { apply andb_false_iff in Hoc. destruct (stale_call json_size io c h d Hoc) as (r1 & h1 & E & _).
       rewrite E in H. injection H as _ _ <-. exists p. auto. }
  apply andb_true_iff in Hoc as [Ho Hc].
  destruct (reachable_current json_size json_size_nonneg id id_valid (mkSystem d hs) h Hr Hin Ho Hc)
    as (q & pre & tail & st & Hp & [Hhid _] & ([u Hu] & _) & _). cbn in Hp.
  rewrite (pub_meta _ _ _ _ _ _ _ Hp) in Hm. injection Hm as ->.
  assert (identity (h_projection h) = identity p) as Hi.
  { unfold h_projection. rewrite Hu. cbn. by rewrite (pub_proj _ _ _ _ _ _ _ Hp). }
  pose proof (valid_projection_ids p id (pub_valid _ _ _ _ _ _ _ Hp)) as (Hid & _).
  assert (p_ThreadID (h_projection h) = id) as Hidh by (unfold identity in Hi; congruence).
  apply call_writes in H as [[H|(q & H & [Hq|(alias & -> & Hq)])] Harch]; try rewrite Hhid in Harch.
  - exists p. rewrite H. split; [apply Hp|split; [by left|done]].
  - exists q. unfold keeps_identity in Hq. rewrite <- Hi. auto.
  - exists q. split; [done|split; [right|done]]. exists alias. split; [done|]. rewrite Hq.
    unfold identity in Hi. congruence.
  - rewrite Hidh. by intros ->.
Qed.

Lemma unarchive_meta d hs io io' r d' p : reachable (mkSystem d hs) ->
  Unarchive json_size io io' id d = (r, d') -> d_meta d = MetaProjection p ->
  exists p', d_meta d' = MetaProjection p' /\ identity p' = identity p.
Proof.
  intros Hr H Hm.
  destruct (reachable_metadata (mkSystem d' (hs ++ opened r))) as (p' & Hm' & _).
  { eapply reachable_next; [done|]. by eapply step_unarchive. }
  cbn in Hm'. exists p'. split; [done|].
  enough (open_result p d' d) as [E|(q & E & Hi)]; [congruence| |].
  { rewrite Hm' in E. by injection E as ->. }
  unfold Unarchive in H. destruct (negb _); [injection H as <- <-; by left|].
  destruct (openLocked json_size io true id d) as [[h|e] d1] eqn:E1;
    apply (openLocked_meta _ _ _ _ p) in E1 as (H1 & _ & Hh); try done; [|by injection H as <- <-].
  destruct (Hh h eq_refl) as [_ Hi]. clear Hh.
  assert (exists q1, d_meta d1 = MetaProjection q1 /\ identity q1 = identity p) as (q1 & Hq1 & Hi1).
  { destruct H1 as [E|(q & E & ?)]; [exists p; split; [congruence|done]|eauto]. }
  match type of H with context [?m (h, d1)] =>
    assert (writes_from (fun q => identity q = identity p) True h m) as Hw end.
  { apply from_bind; [apply mutate_writes; intros; exact Hi|intros].
    walk_writes; [apply writes_Close|by apply writes_rename]. }
  match type of H with context [?m (h, d1)] => destruct (m (h, d1)) as [r2 [h2 d2]] eqn:E2 end.
  apply Hw in E2 as [E2 _].
  assert (open_result p d2 d) as H2.
  { eapply (open_result_trans p q1 d d1); [done..|]. destruct E2 as [?|(q & ? & ?)]; [by left|right].
    exists q. by rewrite Hi1. }
  destruct r2 as [closed|e]; [|by injection H as <- <-].
  assert (exists q2, d_meta d2 = MetaProjection q2 /\ identity q2 = identity p) as (q2 & Hq2 & Hi2).
  { destruct H2 as [E|(q & E & ?)]; [exists p; split; [congruence|done]|eauto]. }
  cbn [snd] in H. destruct (openLocked json_size io' false id d2) as [r3 d3] eqn:E3.
  apply (openLocked_meta _ _ _ _ q2) in E3 as (H3 & _); [|done].
  assert (open_result p d3 d) as H4 by (by apply (open_result_trans p q2 d d2)).
  by destruct r3, closed, (io_index io); injection H as <- <-.
Qed.
End Reachable.
End Calls.
