(* ===== verification/ThreadTreeProps.v ===== *)
(** * The threads of an agent: the invariant

    The invariant of an agent and its handles: every directory is a reachable
    thread of [ThreadStore.v], no name is in both namespaces, and the metadata
    of all threads is consistent; and which changes of the metadata keep a set
    consistent. *)

From S2P Require Import Prelude GoStd Llm Events ThreadTypes ThreadFacts ThreadStore ThreadReplay ThreadStoreInv ThreadStoreOps ThreadStoreOpen ThreadStoreProps ThreadStoreRestart ThreadTree ThreadTreeInv ThreadTreeScan ThreadTreeSteps.
From stdpp Require Import sorting relations.

Local Open Scope Z_scope.
Local Open Scope juex_scope.

(** ** Changes of a consistent set *)

Section Consistent.
  Context (fold : Z -> Z).

Abbreviation consistent := (consistent fold).
Abbreviation EqualFold := (EqualFold fold).

Lemma rooted_ext p1 p2 i : (forall x y, up p2 x y -> up p1 x y) -> rooted p1 i -> rooted p2 i.
Proof. intros Hext H. induction H as [x _ IH]. constructor. intros y Hy. by apply IH, Hext. Qed.

Lemma consistent_empty : consistent ∅.
Proof.
  split; try (intros ? ? ? ? H; by rewrite lookup_empty in H).
  - intros [? H]. by rewrite lookup_empty in H.
  - intros i [? H]. by rewrite lookup_empty in H.
Qed.

(** The alias of [p] suits the thread [id] among the others. *)
Definition alias_fits (m : gmap string Projection) (id : string) (p : Projection) : Prop :=
  EqualFold (p_Alias p) id = false /\
  forall j q, m !! j = Some q -> j <> id ->
    EqualFold (p_Alias p) j = false /\ EqualFold (p_Alias p) (p_Alias q) = false.

Lemma consistent_fits m id p : consistent m -> m !! id = Some p -> alias_fits m id p.
Proof.
  intros [H1 H2 _ _] Hid. split; [by apply (H1 id id p p)|]. intros j q Hj Hne. split.
  - by apply (H1 id j p q).
  - by apply (H2 id j p q).
Qed.

(** New metadata of a thread with the same parent. *)
Lemma consistent_update m id p p' : consistent m -> m !! id = Some p ->
  p_ParentThreadID p' = p_ParentThreadID p -> alias_fits m id p' -> consistent (<[id := p']> m).
Proof.
  intros Hc Hid Hpar [Hf1 Hf2].
  assert (parents (<[id := p']> m) = parents m) as Hparents.
  { unfold parents. rewrite fmap_insert, Hpar. apply insert_id. by rewrite lookup_fmap, Hid. }
  assert (forall i, is_Some (<[id := p']> m !! i) <-> is_Some (m !! i)) as Hdom.
  { intros i. destruct (decide (i = id)) as [->|]; [rewrite lookup_insert_eq, Hid; split; eauto|].
    by rewrite lookup_insert_ne. }
  destruct Hc as [H1 H2 H3 H4]. split.
  - intros i j q r Hi Hj.
    assert (is_Some (m !! j)) as [r' Hj'] by (apply Hdom; eauto).
    destruct (decide (i = id)) as [->|].
    + rewrite lookup_insert_eq in Hi. simplify_eq.
      destruct (decide (j = id)) as [->|]; [done|]. by apply (Hf2 j r').
    + rewrite lookup_insert_ne in Hi by done. by apply (H1 i j q r').
  - intros i j q r Hi Hj Hne.
    destruct (decide (i = id)) as [->|], (decide (j = id)) as [->|]; [done|..].
    + rewrite lookup_insert_eq in Hi. rewrite lookup_insert_ne in Hj by done. simplify_eq.
      by apply (Hf2 j r).
    + rewrite lookup_insert_eq in Hj. rewrite lookup_insert_ne in Hi by done. simplify_eq.
      rewrite EqualFold_sym. by apply (Hf2 i q).
    + rewrite !lookup_insert_ne in Hi, Hj by done. by apply (H2 i j q r).
  - intros Hm i q Hi Hne. rewrite Hdom in *. destruct (decide (i = id)) as [->|].
    + rewrite lookup_insert_eq in Hi. simplify_eq. rewrite Hpar. by apply (H3 Hm id p).
    + rewrite lookup_insert_ne in Hi by done. by apply (H3 Hm i q).
  - intros i Hi. rewrite Hparents. by apply H4, Hdom.
Qed.

(** A new thread under an existing one, or Main as the first. *)
Lemma consistent_insert m id p : consistent m -> m !! id = None -> alias_fits m id p ->
  (forall j q, m !! j = Some q -> EqualFold (p_Alias q) id = false) ->
  (id = MainID /\ m = ∅ \/
   id <> MainID /\ is_Some (m !! MainID) /\ is_Some (m !! p_ParentThreadID p)) ->
  consistent (<[id := p]> m).
Proof.
  intros Hc Hid [Hf1 Hf2] Hid' Hplace. destruct Hc as [H1 H2 H3 H4]. split.
  - intros i j q r Hi Hj.
    destruct (decide (i = id)) as [->|], (decide (j = id)) as [->|];
      repeat match goal with
      | H : <[id := p]> m !! id = _ |- _ => rewrite lookup_insert_eq in H
      | H : <[id := p]> m !! ?k = _ |- _ => rewrite (lookup_insert_ne m id k) in H by done
      end; simplify_eq; [done|by apply (Hf2 j r)|by apply (Hid' i q)|by apply (H1 i j q r)].
  - intros i j q r Hi Hj Hne.
    destruct (decide (i = id)) as [->|], (decide (j = id)) as [->|];
      repeat match goal with
      | H : <[id := p]> m !! id = _ |- _ => rewrite lookup_insert_eq in H
      | H : <[id := p]> m !! ?k = _ |- _ => rewrite (lookup_insert_ne m id k) in H by done
      end; simplify_eq; [by apply (Hf2 j r)|rewrite EqualFold_sym; by apply (Hf2 i q)|by apply (H2 i j q r)].
  - intros Hm i q Hi Hne. destruct Hplace as [[-> ->]|(Hidm & Hmain & Hpar)].
    { rewrite lookup_insert_ne in Hi by done. by rewrite lookup_empty in Hi. }
    rewrite lookup_insert_is_Some. destruct (decide (id = p_ParentThreadID q)) as [|Hx]; [by left|right].
    split; [done|]. destruct (decide (i = id)) as [->|].
    + rewrite lookup_insert_eq in Hi. by simplify_eq.
    + rewrite lookup_insert_ne in Hi by done. by apply (H3 Hmain i q).
  - assert (forall i, is_Some (m !! i) -> rooted (parents (<[id := p]> m)) i) as Hold.
    { intros i Hi. pose proof (H4 i Hi) as Hr. induction Hr as [i _ IH]. constructor.
      intros y [Hne Hy]. unfold parents in Hy.
      assert (i <> id) as Hii by (intros ->; rewrite Hid in Hi; by destruct Hi).
      rewrite lookup_fmap, lookup_insert_ne in Hy by done.
      destruct (m !! i) as [q|] eqn:Hq; [|done]. cbn in Hy. injection Hy as <-.
      apply IH.
      - split; [done|]. unfold parents. by rewrite lookup_fmap, Hq.
      - destruct Hplace as [[-> ->]|(_ & Hmain & _)]; [by rewrite lookup_empty in Hq|].
        by apply (H3 Hmain i q). }
    intros i Hi. destruct (decide (i = id)) as [->|Hne].
    2: { rewrite lookup_insert_ne in Hi by done. by apply Hold. }
    constructor. intros y [Hm Hy]. unfold parents in Hy.
    rewrite lookup_fmap, lookup_insert_eq in Hy. cbn in Hy. injection Hy as <-.
    destruct Hplace as [[-> _]|(_ & _ & Hpar)]; [done|]. by apply Hold.
Qed.

(** Without a thread that is no parent. *)
Lemma consistent_delete m id : consistent m -> id <> MainID ->
  (forall i p, m !! i = Some p -> p_ParentThreadID p <> id) -> consistent (delete id m).
Proof.
  intros [H1 H2 H3 H4] Hne Hleaf. split.
  - intros i j p q [_ Hi]%lookup_delete_Some [_ Hj]%lookup_delete_Some. by apply (H1 i j p q).
  - intros i j p q [_ Hi]%lookup_delete_Some [_ Hj]%lookup_delete_Some. by apply (H2 i j p q).
  - rewrite lookup_delete_ne by done. intros Hm i p [_ Hi]%lookup_delete_Some Hi'.
    rewrite lookup_delete_ne; [by apply (H3 Hm i p)|]. intros E. by apply (Hleaf i p Hi).
  - intros i [p [_ Hi]%lookup_delete_Some]. apply (rooted_ext (parents m)); [|apply H4; eauto].
    intros x y [Hx Hy]. split; [done|]. unfold parents in *. rewrite fmap_delete in Hy.
    by apply lookup_delete_Some in Hy as [_ Hy].
Qed.
End Consistent.

(** ** Directories *)

Lemma namespace_set b c m a :
  namespace b (set_namespace c m a) = if Bool.eqb b c then m else namespace b a.
Proof. by destruct b, c. Qed.

Lemma namespace_index b x a : namespace b (set_index x a) = namespace b a.
Proof. by destruct b. Qed.

Lemma namespace_trash b x a : namespace b (set_trash x a) = namespace b a.
Proof. by destruct b. Qed.

Lemma metas_index x a : metas (set_index x a) = metas a.
Proof. done. Qed.

(** Two agents with the same directories of threads. *)
Definition same_dirs (a a' : Agent) : Prop := forall b, namespace b a' = namespace b a.

Lemma same_dirs_index x a : same_dirs a (set_index x a).
Proof. intros b. apply namespace_index. Qed.

Lemma same_dirs_metas a a' : same_dirs a a' -> metas a' = metas a.
Proof. intros H. unfold metas. pose proof (H false) as H1. pose proof (H true) as H2. cbn in *. by rewrite H1, H2. Qed.

Lemma same_dirs_wf a a' : same_dirs a a' -> wf a -> wf a'.
Proof.
  intros H [H1 H2]. split; [intros b id e; rewrite H; apply H1|intros b id; rewrite !H; apply H2].
Qed.

Lemma same_dirs_trans a b c : same_dirs a b -> same_dirs b c -> same_dirs a c.
Proof. intros H1 H2 x. by rewrite H2. Qed.

Lemma relocate_lookup b archived id d a j :
  is_Some (namespace archived a !! id) -> namespace (negb archived) a !! id = None ->
  namespace b (relocate archived id d a) !! j =
    if decide (j = id) then (if Bool.eqb b (d_archived d) then Some (EntryDir d) else None)
    else namespace b a !! j.
Proof.
  intros _ Hn. unfold relocate, put_dir, remove_dir.
  destruct (decide (j = id)) as [->|Hne].
  - destruct b, archived, (d_archived d); cbn in *;
      rewrite ?lookup_insert_eq, ?lookup_delete_eq; done.
  - destruct b, archived, (d_archived d); cbn;
      rewrite ?lookup_insert_ne, ?lookup_delete_ne by done; done.
Qed.

Lemma relocate_in_place archived id d a : d_archived d = archived ->
  relocate archived id d a = put_dir archived id d a.
Proof.
  intros <-. unfold relocate, put_dir, remove_dir. destruct a as [th ar tr ix], (d_archived d); cbn;
    by rewrite insert_delete_eq.
Qed.

Lemma metas_lookup_raw a id :
  metas a !! id = match namespace false a !! id ≫= entry_meta with
                  | Some p => Some p
                  | None => namespace true a !! id ≫= entry_meta
                  end.
Proof.
  unfold metas. rewrite lookup_union, !lookup_omap. cbn.
  by destruct (_ ≫= _), (_ ≫= _).
Qed.

Lemma metas_relocate archived id d p a :
  is_Some (namespace archived a !! id) -> namespace (negb archived) a !! id = None ->
  d_meta d = MetaProjection p -> metas (relocate archived id d a) = <[id := p]> (metas a).
Proof.
  intros Hs Hn Hm. apply map_eq. intros j. rewrite metas_lookup_raw, !relocate_lookup by done.
  destruct (decide (j = id)) as [->|Hne].
  - rewrite lookup_insert_eq. destruct (d_archived d); cbn; by rewrite Hm.
  - by rewrite lookup_insert_ne, metas_lookup_raw.
Qed.

Lemma dir_at_some archived id a d : dir_at archived id a = Some d ->
  exists d0, namespace archived a !! id = Some (EntryDir d0) /\ d = set_archived archived d0.
Proof.
  unfold dir_at. destruct (namespace archived a !! id) as [[|d0]|]; [done| |done].
  intros [= <-]. eauto.
Qed.

Section Trees.
  Context (json_size : Commit -> option Z) (fold : Z -> Z).
  Context (json_size_nonneg : forall c n, json_size c = Some n -> 0 <= n).

Abbreviation consistent := (consistent fold).
Abbreviation EqualFold := (EqualFold fold).

(** ** The invariant *)

(** A directory with the metadata of a thread and without its journal, as a failed
    creation can leave it. Nothing opens it. *)
Definition stub (id : string) (d : Disk) : Prop :=
  d_archived d = false /\ d_files d = ∅ /\
  exists p, d_meta d = MetaProjection p /\ valid_projection p id = true /\
    p_RetentionState p = RetentionActive.

(** A thread and its handles, or a stub, which has none. *)
Definition settled (id : string) (s : System) : Prop :=
  reachable json_size id s \/ stub id (sys_disk s) /\ sys_handles s = [].

Lemma settled_metadata id s : ValidID id = true -> settled id s ->
  exists p, d_meta (sys_disk s) = MetaProjection p /\ valid_projection p id = true.
Proof.
  intros Hid [Hr|[(_ & _ & p & Hm & Hv & _) _]]; [|eauto].
  by apply (reachable_metadata json_size json_size_nonneg id Hid).
Qed.

Lemma settled_reachable id d hs : settled id (mkSystem d hs) ->
  hs <> [] \/ d_archived d = true -> reachable json_size id (mkSystem d hs).
Proof.
  intros [|[(Ha & _) Hhs]] [Hne|E]; try done. cbn in Ha. congruence.
Qed.

(** No opening succeeds on a stub or changes it. *)
Lemma stub_unopened io archived id d r d' : stub id d ->
  openLocked json_size io archived id d = (r, d') -> is_ok r = false /\ d' = d.
Proof.
  intros (_ & Hf & p & Hm & Hv & _) H. unfold openLocked in H.
  destruct (negb (ValidID id)); [by injection H as <- <-|].
  destruct (readProjectionFile archived id d) as [q|e] eqn:Hread; [|by injection H as <- <-].
  assert (q = p) as ->.
  { unfold readProjectionFile in Hread. rewrite Hm in Hread. destruct (negb _); [done|].
    unfold rbind in Hread. destruct (validateProjectionMetadata p id); [|discriminate Hread].
    by injection Hread. }
  destruct (negb _); [by injection H as <- <-|].
  assert (exists g, g ∈ p_Generations p) as [g Hg].
  { unfold valid_projection in Hv. to_prop.
    destruct (p_Generations p) as [|g l] eqn:E; [|exists g; left].
    exfalso. match goal with H : last [] = Some _ |- _ => discriminate H end. }
  assert (openEventStore json_size io id p (d_files d) = (Err ErrCorruptJournal, ∅)) as E.
  { rewrite Hf. unfold openEventStore, recoverGenerationLayout. cbv zeta.
    change (sorted_names ∅) with (@nil string). cbn [layout_loop].
    destruct (existsb _ _) eqn:Hex; [done|]. exfalso.
    rewrite existsb_false in Hex. specialize (Hex (journalName (g_ID g))).
    rewrite bool_decide_eq_true_2 in Hex by apply lookup_empty. discriminate Hex.
    by apply (list_elem_of_fmap_2 (fun g => journalName (g_ID g))). }
  rewrite E in H. injection H as <- <-. split; [done|]. rewrite <- Hf. by destruct d.
Qed.

Definition thread_ok (t : Tree) (archived : bool) (id : string) (e : DirEntry) : Prop :=
  ValidID id = true /\ exists d, e = EntryDir d /\
    settled id (mkSystem (set_archived archived d) (handles_of t id)).

Record tree_inv (t : Tree) : Prop := {
  ti_dir : forall archived id e, namespace archived (t_agent t) !! id = Some e ->
             thread_ok t archived id e;
  ti_once : forall archived id, is_Some (namespace archived (t_agent t) !! id) ->
              namespace (negb archived) (t_agent t) !! id = None;
  ti_handles : forall id, (forall archived, namespace archived (t_agent t) !! id = None) ->
                 handles_of t id = [];
  ti_consistent : consistent (metas (t_agent t));
  ti_main : metas (t_agent t) = ∅ \/ is_Some (ag_threads (t_agent t) !! MainID);
}.

Lemma tree_wf t : tree_inv t -> wf (t_agent t).
Proof.
  intros H. split; [|apply (ti_once t H)]. intros archived id e He.
  destruct (ti_dir t H archived id e He) as (Hid & d & -> & Hr).
  destruct (settled_metadata id _ Hid Hr) as (p & Hm & Hv).
  by exists d, p.
Qed.

(** The threads of an agent in the invariant, one at a time. *)
Lemma tree_thread t archived id d : tree_inv t -> dir_at archived id (t_agent t) = Some d ->
  ValidID id = true /\ is_Some (namespace archived (t_agent t) !! id) /\
  namespace (negb archived) (t_agent t) !! id = None /\
  settled id (mkSystem d (handles_of t id)) /\
  (id = MainID -> archived = false) /\
  exists p, d_meta d = MetaProjection p /\ metas (t_agent t) !! id = Some p.
Proof.
  intros H (d0 & Hd0 & ->)%dir_at_some.
  destruct (ti_dir t H archived id _ Hd0) as (Hid & d & [= <-] & Hr).
  destruct (settled_metadata id _ Hid Hr) as (p & Hm & Hv).
  assert (metas (t_agent t) !! id = Some p) as Hp.
  { apply metas_lookup; [by apply tree_wf|]. exists archived, d0. by destruct d0. }
  split; [done|]. split; [eauto|]. split; [apply (ti_once t H); eauto|]. split; [done|].
  split; [|eauto]. intros ->. destruct (ti_main t H) as [E|Hm0]; [by rewrite E, lookup_empty in Hp|].
  destruct archived; [|done]. pose proof (ti_once t H false MainID Hm0) as E. cbn in *. congruence.
Qed.

Lemma handles_insert a hs id l j :
  handles_of (mkTree a (<[id := l]> hs)) j = if decide (j = id) then l else default [] (hs !! j).
Proof.
  unfold handles_of. cbn. destruct (decide (j = id)) as [->|]; [by rewrite lookup_insert_eq|].
  by rewrite lookup_insert_ne.
Qed.

(** A method of one thread keeps the invariant. *)
Lemma relocate_keeps t archived id d d' hs p p' a :
  tree_inv t -> dir_at archived id (t_agent t) = Some d -> d_meta d = MetaProjection p ->
  settled id (mkSystem d' hs) -> d_meta d' = MetaProjection p' ->
  p_ParentThreadID p' = p_ParentThreadID p -> alias_fits fold (metas (t_agent t)) id p' ->
  (d_archived d' = archived \/ id <> MainID) ->
  same_dirs (relocate archived id d' (t_agent t)) a ->
  tree_inv (mkTree a (<[id := hs]> (t_handles t))).
Proof.
  intros Hinv Hd Hm Hr Hm' Hpar Hfit Harch Ha.
  destruct (tree_thread t archived id d Hinv Hd) as (Hid & Hs & Hn & _ & Hmain & q & Hq & Hp).
  rewrite Hm in Hq. injection Hq as <-.
  pose proof (same_dirs_metas _ _ Ha) as Hmetas. rewrite (metas_relocate _ _ _ p') in Hmetas by done.
  assert (forall b j, namespace b a !! j = namespace b (relocate archived id d' (t_agent t)) !! j) as Hlk
    by (intros b j; by rewrite Ha).
  split; cbn [t_agent].
  - intros b j e He. rewrite Hlk, relocate_lookup in He by done.
    unfold thread_ok. rewrite handles_insert. destruct (decide (j = id)) as [->|Hne].
    + destruct (Bool.eqb b (d_archived d')) eqn:Hb; [|done]. injection He as <-.
      apply eqb_prop in Hb as ->. split; [done|]. exists d'. split; [done|]. by destruct d'.
    + destruct (ti_dir t Hinv b j e He) as (Hj & d1 & -> & Hr1). split; [done|]. by exists d1.
  - intros b j. rewrite !Hlk, !relocate_lookup by done.
    destruct (decide (j = id)) as [->|Hne]; [|apply (ti_once t Hinv)].
    intros [e He]. by destruct b, (d_archived d').
  - intros j Hj. rewrite handles_insert. destruct (decide (j = id)) as [->|Hne].
    + specialize (Hj (d_archived d')). rewrite Hlk, relocate_lookup, decide_True, eqb_reflx in Hj by done.
      done.
    + apply (ti_handles t Hinv). intros b. specialize (Hj b).
      by rewrite Hlk, relocate_lookup, decide_False in Hj.
  - rewrite Hmetas. by apply (consistent_update fold _ id p); [apply ti_consistent|..].
  - right. specialize (Hlk false MainID). cbn in Hlk. rewrite Hlk.
    pose proof (relocate_lookup false archived id d' (t_agent t) MainID Hs Hn) as E. cbn [namespace] in E.
    rewrite E. destruct (decide (MainID = id)) as [<-|Hne].
    + destruct Harch as [->|]; [|done]. rewrite Hmain by done. eauto.
    + destruct (ti_main t Hinv) as [E0|]; [|done]. by rewrite E0, lookup_empty in Hp.
Qed.

(** Only index and trash change. *)
Lemma same_dirs_keeps t a : tree_inv t -> same_dirs (t_agent t) a -> tree_inv (mkTree a (t_handles t)).
Proof.
  intros H Ha. split; cbn [t_agent].
  - intros b id e. rewrite Ha. apply (ti_dir t H).
  - intros b id. rewrite !Ha. apply (ti_once t H).
  - intros id Hn. apply (ti_handles t H). intros b. by rewrite <- Ha.
  - rewrite (same_dirs_metas _ _ Ha). apply (ti_consistent t H).
  - rewrite (same_dirs_metas _ _ Ha). pose proof (Ha false) as E. cbn in E. rewrite E. apply (ti_main t H).
Qed.
End Trees.
