(* ===== verification/ThreadTreeOps.v ===== *)
(** * The threads of an agent: every operation keeps the invariant

    Opening, creating, calling, archiving, deleting and recovering threads keep
    the invariant of [ThreadTreeProps.v], whatever the storage calls do. *)

From S2P Require Import Prelude GoStd Llm Events ThreadTypes ThreadFacts ThreadStore ThreadReplay ThreadStoreInv ThreadStoreOps ThreadStoreOpen ThreadStoreProps ThreadStoreRestart ThreadTree ThreadTreeInv ThreadTreeScan ThreadTreeSteps ThreadTreeProps.
From stdpp Require Import sorting relations.

Local Open Scope Z_scope.
Local Open Scope juex_scope.

Section Ops.
  Context (json_size : Commit -> option Z) (fold : Z -> Z).
  Context (json_size_nonneg : forall c n, json_size c = Some n -> 0 <= n).

Abbreviation consistent := (consistent fold).
Abbreviation EqualFold := (EqualFold fold).
Abbreviation tree_inv := (tree_inv json_size fold).

(** ** Opening *)

Lemma layout_loop_unindexed b io wanted lastOrdinal names : forall removed files,
  layout_loop (with_index b io) wanted lastOrdinal names removed files =
  layout_loop io wanted lastOrdinal names removed files.
Proof. induction names as [|n l IH]; intros removed files; [done|]. cbn [layout_loop]. by rewrite !IH. Qed.

Lemma openEventStore_unindexed b io id p files :
  openEventStore json_size (with_index b io) id p files = openEventStore json_size io id p files.
Proof. unfold openEventStore, recoverGenerationLayout. by rewrite layout_loop_unindexed. Qed.

(** The index refresh is the last step of an opening. *)
Lemma openLocked_unindexed io archived id d h d' :
  openLocked json_size (with_index true io) archived id d = (Ok h, d') ->
  openLocked json_size (with_index false io) archived id d = (Err ErrIndex, d').
Proof.
  unfold openLocked. intros H. destruct (negb (ValidID id)); [done|].
  destruct (readProjectionFile archived id d) as [p|]; [|done]. destruct (negb _); [done|].
  rewrite openEventStore_unindexed in *. destruct (openEventStore _ _ _ _ _) as [[[[store s] recovered]|] files]; [|done].
  change (io_renewal (with_index false io)) with (io_renewal (with_index true io)).
  destruct (negb _); [done|].
  change (persistProjectionValueLocked (with_index false io)) with
    (persistProjectionValueLocked (with_index true io)).
  unfold bind in *.
  match type of H with context [?m (mkHandle _ _ _ _ _, _)] =>
    destruct (m (mkHandle id archived store s false, set_files files d)) as [[[]|] w] end;
    [|by destruct w].
  unfold updateIndex, with_index, ret, fail in *. cbn [io_index] in *. by injection H as _ <-.
Qed.

(** With the handle dropped, or returned, an opening is a step of the thread. *)
Lemma open_reachable io archived id d hs r0 d' r :
  reachable json_size id (mkSystem d hs) ->
  openLocked json_size (with_index true io) archived id d = (r0, d') ->
  (opened r = [] \/ opened r = opened r0) ->
  reachable json_size id (mkSystem d' (hs ++ opened r)).
Proof.
  intros Hr Ho Hop.
  destruct r0 as [h|e].
  - destruct Hop as [->| ->].
    + change [] with (opened (Err ErrIndex)). eapply reachable_next; [done|].
      eapply step_open. by eapply openLocked_unindexed.
    + eapply reachable_next; [done|]. by eapply step_open.
  - assert (opened r = opened (Err e)) as -> by (by destruct Hop).
    eapply reachable_next; [done|]. by eapply step_open.
Qed.

Lemma open_settled io archived id d hs r0 d' r :
  settled json_size id (mkSystem d hs) ->
  openLocked json_size (with_index true io) archived id d = (r0, d') ->
  (opened r = [] \/ opened r = opened r0) ->
  settled json_size id (mkSystem d' (hs ++ opened r)).
Proof.
  intros [Hr|[Hs Hhs]] Ho Hop; [left; by eapply open_reachable|].
  destruct (stub_unopened json_size _ _ _ _ _ _ Hs Ho) as [Hf ->]. right. split; [done|].
  cbn in *. subst hs. destruct r0; [done|]. by destruct Hop as [-> | ->].
Qed.

Lemma load_same_dirs outcome now a r a' : wf a ->
  loadOrRebuildIndexLocked fold outcome now a = (r, a') -> same_dirs a a'.
Proof. intros Hwf H. apply load_run in H as [[ix ->] _]; [|done]. apply same_dirs_index. Qed.


(** The handles a failed method adds: none. *)
Lemma same_dirs_opened t id r a : tree_inv t -> same_dirs (t_agent t) a -> opened r = [] ->
  tree_inv (mkTree a (add_opened id r t)).
Proof.
  intros H Ha Hr.
  assert (forall j, handles_of (mkTree a (add_opened id r t)) j = handles_of t j) as Hh.
  { intros j. unfold add_opened. rewrite handles_insert, Hr, app_nil_r. by destruct (decide (j = id)) as [->|]. }
  destruct (same_dirs_keeps json_size fold t a H Ha) as [H1 H2 H3 H4 H5].
  split; cbn [t_agent] in *; [|done| |done..].
  - intros b j e He. destruct (H1 b j e He) as (Hj & d & -> & Hd). split; [done|]. exists d.
    split; [done|]. by rewrite Hh.
  - intros j Hj. rewrite Hh. by apply H3.
Qed.

(** An opened directory, in its place, with the handle or without. *)
Lemma opened_keeps io archived id t d0 r0 d' x a : tree_inv t ->
  namespace archived (t_agent t) !! id = Some (EntryDir d0) ->
  openLocked json_size (with_index true io) archived id (set_archived archived d0) = (r0, d') ->
  opened x = [] \/ opened x = opened r0 ->
  same_dirs (put_dir archived id d' (t_agent t)) a ->
  tree_inv (mkTree a (add_opened id x t)).
Proof.
  intros Hinv Hns Ho Hx Ha.
  assert (dir_at archived id (t_agent t) = Some (set_archived archived d0)) as Hd
    by (unfold dir_at; by rewrite Hns).
  destruct (tree_thread json_size fold json_size_nonneg t archived id _ Hinv Hd)
    as (Hid & Hs & Hn & Hr & _ & p & Hm & Hp).
  destruct (openLocked_meta json_size _ _ _ _ p _ _ Hm Ho) as (Hres & Harch & _).
  assert (exists p', d_meta d' = MetaProjection p' /\ identity p' = identity p) as (p' & Hm' & Hi).
  { destruct Hres as [E|(q & E & ?)]; [exists p; split; [congruence|done]|eauto]. }
  rewrite <- relocate_in_place in Ha by done. unfold add_opened.
  apply (relocate_keeps json_size fold json_size_nonneg t archived id (set_archived archived d0)
           d' (handles_of t id ++ opened x) p p'); try done.
  - by eapply open_settled.
  - unfold identity in Hi. congruence.
  - assert (p_Alias p' = p_Alias p) as E by (unfold identity in Hi; congruence).
    unfold alias_fits. rewrite E. by apply consistent_fits; [apply (ti_consistent _ _ t Hinv)|].
  - by left.
Qed.

(** What [openThread] does: nothing, or one directory is opened. *)
Lemma openThread_run io archived id a0 r a :
  openThread json_size fold io archived id a0 = (r, a) ->
  (is_ok r = false /\ a = a0) \/
  exists d0 r0 d', namespace archived a0 !! id = Some (EntryDir d0) /\
    openLocked json_size (with_index true (a_io io)) archived id (set_archived archived d0) = (r0, d') /\
    (is_ok r = false /\ a = put_dir archived id d' a0 \/
     exists x h, r0 = Ok h /\ (r = Ok h \/ is_ok r = false) /\ is_ok x = is_ok r /\
       loadOrRebuildIndexLocked fold (a_load io) (io_now (a_io io)) (put_dir archived id d' a0) = (x, a)).
Proof.
  unfold openThread, bind at 1, get_agent. intros H.
  destruct (negb (ValidID id)); [injection H as <- <-; by left|].
  destruct (namespace archived a0 !! id) as [[|d0]|] eqn:Hns; [injection H as <- <-; by left| |injection H as <- <-; by left].
  destruct (openLocked json_size _ archived id _) as [r0 d'] eqn:Ho.
  right. exists d0, r0, d'. split; [done|]. split; [done|].
  unfold bind, modify_agent, pure in H. destruct r0 as [h|e]; [|injection H as <- <-; by left].
  destruct (loadOrRebuildIndexLocked _ _ _ _) as [x a1] eqn:Hl. right.
  destruct x as [x|e]; injection H as <- <-; [exists (Ok x), h|exists (Err e), h]; auto.
Qed.

Lemma openThread_keeps io archived id t r a : tree_inv t ->
  openThread json_size fold io archived id (t_agent t) = (r, a) ->
  tree_inv (mkTree a (add_opened id r t)).
Proof.
  intros Hinv [[Hr ->]|(d0 & r0 & d' & Hns & Ho & Hcase)]%openThread_run.
  { apply same_dirs_opened; [done|done|by destruct r]. }
  destruct Hcase as [[Hr ->]|(x & h & -> & Hr & _ & Hl)].
  { eapply opened_keeps; [done..| |done]. left. by destruct r. }
  assert (tree_inv (mkTree (put_dir archived id d' (t_agent t)) (add_opened id (Ok h) t))) as Hinv1.
  { eapply opened_keeps; [done..| |done]. by right. }
  apply load_same_dirs in Hl; [|apply (tree_wf json_size fold json_size_nonneg _ Hinv1)].
  eapply opened_keeps; [done..| |done]. destruct Hr as [-> |Hr]; [by right|left; by destruct r].
Qed.

(** ** Creation *)

Lemma replay_created_identity id c alias parent g off end_ s : ValidID id = true ->
  c_Facts c = [created_fact id alias parent] ->
  replay id [mkScanned c g off end_] = Ok s ->
  identity (s_Projection s) = (id, alias, parent) /\
  p_RetentionState (s_Projection s) = RetentionActive.
Proof.
  intros Hid Hf H. unfold replay in H. cbn [apply_commits] in H.
  destruct (applyCommit id _ _) as [s1|] eqn:E; [|done]. cbn [rbind] in H.
  apply applyCommit_inv in E as (s2 & Ha & _ & ->). cbn [sc_Commit] in Ha. rewrite Hf in Ha.
  cbn [apply_facts] in Ha. unfold applyFact, created_fact in Ha. cbn [f_Type s_Projection p_ThreadID] in Ha.
  destruct (_ || _) in Ha; [done|]. cbn [rbind] in Ha. injection Ha as <-.
  by walk.
Qed.

(** The index refresh is the last step of a creation. *)
Lemma createLocked_unindexed io c id alias parent h dir :
  createLocked json_size (with_index true io) c id alias parent = (Ok h, dir) ->
  createLocked json_size (with_index false io) c id alias parent = (Err ErrIndex, dir).
Proof.
  unfold createLocked. destruct (io_mkdir c); [|done..].
  change (createEventStore json_size (with_index false io)) with (createEventStore json_size (with_index true io)).
  destruct (createEventStore _ _ _ _ _ _) as [[[store k]|] files]; [|done].
  destruct (replay id [k]) as [s0|]; [|done].
  change (persistProjectionValueLocked (with_index false io)) with
    (persistProjectionValueLocked (with_index true io)). cbv zeta.
  destruct (persistProjectionValueLocked _ _ _) as [[[]|e] w]; [|done].
  cbn [with_index io_index]. by intros [= _ <-].
Qed.

(** What a creation leaves under the name of the thread. *)
Definition left_behind (id alias parent : string) (r : result ThreadError Handle)
    (d : Disk) : Prop :=
  (is_ok r = false /\ d_meta d = MetaAbsent) \/
  (d_archived d = false /\ (forall h, r = Ok h -> h_ID h = id) /\
   exists p, d_meta d = MetaProjection p /\ identity p = (id, alias, parent) /\
     valid_projection p id = true /\ p_RetentionState p = RetentionActive /\
     forall x, opened x = [] \/ x = r -> settled json_size id (mkSystem d (opened x))).

Lemma createLocked_run io c id alias parent r dir :
  createLocked json_size (with_index true io) c id alias parent = (r, dir) ->
  (is_ok r = false /\ dir = None) \/ exists d, dir = Some d /\ left_behind id alias parent r d.
Proof.
  intros H. pose proof (createLocked_cases json_size _ _ _ _ _ _ _ H) as Hc.
  assert (forall k s, first_state json_size (with_index true io) id alias parent k s ->
    ValidID id = true /\ valid_projection (s_Projection s) id = true /\
    identity (s_Projection s) = (id, alias, parent) /\
    p_RetentionState (s_Projection s) = RetentionActive) as Hstate.
  { intros k s (Hid & Hk & _ & s0 & Hr & -> & Hv). split; [done|]. split; [exact Hv|].
    apply (replay_created_identity id k alias parent) in Hr; [exact Hr|done|by rewrite Hk]. }
  inversion Hc as [e E1 E2|e d Hm Ha E1 E2|e k s Hs E1 E2|r' k s Hs Hor E1 E2]; subst; [by left|right..].
  - exists d. split; [done|]. by left.
  - destruct (Hstate k s Hs) as (Hid & Hv & Hi & Hret). exists (first_stub s). split; [done|]. right.
    split; [done|]. split; [done|]. exists (s_Projection s). split; [done|]. split; [done|].
    split; [done|]. split; [done|]. intros x Hx. right. split; [|by destruct Hx as [-> | ->]].
    split; [done|]. split; [done|]. by exists (s_Projection s).
  - destruct (Hstate k s Hs) as (Hid & Hv & Hi & Hret). exists (first_disk k s). split; [done|]. right.
    split; [done|]. split; [by intros h ->; destruct Hor as [|[= ->]]|].
    exists (s_Projection s). split; [done|]. split; [done|]. split; [done|]. split; [done|].
    assert (forall x io', createLocked json_size io' c id alias parent = (x, Some (first_disk k s)) ->
      reachable json_size id (mkSystem (first_disk k s) (opened x))) as Hre.
    { intros x io' Hx. exists (mkSystem (first_disk k s) (opened x)). split; [|apply runs_refl].
      exists io', c, alias, parent, x, (first_disk k s). split; [done|]. split; [done|]. split; [|done].
      apply map_non_empty_singleton. }
    intros x [Hx| ->]; left; [|by eapply Hre].
    rewrite Hx. destruct r as [h|e]; [|by apply (Hre (Err e) (with_index true io))].
    apply (Hre (Err ErrIndex) (with_index false io)). by apply createLocked_unindexed with h.
Qed.

Lemma put_new a id d p : (forall b, namespace b a !! id = None) -> d_archived d = false ->
  d_meta d = MetaProjection p -> metas (put_dir false id d a) = <[id := p]> (metas a).
Proof.
  intros Hn Ha Hm. apply map_eq. intros j. rewrite !metas_lookup_raw. unfold put_dir.
  rewrite !namespace_set. cbn [Bool.eqb].
  destruct (decide (j = id)) as [->|Hne].
  - rewrite !lookup_insert_eq. cbn. by rewrite Hm.
  - by rewrite !lookup_insert_ne, metas_lookup_raw.
Qed.

(** A new directory under a fresh name keeps the invariant. *)
Lemma put_keeps t id d p hs a : tree_inv t -> ValidID id = true ->
  (forall b, namespace b (t_agent t) !! id = None) ->
  d_archived d = false -> d_meta d = MetaProjection p -> settled json_size id (mkSystem d hs) ->
  consistent (<[id := p]> (metas (t_agent t))) ->
  (id = MainID \/ is_Some (metas (t_agent t) !! MainID)) ->
  same_dirs (put_dir false id d (t_agent t)) a ->
  tree_inv (mkTree a (<[id := hs]> (t_handles t))).
Proof.
  intros Hinv Hid Hn Harch Hm Hr Hc Hmain Ha.
  pose proof (same_dirs_metas _ _ Ha) as Hmetas. rewrite (put_new _ _ _ p) in Hmetas by done.
  assert (forall b j, namespace b a !! j =
    if decide (j = id) then (if b then None else Some (EntryDir d)) else namespace b (t_agent t) !! j) as Hlk.
  { intros b j. rewrite Ha. unfold put_dir. rewrite namespace_set.
    destruct (decide (j = id)) as [->|Hne], b; cbn [Bool.eqb];
      rewrite ?lookup_insert_eq, ?lookup_insert_ne by done; done. }
  split; cbn [t_agent].
  - intros b j e He. rewrite Hlk in He. unfold thread_ok. rewrite handles_insert.
    destruct (decide (j = id)) as [->|Hne].
    + destruct b; [done|]. injection He as <-. split; [done|]. exists d. split; [done|].
      rewrite <- Harch. by destruct d.
    + destruct (ti_dir _ _ t Hinv b j e He) as (Hj & d1 & -> & Hr1). split; [done|]. by exists d1.
  - intros b j. rewrite !Hlk. destruct (decide (j = id)) as [->|Hne]; [|apply (ti_once _ _ t Hinv)].
    intros [e He]. by destruct b.
  - intros j Hj. rewrite handles_insert. destruct (decide (j = id)) as [->|Hne].
    + specialize (Hj false). rewrite Hlk, decide_True in Hj by done. done.
    + apply (ti_handles _ _ t Hinv). intros b. specialize (Hj b). by rewrite Hlk, decide_False in Hj.
  - by rewrite Hmetas.
  - right. specialize (Hlk false MainID). cbn [namespace] in Hlk. rewrite Hlk.
    destruct (decide (MainID = id)) as [|Hne]; [eauto|]. destruct Hmain as [?|Hs]; [congruence|].
    destruct (ti_main _ _ t Hinv) as [E|]; [|done]. rewrite E, lookup_empty in Hs. by destruct Hs.
Qed.

Lemma updateProjection_same_dirs outcome now a r a' : wf a ->
  updateProjectionLocked fold outcome now a = (r, a') -> same_dirs a a'.
Proof.
  intros Hwf. unfold updateProjectionLocked, bind at 1 2, get_agent, pure.
  destruct (scanProjectionFilesLocked fold a) as [ps|e]; [|by intros [= _ <-]].
  unfold bind. destruct (writeProjectionIndexLocked _ _ _ _ a) as [x a1] eqn:E.
  unfold writeProjectionIndexLocked in E. apply writeIndex_run in E as [[ix ->] _].
  intros H. assert (a' = set_index ix a) as -> by (by destruct x; injection H as _ <-).
  apply same_dirs_index.
Qed.

(** A directory without metadata under the name [id], next to threads in the
    invariant: what a failed creation can leave. *)
Definition leftover (t : Tree) (id : string) : Prop :=
  ValidID id = true /\ ag_archive (t_agent t) !! id = None /\
  (exists d, ag_threads (t_agent t) !! id = Some (EntryDir d) /\ d_meta d = MetaAbsent) /\
  (id = MainID \/ metas (remove_dir false id (t_agent t)) <> ∅) /\
  tree_inv (mkTree (remove_dir false id (t_agent t)) (t_handles t)).

Lemma put_leftover t id d hs : tree_inv (mkTree (t_agent t) hs) -> ValidID id = true ->
  (forall b, namespace b (t_agent t) !! id = None) ->
  (id = MainID \/ is_Some (metas (t_agent t) !! MainID)) -> d_meta d = MetaAbsent ->
  leftover (mkTree (put_dir false id d (t_agent t)) hs) id.
Proof.
  intros Hinv Hid Hn Hmain Hd.
  assert (same_dirs (t_agent t) (remove_dir false id (put_dir false id d (t_agent t)))) as Hs.
  { intros []; [done|]. cbn. rewrite delete_insert_eq. by apply delete_id, (Hn false). }
  split; [done|]. split; [apply (Hn true)|]. split; [|split].
  - exists d. cbn. by rewrite lookup_insert_eq.
  - destruct Hmain as [?|[p Hp]]; [by left|right]. cbn [t_agent]. rewrite (same_dirs_metas _ _ Hs).
    intros E. by rewrite E, lookup_empty in Hp.
  - by apply (same_dirs_keeps json_size fold (mkTree (t_agent t) hs)).
Qed.

(** The new thread of a creation, and the directories it leaves alone. *)
Definition thread_added (a0 a : Agent) (id alias parentID : string) (r : result ThreadError Handle) : Prop :=
  exists p, identity p = (id, alias, parentID) /\ metas a = <[id := p]> (metas a0) /\
    (exists d, namespace false a !! id = Some (EntryDir d) /\ d_meta d = MetaProjection p) /\
    p_RetentionState p = RetentionActive /\
    (forall b j, j <> id -> namespace b a !! j = namespace b a0 !! j) /\
    forall h, r = Ok h -> h_ID h = id.

(** Any agent with the directories of [t] and the new one. *)
Lemma put_thread t t0 id alias parentID d r0 x a : tree_inv t ->
  t_handles t = t_handles t0 -> ValidID id = true ->
  (forall b, namespace b (t_agent t) !! id = None) ->
  (id = MainID \/ is_Some (metas (t_agent t) !! MainID)) ->
  (forall p, identity p = (id, alias, parentID) -> consistent (<[id := p]> (metas (t_agent t)))) ->
  left_behind id alias parentID r0 d -> d_meta d <> MetaAbsent ->
  opened x = [] \/ x = r0 -> same_dirs (put_dir false id d (t_agent t)) a ->
  tree_inv (mkTree a (add_opened id x t0)) /\ thread_added (t_agent t) a id alias parentID x.
Proof.
  intros Hinv Hh Hid Hn Hmain Hfit [[_ ?]|(Harch & Hhid & p & Hm & Hi & _ & Hret & Hs)] Hne Hx Ha; [done|].
  pose proof (Hfit p Hi) as Hcons.
  assert (handles_of t0 id = []) as Hhs.
  { unfold handles_of. rewrite <- Hh. by apply (ti_handles _ _ t Hinv). }
  split.
  - unfold add_opened. rewrite Hhs, <- Hh. cbn [app].
    apply (put_keeps t id d p (opened x) a); try done. by apply Hs.
  - exists p. split; [done|]. split; [by rewrite (same_dirs_metas _ _ Ha); apply put_new|].
    split; [|split; [done|split]].
    + exists d. rewrite Ha. unfold put_dir. rewrite namespace_set. cbn [Bool.eqb].
      by rewrite lookup_insert_eq.
    + intros b j Hj. rewrite Ha. unfold put_dir. rewrite namespace_set.
      destruct b; cbn [Bool.eqb]; by rewrite ?lookup_insert_ne.
    + intros h ->. destruct Hx as [|Hx]; [done|]. by apply Hhid.
Qed.

(** [createThread] of a fresh thread that fits the others. *)
Lemma createThread_keeps io id alias parentID t t0 r a : tree_inv t ->
  same_dirs (t_agent t0) (t_agent t) -> t_handles t = t_handles t0 -> ValidID id = true ->
  (forall b, namespace b (t_agent t) !! id = None) ->
  (id = MainID \/ is_Some (metas (t_agent t) !! MainID)) ->
  (forall p, identity p = (id, alias, parentID) -> consistent (<[id := p]> (metas (t_agent t)))) ->
  createThread json_size fold io id alias parentID (t_agent t) = (r, a) ->
  (tree_inv (mkTree a (add_opened id r t0)) /\
   (same_dirs (t_agent t) a /\ is_ok r = false \/ thread_added (t_agent t) a id alias parentID r)) \/
  (is_ok r = false /\ leftover (mkTree a (add_opened id r t0)) id /\
   exists d, d_meta d = MetaAbsent /\ same_dirs (put_dir false id d (t_agent t)) a).
Proof.
  intros Hinv H0 Hh Hid Hn Hmain Hfit H. unfold createThread in H.
  destruct (createLocked json_size _ _ id alias parentID) as [r0 dir] eqn:Hc.
  assert (forall e, add_opened id (Err e) t0 = add_opened id (Err e) t) as Hadd
    by (intros e; unfold add_opened, handles_of; by rewrite Hh).
  assert (forall e, tree_inv (mkTree (t_agent t) (add_opened id (Err e) t0))) as Hsame.
  { intros e. rewrite Hadd. by apply same_dirs_opened. }
  unfold bind at 1, modify_agent, pure in H.
  apply createLocked_run in Hc as [[Hf ->]|(d & -> & Hl)].
  { destruct r0 as [|e]; [done|]. injection H as <- <-. left. split; [done|by left]. }
  destruct (Hl) as [[Hf Hm]|(_ & _ & p & Hmp & _)].
  { destruct r0 as [|e]; [done|]. injection H as <- <-. right. split; [done|]. split; [|by exists d].
    by apply put_leftover. }
  assert (d_meta d <> MetaAbsent) as Hm by congruence.
  left. unfold bind in H. destruct r0 as [h|e].
  2: { injection H as <- <-.
       destruct (put_thread t t0 id alias parentID d (Err e) (Err e) (put_dir false id d (t_agent t)))
         as [? ?]; try done; [by right|]. split; [done|by right]. }
  destruct (updateProjectionLocked _ _ _ _) as [x a1] eqn:Hu.
  apply updateProjection_same_dirs in Hu.
  2: { apply (tree_wf json_size fold json_size_nonneg (mkTree _ (add_opened id (Ok h) t0))).
       destruct (put_thread t t0 id alias parentID d (Ok h) (Ok h) (put_dir false id d (t_agent t)))
         as [? _]; try done. by right. }
  assert ((r = Ok h \/ opened r = []) /\ a = a1) as [Hr ->]
    by (destruct x; injection H as <- <-; auto).
  destruct (put_thread t t0 id alias parentID d (Ok h) r a1) as [? ?]; try done.
  - by destruct Hr; auto.
  - split; [done|by right].
Qed.

Lemma EqualFold_length s t : length (runes (bytes_of s)) <> length (runes (bytes_of t)) ->
  EqualFold s t = false.
Proof.
  intros Hl. apply bool_decide_eq_false_2. intros E. apply (f_equal length) in E.
  by rewrite !length_map in E.
Qed.

Lemma EnsureMain_keeps io t r a : tree_inv t ->
  EnsureMain json_size fold io (t_agent t) = (r, a) ->
  tree_inv (mkTree a (add_opened MainID r t)) \/ leftover (mkTree a (add_opened MainID r t)) MainID.
Proof.
  intros Hinv H. unfold EnsureMain, bind at 1, get_agent in H.
  assert (forall e, (Err e, t_agent t) = (r, a) ->
    tree_inv (mkTree a (add_opened MainID r t)) \/ leftover (mkTree a (add_opened MainID r t)) MainID) as Hfail.
  { intros e [= <- <-]. left. by apply same_dirs_opened. }
  destruct (ag_threads (t_agent t) !! MainID) as [[|d]|] eqn:Hmain.
  - by eapply Hfail.
  - destruct (d_meta d); [by eapply Hfail|left; by eapply openThread_keeps..].
  - destruct (ti_main _ _ t Hinv) as [E|Hs]; [|rewrite Hmain in Hs; by destruct Hs].
    pose proof (tree_wf json_size fold json_size_nonneg t Hinv) as Hwf.
    destruct (createThread_keeps io MainID MainAlias "" t t r a) as [[? _]|(_ & ? & _)];
      [exact Hinv|by intros ?|reflexivity|by vm_compute| |by left| |exact H|by left|by right].
    + intros b. apply metas_none; [done|]. by rewrite E, lookup_empty.
    + intros p Hi. rewrite E.
      assert (p_Alias p = MainAlias) as Ha by (unfold identity in Hi; congruence).
      apply consistent_insert; [apply consistent_empty|done| |by intros j q Hj|by left].
      split; [|by intros j q Hj]. rewrite Ha. by apply EqualFold_length.
Qed.

(** The drawn ids are valid. *)
Lemma newWorkerID_valid raw id : newWorkerID raw = Some id -> ValidID id = true.
Proof.
  unfold newWorkerID. destruct (length raw <? 6)%nat eqn:Hl; [done|]. intros [= <-].
  apply Nat.ltb_ge in Hl.
  assert (forall b, worker_char b ∈ bytes_of workerAlphabet) as Hin.
  { intros b. unfold worker_char. apply list_elem_of_In, nth_In.
    change (length (bytes_of workerAlphabet)) with 32%nat.
    pose proof (Z.mod_pos_bound b 32 eq_refl). change 31 with (Z.ones 5). rewrite Z.land_ones by done.
    change (2 ^ 5) with 32. lia. }
  assert (Forall is_byte (bytes_of workerAlphabet)) as Hb by (by repeat constructor).
  rewrite Forall_forall in Hb.
  assert (bytes_of (string_of_bytes (map worker_char (firstn 6 raw))) = map worker_char (firstn 6 raw)) as E.
  { apply bytes_of_string. rewrite Forall_forall. intros x (y & -> & _)%list_elem_of_fmap. apply Hb, Hin. }
  unfold ValidID. destruct (_ =?s MainID); [done|].
  assert (len (string_of_bytes (map worker_char (firstn 6 raw))) = 6) as ->.
  { unfold len. rewrite <- bytes_of_length, E, length_map, length_firstn. lia. }
  cbn [Z.eqb Pos.eqb negb]. rewrite E. apply forallb_forall. intros x (y & <- & _)%in_map_iff.
  by apply bool_decide_eq_true_2.
Qed.

Lemma draw_worker_spec x a explicit raw k : forall n id alias,
  draw_worker fold k x a explicit raw n = Ok (id, alias) ->
  ValidID id = true /\
  indexContainsIdentity fold x id = false /\ EqualFold alias id = false /\
  workerIDAvailableLocked a id = true /\ validateAliasAvailable fold x alias "" = true /\
  alias = worker_alias explicit id.
Proof.
  induction k as [|k IH]; intros n id alias H; cbn [draw_worker] in H; [done|].
  destruct (newWorkerID (raw n)) as [w|] eqn:Hw; [|done]. cbv zeta in H.
  destruct (_ || _ || _) eqn:Hor; [by eapply IH|]. to_prop.
  destruct (validateAliasAvailable _ _ _ _) eqn:Hv.
  - injection H as <- <-. apply newWorkerID_valid in Hw. by auto 8.
  - destruct (negb _); [done|]. by eapply IH.
Qed.

Lemma existsb_false_in {X} (f : X -> bool) l x : existsb f l = false -> x ∈ l -> f x = false.
Proof. intros H. by apply existsb_false. Qed.

Lemma forallb_in {X} (f : X -> bool) l x : forallb f l = true -> x ∈ l -> f x = true.
Proof. rewrite forallb_forall. intros H Hx. by apply H, list_elem_of_In. Qed.

(** An alias that the loaded index accepts fits all other threads. *)
Lemma available_fits a x alias except id p : wf a -> threads_of x = listing a ->
  validateAliasAvailable fold x alias except = true -> p_Alias p = alias ->
  (except = id /\ is_Some (metas a !! id) \/ except = ""%string /\ EqualFold alias id = false) ->
  alias_fits fold (metas a) id p.
Proof.
  intros Hwf Hx Hv <- Hid. unfold validateAliasAvailable in Hv. apply andb_true_iff in Hv as [_ Hv].
  rewrite Hx in Hv. destruct (listing_spec a Hwf) as (_ & _ & _ & Hin).
  assert (forall j q, metas a !! j = Some q -> EqualFold (p_Alias p) j = false /\
    (j <> except -> EqualFold (p_Alias p) (p_Alias q) = false)) as Hall.
  { intros j q Hq. pose proof (valid_projection_ids _ _ (metas_valid a j q Hwf Hq)) as (Hj & _).
    assert (indexEntryFromProjection q ∈ listing a) as He by (apply Hin; eauto).
    apply (forallb_in _ _ _ Hv) in He. cbn [indexEntryFromProjection x_ThreadID x_Alias] in He.
    rewrite Hj in He. apply andb_true_iff in He as [H1%negb_true_iff H2%negb_true_iff].
    rewrite !(EqualFold_sym fold (p_Alias p)). split; [exact H1|].
    intros Hne. rewrite bool_decide_eq_false_2 in H2 by done. exact H2. }
  split.
  - destruct Hid as [[-> [q Hq]]|[_ ?]]; [|done]. by apply (Hall id q).
  - intros j q Hq Hne. destruct (Hall j q Hq) as [H1 H2]. split; [done|]. apply H2.
    destruct Hid as [[-> _]|[-> _]]; [done|].
    intros ->. by pose proof (valid_projection_ids _ _ (metas_valid a _ q Hwf Hq)) as (_ & ? & _).
Qed.

Lemma depth_in a id n : wf a -> Depth a id n -> is_Some (metas a !! MainID) /\ is_Some (metas a !! id).
Proof.
  intros Hwf.
  assert (forall i x, inspectLocked a i = Ok x -> is_Some (metas a !! i)) as Hi.
  { intros i x H. destruct (metas a !! i) as [p|] eqn:E; [eauto|].
    apply inspect_in in H. unfold all_names in H. rewrite elem_of_union, !elem_of_dom in H.
    pose proof (metas_none a i false Hwf E) as E1. pose proof (metas_none a i true Hwf E) as E2.
    cbn in *. rewrite E1, E2 in H. by destruct H as [[? ?]|[? ?]]. }
  induction 1 as [r Hr|i x p n Hne Hp Hd [IH _]]; eauto.
Qed.

Lemma inspect_ext a a' id : (forall b, namespace b a' !! id = namespace b a !! id) ->
  inspectLocked a' id = inspectLocked a id.
Proof. intros H. unfold inspectLocked, inspect_at. by rewrite !H. Qed.

Lemma depth_ext a a' id : (forall b, namespace b a !! id = None) ->
  (forall b j, j <> id -> namespace b a' !! j = namespace b a !! j) ->
  forall i n, Depth a i n -> Depth a' i n.
Proof.
  intros Hn Hext.
  assert (forall i x, inspectLocked a i = Ok x -> inspectLocked a' i = Ok x) as Hi.
  { intros i x H. destruct (decide (i = id)) as [->|Hne].
    - apply inspect_in in H. unfold all_names in H. rewrite elem_of_union, !elem_of_dom in H.
      pose proof (Hn false) as E1. pose proof (Hn true) as E2. cbn in *. rewrite E1, E2 in H.
      by destruct H as [[? ?]|[? ?]].
    - rewrite (inspect_ext a a'); [done|]. intros b. by apply Hext. }
  induction 1; [eapply depth_main|eapply depth_up]; eauto.
Qed.

(** What a successful or failed [CreateWorker] leaves. *)
Definition worker_created (a0 a : Agent) (parentID explicit : string) (maxDepth : Z)
    (r : result ThreadError Handle) : Prop :=
  exists id p n, metas a0 !! id = None /\
    identity p = (id, worker_alias explicit id, parentID) /\ metas a = <[id := p]> (metas a0) /\
    Depth a0 parentID n /\ n < maxDepth /\ Depth a id (n + 1) /\
    forall h, r = Ok h -> h_ID h = id.

Lemma checkDepth_inv a parentID maxDepth : checkWorkerDepthLocked a parentID maxDepth = Ok tt ->
  exists n, Depth a parentID n /\ n < maxDepth.
Proof.
  unfold checkWorkerDepthLocked. intros H. destruct (_ <? 1); [done|].
  destruct (depthLocked a parentID) as [n|] eqn:E; [|done]. cbn [rbind] in H.
  destruct (maxDepth <=? n) eqn:Hle; [done|]. to_prop. exists n. split; [by apply depthLocked_spec|done].
Qed.

Lemma workerIDAvailable_none a id : workerIDAvailableLocked a id = true -> forall b, namespace b a !! id = None.
Proof. unfold workerIDAvailableLocked. intros H. to_prop. by intros []. Qed.

(** What [CreateWorker] knows when it comes to [createThread]. *)
Definition worker_chosen (a : Agent) (x : Index) (parentID explicit : string) (maxDepth : Z)
    (id : string) : Prop :=
  ValidID id = true /\ threads_of x = listing a /\ consistent (metas a) /\
  (exists n, Depth a parentID n /\ n < maxDepth) /\
  indexContainsIdentity fold x id = false /\ EqualFold (worker_alias explicit id) id = false /\
  (forall b, namespace b a !! id = None) /\
  validateAliasAvailable fold x (worker_alias explicit id) "" = true.

Lemma CreateWorker_cases io raw parentID explicit maxDepth a0 r a : wf a0 ->
  CreateWorker json_size fold io raw parentID explicit maxDepth a0 = (r, a) ->
  same_dirs a0 a /\ is_ok r = false \/
  exists ix x id, worker_chosen a0 x parentID explicit maxDepth id /\
    createThread json_size fold io id (worker_alias explicit id) parentID (set_index ix a0) = (r, a).
Proof.
  intros Hwf. unfold CreateWorker. generalize 64%nat. intros attempts H.
  unfold bind, get_agent, pure in H.
  destruct (checkWorkerDepthLocked a0 parentID maxDepth) as [[]|e] eqn:Hck;
    [|injection H as <- <-; by left].
  apply checkDepth_inv in Hck.
  destruct (loadOrRebuildIndexLocked _ _ _ _) as [[x|e] a1] eqn:Hl;
    (apply load_run in Hl as [[ix ->] Hx]; [|done]);
    [|injection H as <- <-; left; split; [apply same_dirs_index|done]].
  destruct (Hx x eq_refl) as (_ & Hthreads & _ & Hc).
  destruct (negb (active_in x parentID));
    [injection H as <- <-; left; split; [apply same_dirs_index|done]|].
  destruct (_ && _); [injection H as <- <-; left; split; [apply same_dirs_index|done]|].
  destruct (draw_worker _ _ _ _ _ _ _) as [[id alias]|e] eqn:Hdraw;
    [|injection H as <- <-; left; split; [apply same_dirs_index|done]].
  apply draw_worker_spec in Hdraw as (Hidv & Hident & Hai & Hav & Hva & ->).
  right. exists ix, x, id. split; [|exact H].
  split; [done|]. split; [done|]. split; [done|]. split; [done|]. split; [done|]. split; [done|].
  split; [|done]. intros b. rewrite <- (namespace_index b ix). by apply workerIDAvailable_none.
Qed.

(** The metadata of the new thread is consistent with the rest. *)
Lemma chosen_consistent a x parentID explicit maxDepth id p : wf a ->
  worker_chosen a x parentID explicit maxDepth id ->
  identity p = (id, worker_alias explicit id, parentID) ->
  consistent (<[id := p]> (metas a)) /\ is_Some (metas a !! MainID) /\ metas a !! id = None.
Proof.
  intros Hwf (_ & Hthreads & Hc & (n & Hdepth & Hn) & Hident & Hai & Hnone & Hva) Hp.
  destruct (depth_in _ _ _ Hwf Hdepth) as [Hmain Hparent].
  assert (metas a !! id = None) as Hid by (by rewrite metas_lookup_raw, !Hnone).
  split; [|done]. assert (p_Alias p = worker_alias explicit id) as Ha by (unfold identity in Hp; congruence).
  assert (p_ParentThreadID p = parentID) as Hpar by (unfold identity in Hp; congruence).
  apply consistent_insert; [done|done| | |].
  - apply (available_fits _ x (worker_alias explicit id) "" id p Hwf Hthreads); [done|done|by right].
  - intros j q Hq. unfold indexContainsIdentity in Hident. rewrite Hthreads in Hident.
    destruct (listing_spec _ Hwf) as (_ & _ & _ & Hin).
    assert (indexEntryFromProjection q ∈ listing a) as He by (apply Hin; eauto).
    apply (existsb_false_in _ _ _ Hident) in He. cbn in He. by apply orb_false_iff in He as [_ ?].
  - right. split; [|by rewrite Hpar]. intros ->. rewrite Hid in Hmain. by destruct Hmain.
Qed.

(** A failed method adds no handles, whatever id it names. *)
Lemma handles_unopened a id j e t :
  handles_of (mkTree a (add_opened id (Err e) t)) j = handles_of t j.
Proof. unfold add_opened. rewrite handles_insert, app_nil_r. unfold handles_of. case_decide; by subst. Qed.

Lemma unopened_id a id j e t : tree_inv (mkTree a (add_opened id (Err e) t)) ->
  tree_inv (mkTree a (add_opened j (Err e) t)).
Proof.
  intros [H1 H2 H3 H4 H5].
  assert (forall i, handles_of (mkTree a (add_opened j (Err e) t)) i =
                    handles_of (mkTree a (add_opened id (Err e) t)) i) as Hhs
    by (intros i; by rewrite !handles_unopened).
  split; [|done| |done..].
  - intros b i e' He. destruct (H1 b i e' He) as (Hj & d' & -> & Hd'). split; [done|].
    exists d'. split; [done|]. by rewrite Hhs.
  - intros i Hi. rewrite Hhs. by apply H3.
Qed.

Lemma leftover_unopened a id j i e t : leftover (mkTree a (add_opened id (Err e) t)) i ->
  leftover (mkTree a (add_opened j (Err e) t)) i.
Proof.
  intros (H1 & H2 & H3 & H4 & H5). split; [done|]. split; [done|]. split; [done|]. split; [done|].
  by apply (unopened_id _ id).
Qed.

(** The active thread in a directory, as [inspectLocked] sees it. *)
Lemma inspect_active a id d p : wf a -> namespace false a !! id = Some (EntryDir d) ->
  d_meta d = MetaProjection p -> p_RetentionState p = RetentionActive ->
  inspectLocked a id = Ok (false, p).
Proof.
  intros Hwf Hd Hm Hret. destruct (wf_entry a Hwf _ _ _ Hd) as (d' & p' & [= <-] & Hm' & Hv).
  rewrite Hm in Hm'. injection Hm' as <-.
  pose proof (valid_projection_ids _ _ Hv) as (_ & Hvid & _).
  unfold inspectLocked, inspect_at. rewrite Hvid, Hd, Hm. cbn [negb].
  unfold readProjectionFile. cbn [set_archived d_archived d_meta Bool.eqb negb]. rewrite Hm.
  unfold validateProjectionMetadata. rewrite Hv. cbn [check rbind]. by rewrite Hret.
Qed.

(** A creation that left a directory without metadata under a fresh name. *)
Definition worker_left (a0 a : Agent) (r : result ThreadError Handle) : Prop :=
  is_ok r = false /\ exists id d, (forall b, namespace b a0 !! id = None) /\ d_meta d = MetaAbsent /\
    same_dirs (put_dir false id d a0) a.

Lemma CreateWorker_run io raw parentID explicit maxDepth t r a : tree_inv t ->
  CreateWorker json_size fold io raw parentID explicit maxDepth (t_agent t) = (r, a) ->
  (tree_inv (mkTree a (add_opened (opened_id r) r t)) /\
   (same_dirs (t_agent t) a /\ is_ok r = false \/
    worker_created (t_agent t) a parentID explicit maxDepth r)) \/
  (exists id, leftover (mkTree a (add_opened (opened_id r) r t)) id) /\ worker_left (t_agent t) a r.
Proof.
  intros Hinv H. pose proof (tree_wf json_size fold json_size_nonneg t Hinv) as Hwf.
  apply CreateWorker_cases in H as [[Hs Hr]|(ix & x & id & Hch & H)]; [|clear Hwf|exact Hwf].
  { left. split; [|by left]. destruct r; [done|]. by apply same_dirs_opened. }
  pose proof (tree_wf json_size fold json_size_nonneg t Hinv) as Hwf.
  set (t1 := mkTree (set_index ix (t_agent t)) (t_handles t)).
  assert (tree_inv t1) as Hinv1 by (by apply same_dirs_keeps; [|apply same_dirs_index]).
  pose proof Hch as (Hid0 & _ & _ & (n & Hdepth & Hn) & _ & _ & Hnone & _).
  destruct (createThread_keeps io id (worker_alias explicit id) parentID t1 t r a) as [[Hi Hres]|(Hr & Hl & d & Hm & Hs)];
    [exact Hinv1|apply same_dirs_index|reflexivity|exact Hid0| | | |exact H| |].
  { intros b. cbn [t1 t_agent]. by rewrite namespace_index. }
  { right. cbn [t1 t_agent]. rewrite metas_index. by destruct (depth_in _ _ _ Hwf Hdepth). }
  { intros p Hp. by destruct (chosen_consistent _ _ _ _ _ _ _ Hwf Hch Hp) as (? & ? & _). }
  2: { right. destruct r as [|e]; [done|]. split.
       - exists id. by apply (leftover_unopened _ id "").
       - split; [done|]. exists id, d. split; [done|]. split; [done|].
         intros b. rewrite Hs. cbn [t1 t_agent]. by destruct b. }
  left. destruct Hres as [[Hsame Hr]|(p & Hp & Hmetas & (d & Hd & Hm) & Hret & Hext & Hh)].
  - assert (same_dirs (t_agent t) a) as Hsame'
      by (apply (same_dirs_trans _ (set_index ix (t_agent t))); [apply same_dirs_index|exact Hsame]).
    split; [|by left]. destruct r; [done|]. by apply same_dirs_opened.
  - split; [destruct r as [h|e]; [cbn [opened_id]; by rewrite (Hh h eq_refl)|by eapply unopened_id]|].
    right. destruct (chosen_consistent _ _ _ _ _ _ p Hwf Hch Hp) as (_ & Hmain & Hid).
    exists id, p, n. split; [done|]. split; [done|]. split; [done|]. split; [done|].
    split; [done|]. split; [|done].
    pose proof (tree_wf json_size fold json_size_nonneg _ Hi) as Hwf'. cbn [t_agent] in Hwf'.
    apply (depth_up a id false p n).
    + intros ->. rewrite Hid in Hmain. by destruct Hmain.
    + by apply (inspect_active a id d p Hwf').
    + assert (p_ParentThreadID p = parentID) as -> by (unfold identity in Hp; congruence).
      apply (depth_ext (t_agent t) a id); [done| |done]. intros b j Hne. rewrite Hext by done.
      cbn [t1 t_agent]. by rewrite namespace_index.
Qed.

(** ** Methods of one thread *)

(** What a renaming needs to know about the other threads. *)
Definition guarded (io : AgentIo) (id : string) (c : Call) (a : Agent) : Prop :=
  match c with
  | CallApplyAlias true alias => (alias_available fold io id alias a).1 = Ok true
  | _ => True
  end.

Lemma informed_guarded io id c a : informed fold io id c a -> guarded io id c a.
Proof. destruct c as [| | | | | |[] alias| | |]; try done. intros [|[_ ?]]; done. Qed.

Lemma tree_call_keeps io archived id c t d i h r h' d' a : tree_inv t ->
  dir_at archived id (t_agent t) = Some d -> handles_of t id !! i = Some h ->
  guarded io id c (t_agent t) -> run_call json_size (a_io io) c (h, d) = (r, (h', d')) ->
  same_dirs (relocate archived id d' (t_agent t)) a ->
  tree_inv (mkTree a (<[id := <[i := h']> (handles_of t id)]> (t_handles t))).
Proof.
  intros Hinv Hd Hh Hinf Hc Ha.
  destruct (tree_thread json_size fold json_size_nonneg t archived id d Hinv Hd)
    as (Hid & _ & _ & Hr & Hmain & p & Hm & Hp).
  assert (h ∈ handles_of t id) as Hin by (by eapply list_elem_of_lookup_2).
  apply settled_reachable in Hr; [|left; intros E; by rewrite E in Hh].
  destruct (call_meta json_size json_size_nonneg id Hid _ _ _ _ _ _ _ _ _ Hr Hin Hc Hm)
    as (p' & Hm' & Hi & Harch).
  assert (d_archived d = archived) as Hda.
  { by apply dir_at_some in Hd as (d0 & _ & ->). }
  assert (p_ThreadID p = id) as Hpid.
  { apply (valid_projection_ids p id), (metas_valid (t_agent t)); [|done].
    by apply (tree_wf json_size fold). }
  apply (relocate_keeps json_size fold json_size_nonneg t archived id d d' _ p p'); try done.
  - left. eapply reachable_next; [exact Hr|]. by eapply step_call.
  - destruct Hi as [Hi|(alias & _ & Hi)]; unfold identity in Hi; congruence.
  - pose proof (consistent_fits fold _ _ _ (ti_consistent _ _ t Hinv) Hp) as Hfit.
    destruct Hi as [Hi|(alias & -> & Hi)].
    + assert (p_Alias p' = p_Alias p) as E by (unfold identity in Hi; congruence).
      unfold alias_fits in *. by rewrite E.
    + assert (p_Alias p' = alias) as E by (unfold identity in Hi; congruence).
      cbn [guarded] in Hinf. unfold alias_available, bind, ret in Hinf.
      destruct (loadOrRebuildIndexLocked _ _ _ _) as [[x|] a1] eqn:Hl; [|done].
      cbn in Hinf. injection Hinf as Hv.
      pose proof (tree_wf json_size fold json_size_nonneg t Hinv) as Hwf.
      apply load_run in Hl as [_ Hx]; [|done]. destruct (Hx x eq_refl) as (_ & Hthreads & _).
      apply (available_fits _ x alias id id p' Hwf Hthreads Hv E). left. eauto.
  - rewrite Hda in Harch. exact Harch.
Qed.

Lemma unarchive_keeps io io' id t d r d' a : tree_inv t ->
  dir_at true id (t_agent t) = Some d -> Unarchive json_size io io' id d = (r, d') ->
  same_dirs (relocate true id d' (t_agent t)) a -> tree_inv (mkTree a (add_opened id r t)).
Proof.
  intros Hinv Hd Hu Ha.
  destruct (tree_thread json_size fold json_size_nonneg t true id d Hinv Hd)
    as (Hid & _ & _ & Hr & Hmain & p & Hm & Hp).
  apply settled_reachable in Hr; [|right; by apply dir_at_some in Hd as (d0 & _ & ->)].
  destruct (unarchive_meta json_size json_size_nonneg id Hid _ _ _ _ _ _ _ Hr Hu Hm) as (p' & Hm' & Hi).
  assert (p_Alias p' = p_Alias p /\ p_ParentThreadID p' = p_ParentThreadID p) as [E1 E2]
    by (unfold identity in Hi; split; congruence).
  unfold add_opened.
  apply (relocate_keeps json_size fold json_size_nonneg t true id d d' _ p p'); try done.
  - left. eapply reachable_next; [exact Hr|]. by eapply step_unarchive.
  - unfold alias_fits. rewrite E1. by apply consistent_fits; [apply (ti_consistent _ _ t Hinv)|].
  - right. intros E. by specialize (Hmain E).
Qed.

(** ** Deletion *)

Lemma find_deletable_spec id want l : forall found b, find_deletable id want found l = Ok b ->
  (forall e, e ∈ l -> x_ParentThreadID e <> id) /\
  (b = true -> found = true \/ exists e, e ∈ l /\ x_ThreadID e = id /\ x_RetentionState e = want).
Proof.
  induction l as [|e l IH]; intros found b H; cbn [find_deletable] in H.
  { injection H as <-. split; [by intros e ?%elem_of_nil|by left]. }
  destruct (_ =?s id) eqn:Hp in H; [done|]. to_prop.
  assert (forall f, find_deletable id want f l = Ok b ->
    (forall x, x ∈ e :: l -> x_ParentThreadID x <> id) /\
    (b = true -> f = true \/ exists x, x ∈ e :: l /\ x_ThreadID x = id /\ x_RetentionState x = want)) as Hrest.
  { intros f Hf. destruct (IH f b Hf) as [H1 H2]. split.
    - intros x [->|Hx]%elem_of_cons; auto.
    - intros Hb. destruct (H2 Hb) as [?|(x & Hx & ?)]; [by left|right]. exists x. split; [by right|done]. }
  destruct (_ =?s id) eqn:Hid in H; [|by apply Hrest]. to_prop.
  destruct (bool_decide _) eqn:Hw in H; [|done]. to_prop.
  destruct (Hrest true H) as [H1 H2]. split; [done|]. intros _. right. exists e. split; [by left|done].
Qed.

(** A thread that is gone: no other directory changes. *)
Definition without (archived : bool) (id : string) (a a' : Agent) : Prop :=
  forall b, namespace b a' = if Bool.eqb b archived then delete id (namespace b a) else namespace b a.

Lemma without_same archived id a a1 a2 : without archived id a a1 -> same_dirs a1 a2 -> without archived id a a2.
Proof. intros H1 H2 b. by rewrite H2. Qed.

Lemma to_trash_run outcome archived id trash a r a' : to_trash outcome archived id trash a = (r, a') ->
  same_dirs a a' /\ is_ok r = false \/
  without archived id a a' /\ ag_trash a' !! trash = namespace archived a !! id.
Proof.
  unfold to_trash, bind at 1, get_agent. intros H.
  destruct (namespace archived a !! id) as [e|] eqn:He; [|injection H as <- <-; by left].
  destruct (ag_trash a !! trash); [injection H as <- <-; by left|].
  unfold effect, bind, modify_agent, fail in H.
  assert (without archived id a (set_trash (<[trash:=e]> (ag_trash a)) (remove_dir archived id a)) /\
    ag_trash (set_trash (<[trash:=e]> (ag_trash a)) (remove_dir archived id a)) !! trash = Some e) as Hw.
  { split; [|cbn; apply lookup_insert_eq]. intros b. rewrite namespace_trash. unfold remove_dir.
    rewrite namespace_set. by destruct b, archived. }
  destruct outcome; injection H as <- <-; [by right|by left|by right].
Qed.

Lemma from_trash_run outcome archived id trash e a a1 : namespace archived a !! id = Some e ->
  without archived id a a1 -> ag_trash a1 !! trash = Some e ->
  let a2 := (from_trash outcome archived id trash a1).2 in
  same_dirs a a2 \/ without archived id a a2.
Proof.
  intros He Hw Ht. cbn zeta. unfold from_trash, effect, bind, get_agent, modify_agent, fail.
  assert (namespace archived a1 !! id = None) as Hn by (rewrite Hw, eqb_reflx; apply lookup_delete_eq).
  rewrite Ht, Hn.
  assert (same_dirs a (set_trash (delete trash (ag_trash a1))
    (set_namespace archived (<[id:=e]> (namespace archived a1)) a1))) as Hs.
  { intros b. rewrite namespace_trash, namespace_set, !Hw, eqb_reflx.
    destruct b, archived; cbn in *; try done; rewrite insert_delete_eq; by apply insert_id. }
  destruct outcome; cbn [snd]; [left; exact Hs|right; exact Hw|left; exact Hs].
Qed.

Lemma writeIndex_same_dirs outcome now x a : same_dirs a (writeIndexLocked outcome now x a).2.
Proof.
  destruct (writeIndexLocked outcome now x a) as [r a'] eqn:E. apply writeIndex_run in E as [[ix ->] _].
  apply same_dirs_index.
Qed.

Lemma writeIndex_trash outcome now x a : ag_trash (writeIndexLocked outcome now x a).2 = ag_trash a.
Proof. unfold writeIndexLocked, effect, bind, modify_agent, ret, fail. by destruct outcome. Qed.

Lemma delete_thread_run io archived prefix id x a r a' :
  delete_thread io archived prefix id x a = (r, a') ->
  same_dirs a a' /\ is_ok r = false \/ without archived id a a'.
Proof.
  unfold delete_thread, bind at 1. intros H.
  destruct (to_trash _ _ _ _ a) as [[[]|e] a1] eqn:Et; apply to_trash_run in Et as [[Hs Hr]|[Hw Ht]];
    [done| |injection H as <- <-; by left|injection H as <- <-; by right].
  match type of H with context [writeIndexLocked ?o ?n ?y a1] =>
    pose proof (writeIndex_same_dirs o n y a1) as Hs; pose proof (writeIndex_trash o n y a1) as Htr;
    destruct (writeIndexLocked o n y a1) as [[w|e] a2] end; cbn [snd] in Hs, Htr.
  - right. apply (without_same _ _ _ a1); [done|]. intros b. rewrite <- Hs.
    unfold effect, bind, modify_agent, fail in H. destruct (a_empty io); injection H as <- <-;
      rewrite ?namespace_trash; done.
  - injection H as <- <-. destruct (namespace archived a !! id) as [e'|] eqn:He.
    + destruct (from_trash_run (a_back io) archived id (trash_name prefix id (a_token io)) e' a a2) as [?|?];
        [done|by eapply without_same|by rewrite Htr|by left|by right].
    + right. apply (without_same _ _ _ a2); [by eapply without_same|]. unfold from_trash, bind, get_agent.
      rewrite Htr, Ht. done.
Qed.

(** A deleted thread was no one's parent. *)
Definition childless (a : Agent) (id : string) : Prop :=
  forall i p, metas a !! i = Some p -> p_ParentThreadID p <> id.

Lemma without_keeps t archived id a : tree_inv t -> id <> MainID -> childless (t_agent t) id ->
  (namespace (negb archived) (t_agent t) !! id = None) ->
  without archived id (t_agent t) a ->
  tree_inv (mkTree a (drop_handles id a (t_handles t))) /\ metas a = delete id (metas (t_agent t)).
Proof.
  intros Hinv Hne Hleaf Hn Hw.
  assert (forall b, namespace b a !! id = None) as Hgone.
  { intros b. rewrite Hw. destruct b, archived; cbn in *; try done; apply lookup_delete_eq. }
  assert (forall b j, j <> id -> namespace b a !! j = namespace b (t_agent t) !! j) as Hlk.
  { intros b j Hj. rewrite Hw. destruct (Bool.eqb b archived); [|done]. by apply lookup_delete_ne. }
  assert (metas a = delete id (metas (t_agent t))) as Hm.
  { apply map_eq. intros j. rewrite metas_lookup_raw. destruct (decide (j = id)) as [->|Hj].
    - by rewrite !Hgone, lookup_delete_eq.
    - by rewrite !Hlk, lookup_delete_ne, metas_lookup_raw. }
  assert (workerIDAvailableLocked a id = true) as Hav.
  { unfold workerIDAvailableLocked. pose proof (Hgone false) as E1. pose proof (Hgone true) as E2. cbn in *.
    by rewrite !bool_decide_eq_true_2. }
  assert (forall j, j <> id -> handles_of (mkTree a (delete id (t_handles t))) j = handles_of t j) as Hhs.
  { intros j Hj. unfold handles_of. cbn. by rewrite lookup_delete_ne. }
  split; [|done]. unfold drop_handles. rewrite Hav. split; cbn [t_agent].
  - intros b j e He. destruct (decide (j = id)) as [->|Hj]; [by rewrite Hgone in He|].
    rewrite Hlk in He by done. unfold thread_ok. rewrite Hhs by done. by apply (ti_dir _ _ t Hinv b).
  - intros b j. destruct (decide (j = id)) as [->|Hj]; [by rewrite !Hgone|]. rewrite !Hlk by done.
    apply (ti_once _ _ t Hinv).
  - intros j Hj. destruct (decide (j = id)) as [->|Hj'].
    + unfold handles_of. cbn. by rewrite lookup_delete_eq.
    + rewrite Hhs by done. apply (ti_handles _ _ t Hinv). intros b. by rewrite <- Hlk.
  - rewrite Hm. by apply consistent_delete; [apply (ti_consistent _ _ t Hinv)|..].
  - rewrite Hm. specialize (Hlk false MainID). cbn in Hlk. rewrite Hlk by done.
    destruct (ti_main _ _ t Hinv) as [->|?]; [left; apply delete_empty|by right].
Qed.

(** What the two deletions do to the tree. *)
Definition deleted (t : Tree) (id : string) (a : Agent) : Prop :=
  id <> MainID /\ childless (t_agent t) id /\ metas a = delete id (metas (t_agent t)).

Lemma drop_present t id a : tree_inv t -> same_dirs (t_agent t) a ->
  tree_inv (mkTree a (drop_handles id a (t_handles t))).
Proof.
  intros Hinv Ha. unfold drop_handles. destruct (workerIDAvailableLocked a id) eqn:Hav.
  2: by apply same_dirs_keeps.
  pose proof (workerIDAvailable_none _ _ Hav) as Hn.
  assert (forall j, handles_of (mkTree a (delete id (t_handles t))) j = handles_of t j) as Hhs.
  { intros j. unfold handles_of. cbn. destruct (decide (j = id)) as [->|]; [|by rewrite lookup_delete_ne].
    rewrite lookup_delete_eq. symmetry. apply (ti_handles _ _ t Hinv). intros b. by rewrite <- Ha. }
  destruct (same_dirs_keeps json_size fold t a Hinv Ha) as [H1 H2 H3 H4 H5]. split; [|done| |done..].
  - intros b j e He. destruct (H1 b j e He) as (Hj & d & -> & Hd). split; [done|]. exists d.
    split; [done|]. by rewrite Hhs.
  - intros j Hj. rewrite Hhs. by apply H3.
Qed.

(** Both deletions, from the loaded index on. *)
Lemma deletion_keeps io archived want prefix id t ix x r a : tree_inv t -> id <> MainID ->
  threads_of x = listing (t_agent t) -> placed (t_agent t) ->
  (forall y, want = y -> bool_decide (y = RetentionArchived) = archived) ->
  find_deletable id want false (threads_of x) = Ok true ->
  delete_thread io archived prefix id x (set_index ix (t_agent t)) = (r, a) ->
  tree_inv (mkTree a (drop_handles id a (t_handles t))) /\
  (same_dirs (t_agent t) a /\ is_ok r = false \/ deleted t id a).
Proof.
  intros Hinv Hne Hx Hplaced Hw Hf H.
  pose proof (tree_wf json_size fold json_size_nonneg t Hinv) as Hwf.
  destruct (listing_spec _ Hwf) as (_ & _ & _ & Hin).
  apply find_deletable_spec in Hf as [Hp Hfound]. rewrite Hx in Hp, Hfound.
  assert (childless (t_agent t) id) as Hleaf.
  { intros i p Hi. apply (Hp (indexEntryFromProjection p)). apply Hin. eauto. }
  destruct (Hfound eq_refl) as [?|(e & He & Hid & Hret)]; [done|].
  apply Hin in He as (i & p & Hi & ->). cbn in Hid, Hret.
  pose proof (valid_projection_ids _ _ (metas_valid _ _ _ Hwf Hi)) as (Hpid & _).
  rewrite Hid in Hpid. subst i.
  assert (namespace (negb archived) (t_agent t) !! id = None) as Hn.
  { pose proof Hi as (b & d & Hd & Hm)%metas_lookup; [|done].
    pose proof (Hplaced _ _ _ _ Hd Hm) as Hb. rewrite Hret, (Hw want) in Hb by done. subst b.
    apply (ti_once _ _ t Hinv). eauto. }
  set (t1 := mkTree (set_index ix (t_agent t)) (t_handles t)).
  assert (tree_inv t1) as Hinv1 by (by apply same_dirs_keeps; [|apply same_dirs_index]).
  apply delete_thread_run in H as [[Hs Hr]|Hwo].
  - assert (same_dirs (t_agent t) a) as Hs'
      by (apply (same_dirs_trans _ (set_index ix (t_agent t))); [apply same_dirs_index|exact Hs]).
    split; [by apply drop_present|by left].
  - destruct (without_keeps t1 archived id a) as [Hi1 Hm1]; [done|done|exact Hleaf| |exact Hwo|].
    { cbn [t1 t_agent]. by rewrite namespace_index. }
    split; [exact Hi1|]. right. done.
Qed.

Lemma DeleteArchived_run io id t r a : tree_inv t ->
  DeleteArchived fold io id (t_agent t) = (r, a) ->
  tree_inv (mkTree a (drop_handles id a (t_handles t))) /\
  (same_dirs (t_agent t) a /\ is_ok r = false \/ deleted t id a).
Proof.
  intros Hinv H. unfold DeleteArchived in H.
  assert (forall e ix, (Err e, set_index ix (t_agent t)) = (r, a) ->
    tree_inv (mkTree a (drop_handles id a (t_handles t))) /\
    (same_dirs (t_agent t) a /\ is_ok r = false \/ deleted t id a)) as Hfail.
  { intros e ix [= <- <-]. split; [apply drop_present; [done|]|left; split; [|done]]; apply same_dirs_index. }
  destruct (ValidWorkerID id) eqn:Hv; cbn [negb] in H.
  2: { apply (Hfail ErrInvalidID (ag_index (t_agent t))). by rewrite set_index_same. }
  unfold ValidWorkerID in Hv. to_prop. unfold bind, pure in H.
  destruct (loadOrRebuildIndexLocked _ _ _ _) as [[x|e] a1] eqn:Hl;
    (apply load_run in Hl as [[ix ->] Hx]; [|by apply (tree_wf json_size fold json_size_nonneg)]);
    [|by eapply Hfail].
  destruct (Hx x eq_refl) as (_ & Hthreads & Hplaced & _).
  destruct (find_deletable _ _ _ _) as [[]|e] eqn:Hf; cbn [negb] in H; [|by eapply Hfail..].
  destruct (negb (io_renewal _)); [by eapply Hfail|].
  eapply (deletion_keeps io true RetentionArchived); try done. by intros y <-.
Qed.

Lemma RollbackWorkerCreation_run io id t r a : tree_inv t ->
  RollbackWorkerCreation fold io id (t_agent t) = (r, a) ->
  tree_inv (mkTree a (drop_handles id a (t_handles t))) /\
  (same_dirs (t_agent t) a /\ is_ok r = false \/ deleted t id a).
Proof.
  intros Hinv H. unfold RollbackWorkerCreation in H.
  assert (forall e ix, (Err e, set_index ix (t_agent t)) = (r, a) ->
    tree_inv (mkTree a (drop_handles id a (t_handles t))) /\
    (same_dirs (t_agent t) a /\ is_ok r = false \/ deleted t id a)) as Hfail.
  { intros e ix [= <- <-]. split; [apply drop_present; [done|]|left; split; [|done]]; apply same_dirs_index. }
  destruct (ValidWorkerID id) eqn:Hv; cbn [negb] in H.
  2: { apply (Hfail ErrInvalidID (ag_index (t_agent t))). by rewrite set_index_same. }
  unfold ValidWorkerID in Hv. to_prop. unfold bind, pure in H.
  destruct (loadOrRebuildIndexLocked _ _ _ _) as [[x|e] a1] eqn:Hl;
    (apply load_run in Hl as [[ix ->] Hx]; [|by apply (tree_wf json_size fold json_size_nonneg)]);
    [|by eapply Hfail].
  destruct (Hx x eq_refl) as (_ & Hthreads & Hplaced & _).
  destruct (find_deletable _ _ _ _) as [[]|e] eqn:Hf; cbn [negb] in H; [|by eapply Hfail..].
  eapply (deletion_keeps io false RetentionActive); try done. by intros y <-.
Qed.

(** ** Recovery of the layout *)

Lemma recover_dir_keeps io archived name t r a : tree_inv t ->
  recover_dir io archived name (t_agent t) = (r, a) ->
  tree_inv (mkTree a (t_handles t)) /\ metas a = metas (t_agent t).
Proof.
  intros Hinv H. unfold recover_dir, bind, get_agent, pure in H.
  assert (forall x, (x, t_agent t) = (r, a) ->
    tree_inv (mkTree a (t_handles t)) /\ metas a = metas (t_agent t)) as Hsame.
  { intros x [= _ <-]. split; [|done]. by destruct t. }
  destruct (dir_at archived name (t_agent t)) as [d|] eqn:Hd; [|by eapply Hsame].
  destruct (negb (ValidWorkerID name)) eqn:Hvw; [by eapply Hsame|].
  destruct (tree_thread json_size fold json_size_nonneg t archived name d Hinv Hd)
    as (Hid & Hs & Hn & Hr & _ & p & Hm & Hp).
  assert (d_archived d = archived) as Hda by (by apply dir_at_some in Hd as (d0 & _ & ->)).
  destruct (readProjectionFile archived name d) as [q|] eqn:Hread; [|by eapply Hsame].
  assert (q = p) as ->.
  { unfold readProjectionFile in Hread. rewrite Hda, eqb_reflx, Hm in Hread. cbn [negb] in Hread.
    unfold rbind in Hread. destruct (validateProjectionMetadata p name); [|discriminate Hread].
    by injection Hread. }
  cbv zeta in H. set (sa := bool_decide (p_RetentionState p = RetentionArchived)) in *.
  assert (forall x y, (if io_renewal io then ret tt else fail ErrContextRenewal) (y : Agent) = (x, a) -> a = y) as Hren.
  { intros x y. unfold ret, fail. by destruct (io_renewal io); intros [= _ <-]. }
  destruct (Bool.eqb sa archived) eqn:Hb.
  { unfold ret at 1 in H. apply Hren in H as ->. split; [|done]. by destruct t. }
  destruct Hr as [Hr|[(Hda' & _ & p' & Hm' & _ & Hret) _]].
  2: { exfalso. cbn in Hda', Hm'. rewrite Hm in Hm'. injection Hm' as <-. unfold sa in Hb.
       rewrite Hret in Hb. assert (archived = false) as -> by congruence. discriminate Hb. }
  destruct (namespace sa (t_agent t) !! name) eqn:Hfree; [unfold fail at 1 in H; by eapply Hsame|].
  set (a1 := put_dir sa name (set_archived sa d) (remove_dir archived name (t_agent t))) in H.
  assert (tree_inv (mkTree a1 (t_handles t)) /\ metas a1 = metas (t_agent t)) as Hmoved.
  { change a1 with (relocate archived name (set_archived sa d) (t_agent t)). split.
    2: { rewrite (metas_relocate _ _ _ p) by done. by apply insert_id. }
    assert (tree_inv (mkTree (relocate archived name (set_archived sa d) (t_agent t))
      (<[name := handles_of t name]> (t_handles t)))) as Hk.
    { apply (relocate_keeps json_size fold json_size_nonneg t archived name d (set_archived sa d) _ p p);
        try done.
      - left. eapply reachable_next; [exact Hr|]. eapply (step_recover _ _ (io_ok 0)).
        unfold recoverNamespace. rewrite Hda, Hread. fold sa. rewrite Hb. cbn [io_rename io_ok]. reflexivity.
      - by apply consistent_fits; [apply (ti_consistent _ _ t Hinv)|].
      - right. unfold ValidWorkerID in Hvw. apply negb_false_iff, andb_true_iff in Hvw as [Hvw _]. by to_prop. }
    assert (forall j, handles_of (mkTree (relocate archived name (set_archived sa d) (t_agent t))
      (<[name := handles_of t name]> (t_handles t))) j = handles_of t j) as Hhs.
    { intros j. rewrite handles_insert. unfold handles_of. case_decide; by subst. }
    destruct Hk as [H1 H2 H3 H4 H5]. split; [|done| |done..].
    - intros b j e He. destruct (H1 b j e He) as (Hj & d1 & -> & Hd1). split; [done|]. exists d1.
      split; [done|]. by rewrite Hhs in Hd1.
    - intros j Hj. specialize (H3 j Hj). by rewrite Hhs in H3. }
  unfold effect, bind, modify_agent, fail at 1 2 in H. destruct (io_rename io).
  - apply Hren in H as ->. exact Hmoved.
  - by eapply Hsame.
  - injection H as _ <-. exact Hmoved.
Qed.

Lemma recover_dirs_keeps ios archived names : forall t r a, tree_inv t ->
  recover_dirs ios archived names (t_agent t) = (r, a) ->
  tree_inv (mkTree a (t_handles t)) /\ metas a = metas (t_agent t).
Proof.
  induction names as [|n l IH]; intros t r a Hinv H; cbn [recover_dirs] in H.
  { injection H as _ <-. split; [|done]. by destruct t. }
  unfold bind in H. destruct (recover_dir (ios n) archived n (t_agent t)) as [x a1] eqn:E.
  destruct (recover_dir_keeps (ios n) archived n t x a1 Hinv E) as [Hi Hm].
  destruct x; [|injection H as _ <-; split; [exact Hi|exact Hm]].
  destruct (IH (mkTree a1 (t_handles t)) r a Hi H) as [Hi2 Hm2]. split; [exact Hi2|].
  rewrite Hm2. exact Hm.
Qed.

Lemma empty_trash_same_dirs removed names : forall a r a',
  empty_trash removed names a = (r, a') -> same_dirs a a'.
Proof.
  induction names as [|n l IH]; intros a r a' H; cbn [empty_trash] in H; [by injection H as _ <-|].
  unfold bind, get_agent in H.
  destruct (ag_trash a !! n) as [[|d]|]; try (by injection H as _ <-).
  destruct (Cut _ n) as [[i s]|]; [|by injection H as _ <-].
  destruct (negb _); [by injection H as _ <-|]. destruct (negb _); [by injection H as _ <-|].
  unfold modify_agent in H. apply IH in H. intros b. rewrite H. apply namespace_trash.
Qed.

Lemma finishTrash_run synced removed a r a' : finishTrashOperationsLocked synced removed a = (r, a') ->
  exists r', empty_trash removed (dir_names (ag_trash a)) a = (r', a').
Proof.
  unfold finishTrashOperationsLocked, bind, get_agent, ret, fail.
  destruct (empty_trash _ _ a) as [[[]|e] a1]; [|by intros [= _ <-]; eexists].
  destruct (bool_decide _); intros [= _ <-]; by eexists.
Qed.

Lemma finishTrash_same_dirs synced removed a r a' :
  finishTrashOperationsLocked synced removed a = (r, a') -> same_dirs a a'.
Proof. intros [r' H]%finishTrash_run. by apply empty_trash_same_dirs in H. Qed.

Lemma rebuild_same_dirs outcome now a r a' : wf a ->
  rebuildIndexLocked fold outcome now a = (r, a') -> same_dirs a a'.
Proof.
  intros Hwf. unfold rebuildIndexLocked, bind, get_agent, pure.
  destruct (scanProjectionFilesLocked fold a) as [ps|e]; [|by intros [= _ <-]].
  unfold writeProjectionIndexLocked. intros H. apply writeIndex_run in H as [[ix ->] _].
  apply same_dirs_index.
Qed.

Lemma RecoverLayout_keeps io ios removed t r a : tree_inv t ->
  RecoverLayout fold io ios removed (t_agent t) = (r, a) ->
  tree_inv (mkTree a (t_handles t)) /\ metas a = metas (t_agent t).
Proof.
  intros Hinv H. unfold RecoverLayout, bind, get_agent in H.
  destruct (recover_dirs ios false _ (t_agent t)) as [x1 a1] eqn:E1.
  destruct (recover_dirs_keeps ios false _ t x1 a1 Hinv E1) as [Hi1 Hm1].
  destruct x1 as [[]|e]; [|injection H as _ <-; split; [exact Hi1|exact Hm1]].
  destruct (recover_dirs ios true _ a1) as [x2 a2] eqn:E2.
  destruct (recover_dirs_keeps ios true _ (mkTree a1 (t_handles t)) x2 a2 Hi1 E2) as [Hi2 Hm2].
  cbn [t_agent t_handles] in Hi2, Hm2. rewrite Hm1 in Hm2.
  destruct x2 as [[]|e]; [|injection H as _ <-; split; [exact Hi2|exact Hm2]].
  pose proof (tree_wf json_size fold json_size_nonneg _ Hi2) as Hwf2.
  destruct (rebuildIndexLocked _ _ _ a2) as [x a3] eqn:E3. apply rebuild_same_dirs in E3; [|done].
  assert (same_dirs a2 a) as Hs.
  { destruct x; [|by injection H as _ <-]. apply finishTrash_same_dirs in H. by eapply same_dirs_trans. }
  split; [by apply (same_dirs_keeps json_size fold (mkTree a2 (t_handles t)))|].
  rewrite (same_dirs_metas _ _ Hs). exact Hm2.
Qed.
End Ops.
