(* ===== verification/ThreadTreeLeftover.v ===== *)
(** * The threads of an agent: creations that failed

    A creation that fails at the directory, or whose cleanup fails, can leave a
    directory without metadata in the active namespace. Such a directory stops
    every scan, so nothing is created, deleted or listed beside it; the threads
    themselves keep the invariant of [ThreadTreeProps.v]. *)

From S2P Require Import Prelude GoStd Llm Events ThreadTypes ThreadFacts ThreadStore ThreadTree ThreadTreeInv ThreadTreeScan ThreadTreeSteps ThreadTreeProps ThreadTreeOps.
From stdpp Require Import sorting relations.

Local Open Scope Z_scope.
Local Open Scope juex_scope.

(** A directory of the active namespace without metadata. *)
Definition unwritten (a : Agent) (id : string) : Prop :=
  exists d, ag_threads a !! id = Some (EntryDir d) /\ d_meta d = MetaAbsent.

(** No directory is without metadata. *)
Definition all_written (a : Agent) : Prop := forall id, ~ unwritten a id.

(** ** Scans *)

Section Scans.
  Context (fold : Z -> Z).

Lemma read_unwritten archived id d : d_meta d = MetaAbsent ->
  exists e, readProjectionFile archived id d = Err e.
Proof. intros Hm. unfold readProjectionFile. rewrite Hm. destruct (negb _); by eexists. Qed.

Lemma scan_names_unwritten a id names : unwritten a id -> ValidID id = true -> id ∈ names ->
  forall acc, exists e, scan_names false a names acc = Err e.
Proof.
  intros (d & Hd & Hm) Hid. induction names as [|n l IH]; intros Hin acc; [by apply elem_of_nil in Hin|].
  cbn [scan_names]. apply elem_of_cons in Hin as [<-|Hin].
  - unfold dir_at. cbn [namespace]. rewrite Hd, Hid. cbn [negb].
    destruct (bool_decide _); [by eexists|].
    destruct (read_unwritten false id (set_archived false d) Hm) as [e ->]. by eexists.
  - specialize (IH Hin). destruct (dir_at false n a) as [d0|]; [|by apply IH].
    destruct (negb _); [by apply IH|]. destruct (bool_decide _); [by eexists|].
    destruct (readProjectionFile false n d0) as [p|e]; [|by eexists]. cbn [rbind].
    destruct (Bool.eqb _ _); [by apply IH|by eexists].
Qed.

Lemma scan_unwritten a id : unwritten a id -> ValidID id = true ->
  exists e, scanProjectionFilesLocked fold a = Err e.
Proof.
  intros Hu Hid. unfold scanProjectionFilesLocked.
  destruct (scan_names_unwritten a id (dir_names (ag_threads a)) Hu Hid) with (acc := @nil Projection) as [e ->].
  - apply dir_names_spec. destruct Hu as (d & Hd & _). eauto.
  - by eexists.
Qed.

Lemma load_unwritten a id outcome now : unwritten a id -> ValidID id = true ->
  exists e, loadOrRebuildIndexLocked fold outcome now a = (Err e, a).
Proof.
  intros Hu Hid. destruct (scan_unwritten a id Hu Hid) as [e E]. exists e.
  unfold loadOrRebuildIndexLocked, bind, get_agent, pure. by rewrite E.
Qed.
End Scans.

(** ** Agents without one active directory *)

Lemma remove_namespace j b a i :
  namespace b (remove_dir false j a) !! i =
    if decide (b = false /\ i = j) then None else namespace b a !! i.
Proof.
  unfold remove_dir. rewrite namespace_set. destruct b; cbn [Bool.eqb].
  - by rewrite decide_False by (by intros [? _]).
  - destruct (decide (i = j)) as [->|Hne].
    + by rewrite lookup_delete_eq, decide_True.
    + by rewrite lookup_delete_ne, decide_False by naive_solver.
Qed.

(** Agents with the same directories, entry by entry. *)
Lemma same_dirs_lookup a a' :
  (forall b i, namespace b a' !! i = namespace b a !! i) -> same_dirs a a'.
Proof. intros H b. apply map_eq. intros i. apply H. Qed.

Lemma metas_unwritten a j : unwritten a j -> ag_archive a !! j = None ->
  metas (remove_dir false j a) = metas a.
Proof.
  intros (d & Hd & Hm) Ha. apply map_eq. intros i. rewrite !metas_lookup_raw, !remove_namespace.
  destruct (decide (i = j)) as [->|Hne].
  - rewrite decide_True, decide_False by (done || by intros [? _]). cbn [namespace].
    rewrite Hd, Ha. cbn. by rewrite Hm.
  - by rewrite !decide_False by naive_solver.
Qed.

Lemma remove_put j archived id d a : id <> j ->
  same_dirs (put_dir archived id d (remove_dir false j a)) (remove_dir false j (put_dir archived id d a)).
Proof.
  intros Hne. apply same_dirs_lookup. intros b i. rewrite remove_namespace. unfold put_dir.
  rewrite !namespace_set. destruct (Bool.eqb b archived) eqn:Hb.
  - apply eqb_prop in Hb as ->. destruct (decide (i = id)) as [->|Hi].
    + by rewrite !lookup_insert_eq, decide_False by naive_solver.
    + by rewrite !lookup_insert_ne, remove_namespace by done.
  - by rewrite remove_namespace.
Qed.

Lemma remove_relocate j archived id d a : id <> j ->
  is_Some (namespace archived a !! id) -> namespace (negb archived) a !! id = None ->
  same_dirs (relocate archived id d (remove_dir false j a)) (remove_dir false j (relocate archived id d a)).
Proof.
  intros Hne Hs Hn. apply same_dirs_lookup. intros b i.
  assert (forall c, namespace c (remove_dir false j a) !! id = namespace c a !! id) as Hid.
  { intros c. by rewrite remove_namespace, decide_False by naive_solver. }
  rewrite remove_namespace. rewrite (relocate_lookup b archived id d a i Hs Hn).
  rewrite (relocate_lookup b archived id d (remove_dir false j a) i) by (by rewrite Hid).
  rewrite remove_namespace. destruct (decide (i = id)) as [->|Hi]; [|done].
  by rewrite decide_False by naive_solver.
Qed.

(** ** The invariant with such a directory *)

Section Leftovers.
  Context (json_size : Commit -> option Z) (fold : Z -> Z).
  Context (json_size_nonneg : forall c n, json_size c = Some n -> 0 <= n).

Abbreviation tree_inv := (tree_inv json_size fold).
Abbreviation leftover := (leftover json_size fold).

Definition tree_ok (t : Tree) : Prop := tree_inv t \/ exists id, leftover t id.

Lemma leftover_unwritten t id : leftover t id -> unwritten (t_agent t) id /\ ValidID id = true.
Proof. by intros (? & _ & ? & _). Qed.

Lemma leftover_handles t id : leftover t id -> handles_of t id = [].
Proof.
  intros (_ & Ha & _ & _ & Hinv). apply (ti_handles _ _ _ Hinv id). intros []; cbn; [done|].
  by rewrite lookup_delete_eq.
Qed.

Lemma leftover_load t id outcome now : leftover t id ->
  exists e, loadOrRebuildIndexLocked fold outcome now (t_agent t) = (Err e, t_agent t).
Proof. intros [? ?]%leftover_unwritten. by eapply load_unwritten. Qed.

(** A method of another directory. *)
Lemma leftover_keeps t j a hs b i : leftover t j ->
  unwritten a j -> ag_archive a !! j = None -> tree_inv (mkTree (remove_dir false j a) hs) ->
  i <> j -> is_Some (namespace b a !! i) -> leftover (mkTree a hs) j.
Proof.
  intros (Hid & _) Hu Har Hinv Hi He.
  split; [done|]. split; [done|]. split; [done|]. split; [|done]. right. cbn [t_agent]. intros E.
  pose proof (tree_wf json_size fold json_size_nonneg _ Hinv) as Hwf. cbn [t_agent] in Hwf.
  assert (metas (remove_dir false j a) !! i = None) as En by (by rewrite E, lookup_empty).
  apply (metas_none _ i b Hwf) in En. rewrite remove_namespace, decide_False in En by naive_solver.
  rewrite En in He. by destruct He.
Qed.

(** The threads are as they were, and so are their handles. *)
Lemma leftover_beside t j a hs : leftover t j -> unwritten a j -> ag_archive a !! j = None ->
  same_dirs (remove_dir false j (t_agent t)) (remove_dir false j a) ->
  tree_inv (mkTree (remove_dir false j (t_agent t)) hs) -> leftover (mkTree a hs) j.
Proof.
  intros (Hid & _ & _ & Hmain & _) Hu Har Hs Hinv.
  split; [done|]. split; [done|]. split; [done|]. split.
  - destruct Hmain as [|Hm]; [by left|right]. cbn [t_agent]. by rewrite (same_dirs_metas _ _ Hs).
  - by apply (same_dirs_keeps json_size fold (mkTree (remove_dir false j (t_agent t)) hs)).
Qed.

Lemma unopened_beside t j id r : leftover t j -> is_ok r = false ->
  tree_inv (mkTree (remove_dir false j (t_agent t)) (add_opened id r t)).
Proof.
  intros (_ & _ & _ & _ & Hinv) Hr.
  change (add_opened id r t) with
    (add_opened id r (mkTree (remove_dir false j (t_agent t)) (t_handles t))).
  apply same_dirs_opened; [done|done|by destruct r].
Qed.

(** A method that failed and changed no directory. *)
Lemma leftover_same t j id r : leftover t j -> is_ok r = false ->
  leftover (mkTree (t_agent t) (add_opened id r t)) j.
Proof.
  intros Hl Hr. pose proof Hl as (_ & Har & Hu & _).
  apply (leftover_beside t); [done..|by apply unopened_beside].
Qed.

(** ** Opening beside it *)

Lemma unwritten_put j archived id d a : id <> j -> unwritten a j -> unwritten (put_dir archived id d a) j.
Proof.
  intros Hne (d0 & Hd & Hm). exists d0. split; [|done]. destruct archived; [done|].
  cbn. by rewrite lookup_insert_ne.
Qed.

Lemma archive_put j archived id d a : id <> j -> ag_archive a !! j = None ->
  ag_archive (put_dir archived id d a) !! j = None.
Proof. intros Hne Ha. destruct archived; [|done]. cbn. by rewrite lookup_insert_ne. Qed.

Lemma open_unwritten io archived id d r d' : d_meta d = MetaAbsent ->
  openLocked json_size io archived id d = (r, d') -> is_ok r = false /\ d' = d.
Proof.
  intros Hm H. unfold openLocked in H. destruct (negb _); [by injection H as <- <-|].
  destruct (read_unwritten archived id d Hm) as [e E]. rewrite E in H. by injection H as <- <-.
Qed.

Lemma leftover_open io archived id j t r a : leftover t j ->
  openThread json_size fold io archived id (t_agent t) = (r, a) ->
  is_ok r = false /\ leftover (mkTree a (add_opened id r t)) j.
Proof.
  intros Hl H. pose proof Hl as (Hid & Har & Hu & _ & Hinv).
  apply openThread_run in H as [[Hr ->]|(d0 & r0 & d' & Hns & Ho & Hcase)].
  { split; [done|by apply leftover_same]. }
  destruct (decide (id = j)) as [->|Hne].
  - destruct archived; [cbn in Hns; congruence|]. destruct Hu as (d & Hd & Hm).
    cbn in Hns. rewrite Hd in Hns. injection Hns as <-.
    apply open_unwritten in Ho as [Hr0 ->]; [|done].
    destruct Hcase as [[Hr ->]|(x & h & -> & _)]; [|done]. split; [done|].
    apply (leftover_beside t); [done| |done| |by apply unopened_beside].
    + exists (set_archived false d). split; [cbn; by rewrite lookup_insert_eq|done].
    + apply same_dirs_lookup. intros b i. rewrite !remove_namespace. unfold put_dir.
      rewrite namespace_set. destruct b; cbn [Bool.eqb]; [done|].
      destruct (decide (i = j)) as [->|Hi]; [by rewrite !decide_True|].
      by rewrite lookup_insert_ne.
  - assert (unwritten (put_dir archived id d' (t_agent t)) j) as Hu' by (by apply unwritten_put).
    assert (is_ok r = false /\ a = put_dir archived id d' (t_agent t)) as [Hr ->].
    { destruct Hcase as [?|(x & h & _ & _ & Hx & Hload)]; [done|].
      destruct (load_unwritten fold _ j (a_load io) (io_now (a_io io)) Hu' Hid) as [e E].
      rewrite E in Hload. injection Hload as <- <-. done. }
    split; [done|]. apply (leftover_keeps t j _ _ archived id); [done|done|by apply archive_put| |done|].
    + change (add_opened id r t) with
        (add_opened id r (mkTree (remove_dir false j (t_agent t)) (t_handles t))).
      eapply (opened_keeps json_size fold json_size_nonneg); [exact Hinv| |exact Ho| |by apply remove_put].
      * cbn [t_agent]. by rewrite remove_namespace, decide_False by naive_solver.
      * left. by destruct r.
    + unfold put_dir. rewrite namespace_set, eqb_reflx, lookup_insert_eq. eauto.
Qed.

Lemma leftover_main io j t r a : leftover t j -> EnsureMain json_size fold io (t_agent t) = (r, a) ->
  is_ok r = false /\ leftover (mkTree a (add_opened MainID r t)) j.
Proof.
  intros Hl H. unfold EnsureMain, bind at 1, get_agent in H.
  assert (forall e, (Err e, t_agent t) = (r, a) ->
    is_ok r = false /\ leftover (mkTree a (add_opened MainID r t)) j) as Hfail.
  { intros e [= <- <-]. split; [done|by apply leftover_same]. }
  destruct (ag_threads (t_agent t) !! MainID) as [[|d]|] eqn:Hmain.
  - by eapply Hfail.
  - destruct (d_meta d); [by eapply Hfail|by eapply leftover_open..].
  - exfalso. destruct Hl as (_ & _ & (d & Hd & _) & Hor & Hinv).
    assert (j <> MainID) as Hne by congruence.
    destruct Hor as [|Hm]; [done|]. destruct (ti_main _ _ _ Hinv) as [?|[e He]]; [done|].
    cbn in He. rewrite lookup_delete_ne in He by done. congruence.
Qed.

Lemma leftover_create io raw parentID alias maxDepth j a0 t r : leftover t j ->
  CreateWorker json_size fold io raw parentID alias maxDepth (t_agent t) = (r, a0) ->
  is_ok r = false /\ a0 = t_agent t.
Proof.
  intros Hl H. unfold CreateWorker, bind at 1 2, get_agent, pure in H.
  destruct (checkWorkerDepthLocked _ _ _); [|by injection H as <- <-].
  destruct (leftover_load t j (a_load io) (io_now (a_io io)) Hl) as [e E]. unfold bind at 1 in H. rewrite E in H.
  by injection H as <- <-.
Qed.

(** ** Methods of the threads beside it *)

(** [tree_call_keeps] and [unarchive_keeps] for the threads only. *)
Lemma leftover_relocate archived id j t d' a hs : leftover t j -> id <> j ->
  is_Some (dir_at archived id (t_agent t)) ->
  tree_inv (mkTree (remove_dir false j a) hs) ->
  same_dirs (relocate archived id d' (t_agent t)) a -> leftover (mkTree a hs) j.
Proof.
  intros Hl Hne [d0 Hd] Hkeep Ha. pose proof Hl as (_ & Har & (d & Hdj & Hm) & _ & Hinv).
  apply dir_at_some in Hd as (d1 & Hd1 & ->).
  assert (namespace (negb archived) (t_agent t) !! id = None) as Hn.
  { assert (forall c, namespace c (remove_dir false j (t_agent t)) !! id = namespace c (t_agent t) !! id) as E.
    { intros c. by rewrite remove_namespace, decide_False by naive_solver. }
    rewrite <- E. apply (ti_once _ _ _ Hinv). cbn [t_agent]. rewrite E. eauto. }
  assert (forall b i, namespace b a !! i =
    if decide (i = id) then (if Bool.eqb b (d_archived d') then Some (EntryDir d') else None)
    else namespace b (t_agent t) !! i) as Hlk.
  { intros b i. rewrite Ha. apply relocate_lookup; eauto. }
  apply (leftover_keeps t j a hs (d_archived d') id); [done| | |exact Hkeep|done|].
  - exists d. split; [|done]. specialize (Hlk false j). rewrite decide_False in Hlk by done. cbn in Hlk. congruence.
  - specialize (Hlk true j). rewrite decide_False in Hlk by done. cbn in Hlk. congruence.
  - rewrite Hlk, decide_True, eqb_reflx by done. eauto.
Qed.

(** The threads of the agent in the invariant. *)
Lemma leftover_dir archived id j t d : leftover t j -> id <> j ->
  dir_at archived id (t_agent t) = Some d ->
  dir_at archived id (remove_dir false j (t_agent t)) = Some d /\
  is_Some (namespace archived (t_agent t) !! id) /\
  namespace (negb archived) (t_agent t) !! id = None.
Proof.
  intros Hl Hne Hd. pose proof Hl as (_ & _ & _ & _ & Hinv).
  assert (forall c, namespace c (remove_dir false j (t_agent t)) !! id = namespace c (t_agent t) !! id) as E.
  { intros c. by rewrite remove_namespace, decide_False by naive_solver. }
  assert (dir_at archived id (remove_dir false j (t_agent t)) = Some d) as Hd'.
  { unfold dir_at in *. by rewrite E. }
  split; [done|]. rewrite <- !E. apply dir_at_some in Hd' as (d1 & Hd1 & _).
  split; [eauto|]. apply (ti_once _ _ _ Hinv). cbn [t_agent]. eauto.
Qed.

Lemma leftover_call io archived id c j t d i h r h' d' a : leftover t j ->
  dir_at archived id (t_agent t) = Some d -> handles_of t id !! i = Some h ->
  informed fold io id c (t_agent t) -> run_call json_size (a_io io) c (h, d) = (r, (h', d')) ->
  same_dirs (relocate archived id d' (t_agent t)) a ->
  leftover (mkTree a (<[id := <[i := h']> (handles_of t id)]> (t_handles t))) j.
Proof.
  intros Hl Hd Hh Hinf Hc Ha. pose proof Hl as (_ & _ & _ & _ & Hinv).
  assert (id <> j) as Hne.
  { intros ->. by rewrite (leftover_handles t j Hl) in Hh. }
  destruct (leftover_dir archived id j t d Hl Hne Hd) as (Hd' & Hs & Hn).
  apply (leftover_relocate archived id j t d'); [done|done|eauto| |done].
  set (t1 := mkTree (remove_dir false j (t_agent t)) (t_handles t)).
  change (handles_of t id) with (handles_of t1 id). change (t_handles t) with (t_handles t1).
  apply (tree_call_keeps json_size fold json_size_nonneg io archived id c t1 d i h r h' d'); try done.
  - destruct c as [| | | | | |[] alias| | |]; try done. cbn [guarded informed] in *.
    destruct Hinf as [Hinf|[_ ?]]; [|done]. exfalso. unfold alias_available, bind in Hinf.
    destruct (leftover_load t j (a_load io) (io_now (a_io io)) Hl) as [e E]. by rewrite E in Hinf.
  - intros b. cbn [t1 t_agent]. rewrite <- (remove_relocate j archived id d' (t_agent t) Hne Hs Hn b).
    apply map_eq. intros k. by rewrite !remove_namespace, Ha.
Qed.

Lemma leftover_unarchive io io' id j t d r d' a : leftover t j ->
  dir_at true id (t_agent t) = Some d -> Unarchive json_size io io' id d = (r, d') ->
  same_dirs (relocate true id d' (t_agent t)) a ->
  leftover (mkTree a (add_opened id r t)) j.
Proof.
  intros Hl Hd Hu Ha. pose proof Hl as (_ & Har & _ & _ & Hinv).
  assert (id <> j) as Hne.
  { intros ->. unfold dir_at in Hd. cbn [namespace] in Hd. by rewrite Har in Hd. }
  destruct (leftover_dir true id j t d Hl Hne Hd) as (Hd' & Hs & Hn).
  apply (leftover_relocate true id j t d'); [done|done|eauto| |done].
  set (t1 := mkTree (remove_dir false j (t_agent t)) (t_handles t)).
  change (add_opened id r t) with (add_opened id r t1).
  apply (unarchive_keeps json_size fold json_size_nonneg io io' id t1 d r d'); try done.
  intros b. cbn [t1 t_agent]. rewrite <- (remove_relocate j true id d' (t_agent t) Hne Hs Hn b).
  apply map_eq. intros k. by rewrite !remove_namespace, Ha.
Qed.

(** ** Deletion beside it *)

Lemma leftover_drop t j id : leftover t j ->
  leftover (mkTree (t_agent t) (drop_handles id (t_agent t) (t_handles t))) j.
Proof.
  intros Hl. pose proof Hl as (_ & Har & Hu & _ & Hinv).
  apply (leftover_beside t); [done..|].
  pose proof (drop_present json_size fold _ id (remove_dir false j (t_agent t)) Hinv ltac:(done)) as Hd.
  cbn [t_agent t_handles] in Hd. unfold drop_handles in *.
  destruct (workerIDAvailableLocked (t_agent t) id) eqn:Hav; [|exact Hinv].
  assert (workerIDAvailableLocked (remove_dir false j (t_agent t)) id = true) as E; [|by rewrite E in Hd].
  pose proof (workerIDAvailable_none _ _ Hav) as Hn. unfold workerIDAvailableLocked.
  pose proof (Hn false) as H1. pose proof (Hn true) as H2. cbn in *.
  apply andb_true_iff. split; apply bool_decide_eq_true_2; [|done]. apply lookup_delete_None. by right.
Qed.

Lemma leftover_delete io id j t r a : leftover t j ->
  (DeleteArchived fold io id (t_agent t) = (r, a) \/ RollbackWorkerCreation fold io id (t_agent t) = (r, a)) ->
  is_ok r = false /\ a = t_agent t.
Proof.
  intros Hl H. destruct (leftover_load t j (a_load io) (io_now (a_io io)) Hl) as [e E].
  unfold DeleteArchived, RollbackWorkerCreation, bind in H.
  destruct (negb (ValidWorkerID id)); rewrite ?E in H; by destruct H as [[= <- <-]|[= <- <-]].
Qed.

(** ** Recovery beside it *)

Lemma agent_ext a a' : same_dirs a a' -> ag_trash a' = ag_trash a -> ag_index a' = ag_index a -> a' = a.
Proof.
  intros Hs Ht Hi. pose proof (Hs false) as H1. pose proof (Hs true) as H2.
  destruct a, a'. cbn in *. congruence.
Qed.

(** One directory is recovered without regard to the others. *)
Lemma recover_dir_beside io archived name j a r a' : name <> j ->
  recover_dir io archived name a = (r, a') ->
  recover_dir io archived name (remove_dir false j a) = (r, remove_dir false j a') /\
  (forall b, namespace b a' !! j = namespace b a !! j) /\ ag_index a' = ag_index a.
Proof.
  intros Hne H. unfold recover_dir, bind, get_agent, pure in *.
  assert (forall c, namespace c (remove_dir false j a) !! name = namespace c a !! name) as E.
  { intros c. by rewrite remove_namespace, decide_False by naive_solver. }
  unfold dir_at in *. rewrite E.
  destruct (namespace archived a !! name) as [[|d]|] eqn:Hd; [by injection H as <- <-| |by injection H as <- <-].
  destruct (negb (ValidWorkerID name)); [by injection H as <- <-|].
  destruct (readProjectionFile archived name _) as [p|e]; [|by injection H as <- <-]. cbv zeta in *.
  set (sa := bool_decide (p_RetentionState p = RetentionArchived)) in *. rewrite E.
  unfold ret, fail, effect, modify_agent, bind in *. cbv beta in *.
  destruct (Bool.eqb sa archived) eqn:Hb; [by destruct (io_renewal io); injection H as <- <-|].
  assert (sa = negb archived) as Hsa by (by destruct sa, archived).
  destruct (namespace sa a !! name) eqn:Hfree; [by injection H as <- <-|].
  set (a1 := put_dir sa name (set_archived sa (set_archived archived d)) (remove_dir archived name a)) in *.
  assert (put_dir sa name (set_archived sa (set_archived archived d))
            (remove_dir archived name (remove_dir false j a)) = remove_dir false j a1 /\
    (forall b, namespace b a1 !! j = namespace b a !! j) /\ ag_index a1 = ag_index a) as (Ha1 & Hj & Hi).
  { change a1 with (relocate archived name (set_archived sa (set_archived archived d)) a).
    change (put_dir sa name (set_archived sa (set_archived archived d))
      (remove_dir archived name (remove_dir false j a))) with
      (relocate archived name (set_archived sa (set_archived archived d)) (remove_dir false j a)).
    rewrite Hsa in *. split; [|split].
    - symmetry. apply agent_ext; [apply remove_relocate; [done|rewrite Hd; eauto|done]|by destruct archived..].
    - intros b. rewrite relocate_lookup; [|rewrite Hd; eauto|done]. by rewrite decide_False.
    - by destruct archived. }
  destruct (io_rename io); cbv beta iota in *; rewrite ?Ha1.
  - by destruct (io_renewal io); injection H as <- <-.
  - by injection H as <- <-.
  - by injection H as <- <-.
Qed.

(** The directory without metadata is skipped, or stops the recovery. *)
Lemma recover_dir_unwritten io archived j t : leftover t j ->
  exists r, recover_dir io archived j (t_agent t) = (r, t_agent t).
Proof.
  intros (_ & Har & (d & Hd & Hm) & _). unfold recover_dir, bind, get_agent, pure, dir_at.
  destruct archived; cbn [namespace]; [rewrite Har; by eexists|]. rewrite Hd.
  destruct (negb _); [by eexists|].
  destruct (read_unwritten false j (set_archived false d) Hm) as [e E]. rewrite E. by eexists.
Qed.

Lemma leftover_metas t j : leftover t j -> metas (remove_dir false j (t_agent t)) = metas (t_agent t).
Proof. intros (_ & Har & Hu & _). by apply metas_unwritten. Qed.

Lemma leftover_recover_dirs ios archived j names : forall t r a, leftover t j ->
  recover_dirs ios archived names (t_agent t) = (r, a) ->
  leftover (mkTree a (t_handles t)) j /\ metas a = metas (t_agent t) /\ ag_index a = ag_index (t_agent t).
Proof.
  induction names as [|n l IH]; intros t r a Hl H; cbn [recover_dirs] in H.
  { injection H as _ <-. by destruct t. }
  unfold bind in H. destruct (recover_dir (ios n) archived n (t_agent t)) as [x a1] eqn:E.
  assert (leftover (mkTree a1 (t_handles t)) j /\ metas a1 = metas (t_agent t) /\
    ag_index a1 = ag_index (t_agent t)) as (Hl1 & Hm1 & Hi1).
  { destruct (decide (n = j)) as [->|Hne].
    - destruct (recover_dir_unwritten (ios j) archived j t Hl) as [r' E']. rewrite E' in E.
      injection E as <- <-. by destruct t.
    - pose proof Hl as (Hid & Har & (d & Hd & Hm) & Hor & Hinv).
      apply (recover_dir_beside _ _ _ j) in E as (E & Hj & Hi); [|done].
      destruct (recover_dir_keeps json_size fold json_size_nonneg _ _ _ _ _ _ Hinv E) as [Hinv1 Hm1].
      cbn [t_agent t_handles] in Hinv1, Hm1.
      assert (leftover (mkTree a1 (t_handles t)) j) as Hl1.
      { split; [done|]. split; [by rewrite <- Har; apply (Hj true)|]. split; [|split; [|done]].
        - exists d. split; [|done]. rewrite <- Hd. apply (Hj false).
        - destruct Hor as [?|Hor]; [by left|right]. cbn [t_agent]. by rewrite Hm1. }
      split; [done|]. split; [|done].
      pose proof (leftover_metas _ _ Hl1) as Hx. cbn [t_agent] in Hx.
      by rewrite <- Hx, Hm1, leftover_metas. }
  destruct x; [|injection H as _ <-; done].
  destruct (IH (mkTree a1 (t_handles t)) r a Hl1 H) as (? & Hm & Hi). cbn [t_agent t_handles] in *.
  split; [done|]. by rewrite Hm, Hi.
Qed.

Lemma leftover_recover io ios removed j t r a : leftover t j ->
  RecoverLayout fold io ios removed (t_agent t) = (r, a) ->
  is_ok r = false /\ leftover (mkTree a (t_handles t)) j /\ metas a = metas (t_agent t) /\
  ag_index a = ag_index (t_agent t).
Proof.
  intros Hl H. unfold RecoverLayout, bind, get_agent in H.
  destruct (recover_dirs ios false _ (t_agent t)) as [x1 a1] eqn:E1.
  destruct (leftover_recover_dirs ios false j _ t x1 a1 Hl E1) as (Hl1 & Hm1 & Hi1).
  destruct x1 as [[]|e]; [|by injection H as <- <-].
  destruct (recover_dirs ios true _ a1) as [x2 a2] eqn:E2.
  destruct (leftover_recover_dirs ios true j _ (mkTree a1 (t_handles t)) x2 a2 Hl1 E2) as (Hl2 & Hm2 & Hi2).
  cbn [t_agent t_handles] in *. rewrite Hm1 in Hm2. rewrite Hi1 in Hi2.
  destruct x2 as [[]|e]; [|by injection H as <- <-].
  destruct (leftover_unwritten _ _ Hl2) as [Hu Hid]. cbn [t_agent] in Hu.
  destruct (scan_unwritten fold a2 j Hu Hid) as [e E].
  unfold rebuildIndexLocked, bind, get_agent, pure in H. rewrite E in H. by injection H as <- <-.
Qed.

(** ** Every step *)

Lemma tree_step_keeps t t' : tree_step json_size fold t t' -> tree_ok t -> tree_ok t'.
Proof.
  intros [io t0 r a H|io raw parentID alias maxDepth t0 r a H|io archived id t0 r a H
    |io archived id c t0 d i h r h' d' index Hd Hh Hinf H|io io' id t0 d r d' index Hd H
    |io id t0 r a H|io id t0 r a H|io ios removed t0 r a H] [Hinv|[j Hl]].
  - destruct (EnsureMain_keeps json_size fold json_size_nonneg _ _ _ _ Hinv H); [by left|right; eauto].
  - right. exists j. by destruct (leftover_main io j t0 r a Hl H) as [_ ?].
  - apply CreateWorker_run in H as [[? _]|[? _]]; [by left|by right|done|done].
  - right. exists j. destruct (leftover_create io raw parentID alias maxDepth j a t0 r Hl H) as [Hr ->].
    by apply leftover_same.
  - left. by eapply openThread_keeps.
  - right. exists j. by destruct (leftover_open io archived id j t0 r a Hl H) as [_ ?].
  - left. eapply tree_call_keeps; [done..| |done|]; [by eapply informed_guarded|apply same_dirs_index].
  - right. exists j. eapply leftover_call; [done..|]. apply same_dirs_index.
  - left. eapply unarchive_keeps; [done..|]. apply same_dirs_index.
  - right. exists j. eapply leftover_unarchive; [done..|]. apply same_dirs_index.
  - left. by destruct (DeleteArchived_run json_size fold json_size_nonneg io id t0 r a Hinv H).
  - right. exists j. destruct (leftover_delete io id j t0 r a Hl (or_introl H)) as [_ ->]. by apply leftover_drop.
  - left. by destruct (RollbackWorkerCreation_run json_size fold json_size_nonneg io id t0 r a Hinv H).
  - right. exists j. destruct (leftover_delete io id j t0 r a Hl (or_intror H)) as [_ ->]. by apply leftover_drop.
  - left. by destruct (RecoverLayout_keeps json_size fold json_size_nonneg io ios removed t0 r a Hinv H).
  - right. exists j. by destruct (leftover_recover io ios removed j t0 r a Hl H) as (_ & ? & _).
Qed.

Lemma tree_reachable_ok t : tree_reachable json_size fold t -> tree_ok t.
Proof.
  intros (t0 & (H1 & H2 & H3) & Hr).
  apply (runs_invariant (tree_step json_size fold) tree_ok) with (s1 := t0); [|done|left].
  { intros s1 s2 Hi Hs. by apply (tree_step_keeps s1 s2). }
  assert (forall b, namespace b (t_agent t0) = ∅) as Hns by (by intros []).
  assert (metas (t_agent t0) = ∅) as Hm.
  { apply map_eq. intros i. by rewrite metas_lookup_raw, !Hns, !lookup_empty. }
  split.
  - intros b id e. by rewrite Hns, lookup_empty.
  - intros b id. by rewrite !Hns, lookup_empty.
  - intros id _. unfold handles_of. by rewrite H3, lookup_empty.
  - rewrite Hm. apply consistent_empty.
  - by left.
Qed.

(** Without such a directory the invariant is that of the threads. *)
Lemma whole_inv t : tree_reachable json_size fold t -> all_written (t_agent t) -> tree_inv t.
Proof.
  intros Hr Hw. apply tree_reachable_ok in Hr as [|[j Hl]]; [done|].
  destruct (Hw j). by apply leftover_unwritten.
Qed.
End Leftovers.
