(* ===== verification/ThreadTreeSafety.v ===== *)
(** * The threads of an agent: theorems about every reachable agent

    What holds of an agent whatever operations, storage failures and restarts
    it went through: its metadata stays consistent, a new worker is one level
    below its parent and within the limit, depth is the distance to Main, the
    loaded index lists every thread, and recovering the layout ends with an
    agent whose index can be listed. *)

From S2P Require Import Prelude GoStd Llm Events ThreadTypes ThreadFacts ThreadStore ThreadTree ThreadTreeInv ThreadTreeScan ThreadTreeSteps ThreadTreeProps ThreadTreeOps ThreadTreeLeftover.
From stdpp Require Import sorting relations.

Local Open Scope Z_scope.
Local Open Scope juex_scope.

(** ** Depth and the metadata check *)

(** The parent chain of a thread is walked to its end in finitely many
    steps: the loop of [depthLocked] never needs more turns than there are
    directories, its result is the number of parents between the thread and
    Main, and that is below the number of directories; it is an error exactly
    when the chain does not reach Main through valid metadata. *)
Theorem depth_is_distance_to_main a id :
  depth_loop (chain_fuel a) a ∅ 0 id = Some (depthLocked a id) /\
  (forall n, depthLocked a id = Ok n <-> Depth a id n) /\
  forall n, depthLocked a id = Ok n ->
    0 <= n < Z.of_nat (size (ag_threads a)) + Z.of_nat (size (ag_archive a)).
Proof.
  destruct (depth_run a id) as (r & E & Hb & Hr). unfold depthLocked. rewrite E. cbn [default].
  split; [done|]. split; [done|]. intros n Hn. pose proof (Hb n Hn) as Hlt.
  apply Hr, Depth_nonneg in Hn. unfold all_names in Hlt. rewrite size_union_alt in Hlt.
  pose proof (subseteq_size (dom (ag_archive a) ∖ dom (ag_threads a)) (dom (ag_archive a)) ltac:(set_solver)).
  rewrite !size_dom in *. lia.
Qed.

(** The check over all metadata decides exactly what it is for. Of threads
    with different ids that each passed its own check, [validateProjectionSet]
    accepts those sets in which no alias is, up to case, an id or the alias of
    another thread, in which under a Main every parent exists, and in which no
    chain of parents is a cycle. *)
Theorem metadata_check_decides_consistency fold ps :
  NoDup (map p_ThreadID ps) ->
  Forall (fun p => validateProjectionMetadata p (p_ThreadID p) = Ok tt) ps ->
  validateProjectionSet fold ps = Ok tt <-> consistent fold (threads_map ps).
Proof.
  intros Hnd Hv. apply validate_iff_consistent. split; [done|].
  eapply Forall_impl; [exact Hv|]. intros p. unfold validateProjectionMetadata, check. by destruct (valid_projection _ _).
Qed.

Section Agents.
  Context (json_size : Commit -> option Z) (fold : Z -> Z).
  Context (json_size_nonneg : forall c n, json_size c = Some n -> 0 <= n).

Abbreviation tree_reachable := (tree_reachable json_size fold).

(** ** Consistency *)

(** C20: the threads of an agent stay consistent. In every reachable agent each
    directory holds the valid metadata of the thread it is named after, but for
    at most one, which a failed creation left in the active namespace without
    metadata and which has no handle; while it is there no index is built. No
    thread is in both namespaces, no alias collides with an id or another alias,
    every parent exists, and every chain of parents ends. *)
Theorem threads_always_consistent t : tree_reachable t ->
  (forall archived id e, namespace archived (t_agent t) !! id = Some e ->
     (exists d p, e = EntryDir d /\ d_meta d = MetaProjection p /\
        validateProjectionMetadata p id = Ok tt) \/
     (archived = false /\ unwritten (t_agent t) id)) /\
  (forall id, unwritten (t_agent t) id ->
     handles_of t id = [] /\ (forall id', unwritten (t_agent t) id' -> id' = id) /\
     is_ok (scanProjectionFilesLocked fold (t_agent t)) = false) /\
  (forall id, is_Some (ag_threads (t_agent t) !! id) -> ag_archive (t_agent t) !! id = None) /\
  consistent fold (metas (t_agent t)).
Proof.
  intros Hr. apply (tree_reachable_ok _ _ json_size_nonneg) in Hr as [Hr|[j Hl]].
  - pose proof (tree_wf json_size fold json_size_nonneg t Hr) as [Hw _]. split; [|split; [|split]].
    + intros b id e He. destruct (Hw b id e He) as (d & p & -> & Hm & Hv). left. exists d, p.
      unfold validateProjectionMetadata, check. by rewrite Hv.
    + intros id (d & Hd & Hm). destruct (Hw false id _ Hd) as (d' & p & [= <-] & Hm' & _). congruence.
    + intros id. apply (ti_once _ _ t Hr false id).
    + apply (ti_consistent _ _ t Hr).
  - pose proof Hl as (_ & Har & Hu & _ & Hr).
    pose proof (tree_wf json_size fold json_size_nonneg _ Hr) as [Hw _]. cbn [t_agent] in Hw.
    assert (forall b id e, namespace b (t_agent t) !! id = Some e -> ~ (b = false /\ id = j) ->
      exists d p, e = EntryDir d /\ d_meta d = MetaProjection p /\ valid_projection p id = true) as Hrest.
    { intros b id e He Hn. apply (Hw b id e). by rewrite remove_namespace, decide_False. }
    split; [|split; [|split]].
    + intros b id e He. destruct (decide (b = false /\ id = j)) as [[-> ->]|Hn]; [by right|left].
      destruct (Hrest b id e He Hn) as (d & p & -> & Hm & Hv). exists d, p.
      unfold validateProjectionMetadata, check. by rewrite Hv.
    + assert (forall id, unwritten (t_agent t) id -> id = j) as Hone.
      { intros id (d & Hd & Hm). destruct (decide (id = j)) as [|Hn]; [done|].
        destruct (Hrest false id _ Hd) as (d' & p & [= <-] & Hm' & _); [by intros [_ ?]|congruence]. }
      intros id Hid. rewrite (Hone id Hid). split; [by apply (leftover_handles json_size fold)|].
      split; [exact Hone|]. destruct (leftover_unwritten _ _ _ _ Hl) as [_ Hv].
      by destruct (scan_unwritten fold (t_agent t) j Hu Hv) as [e ->].
    + intros id Hid. destruct (decide (id = j)) as [->|Hne]; [done|].
      pose proof (ti_once _ _ _ Hr false id) as Ho. cbn [t_agent negb] in Ho.
      rewrite !remove_namespace, !decide_False in Ho by naive_solver. by apply Ho.
    + rewrite <- (leftover_metas json_size fold t j Hl). apply (ti_consistent _ _ _ Hr).
Qed.

(** C32: a worker is created one level below its parent, within the limit. A
    successful [CreateWorker] adds exactly one thread, under a fresh id, with
    the parent and alias asked for, at the depth of the parent plus one, which
    is at most [maxDepth]; when it fails it has added that thread too (it is
    published, and its cleanup or the index failed), changed no directory, or
    left a directory without metadata under a fresh name. *)
Theorem worker_depth_bounded io raw parentID alias maxDepth t r a :
  tree_reachable t ->
  CreateWorker json_size fold io raw parentID alias maxDepth (t_agent t) = (r, a) ->
  (exists id p n, metas (t_agent t) !! id = None /\ metas a = <[id := p]> (metas (t_agent t)) /\
     p_ThreadID p = id /\ p_ParentThreadID p = parentID /\ p_Alias p = worker_alias alias id /\
     depthLocked (t_agent t) parentID = Ok n /\ depthLocked a id = Ok (n + 1) /\ n + 1 <= maxDepth /\
     forall h, r = Ok h -> h_ID h = id) \/
  (is_ok r = false /\ ag_threads a = ag_threads (t_agent t) /\ ag_archive a = ag_archive (t_agent t)) \/
  (is_ok r = false /\ exists id d, ag_threads (t_agent t) !! id = None /\
     ag_archive (t_agent t) !! id = None /\ d_meta d = MetaAbsent /\
     ag_threads a = <[id := EntryDir d]> (ag_threads (t_agent t)) /\
     ag_archive a = ag_archive (t_agent t)).
Proof.
  intros Hr H. apply (tree_reachable_ok _ _ json_size_nonneg) in Hr as [Hr|[j Hl]].
  2: { destruct (leftover_create json_size fold io raw parentID alias maxDepth j a t r Hl H) as [? ->].
       by right; left. }
  apply CreateWorker_run in H as [[_ [[Hs Hf]|(id & p & n & Hid & Hp & Hm & Hd & Hlt & Hd' & Hh)]]|
    [_ (Hf & id & d & Hn & Hm & Hs)]]; [..|done|done].
  - right; left. split; [done|]. split; [apply (Hs false)|apply (Hs true)].
  - left. exists id, p, n. unfold identity in Hp. injection Hp as H1 H2 H3.
    split; [done|]. split; [done|]. split; [done|]. split; [done|]. split; [done|].
    split; [by apply depthLocked_spec|]. split; [by apply depthLocked_spec|]. split; [lia|done].
  - right; right. split; [done|]. exists id, d. split; [apply (Hn false)|]. split; [apply (Hn true)|].
    split; [done|]. split; [apply (Hs false)|apply (Hs true)].
Qed.

(** ** The index *)

Lemma listing_ext a a' : metas a' = metas a -> listing a' = listing a.
Proof. intros H. unfold listing. by rewrite H. Qed.

(** The index lists every thread. When every directory has its metadata and is in
    its namespace and the file can be read and written, loading the index succeeds, whatever the
    file held, with one entry per thread that shows its metadata, in order;
    the list then reads exactly that, and loading again writes nothing. *)
Theorem loaded_index_lists_threads t now :
  tree_reachable t -> all_written (t_agent t) -> placed (t_agent t) -> metas (t_agent t) <> ∅ ->
  ag_index (t_agent t) <> IndexUnreadable -> NewTimestamp now <> 0 ->
  wrap_uint64 (known_revision (readIndexFile (t_agent t)) + 1) <> 0 ->
  exists x a, loadOrRebuildIndexLocked fold IoOk now (t_agent t) = (Ok x, a) /\
    ix_Threads x = Some (listing (t_agent t)) /\
    ag_threads a = ag_threads (t_agent t) /\ ag_archive a = ag_archive (t_agent t) /\
    ListThreads a = Ok (listing (t_agent t)) /\
    forall outcome now', loadOrRebuildIndexLocked fold outcome now' a = (Ok x, a).
Proof.
  intros Hr Hwh Hp Hne Hread Ht Hrev.
  apply (whole_inv json_size fold json_size_nonneg t Hr) in Hwh as Hr'. clear Hr. rename Hr' into Hr.
  pose proof (tree_wf json_size fold json_size_nonneg t Hr) as Hwf.
  set (a0 := t_agent t) in *. pose proof (ti_consistent _ _ t Hr) as Hc. fold a0 in Hc.
  destruct (scan_complete fold a0 Hwf Hp Hc) as (ps & Es & Hset).
  assert (exists revision u, revision <> 0 /\ u <> 0 /\
    loadOrRebuildIndexLocked fold IoOk now a0 =
      (Ok (mkIndex IndexVersion revision u (Some (listing a0))),
       set_index (IndexDocument (mkIndex IndexVersion revision u (Some (listing a0)))) a0))
    as (revision & u & Hrev' & Hu & El).
  { pose proof (scanned_listing a0 ps Hset) as Hl.
    assert (ps <> []) as Hps.
    { intros ->. destruct Hset as (_ & Hm & _). apply Hne. by rewrite <- Hm. }
    assert (writeProjectionIndexLocked IoOk now ps (known_revision (readIndexFile a0)) a0 =
      (Ok (mkIndex IndexVersion (wrap_uint64 (known_revision (readIndexFile a0) + 1)) (NewTimestamp now)
             (Some (listing a0))),
       set_index (IndexDocument (mkIndex IndexVersion (wrap_uint64 (known_revision (readIndexFile a0) + 1))
             (NewTimestamp now) (Some (listing a0)))) a0)) as Hw.
    { unfold writeProjectionIndexLocked, writeIndexLocked, effect, bind, modify_agent, ret.
      destruct ps as [|p ps]; [done|]. cbn [ix_Revision ix_Threads fmap option_fmap option_map].
      by rewrite Hl. }
    unfold loadOrRebuildIndexLocked. unfold bind at 1 2, get_agent, pure. rewrite Es.
    destruct (readIndexFile a0) as [x|e] eqn:Ei.
    - destruct (_ && _ && _) eqn:Hok; [|by eauto]. to_prop.
      unfold indexMatchesProjections in *. destruct x as [v rv ux [th|]]; [|done]. cbn in *. to_prop. subst.
      unfold validIndexLifecycle in *. cbn in *. to_prop. exists rv, ux. split; [done|]. split; [done|].
      unfold ret. rewrite <- Hl. f_equal. unfold readIndexFile in Ei.
      destruct (ag_index a0) as [| | |y] eqn:Ea; [done..|]. injection Ei as ->. rewrite <- Ea.
      by rewrite set_index_same.
    - unfold readIndexFile in Ei. destruct (ag_index a0); simplify_eq; eauto. }
  destruct (loaded_is_listed fold a0 _ revision u Hwf Hp Hc Hne Hrev' Hu eq_refl) as [Hlist Hagain].
  eexists _, _. split; [exact El|]. split; [done|]. split; [done|]. split; [done|]. split; [exact Hlist|].
  exact Hagain.
Qed.

(** ** Recovering the layout *)

(** A directory in the namespace its metadata does not name. *)
Definition misplaced (b : bool) (id : string) (a : Agent) : Prop :=
  exists d p, namespace b a !! id = Some (EntryDir d) /\ d_meta d = MetaProjection p /\
    bool_decide (p_RetentionState p = RetentionArchived) <> b.

Definition moves (io : Io) : Prop := io_rename io = IoOk /\ io_renewal io = true.

Lemma main_placed t b : tree_inv json_size fold t -> ~ misplaced b MainID (t_agent t).
Proof.
  intros Hinv (d & p & Hd & Hm & Hb).
  assert (dir_at b MainID (t_agent t) = Some (set_archived b d)) as Hdir by (unfold dir_at; by rewrite Hd).
  destruct (tree_thread json_size fold json_size_nonneg t b MainID _ Hinv Hdir) as (_ & _ & _ & _ & Hbf & _).
  rewrite (Hbf eq_refl) in *.
  pose proof (tree_wf json_size fold json_size_nonneg t Hinv) as Hwf.
  destruct (wf_entry _ Hwf _ _ _ Hd) as (d' & p' & [= <-] & Hm' & Hv). rewrite Hm in Hm'. injection Hm' as <-.
  apply Hb. apply bool_decide_eq_false_2. intros E. unfold valid_projection in Hv. to_prop.
  rewrite E in *. repeat match goal with H : _ \/ _ |- _ => destruct H end; to_prop; by subst.
Qed.

Lemma recover_dir_places io archived name t : tree_inv json_size fold t -> moves io ->
  exists a, recover_dir io archived name (t_agent t) = (Ok tt, a) /\
    ag_trash a = ag_trash (t_agent t) /\
    forall b j, misplaced b j a -> misplaced b j (t_agent t) /\ ~ (b = archived /\ j = name).
Proof.
  intros Hinv [Hren Hrw]. unfold recover_dir, bind, get_agent, pure.
  pose proof (tree_wf json_size fold json_size_nonneg t Hinv) as Hwf.
  destruct (dir_at archived name (t_agent t)) as [d|] eqn:Hd.
  2: { eexists. split; [done|]. split; [done|]. intros b j Hmis. split; [done|]. intros [-> ->].
       destruct Hmis as (d & p & Hns & _). unfold dir_at in Hd. by rewrite Hns in Hd. }
  destruct (tree_thread json_size fold json_size_nonneg t archived name d Hinv Hd)
    as (Hid & Hs & Hn & _ & _ & p & Hm & Hp).
  destruct (ValidWorkerID name) eqn:Hvw; cbn [negb].
  2: { assert (name = MainID) as ->.
       { unfold ValidWorkerID in Hvw. rewrite Hid, andb_true_r in Hvw. by to_prop. }
       eexists. split; [done|]. split; [done|]. intros b j Hmis. split; [done|]. intros [-> ->].
       by apply (main_placed t archived). }
  pose proof (metas_valid _ _ _ Hwf Hp) as Hv.
  apply dir_at_some in Hd as (d0 & Hd0 & ->).
  assert (d_meta d0 = MetaProjection p) as Hm0 by exact Hm.
  unfold readProjectionFile. cbn [set_archived d_archived d_meta]. rewrite eqb_reflx, Hm0. cbn [negb].
  unfold validateProjectionMetadata. rewrite Hv. cbn [check rbind]. cbv zeta.
  set (sa := bool_decide (p_RetentionState p = RetentionArchived)).
  destruct (Bool.eqb sa archived) eqn:Hb.
  { apply eqb_prop in Hb. eexists. cbn. rewrite Hrw. split; [done|]. split; [done|].
    intros b j Hmis. split; [done|]. intros [-> ->]. destruct Hmis as (d & q & Hd & Hq & Hne).
    rewrite Hd0 in Hd. injection Hd as <-. rewrite Hm0 in Hq. injection Hq as <-. by apply Hne. }
  assert (sa = negb archived) as Hsa by (by destruct sa, archived).
  rewrite Hsa, Hn, Hren. unfold effect, modify_agent. rewrite Hrw.
  eexists. split; [done|]. split; [by destruct archived|].
  match goal with |- forall b j, misplaced b j ?a -> _ =>
    change a with (relocate archived name (set_archived (negb archived) (set_archived archived d0)) (t_agent t)) end.
  intros b j (d & q & Hd & Hq & Hne). rewrite relocate_lookup in Hd by done.
  destruct (decide (j = name)) as [->|Hj].
  - destruct (Bool.eqb b _) eqn:Eb; [|done]. apply eqb_prop in Eb. cbn in Eb. injection Hd as <-.
    cbn in Hq. rewrite Hm0 in Hq. injection Hq as <-. exfalso. apply Hne. fold sa. congruence.
  - split; [by exists d, q|]. by intros [_ ?].
Qed.

Lemma recover_dirs_places ios archived names : (forall n, moves (ios n)) -> forall t,
  tree_inv json_size fold t ->
  exists a, recover_dirs ios archived names (t_agent t) = (Ok tt, a) /\
    tree_inv json_size fold (mkTree a (t_handles t)) /\ metas a = metas (t_agent t) /\
    ag_trash a = ag_trash (t_agent t) /\
    forall b j, misplaced b j a -> misplaced b j (t_agent t) /\ ~ (b = archived /\ j ∈ names).
Proof.
  intros Hios. induction names as [|n l IH]; intros t Hinv; cbn [recover_dirs].
  { exists (t_agent t). split; [done|]. split; [by destruct t|]. split; [done|]. split; [done|].
    intros b j Hm. split; [done|]. by intros [_ ?%elem_of_nil]. }
  destruct (recover_dir_places (ios n) archived n t Hinv (Hios n)) as (a1 & E & Ht1 & Hp1).
  destruct (recover_dir_keeps json_size fold json_size_nonneg _ _ _ _ _ _ Hinv E) as [Hi1 Hm1].
  destruct (IH (mkTree a1 (t_handles t)) Hi1) as (a2 & E2 & Hi2 & Hm2 & Ht2 & Hp2).
  exists a2. unfold bind. rewrite E. split; [exact E2|]. split; [exact Hi2|].
  split; [rewrite Hm2; exact Hm1|]. split; [rewrite Ht2; exact Ht1|].
  intros b j Hmis. destruct (Hp2 b j Hmis) as [Hmis1 Hn1]. destruct (Hp1 b j Hmis1) as [Hmis0 Hn0].
  split; [done|]. intros [-> [->|Hin]%elem_of_cons]; [by apply Hn0|by apply Hn1].
Qed.

Lemma empty_trash_index removed names : forall a r a',
  empty_trash removed names a = (r, a') -> ag_index a' = ag_index a.
Proof.
  induction names as [|n l IH]; intros a r a' H; cbn [empty_trash] in H; [by injection H as _ <-|].
  unfold bind, get_agent in H.
  destruct (ag_trash a !! n) as [[|d]|]; try (by injection H as _ <-).
  destruct (Cut _ n) as [[i s]|]; [|by injection H as _ <-].
  destruct (negb _); [by injection H as _ <-|]. destruct (negb _); [by injection H as _ <-|].
  unfold modify_agent in H. by apply IH in H.
Qed.

Lemma ListThreads_ext a a' : ag_index a' = ag_index a -> ListThreads a' = ListThreads a.
Proof. intros H. unfold ListThreads, readIndexFile. by rewrite H. Qed.

(** Whatever archiving or unarchiving was interrupted, every thread moves to its
    namespace, and the index is written. *)
Lemma recovery_restores t io ios removed :
  tree_inv json_size fold t -> metas (t_agent t) <> ∅ -> (forall n, moves (ios n)) ->
  a_index io = IoOk -> NewTimestamp (io_now (a_io io)) <> 0 ->
  exists r a, RecoverLayout fold io ios removed (t_agent t) = (r, a) /\
    metas a = metas (t_agent t) /\ placed a /\ ListThreads a = Ok (listing (t_agent t)) /\
    (ag_trash (t_agent t) = ∅ -> a_empty io = IoOk -> r = Ok tt).
Proof.
  intros Hr Hne Hios Hix Ht.
  destruct (recover_dirs_places ios false (dir_names (ag_threads (t_agent t))) Hios t Hr)
    as (a1 & E1 & Hi1 & Hm1 & Ht1 & Hp1).
  destruct (recover_dirs_places ios true (dir_names (ag_archive a1)) Hios (mkTree a1 (t_handles t)) Hi1)
    as (a2 & E2 & Hi2 & Hm2 & Ht2 & Hp2). cbn [t_agent t_handles] in *.
  pose proof (tree_wf json_size fold json_size_nonneg _ Hi2) as Hwf. cbn [t_agent] in Hwf.
  assert (placed a2) as Hplaced.
  { intros b id d p Hd Hm. destruct (decide (bool_decide (p_RetentionState p = RetentionArchived) = b)) as [|Hb]; [done|].
    assert (misplaced b id a2) as Hmis by (by exists d, p). exfalso.
    destruct (Hp2 b id Hmis) as [Hmis1 Hn1]. destruct (Hp1 b id Hmis1) as [Hmis0 Hn0]. destruct b.
    - apply Hn1. split; [done|]. apply dir_names_spec. destruct Hmis1 as (? & ? & H & _). eauto.
    - apply Hn0. split; [done|]. apply dir_names_spec. destruct Hmis0 as (? & ? & H & _). eauto. }
  pose proof (ti_consistent _ _ _ Hi2) as Hc. cbn [t_agent] in Hc.
  destruct (scan_complete fold a2 Hwf Hplaced Hc) as (ps & Es & Hset).
  assert (metas a2 = metas (t_agent t)) as Hm by (by rewrite Hm2).
  assert (metas a2 <> ∅) as Hne2 by (by rewrite Hm).
  set (x := mkIndex IndexVersion 1 (NewTimestamp (io_now (a_io io))) (Some (listing a2))).
  destruct (loaded_is_listed fold a2 x 1 _ Hwf Hplaced Hc Hne2 ltac:(done) Ht eq_refl) as [Hlist _].
  set (a3 := set_index (IndexDocument x) a2) in *.
  assert (rebuildIndexLocked fold (a_index io) (io_now (a_io io)) a2 = (Ok x, a3)) as E3.
  { unfold rebuildIndexLocked, bind, get_agent, pure. rewrite Es, Hix.
    unfold writeProjectionIndexLocked, writeIndexLocked, effect, bind, modify_agent, ret.
    destruct ps as [|p ps]; [destruct Hset as (_ & Hm0 & _); destruct Hne2; by rewrite <- Hm0|].
    cbn [ix_Revision ix_Threads fmap option_fmap option_map].
    by rewrite (scanned_listing a2 _ Hset). }
  destruct (finishTrashOperationsLocked (a_empty io) removed a3) as [r a4] eqn:E4.
  exists r, a4. unfold RecoverLayout, bind, get_agent. rewrite E1, E2, E3.
  split; [exact E4|]. pose proof (finishTrash_same_dirs _ _ _ _ _ E4) as Hs.
  destruct (finishTrash_run _ _ _ _ _ E4) as [r' Hidx%empty_trash_index].
  assert (metas a4 = metas a2) as Hm4 by (by rewrite (same_dirs_metas _ _ Hs)).
  split; [by rewrite Hm4|]. split; [|split].
  - intros b id d p. rewrite Hs. apply Hplaced.
  - rewrite (ListThreads_ext a3 a4 Hidx), Hlist. by rewrite (listing_ext _ _ Hm).
  - intros Htr He. assert (ag_trash a3 = ∅) as Htr3 by (change (ag_trash a2 = ∅); congruence).
    unfold finishTrashOperationsLocked, bind, get_agent in E4.
    rewrite Htr3, He in E4. unfold dir_names in E4. rewrite map_to_list_empty in E4. by injection E4 as <- _.
Qed.

(** C30: recovering the layout repairs the agent. When every directory has its
    metadata, then whatever archiving or unarchiving was interrupted between the
    metadata and the rename, and whatever the index file holds, [RecoverLayout]
    with working storage moves every thread to the namespace its metadata names,
    changes no metadata, and writes an index that lists every thread; emptying the
    trash comes after that, and with an empty trash the whole of it succeeds. A
    directory without metadata makes it fail, and then it changes no metadata and
    writes no index. *)
Theorem layout_recovery_restores_index t io ios removed :
  tree_reachable t ->
  (all_written (t_agent t) -> metas (t_agent t) <> ∅ ->
   (forall n, io_rename (ios n) = IoOk /\ io_renewal (ios n) = true) ->
   a_index io = IoOk -> NewTimestamp (io_now (a_io io)) <> 0 ->
   exists r a, RecoverLayout fold io ios removed (t_agent t) = (r, a) /\
     metas a = metas (t_agent t) /\ placed a /\ ListThreads a = Ok (listing (t_agent t)) /\
     (ag_trash (t_agent t) = ∅ -> a_empty io = IoOk -> r = Ok tt)) /\
  (forall id r a, unwritten (t_agent t) id ->
   RecoverLayout fold io ios removed (t_agent t) = (r, a) ->
   is_ok r = false /\ metas a = metas (t_agent t) /\ ag_index a = ag_index (t_agent t)).
Proof.
  intros Hr. split.
  - intros Hw Hne Hios Hix Ht.
    by apply recovery_restores; [apply (whole_inv json_size fold json_size_nonneg)|..].
  - intros id r a (d & Hd & Hm) H.
    apply (tree_reachable_ok _ _ json_size_nonneg) in Hr as [Hr|[j Hl]].
    + pose proof (tree_wf json_size fold json_size_nonneg t Hr) as [Hw _].
      destruct (Hw false id _ Hd) as (d' & p & [= <-] & Hm' & _). congruence.
    + by destruct (leftover_recover json_size fold json_size_nonneg io ios removed j t r a Hl H)
        as (? & _ & ? & ?).
Qed.
End Agents.
