(* ===== verification/ThreadTreeExamples.v ===== *)
(** * The threads of an agent: runs

    A concrete agent with Main and a worker, and one whose archiving was
    interrupted by a failed rename, instantiate the properties of
    [ThreadTreeSafety.v]. *)

From S2P Require Import Prelude GoStd Llm Events ThreadTypes ThreadFacts ThreadStore ThreadReplay ThreadStoreExamples ThreadTree ThreadTreeInv ThreadTreeScan ThreadTreeSteps ThreadTreeProps ThreadTreeOps ThreadTreeLeftover ThreadTreeSafety.

Local Open Scope Z_scope.
Local Open Scope juex_scope.

Definition ex_aio (n : Z) : AgentIo := mkAgentIo (ex_io n) create_ok IoOk IoOk IoOk IoOk "0123".
Definition ex_aio_rename (n : Z) : AgentIo :=
  let io := ex_io n in
  mkAgentIo (mkIo (io_now io) (io_open io) (io_append io) (io_remove io) (io_close io) (io_meta io)
               (io_layout io) (io_renewal io) IoFail (io_index io)) create_ok IoOk IoOk IoOk IoOk "0123".

(** Main, then a worker of it: the random bytes give the id [abc123]. *)
Definition ex_bytes (attempt : nat) : list Z := [10; 11; 12; 1; 2; 3].
Definition ex_agent : Agent := mkAgent ∅ ∅ ∅ IndexAbsent.
Definition ex_tree0 : Tree := mkTree ex_agent ∅.
Definition ex_main (t : Tree) : result ThreadError Handle * Agent :=
  EnsureMain ex_size fold_ascii (ex_aio 0) (t_agent t).
Definition ex_tree1 : Tree := mkTree (ex_main ex_tree0).2 (add_opened MainID (ex_main ex_tree0).1 ex_tree0).
Definition ex_create (maxDepth : Z) (t : Tree) : result ThreadError Handle * Agent :=
  CreateWorker ex_size fold_ascii (ex_aio 1) ex_bytes MainID "" maxDepth (t_agent t).
Definition ex_tree2 : Tree :=
  mkTree (ex_create 1 ex_tree1).2
    (add_opened (opened_id (ex_create 1 ex_tree1).1) (ex_create 1 ex_tree1).1 ex_tree1).

(** The worker is archived, and the directory cannot be renamed. *)
Definition ex_worker_dir (t : Tree) : Disk := default empty_disk (dir_at false ex_worker (t_agent t)).
Definition ex_worker_handle (t : Tree) : Handle := default no_handle (handles_of t ex_worker !! 0%nat).
Definition ex_archived (t : Tree) : result ThreadError unit * World :=
  run_call ex_size (a_io (ex_aio_rename 2)) (CallArchive false) (ex_worker_handle t, ex_worker_dir t).
Definition ex_tree3 : Tree :=
  let w := (ex_archived ex_tree2).2 in
  mkTree (set_index (ag_index (t_agent ex_tree2)) (relocate false ex_worker w.2 (t_agent ex_tree2)))
    (<[ex_worker := <[0%nat := w.1]> (handles_of ex_tree2 ex_worker)]> (t_handles ex_tree2)).

Lemma ex_tree1_reachable : tree_reachable ex_size fold_ascii ex_tree1.
Proof.
  exists ex_tree0. split; [done|]. apply runs_one. apply (tree_main _ _ (ex_aio 0)). apply surjective_pairing.
Qed.

Lemma tree_reachable_next t t' : tree_reachable ex_size fold_ascii t ->
  tree_step ex_size fold_ascii t t' -> tree_reachable ex_size fold_ascii t'.
Proof.
  intros (t0 & H0 & Hr) Hs. exists t0. split; [done|]. eapply runs_trans; [done|by apply runs_one].
Qed.

Lemma ex_tree2_reachable : tree_reachable ex_size fold_ascii ex_tree2.
Proof.
  eapply tree_reachable_next; [exact ex_tree1_reachable|].
  apply (tree_create _ _ (ex_aio 1) ex_bytes MainID "" 1). apply surjective_pairing.
Qed.

Lemma default_some {A} (x : option A) (a : A) : is_Some x -> x = Some (default a x).
Proof. by intros [y ->]. Qed.

Lemma ex_tree3_reachable : tree_reachable ex_size fold_ascii ex_tree3.
Proof.
  eapply tree_reachable_next; [exact ex_tree2_reachable|]. unfold ex_tree3.
  destruct (ex_archived ex_tree2) as [r [h d]] eqn:E. cbn [snd fst].
  apply (tree_call _ _ (ex_aio_rename 2) false ex_worker (CallArchive false) ex_tree2
           (ex_worker_dir ex_tree2) 0 (ex_worker_handle ex_tree2) r h d).
  - apply default_some. vm_compute. eauto.
  - apply default_some. vm_compute. eauto.
  - left. by vm_compute.
  - exact E.
Qed.

(** The interrupted archive leaves the agent's index unusable. *)
Example ex_tree3_misplaced :
  is_ok (scanProjectionFilesLocked fold_ascii (t_agent ex_tree3)) = false /\
  is_ok (openThread ex_size fold_ascii (ex_aio 3) false MainID (t_agent ex_tree3)).1 = false.
Proof. by vm_compute. Qed.

(** A second worker under the first would be at depth 2. *)
Example ex_depths :
  depthLocked (t_agent ex_tree2) MainID = Ok 0 /\ depthLocked (t_agent ex_tree2) ex_worker = Ok 1 /\
  is_ok (checkWorkerDepthLocked (t_agent ex_tree2) ex_worker 1) = false.
Proof. by vm_compute. Qed.

(** ** The properties on these runs *)

Definition ex_metas (t : Tree) : list Projection :=
  match scanProjectionFilesLocked fold_ascii (t_agent t) with
  | Ok ps => ps
  | Err _ => []
  end.

Lemma metadata_check_decides_consistency_witness :
  length (ex_metas ex_tree2) = 2%nat /\
  (validateProjectionSet fold_ascii (ex_metas ex_tree2) = Ok tt <->
   consistent fold_ascii (threads_map (ex_metas ex_tree2))).
Proof.
  split; [evaluate|]. apply metadata_check_decides_consistency.
  - apply (bool_decide_unpack _). evaluate.
  - apply (forall_decided _ (fun p => is_ok (validateProjectionMetadata p (p_ThreadID p)))); [|evaluate].
    intros p Hp. by destruct (validateProjectionMetadata _ _) as [[]|].
Defined.

(** A creation of a worker whose [os.MkdirAll] fails after the directory is made. *)
Definition ex_aio_mkdir (n : Z) : AgentIo :=
  mkAgentIo (ex_io n) (mkCreateIo IoFailCommitted Removed) IoOk IoOk IoOk IoOk "0123".
Definition ex_failed : result ThreadError Handle * Agent :=
  CreateWorker ex_size fold_ascii (ex_aio_mkdir 1) ex_bytes MainID "" 1 (t_agent ex_tree1).
Definition ex_tree4 : Tree :=
  mkTree ex_failed.2 (add_opened (opened_id ex_failed.1) ex_failed.1 ex_tree1).

Lemma ex_tree4_reachable : tree_reachable ex_size fold_ascii ex_tree4.
Proof.
  eapply tree_reachable_next; [exact ex_tree1_reachable|].
  apply (tree_create _ _ (ex_aio_mkdir 1) ex_bytes MainID "" 1). apply surjective_pairing.
Qed.

(** Nothing can be created, opened or recovered after that, with working storage. *)
Example ex_tree4_stuck :
  is_ok ex_failed.1 = false /\
  is_ok (scanProjectionFilesLocked fold_ascii (t_agent ex_tree4)) = false /\
  is_ok (ex_main ex_tree4).1 = false /\ is_ok (ex_create 1 ex_tree4).1 = false /\
  is_ok (RecoverLayout fold_ascii (ex_aio 9) (fun _ => ex_io 9) (fun _ => true) (t_agent ex_tree4)).1 = false.
Proof. by vm_compute. Qed.

(** A creation whose metadata is written with an error, and whose journal alone is
    removed: a thread that nothing opens, which can be rolled back. *)
Definition ex_aio_stub (n : Z) : AgentIo :=
  mkAgentIo (ex_io_meta n IoFailCommitted)
    (mkCreateIo IoOk (Remains true (fun _ => false))) IoOk IoOk IoOk IoOk "0123".
Definition ex_stub : result ThreadError Handle * Agent :=
  CreateWorker ex_size fold_ascii (ex_aio_stub 1) ex_bytes MainID "" 1 (t_agent ex_tree1).

Example ex_stub_rolled_back :
  is_ok ex_stub.1 = false /\
  is_ok (openThread ex_size fold_ascii (ex_aio 3) false ex_worker ex_stub.2).1 = false /\
  (RollbackWorkerCreation fold_ascii (ex_aio 4) ex_worker ex_stub.2).1 = Ok tt.
Proof. by vm_compute. Qed.

Lemma threads_always_consistent_witness :
  unwritten (t_agent ex_tree4) ex_worker /\
  (forall archived id e, namespace archived (t_agent ex_tree4) !! id = Some e ->
     (exists d p, e = EntryDir d /\ d_meta d = MetaProjection p /\
        validateProjectionMetadata p id = Ok tt) \/
     (archived = false /\ unwritten (t_agent ex_tree4) id)) /\
  (forall id, unwritten (t_agent ex_tree4) id ->
     handles_of ex_tree4 id = [] /\ (forall id', unwritten (t_agent ex_tree4) id' -> id' = id) /\
     is_ok (scanProjectionFilesLocked fold_ascii (t_agent ex_tree4)) = false) /\
  (forall id, is_Some (ag_threads (t_agent ex_tree4) !! id) -> ag_archive (t_agent ex_tree4) !! id = None) /\
  consistent fold_ascii (metas (t_agent ex_tree4)).
Proof.
  split; [exists empty_disk; by vm_compute|].
  apply (threads_always_consistent ex_size fold_ascii ex_size_nonneg ex_tree4 ex_tree4_reachable).
Defined.

Lemma worker_depth_bounded_witness :
  is_ok (ex_create 1 ex_tree1).1 = true /\
  ((exists id p n, metas (t_agent ex_tree1) !! id = None /\
      metas (ex_create 1 ex_tree1).2 = <[id := p]> (metas (t_agent ex_tree1)) /\
      p_ThreadID p = id /\ p_ParentThreadID p = MainID /\ p_Alias p = worker_alias "" id /\
      depthLocked (t_agent ex_tree1) MainID = Ok n /\
      depthLocked (ex_create 1 ex_tree1).2 id = Ok (n + 1) /\ n + 1 <= 1 /\
      forall h, (ex_create 1 ex_tree1).1 = Ok h -> h_ID h = id) \/
   (is_ok (ex_create 1 ex_tree1).1 = false /\
    ag_threads (ex_create 1 ex_tree1).2 = ag_threads (t_agent ex_tree1) /\
    ag_archive (ex_create 1 ex_tree1).2 = ag_archive (t_agent ex_tree1)) \/
   (is_ok (ex_create 1 ex_tree1).1 = false /\ exists id d, ag_threads (t_agent ex_tree1) !! id = None /\
     ag_archive (t_agent ex_tree1) !! id = None /\ d_meta d = MetaAbsent /\
     ag_threads (ex_create 1 ex_tree1).2 = <[id := EntryDir d]> (ag_threads (t_agent ex_tree1)) /\
     ag_archive (ex_create 1 ex_tree1).2 = ag_archive (t_agent ex_tree1))).
Proof.
  split; [evaluate|].
  apply (worker_depth_bounded ex_size fold_ascii ex_size_nonneg (ex_aio 1) ex_bytes MainID "" 1
           ex_tree1 (ex_create 1 ex_tree1).1 (ex_create 1 ex_tree1).2 ex_tree1_reachable).
  apply surjective_pairing.
Defined.

Definition written (e : DirEntry) : bool :=
  match e with
  | EntryDir d => match d_meta d with MetaAbsent => false | _ => true end
  | EntryFile => true
  end.

Lemma whole_check a : forallb (fun x => written x.2) (map_to_list (ag_threads a)) = true -> all_written a.
Proof.
  rewrite forallb_forall. intros H id (d & Hd & Hm). apply elem_of_map_to_list, list_elem_of_In, H in Hd.
  cbn in Hd. by rewrite Hm in Hd.
Qed.

Lemma scan_placed t : tree_reachable ex_size fold_ascii t ->
  all_written (t_agent t) -> is_ok (scanProjectionFilesLocked fold_ascii (t_agent t)) = true -> placed (t_agent t).
Proof.
  intros Hr Hw H. apply (whole_inv ex_size fold_ascii ex_size_nonneg) in Hr; [|done].
  destruct (scanProjectionFilesLocked fold_ascii (t_agent t)) as [ps|] eqn:E; [|done].
  apply scan_ok in E as [(_ & _ & Hp) _]; [done|]. by apply (tree_wf ex_size fold_ascii ex_size_nonneg).
Qed.

Lemma has_main t : is_Some (metas (t_agent t) !! MainID) -> metas (t_agent t) <> ∅.
Proof. intros H E. rewrite E, lookup_empty in H. by destruct H. Qed.

Lemma loaded_index_lists_threads_witness :
  exists x a, loadOrRebuildIndexLocked fold_ascii IoOk (io_now (ex_io 9)) (t_agent ex_tree2) = (Ok x, a) /\
    ix_Threads x = Some (listing (t_agent ex_tree2)) /\
    ag_threads a = ag_threads (t_agent ex_tree2) /\ ag_archive a = ag_archive (t_agent ex_tree2) /\
    ListThreads a = Ok (listing (t_agent ex_tree2)) /\
    forall outcome now', loadOrRebuildIndexLocked fold_ascii outcome now' a = (Ok x, a).
Proof.
  apply (loaded_index_lists_threads ex_size fold_ascii ex_size_nonneg ex_tree2 (io_now (ex_io 9))
           ex_tree2_reachable).
  - apply whole_check. evaluate.
  - apply (scan_placed ex_tree2 ex_tree2_reachable); [apply whole_check; evaluate|evaluate].
  - apply has_main. vm_compute. eauto.
  - evaluate.
  - evaluate.
  - evaluate.
Defined.

Lemma layout_recovery_restores_index_witness :
  (exists r a, RecoverLayout fold_ascii (ex_aio 9) (fun _ => ex_io 9) (fun _ => true) (t_agent ex_tree3) = (r, a) /\
    metas a = metas (t_agent ex_tree3) /\ placed a /\
    ListThreads a = Ok (listing (t_agent ex_tree3)) /\
    (ag_trash (t_agent ex_tree3) = ∅ -> IoOk = IoOk -> r = Ok tt)) /\
  (forall id r a, unwritten (t_agent ex_tree4) id ->
   RecoverLayout fold_ascii (ex_aio 9) (fun _ => ex_io 9) (fun _ => true) (t_agent ex_tree4) = (r, a) ->
   is_ok r = false /\ metas a = metas (t_agent ex_tree4) /\ ag_index a = ag_index (t_agent ex_tree4)).
Proof.
  split.
  - apply (layout_recovery_restores_index ex_size fold_ascii ex_size_nonneg ex_tree3 (ex_aio 9)
           (fun _ => ex_io 9) (fun _ => true) ex_tree3_reachable).
    + apply whole_check. evaluate.
    + apply has_main. vm_compute. eauto.
    + done.
    + done.
    + evaluate.
  - apply (layout_recovery_restores_index ex_size fold_ascii ex_size_nonneg ex_tree4 (ex_aio 9)
           (fun _ => ex_io 9) (fun _ => true) ex_tree4_reachable).
Defined.
