(* ===== verification/ProtocolRepair.v ===== *)
(** * Protocol repair: [framework/thread/protocol_repair.go]

    After an interruption a transcript may end with tool calls that have no
    result. The repair projects the tool lifecycle events of the journal to what
    is known of each call, finds the calls the provider history leaves open, and
    appends one message that answers them: with the recorded outcome, as never
    started, or as of unknown outcome.

    The JSON text of an effective input, which only becomes part of a result's
    content, is a parameter. An input is the list of its members in the order of
    their keys, so that [reflect.DeepEqual] is equality. *)

From S2P Require Import Prelude GoStd Llm Events ThreadTypes ThreadFacts ThreadStore.
From Stdlib Require Import Ascii.

Local Open Scope Z_scope.
Local Open Scope juex_scope.

(** ** What the journal says of a call *)

Record recoverableToolCall := mkRecoverable {
  rc_ToolUseID : string;
  rc_Name : string;
  rc_Input : option (list (string * Json));
  rc_TimeoutSeconds : Z;
  rc_Iter : Z;
  rc_CallIndex : Z;
  rc_MessageID : string;
  rc_declaredInput : option (list (string * Json));
  rc_started : bool;
  rc_turnID : string;
  rc_outcome : option RecordedOutcome;
}.

Definition zero_call : recoverableToolCall :=
  mkRecoverable "" "" None 0 0 0 "" None false "" None.

(** [decodePayload] into a tool payload: the members the JSON objects share. *)
Definition tool_fields (p : EventPayload) : ToolEventPayload :=
  match p with
  | ToolPayload t => t
  | CheckedPayload c => mkToolPayload (ic_ToolUseID c) "" None 0 0 0 (ic_MessageID c) None
  | TrackedPayload _ m _ => mkToolPayload "" "" None 0 0 0 m None
  | TerminalPayload _ _ _ | OtherPayload => mkToolPayload "" "" None 0 0 0 "" None
  end.

Definition requested_call (p : ToolEventPayload) : recoverableToolCall :=
  mkRecoverable (tp_ToolUseID p) (tp_Name p) (tp_Input p) (tp_TimeoutSeconds p) (tp_Iter p)
    (tp_CallIndex p) (tp_MessageID p) (tp_Input p) false "" None.

Definition running_call (turn : string) (p : ToolEventPayload) (c : recoverableToolCall) :
    recoverableToolCall :=
  mkRecoverable (tp_ToolUseID p) (if tp_Name p <>?s "" then tp_Name p else rc_Name c)
    (match tp_Input p with Some i => Some i | None => rc_Input c end) (rc_TimeoutSeconds c)
    (tp_Iter p) (tp_CallIndex p) (tp_MessageID p) (rc_declaredInput c) true turn (rc_outcome c).

Definition finished_call (turn : string) (p : ToolEventPayload) (c : recoverableToolCall) :
    recoverableToolCall :=
  mkRecoverable (tp_ToolUseID p) (tp_Name p) (rc_Input c) (rc_TimeoutSeconds c) (tp_Iter p)
    (tp_CallIndex p) (tp_MessageID p) (rc_declaredInput c) (rc_started c) turn (tp_Outcome p).

(** The kinds of tool event the projection distinguishes. *)
Inductive ToolPhase := PhaseRequested | PhaseRunning | PhaseFinished | PhaseUnknown.

#[export] Instance ToolPhase_eq_dec : EqDecision ToolPhase.
Proof. solve_decision. Defined.

Definition phase_of (type : string) : option ToolPhase :=
  if type =?s RequestedType then Some PhaseRequested
  else if (type =?s RunningType) || (type =?s InputResolvedType) then Some PhaseRunning
  else if (type =?s CompletedType) || (type =?s ErroredType) then Some PhaseFinished
  else if type =?s OutcomeUnknownType then Some PhaseUnknown
  else None.

Definition project_event (projected : gmap string recoverableToolCall) (e : Event) :
    gmap string recoverableToolCall :=
  let p := tool_fields (ev_Payload e) in
  let id := tp_ToolUseID p in
  let call := default zero_call (projected !! id) in
  match phase_of (ev_Type e) with
  | Some PhaseRequested => if id <>?s "" then <[id := requested_call p]> projected else projected
  | Some PhaseRunning =>
    if id <>?s "" then <[id := running_call (ev_TurnID e) p call]> projected else projected
  | Some PhaseFinished =>
    if id <>?s "" then <[id := finished_call (ev_TurnID e) p call]> projected else projected
  | Some PhaseUnknown => delete id projected
  | None => projected
  end.

Definition projectRecoverableToolCalls (journal : list Event) : gmap string recoverableToolCall :=
  foldl project_event ∅ journal.

(** ** The calls the history leaves open *)

(** A pending call, completed from the block that made it. *)
Definition declared_call (message : string) (b : Block) (c : recoverableToolCall) :
    recoverableToolCall :=
  mkRecoverable (b_ToolUseID b) (if rc_Name c =?s "" then b_ToolName b else rc_Name c)
    (match rc_Input c with None => b_Input b | i => i end) (rc_TimeoutSeconds c) (rc_Iter c)
    (rc_CallIndex c) (if rc_MessageID c =?s "" then message else rc_MessageID c)
    (match rc_declaredInput c with None => b_Input b | i => i end) (rc_started c) (rc_turnID c)
    (rc_outcome c).

Definition Pending : Type := gmap string recoverableToolCall * list string.

Definition scan_block (executions : gmap string recoverableToolCall) (message : string)
    (st : Pending) (b : Block) : Pending :=
  let '(pending, order) := st in
  let id := b_ToolUseID b in
  if bool_decide (b_Type b = BlockToolUse) && (id <>?s "") then
    (<[id := declared_call message b (default zero_call (executions !! id))]> pending,
     if bool_decide (pending !! id = None) then order ++ [id] else order)
  else if bool_decide (b_Type b = BlockToolResult) && (id <>?s "") then
    (delete id pending, order)
  else (pending, order).

Definition scan_message (executions : gmap string recoverableToolCall) (st : Pending)
    (m : Message) : Pending :=
  foldl (scan_block executions (m_ID m)) st (blocks m).

Definition scan_history (executions : gmap string recoverableToolCall) (history : list Message) :
    Pending :=
  foldl (scan_message executions) (∅, []) history.

(** ** The repair *)

Definition newline : string := String (ascii_of_nat 10) "".

Definition toolNotStartedContent : string :=
  "TOOL_NOT_STARTED: JueX recovered this tool call before execution started. No tool or pre-tool policy was invoked; issue a new tool call if it is still needed.".
Definition toolOutcomeUnknownContent : string :=
  "TOOL_OUTCOME_UNKNOWN: JueX recorded that this tool call started, but no durable outcome was recorded. It may already have produced external side effects. Do not retry it until the external state has been checked.".

Record Repair := mkRepair {
  pr_ToolUseID : string;
  pr_ToolName : string;
  pr_RepairMessageID : string;
  pr_Reason : string;
  pr_TurnID : string;
  pr_ProviderIteration : Z;
  pr_CallIndex : Z;
  pr_AssistantMessageID : string;
  pr_EffectiveInput : option (list (string * Json));
  pr_RecoveryCode : string;
}.

Definition with_message (id : string) (r : Repair) : Repair :=
  mkRepair (pr_ToolUseID r) (pr_ToolName r) id (pr_Reason r) (pr_TurnID r)
    (pr_ProviderIteration r) (pr_CallIndex r) (pr_AssistantMessageID r) (pr_EffectiveInput r)
    (pr_RecoveryCode r).

Definition as_result (b : Block) : Block :=
  mkBlock BlockToolResult (b_Text b) (b_Media b) (b_ToolUseID b) (b_ToolName b) (b_Input b)
    (b_TimeoutSeconds b) (b_Content b) (b_IsError b) (b_Signature b) (b_Redacted b) (b_Artifact b)
    (b_ResultFact b).

Definition set_tool (id name : string) (b : Block) : Block :=
  mkBlock (b_Type b) (b_Text b) (b_Media b) id (if b_ToolName b =?s "" then name else b_ToolName b)
    (b_Input b) (b_TimeoutSeconds b) (b_Content b) (b_IsError b) (b_Signature b) (b_Redacted b)
    (b_Artifact b) (b_ResultFact b).

Definition codeRecorded : string := "OUTCOME_RECORDED".
Definition codeNotStarted : string := "TOOL_NOT_STARTED".
Definition codeUnknown : string := "TOOL_OUTCOME_UNKNOWN".

Section Repair.
  (** [json.Marshal] of an input; [None] when it fails. *)
  Context (encode_input : list (string * Json) -> option string).
  Context (json_size : Commit -> option Z).

Definition unknown_content (c : recoverableToolCall) : string :=
  match rc_Input c with
  | Some i =>
    if bool_decide (rc_declaredInput c = rc_Input c) then toolOutcomeUnknownContent
    else match encode_input i with
         | Some text =>
           (toolOutcomeUnknownContent ++ newline ++ "Effective input at execution: " ++ text)%string
         | None => toolOutcomeUnknownContent
         end
  | None => toolOutcomeUnknownContent
  end.

Definition recoveredToolResult (c : recoverableToolCall) : Block * string :=
  match rc_outcome c with
  | Some o => (as_result (ro_Block o), codeRecorded)
  | None =>
    (mkBlock BlockToolResult "" None (rc_ToolUseID c) (rc_Name c) None 0
       (if rc_started c then unknown_content c else toolNotStartedContent) true "" false None None,
     if rc_started c then codeUnknown else codeNotStarted)
  end.

(** The message id of the first recorded outcome that has one. *)
Fixpoint repair_message_id (pending : gmap string recoverableToolCall) (order : list string) :
    string :=
  match order with
  | [] => ""
  | id :: r =>
    match c ← pending !! id; rc_outcome c with
    | Some o => if ro_MessageID o <>?s "" then ro_MessageID o else repair_message_id pending r
    | None => repair_message_id pending r
    end
  end.

Definition repair_of (reason id : string) (c : recoverableToolCall) : Block * Repair :=
  let '(block, code) := recoveredToolResult c in
  (set_tool id (rc_Name c) block,
   mkRepair id (rc_Name c) "" reason (rc_turnID c) (rc_Iter c) (rc_CallIndex c) (rc_MessageID c)
     (rc_Input c) code).

(** The loop over the order in which the calls were made. *)
Definition repair_loop (reason : string) (pending : gmap string recoverableToolCall)
    (order : list string) : list (Block * Repair) :=
  omap (fun id => repair_of reason id <$> pending !! id) order.

Definition AppendAssigned (io : Io) (fresh : string) (m : Message) (associated : list Event) :
    M Message :=
  do messages <- appendBatchAssigned json_size io (fun _ => fresh) [m] "" associated;;
  ret (default m (head messages)).

(** [t.History] is the provider history of the replay state. *)
Definition RepairProtocolTail (io : Io) (fresh reason : string) : M (list Repair) :=
  do h <- get_handle;;
  let executions := projectRecoverableToolCalls (s_Events (h_state h)) in
  let '(pending, order) := scan_history executions (s_ProviderMessages (h_state h)) in
  if bool_decide (pending = ∅) then ret []
  else
    let out := repair_loop reason pending order in
    do message <- AppendAssigned io fresh
                    (mkMessage (repair_message_id pending order) RoleUser (Some (map fst out))
                       MessageKindToolResult false "" None) [];;
    ret (map (with_message (m_ID message)) (map snd out)).

(** The events a repair is committed with; the last one carries the repairs. *)
Definition ProjectProtocolRepairEvents (turn : string) (repairs : list Repair) : list Event :=
  if Nat.eqb (length repairs) 0 then []
  else
    map (fun r => mkEvent "" OutcomeUnknownType (pr_TurnID r)
                    (ToolPayload (mkToolPayload (pr_ToolUseID r) (pr_ToolName r)
                                    (pr_EffectiveInput r) 0 (pr_ProviderIteration r)
                                    (pr_CallIndex r) (pr_AssistantMessageID r) None)))
      (filter (fun r => pr_RecoveryCode r = codeUnknown) repairs) ++
    [mkEvent "" "transcript.repaired" turn OtherPayload].
End Repair.
