(* ===== verification/ProtocolRepairProps.v ===== *)
(** * Protocol repair: what a repair achieves

    A repair answers exactly the open calls, so the transcript becomes valid
    again; what it says of a call is what the journal says of the last attempt. *)

From S2P Require Import Prelude GoStd Llm Events ThreadTypes ThreadFacts ThreadStore ProtocolRepair.

Local Open Scope Z_scope.
Local Open Scope juex_scope.

(** ** Open calls *)

(** The ids of the calls, in order. *)
Definition is_call (b : Block) : bool :=
  bool_decide (b_Type b = BlockToolUse) && (b_ToolUseID b <>?s "").
Definition is_answer (b : Block) : bool :=
  bool_decide (b_Type b = BlockToolResult) && (b_ToolUseID b <>?s "").
Definition calls (l : list Block) : list string :=
  map b_ToolUseID (List.filter is_call l).

Lemma calls_app l r : calls (l ++ r) = calls l ++ calls r.
Proof. unfold calls. by rewrite List.filter_app, map_app. Qed.

Lemma calls_snoc l b : calls (l ++ [b]) = calls l ++ (if is_call b then [b_ToolUseID b] else []).
Proof. rewrite calls_app. unfold calls. cbn. by destruct (is_call b). Qed.

Lemma delta_cases id b :
  delta id b = (if b_ToolUseID b =?s id then (if is_call b then 1 else if is_answer b then -1 else 0)
                else 0).
Proof.
  unfold delta, is_call, is_answer. destruct (bool_decide (b_ToolUseID b = "")), (b_ToolUseID b =?s id);
    cbn; rewrite ?andb_false_r; try done.
  all: rewrite ?andb_true_r; destruct (b_Type b); try done.
Qed.

(** No prefix answers a call that is not open. *)
Definition answers_after_calls (l : list Block) : Prop :=
  forall l1 l2 id, l = l1 ++ l2 -> 0 <= open_calls id l1.

Lemma good_history_answers f h : good_history f h -> (forall id, 0 <= f id) ->
  forall l1 l2 id, flat h = l1 ++ l2 -> 0 <= f id + open_calls id l1.
Proof.
  revert f. induction h as [|m h IH]; intros f Hg Hf l1 l2 id E.
  { symmetry in E. apply app_eq_nil in E as [-> _]. cbn. specialize (Hf id). lia. }
  apply good_history_cons in Hg as [Hb Hh].
  assert (forall l r i, blocks m = l ++ r -> 0 <= f i + open_calls i l) as Hm.
  { intros l r i El. destruct l as [|x l _] using rev_ind; [cbn; specialize (Hf i); lia|].
    rewrite <- app_assoc in El. by destruct (Hb l x r El). }
  unfold flat in E. cbn in E. fold (flat h) in E.
  apply app_eq_inv in E as [(k & Hk & Hr)|(k & Hk & Hr)].
  - by apply (Hm l1 k).
  - subst l1. rewrite open_calls_app.
    specialize (IH _ Hh). rewrite Z.add_assoc. apply (IH ltac:(intros i; apply (Hm _ []); by rewrite app_nil_r) k l2).
    done.
Qed.

(** The check of a transcript that is not finished. *)
Lemma checked_good h : is_ok (validate_messages 0 [] h) = true -> good_history (fun _ => 0) h.
Proof.
  intros H. pose proof (validate_messages_spec h 0 [] (fun _ => 0) ltac:(done) ltac:(done)) as Hs.
  destruct (validate_messages 0 [] h); [apply Hs|done].
Qed.

(** ** Which calls are pending *)

Definition scan_ok (l : list Block) (st : Pending) : Prop :=
  st.2 = calls l /\ forall id, is_Some (st.1 !! id) <-> open_calls id l = 1.

Lemma open_calls_bound l id : NoDup (calls l) ->
  open_calls id l <= if decide (id ∈ calls l) then 1 else 0.
Proof.
  induction l as [|b l IH] using rev_ind; intros Hnd; [cbn; case_decide; lia|].
  rewrite calls_snoc in *. rewrite open_calls_app. cbn [open_calls]. rewrite delta_cases.
  apply NoDup_app in Hnd as (Hnd & Hdis & _). specialize (IH Hnd).
  destruct (is_call b) eqn:Hc; cbn in *.
  - case_bool_decide as Hid; subst.
    + rewrite decide_True by (apply elem_of_app; right; by apply list_elem_of_singleton).
      destruct (decide (b_ToolUseID b ∈ calls l)) as [Hin|]; [|lia].
      exfalso. apply (Hdis _ Hin). by apply list_elem_of_singleton.
    + destruct (decide (id ∈ calls l)); case_decide as Hx; try lia.
      exfalso. apply Hx. apply elem_of_app. by left.
  - rewrite app_nil_r. case_bool_decide; [|lia]. destruct (is_answer b); lia.
Qed.

Lemma scan_block_ok executions message l b st :
  scan_ok l st -> NoDup (calls (l ++ [b])) -> (forall id, 0 <= open_calls id l) ->
  (forall id, 0 <= open_calls id (l ++ [b])) ->
  scan_ok (l ++ [b]) (scan_block executions message st b).
Proof.
  destruct st as [pending order]. unfold scan_ok. cbn [fst snd]. intros [-> Hp] Hnd Hl Hb.
  pose proof (fun id => open_calls_bound l id) as Hbound.
  rewrite calls_snoc in *. apply NoDup_app in Hnd as (Hnd & Hdis & _).
  unfold scan_block. fold (is_call b). fold (is_answer b).
  assert (forall id, open_calls id (l ++ [b]) = open_calls id l + delta id b) as Hopen
    by (intros id; rewrite open_calls_app; cbn; lia).
  destruct (is_call b) eqn:Hc; [|destruct (is_answer b) eqn:Ha]; cbn [fst snd].
  - assert (b_ToolUseID b ∉ calls l) as Hni.
    { intros Hin. apply (Hdis _ Hin). by apply list_elem_of_singleton. }
    pose proof (Hbound (b_ToolUseID b) Hnd) as H0. rewrite decide_False in H0 by done.
    pose proof (Hl (b_ToolUseID b)) as H1.
    split.
    + destruct (pending !! b_ToolUseID b) eqn:E.
      * assert (open_calls (b_ToolUseID b) l = 1) by (apply Hp; eauto). lia.
      * by rewrite bool_decide_eq_true_2.
    + intros id. rewrite Hopen, delta_cases, Hc. case_bool_decide as Hid; subst.
      * rewrite lookup_insert_eq. split; [lia|eauto].
      * rewrite lookup_insert_ne by done. rewrite Hp. split; lia.
  - rewrite app_nil_r. split; [done|]. intros id. specialize (Hb id). specialize (Hbound id Hnd).
    rewrite Hopen, delta_cases, Hc, Ha in *. case_bool_decide as Hid; subst.
    + rewrite lookup_delete_eq. split; [by intros []|].
      case_decide; intros; lia.
    + rewrite lookup_delete_ne by done. rewrite Hp. split; lia.
  - rewrite app_nil_r. split; [done|]. intros id. rewrite Hopen, delta_cases, Hc, Ha, Hp.
    case_bool_decide; split; lia.
Qed.

Lemma answers_prefix l1 l2 : answers_after_calls (l1 ++ l2) -> answers_after_calls l1.
Proof. intros H k1 k2 id ->. apply (H k1 (k2 ++ l2)). by rewrite app_assoc. Qed.

Lemma answers_here l id : answers_after_calls l -> 0 <= open_calls id l.
Proof. intros H. apply (H l []). by rewrite app_nil_r. Qed.

Lemma scan_blocks_ok executions message bs l st :
  scan_ok l st -> NoDup (calls (l ++ bs)) -> answers_after_calls (l ++ bs) ->
  scan_ok (l ++ bs) (foldl (scan_block executions message) st bs).
Proof.
  revert l st. induction bs as [|b bs IH]; intros l st Hs Hnd Ha; cbn [foldl].
  { by rewrite app_nil_r in *. }
  replace (l ++ b :: bs) with ((l ++ [b]) ++ bs) in * by (by rewrite <- app_assoc).
  apply IH; [|done|done]. apply scan_block_ok; [done|..].
  - rewrite calls_app in Hnd. by apply NoDup_app in Hnd as (? & _).
  - intros id. apply answers_here. by do 2 apply answers_prefix in Ha.
  - intros id. apply answers_here. by apply answers_prefix in Ha.
Qed.

Lemma scan_messages_ok executions h l st :
  scan_ok l st -> NoDup (calls (l ++ flat h)) -> answers_after_calls (l ++ flat h) ->
  scan_ok (l ++ flat h) (foldl (scan_message executions) st h).
Proof.
  revert l st. induction h as [|m h IH]; intros l st Hs Hnd Ha; cbn [foldl].
  { by rewrite app_nil_r in *. }
  assert (flat (m :: h) = blocks m ++ flat h) as E by done. rewrite E, app_assoc in *.
  apply IH; [|done|done]. apply scan_blocks_ok; [done|..].
  - rewrite calls_app in Hnd. by apply NoDup_app in Hnd as (? & _).
  - by apply answers_prefix in Ha.
Qed.

(** The transcript so far follows the protocol, and no call id is used twice. *)
Record repairable (h : list Message) : Prop := {
  rp_good : good_history (fun _ => 0) h;
  rp_ids : NoDup (calls (flat h));
}.

Lemma scan_history_ok executions h : repairable h ->
  scan_ok (flat h) (scan_history executions h).
Proof.
  intros [Hg Hnd]. apply (scan_messages_ok executions h [] (∅, [])); [|done|].
  - split; [done|]. intros id. cbn. rewrite lookup_empty. split; [by intros []|lia].
  - intros l1 l2 id E. pose proof (good_history_answers _ h Hg ltac:(done) l1 l2 id E). lia.
Qed.

(** ** The results of a repair *)

Section Results.
  Context (encode_input : list (string * Json) -> option string).

Lemma repair_of_block reason id c :
  b_ToolUseID (repair_of encode_input reason id c).1 = id /\
  b_Type (repair_of encode_input reason id c).1 = BlockToolResult /\
  pr_ToolUseID (repair_of encode_input reason id c).2 = id.
Proof. unfold repair_of, recoveredToolResult. by destruct (rc_outcome c). Qed.

Lemma repair_loop_ids reason pending order :
  map b_ToolUseID (map fst (repair_loop encode_input reason pending order)) =
    filter (fun id => is_Some (pending !! id)) order /\
  map pr_ToolUseID (map snd (repair_loop encode_input reason pending order)) =
    filter (fun id => is_Some (pending !! id)) order /\
  Forall (fun b => b_Type b = BlockToolResult)
    (map fst (repair_loop encode_input reason pending order)).
Proof.
  unfold repair_loop. induction order as [|id order (IH1 & IH2 & IH3)]; [done|].
  cbn [omap list_omap]. rewrite filter_cons. destruct (pending !! id) as [c|] eqn:E; cbn.
  - rewrite decide_True by eauto. destruct (repair_of_block reason id c) as (Hi & Ht & Hr).
    rewrite Hi, Hr. split; [by f_equal|]. split; [by f_equal|]. by constructor.
  - rewrite decide_False by (by intros []). done.
Qed.
End Results.

Lemma delta_result id b : b_Type b = BlockToolResult ->
  delta id b = (if (b_ToolUseID b =?s id) && (id <>?s "") then -1 else 0).
Proof.
  intros Hb. unfold delta. rewrite Hb. destruct (decide (b_ToolUseID b = id)) as [<-|Hn].
  - rewrite (bool_decide_eq_true_2 (b_ToolUseID b = b_ToolUseID b)) by done. cbn.
    by destruct (bool_decide (b_ToolUseID b = "")).
  - rewrite (bool_decide_eq_false_2 (b_ToolUseID b = id)) by done. by rewrite orb_true_r.
Qed.

(** Results of different calls, each open once, may follow. *)
Lemma results_good s f l :
  Forall (fun b => b_Type b = BlockToolResult) l -> NoDup (map b_ToolUseID l) ->
  (forall id, id ∈ map b_ToolUseID l -> f id = 1) -> (forall id, 0 <= f id) ->
  good_blocks s f l.
Proof.
  revert f. induction l as [|b l IH]; intros f Ht Hnd Hf Hn.
  { intros [|] ? ? ?; done. }
  inversion Ht as [|? ? Hb Hl]; subst. cbn in Hnd. apply NoDup_cons in Hnd as [Hni Hnd].
  assert (forall id, f id + delta id b = 0 \/ f id + delta id b = f id) as Hd.
  { intros id. rewrite (delta_result id b Hb). case_bool_decide as Hid; [|right; cbn; lia]. subst.
    rewrite (Hf (b_ToolUseID b)) by (cbn; by left). destruct (_ <>?s _); cbn; lia. }
  apply good_blocks_cons. split; [|split].
  - intros _ Hv. unfold providerVisibleValidationBoundary in Hv. by rewrite Hb in Hv.
  - intros id. specialize (Hn id). destruct (Hd id); lia.
  - apply IH; [done|done| |].
    + intros id Hin. rewrite (delta_result id b Hb). case_bool_decide as Hid; [by subst|].
      rewrite Hf by (cbn; by right). cbn. lia.
    + intros id. specialize (Hn id). destruct (Hd id); lia.
Qed.

Lemma open_results l id : Forall (fun b => b_Type b = BlockToolResult) l ->
  NoDup (map b_ToolUseID l) -> id <> ""%string ->
  open_calls id l = if decide (id ∈ map b_ToolUseID l) then -1 else 0.
Proof.
  induction l as [|b l IH]; intros Ht Hnd Hid; [done|].
  inversion Ht as [|? ? Hb Hl]; subst. cbn in Hnd. apply NoDup_cons in Hnd as [Hni Hnd].
  cbn [open_calls]. rewrite (IH Hl Hnd Hid), (delta_result id b Hb).
  cbn [map]. case_bool_decide as He; subst; cbn [andb].
  - rewrite bool_decide_eq_false_2 by done. cbn [negb]. rewrite decide_False by done.
    rewrite decide_True by (by left). done.
  - destruct (decide (id ∈ map b_ToolUseID l)); case_decide as Hx; try done.
    + exfalso. apply Hx. by right.
    + apply elem_of_cons in Hx as [|]; congruence.
Qed.

Lemma delta_empty b : delta "" b = 0.
Proof. unfold delta. by destruct (bool_decide (b_ToolUseID b = "")). Qed.

Lemma open_calls_empty l : open_calls "" l = 0.
Proof. induction l as [|b l IH]; cbn; [done|]. rewrite delta_empty. lia. Qed.

Lemma good_history_snoc f h m :
  good_history f (h ++ [m]) <->
  good_history f h /\ good_blocks (exists id, f id + open_calls id (flat h) <> 0)
                        (fun id => f id + open_calls id (flat h)) (blocks m).
Proof.
  revert f. induction h as [|x h IH]; intros f.
  - cbn [app]. rewrite good_history_cons. split.
    + intros [Hb _]. split; [by intros [|] ? ? ?|].
      eapply good_blocks_ext; [..|exact Hb]; cbn; [|intros; lia].
      split; intros [id Hid]; exists id; cbn in *; lia.
    + intros [_ Hb]. split; [|by intros [|] ? ? ?].
      eapply good_blocks_ext; [..|exact Hb]; cbn; [|intros; lia].
      split; intros [id Hid]; exists id; cbn in *; lia.
  - cbn [app]. rewrite !good_history_cons, IH.
    assert (good_blocks (exists id, f id + open_calls id (blocks x) + open_calls id (flat h) <> 0)
              (fun id => f id + open_calls id (blocks x) + open_calls id (flat h)) (blocks m) <->
            good_blocks (exists id, f id + open_calls id (flat (x :: h)) <> 0)
              (fun id => f id + open_calls id (flat (x :: h))) (blocks m)) as ->; [|tauto].
    assert (forall id, open_calls id (flat (x :: h)) = open_calls id (blocks x) + open_calls id (flat h))
      as E by (intros id; apply (open_calls_app id (blocks x) (flat h))).
    apply good_blocks_ext; [split; intros [id Hid]; exists id; rewrite E in *; lia|].
    intros id. rewrite E. lia.
Qed.

Lemma repairable_open h : repairable h -> forall id, 0 <= open_calls id (flat h) <= 1.
Proof.
  intros Hrep id. split.
  - pose proof (good_history_answers _ h (rp_good _ Hrep) ltac:(done) (flat h) [] id). cbn in *.
    rewrite app_nil_r in *. auto.
  - pose proof (open_calls_bound (flat h) id (rp_ids _ Hrep)). case_decide; lia.
Qed.

(** Results of exactly the open calls complete a transcript. *)
Lemma results_complete h m : repairable h -> Forall (fun b => b_Type b = BlockToolResult) (blocks m) ->
  NoDup (map b_ToolUseID (blocks m)) ->
  (forall id, id ∈ map b_ToolUseID (blocks m) <-> open_calls id (flat h) = 1) ->
  ValidateToolTranscript (h ++ [m]) = None.
Proof.
  intros Hrep Htypes Hnd Hin. pose proof (repairable_open h Hrep) as Hb. apply validate_iff_balanced. split.
  - apply good_history_snoc. split; [apply Hrep|]. apply results_good; [done|done| |].
    + intros id Hi. apply Hin in Hi. lia.
    + intros id. destruct (Hb id). lia.
  - intros id. rewrite flat_app, flat_singleton, open_calls_app.
    destruct (decide (id = ""%string)) as [->|Hne]; [by rewrite !open_calls_empty|].
    rewrite (open_results _ id Htypes Hnd Hne). specialize (Hb id). case_decide as Hx; [apply Hin in Hx; lia|].
    destruct (decide (open_calls id (flat h) = 1)) as [E|]; [|lia]. by apply Hin in E.
Qed.

(** ** Appending the repair *)

Section Append.
  Context (encode_input : list (string * Json) -> option string).
  Context (json_size : Commit -> option Z).

(** The state of the handle after a successful append. *)
Lemma AppendFacts_state io facts h d c h' d' :
  AppendFacts json_size io facts (h, d) = (Ok c, (h', d')) ->
  exists prov s' q, applyCommit (h_ID h) (cloneReplayState (h_state h)) prov = Ok s' /\
    c_Facts (sc_Commit prov) = facts /\ h_state h' = set_projection q s'.
Proof.
  intros H. unfold AppendFacts, bind at 1, get_handle in H. cbn [fst] in H.
  unfold bind at 1 in H. destruct (guard_open h (h, d)) as [[[]|] [h0 d0]] eqn:Hg; [|done].
  assert (h0 = h /\ d0 = d) as [-> ->].
  { unfold guard_open, fail, ret in Hg. destruct (_ || _); by simplify_eq. }
  unfold bind at 1 in H.
  destruct (ensureProjectionCurrentLocked (h, d)) as [[[]|] [h0 d0]]; [|done].
  unfold bind at 1, guard_active, fail, ret in H. destruct (negb _); [done|].
  destruct (existsb is_boundary_fact facts); [done|]. unfold bind at 1, lift in H.
  unfold prepareAppendLocked in H.
  destruct (prepareCommit json_size io (h_ID h) (h_eventStore h) facts) as [c0|] eqn:Hc; [|done].
  cbn [rbind] in H. unfold candidate_of in H.
  destruct (applyCommit (h_ID h) (cloneReplayState (h_state h)) _) as [s'|] eqn:Ha; [|done].
  cbn [rbind] in H. destruct (validateProjectionMetadata _ (h_ID h)) as [[]|]; [|done].
  cbn [rbind fst snd] in H. unfold bind at 1 in H.
  destruct (appendCurrent json_size io c0 (h0, d0)) as [[sc|] [h1 d1]]; [|done].
  unfold bind at 1 in H. destruct (validateProjectionMetadata _ (h_ID h)) as [[]|]; [|done].
  unfold bind at 1, modify_handle in H. cbn [fst snd] in H. unfold bind at 1, report in H.
  match type of H with context [persistProjectionValueLocked io ?q ?w] =>
    destruct (persistProjectionValueLocked io q w) as [[[]|] [h2 d2]] eqn:Hp end; [|done].
  assert (h2 = set_state (over_projection (set_cursor_offsets (sc_EndOffset sc))
            (over_projection (advanceProjectionRevision (c_At c0)) s')) h1) as ->.
  { unfold persistProjectionValueLocked, bind, get_handle, lift, write_meta, modify_disk, fail, ret in Hp.
    cbn [fst snd] in Hp. destruct (validateProjectionMetadata _ _); [|done].
    destruct (io_meta io); by simplify_eq/=. }
  unfold bind, updateIndex, ret, fail in H. destruct (io_index io); [|done]. simplify_eq/=.
  eexists _, s', _. split; [exact Ha|]. split; [|reflexivity]. cbn.
  unfold prepareCommit in Hc. destruct (negb _); [done|].
  destruct (validateCommit _ _); [|done]. cbn in Hc. destruct (json_size _); [|done].
  destruct (_ <? _); by simplify_eq/=.
Qed.

(** A message appended on its own. *)
Lemma AppendAssigned_state io fresh m h d m' h' d' :
  AppendAssigned json_size io fresh m [] (h, d) = (Ok m', (h', d')) ->
  m' = prepareMessage fresh m /\
  s_ProviderMessages (h_state h') = s_ProviderMessages (h_state h) ++ [m'] /\
  s_Events (h_state h') = s_Events (h_state h).
Proof.
  unfold AppendAssigned, appendBatchAssigned. cbn [length Nat.eqb]. intros H.
  unfold bind at 1 in H. unfold bind at 1, get_handle in H. cbn [fst] in H.
  destruct (h_closed h); [done|]. cbn [imap map app compose] in H. unfold bind at 1 in H.
  destruct (AppendFacts json_size io _ (h, d)) as [[c|] [h1 d1]] eqn:Ha; [|done].
  unfold ret in H. cbn in H. simplify_eq. split; [done|].
  apply AppendFacts_state in Ha as (prov & s' & q & Hs & Hf & ->).
  unfold applyCommit in Hs. rewrite Hf in Hs. cbn [apply_facts] in Hs.
  unfold applyFact in Hs. cbn [f_Type message_fact f_GenerationID f_Message] in Hs.
  destruct (_ <>?s _); [done|]. cbn [rbind] in Hs.
  destruct (validateProjectionLifecycle _) as [[]|]; [|done]. cbn in Hs. by simplify_eq.
Qed.

Lemma prepare_repair fresh id bs :
  let m := prepareMessage fresh (mkMessage id RoleUser (Some bs) MessageKindToolResult false "" None) in
  blocks m = bs /\ m_Role m = RoleUser.
Proof.
  unfold prepareMessage, ClassifyUserMessage. cbn [m_Role m_Kind].
  rewrite (bool_decide_eq_false_2 (MessageKindToolResult = ""%string)) by done.
  rewrite orb_true_r. cbn [m_ID]. by destruct (id =?s "").
Qed.

(** ** Properties *)

(** C27: a repair completes the transcript. When the provider history follows the
    tool protocol so far and no call id is used twice, and the repair succeeds,
    the history of the thread passes the tool-protocol check, and only one
    message, at its end, was added; with nothing open nothing is added. *)
Theorem repair_completes_transcript io fresh reason h d repairs h' d' :
  repairable (s_ProviderMessages (h_state h)) ->
  RepairProtocolTail encode_input json_size io fresh reason (h, d) = (Ok repairs, (h', d')) ->
  ValidateToolTranscript (s_ProviderMessages (h_state h')) = None /\
  ((forall id, open_calls id (flat (s_ProviderMessages (h_state h))) = 0) /\
     repairs = [] /\ h' = h /\ d' = d \/
   exists m, s_ProviderMessages (h_state h') = s_ProviderMessages (h_state h) ++ [m] /\
     m_Role m = RoleUser /\
     map pr_ToolUseID repairs = map b_ToolUseID (blocks m) /\
     forall id, id ∈ map pr_ToolUseID repairs <->
       open_calls id (flat (s_ProviderMessages (h_state h))) = 1).
Proof.
  intros Hrep H. unfold RepairProtocolTail, bind at 1, get_handle in H. cbn [fst] in H.
  set (history := s_ProviderMessages (h_state h)) in *.
  set (ex := projectRecoverableToolCalls _) in *.
  pose proof (scan_history_ok ex history Hrep) as [Hord Hp].
  destruct (scan_history ex history) as [pending order]. cbn [fst snd] in Hord, Hp. subst order.
  pose proof (repairable_open _ Hrep) as Hb. fold history in Hb.
  destruct (bool_decide (pending = ∅)) eqn:He.
  { to_prop. unfold ret in H. simplify_eq.
    assert (forall id, open_calls id (flat history) = 0) as Hz.
    { intros id. specialize (Hb id). specialize (Hp id). rewrite lookup_empty in Hp.
      destruct (decide (open_calls id (flat history) = 1)) as [E|]; [|lia].
      apply Hp in E. by destruct E. }
    split; [|by left]. apply validate_iff_balanced. split; [apply Hrep|done]. }
  unfold bind in H.
  destruct (AppendAssigned json_size io fresh _ [] (h, d)) as [[m|] [h1 d1]] eqn:Ha; [|done].
  unfold ret in H. simplify_eq.
  apply AppendAssigned_state in Ha as (Hm & Hmsgs & _). fold history in Hmsgs.
  destruct (repair_loop_ids encode_input reason pending (calls (flat history))) as (Hids & Hrids & Htypes).
  set (out := repair_loop encode_input reason pending (calls (flat history))) in *.
  assert (blocks m = map fst out /\ m_Role m = RoleUser) as [Hbl Hrole]
    by (rewrite Hm; apply prepare_repair).
  assert (forall id, id ∈ map b_ToolUseID (map fst out) <-> open_calls id (flat history) = 1) as Hin.
  { intros id. rewrite Hids, list_elem_of_filter, Hp. split; [by intros []|]. intros E. split; [done|].
    pose proof (open_calls_bound (flat history) id (rp_ids _ Hrep)). case_decide; [done|lia]. }
  assert (NoDup (map b_ToolUseID (map fst out))) as Hnd.
  { rewrite Hids. apply NoDup_filter, Hrep. }
  assert (map pr_ToolUseID (map (with_message (m_ID m)) (map snd out)) =
          map b_ToolUseID (map fst out)) as Hmap.
  { rewrite Hids, <- Hrids, !map_map. done. }
  split.
  - rewrite Hmsgs. apply results_complete; by rewrite ?Hbl.
  - right. exists m. rewrite Hmap, Hbl. by split_and!.
Qed.
End Append.

(** ** What a repair says of a call *)

Definition about (id : string) (ph : ToolPhase) (e : Event) : Prop :=
  phase_of (ev_Type e) = Some ph /\ tp_ToolUseID (tool_fields (ev_Payload e)) = id.

(** An event that starts the record of a call anew. *)
Definition resets (id : string) (e : Event) : Prop :=
  about id PhaseRequested e \/ about id PhaseUnknown e.

(** Since the call was last requested, its execution has been recorded. *)
Definition ran_since (id : string) (journal : list Event) : Prop :=
  exists pre e post, journal = pre ++ e :: post /\ about id PhaseRunning e /\
    Forall (fun x => ~ resets id x) post.

(** ... its last completion carries an outcome. *)
Definition recorded_since (id : string) (journal : list Event) (o : RecordedOutcome) : Prop :=
  exists pre e post, journal = pre ++ e :: post /\ about id PhaseFinished e /\
    tp_Outcome (tool_fields (ev_Payload e)) = Some o /\
    Forall (fun x => ~ resets id x /\ ~ about id PhaseFinished x) post.

(** The last event that matters is the new one or an older one. *)
Lemma split_snoc {A} (P : A -> Prop) (Q : A -> Prop) (l : list A) x :
  (exists pre e post, l ++ [x] = pre ++ e :: post /\ P e /\ Forall Q post) <->
  P x \/ Q x /\ exists pre e post, l = pre ++ e :: post /\ P e /\ Forall Q post.
Proof.
  split.
  - intros (pre & e & post & E & HP & HQ). destruct post as [|y post _] using rev_ind.
    + apply app_inj_tail in E as [_ ->]. by left.
    + right. rewrite app_comm_cons, app_assoc in E. apply app_inj_tail in E as [-> ->].
      apply Forall_app in HQ as [HQ Hy]. apply Forall_inv in Hy. split; [done|]. by exists pre, e, post.
  - intros [HP|[HQ (pre & e & post & -> & HP & Hpost)]].
    + exists l, x, []. by split_and!.
    + exists pre, e, (post ++ [x]). rewrite <- app_assoc. split; [done|]. split; [done|].
      apply Forall_app. split; [done|]. by apply Forall_singleton.
Qed.

Lemma ran_since_snoc id l x :
  ran_since id (l ++ [x]) <-> about id PhaseRunning x \/ ~ resets id x /\ ran_since id l.
Proof. apply (split_snoc (about id PhaseRunning) (fun y => ~ resets id y)). Qed.

Lemma recorded_since_snoc id l x o :
  recorded_since id (l ++ [x]) o <->
  about id PhaseFinished x /\ tp_Outcome (tool_fields (ev_Payload x)) = Some o \/
  (~ resets id x /\ ~ about id PhaseFinished x) /\ recorded_since id l o.
Proof.
  unfold recorded_since.
  pose proof (split_snoc (fun e => about id PhaseFinished e /\ tp_Outcome (tool_fields (ev_Payload e)) = Some o)
                (fun x => ~ resets id x /\ ~ about id PhaseFinished x) l x) as H.
  assert (forall k, (exists pre e post, k = pre ++ e :: post /\ about id PhaseFinished e /\
            tp_Outcome (tool_fields (ev_Payload e)) = Some o /\
            Forall (fun x => ~ resets id x /\ ~ about id PhaseFinished x) post) <->
          (exists pre e post, k = pre ++ e :: post /\ (about id PhaseFinished e /\
            tp_Outcome (tool_fields (ev_Payload e)) = Some o) /\
            Forall (fun x => ~ resets id x /\ ~ about id PhaseFinished x) post)) as Hk.
  { intros k. split; intros (pre & e & post & ?); exists pre, e, post; tauto. }
  by rewrite !Hk.
Qed.

Definition known_call (id : string) (journal : list Event) : recoverableToolCall :=
  default zero_call (projectRecoverableToolCalls journal !! id).

(** The projection of a call depends on its own events only. *)
Lemma known_call_snoc id l e : id <> ""%string ->
  known_call id (l ++ [e]) =
    let p := tool_fields (ev_Payload e) in
    if tp_ToolUseID p =?s id then
      match phase_of (ev_Type e) with
      | Some PhaseRequested => requested_call p
      | Some PhaseRunning => running_call (ev_TurnID e) p (known_call id l)
      | Some PhaseFinished => finished_call (ev_TurnID e) p (known_call id l)
      | Some PhaseUnknown => zero_call
      | None => known_call id l
      end
    else known_call id l.
Proof.
  intros Hid. unfold known_call, projectRecoverableToolCalls. rewrite foldl_snoc.
  set (m := foldl project_event ∅ l). cbn. unfold project_event.
  destruct (decide (tp_ToolUseID (tool_fields (ev_Payload e)) = id)) as [->|Hne].
  - rewrite (bool_decide_eq_true_2 (id = id)), (bool_decide_eq_false_2 (id = "")) by done. cbn.
    destruct (phase_of (ev_Type e)) as [[]|]; rewrite ?lookup_insert_eq, ?lookup_delete_eq; done.
  - rewrite (bool_decide_eq_false_2 (_ = id)) by done.
    destruct (phase_of (ev_Type e)) as [[]|]; [case_match..| |done];
      rewrite ?lookup_insert_ne, ?lookup_delete_ne by done; done.
Qed.

Lemma known_call_spec id journal : id <> ""%string ->
  (rc_started (known_call id journal) = true <-> ran_since id journal) /\
  forall o, rc_outcome (known_call id journal) = Some o <-> recorded_since id journal o.
Proof.
  intros Hid. induction journal as [|e l [IH1 IH2]] using rev_ind.
  { split; [|intros o]; (split; [done|]); intros (pre & x & post & E & _); by destruct pre. }
  rewrite ran_since_snoc. setoid_rewrite recorded_since_snoc. rewrite (known_call_snoc id l e Hid).
  unfold resets, about. cbn.
  destruct (decide (tp_ToolUseID (tool_fields (ev_Payload e)) = id)) as [Hi|Hi].
  - rewrite (bool_decide_eq_true_2 _ Hi). destruct (phase_of (ev_Type e)) as [[]|]; cbn.
    + split; [|intros o]; (split; [done|]); intros H; naive_solver.
    + split; [|intros o; rewrite IH2]; naive_solver.
    + split; [rewrite IH1|intros o]; naive_solver.
    + split; [|intros o]; (split; [done|]); intros H; naive_solver.
    + split; [rewrite IH1|intros o; rewrite IH2]; naive_solver.
  - rewrite (bool_decide_eq_false_2 _ Hi). split; [rewrite IH1|intros o; rewrite IH2]; naive_solver.
Qed.

(** The recovery code of an open call says what the journal says. It is
    OUTCOME_RECORDED exactly when, since the call was last requested, its last
    completion carries an outcome; otherwise TOOL_OUTCOME_UNKNOWN exactly when
    its execution was recorded as begun; otherwise TOOL_NOT_STARTED. A call that
    may have run is never reported as never started. *)
Theorem recovery_code_reflects_journal encode_input journal message b :
  b_ToolUseID b <> ""%string ->
  let id := b_ToolUseID b in
  let code := (recoveredToolResult encode_input
                 (declared_call message b (known_call id journal))).2 in
  (code = codeRecorded <-> exists o, recorded_since id journal o) /\
  (code = codeUnknown <-> (~ exists o, recorded_since id journal o) /\ ran_since id journal) /\
  (code = codeNotStarted <-> (~ exists o, recorded_since id journal o) /\ ~ ran_since id journal).
Proof.
  intros Hid id code. destruct (known_call_spec id journal Hid) as [Hs Ho].
  unfold code, recoveredToolResult, declared_call. cbn [rc_outcome rc_started].
  setoid_rewrite <- Ho. rewrite <- Hs.
  destruct (rc_outcome (known_call id journal)) as [o|], (rc_started (known_call id journal)); cbn;
    (split; [|split]); (split; [intros E; try discriminate E|]); naive_solver.
Qed.
