(* ===== verification/ProtocolRepairExamples.v ===== *)
(** * Protocol repair: runs

    Concrete repairs of a thread: one that completes its transcript, and one
    where a call id that the provider used twice makes the repair break it. *)

From S2P Require Import Prelude GoStd Llm Events ThreadTypes ThreadFacts ThreadStore ThreadStoreExamples ProtocolRepair ProtocolRepairProps.

Local Open Scope Z_scope.
Local Open Scope juex_scope.

Definition ex_encode (l : list (string * Json)) : option string := None.

Definition ex_use (message id : string) : Message :=
  mkMessage message RoleAssistant
    (Some [mkBlock BlockToolUse "" None id "shell" None 0 "" false "" false None None]) "" false "" None.
Definition ex_result (message id : string) : Message :=
  mkMessage message RoleUser
    (Some [mkBlock BlockToolResult "" None id "shell" None 0 "done" false "" false None None])
    MessageKindToolResult false "" None.
Definition ex_running (id : string) : Event :=
  mkEvent ("run-" ++ id) RunningType "turn-1" (ToolPayload (mkToolPayload id "shell" None 0 0 0 "m2" None)).

(** A thread with the given messages and events, and its repair. *)
Definition ex_messages (l : list Message) (events : list Event) : System :=
  ex_call (ex_io 2) (CallAppendBatch (fun _ => "m0"%string) l "turn-1" events) ex_written.
Definition ex_repair (s : System) : result ThreadError (list Repair) * World :=
  RepairProtocolTail ex_encode ex_size (ex_io 3) "repair" "restart" (ex_handle 0 s, sys_disk s).
Definition ex_history (h : Handle) : list Message := s_ProviderMessages (h_state h).
Definition ex_repairs (s : System) : list Repair :=
  match (ex_repair s).1 with
  | Ok l => l
  | Err _ => []
  end.

(** An interrupted call. *)
Definition ex_open_call : System := ex_messages [ex_use "m2" "call-1"] [ex_running "call-1"].
(** A call whose id an answered call had before. *)
Definition ex_reused : System :=
  ex_messages [ex_use "m2" "call-1"; ex_result "m3" "call-1"; ex_use "m4" "call-1"] [].

Lemma repair_completes_transcript_witness :
  ValidateToolTranscript (ex_history (ex_repair ex_open_call).2.1) = None.
Proof.
  refine (proj1 (repair_completes_transcript ex_encode ex_size (ex_io 3) "repair" "restart"
           (ex_handle 0 ex_open_call) (sys_disk ex_open_call) (ex_repairs ex_open_call)
           (ex_repair ex_open_call).2.1 (ex_repair ex_open_call).2.2 _ _)); [|by vm_compute].
  split.
  - apply checked_good. by vm_compute.
  - vm_compute. apply NoDup_singleton.
Defined.

Lemma recovery_code_reflects_journal_witness :
  (recoveredToolResult ex_encode
     (declared_call "m2" (default (textBlock "") (head (blocks (ex_use "m2" "call-1"))))
        (known_call "call-1" [ex_running "call-1"]))).2 = codeUnknown.
Proof.
  apply (recovery_code_reflects_journal ex_encode [ex_running "call-1"] "m2"
           (default (textBlock "") (head (blocks (ex_use "m2" "call-1")))) ltac:(done)).
  split.
  - intros (o & pre & e & post & E & [Hp _] & _). destruct pre as [|x [|]]; simplify_eq/=.
  - exists [], (ex_running "call-1"), []. by split_and!.
Defined.

(** A repair can break a transcript. When the provider reuses the id of an
    answered call for a call that is then interrupted, the transcript follows
    the protocol, but the repair succeeds with two results for that one open
    call, and the transcript it leaves is rejected. *)
Theorem reused_call_id_breaks_repair :
  good_history (fun _ => 0) (ex_history (ex_handle 0 ex_reused)) /\
  open_calls "call-1" (flat (ex_history (ex_handle 0 ex_reused))) = 1 /\
  map pr_ToolUseID (ex_repairs ex_reused) = ["call-1"; "call-1"]%string /\
  is_ok (ex_repair ex_reused).1 = true /\
  ValidateToolTranscript (ex_history (ex_repair ex_reused).2.1) =
    Some (UnknownToolResult "call-1" 4 1).
Proof. split; [apply checked_good|]; by vm_compute. Qed.
