(* ===== verification/ContextExamples.v ===== *)
(** * The context budget and compaction: runs

    Concrete budgets, previews and a compaction of a thread in the middle of an
    execution; they instantiate the properties of the context budget. *)

From S2P Require Import Prelude GoStd Utf8 Llm Events ContextText ThreadTypes ThreadFacts ThreadStore ThreadReplay ContextBudget ContextBudgetProps ContextCompaction ThreadStoreInv ThreadStoreOps ThreadStoreOpen ThreadStoreProps ThreadStoreRestart ThreadStoreSafety ThreadStoreExamples ProtocolRepair ProtocolRepairProps ProtocolRepairExamples.

Local Open Scope Z_scope.
Local Open Scope juex_scope.

(** Two letters of two bytes each, around text: the cut does not split them. *)
Example preview_of_runes :
  PreviewText (string_of_bytes [195; 169; 97; 98; 99; 100; 195; 169]) 0 5 =
    mkPreview (string_of_bytes [195; 169; 97]) (string_of_bytes [195; 169]) 3 3.
Proof. by vm_compute. Qed.

Example calibrated_estimate :
  Calibration_Apply (Calibration_Update (Calibration_Update None 150 100) 300 100) 1000 = 1950.
Proof. by vm_compute. Qed.

Definition ex_policy (keep : Z) : Policy :=
  EffectivePolicy (mkCompactionPolicy true "" 0 keep "" 0 0 0 0 0 0) 0 DefaultContextWindowTokens.

Lemma effective_policy_bounds_witness : pl_TriggerTokens (ex_policy 0) <= 204800.
Proof.
  apply (effective_policy_bounds (mkCompactionPolicy true "" 0 0 "" 0 0 0 0 0 0) 0
           DefaultContextWindowTokens ltac:(done) ltac:(done)).
Defined.

Lemma summary_room_largest_witness :
  match summaryRoom None 204000 (ex_policy 0) with
  | Some room => Calibration_Apply None (204000 + room) <= 204800
  | None => False
  end.
Proof.
  pose proof (summary_room_largest None 204000 (ex_policy 0) ltac:(by vm_compute)) as H.
  vm_compute in H |- *. apply H.
Defined.

(** An old exchange, and an input whose execution has called a tool. *)
Definition ex_user (id text : string) : Message :=
  mkMessage id RoleUser (Some [textBlock text]) MessageKindDirect false "" None.
Definition ex_reply : Message :=
  mkMessage "m2" RoleAssistant (Some [textBlock "hello, what can I do?"]) "" false "" None.
Definition ex_working : System :=
  ex_messages [ex_reply; ex_user "m3" "list the files"; ex_use "m4" "call-1"; ex_result "m5" "call-1"] [].

Definition ex_estimate : list Message -> Z := EstimateMessageTokens (fun _ => Some 10).
Definition ex_thread : Handle := ex_handle 0 ex_working.
Definition ex_selection : Selection :=
  SelectInputWithEstimator ex_estimate (ProviderVisibleMessages (ex_history ex_thread)) (ex_policy 15).

(** The oldest exchange is summarised, the execution is kept. *)
Example ex_selection_split :
  map m_ID (sl_SummaryInput ex_selection) = ["m1"; "m2"]%string /\
  map m_ID (sl_RetainedTail ex_selection) = ["m3"; "m4"; "m5"]%string.
Proof. by vm_compute. Qed.

Lemma ex_identified : identified (ex_history ex_thread).
Proof. split; [apply (bool_decide_unpack _); by vm_compute|vm_compute; by repeat constructor]. Qed.

Lemma compaction_splits_context_witness : exists previous work newest,
  considered (ex_history ex_thread) previous work /\ newest_inputs ex_estimate 15 work newest.
Proof.
  destruct (compaction_splits_context ex_estimate (ex_history ex_thread) (ex_policy 15)
              ex_identified ltac:(by vm_compute)) as (previous & work & newest & tail & large & Hc & Hn & _).
  exists previous, work, newest. split; [exact Hc|exact Hn].
Defined.

Definition ex_summary : Message :=
  newSummaryMessage ex_selection true "auto" "summary" "openai:gpt" [] 100 50 7.
Definition ex_compaction : result ThreadError Commit * World :=
  BeginCompactedGeneration ex_size (ex_io 4) "m6" ex_summary true None
    (ex_thread, sys_disk ex_working).
Definition ex_compacted : Handle := ex_compaction.2.1.

Lemma ex_well_kinded : well_kinded (AssembleActiveContext (ex_history ex_thread) []).
Proof.
  vm_compute. repeat (constructor; [split; [intros [?|?]; try done; (split;
    [by repeat constructor|by repeat constructor])|intros; try done; by repeat constructor]|]).
  constructor.
Qed.

Lemma compaction_continues_conversation_witness :
  ValidateToolTranscript (AssembleActiveContext (ex_history ex_compacted) []) = None.
Proof.
  refine (proj2 (proj2 (compaction_continues_conversation ex_size ex_estimate (ex_io 4) "m6"
    (ex_policy 15) true "auto" "summary" "openai:gpt" [] 100 50 7 None [] ex_thread
    (sys_disk ex_working) (match ex_compaction.1 with Ok c => c | Err _ => mkCommit 0 0 0 [] end)
    ex_compacted ex_compaction.2.2 ex_identified ex_well_kinded _ _)) _); by vm_compute.
Defined.
