(* ===== verification/SummaryText.v ===== *)
(** * The text of a summary

    [runtime/compaction_reconcile.go], the headings of
    [compaction_summary_generation.go] and [foundation/markdown/literal.go]: the
    sections of a summary that a model has written, and how modules put their own
    state into the sections they own. Lines inside fenced or indented blocks are
    text even when they look like a heading.

    The case-folding table of [unicode] is a parameter. A module reconciles its
    section with a function, as the code demands of it; the context is asked
    whether it is cancelled, and answers from an outcome for each question. *)

From Stdlib Require Import Ascii String.
From S2P Require Import Prelude GoStd Utf8 GoText Llm ContextText ThreadTypes ContextBudget SummaryRequest.

Local Open Scope Z_scope.
Local Open Scope juex_scope.

(** ** Texts *)

(** [utf8.ValidString]. *)
Fixpoint valid_runes (fuel : nat) (l : list Z) : bool :=
  match fuel, l with
  | _, [] => true
  | O, _ => false
  | S k, b :: _ =>
    let '(_, size) := decode_rune l in
    ((size =? 1)%nat && (b <? 128) || (1 <? size)%nat) && valid_runes k (drop size l)
  end.

Definition ValidString (s : text) : bool :=
  let l := bytes_of (string_of s) in valid_runes (length l) l.

Fixpoint drop_chars (p : ascii -> bool) (s : text) : text :=
  match s with
  | a :: r => if p a then drop_chars p r else s
  | [] => []
  end.

Definition drop_chars_right (p : ascii -> bool) (s : text) : text := rev (drop_chars p (rev s)).

Definition is_char (c a : ascii) : bool := bool_decide (a = c).
Definition is_line_end (a : ascii) : bool := is_char newline a || is_char carriage_return a.

(** The number of [c] at the start of [s]. *)
Fixpoint run_length (c : ascii) (s : text) : nat :=
  match s with
  | a :: r => if is_char c a then S (run_length c r) else O
  | [] => O
  end.

Definition HasSuffix (p s : text) : bool := HasPrefix (rev p) (rev s).

(** [strings.TrimSuffix(s, ":")]. *)
Definition TrimColon (s : text) : text :=
  match last s with
  | Some a => if is_char ":"%char a then removelast s else s
  | None => s
  end.

(** ** Literal blocks *)

(** The open fence and its length. *)
Definition LiteralBlocks : Type := option (ascii * nat).

Definition fence_marker (s : text) : option ascii :=
  match s with
  | a :: _ => if is_char "`"%char a || is_char "~"%char a then Some a else None
  | [] => None
  end.

Definition Literal (s : LiteralBlocks) (line : text) : bool * LiteralBlocks :=
  let trimmed := drop_chars (is_char " "%char) line in
  if (4 <=? length line - length trimmed)%nat || HasPrefix ["009"%char] trimmed then (true, s)
  else
    let marker := fence_marker trimmed in
    let count := match marker with Some a => run_length a trimmed | None => O end in
    match s with
    | Some (fence, length) =>
      if bool_decide (marker = Some fence) && (length <=? count)%nat &&
         bool_decide (Trim (drop count trimmed) = [])
      then (true, None) else (true, s)
    | None =>
      match marker with
      | Some a => if (3 <=? count)%nat then (true, Some (a, count)) else (false, None)
      | None => (false, None)
      end
    end.

Definition InFence (s : LiteralBlocks) : bool := bool_decide (s <> None).

(** ** Headings *)

Definition compactionSummaryHeadings : list string :=
  ["Tasks"; "Critical Context"; "Constraints & Preferences"; "Progress"; "Key Decisions"; "Next Steps";
   "Relevant Files"; "Tool Failures"]%string.

(** Without the [**] or [__] around it. *)
Definition strip_emphasis (s : text) : text :=
  let inside marker := Trim (take (length s - 2 * length marker) (drop (length marker) s)) in
  let marked marker := HasPrefix marker s && HasSuffix marker s && (2 * length marker <? length s)%nat in
  if marked (T "**") then inside (T "**") else if marked (T "__") then inside (T "__") else s.

Inductive ReconcileError :=
| ErrContext
| ErrDuplicate (heading : string)
| ErrUnterminated
| ErrModule (id : string)
| ErrInvalidSection (id : string)
| ErrEmptySummary
| ErrBudget (tokens limit : Z).

Record Parsed := mkParsed {
  ps_syntax : LiteralBlocks;
  ps_sections : gmap string text;
  ps_preamble : list text;
  ps_current : string;
}.

Definition nothing_parsed : Parsed := mkParsed None ∅ [] "".

Section Text.
  Context (fold : Z -> Z).

Definition canonicalSummaryHeading (line : text) (headings : list string) : option string :=
  let candidate := Trim line in
  let candidate :=
    if HasPrefix (T "#") candidate then Trim (drop_chars (is_char "#"%char) candidate) else candidate in
  let candidate := Trim (TrimColon candidate) in
  let candidate := strip_emphasis candidate in
  let candidate := Trim (TrimColon candidate) in
  List.find (EqualFold fold (string_of candidate)) headings.

(** The loop of [normalizeCompactionSummaryHeadings]. *)
Fixpoint normalize_lines (syntax : LiteralBlocks) (lines : list text) : list text :=
  match lines with
  | [] => []
  | line :: rest =>
    let '(literal, syntax) := Literal syntax line in
    (if literal then line
     else match canonicalSummaryHeading line compactionSummaryHeadings with
          | Some heading => T heading
          | None => line
          end) :: normalize_lines syntax rest
  end.

Definition normalizeCompactionSummaryHeadings (summary : text) : text :=
  Trim (JoinWith newline (normalize_lines None (SplitOn newline summary))).

(** ** Sections *)

(** The headings of a summary: the standard ones, then those of the modules. *)
Definition add_heading (headings : list string) (c : Contribution) : list string :=
  match canonicalSummaryHeading (T (ct_Section c)) headings with
  | Some _ => headings
  | None => headings ++ [ct_Section c]
  end.

Definition headings_of (state : list Contribution) : list string :=
  foldl add_heading compactionSummaryHeadings state.

Definition section (sections : gmap string text) (heading : string) : text := default [] (sections !! heading).

Definition parse_line (headings : list string) (p : Parsed) (line : text) : result ReconcileError Parsed :=
  let '(literal, syntax) := Literal (ps_syntax p) line in
  match (if literal then None else canonicalSummaryHeading line headings) with
  | Some heading =>
    match ps_sections p !! heading with
    | Some _ => Err (ErrDuplicate heading)
    | None => Ok (mkParsed syntax (<[heading := []]> (ps_sections p)) (ps_preamble p) heading)
    end
  | None =>
    if ps_current p =?s "" then Ok (mkParsed syntax (ps_sections p) (ps_preamble p ++ [line]) "")
    else
      Ok (mkParsed syntax
            (<[ps_current p := section (ps_sections p) (ps_current p) ++ line ++ [newline]]> (ps_sections p))
            (ps_preamble p) (ps_current p))
  end.

Fixpoint parse_lines (headings : list string) (p : Parsed) (lines : list text) : result ReconcileError Parsed :=
  match lines with
  | [] => Ok p
  | line :: rest => rbind (parse_line headings p line) (fun p => parse_lines headings p rest)
  end.

Definition owned_heading (headings : list string) (c : Contribution) : string :=
  default "" (canonicalSummaryHeading (T (ct_Section c)) headings).

Section Reconcile.
  Context (cancelled : nat -> bool).

(** The loop over the modules; question [n] is the next one to the context. *)
Fixpoint reconcile_parts (n : nat) (headings : list string) (state : list Contribution)
    (sections : gmap string text) : result ReconcileError (gmap string text * nat) :=
  match state with
  | [] => Ok (sections, n)
  | c :: rest =>
    let heading := owned_heading headings c in
    match ct_Reconcile c with
    | None => reconcile_parts n headings rest sections
    | Some reconcile =>
      if cancelled n then Err ErrContext
      else
        let before := drop_chars_right is_line_end (drop_chars is_line_end (section sections heading)) in
        match reconcile (string_of before) with
        | None => Err (ErrModule (ct_ModuleID c))
        | Some body =>
          if cancelled (S n) then Err ErrContext
          else if negb (ValidString (T body)) then Err (ErrInvalidSection (ct_ModuleID c))
          else reconcile_parts (S (S n)) headings rest (<[heading := T body]> sections)
        end
    end
  end.

Definition heading_lines (sections : gmap string text) (heading : string) : list text :=
  T heading ::
  match section sections heading with
  | [] => []
  | body => [drop_chars_right (is_char newline) body]
  end.

Definition render_sections (headings : list string) (preamble : list text) (sections : gmap string text) : text :=
  let intro := Trim (JoinWith newline preamble) in
  JoinWith newline ((if bool_decide (intro = []) then [] else [intro]) ++ concat (map (heading_lines sections) headings)).

(** The summary with the sections of the modules, and the next question. *)
Definition reconcile_sections (summary : text) (state : list Contribution) : result ReconcileError (text * nat) :=
  match state with
  | [] => Ok (summary, 1%nat)
  | _ =>
    let headings := headings_of state in
    rbind (parse_lines headings nothing_parsed (SplitOn newline summary)) (fun p =>
    if InFence (ps_syntax p) then Err ErrUnterminated
    else
      rbind (reconcile_parts 1 headings state (ps_sections p)) (fun '(sections, n) =>
      Ok (render_sections headings (ps_preamble p) sections, n)))
  end.

(** The code returns the summary beside a cancellation; its caller drops it. *)
Definition reconcileCompactionSummary (summary : text) (state : list Contribution) (maxTokens : Z) :
    result ReconcileError text :=
  if cancelled 0%nat then Err ErrContext
  else
    rbind (reconcile_sections summary state) (fun '(summary, n) =>
    let tokens := EstimateTextTokens (string_of summary) in
    if negb (ValidString summary) || bool_decide (Trim summary = []) then Err ErrEmptySummary
    else if (maxTokens <=? 0) || (maxTokens <? tokens) then Err (ErrBudget tokens maxTokens)
    else if cancelled n then Err ErrContext
    else Ok summary).
End Reconcile.
End Text.
