(* ===== verification/SummaryHeadings.v ===== *)
(** * Which lines of a summary are headings

    What [markdown.LiteralBlocks] and [canonicalSummaryHeading] recognise, said
    without their code: an inductive description of the lines that stand in a
    literal block, and the shapes in which a line carries a heading. *)

From Stdlib Require Import Ascii String.
From S2P Require Import Prelude GoStd GoText SummaryText.

Local Open Scope Z_scope.
Local Open Scope juex_scope.

(** ** Texts *)

Lemma string_of_T s : string_of (T s) = s.
Proof. unfold string_of, T. apply String.string_of_list_ascii_of_string. Qed.

Lemma T_string_of l : T (string_of l) = l.
Proof. unfold string_of, T. apply String.list_ascii_of_string_of_list_ascii. Qed.

Lemma string_of_inj l k : string_of l = string_of k -> l = k.
Proof. intros E. by rewrite <- (T_string_of l), <- (T_string_of k), E. Qed.

Lemma bytes_of_text l : bytes_of (string_of l) = map byte_of l.
Proof. induction l as [|a l IH]; [done|]. cbn. by rewrite <- IH. Qed.

Lemma string_of_app l k : string_of (l ++ k) = (string_of l ++ string_of k)%string.
Proof. induction l as [|a l IH]; [done|]. change (String a (string_of (l ++ k)) = String a (string_of l ++ string_of k)%string). by rewrite IH. Qed.

Lemma drop_chars_spec p s : exists l, s = l ++ drop_chars p s /\ Forall (fun a => p a = true) l /\
  forall a r, drop_chars p s = a :: r -> p a = false.
Proof.
  induction s as [|a s (l & E & Hl & Hh)]; [by exists []|]. simpl. destruct (p a) eqn:Ep.
  - exists (a :: l). simpl. rewrite <- E. split; [done|]. split; [by constructor|done].
  - exists []. split; [done|]. split; [done|]. by intros b r [= <- <-].
Qed.

Lemma drop_chars_right_spec p s : exists l, s = drop_chars_right p s ++ l /\ Forall (fun a => p a = true) l /\
  forall a r, drop_chars_right p s = r ++ [a] -> p a = false.
Proof.
  unfold drop_chars_right. destruct (drop_chars_spec p (rev s)) as (l & E & Hl & Hh). exists (rev l). split_and!.
  - by rewrite <- rev_app_distr, <- E, rev_involutive.
  - by apply Forall_rev.
  - intros a r Er. eapply (Hh a (rev r)). rewrite <- (rev_involutive (drop_chars p (rev s))), Er. by rewrite rev_app_distr.
Qed.

Lemma drop_chars_app p l s : Forall (fun a => p a = true) l -> drop_chars p (l ++ s) = drop_chars p s.
Proof. induction 1 as [|a l Ha _ IH]; [done|]. simpl. by rewrite Ha. Qed.

(** [body] without any character of [p] at its ends. *)
Definition stripped (p : ascii -> bool) (body t : text) : Prop :=
  exists before after, body = before ++ t ++ after /\
    Forall (fun a => p a = true) before /\ Forall (fun a => p a = true) after /\
    (forall a r, t = a :: r -> p a = false) /\ (forall a r, t = r ++ [a] -> p a = false).

Lemma stripped_ends p body : stripped p body (drop_chars_right p (drop_chars p body)).
Proof.
  destruct (drop_chars_spec p body) as (b & Eb & Hb & Hh).
  destruct (drop_chars_right_spec p (drop_chars p body)) as (a & Ea & Ha & Hl).
  exists b, a. rewrite <- Ea, <- Eb. split_and!; try done.
  intros c r Ec. rewrite Ec in Ea. by eapply Hh.
Qed.

(** ** Trimming *)

(** Bytes that are not ASCII letters or digits; white space is made of them. *)
Definition quiet_byte (b : Z) : Prop := ~ (48 <= b <= 57 \/ 65 <= b <= 90 \/ 97 <= b <= 122).
Definition quiet (a : ascii) : Prop := quiet_byte (byte_of a).

Lemma strip_quiet measure (Hm : forall l, Forall quiet_byte (take (measure l) l)) fuel : forall l,
  exists p, l = p ++ strip measure fuel l /\ Forall quiet_byte p.
Proof.
  induction fuel as [|fuel IH]; intros l; simpl; [by exists []|]. pose proof (Hm l) as Hq.
  destruct (measure l) as [|n]; [by exists []|]. destruct (IH (drop (S n) l)) as (p & Ep & Hp).
  exists (take (S n) l ++ p). rewrite <- app_assoc, <- Ep. by rewrite take_drop, Forall_app.
Qed.

Lemma is_space_byte_quiet b : is_space_byte b = true -> quiet_byte b.
Proof. unfold is_space_byte, quiet_byte. intros H. lia. Qed.

Lemma is_space2_quiet a b : is_space2 a b = true -> quiet_byte a /\ quiet_byte b.
Proof. unfold is_space2, quiet_byte. intros H. lia. Qed.

Lemma is_space3_quiet a b c : is_space3 a b c = true -> quiet_byte a /\ quiet_byte b /\ quiet_byte c.
Proof. unfold is_space3, quiet_byte. intros H. lia. Qed.

Lemma space_prefix_quiet l : Forall quiet_byte (take (space_prefix l) l).
Proof.
  unfold space_prefix. repeat case_match; simpl; repeat constructor;
    repeat match goal with
    | H : is_space_byte _ = true |- _ => apply is_space_byte_quiet in H
    | H : is_space2 _ _ = true |- _ => apply is_space2_quiet in H
    | H : is_space3 _ _ _ = true |- _ => apply is_space3_quiet in H
    end; tauto.
Qed.

Lemma space_suffix_quiet l : Forall quiet_byte (take (space_suffix l) l).
Proof.
  unfold space_suffix. repeat case_match; simpl; repeat constructor;
    repeat match goal with
    | H : is_space_byte _ = true |- _ => apply is_space_byte_quiet in H
    | H : is_space2 _ _ = true |- _ => apply is_space2_quiet in H
    | H : is_space3 _ _ _ = true |- _ => apply is_space3_quiet in H
    end; tauto.
Qed.

(** [word] stands in [line], with nothing but marks and spaces around it. *)
Definition inside_of (line word : text) : Prop :=
  exists before after, line = before ++ word ++ after /\ Forall quiet before /\ Forall quiet after.

Lemma inside_refl l : inside_of l l.
Proof. exists [], []. by rewrite app_nil_r. Qed.

Lemma inside_trans l k m : inside_of l k -> inside_of k m -> inside_of l m.
Proof.
  intros (b & a & -> & Hb & Ha) (b' & a' & -> & Hb' & Ha'). exists (b ++ b'), (a' ++ a).
  rewrite !Forall_app, !app_assoc. done.
Qed.

Lemma quiet_texts p : Forall is_byte p -> Forall quiet_byte p -> Forall quiet (T (string_of_bytes p)).
Proof.
  induction p as [|b p IH]; intros Hb Hq; [constructor|]. inversion_clear Hb. inversion_clear Hq.
  cbn. constructor; [|by apply IH]. unfold quiet. by rewrite byte_of_to.
Qed.

Lemma T_string_of_bytes_app p q : T (string_of_bytes (p ++ q)) = T (string_of_bytes p) ++ T (string_of_bytes q).
Proof. induction p as [|b p IH]; [done|]. exact (f_equal (cons (byte_to b)) IH). Qed.

Lemma inside_Trim l : inside_of l (Trim l).
Proof.
  destruct (strip_quiet _ space_prefix_quiet (length (bytes_of (string_of l))) (bytes_of (string_of l))) as (p & Ep & Hp).
  change (strip _ _ _) with (trim_left_bytes (bytes_of (string_of l))) in Ep.
  pose proof (strip_quiet _ space_suffix_quiet (length (trim_left_bytes (bytes_of (string_of l))))
    (rev (trim_left_bytes (bytes_of (string_of l))))) as (q & Eq & Hq).
  pose proof (bytes_of_range (string_of l)) as Hr. rewrite Ep in Hr. apply Forall_app in Hr as [Hr1 Hr2].
  apply (f_equal (@rev Z)) in Eq. rewrite rev_involutive, rev_app_distr in Eq.
  change (rev (strip _ _ _)) with (trim_right_bytes (trim_left_bytes (bytes_of (string_of l)))) in Eq.
  rewrite Eq in Hr2. apply Forall_app in Hr2 as [Hr2 Hr3].
  exists (T (string_of_bytes p)), (T (string_of_bytes (rev q))). split_and!.
  - unfold Trim, TrimSpace. rewrite <- T_string_of_bytes_app, <- Eq, <- T_string_of_bytes_app, <- Ep.
    by rewrite string_of_bytes_of, T_string_of.
  - by apply quiet_texts.
  - apply quiet_texts; [done|]. by apply Forall_rev.
Qed.

(** ** Texts that trimming leaves alone *)

Definition trim_fixed (l : text) : Prop := Trim l = l.

Lemma trimmed_ends l : trim_fixed l <-> space_prefix (map byte_of l) = 0%nat /\ space_suffix (rev (map byte_of l)) = 0%nat.
Proof.
  rewrite <- !bytes_of_text. split.
  - intros E. assert (TrimSpace (string_of l) = string_of l) as Es.
    { apply (f_equal string_of) in E. unfold Trim in E. by rewrite string_of_T in E. }
    pose proof (TrimSpace_ends (string_of l)) as H. by rewrite Es in H.
  - intros [Hp Hs]. unfold trim_fixed, Trim. rewrite TrimSpace_fixed by done. apply T_string_of.
Qed.

(** ASCII characters behind or before a text complete no white space. *)
Definition ascii_only (l : text) : Prop := Forall (fun a => byte_of a < 128) l.

Lemma ascii_byte c : c < 128 -> forall a b,
  is_space2 a c = false /\ is_space2 c a = false /\
  is_space3 a b c = false /\ is_space3 a c b = false /\ is_space3 c a b = false.
Proof. intros H a b. unfold is_space2, is_space3. repeat split; lia. Qed.

Lemma space_prefix_ascii (w k : list Z) : w <> [] -> space_prefix w = 0%nat -> (forall c r, k = c :: r -> c < 128) ->
  space_prefix (w ++ k) = 0%nat.
Proof.
  intros Hw Hp Hk. destruct k as [|c k]; [by rewrite app_nil_r|]. specialize (Hk c k eq_refl).
  destruct w as [|x [|y [|z w]]]; [done|..]; simpl in Hp |- *; destruct (is_space_byte x); try done.
  - destruct (ascii_byte c Hk x x) as (E & _). rewrite E. destruct k as [|d k]; [done|].
    destruct (ascii_byte c Hk x d) as (_ & _ & _ & E3 & _). by rewrite E3.
  - destruct (is_space2 x y); [done|]. destruct (ascii_byte c Hk x y) as (_ & _ & E3 & _). by rewrite E3.
Qed.

Lemma space_suffix_ascii (w k : list Z) : w <> [] -> space_suffix w = 0%nat -> (forall c r, k = c :: r -> c < 128) ->
  space_suffix (w ++ k) = 0%nat.
Proof.
  intros Hw Hp Hk. destruct k as [|c k]; [by rewrite app_nil_r|]. specialize (Hk c k eq_refl).
  destruct w as [|x [|y [|z w]]]; [done|..]; simpl in Hp |- *; destruct (is_space_byte x); try done.
  - destruct (ascii_byte c Hk x x) as (_ & E & _). rewrite E. destruct k as [|d k]; [done|].
    destruct (ascii_byte c Hk d x) as (_ & _ & _ & E3 & _). by rewrite E3.
  - destruct (is_space2 y x); [done|]. destruct (ascii_byte c Hk y x) as (_ & _ & _ & _ & E3). by rewrite E3.
Qed.

Lemma ascii_head l c r : ascii_only l -> map byte_of l = c :: r -> c < 128.
Proof. destruct l; [done|]. intros [H _]%Forall_cons [= <- _]. done. Qed.

Lemma trimmed_behind w k : w <> [] -> trim_fixed w -> ascii_only k ->
  (k = [] \/ exists m a, k = m ++ [a] /\ printable (byte_of a)) -> trim_fixed (w ++ k).
Proof.
  rewrite !trimmed_ends. intros Hw [Hp Hs] Hk Hl. rewrite map_app, rev_app_distr. split.
  - apply space_prefix_ascii; [by destruct w|done|]. intros c r. by apply ascii_head.
  - destruct Hl as [->|(m & a & -> & Ha)]; [done|]. rewrite map_app, rev_app_distr.
    by eapply (space_suffix_printable _ (byte_of a)).
Qed.

Lemma trimmed_before w k : w <> [] -> trim_fixed w -> ascii_only k ->
  (k = [] \/ exists m a, k = a :: m /\ printable (byte_of a)) -> trim_fixed (k ++ w).
Proof.
  rewrite !trimmed_ends. intros Hw [Hp Hs] Hk Hh. rewrite map_app, rev_app_distr. split.
  - destruct Hh as [->|(m & a & -> & Ha)]; [done|]. by eapply (space_ends_printable _ (byte_of a)).
  - apply space_suffix_ascii; [intros E%(f_equal (@rev Z)); rewrite rev_involutive in E; by destruct w|done|].
    intros c r E. assert (c ∈ rev (map byte_of k)) as H by (rewrite E; constructor).
    apply list_elem_of_In, in_rev, list_elem_of_In, list_elem_of_fmap in H as (a & -> & Ha).
    unfold ascii_only in Hk. rewrite Forall_forall in Hk. by apply Hk.
Qed.

Definition spaces (n : nat) : text := replicate n " "%char.

Lemma strip_blanks measure (Hm : forall l, measure (32 :: l) = 1%nat) l : measure l = 0%nat ->
  forall n fuel, (n <= fuel)%nat -> strip measure fuel (replicate n 32 ++ l) = l.
Proof.
  intros Hl. induction n as [|n IH]; intros [|fuel] Hf; simpl; [done| |lia|].
  - by rewrite Hl.
  - rewrite Hm. simpl. rewrite drop_0. apply IH. lia.
Qed.

Lemma rev_replicate {A} n (x : A) : rev (replicate n x) = replicate n x.
Proof.
  induction n as [|n IH]; [done|]. simpl. rewrite IH. clear IH.
  induction n as [|n IH]; [done|]. simpl. by rewrite IH.
Qed.

Lemma map_replicate {A B} (f : A -> B) n x : map f (replicate n x) = replicate n (f x).
Proof. induction n; simpl; [done|]. by f_equal. Qed.

Lemma Trim_spaces i j l : l <> [] -> trim_fixed l -> Trim (spaces i ++ l ++ spaces j) = l.
Proof.
  rewrite trimmed_ends. intros Hl [Hp Hs]. unfold Trim, TrimSpace. rewrite bytes_of_text, !map_app.
  unfold spaces. rewrite !map_replicate. change (byte_of " "%char) with 32.
  unfold trim_left_bytes. rewrite strip_blanks; [|done| |rewrite !length_app, length_replicate; lia].
  2:{ apply space_prefix_ascii; [by destruct l|done|]. intros c r E. destruct j; [done|]. by injection E as <- _. }
  unfold trim_right_bytes. rewrite rev_app_distr, rev_replicate.
  rewrite strip_blanks; [|done|done|rewrite !length_app, length_replicate; lia].
  rewrite rev_involutive, <- bytes_of_text, string_of_bytes_of. apply T_string_of.
Qed.

Lemma Trim_trimmed l : trim_fixed (Trim l).
Proof. unfold trim_fixed, Trim. by rewrite string_of_T, TrimSpace_idem. Qed.

(** ** Lines that carry a heading *)

Definition is_mark (a : ascii) : bool :=
  is_char "#"%char a || is_char ":"%char a || is_char "*"%char a || is_char "_"%char a.

(** A title as modules may have: no marks in it, no white space around it. *)
Record plain_title (w : text) : Prop := {
  pt_some : w <> [];
  pt_trimmed : trim_fixed w;
  pt_plain : Forall (fun a => is_mark a = false) w;
}.

Inductive Emphasis := Bare | Stars | Underscores.

Definition mark (e : Emphasis) : text :=
  match e with Bare => [] | Stars => T "**" | Underscores => T "__" end.

Definition colon (b : bool) : text := if b then T ":" else [].

Definition level (n : nat) : text := match n with O => [] | _ => replicate n "#"%char ++ spaces 1 end.

(** How a model writes a heading: indentation, its level, emphasis, a colon
    inside or outside of the emphasis. *)
Record Style := mkStyle {
  sy_left : nat;
  sy_right : nat;
  sy_level : nat;
  sy_emphasis : Emphasis;
  sy_inner : bool;
  sy_outer : bool;
}.

Definition dressed (e : Emphasis) (inner outer : bool) (w : text) : text :=
  mark e ++ w ++ colon inner ++ mark e ++ colon outer.

Definition styled (st : Style) (w : text) : text :=
  spaces (sy_left st) ++ (level (sy_level st) ++ dressed (sy_emphasis st) (sy_inner st) (sy_outer st) w) ++ spaces (sy_right st).

Lemma TrimColon_colon l : TrimColon (l ++ T ":") = l.
Proof. unfold TrimColon. change (T ":") with [":"%char]. rewrite last_snoc. simpl. apply removelast_last. Qed.

Lemma TrimColon_other l a : last l = Some a -> a <> ":"%char -> TrimColon l = l.
Proof. intros E Ha. unfold TrimColon, is_char. rewrite E. by rewrite bool_decide_eq_false_2. Qed.

Lemma HasPrefix_other p w c a r : w = a :: r -> a <> c -> HasPrefix (T (String c p)) w = false.
Proof. intros -> H. cbn. rewrite bool_decide_eq_false_2; [done|congruence]. Qed.

Lemma marks_differ a : is_mark a = false -> a <> "#"%char /\ a <> ":"%char /\ a <> "*"%char /\ a <> "_"%char.
Proof. unfold is_mark, is_char. intros H. repeat (apply orb_false_elim in H as [H ?]). by rewrite !bool_decide_eq_false in *. Qed.

Lemma ascii_marks e inner outer : ascii_only (colon inner ++ mark e ++ colon outer) /\ ascii_only (mark e).
Proof. destruct e, inner, outer; split; repeat constructor. Qed.

Section Styled.
  Context (w : text) (Hw : plain_title w).

Lemma title_head : exists a r, w = a :: r /\ is_mark a = false.
Proof. destruct Hw as [Hs _ Hp]. destruct w as [|a r]; [done|]. inversion_clear Hp. eauto. Qed.

Lemma title_last : exists a, last w = Some a /\ is_mark a = false.
Proof.
  destruct Hw as [Hs _ Hp]. destruct (last w) as [a|] eqn:E; [|by apply last_None in E].
  exists a. split; [done|]. rewrite Forall_forall in Hp. apply Hp. apply last_Some in E as [l ->].
  apply elem_of_app. right. constructor.
Qed.

Lemma dressed_trimmed e inner outer : trim_fixed (dressed e inner outer w).
Proof.
  destruct Hw as [Hs Ht _]. destruct (ascii_marks e inner outer) as [H1 H2]. unfold dressed.
  apply trimmed_before; [by destruct w| |done|].
  - apply trimmed_behind; [done..|]. destruct e, inner, outer; try (by left); right; cbn.
    all: first [by exists [], ":"%char | by exists (T ":"), ":"%char | by exists (T "**"), ":"%char
      | by exists (T ":**"), ":"%char | by exists (T "*"), "*"%char | by exists (T ":*"), "*"%char
      | by exists (T "__"), ":"%char | by exists (T ":__"), ":"%char | by exists (T "_"), "_"%char
      | by exists (T ":_"), "_"%char].
  - destruct e; [by left|right; by eexists _, _..].
Qed.

Lemma dressed_some e inner outer : dressed e inner outer w <> [].
Proof. destruct Hw as [Hs _ _]. unfold dressed. by destruct (mark e), w. Qed.

Lemma dressed_head e inner outer : exists a r, dressed e inner outer w = a :: r /\ a <> "#"%char.
Proof.
  destruct title_head as (a & r & -> & Ha%marks_differ). destruct e; [|by eexists _, _..].
  eexists _, _. split; [done|]. tauto.
Qed.

(** Without the colon behind the emphasis. *)
Definition uncoloned (e : Emphasis) (inner outer : bool) : text :=
  match e with
  | Bare => w ++ colon (inner && outer)
  | _ => mark e ++ w ++ colon inner ++ mark e
  end.

Lemma TrimColon_dressed e inner outer : TrimColon (dressed e inner outer w) = uncoloned e inner outer.
Proof.
  unfold dressed, uncoloned. destruct outer.
  - rewrite !app_assoc, TrimColon_colon. destruct e; [|by rewrite <- !app_assoc..]. simpl.
    by rewrite app_nil_r, andb_true_r.
  - rewrite app_nil_r. destruct e.
    + simpl. rewrite !app_nil_r, andb_false_r. destruct inner; [by rewrite app_nil_r, TrimColon_colon|].
      simpl. rewrite !app_nil_r. destruct title_last as (a & Hl & Ha%marks_differ). eapply TrimColon_other; [done|]. tauto.
    + eapply (TrimColon_other _ "*"%char); [|done]. rewrite !app_assoc. change (mark Stars) with (T "*" ++ ["*"%char]).
      by rewrite !app_assoc, last_snoc.
    + eapply (TrimColon_other _ "_"%char); [|done]. rewrite !app_assoc. change (mark Underscores) with (T "_" ++ ["_"%char]).
      by rewrite !app_assoc, last_snoc.
Qed.

Lemma coloned_trimmed b : trim_fixed (w ++ colon b).
Proof. pose proof (dressed_trimmed Bare b false) as H. unfold dressed in H. simpl in H. by rewrite app_nil_r in H. Qed.

Lemma uncoloned_trimmed e inner outer : trim_fixed (uncoloned e inner outer).
Proof.
  destruct e; [apply coloned_trimmed| |].
  - pose proof (dressed_trimmed Stars inner false) as H. unfold dressed in H. simpl colon in H. by rewrite app_nil_r in H.
  - pose proof (dressed_trimmed Underscores inner false) as H. unfold dressed in H. simpl colon in H. by rewrite app_nil_r in H.
Qed.

Lemma HasSuffix_app p s : HasSuffix p (s ++ p) = true.
Proof. unfold HasSuffix. rewrite rev_app_distr. apply HasPrefix_app. Qed.

(** The text between two marks of two characters. *)
Lemma between_marks (m s : text) : length m = 2%nat -> s <> [] ->
  HasPrefix m (m ++ s ++ m) && HasSuffix m (m ++ s ++ m) && (2 * length m <? length (m ++ s ++ m))%nat = true /\
  take (length (m ++ s ++ m) - 2 * length m) (drop (length m) (m ++ s ++ m)) = s.
Proof.
  intros Hm Hs. split.
  - rewrite HasPrefix_app, (app_assoc m s m), HasSuffix_app. simpl. rewrite !length_app, Hm.
    destruct s as [|a s]; [done|]. cbn [length]. apply Nat.ltb_lt. lia.
  - rewrite drop_app_length, !length_app, Hm. rewrite take_app_le by lia. apply take_ge. lia.
Qed.

Lemma strip_emphasis_uncoloned e inner outer :
  strip_emphasis (uncoloned e inner outer) = w ++ colon (match e with Bare => inner && outer | _ => inner end).
Proof.
  destruct title_head as (a & r & Ew & Ha%marks_differ). destruct Hw as [Hs _ _]. unfold strip_emphasis.
  assert (w ++ colon inner <> []) as Hi by (by destruct w). destruct e.
  - cbn [uncoloned]. rewrite (HasPrefix_other _ (w ++ _) "*"%char a (r ++ colon (inner && outer))) by (by rewrite Ew || tauto).
    rewrite (HasPrefix_other _ (w ++ _) "_"%char a (r ++ colon (inner && outer))) by (by rewrite Ew || tauto). done.
  - cbn [uncoloned mark]. rewrite (app_assoc w). destruct (between_marks (T "**") (w ++ colon inner)) as [-> ->]; [done..|].
    apply coloned_trimmed.
  - cbn [uncoloned mark]. rewrite (app_assoc w). rewrite (HasPrefix_other _ _ "*"%char "_"%char ("_"%char :: (w ++ colon inner) ++ T "__")) by done.
    destruct (between_marks (T "__") (w ++ colon inner)) as [-> ->]; [done..|]. apply coloned_trimmed.
Qed.

Lemma TrimColon_coloned b : TrimColon (w ++ colon b) = w.
Proof.
  destruct b; [apply TrimColon_colon|]. simpl. rewrite app_nil_r.
  destruct title_last as (a & Hl & Ha%marks_differ). eapply TrimColon_other; [done|]. tauto.
Qed.

Lemma level_trimmed n l : l <> [] -> trim_fixed l -> trim_fixed (level n ++ l) /\ level n ++ l <> [].
Proof.
  intros Hl Ht. split; [|by destruct (level n), l]. apply trimmed_before; [done..| |].
  - destruct n as [|n]; [constructor|]. apply Forall_app. split; [|by repeat constructor].
    apply Forall_replicate. done.
  - destruct n as [|n]; [by left|right]. by eexists _, _.
Qed.

(** However a title is dressed, the code finds the heading that it is. *)
Lemma styled_recognised fold st headings :
  canonicalSummaryHeading fold (styled st w) headings = List.find (EqualFold fold (string_of w)) headings.
Proof.
  destruct st as [left right n e inner outer]. unfold styled. cbn [sy_left sy_right sy_level sy_emphasis sy_inner sy_outer].
  pose proof (dressed_trimmed e inner outer) as Hd. pose proof (dressed_some e inner outer) as Hds.
  destruct (level_trimmed n _ Hds Hd) as [Hl Hls]. unfold canonicalSummaryHeading.
  rewrite Trim_spaces by done.
  assert ((if HasPrefix (T "#") (level n ++ dressed e inner outer w)
           then Trim (drop_chars (is_char "#"%char) (level n ++ dressed e inner outer w))
           else level n ++ dressed e inner outer w) = dressed e inner outer w) as ->.
  { destruct n as [|n].
    - destruct (dressed_head e inner outer) as (a & r & Ed & Ha). cbn [level]. rewrite app_nil_l.
      by rewrite (HasPrefix_other _ _ "#"%char a r).
    - cbn [level]. rewrite <- app_assoc. rewrite drop_chars_app by (apply Forall_replicate; done).
      pose proof (Trim_spaces 1 0 _ Hds Hd) as E.
      change (spaces 0) with (@nil ascii) in E. rewrite app_nil_r in E. exact E. }
  rewrite TrimColon_dressed, uncoloned_trimmed, strip_emphasis_uncoloned, TrimColon_coloned.
  destruct Hw as [_ Ht _]. by rewrite Ht.
Qed.
End Styled.

(** [line] carries the heading [h]: between marks and spaces stands a word that is
    the heading, up to case. *)
Definition carries (fold : Z -> Z) (line : text) (h : string) : Prop :=
  exists word, inside_of line word /\ EqualFold fold (string_of word) h = true.

(** A given character is quiet. *)
Ltac quiet := unfold quiet, quiet_byte;
  match goal with |- context [byte_of ?c] =>
    let v := eval vm_compute in (byte_of c) in change (byte_of c) with v
  end; lia.

Lemma inside_hashes l : inside_of l (drop_chars (is_char "#"%char) l).
Proof.
  destruct (drop_chars_spec (is_char "#"%char) l) as (p & E & Hp & _). exists p, []. rewrite app_nil_r. split_and!; [done| |constructor].
  eapply Forall_impl; [exact Hp|]. intros a ->%bool_decide_eq_true. quiet.
Qed.

Lemma inside_TrimColon l : inside_of l (TrimColon l).
Proof.
  unfold TrimColon. destruct (last l) as [a|] eqn:E; [|apply inside_refl]. unfold is_char.
  case_bool_decide as Ha; [|apply inside_refl]. apply last_Some in E as [k ->]. rewrite removelast_last.
  exists [], [a]. split_and!; [done|constructor|]. constructor; [|done]. subst. quiet.
Qed.

Lemma HasSuffix_spec p s : HasSuffix p s = true -> exists k, s = k ++ p.
Proof.
  intros [k E]%HasPrefix_prefix. exists (rev k). apply (f_equal (@rev ascii)) in E.
  by rewrite rev_app_distr, !rev_involutive in E.
Qed.

Lemma inside_marked (m s : text) : Forall quiet m -> HasPrefix m s && HasSuffix m s && (2 * length m <? length s)%nat = true ->
  inside_of s (take (length s - 2 * length m) (drop (length m) s)).
Proof.
  intros Hq [[[k ->]%HasPrefix_prefix Hs]%andb_prop Hl%Nat.ltb_lt]%andb_prop. rewrite drop_app_length.
  apply HasSuffix_spec in Hs as [j Ej]. rewrite length_app in Hl |- *.
  exists m, (drop (length m + length k - 2 * length m) k). split_and!; [by rewrite take_drop|done|].
  assert (drop (length m + length k - 2 * length m) k = m) as ->; [|done].
  assert (k = drop (length m) j ++ m) as Ek.
  { pose proof (f_equal length Ej) as El. rewrite !length_app in El.
    apply (f_equal (drop (length m))) in Ej. rewrite drop_app_length in Ej. rewrite Ej at 1. apply drop_app_le. lia. }
  rewrite Ek at 2. replace (length m + length k - 2 * length m)%nat with (length (drop (length m) j)); [apply drop_app_length|].
  apply (f_equal length) in Ek. rewrite length_app in Ek. lia.
Qed.

Lemma inside_emphasis l : inside_of l (strip_emphasis l).
Proof.
  unfold strip_emphasis. destruct (_ && _ && _) eqn:E1; [|destruct (HasPrefix (T "__") l && _ && _) eqn:E2; [|apply inside_refl]];
    (eapply inside_trans; [apply inside_marked; [|eassumption]|apply inside_Trim]);
    (constructor; [|constructor; [|done]]); quiet.
Qed.

Lemma canonical_carries fold line headings h : canonicalSummaryHeading fold line headings = Some h ->
  h ∈ headings /\ carries fold line h.
Proof.
  unfold canonicalSummaryHeading. set (c0 := Trim line). set (c1 := if HasPrefix (T "#") c0 then _ else c0).
  set (c2 := Trim (TrimColon c1)). set (c3 := Trim (TrimColon (strip_emphasis c2))).
  intros [Hin Hf]%List.find_some. split; [by apply list_elem_of_In|]. exists c3. split; [|done].
  apply (inside_trans _ c0); [apply inside_Trim|]. apply (inside_trans _ c1).
  { unfold c1. destruct (HasPrefix _ c0); [|apply inside_refl]. eapply inside_trans; [apply inside_hashes|apply inside_Trim]. }
  apply (inside_trans _ c2); [eapply inside_trans; [apply inside_TrimColon|apply inside_Trim]|].
  eapply inside_trans; [apply inside_emphasis|]. eapply inside_trans; [apply inside_TrimColon|apply inside_Trim].
Qed.

(** A line without a heading is not a heading in any of the styles. *)
Lemma not_recognised fold line headings : canonicalSummaryHeading fold line headings = None ->
  forall st w h, plain_title w -> line = styled st w -> h ∈ headings -> EqualFold fold (string_of w) h = false.
Proof.
  intros E st w h Hw -> Hh. rewrite styled_recognised in E by done.
  by apply List.find_none with (x := h) in E; [|apply list_elem_of_In].
Qed.

(** ** Literal blocks *)

(** Four spaces, or a tab behind spaces. *)
Definition indented (line : text) : Prop :=
  exists n rest, line = spaces n ++ rest /\ ((4 <= n)%nat \/ exists r, rest = "009"%char :: r).

(** A line of [n] backquotes or tildes, and what follows them. *)
Definition fence (c : ascii) (n : nat) (line rest : text) : Prop :=
  exists k, line = spaces k ++ replicate n c ++ rest /\ (c = "`"%char \/ c = "~"%char) /\ (0 < n)%nat /\
    (forall r, rest <> c :: r).

(** [stands s line literal s']: what [line] is after lines that leave the fence
    [s] open, and the fence that is open behind it. *)
Inductive stands : LiteralBlocks -> text -> bool -> LiteralBlocks -> Prop :=
| st_indented s line : indented line -> stands s line true s
| st_open line c n rest : ~ indented line -> fence c n line rest -> (3 <= n)%nat -> stands None line true (Some (c, n))
| st_text line : ~ indented line -> (forall c n rest, fence c n line rest -> (n < 3)%nat) -> stands None line false None
| st_close line c m n rest : ~ indented line -> fence c n line rest -> (m <= n)%nat -> Trim rest = [] ->
    stands (Some (c, m)) line true None
| st_inside line c m : ~ indented line ->
    (forall n rest, fence c n line rest -> (m <= n)%nat -> Trim rest <> []) -> stands (Some (c, m)) line true (Some (c, m)).

Lemma blanks_spec line : exists k, line = spaces k ++ drop_chars (is_char " "%char) line /\
  forall r, drop_chars (is_char " "%char) line <> " "%char :: r.
Proof.
  induction line as [|a line (k & E & Hh)]; [by exists 0%nat|]. simpl. unfold is_char at 1 3. case_bool_decide as Ha.
  - subst a. exists (S k). cbn. unfold spaces in E. by rewrite <- E.
  - exists 0%nat. split; [done|]. intros r [= -> _]. done.
Qed.

Lemma drop_blanks k l : drop_chars (is_char " "%char) (spaces k ++ l) = drop_chars (is_char " "%char) l.
Proof. apply drop_chars_app, Forall_replicate. done. Qed.

Lemma drop_chars_length p l : (length (drop_chars p l) <= length l)%nat.
Proof. destruct (drop_chars_spec p l) as (k & E & _). rewrite E at 2. rewrite length_app. lia. Qed.

Lemma indented_spec line :
  let trim_fixed := drop_chars (is_char " "%char) line in
  ((4 <=? length line - length trim_fixed)%nat || HasPrefix ["009"%char] trim_fixed) = true <-> indented line.
Proof.
  intros trim_fixed. rewrite orb_true_iff. split.
  - destruct (blanks_spec line) as (k & E & _). fold trim_fixed in E. intros [H%Nat.leb_le|H%HasPrefix_prefix].
    + exists k, trim_fixed. split; [done|left]. apply (f_equal length) in E. unfold spaces in E.
      rewrite length_app, length_replicate in E. lia.
    + exists k, trim_fixed. split; [done|right]. destruct H as [r ->]. by exists r.
  - intros (n & rest & E & H). unfold trim_fixed. rewrite E, drop_blanks. destruct H as [Hn|[r ->]]; [left|by right].
    apply Nat.leb_le. unfold spaces. rewrite length_app, length_replicate.
    pose proof (drop_chars_length (is_char " "%char) rest). lia.
Qed.

Lemma run_length_spec c n rest : (forall r, rest <> c :: r) -> run_length c (replicate n c ++ rest) = n.
Proof.
  intros Hr. induction n as [|n IH]; simpl.
  - destruct rest as [|a rest]; [done|]. simpl. unfold is_char. rewrite bool_decide_eq_false_2; [done|]. intros ->. by apply (Hr rest).
  - unfold is_char at 1. rewrite bool_decide_eq_true_2 by done. by rewrite IH.
Qed.

Lemma run_length_split c l : l = replicate (run_length c l) c ++ drop (run_length c l) l /\
  forall r, drop (run_length c l) l <> c :: r.
Proof.
  induction l as [|a l [IH1 IH2]]; [done|]. simpl. unfold is_char. case_bool_decide as Ha; simpl.
  - subst a. split; [by f_equal|done].
  - split; [done|]. intros r [= -> _]. done.
Qed.

Lemma fence_spec c n line rest :
  let trim_fixed := drop_chars (is_char " "%char) line in
  fence c n line rest <-> fence_marker trim_fixed = Some c /\ run_length c trim_fixed = n /\ rest = drop n trim_fixed.
Proof.
  intros trim_fixed. split.
  - intros (k & E & Hc & Hn & Hr). unfold trim_fixed. rewrite E, drop_blanks.
    destruct n as [|n]; [lia|].
    assert (drop_chars (is_char " "%char) (replicate (S n) c ++ rest) = replicate (S n) c ++ rest) as ->.
    { simpl. unfold is_char. rewrite bool_decide_eq_false_2; [done|]. by destruct Hc as [->| ->]. }
    rewrite run_length_spec by done. split_and!; [by destruct Hc as [->| ->]|done|].
    by rewrite drop_app_length' by (by rewrite length_replicate).
  - intros (Hm & Hn & ->). destruct (blanks_spec line) as (k & E & _). fold trim_fixed in E.
    destruct (run_length_split c trim_fixed) as [Hs Hr]. rewrite Hn in Hs, Hr. exists k. rewrite <- Hs. split_and!; [done| | |done].
    + unfold fence_marker, is_char in Hm. destruct trim_fixed as [|a t]; [done|]. repeat case_bool_decide; simplify_eq/=; auto.
    + subst n. unfold fence_marker in Hm. destruct trim_fixed as [|a t]; [done|]. destruct (_ || _); [|done].
      injection Hm as ->. simpl. unfold is_char. rewrite bool_decide_eq_true_2 by done. lia.
Qed.

Lemma Literal_stands s line : stands s line (Literal s line).1 (Literal s line).2.
Proof.
  unfold Literal. set (trim_fixed := drop_chars (is_char " "%char) line).
  destruct ((4 <=? length line - length trim_fixed)%nat || HasPrefix ["009"%char] trim_fixed) eqn:Ei.
  { apply indented_spec in Ei. by constructor. }
  assert (~ indented line) as Hi by (intros H%indented_spec; unfold trim_fixed in Ei; congruence).
  destruct s as [[c m]|].
  - destruct (bool_decide _ && _ && _) eqn:E.
    + apply andb_prop in E as [[Hm%bool_decide_eq_true Hn%Nat.leb_le]%andb_prop Ht%bool_decide_eq_true].
      rewrite Hm in Hn, Ht. cbn [fst snd]. eapply (st_close _ _ _ _ _ Hi); [by apply fence_spec|done..].
    + cbn [fst snd]. apply st_inside; [done|]. intros n rest (Hm & Hn & Hr)%fence_spec Hle Hb. fold trim_fixed in Hm, Hn, Hr.
      rewrite Hm, Hn in E. rewrite bool_decide_eq_true_2, (proj2 (Nat.leb_le m n)), bool_decide_eq_true_2 in E; [done|by subst|done..].
  - destruct (fence_marker trim_fixed) as [c|] eqn:Em.
    + destruct (Nat.leb_spec 3 (run_length c trim_fixed)) as [H|H]; cbn [fst snd].
      * eapply st_open; [done| |done]. by apply fence_spec.
      * apply st_text; [done|]. intros c' n rest (Hm & Hn & _)%fence_spec. fold trim_fixed in Hm, Hn. simplify_eq. lia.
    + cbn [fst snd]. apply st_text; [done|]. intros c' n rest (Hm & _)%fence_spec. fold trim_fixed in Hm. congruence.
Qed.

(** The lines of a text, each with whether it is literal. *)
Inductive reads : LiteralBlocks -> list (text * bool) -> LiteralBlocks -> Prop :=
| rd_nil s : reads s [] s
| rd_cons s line literal s' rest s'' : stands s line literal s' -> reads s' rest s'' -> reads s ((line, literal) :: rest) s''.

Lemma reads_snoc s lines s' line literal s'' : reads s lines s' -> stands s' line literal s'' ->
  reads s (lines ++ [(line, literal)]) s''.
Proof. induction 1 as [|? ? ? ? ? ? Hs _ IH]; intros H; simpl; econstructor; eauto. constructor. Qed.
