(* ===== verification/SummaryTextProps.v ===== *)
(** * The text of a summary: what modules and the model keep

    An accepted summary against a description of it that shares no code with
    [SummaryText]: the lines of the model's text with their literal blocks, the
    sections they fall into, what each module made of its section, and the lines
    that are written out. *)

From Stdlib Require Import Ascii String.
From S2P Require Import Prelude GoStd GoText ContextText ContextBudget SummaryRequest SummaryText SummaryHeadings.

Local Open Scope Z_scope.
Local Open Scope juex_scope.

(** ** Sections of a text *)

(** A line of the model's text, and whether it stands in a literal block. *)
Abbreviation line := (text * bool)%type (only parsing).

(** A line with a heading, the heading, and the lines below it. *)
Record Chunk := mkChunk { ck_line : text; ck_heading : string; ck_body : list line }.

Definition chunk_lines (c : Chunk) : list line := (ck_line c, false) :: ck_body c.
Definition body_text (l : list line) : text := concat (map (fun x => fst x ++ [newline]) l).

(** The text below [heading]. *)
Definition text_below (chunks : list Chunk) (heading : string) : text :=
  match List.find (fun c => ck_heading c =?s heading) chunks with
  | Some c => body_text (ck_body c)
  | None => []
  end.

(** A line of text: it is literal, or no heading in any style. *)
Definition plain_line (fold : Z -> Z) (headings : list string) (x : line) : Prop :=
  snd x = true \/ forall st w h, plain_title w -> fst x = styled st w -> h ∈ headings ->
                   EqualFold fold (string_of w) h = false.

(** How lines fall into an introduction and sections with different headings. *)
Record sections_of (fold : Z -> Z) (headings : list string) (lines intro : list line) (chunks : list Chunk) : Prop := {
  so_lines : lines = intro ++ concat (map chunk_lines chunks);
  so_headings : NoDup (map ck_heading chunks);
  so_carries : Forall (fun c => ck_heading c ∈ headings /\ carries fold (ck_line c) (ck_heading c)) chunks;
  so_intro : Forall (plain_line fold headings) intro;
  so_bodies : Forall (fun c => Forall (plain_line fold headings) (ck_body c)) chunks;
}.

(** ** The headings *)

(** The heading under which a module finds its section. *)
Definition home (fold : Z -> Z) (headings : list string) (c : Contribution) (h : string) : Prop :=
  List.find (EqualFold fold (ct_Section c)) headings = Some h.

(** The standard headings, and sections of modules that are none of the headings before. *)
Record headings_for (fold : Z -> Z) (state : list Contribution) (headings : list string) : Prop := {
  hf_standard : exists added, headings = compactionSummaryHeadings ++ added /\
    (forall h, h ∈ added -> h ∈ map ct_Section state) /\
    (forall i h h', added !! i = Some h -> h' ∈ compactionSummaryHeadings ++ take i added -> EqualFold fold h h' = false);
  hf_home : forall c, c ∈ state -> exists h, home fold headings c h;
}.

(** What a summary says under [h]: the answer of the module whose section it is to
    the text the model wrote there, or that text. *)
Definition says (fold : Z -> Z) (state : list Contribution) (headings : list string) (chunks : list Chunk)
    (h : string) (body : text) : Prop :=
  (exists c f given answer, c ∈ state /\ ct_Reconcile c = Some f /\ home fold headings c h /\
     stripped is_line_end (text_below chunks h) given /\ f (string_of given) = Some answer /\ body = T answer) \/
  ((forall c f, c ∈ state -> ct_Reconcile c = Some f -> ~ home fold headings c h) /\ body = text_below chunks h).

(** The lines of a section: its heading, and its body when it has one. *)
Inductive block (h : string) : text -> list text -> Prop :=
| bl_empty : block h [] [T h]
| bl_body body n : body ++ replicate n newline <> [] -> (forall r, body <> r ++ [newline]) ->
    block h (body ++ replicate n newline) [T h; body].

(** The lines of the introduction. *)
Definition opening (intro : list line) (l : list text) : Prop :=
  let text := Trim (JoinWith newline (map fst intro)) in
  (text = [] /\ l = []) \/ (text <> [] /\ l = [text]).

(** ** Parsing *)

Definition chunk_section (c : Chunk) : string * text := (ck_heading c, body_text (ck_body c)).

Definition with_line (x : line) (c : Chunk) : Chunk := mkChunk (ck_line c) (ck_heading c) (ck_body c ++ [x]).

Lemma body_text_snoc l x : body_text (l ++ [x]) = body_text l ++ fst x ++ [newline].
Proof. unfold body_text. rewrite map_app, concat_app. simpl. by rewrite app_nil_r. Qed.

Lemma section_insert sections h body : section (<[h := body]> sections) h = body.
Proof. unfold section. by rewrite lookup_insert_eq. Qed.

Lemma section_insert_ne sections h h' body : h <> h' -> section (<[h := body]> sections) h' = section sections h'.
Proof. intros Hne. unfold section. by rewrite lookup_insert_ne. Qed.

Lemma section_of_chunks chunks h : section (list_to_map (map chunk_section chunks)) h = text_below chunks h.
Proof.
  unfold text_below. induction chunks as [|c chunks IH]; [done|]. simpl. case_bool_decide as E.
  - subst h. apply section_insert.
  - by rewrite section_insert_ne.
Qed.

(** The variables of the parser after some lines. *)
Record parsed_as (fold : Z -> Z) (headings : list string) (p : Parsed) (lines intro : list line) (chunks : list Chunk) : Prop := {
  pa_sections : sections_of fold headings lines intro chunks;
  pa_reads : reads None lines (ps_syntax p);
  pa_preamble : ps_preamble p = map fst intro;
  pa_map : ps_sections p = list_to_map (map chunk_section chunks);
  pa_current : ps_current p = default ""%string (ck_heading <$> last chunks);
}.

Section Parse.
  Context (fold : Z -> Z) (headings : list string) (Hne : ""%string ∉ headings).

Lemma keys_of chunks : (map chunk_section chunks).*1 = map ck_heading chunks.
Proof. induction chunks as [|c l IH]; [done|]. simpl. by rewrite <- IH. Qed.

Lemma current_named p lines intro chunks c : parsed_as fold headings p lines intro (chunks ++ [c]) ->
  ps_current p = ck_heading c /\ ps_current p <> ""%string.
Proof.
  intros [[_ _ Hc _ _] _ _ _ ->]. rewrite last_snoc. simpl. split; [done|]. intros E.
  apply Forall_app in Hc as [_ Hc]. rewrite Forall_singleton, E in Hc. tauto.
Qed.

(** A line with a new heading. *)
Lemma parse_heading p lines intro chunks x h syntax : parsed_as fold headings p lines intro chunks ->
  stands (ps_syntax p) x false syntax -> canonicalSummaryHeading fold x headings = Some h -> ps_sections p !! h = None ->
  parsed_as fold headings (mkParsed syntax (<[h := []]> (ps_sections p)) (ps_preamble p) h)
    (lines ++ [(x, false)]) intro (chunks ++ [mkChunk x h []]).
Proof.
  intros [[Hl Hn Hc Hi Hb] Hr Hp Hm _] Hx Hh Hold.
  assert (h ∉ map ck_heading chunks) as Hnew.
  { rewrite Hm in Hold. apply not_elem_of_list_to_map in Hold. by rewrite keys_of in Hold. }
  split; [split| | | |]; cbn [ps_syntax ps_sections ps_preamble ps_current].
  - rewrite Hl, map_app, concat_app. simpl. by rewrite <- app_assoc.
  - rewrite map_app. apply NoDup_app. split; [done|]. split; [|apply NoDup_singleton].
    intros y Hy ->%list_elem_of_singleton. done.
  - apply Forall_app. split; [done|]. constructor; [|done]. by apply canonical_carries.
  - done.
  - apply Forall_app. split; [done|]. by repeat constructor.
  - by eapply reads_snoc.
  - done.
  - rewrite map_app, Hm. simpl. symmetry. apply list_to_map_snoc. by rewrite keys_of.
  - by rewrite last_snoc.
Qed.

(** A line of text. *)
Lemma parse_text p lines intro chunks x literal syntax : parsed_as fold headings p lines intro chunks ->
  stands (ps_syntax p) x literal syntax -> plain_line fold headings (x, literal) ->
  exists intro' chunks', parsed_as fold headings
    (if ps_current p =?s "" then mkParsed syntax (ps_sections p) (ps_preamble p ++ [x]) ""
     else mkParsed syntax (<[ps_current p := section (ps_sections p) (ps_current p) ++ x ++ [newline]]> (ps_sections p))
            (ps_preamble p) (ps_current p))
    (lines ++ [(x, literal)]) intro' chunks'.
Proof.
  intros Hp Hx Hplain. pose proof Hp as [[Hl Hn Hc Hi Hb] Hr Hpre Hm Hcur].
  destruct chunks as [|c chunks _] using rev_ind.
  - rewrite Hcur. exists (intro ++ [(x, literal)]), []. simpl. split; [split|..]; try done; try constructor.
    + rewrite Hl. simpl. by rewrite !app_nil_r.
    + apply Forall_app. split; [done|]. by apply Forall_singleton.
    + by eapply reads_snoc.
    + cbn. by rewrite Hpre, map_app.
  - destruct (current_named _ _ _ _ _ Hp) as [Hcc Hnc]. rewrite bool_decide_eq_false_2 by done.
    exists intro, (chunks ++ [with_line (x, literal) c]).
    rewrite map_app in Hn. apply NoDup_app in Hn as (Hn1 & Hn2 & Hn3).
    assert (ck_heading c ∉ map ck_heading chunks) as Hout.
    { intros Hin. eapply Hn2; [exact Hin|]. by apply list_elem_of_singleton. }
    split; [split| | | |]; cbn [ps_syntax ps_sections ps_preamble ps_current].
    + rewrite Hl, !map_app, !concat_app. simpl. unfold chunk_lines. simpl. by rewrite !app_nil_r, <- !app_assoc.
    + rewrite map_app. apply NoDup_app. by split.
    + apply Forall_app in Hc as [? Hc]. apply Forall_app. split; [done|]. rewrite Forall_singleton in Hc. by constructor.
    + done.
    + apply Forall_app in Hb as [? Hb]. apply Forall_app. split; [done|]. rewrite Forall_singleton in Hb.
      constructor; [|done]. apply Forall_app. split; [done|]. by apply Forall_singleton.
    + by eapply reads_snoc.
    + done.
    + rewrite Hcc, Hm, !map_app. cbn [map].
      change (chunk_section (with_line (x, literal) c)) with (ck_heading c, body_text (ck_body c ++ [(x, literal)])).
      change (chunk_section c) with (ck_heading c, body_text (ck_body c)).
      rewrite list_to_map_snoc by (by rewrite keys_of). rewrite (list_to_map_snoc _ (ck_heading c)) by (by rewrite keys_of).
      rewrite section_insert, insert_insert_eq. by rewrite body_text_snoc.
    + rewrite last_snoc, Hcc. done.
Qed.

Lemma parse_line_step p lines intro chunks x p' : parsed_as fold headings p lines intro chunks ->
  parse_line fold headings p x = Ok p' ->
  exists literal intro' chunks', parsed_as fold headings p' (lines ++ [(x, literal)]) intro' chunks'.
Proof.
  intros Hp E. unfold parse_line in E. pose proof (Literal_stands (ps_syntax p) x) as Hx.
  destruct (Literal (ps_syntax p) x) as [literal syntax]. cbn [fst snd] in Hx. exists literal.
  destruct literal.
  - destruct (parse_text _ _ _ _ _ _ _ Hp Hx) as (intro' & chunks' & Hp'); [by left|].
    exists intro', chunks'. destruct (ps_current p =?s ""); by injection E as <-.
  - destruct (canonicalSummaryHeading fold x headings) as [h|] eqn:Eh.
    + destruct (ps_sections p !! h) eqn:Eold; [done|]. injection E as <-. eexists _, _. by eapply parse_heading.
    + destruct (parse_text _ _ _ _ _ _ _ Hp Hx) as (intro' & chunks' & Hp').
      { right. cbn [fst]. by apply not_recognised. }
      exists intro', chunks'. destruct (ps_current p =?s ""); by injection E as <-.
Qed.

Lemma parse_lines_spec texts : forall p lines intro chunks p', parsed_as fold headings p lines intro chunks ->
  parse_lines fold headings p texts = Ok p' ->
  exists more intro' chunks', map fst more = texts /\ parsed_as fold headings p' (lines ++ more) intro' chunks'.
Proof.
  induction texts as [|x texts IH]; intros p lines intro chunks p' Hp E; cbn [parse_lines] in E.
  - injection E as <-. exists [], intro, chunks. by rewrite app_nil_r.
  - destruct (parse_line fold headings p x) as [p1|] eqn:E1; [|done]. cbn [rbind] in E.
    destruct (parse_line_step _ _ _ _ _ _ Hp E1) as (literal & intro1 & chunks1 & Hp1).
    destruct (IH _ _ _ _ _ Hp1 E) as (more & intro' & chunks' & Em & Hp'). exists ((x, literal) :: more), intro', chunks'.
    rewrite <- app_assoc in Hp'. simpl. by rewrite Em.
Qed.

Lemma parse_spec texts p : parse_lines fold headings nothing_parsed texts = Ok p -> InFence (ps_syntax p) = false ->
  exists lines intro chunks, map fst lines = texts /\ reads None lines None /\
    sections_of fold headings lines intro chunks /\ ps_preamble p = map fst intro /\
    forall h, section (ps_sections p) h = text_below chunks h.
Proof.
  intros E Ef. assert (parsed_as fold headings nothing_parsed [] [] []) as H0.
  { split; [split|..]; done || constructor. }
  destruct (parse_lines_spec _ _ _ _ _ _ H0 E) as (lines & intro & chunks & El & [Hs Hr Hp Hm _]).
  exists lines, intro, chunks. split; [done|]. unfold InFence in Ef. apply bool_decide_eq_false, dec_stable in Ef.
  rewrite Ef in Hr. split_and!; [done..|]. intros h. rewrite Hm. apply section_of_chunks.
Qed.
End Parse.

(** ** Headings *)

Lemma canonical_title fold s headings : plain_title (T s) ->
  canonicalSummaryHeading fold (T s) headings = List.find (EqualFold fold s) headings.
Proof.
  intros Hs. pose proof (styled_recognised (T s) Hs fold (mkStyle 0 0 0 Bare false false) headings) as H.
  rewrite string_of_T in H. rewrite <- H. f_equal. unfold styled, dressed. simpl. by rewrite !app_nil_r.
Qed.

Lemma find_app {A} (f : A -> bool) l k : List.find f (l ++ k) = match List.find f l with Some x => Some x | None => List.find f k end.
Proof. induction l as [|x l IH]; [done|]. simpl. by destruct (f x). Qed.

Lemma EqualFold_self fold s : EqualFold fold s s = true.
Proof. unfold EqualFold. by apply bool_decide_eq_true. Qed.

Section Headings.
  Context (fold : Z -> Z).

Lemma add_headings state : forall before, Forall (fun c => plain_title (T (ct_Section c))) state ->
  exists added, foldl (add_heading fold) before state = before ++ added /\
    (forall h, h ∈ added -> h ∈ map ct_Section state) /\
    (forall i h h', added !! i = Some h -> h' ∈ before ++ take i added -> EqualFold fold h h' = false) /\
    (forall c, c ∈ state -> exists h, home fold (before ++ added) c h).
Proof.
  induction state as [|c state IH]; intros before Hs.
  { exists []. rewrite app_nil_r. split_and!; [done|set_solver|done|]. by intros c ?%elem_of_nil. }
  apply Forall_cons in Hs as [Hc Hs]. destruct (IH (add_heading fold before c) Hs) as (added & E & Hin & Hnew & Hhome).
  simpl. rewrite E. unfold add_heading in E, Hnew, Hhome |- *. rewrite canonical_title in E, Hnew, Hhome |- * by done.
  destruct (List.find _ before) as [h|] eqn:Ef.
  - exists added. split_and!; [done|by intros h' Hh; right; apply Hin|done|].
    intros d [->|Hd]%elem_of_cons; [|by apply Hhome]. exists h. unfold home. by rewrite find_app, Ef.
  - exists (ct_Section c :: added). rewrite <- app_assoc in Hhome |- *. split_and!; [done| | |].
    + intros h [->|Hh]%elem_of_cons; [by left|by right; apply Hin].
    + intros [|i] h h' Hi Hh'; simpl in Hi, Hh'.
      * injection Hi as <-. rewrite app_nil_r in Hh'. by apply List.find_none with (x := h') in Ef; [|apply list_elem_of_In].
      * eapply Hnew; [done|]. by rewrite <- app_assoc.
    + intros d [->|Hd]%elem_of_cons; [|by apply Hhome]. exists (ct_Section c). unfold home.
      rewrite find_app, Ef. simpl. by rewrite EqualFold_self.
Qed.

Lemma headings_of_spec state : Forall (fun c => plain_title (T (ct_Section c))) state ->
  headings_for fold state (headings_of fold state) /\ ""%string ∉ headings_of fold state.
Proof.
  intros Hs. destruct (add_headings state compactionSummaryHeadings Hs) as (added & E & Hin & Hnew & Hhome).
  unfold headings_of. rewrite E. split; [split; [by exists added|done]|].
  intros [H|H]%elem_of_app; [unfold compactionSummaryHeadings in H; set_solver|].
  apply Hin, list_elem_of_fmap in H as (c & Ec & Hc). rewrite Forall_forall in Hs. destruct (Hs c Hc) as [Hne _ _].
  rewrite <- Ec in Hne. done.
Qed.

Lemma home_owned headings c h : plain_title (T (ct_Section c)) -> home fold headings c h -> owned_heading fold headings c = h.
Proof. intros Hc Hh. unfold owned_heading. rewrite canonical_title by done. unfold home in Hh. by rewrite Hh. Qed.
End Headings.

(** ** The sections of modules *)

(** The modules that write their own section. *)
Definition reconciles (c : Contribution) : bool := bool_decide (ct_Reconcile c <> None).

Section Reconcile.
  Context (fold : Z -> Z) (cancelled : nat -> bool) (headings : list string).

Local Abbreviation owned state := (map (owned_heading fold headings) (filter reconciles state)).
Local Abbreviation given body := (drop_chars_right is_line_end (drop_chars is_line_end body)).

Lemma owned_cons c state :
  owned (c :: state) = match ct_Reconcile c with Some _ => [owned_heading fold headings c] | None => [] end ++ owned state.
Proof.
  rewrite filter_cons. destruct (decide (reconciles c)) as [H|H]; unfold reconciles in H; by destruct (ct_Reconcile c).
Qed.

Lemma in_owned c state f : c ∈ state -> ct_Reconcile c = Some f -> owned_heading fold headings c ∈ owned state.
Proof.
  intros Hc Hf. apply list_elem_of_fmap. exists c. split; [done|]. apply list_elem_of_filter. split; [|done].
  unfold reconciles. by rewrite Hf.
Qed.

Lemma reconcile_parts_spec state : forall n sections out m, NoDup (owned state) ->
  reconcile_parts fold cancelled n headings state sections = Ok (out, m) ->
  (forall h, h ∉ owned state -> section out h = section sections h) /\
  (forall c f, c ∈ state -> ct_Reconcile c = Some f -> exists body,
     f (string_of (given (section sections (owned_heading fold headings c)))) = Some body /\
     section out (owned_heading fold headings c) = T body).
Proof.
  induction state as [|c state IH]; intros n sections out m Hnd E; cbn [reconcile_parts] in E.
  { injection E as <- <-. split; [done|]. by intros ? ? ?%elem_of_nil. }
  rewrite owned_cons in Hnd |- *. destruct (ct_Reconcile c) as [f|] eqn:Ef; simpl in Hnd |- *.
  - apply NoDup_cons in Hnd as [Hnew Hnd]. destruct (cancelled n); [done|].
    destruct (f _) as [body|] eqn:Eb; [|done]. destruct (cancelled (S n)); [done|].
    destruct (negb (ValidString (T body))); [done|]. apply IH in E as [Hrest Hin]; [|done].
    split.
    + intros h [Hh1 Hh2]%not_elem_of_cons. rewrite Hrest by done. by apply section_insert_ne.
    + intros d g [->|Hd]%elem_of_cons Hg.
      * rewrite Ef in Hg. injection Hg as <-. exists body. split; [done|].
        rewrite Hrest by done. apply section_insert.
      * destruct (Hin d g Hd Hg) as (body' & Hb & Ho). exists body'. split; [|done].
        rewrite section_insert_ne in Hb; [done|]. intros Heq. apply Hnew. rewrite Heq. by eapply in_owned.
  - apply IH in E as [Hrest Hin]; [|done]. split; [done|].
    intros d g [->|Hd]%elem_of_cons Hg; [congruence|]. by apply Hin.
Qed.
End Reconcile.

(** No two modules own the same section, up to case. *)
Definition owners_differ (fold : Z -> Z) (state : list Contribution) : Prop :=
  forall i j c d, filter reconciles state !! i = Some c -> filter reconciles state !! j = Some d ->
    EqualFold fold (ct_Section c) (ct_Section d) = true -> i = j.

Lemma owned_differ fold state headings : Forall (fun c => plain_title (T (ct_Section c))) state ->
  headings_for fold state headings -> owners_differ fold state ->
  NoDup (map (owned_heading fold headings) (filter reconciles state)).
Proof.
  intros Hs [_ Hhome] Hd. apply NoDup_alt. intros i j h Hi Hj.
  rewrite list_lookup_fmap in Hi, Hj.
  destruct (filter reconciles state !! i) as [c|] eqn:Ec; [|done]. destruct (filter reconciles state !! j) as [d|] eqn:Ed; [|done].
  injection Hi as Hi. injection Hj as Hj. rewrite Forall_forall in Hs.
  assert (c ∈ state) as Hcs by (by apply list_elem_of_lookup_2, list_elem_of_filter in Ec as [_ ?]).
  assert (d ∈ state) as Hds by (by apply list_elem_of_lookup_2, list_elem_of_filter in Ed as [_ ?]).
  destruct (Hhome c Hcs) as [hc Hc]. destruct (Hhome d Hds) as [hd Hdh].
  rewrite (home_owned _ _ _ hc) in Hi by auto. rewrite (home_owned _ _ _ hd) in Hj by auto. subst hc hd.
  eapply Hd; [done..|]. unfold home in Hc, Hdh. apply List.find_some in Hc as [_ Hc]. apply List.find_some in Hdh as [_ Hdh].
  unfold EqualFold in *. apply bool_decide_eq_true in Hc, Hdh. apply bool_decide_eq_true. congruence.
Qed.

(** ** Writing *)

Lemma heading_lines_block sections h : block h (section sections h) (heading_lines sections h).
Proof.
  unfold heading_lines. destruct (section sections h) as [|a body] eqn:E; [constructor|].
  destruct (drop_chars_right_spec (is_char newline) (a :: body)) as (l & El & Hl & Hend).
  assert (l = replicate (length l) newline) as El'.
  { clear El Hend. induction Hl as [|b l Hb _ IH]; [done|]. apply bool_decide_eq_true in Hb. subst b. simpl. by f_equal. }
  rewrite El at 1. rewrite El'. apply bl_body.
  - by rewrite <- El', <- El.
  - intros r Er. apply Hend in Er. by apply bool_decide_eq_false in Er.
Qed.

Lemma opening_spec intro :
  opening intro (if bool_decide (Trim (JoinWith newline (map fst intro)) = []) then [] else [Trim (JoinWith newline (map fst intro))]).
Proof. unfold opening. case_bool_decide; auto. Qed.

Lemma reconcile_within fold cancelled summary state maxTokens out :
  reconcileCompactionSummary fold cancelled summary state maxTokens = Ok out ->
  Trim out <> [] /\ EstimateTextTokens (string_of out) <= maxTokens /\
  exists n, reconcile_sections fold cancelled summary state = Ok (out, n).
Proof.
  intros E. unfold reconcileCompactionSummary in E. destruct (cancelled 0%nat); [done|].
  destruct (reconcile_sections fold cancelled summary state) as [[out' n]|]; [|done]. cbn [rbind] in E.
  destruct (_ || _) eqn:Et in E; [done|]. destruct ((maxTokens <=? 0) || _) eqn:Eb; [done|].
  destruct (cancelled n); [done|]. injection E as ->. apply orb_false_elim in Eb as [_ Hb%Z.ltb_ge].
  apply orb_false_elim in Et as [_ Ht%bool_decide_eq_false]. eauto.
Qed.

(** What [reconcile_sections] writes, as [says] and [block] describe it. *)
Lemma reconcile_sections_spec fold cancelled summary state out n :
  state <> [] -> Forall (fun c => plain_title (T (ct_Section c))) state -> owners_differ fold state ->
  reconcile_sections fold cancelled summary state = Ok (out, n) ->
  exists lines intro chunks headings start parts,
    map fst lines = SplitOn newline summary /\ reads None lines None /\
    headings_for fold state headings /\ sections_of fold headings lines intro chunks /\
    opening intro start /\
    Forall2 (fun h part => exists body, says fold state headings chunks h body /\ block h body part) headings parts /\
    out = JoinWith newline (start ++ concat parts).
Proof.
  intros Hne Hs Hd E. destruct (headings_of_spec fold state Hs) as [Hh Hempty].
  unfold reconcile_sections in E. destruct state as [|c0 state0] eqn:Estate; [done|]. rewrite <- Estate in *. clear Hne.
  set (headings := headings_of fold state) in *.
  destruct (parse_lines fold headings nothing_parsed _) as [p|] eqn:Ep; [|done]. cbn [rbind] in E.
  destruct (InFence (ps_syntax p)) eqn:Ef; [done|].
  destruct (reconcile_parts _ _ _ _ _ _) as [[sections m]|] eqn:Ec; [|done]. cbn [rbind] in E. injection E as <- <-.
  destruct (parse_spec fold headings Hempty _ _ Ep Ef) as (lines & intro & chunks & El & Hr & Hsec & Hpre & Hbelow).
  apply reconcile_parts_spec in Ec as [Hrest Hin]; [|by apply owned_differ].
  eexists lines, intro, chunks, headings, _, (map (heading_lines sections) headings).
  split_and!; [done|done|done|done|apply opening_spec| |by rewrite <- Hpre].
  apply Forall2_fmap_r, Forall2_same_length_lookup_2; [done|]. intros i h h' Hi Hi'. rewrite Hi in Hi'. injection Hi' as <-.
  exists (section sections h). split; [|apply heading_lines_block]. rewrite Forall_forall in Hs.
  destruct (decide (h ∈ map (owned_heading fold headings) (filter reconciles state))) as [Ho|Ho].
  - left. apply list_elem_of_fmap in Ho as (c & -> & [Hrc Hc]%list_elem_of_filter). unfold reconciles in Hrc.
    destruct (ct_Reconcile c) as [f|] eqn:Efc; [|done]. destruct (Hin c f Hc Efc) as (answer & Ha & Hbody).
    destruct (hf_home _ _ _ Hh c Hc) as [hc Hhc]. rewrite (home_owned fold headings c hc) in * by auto.
    rewrite Hbelow in Ha. eexists c, f, _, answer. split_and!; [done..|apply stripped_ends|done|done].
  - right. split; [|by rewrite Hrest, Hbelow]. intros c f Hc Hf Hhc. apply Ho.
    rewrite <- (home_owned fold headings c h) by auto. by eapply in_owned.
Qed.

(** C24: the summary that a compaction keeps says of each module what the module
    itself says. Titles of sections have no marks and no white space around them,
    as the collection of the modules' state demands, and no two modules own the
    same section up to case ([folded_sections_collide] is a run that shows what
    happens otherwise). If a summary is accepted, it is not blank and within the
    budget. Without modules it is the text of the model. With modules, that text
    falls into lines with all their literal blocks closed, an introduction and
    sections, no heading twice and no line lost: the first line of a section is
    not literal and carries the heading, and every other line is literal or no
    heading in any of the styles a model writes. What is written is the
    introduction without white space around it and, for each of the standard
    headings and those of the modules, the heading and its body without line ends
    at its end. The body is exactly what the module answered that owns the section
    and was given the model's text of it; in the sections of no module, the
    model's text. *)
Theorem module_sections_are_exact fold cancelled summary state maxTokens out :
  Forall (fun c => plain_title (T (ct_Section c))) state -> owners_differ fold state ->
  reconcileCompactionSummary fold cancelled summary state maxTokens = Ok out ->
  Trim out <> [] /\ EstimateTextTokens (string_of out) <= maxTokens /\
  (state = [] -> out = summary) /\
  (state <> [] -> exists lines intro chunks headings start parts,
     map fst lines = SplitOn newline summary /\ reads None lines None /\
     headings_for fold state headings /\ sections_of fold headings lines intro chunks /\
     opening intro start /\
     Forall2 (fun h part => exists body, says fold state headings chunks h body /\ block h body part) headings parts /\
     out = JoinWith newline (start ++ concat parts)).
Proof.
  intros Hs Hd E. apply reconcile_within in E as (Ht & Hb & n & E). split_and!; [done|done| |].
  - intros ->. by injection E as ->.
  - intros Hne. by eapply reconcile_sections_spec.
Qed.

(** ** Runs *)

(** [unicode.SimpleFold] on ASCII and the long s. *)
Definition ex_fold (r : Z) : Z := if r =? 383 then 115 else fold_ascii r.

Definition ex_module (id section body : string) : Contribution :=
  mkContribution id "{}" "keep it" section (Some (fun _ => Some body)).

Local Definition ex_lines (l : list string) : text := JoinWith newline (map T l).

Definition ex_summary : text :=
  ex_lines ["Here it is"; "## Tasks:"; "- mine"; "Progress"; "```"; "Next Steps"; "```"; "__next steps__"; "none"]%string.

Local Abbreviation ex_reconciled :=
  (reconcileCompactionSummary ex_fold (fun _ => false) ex_summary [ex_module "tasks" "Tasks" "- [ ] one"] 100).

(** The heading in the fence is text; the module's tasks replace the model's. *)
Example summary_reconciled : ex_reconciled = Ok (ex_lines
  ["Here it is"; "Tasks"; "- [ ] one"; "Critical Context"; "Constraints & Preferences"; "Progress"; "```"; "Next Steps";
   "```"; "Key Decisions"; "Next Steps"; "none"; "Relevant Files"; "Tool Failures"]%string).
Proof. vm_compute. reflexivity. Qed.

(** Sections that differ in case only under folding: [CollectCompactionContributions]
    compares them in lower case and accepts both, and the second module
    overwrites what the first has written. *)
Example folded_sections_collide :
  reconcileCompactionSummary ex_fold (fun _ => false) (T "nothing")
    [ex_module "a" "Notes" "of a"; ex_module "b" "Noteſ" "of b"] 100 =
  Ok (ex_lines ["nothing"; "Tasks"; "Critical Context"; "Constraints & Preferences"; "Progress"; "Key Decisions";
    "Next Steps"; "Relevant Files"; "Tool Failures"; "Notes"; "of b"]%string).
Proof. vm_compute. reflexivity. Qed.

Lemma module_sections_are_exact_witness : exists out start parts,
  ex_reconciled = Ok out /\ out = JoinWith newline (start ++ concat parts) /\ EstimateTextTokens (string_of out) <= 100.
Proof.
  exists (match ex_reconciled with Ok out => out | Err _ => [] end).
  destruct (module_sections_are_exact ex_fold (fun _ => false) ex_summary [ex_module "tasks" "Tasks" "- [ ] one"] 100
    (match ex_reconciled with Ok out => out | Err _ => [] end)) as (_ & Hb & _ & Hout).
  - constructor; [|done]. split; [done|vm_compute; reflexivity|]. by repeat constructor.
  - intros [|i] [|j] c d Hi Hj _; [done|..]; by destruct_or?; vm_compute in Hi, Hj.
  - vm_compute. reflexivity.
  - destruct Hout as (lines & intro & chunks & headings & start & parts & _ & _ & _ & _ & _ & _ & Ho); [done|].
    exists start, parts. split; [vm_compute; reflexivity|]. split; [exact Ho|exact Hb].
Defined.
