(* ===== verification/SummaryGeneration.v ===== *)
(** * The generation of a summary

    [runtime/compaction_summary_generation.go] and the candidates of
    [compact.go]: a summary is asked of a chain of models, over the breaker of
    [ModelHealth] that the turns of the process share. The request is built to fit
    the budget of the candidate ([SummaryRequest]); an answer that is empty, cut
    off or too long is asked for once more, with instructions that say why; then
    the next candidate is tried. An answer that is accepted has the sections of
    the modules in it ([SummaryText]).

    As in [ModelFallback], what other turns do to the breaker, the answers of the
    providers and the outcomes of commits are inputs: [RoundIo] for a candidate,
    [CallIo] for a call. The identifier and the encoded size of a message are
    parameters. *)

From Stdlib Require Import Ascii String.
From S2P Require Import Prelude GoStd Utf8 GoText Llm ContextText ThreadTypes ContextBudget ModelHealth ModelFallback SummaryRequest SummaryText.

Local Open Scope Z_scope.
Local Open Scope juex_scope.

(** ** Responses *)

Definition StopMaxTokens : string := "max_tokens".

(** [llm.Response], without its usage. *)
Record Response := mkResponse {
  re_Message : Message;
  re_StopReason : string;
}.

Local Definition nl : string := String newline "".

(** The loop of [responseText]. *)
Definition add_text (text : string) (b : Block) : string :=
  if bool_decide (b_Type b = BlockText)
  then (if text =?s "" then b_Text b else text ++ nl ++ b_Text b)%string
  else text.

Definition responseText (m : Message) : string := foldl add_text ""%string (blocks m).

Definition compactionSummaryText (resp : Response) : string := TrimSpace (responseText (re_Message resp)).

(** The loop of [compactionResponseReasoningOnly]. *)
Fixpoint reasoning_only (seen : bool) (l : list Block) : bool :=
  match l with
  | [] => seen
  | b :: rest =>
    match b_Type b with
    | BlockReasoning => reasoning_only true rest
    | BlockText => if TrimSpace (b_Text b) =?s "" then reasoning_only seen rest else false
    | _ => false
    end
  end.

Definition compactionResponseReasoningOnly (m : Message) : bool := reasoning_only false (blocks m).

(** ** Errors *)

(** What may be wrong with an attempt; [ErrSummaryBudget] is a
    [compactionSummaryBudgetError]. *)
Inductive AttemptError :=
| ErrBuild (e : FitError)
| ErrRequestFit (input output budget window : Z)
| ErrProvider (text : string)
| ErrSummaryBudget (tokens limit : Z)
| ErrTruncated (stop : string)
| ErrEmpty.

Inductive SummaryError :=
| ErrNoCandidates
| ErrChain (failures : list (string * AttemptError)) (skipped : list ModelHealthSkip)
| ErrJournal
| ErrValidation (e : ReconcileError)
| ErrRetryCommit
| ErrFallbackCommit
| ErrCancelled
| ErrAttempt (e : AttemptError)
| ErrPanic.

Definition truncated (resp : Response) : bool :=
  (re_StopReason resp =?s StopMaxTokens) && (compactionSummaryText resp <>?s "").

Definition compactionSummaryAttemptError (resp : Response) (err : option AttemptError) : AttemptError :=
  match err with
  | Some e => e
  | None => if truncated resp then ErrTruncated (re_StopReason resp) else ErrEmpty
  end.

Definition budget_text (tokens limit : Z) : string :=
  ("protected compaction summary exceeds budget: " ++ Itoa tokens ++ " tokens, limit " ++ Itoa limit)%string.

(** [compactionSummaryFailure] of an answer that was not accepted: its error is
    nil or one of the budget. *)
Definition compactionSummaryFailure (resp : Response) (budget : option (Z * Z)) : string :=
  match budget with
  | Some (tokens, limit) => budget_text tokens limit
  | None =>
    if truncated resp then ("truncated summary (stop_reason=" ++ re_StopReason resp ++ ")")%string
    else
      ("empty summary (stop_reason=" ++ re_StopReason resp ++ ", reasoning_only="
       ++ bool_text (compactionResponseReasoningOnly (re_Message resp)) ++ ")")%string
  end.

Definition compactionSummaryRetryReason (resp : Response) (budget : option (Z * Z)) : string :=
  match budget with
  | Some _ => "summary_budget"
  | None =>
    if (compactionSummaryText resp <>?s "") && (re_StopReason resp =?s StopMaxTokens) then "max_tokens"
    else "empty_summary"
  end.

Definition mergeCompactInstructions (parts : list string) : string :=
  String.concat (nl ++ nl) (filter (fun p => p <> ""%string) (map TrimSpace parts)).

Definition compactionSummaryRetryInstructions (instructions : string) (resp : Response)
    (budget : option (Z * Z)) (maxTokens : Z) : string :=
  mergeCompactInstructions [instructions;
    ("The previous summary was rejected: " ++ compactionSummaryFailure resp budget
     ++ ". Produce a shorter complete summary, aiming for at most " ++ Itoa (Z.max 1 (Z.quot maxTokens 2))
     ++ " tokens including all required sections. Keep authoritative module data exact; compress the surrounding prose. Do not discuss this retry.")%string].

(** ** Candidates *)

Definition compactionSummaryCandidateRef (c : ModelCandidate) : string :=
  let ref := TrimSpace (mc_Ref c) in
  if ref <>?s "" then ref else default "" (mc_Provider c).

(** The loop over the candidates of the turn. *)
Fixpoint unseen_candidates (seen : gset string) (l : list ModelCandidate) : list ModelCandidate :=
  match l with
  | [] => []
  | c :: rest =>
    let ref := compactionSummaryCandidateRef c in
    if bool_decide (ref ∈ seen) then unseen_candidates seen rest
    else c :: unseen_candidates ({[ref]} ∪ seen) rest
  end.

(** The summary provider of the engine with the model of its provenance. *)
Definition compactionSummaryCandidatesLocked (summary : option (string * string * Z)) (policy : Policy)
    (effective : list ModelCandidate) : list ModelCandidate :=
  match summary with
  | None => unseen_candidates ∅ effective
  | Some (name, model, window) =>
    let ref := TrimSpace (pl_SummaryModel policy) in
    let ref := if ref =?s "" then TrimSpace model else ref in
    let ref := if ref =?s "" then name else ref in
    let c := mkCandidate ref (Some name) window 0 in
    c :: unseen_candidates {[compactionSummaryCandidateRef c]} effective
  end.

(** ** Inputs and log *)

(** [CallJournalError]: an event or the usage of the call was not committed. *)
Inductive CallAnswer :=
| CallJournalError
| CallProviderError (text : string)
| CallResponse (resp : Response).

(** [cl_cancelled] answers the questions of the reconciliation. *)
Record CallIo := mkCallIo {
  cl_answer : CallAnswer;
  cl_cancelled : nat -> bool;
}.

Record RoundIo := mkRoundIo {
  ri_before : ModelHealth -> ModelHealth;
  ri_acquired_at : Time;
  ri_reserving : ModelHealth -> ModelHealth;
  ri_reserved_at : Time;
  ri_first : CallIo;
  ri_retry_committed : bool;
  ri_second : CallIo;
  ri_cancelled : bool;
  ri_between : ModelHealth -> ModelHealth;
  ri_completed_at : Time;
  ri_fallback_committed : bool;
}.

Inductive SummaryLog :=
| SgAcquired (ticket : ModelAttemptTicket) (reserved : bool)
| SgSkipped (ref : string)
| SgCalled (index : nat) (attempt : nat) (retry : bool) (system : string) (history : list Message) (maxOutput : Z)
| SgRetry (reason : string) (previous maxOutput : Z)
| SgFallback (from to : string)
| SgCompleted (ticket : ModelAttemptTicket) (outcome : ModelHealthOutcome).

Inductive SummaryEnd :=
| Generated (summary : text) (resp : Response) (index : nat)
| NotGenerated (e : SummaryError).

Definition SummaryResult : Type := SummaryEnd * list SummaryLog * ModelHealth.

(** The variables of the loop. *)
Record SummaryProgress := mkSummaryProgress {
  sp_attempted : gset string;
  sp_skipped : list ModelHealthSkip;
  sp_failures : list (string * AttemptError);
  sp_instructions : string;
  sp_retried : bool;
  sp_attempt : nat;
  sp_log : list SummaryLog;
}.

Definition with_SummaryMaxTokens (n : Z) (p : Policy) : Policy :=
  mkPolicy (pl_Enabled p) (pl_Instructions p) (pl_ContextWindow p) (pl_ReserveTokens p) (pl_KeepRecentTokens p)
    (pl_SummaryModel p) (pl_SummaryRequestTokens p) n (pl_ToolResultMaxTokens p) (pl_ToolResultMaxChars p)
    (pl_UserInputInlineMaxBytes p) (pl_UserInputPreviewHeadBytes p) (pl_UserInputPreviewTailBytes p)
    (pl_MaxAutoFailures p) (pl_TriggerTokens p).

Definition MaxInlineSnapshotBytes : Z := 256 * 1024.

(** [health.Complete] with an outcome that cannot panic. *)
Definition complete_or_same (now : Time) (ticket : ModelAttemptTicket) (outcome : ModelHealthOutcome)
    (h : ModelHealth) : ModelHealth :=
  match complete now ticket outcome "" h with Some (_, h') => h' | None => h end.

Section Generation.
  Context (encode_input : list (string * Json) -> option string) (state_text : list Contribution -> string).
  (** [stableProvenanceMessageID]; the length of the JSON text of a message. *)
  Context (stable_id : nat -> Message -> string) (message_size : Message -> option Z).
  Context (fold : Z -> Z).

(** The constraint of a request: its message fits in a snapshot. *)
Definition snapshot_constraint (m : Message) : option string :=
  match message_size (with_ID (stable_id 0 m) m) with
  | None => Some "json"%string
  | Some size =>
    if MaxInlineSnapshotBytes <? size
    then Some ("derived message is " ++ Itoa size ++ " bytes, limit is " ++ Itoa MaxInlineSnapshotBytes)%string
    else None
  end.

Section Inputs.
  (** [compaction]: the configured policy; [policy]: that of the compaction. *)
  Context (compaction : CompactionPolicy) (policy : Policy) (baseSystem : string) (previous : Message)
    (input : list Message) (state : list Contribution) (defaultContextWindow : Z) (reservedModelRef : string).
  Context (candidates : list ModelCandidate) (env : nat -> RoundIo).

Definition buildProvenanceBoundedCompactionSummaryRequest (p : Policy) (instructions : string) :
    string * result FitError (list Message) :=
  let '(system, r) :=
    BuildCompactionSummaryRequestWithConstraint encode_input state_text baseSystem previous input state p
      instructions (Some snapshot_constraint) in
  (system, rbind r (fun history => Ok (imap (fun i m => with_ID (stable_id i m) m) history))).

(** The tokens a request for a summary may take; 0 or less is no limit. *)
Definition request_budget (p : Policy) : Z :=
  if pl_SummaryRequestTokens p <=? 0 then pl_TriggerTokens p else pl_SummaryRequestTokens p.

Definition compactionSummaryRequestFitError (system : string) (history : list Message) (p : Policy)
    (maxOutputTokens : Z) : option AttemptError :=
  let budget := request_budget p in
  if budget <=? 0 then None
  else
    let tokens := request_tokens encode_input system history in
    if tokens + maxOutputTokens <=? budget then None
    else Some (ErrRequestFit tokens maxOutputTokens budget (pl_ContextWindow p)).

Definition compactionSummaryMaxOutputTokens (p : Policy) (instructions : string) : Z :=
  let desired := pl_SummaryMaxTokens p in
  if desired <=? 0 then desired
  else
    let budget := request_budget p in
    if budget <=? 1 then 1
    else
      let system :=
        (BuildCompactionSummaryRequest encode_input state_text baseSystem previous [] state p instructions).1 in
      let '(minimum, omitted, toolBudget, _) :=
        fitCompactionSummaryInput encode_input state_text system previous input state 1 None p in
      let body := BuildCompactionSummaryBody encode_input state_text previous minimum state toolBudget omitted in
      let room := Z.max 1 (budget - request_tokens encode_input system [TextMessage RoleUser body]) in
      if room <? desired then room else desired.

(** The policy of a candidate, with the output that it may have. *)
Definition candidate_policy (c : ModelCandidate) (instructions : string) : Policy :=
  let p := EffectivePolicy compaction (candidateContextWindow c defaultContextWindow) DefaultContextWindowTokens in
  let p := with_SummaryMaxTokens (Z.min (pl_SummaryMaxTokens p) (pl_SummaryMaxTokens policy)) p in
  with_SummaryMaxTokens (compactionSummaryMaxOutputTokens p instructions) p.

(** [validateCompactionSummary]: [inr None] is an answer without a complete
    text. *)
Definition validateCompactionSummary (resp : Response) (io : CallIo) (maxTokens : Z) :
    text + option ReconcileError :=
  let summary := normalizeCompactionSummaryHeadings fold (T (compactionSummaryText resp)) in
  if bool_decide (summary = []) || (re_StopReason resp =?s StopMaxTokens) then inr None
  else match reconcileCompactionSummary fold (cl_cancelled io) summary state maxTokens with
       | Ok summary => inl summary
       | Err e => inr (Some e)
       end.

(** How one call ends. [CallRejected]: an answer that is not accepted, with its
    error of the budget. *)
Inductive CallEnd :=
| CallJournal
| CallInvalid (e : ReconcileError)
| CallAccepted (summary : text) (resp : Response)
| CallRejected (resp : Response) (budget : option (Z * Z))
| CallFailed (e : AttemptError).

Definition judge (resp : Response) (io : CallIo) (maxTokens : Z) : CallEnd :=
  match validateCompactionSummary resp io maxTokens with
  | inl summary => CallAccepted summary resp
  | inr None => CallRejected resp None
  | inr (Some (ErrBudget tokens limit)) => CallRejected resp (Some (tokens, limit))
  | inr (Some e) => CallInvalid e
  end.

(** Builds a request, looks whether it fits, and calls the provider. *)
Definition call_candidate (io : CallIo) (index attempt : nat) (retry : bool) (p : Policy)
    (instructions : string) : CallEnd * list SummaryLog :=
  let maxOutput := pl_SummaryMaxTokens p in
  match buildProvenanceBoundedCompactionSummaryRequest p instructions with
  | (_, Err e) => (CallFailed (ErrBuild e), [])
  | (system, Ok history) =>
    match compactionSummaryRequestFitError system history p maxOutput with
    | Some e => (CallFailed e, [])
    | None =>
      (match cl_answer io with
       | CallJournalError => CallJournal
       | CallProviderError text => CallFailed (ErrProvider text)
       | CallResponse resp => judge resp io maxOutput
       end, [SgCalled index attempt retry system history maxOutput])
    end
  end.

Definition attempt_error (resp : Response) (budget : option (Z * Z)) : AttemptError :=
  compactionSummaryAttemptError resp ((fun b => ErrSummaryBudget b.1 b.2) <$> budget).

(** What becomes of a candidate: the generation ends, with the outcome that its
    circuit is told, or the candidate has failed. *)
Inductive CandidateEnd :=
| CandidateEnds (outcome : ModelHealthOutcome) (e : SummaryEnd)
| CandidateFailed (e : AttemptError).

(** The end of a call; a rejected answer goes to [rejected]. *)
Definition end_call (index : nat) (e : CallEnd) (rejected : Response -> option (Z * Z) -> CandidateEnd) :
    CandidateEnd :=
  match e with
  | CallJournal => CandidateEnds ModelHealthNeutral (NotGenerated ErrJournal)
  | CallInvalid e => CandidateEnds ModelHealthNeutral (NotGenerated (ErrValidation e))
  | CallAccepted summary resp => CandidateEnds ModelHealthSuccess (Generated summary resp index)
  | CallFailed e => CandidateFailed e
  | CallRejected resp budget => rejected resp budget
  end.

(** The attempts with one candidate. *)
Definition run_candidate (io : RoundIo) (index : nat) (c : ModelCandidate) (sp : SummaryProgress) :
    CandidateEnd * SummaryProgress :=
  let p := candidate_policy c (sp_instructions sp) in
  let '(first, log) := call_candidate (ri_first io) index (sp_attempt sp) false p (sp_instructions sp) in
  let log := sp_log sp ++ log in
  let same e := (e, mkSummaryProgress (sp_attempted sp) (sp_skipped sp) (sp_failures sp) (sp_instructions sp)
                      (sp_retried sp) (sp_attempt sp) log) in
  match first with
  | CallRejected resp budget =>
    if sp_retried sp then same (CandidateFailed (attempt_error resp budget))
    else
      let instructions :=
        compactionSummaryRetryInstructions (sp_instructions sp) resp budget (pl_SummaryMaxTokens p) in
      let maxOutput := compactionSummaryMaxOutputTokens p instructions in
      if negb (ri_retry_committed io) then
        same (CandidateEnds ModelHealthNeutral (NotGenerated ErrRetryCommit))
      else
        let '(second, log2) := call_candidate (ri_second io) index (S (sp_attempt sp)) true
                                 (with_SummaryMaxTokens maxOutput p) instructions in
        (end_call index second (fun resp budget => CandidateFailed (attempt_error resp budget)),
         mkSummaryProgress (sp_attempted sp) (sp_skipped sp) (sp_failures sp) instructions true
           (S (sp_attempt sp))
           (log ++ SgRetry (compactionSummaryRetryReason resp budget) (pl_SummaryMaxTokens p) maxOutput :: log2))
  | e => same (end_call index e (fun _ _ => CandidateFailed ErrEmpty))
  end.

(** ** Acquiring a candidate *)

Definition refs : list string := map compactionSummaryCandidateRef candidates.

(** [acquireCompactionSummaryCandidate]; a candidate that the caller has
    reserved has no ticket of its own. *)
Definition acquireCompactionSummaryCandidate (io : RoundIo) (attempted : gset string) (h : ModelHealth) :
    ModelSelection * bool * bool * list SummaryLog * ModelHealth :=
  let '(sel, ok, h) := acquire_loop (ri_acquired_at io) attempted 0 refs [] (ri_before io h) in
  let log := if ok then [SgAcquired (sel_Ticket sel) false] else [] in
  let reservedIndex := modelRefIndex refs reservedModelRef in
  if (reservedModelRef =?s "") || bool_decide (reservedModelRef ∈ attempted) || (reservedIndex <? 0) ||
     (ok && (sel_Index sel <? reservedIndex))
  then (sel, ok, false, log, h)
  else
    let '(log, h) :=
      if ok then
        (log ++ [SgCompleted (sel_Ticket sel) ModelHealthNeutral],
         complete_or_same (ri_reserved_at io) (sel_Ticket sel) ModelHealthNeutral (ri_reserving io h))
      else (log, h) in
    let earlier := filter (fun s =>
      let i := modelRefIndex refs (sk_Ref s) in 0 <= i < reservedIndex) (sel_Skipped sel) in
    (mkSelection reservedIndex zeroTicket earlier, true, true, log ++ [SgAcquired zeroTicket true], h).

(** ** The loop *)

(** A round: a candidate, and its failure or the end. [from] is the candidate
    that has failed before. *)
Fixpoint generate_loop (fuel round : nat) (from : option string) (committed : bool) (sp : SummaryProgress)
    (h : ModelHealth) : option SummaryResult :=
  match fuel with
  | O => None
  | S k =>
    let io := env round in
    let '(sel, ok, _, log, h) := acquireCompactionSummaryCandidate io (sp_attempted sp) h in
    let skips := sel_Skipped sel in
    let skipped := sp_skipped sp ++ skips in
    let attempted := skip_refs skips ∪ sp_attempted sp in
    let index := Z.to_nat (sel_Index sel) in
    let ref := if ok then default ""%string (refs !! index) else ""%string in
    let log := sp_log sp ++ log in
    if negb committed then
      Some (NotGenerated ErrFallbackCommit,
            if ok then log ++ [SgCompleted (sel_Ticket sel) ModelHealthNeutral] else log,
            if ok then complete_or_same (ri_completed_at io) (sel_Ticket sel) ModelHealthNeutral (ri_between io h)
            else h)
    else
      let log := log ++ option_list ((fun f => SgFallback f ref) <$> from) ++ map (fun s => SgSkipped (sk_Ref s)) skips in
      if negb ok then
        Some (NotGenerated
                (match sp_failures sp with
                 | [(_, e)] => if bool_decide (skipped = []) then ErrAttempt e else ErrChain (sp_failures sp) skipped
                 | failures => ErrChain failures skipped
                 end), log, h)
      else
        match candidates !! index with
        | None => Some (NotGenerated ErrPanic, log, h)
        | Some c =>
          let '(e, sp) := run_candidate io index c
            (mkSummaryProgress ({[ref]} ∪ attempted) skipped (sp_failures sp) (sp_instructions sp) (sp_retried sp)
               (S (sp_attempt sp)) log) in
          let settle outcome e :=
            Some (e, sp_log sp ++ [SgCompleted (sel_Ticket sel) outcome],
                  complete_or_same (ri_completed_at io) (sel_Ticket sel) outcome (ri_between io h)) in
          match e with
          | CandidateEnds outcome e => settle outcome e
          | CandidateFailed e =>
            if ri_cancelled io then settle ModelHealthNeutral (NotGenerated ErrCancelled)
            else
              generate_loop k (S round) (Some ref) (ri_fallback_committed io)
                (mkSummaryProgress (sp_attempted sp) (sp_skipped sp) (sp_failures sp ++ [(ref, e)])
                   (sp_instructions sp) (sp_retried sp) (sp_attempt sp)
                   (sp_log sp ++ [SgCompleted (sel_Ticket sel) ModelHealthNeutral]))
                (complete_or_same (ri_completed_at io) (sel_Ticket sel) ModelHealthNeutral (ri_between io h))
          end
        end
  end.

Definition generateCompactionSummaryLocked (instructions : string) (h : ModelHealth) : option SummaryResult :=
  match candidates with
  | [] => Some (NotGenerated ErrNoCandidates, [], h)
  | _ =>
    generate_loop (S (length candidates)) 0 None true
      (mkSummaryProgress ∅ [] [] instructions false 0 []) h
  end.
End Inputs.
End Generation.
