(* ===== verification/SummaryGenerationProps.v ===== *)
(** * The generation of a summary: what it guarantees

    The loop of [SummaryGeneration] for any environment. [candidate_spec] says
    what one candidate adds to the log, [acquired_spec] what acquiring one does;
    [loop_inv] is the invariant of the loop. *)

From Stdlib Require Import Ascii String.
From S2P Require Import Prelude GoStd Utf8 GoText Llm ContextText ThreadTypes ContextBudget ModelHealth ModelFallback ModelFallbackProps SummaryRequest SummaryText SummaryTextProps SummaryGeneration.

Local Open Scope Z_scope.
Local Open Scope juex_scope.

(** ** The log *)

Definition call_entry (e : SummaryLog) : option (nat * bool) :=
  match e with SgCalled index _ retry _ _ _ => Some (index, retry) | _ => None end.

(** The calls of a log: the candidate, and whether it was asked again. *)
Definition sg_calls (log : list SummaryLog) : list (nat * bool) := omap call_entry log.

Definition asked (log : list SummaryLog) : list nat := map fst (filter (fun c => c.2 = false) (sg_calls log)).
Definition asked_again (log : list SummaryLog) : list nat := map fst (filter (fun c => c.2 = true) (sg_calls log)).

Definition outcome_entry (e : SummaryLog) : option ModelHealthOutcome :=
  match e with SgCompleted _ outcome => Some outcome | _ => None end.

(** What the circuits were told. *)
Definition outcomes (log : list SummaryLog) : list ModelHealthOutcome := omap outcome_entry log.

(** The ticket held after a log, when each reservation is settled before the
    next, and each call holds the ticket of its model, or that of its caller. *)
Fixpoint sg_held (chain : list string) (open : option ModelAttemptTicket) (log : list SummaryLog) :
    option (option ModelAttemptTicket) :=
  match log with
  | [] => Some open
  | SgAcquired t _ :: r => match open with None => sg_held chain (Some t) r | Some _ => None end
  | SgCalled index _ _ _ _ _ :: r =>
    match open with
    | Some t =>
      if bool_decide (t = zeroTicket) || bool_decide (chain !! index = Some (t_Ref t))
      then sg_held chain open r else None
    | None => None
    end
  | SgCompleted t _ :: r =>
    match open with
    | Some t' => if decide (t = t') then sg_held chain None r else None
    | None => None
    end
  | _ :: r => sg_held chain open r
  end.

Lemma sg_calls_app a b : sg_calls (a ++ b) = sg_calls a ++ sg_calls b.
Proof. apply omap_app. Qed.
Lemma asked_app a b : asked (a ++ b) = asked a ++ asked b.
Proof. unfold asked. by rewrite sg_calls_app, filter_app, map_app. Qed.
Lemma asked_again_app a b : asked_again (a ++ b) = asked_again a ++ asked_again b.
Proof. unfold asked_again. by rewrite sg_calls_app, filter_app, map_app. Qed.
Lemma outcomes_app a b : outcomes (a ++ b) = outcomes a ++ outcomes b.
Proof. apply omap_app. Qed.
Lemma sg_held_app chain a : forall b open, sg_held chain open (a ++ b) = o ← sg_held chain open a; sg_held chain o b.
Proof.
  induction a as [|e a IH]; intros b open; [done|].
  destruct e; simpl; repeat case_match; try done; apply IH.
Qed.

Lemma sg_held_step chain open open' a b : sg_held chain open a = Some open' ->
  sg_held chain open (a ++ b) = sg_held chain open' b.
Proof. intros E. by rewrite sg_held_app, E. Qed.

(** Entries that neither reserve, call nor settle. *)
Definition quiet_entry (e : SummaryLog) : Prop :=
  match e with SgSkipped _ | SgRetry _ _ _ | SgFallback _ _ => True | _ => False end.

Lemma quiet_log chain log : Forall quiet_entry log ->
  (forall open, sg_held chain open log = Some open) /\ asked log = [] /\ asked_again log = [] /\ outcomes log = [].
Proof.
  induction 1 as [|e log He Hl (IH1 & IH2 & IH3 & IH4)]; [done|].
  destruct e; try done; (split; [intros open; simpl; apply IH1|done]).
Qed.

(** ** Candidates *)

Lemma ref_index_spec chain ref : forall i j, ref_index chain ref i = j -> 0 <= i -> 0 <= j ->
  i <= j /\ chain !! Z.to_nat (j - i) = Some ref.
Proof.
  induction chain as [|r chain IH]; intros i j E Hi Hj; simpl in E; [lia|].
  case_bool_decide; [subst; split; [lia|by replace (j - j) with 0 by lia]|].
  destruct (IH _ _ E) as [Hle Hl]; [lia..|]. split; [lia|].
  by replace (Z.to_nat (j - i)) with (S (Z.to_nat (j - (i + 1)))) by lia.
Qed.

Lemma modelRefIndex_lookup chain ref : 0 <= modelRefIndex chain ref ->
  chain !! Z.to_nat (modelRefIndex chain ref) = Some ref.
Proof.
  intros H. destruct (ref_index_spec chain ref 0 (modelRefIndex chain ref)) as [_ Hl]; [done|lia|done|].
  by rewrite Z.sub_0_r in Hl.
Qed.

Section Generation.
  Context (encode_input : list (string * Json) -> option string) (state_text : list Contribution -> string).
  Context (stable_id : nat -> Message -> string) (message_size : Message -> option Z) (fold : Z -> Z).
  Context (compaction : CompactionPolicy) (policy : Policy) (baseSystem : string) (previous : Message)
    (input : list Message) (state : list Contribution) (defaultContextWindow : Z) (reservedModelRef : string).
  Context (candidates : list ModelCandidate) (env : nat -> RoundIo).

Local Abbreviation chain := (refs candidates).
Local Abbreviation max_output := (compactionSummaryMaxOutputTokens encode_input state_text baseSystem previous input state).
Local Abbreviation policy_of := (candidate_policy encode_input state_text compaction policy baseSystem previous input state defaultContextWindow).
Local Abbreviation call := (call_candidate encode_input state_text stable_id message_size fold baseSystem previous input state).
Local Abbreviation run := (run_candidate encode_input state_text stable_id message_size fold compaction policy baseSystem previous input state defaultContextWindow).
Local Abbreviation acquire := (acquireCompactionSummaryCandidate reservedModelRef candidates).
Local Abbreviation generate_from := (generate_loop encode_input state_text stable_id message_size fold compaction policy baseSystem previous input state defaultContextWindow reservedModelRef candidates env).

Definition window_policy (c : ModelCandidate) : Policy :=
  EffectivePolicy compaction (candidateContextWindow c defaultContextWindow) DefaultContextWindowTokens.

(** A call whose request and answer fit the window of its candidate, and whose
    answer fits the room of the compaction. *)
Definition call_fits (e : SummaryLog) : Prop :=
  match e with
  | SgCalled index _ _ system history maxOutput => exists c, candidates !! index = Some c /\
      (0 < request_budget (window_policy c) ->
       request_tokens encode_input system history + maxOutput <= request_budget (window_policy c)) /\
      maxOutput <= pl_SummaryMaxTokens (window_policy c) /\ maxOutput <= pl_SummaryMaxTokens policy
  | _ => True
  end.

Lemma max_output_le p instructions : max_output p instructions <= pl_SummaryMaxTokens p.
Proof.
  unfold compactionSummaryMaxOutputTokens. destruct (Z.leb_spec (pl_SummaryMaxTokens p) 0); [done|].
  destruct (request_budget p <=? 1); [lia|].
  destruct (fitCompactionSummaryInput _ _ _ _ _ _ _ _ _) as [[[l n] b] e].
  destruct (Z.ltb_spec (Z.max 1 (request_budget p - request_tokens encode_input
    (BuildCompactionSummaryRequest encode_input state_text baseSystem previous [] state p instructions).1
    [TextMessage RoleUser (BuildCompactionSummaryBody encode_input state_text previous l state b n)])) (pl_SummaryMaxTokens p)); lia.
Qed.

(** What holds of the policy of a call. *)
Definition policy_within (c : ModelCandidate) (p : Policy) : Prop :=
  request_budget p = request_budget (window_policy c) /\
  pl_SummaryMaxTokens p <= pl_SummaryMaxTokens (window_policy c) /\ pl_SummaryMaxTokens p <= pl_SummaryMaxTokens policy.

Lemma candidate_policy_within c instructions : policy_within c (policy_of c instructions).
Proof.
  unfold candidate_policy. fold (window_policy c). cbv zeta. split; [done|]. cbn [pl_SummaryMaxTokens with_SummaryMaxTokens].
  match goal with |- max_output ?p ?i <= _ /\ _ => pose proof (max_output_le p i) as H end.
  cbn [pl_SummaryMaxTokens with_SummaryMaxTokens] in H. lia.
Qed.

Lemma retry_policy_within c p instructions : policy_within c p ->
  policy_within c (with_SummaryMaxTokens (max_output p instructions) p).
Proof.
  intros (Hb & H1 & H2). pose proof (max_output_le p instructions). split; [done|]. cbn [pl_SummaryMaxTokens with_SummaryMaxTokens]. lia.
Qed.

(** The end of a call that was answered within the budget. *)
Definition accepted_within (e : CallEnd) (maxTokens : Z) : Prop :=
  match e with CallAccepted summary _ => EstimateTextTokens (string_of summary) <= maxTokens | _ => True end.

(** The text of an answer, and what the modules make of it. *)
Definition answered (resp : Response) : text := normalizeCompactionSummaryHeadings fold (T (compactionSummaryText resp)).
Definition reconciled (cl : CallIo) (resp : Response) (r : result ReconcileError text) : Prop :=
  exists maxTokens, reconcileCompactionSummary fold (cl_cancelled cl) (answered resp) state maxTokens = r.
Definition incomplete (resp : Response) : Prop := answered resp = [] \/ re_StopReason resp = StopMaxTokens.

(** Why a call ended as it did. *)
Definition call_because (cl : CallIo) (e : CallEnd) : Prop :=
  match e with
  | CallJournal => cl_answer cl = CallJournalError
  | CallInvalid e => exists resp, cl_answer cl = CallResponse resp /\ reconciled cl resp (Err e)
  | CallAccepted summary resp => cl_answer cl = CallResponse resp /\ ~ incomplete resp /\ reconciled cl resp (Ok summary)
  | CallRejected resp budget => cl_answer cl = CallResponse resp /\
      match budget with
      | Some (tokens, limit) => reconciled cl resp (Err (ErrBudget tokens limit))
      | None => incomplete resp
      end
  | CallFailed (ErrProvider text) => cl_answer cl = CallProviderError text
  | CallFailed (ErrRequestFit tokens out budget _) => budget < tokens + out
  | CallFailed (ErrBuild e) => exists p instructions,
      (buildProvenanceBoundedCompactionSummaryRequest encode_input state_text stable_id message_size baseSystem previous
         input state p instructions).2 = Err e
  | CallFailed _ => False
  end.

Lemma judge_ok resp io maxTokens : cl_answer io = CallResponse resp ->
  accepted_within (judge fold state resp io maxTokens) maxTokens /\ call_because io (judge fold state resp io maxTokens).
Proof.
  intros Ha. unfold judge, validateCompactionSummary. destruct (_ || _) eqn:Ei.
  { split; [done|]. split; [done|]. apply orb_true_iff in Ei as [Ei|Ei]; apply bool_decide_eq_true in Ei; [by left|by right]. }
  apply orb_false_elim in Ei as [E1 E2]. apply bool_decide_eq_false in E1, E2.
  destruct (reconcileCompactionSummary _ _ _ _ _) as [out|err] eqn:E.
  - split; [by apply reconcile_within in E as (_ & ? & _)|]. split; [done|]. split; [by intros []|by exists maxTokens].
  - destruct err; (split; [done|]); first [exists resp; split; [done|by exists maxTokens]|split; [done|by exists maxTokens]].
Qed.

(** A call with the policy [p] of candidate [index]. *)
Lemma call_spec io index c attempt retry p instructions : candidates !! index = Some c -> policy_within c p ->
  let '(e, log) := call io index attempt retry p instructions in
  Forall call_fits log /\ (accepted_within e (pl_SummaryMaxTokens p) /\ call_because io e) /\
  (log = [] /\ (exists err, e = CallFailed err) \/ sg_calls log = [(index, retry)] /\ length log = 1%nat).
Proof.
  intros Hc (Hb & H1 & H2). unfold call_candidate.
  destruct (buildProvenanceBoundedCompactionSummaryRequest _ _ _ _ _ _ _ _ _ _) as [system [history|e]] eqn:Eb;
    [|split; [constructor|split; [split; [done|by exists p, instructions; rewrite Eb]|left; eauto]]].
  unfold compactionSummaryRequestFitError.
  destruct (Z.leb_spec (request_budget p) 0) as [Hz|Hz].
  2: destruct (Z.leb_spec (request_tokens encode_input system history + pl_SummaryMaxTokens p) (request_budget p)) as [Hf|Hf];
       [|split; [constructor|split; [split; [done|exact Hf]|left; eauto]]].
  all: split; [constructor; [|constructor]; exists c; split; [exact Hc|]; rewrite <- Hb; split; [lia|by split]|].
  all: split; [|right; split; reflexivity]; destruct (cl_answer io) eqn:Ea; [by split..|by apply judge_ok].
Qed.

Definition call_of (io : RoundIo) (cl : CallIo) : Prop := cl = ri_first io \/ cl = ri_second io.

(** Why a candidate failed in a round. *)
Definition attempt_because (io : RoundIo) (e : AttemptError) : Prop :=
  match e with
  | ErrSummaryBudget tokens limit => exists cl resp, call_of io cl /\ cl_answer cl = CallResponse resp /\
      reconciled cl resp (Err (ErrBudget tokens limit))
  | ErrTruncated stop => stop = StopMaxTokens /\ exists cl resp, call_of io cl /\ cl_answer cl = CallResponse resp /\
      re_StopReason resp = stop
  | ErrEmpty => exists cl resp, call_of io cl /\ cl_answer cl = CallResponse resp /\ incomplete resp
  | e => exists cl, call_of io cl /\ call_because cl (CallFailed e)
  end.

(** Why a generation ended with an error in a round. *)
Definition stopped_because (io : RoundIo) (e : SummaryError) : Prop :=
  match e with
  | ErrJournal => exists cl, call_of io cl /\ cl_answer cl = CallJournalError
  | ErrValidation e => exists cl resp, call_of io cl /\ cl_answer cl = CallResponse resp /\ reconciled cl resp (Err e)
  | ErrRetryCommit => ri_retry_committed io = false
  | ErrFallbackCommit => ri_fallback_committed io = false
  | ErrCancelled => ri_cancelled io = true
  | _ => False
  end.

(** What the end of candidate [index] tells: its circuit and the caller. *)
Definition candidate_end_ok (io : RoundIo) (index : nat) (c : ModelCandidate) (e : CandidateEnd) : Prop :=
  match e with
  | CandidateEnds outcome (Generated summary resp i) => outcome = ModelHealthSuccess /\ i = index /\
      (exists cl, call_of io cl /\ call_because cl (CallAccepted summary resp)) /\
      EstimateTextTokens (string_of summary) <= pl_SummaryMaxTokens (window_policy c) /\
      EstimateTextTokens (string_of summary) <= pl_SummaryMaxTokens policy
  | CandidateEnds outcome (NotGenerated err) => outcome = ModelHealthNeutral /\ stopped_because io err
  | CandidateFailed e => attempt_because io e
  end.

Lemma attempt_error_ok io cl resp budget : call_of io cl -> call_because cl (CallRejected resp budget) ->
  attempt_because io (attempt_error resp budget).
Proof.
  intros Hcl [Ha Hb]. unfold attempt_error, compactionSummaryAttemptError. destruct budget as [[tokens limit]|]; simpl.
  { exists cl, resp. by split_and!. }
  destruct (truncated resp) eqn:E.
  - unfold truncated in E. apply andb_prop in E as [E _]. apply bool_decide_eq_true in E. split; [done|].
    exists cl, resp. by split_and!.
  - exists cl, resp. by split_and!.
Qed.

Lemma end_call_ok io cl index c p e rejected : call_of io cl -> policy_within c p ->
  accepted_within e (pl_SummaryMaxTokens p) /\ call_because cl e ->
  (forall resp budget, e = CallRejected resp budget -> candidate_end_ok io index c (rejected resp budget)) ->
  candidate_end_ok io index c (end_call index e rejected).
Proof.
  intros Hcl (_ & H1 & H2) [He Hb] Hr. destruct e; cbn [end_call candidate_end_ok stopped_because].
  - split; [done|]. by exists cl.
  - split; [done|]. destruct Hb as (resp & ? & ?). by exists cl, resp.
  - cbn in He. do 2 (split; [done|]). split; [by exists cl|]. lia.
  - by apply Hr.
  - destruct e; try by exists cl. all: by destruct Hb.
Qed.

(** What the attempts with candidate [index] add to the log of [sp]. *)
Record adds (io : RoundIo) (index : nat) (c : ModelCandidate) (sp : SummaryProgress) (e : CandidateEnd) (sp' : SummaryProgress)
    (added : list SummaryLog) : Prop := mkAdds {
  ad_log : sp_log sp' = sp_log sp ++ added;
  ad_same : sp_attempted sp' = sp_attempted sp /\ sp_skipped sp' = sp_skipped sp /\ sp_failures sp' = sp_failures sp;
  ad_fits : Forall call_fits added;
  ad_outcomes : outcomes added = [];
  ad_held : forall t, t = zeroTicket \/ chain !! index = Some (t_Ref t) -> sg_held chain (Some t) added = Some (Some t);
  ad_asked : asked added = [] \/ asked added = [index];
  ad_again : asked_again added = [] /\ (sp_retried sp = true -> sp_retried sp' = true) \/
    asked_again added = [index] /\ asked added = [index] /\ sp_retried sp = false /\ sp_retried sp' = true;
  ad_end : candidate_end_ok io index c e;
}.

(** The log of a call, by its calls. *)
Lemma call_log index retry log : log = [] \/ sg_calls log = [(index, retry)] /\ length log = 1%nat ->
  outcomes log = [] /\
  (forall t, t = zeroTicket \/ chain !! index = Some (t_Ref t) -> sg_held chain (Some t) log = Some (Some t)) /\
  (asked log = [] \/ asked log = [index] /\ retry = false) /\ (asked_again log = [] \/ asked_again log = [index] /\ retry = true).
Proof.
  intros [->|[Hc Hl]]; [split_and!; try done; by left|].
  assert (forall t, t = zeroTicket \/ chain !! index = Some (t_Ref t) -> sg_held chain (Some t) log = Some (Some t)) as Hheld.
  { destruct log as [|e [|]]; try done. destruct e; try done. simpl in Hc. injection Hc as -> ->.
    intros t Ht. simpl. destruct Ht as [Ht|Ht].
    - by rewrite (bool_decide_eq_true_2 _ Ht).
    - by rewrite (bool_decide_eq_true_2 _ Ht), orb_true_r. }
  split; [destruct log as [|e [|]]; try done; by destruct e|]. split; [exact Hheld|].
  unfold asked, asked_again. rewrite Hc. destruct retry; simpl; auto.
Qed.

Lemma run_spec io index c sp : candidates !! index = Some c ->
  let '(e, sp') := run io index c sp in exists added, adds io index c sp e sp' added.
Proof.
  intros Hc. unfold run_candidate. set (p := policy_of c (sp_instructions sp)).
  pose proof (candidate_policy_within c (sp_instructions sp)) as Hp. fold p in Hp.
  pose proof (call_spec (ri_first io) index c (sp_attempt sp) false p (sp_instructions sp) Hc Hp) as H1.
  destruct (call (ri_first io) index (sp_attempt sp) false p (sp_instructions sp)) as [first log1].
  destruct H1 as (Hf1 & Ha1 & Hl1).
  assert (log1 = [] \/ sg_calls log1 = [(index, false)] /\ length log1 = 1%nat) as Hl1' by tauto.
  destruct (call_log index false log1 Hl1') as (Ho1 & Hh1 & Hk1 & Hg1).
  assert (asked log1 = [] \/ asked log1 = [index]) as Hk1' by tauto.
  assert (asked_again log1 = []) as Hg1' by (destruct Hg1 as [|[_ ?]]; done).
  assert (forall e, candidate_end_ok io index c e -> exists added, adds io index c sp e
    (mkSummaryProgress (sp_attempted sp) (sp_skipped sp) (sp_failures sp) (sp_instructions sp) (sp_retried sp)
       (sp_attempt sp) (sp_log sp ++ log1)) added) as Hsame.
  { intros e He. exists log1. split; try done. by left. }
  assert (forall resp budget, first = CallRejected resp budget -> candidate_end_ok io index c (CandidateFailed (attempt_error resp budget))) as Hrej
    by (intros resp budget ->; eapply attempt_error_ok; [by left|apply Ha1]).
  destruct first as [| | |resp budget|]; try (apply Hsame; eapply end_call_ok; [by left|done|done|by intros ? ? ?]).
  destruct (sp_retried sp) eqn:Er; [by apply Hsame, Hrej|].
  destruct (ri_retry_committed io) eqn:Ec; simpl negb; [|by apply Hsame].
  cbv zeta. set (ins := compactionSummaryRetryInstructions _ _ _ _).
  pose proof (retry_policy_within c p ins Hp) as Hp2. set (p2 := with_SummaryMaxTokens _ p) in *.
  pose proof (call_spec (ri_second io) index c (S (sp_attempt sp)) true p2 ins Hc Hp2) as H2.
  destruct (call (ri_second io) index (S (sp_attempt sp)) true p2 ins) as [second log2].
  destruct H2 as (Hf2 & Ha2 & Hl2).
  assert (log2 = [] \/ sg_calls log2 = [(index, true)] /\ length log2 = 1%nat) as Hl2' by tauto.
  destruct (call_log index true log2 Hl2') as (Ho2 & Hh2 & Hk2 & Hg2).
  assert (asked log2 = []) as Hk2' by (destruct Hk2 as [|[_ ?]]; done).
  exists (log1 ++ SgRetry (compactionSummaryRetryReason resp budget) (pl_SummaryMaxTokens p) (max_output p ins) :: log2).
  set (entry := SgRetry _ _ _).
  assert (forall l, asked (entry :: l) = asked l /\ asked_again (entry :: l) = asked_again l /\ outcomes (entry :: l) = outcomes l)
    as Hentry by done.
  destruct (Hentry log2) as (E1 & E2 & E3).
  split; cbn [sp_log sp_attempted sp_skipped sp_failures sp_retried].
  - by rewrite <- app_assoc.
  - done.
  - apply Forall_app. split; [done|]. by constructor.
  - by rewrite outcomes_app, E3, Ho1, Ho2.
  - intros t Ht. rewrite sg_held_app, (Hh1 t Ht). simpl. by apply Hh2.
  - rewrite asked_app, E1, Hk2', app_nil_r. exact Hk1'.
  - rewrite asked_again_app, E2, Hg1', asked_app, E1, Hk2', app_nil_r. simpl.
    destruct Hg2 as [->|[-> _]]; [by left|]. right. split; [done|]. split; [|done].
    destruct Hl1 as [[_ [? ?]]|[Hl1 _]]; [done|]. unfold asked. by rewrite Hl1.
  - eapply end_call_ok; [by right|exact Hp2|exact Ha2|]. intros resp' budget' ->.
    eapply attempt_error_ok; [by right|apply Ha2].
Qed.

(** ** Acquiring a candidate *)

Lemma chain_lookup i c : candidates !! i = Some c -> chain !! i = Some (compactionSummaryCandidateRef c).
Proof. intros E. unfold refs. by rewrite list_lookup_fmap, E. Qed.

Lemma chain_candidate i ref : chain !! i = Some ref -> exists c, candidates !! i = Some c /\ compactionSummaryCandidateRef c = ref.
Proof. unfold refs. rewrite list_lookup_fmap. destruct (candidates !! i) as [c|]; [|done]. intros [= <-]. eauto. Qed.

(** A candidate that may be asked next. *)
Definition next_candidate (attempted : gset string) (sel : ModelSelection) : Prop :=
  exists c, candidates !! Z.to_nat (sel_Index sel) = Some c /\
    compactionSummaryCandidateRef c ∉ attempted /\ compactionSummaryCandidateRef c <> ""%string /\
    (sel_Ticket sel = zeroTicket \/ chain !! Z.to_nat (sel_Index sel) = Some (t_Ref (sel_Ticket sel))).

Lemma acquired_next now attempted h sel ok h' : acquire_loop now attempted 0 chain [] h = (sel, ok, h') ->
  if ok then next_candidate attempted sel
  else forall r, r ∈ chain -> r = ""%string \/ r ∈ attempted \/ r ∈ map sk_Ref (sel_Skipped sel).
Proof.
  intros E. apply acquire_loop_spec in E.
  destruct (list_find _ chain) as [[m ref]|] eqn:Ef.
  - destruct E as (-> & Hi & Ht & _). apply list_find_Some in Ef as (Hm & Hel & _).
    destruct (chain_candidate _ _ Hm) as (c & Hc & Href).
    unfold eligible in Hel. to_prop. exists c. rewrite Hi. replace (Z.to_nat (0 + Z.of_nat m)) with m by lia.
    rewrite Href. split_and!; try done. right. by rewrite Ht.
  - destruct E as (-> & _ & _ & ->). simpl. intros r. apply skips_cover.
Qed.

Lemma acquired_spec io attempted h :
  let '(sel, ok, reserved, log, h') := acquire io attempted h in
  sg_held chain None log = Some (if ok then Some (sel_Ticket sel) else None) /\
  asked log = [] /\ asked_again log = [] /\ Forall (eq ModelHealthNeutral) (outcomes log) /\ Forall call_fits log /\
  if ok then next_candidate attempted sel
  else forall r, r ∈ chain -> r = ""%string \/ r ∈ attempted \/ r ∈ map sk_Ref (sel_Skipped sel).
Proof.
  unfold acquireCompactionSummaryCandidate.
  destruct (acquire_loop _ _ _ _ _ _) as [[sel ok] h1] eqn:E. apply acquired_next in E.
  destruct (_ || (ok && _)) eqn:Ed.
  - destruct ok; (split_and!; try done; repeat constructor).
  - apply orb_false_elim in Ed as [[[Hne Hnew]%orb_false_elim Hi]%orb_false_elim _].
    apply bool_decide_eq_false in Hne, Hnew. apply Z.ltb_ge in Hi.
    assert (next_candidate attempted (mkSelection (modelRefIndex chain reservedModelRef) zeroTicket
      (filter (fun s => let i := modelRefIndex chain (sk_Ref s) in 0 <= i < modelRefIndex chain reservedModelRef) (sel_Skipped sel)))).
    { destruct (chain_candidate _ _ (modelRefIndex_lookup _ _ Hi)) as (c & Hc & Href).
      exists c. rewrite Href. split_and!; try done. by left. }
    destruct ok; split_and!; try done; try (simpl; by rewrite decide_True); repeat constructor.
Qed.

(** ** The loop *)

Record gen_inv (sp : SummaryProgress) : Prop := mkGenInv {
  gi_held : sg_held chain None (sp_log sp) = Some None;
  gi_fits : Forall call_fits (sp_log sp);
  gi_neutral : Forall (eq ModelHealthNeutral) (outcomes (sp_log sp));
  gi_asked : NoDup (asked (sp_log sp));
  gi_attempted : forall i, i ∈ asked (sp_log sp) ->
    exists ref, chain !! i = Some ref /\ ref ∈ sp_attempted sp;
  gi_again : asked_again (sp_log sp) = [] \/
    exists i, asked_again (sp_log sp) = [i] /\ i ∈ asked (sp_log sp) /\ sp_retried sp = true;
  gi_reported : forall r, r ∈ sp_attempted sp -> r ∈ map fst (sp_failures sp) \/ r ∈ map sk_Ref (sp_skipped sp);
  gi_distinct : NoDup (map fst (sp_failures sp));
  gi_failed : forall r, r ∈ map fst (sp_failures sp) -> r ∈ sp_attempted sp /\ r ∈ chain;
  gi_because : Forall (fun f => exists round, attempt_because (env round) f.2) (sp_failures sp);
}.

(** How a generation ends, given its log. *)
Definition end_ok (end_ : SummaryEnd) (log : list SummaryLog) : Prop :=
  match end_ with
  | Generated summary resp index =>
    (exists before, outcomes log = before ++ [ModelHealthSuccess] /\ Forall (eq ModelHealthNeutral) before) /\
    (exists round cl, call_of (env round) cl /\ cl_answer cl = CallResponse resp /\ ~ incomplete resp /\
       reconciled cl resp (Ok summary)) /\
    exists c, candidates !! index = Some c /\
      EstimateTextTokens (string_of summary) <= pl_SummaryMaxTokens (window_policy c) /\
      EstimateTextTokens (string_of summary) <= pl_SummaryMaxTokens policy
  | NotGenerated err =>
    Forall (eq ModelHealthNeutral) (outcomes log) /\
    match err with
    | ErrPanic => False
    | ErrNoCandidates => candidates = []
    | ErrChain failures skipped =>
      (forall r, r ∈ chain -> r <> ""%string -> r ∈ map fst failures \/ r ∈ map sk_Ref skipped) /\
      NoDup (map fst failures) /\ (forall r, r ∈ map fst failures -> r ∈ chain) /\
      Forall (fun f => exists round, attempt_because (env round) f.2) failures
    | ErrAttempt e => (exists ref, ref ∈ chain /\ forall r, r ∈ chain -> r <> ""%string -> r = ref) /\
      exists round, attempt_because (env round) e
    | e => exists round, stopped_because (env round) e
    end
  end.

Record generation_ok (result : SummaryResult) : Prop := mkGenerationOk {
  go_held : sg_held chain None result.1.2 = Some None;
  go_fits : Forall call_fits result.1.2;
  go_asked : NoDup (asked result.1.2);
  go_again : asked_again result.1.2 = [] \/ exists i, asked_again result.1.2 = [i] /\ i ∈ asked result.1.2;
  go_end : end_ok result.1.1 result.1.2;
}.

(** The log of a round up to its candidate. *)
Lemma announced log log' entries : Forall quiet_entry entries ->
  asked log' = [] -> asked_again log' = [] ->
  asked (log ++ log' ++ entries) = asked log /\ asked_again (log ++ log' ++ entries) = asked_again log /\
  outcomes (log ++ log' ++ entries) = outcomes log ++ outcomes log'.
Proof.
  intros Hq H1 H2. destruct (quiet_log [] entries Hq) as (_ & Q1 & Q2 & Q3).
  rewrite !asked_app, !asked_again_app, !outcomes_app, H1, H2, Q1, Q2, Q3. by rewrite !app_nil_r.
Qed.

Lemma quiet_fits entries : Forall quiet_entry entries -> Forall call_fits entries.
Proof. intros H. eapply Forall_impl; [exact H|]. by intros []. Qed.

(** The log of a round in which candidate [index] was asked and its circuit was
    told [outcome]. *)
Lemma round_log io sp sp0 sel log entries index c ref e sp' added outcome :
  gen_inv sp -> sp_log sp0 = sp_log sp ++ log ++ entries -> sp_retried sp0 = sp_retried sp ->
  sg_held chain None log = Some (Some (sel_Ticket sel)) -> asked log = [] -> asked_again log = [] ->
  Forall (eq ModelHealthNeutral) (outcomes log) -> Forall call_fits log -> Forall quiet_entry entries ->
  sel_Ticket sel = zeroTicket \/ chain !! index = Some (t_Ref (sel_Ticket sel)) ->
  chain !! index = Some ref -> ref ∉ sp_attempted sp -> adds io index c sp0 e sp' added ->
  let full := sp_log sp' ++ [SgCompleted (sel_Ticket sel) outcome] in
  sg_held chain None full = Some None /\ Forall call_fits full /\ NoDup (asked full) /\
  (exists before, outcomes full = before ++ [outcome] /\ Forall (eq ModelHealthNeutral) before) /\
  (forall i, i ∈ asked full -> exists r, chain !! i = Some r /\ r ∈ {[ref]} ∪ sp_attempted sp) /\
  (asked_again full = [] \/ exists i, asked_again full = [i] /\ i ∈ asked full /\ sp_retried sp' = true).
Proof.
  intros Hinv Hlog Hret Hheld Hk Hg Ho Hf Hq Ht Href Hnew [Hl' _ Hfa Hoa Hha Hka Hga _] full.
  destruct (quiet_log chain entries Hq) as (Qh & Qk & Qg & Qo). destruct Hinv.
  assert (full = ((sp_log sp ++ log ++ entries) ++ added) ++ [SgCompleted (sel_Ticket sel) outcome]) as ->
    by (unfold full; by rewrite Hl', Hlog).
  rewrite !asked_app, !asked_again_app, !outcomes_app, Hk, Hg, Hoa, Qk, Qg, Qo. simpl. rewrite !app_nil_r.
  assert (index ∉ asked (sp_log sp)) as Hout.
  { intros Hi. destruct (gi_attempted0 _ Hi) as (r & Hr & Hin). rewrite Href in Hr. injection Hr as ->. done. }
  split; [|split; [|split; [|split; [|split]]]].
  - rewrite <- !app_assoc, (sg_held_step _ _ _ _ _ gi_held0), (sg_held_step _ _ _ _ _ Hheld),
      (sg_held_step _ _ _ _ _ (Qh _)), (sg_held_step _ _ _ _ _ (Hha _ Ht)). simpl. by rewrite decide_True.
  - rewrite !Forall_app. split_and!; try done; [by apply quiet_fits|by repeat constructor].
  - destruct Hka as [-> | ->]; rewrite ?app_nil_r; [done|]. apply NoDup_app. split; [done|]. split; [|apply NoDup_singleton].
    by intros x Hx ->%list_elem_of_singleton.
  - eexists. split; [done|]. rewrite Forall_app. done.
  - intros i [Hi|Hi]%elem_of_app.
    + destruct (gi_attempted0 _ Hi) as (r & Hr & Hin). exists r. set_solver.
    + destruct Hka as [Hka|Hka]; rewrite Hka in Hi; [by apply elem_of_nil in Hi|].
      apply list_elem_of_singleton in Hi as ->. exists ref. set_solver.
  - destruct Hga as [[-> Hkeep]|(-> & Hka' & Hr0 & Hr')].
    + rewrite app_nil_r. destruct gi_again0 as [?|(i & Hi & Hin & Hr)]; [by left|]. right. exists i.
      split; [done|]. split; [by apply elem_of_app; left|]. apply Hkeep. congruence.
    + destruct gi_again0 as [->|(i & _ & _ & Hr)]; [|congruence]. right. exists index. split; [done|].
      split; [|done]. rewrite Hka'. apply elem_of_app. right. by apply list_elem_of_singleton.
Qed.

(** After the candidate [ref] has failed and its circuit has been told nothing. *)
Lemma gen_inv_failed round sp sp0 skips index c ref err sp' added full :
  gen_inv sp -> adds (env round) index c sp0 (CandidateFailed err) sp' added -> chain !! index = Some ref -> ref ∉ sp_attempted sp ->
  sp_attempted sp0 = {[ref]} ∪ (skip_refs skips ∪ sp_attempted sp) -> sp_skipped sp0 = sp_skipped sp ++ skips ->
  sp_failures sp0 = sp_failures sp ->
  sg_held chain None full = Some None /\ Forall call_fits full /\ NoDup (asked full) /\
  (exists before, outcomes full = before ++ [ModelHealthNeutral] /\ Forall (eq ModelHealthNeutral) before) /\
  (forall i, i ∈ asked full -> exists r, chain !! i = Some r /\ r ∈ {[ref]} ∪ sp_attempted sp) /\
  (asked_again full = [] \/ exists i, asked_again full = [i] /\ i ∈ asked full /\ sp_retried sp' = true) ->
  gen_inv (mkSummaryProgress (sp_attempted sp') (sp_skipped sp') (sp_failures sp' ++ [(ref, err)])
    (sp_instructions sp') (sp_retried sp') (sp_attempt sp') full).
Proof.
  intros Hinv [_ (Ha & Hs & Hfl) _ _ _ _ _ Hbecause] Href Hnew Ea Es Ef (Fh & Ff & Fk & (before & Fo & Fn) & Fi & Fg).
  destruct Hinv. rewrite Ha, Hs, Hfl, Ea, Es, Ef.
  split; cbn [sp_log sp_attempted sp_retried sp_failures sp_skipped]; try done.
  - rewrite Fo. apply Forall_app. split; [done|]. by repeat constructor.
  - intros i Hi. destruct (Fi i Hi) as (r & Hr & Hin). exists r. set_solver.
  - intros r. rewrite !elem_of_union, skip_refs_spec, !map_app. simpl.
    intros [?|[?|Hr]]; [set_solver..|]. specialize (gi_reported0 r Hr). set_solver.
  - rewrite map_app. simpl. apply NoDup_app. split; [done|]. split; [|apply NoDup_singleton].
    intros x Hx ->%list_elem_of_singleton. by destruct (gi_failed0 ref Hx).
  - intros r. rewrite map_app. simpl. intros [Hr|Hr%list_elem_of_singleton]%elem_of_app.
    + destruct (gi_failed0 r Hr). set_solver.
    + subst. split; [set_solver|]. by eapply list_elem_of_lookup_2.
  - apply Forall_app. split; [done|]. constructor; [by exists round|constructor].
Qed.

Lemma failures_bounded sp : gen_inv sp -> (length (sp_failures sp) <= length candidates)%nat.
Proof.
  intros [_ _ _ _ _ _ _ Hnd Hin _]. rewrite <- (length_map fst), <- (length_map compactionSummaryCandidateRef candidates).
  apply submseteq_length, NoDup_submseteq; [done|]. intros r Hr. by apply Hin.
Qed.

(** A generation that ends while acquiring: [entries] and [tail] follow the log
    of the acquisition. *)
Lemma stopped_ok sp log open entries tail end_ h : gen_inv sp ->
  sg_held chain None log = Some open -> asked log = [] -> asked_again log = [] ->
  Forall (eq ModelHealthNeutral) (outcomes log) -> Forall call_fits log -> Forall quiet_entry entries ->
  tail = option_list ((fun t => SgCompleted t ModelHealthNeutral) <$> open) ->
  (forall log', Forall (eq ModelHealthNeutral) (outcomes log') -> end_ok end_ log') ->
  generation_ok (end_, (sp_log sp ++ log ++ entries) ++ tail, h).
Proof.
  intros [] Hheld Hk Hg Ho Hf Hq -> Hend. destruct (quiet_log chain entries Hq) as (Qh & Qk & Qg & Qo).
  set (tail := option_list _).
  assert (sg_held chain open tail = Some None /\ asked tail = [] /\ asked_again tail = [] /\
    Forall (eq ModelHealthNeutral) (outcomes tail) /\ Forall call_fits tail) as (T1 & T2 & T3 & T4 & T5).
  { unfold tail. destruct open; simpl; rewrite ?decide_True by done; split_and!; try done; by repeat constructor. }
  split; cbn [fst snd].
  - by rewrite <- !app_assoc, (sg_held_step _ _ _ _ _ gi_held0), (sg_held_step _ _ _ _ _ Hheld),
      (sg_held_step _ _ _ _ _ (Qh _)).
  - rewrite !Forall_app. split_and!; try done. by apply quiet_fits.
  - by rewrite !asked_app, Hk, Qk, T2, !app_nil_r.
  - rewrite !asked_again_app, !asked_app, Hg, Qg, T3, Hk, Qk, T2, !app_nil_r.
    destruct gi_again0 as [?|(i & ? & ? & _)]; [by left|right; by exists i].
  - apply Hend. rewrite !outcomes_app, Qo, app_nil_r, !Forall_app. done.
Qed.

(** No candidate is left. *)
Lemma exhausted_ok sp skips log' : gen_inv sp -> Forall (eq ModelHealthNeutral) (outcomes log') ->
  (forall r, r ∈ chain -> r = ""%string \/ r ∈ sp_attempted sp \/ r ∈ map sk_Ref skips) ->
  end_ok (NotGenerated
    (match sp_failures sp with
     | [(_, e)] => if bool_decide (sp_skipped sp ++ skips = []) then ErrAttempt e
                   else ErrChain (sp_failures sp) (sp_skipped sp ++ skips)
     | failures => ErrChain failures (sp_skipped sp ++ skips)
     end)) log'.
Proof.
  intros Hinv Hn Hnext. split; [done|].
  assert (forall r, r ∈ chain -> r <> ""%string ->
    r ∈ map fst (sp_failures sp) \/ r ∈ map sk_Ref (sp_skipped sp ++ skips)) as Hall.
  { intros r Hr Hne. rewrite map_app, elem_of_app. destruct (Hnext r Hr) as [?|[Ha|?]]; [done| |auto].
    destruct (gi_reported _ Hinv r Ha); auto. }
  pose proof (gi_distinct _ Hinv) as Hnd. pose proof (gi_because _ Hinv) as Hb.
  assert (forall r, r ∈ map fst (sp_failures sp) -> r ∈ chain) as Hin by (intros r Hr; by apply (gi_failed _ Hinv)).
  destruct (sp_failures sp) as [|[r e] [|f l]]; [by split_and!| |by split_and!].
  case_bool_decide as Hskip; [|by split_and!]. split; [|by apply Forall_cons in Hb as [? _]].
  exists r. split; [apply Hin; by constructor|]. intros r' Hr' Hne.
  destruct (Hall r' Hr' Hne) as [Hx|Hx]; [by apply list_elem_of_singleton in Hx|].
  rewrite Hskip in Hx. by apply elem_of_nil in Hx.
Qed.

(** A round whose log [full] has settled its candidate with [outcome]. *)
Lemma settled_ok sp' full outcome end_ h :
  sg_held chain None full = Some None -> Forall call_fits full -> NoDup (asked full) ->
  (exists before, outcomes full = before ++ [outcome] /\ Forall (eq ModelHealthNeutral) before) ->
  (asked_again full = [] \/ exists i, asked_again full = [i] /\ i ∈ asked full /\ sp_retried sp' = true) ->
  (outcome = ModelHealthNeutral /\ (Forall (eq ModelHealthNeutral) (outcomes full) -> end_ok end_ full) \/
   exists round index c, candidates !! index = Some c /\ candidate_end_ok (env round) index c (CandidateEnds outcome end_)) ->
  generation_ok (end_, full, h).
Proof.
  intros Fh Ff Fk Fo Fg Hend. split; cbn [fst snd]; try done.
  - destruct Fg as [?|(i & ? & ? & _)]; [by left|right; by exists i].
  - assert (outcome = ModelHealthNeutral -> Forall (eq ModelHealthNeutral) (outcomes full)) as Hn.
    { intros ->. destruct Fo as (before & -> & Hb). apply Forall_app. split; [done|by repeat constructor]. }
    destruct Hend as [[Ho Hend]|(round & index & c & Hc & Hend)]; [by apply Hend, Hn|].
    destruct end_ as [summary resp i|err]; cbn in Hend.
    + destruct Hend as (-> & -> & (cl & H0) & H1 & H2). split; [done|]. split; [by exists round, cl|]. by exists c.
    + destruct Hend as [-> Herr]. split; [by apply Hn|]. destruct err; done || (by exists round).
Qed.

Lemma generate_loop_spec fuel : forall round from committed sp h, gen_inv sp ->
  (committed = false -> exists before, ri_fallback_committed (env before) = false) ->
  (length candidates < fuel + length (sp_failures sp))%nat ->
  exists result, generate_from fuel round from committed sp h = Some result /\ generation_ok result.
Proof.
  induction fuel as [|k IH]; intros round from committed sp h Hinv Hcom Hfuel.
  { pose proof (failures_bounded sp Hinv). lia. }
  cbn [generate_loop]. pose proof (acquired_spec (env round) (sp_attempted sp) h) as Hacq.
  destruct (acquire (env round) (sp_attempted sp) h) as [[[[sel ok] reserved] log] h1].
  destruct Hacq as (Hheld & Hk & Hg & Ho & Hf & Hnext).
  destruct committed; simpl negb; cbv iota.
  2: { eexists. split; [done|]. pose proof (stopped_ok sp log _ [] _ (NotGenerated ErrFallbackCommit)
         (if ok then complete_or_same (ri_completed_at (env round)) (sel_Ticket sel) ModelHealthNeutral (ri_between (env round) h1) else h1)
         Hinv Hheld Hk Hg Ho Hf ltac:(constructor) eq_refl ltac:(intros log' Hl; split; [exact Hl|by apply Hcom])) as Hs.
       rewrite app_nil_r in Hs. destruct ok; simpl in Hs; [done|]. by rewrite app_nil_r in Hs. }
  set (ref := if ok then _ else _). set (entries := option_list _ ++ map _ _).
  assert (Forall quiet_entry entries) as Hq.
  { apply Forall_app. split; [by destruct from; repeat constructor|]. apply Forall_forall.
    by intros x (s & -> & _)%list_elem_of_fmap. }
  destruct ok; simpl negb; cbv iota.
  2: { eexists. split; [done|]. replace ((sp_log sp ++ log) ++ entries) with ((sp_log sp ++ log ++ entries) ++ [])
         by (by rewrite app_nil_r, app_assoc).
       eapply stopped_ok; try done. intros log' Hlog'. by apply exhausted_ok. }
  destruct Hnext as (c & Hc & Hnew & _ & Ht). pose proof (chain_lookup _ _ Hc) as Href. rewrite Hc.
  assert (ref = compactionSummaryCandidateRef c) as Eref by (unfold ref; by rewrite Href).
  rewrite <- Eref in Href, Hnew. clearbody ref. set (sp0 := mkSummaryProgress _ _ _ _ _ _ _).
  pose proof (run_spec (env round) (Z.to_nat (sel_Index sel)) c sp0 Hc) as Hrun.
  destruct (run (env round) (Z.to_nat (sel_Index sel)) c sp0) as [e sp']. destruct Hrun as [added Hadds].
  assert (sp_log sp0 = sp_log sp ++ log ++ entries) as Hlog0 by (unfold sp0; simpl; by rewrite app_assoc).
  pose proof (fun outcome => round_log (env round) sp sp0 sel log entries _ c ref e sp' added outcome Hinv Hlog0 eq_refl Hheld Hk Hg Ho Hf Hq
    Ht Href Hnew Hadds) as Hround.
  destruct e as [outcome end_|err]; [|destruct (ri_cancelled (env round)) eqn:Ecancel].
  - eexists. split; [done|]. destruct (Hround outcome) as (Fh & Ff & Fk & Fo & _ & Fg).
    eapply settled_ok; try done. right. exists round, (Z.to_nat (sel_Index sel)), c. split; [done|]. by destruct Hadds.
  - eexists. split; [done|]. destruct (Hround ModelHealthNeutral) as (Fh & Ff & Fk & Fo & _ & Fg).
    eapply settled_ok; try done. left. split; [done|]. intros Hn. split; [exact Hn|by exists round].
  - apply IH; [by eapply gen_inv_failed, (Hround ModelHealthNeutral)|intros ?; by exists round|].
    cbn [sp_failures]. rewrite length_app. destruct Hadds as [_ (_ & _ & ->) _ _ _ _ _ _]. simpl. lia.
Qed.

Lemma indices_bounded n (l : list nat) : NoDup l -> Forall (fun i => (i < n)%nat) l -> (length l <= n)%nat.
Proof.
  intros Hn Hl. rewrite <- (length_seq n 0). apply submseteq_length, NoDup_submseteq; [done|].
  intros i Hi. rewrite Forall_forall in Hl. apply elem_of_seq. specialize (Hl i Hi). lia.
Qed.

Lemma asked_in_chain log : forall i, Forall call_fits log -> i ∈ asked log -> (i < length candidates)%nat.
Proof.
  induction log as [|e log IH]; intros i Hf Hi; [by apply elem_of_nil in Hi|].
  apply Forall_cons in Hf as [He Hf]. unfold asked, sg_calls in *. simpl in Hi.
  destruct e as [| |index attempt retry system history out| | |]; simpl in Hi; try (by apply IH).
  destruct retry; simpl in Hi; [by apply IH|]. apply elem_of_cons in Hi as [->|Hi]; [|by apply IH].
  destruct He as (c & Hc & _). by eapply lookup_lt_Some.
Qed.

Lemma calls_counted log : length (sg_calls log) = (length (asked log) + length (asked_again log))%nat.
Proof.
  unfold asked, asked_again. rewrite !length_map. induction (sg_calls log) as [|[i []] l IH]; [done|..];
    rewrite !filter_cons; simpl; lia.
Qed.
End Generation.

Lemma generation_runs encode_input state_text stable_id message_size fold compaction policy baseSystem
    previous input state defaultContextWindow reservedModelRef candidates env instructions h :
  exists result,
    generateCompactionSummaryLocked encode_input state_text stable_id message_size fold compaction policy baseSystem
      previous input state defaultContextWindow reservedModelRef candidates env instructions h = Some result /\
    generation_ok encode_input state_text stable_id message_size fold compaction policy baseSystem previous input state
      defaultContextWindow candidates env result.
Proof.
  unfold generateCompactionSummaryLocked. destruct candidates as [|c l].
  { eexists. split; [done|]. split; cbn [fst snd]; [done|constructor|apply NoDup_nil_2|by left|]. split; [constructor|done]. }
  apply generate_loop_spec; [|done|simpl; lia].
  split; cbn [sp_log sp_attempted sp_skipped sp_failures sp_retried];
    [done|constructor|constructor|apply NoDup_nil_2| |by left| |apply NoDup_nil_2| |constructor]; intros ? ?; set_solver.
Qed.

(** C16: the generation of a summary ends, whatever the models answer and other
    turns do. It asks each candidate at most once, and one of them once more, with
    requests that leave room for the answer in the window of the candidate. Every
    circuit it reserves is settled before the next one, and told of nothing but a
    success: a model that cannot summarise is not taken from the turns. A summary
    that it returns is a complete answer of a candidate, with the sections of the
    modules, and fits the room that the compaction has left for it. An error has
    its cause in what happened: a commit that failed, an answer whose sections
    cannot be reconciled, a cancellation; and when no candidate is left, every one
    of the chain has failed, for a reason that is given, or was skipped. *)
Theorem summary_generation_settles encode_input state_text stable_id message_size fold compaction policy baseSystem
    previous input state defaultContextWindow reservedModelRef candidates env instructions h :
  exists end_ log h',
    generateCompactionSummaryLocked encode_input state_text stable_id message_size fold compaction policy baseSystem
      previous input state defaultContextWindow reservedModelRef candidates env instructions h = Some (end_, log, h') /\
    sg_held (refs candidates) None log = Some None /\
    Forall (call_fits encode_input compaction policy defaultContextWindow candidates) log /\
    NoDup (asked log) /\
    (asked_again log = [] \/ exists i, asked_again log = [i] /\ i ∈ asked log) /\
    (length (sg_calls log) <= S (length candidates))%nat /\
    end_ok encode_input state_text stable_id message_size fold compaction policy baseSystem previous input state
      defaultContextWindow candidates env end_ log.
Proof.
  destruct (generation_runs encode_input state_text stable_id message_size fold compaction policy baseSystem
    previous input state defaultContextWindow reservedModelRef candidates env instructions h)
    as ([[end_ log] h'] & E & [Hh Hf Hk Hg Hend]). cbn [fst snd] in *.
  exists end_, log, h'. split_and!; try done. rewrite calls_counted.
  assert (length (asked log) <= length candidates)%nat.
  { apply indices_bounded; [done|]. apply Forall_forall. intros i Hi. by eapply asked_in_chain. }
  destruct Hg as [-> |(i & -> & _)]; simpl; lia.
Qed.

(** ** A run *)

Definition ex_response (stop text : string) : Response := mkResponse (TextMessage RoleAssistant text) stop.

Definition ex_round (first second : Response) : RoundIo :=
  let io resp := mkCallIo (CallResponse resp) (fun _ => false) in
  mkRoundIo (fun h => h) 0 (fun h => h) 0 (io first) true (io second) false (fun h => h) 0 true.

(** The first model is cut off and then says nothing; the second answers. *)
Example summary_falls_back :
  match generateCompactionSummaryLocked (fun _ => None) (fun _ => ""%string) (fun _ _ => "id"%string) (fun _ => Some 0)
    fold_ascii DefaultCompactionPolicy (EffectivePolicy DefaultCompactionPolicy 100000 100000) "" (TextMessage RoleUser "")
    [TextMessage RoleUser "hello"] [] 100000 ""
    [mkCandidate "a" (Some "pa"%string) 100000 0; mkCandidate "b" (Some "pb"%string) 100000 0]
    (fun n => if (n =? 0)%nat then ex_round (ex_response StopMaxTokens "Tasks") (ex_response "end_turn" "")
              else ex_round (ex_response "end_turn" "Tasks: none") (ex_response "end_turn" ""))
    "" NewModelHealth with
  | Some (Generated summary _ index, log, _) =>
    string_of summary = "Tasks: none"%string /\ index = 1%nat /\
    sg_calls log = [(0%nat, false); (0%nat, true); (1%nat, false)] /\
    outcomes log = [ModelHealthNeutral; ModelHealthSuccess]
  | _ => False
  end.
Proof. vm_compute. done. Qed.
