(* ===== verification/Compaction.v ===== *)
(** * The compaction of a context

    [compactLockedForContextWindow] and [maybeCompact] ([runtime/compact.go]) with
    the staging of module changes ([module/lifecycle.go], [StageContextTransition])
    and the renewal of a context ([newContextLocked], [runtime/context_generation.go]):
    the history of a thread is split ([ContextBudget]), a part is summarised
    ([SummaryGeneration]), and the next generation of the thread begins with the
    summary and the kept messages ([ThreadStore.BeginCompactedGeneration]).
    Modules stage their change before the boundary and finalize it or roll it
    back after.

    The thread is its handle and its directory. What reads files or modules
    (contributions, projections, policies) and every commit of an event is an
    outcome. *)

From Stdlib Require Import Ascii String.
From S2P Require Import Prelude GoStd Utf8 GoText Llm ContextText ThreadTypes ThreadFacts ThreadStore ThreadReplay ContextBudget ModelHealth ModelFallback SummaryRequest SummaryText SummaryGeneration.

Local Open Scope Z_scope.
Local Open Scope juex_scope.

(** ** Staged changes of modules *)

Inductive ChangeLog :=
| ChStaged (module : string)
| ChFinalized (module : string)
| ChRolledBack (module : string).

(** The loop of [StageContextTransition] over the modules that take part;
    [staged]: those that have staged their change. A module that cannot makes
    the others roll back, the last first. *)
Fixpoint stage_modules (ok : string -> bool) (staged modules : list string) : option (list string) * list ChangeLog :=
  match modules with
  | [] => (Some staged, [])
  | m :: rest =>
    if ok m then
      let '(r, log) := stage_modules ok (staged ++ [m]) rest in
      (r, ChStaged m :: log)
    else (None, map ChRolledBack (rev staged))
  end.

Definition StageContextTransition (ok : string -> bool) (modules : list string) :
    option (list string) * list ChangeLog := stage_modules ok [] modules.

Definition Finalize (staged : list string) : list ChangeLog := map ChFinalized staged.
Definition Rollback (staged : list string) : list ChangeLog := map ChRolledBack (rev staged).

(** What can go wrong at a boundary. The journal may have taken it although
    [TeBoundary (ErrProjectionStale _)] is reported ([ProjectionPersistError]). *)
Inductive TransitionError :=
| TeStage
| TeBoundary (e : ThreadError)
| TeFinalize.

(** The boundary [begin] between the staging of the modules and its end:
    the error, and whether the journal has the boundary. *)
Definition cross_boundary {A} (ok : string -> bool) (modules : list string) (settled : bool) (begin : M A)
    (w : World) : option TransitionError * bool * World * list ChangeLog :=
  match StageContextTransition ok modules with
  | (None, log) => (Some TeStage, false, w, log)
  | (Some staged, log) =>
    match begin w with
    | (Ok _, w) => (if settled then None else Some TeFinalize, true, w, log ++ Finalize staged)
    | (Err e, w) =>
      if is_persist_error e then (Some (TeBoundary e), true, w, log ++ Finalize staged)
      else (Some (TeBoundary e), false, w, log ++ Rollback staged)
    end
  end.

(** ** Texts *)

Local Definition nl : string := String newline "".

Definition compactMessagePrefix : string :=
  ("Context compacted automatically because the provider context window is nearing its limit." ++ nl ++ nl
   ++ "Summary of earlier conversation:" ++ nl)%string.

Definition compactMessageText (summary : string) : string := (compactMessagePrefix ++ summary)%string.

(** A block of [appendCompactionInputReferences]. *)
Definition reference_block (b : Block) : string :=
  match b_Type b with
  | BlockText =>
    if (b_Text b <>?s "") &&
       match b_Artifact b with None => true | Some a => ar_SourceKind a =?s "user_input" end
    then if HasSuffix [newline] (T (b_Text b)) then b_Text b else (b_Text b ++ nl)%string
    else ""
  | BlockImage =>
    match b_Media b with
    | None => ""
    | Some m =>
      ("Image: path=" ++ md_ArtifactPath m ++ " type=" ++ md_MediaType m ++ " sha256=" ++ md_SHA256 m
       ++ " bytes=" ++ Itoa (md_OriginalBytes m)
       ++ (if ((0 <? md_Width m) && (0 <? md_Height m))%Z
           then " size=" ++ Itoa (md_Width m) ++ "x" ++ Itoa (md_Height m) else "") ++ nl)%string
    end
  | _ => ""
  end.

Definition reference_text (m : Message) : string :=
  (nl ++ "Message " ++ m_ID m ++ (if m_Kind m =?s "" then "" else " (" ++ m_Kind m ++ ")") ++ ":" ++ nl
   ++ String.concat "" (map reference_block (blocks m)))%string.

Definition appendCompactionInputReferences (summary : string) (messages : list Message) : string :=
  match messages with
  | [] => summary
  | _ =>
    TrimSpace (TrimSpace summary ++ nl ++ nl ++ "Retained Input References" ++ nl
               ++ String.concat "" (map reference_text messages))
  end.

Definition set_Text (text : string) (b : Block) : Block :=
  mkBlock (b_Type b) text (b_Media b) (b_ToolUseID b) (b_ToolName b) (b_Input b) (b_TimeoutSeconds b)
    (b_Content b) (b_IsError b) (b_Signature b) (b_Redacted b) (b_Artifact b) (b_ResultFact b).

(** Sets the text of the first text block. *)
Fixpoint set_first_text (text : string) (l : list Block) : list Block :=
  match l with
  | [] => []
  | b :: rest => if bool_decide (b_Type b = BlockText) then set_Text text b :: rest else b :: set_first_text text rest
  end.

(** [compactionModelSummary]: the summary without its envelope and the
    references behind it. *)
Definition compactionModelSummary (m : Message) : Message :=
  match m_Compaction m with
  | Some c =>
    if cm_SummaryChars c <=? 0 then m
    else
      let text := string_of (TrimPrefix (T compactMessagePrefix) (T (FirstText m))) in
      if len text <? cm_SummaryChars c then m
      else with_Blocks (set_first_text (slice 0 (cm_SummaryChars c) text) (blocks m)) m
  | None => m
  end.

(** ** Data *)

Inductive CompactError :=
| CeContributions
| CePolicy
| CeProjection
| CeProjectionEvent
| CeReferences
| CeContext
| CeStarted
| CeReplacements
| CeProject
| CeNoRoom (tokens limit : Z)
| CeGenerate (e : SummaryError)
| CeCancelled
| CeBudget (tokens limit : Z)
| CeCommit (e : TransitionError)
| CeCompleted
| CePostContext
| CePostPolicy
| CePaused
| CeJoined (e : CompactError).

(** [ci_contributions]: the state of the modules; [ci_instructions]: those of
    the policies; [ci_oversized]: the inputs with the oversized ones projected,
    and their references; [ci_references]: the references that are kept;
    [ci_context]: the messages of modules and policies, before and after the
    modules have replaced theirs; [ci_project]: the projection for a provider;
    [ci_cancelled]: whether the context is cancelled after the summary and at the
    commit; [ci_store]: the outcomes of the storage calls of the boundary;
    [ci_settled]: whether every module ends its change without an error;
    [ci_active]: the messages of modules and policies that [maybeCompact] sees. *)
Record CompactIo := mkCompactIo {
  ci_contributions : option (list Contribution);
  ci_instructions : option (list string);
  ci_oversized : list Message -> list string -> option (list Message * list Message);
  ci_projection_committed : bool;
  ci_references : option Message -> list Message -> option (list Message);
  ci_context : option (list Message);
  ci_started : bool;
  ci_replaced : option (list Message);
  ci_project : list Message -> option (list Message);
  ci_rounds : nat -> RoundIo;
  ci_cancelled : nat -> bool;
  ci_modules : list string;
  ci_staged : string -> bool;
  ci_store : Io;
  ci_settled : bool;
  ci_errored : bool;
  ci_completed : bool;
  ci_post_context : bool;
  ci_post_policy : bool;
  ci_fresh : string;
  ci_active : option (list Message);
  ci_skipped : bool;
}.

Record CompactionResult := mkCompactionResult {
  cr_MessageID : string;
  cr_TokensBefore : Z;
  cr_TokensAfter : Z;
  cr_SummaryChars : Z;
  cr_SummaryModel : string;
  cr_TailStartMessageID : string;
  cr_FirstKeptMessageID : string;
}.

Record CompactState := mkCompactState {
  cs_world : World;
  cs_health : ModelHealth;
  cs_failures : Z;
  cs_changes : list ChangeLog;
}.

(** What is known before the summary is asked for. *)
Record Prepared := mkPrepared {
  pp_policy : Policy;
  pp_selection : Selection;
  pp_input : list Message;
  pp_references : list Message;
  pp_contributions : list Contribution;
  pp_instructions : string;
  pp_before : Z;
  pp_room : Z;
  pp_runtime : list Message;
}.

(** The message of a summary and the size of the context that it makes. *)
Record Plan := mkPlan {
  pn_message : Message;
  pn_usage : ContextUsage;
  pn_before : Z;
  pn_after : Z;
  pn_chars : Z;
  pn_model : string;
  pn_tail_start : string;
  pn_first_kept : string;
}.

Section Compact.
  Context (json_size : Commit -> option Z).
  Context (encode_input : list (string * Json) -> option string) (state_text : list Contribution -> string).
  Context (stable_id : nat -> Message -> string) (message_size : Message -> option Z) (fold : Z -> Z).
  (** The engine: its policy, its calibration, the tokens of its tools, its
      models. *)
  Context (compaction : CompactionPolicy) (calibration : TokenEstimateCalibration) (toolTokens : Z)
    (summaryProvider : option (string * string * Z)) (effective : list ModelCandidate).
  Context (io : CompactIo) (systemPrompt reason : string) (auto : bool) (instructions : string)
    (contextWindow : Z) (reservedModelRef : string) (incoming : list Message).

Definition message_tokens (l : list Message) : Z :=
  EstimateMessageTokens (fun input => len <$> encode_input input) l.

Definition estimateMessageTokens (l : list Message) : Z := Calibration_Apply calibration (message_tokens l).

(** [estimateContextTokens] before calibration. *)
Definition context_tokens (l : list Message) : Z := EstimateTextTokens systemPrompt + toolTokens + message_tokens l.

Definition window : Z := if contextWindow <=? 0 then DefaultContextWindowTokens else contextWindow.

Definition compact_policy : Policy := EffectivePolicy compaction contextWindow DefaultContextWindowTokens.

(** [newSummaryMessage] with the model and the tokens that are set later. *)
Definition summary_of (p : Prepared) (summary model : string) (after : Z) : Message :=
  newSummaryMessage (pp_selection p) auto reason
    (compactMessageText (appendCompactionInputReferences summary (pp_references p))) model
    (pp_references p) (pp_before p) after (len summary).

(** [projectSummary]: what a provider would be sent with the summary [m]. *)
Definition project_summary (history : list Message) (runtime : list Message) (m : Message) : option (list Message) :=
  ci_project io (AssembleActiveContext (history ++ [m]) incoming ++ runtime).

Definition guard_that (b : bool) (e : CompactError) : result CompactError unit := if b then Ok tt else Err e.
Definition need {A} (o : option A) (e : CompactError) : result CompactError A :=
  match o with Some a => Ok a | None => Err e end.

(** Up to the room of the summary; [None]: there is nothing to compact. *)
Definition prepare_compaction (history : list Message) : result CompactError (option Prepared) :=
  let policy := compact_policy in
  if negb (pl_Enabled policy) then Ok None
  else
    let selection := SelectInputWithEstimator estimateMessageTokens (ProviderVisibleMessages history) policy in
    if bool_decide (sl_SummaryInput selection = []) && bool_decide (sl_PreviousSummary selection = None) then Ok None
    else
      try contributions := need (ci_contributions io) CeContributions in
      try extra := need (ci_instructions io) CePolicy in
      let merged := mergeCompactInstructions
        (mergeCompactInstructions [pl_Instructions policy; instructions] :: extra) in
      try projected := need (ci_oversized io (sl_SummaryInput selection) (sl_OversizedInputIDs selection)) CeProjection in
      try _ := guard_that (ci_projection_committed io) CeProjectionEvent in
      try references := need (ci_references io (sl_PreviousSummary selection) projected.2) CeReferences in
      try runtime := need (ci_context io) CeContext in
      let before := Calibration_Apply calibration (context_tokens (AssembleActiveContext history incoming ++ runtime)) in
      try _ := guard_that (ci_started io) CeStarted in
      try replaced := need (ci_replaced io) CeReplacements in
      let p room := mkPrepared policy selection projected.1 references contributions merged before room replaced in
      try minimum := need (project_summary history replaced (summary_of (p 0) "." "" 0)) CeProject in
      let base := context_tokens minimum in
      match summaryRoom calibration base policy with
      | None => Err (CeNoRoom (Calibration_Apply calibration base) (pl_TriggerTokens policy))
      | Some room => Ok (Some (p room))
      end.

Definition generate_summary (p : Prepared) (h : ModelHealth) : option SummaryResult :=
  generateCompactionSummaryLocked encode_input state_text stable_id message_size fold compaction
    (with_SummaryMaxTokens (pp_room p) (pp_policy p)) systemPrompt
    (match sl_PreviousSummary (pp_selection p) with
     | Some m => compactionModelSummary m
     | None => TextMessage RoleUser ""
     end)
    (pp_input p) (pp_contributions p) window reservedModelRef
    (compactionSummaryCandidatesLocked summaryProvider (pp_policy p) effective) (ci_rounds io) (pp_instructions p) h.

(** From a summary to the message that is committed. *)
Definition plan_compaction (history : list Message) (p : Prepared) (summary : text) (resp : Response) (index : nat) :
    result CompactError Plan :=
  if ci_cancelled io 0%nat then Err CeCancelled
  else
    let provider := match compactionSummaryCandidatesLocked summaryProvider (pp_policy p) effective !! index with
                    | Some c => default ""%string (mc_Provider c)
                    | None => ""%string
                    end in
    let model := if m_Model (re_Message resp) =?s "" then provider else m_Model (re_Message resp) in
    let summary := string_of summary in
    try after := need (project_summary history (pp_runtime p) (summary_of p summary model 0)) CeProject in
    let tokens := Calibration_Apply calibration (context_tokens after) in
    if pl_TriggerTokens (pp_policy p) <? tokens then Err (CeBudget tokens (pl_TriggerTokens (pp_policy p)))
    else
      Ok (mkPlan (summary_of p summary model tokens)
            (mkContextUsage model window tokens 0 0 tokens
               [mkContextUsagePart "active_context" "active context after compaction" tokens])
            (pp_before p) tokens (len summary) model
            (sl_TailStartMessageID (pp_selection p)) (sl_FirstKeptMessageID (pp_selection p))).

(** [commitCompactionMarker]. *)
Definition commitCompactionMarker (plan : Plan) (w : World) : option CompactError * World * list ChangeLog :=
  if ci_cancelled io 1%nat then (Some CeCancelled, w, [])
  else
    let '(err, _, w, log) :=
      cross_boundary (ci_staged io) (ci_modules io) (ci_settled io)
        (BeginCompactedGeneration json_size (ci_store io) (ci_fresh io) (pn_message plan) auto
           (Some (pn_usage plan))) w in
    (CeCommit <$> err, w, log).

(** The id of the summary in the last activity of the thread. *)
Definition summary_id (plan : Plan) (w : World) : string :=
  match last (s_Activities (h_state w.1)) with
  | Some a => match v_Summary a with Some m => m_ID m | None => m_ID (pn_message plan) end
  | None => m_ID (pn_message plan)
  end.

Definition plan_result (plan : Plan) (w : World) : CompactionResult :=
  mkCompactionResult (summary_id plan w) (pn_before plan) (pn_after plan) (pn_chars plan) (pn_model plan)
    (pn_tail_start plan) (pn_first_kept plan).

(** Joined with another error when the event is not committed. *)
Definition reportCompactionError (e : CompactError) : CompactError :=
  if ci_errored io then e else CeJoined e.

(** The start of a compaction is the one step whose error is not reported. *)
Definition prepare_error (e : CompactError) : CompactError :=
  match e with
  | CeStarted => CeStarted
  | e => reportCompactionError e
  end.

(** What follows a boundary. *)
Definition completion_error : option CompactError :=
  if negb (ci_completed io) then Some CeCompleted
  else if negb (ci_post_context io) then Some CePostContext
  else if negb (ci_post_policy io) then Some CePostPolicy
  else None.

(** The result and the error of a compaction; neither when nothing was done. *)
Definition Compacted : Type := option CompactionResult * option CompactError.

(** [None]: the rounds of the summary do not suffice. *)
Definition compactLocked (st : CompactState) : option (Compacted * CompactState) :=
  let w := cs_world st in
  let history := s_ProviderMessages (h_state w.1) in
  match prepare_compaction history with
  | Err e => Some ((None, Some (prepare_error e)), st)
  | Ok None => Some ((None, None), st)
  | Ok (Some p) =>
    match generate_summary p (cs_health st) with
    | None => None
    | Some (end_, _, health) =>
      let keep w failures log := mkCompactState w health failures (cs_changes st ++ log) in
      match end_ with
      | NotGenerated e => Some ((None, Some (reportCompactionError (CeGenerate e))), keep w (cs_failures st) [])
      | Generated summary resp index =>
        match plan_compaction history p summary resp index with
        | Err e => Some ((None, Some (reportCompactionError e)), keep w (cs_failures st) [])
        | Ok plan =>
          match commitCompactionMarker plan w with
          | (Some e, w, log) => Some ((None, Some (reportCompactionError e)), keep w (cs_failures st) log)
          | (None, w, log) => Some ((Some (plan_result plan w), completion_error), keep w 0 log)
          end
        end
      end
    end
  end.
End Compact.

Section MaybeCompact.
  Context (json_size : Commit -> option Z) (encode_input : list (string * Json) -> option string).
  Context (state_text : list Contribution -> string) (stable_id : nat -> Message -> string).
  Context (message_size : Message -> option Z) (fold : Z -> Z).
  Context (compaction : CompactionPolicy) (calibration : TokenEstimateCalibration) (toolTokens : Z)
    (summaryProvider : option (string * string * Z)) (effective : list ModelCandidate).
  Context (io : CompactIo) (systemPrompt : string) (contextWindow : Z) (incoming : list Message).

Definition with_failures (n : Z) (st : CompactState) : CompactState :=
  mkCompactState (cs_world st) (cs_health st) n (cs_changes st).

(** Compacts when the context has reached its trigger, and no more after too
    many failures in a row. *)
Definition maybeCompact (st : CompactState) : option (option CompactError * CompactState) :=
  let policy := compact_policy compaction contextWindow in
  if negb (pl_Enabled policy) then Some (None, st)
  else
    match ci_active io with
    | None => Some (Some CeContext, st)
    | Some runtime =>
      let history := s_ProviderMessages (h_state (cs_world st).1) in
      let estimated := Calibration_Apply calibration
        (context_tokens encode_input toolTokens systemPrompt (AssembleActiveContext history incoming ++ runtime)) in
      if estimated <? pl_TriggerTokens policy then Some (None, st)
      else if pl_MaxAutoFailures policy <=? cs_failures st then
        Some (Some (if ci_skipped io then CePaused else CeJoined CePaused), st)
      else
        match compactLocked json_size encode_input state_text stable_id message_size fold compaction calibration
                toolTokens summaryProvider effective io systemPrompt "auto" true "" contextWindow "" incoming st with
        | Some (_, Some e, st) => Some (Some e, with_failures (cs_failures st + 1) st)
        | Some (_, None, st) => Some (None, with_failures 0 st)
        | None => None
        end
    end.
End MaybeCompact.

(** ** A new context *)

Inductive NewContextError :=
| NcBusy
| NcMaintenance
| NcInputScope
| NcTransition (e : TransitionError).

Record NewContextIo := mkNewContextIo {
  nc_scope_free : bool;
  nc_modules : list string;
  nc_staged : string -> bool;
  nc_store : Io;
  nc_settled : bool;
}.

(** [newContextLocked]; [busy]: a turn is active or inputs are pending. Whether
    the context is renewed: the pending context of policies is then dropped and
    the observers are told. *)
Definition newContextLocked (json_size : Commit -> option Z) (io : NewContextIo)
    (allowActive busy maintenance : bool) (w : World) :
    option NewContextError * bool * World * list ChangeLog :=
  if negb allowActive && busy then (Some NcBusy, false, w, [])
  else if maintenance then (Some NcMaintenance, false, w, [])
  else if allowActive && negb (nc_scope_free io) then (Some NcInputScope, false, w, [])
  else
    let '(err, renewed, w, log) :=
      cross_boundary (nc_staged io) (nc_modules io) (nc_settled io)
        (BeginNewGeneration json_size (nc_store io)) w in
    (NcTransition <$> err, renewed, w, log).
