(* ===== verification/CompactionProps.v ===== *)
(** * The compaction of a context: all or nothing

    A compaction either leaves the thread and the modules as they were, or begins
    the generation whose context it has measured. A thread whose compactions fail
    is not compacted on and on. *)

From Stdlib Require Import Ascii String.
From S2P Require Import Prelude GoStd Utf8 GoText ModelHealth Llm ContextText ThreadTypes ThreadFacts ContextBudget ContextBudgetProps ModelFallback ThreadStore ThreadReplay ContextCompaction ThreadStoreInv ThreadStoreExamples ProtocolRepairExamples ContextExamples SummaryRequest SummaryText SummaryGeneration SummaryGenerationProps Compaction.

Local Open Scope Z_scope.
Local Open Scope juex_scope.

(** ** Crossing a boundary *)

Lemma stage_modules_spec ok modules : forall staged,
  match stage_modules ok staged modules with
  | (Some all, log) => all = staged ++ modules /\ log = map ChStaged modules
  | (None, log) => exists done_, done_ `prefix_of` modules /\
      log = map ChStaged done_ ++ map ChRolledBack (rev (staged ++ done_))
  end.
Proof.
  induction modules as [|m modules IH]; intros staged; simpl; [by rewrite app_nil_r|].
  destruct (ok m).
  - specialize (IH (staged ++ [m])). destruct (stage_modules ok (staged ++ [m]) modules) as [[all|] log].
    + destruct IH as [-> ->]. by rewrite <- app_assoc.
    + destruct IH as (done_ & Hp & ->). exists (m :: done_). split; [by apply prefix_cons|].
      by rewrite <- app_assoc.
  - exists []. rewrite app_nil_r. split; [apply prefix_nil|done].
Qed.

(** Some modules have staged their change and given it up again. *)
Definition given_up (modules : list string) (log : list ChangeLog) : Prop :=
  exists staged, staged `prefix_of` modules /\ log = map ChStaged staged ++ map ChRolledBack (rev staged).

(** What a boundary does to the handle, when it is taken. *)
Definition boundary_of {A} (begin : M A) (w : World) (moved : World -> Prop) : Prop :=
  forall r w', begin w = (r, w') ->
    (w'.1 = w.1 /\ exists e, r = Err e /\ is_persist_error e = false) \/
    (moved w' /\ forall e, r = Err e -> is_persist_error e = true).

Lemma cross_boundary_spec {A} ok modules settled (begin : M A) w moved err crossed w' log :
  boundary_of begin w moved ->
  cross_boundary ok modules settled begin w = (err, crossed, w', log) ->
  if crossed then moved w' /\ log = map ChStaged modules ++ map ChFinalized modules
  else w'.1 = w.1 /\ given_up modules log /\ is_Some err.
Proof.
  intros Hb H. unfold cross_boundary, StageContextTransition in H.
  pose proof (stage_modules_spec ok modules []) as Hs. destruct (stage_modules ok [] modules) as [[staged|] l].
  2: { simplify_eq. split; [done|]. split; [exact Hs|by eexists]. }
  destruct Hs as [-> ->]. simpl in H.
  assert (given_up modules (map ChStaged modules ++ map ChRolledBack (rev modules))) as Hg by (by exists modules).
  destruct (begin w) as [r w1] eqn:E. apply Hb in E. destruct r as [a|e].
  - simplify_eq. destruct E as [[_ (e & [=] & _)]|[Hm _]]. done.
  - destruct E as [[Hw (e' & [= <-] & He)]|[Hm He]]; [rewrite He in H|rewrite (He e eq_refl) in H]; simplify_eq;
      [|done]. split; [done|]. split; [exact Hg|by eexists].
Qed.

Definition provider (w : World) : list Message := s_ProviderMessages (h_state w.1).

Lemma compacted_boundary json_size io fresh summary auto usage w :
  boundary_of (BeginCompactedGeneration json_size io fresh summary auto usage) w
    (fun w' => provider w' = compactProviderMessages (prepareMessage fresh summary) (provider w)).
Proof. intros r w' E. destruct w as [h d]. by apply beginGeneration_outcome in E. Qed.

Lemma renewed_boundary json_size io w :
  boundary_of (BeginNewGeneration json_size io) w (fun w' => provider w' = []).
Proof. intros r w' E. destruct w as [h d]. by apply beginGeneration_outcome in E. Qed.

(** ** The text of a summary *)

(** Every reference has its id, its own texts and the paths of its images in the
    listing. *)
Definition lists_inputs (references : list Message) (listing : string) : Prop :=
  forall m, m ∈ references -> occurs ("Message " ++ m_ID m)%string listing /\
    forall b, b ∈ blocks m ->
      (b_Type b = BlockText -> b_Artifact b = None \/ (exists a, b_Artifact b = Some a /\ ar_SourceKind a = "user_input"%string) ->
         occurs (b_Text b) listing) /\
      (b_Type b = BlockImage -> forall i, b_Media b = Some i -> occurs ("path=" ++ md_ArtifactPath i)%string listing).

(** The text that carries [summary] and [references] into the next generation. *)
Definition summary_text (summary : string) (references : list Message) (text : string) : Prop :=
  let nl := String newline "" in
  exists body,
    text = ("Context compacted automatically because the provider context window is nearing its limit." ++ nl ++ nl ++
            "Summary of earlier conversation:" ++ nl ++ body)%string /\
    match references with
    | [] => body = summary
    | _ => exists listing, lists_inputs references listing /\
        body = TrimSpace (TrimSpace summary ++ nl ++ nl ++ "Retained Input References" ++ nl ++ listing)%string
    end.

Lemma reference_block_text b : b_Type b = BlockText ->
  b_Artifact b = None \/ (exists a, b_Artifact b = Some a /\ ar_SourceKind a = "user_input"%string) ->
  occurs (b_Text b) (reference_block b).
Proof.
  intros Ht Ha. unfold reference_block. rewrite Ht.
  assert (match b_Artifact b with None => true | Some a => ar_SourceKind a =?s "user_input" end = true) as ->.
  { destruct Ha as [-> |(a & -> & Ha)]; [done|by apply bool_decide_eq_true_2]. }
  rewrite andb_true_r. destruct (b_Text b =?s "") eqn:E; simpl.
  - apply bool_decide_eq_true in E. rewrite E. apply occurs_nil.
  - destruct (HasSuffix _ _); [apply occurs_refl|apply occurs_l, occurs_refl].
Qed.

Lemma reference_block_path b i : b_Type b = BlockImage -> b_Media b = Some i ->
  occurs ("path=" ++ md_ArtifactPath i)%string (reference_block b).
Proof.
  intros Ht Hm. unfold reference_block. rewrite Ht, Hm. simpl.
  exists "Image: "%string. eexists. by rewrite !append_assoc.
Qed.

Lemma references_listed references : lists_inputs references (String.concat "" (map reference_text references)).
Proof.
  intros m Hm. assert (forall s, occurs s (reference_text m) -> occurs s (String.concat "" (map reference_text references))) as Hin
    by (intros s; apply occurs_concat, list_elem_of_fmap_2, Hm).
  assert (forall s b, b ∈ blocks m -> occurs s (reference_block b) -> occurs s (reference_text m)) as Hb.
  { intros s b Hb Hs. unfold reference_text. do 6 apply occurs_r.
    eapply occurs_concat; [by apply list_elem_of_fmap_2, Hb|exact Hs]. }
  split.
  - apply Hin. unfold reference_text. apply occurs_r. rewrite <- append_assoc. apply occurs_l, occurs_refl.
  - intros b Hmb. split.
    + intros H1 H2. eapply Hin, Hb; [exact Hmb|by apply reference_block_text].
    + intros H1 i H2. eapply Hin, Hb; [exact Hmb|by apply reference_block_path].
Qed.

Lemma committed_text summary references :
  summary_text summary references (compactMessageText (appendCompactionInputReferences summary references)).
Proof.
  unfold summary_text, compactMessageText, compactMessagePrefix. eexists. split; [by rewrite !append_assoc|].
  unfold appendCompactionInputReferences. destruct references as [|m l]; [done|].
  eexists. split; [apply references_listed|done].
Qed.

(** ** A compaction *)

Section Compact.
  Context (json_size : Commit -> option Z) (encode_input : list (string * Json) -> option string).
  Context (state_text : list Contribution -> string) (stable_id : nat -> Message -> string).
  Context (message_size : Message -> option Z) (fold : Z -> Z).
  Context (compaction : CompactionPolicy) (calibration : TokenEstimateCalibration) (toolTokens : Z)
    (summaryProvider : option (string * string * Z)) (effective : list ModelCandidate).
  Context (io : CompactIo) (systemPrompt reason : string) (auto : bool) (instructions : string)
    (contextWindow : Z) (reservedModelRef : string) (incoming : list Message).

Local Notation policy := (compact_policy compaction contextWindow).
Local Notation estimate := (estimateMessageTokens encode_input calibration).
Local Notation measure l := (Calibration_Apply calibration (context_tokens encode_input toolTokens systemPrompt l)).
Local Notation prepare := (prepare_compaction encode_input compaction calibration toolTokens io systemPrompt reason auto
  instructions contextWindow incoming).
Local Notation plan_of := (plan_compaction encode_input calibration toolTokens summaryProvider effective io systemPrompt
  reason auto contextWindow incoming).
Local Notation run := (compactLocked json_size encode_input state_text stable_id message_size fold compaction calibration
  toolTokens summaryProvider effective io systemPrompt reason auto instructions contextWindow reservedModelRef incoming).

Lemma keep_recent_positive : 0 < pl_KeepRecentTokens policy.
Proof.
  unfold compact_policy, EffectivePolicy, cappedContextBudget, minPositiveBudget, scaledContextBudget.
  destruct (toolResultContentBudgets _ _). cbn [pl_KeepRecentTokens]. repeat case_match; to_prop; lia.
Qed.

(** What is prepared, by where it comes from. *)
Record prepared_from (history : list Message) (p : Prepared) : Prop := mkPreparedFrom {
  pf_policy : pp_policy p = policy;
  pf_selection : pp_selection p = SelectInputWithEstimator estimate (ProviderVisibleMessages history) policy;
  pf_inputs : exists own, ci_oversized io (sl_SummaryInput (pp_selection p)) (sl_OversizedInputIDs (pp_selection p)) =
      Some (pp_input p, own) /\ ci_references io (sl_PreviousSummary (pp_selection p)) own = Some (pp_references p);
  pf_contributions : ci_contributions io = Some (pp_contributions p);
  pf_instructions : exists extra, ci_instructions io = Some extra /\
      pp_instructions p = mergeCompactInstructions (mergeCompactInstructions [pl_Instructions policy; instructions] :: extra);
  pf_before : exists runtime, ci_context io = Some runtime /\
      pp_before p = measure (AssembleActiveContext history incoming ++ runtime);
  pf_runtime : ci_replaced io = Some (pp_runtime p);
}.

Lemma need_ok {A} (o : option A) e a : need o e = Ok a -> o = Some a.
Proof. unfold need. destruct o; [by intros [= ->]|done]. Qed.

Lemma prepare_spec history p : prepare history = Ok (Some p) -> prepared_from history p.
Proof.
  intros H. unfold prepare_compaction in H. cbv zeta in H.
  repeat match type of H with
  | rbind ?m _ = _ => destruct m eqn:?; [cbn [rbind] in H|done]
  | (if ?b then _ else _) = _ => destruct b; [done|]
  | match ?m with Some _ => _ | None => _ end = _ => destruct m; [|done]
  end.
  repeat match goal with E : need _ _ = Ok _ |- _ => apply need_ok in E end.
  simplify_eq/=. repeat match goal with x : (_ * _)%type |- _ => destruct x end. simpl in *.
  split; cbn [pp_policy pp_selection pp_input pp_references pp_contributions pp_instructions pp_before pp_runtime]; eauto.
Qed.

(** A generation whose context is the summary and what was kept. The summary is
    what the models have made of the messages that are not kept; it is
    committed with the references to inputs, and with the sizes that were
    measured: [tokens] is that of the messages that a provider would be sent. *)
Definition began_measured (st : CompactState) (next : list Message) (log : list ChangeLog) (tokens : Z)
    (before chars : Z) (model : string) : Prop :=
  let history := provider (cs_world st) in
  let s := SelectInputWithEstimator estimate (ProviderVisibleMessages history) policy in
  let candidates := compactionSummaryCandidatesLocked summaryProvider policy effective in
  let kept := sl_RetainedTail s ++ ProviderVisibleMessages incoming in
  exists extra contributions context runtime inputs own references room summary resp index slog health text m sent,
    ci_instructions io = Some extra /\ ci_contributions io = Some contributions /\
    ci_context io = Some context /\ ci_replaced io = Some runtime /\
    ci_oversized io (sl_SummaryInput s) (sl_OversizedInputIDs s) = Some (inputs, own) /\
    ci_references io (sl_PreviousSummary s) own = Some references /\
    generateCompactionSummaryLocked encode_input state_text stable_id message_size fold compaction
      (with_SummaryMaxTokens room policy) systemPrompt
      (match sl_PreviousSummary s with Some m => compactionModelSummary m | None => TextMessage RoleUser "" end)
      inputs contributions (window contextWindow) reservedModelRef candidates (ci_rounds io)
      (mergeCompactInstructions (mergeCompactInstructions [pl_Instructions policy; instructions] :: extra))
      (cs_health st) = Some (Generated summary resp index, slog, health) /\
    summary_text (string_of summary) references text /\
    (* the context of the next generation *)
    AssembleActiveContext next incoming = m :: kept /\
    m_Role m = RoleUser /\ m_Kind m = MessageKindCompact /\ blocks m = [textBlock text] /\
    (exists previous first_kept tail_start retained,
       m_Compaction m = Some (mkCompaction auto reason previous first_kept tail_start retained (copied references)
         before tokens chars model)) /\
    (ValidateToolTranscript (AssembleActiveContext history []) = None ->
     ValidateToolTranscript (AssembleActiveContext next []) = None) /\
    (* its measures *)
    before = measure (AssembleActiveContext history incoming ++ context) /\
    chars = len (string_of summary) /\
    model = (if m_Model (re_Message resp) =?s "" then
               match candidates !! index with Some c => default ""%string (mc_Provider c) | None => ""%string end
             else m_Model (re_Message resp)) /\
    ci_project io ((newSummaryMessage s auto reason text model references before 0 chars :: kept) ++ runtime) = Some sent /\
    tokens = measure sent /\ tokens <= pl_TriggerTokens policy /\
    (* the modules *)
    log = map ChStaged (ci_modules io) ++ map ChFinalized (ci_modules io).

(** What a plan says of the summary it commits. *)
Lemma plan_spec history p summary resp index plan : identified history -> well_kinded (AssembleActiveContext history []) ->
  prepared_from history p -> plan_of history p summary resp index = Ok plan ->
  let s := SelectInputWithEstimator estimate (ProviderVisibleMessages history) policy in
  let kept := sl_RetainedTail s ++ ProviderVisibleMessages incoming in
  let text := compactMessageText (appendCompactionInputReferences (string_of summary) (pp_references p)) in
  let message after := newSummaryMessage s auto reason text (pn_model plan) (pp_references p) (pn_before plan) after (pn_chars plan) in
  pn_message plan = message (pn_after plan) /\ pn_before plan = pp_before p /\ pn_chars plan = len (string_of summary) /\
  pn_model plan = (if m_Model (re_Message resp) =?s "" then
               match compactionSummaryCandidatesLocked summaryProvider policy effective !! index with
               | Some c => default ""%string (mc_Provider c) | None => ""%string end
             else m_Model (re_Message resp)) /\
  pn_after plan <= pl_TriggerTokens policy /\
  exists sent, ci_project io ((message 0 :: kept) ++ pp_runtime p) = Some sent /\ pn_after plan = measure sent.
Proof.
  intros Hid Hk [Hpol Hsel _ _ _ _ _] H s kept text message. unfold plan_compaction in H.
  destruct (ci_cancelled io 0); [done|]. cbv zeta in H. rewrite Hpol in H.
  unfold need in H. set (model := if _ =?s "" then _ else _) in H.
  destruct (project_summary _ _ _ _ _) as [sent|] eqn:Hproj; [|done]. cbn [rbind] in H.
  destruct (_ <? _) eqn:Hlt; [done|]. apply Z.ltb_ge in Hlt. injection H as <-. unfold message.
  cbn [pn_message pn_before pn_after pn_chars pn_model]. unfold project_summary, summary_of in Hproj. rewrite Hsel in Hproj.
  destruct (compaction_context estimate history policy (ci_fresh io) auto reason text model
    (pp_references p) (pp_before p) 0 (len (string_of summary)) incoming Hid Hk keep_recent_positive) as (_ & E & _).
  unfold text in E. rewrite E in Hproj. fold s in Hproj.
  split; [unfold summary_of; by rewrite Hsel|]. do 4 (split; [done|]). by exists sent.
Qed.

Lemma selection_message s text model references before after chars :
  let m := prepareMessage (ci_fresh io) (newSummaryMessage s auto reason text model references before after chars) in
  m_Role m = RoleUser /\ m_Kind m = MessageKindCompact /\ blocks m = [textBlock text] /\
  exists previous first_kept tail_start retained,
    m_Compaction m = Some (mkCompaction auto reason previous first_kept tail_start retained (copied references)
      before after chars model).
Proof. split_and!; try done. by do 4 eexists. Qed.

Lemma commit_spec st p summary resp index plan slog health w err w' log :
  let history := provider (cs_world st) in
  identified history -> well_kinded (AssembleActiveContext history []) -> provider w = history ->
  prepare history = Ok (Some p) ->
  generate_summary encode_input state_text stable_id message_size fold compaction summaryProvider effective io systemPrompt
    contextWindow reservedModelRef p (cs_health st) = Some (Generated summary resp index, slog, health) ->
  plan_of history p summary resp index = Ok plan ->
  commitCompactionMarker json_size io auto plan w = (err, w', log) ->
  (w'.1 = w.1 /\ given_up (ci_modules io) log /\ is_Some err) \/
  began_measured st (provider w') log (pn_after plan) (pn_before plan) (pn_chars plan) (pn_model plan).
Proof.
  intros history Hid Hk Hw Hp Hg Hplan H. apply prepare_spec in Hp.
  destruct (plan_spec _ _ _ _ _ _ Hid Hk Hp Hplan) as (Emsg & Ebefore & Echars & Emodel & Hle & sent & Hsent & Eafter).
  unfold commitCompactionMarker in H. destruct (ci_cancelled io 1).
  { left. injection H as <- <- <-. split; [done|]. split; [|by eexists]. exists []. split; [apply prefix_nil|done]. }
  destruct (cross_boundary _ _ _ _ w) as [[[err0 crossed] w0] log0] eqn:E. injection H as <- <- <-.
  pose proof (cross_boundary_spec _ _ _ _ _ _ _ _ _ _ (compacted_boundary json_size (ci_store io) (ci_fresh io)
    (pn_message plan) auto (Some (pn_usage plan)) w) E) as Hc.
  destruct crossed; [right|left; destruct Hc as (? & ? & [e ->]); by split_and!; [..|eexists]].
  destruct Hc as [Hnext ->]. rewrite Emsg, Hw in Hnext.
  destruct Hp as [Hpol Hsel (own & Hown & Hrefs) Hcon (extra & Hextra & Hins) (context & Hcontext & Hbefore) Hrun].
  rewrite Hsel in Hown, Hrefs. unfold generate_summary in Hg. rewrite Hsel, Hpol, Hins in Hg.
  set (text := compactMessageText _) in *.
  destruct (compaction_context estimate history policy (ci_fresh io) auto reason text (pn_model plan) (pp_references p)
    (pn_before plan) (pn_after plan) (pn_chars plan) incoming Hid Hk keep_recent_positive) as (E1 & _ & Hb).
  unfold began_measured. cbv zeta. fold history.
  exists extra, (pp_contributions p), context, (pp_runtime p), (pp_input p), own, (pp_references p), (pp_room p), summary, resp,
    index, slog, health, text. eexists. exists sent.
  do 7 (split; [done|]). split; [apply committed_text|]. split; [rewrite Hnext; exact E1|].
  destruct (selection_message (SelectInputWithEstimator estimate (ProviderVisibleMessages history) policy) text (pn_model plan)
    (pp_references p) (pn_before plan) (pn_after plan) (pn_chars plan)) as (M1 & M2 & M3 & M4).
  do 4 (split; [done|]). split; [rewrite Hnext, !validate_iff_balanced; exact Hb|].
  split; [by rewrite Ebefore|]. by split_and!.
Qed.

Lemma generate_summary_runs p h : exists end_ log h',
  generate_summary encode_input state_text stable_id message_size fold compaction summaryProvider effective io systemPrompt
    contextWindow reservedModelRef p h = Some (end_, log, h').
Proof.
  unfold generate_summary.
  destruct (generation_runs encode_input state_text stable_id message_size fold compaction
    (with_SummaryMaxTokens (pp_room p) (pp_policy p)) systemPrompt
    (match sl_PreviousSummary (pp_selection p) with Some m => compactionModelSummary m | None => TextMessage RoleUser "" end)
    (pp_input p) (pp_contributions p) (window contextWindow) reservedModelRef
    (compactionSummaryCandidatesLocked summaryProvider (pp_policy p) effective) (ci_rounds io) (pp_instructions p) h)
    as ([[end_ log] h'] & H & _). eauto.
Qed.

Lemma compact_failures st : exists result err st', run st = Some (result, err, st') /\
  (cs_failures st' = cs_failures st \/ cs_failures st' = 0).
Proof.
  unfold compactLocked. cbv zeta. destruct (prepare _) as [[p|]|e].
  2, 3: do 3 eexists; split; [reflexivity|by left].
  destruct (generate_summary_runs p (cs_health st)) as (end_ & slog & h' & ->).
  destruct end_ as [summary resp index|e]; [|do 3 eexists; split; [reflexivity|by left]].
  destruct (plan_of _ p summary resp index); [|do 3 eexists; split; [reflexivity|by left]].
  destruct (commitCompactionMarker _ _ _ _ _) as [[[e|] w'] log]; do 3 eexists; (split; [reflexivity|]); [by left|by right].
Qed.

End Compact.


(** A new context is all or nothing too. It begins only when no maintenance
    runs and, unless an active turn may have one, no turn is active and no input
    is pending; then the thread has no message left for a provider and every
    module has finished its change. Otherwise the handle is as it was, the modules
    have given their changes up, and there is an error. *)
Theorem new_context_all_or_nothing json_size io allowActive busy maintenance w err renewed w' log :
  newContextLocked json_size io allowActive busy maintenance w = (err, renewed, w', log) ->
  if renewed then
    provider w' = [] /\ log = map ChStaged (nc_modules io) ++ map ChFinalized (nc_modules io) /\
    maintenance = false /\ (busy = true -> allowActive = true /\ nc_scope_free io = true)
  else w'.1 = w.1 /\ given_up (nc_modules io) log /\ is_Some err.
Proof.
  intros H. unfold newContextLocked in H.
  assert (given_up (nc_modules io) []) as Hg by (exists []; split; [apply prefix_nil|done]).
  destruct (negb allowActive && busy) eqn:Hb; [simplify_eq; split_and!; [done..|by eexists]|].
  destruct maintenance; [simplify_eq; split_and!; [done..|by eexists]|].
  destruct (allowActive && _) eqn:Hs; [simplify_eq; split_and!; [done..|by eexists]|].
  destruct (cross_boundary _ _ _ _ w) as [[[err0 crossed] w0] log0] eqn:E. simplify_eq.
  pose proof (cross_boundary_spec _ _ _ _ _ _ _ _ _ _ (renewed_boundary json_size (nc_store io) w) E) as Hc.
  destruct renewed; [destruct Hc; by destruct allowActive, busy, (nc_scope_free io)|].
  destruct Hc as (? & ? & [e ->]). split_and!; [done..|by eexists].
Qed.

(** ** The compaction of a context: runs

    A thread in the middle of an execution is compacted, a module refuses the
    boundary, and automatic compaction pauses. *)

Definition ex_settings : CompactionPolicy := mkCompactionPolicy true "" 0 15 "" 0 0 0 0 0 3.

(** Every step succeeds but the staging of the modules in [refuses]; [active] is
    the context of the modules that [maybeCompact] sees. *)
Definition ex_compact_io (refuses : list string) (active : list Message) : CompactIo :=
  mkCompactIo (Some []) (Some []) (fun l _ => Some (l, [])) true (fun _ l => Some l) (Some []) true (Some [])
    (fun l => Some l)
    (fun _ => ex_round (ex_response "end_turn" "Tasks: none") (ex_response "end_turn" "Tasks: none"))
    (fun _ => false) ["plan"; "notes"]%string (fun m => negb (bool_decide (m ∈ refuses))) (ex_io 4) true true true
    true true "m6" (Some active) true.

Definition ex_compact_state (failures : Z) : CompactState :=
  mkCompactState (ex_thread, sys_disk ex_working) NewModelHealth failures [].

Definition ex_compact (refuses : list string) : option (Compacted * CompactState) :=
  compactLocked ex_size (fun _ => Some "0123456789"%string) (fun _ => ""%string) (fun _ _ => "id"%string) (fun _ => Some 0)
    fold_ascii ex_settings None 0 None [mkCandidate "a" (Some "pa"%string) 100000 0] (ex_compact_io refuses []) ""
    "auto" true "" 0 "" [] (ex_compact_state 2).

(** The old exchange is gone, the execution is kept, both modules are done. *)
Example compaction_commits :
  match ex_compact [] with
  | Some ((Some r, None), st) =>
    map m_ID (provider (cs_world st)) = ["m6"; "m3"; "m4"; "m5"]%string /\ cr_MessageID r = "m6"%string /\
    cs_changes st = [ChStaged "plan"; ChStaged "notes"; ChFinalized "plan"; ChFinalized "notes"] /\ cs_failures st = 0
  | _ => False
  end.
Proof. vm_compute. done. Qed.

(** The second module refuses, the first gives its change up. *)
Example compaction_refused :
  match ex_compact ["notes"%string] with
  | Some ((None, Some (CeCommit TeStage)), st) =>
    map m_ID (provider (cs_world st)) = ["m1"; "m2"; "m3"; "m4"; "m5"]%string /\
    cs_changes st = [ChStaged "plan"; ChRolledBack "plan"] /\ cs_failures st = 2
  | _ => False
  end.
Proof. vm_compute. done. Qed.



Definition ex_new_context (busy : bool) : option NewContextError * bool * World * list ChangeLog :=
  newContextLocked ex_size (mkNewContextIo true ["plan"]%string (fun _ => true) (ex_io 4) true) false busy false
    (ex_thread, sys_disk ex_working).

Lemma new_context_all_or_nothing_witness :
  provider (ex_new_context false).1.2 = [] /\ (ex_new_context false).1.1.1 = None.
Proof.
  assert (exists w log, ex_new_context false = (None, true, w, log) /\ (ex_new_context false).1.2 = w) as (w & log & E & Ew).
  { do 2 eexists. split; [vm_compute; reflexivity|vm_compute; reflexivity]. }
  pose proof (new_context_all_or_nothing ex_size (mkNewContextIo true ["plan"]%string (fun _ => true) (ex_io 4) true)
    false false false (ex_thread, sys_disk ex_working) None true w log E) as H.
  rewrite Ew. split; [exact (proj1 H)|]. vm_compute. reflexivity.
Defined.
