(* ===== verification/PendingInputs.v ===== *)
(** * Pending inputs: data, validation and in-memory transitions

    [src/internal/framework/runtime/pending_queue.go] and the queue half of
    [input_tracking.go]: the record, the document, the disposition of terminal
    events and the transitions that touch only the queue's own maps. The
    operations with I/O are in [PendingQueue]. *)

From S2P Require Import Prelude GoStd Llm Events.

Local Open Scope Z_scope.
Local Open Scope juex_scope.

(** ** Record and document *)

Definition pendingInputSummaryLength : Z := 200.
Definition pendingInputDocumentVersion : Z := 1.
Definition maxTrackedInputs : Z := 256.
Definition DefaultPendingInputTTL : Duration := 15 * 60 * second.

Inductive PendingInputState :=
| StateAccepting
| StatePending
| StateAdmitted
| StateProcessed
| StateRetryable
| StateDeadLettered
| StateSettled
| StateExpired
| StateDropped
| StateOther (name : string).

Inductive PendingInputOrigin :=
| OriginQueued
| OriginTurn
| OriginOther (name : string).

#[export] Instance PendingInputState_eq_dec : EqDecision PendingInputState.
Proof. solve_decision. Defined.
#[export] Instance PendingInputOrigin_eq_dec : EqDecision PendingInputOrigin.
Proof. solve_decision. Defined.

Record PendingInputRecord := mkRecord {
  r_ScopeID : string;
  r_CheckedAt : option Time;
  r_ModelMessage : option Message;
  r_ID : string;
  r_TurnID : string;
  r_MessageID : string;
  r_Message : Message;
  r_Summary : string;
  r_Origin : PendingInputOrigin;
  r_State : PendingInputState;
  r_CreatedAt : Time;
  r_ExpiresAt : Time;
  r_Attempts : Z;
  r_ProcessedAt : option Time;
  r_LastError : string;
  r_LastErrorKind : string;
}.

Definition with_ScopeID (v : string) (r : PendingInputRecord) : PendingInputRecord :=
  mkRecord v (r_CheckedAt r) (r_ModelMessage r) (r_ID r) (r_TurnID r) (r_MessageID r)
    (r_Message r) (r_Summary r) (r_Origin r) (r_State r) (r_CreatedAt r) (r_ExpiresAt r)
    (r_Attempts r) (r_ProcessedAt r) (r_LastError r) (r_LastErrorKind r).
Definition with_CheckedAt (v : option Time) (r : PendingInputRecord) : PendingInputRecord :=
  mkRecord (r_ScopeID r) v (r_ModelMessage r) (r_ID r) (r_TurnID r) (r_MessageID r)
    (r_Message r) (r_Summary r) (r_Origin r) (r_State r) (r_CreatedAt r) (r_ExpiresAt r)
    (r_Attempts r) (r_ProcessedAt r) (r_LastError r) (r_LastErrorKind r).
Definition with_ModelMessage (v : option Message) (r : PendingInputRecord) : PendingInputRecord :=
  mkRecord (r_ScopeID r) (r_CheckedAt r) v (r_ID r) (r_TurnID r) (r_MessageID r)
    (r_Message r) (r_Summary r) (r_Origin r) (r_State r) (r_CreatedAt r) (r_ExpiresAt r)
    (r_Attempts r) (r_ProcessedAt r) (r_LastError r) (r_LastErrorKind r).
Definition with_TurnID (v : string) (r : PendingInputRecord) : PendingInputRecord :=
  mkRecord (r_ScopeID r) (r_CheckedAt r) (r_ModelMessage r) (r_ID r) v (r_MessageID r)
    (r_Message r) (r_Summary r) (r_Origin r) (r_State r) (r_CreatedAt r) (r_ExpiresAt r)
    (r_Attempts r) (r_ProcessedAt r) (r_LastError r) (r_LastErrorKind r).
Definition with_Origin (v : PendingInputOrigin) (r : PendingInputRecord) : PendingInputRecord :=
  mkRecord (r_ScopeID r) (r_CheckedAt r) (r_ModelMessage r) (r_ID r) (r_TurnID r)
    (r_MessageID r) (r_Message r) (r_Summary r) v (r_State r) (r_CreatedAt r)
    (r_ExpiresAt r) (r_Attempts r) (r_ProcessedAt r) (r_LastError r) (r_LastErrorKind
    r).
Definition with_State (v : PendingInputState) (r : PendingInputRecord) : PendingInputRecord :=
  mkRecord (r_ScopeID r) (r_CheckedAt r) (r_ModelMessage r) (r_ID r) (r_TurnID r)
    (r_MessageID r) (r_Message r) (r_Summary r) (r_Origin r) v (r_CreatedAt r)
    (r_ExpiresAt r) (r_Attempts r) (r_ProcessedAt r) (r_LastError r) (r_LastErrorKind
    r).
Definition with_ExpiresAt (v : Time) (r : PendingInputRecord) : PendingInputRecord :=
  mkRecord (r_ScopeID r) (r_CheckedAt r) (r_ModelMessage r) (r_ID r) (r_TurnID r)
    (r_MessageID r) (r_Message r) (r_Summary r) (r_Origin r) (r_State r) (r_CreatedAt r)
    v (r_Attempts r) (r_ProcessedAt r) (r_LastError r) (r_LastErrorKind r).
Definition with_Attempts (v : Z) (r : PendingInputRecord) : PendingInputRecord :=
  mkRecord (r_ScopeID r) (r_CheckedAt r) (r_ModelMessage r) (r_ID r) (r_TurnID r)
    (r_MessageID r) (r_Message r) (r_Summary r) (r_Origin r) (r_State r) (r_CreatedAt r)
    (r_ExpiresAt r) v (r_ProcessedAt r) (r_LastError r) (r_LastErrorKind r).
Definition with_ProcessedAt (v : option Time) (r : PendingInputRecord) : PendingInputRecord :=
  mkRecord (r_ScopeID r) (r_CheckedAt r) (r_ModelMessage r) (r_ID r) (r_TurnID r)
    (r_MessageID r) (r_Message r) (r_Summary r) (r_Origin r) (r_State r) (r_CreatedAt r)
    (r_ExpiresAt r) (r_Attempts r) v (r_LastError r) (r_LastErrorKind r).
Definition with_LastError (v : string) (r : PendingInputRecord) : PendingInputRecord :=
  mkRecord (r_ScopeID r) (r_CheckedAt r) (r_ModelMessage r) (r_ID r) (r_TurnID r)
    (r_MessageID r) (r_Message r) (r_Summary r) (r_Origin r) (r_State r) (r_CreatedAt r)
    (r_ExpiresAt r) (r_Attempts r) (r_ProcessedAt r) v (r_LastErrorKind r).
Definition with_LastErrorKind (v : string) (r : PendingInputRecord) : PendingInputRecord :=
  mkRecord (r_ScopeID r) (r_CheckedAt r) (r_ModelMessage r) (r_ID r) (r_TurnID r)
    (r_MessageID r) (r_Message r) (r_Summary r) (r_Origin r) (r_State r) (r_CreatedAt r)
    (r_ExpiresAt r) (r_Attempts r) (r_ProcessedAt r) (r_LastError r) v.

Definition zeroMessage : Message := mkMessage "" (RoleOther "") None "" false "" None.
Definition zeroRecord : PendingInputRecord :=
  mkRecord "" None None "" "" "" zeroMessage "" (OriginOther "") (StateOther "") 0 0 0 None "" "".

(** The records of a version-1 document; the JSON text is not modelled. *)
Record pendingInputDocument := mkDocument {
  doc_Version : Z;
  doc_Records : list PendingInputRecord;
}.

Definition state_eqb (s t : PendingInputState) : bool := bool_decide (s = t).

Definition isReplayablePendingState (s : PendingInputState) : bool :=
  match s with
  | StateAccepting | StatePending | StateAdmitted | StateProcessed | StateRetryable => true
  | _ => false
  end.

Definition Expired (r : PendingInputRecord) (now : Time) : bool :=
  (r_ScopeID r =?s "") && negb (bool_decide (r_Origin r = OriginTurn)) &&
  isReplayablePendingState (r_State r) &&
  negb (r_ExpiresAt r =? 0) && negb (now <? r_ExpiresAt r).

Definition truncate (s : string) (n : Z) : string :=
  if len s <=? n then s
  else (slice 0 n s ++ "...(truncated, total " ++ Itoa (len s) ++ " bytes)")%string.

(** [thread.StableMessageID]. *)
Definition StableMessageID (createdAt : Time) (identity : string) : string :=
  ("msg_" ++ format_compact_ms createdAt ++ "_" ++
   hex_encode (take 4 (Sha256.Sum256 (bytes_of identity))))%string.

Definition pendingInputMessageID (id : string) (createdAt : Time) : string :=
  StableMessageID createdAt id.

(** ** Validation *)

Inductive InvalidRecord :=
| InvalidIdentity
| InvalidCreation
| InvalidOrigin
| AcceptingWithoutTurn
| StateWithoutTurn
| StateNotPersistable
| InvalidRetryKind
| UnexpectedErrorKind.

Definition is_retry_kind (k : string) : bool :=
  (k =?s "runtime_restart") || (k =?s "interrupted") || (k =?s "terminated").

Definition validate_state (r : PendingInputRecord) : option InvalidRecord :=
  match r_State r with
  | StateAccepting =>
    if negb (bool_decide (r_Origin r = OriginTurn)) || (r_TurnID r =?s "")
    then Some AcceptingWithoutTurn else None
  | StatePending => None
  | StateAdmitted | StateProcessed | StateRetryable | StateDeadLettered | StateSettled =>
    if r_TurnID r =?s "" then Some StateWithoutTurn else None
  | _ => Some StateNotPersistable
  end.

Definition validate_error_kind (r : PendingInputRecord) : option InvalidRecord :=
  if state_eqb (r_State r) StateRetryable then
    if is_retry_kind (r_LastErrorKind r) then None else Some InvalidRetryKind
  else if (r_LastErrorKind r <>?s "") && negb (state_eqb (r_State r) StateDeadLettered)
  then Some UnexpectedErrorKind else None.

(** [None] is the nil error. *)
Definition validatePendingInputRecord (r : PendingInputRecord) : option InvalidRecord :=
  if (TrimSpace (r_ID r) =?s "") || (TrimSpace (r_ID r) <>?s r_ID r) ||
     (TrimSpace (r_MessageID r) =?s "") || (TrimSpace (r_MessageID r) <>?s r_MessageID r) ||
     (m_ID (r_Message r) <>?s r_MessageID r) ||
     negb (bool_decide (m_Role (r_Message r) = RoleUser)) ||
     bool_decide (m_Blocks (r_Message r) = None)
  then Some InvalidIdentity
  else if (r_CreatedAt r =? 0) || (r_Attempts r <? 0) then Some InvalidCreation
  else
    match r_Origin r with
    | OriginOther _ => Some InvalidOrigin
    | _ =>
      match validate_state r with
      | Some e => Some e
      | None => validate_error_kind r
      end
    end.

Definition valid_record (r : PendingInputRecord) : bool :=
  match validatePendingInputRecord r with
  | None => true
  | Some _ => false
  end.

(** ** Terminal events *)

Inductive pendingTerminalDisposition :=
| TerminalNone
| TerminalCompleted
| TerminalCancelled
| TerminalRetryable
| TerminalDeadLettered.

#[export] Instance disposition_eq_dec : EqDecision pendingTerminalDisposition.
Proof. solve_decision. Defined.

(** The [input_ids], [error] and [error_kind] members of the encoded payload. *)
Definition terminal_fields (p : EventPayload) : list string * string * string :=
  match p with
  | TerminalPayload ids error kind => (ids, error, kind)
  | CheckedPayload c => (ic_InputIDs c, "", "")
  | _ => ([], "", "")
  end.

(** [payloadAs[InputCheckedPayload]]. *)
Definition checked_fields (p : EventPayload) : InputCheckedPayload :=
  match p with
  | CheckedPayload c => c
  | TerminalPayload ids _ _ => mkChecked ids "" 0 "" ""
  | TrackedPayload _ mid scope => mkChecked [] scope 0 "" mid
  | ToolPayload t => mkChecked [] "" 0 (tp_ToolUseID t) (tp_MessageID t)
  | OtherPayload => mkChecked [] "" 0 "" ""
  end.

Definition pendingDispositionFromEvent (e : Event) :
    pendingTerminalDisposition * list string * string * string :=
  if (ev_Type e <>?s "turn.completed") && (ev_Type e <>?s "turn.errored") &&
     (ev_Type e <>?s "turn.cancelled")
  then (TerminalNone, [], "", "")
  else
    let '(ids, error, kind) := terminal_fields (ev_Payload e) in
    match ids with
    | [] => (TerminalNone, [], "", "")
    | _ =>
      if ev_Type e =?s "turn.completed" then (TerminalCompleted, ids, "", "")
      else if ev_Type e =?s "turn.cancelled" then (TerminalCancelled, ids, error, kind)
      else if kind =?s "cancelled" then (TerminalCancelled, ids, error, kind)
      else if is_retry_kind kind then (TerminalRetryable, ids, error, kind)
      else (TerminalDeadLettered, ids, error, kind)
    end.

(** ** The queue *)

Record PendingInputQueue := mkQueue {
  q_trackUserInputs : bool;
  q_scopeID : string;
  q_checked : gmap string InputCheckedPayload;
  q_loaded : bool;
  q_records : gmap string PendingInputRecord;
  q_order : list string;
  q_messageIndex : gmap string string;
  q_turnIndex : gmap string string;
  q_completed : gset string;
  q_handled : gset string;
  q_handledMsgs : gset string;
}.

Definition set_loaded (b : bool) (q : PendingInputQueue) : PendingInputQueue :=
  mkQueue (q_trackUserInputs q) (q_scopeID q) (q_checked q) b (q_records q) (q_order q)
    (q_messageIndex q) (q_turnIndex q) (q_completed q) (q_handled q) (q_handledMsgs q).
Definition set_records (rs : gmap string PendingInputRecord) (o : list string)
    (q : PendingInputQueue) : PendingInputQueue :=
  mkQueue (q_trackUserInputs q) (q_scopeID q) (q_checked q) (q_loaded q) rs o
    (q_messageIndex q) (q_turnIndex q) (q_completed q) (q_handled q) (q_handledMsgs q).
Definition set_scope (scope : string) (q : PendingInputQueue) : PendingInputQueue :=
  mkQueue (q_trackUserInputs q) scope ∅ (q_loaded q) (q_records q) (q_order q)
    (q_messageIndex q) (q_turnIndex q) (q_completed q) (q_handled q) (q_handledMsgs q).
Definition set_checked (c : gmap string InputCheckedPayload) (q : PendingInputQueue) :
    PendingInputQueue :=
  mkQueue (q_trackUserInputs q) (q_scopeID q) c (q_loaded q) (q_records q) (q_order q)
    (q_messageIndex q) (q_turnIndex q) (q_completed q) (q_handled q) (q_handledMsgs q).
Definition add_completed (ids : list string) (q : PendingInputQueue) : PendingInputQueue :=
  mkQueue (q_trackUserInputs q) (q_scopeID q) (q_checked q) (q_loaded q) (q_records q)
    (q_order q) (q_messageIndex q) (q_turnIndex q)
    (q_completed q ∪ list_to_set ids) (q_handled q) (q_handledMsgs q).
Definition add_handled (ids msgs : list string) (q : PendingInputQueue) : PendingInputQueue :=
  mkQueue (q_trackUserInputs q) (q_scopeID q) (q_checked q) (q_loaded q) (q_records q)
    (q_order q) (q_messageIndex q) (q_turnIndex q) (q_completed q)
    (q_handled q ∪ list_to_set ids) (q_handledMsgs q ∪ list_to_set msgs).

(** ** Order and indexes *)

Fixpoint removePendingInputID (order : list string) (id : string) : list string :=
  match order with
  | [] => []
  | x :: r => if x =?s id then r else x :: removePendingInputID r id
  end.

Definition index_message (records : gmap string PendingInputRecord)
    (idx : gmap string string) (id : string) : gmap string string :=
  match records !! id with
  | Some r => <[r_MessageID r := id]> idx
  | None => idx
  end.

Definition index_turn (records : gmap string PendingInputRecord)
    (idx : gmap string string) (id : string) : gmap string string :=
  match records !! id with
  | Some r =>
    if bool_decide (r_Origin r = OriginTurn) &&
       (state_eqb (r_State r) StateAdmitted || state_eqb (r_State r) StateProcessed) &&
       (r_TurnID r <>?s "")
    then <[r_TurnID r := id]> idx else idx
  | None => idx
  end.

Definition messageIndex_of (records : gmap string PendingInputRecord) (order : list string) :
    gmap string string := foldl (index_message records) ∅ order.
Definition turnIndex_of (records : gmap string PendingInputRecord) (order : list string) :
    gmap string string := foldl (index_turn records) ∅ order.

Definition rebuildIndexesLocked (q : PendingInputQueue) : PendingInputQueue :=
  mkQueue (q_trackUserInputs q) (q_scopeID q) (q_checked q) (q_loaded q) (q_records q)
    (q_order q) (messageIndex_of (q_records q) (q_order q))
    (turnIndex_of (q_records q) (q_order q))
    (q_completed q) (q_handled q) (q_handledMsgs q).

(** A Go map read: the zero value for an absent key. *)
Definition index_get (m : gmap string string) (k : string) : string := default "" (m !! k).

Definition counts_as_pending (r : PendingInputRecord) : bool :=
  match r_State r with
  | StateAccepting | StatePending | StateRetryable => true
  | _ => false
  end.

Definition materializedPendingCountLocked (q : PendingInputQueue) : Z :=
  Z.of_nat (size (filter (fun kr => counts_as_pending kr.2 = true) (q_records q))).

(** ** Terminal dispositions *)

(** One id of [applyTerminalStateLocked]'s loop. *)
Definition apply_terminal_one (d : pendingTerminalDisposition) (message kind : string)
    (st : PendingInputQueue * bool) (id : string) : PendingInputQueue * bool :=
  let '(q, changed) := st in
  match q_records q !! id with
  | None => (q, changed)
  | Some r =>
    let put r' := (set_records (<[id := r']> (q_records q)) (q_order q) q, true) in
    match d with
    | TerminalNone => (q, changed)
    | TerminalCompleted | TerminalCancelled =>
      if (r_ScopeID r <>?s "") && (r_ScopeID r =?s q_scopeID q) &&
         bool_decide (r_CheckedAt r = None)
      then
        if state_eqb (r_State r) StateSettled then (q, changed)
        else put (with_LastErrorKind "" (with_LastError "" (with_State StateSettled r)))
      else
        (set_records (delete id (q_records q)) (removePendingInputID (q_order q) id) q, true)
    | TerminalRetryable =>
      if negb (state_eqb (r_State r) StateRetryable) || (r_LastError r <>?s message) ||
         (r_LastErrorKind r <>?s kind)
      then put (with_LastErrorKind kind (with_LastError message (with_State StateRetryable r)))
      else (q, changed)
    | TerminalDeadLettered =>
      if negb (state_eqb (r_State r) StateDeadLettered) || (r_LastError r <>?s message) ||
         (r_LastErrorKind r <>?s kind)
      then put (with_LastErrorKind kind (with_LastError message (with_State StateDeadLettered r)))
      else (q, changed)
    end
  end.

Definition applyTerminalStateLocked (d : pendingTerminalDisposition) (ids : list string)
    (message kind : string) (q : PendingInputQueue) : PendingInputQueue * bool :=
  if bool_decide (d = TerminalNone) || bool_decide (ids = []) then (q, false)
  else
    let '(q', changed) := foldl (apply_terminal_one d message kind) (q, false) ids in
    (if changed then rebuildIndexesLocked q' else q', changed).

(** ** Input tracking *)

Definition trackInputLocked (q : PendingInputQueue) (r : PendingInputRecord) : PendingInputRecord :=
  if q_trackUserInputs q &&
     (m_Kind (ClassifyUserMessage (r_Message r)) =?s MessageKindDirect)
  then with_ExpiresAt 0 (with_ScopeID (q_scopeID q) r)
  else r.

(** [history] is the transcript of the thread, [None] without a thread. *)
Definition processedMessageLocked (history : option (list Message)) (r : PendingInputRecord) :
    option Message :=
  if r_ScopeID r =?s "" then None
  else
    match history with
    | Some h =>
      match list_find (fun m => m_ID m = r_MessageID r) h with
      | Some (_, m) => Some m
      | None => r_ModelMessage r
      end
    | None => r_ModelMessage r
    end.

Definition prune_one (st : PendingInputQueue * bool) (id : string) : PendingInputQueue * bool :=
  let '(q, changed) := st in
  match q_records q !! id with
  | None => (q, changed)
  | Some r =>
    if (r_ScopeID r =?s "") || (r_ScopeID r =?s q_scopeID q) then (q, changed)
    else if state_eqb (r_State r) StateSettled then
      (set_records (delete id (q_records q)) (removePendingInputID (q_order q) id) q, true)
    else
      match r_ModelMessage r with
      | None =>
        (set_records (<[id := with_ScopeID (q_scopeID q) r]> (q_records q)) (q_order q) q, true)
      | Some _ => (q, changed)
      end
  end.

Definition pruneInputScopesLocked (q : PendingInputQueue) : PendingInputQueue * bool :=
  foldl prune_one (q, false) (q_order q).

Definition check_one (p : InputCheckedPayload) (st : PendingInputQueue * bool) (id : string) :
    PendingInputQueue * bool :=
  let '(q0, changed) := st in
  let q := set_checked (<[id := p]> (q_checked q0)) q0 in
  match q_records q !! id with
  | None => (q, changed)
  | Some r =>
    if (r_ScopeID r <>?s ic_ScopeID p) || negb (bool_decide (r_CheckedAt r = None))
    then (q, changed)
    else if state_eqb (r_State r) StateSettled then
      (set_records (delete id (q_records q)) (removePendingInputID (q_order q) id) q, true)
    else
      (set_records (<[id := with_CheckedAt (Some (ic_CheckedAt p)) r]> (q_records q))
         (q_order q) q, true)
  end.

Definition applyInputCheckLocked (p : InputCheckedPayload) (q : PendingInputQueue) :
    PendingInputQueue * bool :=
  if (ic_ScopeID p =?s "") || (ic_ScopeID p <>?s q_scopeID q) then (q, false)
  else foldl (check_one p) (q, false) (ic_InputIDs p).
