(* ===== verification/PendingQueue.v ===== *)
(** * The pending input queue: operations with storage

    The methods of [PendingInputQueue] ([src/internal/framework/runtime/
    pending_queue.go], [input_tracking.go]) over a [World]: the queue, its
    document on disk and the thread it belongs to. Every method holds the
    queue's mutex for its whole body, so it is one atomic step. The clock, the
    random source and the outcome of each storage call come from an environment;
    a storage call may fail before or after taking effect ([IoFailCommitted]:
    [WriteFileAtomic] can report an error after the rename). An error does not
    undo what a method has already changed. *)

From S2P Require Import Prelude GoStd Llm Events PendingInputs.

Local Open Scope Z_scope.
Local Open Scope juex_scope.

(** ** World *)

(** What the queue uses of a [thread.Thread]. *)
Record Thread := mkThread {
  th_events : list Event;
  th_scope : string;
  th_history : list Message;
  th_pendingInputs : Z;
}.

Inductive FileContent :=
| FileAbsent
| FileCorrupt
| FileDocument (d : pendingInputDocument).

(** [w_nil]: the receiver is a nil queue. The counters say how much of the
    clock, the random source and the storage outcomes has been consumed. *)
Record World := mkWorld {
  w_nil : bool;
  w_queue : PendingInputQueue;
  w_file : FileContent;
  w_thread : option Thread;
  w_clock : nat;
  w_rand : nat;
  w_io : nat;
}.

Record Environment := mkEnv {
  env_clock : nat -> Time;
  env_rand : nat -> list Z;
  env_io : nat -> IoResult;
}.

Inductive QueueError :=
| ErrNilStore
| ErrPendingInputHandled
| ErrReadState
| ErrCorruptPendingInputs
| ErrReadEvents
| ErrEncode (id : string) (why : InvalidRecord)
| ErrWriteState
| ErrSynchronizeCount
| ErrChecklistFull
| ErrIntentNotFound (id : string)
| ErrIntentState (id : string)
| ErrRollback (id : string)
| ErrInputCount
| ErrInvalidInputID (id : string)
| ErrInputNotCheckable (id : string)
| ErrContext
| ErrAppendEvent
| ErrUncheckedInputs
| ErrOutOfIDs.

(** ** State and error monad *)

Definition M (A : Type) : Type := SM World QueueError A.

Definition set_queue (q : PendingInputQueue) (w : World) : World :=
  mkWorld (w_nil w) q (w_file w) (w_thread w) (w_clock w) (w_rand w) (w_io w).
Definition set_file (f : FileContent) (w : World) : World :=
  mkWorld (w_nil w) (w_queue w) f (w_thread w) (w_clock w) (w_rand w) (w_io w).
Definition set_thread (t : option Thread) (w : World) : World :=
  mkWorld (w_nil w) (w_queue w) (w_file w) t (w_clock w) (w_rand w) (w_io w).

Definition get_queue : M PendingInputQueue := fun w => (Ok (w_queue w), w).
Definition get_thread : M (option Thread) := fun w => (Ok (w_thread w), w).
Definition put_queue (q : PendingInputQueue) : M unit := fun w => (Ok tt, set_queue q w).
Definition modify_queue (f : PendingInputQueue -> PendingInputQueue) : M unit :=
  fun w => (Ok tt, set_queue (f (w_queue w)) w).

Definition history_of (t : option Thread) : option (list Message) :=
  match t with
  | Some t => Some (th_history t)
  | None => None
  end.

Definition scope_of (t : option Thread) : string :=
  match t with
  | Some t => th_scope t
  | None => InitialGeneration
  end.

Section Queue.
  Context (env : Environment).

(** One storage call with effect [f]. *)
Definition storage (err : QueueError) (f : World -> World) : M unit := fun w =>
  let w' := mkWorld (w_nil w) (w_queue w) (w_file w) (w_thread w) (w_clock w) (w_rand w) (S (w_io w)) in
  match env_io env (w_io w) with
  | IoOk => (Ok tt, f w')
  | IoFail => (Err err, w')
  | IoFailCommitted => (Err err, f w')
  end.

Definition nowMillis : M Time := fun w =>
  (Ok (truncate_ms (env_clock env (w_clock w))),
   mkWorld (w_nil w) (w_queue w) (w_file w) (w_thread w) (S (w_clock w)) (w_rand w) (w_io w)).

Definition newID : M string := fun w =>
  (Ok (hex_encode (env_rand env (w_rand w))),
   mkWorld (w_nil w) (w_queue w) (w_file w) (w_thread w) (w_clock w) (S (w_rand w)) (w_io w)).

Definition newInputID : M string := do id <- newID;; ret ("input-" ++ id)%string.

(** A loop without a bound in the code: [ErrOutOfIDs] stands for the fuel
    running out, after more draws than there are records. *)
Fixpoint nextUnique_loop (fuel : nat) (records : gmap string PendingInputRecord) : M string :=
  match fuel with
  | O => fail ErrOutOfIDs
  | S fuel =>
    do id <- newInputID;;
    if bool_decide (records !! id = None) then ret id else nextUnique_loop fuel records
  end.

Definition nextUniquePendingInputID (records : gmap string PendingInputRecord) : M string :=
  nextUnique_loop (S (size records)) records.

(** Runs [m]; on an error marks the queue as not loaded. *)
Definition unload_on_error {A} (m : M A) : M A := fun w =>
  match m w with
  | (Ok a, w') => (Ok a, w')
  | (Err e, w') => (Err e, set_queue (set_loaded false (w_queue w')) w')
  end.

(** ** Thread *)

Definition set_pending_count (n : Z) (w : World) : World :=
  match w_thread w with
  | Some t => set_thread (Some (mkThread (th_events t) (th_scope t) (th_history t) n)) w
  | None => w
  end.

Definition append_event (e : Event) (w : World) : World :=
  match w_thread w with
  | Some t =>
    set_thread (Some (mkThread (th_events t ++ [e]) (th_scope t) (th_history t)
                        (th_pendingInputs t))) w
  | None => w
  end.

(** [thread.AppendEvent] of an event that is not transient: a known id is
    ignored. *)
Definition AppendEvent (e : Event) : M unit := fun w =>
  match w_thread w with
  | Some t =>
    if bool_decide (ev_ID e ∈ map ev_ID (th_events t)) then (Ok tt, w)
    else storage ErrAppendEvent (append_event e) w
  | None => (Err ErrAppendEvent, w)
  end.

Definition synchronizePendingCountLocked (force : bool) : M unit :=
  do t <- get_thread;;
  match t with
  | None => ret tt
  | Some t =>
    do q <- get_queue;;
    let count := materializedPendingCountLocked q in
    if negb force && (th_pendingInputs t =? count) then ret tt
    else storage ErrSynchronizeCount (set_pending_count count)
  end.

(** ** Document *)

(** The record loop of [loadDocumentLocked]. *)
Fixpoint load_records (l : list PendingInputRecord) (records : gmap string PendingInputRecord)
    (order : list string) (messages : gmap string string) :
    option (gmap string PendingInputRecord * list string) :=
  match l with
  | [] => Some (records, order)
  | r :: rest =>
    if negb (valid_record r) then None
    else if negb (bool_decide (records !! r_ID r = None)) then None
    else if index_get messages (r_MessageID r) <>?s "" then None
    else load_records rest (<[r_ID r := r]> records) (order ++ [r_ID r])
           (<[r_MessageID r := r_ID r]> messages)
  end.

Definition load_document (f : FileContent) :
    option (gmap string PendingInputRecord * list string) :=
  match f with
  | FileAbsent => Some (∅, [])
  | FileCorrupt => None
  | FileDocument d =>
    if doc_Version d =? pendingInputDocumentVersion
    then load_records (doc_Records d) ∅ [] ∅ else None
  end.

Definition loadDocumentLocked : M (gmap string PendingInputRecord * list string) :=
  do_ storage ErrReadState (fun w => w);;
  fun w =>
    match load_document (w_file w) with
    | Some s => (Ok s, w)
    | None => (Err ErrCorruptPendingInputs, w)
    end.

(** The records of the document, in order. *)
Fixpoint document_records (records : gmap string PendingInputRecord) (order : list string) :
    list PendingInputRecord :=
  match order with
  | [] => []
  | id :: r =>
    match records !! id with
    | Some x => x :: document_records records r
    | None => document_records records r
    end
  end.

Definition encode_document (records : gmap string PendingInputRecord) (order : list string) :
    pendingInputDocument :=
  mkDocument pendingInputDocumentVersion (document_records records order).

(** The validation of [persistLocked]: the first record it refuses. *)
Fixpoint first_invalid (l : list PendingInputRecord) : option (string * InvalidRecord) :=
  match l with
  | [] => None
  | r :: rest =>
    match validatePendingInputRecord r with
    | Some why => Some (r_ID r, why)
    | None => first_invalid rest
    end
  end.

Definition persistLocked (records : gmap string PendingInputRecord) (order : list string) : M unit :=
  let document := encode_document records order in
  match first_invalid (doc_Records document) with
  | Some (id, why) => fail (ErrEncode id why)
  | None =>
    do_ unload_on_error (storage ErrWriteState (set_file (FileDocument document)));;
    do_ modify_queue (fun q => set_loaded true (rebuildIndexesLocked (set_records records order q)));;
    unload_on_error (synchronizePendingCountLocked false)
  end.

Definition persistCurrentLocked : M unit :=
  do q <- get_queue;; persistLocked (q_records q) (q_order q).

Definition unchecked_in_scope (scope : string) (r : PendingInputRecord) : bool :=
  (r_ScopeID r <>?s "") && (r_ScopeID r =?s scope) && bool_decide (r_CheckedAt r = None).

Definition checklist_size (scope : string) (records : gmap string PendingInputRecord) : Z :=
  Z.of_nat (size (filter (fun kr => unchecked_in_scope scope kr.2 = true) records)).

Definition upsertLocked (r : PendingInputRecord) : M unit :=
  do q <- get_queue;;
  match q_records q !! r_ID r with
  | Some _ => persistLocked (<[r_ID r := r]> (q_records q)) (q_order q)
  | None =>
    if (r_ScopeID r <>?s "") && (maxTrackedInputs <=? checklist_size (q_scopeID q) (q_records q))
    then fail ErrChecklistFull
    else persistLocked (<[r_ID r := r]> (q_records q)) (q_order q ++ [r_ID r])
  end.

(** ** Loading *)

(** One committed event of the thread, replayed over the loaded document. *)
Definition replay_event (st : PendingInputQueue * bool) (e : Event) : PendingInputQueue * bool :=
  let '(q, changed) := st in
  let '(q1, c1) :=
    if ev_Type e =?s InputCheckedType then applyInputCheckLocked (checked_fields (ev_Payload e)) q
    else (q, false) in
  let '(d, ids, message, kind) := pendingDispositionFromEvent e in
  let q2 := if bool_decide (d = TerminalNone) then q1 else add_handled ids [] q1 in
  let q3 := if bool_decide (d = TerminalCompleted) then add_completed ids q2 else q2 in
  let '(q4, c2) := applyTerminalStateLocked d ids message kind q3 in
  (q4, changed || c1 || c2).

(** The model message of delivered tracked records, from the transcript. *)
Fixpoint restore_messages (history : option (list Message)) (ids : list string) (changed : bool) :
    M bool :=
  match ids with
  | [] => ret changed
  | id :: rest =>
    do q <- get_queue;;
    match q_records q !! id with
    | Some r =>
      if (r_ScopeID r <>?s "") && bool_decide (r_ModelMessage r = None) then
        match processedMessageLocked history r with
        | Some m =>
          do r' <- (match r_ProcessedAt r with
                    | None => do now <- nowMillis;;
                              ret (with_ProcessedAt (Some now) (with_ModelMessage (Some m) r))
                    | Some _ => ret (with_ModelMessage (Some m) r)
                    end);;
          do_ put_queue (set_records (<[id := r']> (q_records q)) (q_order q) q);;
          restore_messages history rest true
        | None => restore_messages history rest changed
        end
      else restore_messages history rest changed
    | None => restore_messages history rest changed
    end
  end.

Definition fresh_queue (track : bool) (scope : string)
    (records : gmap string PendingInputRecord) (order : list string) : PendingInputQueue :=
  rebuildIndexesLocked (mkQueue track scope ∅ false records order ∅ ∅ ∅ ∅ ∅).

Definition refreshInputScopeLocked : M unit :=
  do q <- get_queue;;
  do t <- get_thread;;
  if q_scopeID q =?s scope_of t then ret tt
  else
    let '(q', changed) := pruneInputScopesLocked (set_scope (scope_of t) q) in
    do_ put_queue q';;
    if changed then persistCurrentLocked else ret tt.

Definition loadLocked : M unit :=
  do s <- loadDocumentLocked;;
  do q <- get_queue;;
  do t <- get_thread;;
  do_ put_queue (fresh_queue (q_trackUserInputs q) (scope_of t) s.1 s.2);;
  do c1 <- (match t with
            | None => ret false
            | Some t =>
              do_ storage ErrReadEvents (fun w => w);;
              do q <- get_queue;;
              let '(q', c) := foldl replay_event (q, false) (th_events t) in
              do_ put_queue q';;
              ret c
            end);;
  do_ modify_queue (set_loaded true);;
  do q <- get_queue;;
  do c2 <- restore_messages (history_of t) (map_to_list (q_records q)).*1 false;;
  do q <- get_queue;;
  let '(q', c3) := pruneInputScopesLocked q in
  do_ put_queue q';;
  if c1 || c2 || c3 then
    do_ persistCurrentLocked;;
    synchronizePendingCountLocked true
  else unload_on_error (synchronizePendingCountLocked true).

Definition ensureLoadedLocked : M unit :=
  do q <- get_queue;;
  if q_loaded q then refreshInputScopeLocked else loadLocked.

(** [if q == nil] guards. *)
Definition unless_nil {A} (r : result QueueError A) (m : M A) : M A := fun w =>
  if w_nil w then (r, w) else m w.

(** ** Accepting input *)

Definition with_blocks_nonnil (m : Message) : Message :=
  match m_Blocks m with
  | None => with_Blocks [] m
  | Some _ => m
  end.

Definition Enqueue (msg : Message) (optID : string) (optTTL : Duration) (turnID : string) :
    M PendingInputRecord :=
  unless_nil (Err ErrNilStore) (
  do_ ensureLoadedLocked;;
  do q <- get_queue;;
  let create id :=
    do now <- nowMillis;;
    let ttl := if optTTL <=? 0 then DefaultPendingInputTTL else optTTL in
    let msg := with_blocks_nonnil (with_ID (pendingInputMessageID id now) msg) in
    let r := trackInputLocked q
      (mkRecord "" None None id turnID (m_ID msg) msg
         (truncate (FirstText msg) pendingInputSummaryLength) OriginQueued StatePending
         now (now + ttl) 0 None "" "") in
    do_ upsertLocked r;;
    ret r in
  let id := TrimSpace optID in
  if id <>?s "" then
    match q_records q !! id with
    | Some existing => ret existing
    | None =>
      if bool_decide (id ∈ q_completed q) then fail ErrPendingInputHandled
      else if bool_decide (id ∈ q_handled q) then fail ErrPendingInputHandled
      else create id
    end
  else
    do id <- nextUniquePendingInputID (q_records q);;
    create id).

Definition promoteTurnInputLocked (r : PendingInputRecord) (turnID : string)
    (state : PendingInputState) : M PendingInputRecord :=
  if bool_decide (r_Origin r = OriginTurn) && state_eqb (r_State r) state && (r_TurnID r =?s turnID)
  then ret r
  else
    let r' := with_LastErrorKind "" (with_LastError "" (with_ProcessedAt None
      (with_Attempts (wrap_int64 (r_Attempts r + 1)) (with_ExpiresAt 0 (with_TurnID turnID
        (with_State state (with_Origin OriginTurn r))))))) in
    do_ upsertLocked r';;
    ret r'.

Definition storeTurnInput (turnID : string) (msg : Message) (reuseTurnRecord : bool)
    (state : PendingInputState) : M PendingInputRecord :=
  unless_nil (Err ErrNilStore) (
  do_ ensureLoadedLocked;;
  do q <- get_queue;;
  let stored id := default zeroRecord (q_records q !! id) in
  let turn_record := index_get (q_turnIndex q) turnID in
  if reuseTurnRecord && (turn_record <>?s "") then ret (stored turn_record)
  else
    let known := index_get (q_messageIndex q) (m_ID msg) in
    if (m_ID msg <>?s "") && bool_decide (m_ID msg ∈ q_handledMsgs q) then fail ErrPendingInputHandled
    else if (m_ID msg <>?s "") && (known <>?s "") then
      let r := stored known in
      if isReplayablePendingState (r_State r) then
        if state_eqb state StateAccepting then ret r
        else promoteTurnInputLocked r turnID state
      else fail ErrPendingInputHandled
    else
      do id <- nextUniquePendingInputID (q_records q);;
      do now <- nowMillis;;
      let msg := with_blocks_nonnil (with_ID (pendingInputMessageID id now) msg) in
      let r := trackInputLocked q
        (mkRecord "" None None id turnID (m_ID msg) msg
           (truncate (FirstText msg) pendingInputSummaryLength) OriginTurn state
           now 0 (if state_eqb state StateAdmitted then 1 else 0) None "" "") in
      do_ upsertLocked r;;
      ret r).

Definition AdmitTurnInput (turnID : string) (msg : Message) (reuse : bool) : M PendingInputRecord :=
  storeTurnInput turnID msg reuse StateAdmitted.

Definition StageTurnInput (turnID : string) (msg : Message) (reuse : bool) : M PendingInputRecord :=
  storeTurnInput turnID msg reuse StateAccepting.

Definition CommitTurnInput (id turnID : string) : M unit :=
  unless_nil (Err ErrNilStore) (
  do_ ensureLoadedLocked;;
  do q <- get_queue;;
  match q_records q !! id with
  | None => fail (ErrIntentNotFound id)
  | Some r =>
    if bool_decide (r_Origin r = OriginTurn) && state_eqb (r_State r) StateAdmitted &&
       (r_TurnID r =?s turnID)
    then ret tt
    else if state_eqb (r_State r) StateAccepting && (r_TurnID r <>?s turnID)
    then fail (ErrIntentState id)
    else if negb (isReplayablePendingState (r_State r)) then fail (ErrIntentState id)
    else
      let bump := state_eqb (r_State r) StateAccepting || (r_Attempts r =? 0) ||
                  (r_TurnID r <>?s turnID) in
      upsertLocked
        (with_LastErrorKind "" (with_LastError "" (with_ProcessedAt None
          (with_Attempts (if bump then wrap_int64 (r_Attempts r + 1) else r_Attempts r)
            (with_ExpiresAt 0 (with_TurnID turnID (with_State StateAdmitted
              (with_Origin OriginTurn r))))))))
  end).

(** ** State changes of recorded inputs *)

(** The result of an update closure: the record, whether it changed, whether it
    goes. *)
Definition Update : Type :=
  option (list Message) -> PendingInputRecord -> Time -> PendingInputRecord * bool * bool.

Definition update_one (update : Update) (history : option (list Message)) (now : Time)
    (st : gmap string PendingInputRecord * list string * bool) (id : string) :
    gmap string PendingInputRecord * list string * bool :=
  let '(records, order, changed) := st in
  match records !! id with
  | None => st
  | Some r =>
    let '(r', mutate, remove) := update history r now in
    if remove : bool then (delete id records, removePendingInputID order id, true)
    else if mutate : bool then (<[id := r']> records, order, true)
    else st
  end.

Definition updateStates (ids : list string) (update : Update) : M unit :=
  unless_nil (Ok tt) (
  match ids with
  | [] => ret tt
  | _ =>
    do_ ensureLoadedLocked;;
    do q <- get_queue;;
    do t <- get_thread;;
    do now <- nowMillis;;
    let '(records, order, changed) :=
      foldl (update_one update (history_of t) now) (q_records q, q_order q, false) ids in
    if changed then persistLocked records order else ret tt
  end).

Definition mark_admitted (turnID : string) : Update := fun _ r _ =>
  if negb (isReplayablePendingState (r_State r)) || state_eqb (r_State r) StateDeadLettered
  then (r, false, false)
  else if state_eqb (r_State r) StateAdmitted && (r_TurnID r =?s turnID) then (r, false, false)
  else (with_LastErrorKind "" (with_LastError "" (with_ProcessedAt None
          (with_Attempts (wrap_int64 (r_Attempts r + 1)) (with_ExpiresAt 0
            (with_TurnID turnID (with_State StateAdmitted r)))))), true, false).

Definition MarkAdmitted (ids : list string) (turnID : string) : M unit :=
  updateStates ids (mark_admitted turnID).

Definition promote_to_turn (turnID : string) : Update := fun _ r _ =>
  if negb (isReplayablePendingState (r_State r)) || state_eqb (r_State r) StateDeadLettered
  then (r, false, false)
  else if bool_decide (r_Origin r = OriginTurn) && state_eqb (r_State r) StateAdmitted &&
          (r_TurnID r =?s turnID) then (r, false, false)
  else (with_LastErrorKind "" (with_LastError "" (with_ProcessedAt None
          (with_Attempts (wrap_int64 (r_Attempts r + 1)) (with_ExpiresAt 0
            (with_TurnID turnID (with_State StateAdmitted (with_Origin OriginTurn r))))))),
        true, false).

Definition PromoteToTurnInput (ids : list string) (turnID : string) : M unit :=
  updateStates ids (promote_to_turn turnID).

Definition mark_processed : Update := fun history r now =>
  if negb (isReplayablePendingState (r_State r)) || state_eqb (r_State r) StateDeadLettered ||
     state_eqb (r_State r) StateProcessed
  then (r, false, false)
  else
    let r' := with_ProcessedAt (Some now) (with_State StateProcessed r) in
    (with_ModelMessage (processedMessageLocked history r') r', true, false).

Definition MarkProcessed (ids : list string) : M unit := updateStates ids mark_processed.

Definition MarkMessageProcessed (message : Message) : M unit :=
  unless_nil (Ok tt) (
  if m_ID message =?s "" then ret tt
  else
    do_ ensureLoadedLocked;;
    do q <- get_queue;;
    let id := index_get (q_messageIndex q) (m_ID message) in
    if id =?s "" then ret tt
    else
      let r := default zeroRecord (q_records q !! id) in
      if state_eqb (r_State r) StateProcessed || state_eqb (r_State r) StateDeadLettered then ret tt
      else
        do now <- nowMillis;;
        let r' := with_ProcessedAt (Some now) (with_State StateProcessed r) in
        upsertLocked
          (if r_ScopeID r' <>?s "" then with_ModelMessage (Some message) r' else r')).

Definition back_to_pending (r : PendingInputRecord) : PendingInputRecord :=
  with_LastErrorKind "" (with_LastError "" (with_ProcessedAt None (with_TurnID ""
    (with_State StatePending r)))).

Definition retry_update : Update := fun _ r _ =>
  if negb (state_eqb (r_State r) StateDeadLettered) && negb (state_eqb (r_State r) StateRetryable)
  then (r, false, false)
  else (back_to_pending r, true, false).

Definition Retry (id : string) : M unit := updateStates [id] retry_update.

Definition retry_one (turnID : string)
    (st : gmap string PendingInputRecord * list PendingInputRecord) (id : string) :
    gmap string PendingInputRecord * list PendingInputRecord :=
  let '(records, retried) := st in
  let r := default zeroRecord (records !! id) in
  if negb (state_eqb (r_State r) StateRetryable) || (r_TurnID r <>?s turnID) then st
  else (<[id := back_to_pending r]> records, retried ++ [r]).

(** The records are returned next to the error of the document write. *)
Definition retryTurnInputs (turnID : string) :
    World -> list PendingInputRecord * option QueueError * World := fun w =>
  if w_nil w || (TrimSpace turnID =?s "") then ([], None, w)
  else
    match ensureLoadedLocked w with
    | (Err e, w1) => ([], Some e, w1)
    | (Ok _, w1) =>
      let q := w_queue w1 in
      let '(records, retried) := foldl (retry_one turnID) (q_records q, []) (q_order q) in
      match retried with
      | [] => ([], None, w1)
      | _ =>
        match persistLocked records (q_order q) w1 with
        | (Ok _, w2) => (retried, None, w2)
        | (Err e, w2) => (retried, Some e, w2)
        end
      end
    end.

Definition RetryTurnInputs (turnID : string) : World -> Z * option QueueError * World := fun w =>
  let '(retried, err, w') := retryTurnInputs turnID w in
  (Z.of_nat (length retried), err, w').

Fixpoint restore_loop (retried : list PendingInputRecord)
    (records : gmap string PendingInputRecord) :
    result QueueError (gmap string PendingInputRecord) :=
  match retried with
  | [] => Ok records
  | previous :: rest =>
    match records !! r_ID previous with
    | None => Err (ErrRollback (r_ID previous))
    | Some current =>
      if negb (state_eqb (r_State current) StatePending) || (r_TurnID current <>?s "")
      then Err (ErrRollback (r_ID previous))
      else restore_loop rest (<[r_ID previous := previous]> records)
    end
  end.

Definition restoreRetriedInputs (retried : list PendingInputRecord) : M unit :=
  unless_nil (Ok tt) (
  match retried with
  | [] => ret tt
  | _ =>
    do_ ensureLoadedLocked;;
    do q <- get_queue;;
    match restore_loop retried (q_records q) with
    | Err e => fail e
    | Ok records => persistLocked records (q_order q)
    end
  end).

(** ** Removing inputs *)

Definition remove_one
    (st : gmap string PendingInputRecord * list string * list PendingInputRecord) (id : string) :
    gmap string PendingInputRecord * list string * list PendingInputRecord :=
  let '(records, order, removed) := st in
  match records !! id with
  | None => st
  | Some r => (delete id records, removePendingInputID order id, removed ++ [r])
  end.

Definition remove (ids : list string) : M unit :=
  unless_nil (Ok tt) (
  match ids with
  | [] => ret tt
  | _ =>
    do_ ensureLoadedLocked;;
    do q <- get_queue;;
    let '(records, order, removed) := foldl remove_one (q_records q, q_order q, []) ids in
    match removed with
    | [] => ret tt
    | _ =>
      do_ persistLocked records order;;
      modify_queue (add_handled (map r_ID removed) (map r_MessageID removed))
    end
  end).

Definition MarkDropped (ids : list string) : M unit := remove ids.
Definition MarkExpired (ids : list string) : M unit := remove ids.
Definition Cancel (id : string) : M unit := remove [id].

(** ** Reading *)

Definition expire_one (now : Time) (st : gmap string PendingInputRecord * list string * bool)
    (id : string) : gmap string PendingInputRecord * list string * bool :=
  let '(records, order, changed) := st in
  if Expired (default zeroRecord (records !! id)) now
  then (delete id records, removePendingInputID order id, true) else st.

Definition replayable_record (r : PendingInputRecord) : bool :=
  isReplayablePendingState (r_State r) && negb (state_eqb (r_State r) StateDeadLettered) &&
  negb (state_eqb (r_State r) StateRetryable && (r_LastErrorKind r =?s "runtime_restart")).

Fixpoint replayable_loop (records : gmap string PendingInputRecord) (limit : Z)
    (order : list string) (out : list PendingInputRecord) : list PendingInputRecord :=
  match order with
  | [] => out
  | id :: rest =>
    let r := default zeroRecord (records !! id) in
    if negb (replayable_record r) then replayable_loop records limit rest out
    else if (0 <? limit) && (limit <=? Z.of_nat (length out)) then out
    else replayable_loop records limit rest (out ++ [r])
  end.

(** The turn argument is unused in the code too. *)
Definition Replayable (turnID : string) (limit : Z) : M (list PendingInputRecord) :=
  unless_nil (Ok []) (
  do_ ensureLoadedLocked;;
  do now <- nowMillis;;
  do q <- get_queue;;
  let '(records, order, changed) :=
    foldl (expire_one now) (q_records q, q_order q, false) (q_order q) in
  do_ (if changed then persistLocked records order else ret tt);;
  do q <- get_queue;;
  ret (replayable_loop (q_records q) limit (q_order q) [])).

Definition Records : M (gmap string PendingInputRecord) :=
  unless_nil (Ok ∅) (
  do_ ensureLoadedLocked;;
  do q <- get_queue;;
  ret (q_records q)).

Definition Completed (id : string) : M bool :=
  unless_nil (Ok false) (
  if id =?s "" then ret false
  else
    do_ ensureLoadedLocked;;
    do q <- get_queue;;
    ret (bool_decide (id ∈ q_completed q))).

Definition InputIDsForTurn (turnID : string) : M (list string) :=
  unless_nil (Ok []) (
  if turnID =?s "" then ret []
  else
    do_ ensureLoadedLocked;;
    do q <- get_queue;;
    ret (filter (fun id =>
      let r := default zeroRecord (q_records q !! id) in
      r_TurnID r = turnID /\ (r_State r = StateAdmitted \/ r_State r = StateProcessed)) (q_order q))).

(** ** Terminal events and recovery *)

Definition applyTerminalLocked (d : pendingTerminalDisposition) (ids : list string)
    (message kind : string) : M unit :=
  do_ modify_queue (fun q =>
    let q1 := add_handled ids (map r_MessageID (omap (fun id => q_records q !! id) ids)) q in
    if bool_decide (d = TerminalCompleted) then add_completed ids q1 else q1);;
  do q <- get_queue;;
  let '(q', changed) := applyTerminalStateLocked d ids message kind q in
  do_ put_queue q';;
  if changed then persistCurrentLocked else ret tt.

Definition ApplyTerminalEvent (e : Event) : M unit :=
  unless_nil (Ok tt) (
  let '(d, ids, message, kind) := pendingDispositionFromEvent e in
  if bool_decide (d = TerminalNone) || bool_decide (ids = []) then ret tt
  else
    do_ ensureLoadedLocked;;
    applyTerminalLocked d ids message kind).

Record PendingInputRecoveryFacts := mkFacts {
  AdmittedMessageIDs : gset string;
  TranscriptMessageIDs : gset string;
}.

Definition interrupted : string := "process ended before a terminal Turn record".

(** The state switch of [ReconcileRecoveryFacts] for one record. *)
Definition reconcile_state (facts : PendingInputRecoveryFacts) (r : PendingInputRecord) :
    PendingInputRecord * bool :=
  match r_State r with
  | StateAccepting =>
    (if bool_decide (r_MessageID r ∈ AdmittedMessageIDs facts) then with_State StateAdmitted r
     else with_TurnID "" (with_Origin OriginQueued (with_State StatePending r)), true)
  | StateAdmitted | StateProcessed =>
    if r_LastError r <>?s interrupted then (with_LastError interrupted r, true) else (r, false)
  | _ => (r, false)
  end.

Fixpoint reconcile_loop (facts : PendingInputRecoveryFacts) (history : option (list Message))
    (ids : list string) (records : gmap string PendingInputRecord) (changed : bool) :
    M (gmap string PendingInputRecord * bool) :=
  match ids with
  | [] => ret (records, changed)
  | id :: rest =>
    let r := default zeroRecord (records !! id) in
    if state_eqb (r_State r) StateDeadLettered || state_eqb (r_State r) StateSettled
    then reconcile_loop facts history rest records changed
    else
      let '(r1, c1) := reconcile_state facts r in
      if bool_decide (r_MessageID r ∈ TranscriptMessageIDs facts) &&
         bool_decide (r_ProcessedAt r1 = None)
      then
        do now <- nowMillis;;
        let r2 := with_ProcessedAt (Some now) r1 in
        let r3 := with_ModelMessage (processedMessageLocked history r2) r2 in
        reconcile_loop facts history rest (<[id := r3]> records) true
      else reconcile_loop facts history rest (<[id := r1]> records) (changed || c1)
  end.

Definition ReconcileRecoveryFacts (facts : PendingInputRecoveryFacts) : M unit :=
  unless_nil (Ok tt) (
  do_ ensureLoadedLocked;;
  do q <- get_queue;;
  do t <- get_thread;;
  do s <- reconcile_loop facts (history_of t) (q_order q) (q_records q) false;;
  if s.2 : bool then persistLocked s.1 (q_order q) else ret tt).

(** ** Input tracking *)

Definition delivered_unblocked (r : PendingInputRecord) : bool :=
  negb (bool_decide (r_ProcessedAt r = None)) &&
  match r_ModelMessage r with
  | Some m => negb (m_PolicyBlocked m)
  | None => false
  end.

Definition unchecked_record (scope : string) (r : PendingInputRecord) : bool :=
  unchecked_in_scope scope r && delivered_unblocked r.

Definition uncheckedRecords : M (list PendingInputRecord) :=
  do_ ensureLoadedLocked;;
  do q <- get_queue;;
  ret (filter (fun r => unchecked_record (q_scopeID q) r = true)
    (map (fun id => default zeroRecord (q_records q !! id)) (q_order q))).

(** The validation loop of [checkInputs]: the confirmed ids and those to check
    now. *)
Fixpoint check_loop (q : PendingInputQueue) (ids : list string) (seen : gset string)
    (confirmed pending : list string) : result QueueError (list string * list string) :=
  match ids with
  | [] => Ok (confirmed, pending)
  | id :: rest =>
    if (id =?s "") || (TrimSpace id <>?s id) then Err (ErrInvalidInputID id)
    else if bool_decide (id ∈ seen) then check_loop q rest seen confirmed pending
    else
      let seen := {[id]} ∪ seen in
      if match q_checked q !! id with
         | Some previous => ic_ScopeID previous =?s q_scopeID q
         | None => false
         end
      then check_loop q rest seen (confirmed ++ [id]) pending
      else
        match q_records q !! id with
        | None => Err (ErrInputNotCheckable id)
        | Some r =>
          if (r_ScopeID r =?s "") || (r_ScopeID r <>?s q_scopeID q) || negb (delivered_unblocked r)
          then Err (ErrInputNotCheckable id)
          else check_loop q rest seen (confirmed ++ [id])
                 (if bool_decide (r_CheckedAt r = None) then pending ++ [id] else pending)
        end
  end.

(** [ctx_done]: the context is cancelled; [tool_use_id] and [message_id]: the
    tool call of the context. The zero event is [None]. *)
Definition checkInputs (ctx_done : bool) (tool_use_id message_id : string) (ids : list string)
    (turnID : string) : M (list string * option Event) :=
  do_ ensureLoadedLocked;;
  do q <- get_queue;;
  do t <- get_thread;;
  if negb (match t with Some _ => true | None => false end) || Nat.eqb (length ids) 0 ||
     (maxTrackedInputs <? Z.of_nat (length ids))
  then fail ErrInputCount
  else
    match check_loop q ids ∅ [] [] with
    | Err e => fail e
    | Ok (confirmed, pending) =>
      if ctx_done then fail ErrContext
      else
        match pending with
        | [] => ret (confirmed, None)
        | _ =>
          do now <- nowMillis;;
          do id <- newID;;
          let payload := mkChecked pending (q_scopeID q) now tool_use_id message_id in
          let event := mkEvent id InputCheckedType turnID (CheckedPayload payload) in
          do_ unload_on_error (AppendEvent event);;
          do_ modify_queue (fun q => fst (applyInputCheckLocked payload q));;
          do_ persistCurrentLocked;;
          ret (confirmed, Some event)
        end
    end.

(** The association event of a tracked input; the code takes the first match of
    a map iteration, the model the first in acceptance order. *)
Definition inputAssociation (message : Message) : M (option Event) :=
  do_ ensureLoadedLocked;;
  do q <- get_queue;;
  match list_find (fun r => r_MessageID r = m_ID message /\ r_ScopeID r <> "" /\
                            m_PolicyBlocked message = false)
          (document_records (q_records q) (q_order q)) with
  | Some (_, r) =>
    do id <- newID;;
    ret (Some (mkEvent id InputTrackedType (r_TurnID r)
                 (TrackedPayload (r_ID r) (m_ID message) (r_ScopeID r))))
  | None => ret None
  end.

(** The queue part of [checkInputScopeRenewal]: no unchecked input remains. *)
Definition checkInputScopeRenewal : M unit :=
  do_ ensureLoadedLocked;;
  do q <- get_queue;;
  if existsb (unchecked_in_scope (q_scopeID q)) (map snd (map_to_list (q_records q)))
  then fail ErrUncheckedInputs
  else ret tt.

End Queue.

(** ** Lifetime of a queue *)

(** [NewPendingInputQueue]: nothing is loaded yet. *)
Definition NewPendingInputQueue (track : bool) : PendingInputQueue :=
  mkQueue track "" ∅ false ∅ [] ∅ ∅ ∅ ∅ ∅.
