(* ===== verification/PendingQueueInv.v ===== *)
(** * The pending input queue: its invariant

    What every method keeps, whatever the storage calls do: the document on
    disk is always one the loader accepts record by record, the in-memory maps
    and the order describe each other, and, as long as every record in memory is
    encodable, memory, indexes and disk agree whenever the queue counts as
    loaded. *)

From S2P Require Import Prelude GoStd Llm Events PendingInputs PendingQueue.

Local Open Scope Z_scope.
Local Open Scope juex_scope.

(** ** Records *)

(** An input handed to a turn can no longer expire. *)
Definition record_ok (r : PendingInputRecord) : Prop :=
  (r_State r = StateAdmitted -> r_ExpiresAt r = 0 \/ r_Origin r = OriginTurn) /\
  (r_State r = StateAccepting -> r_Origin r = OriginTurn).

(** The order lists the keys once each, and records sit under their own id. *)
Definition table_ok (records : gmap string PendingInputRecord) (order : list string) : Prop :=
  NoDup order /\
  (forall id, id ∈ order <-> is_Some (records !! id)) /\
  (forall id r, records !! id = Some r -> r_ID r = id /\ record_ok r).

Definition all_valid (records : gmap string PendingInputRecord) (order : list string) : Prop :=
  Forall (fun r => valid_record r = true) (document_records records order).

Definition document_ok (d : pendingInputDocument) : Prop :=
  doc_Version d = pendingInputDocumentVersion /\
  NoDup (map r_ID (doc_Records d)) /\
  Forall (fun r => valid_record r = true /\ record_ok r) (doc_Records d).

Definition file_ok (f : FileContent) : Prop :=
  match f with
  | FileAbsent => True
  | FileCorrupt => False
  | FileDocument d => document_ok d
  end.

Definition file_records (f : FileContent) : list PendingInputRecord :=
  match f with
  | FileDocument d => doc_Records d
  | _ => []
  end.

Definition queue_ok (q : PendingInputQueue) : Prop := table_ok (q_records q) (q_order q).

(** Memory, disk and indexes agree. *)
Definition agrees (q : PendingInputQueue) (f : FileContent) : Prop :=
  file_records f = document_records (q_records q) (q_order q) /\
  q_messageIndex q = messageIndex_of (q_records q) (q_order q) /\
  q_turnIndex q = turnIndex_of (q_records q) (q_order q).

Definition inv (w : World) : Prop :=
  file_ok (w_file w) /\
  (q_loaded (w_queue w) = true ->
   queue_ok (w_queue w) /\
   (all_valid (q_records (w_queue w)) (q_order (w_queue w)) -> agrees (w_queue w) (w_file w))).

(** ** Tables *)

Lemma table_ok_empty : table_ok ∅ [].
Proof.
  split_and!; [constructor| |].
  - intros id. rewrite lookup_empty. split; [by intros ?%not_elem_of_nil | by intros [? ?]].
  - intros id r. by rewrite lookup_empty.
Qed.

Lemma table_ok_insert records order id r r' :
  table_ok records order -> records !! id = Some r -> r_ID r' = id -> record_ok r' ->
  table_ok (<[id := r']> records) order.
Proof.
  intros (Hnd & Hdom & Hrec) Hid Hr' Hok. split_and!; [done| |].
  - intros k. rewrite Hdom. destruct (decide (id = k)) as [<-|].
    + rewrite lookup_insert_eq, Hid. split; eauto.
    + by rewrite lookup_insert_ne.
  - intros k x. destruct (decide (id = k)) as [<-|].
    + rewrite lookup_insert_eq. intros [= <-]. done.
    + rewrite lookup_insert_ne by done. apply Hrec.
Qed.

Lemma table_ok_snoc records order r :
  table_ok records order -> records !! r_ID r = None -> record_ok r ->
  table_ok (<[r_ID r := r]> records) (order ++ [r_ID r]).
Proof.
  intros (Hnd & Hdom & Hrec) Hid Hok. split_and!.
  - apply NoDup_app. split_and!; [done| |apply NoDup_singleton].
    intros k Hk ->%list_elem_of_singleton. apply Hdom in Hk. rewrite Hid in Hk. by destruct Hk.
  - intros k. rewrite elem_of_app, list_elem_of_singleton, Hdom.
    destruct (decide (r_ID r = k)) as [<-|].
    + rewrite lookup_insert_eq. split; eauto.
    + rewrite lookup_insert_ne by done. split; [intros [?| ->]; done | by left].
  - intros k x. destruct (decide (r_ID r = k)) as [<-|].
    + rewrite lookup_insert_eq. intros [= <-]. done.
    + rewrite lookup_insert_ne by done. apply Hrec.
Qed.

Lemma removePending_elem order id k :
  NoDup order -> k ∈ removePendingInputID order id <-> k ∈ order /\ k <> id.
Proof.
  induction order as [|x order IH]; intros Hnd; simpl; [set_solver|].
  inversion Hnd as [|? ? Hx Hnd']; subst. case_bool_decide as Hxid.
  - subst. set_solver.
  - rewrite !elem_of_cons, IH by done. set_solver.
Qed.

Lemma removePending_nodup order id : NoDup order -> NoDup (removePendingInputID order id).
Proof.
  induction order as [|x order IH]; intros Hnd; simpl; [constructor|].
  inversion Hnd as [|? ? Hx Hnd']; subst. case_bool_decide; [done|].
  constructor; [|by apply IH]. rewrite removePending_elem by done. tauto.
Qed.

Lemma table_ok_delete records order id :
  table_ok records order -> table_ok (delete id records) (removePendingInputID order id).
Proof.
  intros (Hnd & Hdom & Hrec). split_and!.
  - by apply removePending_nodup.
  - intros k. rewrite removePending_elem, Hdom by done. rewrite lookup_delete_is_Some. naive_solver.
  - intros k x. rewrite lookup_delete_Some. intros [_ H]. by apply Hrec.
Qed.

Lemma document_records_elem records order r : r ∈ document_records records order ->
  exists id, id ∈ order /\ records !! id = Some r.
Proof.
  induction order as [|x order IH]; simpl; [by intros ?%not_elem_of_nil|].
  destruct (records !! x) as [y|] eqn:E; [|set_solver].
  intros [->|H]%elem_of_cons; set_solver.
Qed.

Lemma document_records_ids records order : table_ok records order ->
  map r_ID (document_records records order) = order.
Proof.
  intros (_ & Hdom & Hrec).
  assert (forall l, (forall id, id ∈ l -> id ∈ order) ->
            map r_ID (document_records records l) = l) as H; [|by apply H].
  induction l as [|x l IH]; intros Hl; simpl; [done|].
  destruct (proj1 (Hdom x) ltac:(set_solver)) as [y Hy]. rewrite Hy. simpl.
  destruct (Hrec _ _ Hy) as [-> _]. f_equal. apply IH. set_solver.
Qed.

(** A record is in the document exactly when it is in the table. *)
Lemma document_records_iff records order r : table_ok records order ->
  r ∈ document_records records order <-> records !! r_ID r = Some r.
Proof.
  intros (Hnd & Hdom & Hrec). split.
  - intros (id & Hid & Hr)%document_records_elem. destruct (Hrec _ _ Hr) as [-> _]. done.
  - intros Hr. assert (r_ID r ∈ order) as Hin by (apply Hdom; eauto).
    clear Hnd Hdom. induction order as [|x order IH]; [by apply not_elem_of_nil in Hin|].
    simpl. apply elem_of_cons in Hin as [<-|Hin].
    + rewrite Hr. constructor.
    + destruct (records !! x); [constructor|]; auto.
Qed.

Lemma document_ok_encode records order :
  table_ok records order -> all_valid records order -> document_ok (encode_document records order).
Proof.
  intros Ht Hv. split_and!; [done| |].
  - simpl. rewrite document_records_ids by done. apply Ht.
  - simpl. rewrite Forall_forall. intros r Hr. split.
    + unfold all_valid in Hv. rewrite Forall_forall in Hv. by apply Hv.
    + apply document_records_elem in Hr as (id & _ & Hr). destruct Ht as (_ & _ & Ht).
      by destruct (Ht _ _ Hr).
Qed.

Lemma first_invalid_None l :
  first_invalid l = None <-> Forall (fun r => valid_record r = true) l.
Proof.
  induction l as [|r l IH]; simpl; [split; [constructor|done]|].
  rewrite Forall_cons, <- IH. unfold valid_record.
  destruct (validatePendingInputRecord r); naive_solver.
Qed.

Lemma all_valid_first_invalid records order :
  all_valid records order <-> first_invalid (document_records records order) = None.
Proof. symmetry. apply first_invalid_None. Qed.

Lemma document_records_app records o1 o2 :
  document_records records (o1 ++ o2) = document_records records o1 ++ document_records records o2.
Proof.
  induction o1 as [|x o1 IH]; simpl; [done|]. destruct (records !! x); simpl; by rewrite IH.
Qed.

Lemma document_records_insert_notin records order id r :
  id ∉ order -> document_records (<[id := r]> records) order = document_records records order.
Proof.
  induction order as [|x order IH]; simpl; [done|]. intros Hin.
  rewrite lookup_insert_ne by set_solver. rewrite IH by set_solver. done.
Qed.

Lemma document_records_snoc records order r :
  table_ok records order -> records !! r_ID r = None ->
  document_records (<[r_ID r := r]> records) (order ++ [r_ID r]) =
  document_records records order ++ [r].
Proof.
  intros (_ & Hdom & _) Hnone. rewrite document_records_app. simpl. rewrite lookup_insert_eq.
  rewrite document_records_insert_notin; [done|]. rewrite Hdom, Hnone. by intros [? ?].
Qed.

(** What the loader builds from a document. *)
Lemma load_records_ok l : forall records order messages rs o,
  load_records l records order messages = Some (rs, o) ->
  table_ok records order -> Forall record_ok l ->
  table_ok rs o /\ document_records rs o = document_records records order ++ l.
Proof.
  induction l as [|r l IH]; intros records order messages rs o H Ht HF; simpl in H.
  - simplify_eq. by rewrite app_nil_r.
  - repeat case_match; simplify_eq. inversion HF; subst. to_prop.
    destruct (IH _ _ _ _ _ H) as [Htab Hdoc]; [by apply table_ok_snoc|done|].
    split; [done|]. rewrite Hdoc, document_records_snoc by done. by rewrite <- app_assoc.
Qed.

Lemma load_document_ok f rs o : file_ok f -> load_document f = Some (rs, o) ->
  table_ok rs o /\ document_records rs o = file_records f.
Proof.
  intros Hf H. destruct f as [| |d]; simpl in *; [|done|].
  - simplify_eq. split; [apply table_ok_empty | done].
  - case_match; [|done]. destruct Hf as (_ & _ & HF).
    apply load_records_ok in H as [H1 H2]; [|apply table_ok_empty|].
    + simpl in H2. done.
    + eapply Forall_impl; [exact HF|]. by intros r [_ ?].
Qed.

(** ** Transitions on the in-memory tables *)

(** A transition that rewrites or removes records without renaming them keeps
    the tables; when it reports no change it left them alone. *)
Definition table_step (q q' : PendingInputQueue) (c c' : bool) : Prop :=
  (queue_ok q -> queue_ok q') /\
  (c' = false -> c = false /\ q_records q' = q_records q /\ q_order q' = q_order q /\
     q_messageIndex q' = q_messageIndex q /\ q_turnIndex q' = q_turnIndex q) /\
  q_loaded q' = q_loaded q /\ q_trackUserInputs q' = q_trackUserInputs q /\
  q_scopeID q' = q_scopeID q.

Lemma table_step_refl q c : table_step q q c c.
Proof. unfold table_step. tauto. Qed.

Lemma table_step_trans q1 q2 q3 c1 c2 c3 :
  table_step q1 q2 c1 c2 -> table_step q2 q3 c2 c3 -> table_step q1 q3 c1 c3.
Proof.
  unfold table_step.
  intros (A1 & A2 & A3 & A4 & A5) (B1 & B2 & B3 & B4 & B5). split_and!; try congruence; [tauto|].
  intros Hc. destruct (B2 Hc) as (Hc2 & -> & -> & -> & ->). by apply A2.
Qed.

Lemma table_step_fold {A} (f : PendingInputQueue * bool -> A -> PendingInputQueue * bool) l :
  (forall q c a, let '(q', c') := f (q, c) a in table_step q q' c c') ->
  forall q c, let '(q', c') := foldl f (q, c) l in table_step q q' c c'.
Proof.
  intros Hf. induction l as [|a l IH]; intros q c; simpl; [apply table_step_refl|].
  pose proof (Hf q c a) as Ha. destruct (f (q, c) a) as [q1 c1].
  specialize (IH q1 c1). destruct (foldl f (q1, c1) l) as [q2 c2].
  by eapply table_step_trans.
Qed.

Lemma table_step_put q id r r' c :
  q_records q !! id = Some r -> r_ID r' = r_ID r -> (record_ok r -> record_ok r') ->
  table_step q (set_records (<[id := r']> (q_records q)) (q_order q) q) c true.
Proof.
  intros Hid HID Hok. split_and!; try done. unfold queue_ok. simpl. intros Ht.
  pose proof Ht as (_ & _ & Hrec). destruct (Hrec _ _ Hid) as [Hr Hrok].
  eapply table_ok_insert; [done..|congruence|auto].
Qed.

Lemma table_step_delete q id c :
  table_step q (set_records (delete id (q_records q)) (removePendingInputID (q_order q) id) q)
    c true.
Proof. split_and!; try done. unfold queue_ok. simpl. apply table_ok_delete. Qed.

Lemma record_ok_state s r : s <> StateAdmitted -> s <> StateAccepting ->
  record_ok (with_State s r).
Proof. intros H1 H2. split; simpl; intros ->; done. Qed.

(** Setting an error or a check keeps [record_ok]. *)
Lemma record_ok_LastError e r : record_ok r -> record_ok (with_LastError e r).
Proof. done. Qed.
Lemma record_ok_LastErrorKind k r : record_ok r -> record_ok (with_LastErrorKind k r).
Proof. done. Qed.
#[local] Hint Resolve record_ok_state record_ok_LastError record_ok_LastErrorKind : juex.

Lemma apply_terminal_one_step d message kind q c id :
  let '(q', c') := apply_terminal_one d message kind (q, c) id in table_step q q' c c'.
Proof.
  unfold apply_terminal_one. destruct (q_records q !! id) as [r|] eqn:Hid;
    [|apply table_step_refl].
  destruct d; repeat case_match; simplify_eq;
    try apply table_step_refl; try apply table_step_delete;
    (eapply table_step_put; [exact Hid | done | intros _; eauto with juex]).
Qed.

Lemma rebuild_step q c : table_step q (rebuildIndexesLocked q) c true.
Proof. by split_and!. Qed.

Lemma applyTerminalStateLocked_step d ids message kind q :
  let '(q', c') := applyTerminalStateLocked d ids message kind q in table_step q q' false c'.
Proof.
  unfold applyTerminalStateLocked. destruct (_ || _); [apply table_step_refl|].
  pose proof (table_step_fold (apply_terminal_one d message kind) ids
    (apply_terminal_one_step d message kind) q false) as Hf.
  destruct (foldl _ _ _) as [q' c']. destruct c'; [|done].
  eapply table_step_trans; [exact Hf|apply rebuild_step].
Qed.

Lemma prune_one_step q c id :
  let '(q', c') := prune_one (q, c) id in table_step q q' c c'.
Proof.
  unfold prune_one. destruct (q_records q !! id) as [r|] eqn:Hid; [|apply table_step_refl].
  repeat case_match; simplify_eq; try apply table_step_refl; try apply table_step_delete.
  by eapply table_step_put.
Qed.

Lemma pruneInputScopesLocked_step q :
  let '(q', c') := pruneInputScopesLocked q in table_step q q' false c'.
Proof. apply table_step_fold, prune_one_step. Qed.

Lemma set_checked_step c0 q c : table_step q (set_checked c0 q) c c.
Proof. by split_and!. Qed.

Lemma check_one_step p q c id :
  let '(q', c') := check_one p (q, c) id in table_step q q' c c'.
Proof.
  unfold check_one. set (q1 := set_checked _ q).
  pose proof (set_checked_step (<[id := p]> (q_checked q)) q c) as H1. fold q1 in H1.
  destruct (q_records q1 !! id) as [r|] eqn:Hid; [|done].
  repeat case_match; simplify_eq; try done;
    (eapply table_step_trans; [exact H1|]);
    first [apply table_step_delete | by eapply table_step_put].
Qed.

Lemma applyInputCheckLocked_step p q :
  let '(q', c') := applyInputCheckLocked p q in table_step q q' false c'.
Proof.
  unfold applyInputCheckLocked. destruct (_ || _); [apply table_step_refl|].
  apply table_step_fold, check_one_step.
Qed.

Lemma add_handled_step ids msgs q c : table_step q (add_handled ids msgs q) c c.
Proof. by split_and!. Qed.
Lemma add_completed_step ids q c : table_step q (add_completed ids q) c c.
Proof. by split_and!. Qed.

(** A step that starts with the flag [c] also runs with it already raised. *)
Lemma table_step_orb q q' c0 c : table_step q q' false c0 -> table_step q q' c (c || c0).
Proof.
  intros (A1 & A2 & A3). split_and!; try apply A3; [done|].
  intros [-> ->]%orb_false_iff. by destruct (A2 eq_refl).
Qed.

Lemma replay_event_step q c e :
  let '(q', c') := replay_event (q, c) e in table_step q q' c c'.
Proof.
  unfold replay_event.
  pose proof (applyInputCheckLocked_step (checked_fields (ev_Payload e)) q) as H1.
  destruct (if ev_Type e =?s InputCheckedType then _ else _) as [q1 c1] eqn:E1.
  assert (table_step q q1 c (c || c1)) as Hq1.
  { apply table_step_orb. case_bool_decide.
    - by rewrite E1 in H1.
    - simplify_eq. apply table_step_refl. }
  clear E1 H1. destruct (pendingDispositionFromEvent e) as [[[d ids] message] kind].
  set (q2 := if bool_decide (d = TerminalNone) then q1 else add_handled ids [] q1).
  set (q3 := if bool_decide (d = TerminalCompleted) then add_completed ids q2 else q2).
  assert (table_step q1 q3 (c || c1) (c || c1)) as Hq3.
  { apply (table_step_trans _ q2 _ _ (c || c1)); [unfold q2|unfold q3]; case_bool_decide;
      auto using table_step_refl, add_handled_step, add_completed_step. }
  pose proof (applyTerminalStateLocked_step d ids message kind q3) as H4.
  destruct (applyTerminalStateLocked d ids message kind q3) as [q4 c2].
  eapply table_step_trans; [exact Hq1|]. eapply table_step_trans; [exact Hq3|].
  by apply table_step_orb.
Qed.

(** ** A Hoare logic for the queue monad

    Assertions speak of the queue and the file, which the clock, the random
    source and the thread do not touch. An error must leave the invariant. *)

Definition assertion : Type := PendingInputQueue -> FileContent -> Prop.

Definition invQ : assertion := fun q f =>
  file_ok f /\
  (q_loaded q = true -> queue_ok q /\ (all_valid (q_records q) (q_order q) -> agrees q f)).

Definition invL : assertion := fun q f => invQ q f /\ q_loaded q = true.

(** The queue is [q0], loaded, and the invariant holds. *)
Definition ready (q0 : PendingInputQueue) : assertion := fun q f => invL q f /\ q = q0.

Definition hoare {A} (P : assertion) (m : M A) (Q : A -> assertion) : Prop :=
  forall w, P (w_queue w) (w_file w) ->
    match m w with
    | (Ok a, w') => Q a (w_queue w') (w_file w')
    | (Err _, w') => invQ (w_queue w') (w_file w')
    end.

Lemma hoare_ret {A} (P : assertion) (a : A) (Q : A -> assertion) :
  (forall q f, P q f -> Q a q f) -> hoare P (ret a) Q.
Proof. intros H w Hw. by apply H. Qed.

Lemma hoare_fail {A} (P : assertion) e (Q : A -> assertion) :
  (forall q f, P q f -> invQ q f) -> hoare P (fail e) Q.
Proof. intros H w Hw. by apply H. Qed.

Lemma hoare_bind {A B} (P : assertion) (m : M A) (k : A -> M B) (R : A -> assertion)
    (Q : B -> assertion) :
  hoare P m R -> (forall a, hoare (R a) (k a) Q) -> hoare P (bind m k) Q.
Proof.
  intros Hm Hk w Hw. unfold bind. specialize (Hm w Hw).
  destruct (m w) as [[a|e] w']; [by apply Hk|done].
Qed.

Lemma hoare_consequence {A} (P P' : assertion) (m : M A) (Q Q' : A -> assertion) :
  hoare P' m Q' -> (forall q f, P q f -> P' q f) -> (forall a q f, Q' a q f -> Q a q f) ->
  hoare P m Q.
Proof.
  intros Hm HP HQ w Hw. specialize (Hm w (HP _ _ Hw)).
  destruct (m w) as [[a|e] w']; auto.
Qed.

Lemma hoare_get_queue (P : assertion) :
  hoare P get_queue (fun q q' f => q' = q /\ P q' f).
Proof. intros w Hw. done. Qed.

Lemma hoare_get_thread (P : assertion) : hoare P get_thread (fun _ => P).
Proof. intros w Hw. done. Qed.

Lemma hoare_put_queue (P Q : assertion) q :
  (forall q0 f, P q0 f -> Q q f) -> hoare P (put_queue q) (fun _ => Q).
Proof. intros H w Hw. by eapply H. Qed.

Lemma hoare_modify_queue (P Q : assertion) g :
  (forall q f, P q f -> Q (g q) f) -> hoare P (modify_queue g) (fun _ => Q).
Proof. intros H w Hw. by apply H. Qed.

Lemma hoare_unless_nil {A} (P : assertion) r (m : M A) (Q : A -> assertion) :
  (forall q f, P q f -> invQ q f) -> (forall a q f, r = Ok a -> P q f -> Q a q f) ->
  hoare P m Q -> hoare P (unless_nil r m) Q.
Proof.
  intros HP Hr Hm w Hw. unfold unless_nil. destruct (w_nil w); [|by apply Hm].
  destruct r; auto.
Qed.

Lemma ready_invQ q0 q f : ready q0 q f -> invQ q f.
Proof. by intros [[? ?] ?]. Qed.
Lemma invL_invQ q f : invL q f -> invQ q f.
Proof. by intros [? ?]. Qed.
#[export] Hint Resolve ready_invQ invL_invQ : juex.

(** Reading a ready queue gives that queue. *)
Lemma hoare_bind_ready {B} q0 (k : PendingInputQueue -> M B) (Q : B -> assertion) :
  hoare (ready q0) (k q0) Q -> hoare (ready q0) (bind get_queue k) Q.
Proof.
  intros H w Hw. specialize (H w Hw). destruct Hw as [_ Hq]. unfold bind. simpl.
  by rewrite Hq.
Qed.

Section Hoare.
  Context (env : Environment).

Lemma hoare_nowMillis (P : assertion) : hoare P (nowMillis env) (fun _ => P).
Proof. intros w Hw. done. Qed.

Lemma hoare_newID (P : assertion) : hoare P (newID env) (fun _ => P).
Proof. intros w Hw. done. Qed.

Lemma hoare_nextUnique (P : assertion) records :
  (forall q f, P q f -> invQ q f) ->
  hoare P (nextUniquePendingInputID env records) (fun id q f => P q f /\ records !! id = None).
Proof.
  intros HP. unfold nextUniquePendingInputID. generalize (S (size records)) as n.
  induction n as [|n IH]; simpl; [by apply hoare_fail|].
  unfold newInputID. eapply hoare_bind.
  - eapply hoare_bind; [apply hoare_newID|]. intros a. by apply (hoare_ret _ _ (fun _ => P)).
  - intros id. simpl. case_bool_decide; [|done]. by apply hoare_ret.
Qed.

(** Storage calls that leave queue and file alone. *)
Lemma hoare_storage (P : assertion) e g :
  (forall q f, P q f -> invQ q f) ->
  (forall w, w_queue (g w) = w_queue w /\ w_file (g w) = w_file w) ->
  hoare P (storage env e g) (fun _ => P).
Proof.
  intros HP Hg w Hw. unfold storage. set (w' := mkWorld _ _ _ _ _ _ _).
  destruct (Hg w') as [E1 E2].
  destruct (env_io env (w_io w)); rewrite ?E1, ?E2; simpl; auto.
Qed.

Lemma set_pending_count_frame n w :
  w_queue (set_pending_count n w) = w_queue w /\ w_file (set_pending_count n w) = w_file w.
Proof. unfold set_pending_count. by destruct (w_thread w). Qed.

Lemma append_event_frame e w :
  w_queue (append_event e w) = w_queue w /\ w_file (append_event e w) = w_file w.
Proof. unfold append_event. by destruct (w_thread w). Qed.

Lemma hoare_synchronize (P : assertion) b :
  (forall q f, P q f -> invQ q f) ->
  hoare P (synchronizePendingCountLocked env b) (fun _ => P).
Proof.
  intros HP. unfold synchronizePendingCountLocked.
  eapply hoare_bind; [apply hoare_get_thread|]. intros [t|]; [|by apply hoare_ret].
  eapply hoare_bind; [apply hoare_get_queue|]. intros q. simpl.
  case_match; [apply hoare_ret; by intros ? ? [_ ?]|].
  eapply hoare_consequence; [apply (hoare_storage P)|by intros ? ? [_ ?]|done];
    auto using set_pending_count_frame.
Qed.

(** An unloaded queue only owes a good file. *)
Lemma invQ_unloaded q f : file_ok f -> invQ (set_loaded false q) f.
Proof. intros Hf. split; [done|]. done. Qed.

Lemma hoare_unload {A} (P : assertion) (m : M A) (Q : A -> assertion) :
  hoare P m Q -> hoare P (unload_on_error m) Q.
Proof.
  intros Hm w Hw. unfold unload_on_error. specialize (Hm w Hw).
  destruct (m w) as [[a|e] w']; [done|]. apply invQ_unloaded. apply Hm.
Qed.

Lemma persist_hoare (P : assertion) records order :
  (forall q f, P q f -> file_ok f /\ table_ok records order /\
                        (~ all_valid records order -> invQ q f)) ->
  hoare P (persistLocked env records order)
    (fun _ q f => invL q f /\ q_records q = records /\ q_order q = order /\
                  f = FileDocument (encode_document records order)).
Proof.
  intros HP w Hw. destruct (HP _ _ Hw) as (Hf & Ht & Hinv). unfold persistLocked. simpl.
  destruct (first_invalid (document_records records order)) as [[id why]|] eqn:Hfi.
  { apply Hinv. rewrite all_valid_first_invalid. congruence. }
  apply all_valid_first_invalid in Hfi.
  pose proof (document_ok_encode _ _ Ht Hfi) as Hdoc.
  set (d := encode_document records order) in *.
  unfold bind at 1. unfold unload_on_error at 1. unfold storage at 1.
  destruct (env_io env (w_io w)); try (apply invQ_unloaded; assumption).
  unfold bind at 1. simpl.
  assert (forall q : PendingInputQueue,
    invL (set_loaded true (rebuildIndexesLocked (set_records records order q))) (FileDocument d))
    as Hready.
  { intros q. split; [|done]. split; [done|]. intros _. split; [done|]. done. }
  set (A := fun q f =>
    invL q f /\ q_records q = records /\ q_order q = order /\ f = FileDocument d).
  assert (hoare A (unload_on_error (synchronizePendingCountLocked env false)) (fun _ => A)) as Hs.
  { apply hoare_unload, hoare_synchronize. intros q f [? _]. by apply invL_invQ. }
  eapply (Hs (set_queue _ _)). simpl. split; [apply Hready|done].
Qed.

Lemma persistCurrent_hoare (P : assertion) :
  (forall q f, P q f -> file_ok f /\ queue_ok q) ->
  hoare P (persistCurrentLocked env) (fun _ => invL).
Proof.
  intros HP. unfold persistCurrentLocked.
  eapply hoare_bind; [apply hoare_get_queue|]. intros q. simpl.
  eapply hoare_consequence; [apply (persist_hoare (fun q' f => q' = q /\ P q' f))|done|by intros ? ? ? [? _]].
  intros q' f [-> Hw]. destruct (HP _ _ Hw) as [Hf Hq]. split_and!; [done..|].
  intros Hnv. split; [done|]. intros _. split; [done|]. intros Hv. contradiction.
Qed.

(** Writing a new table from a ready queue. *)
Lemma persist_ready q0 records order :
  (queue_ok q0 -> table_ok records order) ->
  hoare (ready q0) (persistLocked env records order) (fun _ => invL).
Proof.
  intros Ht. eapply hoare_consequence; [apply (persist_hoare (ready q0))|done|by intros ? ? ? [? _]].
  intros q f [[Hinv Hl] ->]. pose proof Hinv as [Hf Hq]. destruct (Hq Hl) as [Hok _].
  split_and!; auto.
Qed.

Lemma upsert_hoare q0 r :
  record_ok r -> hoare (ready q0) (upsertLocked env r) (fun _ => invL).
Proof.
  intros Hr. unfold upsertLocked. apply hoare_bind_ready.
  destruct (q_records q0 !! r_ID r) as [x|] eqn:E.
  - apply persist_ready. intros Hok. by eapply table_ok_insert.
  - case_match; [apply hoare_fail; eauto with juex|].
    apply persist_ready. intros Hok. by apply table_ok_snoc.
Qed.

(** ** Loading *)

(** While a document is being loaded: the file and the tables are good; with no
    change so far, they agree. *)
Definition loading (l c : bool) : assertion := fun q f =>
  file_ok f /\ queue_ok q /\ (c = false -> agrees q f) /\ q_loaded q = l.

Lemma loading_step l c c' q q' f :
  loading l c q f -> table_step q q' c c' -> loading l c' q' f.
Proof.
  intros (Hf & Hq & Ha & Hl) (H1 & H2 & H3 & _). split_and!; [done|auto| |congruence].
  intros Hc. destruct (H2 Hc) as (Hc0 & E1 & E2 & E3 & E4). specialize (Ha Hc0).
  unfold agrees in *. by rewrite E1, E2, E3, E4.
Qed.

Lemma loading_invQ_false c q f : loading false c q f -> invQ q f.
Proof. intros (Hf & _ & _ & Hl). split; [done|]. congruence. Qed.

Lemma loading_fresh track scope f rs o : file_ok f -> load_document f = Some (rs, o) ->
  loading false false (fresh_queue track scope rs o) f.
Proof.
  intros Hf H. apply load_document_ok in H as [H1 H2]; [|done].
  split_and!; [done|done| |done]. intros _. by split_and!.
Qed.

Lemma loadDocument_hoare :
  hoare (fun q f => file_ok f /\ q_loaded q = false) (loadDocumentLocked env)
    (fun s q f => file_ok f /\ load_document f = Some s).
Proof.
  assert (forall q f, file_ok f /\ q_loaded q = false -> invQ q f) as HP.
  { intros q f [Hf Hl]. split; [done|]. congruence. }
  unfold loadDocumentLocked. eapply hoare_bind; [by apply hoare_storage|].
  intros []. intros w [Hf Hl]. destruct (load_document (w_file w)) as [s|] eqn:E; [done|].
  by apply HP.
Qed.

Lemma restore_messages_hoare history ids : forall c changed,
  hoare (loading true (c || changed)) (restore_messages env history ids changed)
    (fun c' => loading true (c || c')).
Proof.
  induction ids as [|id ids IH]; intros c changed; simpl; [by apply hoare_ret|].
  eapply hoare_bind; [apply hoare_get_queue|]. intros q. simpl.
  assert (hoare (fun q' f => q' = q /\ loading true (c || changed) q' f)
            (restore_messages env history ids changed) (fun c' => loading true (c || c'))) as Hskip
    by (eapply hoare_consequence; [apply IH|by intros ? ? [_ ?]|done]).
  destruct (q_records q !! id) as [r|] eqn:Hid; [|done].
  destruct (_ && _); [|done].
  destruct (processedMessageLocked history r) as [m|]; [|done].
  eapply (hoare_bind _ _ _ (fun r' q' f => q' = q /\ loading true (c || changed) q' f /\
             r_ID r' = r_ID r /\ (record_ok r -> record_ok r'))).
  - destruct (r_ProcessedAt r).
    + apply hoare_ret. by intros ? ? [-> ?].
    + eapply hoare_bind; [apply hoare_nowMillis|]. intros now. apply hoare_ret.
      by intros ? ? [-> ?].
  - intros r'. eapply (hoare_bind _ _ _ (fun _ => loading true (c || true)));
      [|intros []; apply IH].
    apply hoare_put_queue. intros q' f (-> & Hl & HID & Hok). rewrite orb_true_r.
    eapply loading_step; [exact Hl|]. by eapply table_step_put.
Qed.

Lemma replay_hoare t :
  hoare (loading false false)
    (do_ storage env ErrReadEvents (fun w => w);;
     do q <- get_queue;;
     let '(q', c) := foldl replay_event (q, false) (th_events t) in
     do_ put_queue q';; ret c)%juex
    (fun c => loading false c).
Proof.
  eapply hoare_bind; [apply hoare_storage; [apply loading_invQ_false|done]|]. intros [].
  eapply hoare_bind; [apply hoare_get_queue|]. intros q. simpl.
  pose proof (table_step_fold replay_event (th_events t) replay_event_step q false) as Hf.
  destruct (foldl replay_event (q, false) (th_events t)) as [q' c].
  eapply (hoare_bind _ _ _ (fun _ => loading false c)).
  - apply hoare_put_queue. intros q0 f [-> Hl]. by eapply loading_step.
  - intros []. by apply hoare_ret.
Qed.

Lemma loadLocked_hoare :
  hoare (fun q f => file_ok f /\ q_loaded q = false) (loadLocked env) (fun _ => invL).
Proof.
  unfold loadLocked. eapply hoare_bind; [apply loadDocument_hoare|]. intros [rs o].
  eapply hoare_bind; [apply hoare_get_queue|]. intros q. simpl.
  eapply hoare_bind; [apply hoare_get_thread|]. intros t. simpl.
  eapply (hoare_bind _ _ _ (fun _ => loading false false)).
  { apply hoare_put_queue. intros q' f (_ & Hf & Hd). by apply loading_fresh. }
  intros []. eapply (hoare_bind _ _ _ (fun c => loading false c)).
  { destruct t; [apply replay_hoare | by apply hoare_ret]. }
  intros c1. eapply (hoare_bind _ _ _ (fun _ => loading true (c1 || false))).
  { apply hoare_modify_queue. intros q' f (? & ? & ? & ?). rewrite orb_false_r. done. }
  intros []. eapply hoare_bind; [apply hoare_get_queue|]. intros q1. simpl.
  eapply hoare_bind.
  { eapply hoare_consequence; [apply restore_messages_hoare|by intros ? ? [_ ?]|done]. }
  intros c2. eapply hoare_bind; [apply hoare_get_queue|]. intros q2. simpl.
  pose proof (pruneInputScopesLocked_step q2) as Hp.
  destruct (pruneInputScopesLocked q2) as [q3 c3].
  eapply (hoare_bind _ _ _ (fun _ => loading true (c1 || c2 || c3))).
  { apply hoare_put_queue. intros q' f [-> Hl]. eapply loading_step; [exact Hl|].
    by apply table_step_orb. }
  intros []. destruct (c1 || c2 || c3).
  - eapply hoare_bind; [apply persistCurrent_hoare; by intros ? ? (? & ? & _)|].
    intros []. apply hoare_synchronize. auto with juex.
  - assert (forall q f, loading true false q f -> invL q f) as HL.
    { intros q' f (Hf & Hq & Ha & Hl). split; [|done]. split; [done|]. auto. }
    eapply hoare_consequence; [apply (hoare_unload (loading true false)); apply hoare_synchronize|done|].
    + intros q' f Hl. by apply invL_invQ, HL.
    + intros [] q0 f Hl. by apply HL.
Qed.

Lemma refreshInputScope_hoare :
  hoare invL (refreshInputScopeLocked env) (fun _ => invL).
Proof.
  unfold refreshInputScopeLocked. eapply hoare_bind; [apply hoare_get_queue|]. intros q. simpl.
  eapply hoare_bind; [apply hoare_get_thread|]. intros t. simpl.
  case_bool_decide; [apply hoare_ret; by intros ? ? [_ ?]|].
  pose proof (pruneInputScopesLocked_step (set_scope (scope_of t) q)) as Hp.
  destruct (pruneInputScopesLocked (set_scope (scope_of t) q)) as [q' c].
  destruct Hp as (H1 & H2 & H3 & _). simpl in *.
  eapply (hoare_bind _ _ _ (fun _ q1 f => file_ok f /\ queue_ok q1 /\ (c = false -> invL q1 f))).
  - apply hoare_put_queue. intros q0 f [-> [[Hf Hinv] Hl]]. destruct (Hinv Hl) as [Hok Hag].
    split_and!; [done|auto|]. intros Hc. destruct (H2 Hc) as (_ & E1 & E2 & E3 & E4).
    split; [|congruence]. split; [done|]. intros _.
    unfold queue_ok, agrees in *. rewrite E1, E2, E3, E4. done.
  - intros []. destruct c.
    + apply persistCurrent_hoare. by intros ? ? (? & ? & _).
    + apply hoare_ret. intros q0 f (_ & _ & Hkeep). auto.
Qed.

Lemma ensureLoaded_hoare : hoare invQ (ensureLoadedLocked env) (fun _ => invL).
Proof.
  unfold ensureLoadedLocked. intros w Hw. unfold bind. simpl.
  destruct (q_loaded (w_queue w)) eqn:E.
  - by apply refreshInputScope_hoare.
  - apply loadLocked_hoare. split; [apply Hw|done].
Qed.

(** Every method starts by loading and then reads the queue. *)
Lemma hoare_loaded {B} (k : PendingInputQueue -> M B) (Q : B -> assertion) :
  (forall q0, hoare (ready q0) (k q0) Q) ->
  hoare invQ (do_ ensureLoadedLocked env;; do q <- get_queue;; k q)%juex Q.
Proof.
  intros Hk. eapply hoare_bind; [apply ensureLoaded_hoare|]. intros [] w Hw.
  apply (Hk (w_queue w) w). by split.
Qed.

(** ** Methods *)

Lemma trackInput_ID q r : r_ID (trackInputLocked q r) = r_ID r.
Proof. unfold trackInputLocked. by destruct (_ && _). Qed.

Lemma trackInput_ok q r : record_ok r -> record_ok (trackInputLocked q r).
Proof.
  intros [H1 H2]. unfold trackInputLocked. destruct (_ && _); [|done].
  split; simpl; [by left|done].
Qed.

(** Storing one record and returning it. *)
Lemma upsert_ret_hoare q0 r : record_ok r ->
  hoare (ready q0) (do_ upsertLocked env r;; ret r)%juex (fun _ => invL).
Proof.
  intros Hr. eapply hoare_bind; [by apply upsert_hoare|]. intros []. by apply hoare_ret.
Qed.

Lemma ready_invL q0 q f : ready q0 q f -> invL q f.
Proof. by intros [? _]. Qed.
#[local] Hint Resolve ready_invL : juex.

Ltac qstep :=
  match goal with
  | |- hoare _ (unless_nil _ _) _ =>
      apply hoare_unless_nil; [done | intros; simplify_eq; done | ]
  | |- hoare _ (bind (ensureLoadedLocked _) (fun _ => bind get_queue _)) _ =>
      apply hoare_loaded; intros ?
  | |- hoare _ (bind (nowMillis _) _) _ => eapply hoare_bind; [apply hoare_nowMillis | intros ?; cbv beta]
  | |- hoare _ (bind get_thread _) _ => eapply hoare_bind; [apply hoare_get_thread | intros ?; cbv beta]
  | |- hoare _ (ret _) _ => apply hoare_ret; intros; cbv beta in *; eauto with juex
  | |- hoare _ (fail _) _ => apply hoare_fail; intros; cbv beta in *; eauto with juex
  | |- hoare _ (if ?b then _ else _) _ => destruct b eqn:?
  | |- hoare _ (match ?x with _ => _ end) _ => destruct x eqn:?
  end.

Lemma Enqueue_hoare msg id ttl turnID :
  hoare invQ (Enqueue env msg id ttl turnID) (fun _ => invQ).
Proof.
  unfold Enqueue. qstep. qstep. cbv zeta.
  assert (forall id, hoare (ready q0)
    (do now <- nowMillis env;;
     let ttl := if ttl <=? 0 then DefaultPendingInputTTL else ttl in
     let msg := with_blocks_nonnil (with_ID (pendingInputMessageID id now) msg) in
     let r := trackInputLocked q0
       (mkRecord "" None None id turnID (m_ID msg) msg
          (truncate (FirstText msg) pendingInputSummaryLength) OriginQueued StatePending
          now (now + ttl) 0 None "" "") in
     do_ upsertLocked env r;; ret r)%juex (fun _ => invQ)) as Hcreate.
  { intros k. qstep. cbv zeta.
    eapply hoare_consequence; [apply upsert_ret_hoare|done|by intros _ ? ? ?%invL_invQ].
    by apply trackInput_ok. }
  repeat first [apply Hcreate | qstep].
  eapply hoare_bind; [apply (hoare_nextUnique (ready q0)); eauto with juex|].
  intros k. eapply hoare_consequence; [apply Hcreate|by intros ? ? [? _]|done].
Qed.

Lemma promote_hoare q0 r turnID state :
  hoare (ready q0) (promoteTurnInputLocked env r turnID state) (fun _ => invL).
Proof.
  unfold promoteTurnInputLocked. repeat qstep. cbv zeta. apply upsert_ret_hoare.
  split; simpl; [by left|done].
Qed.

(** The queue is loaded behind a stored input. *)
Lemma storeTurnInput_loaded turnID msg reuse state :
  hoare invQ (storeTurnInput env turnID msg reuse state) (fun _ => invL).
Proof.
  unfold storeTurnInput. qstep. qstep. cbv zeta.
  repeat first [apply promote_hoare | eapply hoare_bind; [apply (hoare_nextUnique (ready q0)); eauto with juex|] | qstep].
  intros k. qstep. cbv zeta.
  eapply hoare_consequence; [apply (upsert_ret_hoare q0)|by intros ? ? [? _]|done].
  apply trackInput_ok. split; simpl; [by right|done].
Qed.

Lemma storeTurnInput_hoare turnID msg reuse state :
  hoare invQ (storeTurnInput env turnID msg reuse state) (fun _ => invQ).
Proof. eapply hoare_consequence; [apply storeTurnInput_loaded|done|by intros _ ? ? ?%invL_invQ]. Qed.

Lemma CommitTurnInput_hoare id turnID :
  hoare invQ (CommitTurnInput env id turnID) (fun _ => invQ).
Proof.
  unfold CommitTurnInput. repeat qstep. cbv zeta.
  eapply hoare_consequence; [apply upsert_hoare|done|by intros _ ? ? ?%invL_invQ].
  split; simpl; [by left|done].
Qed.

(** Update closures keep the id and [record_ok]. *)
Definition good_update (u : Update) : Prop := forall h r now,
  let '(r', _, _) := u h r now in r_ID r' = r_ID r /\ (record_ok r -> record_ok r').

Lemma update_one_ok u h now : good_update u -> forall ids records order c,
  table_ok records order ->
  let '(records', order', _) := foldl (update_one u h now) (records, order, c) ids in
  table_ok records' order'.
Proof.
  intros Hu. induction ids as [|id ids IH]; intros records order c Ht; simpl; [done|].
  destruct (records !! id) as [r|] eqn:E; [|by apply IH].
  specialize (Hu h r now). destruct (u h r now) as [[r' m] rm]. destruct Hu as [HID Hok].
  pose proof Ht as (_ & _ & Hrec). destruct (Hrec _ _ E) as [Hr Hrok].
  destruct rm; [apply IH; by apply table_ok_delete|].
  destruct m; [|by apply IH]. apply IH. eapply table_ok_insert; [done..|congruence|auto].
Qed.

Lemma updateStates_hoare ids u : good_update u ->
  hoare invQ (updateStates env ids u) (fun _ => invQ).
Proof.
  intros Hu. unfold updateStates. qstep. qstep; [qstep|]. qstep. do 2 qstep.
  pose proof (update_one_ok u (history_of a) a0 Hu (s :: l) (q_records q0) (q_order q0) false) as Ht.
  destruct (foldl _ _ _) as [[records order] c]. qstep; [|qstep].
  eapply hoare_consequence; [by apply persist_ready|done|by intros _ ? ? ?%invL_invQ].
Qed.

Lemma good_mark_admitted turnID : good_update (mark_admitted turnID).
Proof.
  intros h r now. unfold mark_admitted. repeat case_match; simplify_eq; try done.
  split; [done|]. intros _. split; simpl; [by left|done].
Qed.

Lemma good_promote_to_turn turnID : good_update (promote_to_turn turnID).
Proof.
  intros h r now. unfold promote_to_turn. repeat case_match; simplify_eq; try done.
  split; [done|]. intros _. split; simpl; [by left|done].
Qed.

Lemma good_mark_processed : good_update mark_processed.
Proof.
  intros h r now. unfold mark_processed. repeat case_match; simplify_eq; done.
Qed.

Lemma good_retry : good_update retry_update.
Proof. intros h r now. unfold retry_update. repeat case_match; simplify_eq; done. Qed.

Lemma MarkMessageProcessed_hoare m : hoare invQ (MarkMessageProcessed env m) (fun _ => invQ).
Proof.
  unfold MarkMessageProcessed. qstep. qstep; [qstep|]. qstep. cbv zeta. qstep; [qstep|].
  qstep; [qstep|]. qstep.
  eapply hoare_consequence; [apply upsert_hoare|done|by intros _ ? ? ?%invL_invQ].
  by case_match.
Qed.

Lemma retry_one_ok turnID : forall ids records order retried,
  table_ok records order ->
  let '(records', retried') := foldl (retry_one turnID) (records, retried) ids in
  table_ok records' order /\
  (Forall (fun r => r_State r = StateRetryable) retried ->
   Forall (fun r => r_State r = StateRetryable) retried').
Proof.
  induction ids as [|id ids IH]; intros records order retried Ht; simpl; [done|].
  destruct (negb _ || _) eqn:Hs; [by apply IH|]. to_prop.
  destruct (records !! id) as [r|] eqn:E; simpl in *; [|done].
  pose proof Ht as (_ & _ & Hrec). destruct (Hrec _ _ E) as [Hr _].
  specialize (IH (<[id := back_to_pending r]> records) order (retried ++ [r])).
  destruct (foldl _ _ _) as [records' retried']. destruct IH as [H1 H2].
  - by eapply table_ok_insert.
  - split; [done|]. intros HF. apply H2, Forall_app. split; [done|].
    constructor; [|constructor]. unfold state_eqb in *. by to_prop.
Qed.

Lemma retryTurnInputs_inv turnID w :
  inv w -> let '(retried, _, w') := retryTurnInputs env turnID w in
    inv w' /\ Forall (fun r => r_State r = StateRetryable) retried.
Proof.
  intros Hw. unfold retryTurnInputs. destruct (_ || _); [done|].
  pose proof (ensureLoaded_hoare w Hw) as Hl.
  destruct (ensureLoadedLocked env w) as [[[]|e] w1]; [|done].
  pose proof Hl as [[_ Hq] Hld]. destruct (Hq Hld) as [Ht _].
  pose proof (retry_one_ok turnID (q_order (w_queue w1)) _ _ [] Ht) as Hr.
  destruct (foldl _ _ _) as [records retried]. destruct Hr as [Ht' HF].
  destruct retried as [|r retried]; [split; [apply Hl|constructor]|].
  assert (ready (w_queue w1) (w_queue w1) (w_file w1)) as Hready by done.
  pose proof (persist_ready _ records _ (fun _ => Ht') w1 Hready) as Hp.
  destruct (persistLocked env records (q_order (w_queue w1)) w1) as [[[]|e] w2];
    (split; [|by apply HF]); [by apply invL_invQ|done].
Qed.

Lemma restore_loop_ok : forall retried records order records',
  Forall (fun r => r_State r = StateRetryable) retried ->
  table_ok records order -> restore_loop retried records = Ok records' ->
  table_ok records' order.
Proof.
  induction retried as [|r retried IH]; intros records order records' HF Ht H; simpl in H;
    [by simplify_eq|].
  inversion HF as [|? ? Hr HF']; subst.
  destruct (records !! r_ID r) as [c|] eqn:E; [|done]. case_match; [done|].
  eapply IH; [done| |done]. eapply table_ok_insert; [done..|].
  split; rewrite Hr; done.
Qed.

Lemma restoreRetriedInputs_hoare retried :
  Forall (fun r => r_State r = StateRetryable) retried ->
  hoare invQ (restoreRetriedInputs env retried) (fun _ => invQ).
Proof.
  intros HF. unfold restoreRetriedInputs. qstep. qstep; [qstep|]. qstep. qstep; [|qstep].
  eapply hoare_consequence; [apply persist_ready|done|by intros _ ? ? ?%invL_invQ].
  intros Ht. by eapply restore_loop_ok.
Qed.

Lemma remove_one_ok : forall ids records order removed,
  table_ok records order ->
  let '(records', order', _) := foldl remove_one (records, order, removed) ids in
  table_ok records' order'.
Proof.
  induction ids as [|id ids IH]; intros records order removed Ht; simpl; [done|].
  destruct (records !! id); apply IH; [by apply table_ok_delete|done].
Qed.

Lemma invL_add_handled ids msgs q f : invL q f -> invL (add_handled ids msgs q) f.
Proof. done. Qed.

Lemma remove_hoare ids : hoare invQ (remove env ids) (fun _ => invQ).
Proof.
  unfold remove. qstep. qstep; [qstep|]. qstep.
  pose proof (remove_one_ok (s :: l) (q_records q0) (q_order q0) []) as Ht.
  destruct (foldl _ _ _) as [[records order] removed]. qstep; [qstep|].
  eapply hoare_bind; [by apply persist_ready|]. intros [].
  apply hoare_modify_queue. intros q f Hq. apply invL_invQ. by apply invL_add_handled.
Qed.

(** No record in memory or on disk has the id. *)
Definition gone (id : string) : assertion := fun q f =>
  q_records q !! id = None /\ id ∉ map r_ID (file_records f).

(** Memory and disk agree. *)
Definition invV : assertion := fun q f => invL q f /\ all_valid (q_records q) (q_order q).

Lemma persist_valid q0 records order :
  (queue_ok q0 -> table_ok records order) ->
  hoare (ready q0) (persistLocked env records order) (fun _ q f => invV q f /\ q_records q = records).
Proof.
  intros Ht. eapply hoare_consequence; [apply (persist_hoare (ready q0))|done|].
  - intros q f [[Hinv Hl] ->]. pose proof Hinv as [Hf Hq]. destruct (Hq Hl) as [Hok _]. split_and!; auto.
  - intros _ q f (HL & Er & Eo & Ef). split; [|done]. split; [done|]. destruct HL as [[Hf _] _].
    rewrite Ef in Hf. destruct Hf as (_ & _ & Hv). rewrite Er, Eo. unfold all_valid.
    eapply Forall_impl; [exact Hv|]. by intros r [? _].
Qed.

Lemma persistCurrent_valid (P : assertion) :
  (forall q f, P q f -> file_ok f /\ queue_ok q) -> hoare P (persistCurrentLocked env) (fun _ => invV).
Proof.
  intros HP. unfold persistCurrentLocked. eapply hoare_bind; [apply hoare_get_queue|]. intros q. simpl.
  eapply hoare_consequence; [apply (persist_hoare (fun q' f => q' = q /\ P q' f))|done|].
  - intros q' f [-> Hw]. destruct (HP _ _ Hw) as [Hf Hq]. split_and!; [done..|].
    intros Hnv. split; [done|]. intros _. split; [done|]. intros Hv. contradiction.
  - intros _ q' f (HL & Er & Eo & Ef). split; [done|]. destruct HL as [[Hf _] _].
    rewrite Ef in Hf. destruct Hf as (_ & _ & Hv). rewrite Er, Eo. unfold all_valid.
    eapply Forall_impl; [exact Hv|]. by intros r [? _].
Qed.

Lemma refresh_valid : hoare invV (refreshInputScopeLocked env) (fun _ => invV).
Proof.
  unfold refreshInputScopeLocked. eapply hoare_bind; [apply hoare_get_queue|]. intros q. simpl.
  eapply hoare_bind; [apply hoare_get_thread|]. intros t. simpl.
  case_bool_decide; [apply hoare_ret; by intros ? ? [_ ?]|].
  pose proof (pruneInputScopesLocked_step (set_scope (scope_of t) q)) as Hp.
  destruct (pruneInputScopesLocked (set_scope (scope_of t) q)) as [q' c].
  destruct Hp as (H1 & H2 & H3 & _). simpl in *.
  eapply (hoare_bind _ _ _ (fun _ q1 f => file_ok f /\ queue_ok q1 /\ (c = false -> invV q1 f))).
  - apply hoare_put_queue. intros q0 f [-> [[[Hf Hinv] Hl] Hv]]. destruct (Hinv Hl) as [Hok Hag].
    split_and!; [done|auto|]. intros Hc. destruct (H2 Hc) as (_ & E1 & E2 & E3 & E4).
    split; [|by rewrite E1, E2]. split; [|congruence]. split; [done|]. intros _.
    unfold queue_ok, agrees in *. rewrite E1, E2, E3, E4. done.
  - intros []. destruct c.
    + apply persistCurrent_valid. by intros ? ? (? & ? & _).
    + apply hoare_ret. intros q0 f (_ & _ & Hkeep). auto.
Qed.

Lemma valid_gone q f id : invV q f -> q_records q !! id = None -> gone id q f.
Proof.
  intros [[[Hf Hinv] Hl] Hv] Hid. split; [done|]. destruct (Hinv Hl) as [Hok Hag]. destruct (Hag Hv) as [-> _].
  intros (r & -> & Hr)%list_elem_of_fmap. apply (document_records_iff _ _ _ Hok) in Hr. congruence.
Qed.

(** A removal without an error: the input is gone, in memory and on disk. *)
Lemma remove_gone id w w' : w_nil w = false -> invV (w_queue w) (w_file w) ->
  remove env [id] w = (Ok tt, w') -> gone id (w_queue w') (w_file w').
Proof.
  intros Hnil Hw E. pose proof Hw as [[_ Hl] _]. unfold remove, unless_nil in E. rewrite Hnil in E. unfold bind at 1 in E.
  unfold ensureLoadedLocked, bind at 1, get_queue at 1 in E. rewrite Hl in E.
  pose proof (refresh_valid w Hw) as Hr. destruct (refreshInputScopeLocked env w) as [[u|e] w1]; [|done].
  unfold bind at 1, get_queue in E. cbn [foldl remove_one] in E.
  destruct (q_records (w_queue w1) !! id) as [r|] eqn:Er; cbn [app] in E.
  - pose proof (persist_valid (w_queue w1) (delete id (q_records (w_queue w1))) (removePendingInputID (q_order (w_queue w1)) id)
      (table_ok_delete _ _ _) w1) as Hp.
    unfold bind in E. destruct (persistLocked _ _ _ w1) as [[u2|e] w2]; [|done].
    destruct Hp as [Hv Hrec]; [split; [apply Hr|done]|]. injection E as <-. cbn [w_queue w_file set_queue].
    assert (gone id (w_queue w2) (w_file w2)) as Hg by (apply valid_gone; [done|]; by rewrite Hrec, lookup_delete_eq).
    exact Hg.
  - injection E as <-. by apply valid_gone.
Qed.

Lemma expire_one_ok now : forall ids records order c,
  table_ok records order ->
  let '(records', order', _) := foldl (expire_one now) (records, order, c) ids in
  table_ok records' order'.
Proof.
  induction ids as [|id ids IH]; intros records order c Ht; simpl; [done|].
  destruct (Expired _ _); apply IH; [by apply table_ok_delete|done].
Qed.

Lemma Replayable_hoare turnID limit : hoare invQ (Replayable env turnID limit) (fun _ => invQ).
Proof.
  unfold Replayable. qstep.
  eapply hoare_bind; [apply ensureLoaded_hoare|]. intros [].
  eapply hoare_bind; [apply hoare_nowMillis|]. intros now w Hw.
  revert w Hw. change (hoare invL (do q <- get_queue;;
    let '(records, order, changed) :=
      foldl (expire_one now) (q_records q, q_order q, false) (q_order q) in
    do_ (if changed then persistLocked env records order else ret tt);;
    do q <- get_queue;; ret (replayable_loop (q_records q) limit (q_order q) []))%juex
    (fun _ => invQ)).
  intros w Hw. unfold bind at 1. simpl.
  pose proof (expire_one_ok now (q_order (w_queue w)) (q_records (w_queue w))
    (q_order (w_queue w)) false) as Ht.
  destruct (foldl _ _ _) as [[records order] c].
  assert (ready (w_queue w) (w_queue w) (w_file w)) as Hready by done.
  eapply (hoare_bind (ready (w_queue w)) _ _ (fun _ => invL)); [| |exact Hready].
  - qstep; [by apply persist_ready|qstep].
  - intros []. eapply hoare_bind; [apply hoare_get_queue|]. intros q. qstep.
    destruct H. by apply invL_invQ.
Qed.

Lemma applyTerminalLocked_hoare d ids message kind :
  hoare invL (applyTerminalLocked env d ids message kind) (fun _ => invQ).
Proof.
  unfold applyTerminalLocked.
  eapply (hoare_bind _ _ _ (fun _ => invL)).
  { apply hoare_modify_queue. intros q f Hq. by case_match. }
  intros []. eapply hoare_bind; [apply hoare_get_queue|]. intros q. simpl.
  pose proof (applyTerminalStateLocked_step d ids message kind q) as Hs.
  destruct (applyTerminalStateLocked d ids message kind q) as [q' c].
  destruct Hs as (H1 & H2 & H3 & _).
  eapply (hoare_bind _ _ _ (fun _ q1 f => file_ok f /\ queue_ok q1 /\ (c = false -> invL q1 f))).
  - apply hoare_put_queue. intros q0 f [-> [[Hf Hinv] Hl]]. destruct (Hinv Hl) as [Hok Hag].
    split_and!; [done|auto|]. intros Hc. destruct (H2 Hc) as (_ & E1 & E2 & E3 & E4).
    split; [|congruence]. split; [done|]. intros _.
    unfold queue_ok, agrees in *. rewrite E1, E2, E3, E4. done.
  - intros []. destruct c.
    + eapply (hoare_consequence _ (fun q1 f => file_ok f /\ queue_ok q1));
        [by apply persistCurrent_hoare|by intros ? ? (? & ? & _)|by intros _ ? ? ?%invL_invQ].
    + apply hoare_ret. intros q0 f (_ & _ & Hkeep). apply invL_invQ. auto.
Qed.

Lemma ApplyTerminalEvent_hoare e : hoare invQ (ApplyTerminalEvent env e) (fun _ => invQ).
Proof.
  unfold ApplyTerminalEvent. qstep.
  destruct (pendingDispositionFromEvent e) as [[[d ids] message] kind]. qstep; [qstep|].
  eapply hoare_bind; [apply ensureLoaded_hoare|]. intros []. apply applyTerminalLocked_hoare.
Qed.

Lemma reconcile_state_ok facts r :
  let '(r', _) := reconcile_state facts r in
  r_ID r' = r_ID r /\ (record_ok r -> record_ok r').
Proof.
  unfold reconcile_state. destruct (r_State r) eqn:Hs; try done.
  - case_bool_decide; (split; [done|]); intros [H1 H2]; split; simpl; try done.
    intros _. right. auto.
  - by destruct (_ <>?s _).
  - by destruct (_ <>?s _).
Qed.

Lemma reconcile_loop_hoare q0 facts history order : forall ids records c,
  table_ok records order -> (forall id, id ∈ ids -> id ∈ order) ->
  hoare (ready q0) (reconcile_loop env facts history ids records c)
    (fun s q f => ready q0 q f /\ table_ok s.1 order).
Proof.
  induction ids as [|id ids IH]; intros records c Ht Hin; simpl; [by qstep|].
  assert (forall k, k ∈ ids -> k ∈ order) as Hin' by set_solver.
  qstep; [by apply IH|].
  pose proof Ht as (_ & Hdom & Hrec).
  destruct (proj1 (Hdom id) ltac:(set_solver)) as [r Hid]. rewrite Hid. simpl.
  destruct (Hrec _ _ Hid) as [Hr Hok].
  pose proof (reconcile_state_ok facts r) as Hs.
  destruct (reconcile_state facts r) as [r1 c1]. destruct Hs as [HID Hrok].
  qstep.
  - qstep. apply IH; [|done]. eapply table_ok_insert; [done..|simpl; congruence|].
    simpl. by apply Hrok.
  - apply IH; [|done]. eapply table_ok_insert; [done..|congruence|auto].
Qed.

Lemma ReconcileRecoveryFacts_hoare facts :
  hoare invQ (ReconcileRecoveryFacts env facts) (fun _ => invQ).
Proof.
  unfold ReconcileRecoveryFacts. qstep. qstep. qstep. intros w Hw.
  pose proof Hw as [[[_ Hq] Hl] Heq]. rewrite Heq in Hq, Hl. destruct (Hq Hl) as [Ht _].
  eapply (hoare_bind (ready q0) _ _ (fun s q f => ready q0 q f /\ table_ok s.1 (q_order q0)));
    [by apply reconcile_loop_hoare| |exact Hw].
  intros s. destruct s.2; [|apply hoare_ret; by intros ? ? [?%ready_invQ _]].
  intros w' [Hw' Ht']. 
  eapply (hoare_consequence (ready q0)); [by apply persist_ready|done| |exact Hw'].
  by intros _ ? ? ?%invL_invQ.
Qed.

Lemma Records_hoare : hoare invQ (Records env) (fun _ => invQ).
Proof. unfold Records. repeat qstep. Qed.

Lemma Completed_hoare id : hoare invQ (Completed env id) (fun _ => invQ).
Proof. unfold Completed. repeat qstep. Qed.

Lemma InputIDsForTurn_hoare turnID : hoare invQ (InputIDsForTurn env turnID) (fun _ => invQ).
Proof. unfold InputIDsForTurn. repeat qstep. Qed.

Lemma uncheckedRecords_hoare : hoare invQ (uncheckedRecords env) (fun _ => invQ).
Proof. unfold uncheckedRecords. repeat qstep. Qed.

Lemma checkInputScopeRenewal_hoare : hoare invQ (checkInputScopeRenewal env) (fun _ => invQ).
Proof. unfold checkInputScopeRenewal. repeat qstep. Qed.

Lemma inputAssociation_hoare m : hoare invQ (inputAssociation env m) (fun _ => invQ).
Proof.
  unfold inputAssociation. repeat qstep.
  eapply hoare_bind; [apply hoare_newID|]. intros id. qstep.
Qed.

Lemma AppendEvent_hoare (P : assertion) e : (forall q f, P q f -> invQ q f) ->
  hoare P (AppendEvent env e) (fun _ => P).
Proof.
  intros HP w Hw. unfold AppendEvent. destruct (w_thread w); [|by apply HP].
  destruct (bool_decide _); [done|].
  refine (hoare_storage P ErrAppendEvent (append_event e) HP _ w Hw).
  intros. apply append_event_frame.
Qed.

Lemma checkInputs_hoare done_ tool mid ids turnID :
  hoare invQ (checkInputs env done_ tool mid ids turnID) (fun _ => invQ).
Proof.
  unfold checkInputs. repeat qstep.
  eapply hoare_bind; [apply hoare_newID|]. intros id. cbv zeta beta.
  eapply hoare_bind; [apply hoare_unload, AppendEvent_hoare, ready_invQ|]. intros [].
  match goal with |- context [applyInputCheckLocked ?p] => set (payload := p) end.
  eapply (hoare_bind _ _ _ (fun _ q f => file_ok f /\ queue_ok q)).
  - apply hoare_modify_queue. intros q f [[[Hf Hq] Hl] ->]. destruct (Hq Hl) as [Hok _].
    pose proof (applyInputCheckLocked_step payload q0) as Hs.
    destruct (applyInputCheckLocked payload q0) as [q' c]. destruct Hs as [Hs _].
    split; [done|]. by apply Hs.
  - intros []. eapply hoare_bind; [by apply persistCurrent_hoare|]. intros []. qstep.
Qed.
End Hoare.
