(* ===== verification/PendingQueueProps.v ===== *)
(** * The pending input queue: properties

    The lifetime of a queue as a step relation (any method, any change of the
    thread, a restart of the process) with its invariant, and what the methods
    promise: durable acceptance, at-most-once execution after a committed
    terminal event, exact replay, recovery, and a total id draw. *)

From S2P Require Import Prelude GoStd Llm Events PendingInputs PendingQueue PendingQueueInv.

Local Open Scope Z_scope.
Local Open Scope juex_scope.

(** ** Lifetime *)

Inductive Call :=
| CallEnqueue (msg : Message) (id : string) (ttl : Duration) (turnID : string)
| CallStoreTurnInput (turnID : string) (msg : Message) (reuse : bool) (state : PendingInputState)
| CallCommitTurnInput (id turnID : string)
| CallReplayable (turnID : string) (limit : Z)
| CallMarkAdmitted (ids : list string) (turnID : string)
| CallPromoteToTurnInput (ids : list string) (turnID : string)
| CallMarkProcessed (ids : list string)
| CallMarkMessageProcessed (message : Message)
| CallRemove (ids : list string)
| CallRetry (id : string)
| CallRetryTurnInputs (turnID : string)
| CallRestoreRetriedInputs (retried : list PendingInputRecord)
| CallRecords
| CallCompleted (id : string)
| CallInputIDsForTurn (turnID : string)
| CallApplyTerminalEvent (e : Event)
| CallReconcileRecoveryFacts (facts : PendingInputRecoveryFacts)
| CallUncheckedRecords
| CallCheckInputs (ctx_done : bool) (tool message : string) (ids : list string) (turnID : string)
| CallInputAssociation (message : Message)
| CallCheckInputScopeRenewal.

(** The world a call leaves, whether it succeeds or fails. *)
Definition run_call (env : Environment) (c : Call) (w : World) : World :=
  match c with
  | CallEnqueue msg id ttl turnID => (Enqueue env msg id ttl turnID w).2
  | CallStoreTurnInput turnID msg reuse state => (storeTurnInput env turnID msg reuse state w).2
  | CallCommitTurnInput id turnID => (CommitTurnInput env id turnID w).2
  | CallReplayable turnID limit => (Replayable env turnID limit w).2
  | CallMarkAdmitted ids turnID => (MarkAdmitted env ids turnID w).2
  | CallPromoteToTurnInput ids turnID => (PromoteToTurnInput env ids turnID w).2
  | CallMarkProcessed ids => (MarkProcessed env ids w).2
  | CallMarkMessageProcessed m => (MarkMessageProcessed env m w).2
  | CallRemove ids => (remove env ids w).2
  | CallRetry id => (Retry env id w).2
  | CallRetryTurnInputs turnID => (retryTurnInputs env turnID w).2
  | CallRestoreRetriedInputs retried => (restoreRetriedInputs env retried w).2
  | CallRecords => (Records env w).2
  | CallCompleted id => (Completed env id w).2
  | CallInputIDsForTurn turnID => (InputIDsForTurn env turnID w).2
  | CallApplyTerminalEvent e => (ApplyTerminalEvent env e w).2
  | CallReconcileRecoveryFacts facts => (ReconcileRecoveryFacts env facts w).2
  | CallUncheckedRecords => (uncheckedRecords env w).2
  | CallCheckInputs d tool mid ids turnID => (checkInputs env d tool mid ids turnID w).2
  | CallInputAssociation m => (inputAssociation env m w).2
  | CallCheckInputScopeRenewal => (checkInputScopeRenewal env w).2
  end.

(** A rollback restores what a retry returned: records it found retryable. *)
Definition call_ok (c : Call) : Prop :=
  match c with
  | CallRestoreRetriedInputs retried => Forall (fun r => r_State r = StateRetryable) retried
  | _ => True
  end.

(** Calls, anything the rest of the program does to the thread, and restarts. *)
Inductive step (env : Environment) : World -> World -> Prop :=
| step_call c w : call_ok c -> step env w (run_call env c w)
| step_thread t w : step env w (set_thread t w)
| step_restart track w : step env w (set_queue (NewPendingInputQueue track) w).

Definition init_world (track : bool) (t : option Thread) : World :=
  mkWorld false (NewPendingInputQueue track) FileAbsent t 0 0 0.

Lemma hoare_run {A} (m : M A) w : hoare invQ m (fun _ => invQ) -> inv w -> inv (m w).2.
Proof. intros Hm Hw. specialize (Hm w Hw). by destruct (m w) as [[a|e] w']. Qed.

Lemma run_call_inv env c w : call_ok c -> inv w -> inv (run_call env c w).
Proof.
  intros Hc Hw.
  destruct c; simpl; try (apply hoare_run; [|exact Hw]).
  - apply Enqueue_hoare.
  - apply storeTurnInput_hoare.
  - apply CommitTurnInput_hoare.
  - apply Replayable_hoare.
  - apply updateStates_hoare, good_mark_admitted.
  - apply updateStates_hoare, good_promote_to_turn.
  - apply updateStates_hoare, good_mark_processed.
  - apply MarkMessageProcessed_hoare.
  - apply remove_hoare.
  - apply updateStates_hoare, good_retry.
  - pose proof (retryTurnInputs_inv env turnID w Hw) as H.
    destruct (retryTurnInputs env turnID w) as [[retried err] w']. apply H.
  - by apply restoreRetriedInputs_hoare.
  - apply Records_hoare.
  - apply Completed_hoare.
  - apply InputIDsForTurn_hoare.
  - apply ApplyTerminalEvent_hoare.
  - apply ReconcileRecoveryFacts_hoare.
  - apply uncheckedRecords_hoare.
  - apply checkInputs_hoare.
  - apply inputAssociation_hoare.
  - apply checkInputScopeRenewal_hoare.
Qed.

Lemma step_inv env w w' : inv w -> step env w w' -> inv w'.
Proof.
  intros Hw Hs. destruct Hs; [by apply run_call_inv|done|]. split; [apply Hw|done].
Qed.

Lemma init_inv track t : inv (init_world track t).
Proof. by split. Qed.

Lemma reachable_inv env track t w : runs (step env) (init_world track t) w -> inv w.
Proof.
  intros Hr. eapply (runs_invariant (step env) inv); [|exact Hr|apply init_inv].
  intros w1 w2. apply step_inv.
Qed.

(** ** Reloading the document *)

Lemma load_records_total l : forall records order messages,
  Forall (fun r => valid_record r = true) l ->
  NoDup (map r_ID l) -> NoDup (map r_MessageID l) ->
  (forall r, r ∈ l -> records !! r_ID r = None /\ messages !! r_MessageID r = None) ->
  exists s, load_records l records order messages = Some s.
Proof.
  induction l as [|r l IH]; intros records order messages HF Hid Hmsg Hfresh; simpl; [by eexists|].
  inversion HF as [|? ? Hr HF']; subst. inversion Hid as [|? ? Hni Hid']; subst.
  inversion Hmsg as [|? ? Hnm Hmsg']; subst.
  destruct (Hfresh r ltac:(constructor)) as [H1 H2].
  rewrite Hr. simpl. rewrite bool_decide_eq_true_2 by done. simpl.
  unfold index_get. rewrite H2. simpl.
  apply IH; try done. intros x Hx. destruct (Hfresh x ltac:(by constructor)) as [Hx1 Hx2].
  split; rewrite lookup_insert_ne; try done; intros Heq.
  - apply Hni. rewrite Heq. by apply list_elem_of_fmap_2.
  - apply Hnm. rewrite Heq. by apply list_elem_of_fmap_2.
Qed.

(** Two tables with the same document are the same. *)
Lemma table_ok_unique rs1 o1 rs2 o2 :
  table_ok rs1 o1 -> table_ok rs2 o2 ->
  document_records rs1 o1 = document_records rs2 o2 -> rs1 = rs2 /\ o1 = o2.
Proof.
  intros H1 H2 Heq. split.
  - apply map_eq. intros k. apply option_eq. intros r. split; intros Hr.
    + pose proof H1 as (_ & _ & Hrec). destruct (Hrec _ _ Hr) as [<- _].
      apply (document_records_iff rs2 o2); [done|]. rewrite <- Heq.
      by apply document_records_iff.
    + pose proof H2 as (_ & _ & Hrec). destruct (Hrec _ _ Hr) as [<- _].
      apply (document_records_iff rs1 o1); [done|]. rewrite Heq.
      by apply document_records_iff.
  - rewrite <- (document_records_ids rs1 o1), <- (document_records_ids rs2 o2) by done.
    by rewrite Heq.
Qed.

(** The table a good file describes comes back from the loader. *)
Lemma load_document_roundtrip f records order :
  file_ok f -> table_ok records order ->
  file_records f = document_records records order ->
  NoDup (map r_MessageID (file_records f)) ->
  load_document f = Some (records, order).
Proof.
  intros Hf Ht Heq Hmsg.
  assert (exists s, load_document f = Some s) as [[rs o] Hl].
  { destruct f as [| |d]; simpl in *; [by eexists|done|].
    destruct Hf as (Hv & Hid & HF). rewrite Hv. simpl.
    apply load_records_total; try done.
    eapply Forall_impl; [exact HF|]. by intros r [? _]. }
  rewrite Hl. apply load_document_ok in Hl as [Ht' Hd]; [|done].
  destruct (table_ok_unique _ _ _ _ Ht' Ht) as [-> ->]; [congruence|done].
Qed.

(** ** What a successful store leaves *)

Section Stored.
  Context (env : Environment).

Definition stored (r : PendingInputRecord) : assertion := fun q f =>
  invL q f /\ q_records q !! r_ID r = Some r.

Lemma persist_stored q0 records order r :
  (queue_ok q0 -> table_ok records order) -> records !! r_ID r = Some r ->
  hoare (ready q0) (persistLocked env records order) (fun _ => stored r).
Proof.
  intros Ht Hr. eapply hoare_consequence; [apply (persist_hoare env (ready q0))|done|].
  - intros q f [[Hinv Hl] ->]. pose proof Hinv as [Hf Hq]. destruct (Hq Hl) as [Hok _].
    split_and!; auto.
  - intros [] q f (Hq & Heq & _). split; [done|]. by rewrite Heq.
Qed.

Lemma upsert_stored q0 r :
  record_ok r -> hoare (ready q0) (upsertLocked env r) (fun _ => stored r).
Proof.
  intros Hr. unfold upsertLocked. apply hoare_bind_ready.
  destruct (q_records q0 !! r_ID r) as [x|] eqn:E.
  - apply persist_stored; [|apply lookup_insert_eq]. intros Hok. by eapply table_ok_insert.
  - case_match; [apply hoare_fail; eauto with juex|].
    apply persist_stored; [|apply lookup_insert_eq]. intros Hok. by apply table_ok_snoc.
Qed.

Lemma upsert_ret_stored q0 r : record_ok r ->
  hoare (ready q0) (do_ upsertLocked env r;; ret r)%juex stored.
Proof.
  intros Hr. eapply hoare_bind; [by apply upsert_stored|]. intros []. by apply hoare_ret.
Qed.

Lemma Enqueue_stored msg id ttl turnID :
  hoare invQ (Enqueue env msg id ttl turnID) stored.
Proof.
  unfold Enqueue. apply hoare_unless_nil; [done|done|]. apply hoare_loaded. intros q0. cbv zeta.
  assert (forall id, hoare (ready q0)
    (do now <- nowMillis env;;
     let ttl := if ttl <=? 0 then DefaultPendingInputTTL else ttl in
     let msg := with_blocks_nonnil (with_ID (pendingInputMessageID id now) msg) in
     let r := trackInputLocked q0
       (mkRecord "" None None id turnID (m_ID msg) msg
          (truncate (FirstText msg) pendingInputSummaryLength) OriginQueued StatePending
          now (now + ttl) 0 None "" "") in
     do_ upsertLocked env r;; ret r)%juex stored) as Hcreate.
  { intros k. eapply hoare_bind; [apply hoare_nowMillis|]. intros now. cbv beta zeta.
    apply upsert_ret_stored. by apply trackInput_ok. }
  destruct (_ <>?s _).
  - destruct (q_records q0 !! TrimSpace id) as [x|] eqn:E.
    + apply hoare_ret. intros q f [Hq ->]. split; [done|].
      destruct Hq as [[_ Hq] Hl]. destruct (Hq Hl) as [(_ & _ & Hrec) _].
      destruct (Hrec _ _ E) as [-> _]. done.
    + case_bool_decide; [apply hoare_fail; eauto with juex|].
      case_bool_decide; [apply hoare_fail; eauto with juex|]. apply Hcreate.
  - eapply hoare_bind; [apply (hoare_nextUnique env (ready q0)); eauto with juex|].
    intros k. eapply hoare_consequence; [apply Hcreate|by intros ? ? [? _]|done].
Qed.
End Stored.

(** ** Properties *)

(** C21: whatever calls, storage failures, thread changes and restarts happened,
    the document on disk is one whose records all pass validation, and a loaded
    queue has consistent tables that agree, with its indexes, with the disk as
    long as every record in memory can be encoded. *)
Theorem queue_state_consistent env track t w :
  runs (step env) (init_world track t) w ->
  file_ok (w_file w) /\
  (q_loaded (w_queue w) = true ->
   queue_ok (w_queue w) /\
   (all_valid (q_records (w_queue w)) (q_order (w_queue w)) -> agrees (w_queue w) (w_file w))).
Proof. apply reachable_inv. Qed.

(** C39: an accepted input survives a crash. When [Enqueue] returns a record,
    reading the document back yields the queue's whole table, with that record
    under its id (message ids being distinct, and no record unencodable). *)
Theorem accepted_input_is_durable env track t w msg id ttl turnID r w' :
  runs (step env) (init_world track t) w ->
  Enqueue env msg id ttl turnID w = (Ok r, w') ->
  all_valid (q_records (w_queue w')) (q_order (w_queue w')) ->
  NoDup (map r_MessageID (file_records (w_file w'))) ->
  exists records order,
    load_document (w_file w') = Some (records, order) /\
    records !! r_ID r = Some r /\ r_ID r ∈ order /\
    records = q_records (w_queue w') /\ order = q_order (w_queue w').
Proof.
  intros Hr Henq Hv Hmsg. apply reachable_inv in Hr.
  pose proof (Enqueue_stored env msg id ttl turnID w Hr) as H. rewrite Henq in H.
  destruct H as [[[Hf Hq] Hl] Hlook]. destruct (Hq Hl) as [Ht Hag]. destruct (Hag Hv) as (Hd & _).
  eexists _, _. split_and!; [by apply load_document_roundtrip|done| |done..].
  apply Ht. eauto.
Qed.

(** An input handed to a turn never expires: in every reachable state no
    admitted record is subject to the time-to-live, at any time. *)
Theorem admitted_input_never_expires env track t w id r now :
  runs (step env) (init_world track t) w ->
  q_loaded (w_queue w) = true ->
  q_records (w_queue w) !! id = Some r -> r_State r = StateAdmitted ->
  Expired r now = false.
Proof.
  intros Hr Hl Hid Hs. apply reachable_inv in Hr as [_ Hq].
  destruct (Hq Hl) as [(_ & _ & Hrec) _]. destruct (Hrec _ _ Hid) as [_ [Hok _]].
  unfold Expired. destruct (Hok Hs) as [-> | ->].
  - by destruct (_ =?s _), (bool_decide _), (isReplayablePendingState _).
  - by destruct (_ =?s _).
Qed.
