(* ===== verification/PendingQueueRecovery.v ===== *)
(** * The pending input queue: recovery

    What the queue makes of the committed events of its thread after a restart:
    the first call of the restarted queue does not hand a completed input out
    again, the replayable inputs are exactly the
    live ones in acceptance order, interrupted admissions are resolved from the
    recovery facts; and one flaw, an explicit retry that a restart turns into an
    unloadable queue. *)

From S2P Require Import Prelude GoStd Llm Events PendingInputs PendingQueue PendingQueueInv PendingQueueProps.

Local Open Scope Z_scope.
Local Open Scope juex_scope.

(** ** Successful runs and the queue they leave *)

Definition yields {A} (P : PendingInputQueue -> Prop) (m : M A)
    (Q : A -> PendingInputQueue -> Prop) : Prop :=
  forall w a w', P (w_queue w) -> m w = (Ok a, w') -> Q a (w_queue w').

Lemma yields_bind {A B} P (m : M A) (k : A -> M B) R Q :
  yields P m R -> (forall a, yields (R a) (k a) Q) -> yields P (bind m k) Q.
Proof.
  intros Hm Hk w b w' Hw H. unfold bind in H.
  destruct (m w) as [[a|e] w1] eqn:E; [|done]. eapply Hk; [|exact H]. by eapply Hm.
Qed.

Lemma yields_ret {A} (P : PendingInputQueue -> Prop) (a : A) Q :
  (forall q, P q -> Q a q) -> yields P (ret a) Q.
Proof. intros H w b w' Hw [= -> ->]. by apply H. Qed.

Lemma yields_get_queue P : yields P get_queue (fun q q' => q' = q /\ P q').
Proof. by intros w a w' Hw [= <- <-]. Qed.

Lemma yields_get_thread P : yields P get_thread (fun _ => P).
Proof. by intros w a w' Hw [= <- <-]. Qed.

Lemma yields_put (P Q : PendingInputQueue -> Prop) q :
  (forall q0, P q0 -> Q q) -> yields P (put_queue q) (fun _ => Q).
Proof. intros H w a w' Hw [= <- <-]. by eapply H. Qed.

Lemma yields_modify (P Q : PendingInputQueue -> Prop) g :
  (forall q, P q -> Q (g q)) -> yields P (modify_queue g) (fun _ => Q).
Proof. intros H w a w' Hw [= <- <-]. by apply H. Qed.

Lemma yields_frame {A} P (m : M A) :
  (forall w, w_queue (m w).2 = w_queue w) -> yields P m (fun _ => P).
Proof. intros H w a w' Hw E. specialize (H w). rewrite E in H. simpl in H. by rewrite H. Qed.

Lemma yields_unload {A} P (m : M A) Q : yields P m Q -> yields P (unload_on_error m) Q.
Proof.
  intros Hm w a w' Hw H. unfold unload_on_error in H.
  destruct (m w) as [[b|e] w1] eqn:E; [|done]. simplify_eq. by eapply Hm.
Qed.

Section Recovery.
  Context (env : Environment).

Lemma storage_frame e g w : (forall w, w_queue (g w) = w_queue w) ->
  w_queue (storage env e g w).2 = w_queue w.
Proof. intros Hg. unfold storage. destruct (env_io _ _); simpl; rewrite ?Hg; done. Qed.

Lemma synchronize_frame b w : w_queue (synchronizePendingCountLocked env b w).2 = w_queue w.
Proof.
  unfold synchronizePendingCountLocked, bind. simpl. destruct (w_thread w) as [t|]; [|done].
  simpl. destruct (_ && _); [done|]. apply storage_frame.
  intros w'. apply (proj1 (set_pending_count_frame _ w')).
Qed.

Lemma yields_synchronize P b : yields P (synchronizePendingCountLocked env b) (fun _ => P).
Proof. apply yields_frame, synchronize_frame. Qed.

(** A successful write installs the table and changes nothing else of the queue
    but the indexes. *)
Lemma yields_persist P records order (Q : PendingInputQueue -> Prop) :
  (forall q, P q -> Q (set_loaded true (rebuildIndexesLocked (set_records records order q)))) ->
  yields P (persistLocked env records order) (fun _ => Q).
Proof.
  intros H. unfold persistLocked. destruct (first_invalid _) as [[id why]|];
    [by intros w a w' _ ?|].
  eapply (yields_bind _ _ _ (fun _ => P)).
  { apply yields_unload, yields_frame. intros w. by apply storage_frame. }
  intros []. eapply yields_bind; [by apply yields_modify|].
  intros []. apply yields_unload, yields_synchronize.
Qed.

(** ** Completed inputs *)

(** [id] is remembered as completed; what is left of it, if tracking still
    retains it, is settled. *)
Definition gone_or_settled (id : string) (q : PendingInputQueue) : Prop :=
  forall r, q_records q !! id = Some r -> r_State r = StateSettled.

Definition completed_once (id : string) (q : PendingInputQueue) : Prop :=
  id ∈ q_completed q /\ gone_or_settled id q.

(** A transition that keeps or removes the record of [id], never changing its
    state, and forgets no completed id. *)
Definition state_kept (id : string) (q q' : PendingInputQueue) : Prop :=
  q_completed q ⊆ q_completed q' /\
  forall r', q_records q' !! id = Some r' ->
    exists r, q_records q !! id = Some r /\ r_State r' = r_State r.

Lemma state_kept_refl id q : state_kept id q q.
Proof. split; [done|]. eauto. Qed.

Lemma state_kept_trans id q1 q2 q3 :
  state_kept id q1 q2 -> state_kept id q2 q3 -> state_kept id q1 q3.
Proof.
  intros [A1 A2] [B1 B2]. split; [set_solver|]. intros r3 H3.
  destruct (B2 _ H3) as (r2 & H2 & E2). destruct (A2 _ H2) as (r1 & H1 & E1).
  exists r1. split; congruence.
Qed.

Lemma state_kept_once id q q' : state_kept id q q' -> completed_once id q -> completed_once id q'.
Proof.
  intros [H1 H2] [Hc Hg]. split; [set_solver|]. intros r Hr.
  destruct (H2 _ Hr) as (r0 & Hr0 & ->). by apply Hg.
Qed.

Lemma state_kept_put id k r r' q : q_records q !! k = Some r -> r_State r' = r_State r ->
  state_kept id q (set_records (<[k := r']> (q_records q)) (q_order q) q).
Proof.
  intros Hk Hs. split; [done|]. simpl. intros x. destruct (decide (k = id)) as [<-|].
  - rewrite lookup_insert_eq. intros [= <-]. eauto.
  - rewrite lookup_insert_ne by done. eauto.
Qed.

Lemma state_kept_put_ne id k r' q : k <> id ->
  state_kept id q (set_records (<[k := r']> (q_records q)) (q_order q) q).
Proof. intros Hk. split; [done|]. simpl. intros x. rewrite lookup_insert_ne by done. eauto. Qed.

Lemma state_kept_delete id k o q :
  state_kept id q (set_records (delete k (q_records q)) o q).
Proof.
  split; [done|]. simpl. intros x. rewrite lookup_delete_Some. intros [_ ?]. eauto.
Qed.

Lemma state_kept_fold {A} id (f : PendingInputQueue * bool -> A -> PendingInputQueue * bool) l :
  (forall q c a, state_kept id q (f (q, c) a).1) ->
  forall q c, state_kept id q (foldl f (q, c) l).1.
Proof.
  intros Hf. induction l as [|a l IH]; intros q c; simpl; [apply state_kept_refl|].
  pose proof (Hf q c a) as Ha. destruct (f (q, c) a) as [q1 c1].
  eapply state_kept_trans; [exact Ha|apply IH].
Qed.

Lemma check_one_kept id p q c k : state_kept id q (check_one p (q, c) k).1.
Proof.
  unfold check_one. simpl. destruct (q_records q !! k) as [r|] eqn:E;
    [|by split; [done|eauto]].
  repeat case_match; simpl.
  - split; [done|eauto].
  - split; [done|]. simpl. intros x. rewrite lookup_delete_Some. intros [_ ?]. eauto.
  - split; [done|]. simpl. intros x. destruct (decide (k = id)) as [<-|].
    + rewrite lookup_insert_eq. intros [= <-]. eauto.
    + rewrite lookup_insert_ne by done. eauto.
Qed.

Lemma applyInputCheck_kept id p q : state_kept id q (applyInputCheckLocked p q).1.
Proof.
  unfold applyInputCheckLocked. destruct (_ || _); [apply state_kept_refl|].
  apply state_kept_fold. intros. apply check_one_kept.
Qed.

Lemma prune_kept id q : state_kept id q (pruneInputScopesLocked q).1.
Proof.
  apply state_kept_fold. intros q' c k. unfold prune_one.
  destruct (q_records q' !! k) as [r|] eqn:E; [|apply state_kept_refl].
  repeat case_match; simpl; try apply state_kept_refl; try apply state_kept_delete.
  by eapply state_kept_put.
Qed.

(** One id of a terminal event. *)
Lemma apply_terminal_one_ne d m k q c i id : i <> id ->
  state_kept id q (apply_terminal_one d m k (q, c) i).1.
Proof.
  intros Hne. unfold apply_terminal_one.
  destruct (q_records q !! i) as [r|]; [|apply state_kept_refl].
  destruct d; repeat case_match; simpl;
    auto using state_kept_refl, state_kept_delete, state_kept_put_ne.
Qed.

Lemma apply_terminal_one_settles d m k q c id :
  d = TerminalCompleted \/ d = TerminalCancelled ->
  gone_or_settled id (apply_terminal_one d m k (q, c) id).1.
Proof.
  intros Hd r. unfold apply_terminal_one.
  destruct (q_records q !! id) as [x|] eqn:E; simpl; [|congruence].
  destruct Hd as [-> | ->]; repeat case_match; simpl; unfold state_eqb in *; to_prop;
    rewrite ?lookup_insert_eq, ?lookup_delete_eq; intros; simplify_eq; done.
Qed.

Lemma gone_or_settled_kept id q q' : state_kept id q q' ->
  gone_or_settled id q -> gone_or_settled id q'.
Proof. intros [_ H] Hg r Hr. destruct (H _ Hr) as (x & Hx & ->). by apply Hg. Qed.

(** Later ids of a settling event keep what it settled. *)
Lemma apply_terminal_one_keeps d m k q c i id :
  (d = TerminalCompleted \/ d = TerminalCancelled) \/ i <> id ->
  gone_or_settled id q -> gone_or_settled id (apply_terminal_one d m k (q, c) i).1.
Proof.
  intros Hd Hg. destruct (decide (i = id)) as [->|Hne].
  - destruct Hd as [Hd|]; [|done]. by apply apply_terminal_one_settles.
  - eapply gone_or_settled_kept; [|exact Hg]. by apply apply_terminal_one_ne.
Qed.

Lemma apply_terminal_fold d m k id ids : forall q c,
  (d = TerminalCompleted \/ d = TerminalCancelled) \/ id ∉ ids ->
  gone_or_settled id q \/ ((d = TerminalCompleted \/ d = TerminalCancelled) /\ id ∈ ids) ->
  gone_or_settled id (foldl (apply_terminal_one d m k) (q, c) ids).1.
Proof.
  induction ids as [|i ids IH]; intros q c Hd Hg; cbn [foldl].
  - destruct Hg as [|[_ Hin]]; [done|by apply not_elem_of_nil in Hin].
  - destruct (apply_terminal_one d m k (q, c) i) as [q1 c1] eqn:E.
    assert (Hd' : (d = TerminalCompleted \/ d = TerminalCancelled) \/ id ∉ ids) by set_solver.
    apply IH; [done|]. destruct Hg as [Hg|[Hs Hin]].
    + left. replace q1 with (apply_terminal_one d m k (q, c) i).1 by (by rewrite E).
      apply apply_terminal_one_keeps; [|done]. destruct Hd; [by left|]. right. set_solver.
    + apply elem_of_cons in Hin as [->|Hin]; [|by right]. left.
      replace q1 with (apply_terminal_one d m k (q, c) i).1 by (by rewrite E).
      by apply apply_terminal_one_settles.
Qed.

(** The completed set only grows. *)
Lemma apply_terminal_one_completed d m k q c i :
  q_completed (apply_terminal_one d m k (q, c) i).1 = q_completed q.
Proof.
  unfold apply_terminal_one. destruct (q_records q !! i); [|done].
  by destruct d; repeat case_match.
Qed.

Lemma apply_terminal_fold_completed d m k ids : forall q c,
  q_completed (foldl (apply_terminal_one d m k) (q, c) ids).1 = q_completed q.
Proof.
  induction ids as [|i ids IH]; intros q c; cbn [foldl]; [done|].
  pose proof (apply_terminal_one_completed d m k q c i) as H.
  destruct (apply_terminal_one d m k (q, c) i) as [q1 c1]. by rewrite IH.
Qed.

Lemma applyTerminalState_fields d ids m k q :
  let q' := (applyTerminalStateLocked d ids m k q).1 in
  q_completed q' = q_completed q /\
  (forall id, (d = TerminalCompleted \/ d = TerminalCancelled) \/ id ∉ ids ->
     gone_or_settled id q \/ ((d = TerminalCompleted \/ d = TerminalCancelled) /\ id ∈ ids) ->
     gone_or_settled id q').
Proof.
  unfold applyTerminalStateLocked. destruct (_ || _) eqn:Hg.
  - split; [done|]. intros id Hd [|[Hs Hin]]; [done|]. exfalso. to_prop.
    destruct Hg as [Hg|Hg]; to_prop; subst; [by destruct Hs|by apply not_elem_of_nil in Hin].
  - pose proof (apply_terminal_fold_completed d m k ids q false) as Hc.
    assert (forall id, (d = TerminalCompleted \/ d = TerminalCancelled) \/ id ∉ ids ->
      gone_or_settled id q \/ ((d = TerminalCompleted \/ d = TerminalCancelled) /\ id ∈ ids) ->
      gone_or_settled id (foldl (apply_terminal_one d m k) (q, false) ids).1) as Hs
      by (intros; by apply apply_terminal_fold).
    destruct (foldl _ _ _) as [q' c]. by destruct c.
Qed.

(** A committed event that does not put [id] back to failed. *)
Definition not_failed_again (id : string) (e : Event) : Prop :=
  let '(d, ids, _, _) := pendingDispositionFromEvent e in
  d = TerminalCompleted \/ d = TerminalCancelled \/ id ∉ ids.

Definition completes (id : string) (e : Event) : Prop :=
  let '(d, ids, _, _) := pendingDispositionFromEvent e in d = TerminalCompleted /\ id ∈ ids.

(** The last word of the events on [id] is its completion. *)
Definition finished (id : string) (l : list Event) : Prop :=
  exists pre e post, l = pre ++ e :: post /\ completes id e /\ Forall (not_failed_again id) post.

(** The queue a terminal disposition is applied to while replaying. *)
Definition before_terminal (q : PendingInputQueue) (e : Event) : PendingInputQueue :=
  let q1 := if ev_Type e =?s InputCheckedType
            then (applyInputCheckLocked (checked_fields (ev_Payload e)) q).1 else q in
  let '(d, ids, _, _) := pendingDispositionFromEvent e in
  let q2 := if bool_decide (d = TerminalNone) then q1 else add_handled ids [] q1 in
  if bool_decide (d = TerminalCompleted) then add_completed ids q2 else q2.

Lemma replay_event_eq q c e :
  let '(d, ids, m, k) := pendingDispositionFromEvent e in
  (replay_event (q, c) e).1 = (applyTerminalStateLocked d ids m k (before_terminal q e)).1.
Proof.
  unfold replay_event, before_terminal.
  destruct (pendingDispositionFromEvent e) as [[[d ids] m] k].
  destruct (ev_Type e =?s InputCheckedType).
  - destruct (applyInputCheckLocked _ _) as [q1 c1]. simpl.
    by destruct (applyTerminalStateLocked _ _ _ _ _).
  - by destruct (applyTerminalStateLocked _ _ _ _ _).
Qed.

Lemma before_terminal_kept id q e : state_kept id q (before_terminal q e).
Proof.
  unfold before_terminal. destruct (pendingDispositionFromEvent e) as [[[d ids] m] k].
  assert (state_kept id q (if ev_Type e =?s InputCheckedType
    then (applyInputCheckLocked (checked_fields (ev_Payload e)) q).1 else q)) as H
    by (case_bool_decide; [apply applyInputCheck_kept|apply state_kept_refl]).
  eapply state_kept_trans; [exact H|].
  split; [|intros r; repeat case_bool_decide; simpl; eauto].
  repeat case_bool_decide; simpl; set_solver.
Qed.

Lemma replay_keeps_completed id q c e :
  completed_once id q -> not_failed_again id e -> completed_once id (replay_event (q, c) e).1.
Proof.
  intros Hq Hn. pose proof (replay_event_eq q c e) as Heq.
  pose proof (before_terminal_kept id q e) as Hk.
  apply (state_kept_once _ _ _ Hk) in Hq as [Hc Hg]. unfold not_failed_again in Hn.
  destruct (pendingDispositionFromEvent e) as [[[d ids] m] k]. rewrite Heq.
  destruct (applyTerminalState_fields d ids m k (before_terminal q e)) as [H1 H2].
  split; [by rewrite H1|]. apply H2; [tauto|by left].
Qed.

Lemma replay_completes id q c e :
  completes id e -> completed_once id (replay_event (q, c) e).1.
Proof.
  intros Hn. pose proof (replay_event_eq q c e) as Heq. unfold completes in Hn.
  assert (id ∈ q_completed (before_terminal q e)) as Hc.
  { unfold before_terminal. destruct (pendingDispositionFromEvent e) as [[[d ids] m] k].
    destruct Hn as [-> Hin]. rewrite bool_decide_eq_true_2 by done. simpl.
    apply elem_of_union_r. by apply elem_of_list_to_set. }
  destruct (pendingDispositionFromEvent e) as [[[d ids] m] k]. rewrite Heq.
  destruct Hn as [-> Hin].
  destruct (applyTerminalState_fields TerminalCompleted ids m k (before_terminal q e)) as [H1 H2].
  split; [by rewrite H1|]. apply H2; [by left; left|by right; auto].
Qed.

Lemma replay_fold_keeps id post : forall q c,
  completed_once id q -> Forall (not_failed_again id) post ->
  completed_once id (foldl replay_event (q, c) post).1.
Proof.
  induction post as [|e post IH]; intros q c Hq HF; cbn [foldl]; [done|].
  inversion HF as [|? ? He HF']; subst.
  pose proof (replay_keeps_completed id q c e Hq He) as H1.
  destruct (replay_event (q, c) e) as [q1 c1]. by apply IH.
Qed.

Lemma replay_finished id l q c :
  finished id l -> completed_once id (foldl replay_event (q, c) l).1.
Proof.
  intros (pre & e & post & -> & He & HF). rewrite foldl_app. cbn [foldl].
  destruct (foldl replay_event (q, c) pre) as [q1 c1].
  pose proof (replay_completes id q1 c1 e He) as H1.
  destruct (replay_event (q1, c1) e) as [q2 c2]. by apply replay_fold_keeps.
Qed.

Lemma restore_messages_keeps id history ids : forall c,
  yields (completed_once id) (restore_messages env history ids c) (fun _ => completed_once id).
Proof.
  induction ids as [|k ids IH]; intros c; simpl; [by apply yields_ret|].
  eapply yields_bind; [apply yields_get_queue|]. intros q. simpl.
  assert (forall c, yields (fun q' => q' = q /\ completed_once id q')
     (restore_messages env history ids c) (fun _ => completed_once id)) as Hskip.
  { intros c' w a w' [_ Hw] H. by eapply IH. }
  destruct (q_records q !! k) as [r|] eqn:E; [|done]. destruct (_ && _); [|done].
  destruct (processedMessageLocked history r) as [m|]; [|done].
  eapply (yields_bind _ _ _ (fun r' q' => (q' = q /\ completed_once id q') /\
            r_State r' = r_State r)).
  - destruct (r_ProcessedAt r); [by apply yields_ret|].
    eapply yields_bind; [by apply yields_frame|]. intros now. by apply yields_ret.
  - intros r'. eapply (yields_bind _ _ _ (fun _ => completed_once id)); [|intros []; apply IH].
    apply yields_put. intros q0 [[-> Hq] Hs]. eapply state_kept_once; [|exact Hq].
    by eapply state_kept_put.
Qed.

(** A restart that loads the document over a finished id. *)
Lemma load_finished id w t w' :
  w_thread w = Some t -> q_loaded (w_queue w) = false -> finished id (th_events t) ->
  ensureLoadedLocked env w = (Ok tt, w') -> completed_once id (w_queue w').
Proof.
  intros Ht Hl Hf H. unfold ensureLoadedLocked, bind in H. simpl in H. rewrite Hl in H.
  unfold loadLocked in H. unfold bind at 1 in H.
  destruct (loadDocumentLocked env w) as [[s|e] w1] eqn:E1; [|done].
  assert (w_thread w1 = Some t) as Ht1.
  { unfold loadDocumentLocked, bind, storage in E1.
    destruct (env_io _ _); simplify_eq/=; case_match; by simplify_eq. }
  unfold bind at 1 2 in H. simpl in H. rewrite Ht1 in H. unfold bind at 1 in H. simpl in H.
  eapply (yields_bind (fun _ => True) _ _ (fun _ => completed_once id)
    (fun _ => completed_once id)); [| |done|exact H].
  - eapply (yields_bind _ _ _ (fun _ _ => True)); [done|]. intros [].
    eapply yields_bind; [apply yields_get_queue|]. intros q. simpl.
    pose proof (replay_finished id (th_events t) q false Hf) as Hr.
    destruct (foldl replay_event (q, false) (th_events t)) as [q' c].
    eapply (yields_bind _ _ _ (fun _ => completed_once id)); [by apply yields_put|].
    intros []. by apply yields_ret.
  - intros c1. eapply (yields_bind _ _ _ (fun _ => completed_once id)); [by apply yields_modify|].
    intros []. eapply yields_bind; [apply yields_get_queue|]. intros q1. simpl.
    eapply (yields_bind _ _ _ (fun _ => completed_once id)).
    { intros w3 a w4 [_ Hw]. by apply (restore_messages_keeps id _ _ _ w3). }
    intros c2. eapply yields_bind; [apply yields_get_queue|]. intros q2. simpl.
    pose proof (prune_kept id q2) as Hp. destruct (pruneInputScopesLocked q2) as [q3 c3].
    eapply (yields_bind _ _ _ (fun _ => completed_once id)).
    { apply yields_put. intros q0 [-> Hq]. by eapply state_kept_once. }
    intros []. destruct (c1 || c2 || c3).
    + eapply (yields_bind _ _ _ (fun _ => completed_once id)); [|intros []; apply yields_synchronize].
      unfold persistCurrentLocked. eapply yields_bind; [apply yields_get_queue|].
      intros q. apply yields_persist. by intros q' [-> Hq].
    + apply yields_unload, yields_synchronize.
Qed.
End Recovery.

(** ** Replaying *)

Lemma replayable_loop_records records limit l : forall out r,
  r ∈ replayable_loop records limit l out ->
  r ∈ out \/ (exists id, id ∈ l /\ r = default zeroRecord (records !! id) /\ replayable_record r = true).
Proof.
  induction l as [|id l IH]; intros out r; simpl; [by left|].
  destruct (replayable_record (default zeroRecord (records !! id))) eqn:Hr; simpl.
  - destruct (_ && _); [by left|]. intros H. apply IH in H as [H|(k & Hk & ? & ?)].
    + apply elem_of_app in H as [H| ->%list_elem_of_singleton]; [by left|].
      right. exists id. split; [by constructor|done].
    + right. exists k. split; [by constructor|done].
  - intros H. apply IH in H as [H|(k & Hk & ? & ?)]; [by left|].
    right. exists k. split; [by constructor|done].
Qed.

(** With no limit reached the loop filters the document. *)
Lemma replayable_loop_filter records limit l : forall out,
  (limit <= 0 \/ Z.of_nat (length out) <= limit) ->
  (forall id, id ∈ l -> is_Some (records !! id)) ->
  replayable_loop records limit l out =
    (if 0 <? limit then take (Z.to_nat limit) else id)
      (out ++ filter (fun r => replayable_record r = true) (document_records records l)).
Proof.
  induction l as [|id l IH]; intros out Hlen Hdom; simpl.
  - rewrite filter_nil, app_nil_r. destruct (Z.ltb_spec 0 limit); [|done].
    rewrite take_ge; [done|lia].
  - destruct (Hdom id ltac:(constructor)) as [r Hr]. rewrite Hr. simpl. rewrite filter_cons.
    assert (forall k, k ∈ l -> is_Some (records !! k)) as Hdom' by (intros; apply Hdom; by constructor).
    destruct (replayable_record r) eqn:E; simpl.
    + destruct (Z.ltb_spec 0 limit); simpl.
      * destruct (Z.leb_spec limit (Z.of_nat (length out))).
        -- rewrite take_app_le by lia. rewrite take_ge by lia. done.
        -- rewrite IH; [|rewrite length_app; simpl; lia|done].
           by rewrite <- app_assoc.
      * rewrite IH; [|lia|done]. by rewrite <- app_assoc.
    + by apply IH.
Qed.

Definition live (now : Time) (r : PendingInputRecord) : bool := negb (Expired r now).

(** The expiry loop: the ids of [l] whose records are expired go, the rest of
    the document stays as it is. *)
Lemma removePending_filter order id : NoDup order ->
  removePendingInputID order id = filter (fun x => x <> id) order.
Proof.
  induction order as [|x order IH]; intros Hnd; simpl; [done|].
  inversion Hnd as [|? ? Hx Hnd']; subst. rewrite filter_cons. case_bool_decide as Hxid.
  - subst. rewrite decide_False by tauto. symmetry.
    clear -Hx. induction order as [|y order IH]; [done|]. rewrite filter_cons.
    rewrite decide_True by set_solver. f_equal. apply IH. set_solver.
  - rewrite decide_True by done. f_equal. by apply IH.
Qed.

Lemma document_records_delete records order id : NoDup order ->
  document_records (delete id records) (removePendingInputID order id) =
  document_records records (removePendingInputID order id).
Proof.
  intros Hnd. rewrite removePending_filter by done.
  induction order as [|x order IH]; [done|]. inversion Hnd; subst. rewrite filter_cons.
  case_decide as Hx; [|by apply IH]. simpl. rewrite lookup_delete_ne by done.
  destruct (records !! x); [f_equal|]; by apply IH.
Qed.

Lemma document_records_remove records order id r now :
  table_ok records order -> records !! id = Some r -> Expired r now = true ->
  filter (fun r => live now r = true) (document_records records (removePendingInputID order id)) =
  filter (fun r => live now r = true) (document_records records order).
Proof.
  intros (Hnd & _ & _) Hid He. induction order as [|x order IH]; [done|].
  inversion Hnd as [|? ? Hx Hnd']; subst. simpl. case_bool_decide as Hxid.
  - subst. rewrite Hid, filter_cons. unfold live. by rewrite He.
  - simpl. destruct (records !! x) as [y|]; [|by apply IH].
    rewrite !filter_cons. case_decide; [f_equal|]; by apply IH.
Qed.

Lemma expire_fold now : forall ids records order c,
  table_ok records order ->
  let '(records', order', c') := foldl (expire_one now) (records, order, c) ids in
  table_ok records' order' /\
  filter (fun r => live now r = true) (document_records records' order') =
    filter (fun r => live now r = true) (document_records records order) /\
  (c' = false -> c = false /\ records' = records /\ order' = order) /\
  (forall id r, records' !! id = Some r -> records !! id = Some r /\ (id ∈ ids -> live now r = true)).
Proof.
  induction ids as [|id ids IH]; intros records order c Ht; cbn [foldl].
  { split_and!; try done. intros id r Hr. split; [done|]. by intros ?%not_elem_of_nil. }
  unfold expire_one at 2. destruct (Expired (default zeroRecord (records !! id)) now) eqn:He.
  - destruct (records !! id) as [x|] eqn:Hid; [|done]. simpl in He.
    specialize (IH (delete id records) (removePendingInputID order id) true
      (table_ok_delete _ _ _ Ht)).
    destruct (foldl _ _ _) as [[records' order'] c']. destruct IH as (H1 & H2 & H3 & H4).
    split_and!; [done| | |].
    + rewrite H2. rewrite document_records_delete by apply Ht.
      by eapply document_records_remove.
    + intros Hc. by destruct (H3 Hc).
    + intros k r Hr. destruct (H4 _ _ Hr) as [Hk Hlive].
      apply lookup_delete_Some in Hk as [Hne Hk]. split; [done|].
      intros Hin. apply Hlive. set_solver.
  - specialize (IH records order c Ht).
    destruct (foldl _ _ _) as [[records' order'] c']. destruct IH as (H1 & H2 & H3 & H4).
    split_and!; [done..|]. intros k r Hr. destruct (H4 _ _ Hr) as [Hk Hlive]. split; [done|].
    intros [->|Hin]%elem_of_cons; [|by apply Hlive]. rewrite Hk in He. simpl in He.
    unfold live. by rewrite He.
Qed.

Lemma filter_live_all now (l : list PendingInputRecord) : (forall r, r ∈ l -> live now r = true) ->
  filter (fun r => live now r = true) l = l.
Proof.
  induction l as [|r l IH]; intros H; [done|]. rewrite filter_cons, decide_True
    by (apply H; constructor). f_equal. apply IH. intros x Hx. apply H. by constructor.
Qed.

Lemma persist_ok_queue env records order w u w' :
  persistLocked env records order w = (Ok u, w') ->
  q_records (w_queue w') = records /\ q_order (w_queue w') = order.
Proof.
  intros H. eapply (yields_persist env (fun _ => True) records order
    (fun q => q_records q = records /\ q_order q = order)); [done|done|exact H].
Qed.

Lemma ensureLoaded_ready env w w' : inv w -> ensureLoadedLocked env w = (Ok tt, w') ->
  invL (w_queue w') (w_file w').
Proof. intros Hw H. pose proof (ensureLoaded_hoare env w Hw) as Hl. by rewrite H in Hl. Qed.

Lemma ok_not_nil {A} r (m : M A) w a w' :
  unless_nil r m w = (Ok a, w') -> w_nil w = false \/ r = Ok a.
Proof. unfold unless_nil. destruct (w_nil w); [|by left]. intros [= -> _]. by right. Qed.

(** C6: after a restart a completed input is not handed out again. Let the
    committed events of the thread end, for an input id, in its completion, and
    the queue be one not loaded yet (with a receiver that is not nil). Then the
    first call on it treats the input as done, whichever of these it is:
    [Replayable] does not return it; [Enqueue] under its id creates nothing, it
    fails or returns the settled record that tracking still shows; [Completed]
    answers true; and [InputIDsForTurn] lists it for no turn. Later calls are not
    covered: [MarkMessageProcessed] turns a settled record back into a processed
    one. *)
Theorem restart_keeps_completed_input_done env track t0 w t id :
  runs (step env) (init_world track t0) w -> w_nil w = false ->
  w_thread w = Some t -> q_loaded (w_queue w) = false -> finished id (th_events t) ->
  (forall turnID limit out w',
     Replayable env turnID limit w = (Ok out, w') -> Forall (fun r => r_ID r <> id) out) /\
  (forall msg optID ttl turnID r w', TrimSpace optID = id -> id <> "" ->
     Enqueue env msg optID ttl turnID w = (Ok r, w') -> r_State r = StateSettled) /\
  (forall b w', id <> "" -> Completed env id w = (Ok b, w') -> b = true) /\
  (forall turnID out w', InputIDsForTurn env turnID w = (Ok out, w') -> id ∉ out).
Proof.
  intros Hr Hnil Ht Hl Hf. apply reachable_inv in Hr. split_and!.
  - intros turnID limit out w' H. unfold Replayable, unless_nil in H. rewrite Hnil in H.
    unfold bind at 1 in H. destruct (ensureLoadedLocked env w) as [[[]|e] w1] eqn:E; [|done].
    pose proof (load_finished env id w t w1 Ht Hl Hf E) as [_ Hg].
    apply ensureLoaded_ready in E as [[_ Hq] Hl1]; [|done]. destruct (Hq Hl1) as [Htab _].
    unfold bind in H. simpl in H.
    pose proof (expire_fold (truncate_ms (env_clock env (w_clock w1))) (q_order (w_queue w1)) _ _ false Htab)
      as Hexp.
    destruct (foldl _ _ _) as [[records order] c]. destruct Hexp as (Ht' & _ & Hc & Hsub).
    assert (q_records (w_queue w') = records /\ q_order (w_queue w') = order /\
      out = replayable_loop records limit order []) as (E1 & E2 & ->).
    { destruct c.
      - destruct (persistLocked _ _ _ _) as [[u|e] w2] eqn:Ep; [|done].
        apply persist_ok_queue in Ep as [E1 E2]. simpl in H.
        injection H as <- <-. by rewrite E1, E2.
      - destruct (Hc eq_refl) as (_ & -> & ->). simpl in H. by injection H as <- <-. }
    rewrite Forall_forall. intros r Hr' Hid.
    apply replayable_loop_records in Hr' as [?%not_elem_of_nil|(k & Hk & Heq & Hrep)]; [done|].
    pose proof Ht' as (_ & Hdom & Hrec). apply Hdom in Hk as [x Hx]. rewrite Hx in Heq.
    simpl in Heq. subst x. destruct (Hrec _ _ Hx) as [Hk _]. destruct (Hsub _ _ Hx) as [Hx1 _].
    assert (r_State r = StateSettled) as Hs by (apply (Hg r); congruence).
    unfold replayable_record in Hrep. by rewrite Hs in Hrep.
  - intros msg optID ttl turnID r w' Htrim Hne H. unfold Enqueue, unless_nil in H.
    rewrite Hnil in H. unfold bind at 1 in H.
    destruct (ensureLoadedLocked env w) as [[[]|e] w1] eqn:E; [|done].
    pose proof (load_finished env id w t w1 Ht Hl Hf E) as [Hc Hg].
    cbv zeta in H. rewrite Htrim in H. unfold bind at 1 in H. simpl in H.
    rewrite bool_decide_eq_false_2 in H by done. simpl in H.
    destruct (q_records (w_queue w1) !! id) as [x|] eqn:Hx.
    + injection H as <- <-. by apply Hg.
    + rewrite bool_decide_eq_true_2 in H by done. discriminate H.
  - intros b w' Hne H. unfold Completed, unless_nil in H. rewrite Hnil in H.
    rewrite bool_decide_eq_false_2 in H by done. unfold bind at 1 in H.
    destruct (ensureLoadedLocked env w) as [[[]|e] w1] eqn:E; [|done].
    pose proof (load_finished env id w t w1 Ht Hl Hf E) as [Hc _].
    unfold bind in H. simpl in H. injection H as <- _. by apply bool_decide_eq_true_2.
  - intros turnID out w' H. unfold InputIDsForTurn, unless_nil in H. rewrite Hnil in H.
    case_bool_decide as Hturn; [injection H as <- _; apply not_elem_of_nil|].
    unfold bind at 1 in H. destruct (ensureLoadedLocked env w) as [[[]|e] w1] eqn:E; [|done].
    pose proof (load_finished env id w t w1 Ht Hl Hf E) as [_ Hg].
    unfold bind in H. simpl in H. injection H as <- _.
    rewrite list_elem_of_filter. intros [[H1 H2] _].
    destruct (q_records (w_queue w1) !! id) as [r|] eqn:Hx; simpl in H1, H2; [|by subst].
    rewrite (Hg _ Hx) in H2. by destruct H2.
Qed.

(** [Replayable] returns exactly the inputs to run: of the records loaded,
    those not expired at the clock's millisecond stay, in acceptance order, and
    the result is the replayable ones among them, cut at the limit. *)
Theorem replayable_is_live_prefix env track t0 w turnID limit out w1 w' :
  runs (step env) (init_world track t0) w -> w_nil w = false ->
  ensureLoadedLocked env w = (Ok tt, w1) ->
  Replayable env turnID limit w = (Ok out, w') ->
  let now := truncate_ms (env_clock env (w_clock w1)) in
  let alive := filter (fun r => live now r = true)
                 (document_records (q_records (w_queue w1)) (q_order (w_queue w1))) in
  document_records (q_records (w_queue w')) (q_order (w_queue w')) = alive /\
  out = (if 0 <? limit then take (Z.to_nat limit) else id)
          (filter (fun r => replayable_record r = true) alive).
Proof.
  intros Hr Hnil E H. apply reachable_inv in Hr. cbv zeta.
  unfold Replayable, unless_nil in H. rewrite Hnil in H. unfold bind at 1 in H. rewrite E in H.
  apply ensureLoaded_ready in E as [[_ Hq] Hl1]; [|done]. destruct (Hq Hl1) as [Htab _].
  unfold bind in H. simpl in H.
  set (now := truncate_ms (env_clock env (w_clock w1))) in *.
  pose proof (expire_fold now (q_order (w_queue w1)) _ _ false Htab) as Hexp.
  destruct (foldl _ _ _) as [[records order] c]. destruct Hexp as (Ht' & Hfil & Hc & Hsub).
  assert (q_records (w_queue w') = records /\ q_order (w_queue w') = order /\
    out = replayable_loop records limit order []) as (-> & -> & ->).
  { destruct c.
    - destruct (persistLocked _ _ _ _) as [[u|e] w2] eqn:Ep; [|done].
      apply persist_ok_queue in Ep as [E1 E2]. simpl in H.
        injection H as <- <-. by rewrite E1, E2.
    - destruct (Hc eq_refl) as (_ & -> & ->). simpl in H. by injection H as <- <-. }
  rewrite <- Hfil, filter_live_all.
  - split; [done|]. rewrite replayable_loop_filter; [done|simpl; lia|apply Ht'].
  - intros r (k & Hk & Hx)%document_records_elem. destruct (Hsub _ _ Hx) as [Hx1 Hlive].
    apply Hlive. apply Htab. eauto.
Qed.

(** ** Recovery facts *)

Definition recovered_state (facts : PendingInputRecoveryFacts) (r : PendingInputRecord) :
    PendingInputState :=
  match r_State r with
  | StateAccepting =>
    if bool_decide (r_MessageID r ∈ AdmittedMessageIDs facts) then StateAdmitted else StatePending
  | s => s
  end.

(** What recovery makes of one record. *)
Definition recovered (facts : PendingInputRecoveryFacts) (r r' : PendingInputRecord) : Prop :=
  if state_eqb (r_State r) StateDeadLettered || state_eqb (r_State r) StateSettled then r' = r
  else
    r_ID r' = r_ID r /\ r_State r' = recovered_state facts r /\
    (r_State r = StateAccepting -> r_State r' = StatePending ->
       r_TurnID r' = "" /\ r_Origin r' = OriginQueued) /\
    (r_State r = StateAdmitted \/ r_State r = StateProcessed -> r_LastError r' = interrupted) /\
    (r_MessageID r ∈ TranscriptMessageIDs facts -> r_ProcessedAt r' <> None).

Lemma reconcile_state_recovered facts r :
  let '(r', c) := reconcile_state facts r in
  r_ID r' = r_ID r /\ r_State r' = recovered_state facts r /\
  (r_State r = StateAccepting -> r_State r' = StatePending ->
     r_TurnID r' = "" /\ r_Origin r' = OriginQueued) /\
  (r_State r = StateAdmitted \/ r_State r = StateProcessed -> r_LastError r' = interrupted) /\
  (c = false -> r' = r).
Proof.
  unfold reconcile_state, recovered_state.
  destruct (r_State r) eqn:E; try (case_bool_decide; simpl);
    split_and!; try done; intros; naive_solver.
Qed.

Section Reconcile.
  Context (env : Environment) (facts : PendingInputRecoveryFacts).

Lemma reconcile_loop_spec history ids : forall records c w s w',
  NoDup ids -> (forall id, id ∈ ids -> is_Some (records !! id)) ->
  reconcile_loop env facts history ids records c w = (Ok s, w') ->
  w_queue w' = w_queue w /\
  (forall k, k ∉ ids -> s.1 !! k = records !! k) /\
  (forall k r, k ∈ ids -> records !! k = Some r ->
     exists r', s.1 !! k = Some r' /\ recovered facts r r') /\
  (s.2 = false -> c = false /\ s.1 = records).
Proof.
  induction ids as [|id ids IH]; intros records c w s w' Hnd Hdom H; cbn [reconcile_loop] in H.
  { injection H as <- <-. simpl. split_and!; try done. by intros ? ? ?%not_elem_of_nil. }
  apply NoDup_cons in Hnd as [Hni Hnd].
  destruct (Hdom id ltac:(set_solver)) as [r Hid]. rewrite Hid in H. simpl in H.
  assert (forall r3 c3 w3, recovered facts r r3 -> w_queue w3 = w_queue w ->
    (c3 = false -> c = false /\ r3 = r) ->
    reconcile_loop env facts history ids (<[id := r3]> records) c3 w3 = (Ok s, w') ->
    w_queue w' = w_queue w /\
    (forall k, k ∉ id :: ids -> s.1 !! k = records !! k) /\
    (forall k r, k ∈ id :: ids -> records !! k = Some r ->
       exists r', s.1 !! k = Some r' /\ recovered facts r r') /\
    (s.2 = false -> c = false /\ s.1 = records)) as Hnext.
  { intros r3 c3 w3 Hrec Hw3 Hc3 H3. apply IH in H3 as (G1 & G2 & G3 & G4); [|done|].
    2:{ intros k Hk. rewrite lookup_insert_ne by set_solver. apply Hdom. set_solver. }
    split_and!; [congruence| | |].
    - intros k Hk. rewrite G2 by set_solver. rewrite lookup_insert_ne by set_solver. done.
    - intros k x [->|Hk]%elem_of_cons Hx.
      + exists r3. rewrite G2 by done. rewrite lookup_insert_eq. split; [done|]. congruence.
      + apply (G3 k x Hk). by rewrite lookup_insert_ne by set_solver.
    - intros Hs. destruct (G4 Hs) as [Hc ->]. destruct (Hc3 Hc) as [? ->].
      split; [done|]. by apply insert_id. }
  destruct (state_eqb _ _ || state_eqb _ _) eqn:Hskip.
  { apply (Hnext r c w); [unfold recovered; by rewrite Hskip|done|done|].
    rewrite insert_id by done. done. }
  pose proof (reconcile_state_recovered facts r) as Hs.
  destruct (reconcile_state facts r) as [r1 c1]. destruct Hs as (R1 & R2 & R3 & R4 & R5).
  destruct (bool_decide (r_MessageID r ∈ TranscriptMessageIDs facts)) eqn:Ht; simpl in H;
    [destruct (bool_decide (r_ProcessedAt r1 = None)) eqn:Hp|].
  - unfold bind in H. simpl in H. eapply Hnext; [| | |exact H]; [|done|done].
    unfold recovered. rewrite Hskip. simpl. done.
  - eapply Hnext; [| | |exact H]; [|done|].
    + unfold recovered. rewrite Hskip. to_prop. done.
    + intros [-> ->]%orb_false_iff. auto.
  - eapply Hnext; [| | |exact H]; [|done|].
    + unfold recovered. rewrite Hskip. to_prop. done.
    + intros [-> ->]%orb_false_iff. auto.
Qed.
End Reconcile.

(** Recovery resolves every interrupted admission. After
    [ReconcileRecoveryFacts] no input is left in the accepting state: it is
    admitted exactly if its admission event was committed, else pending without
    a turn; interrupted attempts carry the interruption, inputs found in the
    transcript are stamped as processed, and nothing is added or lost. *)
Theorem recovery_resolves_admissions env track t0 w facts w1 w' :
  runs (step env) (init_world track t0) w -> w_nil w = false ->
  ensureLoadedLocked env w = (Ok tt, w1) ->
  ReconcileRecoveryFacts env facts w = (Ok tt, w') ->
  (forall id r, q_records (w_queue w1) !! id = Some r ->
     exists r', q_records (w_queue w') !! id = Some r' /\ recovered facts r r') /\
  (forall id, q_records (w_queue w1) !! id = None -> q_records (w_queue w') !! id = None) /\
  (forall id r, q_records (w_queue w') !! id = Some r -> r_State r <> StateAccepting).
Proof.
  intros Hr Hnil E H. apply reachable_inv in Hr.
  unfold ReconcileRecoveryFacts, unless_nil in H. rewrite Hnil in H.
  unfold bind at 1 in H. rewrite E in H.
  apply ensureLoaded_ready in E as [[_ Hq] Hl1]; [|done].
  destruct (Hq Hl1) as [(Hnd & Hdom & Hrec) _].
  unfold bind in H. simpl in H.
  destruct (reconcile_loop _ _ _ _ _ _ _) as [[s|e] w2] eqn:El; [|done].
  apply reconcile_loop_spec in El as (Hw2 & G2 & G3 & G4); [|done|intros; by apply Hdom].
  assert (q_records (w_queue w') = s.1) as Hrecs.
  { destruct (s.2) eqn:Hc.
    - by apply persist_ok_queue in H as [-> _].
    - injection H as <-. rewrite Hw2. by destruct (G4 eq_refl) as [_ ->]. }
  rewrite Hrecs.
  assert (forall id r, q_records (w_queue w1) !! id = Some r ->
     exists r', s.1 !! id = Some r' /\ recovered facts r r') as Hfwd.
  { intros id r Hid. apply G3; [|done]. apply Hdom. eauto. }
  assert (forall id, q_records (w_queue w1) !! id = None -> s.1 !! id = None) as Hnone.
  { intros id Hid. rewrite G2; [done|]. rewrite Hdom, Hid. by intros [? ?]. }
  split_and!; [done..|]. intros id r' Hid Hacc.
  destruct (q_records (w_queue w1) !! id) as [r|] eqn:E1; [|rewrite Hnone in Hid; done].
  destruct (Hfwd _ _ E1) as (r2 & H2 & Hr2). rewrite H2 in Hid. injection Hid as ->.
  unfold recovered, state_eqb in Hr2. destruct (_ || _) eqn:Hs.
  - subst r'. rewrite Hacc in Hs. by vm_compute in Hs.
  - destruct Hr2 as (_ & Hst & _). rewrite Hst in Hacc. unfold recovered_state in Hacc.
    clear Hs. destruct (r_State r); try done. by case_bool_decide.
Qed.

(** ** Drawing ids *)

Section Draw.
  Context (env : Environment).

Definition draw (n : nat) : string := ("input-" ++ hex_encode (env_rand env n))%string.

Lemma nextUnique_loop_total records : forall fuel w,
  Exists (fun id => records !! id = None) (map draw (seq (w_rand w) fuel)) ->
  exists id w', nextUnique_loop env fuel records w = (Ok id, w') /\ records !! id = None /\
    (w_rand w' <= w_rand w + fuel)%nat.
Proof.
  induction fuel as [|fuel IH]; intros w H; simpl in H; [by apply Exists_nil in H|].
  cbn [nextUnique_loop]. unfold bind at 1, newInputID, bind at 1. simpl. fold (draw (w_rand w)).
  case_bool_decide as Hn.
  - eexists _, _. split_and!; [reflexivity|done|simpl; lia].
  - apply Exists_cons in H as [H|H]; [done|].
    set (w1 := mkWorld _ _ _ _ _ _ _).
    destruct (IH w1) as (id & w' & H1 & H2 & H3); [done|].
    exists id, w'. split_and!; [done..|]. simpl in H3. lia.
Qed.

(** Enough distinct draws cannot all be taken. *)
Lemma draws_find_free (records : gmap string PendingInputRecord) (l : list string) :
  NoDup l -> (size records < length l)%nat -> Exists (fun id => records !! id = None) l.
Proof.
  intros Hnd Hlen. destruct (decide (Exists (fun id => records !! id = None) l)) as [H|H]; [done|].
  exfalso. assert (list_to_set l ⊆@{gset string} dom records) as Hsub.
  { intros id Hid%elem_of_list_to_set. apply elem_of_dom.
    destruct (records !! id) eqn:E; [by eexists|]. exfalso. apply H.
    apply Exists_exists. eauto. }
  apply subseteq_size in Hsub. rewrite size_dom, size_list_to_set in Hsub by done. lia.
Qed.
End Draw.

(** The unbounded id loop ends: if the next draws are distinct, one more
    than the recorded inputs at most are needed to find a free id, which is
    returned. *)
Theorem next_input_id_total env records w :
  NoDup (map (draw env) (seq (w_rand w) (S (size records)))) ->
  exists id w', nextUniquePendingInputID env records w = (Ok id, w') /\
    records !! id = None /\ (w_rand w' <= w_rand w + S (size records))%nat.
Proof.
  intros Hnd. apply nextUnique_loop_total, draws_find_free; [done|].
  rewrite length_map, length_seq. lia.
Qed.
