(* ===== verification/PendingQueueExamples.v ===== *)
(** * The pending input queue: runs

    Concrete runs of the queue: they instantiate the properties, and one of them
    shows the flaw of explicit retries. *)

From S2P Require Import Prelude GoStd Llm Events PendingInputs PendingQueue PendingQueueInv PendingQueueProps PendingQueueRecovery.

Local Open Scope Z_scope.
Local Open Scope juex_scope.

(** A clock that ticks every second, serial ids, storage that works. *)
Definition ex_env : Environment :=
  mkEnv (fun n => (63839872496 + Z.of_nat n) * second)
    (fun n => Sha256.be_bytes 4 (Z.of_nat n)) (fun _ => IoOk).

Definition ex_thread (l : list Event) : Thread := mkThread l InitialGeneration [] 0.
Definition ex_hello : Message := TextMessage RoleUser "hello".
Definition ex_id : string := "input-00000000".

(** An input admitted to turn-1 by a fresh queue. *)
Definition ex_start : World := init_world false (Some (ex_thread [])).
Definition ex_admitted : World :=
  run_call ex_env (CallStoreTurnInput "turn-1" ex_hello false StateAdmitted) ex_start.

(** The turn completes; the process restarts. *)
Definition ex_completed_event : Event :=
  mkEvent "e1" "turn.completed" "turn-1" (TerminalPayload [ex_id] "" "").
Definition ex_completed : World :=
  set_queue (NewPendingInputQueue false)
    (set_thread (Some (ex_thread [ex_completed_event])) ex_admitted).

(** Or the runtime is restarted under the turn, the input is retried explicitly,
    and the process restarts again before a turn picks it up. *)
Definition ex_errored_event : Event :=
  mkEvent "e1" "turn.errored" "turn-1" (TerminalPayload [ex_id] "restart" "runtime_restart").
Definition ex_errored : World :=
  run_call ex_env (CallApplyTerminalEvent ex_errored_event)
    (set_thread (Some (ex_thread [ex_errored_event])) ex_admitted).
Definition ex_retried : World := run_call ex_env (CallRetryTurnInputs "turn-1") ex_errored.
Definition ex_restarted : World := set_queue (NewPendingInputQueue false) ex_retried.

Lemma ex_admitted_run : runs (step ex_env) ex_start ex_admitted.
Proof.
  exact (runs_one _ _ _ (step_call ex_env
    (CallStoreTurnInput "turn-1" ex_hello false StateAdmitted) ex_start I)).
Qed.

Lemma ex_completed_run : runs (step ex_env) ex_start ex_completed.
Proof.
  eapply runs_trans; [exact ex_admitted_run|].
  eapply runs_step; [exact (step_thread ex_env (Some (ex_thread [ex_completed_event])) ex_admitted)|].
  exact (runs_one _ _ _ (step_restart ex_env false _)).
Qed.

Lemma ex_restarted_run : runs (step ex_env) ex_start ex_restarted.
Proof.
  eapply runs_trans; [exact ex_admitted_run|].
  eapply runs_step; [exact (step_thread ex_env (Some (ex_thread [ex_errored_event])) ex_admitted)|].
  eapply runs_step; [exact (step_call ex_env (CallApplyTerminalEvent ex_errored_event) _ I)|].
  eapply runs_step; [exact (step_call ex_env (CallRetryTurnInputs "turn-1") _ I)|].
  exact (runs_one _ _ _ (step_restart ex_env false _)).
Qed.

(** The load over the retried document fails to encode what it made of it. *)
Lemma ex_restarted_load :
  (ensureLoadedLocked ex_env ex_restarted).1 = Err (ErrEncode ex_id StateWithoutTurn).
Proof. vm_compute. reflexivity. Qed.

(** An explicit retry does not survive a restart. An input whose turn was
    interrupted by a runtime restart and that was retried lies pending, without
    a turn, in a valid document; yet the next process replays the old turn event
    over it, gets a retryable record that identifies no turn, cannot encode it,
    and refuses to list its records or to accept any input at its first call. *)
Theorem retried_input_breaks_restart :
  exists env t w id r,
    (forall n, env_io env n = IoOk) /\
    runs (step env) (init_world false (Some t)) w /\
    q_loaded (w_queue w) = false /\
    file_records (w_file w) = [r] /\ r_ID r = id /\
    r_State r = StatePending /\ valid_record r = true /\
    (Records env w).1 = Err (ErrEncode id StateWithoutTurn) /\
    forall msg optID ttl turnID,
      (Enqueue env msg optID ttl turnID w).1 = Err (ErrEncode id StateWithoutTurn).
Proof.
  exists ex_env, (ex_thread []), ex_restarted, ex_id. eexists.
  split; [intros n; reflexivity|]. split; [exact ex_restarted_run|].
  split; [vm_compute; reflexivity|]. split; [vm_compute; reflexivity|].
  split; [vm_compute; reflexivity|]. split; [vm_compute; reflexivity|].
  split; [vm_compute; reflexivity|]. split; [vm_compute; reflexivity|].
  intros msg optID ttl turnID. unfold Enqueue, unless_nil.
  assert (w_nil ex_restarted = false) as -> by (vm_compute; reflexivity).
  unfold bind at 1. pose proof ex_restarted_load as H.
  destruct (ensureLoadedLocked ex_env ex_restarted) as [[u|e] w1]; [discriminate H|].
  simpl in H. injection H as ->. reflexivity.
Qed.

(** ** Instances of the properties *)

Lemma queue_state_consistent_witness :
  q_loaded (w_queue ex_admitted) = true /\ queue_ok (w_queue ex_admitted).
Proof.
  split; [vm_compute; reflexivity|].
  apply (queue_state_consistent ex_env false (Some (ex_thread [])) ex_admitted ex_admitted_run).
  vm_compute. reflexivity.
Defined.

Definition ex_enqueued : World := (Enqueue ex_env ex_hello " a " 0 "" ex_start).2.

Lemma accepted_input_is_durable_witness :
  exists r, (Enqueue ex_env ex_hello " a " 0 "" ex_start).1 = Ok r /\ r_ID r = "a" /\
  exists records order, load_document (w_file ex_enqueued) = Some (records, order) /\
    records !! "a" = Some r.
Proof.
  eexists. split_and!; [vm_compute; reflexivity|reflexivity|].
  edestruct (accepted_input_is_durable ex_env false (Some (ex_thread [])) ex_start ex_hello " a " 0 "")
    as (rs & o & H1 & H2 & _).
  - apply runs_refl.
  - unfold ex_start. vm_compute. reflexivity.
  - repeat constructor.
  - vm_compute. repeat constructor. set_solver.
  - exists rs, o. split; [exact H1|exact H2].
Defined.

Lemma admitted_input_never_expires_witness :
  exists r, q_records (w_queue ex_admitted) !! ex_id = Some r /\ Expired r 0 = false.
Proof.
  eexists. split; [vm_compute; reflexivity|].
  apply (admitted_input_never_expires ex_env false (Some (ex_thread [])) ex_admitted ex_id _ 0
    ex_admitted_run); vm_compute; reflexivity.
Defined.

Lemma ex_finished : finished ex_id [ex_completed_event].
Proof.
  exists [], ex_completed_event, []. split_and!; [done| |constructor].
  vm_compute. split; [done|]. set_solver.
Qed.

Lemma restart_keeps_completed_input_done_witness :
  exists out, (Replayable ex_env "" 0 ex_completed).1 = Ok out /\
    Forall (fun r => r_ID r <> ex_id) out.
Proof.
  destruct (restart_keeps_completed_input_done ex_env false (Some (ex_thread [])) ex_completed
    (ex_thread [ex_completed_event]) ex_id) as [H _].
  - exact ex_completed_run.
  - vm_compute. reflexivity.
  - vm_compute. reflexivity.
  - vm_compute. reflexivity.
  - exact ex_finished.
  - destruct (Replayable ex_env "" 0 ex_completed) as [[out|e] w'] eqn:E.
    + exists out. split; [reflexivity|]. exact (H "" 0 out w' E).
    + exfalso. assert (is_ok (Replayable ex_env "" 0 ex_completed).1 = true) as Hok
        by (vm_compute; reflexivity). rewrite E in Hok. discriminate Hok.
Defined.

Lemma replayable_is_live_prefix_witness :
  exists out, (Replayable ex_env "" 1 ex_admitted).1 = Ok out /\ length out = 1%nat /\
    out = take 1 (filter (fun r => replayable_record r = true)
      (document_records (q_records (w_queue (Replayable ex_env "" 1 ex_admitted).2))
        (q_order (w_queue (Replayable ex_env "" 1 ex_admitted).2)))).
Proof.
  eexists. split_and!; [vm_compute; reflexivity|reflexivity|].
  edestruct (replayable_is_live_prefix ex_env false (Some (ex_thread [])) ex_admitted "" 1)
    as [H1 H2].
  - apply ex_admitted_run.
  - reflexivity.
  - vm_compute. reflexivity.
  - vm_compute. reflexivity.
  - vm_compute. reflexivity.
Defined.

Lemma recovery_resolves_admissions_witness :
  exists w', ReconcileRecoveryFacts ex_env (mkFacts ∅ ∅) ex_admitted = (Ok tt, w') /\
  forall id r, q_records (w_queue w') !! id = Some r -> r_State r <> StateAccepting.
Proof.
  eexists. split; [vm_compute; reflexivity|].
  eapply (recovery_resolves_admissions ex_env false (Some (ex_thread [])) ex_admitted (mkFacts ∅ ∅));
    [apply ex_admitted_run|reflexivity|vm_compute; reflexivity|vm_compute; reflexivity].
Defined.

Lemma next_input_id_total_witness :
  exists id w', nextUniquePendingInputID ex_env ∅ ex_start = (Ok id, w') /\ w_rand w' = 1%nat.
Proof.
  destruct (next_input_id_total ex_env ∅ ex_start) as (id & w' & H & _ & Hle).
  - vm_compute. repeat constructor. set_solver.
  - exists id, w'. split; [exact H|]. vm_compute in H. injection H as <- <-. reflexivity.
Defined.
