(* ===== verification/EngineInput.v ===== *)
(** * The inputs of the turn engine

    The part of [Engine] ([src/internal/framework/runtime/loop.go],
    [pending_lifecycle.go], [maintenance.go]) that decides what becomes of an
    input: whether it starts a turn or joins the active one, how the inputs of a
    turn reach the transcript, and how a turn is closed. It works on the queue of
    [PendingQueue.v] and the messages of the thread.

    Every method here holds [pendingLifecycleMu] for its whole body, except while
    it publishes an event of its own ([emitPendingLifecycleEvent]): there other
    callers may run. Since [pendingEventPublishing] is set, all they can do is to
    join the active turn, and their events wait for the one being announced. A
    [Window] lists the inputs that arrive during one publication.

    The outcomes of events, appends to the thread, policies, projections and
    preparations come from an environment, as do the storage calls of the queue.
    A policy or a projection replaces the blocks of a message and nothing else
    ([replaceTurnInputContent], [projectMessageWithRetentionLocked]). The text and
    the kind that the payload of a failed turn has for an error are given too. *)

From S2P Require Import Prelude GoStd Llm Events PendingInputs PendingQueue.

Local Open Scope Z_scope.
Local Open Scope juex_scope.

(** ** Data *)

Definition DefaultMaxPendingInput : Z := 16.
Definition DefaultExternalEventTTL : Duration := 24 * 3600 * second.

Record queuedPendingInput := mkItem {
  it_RecordID : string;
  it_Message : Message;
  it_Origin : PendingInputOrigin;
}.

Record PendingInputStatus := mkStatus {
  st_TurnID : string;
  st_PendingCount : Z;
  st_MaxPendingInputs : Z;
}.

Record PendingInputOptions := mkOptions {
  opt_ID : string;
  opt_TTL : Duration;
}.

Inductive PendingInputDisposition :=
| PendingInputNone
| PendingInputStarted
| PendingInputQueued
| PendingInputProcessed
| PendingInputExpired
| PendingInputDropped.

Inductive PendingInputRetry :=
| PendingInputNoRetry
| PendingInputRetryAfterTurn
| PendingInputRetryAfterRecovery
| PendingInputRetryAfterStorage
| PendingInputRetryAdmission.

Record PendingInputRequest := mkRequest {
  rq_Message : Message;
  rq_Options : option PendingInputOptions;
  rq_RecordID : string;
  rq_RetryTurnID : string;
  rq_RequireStart : bool;
  rq_DeferDelivery : bool;
}.

Record PendingInputResult := mkResult {
  rs_Disposition : PendingInputDisposition;
  rs_Retry : PendingInputRetry;
  rs_RecordID : string;
  rs_TurnID : string;
  rs_Message : Message;
  rs_Status : PendingInputStatus;
}.

#[export] Instance disposition_kind_eq_dec : EqDecision PendingInputDisposition.
Proof. solve_decision. Defined.
#[export] Instance retry_kind_eq_dec : EqDecision PendingInputRetry.
Proof. solve_decision. Defined.

(** What the engine announces. *)
Inductive LifecycleEvent :=
| TurnAdmitted (turn message : string) (compaction : bool)
| InputQueued (turn id message : string) (count max : Z)
| InputRejected (turn : string) (count max : Z)
| InputDraining (turn : string) (ids : list string) (count remaining max : Z)
| InputDrained (turn : string) (ids : list string) (count remaining max : Z)
| InputPromoted (turn : string) (ids : list string) (count max : Z)
| InputDropped (turn : string) (removed count max : Z)
| ProjectionApplied (turn : string)
| TurnStarted (turn message : string)
| TurnEnded (e : Event).

(** What the parts of a turn beside its inputs can fail with ([TurnLoop]). *)
Inductive TurnFailure :=
| TurnNoThread
| TurnPrompt
| TurnCompaction
| TurnContext
| TurnProvider
| TurnToolBatch
| TurnSchedule
| TurnTransition
| TurnFinishPolicy
| TurnPolicyContext.

Inductive EngineError :=
| ErrTurn (what : TurnFailure)
| ErrNoActiveTurn
| ErrActiveTurnExists
| ErrMaintenance
| ErrPendingInputQueueFull
| ErrPendingInputExpired
| ErrInputHandled
| ErrEmptyTurnID
| ErrNoQueue
| ErrCancelled
| ErrQueue (e : QueueError)
| ErrEmit
| ErrAppend
| ErrProjection
| ErrPreparation
| ErrPolicy
| ErrRepair
| ErrRetryKind
| ErrInputNotFound (id : string)
| ErrUnknownState (id : string)
| ErrTurnChanged
| ErrNotStarted
| ErrDiscarded (id : string)
| ErrJoin (e1 e2 : EngineError)
| ErrStaged (turn : string) (cause : EngineError)
| ErrOutOfFuel.

(** [errors.Is]. *)
Fixpoint error_is (target : EngineError -> bool) (e : EngineError) : bool :=
  target e ||
  match e with
  | ErrJoin e1 e2 => error_is target e1 || error_is target e2
  | ErrStaged _ cause => error_is target cause
  | _ => false
  end.

Definition is_no_active (e : EngineError) : bool :=
  match e with ErrNoActiveTurn => true | _ => false end.
Definition is_active_exists (e : EngineError) : bool :=
  match e with ErrActiveTurnExists => true | _ => false end.
Definition is_queue_full (e : EngineError) : bool :=
  match e with ErrPendingInputQueueFull => true | _ => false end.
Definition is_expired (e : EngineError) : bool :=
  match e with ErrPendingInputExpired => true | _ => false end.
Definition is_handled (e : EngineError) : bool :=
  match e with ErrInputHandled | ErrQueue ErrPendingInputHandled => true | _ => false end.

(** [errors.Join] of an error with one that may be nil. *)
Definition join_error (e : EngineError) (other : option EngineError) : EngineError :=
  match other with Some e' => ErrJoin e e' | None => e end.

(** ** World *)

(** The fields of the engine that the lifecycle mutex and [pendingMu] guard. *)
Record Engine := mkEngine {
  en_activeTurnID : string;
  en_executingTurnID : string;
  en_terminalPublishing : string;
  en_maintenanceReserved : bool;
  en_pendingInput : list queuedPendingInput;
  en_announcing : bool;
  en_deferred : list LifecycleEvent;
  en_publishing : bool;
}.

(** An input that arrives during a publication: a new message, an external one
    that is recorded first, or a record that was accepted before. *)
Inductive Arrival :=
| ArriveMessage (m : Message)
| ArriveExternal (m : Message) (opts : PendingInputOptions)
| ArriveRecord (id : string).

Abbreviation Window := (list Arrival) (only parsing).

(** [ew_windows]: what arrives during the publications to come; [ew_log]: the
    committed announcements; [ew_arrived]: a history variable, every input that
    was ever put behind the ones that wait; [ew_calls]: how many outcomes have
    been drawn. *)
Record EWorld := mkEWorld {
  ew_engine : Engine;
  ew_queue : World;
  ew_windows : list Window;
  ew_log : list LifecycleEvent;
  ew_arrived : list queuedPendingInput;
  ew_calls : nat;
}.

(** [None] is a failure; [Some None] leaves the blocks alone. *)
Record EngineEnv := mkEngineEnv {
  ee_queue : Environment;
  ee_emit : nat -> IoResult;
  ee_append : nat -> IoResult;
  ee_project : nat -> option (option (list Block));
  ee_policy : nat -> option (option (list Block));
  ee_prepare : nat -> bool;
  ee_repair : nat -> bool;
  ee_cancelled : nat -> bool;
  ee_MaxPendingInputs : Z;
  ee_PendingInputTTL : Duration;
  ee_ExternalEventTTL : Duration;
  ee_CompactionEnabled : bool;
  ee_payload : EngineError -> string * string;
}.

Definition EM (A : Type) : Type := SM EWorld EngineError A.

Definition set_engine (en : Engine) (w : EWorld) : EWorld :=
  mkEWorld en (ew_queue w) (ew_windows w) (ew_log w) (ew_arrived w) (ew_calls w).
Definition set_ew_queue (q : World) (w : EWorld) : EWorld :=
  mkEWorld (ew_engine w) q (ew_windows w) (ew_log w) (ew_arrived w) (ew_calls w).

Definition set_active (turn : string) (en : Engine) : Engine :=
  mkEngine turn (en_executingTurnID en) (en_terminalPublishing en) (en_maintenanceReserved en)
    (en_pendingInput en) (en_announcing en) (en_deferred en) (en_publishing en).
Definition set_executing (turn : string) (en : Engine) : Engine :=
  mkEngine (en_activeTurnID en) turn (en_terminalPublishing en) (en_maintenanceReserved en)
    (en_pendingInput en) (en_announcing en) (en_deferred en) (en_publishing en).
Definition set_terminal (turn : string) (en : Engine) : Engine :=
  mkEngine (en_activeTurnID en) (en_executingTurnID en) turn (en_maintenanceReserved en)
    (en_pendingInput en) (en_announcing en) (en_deferred en) (en_publishing en).
Definition set_maintenance (b : bool) (en : Engine) : Engine :=
  mkEngine (en_activeTurnID en) (en_executingTurnID en) (en_terminalPublishing en) b
    (en_pendingInput en) (en_announcing en) (en_deferred en) (en_publishing en).
Definition set_pending (l : list queuedPendingInput) (en : Engine) : Engine :=
  mkEngine (en_activeTurnID en) (en_executingTurnID en) (en_terminalPublishing en)
    (en_maintenanceReserved en) l (en_announcing en) (en_deferred en) (en_publishing en).
Definition set_announcing (b : bool) (l : list LifecycleEvent) (en : Engine) : Engine :=
  mkEngine (en_activeTurnID en) (en_executingTurnID en) (en_terminalPublishing en)
    (en_maintenanceReserved en) (en_pendingInput en) b l (en_publishing en).
Definition set_publishing (b : bool) (en : Engine) : Engine :=
  mkEngine (en_activeTurnID en) (en_executingTurnID en) (en_terminalPublishing en)
    (en_maintenanceReserved en) (en_pendingInput en) (en_announcing en) (en_deferred en) b.

Definition get_engine : EM Engine := fun w => (Ok (ew_engine w), w).
Definition modify_engine (f : Engine -> Engine) : EM unit :=
  fun w => (Ok tt, set_engine (f (ew_engine w)) w).

(** [e.pendingInput = append(e.pendingInput, it)]. *)
Definition queue_input (it : queuedPendingInput) : EM unit := fun w =>
  (Ok tt,
   mkEWorld (set_pending (en_pendingInput (ew_engine w) ++ [it]) (ew_engine w)) (ew_queue w)
     (ew_windows w) (ew_log w) (ew_arrived w ++ [it]) (ew_calls w)).

(** A method of the queue. *)
Definition lift {A} (m : M A) : EM A := fun w =>
  match m (ew_queue w) with
  | (Ok a, q) => (Ok a, set_ew_queue q w)
  | (Err e, q) => (Err (ErrQueue e), set_ew_queue q w)
  end.

(** The error of a call as a value. *)
Definition attempt {A} (m : EM A) : EM (result EngineError A) := fun w =>
  let '(r, w') := m w in (Ok r, w').

Definition error_of {A} (r : result EngineError A) : option EngineError :=
  match r with Ok _ => None | Err e => Some e end.

(** [currentPendingInputQueue() == nil]. *)
Definition queue_missing : EM bool := fun w => (Ok (w_nil (ew_queue w)), w).

(** Draws the next outcome. *)
Definition draw_outcome {A} (f : nat -> A) : EM A := fun w =>
  (Ok (f (ew_calls w)),
   mkEWorld (ew_engine w) (ew_queue w) (ew_windows w) (ew_log w) (ew_arrived w) (S (ew_calls w))).

Section Engine.
  Context (env : EngineEnv).

(** ** Settings *)

Definition effectiveMaxPendingInputs : Z :=
  if 0 <? ee_MaxPendingInputs env then ee_MaxPendingInputs env else DefaultMaxPendingInput.

Definition effectivePendingInputTTL : Duration :=
  if 0 <? ee_PendingInputTTL env then ee_PendingInputTTL env else DefaultPendingInputTTL.

Definition effectiveExternalEventTTL : Duration :=
  if 0 <? ee_ExternalEventTTL env then ee_ExternalEventTTL env else DefaultExternalEventTTL.

Definition defaultPendingInputOptions (msg : Message) (opts : PendingInputOptions) :
    PendingInputOptions :=
  if opt_TTL opts <=? 0 then
    mkOptions (opt_ID opts)
      (if m_Kind msg =?s MessageKindMCPEvent then effectiveExternalEventTTL
       else effectivePendingInputTTL)
  else opts.

Definition status_of (en : Engine) : PendingInputStatus :=
  mkStatus (en_activeTurnID en) (Z.of_nat (length (en_pendingInput en))) effectiveMaxPendingInputs.

(** [PendingInputStatus()]. *)
Definition engine_status : EM PendingInputStatus :=
  do en <- get_engine;;
  ret (status_of en).

Definition terminal_status (en : Engine) : PendingInputStatus :=
  mkStatus (en_terminalPublishing en) (Z.of_nat (length (en_pendingInput en)))
    effectiveMaxPendingInputs.

Definition hasPendingRecordLocked (pending : list queuedPendingInput) (id : string) : bool :=
  (id <>?s "") && existsb (fun it => it_RecordID it =?s id) pending.

(** ** Joining the active turn *)

(** [stagePendingEventLocked] for an event at the end of a method: [Some] when
    the method has to publish it. *)
Definition stage (ev : LifecycleEvent) : EM (option LifecycleEvent) :=
  do en <- get_engine;;
  if en_announcing en then
    do_ modify_engine (fun en => set_announcing true (en_deferred en ++ [ev]) en);;
    ret None
  else
    do_ modify_engine (fun en => set_announcing true (en_deferred en) en);;
    ret (Some ev).

(** The part of [enqueuePendingMessageWithOptions] under [pendingMu]: the
    status, the record and the error it returns, and the event it publishes. *)
Definition enqueue_message (msg : Message) (opts : PendingInputOptions) :
    EM (PendingInputStatus * PendingInputRecord * option EngineError * option LifecycleEvent) :=
  let msg := ClassifyUserMessage msg in
  do cancelled <- draw_outcome (ee_cancelled env);;
  if cancelled : bool then ret (mkStatus "" 0 0, zeroRecord, Some ErrCancelled, None)
  else
    do en <- get_engine;;
    let turn := en_activeTurnID en in
    let status := status_of en in
    if turn =?s "" then ret (status, zeroRecord, Some ErrNoActiveTurn, None)
    else if effectiveMaxPendingInputs <=? Z.of_nat (length (en_pendingInput en)) then
      do ev <- stage (InputRejected turn (st_PendingCount status) effectiveMaxPendingInputs);;
      ret (status, zeroRecord, Some ErrPendingInputQueueFull, ev)
    else
      let append id msg record :=
        do_ queue_input (mkItem id msg OriginQueued);;
        do en <- get_engine;;
        let status := status_of en in
        do ev <- stage (InputQueued turn id (m_ID msg) (st_PendingCount status)
                          effectiveMaxPendingInputs);;
        ret (status, record, None, ev) in
      do missing <- queue_missing;;
      if missing : bool then append ""%string msg zeroRecord
      else
        let opts := defaultPendingInputOptions msg opts in
        do r <- attempt (lift (Enqueue (ee_queue env) msg (opt_ID opts) (opt_TTL opts) turn));;
        match r with
        | Err e => ret (status, zeroRecord, Some e, None)
        | Ok record =>
          if negb (isReplayablePendingState (r_State record)) then
            ret (status, record, None, None)
          else if hasPendingRecordLocked (en_pendingInput en) (r_ID record) then
            ret (status, record, None, None)
          else append (r_ID record) (r_Message record) record
        end.

(** The same for [enqueuePersistedPendingMessage]. *)
Definition enqueue_record (record : PendingInputRecord) :
    EM (PendingInputStatus * option EngineError * option LifecycleEvent) :=
  let zero := mkStatus "" 0 0 in
  do cancelled <- draw_outcome (ee_cancelled env);;
  if cancelled : bool then ret (zero, Some ErrCancelled, None)
  else
    do missing <- queue_missing;;
    if missing : bool then ret (zero, Some ErrNoQueue, None)
    else
      do rs <- attempt (lift (Records (ee_queue env)));;
      match rs with
      | Err e => ret (zero, Some e, None)
      | Ok records =>
        match records !! r_ID record with
        | None => ret (zero, Some ErrInputHandled, None)
        | Some record =>
          do now <- lift (fun q => (Ok (env_clock (ee_queue env) (w_clock q)),
                            mkWorld (w_nil q) (w_queue q) (w_file q) (w_thread q)
                              (S (w_clock q)) (w_rand q) (w_io q)));;
          if Expired record now then
            do r <- attempt (lift (MarkExpired (ee_queue env) [r_ID record]));;
            match r with
            | Err e => ret (zero, Some e, None)
            | Ok _ => ret (zero, Some ErrPendingInputExpired, None)
            end
          else if negb (isReplayablePendingState (r_State record)) then
            ret (zero, Some ErrInputHandled, None)
          else
            do en <- get_engine;;
            let turn := en_activeTurnID en in
            let status := status_of en in
            if turn =?s "" then ret (status, Some ErrNoActiveTurn, None)
            else if hasPendingRecordLocked (en_pendingInput en) (r_ID record) then
              ret (status, None, None)
            else if effectiveMaxPendingInputs <=? Z.of_nat (length (en_pendingInput en)) then
              ret (status, Some ErrPendingInputQueueFull, None)
            else
              do_ queue_input (mkItem (r_ID record) (r_Message record) (r_Origin record));;
              do en <- get_engine;;
              let status := status_of en in
              do ev <- stage (InputQueued turn (r_ID record) (m_ID (r_Message record))
                                (st_PendingCount status) effectiveMaxPendingInputs);;
              ret (status, None, ev)
        end
      end.

(** ** Publications *)

(** [PersistPendingMessageWithOptions]. *)
Definition persistPendingMessage (msg : Message) (opts : PendingInputOptions) :
    EM PendingInputRecord :=
  let msg := ClassifyUserMessage msg in
  do cancelled <- draw_outcome (ee_cancelled env);;
  if cancelled : bool then fail ErrCancelled
  else
    do missing <- queue_missing;;
    if missing : bool then fail ErrNoQueue
    else
      let opts := defaultPendingInputOptions msg opts in
      do en <- get_engine;;
      lift (Enqueue (ee_queue env) msg (opt_ID opts) (opt_TTL opts) (en_activeTurnID en)).

(** [PersistedPendingMessage]. *)
Definition persistedPendingMessage (id : string) : EM (option PendingInputRecord) :=
  if id =?s "" then ret None
  else
    do missing <- queue_missing;;
    if missing : bool then ret None
    else
      do records <- lift (Records (ee_queue env));;
      ret (match records !! id with
           | Some r => if state_eqb (r_State r) StateSettled then None else Some r
           | None => None
           end).

(** A record that needs no delivery: it is inert, or of the active turn. *)
Definition already_delivered (r : PendingInputRecord) (active : string) : bool :=
  state_eqb (r_State r) StateDeadLettered || state_eqb (r_State r) StateExpired ||
  state_eqb (r_State r) StateDropped ||
  ((state_eqb (r_State r) StateProcessed || state_eqb (r_State r) StateAdmitted) &&
   (r_TurnID r <>?s "") && (r_TurnID r =?s active)).

(** [ReceivePendingInput] of another caller during a publication. It can only
    join the active turn: starting one is refused while an event is published,
    and its event waits ([stage]), for an event is being announced. *)
Definition arrive (a : Arrival) : EM unit :=
  do en <- get_engine;;
  if en_maintenanceReserved en then ret tt
  else
    let closing := en_terminalPublishing en <>?s "" in
    let deliver id :=
      if closing then ret tt
      else
        do r <- attempt (persistedPendingMessage id);;
        match r with
        | Ok (Some r) =>
          if already_delivered r (en_activeTurnID en) then ret tt
          else do_ attempt (enqueue_record r);; ret tt
        | _ => ret tt
        end in
    match a with
    | ArriveMessage m =>
      if closing || (en_activeTurnID en =?s "") then ret tt
      else do_ attempt (enqueue_message m (mkOptions "" 0));; ret tt
    | ArriveExternal m opts =>
      do r <- attempt (persistPendingMessage m opts);;
      match r with Ok r => deliver (r_ID r) | Err _ => ret tt end
    | ArriveRecord id => deliver id
    end.

Fixpoint arrivals (l : Window) : EM unit :=
  match l with
  | [] => ret tt
  | a :: r => do_ arrive a;; arrivals r
  end.

(** [emit]: commits an event. *)
Definition emit (ev : LifecycleEvent) : EM unit := fun w =>
  let w' logged := mkEWorld (ew_engine w) (ew_queue w) (ew_windows w)
    (if logged : bool then ew_log w ++ [ev] else ew_log w) (ew_arrived w) (S (ew_calls w)) in
  match ee_emit env (ew_calls w) with
  | IoOk => (Ok tt, w' true)
  | IoFail => (Err ErrEmit, w' false)
  | IoFailCommitted => (Err ErrEmit, w' true)
  end.

Definition next_window : EM Window := fun w =>
  (Ok (hd [] (ew_windows w)),
   mkEWorld (ew_engine w) (ew_queue w) (tl (ew_windows w)) (ew_log w) (ew_arrived w) (ew_calls w)).

(** The mutex is released while the event is emitted. *)
Definition emitPendingLifecycleEvent (ev : LifecycleEvent) : EM unit :=
  do_ modify_engine (set_publishing true);;
  do r <- attempt (emit ev);;
  do window <- next_window;;
  do_ arrivals window;;
  do_ modify_engine (set_publishing false);;
  match r with Ok _ => ret tt | Err e => fail e end.

Fixpoint emit_all (l : list LifecycleEvent) : EM unit :=
  match l with
  | [] => ret tt
  | ev :: r => do_ attempt (emitPendingLifecycleEvent ev);; emit_all r
  end.

Fixpoint flush_loop (fuel : nat) : EM unit :=
  match fuel with
  | O => fail ErrOutOfFuel
  | S k =>
    do en <- get_engine;;
    match en_deferred en with
    | [] => modify_engine (set_announcing false [])
    | deferred =>
      do_ modify_engine (fun en => set_announcing (en_announcing en) [] en);;
      do_ emit_all deferred;;
      flush_loop k
    end
  end.

(** One round more than there are windows in which new events can appear. *)
Definition flushPendingEvents : EM unit := fun w => flush_loop (length (ew_windows w) + 2) w.

Definition publish_staged (ev : option LifecycleEvent) : EM unit :=
  match ev with
  | None => ret tt
  | Some ev => do_ attempt (emitPendingLifecycleEvent ev);; flushPendingEvents
  end.

Definition publishPendingEvent (ev : LifecycleEvent) : EM unit :=
  do ev <- stage ev;;
  publish_staged ev.

Definition enqueuePendingMessageWithOptions (msg : Message) (opts : PendingInputOptions) :
    EM (PendingInputStatus * PendingInputRecord * option EngineError) :=
  do r <- enqueue_message msg opts;;
  let '(status, record, err, ev) := r in
  do_ publish_staged ev;;
  ret (status, record, err).

Definition enqueuePersistedPendingMessage (record : PendingInputRecord) :
    EM (PendingInputStatus * option EngineError) :=
  do r <- enqueue_record record;;
  let '(status, err, ev) := r in
  do_ publish_staged ev;;
  ret (status, err).

(** ** Messages of the thread *)

Definition has_message (q : World) (id : string) : bool :=
  match w_thread q with
  | Some t => (id <>?s "") && bool_decide (id ∈ map m_ID (th_history t))
  | None => false
  end.

(** [threadHasMessageID]. *)
Definition threadHasMessageID (id : string) : EM bool :=
  fun w => (Ok (has_message (ew_queue w) id), w).

Definition append_thread_message (m : Message) (associated : option Event) (q : World) : World :=
  match w_thread q with
  | Some t =>
    set_thread (Some (mkThread (th_events t ++ option_list associated) (th_scope t)
                        (th_history t ++ [m]) (th_pendingInputs t))) q
  | None => q
  end.

(** [AppendAssigned]: the message and the event associated with it in one
    commit. A message without an id gets one. *)
Definition append_to_thread (m : Message) (associated : option Event) : EM Message :=
  do id <- (if m_ID m =?s "" then lift (newID (ee_queue env)) else ret "");;
  let m := if m_ID m =?s "" then with_ID ("msg-" ++ id)%string m else m in
  fun w =>
    let w' q := mkEWorld (ew_engine w) q (ew_windows w) (ew_log w) (ew_arrived w) (S (ew_calls w)) in
    match ee_append env (ew_calls w) with
    | IoOk => (Ok m, w' (append_thread_message m associated (ew_queue w)))
    | IoFail => (Err ErrAppend, w' (ew_queue w))
    | IoFailCommitted => (Err ErrAppend, w' (append_thread_message m associated (ew_queue w)))
    end.

Definition appendInputMessage (m : Message) : EM Message :=
  do missing <- queue_missing;;
  do associated <- (if missing : bool then ret None
                    else lift (inputAssociation (ee_queue env) m));;
  append_to_thread m associated.

(** [projectMessageLocked]: the message, and whether something was projected. *)
Definition projectMessageLocked (m : Message) : EM (Message * bool) :=
  do id <- (if (m_ID m =?s "") && ee_CompactionEnabled env
            then lift (newID (ee_queue env)) else ret "");;
  let m := if (m_ID m =?s "") && ee_CompactionEnabled env then with_ID ("msg-" ++ id)%string m else m in
  do p <- draw_outcome (ee_project env);;
  match p with
  | None => fail ErrProjection
  | Some None => ret (m, false)
  | Some (Some blocks) => ret (with_Blocks blocks m, true)
  end.

Definition emitProjectionApplied (turn : string) (projected : bool) : EM unit :=
  if projected then emit (ProjectionApplied turn) else ret tt.

(** [ApplyTurnInputPolicies]. *)
Definition applyTurnInputPolicies (m : Message) : EM Message :=
  do p <- draw_outcome (ee_policy env);;
  match p with
  | None => fail ErrPolicy
  | Some None => ret m
  | Some (Some blocks) => ret (with_Blocks blocks m)
  end.

(** [prepareAdmittedInput]: an input without a record looks for one. *)
Definition prepareAdmittedInput (input_id : string) : EM unit :=
  do missing <- queue_missing;;
  do_ (if (input_id =?s "") && negb missing
       then do_ lift (Records (ee_queue env));; ret tt else ret tt);;
  do ok <- draw_outcome (ee_prepare env);;
  if ok : bool then ret tt else fail ErrPreparation.

(** A method of the queue, skipped when there is none. *)
Definition on_queue (m : M unit) : EM unit :=
  do missing <- queue_missing;;
  if missing : bool then ret tt else lift m.

Definition markPendingInputMessageProcessed (m : Message) : EM unit :=
  if m_ID m =?s "" then ret tt else on_queue (MarkMessageProcessed (ee_queue env) m).

Definition appendRecoveredTurnInputLocked (m : Message) : EM unit :=
  do persisted <- appendInputMessage m;;
  markPendingInputMessageProcessed persisted.

Definition with_PolicyBlocked (m : Message) : Message :=
  mkMessage (m_ID m) (m_Role m) (m_Blocks m) (m_Kind m) true (m_Model m) (m_Compaction m).

(** Runs [m]; after an error of [m] runs [persist] and returns both errors. *)
Definition persist_after {A} (m : EM A) (persist : EM unit) : EM A :=
  do r <- attempt m;;
  match r with
  | Ok a => ret a
  | Err e =>
    do p <- attempt persist;;
    fail (join_error e (error_of p))
  end.

Definition restoreAcceptedTurnInputLocked (turn record_id : string) (original : Message) : EM unit :=
  do_ prepareAdmittedInput record_id;;
  do message <- persist_after (applyTurnInputPolicies original)
                  (appendRecoveredTurnInputLocked (with_PolicyBlocked original));;
  do p <- persist_after (projectMessageLocked message) (appendRecoveredTurnInputLocked message);;
  do_ persist_after (emitProjectionApplied turn p.2) (appendRecoveredTurnInputLocked message);;
  appendRecoveredTurnInputLocked p.1.

(** ** Draining *)

Definition pendingRecordIDs (pending : list queuedPendingInput) : list string :=
  foldl (fun ids it =>
    if (it_RecordID it =?s "") || bool_decide (it_RecordID it ∈ ids) then ids
    else ids ++ [it_RecordID it]) [] pending.

Definition append_unique
    (st : list queuedPendingInput * list string * list string) (it : queuedPendingInput) :
    list queuedPendingInput * list string * list string :=
  let '(merged, records, messages) := st in
  if (it_RecordID it <>?s "") && bool_decide (it_RecordID it ∈ records) then st
  else if (m_ID (it_Message it) <>?s "") && bool_decide (m_ID (it_Message it) ∈ messages) then st
  else (merged ++ [it],
        if it_RecordID it <>?s "" then it_RecordID it :: records else records,
        if m_ID (it_Message it) <>?s "" then m_ID (it_Message it) :: messages else messages).

Definition merge_pending (pending current : list queuedPendingInput) : list queuedPendingInput :=
  (foldl append_unique ([], [], []) (pending ++ current)).1.1.

Definition prependPendingInput (pending : list queuedPendingInput) : EM unit :=
  match pending with
  | [] => ret tt
  | _ => modify_engine (fun en => set_pending (merge_pending pending (en_pendingInput en)) en)
  end.

Definition beginPendingInputDrain (turn : string) (count : Z) (ids : list string) : EM unit :=
  do en <- get_engine;;
  do_ modify_engine (fun en => set_announcing true (en_deferred en) en);;
  do_ attempt (emitPendingLifecycleEvent
    (InputDraining turn ids count (Z.of_nat (length (en_pendingInput en))) effectiveMaxPendingInputs));;
  flushPendingEvents.

Definition finishPendingInputDrain (turn : string) (count : Z) (ids : list string) : EM unit :=
  do en <- get_engine;;
  publishPendingEvent
    (InputDrained turn ids count (Z.of_nat (length (en_pendingInput en))) effectiveMaxPendingInputs).

(** The loop of [commitPendingInputBatchLocked]: the records it processed. *)
Fixpoint commit_items (turn : string) (pending : list queuedPendingInput) (processed : list string) :
    EM (list string) :=
  match pending with
  | [] => ret processed
  | it :: rest =>
    let processed' := if it_RecordID it =?s "" then processed else processed ++ [it_RecordID it] in
    do known <- threadHasMessageID (m_ID (it_Message it));;
    if known : bool then commit_items turn rest processed'
    else
      do p <- projectMessageLocked (it_Message it);;
      do_ emitProjectionApplied turn p.2;;
      do_ prepareAdmittedInput (it_RecordID it);;
      do_ appendInputMessage p.1;;
      commit_items turn rest processed'
  end.

Definition commitPendingInputBatchLocked (turn : string) (pending : list queuedPendingInput) :
    EM unit :=
  match pending with
  | [] => ret tt
  | _ =>
    let ids := pendingRecordIDs pending in
    let count := Z.of_nat (length pending) in
    do_ beginPendingInputDrain turn count ids;;
    do_ on_queue (MarkAdmitted (ee_queue env) ids turn);;
    do processed <- commit_items turn pending [];;
    do_ on_queue (MarkProcessed (ee_queue env) processed);;
    finishPendingInputDrain turn count ids
  end.

(** Commits the inputs waiting in [queued]; when that fails, they go back in
    front of the inputs that arrived meanwhile, with [rest] behind them. *)
Definition flush_queued (turn : string) (queued rest : list queuedPendingInput) : EM unit :=
  do r <- attempt (commitPendingInputBatchLocked turn queued);;
  match r with
  | Ok _ => ret tt
  | Err e => do_ prependPendingInput (queued ++ rest);; fail e
  end.

(** An input of a turn that a recovery took over: one drain of its own. *)
Definition commit_turn_input (turn : string) (it : queuedPendingInput) : EM unit :=
  let ids := pendingRecordIDs [it] in
  let on_record m := if it_RecordID it =?s "" then ret tt else on_queue m in
  do_ beginPendingInputDrain turn 1 ids;;
  do_ on_record (MarkAdmitted (ee_queue env) [it_RecordID it] turn);;
  do known <- threadHasMessageID (m_ID (it_Message it));;
  if known : bool then on_record (MarkProcessed (ee_queue env) [it_RecordID it])
  else restoreAcceptedTurnInputLocked turn (it_RecordID it) (it_Message it).

(** The loop of [commitPendingInputSequenceLocked]. *)
Fixpoint commit_sequence (turn : string) (pending queued : list queuedPendingInput) : EM unit :=
  match pending with
  | [] => flush_queued turn queued []
  | it :: rest =>
    if negb (bool_decide (it_Origin it = OriginTurn)) then
      commit_sequence turn rest (queued ++ [it])
    else
      do_ flush_queued turn queued (it :: rest);;
      do r <- attempt (commit_turn_input turn it);;
      match r with
      | Err e => do_ prependPendingInput (it :: rest);; fail e
      | Ok _ =>
        do_ finishPendingInputDrain turn 1 (pendingRecordIDs [it]);;
        commit_sequence turn rest []
      end
  end.

Definition commitPendingInputSequenceLocked (turn : string) (pending : list queuedPendingInput) :
    EM unit :=
  commit_sequence turn pending [].

Definition drainPendingInputLifecycleLocked (turn : string) : EM unit :=
  do en <- get_engine;;
  do_ modify_engine (set_pending []);;
  commitPendingInputSequenceLocked turn (en_pendingInput en).

(** ** Closing a turn *)

Definition finishActiveTurn (turn : string) : EM unit :=
  modify_engine (fun en => if en_activeTurnID en =?s turn then set_active "" en else en).

Definition markTurnExecutionStarted (turn : string) : EM unit :=
  modify_engine (fun en => if en_activeTurnID en =?s turn then set_executing turn en else en).

Definition finishTurnExecution (turn : string) : EM unit :=
  modify_engine (fun en => if en_executingTurnID en =?s turn then set_executing "" en else en).

Definition beginTerminalPublication (turn : string) : EM unit :=
  modify_engine (fun en =>
    set_terminal turn (if en_activeTurnID en =?s turn then set_active "" en else en)).

Definition finishTerminalPublication (turn : string) : EM unit :=
  modify_engine (fun en => if en_terminalPublishing en =?s turn then set_terminal "" en else en).

Definition rollbackTerminalPublication (turn : string) : EM unit :=
  modify_engine (fun en =>
    if en_terminalPublishing en =?s turn then
      set_terminal "" (if en_activeTurnID en =?s "" then set_active turn en else en)
    else en).

Definition activeTurnHasNoPending (turn : string) : EM bool :=
  do en <- get_engine;;
  ret (if negb (en_activeTurnID en =?s turn) then true
       else match en_pendingInput en with [] => true | _ => false end).

(** The outcome of [repairTranscriptLocked], which the environment gives: the tail
    of the transcript could be repaired, and the events of the repair committed.
    What a repair appends is the matter of [ProtocolRepair]. *)
Definition repair_outcome : EM unit :=
  do ok <- draw_outcome (ee_repair env);;
  if ok : bool then ret tt else fail ErrRepair.

(** The loop of [preservePendingInputAfterFailureLocked]. *)
Fixpoint preserve_loop (fuel : nat) (repaired : bool) (turn : string) : EM unit :=
  match fuel with
  | O => fail ErrOutOfFuel
  | S k =>
    do en <- get_engine;;
    if negb (en_activeTurnID en =?s turn) then ret tt
    else match en_pendingInput en with
    | [] => modify_engine (set_active "")
    | _ =>
      do_ (if repaired then ret tt else repair_outcome);;
      do_ drainPendingInputLifecycleLocked turn;;
      preserve_loop k true turn
    end
  end.

(** A round that drains inputs publishes an event, and inputs arrive only in
    publications. *)
Definition preservePendingInputAfterFailureLocked (turn : string) : EM unit :=
  fun w => preserve_loop (length (ew_windows w) + 2) false turn w.

Fixpoint drain_loop (fuel : nat) (turn : string) : EM unit :=
  match fuel with
  | O => fail ErrOutOfFuel
  | S k =>
    do en <- get_engine;;
    match en_pendingInput en with
    | [] => ret tt
    | _ =>
      if negb (en_activeTurnID en =?s turn) then ret tt
      else do_ drainPendingInputLifecycleLocked turn;; drain_loop k turn
    end
  end.

Definition drainPendingInputUntilEmptyLifecycleLocked (turn : string) : EM unit :=
  fun w => drain_loop (length (ew_windows w) + 2) turn w.

(** Inputs that arrived behind the one whose promotion failed. *)
Definition restorePendingInputAfterPromotionTrigger (pending : list queuedPendingInput) : EM unit :=
  match pending with
  | [] => ret tt
  | _ =>
    modify_engine (fun en =>
      set_pending (match en_pendingInput en with
                   | [] => pending
                   | first :: rest => first :: pending ++ rest
                   end) en)
  end.

Fixpoint promotion_loop (fuel : nat) (repaired : bool) (turn : string) : EM unit :=
  match fuel with
  | O => fail ErrOutOfFuel
  | S k =>
    do en <- get_engine;;
    match en_pendingInput en with
    | first :: (_ :: _) as pending =>
      if negb (en_activeTurnID en =?s turn) then ret tt
      else
        do_ modify_engine (set_pending [first]);;
        do r <- attempt (do_ (if repaired then ret tt else repair_outcome);;
                         commitPendingInputBatchLocked turn pending);;
        match r with
        | Ok _ => promotion_loop k true turn
        | Err e => do_ restorePendingInputAfterPromotionTrigger pending;; fail e
        end
    | _ => ret tt
    end
  end.

Definition preservePendingInputAfterFailedPromotionLocked (turn : string) : EM unit :=
  fun w => promotion_loop (length (ew_windows w) + 2) false turn w.

(** *** Terminal events *)

Definition terminal_event (id : string) (completed : bool) (turn : string) (ids : list string)
    (cause : EngineError) : Event :=
  mkEvent id (if completed then "turn.completed" else "turn.errored")%string turn
    (if completed then TerminalPayload ids "" ""
     else TerminalPayload ids (ee_payload env cause).1 (ee_payload env cause).2).

Definition pendingInputIDsForTurn (turn : string) : EM (list string) :=
  do missing <- queue_missing;;
  if missing : bool then ret [] else lift (InputIDsForTurn (ee_queue env) turn).

(** [recordTurnCompletionForPublication], [recordTurnErrorForPublication]. *)
Definition recordTurnEnd (completed : bool) (turn : string) (cause : EngineError) : EM Event :=
  do ids <- pendingInputIDsForTurn turn;;
  do id <- lift (newID (ee_queue env));;
  let ev := terminal_event id completed turn ids cause in
  do_ emit (TurnEnded ev);;
  ret ev.

(** The deferred [finishTerminalPublication] runs on every way out. *)
Definition publishTerminalEvent (turn : string) (ev : Event) : EM unit :=
  do r <- attempt (on_queue (ApplyTerminalEvent (ee_queue env) ev));;
  do_ finishTerminalPublication turn;;
  match r with Ok _ => ret tt | Err e => fail e end.

Definition commitAndPublishTurnError (turn : string) (cause : EngineError) : EM unit :=
  do r <- attempt (recordTurnEnd false turn cause);;
  match r with
  | Err e => do_ finishTerminalPublication turn;; fail e
  | Ok ev => publishTerminalEvent turn ev
  end.

Definition stageTurnErrorLocked (turn : string) (cause : EngineError) : EM EngineError :=
  do_ beginTerminalPublication turn;;
  ret (ErrStaged turn cause).

(** [errors.As] for the staged error. *)
Fixpoint staged_in (e : EngineError) : option (string * EngineError) :=
  match e with
  | ErrStaged turn cause => Some (turn, cause)
  | ErrJoin e1 e2 => match staged_in e1 with Some s => Some s | None => staged_in e2 end
  | _ => None
  end.

(** The end of the methods that may stage an error: it is published once the
    mutex is released. *)
Definition publishStagedTerminalError (e : EngineError) : EM EngineError :=
  match staged_in e with
  | None => ret e
  | Some (turn, cause) =>
    do r <- attempt (commitAndPublishTurnError turn cause);;
    ret (join_error e (error_of r))
  end.

Definition with_staged {A} (m : EM A) : EM A :=
  do r <- attempt m;;
  match r with
  | Ok a => ret a
  | Err e => do e' <- publishStagedTerminalError e;; fail e'
  end.

(** ** Starting a turn *)

(** A deferred call: [last] runs on every way out of [m]. *)
Definition deferred {A} (m : EM A) (last : EM unit) : EM A :=
  do r <- attempt m;;
  do_ last;;
  match r with Ok a => ret a | Err e => fail e end.

Definition preservePendingInputBeforeFailedReservationReleaseLocked (turn : string)
    (cause : EngineError) : EM EngineError :=
  do r <- attempt (preservePendingInputAfterFailureLocked turn);;
  do_ finishActiveTurn turn;;
  ret (join_error cause (error_of r)).

Definition refuse_while_closing (en : Engine) (turn : string) : bool :=
  (en_terminalPublishing en <>?s "") || en_publishing en ||
  ((en_activeTurnID en <>?s "") && (en_activeTurnID en <>?s turn)).

(** What follows a new admission: its event, then the state of its record. *)
Definition commit_admission (turn : string) (record : PendingInputRecord) : EM PendingInputRecord :=
  let created := bool_decide (r_Origin record = OriginTurn) &&
                 state_eqb (r_State record) StateAccepting && (r_TurnID record =?s turn) in
  let drop := if created then attempt (lift (MarkDropped (ee_queue env) [r_ID record]))
              else ret (Ok tt) in
  do r <- attempt (emitPendingLifecycleEvent (TurnAdmitted turn (r_MessageID record) false));;
  match r with
  | Err e =>
    do d <- drop;;
    do e' <- preservePendingInputBeforeFailedReservationReleaseLocked turn
               (join_error e (error_of d));;
    fail e'
  | Ok _ =>
    do c <- attempt (lift (CommitTurnInput (ee_queue env) (r_ID record) turn));;
    match c with
    | Err e =>
      do d <- drop;;
      do e' <- preservePendingInputBeforeFailedReservationReleaseLocked turn
                 (join_error e (error_of d));;
      do staged <- stageTurnErrorLocked turn e';;
      fail staged
    | Ok _ =>
      ret (with_ExpiresAt 0 (with_TurnID turn (with_State StateAdmitted (with_Origin OriginTurn record))))
    end
  end.

Definition admitTurnMessage (turn : string) (msg : Message) : EM PendingInputRecord :=
  do en <- get_engine;;
  if en_maintenanceReserved en then fail ErrMaintenance
  else if turn =?s "" then fail ErrEmptyTurnID
  else
    do missing <- queue_missing;;
    if missing : bool then fail ErrNoQueue
    else if refuse_while_closing en turn then fail ErrActiveTurnExists
    else
      do record <- lift (StageTurnInput (ee_queue env) turn (ClassifyUserMessage msg)
                           (en_activeTurnID en =?s turn));;
      if en_activeTurnID en =?s "" then
        do_ modify_engine (fun en => set_announcing true (en_deferred en) (set_active turn en));;
        deferred (commit_admission turn record) flushPendingEvents
      else
        do_ modify_engine (set_active turn);;
        ret record.

Definition admitTurnMessageForExecution (turn : string) (msg : Message) : EM Message :=
  with_staged (
    do record <- admitTurnMessage turn msg;;
    do_ markTurnExecutionStarted turn;;
    ret (r_Message record)).

(** [reserveTurnID], for a turn without an input or for a compaction. *)
Definition reserveTurnID (turn : string) (compaction : bool) : EM unit :=
  do en <- get_engine;;
  if en_maintenanceReserved en then fail ErrMaintenance
  else if turn =?s "" then fail ErrEmptyTurnID
  else if refuse_while_closing en turn then fail ErrActiveTurnExists
  else if en_activeTurnID en =?s "" then
    do_ modify_engine (fun en => set_announcing true (en_deferred en) (set_active turn en));;
    deferred (
      do r <- attempt (emitPendingLifecycleEvent (TurnAdmitted turn "" compaction));;
      match r with
      | Ok _ => ret tt
      | Err e => do e' <- preservePendingInputBeforeFailedReservationReleaseLocked turn e;; fail e'
      end) flushPendingEvents
  else modify_engine (set_active turn).

Definition pendingInputTurnID (prefix : string) : EM string :=
  do id <- lift (newID (ee_queue env));;
  ret (prefix ++ "-" ++ id)%string.

(** [promotePendingInputTurn]: the oldest input waiting behind [current] starts
    the turn [next]; [None] when there is none. *)
Definition promotePendingInputTurn (current next : string) : EM (option queuedPendingInput) :=
  if next =?s "" then ret None
  else
    do en <- get_engine;;
    if (en_terminalPublishing en <>?s "") || en_publishing en then fail ErrActiveTurnExists
    else
      match en_pendingInput en with
      | [] =>
        do_ finishActiveTurn current;;
        ret None
      | it :: _ =>
        if negb (en_activeTurnID en =?s current) then ret None
        else
          do_ modify_engine (fun en => set_announcing true (en_deferred en) (set_active next en));;
          let abandon e :=
            do r <- attempt (preservePendingInputAfterFailedPromotionLocked next);;
            do_ finishActiveTurn next;;
            ret (join_error e (error_of r)) in
          deferred (
            do r <- attempt (emitPendingLifecycleEvent
                      (TurnAdmitted next (m_ID (it_Message it)) false));;
            match r with
            | Err e => do e' <- abandon e;; fail e'
            | Ok _ =>
              do p <- attempt (if it_RecordID it =?s "" then ret tt
                       else on_queue (PromoteToTurnInput (ee_queue env) [it_RecordID it] next));;
              match p with
              | Err e =>
                do e' <- abandon e;;
                do staged <- stageTurnErrorLocked next e';;
                fail staged
              | Ok _ =>
                do_ modify_engine (fun en => set_pending (tl (en_pendingInput en)) en);;
                do en <- get_engine;;
                do_ attempt (emitPendingLifecycleEvent
                  (InputPromoted next (filter (fun id => id <> ""%string) [it_RecordID it])
                     (Z.of_nat (length (en_pendingInput en))) effectiveMaxPendingInputs));;
                ret (Some it)
              end
            end) flushPendingEvents
      end.

(** ** Receiving an input *)

Definition result_with (d : PendingInputDisposition) (r : PendingInputRetry) (id turn : string)
    (m : Message) (st : PendingInputStatus) : PendingInputResult := mkResult d r id turn m st.

Definition no_result : PendingInputResult :=
  mkResult PendingInputNone PendingInputNoRetry "" "" zeroMessage (mkStatus "" 0 0).

(** The result and the error of a call that returns both. *)
Definition Returned : Type := PendingInputResult * option EngineError.

Definition started (id turn : string) (m : Message) : EM Returned :=
  do st <- engine_status;;
  ret (mkResult PendingInputStarted PendingInputNoRetry id turn m st, None).

Definition queued_result (retry : PendingInputRetry) (id : string) (st : PendingInputStatus)
    (e : option EngineError) : Returned :=
  (mkResult PendingInputQueued retry id "" zeroMessage st, e).

Definition plain_result (d : PendingInputDisposition) (id : string) (st : PendingInputStatus)
    (e : option EngineError) : Returned :=
  (mkResult d PendingInputNoRetry id "" zeroMessage st, e).

Definition storage_result (id : string) (st : PendingInputStatus) (e : EngineError) : Returned :=
  (mkResult PendingInputNone PendingInputRetryAfterStorage id "" zeroMessage st, Some e).

(** The two rounds of [receiveNewPendingInput]. *)
Fixpoint receive_new (rounds : nat) (msg : Message) (requireStart : bool) : EM Returned :=
  match rounds with
  | O =>
    do st <- engine_status;;
    ret (mkResult PendingInputNone PendingInputNoRetry "" "" zeroMessage st, Some ErrTurnChanged)
  | S k =>
    do st <- engine_status;;
    if st_TurnID st <>?s "" then
      if requireStart then
        ret (mkResult PendingInputNone PendingInputNoRetry "" "" zeroMessage st,
             Some ErrActiveTurnExists)
      else
        do r <- enqueuePendingMessageWithOptions msg (mkOptions "" 0);;
        let '(st, record, err) := r in
        match err with
        | Some e =>
          if error_is is_no_active e then receive_new k msg requireStart
          else ret (queued_result (if error_is is_queue_full e then PendingInputRetryAfterTurn
                                   else PendingInputNoRetry) (r_ID record) st (Some e))
        | None => ret (queued_result PendingInputNoRetry (r_ID record) st None)
        end
    else
      do turn <- pendingInputTurnID "turn";;
      do a <- attempt (admitTurnMessage turn msg);;
      match a with
      | Ok record => started (r_ID record) turn (r_Message record)
      | Err e =>
        if error_is is_active_exists e then receive_new k msg requireStart
        else ret (no_result, Some e)
      end
  end.

Definition receiveNewPendingInput (msg : Message) (requireStart : bool) : EM Returned :=
  receive_new 2 (ClassifyUserMessage msg) requireStart.

(** [pendingInputCompleted]. *)
Definition pendingInputCompleted (id : string) : EM bool :=
  do missing <- queue_missing;;
  if missing : bool then ret false else lift (Completed (ee_queue env) id).

(** Reads the record [id] again after an enqueue that ended with [e]. *)
Definition reread (id : string) (st : PendingInputStatus) (e : option EngineError)
    (k : PendingInputRecord -> Returned) : EM Returned :=
  do r <- attempt (persistedPendingMessage id);;
  match r with
  | Ok current => ret (k (default zeroRecord current))
  | Err e' => ret (storage_result id st (match e with Some e => ErrJoin e e' | None => e' end))
  end.

(** [pendingInputEnqueueRetry]. *)
Definition enqueue_retry (e : EngineError) : PendingInputRetry :=
  match e with ErrCancelled => PendingInputNoRetry | _ => PendingInputRetryAfterStorage end.

(** The two rounds of [receivePersistedPendingInput]. *)
Fixpoint receive_persisted (rounds : nat) (record : PendingInputRecord) : EM Returned :=
  match rounds with
  | O =>
    do st <- engine_status;;
    ret (queued_result PendingInputRetryAfterTurn (r_ID record) st (Some ErrTurnChanged))
  | S k =>
    do r <- enqueuePersistedPendingMessage record;;
    let '(st, err) := r in
    match err with
    | None => reread (r_ID record) st None (fun c => queued_result PendingInputNoRetry (r_ID c) st None)
    | Some e =>
      if error_is is_queue_full e then
        reread (r_ID record) st err (fun c => queued_result PendingInputRetryAfterTurn (r_ID c) st err)
      else if error_is is_expired e then
        reread (r_ID record) st err (fun c => plain_result PendingInputExpired (r_ID c) st err)
      else if error_is is_handled e then
        reread (r_ID record) st err (fun c =>
          plain_result (if state_eqb (r_State c) StateProcessed then PendingInputProcessed
                        else PendingInputDropped) (r_ID c) st err)
      else if negb (error_is is_no_active e) then
        ret (mkResult PendingInputNone (enqueue_retry e) (r_ID record) "" zeroMessage st, err)
      else
        do turn <- pendingInputTurnID "turn";;
        do a <- attempt (admitTurnMessage turn (r_Message record));;
        match a with
        | Ok accepted => started (r_ID record) turn (r_Message accepted)
        | Err e =>
          if error_is is_active_exists e then receive_persisted k record
          else
            do c <- attempt (persistedPendingMessage (r_ID record));;
            match c with
            | Ok current =>
              ret (queued_result PendingInputRetryAdmission (r_ID (default zeroRecord current))
                     (mkStatus "" 0 0) (Some e))
            | Err e' =>
              do st <- engine_status;;
              ret (queued_result PendingInputRetryAfterStorage (r_ID record) st (Some (ErrJoin e e')))
            end
        end
    end
  end.

Definition receivePersistedPendingInput (id : string) : EM Returned :=
  do r <- attempt (persistedPendingMessage id);;
  match r with
  | Err e => ret (storage_result id (mkStatus "" 0 0) e)
  | Ok None =>
    do c <- attempt (pendingInputCompleted id);;
    match c with
    | Err e => ret (storage_result id (mkStatus "" 0 0) e)
    | Ok true =>
      do st <- engine_status;;
      ret (plain_result PendingInputProcessed id st None)
    | Ok false => ret (no_result, Some (ErrInputNotFound id))
    end
  | Ok (Some record) =>
    let zero := mkStatus "" 0 0 in
    do st <- engine_status;;
    let of_turn := (r_TurnID record <>?s "") && (r_TurnID record =?s st_TurnID st) in
    if state_eqb (r_State record) StateDeadLettered then
      ret (plain_result PendingInputProcessed (r_ID record) zero None)
    else if state_eqb (r_State record) StateExpired then
      ret (plain_result PendingInputExpired (r_ID record) zero (Some ErrPendingInputExpired))
    else if state_eqb (r_State record) StateDropped then
      ret (plain_result PendingInputDropped (r_ID record) zero (Some ErrInputHandled))
    else if state_eqb (r_State record) StateProcessed && of_turn then
      ret (mkResult PendingInputProcessed PendingInputNoRetry (r_ID record) (r_TurnID record)
             zeroMessage st, None)
    else if state_eqb (r_State record) StateAdmitted && of_turn then
      ret (queued_result PendingInputNoRetry (r_ID record) st None)
    else receive_persisted 2 record
  end.

(** The start-or-queue decision behind the checks of [receivePendingInput]. *)
Definition receive_checked (request : PendingInputRequest) : EM Returned :=
  do p <- (match rq_Options request with
           | Some opts =>
             if rq_RecordID request =?s "" then
               do r <- attempt (persistPendingMessage (rq_Message request) opts);;
               match r with
               | Err e => ret (inl (storage_result "" (mkStatus "" 0 0) e))
               | Ok record =>
                 if rq_DeferDelivery request then
                   do st <- engine_status;;
                   ret (inl (queued_result PendingInputRetryAfterRecovery (r_ID record) st None))
                 else ret (inr (r_ID record))
               end
             else ret (inr (rq_RecordID request))
           | None => ret (inr (rq_RecordID request))
           end);;
  match p with
  | inl returned => ret returned
  | inr id =>
    do en <- get_engine;;
    if en_terminalPublishing en <>?s "" then
      ret (mkResult (if id <>?s "" then PendingInputQueued else PendingInputNone)
             PendingInputRetryAfterTurn id "" zeroMessage (terminal_status en),
           Some ErrActiveTurnExists)
    else if id <>?s "" then receivePersistedPendingInput id
    else receiveNewPendingInput (rq_Message request) (rq_RequireStart request)
  end.

(** Hands the interrupted inputs of a turn to the retry: the result that ends
    the call, if any, and what it took over. *)
Definition take_retried (request : PendingInputRequest) :
    EM (option Returned * list PendingInputRecord) :=
  let refused retry st e :=
    (Some (mkResult PendingInputNone retry "" "" zeroMessage st, Some e)) in
  if rq_RetryTurnID request =?s "" then ret (None, [])
  else if m_Kind (rq_Message request) <>?s MessageKindSystemNotice then
    ret (Some (no_result, Some ErrRetryKind), [])
  else
    do st <- engine_status;;
    if st_TurnID st <>?s "" then ret (refused PendingInputRetryAfterTurn st ErrActiveTurnExists, [])
    else
      do missing <- queue_missing;;
      if missing : bool then ret (None, [])
      else
        do r <- (fun w : EWorld =>
          let '(retried, err, q) := retryTurnInputs (ee_queue env) (rq_RetryTurnID request) (ew_queue w) in
          (Ok (retried, err), set_ew_queue q w));;
        let '(retried, err) := r in
        match err with
        | Some e => ret (refused PendingInputRetryAfterStorage st (ErrQueue e), retried)
        | None => ret (None, retried)
        end.

Definition with_retry (r : PendingInputRetry) (rs : PendingInputResult) : PendingInputResult :=
  mkResult (rs_Disposition rs) r (rs_RecordID rs) (rs_TurnID rs) (rs_Message rs) (rs_Status rs).

(** The rollback when the retry did not start a turn. *)
Definition restore_retried (retried : list PendingInputRecord) (returned : Returned) : EM Returned :=
  let '(rs, err) := returned in
  match retried with
  | [] => ret returned
  | _ =>
    if bool_decide (err <> None) || negb (bool_decide (rs_Disposition rs = PendingInputStarted)) then
      do r <- attempt (lift (restoreRetriedInputs (ee_queue env) retried));;
      match r with
      | Ok _ => ret returned
      | Err e => ret (with_retry PendingInputRetryAfterStorage rs,
                      Some (match err with Some e0 => ErrJoin e0 e | None => e end))
      end
    else ret returned
  end.

Definition receive_locked (request : PendingInputRequest) (claim : bool) : EM Returned :=
  do cancelled <- draw_outcome (ee_cancelled env);;
  do en <- get_engine;;
  if cancelled : bool then
    ret (plain_result PendingInputNone (rq_RecordID request) (mkStatus "" 0 0) (Some ErrCancelled))
  else if en_maintenanceReserved en then
    ret (plain_result PendingInputNone (rq_RecordID request) (mkStatus "" 0 0) (Some ErrMaintenance))
  else
    do t <- take_retried request;;
    let '(refused, retried) := t in
    do returned <- (match refused with
                    | Some returned => ret returned
                    | None =>
                      do returned <- receive_checked request;;
                      do_ (if claim && bool_decide (rs_Disposition returned.1 = PendingInputStarted)
                           then markTurnExecutionStarted (rs_TurnID returned.1) else ret tt);;
                      ret returned
                    end);;
    restore_retried retried returned.

Definition receivePendingInput (request : PendingInputRequest) (claim : bool) : EM Returned :=
  do cancelled <- draw_outcome (ee_cancelled env);;
  if cancelled : bool then ret (no_result, Some ErrCancelled)
  else
    do returned <- receive_locked request claim;;
    match returned with
    | (rs, Some e) =>
      do e' <- publishStagedTerminalError e;;
      ret (rs, Some e')
    | (rs, None) => ret (rs, None)
    end.

Definition ReceivePendingInput (request : PendingInputRequest) : EM Returned :=
  receivePendingInput request false.

(** ** Results, withdrawal, compaction, maintenance *)

Definition state_result (r : PendingInputRecord) (st : PendingInputStatus)
    (cause : option EngineError) : Returned :=
  let joined e := Some (match cause with Some c => ErrJoin c e | None => e end) in
  let result d e := plain_result d (r_ID r) st e in
  match r_State r with
  | StateProcessed | StateDeadLettered => result PendingInputProcessed cause
  | StateAccepting | StatePending | StateAdmitted | StateRetryable =>
    (mkResult PendingInputQueued
       (match cause with Some _ => PendingInputRetryAfterTurn | None => PendingInputNoRetry end)
       (r_ID r) "" zeroMessage st, cause)
  | StateExpired => result PendingInputExpired (joined ErrPendingInputExpired)
  | StateDropped => result PendingInputDropped (joined ErrInputHandled)
  | _ => result PendingInputNone (joined (ErrUnknownState (r_ID r)))
  end.

Definition ResolvePendingInput (id : string) (cause : option EngineError) : EM Returned :=
  let joined e := match cause with Some c => ErrJoin c e | None => e end in
  do r <- attempt (persistedPendingMessage id);;
  do st <- engine_status;;
  match r with
  | Err e => ret (storage_result id st (joined e))
  | Ok None =>
    do c <- attempt (pendingInputCompleted id);;
    match c with
    | Err e => ret (storage_result id st (joined e))
    | Ok true => ret (plain_result PendingInputProcessed id st cause)
    | Ok false => ret (no_result, Some (joined (ErrInputNotFound id)))
    end
  | Ok (Some record) => ret (state_result record st cause)
  end.

(** [removePendingInputRecord]: how many items it removed. *)
Definition removePendingInputRecord (id : string) : EM Z :=
  do en <- get_engine;;
  let kept := filter (fun it => it_RecordID it <> id) (en_pendingInput en) in
  do_ modify_engine (set_pending kept);;
  ret (Z.of_nat (length (en_pendingInput en)) - Z.of_nat (length kept)).

(** The error of a turn whose input was withdrawn before it was executed:
    [recordTurnErrorForPublication] and [publishTerminalEvent]. *)
Definition close_discarded (turn id : string) (st : PendingInputStatus) : EM (option Returned) :=
  let dropped e st :=
    ret (Some (mkResult PendingInputDropped PendingInputRetryAfterStorage id "" zeroMessage st, Some e)) in
  do_ beginTerminalPublication turn;;
  do r <- attempt (recordTurnEnd false turn (ErrJoin (ErrDiscarded id) ErrInputHandled));;
  match r with
  | Err e =>
    do_ rollbackTerminalPublication turn;;
    do st <- engine_status;;
    dropped e st
  | Ok ev =>
    do p <- attempt (publishTerminalEvent turn ev);;
    do st <- engine_status;;
    match p with
    | Err e => dropped e st
    | Ok _ => ret None
    end
  end.

(** The last lines of [DiscardPendingInput]. *)
Definition discarded_result (id : string) : EM Returned :=
  do r <- attempt (persistedPendingMessage id);;
  do st <- engine_status;;
  match r with
  | Err e => ret (storage_result id st e)
  | Ok None => ret (plain_result PendingInputDropped id st None)
  | Ok (Some record) =>
    ret (plain_result
           (match r_State record with
            | StateProcessed | StateDeadLettered => PendingInputProcessed
            | StateExpired => PendingInputExpired
            | _ => PendingInputDropped
            end) (r_ID record) st None)
  end.

(** What [DiscardPendingInput] does with a record it may withdraw. *)
Definition withdraw (id : string) (previous : PendingInputRecord) (existed : bool)
    (active : PendingInputStatus) : EM Returned :=
  let invalidate := existed && bool_decide (r_Origin previous = OriginTurn) &&
    (state_eqb (r_State previous) StateAdmitted || state_eqb (r_State previous) StateDropped) &&
    (r_TurnID previous <>?s "") && (st_TurnID active =?s r_TurnID previous) in
  do d <- attempt (if invalidate then ret tt else on_queue (MarkDropped (ee_queue env) [id]));;
  match d with
  | Err e =>
    ret (mkResult PendingInputNone PendingInputRetryAfterStorage "" "" zeroMessage
           (mkStatus "" 0 0), Some e)
  | Ok _ =>
    do removed <- removePendingInputRecord id;;
    do st <- engine_status;;
    do_ (if 0 <? removed then
           publishPendingEvent (InputDropped
             (if r_TurnID previous <>?s "" then r_TurnID previous else st_TurnID st)
             removed (st_PendingCount st) effectiveMaxPendingInputs)
         else ret tt);;
    if invalidate then
      do p <- attempt (drainPendingInputUntilEmptyLifecycleLocked (r_TurnID previous));;
      match p with
      | Err e =>
        do st <- engine_status;;
        ret (mkResult PendingInputDropped PendingInputRetryAfterStorage id "" zeroMessage st, Some e)
      | Ok _ =>
        do c <- close_discarded (r_TurnID previous) id st;;
        match c with
        | Some returned => ret returned
        | None => discarded_result id
        end
      end
    else discarded_result id
  end.

Definition DiscardPendingInput (id : string) : EM Returned :=
  if id =?s "" then ret (no_result, None)
  else
    do en <- get_engine;;
    if en_publishing en then
      ret (queued_result PendingInputRetryAfterTurn id (status_of en) (Some ErrActiveTurnExists))
    else
      do r <- attempt (persistedPendingMessage id);;
      match r with
      | Err e => ret (storage_result id (mkStatus "" 0 0) e)
      | Ok previous =>
        do c <- attempt (match previous with
                         | Some _ => ret false
                         | None => pendingInputCompleted id
                         end);;
        match c with
        | Err e => ret (storage_result id (mkStatus "" 0 0) e)
        | Ok true => ret (plain_result PendingInputProcessed id (status_of en) None)
        | Ok false =>
          let record := default zeroRecord previous in
          let active := status_of en in
          if bool_decide (is_Some previous) && bool_decide (r_Origin record = OriginTurn) &&
             state_eqb (r_State record) StateAdmitted && (r_TurnID record <>?s "") &&
             (st_TurnID active =?s r_TurnID record) &&
             (en_executingTurnID en =?s r_TurnID record)
          then ret (mkResult PendingInputQueued PendingInputRetryAfterTurn id (r_TurnID record)
                      zeroMessage active, Some ErrActiveTurnExists)
          else withdraw id record (bool_decide (is_Some previous)) active
        end
      end.

Definition ReservePendingInputCompaction : EM string :=
  do turn <- pendingInputTurnID "compact";;
  do_ reserveTurnID turn true;;
  ret turn.

(** [PendingInputLifecycleStatus]. *)
Definition PendingInputLifecycleStatus : EM PendingInputStatus :=
  do en <- get_engine;;
  ret (if en_terminalPublishing en <>?s "" then terminal_status en else status_of en).

Definition FinishPendingInputCompaction (compactTurnID : string) : EM PendingInputResult :=
  do next <- pendingInputTurnID "turn";;
  do item <- with_staged (promotePendingInputTurn compactTurnID next);;
  do st <- engine_status;;
  match item with
  | None => ret (mkResult PendingInputNone PendingInputNoRetry "" "" zeroMessage st)
  | Some it => ret (mkResult PendingInputStarted PendingInputNoRetry (it_RecordID it) next (it_Message it) st)
  end.

Definition unsettled_state (s : PendingInputState) : bool :=
  match s with
  | StateAccepting | StatePending | StateAdmitted | StateRetryable => true
  | _ => false
  end.

(** [busy]: the engine's own mutex is taken, by a turn that runs. *)
Definition ReserveIdleMaintenance (busy : bool) : EM unit :=
  do en <- get_engine;;
  if en_maintenanceReserved en then fail ErrMaintenance
  else if busy || (en_activeTurnID en <>?s "") ||
          negb (Z.of_nat (length (en_pendingInput en)) =? 0) || en_publishing en
  then fail ErrActiveTurnExists
  else
    do missing <- queue_missing;;
    do records <- (if missing : bool then ret ∅ else lift (Records (ee_queue env)));;
    if existsb (fun r => unsettled_state (r_State r)) (map snd (map_to_list records))
    then fail ErrActiveTurnExists
    else modify_engine (set_maintenance true).

Definition releaseMaintenance : EM unit := modify_engine (set_maintenance false).

(** ** The executing turn *)

(** [recordTurnStartLocked]. *)
Definition recordTurnStartLocked (turn : string) (m : Message) : EM unit :=
  do persisted <- appendInputMessage m;;
  do_ markPendingInputMessageProcessed persisted;;
  emit (TurnStarted turn (m_ID persisted)).

Definition queuedPendingInputsFromRecords (l : list PendingInputRecord) : list queuedPendingInput :=
  map (fun r => mkItem (r_ID r) (r_Message r) (r_Origin r)) l.

(** [mergeRecoveredPendingInputAfterCurrent]. *)
Definition mergeRecovered (recovered : list queuedPendingInput) : EM unit :=
  match recovered with
  | [] => ret tt
  | _ => fun w =>
    let keep it :=
      negb ((it_RecordID it <>?s "") && bool_decide (it_RecordID it ∈ map it_RecordID recovered)) &&
      negb (has_message (ew_queue w) (m_ID (it_Message it))) in
    modify_engine (fun en =>
      set_pending (recovered ++ List.filter keep (en_pendingInput en)) en) w
  end.

(** [markAlreadyProcessed]: the inputs found in the transcript, then the error
    of the restoration. *)
Definition mark_already_processed (turn : string) (already : list string) (cause : option EngineError) :
    EM unit :=
  let finish := match cause with Some e => fail e | None => ret tt end in
  match already with
  | [] => finish
  | _ =>
    do r <- attempt (do_ lift (MarkAdmitted (ee_queue env) already turn);;
                     lift (MarkProcessed (ee_queue env) already));;
    match r with
    | Err e => fail (match cause with Some c => ErrJoin c e | None => e end)
    | Ok _ => finish
    end
  end.

(** [flushQueued] of [restorePendingInput]. *)
Definition flush_restored (turn : string) (queued : list queuedPendingInput)
    (tail : list PendingInputRecord) : EM unit :=
  match queued with
  | [] => ret tt
  | _ =>
    do r <- attempt (do cancelled <- draw_outcome (ee_cancelled env);;
                     if cancelled : bool then fail ErrCancelled
                     else commitPendingInputBatchLocked turn queued);;
    match r with
    | Ok _ => ret tt
    | Err e =>
      do_ prependPendingInput (queued ++ queuedPendingInputsFromRecords tail);;
      fail e
    end
  end.

(** An input of an earlier turn: it is taken over and restored on its own. *)
Definition restore_turn_input (turn : string) (record : PendingInputRecord)
    (records : list PendingInputRecord) : EM unit :=
  do r <- attempt (do_ lift (MarkAdmitted (ee_queue env) [r_ID record] turn);;
                   restoreAcceptedTurnInputLocked turn (r_ID record) (r_Message record));;
  match r with
  | Ok _ => ret tt
  | Err e => do_ prependPendingInput (queuedPendingInputsFromRecords records);; fail e
  end.

(** The loop of [restorePendingInput] over the replayable records. [skip] is the
    message of the turn's own input, behind which the inputs wait. *)
Fixpoint restore_records (turn skip : string) (records : list PendingInputRecord)
    (queued : list queuedPendingInput) (already : list string) (reached : bool)
    (after : list queuedPendingInput) : EM unit :=
  match records with
  | [] =>
    do f <- attempt (flush_restored turn queued []);;
    match f with
    | Err e => mark_already_processed turn already (Some e)
    | Ok _ =>
      do m <- attempt (mark_already_processed turn already None);;
      match m with
      | Err e => do_ prependPendingInput after;; fail e
      | Ok _ => mergeRecovered after
      end
    end
  | record :: rest =>
    do known <- threadHasMessageID (r_MessageID record);;
    if (skip <>?s "") && (r_MessageID record =?s skip) then
      do f <- attempt (flush_restored turn queued records);;
      match f with
      | Err e => mark_already_processed turn already (Some e)
      | Ok _ => restore_records turn skip rest [] already true after
      end
    else if reached then
      if known : bool then restore_records turn skip rest queued (already ++ [r_ID record]) reached after
      else restore_records turn skip rest queued already reached
             (after ++ queuedPendingInputsFromRecords [record])
    else if known then
      restore_records turn skip rest queued (already ++ [r_ID record]) reached after
    else if bool_decide (r_Origin record = OriginTurn) then
      do f <- attempt (do_ flush_restored turn queued records;;
                       restore_turn_input turn record records);;
      match f with
      | Err e => mark_already_processed turn already (Some e)
      | Ok _ => restore_records turn skip rest [] already reached after
      end
    else
      restore_records turn skip rest (queued ++ queuedPendingInputsFromRecords [record]) already
        reached after
  end.

Definition restorePendingInput (turn skip : string) : EM unit :=
  if turn =?s "" then ret tt
  else
    do cancelled <- draw_outcome (ee_cancelled env);;
    if cancelled : bool then fail ErrCancelled
    else
      do missing <- queue_missing;;
      if missing : bool then ret tt
      else
        do records <- lift (Replayable (ee_queue env) turn 0);;
        restore_records turn skip records [] [] false [].

(** [drainPendingInputLocked], once no event is being published. *)
Definition drainPendingInputLocked (turn : string) : EM unit :=
  do cancelled <- draw_outcome (ee_cancelled env);;
  if cancelled : bool then fail ErrCancelled
  else drainPendingInputLifecycleLocked turn.

(** [enqueueContinuationLocked]. *)
Definition enqueueContinuation (prompt : string) : EM unit :=
  do en <- get_engine;;
  if en_maintenanceReserved en && negb (en_announcing en) then fail ErrMaintenance
  else
    do r <- enqueuePendingMessageWithOptions
              (with_Kind MessageKindContinuation (TextMessage RoleUser prompt)) (mkOptions "" 0);;
    let '(_, _, err) := r in
    match err with Some e => fail e | None => ret tt end.

(** [finishOrContinueLocked]: whether the turn was closed. *)
Definition finishOrContinueLocked (turn : string) : EM bool :=
  do idle <- activeTurnHasNoPending turn;;
  if negb idle then ret false
  else
    do_ beginTerminalPublication turn;;
    do r <- attempt (recordTurnEnd true turn ErrEmit);;
    match r with
    | Err e =>
      do p <- attempt (commitAndPublishTurnError turn e);;
      fail (join_error e (error_of p))
    | Ok ev =>
      do_ publishTerminalEvent turn ev;;
      ret true
    end.

(** [failActiveTurnLocked]: the error the turn ends with. *)
Definition failActiveTurnLocked (turn : string) (cause : EngineError) : EM EngineError :=
  do p <- attempt (preservePendingInputAfterFailureLocked turn);;
  let cause := join_error cause (error_of p) in
  do_ beginTerminalPublication turn;;
  do r <- attempt (commitAndPublishTurnError turn cause);;
  ret (join_error cause (error_of r)).

End Engine.
