(* ===== verification/EngineInputFrame.v ===== *)
(** * The inputs of the turn engine: what its calls leave alone

    No method of the queue touches the messages or the events of the thread ([keeps]). No
    publication of the engine does, and the inputs that arrive in it go behind
    the ones that wait ([grows]). *)

From S2P Require Import Prelude GoStd Llm Events PendingInputs PendingQueue EngineInput.

Local Open Scope Z_scope.
Local Open Scope juex_scope.

(** ** The queue *)

Definition same_thread (w w' : World) : Prop :=
  w_nil w' = w_nil w /\ history_of (w_thread w') = history_of (w_thread w) /\
  th_events <$> w_thread w' = th_events <$> w_thread w.

#[export] Instance same_thread_preorder : PreOrder same_thread.
Proof.
  split; unfold same_thread; [done|]. intros ??? (? & ? & ?) (? & ? & ?). split_and!; congruence.
Qed.

Definition keeps {A} (m : M A) : Prop := forall w, same_thread w (m w).2.

Lemma keeps_ret {A} (a : A) : keeps (ret a).
Proof. by intros w. Qed.

Lemma keeps_fail {A} e : keeps (fail e : M A).
Proof. by intros w. Qed.

Lemma keeps_bind {A B} (m : M A) (k : A -> M B) :
  keeps m -> (forall a, keeps (k a)) -> keeps (bind m k).
Proof.
  intros Hm Hk w. unfold bind. specialize (Hm w). destruct (m w) as [[a|e] w'] eqn:E; [|done].
  etrans; [exact Hm|]. apply Hk.
Qed.

Lemma keeps_get_queue : keeps get_queue.
Proof. by intros w. Qed.
Lemma keeps_get_thread : keeps get_thread.
Proof. by intros w. Qed.
Lemma keeps_put_queue q : keeps (put_queue q).
Proof. by intros w. Qed.
Lemma keeps_modify_queue g : keeps (modify_queue g).
Proof. by intros w. Qed.
Lemma keeps_unless_nil {A} r (m : M A) : keeps m -> keeps (unless_nil r m).
Proof. intros Hm w. unfold unless_nil. destruct (w_nil w); [done|apply Hm]. Qed.
Lemma keeps_unload {A} (m : M A) : keeps m -> keeps (unload_on_error m).
Proof. intros Hm w. unfold unload_on_error. specialize (Hm w). by destruct (m w) as [[] ?]. Qed.

#[export] Hint Resolve keeps_ret keeps_fail keeps_get_queue keeps_get_thread keeps_put_queue
  keeps_modify_queue : keeps.
#[export] Hint Extern 1 (forall w, same_thread w _) => (intros ?; split_and!; reflexivity) : keeps.

(** Walks a method along its binds, conditionals and matches. *)
Ltac keeps_step :=
  match goal with
  | |- keeps (bind _ _) => apply keeps_bind
  | |- keeps (unless_nil _ _) => apply keeps_unless_nil
  | |- keeps (unload_on_error _) => apply keeps_unload
  | |- forall _, _ => intro
  | |- keeps (match ?x with _ => _ end) => destruct x
  | |- keeps (let '_ := ?x in _) => destruct x
  | |- keeps _ => solve [eauto with keeps]
  end.
Ltac solve_keeps := repeat keeps_step.

Section Queue.
  Context (env : Environment).

Lemma keeps_storage e g : (forall w, same_thread w (g w)) -> keeps (storage env e g).
Proof.
  intros Hg w. unfold storage. destruct (env_io env (w_io w)); simpl; [|done|];
    (etrans; [|apply Hg]); done.
Qed.

Lemma keeps_nowMillis : keeps (nowMillis env).
Proof. by intros w. Qed.
Lemma keeps_newID : keeps (newID env).
Proof. by intros w. Qed.
#[local] Hint Resolve keeps_storage keeps_nowMillis keeps_newID : keeps.

Lemma keeps_nextUnique records : keeps (nextUniquePendingInputID env records).
Proof.
  unfold nextUniquePendingInputID. generalize (S (size records)) as fuel.
  induction fuel as [|k IH]; simpl; unfold newInputID; solve_keeps.
Qed.

Lemma keeps_synchronize b : keeps (synchronizePendingCountLocked env b).
Proof.
  unfold synchronizePendingCountLocked. solve_keeps. apply keeps_storage. intros w.
  unfold set_pending_count, same_thread. destruct (w_thread w) eqn:E; [done|by rewrite E].
Qed.
#[local] Hint Resolve keeps_nextUnique keeps_synchronize : keeps.

Lemma keeps_persist records order : keeps (persistLocked env records order).
Proof. unfold persistLocked. solve_keeps. Qed.
#[local] Hint Resolve keeps_persist : keeps.

Lemma keeps_persistCurrent : keeps (persistCurrentLocked env).
Proof. unfold persistCurrentLocked. solve_keeps. Qed.
#[local] Hint Resolve keeps_persistCurrent : keeps.

Lemma keeps_upsert r : keeps (upsertLocked env r).
Proof. unfold upsertLocked. solve_keeps. Qed.
#[local] Hint Resolve keeps_upsert : keeps.

Lemma keeps_restore_messages history ids : forall c, keeps (restore_messages env history ids c).
Proof. induction ids as [|id ids IH]; intros c; simpl; solve_keeps. Qed.
#[local] Hint Resolve keeps_restore_messages : keeps.

Lemma keeps_ensureLoaded : keeps (ensureLoadedLocked env).
Proof.
  unfold ensureLoadedLocked, refreshInputScopeLocked, loadLocked, loadDocumentLocked. solve_keeps.
  intros w. by destruct (load_document (w_file w)).
Qed.
#[local] Hint Resolve keeps_ensureLoaded : keeps.

Lemma keeps_updateStates ids u : keeps (updateStates env ids u).
Proof. unfold updateStates. solve_keeps. Qed.

Lemma keeps_remove ids : keeps (remove env ids).
Proof. unfold remove. solve_keeps. Qed.

Lemma keeps_promote r turn state : keeps (promoteTurnInputLocked env r turn state).
Proof. unfold promoteTurnInputLocked. solve_keeps. Qed.
#[local] Hint Resolve keeps_promote : keeps.

Lemma keeps_Enqueue m id ttl turn : keeps (Enqueue env m id ttl turn).
Proof. unfold Enqueue. solve_keeps. Qed.

Lemma keeps_storeTurnInput turn m reuse state : keeps (storeTurnInput env turn m reuse state).
Proof. unfold storeTurnInput. solve_keeps. Qed.

Lemma keeps_CommitTurnInput id turn : keeps (CommitTurnInput env id turn).
Proof. unfold CommitTurnInput. solve_keeps. Qed.

Lemma keeps_MarkMessageProcessed m : keeps (MarkMessageProcessed env m).
Proof. unfold MarkMessageProcessed. solve_keeps. Qed.

Lemma keeps_Records : keeps (Records env).
Proof. unfold Records. solve_keeps. Qed.

Lemma keeps_Completed id : keeps (Completed env id).
Proof. unfold Completed. solve_keeps. Qed.

Lemma keeps_Replayable turn limit : keeps (Replayable env turn limit).
Proof. unfold Replayable. solve_keeps. Qed.

Lemma keeps_InputIDsForTurn turn : keeps (InputIDsForTurn env turn).
Proof. unfold InputIDsForTurn. solve_keeps. Qed.

Lemma keeps_ApplyTerminalEvent e : keeps (ApplyTerminalEvent env e).
Proof. unfold ApplyTerminalEvent, applyTerminalLocked. solve_keeps. Qed.

Lemma keeps_inputAssociation m : keeps (inputAssociation env m).
Proof. unfold inputAssociation. solve_keeps. Qed.

Lemma keeps_restoreRetried l : keeps (restoreRetriedInputs env l).
Proof. unfold restoreRetriedInputs. solve_keeps. Qed.

End Queue.

#[export] Hint Resolve keeps_storage keeps_nowMillis keeps_newID keeps_nextUnique
  keeps_synchronize keeps_persist keeps_persistCurrent keeps_upsert keeps_restore_messages
  keeps_ensureLoaded keeps_updateStates keeps_remove keeps_promote keeps_Enqueue
  keeps_storeTurnInput keeps_CommitTurnInput keeps_MarkMessageProcessed keeps_Records
  keeps_Completed keeps_Replayable keeps_InputIDsForTurn keeps_ApplyTerminalEvent
  keeps_inputAssociation keeps_restoreRetried : keeps.

(** ** The engine *)

Definition pending (w : EWorld) : list queuedPendingInput := en_pendingInput (ew_engine w).
Definition active (w : EWorld) : string := en_activeTurnID (ew_engine w).

(** Inputs went behind the ones that waited. *)
Definition extends (w w' : EWorld) : Prop :=
  exists arrived, pending w' = pending w ++ arrived /\ ew_arrived w' = ew_arrived w ++ arrived.

#[export] Instance extends_preorder : PreOrder extends.
Proof.
  split; [intros w; exists []; by rewrite !app_nil_r|].
  intros w1 w2 w3 (a1 & P1 & A1) (a2 & P2 & A2). exists (a1 ++ a2).
  by rewrite P2, P1, A2, A1, !app_assoc.
Qed.

(** What a publication may change: inputs arrive behind the others, events are
    logged and windows are used up. *)
Record grows (w w' : EWorld) : Prop := mkGrows {
  gr_thread : same_thread (ew_queue w) (ew_queue w');
  gr_pending : extends w w';
  gr_active : active w' = active w;
  gr_executing : en_executingTurnID (ew_engine w') = en_executingTurnID (ew_engine w);
  gr_terminal : en_terminalPublishing (ew_engine w') = en_terminalPublishing (ew_engine w);
  gr_maintenance : en_maintenanceReserved (ew_engine w') = en_maintenanceReserved (ew_engine w);
  gr_windows : exists used, ew_windows w = used ++ ew_windows w';
  gr_log : exists events, ew_log w' = ew_log w ++ events;
}.

#[export] Instance grows_preorder : PreOrder grows.
Proof.
  split.
  - intros w. split; try done; [by exists []|exists []; by rewrite app_nil_r].
  - intros w1 w2 w3 [T1 P1 A1 E1 X1 M1 [u1 W1] [l1 L1]] [T2 P2 A2 E2 X2 M2 [u2 W2] [l2 L2]].
    split; try congruence; [by etrans..| |].
    + exists (u1 ++ u2). by rewrite W1, W2, app_assoc.
    + exists (l1 ++ l2). by rewrite L2, L1, app_assoc.
Qed.

Definition quiet {A} (m : EM A) : Prop := forall w, grows w (m w).2.

Lemma quiet_ret {A} (a : A) : quiet (ret a).
Proof. intros w. reflexivity. Qed.

Lemma quiet_fail {A} e : quiet (fail e : EM A).
Proof. intros w. reflexivity. Qed.

Lemma quiet_bind {A B} (m : EM A) (k : A -> EM B) :
  quiet m -> (forall a, quiet (k a)) -> quiet (bind m k).
Proof.
  intros Hm Hk w. unfold bind. specialize (Hm w). destruct (m w) as [[a|e] w'] eqn:E; [|done].
  etrans; [exact Hm|]. apply Hk.
Qed.

Lemma quiet_attempt {A} (m : EM A) : quiet m -> quiet (attempt m).
Proof. intros Hm w. unfold attempt. specialize (Hm w). by destruct (m w). Qed.

(** A change of the world outside of what [grows] looks at. *)
Lemma grows_step w w' :
  same_thread (ew_queue w) (ew_queue w') -> pending w' = pending w ->
  ew_arrived w' = ew_arrived w -> active w' = active w ->
  en_executingTurnID (ew_engine w') = en_executingTurnID (ew_engine w) ->
  en_terminalPublishing (ew_engine w') = en_terminalPublishing (ew_engine w) ->
  en_maintenanceReserved (ew_engine w') = en_maintenanceReserved (ew_engine w) ->
  (exists used, ew_windows w = used ++ ew_windows w') ->
  (exists events, ew_log w' = ew_log w ++ events) -> grows w w'.
Proof. intros. split; try done. exists []. by rewrite !app_nil_r. Qed.

Ltac grow := apply grows_step; simpl; try done; try (by exists []); try (exists []; by rewrite app_nil_r).

Lemma quiet_get_engine : quiet get_engine.
Proof. intros w. reflexivity. Qed.
Lemma quiet_queue_missing : quiet queue_missing.
Proof. intros w. reflexivity. Qed.
Lemma quiet_draw {A} (f : nat -> A) : quiet (draw_outcome f).
Proof. intros w. grow. Qed.

Lemma quiet_lift {A} (m : M A) : keeps m -> quiet (lift m).
Proof.
  intros Hm w. unfold lift. specialize (Hm (ew_queue w)).
  destruct (m (ew_queue w)) as [[a|e] q]; grow.
Qed.

Lemma quiet_announcing (b : Engine -> bool) (l : Engine -> list LifecycleEvent) :
  quiet (modify_engine (fun en => set_announcing (b en) (l en) en)).
Proof. intros w. grow. Qed.
Lemma quiet_publishing b : quiet (modify_engine (set_publishing b)).
Proof. intros w. grow. Qed.

Lemma quiet_queue_input it : quiet (queue_input it).
Proof. intros w. split; try done; [by exists [it]|by exists []|exists []; by rewrite app_nil_r]. Qed.

#[export] Hint Resolve quiet_ret quiet_fail quiet_get_engine quiet_queue_missing quiet_draw
  quiet_announcing quiet_publishing quiet_queue_input : quiet.
#[export] Hint Extern 2 (quiet (lift _)) =>
  (apply quiet_lift; solve [eauto with keeps]) : quiet.

Ltac quiet_step :=
  match goal with
  | |- quiet (bind _ _) => apply quiet_bind
  | |- quiet (attempt _) => apply quiet_attempt
  | |- forall _, _ => intro
  | |- quiet (match ?x with _ => _ end) => destruct x
  | |- quiet _ => solve [eauto with quiet]
  end.
Ltac solve_quiet := repeat (cbv zeta; quiet_step).

Section Engine.
  Context (env : EngineEnv).

Lemma quiet_stage ev : quiet (stage ev).
Proof. unfold stage. solve_quiet. Qed.
#[local] Hint Resolve quiet_stage : quiet.

Lemma quiet_on_queue m : keeps m -> quiet (on_queue m).
Proof. intros. unfold on_queue. solve_quiet. Qed.

Lemma quiet_enqueue_message m opts : quiet (enqueue_message env m opts).
Proof. unfold enqueue_message. solve_quiet. Qed.

Lemma keeps_now : keeps (fun q => (Ok (env_clock (ee_queue env) (w_clock q)),
  mkWorld (w_nil q) (w_queue q) (w_file q) (w_thread q) (S (w_clock q)) (w_rand q) (w_io q))).
Proof. by intros w. Qed.
#[local] Hint Resolve keeps_now : keeps.

Lemma keeps_MarkExpired ids : keeps (MarkExpired (ee_queue env) ids).
Proof. apply keeps_remove. Qed.
#[local] Hint Resolve keeps_MarkExpired : keeps.

Lemma quiet_enqueue_record r : quiet (enqueue_record env r).
Proof. unfold enqueue_record. solve_quiet. Qed.
#[local] Hint Resolve quiet_enqueue_message quiet_enqueue_record : quiet.

Lemma quiet_persistPending m opts : quiet (persistPendingMessage env m opts).
Proof. unfold persistPendingMessage. solve_quiet. Qed.

Lemma quiet_persisted id : quiet (persistedPendingMessage env id).
Proof. unfold persistedPendingMessage. solve_quiet. Qed.
#[local] Hint Resolve quiet_persistPending quiet_persisted : quiet.

Lemma quiet_arrive a : quiet (arrive env a).
Proof. unfold arrive. solve_quiet. Qed.

Lemma quiet_arrivals l : quiet (arrivals env l).
Proof. induction l; simpl; [apply quiet_ret|]. apply quiet_bind; [apply quiet_arrive|done]. Qed.

Lemma quiet_emit ev : quiet (emit env ev).
Proof. intros w. unfold emit. destruct (ee_emit env (ew_calls w)); grow; by exists [ev]. Qed.

Lemma quiet_next_window : quiet next_window.
Proof. intros w. grow. destruct (ew_windows w) as [|x l]; [by exists []|by exists [x]]. Qed.
#[local] Hint Resolve quiet_arrivals quiet_emit quiet_next_window : quiet.

Lemma quiet_emitPending ev : quiet (emitPendingLifecycleEvent env ev).
Proof. unfold emitPendingLifecycleEvent. solve_quiet. Qed.
#[local] Hint Resolve quiet_emitPending : quiet.

Lemma quiet_emit_all l : quiet (emit_all env l).
Proof. induction l; simpl; solve_quiet. Qed.
#[local] Hint Resolve quiet_emit_all : quiet.

Lemma quiet_flush_loop fuel : quiet (flush_loop env fuel).
Proof.
  induction fuel as [|k IH]; simpl; solve_quiet; intros w; grow.
Qed.

Lemma quiet_flush : quiet (flushPendingEvents env).
Proof. intros w. apply quiet_flush_loop. Qed.
#[local] Hint Resolve quiet_flush : quiet.

Lemma quiet_publish_staged ev : quiet (publish_staged env ev).
Proof. unfold publish_staged. solve_quiet. Qed.
#[local] Hint Resolve quiet_publish_staged : quiet.

Lemma quiet_publishPendingEvent ev : quiet (publishPendingEvent env ev).
Proof. unfold publishPendingEvent. solve_quiet. Qed.
#[local] Hint Resolve quiet_publishPendingEvent : quiet.

Lemma quiet_enqueueMessage m opts : quiet (enqueuePendingMessageWithOptions env m opts).
Proof. unfold enqueuePendingMessageWithOptions. solve_quiet. Qed.

Lemma quiet_enqueuePersisted r : quiet (enqueuePersistedPendingMessage env r).
Proof. unfold enqueuePersistedPendingMessage. solve_quiet. Qed.

Lemma quiet_beginDrain turn n ids : quiet (beginPendingInputDrain env turn n ids).
Proof. unfold beginPendingInputDrain. solve_quiet. Qed.

Lemma quiet_finishDrain turn n ids : quiet (finishPendingInputDrain env turn n ids).
Proof. unfold finishPendingInputDrain. solve_quiet. Qed.

Lemma quiet_project m : quiet (projectMessageLocked env m).
Proof. unfold projectMessageLocked. solve_quiet. Qed.

Lemma quiet_emitProjection turn b : quiet (emitProjectionApplied env turn b).
Proof. unfold emitProjectionApplied. solve_quiet. Qed.

Lemma quiet_prepare id : quiet (prepareAdmittedInput env id).
Proof. unfold prepareAdmittedInput. solve_quiet. Qed.

Lemma quiet_policies m : quiet (applyTurnInputPolicies env m).
Proof. unfold applyTurnInputPolicies. solve_quiet. Qed.

Lemma quiet_markProcessed m : quiet (markPendingInputMessageProcessed env m).
Proof.
  unfold markPendingInputMessageProcessed. solve_quiet. apply quiet_on_queue. eauto with keeps.
Qed.

Lemma quiet_has id : quiet (threadHasMessageID id).
Proof. intros w. reflexivity. Qed.

Lemma quiet_repair : quiet (repair_outcome env).
Proof. unfold repair_outcome. solve_quiet. Qed.

End Engine.

#[export] Hint Resolve quiet_stage quiet_enqueue_message quiet_enqueue_record quiet_persistPending
  quiet_persisted quiet_arrivals quiet_emit quiet_next_window quiet_emitPending quiet_emit_all
  quiet_flush quiet_publish_staged quiet_publishPendingEvent quiet_enqueueMessage
  quiet_enqueuePersisted quiet_beginDrain quiet_finishDrain quiet_project quiet_emitProjection
  quiet_prepare quiet_policies quiet_markProcessed quiet_has quiet_repair : quiet.

(** ** Calls that do not fail *)

Definition total {A} (m : EM A) : Prop := forall w, exists a, (m w).1 = Ok a.

Lemma total_ret {A} (a : A) : total (ret a).
Proof. intros w. by exists a. Qed.
Lemma total_bind {A B} (m : EM A) (k : A -> EM B) :
  total m -> (forall a, total (k a)) -> total (bind m k).
Proof.
  intros Hm Hk w. unfold bind. destruct (Hm w) as [a E]. destruct (m w) as [r w'].
  simpl in E. subst r. apply Hk.
Qed.
Lemma total_attempt {A} (m : EM A) : total (attempt m).
Proof. intros w. unfold attempt. destruct (m w) as [r w']. by exists r. Qed.
Lemma total_get_engine : total get_engine.
Proof. intros w. by eexists. Qed.
Lemma total_modify f : total (modify_engine f).
Proof. intros w. by exists tt. Qed.
Lemma total_next_window : total next_window.
Proof. intros w. by eexists. Qed.

#[export] Hint Resolve total_ret total_attempt total_get_engine total_modify total_next_window : total.

Ltac total_step :=
  match goal with
  | |- total (bind _ _) => apply total_bind
  | |- forall _, _ => intro
  | |- total (match ?x with _ => _ end) => destruct x
  | |- total _ => solve [eauto with total]
  end.
Ltac solve_total := repeat (cbv zeta; total_step).

Section Total.
  Context (env : EngineEnv).

Lemma total_arrivals l : total (arrivals env l).
Proof. induction l as [|a l IH]; simpl; unfold arrive; solve_total. Qed.

Lemma total_stage ev : total (stage ev).
Proof. unfold stage. solve_total. Qed.
#[local] Hint Resolve total_arrivals total_stage : total.

(** A publication uses up one window, if there is one; without one, no event
    appears that would have to wait. *)
Lemma emit_windows ev w :
  let w' := (emitPendingLifecycleEvent env ev w).2 in
  (length (ew_windows w') <= length (ew_windows w) - 1)%nat /\
  (ew_windows w = [] -> en_deferred (ew_engine w') = en_deferred (ew_engine w)).
Proof.
  cbv zeta. remember (emitPendingLifecycleEvent env ev w).2 as wf eqn:Ef.
  unfold emitPendingLifecycleEvent, bind at 1, modify_engine at 1 in Ef.
  set (w0 := set_engine _ w) in Ef. unfold bind at 1, attempt in Ef.
  destruct (emit env ev w0) as [r w1] eqn:E1.
  assert (ew_windows w1 = ew_windows w /\ ew_engine w1 = ew_engine w0) as [Hw He].
  { unfold emit in E1. destruct (ee_emit env (ew_calls w0)); injection E1 as <- <-; done. }
  unfold bind at 1, next_window in Ef. rewrite Hw in Ef.
  set (w2 := mkEWorld _ _ _ _ _ _) in Ef.
  pose proof (quiet_arrivals env (hd [] (ew_windows w)) w2) as [_ _ _ _ _ _ [used Hu] _].
  unfold bind at 1 in Ef. destruct (total_arrivals (hd [] (ew_windows w)) w2) as [u Eu].
  destruct (arrivals env (hd [] (ew_windows w)) w2) as [r3 w3] eqn:E3. simpl in Eu, Hu. subst r3.
  assert (wf = set_engine (set_publishing false (ew_engine w3)) w3) as -> by (by destruct r).
  simpl. split.
  - assert (length (tl (ew_windows w)) = length (used ++ ew_windows w3)) as Hl by (by rewrite <- Hu).
    rewrite length_app in Hl. destruct (ew_windows w); simpl in *; lia.
  - intros Hnil. rewrite Hnil in E3. injection E3 as <- <-. simpl. by rewrite He.
Qed.

Lemma total_emit_all l : total (emit_all env l).
Proof. induction l; simpl; solve_total. Qed.

Lemma emit_all_windows l : forall w,
  let w' := (emit_all env l w).2 in
  (length (ew_windows w') <= length (ew_windows w) - length l)%nat /\
  (ew_windows w = [] -> en_deferred (ew_engine w') = en_deferred (ew_engine w)).
Proof.
  induction l as [|ev l IH]; intros w; simpl; [split; [lia|done]|].
  pose proof (emit_windows ev w) as [Hw Hd]. unfold bind, attempt.
  destruct (emitPendingLifecycleEvent env ev w) as [r w1]. simpl in *.
  destruct (IH w1) as [Hw' Hd']. split; [lia|]. intros Hnil. rewrite Hd', Hd; [done..|].
  destruct (ew_windows w1); [done|]. rewrite Hnil in Hw. simpl in Hw. lia.
Qed.

(** The fuel of a flush is enough. *)
Lemma flush_loop_ok fuel : forall w,
  (length (ew_windows w) + 2 <= fuel)%nat \/
  (ew_windows w = [] /\ en_deferred (ew_engine w) = [] /\ 1 <= fuel)%nat ->
  (flush_loop env fuel w).1 = Ok tt.
Proof.
  induction fuel as [|fuel IH]; intros w Hf; [destruct Hf as [|(_ & _ & ?)]; lia|].
  cbn [flush_loop]. unfold bind at 1, get_engine.
  destruct (en_deferred (ew_engine w)) as [|ev l] eqn:Ed; [done|].
  destruct Hf as [Hf|(_ & ? & _)]; [|done].
  unfold bind at 1, modify_engine. set (w0 := set_engine _ w).
  assert (1 <= length (ev :: l))%nat as Hlen by (simpl; lia).
  set (evs := ev :: l) in *. clearbody evs. unfold bind at 1.
  destruct (emit_all_windows evs w0) as [Hw Hd].
  destruct (total_emit_all evs w0) as [u Eu].
  destruct (emit_all env evs w0) as [r w1]. simpl in Eu, Hw, Hd. subst r.
  apply IH. destruct (ew_windows w) as [|x ws] eqn:Ews.
  - right. split_and!; [|by apply Hd|lia]. simpl in Hw. destruct (ew_windows w1); [done|].
    simpl in Hw. lia.
  - left. simpl in *. lia.
Qed.

Lemma total_flush : total (flushPendingEvents env).
Proof. intros w. exists tt. apply flush_loop_ok. left. lia. Qed.
#[local] Hint Resolve total_flush : total.

Lemma total_publishPendingEvent ev : total (publishPendingEvent env ev).
Proof. unfold publishPendingEvent, publish_staged. solve_total. Qed.
#[local] Hint Resolve total_publishPendingEvent : total.

Lemma total_beginDrain turn n ids : total (beginPendingInputDrain env turn n ids).
Proof. unfold beginPendingInputDrain. solve_total. Qed.

Lemma total_finishDrain turn n ids : total (finishPendingInputDrain env turn n ids).
Proof. unfold finishPendingInputDrain. solve_total. Qed.

End Total.

(** ** Runs of a bind *)

Lemma bind_run {A B} (m : EM A) (k : A -> EM B) w r w' : bind m k w = (r, w') ->
  (exists a w1, m w = (Ok a, w1) /\ k a w1 = (r, w')) \/
  (exists e, m w = (Err e, w') /\ r = Err e).
Proof.
  unfold bind. destruct (m w) as [[a|e] w1]; [by eauto|]. intros [= <- <-]. right. by exists e.
Qed.

Lemma attempt_run {A B} (m : EM A) (k : result EngineError A -> EM B) w r w' :
  bind (attempt m) k w = (r, w') -> exists x w1, m w = (x, w1) /\ k x w1 = (r, w').
Proof. unfold bind, attempt. destruct (m w) as [x w1]. eauto. Qed.
