(* ===== verification/EngineInputDrain.v ===== *)
(** * The inputs of the turn engine: how a turn takes them

    What draining does to the transcript. [deliver] is the specification: each
    input once, in order, unless the transcript has its message already. An
    interrupted drain delivers a prefix and puts back at least the rest. *)

From S2P Require Import Prelude GoStd Llm Events PendingInputs PendingQueue EngineInput EngineInputFrame.

Local Open Scope Z_scope.
Local Open Scope juex_scope.

(** ** Specification *)

Definition deliver_one (h : list string) (x : string) : list string :=
  if decide (x ∈ h) then h else h ++ [x].

(** The messages of a transcript after the inputs [xs]. *)
Definition deliver (h xs : list string) : list string := foldl deliver_one h xs.

Definition message_ids (w : EWorld) : list string :=
  map m_ID (default [] (history_of (w_thread (ew_queue w)))).

Definition item_id (it : queuedPendingInput) : string := m_ID (it_Message it).
Definition item_ids (l : list queuedPendingInput) : list string := map item_id l.

Definition has_thread (w : EWorld) : Prop := is_Some (w_thread (ew_queue w)).

(** Every accepted input has a message id. *)
Definition named (l : list queuedPendingInput) : Prop := Forall (fun it => item_id it <> ""%string) l.

(** Items of one record carry one message. *)
Definition coherent (l : list queuedPendingInput) : Prop :=
  forall a b, a ∈ l -> b ∈ l -> it_RecordID a <> ""%string -> it_RecordID a = it_RecordID b ->
    item_id a = item_id b.

(** ** Deliveries *)

Lemma deliver_app h xs ys : deliver h (xs ++ ys) = deliver (deliver h xs) ys.
Proof. apply foldl_app. Qed.

Lemma deliver_one_elem h x y : y ∈ deliver_one h x <-> y ∈ h \/ y = x.
Proof. unfold deliver_one. case_decide; set_solver. Qed.

Lemma deliver_elem xs : forall h y, y ∈ deliver h xs <-> y ∈ h \/ y ∈ xs.
Proof.
  induction xs as [|x xs IH]; intros h y; simpl; [set_solver|].
  rewrite IH, deliver_one_elem. set_solver.
Qed.

Lemma deliver_known xs : forall h, (forall x, x ∈ xs -> x ∈ h) -> deliver h xs = h.
Proof.
  induction xs as [|x xs IH]; intros h Hin; simpl; [done|].
  assert (deliver_one h x = h) as -> by (unfold deliver_one; rewrite decide_True; set_solver).
  apply IH. set_solver.
Qed.

Lemma deliver_nodup xs : forall h, NoDup h -> NoDup (deliver h xs).
Proof.
  induction xs as [|x xs IH]; intros h Hnd; simpl; [done|]. apply IH.
  unfold deliver_one. case_decide; [done|]. apply NoDup_app. split_and!; [done| |apply NoDup_singleton].
  set_solver.
Qed.

(** A retry from before the point that was reached changes nothing. *)
Lemma deliver_retry h (xs ys : list string) j k : (j <= k)%nat ->
  deliver (deliver h (take k xs)) (drop j xs ++ ys) = deliver h (xs ++ ys).
Proof.
  intros Hjk.
  assert (drop j xs = drop j (take k xs) ++ drop k xs) as ->.
  { destruct (decide (k <= length xs)%nat).
    - rewrite <- (take_drop k xs) at 1. rewrite drop_app_le; [done|]. rewrite length_take. lia.
    - rewrite (take_ge xs k), (drop_ge xs k) by lia. by rewrite app_nil_r. }
  rewrite <- app_assoc, (deliver_app _ (drop j _)), (deliver_known (drop j _)).
  { by rewrite <- deliver_app, app_assoc, take_drop. }
  intros x Hx. apply deliver_elem. right.
  apply list_elem_of_lookup in Hx as [i Hi]. rewrite lookup_drop in Hi.
  by eapply list_elem_of_lookup_2.
Qed.

(** ** Merging *)

(** The three lists of the merge loop. *)
Record merged_ok (done : list queuedPendingInput)
    (st : list queuedPendingInput * list string * list string) : Prop := mkMerged {
  mo_sub : forall it, it ∈ st.1.1 -> it ∈ done;
  mo_records : forall r, r ∈ st.1.2 -> r <> ""%string /\ exists it, it ∈ st.1.1 /\ it_RecordID it = r;
  mo_messages : forall m, m ∈ st.2 -> m ∈ item_ids st.1.1;
  mo_deliver : forall h, deliver h (item_ids st.1.1) = deliver h (item_ids done);
}.

Lemma append_unique_ok (before : list queuedPendingInput) st it : coherent (before ++ [it]) ->
  merged_ok before st -> merged_ok (before ++ [it]) (append_unique st it).
Proof.
  intros Hco [Hsub Hrec Hmsg Hdel]. destruct st as [[merged records] messages]. simpl in *.
  unfold append_unique.
  assert (item_id it ∈ item_ids merged ->
    merged_ok (before ++ [it]) (merged, records, messages)) as Hskip.
  { intros Hin. split; simpl; [set_solver|done|done|]. intros h.
    unfold item_ids at 2. rewrite map_app, deliver_app. fold (item_ids before).
    rewrite <- Hdel. simpl. unfold deliver_one. rewrite decide_True; [done|].
    apply deliver_elem. by right. }
  destruct ((it_RecordID it <>?s "") && bool_decide (it_RecordID it ∈ records)) eqn:Er.
  { to_prop. destruct (Hrec (it_RecordID it)) as (Hne & it' & Hin & Hr); [done|].
    apply Hskip. rewrite (Hco it it'); [by apply list_elem_of_fmap_2| | |done|done]; set_solver. }
  destruct ((m_ID (it_Message it) <>?s "") && bool_decide (m_ID (it_Message it) ∈ messages)) eqn:Em.
  { to_prop. apply Hskip, Hmsg. done. }
  split; simpl.
  - set_solver.
  - intros r. destruct (it_RecordID it <>?s "") eqn:En.
    + to_prop. intros [->|Hr]%elem_of_cons; [split; [done|exists it; set_solver]|].
      destruct (Hrec r Hr) as (? & it' & ? & ?). split; [done|]. exists it'. set_solver.
    + intros Hr. destruct (Hrec r Hr) as (? & it' & ? & ?). split; [done|]. exists it'. set_solver.
  - unfold item_ids. rewrite map_app. intros m Hm. apply elem_of_app.
    case_match; [apply elem_of_cons in Hm as [->|Hm]|]; [right; simpl; set_solver|left; by apply Hmsg..].
  - intros h. unfold item_ids. rewrite !map_app, !deliver_app. fold (item_ids merged) (item_ids before).
    by rewrite Hdel.
Qed.

Lemma merge_fold_ok (l : list queuedPendingInput) : forall before st, coherent (before ++ l) ->
  merged_ok before st -> merged_ok (before ++ l) (foldl append_unique st l).
Proof.
  induction l as [|it l IH]; intros before st Hco Hok; simpl; [by rewrite app_nil_r|].
  replace (before ++ it :: l) with ((before ++ [it]) ++ l) in * by (by rewrite <- app_assoc).
  apply IH; [done|]. apply append_unique_ok; [|done].
  intros a b Ha Hb. apply Hco; set_solver.
Qed.

(** Putting inputs back loses none and repeats none. *)
Lemma merge_pending_deliver (l current : list queuedPendingInput) h : coherent (l ++ current) ->
  deliver h (item_ids (merge_pending l current)) = deliver h (item_ids (l ++ current)).
Proof.
  intros Hco. unfold merge_pending.
  apply (mo_deliver _ _ (merge_fold_ok (l ++ current) [] ([], [], []) Hco
    ltac:(split; simpl; set_solver))).
Qed.

Lemma merge_pending_sub (l current : list queuedPendingInput) it :
  it ∈ merge_pending l current -> it ∈ l ++ current.
Proof.
  unfold merge_pending. generalize (l ++ current) as all. intros all.
  assert (forall st x, x ∈ (foldl append_unique st all).1.1 -> x ∈ st.1.1 \/ x ∈ all) as Hsub.
  { induction all as [|y all IH]; intros st x; simpl; [by left|]. intros Hx%IH.
    destruct Hx as [Hx|?]; [|set_solver]. destruct st as [[merged records] messages].
    unfold append_unique in Hx. repeat case_match; simpl in *; set_solver. }
  intros Hx%Hsub. simpl in Hx. set_solver.
Qed.

(** ** Effects on the transcript *)

(** Everything [grows] keeps, but for the messages of the thread. *)
Record moves (w w' : EWorld) : Prop := mkMoves {
  mv_nil : w_nil (ew_queue w') = w_nil (ew_queue w);
  mv_thread : has_thread w -> has_thread w';
  mv_active : active w' = active w;
  mv_executing : en_executingTurnID (ew_engine w') = en_executingTurnID (ew_engine w);
  mv_terminal : en_terminalPublishing (ew_engine w') = en_terminalPublishing (ew_engine w);
  mv_maintenance : en_maintenanceReserved (ew_engine w') = en_maintenanceReserved (ew_engine w);
  mv_windows : exists used, ew_windows w = used ++ ew_windows w';
  mv_log : exists events, ew_log w' = ew_log w ++ events;
}.

#[export] Instance moves_preorder : PreOrder moves.
Proof.
  split.
  - intros w. split; try done; [by exists []|exists []; by rewrite app_nil_r].
  - intros w1 w2 w3 [] []. split; try congruence; [auto| |].
    + destruct mv_windows0 as [u1 E1], mv_windows1 as [u2 E2].
      exists (u1 ++ u2). by rewrite E1, E2, app_assoc.
    + destruct mv_log0 as [l1 E1], mv_log1 as [l2 E2].
      exists (l1 ++ l2). by rewrite E2, E1, app_assoc.
Qed.

Lemma grows_moves w w' : grows w w' -> moves w w'.
Proof.
  intros [(? & Hh & _) ? ? ? ? ? ? ?]. split; try done. unfold has_thread.
  destruct (w_thread (ew_queue w)), (w_thread (ew_queue w')); naive_solver.
Qed.

Lemma grows_ids w w' : grows w w' -> message_ids w' = message_ids w.
Proof. intros [(_ & Hh & _) _ _ _ _ _ _ _]. unfold message_ids. by rewrite Hh. Qed.

(** Run on a transcript [h], [m] delivers [o]; when it fails, a prefix of [a]. *)
Definition eff {A} (h : list string) (m : EM A) (o a : list string) : Prop :=
  forall w, has_thread w -> message_ids w = h ->
    moves w (m w).2 /\ extends w (m w).2 /\
    match (m w).1 with
    | Ok _ => message_ids (m w).2 = deliver h o
    | Err _ => exists k, message_ids (m w).2 = deliver h (take k a)
    end.

Lemma eff_quiet {A} h (m : EM A) a : quiet m -> eff h m [] a.
Proof.
  intros Hq w Hw <-. specialize (Hq w).
  split_and!; [by apply grows_moves|apply (gr_pending _ _ Hq)|].
  rewrite (grows_ids _ _ Hq). destruct (m w).1; [done|]. by exists 0%nat.
Qed.

Lemma eff_bind {A B} h (m : EM A) (k : A -> EM B) o1 a1 o2 a2 a :
  eff h m o1 a1 -> (forall x, eff (deliver h o1) (k x) o2 a2) ->
  (forall i, exists j, deliver h (take i a1) = deliver h (take j a)) ->
  (forall i, exists j, deliver h (o1 ++ take i a2) = deliver h (take j a)) ->
  eff h (bind m k) (o1 ++ o2) a.
Proof.
  intros Hm Hk H1 H2 w Hw Hh. unfold bind. specialize (Hm w Hw Hh).
  destruct (m w) as [[x|e] w1]; simpl in *.
  - destruct Hm as (Hmv & Hex & Hids). specialize (Hk x w1 (mv_thread _ _ Hmv Hw) Hids).
    destruct Hk as (Hmv' & Hex' & Hids'). split_and!; [by etrans|by etrans|].
    destruct (k x w1) as [[y|e] w2]; simpl in *; [by rewrite deliver_app|].
    destruct Hids' as [i Hi]. rewrite <- deliver_app in Hi. destruct (H2 i) as [j Hj].
    exists j. congruence.
  - destruct Hm as (Hmv & Hex & i & Hi). split_and!; [done..|].
    destruct (H1 i) as [j Hj]. exists j. congruence.
Qed.

(** First a call that touches no message. *)
Lemma eff_bind_quiet {A B} h (m : EM A) (k : A -> EM B) o a :
  quiet m -> (forall x, eff h (k x) o a) -> eff h (bind m k) o a.
Proof.
  intros Hm Hk. apply (eff_bind h m k [] a o a); [by apply eff_quiet|done|eauto|eauto].
Qed.

(** A call that delivers nothing when it succeeds. *)
Lemma eff_bind_none {A B} h (m : EM A) (k : A -> EM B) o a :
  eff h m [] a -> (forall x, eff h (k x) o a) -> eff h (bind m k) o a.
Proof. intros Hm Hk. apply (eff_bind h m k [] a o a); [done|done|eauto|eauto]. Qed.

(** Two calls in a row. *)
Lemma eff_bind_app {A B} h (m : EM A) (k : A -> EM B) o1 a2 o2 :
  eff h m o1 o1 -> (forall x, eff (deliver h o1) (k x) o2 a2) ->
  eff h (bind m k) (o1 ++ o2) (o1 ++ a2).
Proof.
  intros Hm Hk. apply (eff_bind h m k o1 o1 o2 a2); [done|done| |].
  - intros i. exists (i `min` length o1)%nat. rewrite take_app.
    replace (i `min` length o1 - length o1)%nat with 0%nat by lia.
    rewrite take_0, app_nil_r. f_equal. destruct (decide (i <= length o1)%nat).
    + f_equal. lia.
    + rewrite !take_ge by lia. done.
  - intros i. exists (length o1 + i)%nat. by rewrite take_app_add.
Qed.

(** Then a call that touches no message. *)
Lemma eff_then_quiet {A B} h (m : EM A) (k : A -> EM B) o :
  eff h m o o -> (forall x, quiet (k x)) -> eff h (bind m k) o o.
Proof.
  intros Hm Hk. pose proof (eff_bind_app h m k o [] [] Hm) as E. rewrite app_nil_r in E.
  apply E. intros x. by apply eff_quiet.
Qed.

Lemma eff_weaken {A} h (m : EM A) o a : eff h m o [] -> eff h m o a.
Proof.
  intros Hm w Hw Hh. destruct (Hm w Hw Hh) as (? & ? & Hr). split_and!; [done..|].
  destruct (m w).1; [done|]. destruct Hr as [k Hk]. exists 0%nat. by rewrite take_nil in Hk.
Qed.

Section Engine.
  Context (env : EngineEnv).

(** An append of a named message that is not there yet. *)
Lemma eff_append h m e : m_ID m <> ""%string -> m_ID m ∉ h ->
  eff h (append_to_thread env m e) [m_ID m] [m_ID m].
Proof.
  intros Hne Hnew w [t Ht] Hh. unfold append_to_thread. rewrite !bool_decide_eq_false_2 by done.
  unfold bind, ret.
  assert (message_ids (mkEWorld (ew_engine w) (append_thread_message m e (ew_queue w)) (ew_windows w)
    (ew_log w) (ew_arrived w) (S (ew_calls w))) = deliver h [m_ID m]) as Happ.
  { unfold message_ids in *. simpl. unfold append_thread_message. rewrite Ht in *. simpl in *.
    unfold deliver_one. rewrite decide_False by done. by rewrite map_app, Hh. }
  destruct (ee_append env (ew_calls w)); simpl; (split_and!; [split; simpl; try done; try (by exists []); try (exists []; by rewrite app_nil_r)|by exists []; rewrite !app_nil_r|]).
  all: try (unfold append_thread_message; by rewrite Ht).
  all: try (unfold has_thread; simpl; unfold append_thread_message; rewrite Ht; by eexists).
  - done.
  - by exists 0%nat.
  - by exists 1%nat.
Qed.

Lemma eff_appendInput h m : m_ID m <> ""%string -> m_ID m ∉ h ->
  eff h (appendInputMessage env m) [m_ID m] [m_ID m].
Proof.
  intros Hne Hnew. unfold appendInputMessage.
  apply eff_bind_quiet; [auto with quiet|]. intros missing.
  apply eff_bind_quiet; [destruct missing; auto with quiet|]. intros e.
  by apply eff_append.
Qed.

Lemma eff_appendRecovered h m : m_ID m <> ""%string -> m_ID m ∉ h ->
  eff h (appendRecoveredTurnInputLocked env m) [m_ID m] [m_ID m].
Proof.
  intros Hne Hnew. apply eff_then_quiet; [by apply eff_appendInput|]. auto with quiet.
Qed.

(** A failure keeps the input in the transcript. *)
Lemma eff_persist_after {A} h (m : EM A) persist id :
  quiet m -> eff h persist [id] [id] -> eff h (persist_after m persist) [] [id].
Proof.
  intros Hm Hp. unfold persist_after. apply eff_bind_quiet; [by apply quiet_attempt|].
  intros [a|e]; [apply eff_quiet; auto with quiet|].
  intros w Hw Hh. unfold bind, attempt, fail. specialize (Hp w Hw Hh).
  destruct (persist w) as [[u|e'] w']; simpl in *; destruct Hp as (? & ? & Hp); split_and!; try done.
  by exists 1%nat.
Qed.

(** What holds of a result of [m]. *)
Definition returns {A} (m : EM A) (P : A -> Prop) : Prop :=
  forall w a w', m w = (Ok a, w') -> P a.

(** The id of a message is the business of no policy and no projection. *)
Lemma returns_policies m : returns (applyTurnInputPolicies env m) (fun m' => m_ID m' = m_ID m).
Proof.
  intros w m' w'. unfold applyTurnInputPolicies, bind, draw_outcome, ret, fail.
  destruct (ee_policy env (ew_calls w)) as [[]|]; intros; by simplify_eq.
Qed.

Lemma returns_project m : m_ID m <> ""%string ->
  returns (projectMessageLocked env m) (fun p => m_ID p.1 = m_ID m).
Proof.
  intros Hne w p w'. unfold projectMessageLocked. rewrite !bool_decide_eq_false_2 by done. simpl.
  unfold bind, draw_outcome, ret, fail.
  destruct (ee_project env (ew_calls w)) as [[]|]; intros; by simplify_eq.
Qed.

Lemma returns_persist_after {A} (m : EM A) persist P :
  returns m P -> returns (persist_after m persist) P.
Proof.
  intros Hm w a w'. unfold persist_after, bind, attempt. destruct (m w) as [[x|e] w1] eqn:E.
  - unfold ret. intros. simplify_eq. by eapply Hm.
  - by destruct (persist w1).
Qed.

(** A call whose result matters for what follows. *)
Lemma eff_bind_returns {A B} h (m : EM A) (k : A -> EM B) o a (P : A -> Prop) :
  eff h m [] a -> returns m P -> (forall x, P x -> eff h (k x) o a) -> eff h (bind m k) o a.
Proof.
  intros Hm HP Hk w Hw Hh. unfold bind. specialize (Hm w Hw Hh).
  destruct (m w) as [[x|e] w1] eqn:E; simpl in *; [|done].
  destruct Hm as (Hmv & Hex & Hids).
  destruct (Hk x (HP _ _ _ E) w1 (mv_thread _ _ Hmv Hw) Hids) as (? & ? & ?).
  split_and!; [by etrans|by etrans|done].
Qed.

Lemma eff_restoreAccepted h turn id m : m_ID m <> ""%string -> m_ID m ∉ h ->
  eff h (restoreAcceptedTurnInputLocked env turn id m) [m_ID m] [m_ID m].
Proof.
  intros Hne Hnew. unfold restoreAcceptedTurnInputLocked.
  apply eff_bind_quiet; [auto with quiet|]. intros _.
  eapply eff_bind_returns; [apply eff_persist_after; [auto with quiet|by apply (eff_appendRecovered h (with_PolicyBlocked m))]|apply returns_persist_after, returns_policies|].
  simpl. intros m1 E1.
  eapply eff_bind_returns; [apply eff_persist_after; [auto with quiet|rewrite <- E1; apply eff_appendRecovered; by rewrite E1]|apply returns_persist_after, returns_project; by rewrite E1|].
  simpl. intros p E2.
  apply eff_bind_none; [apply eff_persist_after; [auto with quiet|rewrite <- E1; apply eff_appendRecovered; by rewrite E1]|]. intros _.
  rewrite <- E1, <- E2. apply eff_appendRecovered; by rewrite E2, E1.
Qed.

(** Asking the transcript for a message. *)
Lemma eff_known {A} h id (k : bool -> EM A) o a : id <> ""%string ->
  eff h (k (bool_decide (id ∈ h))) o a -> eff h (bind (threadHasMessageID id) k) o a.
Proof.
  intros Hne Hk w Hw Hh. specialize (Hk w Hw Hh). unfold bind, threadHasMessageID.
  assert (has_message (ew_queue w) id = bool_decide (id ∈ h)) as ->; [|done].
  unfold has_message. destruct Hw as [t Ht]. unfold message_ids in Hh. rewrite Ht in *.
  simpl in Hh. by rewrite Hh, (bool_decide_eq_false_2 _ Hne).
Qed.

(** An input that the transcript has is delivered already. *)
Lemma eff_skip {A} h id (m : EM A) o a : id ∈ h -> eff h m o a -> eff h m (id :: o) (id :: a).
Proof.
  intros Hin Hm w Hw Hh. destruct (Hm w Hw Hh) as (? & ? & Hr).
  assert (forall l, deliver h (id :: l) = deliver h l) as Hskip.
  { intros l. simpl. unfold deliver_one. by rewrite decide_True. }
  split_and!; [done..|]. destruct (m w).1; [by rewrite Hskip|].
  destruct Hr as [k Hk]. exists (S k). simpl take. by rewrite Hskip.
Qed.

(** The loop over a batch: each message once. *)
Lemma eff_commit_items turn its : forall h processed, named its ->
  eff h (commit_items env turn its processed) (item_ids its) (item_ids its).
Proof.
  induction its as [|it its IH]; intros h processed Hn; simpl; [apply eff_quiet; auto with quiet|].
  apply Forall_cons in Hn as [Hne Hn].
  apply eff_known; [done|]. case_bool_decide as Hin; [by apply eff_skip, IH|].
  eapply eff_bind_returns; [apply eff_quiet; auto with quiet|by apply returns_project|].
  simpl. intros p E.
  apply eff_bind_quiet; [auto with quiet|]. intros _.
  apply eff_bind_quiet; [auto with quiet|]. intros _.
  apply (eff_bind_app h _ _ [item_id it]); [|intros _; by apply IH].
  unfold item_id. rewrite <- E. apply eff_appendInput; by rewrite E.
Qed.

Lemma eff_batch h turn its : named its ->
  eff h (commitPendingInputBatchLocked env turn its) (item_ids its) (item_ids its).
Proof.
  intros Hn. unfold commitPendingInputBatchLocked.
  destruct its as [|it its]; [apply eff_quiet; auto with quiet|].
  apply eff_bind_quiet; [auto with quiet|]. intros _.
  apply eff_bind_quiet; [apply quiet_on_queue, keeps_updateStates|]. intros _.
  apply eff_then_quiet; [by apply eff_commit_items|]. intros processed.
  apply quiet_bind; [apply quiet_on_queue, keeps_updateStates|auto with quiet].
Qed.

Lemma eff_turn_input h turn it : item_id it <> ""%string ->
  eff h (commit_turn_input env turn it) [item_id it] [item_id it].
Proof.
  intros Hne. unfold commit_turn_input.
  assert (forall m, keeps m -> quiet (if it_RecordID it =?s "" then ret tt else on_queue m)) as Hq.
  { intros m Hm. destruct (it_RecordID it =?s ""); [auto with quiet|by apply quiet_on_queue]. }
  apply eff_bind_quiet; [auto with quiet|]. intros _.
  apply eff_bind_quiet; [apply Hq, keeps_updateStates|]. intros _.
  apply eff_known; [done|]. destruct (bool_decide (m_ID (it_Message it) ∈ h)) eqn:Hin; to_prop;
    [|by apply eff_restoreAccepted].
  apply eff_skip; [done|]. apply eff_quiet, Hq, keeps_updateStates.
Qed.

(** ** The sequence of a drain *)

(** What a drain of [all] does to the world behind it: on success everything is
    delivered; on a failure the inputs from the [j]th on are back in front of
    those that arrived, and no input before the [j]th is missing. *)
Definition drained (all : list queuedPendingInput) (w : EWorld) (r : result EngineError unit)
    (w' : EWorld) : Prop :=
  moves w w' /\ exists arrived : list queuedPendingInput,
    ew_arrived w' = ew_arrived w ++ arrived /\
    match r with
    | Ok _ => message_ids w' = deliver (message_ids w) (item_ids all) /\
              pending w' = pending w ++ arrived
    | Err _ => exists j k, (j <= k)%nat /\ (j < length all)%nat /\
              message_ids w' = deliver (message_ids w) (take k (item_ids all)) /\
              pending w' = merge_pending (drop j all) (pending w ++ arrived)
    end.

Definition drains (m : EM unit) (all : list queuedPendingInput) : Prop :=
  forall w r w', has_thread w -> m w = (r, w') -> drained all w r w'.

Lemma prepend_eq (l : list queuedPendingInput) w : l <> [] ->
  prependPendingInput l w =
    (Ok tt, set_engine (set_pending (merge_pending l (pending w)) (ew_engine w)) w).
Proof. by destruct l. Qed.

Lemma prepend_moves l w :
  moves w (set_engine (set_pending l (ew_engine w)) w).
Proof. split; try done; [by exists []|exists []; by rewrite app_nil_r]. Qed.

(** Delivering [l] at the head of [l ++ rest], putting it back on a failure. *)
Lemma drains_or_back {A} (m : EM A) l rest w r w' :
  (forall h, eff h m (item_ids l) (item_ids l)) -> l <> [] -> has_thread w ->
  (do a <- attempt m;;
   match a with
   | Ok _ => ret tt
   | Err e => do_ prependPendingInput (l ++ rest);; fail e
   end) w = (r, w') ->
  match r with
  | Ok _ => moves w w' /\ extends w w' /\ message_ids w' = deliver (message_ids w) (item_ids l)
  | Err _ => drained (l ++ rest) w r w'
  end.
Proof.
  intros Hm Hne Hw. destruct (Hm _ w Hw eq_refl) as (Hmv & Hex & Hr).
  unfold bind, attempt. destruct (m w) as [[a|e] w1]; simpl in *.
  - intros [= <- <-]. done.
  - rewrite prepend_eq by (by destruct l). unfold fail. intros [= <- <-].
    destruct Hex as (arrived & Harr & Hgh), Hr as [k Hk].
    split; [etrans; [exact Hmv|apply prepend_moves]|]. exists arrived. split; [done|].
    exists 0%nat, (k `min` length l)%nat. split_and!; [lia|destruct l; simpl; [done|lia]| |].
    + change (message_ids w1 = deliver (message_ids w) (take (k `min` length l) (item_ids (l ++ rest)))).
      rewrite Hk. unfold item_ids. rewrite map_app, take_app, length_map.
      replace (k `min` length l - length l)%nat with 0%nat by lia.
      rewrite take_0, app_nil_r. f_equal. destruct (decide (k <= length l)%nat).
      * f_equal. lia.
      * rewrite !take_ge by (rewrite length_map; lia). done.
    + change (merge_pending (l ++ rest) (pending w1) =
              merge_pending (drop 0 (l ++ rest)) (pending w ++ arrived)).
      by rewrite Harr.
Qed.

(** What was delivered before goes in front. *)
Lemma drained_prefix l all w1 w2 r w' :
  moves w1 w2 -> extends w1 w2 -> message_ids w2 = deliver (message_ids w1) (item_ids l) ->
  drained all w2 r w' -> drained (l ++ all) w1 r w'.
Proof.
  intros Hmv (a1 & Ha1 & Hg1) Hids (Hmv2 & a2 & Hg2 & Hr). split; [by etrans|]. exists (a1 ++ a2).
  split; [by rewrite Hg2, Hg1, app_assoc|].
  rewrite Hids, Ha1 in Hr. destruct r as [u|e].
  - destruct Hr as [Hi Hp]. unfold item_ids in *. rewrite map_app, deliver_app.
    split; [done|]. by rewrite Hp, app_assoc.
  - destruct Hr as (j & k & Hjk & Hj & Hi & Hp).
    exists (length l + j)%nat, (length l + k)%nat. rewrite length_app. split_and!; [lia|lia| |].
    + rewrite Hi. unfold item_ids. rewrite map_app, <- deliver_app. f_equal.
      rewrite <- (length_map item_id l). by rewrite take_app_add.
    + rewrite drop_app_add, Hp, app_assoc. done.
Qed.

Lemma flush_queued_spec turn queued rest w r w' : named queued -> has_thread w ->
  flush_queued env turn queued rest w = (r, w') ->
  match r with
  | Ok _ => moves w w' /\ extends w w' /\ message_ids w' = deliver (message_ids w) (item_ids queued)
  | Err _ => drained (queued ++ rest) w r w'
  end.
Proof.
  intros Hn Hw. destruct queued as [|it queued].
  - intros [= <- <-]. done.
  - apply drains_or_back; [|done|done]. intros h. by apply eff_batch.
Qed.

Lemma drained_quiet {A} (m : EM A) all w x w1 r w' : quiet m -> m w = (x, w1) ->
  drained all w1 r w' -> drained all w r w'.
Proof.
  intros Hq E Hd. specialize (Hq w). rewrite E in Hq. simpl in Hq.
  apply (drained_prefix [] all w w1); [by apply grows_moves|apply (gr_pending _ _ Hq)|by apply grows_ids|done].
Qed.

Lemma drains_sequence turn l : forall queued, named (queued ++ l) ->
  drains (commit_sequence env turn l queued) (queued ++ l).
Proof.
  induction l as [|it l IH]; intros queued Hn w r w' Hw E; simpl in E.
  - rewrite app_nil_r in *. apply flush_queued_spec in E; [|done|done].
    rewrite app_nil_r in E. destruct r; [|done]. destruct E as (Hmv & (arr & Harr & Hg) & Hi).
    split; [done|]. by exists arr.
  - destruct (negb (bool_decide (it_Origin it = OriginTurn))) eqn:Eo.
    { replace (queued ++ it :: l) with ((queued ++ [it]) ++ l) in * by (by rewrite <- app_assoc).
      by apply IH. }
    apply Forall_app in Hn as [Hnq Hn]. apply Forall_cons in Hn as [Hne Hn].
    apply bind_run in E as [(u & w1 & E1 & E)|(e & E1 & ->)];
      apply flush_queued_spec in E1; [|done|done|done|done..].
    destruct E1 as (Hmv & Hex & Hi). pose proof (mv_thread _ _ Hmv Hw) as Hw1.
    apply (drained_prefix queued _ w w1); [done..|].
    apply attempt_run in E as (x & w2 & E2 & E).
    pose proof (drains_or_back (commit_turn_input env turn it) [it] l w1) as Hback.
    unfold bind at 1, attempt in Hback. rewrite E2 in Hback.
    assert (forall h, eff h (commit_turn_input env turn it) (item_ids [it]) (item_ids [it])) as Heff
      by (intros h; by apply eff_turn_input).
    destruct x as [u'|e].
    2: { assert (exists e', r = Err e') as [e' ->] by (injection E as <- _; by eexists).
         exact (Hback (Err e') w' Heff ltac:(done) Hw1 E). }
    destruct (Hback (Ok tt) w2 Heff ltac:(done) Hw1 eq_refl) as (Hmv2 & Hex2 & Hi2).
    apply (drained_prefix [it] l w1 w2); [done..|].
    apply bind_run in E as [(u2 & w3 & E3 & E)|(e & E3 & ->)].
    + eapply drained_quiet; [apply quiet_finishDrain|exact E3|].
      apply (IH []); [done| |done].
      apply (mv_thread _ _ (grows_moves _ _ ltac:(pose proof (quiet_finishDrain env turn 1 (pendingRecordIDs [it]) w2) as Hq; by rewrite E3 in Hq))).
      by apply (mv_thread _ _ Hmv2).
    + destruct (total_finishDrain env turn 1 (pendingRecordIDs [it]) w2) as [a Ea].
      by rewrite E3 in Ea.
Qed.

End Engine.
