(* ===== verification/EngineInputSound.v ===== *)
(** * The inputs of the turn engine: why its loops end

    Inputs arrive in publications only, and each publication that lets one in
    uses up a window ([tight]). So the loops that drain until nothing waits have
    enough fuel. No error stands for spent fuel, and only an admission stages a
    terminal error ([plain]). *)

From S2P Require Import Prelude GoStd Llm Events PendingInputs PendingQueue EngineInput EngineInputFrame EngineInputDrain.

Local Open Scope Z_scope.
Local Open Scope juex_scope.

(** ** Errors *)

Fixpoint plain (e : EngineError) : bool :=
  match e with
  | ErrOutOfFuel | ErrStaged _ _ => false
  | ErrJoin e1 e2 => plain e1 && plain e2
  | _ => true
  end.

Definition plain_result {A} (r : result EngineError A) : bool :=
  match r with Ok _ => true | Err e => plain e end.

Lemma plain_join {A} e (r : result EngineError A) :
  plain e = true -> plain_result r = true -> plain (join_error e (error_of r)) = true.
Proof. destruct r; simpl; [done|]. by intros -> ->. Qed.

Lemma plain_staged e : plain e = true -> staged_in e = None.
Proof.
  induction e; simpl; try done. intros [H1 H2]%andb_prop. by rewrite IHe1, IHe2.
Qed.

Lemma plain_fuel e : plain e = true -> e <> ErrOutOfFuel.
Proof. by intros H ->. Qed.

(** ** Windows *)

(** Who holds the engine. *)
Definition holders (w : EWorld) : string * string * string * bool :=
  (active w, en_executingTurnID (ew_engine w), en_terminalPublishing (ew_engine w),
   en_maintenanceReserved (ew_engine w)).

Lemma grows_holders w w' : grows w w' -> holders w' = holders w.
Proof. intros [_ _ A E T M _ _]. unfold holders. by rewrite A, E, T, M. Qed.

(** No turn begins or ends; the history grows; nothing arrived, or a window was used up. *)
Definition tight (w w' : EWorld) : Prop :=
  holders w' = holders w /\
  (length (ew_windows w') <= length (ew_windows w))%nat /\
  ew_arrived w `prefix_of` ew_arrived w' /\
  (ew_arrived w' = ew_arrived w \/ (length (ew_windows w') < length (ew_windows w))%nat).

#[export] Instance tight_preorder : PreOrder tight.
Proof.
  split; [intros w; split_and!; [done..|by left]|].
  intros w1 w2 w3 (H1 & L1 & P1 & A1) (H2 & L2 & P2 & A2).
  split_and!; [congruence|lia|by etrans|].
  destruct A1 as [A1|]; [|right; lia]. destruct A2 as [A2|]; [|right; lia]. left. congruence.
Qed.

Lemma tight_same w w' : holders w' = holders w -> ew_windows w' = ew_windows w ->
  ew_arrived w' = ew_arrived w -> tight w w'.
Proof. intros Hh Hw Ha. split_and!; [done|by rewrite Hw|by rewrite Ha|by left]. Qed.

Lemma tight_prefix w w' : tight w w' -> ew_arrived w `prefix_of` ew_arrived w'.
Proof. by intros (_ & _ & ? & _). Qed.

Definition sound {A} (m : EM A) : Prop :=
  forall w, tight w (m w).2 /\ plain_result (m w).1 = true.

Lemma sound_ret {A} (a : A) : sound (ret a).
Proof. intros w. split; [reflexivity|done]. Qed.
Lemma sound_fail {A} e : plain e = true -> sound (fail e : EM A).
Proof. intros He w. split; [reflexivity|done]. Qed.

Lemma sound_bind {A B} (m : EM A) (k : A -> EM B) :
  sound m -> (forall a, sound (k a)) -> sound (bind m k).
Proof.
  intros Hm Hk w. unfold bind. destruct (Hm w) as [Ht Hp].
  destruct (m w) as [[a|e] w']; [|done]. destruct (Hk a w'). split; [by etrans|done].
Qed.

(** The error of a call that is tried is plain. *)
Lemma sound_attempt {A B} (m : EM A) (k : result EngineError A -> EM B) :
  sound m -> (forall r, plain_result r = true -> sound (k r)) -> sound (bind (attempt m) k).
Proof.
  intros Hm Hk w. unfold bind, attempt. destruct (Hm w) as [Ht Hp].
  destruct (m w) as [r w']. destruct (Hk r Hp w'). split; [by etrans|done].
Qed.

Lemma sound_get_engine : sound get_engine.
Proof. intros w. split; [reflexivity|done]. Qed.
Lemma sound_modify f :
  (forall w, holders (set_engine (f (ew_engine w)) w) = holders w) -> sound (modify_engine f).
Proof. intros Hf w. split; [by apply tight_same; [apply Hf|..]|done]. Qed.
Lemma sound_draw {A} (f : nat -> A) : sound (draw_outcome f).
Proof. intros w. split; [by apply tight_same|done]. Qed.
Lemma sound_missing : sound queue_missing.
Proof. intros w. split; [reflexivity|done]. Qed.
Lemma sound_has id : sound (threadHasMessageID id).
Proof. intros w. split; [reflexivity|done]. Qed.
Lemma sound_lift {A} (m : M A) : sound (lift m).
Proof.
  intros w. unfold lift. by destruct (m (ew_queue w)) as [[a|e] q]; (split; [apply tight_same|]).
Qed.

#[export] Hint Resolve sound_ret sound_get_engine sound_draw sound_missing sound_has
  sound_lift plain_join : sound.
#[export] Hint Extern 1 (sound (modify_engine _)) =>
  (apply sound_modify; intros ?; reflexivity) : sound.
#[export] Hint Extern 2 (sound (fail _)) => (apply sound_fail; solve [eauto with sound]) : sound.

Ltac sound_step :=
  match goal with
  | |- sound (bind (attempt _) _) => apply sound_attempt
  | |- sound (bind _ _) => apply sound_bind
  | |- forall _, _ => intro
  | |- sound (match ?x with _ => _ end) => destruct x; simpl in *
  | |- sound (prependPendingInput ?l) => destruct l; simpl
  | |- sound _ => solve [eauto with sound]
  end.
Ltac solve_sound := repeat (cbv zeta; sound_step).

Section Engine.
  Context (env : EngineEnv).

(** ** Publications *)

Lemma sound_emit ev : sound (emit env ev).
Proof.
  intros w. unfold emit. by destruct (ee_emit env (ew_calls w)); (split; [apply tight_same|]).
Qed.
#[local] Hint Resolve sound_emit : sound.

Lemma sound_emitPending ev : sound (emitPendingLifecycleEvent env ev).
Proof.
  intros w. destruct (emit_windows env ev w) as [Hl _]. split.
  - pose proof (quiet_emitPending env ev w) as Hq.
    assert (ew_arrived w `prefix_of` ew_arrived (emitPendingLifecycleEvent env ev w).2) as Hpre
      by (destruct (gr_pending _ _ Hq) as (l & _ & ->); by apply prefix_app_r).
    pose proof (grows_holders _ _ Hq) as Hh.
    destruct (ew_windows w) as [|x ws] eqn:Ews.
    + split_and!; [done|simpl in *; lia|done|]. left. clear Hq Hpre Hh.
      unfold emitPendingLifecycleEvent, bind, modify_engine, attempt, next_window.
      destruct (emit env ev (set_engine (set_publishing true (ew_engine w)) w)) as [r w1] eqn:E.
      assert (ew_windows w1 = [] /\ ew_arrived w1 = ew_arrived w) as [Hn Ha].
      { unfold emit in E. destruct (ee_emit env _); injection E as <- <-; done. }
      rewrite Hn. simpl. by destruct r.
    + rewrite <- Ews in *. split_and!; [done|lia|done|]. right. rewrite Ews in *. simpl in *. lia.
  - unfold emitPendingLifecycleEvent, bind at 1, modify_engine at 1.
    set (w0 := set_engine _ w). unfold bind at 1, attempt.
    destruct (emit env ev w0) as [r w1] eqn:E1.
    assert (plain_result r = true) as Hr.
    { unfold emit in E1. by destruct (ee_emit env (ew_calls w0)); injection E1 as <- <-. }
    unfold bind at 1, next_window. set (w2 := mkEWorld _ _ _ _ _ _). unfold bind at 1.
    destruct (total_arrivals env (hd [] (ew_windows w1)) w2) as [u Eu].
    destruct (arrivals env (hd [] (ew_windows w1)) w2) as [r3 w3]. simpl in Eu. subst r3.
    by destruct r.
Qed.
#[local] Hint Resolve sound_emitPending : sound.

Lemma sound_emit_all l : sound (emit_all env l).
Proof. induction l; simpl; solve_sound. Qed.
#[local] Hint Resolve sound_emit_all : sound.

Lemma sound_flush : sound (flushPendingEvents env).
Proof.
  intros w. destruct (total_flush env w) as [u Hu]. split; [|by rewrite Hu].
  unfold flushPendingEvents. clear Hu. generalize (length (ew_windows w) + 2)%nat as fuel.
  intros fuel. revert w. induction fuel as [|fuel IH]; intros w; [reflexivity|].
  cbn [flush_loop]. unfold bind at 1, get_engine.
  destruct (en_deferred (ew_engine w)) as [|ev l]; [by apply tight_same|].
  unfold bind at 1, modify_engine. unfold bind at 1. set (w0 := set_engine _ w).
  pose proof (sound_emit_all (ev :: l) w0) as [Ht _]. revert Ht.
  destruct (emit_all env (ev :: l) w0) as [[u'|e] w1]; intros Ht; [|done].
  etrans; [exact Ht|]. apply IH.
Qed.
#[local] Hint Resolve sound_flush : sound.

Lemma sound_stage ev : sound (stage ev).
Proof. unfold stage. solve_sound. Qed.
#[local] Hint Resolve sound_stage : sound.

Lemma sound_publishPendingEvent ev : sound (publishPendingEvent env ev).
Proof. unfold publishPendingEvent, publish_staged. solve_sound. Qed.
#[local] Hint Resolve sound_publishPendingEvent : sound.

Lemma sound_begin turn n ids : sound (beginPendingInputDrain env turn n ids).
Proof. unfold beginPendingInputDrain. solve_sound. Qed.

Lemma sound_finish turn n ids : sound (finishPendingInputDrain env turn n ids).
Proof. unfold finishPendingInputDrain. solve_sound. Qed.
#[local] Hint Resolve sound_begin sound_finish : sound.

(** ** Draining *)

Lemma sound_on_queue m : sound (on_queue m).
Proof. unfold on_queue. solve_sound. Qed.
#[local] Hint Resolve sound_on_queue : sound.

Lemma sound_append m e : sound (append_to_thread env m e).
Proof.
  unfold append_to_thread. apply sound_bind; [solve_sound|]. intros id w.
  by destruct (ee_append env (ew_calls w)); (split; [apply tight_same|]).
Qed.
#[local] Hint Resolve sound_append : sound.

Lemma sound_appendRecovered m : sound (appendRecoveredTurnInputLocked env m).
Proof.
  unfold appendRecoveredTurnInputLocked, appendInputMessage, markPendingInputMessageProcessed.
  solve_sound.
Qed.
#[local] Hint Resolve sound_appendRecovered : sound.

Lemma sound_persist_after {A} (m : EM A) p : sound m -> sound p -> sound (persist_after m p).
Proof. intros. unfold persist_after. solve_sound. Qed.

Lemma sound_restoreAccepted turn id m : sound (restoreAcceptedTurnInputLocked env turn id m).
Proof.
  unfold restoreAcceptedTurnInputLocked, prepareAdmittedInput, applyTurnInputPolicies,
    projectMessageLocked, emitProjectionApplied.
  repeat first [sound_step | apply sound_persist_after].
Qed.
#[local] Hint Resolve sound_restoreAccepted : sound.

Lemma sound_commit_items turn its : forall l, sound (commit_items env turn its l).
Proof.
  induction its as [|it its IH]; intros l; simpl; [auto with sound|].
  unfold appendInputMessage, emitProjectionApplied, projectMessageLocked, prepareAdmittedInput.
  solve_sound.
Qed.
#[local] Hint Resolve sound_commit_items : sound.

Lemma sound_batch turn its : sound (commitPendingInputBatchLocked env turn its).
Proof. unfold commitPendingInputBatchLocked. destruct its; solve_sound. Qed.
#[local] Hint Resolve sound_batch : sound.

Lemma sound_turn_input turn it : sound (commit_turn_input env turn it).
Proof. unfold commit_turn_input. solve_sound. Qed.
#[local] Hint Resolve sound_turn_input : sound.

Lemma sound_flush_queued turn q l : sound (flush_queued env turn q l).
Proof. unfold flush_queued. solve_sound. Qed.
#[local] Hint Resolve sound_flush_queued : sound.

Lemma sound_sequence turn l : forall q, sound (commit_sequence env turn l q).
Proof. induction l; intros q; simpl; solve_sound. Qed.
#[local] Hint Resolve sound_sequence : sound.

Lemma sound_drain turn : sound (drainPendingInputLifecycleLocked env turn).
Proof. unfold drainPendingInputLifecycleLocked, commitPendingInputSequenceLocked. solve_sound. Qed.

Lemma sound_repair : sound (repair_outcome env).
Proof. unfold repair_outcome. solve_sound. Qed.
#[local] Hint Resolve sound_repair : sound.

(** ** The start of a turn *)

Lemma sound_recordTurnStart turn m : sound (recordTurnStartLocked env turn m).
Proof.
  unfold recordTurnStartLocked, appendInputMessage, markPendingInputMessageProcessed. solve_sound.
Qed.

Lemma sound_prepend l : sound (prependPendingInput l).
Proof. unfold prependPendingInput. destruct l; auto with sound. Qed.

Lemma sound_mergeRecovered l : sound (mergeRecovered l).
Proof. intros w. destruct l; (split; [by apply tight_same|done]). Qed.

Lemma sound_already turn ids cause : match cause with Some e => plain e = true | None => True end ->
  sound (mark_already_processed env turn ids cause).
Proof.
  intros Hc. unfold mark_already_processed. destruct ids; destruct cause as [e|]; solve_sound;
    by (apply sound_fail; simpl; rewrite ?Hc).
Qed.

Lemma sound_flush_restored turn queued rest : sound (flush_restored env turn queued rest).
Proof.
  unfold flush_restored. destruct queued as [|it l]; [auto with sound|]. apply sound_attempt.
  { apply sound_bind; [auto with sound|]. intros []; auto with sound. }
  intros [u|e] Hp; [auto with sound|]. apply sound_bind; [apply sound_prepend|]. auto with sound.
Qed.

Lemma sound_restore_turn_input turn r rest : sound (restore_turn_input env turn r rest).
Proof.
  unfold restore_turn_input. apply sound_attempt; [apply sound_bind; auto with sound|].
  intros [u|e] Hp; [auto with sound|]. apply sound_bind; [apply sound_prepend|auto with sound].
Qed.
#[local] Hint Resolve sound_mergeRecovered sound_already sound_flush_restored
  sound_restore_turn_input : sound.

Lemma sound_restore_records turn skip records : forall queued already reached after,
  sound (restore_records env turn skip records queued already reached after).
Proof.
  induction records as [|record rest IH]; intros queued already reached after; cbn [restore_records].
  - apply sound_attempt; [auto with sound|]. intros [u|e] Hp; [|by apply sound_already].
    apply sound_attempt; [by apply sound_already|]. intros [u'|e] Hp2; [auto with sound|].
    apply sound_bind; [apply sound_prepend|]. auto with sound.
  - apply sound_bind; [auto with sound|]. intros known.
    destruct ((skip <>?s "") && (r_MessageID record =?s skip)).
    { apply sound_attempt; [auto with sound|]. intros [u|e] Hp; [apply IH|by apply sound_already]. }
    destruct reached; [destruct known; apply IH|]. destruct known; [apply IH|].
    case_bool_decide; [|apply IH].
    apply sound_attempt; [apply sound_bind; auto with sound|].
    intros [u|e] Hp; [apply IH|by apply sound_already].
Qed.

Lemma sound_restorePending turn skip : sound (restorePendingInput env turn skip).
Proof.
  unfold restorePendingInput. destruct (turn =?s ""); [auto with sound|].
  apply sound_bind; [auto with sound|]. intros []; [auto with sound|].
  apply sound_bind; [auto with sound|]. intros []; [auto with sound|].
  apply sound_bind; [auto with sound|]. intros records. apply sound_restore_records.
Qed.

Lemma sound_drainPending turn : sound (drainPendingInputLocked env turn).
Proof.
  unfold drainPendingInputLocked. apply sound_bind; [auto with sound|].
  intros []; [auto with sound|apply sound_drain].
Qed.

End Engine.

#[export] Hint Resolve sound_emit sound_emitPending sound_flush sound_stage
  sound_publishPendingEvent sound_on_queue sound_batch sound_drain sound_repair
  sound_recordTurnStart sound_restorePending sound_drainPending : sound.
