(* ===== verification/EngineInputProps.v ===== *)
(** * The inputs of the turn engine: what a caller may rely on

    Draining delivers every input once and in order, across failures and
    retries; the loops end; closing a turn waits for its inputs. *)

From S2P Require Import Prelude GoStd Llm Events PendingInputs PendingQueue EngineInput EngineInputFrame EngineInputDrain EngineInputSound.

Local Open Scope Z_scope.
Local Open Scope juex_scope.

Section Drains.
  Context (env : EngineEnv) (turn : string).

(** ** One drain *)

Lemma drain_drained w r w' : has_thread w -> named (pending w) ->
  drainPendingInputLifecycleLocked env turn w = (r, w') ->
  drained (pending w) (set_engine (set_pending [] (ew_engine w)) w) r w'.
Proof.
  intros Hw Hn E. unfold drainPendingInputLifecycleLocked, commitPendingInputSequenceLocked in E.
  unfold bind at 1, get_engine in E. unfold bind at 1, modify_engine in E.
  by apply (drains_sequence env turn (pending w) [] Hn _ _ _) in E.
Qed.

(** C7: a drain delivers the waiting inputs to the transcript, in order and each
    of them once. When it succeeds, what waits afterwards is what arrived
    meanwhile. When it fails, the transcript has a prefix of them, and every
    input that it misses is back in front of those that arrived: the list that
    waits begins at or before the point that was reached. *)
Theorem drain_delivers_in_order w r w' :
  has_thread w -> named (pending w) ->
  drainPendingInputLifecycleLocked env turn w = (r, w') ->
  active w' = active w /\
  exists arrived : list queuedPendingInput,
    ew_arrived w' = ew_arrived w ++ arrived /\
    match r with
    | Ok _ =>
      message_ids w' = deliver (message_ids w) (item_ids (pending w)) /\ pending w' = arrived
    | Err _ => exists j k,
      (j <= k)%nat /\ (j < length (pending w))%nat /\
      message_ids w' = deliver (message_ids w) (take k (item_ids (pending w))) /\
      pending w' = merge_pending (drop j (pending w)) arrived
    end.
Proof.
  intros Hw Hn E. destruct (drain_drained _ _ _ Hw Hn E) as (Hmv & arrived & Hg & Hr).
  split; [apply (mv_active _ _ Hmv)|]. by exists arrived.
Qed.

(** ** Retries *)

(** Drains, failed or not, and inputs that arrived between them. *)
Inductive attempts : EWorld -> EWorld -> Prop :=
| attempts_none w : attempts w w
| attempts_drain w w1 w2 r : attempts w w1 ->
    drainPendingInputLifecycleLocked env turn w1 = (r, w2) -> attempts w w2
| attempts_grows w w1 w2 : attempts w w1 -> grows w1 w2 -> attempts w w2.

(** Inputs that came to wait between two points. *)
Definition arrived_since (w w' : EWorld) : list queuedPendingInput :=
  drop (length (ew_arrived w)) (ew_arrived w').

(** What is still to come: the inputs [all] since the start. *)
Record owed (w : EWorld) (all : list queuedPendingInput) (w' : EWorld) : Prop := mkOwed {
  ow_thread : has_thread w';
  ow_sub : forall it, it ∈ pending w' -> it ∈ all;
  ow_deliver : deliver (message_ids w') (item_ids (pending w')) =
               deliver (message_ids w) (item_ids all);
}.

Lemma coherent_sub (l l' : list queuedPendingInput) :
  (forall it, it ∈ l -> it ∈ l') -> coherent l' -> coherent l.
Proof. intros Hs Hc a b Ha Hb. apply Hc; auto. Qed.

Lemma named_sub (l l' : list queuedPendingInput) :
  (forall it, it ∈ l -> it ∈ l') -> named l' -> named l.
Proof. unfold named. rewrite !Forall_forall. auto. Qed.

Lemma item_ids_app (l l' : list queuedPendingInput) : item_ids (l ++ l') = item_ids l ++ item_ids l'.
Proof. apply map_app. Qed.

Lemma arrived_since_app w w1 l :
  ew_arrived w1 = ew_arrived w ++ l -> arrived_since w w1 = l.
Proof. intros E. unfold arrived_since. rewrite E. apply drop_app_length. Qed.

Lemma arrived_since_step w w1 w2 l : ew_arrived w `prefix_of` ew_arrived w1 ->
  ew_arrived w2 = ew_arrived w1 ++ l -> arrived_since w w2 = arrived_since w w1 ++ l.
Proof.
  intros [l1 E1] E2. rewrite (arrived_since_app w w1 l1 E1). apply arrived_since_app.
  by rewrite E2, E1, app_assoc.
Qed.

Lemma owed_drain w all w1 r w2 arrived :
  owed w all w1 -> drainPendingInputLifecycleLocked env turn w1 = (r, w2) ->
  ew_arrived w2 = ew_arrived w1 ++ arrived ->
  named (all ++ arrived) -> coherent (all ++ arrived) -> owed w (all ++ arrived) w2.
Proof.
  intros [Ht Hsub Hd] E Ha Hn Hco.
  assert (named (pending w1)) as Hn1 by (eapply named_sub; [|exact Hn]; set_solver).
  destruct (drain_drained _ _ _ Ht Hn1 E) as (Hmv & arrived' & Hg & Hr).
  change (ew_arrived w2 = ew_arrived w1 ++ arrived') in Hg.
  assert (arrived' = arrived) as -> by (eapply app_inv_head; by rewrite <- Ha, <- Hg).
  destruct r as [u|e].
  { destruct Hr as [Hi Hp].
    change (pending w2 = arrived) in Hp.
    change (message_ids w2 = deliver (message_ids w1) (item_ids (pending w1))) in Hi.
    split; [by apply (mv_thread _ _ Hmv)|rewrite Hp; set_solver|].
    by rewrite Hp, Hi, Hd, item_ids_app, deliver_app. }
  destruct Hr as (j & k & Hjk & Hj & Hi & Hp).
  change (pending w2 = merge_pending (drop j (pending w1)) arrived) in Hp.
  change (message_ids w2 = deliver (message_ids w1) (take k (item_ids (pending w1)))) in Hi.
  assert (forall it, it ∈ drop j (pending w1) ++ arrived -> it ∈ all ++ arrived) as Hin.
  { intros it [Hx|Hx]%elem_of_app; apply elem_of_app; [left|by right].
    apply Hsub. rewrite <- (take_drop j (pending w1)). set_solver. }
  split; [by apply (mv_thread _ _ Hmv)| |].
  - rewrite Hp. intros it Hx%merge_pending_sub. auto.
  - rewrite Hp, merge_pending_deliver by (by eapply coherent_sub).
    rewrite Hi, item_ids_app. unfold item_ids at 2. rewrite <- skipn_map. fold (item_ids (pending w1)).
    rewrite deliver_retry, deliver_app, Hd by done. by rewrite <- deliver_app, <- item_ids_app.
Qed.

Lemma owed_grows w all w1 w2 arrived : owed w all w1 -> grows w1 w2 ->
  ew_arrived w2 = ew_arrived w1 ++ arrived -> owed w (all ++ arrived) w2.
Proof.
  intros [Ht Hsub Hd] Hg Ha. destruct (gr_pending _ _ Hg) as (l & Hp & Hl).
  assert (l = arrived) as -> by (eapply app_inv_head; by rewrite <- Ha, <- Hl).
  split.
  - by apply (mv_thread _ _ (grows_moves _ _ Hg)).
  - rewrite Hp. set_solver.
  - rewrite Hp, (grows_ids _ _ Hg), !item_ids_app, !deliver_app. by rewrite Hd.
Qed.

Lemma attempts_prefix w w1 : attempts w w1 -> ew_arrived w `prefix_of` ew_arrived w1.
Proof.
  induction 1 as [w|w w1 w2 r _ IH E|w w1 w2 _ IH Hg]; [done| |]; (etrans; [exact IH|]).
  - pose proof (sound_drain env turn w1) as [(_ & _ & Hp & _) _]. by rewrite E in Hp.
  - destruct (gr_pending _ _ Hg) as (a & _ & ->). by apply prefix_app_r.
Qed.

Lemma attempts_owed w w1 : has_thread w -> attempts w w1 ->
  named (pending w ++ arrived_since w w1) -> coherent (pending w ++ arrived_since w w1) ->
  owed w (pending w ++ arrived_since w w1) w1.
Proof.
  intros Hw. induction 1 as [w|w w1 w2 r Hat IH E|w w1 w2 Hat IH Hg].
  - rewrite (arrived_since_app w w []), app_nil_r by (by rewrite app_nil_r). by split.
  - pose proof (sound_drain env turn w1) as [(_ & _ & [arrived Ha] & _) _]. rewrite E in Ha. simpl in Ha.
    rewrite (arrived_since_step w w1 w2 arrived) by (by auto using attempts_prefix).
    rewrite app_assoc. intros Hn Hco. eapply owed_drain; [|exact E|done..].
    apply IH; [done|eapply named_sub, Hn|eapply coherent_sub, Hco]; set_solver.
  - destruct (gr_pending _ _ Hg) as (arrived & _ & Ha).
    rewrite (arrived_since_step w w1 w2 arrived) by (by auto using attempts_prefix).
    rewrite app_assoc. intros Hn Hco. eapply owed_grows; [|exact Hg|done].
    apply IH; [done|eapply named_sub, Hn|eapply coherent_sub, Hco]; set_solver.
Qed.

(** C8: however often draining is tried, whether the tries fail or not, and
    whatever arrives in between, a drain that succeeds leaves the transcript that one undisturbed drain of all the
    inputs would have left: none is lost, none is repeated and none overtakes
    another. *)
Theorem retried_drains_lose_nothing w w1 w' :
  has_thread w -> attempts w w1 ->
  named (pending w ++ arrived_since w w1) -> coherent (pending w ++ arrived_since w w1) ->
  drainPendingInputLifecycleLocked env turn w1 = (Ok tt, w') ->
  message_ids w' = deliver (message_ids w) (item_ids (pending w ++ arrived_since w w1)).
Proof.
  intros Hw Hat Hn Hco E. destruct (attempts_owed _ _ Hw Hat Hn Hco) as [Ht Hsub Hd].
  destruct (drain_drained w1 (Ok tt) w' Ht ltac:(by eapply named_sub) E) as (_ & a & _ & Hi & _).
  by rewrite <- Hd.
Qed.

(** ** Draining until nothing waits *)

(** The inputs of [w] and those that arrived since are in the transcript. *)
Record delivered (w w' : EWorld) : Prop := mkDelivered {
  dl_thread : has_thread w';
  dl_ids : message_ids w' = deliver (message_ids w) (item_ids (pending w ++ arrived_since w w'));
}.

(** A drain that succeeded: what waits now arrived since. *)
Record round (w w' : EWorld) : Prop := mkRound {
  rd_tight : tight w w';
  rd_active : active w' = active w;
  rd_thread : has_thread w';
  rd_pending : pending w' = arrived_since w w';
  rd_ids : message_ids w' = deliver (message_ids w) (item_ids (pending w));
}.

Lemma drain_round w w' : has_thread w -> named (pending w) ->
  drainPendingInputLifecycleLocked env turn w = (Ok tt, w') -> round w w'.
Proof.
  intros Hw Hn E. destruct (drain_drained _ _ _ Hw Hn E) as (Hmv & arrived & Hg & Hi & Hp).
  pose proof (sound_drain env turn w) as [Ht _]. rewrite E in Ht.
  split; [done|apply (mv_active _ _ Hmv)|by apply (mv_thread _ _ Hmv)| |done].
  by rewrite (arrived_since_app w w' arrived Hg).
Qed.

(** Two spans of the history. *)
Lemma arrived_since_trans w w1 w2 : tight w w1 -> ew_arrived w1 `prefix_of` ew_arrived w2 ->
  arrived_since w w2 = arrived_since w w1 ++ arrived_since w1 w2.
Proof.
  intros P1%tight_prefix [l E2]. rewrite (arrived_since_app w1 w2 l E2).
  by apply arrived_since_step.
Qed.

Lemma round_delivered w w1 w2 : round w w1 -> ew_arrived w1 `prefix_of` ew_arrived w2 -> delivered w1 w2 -> delivered w w2.
Proof.
  intros [Ht _ _ Hp Hi] Ht2 [Hth Hi2]. split; [done|].
  rewrite Hi2, Hi, Hp, (arrived_since_trans w w1 w2) by done.
  by rewrite !item_ids_app, !deliver_app.
Qed.

Definition enough (fuel : nat) (w : EWorld) : Prop :=
  (length (ew_windows w) + 2 <= fuel)%nat \/ (pending w = [] /\ 1 <= fuel)%nat.

Lemma enough_round fuel w w1 : enough (S fuel) w -> pending w <> [] -> round w w1 -> enough fuel w1.
Proof.
  intros [Hf|[? _]] Hne [(_ & _ & _ & [Ha|Hlt]) _ _ Hp _]; [| |done..].
  - right. split; [|lia]. rewrite Hp. apply (arrived_since_app w w1 []). by rewrite Ha, app_nil_r.
  - left. lia.
Qed.

Lemma sound_drain_loop fuel : forall w, tight w (drain_loop env fuel turn w).2.
Proof.
  induction fuel as [|fuel IH]; intros w; [reflexivity|]. cbn [drain_loop].
  unfold bind at 1, get_engine. destruct (en_pendingInput (ew_engine w)); [reflexivity|].
  destruct (negb _); [reflexivity|]. unfold bind. pose proof (sound_drain env turn w) as [Ht _].
  destruct (drainPendingInputLifecycleLocked env turn w) as [[u|e] w1]; [|done].
  etrans; [exact Ht|apply IH].
Qed.

Lemma drain_loop_ok fuel : forall w r w', has_thread w -> active w = turn -> enough fuel w ->
  named (pending w ++ arrived_since w w') -> drain_loop env fuel turn w = (r, w') ->
  match r with
  | Ok _ => pending w' = [] /\ active w' = turn /\ delivered w w'
  | Err e => plain e = true
  end.
Proof.
  induction fuel as [|fuel IH]; intros w r w' Hw Hact Hf Hn E; [destruct Hf as [?|[_ ?]]; lia|].
  cbn [drain_loop] in E. unfold bind at 1, get_engine in E.
  destruct (en_pendingInput (ew_engine w)) as [|it l] eqn:Ep.
  { injection E as <- <-. split_and!; [done..|]. split; [done|].
    unfold pending. rewrite Ep, (arrived_since_app w w []) by (by rewrite app_nil_r). done. }
  replace (negb (en_activeTurnID (ew_engine w) =?s turn)) with false in E
    by (symmetry; apply negb_false_iff; by apply bool_decide_eq_true_2).
  apply bind_run in E as [([] & w1 & E1 & E)|(e & E1 & ->)].
  - pose proof (drain_round w w1 Hw ltac:(by apply Forall_app in Hn as [? _]) E1) as Hr.
    pose proof (tight_prefix _ _ (sound_drain_loop fuel w1)) as Ht2. rewrite E in Ht2. simpl in Ht2.
    assert (match r with
            | Ok _ => pending w' = [] /\ active w' = turn /\ delivered w1 w'
            | Err e => plain e = true
            end) as Hres.
    { apply (IH w1); [apply Hr|by rewrite (rd_active _ _ Hr)|..|done].
      - eapply enough_round; [exact Hf| |exact Hr]. unfold pending. by rewrite Ep.
      - rewrite (rd_pending _ _ Hr), <- (arrived_since_trans w w1 w') by (done || apply Hr).
        by apply Forall_app in Hn as [_ ?]. }
    destruct r as [u|e]; [|done]. destruct Hres as (Hp & Ha & Hd). split_and!; [done..|].
    by eapply round_delivered.
  - pose proof (sound_drain env turn w) as [_ Hpl]. by rewrite E1 in Hpl.
Qed.

(** Draining until nothing waits ends. When it succeeds, nothing waits, the
    turn is still active, and the inputs that waited and all that arrived
    meanwhile are in the transcript, in order. *)
Theorem drain_until_empty_ends w r w' :
  has_thread w -> active w = turn -> named (pending w ++ arrived_since w w') ->
  drainPendingInputUntilEmptyLifecycleLocked env turn w = (r, w') ->
  match r with
  | Ok _ =>
    pending w' = [] /\ active w' = turn /\
    message_ids w' = deliver (message_ids w) (item_ids (pending w ++ arrived_since w w'))
  | Err e => e <> ErrOutOfFuel
  end.
Proof.
  intros Hw Ha Hn E.
  pose proof (drain_loop_ok _ w r w' Hw Ha ltac:(left; done) Hn E) as Hr.
  destruct r as [u|e]; [|by apply plain_fuel]. destruct Hr as (? & ? & []). done.
Qed.

(** ** The inputs of a turn that failed *)

Lemma repair_run w r w' : repair_outcome env w = (r, w') ->
  grows w w' /\ ew_arrived w' = ew_arrived w /\ ew_windows w' = ew_windows w /\
  pending w' = pending w /\ plain_result r = true.
Proof.
  unfold repair_outcome, bind, draw_outcome.
  destruct (ee_repair env (ew_calls w)); intros [= <- <-]; split_and!; try done; grow.
Qed.

(** One round of the loop: a repair, or none, then a drain. *)
Lemma preserve_before (repaired : bool) w r w' :
  (if repaired then ret tt else repair_outcome env) w = (r, w') ->
  grows w w' /\ ew_arrived w' = ew_arrived w /\ ew_windows w' = ew_windows w /\
  pending w' = pending w /\ plain_result r = true.
Proof. destruct repaired; [intros [= <- <-]; split_and!; try done; reflexivity|apply repair_run]. Qed.

Lemma attempts_since w w1 : attempts w w1 ->
  ew_arrived w1 = ew_arrived w ++ arrived_since w w1.
Proof. intros Hat. destruct (attempts_prefix _ _ Hat) as [l E]. by rewrite (arrived_since_app w w1 l E). Qed.

Lemma preserve_loop_prefix fuel : forall repaired w,
  ew_arrived w `prefix_of` ew_arrived (preserve_loop env fuel repaired turn w).2.
Proof.
  induction fuel as [|fuel IH]; intros repaired w; [reflexivity|]. cbn [preserve_loop].
  unfold bind at 1, get_engine. destruct (negb _); [reflexivity|].
  destruct (en_pendingInput (ew_engine w)); [reflexivity|].
  destruct ((do_ (if repaired then ret tt else repair_outcome env);;
    do_ drainPendingInputLifecycleLocked env turn;; preserve_loop env fuel true turn) w)
    as [r w'] eqn:E. simpl.
  apply bind_run in E as [(u & w1 & E1 & E)|(e & E1 & _)];
    apply preserve_before in E1 as (_ & Ea & _); rewrite <- Ea; [|reflexivity].
  pose proof (sound_drain env turn w1) as [Ht%tight_prefix _].
  apply bind_run in E as [(u2 & w2 & E2 & E)|(e & E2 & _)]; rewrite E2 in Ht; [|done].
  etrans; [exact Ht|]. specialize (IH true w2). by rewrite E in IH.
Qed.

Lemma preserve_loop_ok fuel : forall repaired w0 w r w',
  attempts w0 w -> has_thread w -> active w = turn -> enough fuel w ->
  named (pending w ++ arrived_since w w') -> preserve_loop env fuel repaired turn w = (r, w') ->
  exists w1, attempts w0 w1 /\
    match r with
    | Ok _ => pending w1 = [] /\ w' = set_engine (set_active "" (ew_engine w1)) w1
    | Err e => w' = w1 /\ active w' = turn /\ plain e = true
    end.
Proof.
  induction fuel as [|fuel IH]; intros repaired w0 w r w' Hat Hw Hact Hf Hn E;
    [destruct Hf as [?|[_ ?]]; lia|].
  cbn [preserve_loop] in E. unfold bind at 1, get_engine in E.
  replace (negb (en_activeTurnID (ew_engine w) =?s turn)) with false in E
    by (symmetry; apply negb_false_iff; by apply bool_decide_eq_true_2).
  destruct (en_pendingInput (ew_engine w)) as [|it l] eqn:Ep.
  { injection E as <- <-. by exists w. }
  apply bind_run in E as [(u & w1 & E1 & E)|(e & E1 & ->)];
    apply preserve_before in E1 as (Hg & Ea & Ew & Epe & Hpl);
    pose proof (attempts_grows _ _ _ Hat Hg) as Hat1.
  2: { exists w'. split_and!; [done..|by rewrite (gr_active _ _ Hg)|done]. }
  assert (arrived_since w w' = arrived_since w1 w') as Hs by (unfold arrived_since; by rewrite Ea).
  rewrite <- Epe, Hs in Hn.
  pose proof (mv_thread _ _ (grows_moves _ _ Hg) Hw) as Hw1.
  assert (named (pending w1)) as Hn1 by (by apply Forall_app in Hn as [? _]).
  apply bind_run in E as [([] & w2 & E2 & E)|(e & E2 & ->)];
    pose proof (attempts_drain _ _ _ _ Hat1 E2) as Hat2.
  - pose proof (drain_round w1 w2 Hw1 Hn1 E2) as Hr.
    pose proof (preserve_loop_prefix fuel true w2) as Ht2. rewrite E in Ht2. simpl in Ht2.
    apply (IH true w0 w2 r w' Hat2); [apply Hr|by rewrite (rd_active _ _ Hr), (gr_active _ _ Hg)| | |done].
    + apply (enough_round fuel w1 w2); [|rewrite Epe; unfold pending; by rewrite Ep|done].
      unfold enough. by rewrite Ew, Epe.
    + rewrite (rd_pending _ _ Hr), <- (arrived_since_trans w1 w2 w') by (done || apply Hr).
      by apply Forall_app in Hn as [_ ?].
  - exists w'. split; [done|]. split; [done|].
    pose proof (sound_drain env turn w1) as [_ Hpl2]. rewrite E2 in Hpl2. split; [|done].
    destruct (drain_drained w1 (Err e) w' Hw1 Hn1 E2) as [Hmv _].
    rewrite (mv_active _ _ Hmv). change (active w1 = turn). by rewrite (gr_active _ _ Hg).
Qed.


End Drains.

(** ** Closing a turn *)

Definition terminal (w : EWorld) : string := en_terminalPublishing (ew_engine w).

Section Closing.
  Context (env : EngineEnv).

Lemma quiet_recordTurnEnd completed turn cause : quiet (recordTurnEnd env completed turn cause).
Proof. unfold recordTurnEnd, pendingInputIDsForTurn. solve_quiet. Qed.

Lemma recordTurnEnd_logged completed turn cause w ev w' :
  recordTurnEnd env completed turn cause w = (Ok ev, w') ->
  TurnEnded ev ∈ ew_log w' /\ ev_TurnID ev = turn /\
  ev_Type ev = (if completed then "turn.completed" else "turn.errored")%string.
Proof.
  unfold recordTurnEnd. intros E.
  apply bind_run in E as [(ids & w1 & _ & E)|(? & _ & ?)]; [|done].
  apply bind_run in E as [(id & w2 & _ & E)|(? & _ & ?)]; [|done].
  apply bind_run in E as [(u & w3 & E3 & E)|(? & _ & ?)]; [|done].
  injection E as <- <-. split; [|done]. unfold emit in E3.
  destruct (ee_emit env (ew_calls w2)); [|discriminate E3..].
  injection E3 as _ <-. simpl. apply elem_of_app. right. by apply list_elem_of_singleton.
Qed.

(** The publication of the turn's end is over, and nothing else changed. *)
Record settled (turn : string) (w w' : EWorld) : Prop := mkSettled {
  se_terminal : terminal w' = "";
  se_active : active w' = active w;
  se_pending : extends w w';
  se_log : exists events, ew_log w' = ew_log w ++ events;
  se_executing : en_executingTurnID (ew_engine w') = en_executingTurnID (ew_engine w);
  se_maintenance : en_maintenanceReserved (ew_engine w') = en_maintenanceReserved (ew_engine w);
}.

Lemma settled_grows turn w w1 w2 : grows w w1 -> settled turn w1 w2 -> settled turn w w2.
Proof.
  intros Hg [T A P [l L] X M]. split; [done| | | | |].
  - by rewrite A, (gr_active _ _ Hg).
  - etrans; [apply (gr_pending _ _ Hg)|done].
  - destruct (gr_log _ _ Hg) as [l' E]. exists (l' ++ l). by rewrite L, E, app_assoc.
  - by rewrite X, (gr_executing _ _ Hg).
  - by rewrite M, (gr_maintenance _ _ Hg).
Qed.

Lemma finishTerminal_settled turn w : terminal w = turn ->
  settled turn w (finishTerminalPublication turn w).2.
Proof.
  intros Ht. unfold finishTerminalPublication, modify_engine. simpl. unfold terminal in Ht.
  rewrite bool_decide_eq_true_2 by done.
  split; try done; [exists []; by rewrite !app_nil_r|exists []; by rewrite app_nil_r].
Qed.

Lemma publishTerminal_settled turn ev w r w' : terminal w = turn ->
  publishTerminalEvent env turn ev w = (r, w') -> settled turn w w'.
Proof.
  intros Ht E. unfold publishTerminalEvent in E. apply attempt_run in E as (x & w1 & E1 & E).
  pose proof (quiet_on_queue _ (keeps_ApplyTerminalEvent (ee_queue env) ev) w) as Hg.
  rewrite E1 in Hg. simpl in Hg. eapply settled_grows; [exact Hg|].
  pose proof (finishTerminal_settled turn w1) as Hs.
  assert (terminal w1 = turn) as Ht1 by (unfold terminal; by rewrite (gr_terminal _ _ Hg)).
  specialize (Hs Ht1). unfold bind in E.
  destruct (finishTerminalPublication turn w1) as [[u|e] w2] eqn:E2; [|discriminate E2].
  destruct x; injection E as <- <-; done.
Qed.

Lemma commitError_settled turn cause w r w' : terminal w = turn ->
  commitAndPublishTurnError env turn cause w = (r, w') -> settled turn w w'.
Proof.
  intros Ht E. unfold commitAndPublishTurnError in E. apply attempt_run in E as (x & w1 & E1 & E).
  pose proof (quiet_recordTurnEnd false turn cause w) as Hg. rewrite E1 in Hg. simpl in Hg.
  assert (terminal w1 = turn) as Ht1 by (unfold terminal; by rewrite (gr_terminal _ _ Hg)).
  eapply settled_grows; [exact Hg|]. destruct x as [ev|e]; [by eapply publishTerminal_settled|].
  pose proof (finishTerminal_settled turn w1 Ht1) as Hs. unfold bind in E.
  destruct (finishTerminalPublication turn w1) as [[u|e'] w2] eqn:E2; [|discriminate E2].
  by injection E as <- <-.
Qed.

Lemma beginTerminal_run turn w :
  let w' := (beginTerminalPublication turn w).2 in
  terminal w' = turn /\ pending w' = pending w /\ ew_log w' = ew_log w /\
  active w' = (if active w =?s turn then "" else active w).
Proof.
  unfold beginTerminalPublication, modify_engine, active, pending. simpl.
  by destruct (en_activeTurnID (ew_engine w) =?s turn).
Qed.

(** What the call does once nothing waits. *)
Lemma close_settled turn w r w' : terminal w = turn ->
  (do r <- attempt (recordTurnEnd env true turn ErrEmit);;
   match r with
   | Err e =>
     do p <- attempt (commitAndPublishTurnError env turn e);;
     fail (join_error e (error_of p))
   | Ok ev => do_ publishTerminalEvent env turn ev;; ret true
   end) w = (r, w') ->
  settled turn w w' /\
  match r with
  | Ok b => b = true /\
    exists ev, TurnEnded ev ∈ ew_log w' /\ ev_TurnID ev = turn /\ ev_Type ev = "turn.completed"
  | Err _ => True
  end.
Proof.
  intros Ht E. apply attempt_run in E as (x & w1 & E1 & E).
  pose proof (quiet_recordTurnEnd true turn ErrEmit w) as Hg. rewrite E1 in Hg. simpl in Hg.
  assert (terminal w1 = turn) as Ht1 by (unfold terminal; by rewrite (gr_terminal _ _ Hg)).
  destruct x as [ev|e].
  - apply recordTurnEnd_logged in E1 as (Hlog & Hturn & Htype).
    apply bind_run in E as [(u & w2 & E2 & E)|(e & E2 & ->)];
      pose proof (publishTerminal_settled turn ev w1 _ _ Ht1 E2) as Hs.
    + injection E as <- <-. split; [by eapply settled_grows|]. split; [done|]. exists ev.
      split_and!; [|done|done]. destruct (se_log _ _ _ Hs) as [l ->]. set_solver.
    + split; [by eapply settled_grows|done].
  - apply attempt_run in E as (p & w2 & E2 & E). injection E as <- <-.
    split; [|done]. eapply settled_grows; [exact Hg|]. by eapply commitError_settled.
Qed.

(** C11: a turn is closed exactly when no input of its own waits: with one waiting
    the call changes nothing and the turn goes on. A call that closes the turn
    has committed its completion, and whether that succeeds or not, the turn is
    no longer active and no publication of an end is left open. *)
Theorem turn_closes_only_when_nothing_waits turn w r w' :
  turn <> "" -> finishOrContinueLocked env turn w = (r, w') ->
  (r = Ok false <-> active w = turn /\ pending w <> []) /\
  match r with
  | Ok false => w' = w
  | Ok true =>
    active w' <> turn /\ terminal w' = "" /\
    exists ev, TurnEnded ev ∈ ew_log w' /\ ev_TurnID ev = turn /\ ev_Type ev = "turn.completed"
  | Err _ => active w' <> turn /\ terminal w' = ""
  end.
Proof.
  intros Hne E. unfold finishOrContinueLocked, activeTurnHasNoPending in E.
  unfold bind at 1 2, get_engine, ret at 1 in E.
  assert ((active w = turn /\ pending w <> []) /\ r = Ok false /\ w' = w \/
    ~ (active w = turn /\ pending w <> []) /\ settled turn (beginTerminalPublication turn w).2 w' /\
    match r with
    | Ok b => b = true /\
      exists ev, TurnEnded ev ∈ ew_log w' /\ ev_TurnID ev = turn /\ ev_Type ev = "turn.completed"
    | Err _ => True
    end) as [(Hc & -> & ->)|(Hc & [Ht Ha _ _ _ _] & Hr)].
  { fold (active w) (pending w) in E. destruct (active w =?s turn) eqn:Ea; to_prop; simpl in E.
    - destruct (pending w) as [|it l] eqn:Ep; simpl in E; [|left; by injection E as <- <-].
      right. split; [naive_solver|]. apply close_settled in E; [done|apply beginTerminal_run].
    - right. split; [naive_solver|]. apply close_settled in E; [done|apply beginTerminal_run]. }
  - split; [done|done].
  - destruct (beginTerminal_run turn w) as (_ & _ & _ & Hact).
    assert (active w' <> turn) as Hna.
    { rewrite Ha, Hact. destruct (active w =?s turn) eqn:Ea; to_prop; congruence. }
    destruct r as [[]|e]; [|by destruct Hr|]; (split; [naive_solver|]); naive_solver.
Qed.

End Closing.
