(* ===== verification/EngineInputAdmission.v ===== *)
(** * The inputs of the turn engine: which turn starts when

    A turn starts only in an idle engine and its start is announced; a start that
    fails leaves the engine as idle as it was; a maintenance excludes both. *)

From S2P Require Import Prelude GoStd Llm Events PendingInputs PendingQueue PendingQueueInv EngineInput EngineInputFrame EngineInputDrain EngineInputSound EngineInputProps.

Local Open Scope Z_scope.
Local Open Scope juex_scope.

(** Who holds the engine, but for the active turn. *)
Definition others (w : EWorld) : string * string * bool :=
  (en_executingTurnID (ew_engine w), terminal w, en_maintenanceReserved (ew_engine w)).

Lemma grows_others w w' : grows w w' -> others w' = others w.
Proof. intros [_ _ _ E T M _ _]. unfold others, terminal. by rewrite E, T, M. Qed.

Lemma tight_others w w' : tight w w' -> active w' = active w /\ others w' = others w.
Proof. intros [Hh _]. unfold holders in Hh. unfold others, terminal. by injection Hh as -> -> -> ->. Qed.

(** No error of a staged end. *)
Definition unstaged {A} (r : result EngineError A) : Prop :=
  match r with Ok _ => True | Err e => staged_in e = None end.

Lemma plain_unstaged {A} (r : result EngineError A) : plain_result r = true -> unstaged r.
Proof. destruct r; [done|apply plain_staged]. Qed.

Lemma unstaged_join {A} e (r : result EngineError A) :
  staged_in e = None -> unstaged r -> staged_in (join_error e (error_of r)) = None.
Proof. destruct r; simpl; [done|]. by intros ->. Qed.

Section Engine.
  Context (env : EngineEnv).

(** ** A start that fails *)

Lemma preserve_loop_released fuel turn : forall repaired w r w',
  preserve_loop env fuel repaired turn w = (r, w') ->
  (active w' = active w \/ active w' = "") /\ others w' = others w /\ unstaged r.
Proof.
  induction fuel as [|fuel IH]; intros repaired w r w' E.
  { injection E as <- <-. split_and!; [by left|done..]. }
  cbn [preserve_loop] in E. unfold bind at 1, get_engine in E.
  destruct (negb _); [injection E as <- <-; split_and!; [by left|done..]|].
  destruct (en_pendingInput (ew_engine w)).
  { injection E as <- <-. split_and!; [by right|done..]. }
  apply bind_run in E as [(u & w1 & E1 & E)|(e & E1 & ->)];
    apply preserve_before in E1 as (Hg & _ & _ & _ & Hpl);
    pose proof (gr_active _ _ Hg); pose proof (grows_others _ _ Hg);
    [|split_and!; [by left|done|by apply (plain_unstaged (Err e : result EngineError unit))]].
  pose proof (sound_drain env turn w1) as [Ht Hp].
  apply bind_run in E as [(u2 & w2 & E2 & E)|(e & E2 & ->)]; rewrite E2 in Ht, Hp; simpl in *;
    apply tight_others in Ht as [Ha Ho].
  - destruct (IH _ _ _ _ E) as (Ha' & Ho' & Hu). split_and!; [|congruence|done].
    destruct Ha' as [Ha'|]; [left; congruence|by right].
  - split_and!; [left; congruence|congruence|by apply plain_staged].
Qed.

Lemma finishActive_run turn w :
  let w' := (finishActiveTurn turn w).2 in
  (finishActiveTurn turn w).1 = Ok tt /\ others w' = others w /\ ew_log w' = ew_log w /\
  active w' = (if active w =?s turn then "" else active w).
Proof.
  unfold finishActiveTurn, modify_engine, others, terminal, active. simpl.
  by destruct (en_activeTurnID (ew_engine w) =?s turn).
Qed.

(** The turn is given up: nothing is active. *)
Lemma release_run turn cause w r w' : active w = turn -> staged_in cause = None ->
  preservePendingInputBeforeFailedReservationReleaseLocked env turn cause w = (r, w') ->
  exists e, r = Ok e /\ staged_in e = None /\ active w' = "" /\ others w' = others w.
Proof.
  intros Ha Hc E. unfold preservePendingInputBeforeFailedReservationReleaseLocked in E.
  apply attempt_run in E as (x & w1 & E1 & E).
  apply preserve_loop_released in E1 as (Ha1 & Ho1 & Hu).
  destruct (finishActive_run turn w1) as (Hr & Ho2 & _ & Ha2). unfold bind in E.
  destruct (finishActiveTurn turn w1) as [[u|e] w2]; [|done]. injection E as <- <-. simpl in *.
  exists (join_error cause (error_of x)). split_and!; [done|by apply unstaged_join| |congruence].
  rewrite Ha2. destruct (active w1 =?s turn) eqn:Et; [done|].
  apply bool_decide_eq_false in Et. destruct Ha1; congruence.
Qed.

Lemma emitPending_logged ev w u w' :
  emitPendingLifecycleEvent env ev w = (Ok u, w') -> ev ∈ ew_log w'.
Proof.
  unfold emitPendingLifecycleEvent. intros E.
  apply bind_run in E as [(u1 & w1 & _ & E)|(? & _ & ?)]; [|done].
  apply attempt_run in E as (r & w2 & E2 & E).
  apply bind_run in E as [(win & w3 & E3 & E)|(? & _ & ?)]; [|done].
  apply bind_run in E as [(u4 & w4 & E4 & E)|(? & _ & ?)]; [|done].
  apply bind_run in E as [(u5 & w5 & E5 & E)|(? & _ & ?)]; [|done].
  destruct r as [[]|e]; [|done]. injection E as _ <-. injection E3 as <- <-. injection E5 as _ <-.
  unfold emit in E2. destruct (ee_emit env (ew_calls w1)); [|discriminate E2..].
  injection E2 as <-. simpl in *.
  match type of E4 with arrivals env ?l ?x = _ => pose proof (quiet_arrivals env l x) as Hq end.
  rewrite E4 in Hq. destruct (gr_log _ _ Hq) as [l Hl]. simpl in Hl. rewrite Hl. set_solver.
Qed.

(** A flush runs behind the call and leaves its result. *)
Lemma deferred_run {A} (m : EM A) w r w' : deferred m (flushPendingEvents env) w = (r, w') ->
  exists w1, m w = (r, w1) /\ grows w1 w'.
Proof.
  unfold deferred. intros E. apply attempt_run in E as (x & w1 & E1 & E). exists w1.
  pose proof (quiet_flush env w1) as Hq. destruct (total_flush env w1) as [u Hu].
  unfold bind in E. destruct (flushPendingEvents env w1) as [r2 w2]. simpl in Hu, Hq. subst r2.
  destruct x; injection E as <- <-; done.
Qed.

Lemma drop_run (created : bool) ids w d w' :
  (if created then attempt (lift (MarkDropped (ee_queue env) ids)) else ret (Ok tt)) w = (d, w') ->
  grows w w' /\ exists x, d = Ok x /\ unstaged x.
Proof.
  destruct created; [|intros [= <- <-]; split; [reflexivity|by exists (Ok tt)]].
  unfold attempt. pose proof (quiet_lift (MarkDropped (ee_queue env) ids) (keeps_remove _ _) w) as Hq.
  pose proof (sound_lift (MarkDropped (ee_queue env) ids) w) as [_ Hp].
  destruct (lift _ w) as [r w1]. intros [= <- <-]. split; [done|]. exists r.
  split; [done|by apply plain_unstaged].
Qed.

(** How an admission of a turn that was reserved just now ends. *)
Record admitted (turn : string) {A} (w : EWorld) (r : result EngineError A) (w' : EWorld) : Prop :=
  mkAdmitted {
  ad_executing : en_executingTurnID (ew_engine w') = en_executingTurnID (ew_engine w);
  ad_maintenance : en_maintenanceReserved (ew_engine w') = en_maintenanceReserved (ew_engine w);
  ad_end : match r with
    | Ok _ => active w' = turn /\ terminal w' = terminal w /\
              exists m, TurnAdmitted turn m false ∈ ew_log w'
    | Err e => active w' = "" /\
              (staged_in e = None /\ terminal w' = terminal w \/
               exists cause, e = ErrStaged turn cause /\ terminal w' = turn)
    end;
}.

Lemma admitted_grows turn {A} w w1 (r : result EngineError A) w2 w3 : active w1 = active w ->
  others w1 = others w -> grows w2 w3 -> admitted turn w1 r w2 -> admitted turn w r w3.
Proof.
  intros Ha Ho Hg [E M R]. injection Ho as Ho1 Ho2 Ho3.
  split; [by rewrite (gr_executing _ _ Hg), E|by rewrite (gr_maintenance _ _ Hg), M|].
  assert (terminal w3 = terminal w2) as Ht by apply (gr_terminal _ _ Hg).
  rewrite (gr_active _ _ Hg), Ht, <- Ho2. destruct r; [|done].
  destruct R as (? & ? & m & Hm). split_and!; [done..|]. exists m.
  destruct (gr_log _ _ Hg) as [l ->]. set_solver.
Qed.

(** A failure after the announcement, or of it. *)
Lemma give_up_run turn (created : bool) ids {A} e w (r : result EngineError A) w' :
  active w = turn -> staged_in e = None ->
  (do d <- (if created then attempt (lift (MarkDropped (ee_queue env) ids)) else ret (Ok tt));;
   do e' <- preservePendingInputBeforeFailedReservationReleaseLocked env turn
              (join_error e (error_of d));;
   fail e') w = (r, w') -> admitted turn w r w'.
Proof.
  intros Ha He E.
  apply bind_run in E as [(d & w1 & E1 & E)|(e1 & E1 & _)];
    apply drop_run in E1 as (Hg & x & Hx & Hu); [|discriminate Hx]. injection Hx as ->.
  apply bind_run in E as [(e' & w2 & E2 & E)|(e' & E2 & _)];
    (apply release_run in E2 as (e2 & He2 & Hs & Ha2 & Ho2);
     [|by rewrite (gr_active _ _ Hg)|by apply unstaged_join]); [|discriminate].
  injection He2 as ->. injection E as <- <-.
  rewrite (grows_others _ _ Hg) in Ho2. injection Ho2 as ? ? ?.
  split; [done|done|]. split; [done|]. by left.
Qed.

Lemma give_up_staged_run turn (created : bool) ids {A} e w (r : result EngineError A) w' :
  active w = turn -> staged_in e = None ->
  (do d <- (if created then attempt (lift (MarkDropped (ee_queue env) ids)) else ret (Ok tt));;
   do e' <- preservePendingInputBeforeFailedReservationReleaseLocked env turn
              (join_error e (error_of d));;
   do staged <- stageTurnErrorLocked turn e';;
   fail staged) w = (r, w') -> admitted turn w r w'.
Proof.
  intros Ha He E.
  apply bind_run in E as [(d & w1 & E1 & E)|(e1 & E1 & _)];
    apply drop_run in E1 as (Hg & x & Hx & Hu); [|discriminate Hx]. injection Hx as ->.
  apply bind_run in E as [(e' & w2 & E2 & E)|(e' & E2 & _)];
    (apply release_run in E2 as (e2 & He2 & Hs & Ha2 & Ho2);
     [|by rewrite (gr_active _ _ Hg)|by apply unstaged_join]); [|discriminate].
  rewrite (grows_others _ _ Hg) in Ho2. injection Ho2 as Hex Hte Hma.
  unfold stageTurnErrorLocked, beginTerminalPublication, modify_engine, bind, ret, fail in E.
  injection E as <- <-. unfold active in Ha2.
  split; unfold active; simpl; destruct (_ =?s _); try done;
    (split; [done|right; by exists e']).
Qed.

Lemma commit_run turn record w r w' : active w = turn ->
  commit_admission env turn record w = (r, w') -> admitted turn w r w'.
Proof.
  intros Ha E. unfold commit_admission in E. cbv zeta in E.
  apply attempt_run in E as (x & w1 & E1 & E).
  match type of E1 with emitPendingLifecycleEvent _ ?ev _ = _ =>
    pose proof (quiet_emitPending env ev w) as Hg;
    pose proof (sound_emitPending env ev w) as [_ Hp] end.
  rewrite E1 in Hg, Hp. simpl in Hg, Hp.
  assert (active w1 = turn) as Ha1 by (by rewrite (gr_active _ _ Hg)).
  assert (admitted turn w1 r w' -> admitted turn w r w') as Hback.
  { intros [X M R]. split; [by rewrite X, (gr_executing _ _ Hg)|by rewrite M, (gr_maintenance _ _ Hg)|].
    assert (terminal w1 = terminal w) as <- by apply (gr_terminal _ _ Hg). done. }
  destruct x as [u|e].
  - apply attempt_run in E as (c & w2 & E2 & E).
    pose proof (quiet_lift _ (keeps_CommitTurnInput (ee_queue env) (r_ID record) turn) w1) as Hg2.
    pose proof (sound_lift (CommitTurnInput (ee_queue env) (r_ID record) turn) w1) as [_ Hp2].
    rewrite E2 in Hg2, Hp2. simpl in Hg2, Hp2. apply Hback.
    assert (active w2 = turn) as Ha2 by (by rewrite (gr_active _ _ Hg2)).
    destruct c as [v|e].
    + injection E as <- <-.
      split; [apply (gr_executing _ _ Hg2)|apply (gr_maintenance _ _ Hg2)|].
      split_and!; [done|apply (gr_terminal _ _ Hg2)|]. exists (r_MessageID record).
      apply emitPending_logged in E1. destruct (gr_log _ _ Hg2) as [l ->]. set_solver.
    + apply give_up_staged_run in E; [|done|by apply plain_staged].
      destruct E as [X M R]. split; [by rewrite X, (gr_executing _ _ Hg2)|by rewrite M, (gr_maintenance _ _ Hg2)|].
      assert (terminal w2 = terminal w1) as <- by apply (gr_terminal _ _ Hg2). done.
  - apply Hback. apply give_up_run in E; [done..|by apply plain_staged].
Qed.

(** The reservation of [admitTurnMessage]. *)
Lemma admit_run turn msg w r w' : admitTurnMessage env turn msg w = (r, w') ->
  match r with
  | Ok _ =>
    en_maintenanceReserved (ew_engine w) = false /\ terminal w = "" /\ turn <> "" /\
    (active w = "" \/ active w = turn) /\ active w' = turn /\ others w' = others w /\
    (active w = "" -> exists m, TurnAdmitted turn m false ∈ ew_log w')
  | Err e =>
    staged_in e = None /\ active w' = active w /\ others w' = others w \/
    active w = "" /\ active w' = "" /\ terminal w = "" /\ turn <> "" /\
    en_executingTurnID (ew_engine w') = en_executingTurnID (ew_engine w) /\
    en_maintenanceReserved (ew_engine w') = en_maintenanceReserved (ew_engine w) /\
    exists cause, e = ErrStaged turn cause /\ terminal w' = turn
  end.
Proof.
  unfold admitTurnMessage, bind at 1, get_engine. intros E.
  destruct (en_maintenanceReserved (ew_engine w)) eqn:Em; [injection E as <- <-; by left|].
  destruct (turn =?s "") eqn:Et; [injection E as <- <-; by left|].
  apply bool_decide_eq_false in Et.
  unfold bind at 1, queue_missing in E.
  destruct (w_nil (ew_queue w)); [injection E as <- <-; by left|].
  destruct (refuse_while_closing (ew_engine w) turn) eqn:Er; [injection E as <- <-; by left|].
  unfold refuse_while_closing in Er.
  assert (terminal w = "" /\ (active w = "" \/ active w = turn)) as [Hterm Hact].
  { unfold terminal, active. apply orb_false_elim in Er as [[Er1 _]%orb_false_elim Er2].
    apply negb_false_iff, bool_decide_eq_true in Er1. split; [done|].
    apply andb_false_iff in Er2 as [Er2|Er2]; apply negb_false_iff, bool_decide_eq_true in Er2; tauto. }
  match type of E with bind (lift ?m) _ _ = _ =>
    pose proof (quiet_lift m ltac:(unfold StageTurnInput; eauto with keeps) w) as Hg;
    pose proof (sound_lift m w) as [_ Hp] end.
  apply bind_run in E as [(record & w1 & E1 & E)|(e & E1 & ->)]; rewrite E1 in Hg, Hp; simpl in Hg, Hp.
  2: { left. split; [by apply plain_staged|]. split; [apply (gr_active _ _ Hg)|by apply grows_others]. }
  pose proof (gr_active _ _ Hg) as Ha1. pose proof (grows_others _ _ Hg) as Ho1.
  destruct (en_activeTurnID (ew_engine w) =?s "") eqn:Ea.
  - apply bool_decide_eq_true in Ea. unfold bind at 1, modify_engine in E.
    apply deferred_run in E as (w2 & E2 & Hg2). apply commit_run in E2; [|done].
    match type of E2 with admitted _ ?wa _ _ =>
      apply (admitted_grows turn wa wa r w2 w' eq_refl eq_refl Hg2) in E2 end.
    destruct E2 as [X M R]. change (en_executingTurnID (ew_engine w') = en_executingTurnID (ew_engine w1)) in X.
    change (en_maintenanceReserved (ew_engine w') = en_maintenanceReserved (ew_engine w1)) in M.
    injection Ho1 as O1 O2 O3. rewrite O1 in X. rewrite O3 in M.
    destruct r as [rec|e].
    + destruct R as (? & R2 & R3). split_and!; try done. change (terminal w' = terminal w1) in R2.
      unfold others. by rewrite X, M, R2, O2.
    + destruct R as (R1 & [[R2 R3]|(cause & -> & R2)]).
      * left. split_and!; [done|by rewrite R1|]. change (terminal w' = terminal w1) in R3.
        unfold others. by rewrite X, M, R3, O2.
      * right. split_and!; try done; [by rewrite M|by exists cause].
  - apply bool_decide_eq_false in Ea. unfold bind, modify_engine, ret in E. injection E as <- <-.
    destruct Hact as [|Hact]; [done|]. split_and!; try done; try (by right).
Qed.

(** ** An execution *)

Lemma staged_run {A} (m : EM A) w r w' : with_staged env m w = (r, w') ->
  exists x w1, m w = (x, w1) /\
  match x with
  | Ok a => r = Ok a /\ w' = w1
  | Err e => (exists e', r = Err e') /\
    match staged_in e with
    | None => w' = w1
    | Some (turn, cause) => exists y, commitAndPublishTurnError env turn cause w1 = (y, w')
    end
  end.
Proof.
  unfold with_staged. intros E. apply attempt_run in E as (x & w1 & E1 & E). exists x, w1.
  split; [done|]. destruct x as [a|e]; [by injection E as <- <-|].
  unfold publishStagedTerminalError in E. destruct (staged_in e) as [[turn cause]|].
  - apply bind_run in E as [(e' & w2 & E2 & E)|(e' & E2 & _)];
      apply attempt_run in E2 as (y & w3 & E3 & E2); [|discriminate E2].
    injection E2 as <- <-. injection E as <- <-. split; eauto.
  - injection E as <- <-. split; eauto.
Qed.

Lemma execution_admitted turn msg w r w' :
  admitTurnMessageForExecution env turn msg w = (r, w') ->
  match r with
  | Ok _ =>
    en_maintenanceReserved (ew_engine w) = false /\ terminal w = "" /\ turn <> "" /\
    (active w = "" \/ active w = turn) /\
    active w' = turn /\ en_executingTurnID (ew_engine w') = turn /\ terminal w' = "" /\
    (active w = "" -> exists m, TurnAdmitted turn m false ∈ ew_log w')
  | Err _ =>
    active w' = active w /\ terminal w' = terminal w /\
    en_executingTurnID (ew_engine w') = en_executingTurnID (ew_engine w) /\
    en_maintenanceReserved (ew_engine w') = en_maintenanceReserved (ew_engine w)
  end.
Proof.
  unfold admitTurnMessageForExecution. intros E. apply staged_run in E as (x & w1 & E1 & E).
  apply bind_run in E1 as [(record & w2 & E2 & E1)|(e & E2 & ->)]; apply admit_run in E2.
  - destruct E2 as (Hm & Ht & Hne & Ha & Ha2 & Ho & Hlog).
    unfold markTurnExecutionStarted, modify_engine, bind, ret in E1. injection E1 as <- <-.
    destruct E as [-> ->]. injection Ho as O1 O2 O3. unfold active in Ha2 at 1. simpl.
    rewrite Ha2, bool_decide_eq_true_2 by done. split_and!; try done. by rewrite <- Ht.
  - destruct E as [(e' & ->) E].
    destruct E2 as [(Hs & Ha & Ho)|(Ha & Ha' & Ht & Hne & X & M & cause & -> & Ht')].
    + rewrite Hs in E. subst w'. injection Ho as O1 O2 O3. done.
    + simpl in E. destruct E as [y E]. apply commitError_settled in E; [|done].
      destruct E as [T A _ _ X' M']. split_and!; congruence.
Qed.

(** *** The input of a refused admission *)

(** No input arrives: publications leave the queue and what waits alone. *)
Record undisturbed (w w' : EWorld) : Prop := mkUndisturbed {
  un_queue : ew_queue w' = ew_queue w;
  un_windows : ew_windows w' = [];
  un_pending : pending w' = pending w;
  un_active : active w' = active w;
}.

Lemma undisturbed_trans w1 w2 w3 : undisturbed w1 w2 -> undisturbed w2 w3 -> undisturbed w1 w3.
Proof. intros [? ? ? ?] [? ? ? ?]. split; congruence. Qed.

Lemma undisturbed_emit ev w : ew_windows w = [] ->
  undisturbed w (emitPendingLifecycleEvent env ev w).2 /\
  ((emitPendingLifecycleEvent env ev w).1 = Ok tt \/ (emitPendingLifecycleEvent env ev w).1 = Err ErrEmit).
Proof.
  intros Hw. unfold emitPendingLifecycleEvent. unfold bind, modify_engine, attempt, next_window, ret, fail.
  cbn [fst snd ew_windows]. unfold emit. cbn [ew_calls set_engine ew_engine ew_queue ew_windows ew_log ew_arrived].
  destruct (ee_emit env (ew_calls w)); cbn [ew_windows set_engine]; rewrite Hw;
    (split; [by split|first [by left|by right]]).
Qed.

Lemma undisturbed_emit_all l : forall w, ew_windows w = [] -> undisturbed w (emit_all env l w).2.
Proof.
  induction l as [|ev l IH]; intros w Hw; [by split|]. cbn [emit_all]. unfold bind, attempt.
  pose proof (undisturbed_emit ev w Hw) as [Hu _]. destruct (emitPendingLifecycleEvent env ev w) as [r w1].
  eapply undisturbed_trans; [exact Hu|]. apply IH, Hu.
Qed.

Lemma undisturbed_flush fuel : forall w, ew_windows w = [] -> undisturbed w (flush_loop env fuel w).2.
Proof.
  induction fuel as [|k IH]; intros w Hw; [by split|]. cbn [flush_loop]. unfold bind at 1, get_engine.
  destruct (en_deferred (ew_engine w)) as [|ev l]; [by split|]. unfold bind at 1, modify_engine. cbv beta iota.
  match goal with |- undisturbed _ (bind (emit_all env ?l) _ ?x).2 =>
    pose proof (undisturbed_emit_all l x Hw) as Hu; unfold bind; destruct (emit_all env l x) as [[u|e] w1] end.
  - eapply undisturbed_trans; [eapply undisturbed_trans; [|exact Hu]; by split|]. apply IH, Hu.
  - eapply undisturbed_trans; [|exact Hu]. by split.
Qed.

(** Nothing waits, and the queue is left alone when the turn is given up. *)
Lemma release_queue turn cause w : pending w = [] ->
  let '(r, w') := preservePendingInputBeforeFailedReservationReleaseLocked env turn cause w in
  r = Ok cause /\ ew_queue w' = ew_queue w /\ ew_windows w' = ew_windows w.
Proof.
  intros Hp. unfold preservePendingInputBeforeFailedReservationReleaseLocked, preservePendingInputAfterFailureLocked.
  unfold bind at 1, attempt. rewrite (Nat.add_comm _ 2). cbn [preserve_loop Nat.add]. unfold bind at 1, get_engine.
  unfold pending in Hp. rewrite Hp. destruct (negb _); done.
Qed.

(** An admission of its own record whose announcement alone fails. *)
Lemma refused_commit turn record w w' : ew_windows w = [] -> pending w = [] ->
  r_Origin record = OriginTurn -> r_State record = StateAccepting -> r_TurnID record = turn ->
  commit_admission env turn record w = (Err ErrEmit, w') ->
  ew_windows w' = [] /\ MarkDropped (ee_queue env) [r_ID record] (ew_queue w) = (Ok tt, ew_queue w').
Proof.
  intros Hw Hp Ho Hs Ht E. unfold commit_admission in E. rewrite Ho, Hs, Ht in E.
  rewrite !bool_decide_eq_true_2 in E by done. change (state_eqb StateAccepting StateAccepting) with true in E.
  cbn [andb] in E.
  apply attempt_run in E as (x & w1 & E1 & E).
  pose proof (undisturbed_emit (TurnAdmitted turn (r_MessageID record) false) w Hw) as [[Uq Uw Up _] Hx].
  rewrite E1 in Uq, Uw, Up, Hx. cbn [fst snd] in *. destruct x as [u|e].
  - apply attempt_run in E as (c & w2 & _ & E). destruct c; [done|].
    apply bind_run in E as [(d & w3 & _ & E)|(e3 & E3 & _)]; [|unfold attempt in E3; by destruct (lift _ w2)].
    apply bind_run in E as [(e4 & w4 & _ & E)|(e4 & E4 & _)]; [done|].
    exfalso. unfold preservePendingInputBeforeFailedReservationReleaseLocked in E4.
    apply attempt_run in E4 as (y & w5 & _ & E4). unfold bind, finishActiveTurn, modify_engine, ret in E4. done.
  - destruct Hx as [|[= ->]]; [done|]. apply bind_run in E as [(d & w2 & E2 & E)|(? & E2 & _)]; [|unfold attempt in E2; by destruct (lift _ w1)].
    unfold attempt, lift in E2. rewrite Uq in E2. unfold bind at 1 in E.
    destruct (MarkDropped (ee_queue env) [r_ID record] (ew_queue w)) as [[u|qe] q] eqn:Ed; injection E2 as <- <-.
    + match type of E with context [preservePendingInputBeforeFailedReservationReleaseLocked _ _ ?c ?x] =>
        pose proof (release_queue turn c x) as Hr; destruct (preservePendingInputBeforeFailedReservationReleaseLocked env turn c x) as [r3 w3] end.
      destruct Hr as (-> & Hq & Hw3); [unfold pending in *; by rewrite <- Hp, <- Up|].
      injection E as <-. cbn in Hq, Hw3. rewrite Hq, Hw3. destruct u. done.
    + match type of E with context [preservePendingInputBeforeFailedReservationReleaseLocked _ _ ?c ?x] =>
        pose proof (release_queue turn c x) as Hr; destruct (preservePendingInputBeforeFailedReservationReleaseLocked env turn c x) as [r3 w3] end.
      destruct Hr as (-> & _); [unfold pending in *; by rewrite <- Hp, <- Up|]. done.
Qed.

(** The input that [StageTurnInput] has recorded for the turn. *)
Definition staged_input (turn : string) (msg : Message) (q : World) (record : PendingInputRecord) (q' : World) : Prop :=
  StageTurnInput (ee_queue env) turn (ClassifyUserMessage msg) false q = (Ok record, q') /\
  r_Origin record = OriginTurn /\ r_State record = StateAccepting /\ r_TurnID record = turn.

Lemma refused_gone turn msg w w' record q1 : active w = "" -> pending w = [] -> ew_windows w = [] -> inv (ew_queue w) ->
  staged_input turn msg (ew_queue w) record q1 -> all_valid (q_records (w_queue q1)) (q_order (w_queue q1)) ->
  admitTurnMessageForExecution env turn msg w = (Err ErrEmit, w') ->
  gone (r_ID record) (w_queue (ew_queue w')) (w_file (ew_queue w')).
Proof.
  intros Ha Hp Hw Hinv (Est & Ho & Hs & Ht) Hv E. unfold admitTurnMessageForExecution, with_staged in E.
  apply attempt_run in E as (x & w1 & E1 & E). destruct x as [m|e]; [done|].
  unfold publishStagedTerminalError in E. destruct (staged_in e) as [[t c]|] eqn:Est'.
  { exfalso. apply bind_run in E as [(e' & w2 & E2 & E)|(e' & E2 & _)];
      apply attempt_run in E2 as (y & w3 & _ & E2); [|discriminate]. injection E2 as <- <-. injection E as E _.
    destruct y; cbn in E; [subst e; done|done]. }
  injection E as -> <-. apply bind_run in E1 as [(r & w2 & _ & E1)|(e' & E1 & [= <-])]; [done|].
  unfold admitTurnMessage, bind at 1, get_engine in E1.
  destruct (en_maintenanceReserved _); [done|]. case_bool_decide as Hturn; [done|].
  unfold bind at 1, queue_missing in E1. destruct (w_nil (ew_queue w)) eqn:Hnil; [done|].
  destruct (refuse_while_closing _ _); [done|]. unfold active in Ha. rewrite Ha in E1.
  rewrite (bool_decide_eq_false_2 (""%string = turn)) in E1 by congruence.
  unfold bind at 1, lift at 1 in E1. rewrite Est in E1. rewrite (bool_decide_eq_true_2 (""%string = ""%string)) in E1 by done.
  unfold bind at 1, modify_engine in E1. unfold deferred in E1. apply attempt_run in E1 as (x & w2 & E2 & E1).
  destruct (total_flush env w2) as [u Hu]. unfold bind in E1.
  pose proof (undisturbed_flush (length (ew_windows w2) + 2) w2) as Hf. change (flush_loop env _ w2) with (flushPendingEvents env w2) in Hf.
  destruct (flushPendingEvents env w2) as [r3 w3]. simpl in Hu, Hf. subst r3. destruct x as [|e]; [done|]. injection E1 as -> ->.
  apply refused_commit in E2 as [Hw2 Ed]; [|done..]. rewrite (un_queue _ _ (Hf Hw2)).
  cbn in Ed. pose proof (storeTurnInput_loaded (ee_queue env) turn (ClassifyUserMessage msg) false StateAccepting (ew_queue w) Hinv) as HL.
  change (storeTurnInput _ _ _ _ _ _) with (StageTurnInput (ee_queue env) turn (ClassifyUserMessage msg) false (ew_queue w)) in HL.
  rewrite Est in HL. eapply remove_gone; [|by split|exact Ed].
  pose proof (keeps_storeTurnInput (ee_queue env) turn (ClassifyUserMessage msg) false StateAccepting (ew_queue w)) as (Hk & _).
  change (storeTurnInput _ _ _ _ _ _) with (StageTurnInput (ee_queue env) turn (ClassifyUserMessage msg) false (ew_queue w)) in Hk.
  rewrite Est in Hk. cbn in Hk. congruence.
Qed.

(** C10: admitting a turn for execution either starts it, or leaves who holds the
    engine as it was. It starts only while nothing is published and no other turn
    and no maintenance holds the engine; then it is active and executing, and a
    start from idle is announced. When it fails, whether the announcement, the
    queue or the delivery of inputs that arrived meanwhile fails, no turn is left
    active that was not, no publication of an end is left open, and the executing
    turn and the maintenance are as before; inputs that waited may have been
    delivered and events published meanwhile. And when from an idle engine with
    nothing waiting and nothing arriving only the announcement fails, the record
    that was made for the turn is gone, in memory and on disk (for a queue with
    its invariant, of records that can be written). *)
Theorem admission_starts_or_restores turn msg w r w' :
  admitTurnMessageForExecution env turn msg w = (r, w') ->
  match r with
  | Ok _ =>
    en_maintenanceReserved (ew_engine w) = false /\ terminal w = "" /\ turn <> "" /\
    (active w = "" \/ active w = turn) /\
    active w' = turn /\ en_executingTurnID (ew_engine w') = turn /\ terminal w' = "" /\
    (active w = "" -> exists m, TurnAdmitted turn m false ∈ ew_log w')
  | Err e =>
    active w' = active w /\ terminal w' = terminal w /\
    en_executingTurnID (ew_engine w') = en_executingTurnID (ew_engine w) /\
    en_maintenanceReserved (ew_engine w') = en_maintenanceReserved (ew_engine w) /\
    (e = ErrEmit -> active w = "" -> pending w = [] -> ew_windows w = [] -> inv (ew_queue w) ->
     forall record q1, staged_input turn msg (ew_queue w) record q1 ->
       all_valid (q_records (w_queue q1)) (q_order (w_queue q1)) ->
       gone (r_ID record) (w_queue (ew_queue w')) (w_file (ew_queue w')))
  end.
Proof.
  intros E. pose proof (execution_admitted _ _ _ _ _ E) as H. destruct r as [m|e]; [done|].
  destruct H as (? & ? & ? & ?). split_and!; [done..|]. intros -> Ha Hp Hw Hinv record q1 Hst Hv. by eapply refused_gone.
Qed.

(** ** Receiving an input *)

(** The turns are left alone. *)
Record inert (w w' : EWorld) : Prop := mkInert {
  in_active : active w' = active w;
  in_others : others w' = others w;
  in_log : exists events, ew_log w' = ew_log w ++ events;
}.

Lemma grows_inert w w' : grows w w' -> inert w w'.
Proof.
  intros Hg. split; [apply (gr_active _ _ Hg)|by apply grows_others|apply (gr_log _ _ Hg)].
Qed.

(** The engine was idle; a turn has started, with its announcement. *)
Record starts (w : EWorld) (turn : string) (w' : EWorld) : Prop := mkStarts {
  sr_active : active w = "";
  sr_terminal : terminal w = "";
  sr_maintenance : en_maintenanceReserved (ew_engine w) = false;
  sr_named : turn <> "";
  sr_active' : active w' = turn;
  sr_terminal' : terminal w' = "";
  sr_log : exists m, TurnAdmitted turn m false ∈ ew_log w';
}.

(** Only an idle engine makes [m] report a start. *)
Definition starts_idle (m : EM Returned) : Prop := forall w rs err w',
  m w = (Ok (rs, err), w') -> rs_Disposition rs = PendingInputStarted ->
  err = None /\ starts w (rs_TurnID rs) w'.

Lemma starts_inert w w1 turn w' : inert w w1 -> starts w1 turn w' -> starts w turn w'.
Proof.
  intros [A O _] []. injection O as O1 O2 O3. split; congruence.
Qed.

Lemma starts_then w turn w1 w' : inert w1 w' -> starts w turn w1 -> starts w turn w'.
Proof.
  intros [A O [l L]] [? ? ? ? ? ? [m Hm]]. injection O as O1 O2 O3.
  split; try congruence. exists m. rewrite L. set_solver.
Qed.

Lemma idle_after (m : EM Returned) w w1 rs err w' : inert w w1 -> starts_idle m ->
  m w1 = (Ok (rs, err), w') -> rs_Disposition rs = PendingInputStarted ->
  err = None /\ starts w (rs_TurnID rs) w'.
Proof.
  intros Hin Hm E Hs. destruct (Hm _ _ _ _ E Hs) as [-> H]. split; [done|by eapply starts_inert].
Qed.

Lemma idle_ret rs err : rs_Disposition rs <> PendingInputStarted -> starts_idle (ret (rs, err)).
Proof. by intros Hne w rs' err' w' [= <- <- <-]. Qed.

Lemma idle_bind {A} (m : EM A) (k : A -> EM Returned) :
  (forall w, inert w (m w).2) -> (forall a, starts_idle (k a)) -> starts_idle (bind m k).
Proof.
  intros Hm Hk w rs err w' E Hs. apply bind_run in E as [(a & w1 & E1 & E)|(? & _ & ?)]; [|done].
  specialize (Hm w). rewrite E1 in Hm. destruct (Hk a _ _ _ _ E Hs) as [-> H].
  split; [done|by eapply starts_inert].
Qed.

Lemma idle_quiet {A} (m : EM A) (k : A -> EM Returned) :
  quiet m -> (forall a, starts_idle (k a)) -> starts_idle (bind m k).
Proof. intros Hm. apply idle_bind. intros w. by apply grows_inert. Qed.

Lemma quiet_status : quiet (engine_status env).
Proof. intros w. reflexivity. Qed.

Lemma quiet_turnID prefix : quiet (pendingInputTurnID env prefix).
Proof. unfold pendingInputTurnID. solve_quiet. Qed.
#[local] Hint Resolve quiet_status quiet_turnID : quiet.

(** Starting a turn, in an idle engine: the last part of both receivers. *)
Lemma start_or (id : PendingInputRecord -> string) (mo : PendingInputRecord -> Message) msg
    (k : EngineError -> EM Returned) :
  (forall e, starts_idle (k e)) -> forall w, active w = "" -> forall rs err w',
  (do turn <- pendingInputTurnID env "turn";;
   do a <- attempt (admitTurnMessage env turn msg);;
   match a with
   | Ok record => started env (id record) turn (mo record)
   | Err e => k e
   end) w = (Ok (rs, err), w') -> rs_Disposition rs = PendingInputStarted ->
  err = None /\ starts w (rs_TurnID rs) w'.
Proof.
  intros Hk w Hidle rs err w' E Hs.
  apply bind_run in E as [(turn & w1 & E1 & E)|(? & _ & ?)]; [|done].
  pose proof (quiet_turnID "turn" w) as Hg. rewrite E1 in Hg. simpl in Hg.
  pose proof (grows_inert _ _ Hg) as Hin.
  apply attempt_run in E as (a & w2 & E2 & E). apply admit_run in E2.
  destruct a as [record|e].
  - destruct E2 as (Hm & Ht & Hne & Ha & Ha2 & Ho & Hlog).
    unfold started, engine_status, bind, ret in E. simpl in E. injection E as <- <- <-.
    split; [done|]. eapply starts_inert; [exact Hin|]. simpl. injection Ho as _ O2 _.
    assert (active w1 = "") as Ha1 by (by rewrite (in_active _ _ Hin)).
    split; try done; [congruence|]. by apply Hlog.
  - destruct (Hk e _ _ _ _ E Hs) as [-> Hst]. split; [done|].
    eapply starts_inert; [exact Hin|].
    destruct E2 as [(_ & Ha & Ho)|(Ha & Ha' & Ht & Hne & X & M & cause & -> & Ht')].
    + destruct Hst. injection Ho as O1 O2 O3. split; congruence.
    + destruct Hst as [_ Ht2 _ _ _ _ _]. congruence.
Qed.

Lemma quiet_enqueue_both m opts : quiet (enqueuePendingMessageWithOptions env m opts).
Proof. apply quiet_enqueueMessage. Qed.

Lemma idle_receive_new rounds msg req : starts_idle (receive_new env rounds msg req).
Proof.
  induction rounds as [|k IH]; cbn [receive_new].
  - apply idle_quiet; [auto with quiet|]. intros st. by apply idle_ret.
  - intros w rs err w' E Hs. apply bind_run in E as [(st & w1 & E1 & E)|(? & _ & ?)]; [|done].
    injection E1 as <- <-. destruct (st_TurnID _ <>?s "") eqn:Et.
    + match type of E with ?m _ = _ => assert (starts_idle m) as Hm; [|by apply (Hm w)] end.
      destruct req; [by apply idle_ret|]. apply idle_quiet; [apply quiet_enqueue_both|].
      intros [[st record] [e|]]; [|by apply idle_ret].
      destruct (error_is is_no_active e); [apply IH|by apply idle_ret].
    + apply negb_false_iff, bool_decide_eq_true in Et.
      eapply start_or in E; [done| |done|done].
      intros e. destruct (error_is is_active_exists e); [apply IH|by apply idle_ret].
Qed.

(** What holds of the value of a call. *)
Definition yields {A} (P : EWorld -> A -> Prop) (m : EM A) : Prop :=
  forall w a w', m w = (Ok a, w') -> P w a.

Lemma yields_step {A B} (P : EWorld -> B -> Prop) (m : EM A) (k : A -> EM B) :
  (forall w, active (m w).2 = active w) ->
  (forall w w1 b, active w1 = active w -> P w1 b -> P w b) ->
  (forall a, yields P (k a)) -> yields P (bind m k).
Proof.
  intros Hm HP Hk w b w' E. apply bind_run in E as [(a & w1 & E1 & E)|(? & _ & ?)]; [|done].
  specialize (Hm w). rewrite E1 in Hm. eapply HP; [exact Hm|]. by eapply Hk.
Qed.

(** No turn is active when the error says so, and the error is plain. *)
Definition says {S A} (w : EWorld) (p : S * option EngineError * A) : Prop :=
  match p.1.2 with
  | Some e => plain e = true /\ (error_is is_no_active e = true -> active w = "")
  | None => True
  end.

Lemma says_ret {S A} (st : S) e (x : A) :
  match e with Some e => plain e = true /\ error_is is_no_active e = false | None => True end ->
  yields says (ret (st, e, x)).
Proof. intros He w a w' [= <- <-]. unfold says. simpl. destruct e; [|done]. destruct He as [? ->]. done. Qed.

Lemma says_quiet {S A B} (m : EM A) (k : A -> EM (S * option EngineError * B)) :
  quiet m -> (forall a, yields says (k a)) -> yields says (bind m k).
Proof.
  intros Hm Hk. apply yields_step; [intros w; by apply (gr_active _ _ (Hm w))| |done].
  intros w w1 b Ha. unfold says. destruct b as [[st [e|]] x]; simpl; [|done]. by rewrite Ha.
Qed.

(** An error of the queue is none of a missing turn. *)
Lemma says_attempt_lift {S A B} (m : M A) (k : result EngineError A -> EM (S * option EngineError * B)) :
  keeps m -> (forall a, yields says (k (Ok a))) -> (forall e, yields says (k (Err (ErrQueue e)))) ->
  yields says (bind (attempt (lift m)) k).
Proof.
  intros Hm Ho He w b w' E. apply attempt_run in E as (r & w1 & E1 & E).
  pose proof (quiet_lift m Hm w) as Hg. rewrite E1 in Hg. simpl in Hg.
  assert (says w1 b) as Hs.
  { unfold lift in E1. destruct (m (ew_queue w)) as [[a|e] q]; injection E1 as <- <-;
      [by eapply Ho|by eapply He]. }
  unfold says in *. by rewrite <- (gr_active _ _ Hg).
Qed.

Lemma enqueue_says record : yields says (enqueue_record env record).
Proof.
  unfold enqueue_record.
  apply says_quiet; [auto with quiet|]. intros []; [by apply says_ret|].
  apply says_quiet; [auto with quiet|]. intros []; [by apply says_ret|].
  apply says_attempt_lift; [eauto with keeps| |intros e; by apply says_ret]. intros records.
  destruct (records !! r_ID record) as [rec|]; [|by apply says_ret].
  apply says_quiet; [apply quiet_lift, keeps_now|]. intros now.
  destruct (Expired rec now).
  { apply says_attempt_lift; [apply keeps_remove|intros u; by apply says_ret|intros e; by apply says_ret]. }
  destruct (negb (isReplayablePendingState (r_State rec))); [by apply says_ret|].
  intros w b w' E. unfold bind at 1, get_engine in E.
  destruct (en_activeTurnID (ew_engine w) =?s "") eqn:Ea.
  { injection E as <- <-. split; [done|]. intros _. by apply bool_decide_eq_true in Ea. }
  destruct (hasPendingRecordLocked _ _); [by eapply says_ret in E|].
  destruct (_ <=? _); [by eapply says_ret in E|].
  match type of E with ?m _ = _ => assert (yields says m) as Hm; [|by eapply Hm in E] end.
  repeat (apply says_quiet; [auto with quiet|intros ?]). by apply says_ret.
Qed.

Lemma enqueue_message_says m opts : yields says (enqueue_message env m opts).
Proof.
  unfold enqueue_message. cbv zeta.
  apply says_quiet; [auto with quiet|]. intros []; [by apply says_ret|].
  intros w b w' E. unfold bind at 1, get_engine in E.
  destruct (en_activeTurnID (ew_engine w) =?s "") eqn:Ea.
  { injection E as <- <-. split; [done|]. intros _. by apply bool_decide_eq_true in Ea. }
  match type of E with ?m _ = _ => assert (yields says m) as Hm; [|by eapply Hm in E] end.
  destruct (_ <=? _); [apply says_quiet; [auto with quiet|]; intros ?; by apply says_ret|].
  apply says_quiet; [auto with quiet|]. intros [].
  { repeat (apply says_quiet; [auto with quiet|intros ?]). by apply says_ret. }
  apply says_attempt_lift; [eauto with keeps| |intros e; by apply says_ret]. intros record.
  destruct (negb (isReplayablePendingState (r_State record))); [by apply says_ret|].
  destruct (hasPendingRecordLocked _ _); [by apply says_ret|].
  repeat (apply says_quiet; [auto with quiet|intros ?]). by apply says_ret.
Qed.

(** An input is refused for want of a turn only when no turn is active. *)
Lemma enqueue_no_active record w st e w' :
  enqueuePersistedPendingMessage env record w = (Ok (st, Some e), w') ->
  plain e = true /\ (error_is is_no_active e = true -> active w = "").
Proof.
  unfold enqueuePersistedPendingMessage. intros E.
  apply bind_run in E as [([[st1 e1] ev] & w1 & E1 & E)|(? & _ & ?)]; [|done].
  apply enqueue_says in E1. apply bind_run in E as [(u & w2 & _ & E)|(? & _ & ?)]; [|done].
  injection E as -> -> _. by apply E1.
Qed.

Lemma enqueue_message_no_active m opts w st record e w' :
  enqueuePendingMessageWithOptions env m opts w = (Ok (st, record, Some e), w') ->
  plain e = true /\ (error_is is_no_active e = true -> active w = "").
Proof.
  unfold enqueuePendingMessageWithOptions. intros E.
  apply bind_run in E as [([[[st1 r1] e1] ev] & w1 & E1 & E)|(? & _ & ?)]; [|done].
  apply enqueue_message_says in E1. apply bind_run in E as [(u & w2 & _ & E)|(? & _ & ?)]; [|done].
  injection E as -> -> -> _. by apply E1.
Qed.

Lemma idle_reread id st e k : (forall c, rs_Disposition (k c).1 <> PendingInputStarted) ->
  starts_idle (reread env id st e k).
Proof.
  intros Hk. unfold reread. apply idle_quiet; [apply quiet_attempt; auto with quiet|].
  intros [c|e']; [|by apply idle_ret]. specialize (Hk (default zeroRecord c)).
  destruct (k (default zeroRecord c)). by apply idle_ret.
Qed.

Lemma quiet_completed id : quiet (pendingInputCompleted env id).
Proof. unfold pendingInputCompleted. solve_quiet. Qed.
#[local] Hint Resolve quiet_completed : quiet.

Lemma idle_receive_persisted rounds record : starts_idle (receive_persisted env rounds record).
Proof.
  induction rounds as [|k IH]; cbn [receive_persisted].
  { apply idle_quiet; [auto with quiet|]. intros st. by apply idle_ret. }
  intros w rs err w' E Hs.
  apply bind_run in E as [([st [e|]] & w1 & E1 & E)|(? & _ & ?)]; [| |done];
    pose proof (quiet_enqueuePersisted env record w) as Hg; rewrite E1 in Hg; simpl in Hg;
    apply grows_inert in Hg.
  2: { eapply (idle_after _ _ _ _ _ _ Hg); [|exact E|done]. by apply idle_reread. }
  assert (forall m, m w1 = (Ok (rs, err), w') -> starts_idle m ->
    err = None /\ starts w (rs_TurnID rs) w') as Hback
    by (intros m Em Hm; by eapply (idle_after _ _ _ _ _ _ Hg)).
  destruct (error_is is_queue_full e); [apply Hback in E; [done|by apply idle_reread]|].
  destruct (error_is is_expired e); [apply Hback in E; [done|by apply idle_reread]|].
  destruct (error_is is_handled e).
  { apply Hback in E; [done|]. apply idle_reread. intros c. simpl. by destruct (state_eqb _ _). }
  destruct (error_is is_no_active e) eqn:Ena; simpl in E; [|by injection E as <- <- <-].
  destruct (enqueue_no_active record w st e w1 E1) as [_ Hidle]. specialize (Hidle Ena).
  rewrite <- (in_active _ _ Hg) in Hidle.
  assert (err = None /\ starts w1 (rs_TurnID rs) w') as [-> Hst];
    [|split; [done|by eapply starts_inert]].
  eapply start_or in E; [done| |done|done].
  intros e'. destruct (error_is is_active_exists e'); [apply IH|].
  apply idle_quiet; [apply quiet_attempt; auto with quiet|]. intros [c|e2]; [by apply idle_ret|].
  apply idle_quiet; [auto with quiet|]. intros st2. by apply idle_ret.
Qed.

Lemma idle_receivePersisted id : starts_idle (receivePersistedPendingInput env id).
Proof.
  unfold receivePersistedPendingInput.
  apply idle_quiet; [apply quiet_attempt; auto with quiet|]. intros [[record|]|e]; [| |by apply idle_ret].
  - apply idle_quiet; [auto with quiet|]. intros st.
    repeat (match goal with |- starts_idle (if ?b then _ else _) => destruct b end; [by apply idle_ret|]).
    apply idle_receive_persisted.
  - apply idle_quiet; [apply quiet_attempt; auto with quiet|]. intros [[]|e]; try by apply idle_ret.
    apply idle_quiet; [auto with quiet|]. intros st. by apply idle_ret.
Qed.

(** A value that [m] leaves unstarted. *)
Lemma idle_receive_checked request : starts_idle (receive_checked env request).
Proof.
  unfold receive_checked. intros w rs err w' E Hs.
  apply bind_run in E as [(p & w1 & E1 & E)|(? & _ & ?)]; [|done].
  assert (inert w w1 /\ forall q, p = inl q -> rs_Disposition q.1 <> PendingInputStarted) as [Hin Hp].
  { destruct (rq_Options request) as [opts|]; [|injection E1 as <- <-; by split; [by apply grows_inert|]].
    destruct (rq_RecordID request =?s "");
      [|injection E1 as <- <-; by split; [by apply grows_inert|]].
    apply attempt_run in E1 as (r & w2 & E2 & E1).
    pose proof (quiet_persistPending env (rq_Message request) opts w) as Hg. rewrite E2 in Hg.
    apply grows_inert in Hg. simpl in Hg.
    destruct r as [record|e]; [destruct (rq_DeferDelivery request)|];
      injection E1 as <- <-; (split; [done|]); by intros q [= <-]. }
  eapply (idle_after _ _ _ _ _ _ Hin); [|exact E|done]. destruct p as [[rs' err']|id].
  - apply idle_ret. by apply (Hp _ eq_refl).
  - apply idle_quiet; [auto with quiet|]. intros en.
    destruct (en_terminalPublishing en <>?s ""); [apply idle_ret; by destruct (id <>?s "")|].
    destruct (id <>?s ""); [apply idle_receivePersisted|apply idle_receive_new].
Qed.

Lemma quiet_restore_retried l : quiet (lift (restoreRetriedInputs (ee_queue env) l)).
Proof. auto with quiet keeps. Qed.

(** Taking over the inputs of an earlier turn starts nothing. *)
Lemma take_retried_run request w p w' : take_retried env request w = (Ok p, w') ->
  inert w w' /\ match p.1 with Some q => rs_Disposition q.1 <> PendingInputStarted | None => True end.
Proof.
  intros E. assert (inert w w) as Hrefl by (by apply grows_inert).
  unfold take_retried in E. cbv zeta in E.
  destruct (rq_RetryTurnID request =?s ""); [by injection E as <- <-|].
  destruct (m_Kind (rq_Message request) <>?s MessageKindSystemNotice); [by injection E as <- <-|].
  apply bind_run in E as [(st & w1 & E1 & E)|(? & _ & ?)]; [|done]. injection E1 as <- <-.
  destruct (st_TurnID _ <>?s ""); [by injection E as <- <-|].
  unfold bind at 1, queue_missing in E. destruct (w_nil (ew_queue w)); [by injection E as <- <-|].
  apply bind_run in E as [([retried err] & w1 & E1 & E)|(? & _ & ?)]; [|done].
  destruct (retryTurnInputs _ _ _) as [[l e] q]. injection E1 as <- <- <-.
  destruct e; injection E as <- <-; (split; [|done]);
    (split; [done|done|exists []; by rewrite app_nil_r]).
Qed.

(** What was taken over goes back unless a turn started. *)
Lemma restore_retried_run l rs0 err0 w rs err w' :
  restore_retried env l (rs0, err0) w = (Ok (rs, err), w') -> rs_Disposition rs = PendingInputStarted ->
  rs_Disposition rs0 = PendingInputStarted /\ (err0 = None -> rs = rs0 /\ err = None /\ w' = w).
Proof.
  intros E Hs. unfold restore_retried in E. destruct l as [|r l]; [by injection E as <- <- <-|].
  destruct (bool_decide (err0 <> None) || _) eqn:Eb; [|by injection E as <- <- <-].
  apply attempt_run in E as (x & w1 & _ & E).
  assert (rs_Disposition rs0 = PendingInputStarted) as Hs0
    by (destruct x; injection E as <- <- <-; done).
  split; [done|]. intros ->. by rewrite Hs0 in Eb.
Qed.

Lemma idle_receive_locked request claim : starts_idle (receive_locked env request claim).
Proof.
  unfold receive_locked. apply idle_quiet; [auto with quiet|]. intros cancelled.
  apply idle_quiet; [auto with quiet|]. intros en.
  destruct cancelled; [by apply idle_ret|]. destruct (en_maintenanceReserved en); [by apply idle_ret|].
  intros w rs err w' E Hs.
  apply bind_run in E as [([refused l] & w1 & E1 & E)|(? & _ & ?)]; [|done].
  apply take_retried_run in E1 as [Hin Href]. simpl in Href.
  apply bind_run in E as [([rs0 err0] & w2 & E2 & E)|(? & _ & ?)]; [|done].
  destruct (restore_retried_run _ _ _ _ _ _ _ E Hs) as [Hs0 Hsame].
  destruct refused as [[rs1 err1]|]; [by injection E2 as <- <- <-|].
  apply bind_run in E2 as [([rs1 err1] & w3 & E3 & E2)|(? & _ & ?)]; [|done].
  apply bind_run in E2 as [(u & w4 & E4 & E2)|(? & _ & ?)]; [|done].
  injection E2 as -> -> ->.
  destruct (idle_receive_checked request _ _ _ _ E3 Hs0) as [-> Hst].
  destruct (Hsame eq_refl) as (-> & -> & ->). split; [done|].
  destruct (starts_inert _ _ _ _ Hin Hst) as [A T M Hne A' T' L].
  assert (active w2 = active w3 /\ terminal w2 = terminal w3 /\ ew_log w2 = ew_log w3) as (Ha & Ht & Hl).
  { simpl in E4. destruct (claim && _); [|by injection E4 as _ <-].
    unfold markTurnExecutionStarted, modify_engine in E4. injection E4 as _ <-.
    unfold active, terminal. simpl. by destruct (_ =?s _). }
  split; try done; [by rewrite Ha|by rewrite Ht|by rewrite Hl].
Qed.

(** C9: an input starts a turn only in an idle engine: when a receive reports a
    start, no turn was active, no end was being published and no maintenance
    held the engine; now the turn it reports is active and its admission has
    been announced. Everything else it reports leaves the turns to others. *)
Theorem receive_starts_only_when_idle request claim w rs err w' :
  receivePendingInput env request claim w = (Ok (rs, err), w') ->
  rs_Disposition rs = PendingInputStarted ->
  err = None /\ active w = "" /\ terminal w = "" /\
  en_maintenanceReserved (ew_engine w) = false /\
  active w' = rs_TurnID rs /\ rs_TurnID rs <> "" /\ terminal w' = "" /\
  exists m, TurnAdmitted (rs_TurnID rs) m false ∈ ew_log w'.
Proof.
  intros E Hs. unfold receivePendingInput in E.
  assert (err = None /\ starts w (rs_TurnID rs) w') as [He []]; [|done].
  apply bind_run in E as [(c & w1 & E1 & E)|(? & _ & ?)]; [|done].
  assert (inert w w1) as Hin.
  { apply grows_inert. pose proof (quiet_draw (ee_cancelled env) w) as Hq. by rewrite E1 in Hq. }
  destruct c; [by injection E as <- <- <-|].
  apply bind_run in E as [([rs0 err0] & w2 & E2 & E)|(? & _ & ?)]; [|done].
  assert (rs_Disposition rs0 = PendingInputStarted -> err0 = None /\ starts w1 (rs_TurnID rs0) w2) as Hst
    by (intros Hs0; by apply (idle_receive_locked request claim w1 rs0 err0 w2)).
  destruct err0 as [e|].
  - apply bind_run in E as [(e' & w3 & E3 & E)|(? & _ & ?)]; [|done]. injection E as <- <- <-.
    by destruct (Hst Hs).
  - injection E as <- <- <-. destruct (Hst Hs) as [_ H]. split; [done|by eapply starts_inert].
Qed.

(** ** Maintenance *)

(** A maintenance and the turns exclude each other. It is reserved only
    while no turn is active, no input waits, no event is being published and no
    other maintenance runs; and while it lasts, no turn is reserved or admitted
    and no input starts one or is queued. *)
Theorem maintenance_excludes_turns busy w w' :
  ReserveIdleMaintenance env busy w = (Ok tt, w') ->
  (busy = false /\ active w = "" /\ pending w = [] /\ en_publishing (ew_engine w) = false /\
   en_maintenanceReserved (ew_engine w) = false) /\
  (forall again, ReserveIdleMaintenance env again w' = (Err ErrMaintenance, w')) /\
  (forall turn m, admitTurnMessage env turn m w' = (Err ErrMaintenance, w')) /\
  (forall turn compaction, reserveTurnID env turn compaction w' = (Err ErrMaintenance, w')) /\
  (forall l, arrivals env l w' = (Ok tt, w')) /\
  (forall request claim, exists rs e w2,
    receivePendingInput env request claim w' = (Ok (rs, Some e), w2) /\
    (e = ErrMaintenance \/ e = ErrCancelled) /\ rs_Disposition rs = PendingInputNone /\
    ew_engine w2 = ew_engine w' /\ ew_queue w2 = ew_queue w').
Proof.
  intros E. unfold ReserveIdleMaintenance, bind at 1, get_engine in E.
  destruct (en_maintenanceReserved (ew_engine w)) eqn:Em; [done|].
  destruct (_ || en_publishing (ew_engine w)) eqn:Eb; [done|].
  assert (en_maintenanceReserved (ew_engine w') = true) as Hr.
  { unfold bind at 1, queue_missing in E.
    apply bind_run in E as [(records & w1 & _ & E)|(? & _ & ?)]; [|done].
    destruct (existsb _ _); [done|]. by injection E as <-. }
  split; [|split_and!].
  - apply orb_false_elim in Eb as [[[-> Ea]%orb_false_elim Ep]%orb_false_elim Ec].
    apply negb_false_iff, bool_decide_eq_true in Ea. apply negb_false_iff, Z.eqb_eq in Ep.
    split_and!; try done. unfold pending. destruct (en_pendingInput (ew_engine w)); [done|]. simpl in Ep. lia.
  - intros again. unfold ReserveIdleMaintenance, bind at 1, get_engine. by rewrite Hr.
  - intros turn m. unfold admitTurnMessage, bind at 1, get_engine. by rewrite Hr.
  - intros turn c. unfold reserveTurnID, bind at 1, get_engine. by rewrite Hr.
  - intros l. induction l as [|a l IH]; [done|]. simpl. unfold bind at 1, arrive.
    unfold bind at 1, get_engine. by rewrite Hr.
  - intros request claim. unfold receivePendingInput, bind at 1, draw_outcome.
    destruct (ee_cancelled env (ew_calls w')).
    { eexists _, _, _. split; [reflexivity|]. by split; [right|]. }
    unfold bind at 1, receive_locked. unfold bind at 1, draw_outcome. unfold bind at 1, get_engine.
    cbn [ew_engine ew_calls]. rewrite Hr.
    destruct (ee_cancelled env _); (eexists _, _, _; split; [reflexivity|]).
    + by split; [right|].
    + by split; [left|].
Qed.

End Engine.
