(* ===== verification/EngineInputExamples.v ===== *)
(** * The inputs of the turn engine: runs

    Concrete runs of the engine over a queue with working storage; they
    instantiate the properties. *)

From S2P Require Import Prelude GoStd Llm Events PendingInputs PendingQueue PendingQueueExamples EngineInput EngineInputFrame EngineInputDrain EngineInputSound EngineInputProps EngineInputAdmission.

Local Open Scope Z_scope.
Local Open Scope juex_scope.

(** An engine whose [k]th outcome fails when it is an append. *)
Definition ex_flaky (k : nat) : EngineEnv :=
  mkEngineEnv ex_env (fun _ => IoOk) (fun n => if (n =? k)%nat then IoFail else IoOk)
    (fun _ => Some None) (fun _ => Some None) (fun _ => true) (fun _ => true) (fun _ => false)
    16 0 0 false (fun _ => ("failed", "internal")%string).

Definition ex_working : EngineEnv := ex_flaky 0.

Definition ex_message (id : string) : Message := with_ID id (TextMessage RoleUser "text").

Definition ex_idle (windows : list Window) : EWorld :=
  mkEWorld (mkEngine "" "" "" false [] false [] false) ex_start windows [] [] 0.

Definition ex_request : PendingInputRequest :=
  mkRequest (ex_message "") None "" "" false false.

Definition ex_receive (claim : bool) (w : EWorld) : Returned * EWorld :=
  match receivePendingInput ex_working ex_request claim w with
  | (Ok returned, w') => (returned, w')
  | (Err _, w') => (no_result, Some ErrOutOfFuel, w')
  end.

(** The first input starts a turn and two more wait behind it; a fourth arrives
    while the drain of those is announced. *)
Definition ex_turn : string := "turn-00000000".
Definition ex_waiting : EWorld :=
  (ex_receive false (ex_receive false
    (ex_receive true (ex_idle [[]; []; []; [ArriveMessage (ex_message "m3")]])).2).2).2.

#[local] Abbreviation ex_drain k w := (drainPendingInputLifecycleLocked (ex_flaky k) ex_turn w).

(** The second append of this drain fails. *)
#[local] Abbreviation ex_interrupted := ((ex_drain 19 ex_waiting).2).

Lemma ex_thread_there : has_thread ex_waiting.
Proof. vm_compute. eexists. reflexivity. Qed.

Lemma coherent_nodup (l : list queuedPendingInput) : NoDup (map it_RecordID l) -> coherent l.
Proof.
  intros Hnd a b [i Ha]%list_elem_of_lookup [j Hb]%list_elem_of_lookup _ Heq.
  assert (i = j) as ->.
  { eapply (NoDup_lookup (map it_RecordID l) i j (it_RecordID a)); [done| |].
    - by rewrite list_lookup_fmap, Ha.
    - by rewrite list_lookup_fmap, Hb, Heq. }
  congruence.
Qed.

Lemma pair_of_fst {A B} (p : A * B) a : p.1 = a -> p = (a, p.2).
Proof. destruct p. by intros <-. Qed.

(** Concrete lists of inputs. *)
Ltac solve_named := vm_compute; repeat constructor; discriminate.
Ltac solve_coherent :=
  apply coherent_nodup; apply (bool_decide_unpack _); vm_compute; exact I.

(** ** Instances of the properties *)

Lemma drain_delivers_in_order_witness :
  (ex_drain 19 ex_waiting).1 = Err ErrAppend /\
  length (message_ids ex_interrupted) = 1%nat /\ length (pending ex_interrupted) = 3%nat /\
  active ex_interrupted = ex_turn.
Proof.
  split_and!; [vm_compute; reflexivity..|].
  destruct (drain_delivers_in_order (ex_flaky 19) ex_turn ex_waiting (ex_drain 19 ex_waiting).1
    ex_interrupted ex_thread_there ltac:(solve_named) (surjective_pairing _)) as [Ha _].
  rewrite Ha. vm_compute. reflexivity.
Defined.

Lemma retried_drains_lose_nothing_witness :
  message_ids (ex_drain 19 ex_interrupted).2 =
    deliver (message_ids ex_waiting)
      (item_ids (pending ex_waiting ++ arrived_since ex_waiting ex_interrupted)) /\
  length (message_ids (ex_drain 19 ex_interrupted).2) = 3%nat.
Proof.
  split; [|vm_compute; reflexivity].
  apply (retried_drains_lose_nothing (ex_flaky 19) ex_turn ex_waiting ex_interrupted).
  - exact ex_thread_there.
  - eapply attempts_drain; [apply attempts_none|].
    exact (surjective_pairing (ex_drain 19 ex_waiting)).
  - solve_named.
  - solve_coherent.
  - apply pair_of_fst. vm_compute. reflexivity.
Defined.

#[local] Abbreviation ex_emptied :=
  (drainPendingInputUntilEmptyLifecycleLocked ex_working ex_turn ex_waiting).

Lemma drain_until_empty_ends_witness :
  ex_emptied.1 = Ok tt /\ length (message_ids ex_emptied.2) = 3%nat /\
  match ex_emptied.1 with
  | Ok _ => pending ex_emptied.2 = []
  | Err e => e <> ErrOutOfFuel
  end.
Proof.
  split_and!; [vm_compute; reflexivity..|].
  pose proof (drain_until_empty_ends ex_working ex_turn ex_waiting ex_emptied.1 ex_emptied.2
    ex_thread_there ltac:(vm_compute; reflexivity) ltac:(solve_named) (surjective_pairing _)) as H.
  destruct ex_emptied.1; [apply H|exact H].
Defined.

#[local] Abbreviation ex_failed k :=
  (preservePendingInputAfterFailureLocked (ex_flaky k) ex_turn ex_waiting).


#[local] Abbreviation ex_closed w := (finishOrContinueLocked ex_working ex_turn w).

Lemma turn_closes_only_when_nothing_waits_witness :
  (ex_closed ex_waiting).1 = Ok false /\ (ex_closed ex_emptied.2).1 = Ok true /\
  ((ex_closed ex_emptied.2).1 = Ok false <->
   active ex_emptied.2 = ex_turn /\ pending ex_emptied.2 <> []).
Proof.
  split_and!; [vm_compute; reflexivity..|].
  destruct (turn_closes_only_when_nothing_waits ex_working ex_turn ex_emptied.2 _
    (ex_closed ex_emptied.2).2 ltac:(discriminate) (surjective_pairing (ex_closed ex_emptied.2)))
    as [H _].
  exact H.
Defined.

(** An announcement that fails. *)
Definition ex_mute : EngineEnv :=
  mkEngineEnv ex_env (fun _ => IoFail) (fun _ => IoOk)
    (fun _ => Some None) (fun _ => Some None) (fun _ => true) (fun _ => true) (fun _ => false)
    16 0 0 false (fun _ => ("failed", "internal")%string).

#[local] Abbreviation ex_admitted_turn :=
  (admitTurnMessageForExecution ex_mute "turn-1" ex_hello (ex_idle [])).

Lemma admission_starts_or_restores_witness :
  ex_admitted_turn.1 = Err ErrEmit /\ active ex_admitted_turn.2 = "".
Proof.
  split; [vm_compute; reflexivity|].
  assert (ex_admitted_turn.1 = Err ErrEmit) as E by (vm_compute; reflexivity).
  pose proof (admission_starts_or_restores ex_mute "turn-1" ex_hello (ex_idle [])
    ex_admitted_turn.1 ex_admitted_turn.2 (surjective_pairing _)) as H.
  rewrite E in H. destruct H as [-> _]. vm_compute. reflexivity.
Defined.

Definition ex_received : Returned * EWorld := ex_receive true (ex_idle []).

Lemma receive_starts_only_when_idle_witness :
  rs_Disposition ex_received.1.1 = PendingInputStarted /\
  active ex_received.2 = rs_TurnID ex_received.1.1.
Proof.
  split; [vm_compute; reflexivity|].
  destruct (receive_starts_only_when_idle ex_working ex_request true (ex_idle [])
    ex_received.1.1 ex_received.1.2 ex_received.2 ltac:(vm_compute; reflexivity)
    ltac:(vm_compute; reflexivity)) as (_ & _ & _ & _ & H & _).
  exact H.
Defined.

#[local] Abbreviation ex_reserved := (ReserveIdleMaintenance ex_working false (ex_idle [])).

Lemma maintenance_excludes_turns_witness :
  ex_reserved.1 = Ok tt /\
  admitTurnMessage ex_working "turn-1" ex_hello ex_reserved.2 = (Err ErrMaintenance, ex_reserved.2).
Proof.
  split; [vm_compute; reflexivity|].
  destruct (maintenance_excludes_turns ex_working false (ex_idle []) ex_reserved.2
    ltac:(apply pair_of_fst; vm_compute; reflexivity)) as (_ & _ & H & _).
  exact (H _ _).
Defined.
