(* ===== verification/ToolPolicies.v ===== *)
(** * Tool calls as processes, and the policies around them

    The work of one tool call is a process: it emits events, asks policies,
    calls the tool, and goes on with the answer it gets. Calls of one batch run
    concurrently, so a process keeps its actions apart, and the environment
    answers them one by one. [framework/module/policy.go]: the chain of tool
    policies before and after a call. *)

From S2P Require Import Prelude GoStd Utf8 Llm Events.

Local Open Scope Z_scope.
Local Open Scope juex_scope.

(** The input of a tool: [None] is a nil map. *)
Abbreviation ToolInput := (option (list (string * Json))) (only parsing).

(** ** Data *)

Inductive ToolPolicyStage := ToolPolicyBeforeExecution | ToolPolicyAfterExecution.

#[export] Instance policy_stage_eq_dec : EqDecision ToolPolicyStage.
Proof. solve_decision. Defined.

Record PolicyContext := mkPolicyContext {
  px_Label : string;
  px_Text : string;
}.

Record ToolPolicyResult := mkPolicyResult {
  tr_Content : string;
  tr_IsError : bool;
}.

(** [ToolPolicyInvalid]: any other text. *)
Inductive ToolPolicyAction := ToolPolicyAllow | ToolPolicyDeny | ToolPolicyTransform | ToolPolicyInvalid.

Record ToolPolicyDecision := mkDecision {
  td_Action : ToolPolicyAction;
  td_Reason : string;
  td_Input : ToolInput;
  td_Result : ToolPolicyResult;
  td_Context : list PolicyContext;
}.

Record ToolPolicyEvaluation := mkEvaluation {
  te_Input : ToolInput;
  te_Result : ToolPolicyResult;
  te_Context : list PolicyContext;
  te_Denied : bool;
  te_Reason : string;
  te_ResultTransformed : bool;
}.

(** A set of modules: those with a tool policy, in their order. *)
Record PolicySet := mkPolicySet {
  set_closed : bool;
  set_toolPolicies : list string;
}.

Inductive ToolError :=
| ErrSetClosed
| ErrPolicyContext (module : string)
| ErrSetsContext
| ErrToolPolicy (module text : string)
| ErrPolicyCheckpoint (module : string)
| ErrInputCheckpoint
| ErrInvalidAction (module : string)
| ErrDenied (tool reason : string) (after : bool)
| ErrCall (text : string).

(** [IsPolicyCheckpointError]: a fact that had to be durable was not. *)
Definition IsPolicyCheckpointError (e : ToolError) : bool :=
  match e with ErrPolicyCheckpoint _ | ErrInputCheckpoint => true | _ => false end.

(** ** Processes *)

(** What a call tells the runtime of its result beside the text. *)
Record CallInfo := mkCallInfo {
  ci_Fact : string;
  ci_Shell : bool;  (** [isShellStructuredResult] *)
  ci_Media : option MediaRef;
  ci_TimeoutSeconds : Z;
}.

Inductive Action :=
| AEmit (e : Event)
| APolicy (module : string) (stage : ToolPolicyStage) (tool : string) (input : ToolInput)
    (result : ToolPolicyResult)
| ACall (tool : string) (input : ToolInput)
| AArtifact (index : nat) (content : string)
| AAppend (m : Message).

(** [PolicyFails]: the error of a policy, and whether it is a checkpoint error. *)
Inductive Answer :=
| Committed (ok : bool)
| PolicyAnswers (d : ToolPolicyDecision)
| PolicyFails (d : ToolPolicyDecision) (text : string) (checkpoint : bool)
| CallAnswers (out : string) (err : option string) (info : CallInfo)
| ArtifactAnswers (a : option (ContextArtifactProjection * string)).

Inductive Proc (A : Type) : Type :=
| Return (a : A)
| Act (a : Action) (k : Answer -> Proc A).

Arguments Return {A} a.
Arguments Act {A} a k.

Fixpoint pbind {A B} (p : Proc A) (f : A -> Proc B) : Proc B :=
  match p with
  | Return a => f a
  | Act a k => Act a (fun x => pbind (k x) f)
  end.

Notation "'run' x <- p ';;' q" := (pbind p (fun x => q))
  (at level 100, x pattern, p at next level, q at level 200, right associativity) : juex_scope.

Definition emit_event (e : Event) : Proc bool :=
  Act (AEmit e) (fun x => Return match x with Committed ok => ok | _ => false end).

(** ** Policies *)

Definition maxPolicyContextChars : Z := 1024 * 1024.
Definition maxPolicyContextLabelChars : Z := 4 * 1024.

(** [utf8.ValidString]. *)
Fixpoint valid_from (fuel : nat) (l : list Z) : bool :=
  match fuel with
  | O => true
  | S k =>
    match l with
    | [] => true
    | _ =>
      let '(r, n) := decode_rune l in
      if (r =? RuneError) && Nat.eqb n 1 then false else valid_from k (drop n l)
    end
  end.

Definition ValidString (s : string) : bool := let l := bytes_of s in valid_from (length l) l.

Definition RuneCountInString (s : string) : Z := RuneCount (bytes_of s).

Definition valid_context (c : PolicyContext) : bool :=
  ValidString (px_Label c) && (RuneCountInString (px_Label c) <=? maxPolicyContextLabelChars) &&
  let text := TrimSpace (px_Text c) in
  ((text =?s "") || (ValidString text && (RuneCountInString text <=? maxPolicyContextChars))).

Definition validatePolicyContext (l : list PolicyContext) : bool := forallb valid_context l.

Definition zero_result : ToolPolicyResult := mkPolicyResult "" false.
Definition zero_evaluation : ToolPolicyEvaluation := mkEvaluation None zero_result [] false "" false.

Definition with_context (l : list PolicyContext) (e : ToolPolicyEvaluation) : ToolPolicyEvaluation :=
  mkEvaluation (te_Input e) (te_Result e) l (te_Denied e) (te_Reason e) (te_ResultTransformed e).
Definition with_input (i : ToolInput) (e : ToolPolicyEvaluation) : ToolPolicyEvaluation :=
  mkEvaluation i (te_Result e) (te_Context e) (te_Denied e) (te_Reason e) (te_ResultTransformed e).
Definition with_result (r : ToolPolicyResult) (e : ToolPolicyEvaluation) : ToolPolicyEvaluation :=
  mkEvaluation (te_Input e) r (te_Context e) (te_Denied e) (te_Reason e) true.
Definition denied_with (reason : string) (e : ToolPolicyEvaluation) : ToolPolicyEvaluation :=
  mkEvaluation (te_Input e) (te_Result e) (te_Context e) true reason (te_ResultTransformed e).

(** An evaluation and the error returned with it. *)
Abbreviation Evaluated := (ToolPolicyEvaluation * option ToolError)%type (only parsing).

Section Policies.
  (** The stage, the tool, and the checkpoint of a transformed input. *)
  Context (stage : ToolPolicyStage) (tool : string) (checkpoint : option (ToolInput -> Proc bool)).

(** One policy; [rest] goes on with the policies behind it. *)
Definition apply_decision (module : string) (ev : ToolPolicyEvaluation) (d : ToolPolicyDecision)
    (err : option ToolError) (rest : ToolPolicyEvaluation -> Proc Evaluated) : Proc Evaluated :=
  let combinedContext := te_Context ev ++ td_Context d in
  if negb (validatePolicyContext combinedContext) then Return (ev, Some (ErrPolicyContext module))
  else
    let ev := with_context combinedContext ev in
    match err with
    | Some e => Return (ev, Some e)
    | None =>
      match td_Action d with
      | ToolPolicyAllow => rest ev
      | ToolPolicyTransform =>
        match stage with
        | ToolPolicyBeforeExecution =>
          match checkpoint with
          | Some check =>
            if bool_decide (te_Input ev = td_Input d) then rest (with_input (td_Input d) ev)
            else
              run ok <- check (td_Input d);;
              if ok : bool then rest (with_input (td_Input d) ev)
              else Return (ev, Some ErrInputCheckpoint)
          | None => rest (with_input (td_Input d) ev)
          end
        | ToolPolicyAfterExecution => rest (with_result (td_Result d) ev)
        end
      | ToolPolicyDeny => Return (denied_with (TrimSpace (td_Reason d)) ev, None)
      | ToolPolicyInvalid => Return (zero_evaluation, Some (ErrInvalidAction module))
      end
    end.

Fixpoint apply_policies (modules : list string) (ev : ToolPolicyEvaluation) : Proc Evaluated :=
  match modules with
  | [] => Return (ev, None)
  | module :: modules =>
    Act (APolicy module stage tool (te_Input ev) (te_Result ev)) (fun x =>
      match x with
      | PolicyAnswers d => apply_decision module ev d None (apply_policies modules)
      | PolicyFails d text is_checkpoint =>
        apply_decision module ev d
          (Some (if is_checkpoint : bool then ErrPolicyCheckpoint module else ErrToolPolicy module text))
          (apply_policies modules)
      | _ => Return (ev, Some (ErrToolPolicy module ""))
      end)
  end.

(** [Set.applyToolPolicies]. *)
Definition set_applyToolPolicies (s : PolicySet) (input : ToolInput) (result : ToolPolicyResult) :
    Proc Evaluated :=
  if set_closed s then Return (zero_evaluation, Some ErrSetClosed)
  else apply_policies (set_toolPolicies s) (mkEvaluation input result [] false "" false).

Fixpoint apply_sets (sets : list PolicySet) (ev : ToolPolicyEvaluation) : Proc Evaluated :=
  match sets with
  | [] => Return (ev, None)
  | s :: sets =>
    run r <- set_applyToolPolicies s (te_Input ev) (te_Result ev);;
    let '(current, err) := r in
    let combinedContext := te_Context ev ++ te_Context current in
    let ev := mkEvaluation (te_Input current) (te_Result current) (te_Context ev) (te_Denied ev)
                (te_Reason ev) (te_ResultTransformed ev) in
    if negb (validatePolicyContext combinedContext) then Return (ev, Some ErrSetsContext)
    else
      let ev := mkEvaluation (te_Input ev) (te_Result ev) combinedContext (te_Denied ev)
                  (te_Reason ev) (te_ResultTransformed ev || te_ResultTransformed current) in
      match err with
      | Some e => Return (ev, Some e)
      | None => if te_Denied current then Return (denied_with (te_Reason current) ev, None)
                else apply_sets sets ev
      end
  end.

Definition applyToolPolicies (sets : list PolicySet) (input : ToolInput) (result : ToolPolicyResult) :
    Proc Evaluated :=
  apply_sets sets (mkEvaluation input result [] false "" false).

End Policies.

(** [ApplyToolPoliciesWithInputCheckpoint], before a call. *)
Definition ApplyToolPoliciesWithInputCheckpoint (tool : string) (checkpoint : ToolInput -> Proc bool)
    (sets : list PolicySet) (input : ToolInput) : Proc Evaluated :=
  applyToolPolicies ToolPolicyBeforeExecution tool (Some checkpoint) sets input zero_result.

(** [ApplyToolPolicies], after a call. *)
Definition ApplyToolPolicies (tool : string) (sets : list PolicySet) (input : ToolInput)
    (result : ToolPolicyResult) : Proc Evaluated :=
  applyToolPolicies ToolPolicyAfterExecution tool None sets input result.
