(* ===== verification/ToolBatch.v ===== *)
(** * The tool batch of a turn

    [recordToolBatchLocked] and [runToolCall] ([framework/runtime/loop.go]): the
    tool calls of one response are announced, run concurrently, and answered in
    one message. Every call is a process of [ToolPolicies]; the batch is a step
    relation in which the environment picks the call that moves and the answer
    it gets, so all interleavings, failures and interruptions are runs of it.

    The text of an error ([errorclass.PublicMessage]) and the bound on the text
    that policies add to the result of a shell command are parameters. The
    transient output deltas, what an event says of a result beside its recorded
    outcome, and the ledger of failures are left out. *)

From Stdlib Require Import Ascii.
From S2P Require Import Prelude GoStd Utf8 Llm Events ContextText ToolPolicies.

Local Open Scope Z_scope.
Local Open Scope juex_scope.

(** ** Data *)

Definition maxToolErrorOutput : nat := 32 * 1024.

Record Tool := mkTool {
  tl_Serial : bool;
  tl_GuideName : string;
  tl_GuideLoader : string;
}.

Record ToolCallPayload := mkCallPayload {
  cp_ToolUseID : string;
  cp_Name : string;
  cp_Input : ToolInput;
  cp_TimeoutSeconds : Z;
  cp_Iter : Z;
  cp_CallIndex : Z;
  cp_MessageID : string;
}.

Record toolExecutionCall := mkExecution {
  ex_call : Block;
  ex_payload : ToolCallPayload;
}.

Inductive BatchError :=
| ErrCommitPhase
| ErrCommitRequest
| ErrCommitStarted
| ErrCheckpoint (e : ToolError)
| ErrProjectResult
| ErrCommitOutcome
| ErrAppendResult
| ErrCommitProjection.

Record toolCallResult := mkCallResult {
  tcr_Block : Block;
  tcr_Info : CallInfo;
  tcr_Fatal : option BatchError;
}.

(** The response whose calls are run. *)
Record recordedProviderResponse := mkRecorded {
  rp_toolCalls : list Block;
  rp_iter : Z;
  rp_messageID : string;
}.

(** What a batch takes from the engine and its surroundings. *)
Record BatchEnv := mkBatchEnv {
  be_turn : string;
  be_tools : gmap string Tool;
  be_sets : list PolicySet;
  be_catalog : list (string * string);  (** tool and module, set by set *)
  be_ContentMaxTokens : Z;
  be_InlineMaxBytes : Z;
  be_public : ToolError -> string;
  be_bound : string -> string;
  be_freshID : string;
}.

(** ** Texts *)

Definition newline : string := String (ascii_of_nat 10) "".

Fixpoint drop_while (p : Z -> bool) (l : list Z) : list Z :=
  match l with
  | [] => []
  | b :: r => if p b then drop_while p r else l
  end.

(** [strings.TrimRight] with a set of bytes. *)
Definition TrimRight (p : Z -> bool) (s : string) : string :=
  string_of_bytes (rev (drop_while p (rev (bytes_of s)))).

Definition is_newline (b : Z) : bool := b =? 10.
Definition is_blank (b : Z) : bool := (b =? 32) || (b =? 9) || (b =? 13) || (b =? 10).

(** The largest cut at or below [limit] that does not split a rune. *)
Fixpoint cut_back (l : list Z) (limit : nat) : nat :=
  match limit with
  | O => O
  | S k => if continuation (nth limit l 0) then cut_back l k else limit
  end.

Definition errorMarker : string := (newline ++ newline ++ "[tool error]" ++ newline)%string.

Definition toolErrorContent (out publicErr : string) : string :=
  if out =?s "" then publicErr
  else
    let l := bytes_of out in
    let out :=
      if (maxToolErrorOutput <? length l)%nat then
        (string_of_bytes (take (cut_back l maxToolErrorOutput) l) ++ newline ++
         "... (remaining output truncated) ...")%string
      else out in
    (TrimRight is_newline out ++ errorMarker ++ publicErr)%string.

Definition boundedToolErrorContent (out publicErr : string) : string :=
  if out =?s "" then publicErr else (TrimRight is_newline out ++ errorMarker ++ publicErr)%string.

Definition HasSuffix (suffix s : string) : bool :=
  has_prefix (rev (bytes_of suffix)) (rev (bytes_of s)).

Definition appendShellRuntimeErrorContent (base publicErr : string) : string :=
  if base =?s "" then publicErr
  else
    let separator :=
      if HasSuffix (newline ++ newline) base then ""%string
      else if HasSuffix newline base then newline else (newline ++ newline)%string in
    (base ++ separator ++ "[tool error]" ++ newline ++ publicErr)%string.

Definition policyReasonSuffix (reason : string) : string :=
  let reason := TrimSpace reason in
  if reason =?s "" then "" else (": " ++ reason)%string.

Definition with_Content (c : string) (e : bool) (b : Block) : Block :=
  mkBlock (b_Type b) (b_Text b) (b_Media b) (b_ToolUseID b) (b_ToolName b) (b_Input b)
    (b_TimeoutSeconds b) c e (b_Signature b) (b_Redacted b) (b_Artifact b) (b_ResultFact b).

(** [appendToolPolicyContext], on the content of a block. *)
Definition append_context (content : string) (c : PolicyContext) : string :=
  let text := TrimSpace (px_Text c) in
  if text =?s "" then content
  else
    ((if TrimSpace content =?s "" then content else (content ++ newline ++ newline)%string) ++
     px_Label c ++ text)%string.

Definition appendToolPolicyContext (content : string) (l : list PolicyContext) : string :=
  foldl append_context content l.

Definition finalizedShellContent (bound : string -> string) (base finalized : string) : string :=
  if finalized =?s base then base
  else
    let b := bytes_of base in
    let f := bytes_of finalized in
    if has_prefix b f then (base ++ bound (string_of_bytes (drop (length b) f)))%string
    else bound finalized.

(** ** Events *)

Definition toolCallPayload (call : Block) (iter callIndex : Z) (messageID : string) : ToolCallPayload :=
  mkCallPayload (b_ToolUseID call) (b_ToolName call) (b_Input call) (b_TimeoutSeconds call) iter
    callIndex messageID.

Definition TurnPhaseType : string := "turn.phase".
Definition ProjectionAppliedType : string := "context.projection_applied".

Definition tool_event (type turn : string) (p : ToolCallPayload) (input : ToolInput) (timeout : Z)
    (outcome : option RecordedOutcome) : Event :=
  mkEvent "" type turn (ToolPayload (mkToolPayload (cp_ToolUseID p) (cp_Name p) input timeout
    (cp_Iter p) (cp_CallIndex p) (cp_MessageID p) outcome)).

Definition Requested (turn : string) (p : ToolCallPayload) : Event :=
  tool_event RequestedType turn p (cp_Input p) (cp_TimeoutSeconds p) None.
Definition Running_ (turn : string) (p : ToolCallPayload) : Event :=
  tool_event RunningType turn p None (cp_TimeoutSeconds p) None.
Definition InputResolved (turn : string) (p : ToolCallPayload) (input : ToolInput) : Event :=
  tool_event InputResolvedType turn p input 0 None.
(** [Completed], [Errored]. *)
Definition Finished (turn : string) (p : ToolCallPayload) (messageID : string) (b : Block)
    (timeout : Z) : Event :=
  tool_event (if b_IsError b then ErroredType else CompletedType) turn p None timeout
    (Some (mkOutcome messageID b)).

(** [ValidateToolIdentity] and [validateRecordedOutcome]: what the bus accepts. *)
Definition validateRecordedOutcome (p : ToolEventPayload) : bool :=
  match tp_Outcome p with
  | Some o =>
    (ro_MessageID o <>?s "") && bool_decide (b_Type (ro_Block o) = BlockToolResult) &&
    (b_ToolUseID (ro_Block o) =?s tp_ToolUseID p) && (b_ToolName (ro_Block o) =?s tp_Name p)
  | None => false
  end.

Definition event_valid (e : Event) : bool :=
  match ev_Payload e with
  | ToolPayload p =>
    (tp_Name p <>?s "") && (tp_ToolUseID p <>?s "") && (tp_MessageID p <>?s "") &&
    (0 <=? tp_Iter p) && (0 <=? tp_CallIndex p) &&
    (if (ev_Type e =?s CompletedType) || (ev_Type e =?s ErroredType) then validateRecordedOutcome p
     else true)
  | _ => true
  end.

(** ** One call *)

Section Batch.
  Context (env : BatchEnv).

Definition no_info : CallInfo := mkCallInfo "" false None 0.

Definition zero_block : Block := emptyBlock (BlockOther "").

Definition fatal_result (e : BatchError) : toolCallResult :=
  mkCallResult zero_block no_info (Some e).

Definition result_block (call : Block) : Block :=
  mkBlock BlockToolResult "" None (b_ToolUseID call) (b_ToolName call) None 0 "" false "" false None None.

Definition policyToolErrorResult (call : Block) (e : ToolError) (contexts : list PolicyContext) :
    toolCallResult :=
  mkCallResult
    (with_Content (appendToolPolicyContext (be_public env e) contexts) true (result_block call))
    no_info None.

(** The content of the block after the call itself. *)
Definition call_content (out : string) (err : option string) (info : CallInfo) : string :=
  match err with
  | None => out
  | Some text =>
    let text := be_public env (ErrCall text) in
    if ci_Shell info then boundedToolErrorContent out text else toolErrorContent out text
  end.

(** From the answer of the policies behind the call to its result. *)
Definition finish_call (call : Block) (content : string) (isError : bool) (info : CallInfo)
    (pre : list PolicyContext) (post : ToolPolicyEvaluation) (postErr : option ToolError) :
    toolCallResult :=
  let shellBase := content in
  let postErr :=
    match postErr with
    | None => if te_Denied post then Some (ErrDenied (b_ToolName call) (policyReasonSuffix (te_Reason post)) true)
              else None
    | e => e
    end in
  let transformed := te_ResultTransformed post in
  let content := if transformed then tr_Content (te_Result post) else content in
  let isError := if transformed then tr_IsError (te_Result post) else isError in
  let '(content, isError, fatal) :=
    match postErr with
    | Some e =>
      if IsPolicyCheckpointError e then (content, isError, Some (ErrCheckpoint e))
      else
        (if ci_Shell info then appendShellRuntimeErrorContent content (be_public env e)
         else toolErrorContent content (be_public env e), true, None)
    | None =>
      if transformed then (content, isError, None)
      else (tr_Content (te_Result post), tr_IsError (te_Result post), None)
    end in
  let content := appendToolPolicyContext (appendToolPolicyContext content pre) (te_Context post) in
  let content := if ci_Shell info then finalizedShellContent (be_bound env) shellBase content else content in
  let b := result_block call in
  let media := if negb isError && negb transformed then ci_Media info else None in
  mkCallResult
    (mkBlock BlockToolResult "" media (b_ToolUseID b) (b_ToolName b) None 0 content isError "" false None None)
    info fatal.

Definition runToolCall (execution : toolExecutionCall) : Proc toolCallResult :=
  let call := ex_call execution in
  let p := ex_payload execution in
  run started <- emit_event (Running_ (be_turn env) p);;
  if negb started then Return (fatal_result ErrCommitStarted)
  else
    run pre <- ApplyToolPoliciesWithInputCheckpoint (b_ToolName call)
                 (fun input => emit_event (InputResolved (be_turn env) p input))
                 (be_sets env) (b_Input call);;
    let '(prePolicy, err) := pre in
    match err with
    | Some e =>
      if IsPolicyCheckpointError e then Return (fatal_result (ErrCheckpoint e))
      else Return (policyToolErrorResult call e (te_Context prePolicy))
    | None =>
      if te_Denied prePolicy then
        Return (policyToolErrorResult call
                  (ErrDenied (b_ToolName call) (policyReasonSuffix (te_Reason prePolicy)) false)
                  (te_Context prePolicy))
      else
        Act (ACall (b_ToolName call) (te_Input prePolicy)) (fun x =>
          let '(out, callErr, info) :=
            match x with CallAnswers out e info => (out, e, info) | _ => (""%string, Some ""%string, no_info) end in
          let content := call_content out callErr info in
          let isError := match callErr with Some _ => true | None => false end in
          run post <- ApplyToolPolicies (b_ToolName call) (be_sets env) (te_Input prePolicy)
                        (mkPolicyResult content isError);;
          Return (finish_call call content isError info (te_Context prePolicy) post.1 post.2))
    end.

(** ** Before and after the calls *)

Definition executions (recorded : recordedProviderResponse) : list toolExecutionCall :=
  imap (fun index call =>
    mkExecution call (toolCallPayload call (rp_iter recorded) (Z.of_nat index) (rp_messageID recorded)))
    (rp_toolCalls recorded).

(** Emits in order; [false] at the first failure. *)
Fixpoint emit_each (l : list Event) : Proc bool :=
  match l with
  | [] => Return true
  | e :: l => run ok <- emit_event e;; if ok : bool then emit_each l else Return false
  end.

Definition announce_calls (execs : list toolExecutionCall) : Proc (option BatchError) :=
  run ok <- emit_event (mkEvent "" TurnPhaseType (be_turn env) OtherPayload);;
  if negb ok then Return (Some ErrCommitPhase)
  else
    run ok <- emit_each (map (fun x => Requested (be_turn env) (ex_payload x)) execs);;
    Return (if ok : bool then None else Some ErrCommitRequest).

Fixpoint ToolOwner (name : string) (catalog : list (string * string)) : string :=
  match catalog with
  | [] => ""
  | (tool, module) :: r => if tool =?s name then module else ToolOwner name r
  end.

Definition own_result (r : toolCallResult) : toolCallResult :=
  let b := tcr_Block r in
  if negb (bool_decide (b_Type b = BlockToolResult)) then r
  else
    let owner := ToolOwner (b_ToolName b) (be_catalog env) in
    if owner =?s "" then r
    else mkCallResult
           (mkBlock (b_Type b) (b_Text b) (b_Media b) (b_ToolUseID b) (b_ToolName b) (b_Input b)
              (b_TimeoutSeconds b) (b_Content b) (b_IsError b) (b_Signature b) (b_Redacted b)
              (b_Artifact b) (Some (mkResultFact owner (ci_Fact (tcr_Info r)))))
           (tcr_Info r) (tcr_Fatal r).

Definition guide_hint (loader name : string) : string :=
  ("For workflows, constraints, and examples, load the full guide with " ++ loader ++ "(" ++
   String (ascii_of_nat 34) "" ++ name ++ String (ascii_of_nat 34) "" ++ ").")%string.

Definition appendGuidedToolFailureHint (content hint : string) : string :=
  if Contains content hint then content
  else
    let trimmed := TrimRight is_blank content in
    if trimmed =?s "" then hint else (trimmed ++ newline ++ newline ++ hint)%string.

(** [normalizeGuidedToolFailureResults], on one block. *)
Definition guide_block (b : Block) : Block :=
  if negb (b_IsError b) then b
  else
    match be_tools env !! b_ToolName b with
    | None => b
    | Some tool =>
      if (tl_GuideName tool =?s "") || bool_decide (be_tools env !! tl_GuideLoader tool = None) then b
      else with_Content
             (appendGuidedToolFailureHint (b_Content b) (guide_hint (tl_GuideLoader tool) (tl_GuideName tool)))
             true b
    end.

(** The blocks of the result message: [projectMessageLocked], whose long
    contents become artifacts. *)
Fixpoint project_blocks (index : nat) (l : list Block) : Proc (option (list Block * bool)) :=
  match l with
  | [] => Return (Some ([], false))
  | b :: l =>
    let continue_with b changed :=
      run r <- project_blocks (S index) l;;
      Return match r with Some (bs, c) => Some (b :: bs, changed || c) | None => None end in
    if bool_decide (b_Type b = BlockToolResult) &&
       TextExceedsBudget (b_Content b) (be_ContentMaxTokens env) (be_InlineMaxBytes env) then
      Act (AArtifact index (b_Content b)) (fun x =>
        match x with
        | ArtifactAnswers (Some (artifact, text)) =>
          continue_with (mkBlock (b_Type b) (b_Text b) (b_Media b) (b_ToolUseID b) (b_ToolName b)
            (b_Input b) (b_TimeoutSeconds b) text (b_IsError b) (b_Signature b) (b_Redacted b)
            (Some artifact) (b_ResultFact b)) true
        | _ => Return None
        end)
    else continue_with b false
  end.

(** The outcomes, one event each; a failure does not keep back the others. *)
Fixpoint emit_outcomes (messageID : string) (l : list (toolExecutionCall * (toolCallResult * Block))) :
    Proc (list BatchError) :=
  match l with
  | [] => Return []
  | (execution, (result, b)) :: l =>
    if match tcr_Fatal result with Some _ => true | None => false end ||
       negb (bool_decide (b_Type (tcr_Block result) = BlockToolResult)) then emit_outcomes messageID l
    else
      run ok <- emit_event (Finished (be_turn env) (ex_payload execution) messageID b
                              (ci_TimeoutSeconds (tcr_Info result)));;
      run errors <- emit_outcomes messageID l;;
      Return (if ok : bool then errors else ErrCommitOutcome :: errors)
  end.

Definition fatal_errors (results : list toolCallResult) : list BatchError := omap tcr_Fatal results.

Definition resultMessageID : string := ("msg-" ++ be_freshID env)%string.

Definition result_message (bs : list Block) : Message :=
  mkMessage resultMessageID RoleUser (Some bs) MessageKindToolResult false "" None.

(** The part of [recordToolBatchLocked] behind the calls. *)
Definition record_results (execs : list toolExecutionCall) (results : list toolCallResult) :
    Proc (list BatchError) :=
  let results := map own_result results in
  let fatal := fatal_errors results in
  let bs := map (fun r => guide_block (tcr_Block r)) results in
  run projected <- project_blocks 0 bs;;
  match projected with
  | None => Return (fatal ++ [ErrProjectResult])
  | Some (bs, changed) =>
    run outcome <- emit_outcomes resultMessageID (zip execs (zip results bs));;
    match fatal ++ outcome with
    | [] =>
      Act (AAppend (result_message bs)) (fun x =>
        match x with
        | Committed true =>
          if changed : bool then
            run ok <- emit_event (mkEvent "" ProjectionAppliedType (be_turn env) OtherPayload);;
            Return (if ok : bool then [] else [ErrCommitProjection])
          else Return []
        | _ => Return [ErrAppendResult]
        end)
    | errors => Return errors
    end
  end.

(** ** The batch as steps *)

Inductive Stage :=
| Announcing (p : Proc (option BatchError))
| Calling (calls : list (Proc toolCallResult))
| Recording (p : Proc (list BatchError))
| Ended (errors : list BatchError).

(** [bt_trace], [bt_results]: history variables, the actions of the calls in
    their order, and the results once all calls have returned. *)
Record Batch := mkBatch {
  bt_stage : Stage;
  bt_journal : list Event;
  bt_history : list Message;
  bt_trace : list (nat * Action);
  bt_results : list toolCallResult;
}.

(** How the environment answers: the outcome of a durable write, or data. *)
Inductive Choice :=
| Writes (o : IoResult)
| Answers (x : Answer).

(** The journal and the history after an action, and its answer. *)
Definition perform (a : Action) (c : Choice) (journal : list Event) (history : list Message) :
    option (Answer * list Event * list Message) :=
  match a, c with
  | AEmit e, Writes o =>
    match o with
    | IoFail => Some (Committed false, journal, history)
    | _ => if event_valid e then Some (Committed (bool_decide (o = IoOk)), journal ++ [e], history) else None
    end
  | AAppend m, Writes o =>
    match o with
    | IoFail => Some (Committed false, journal, history)
    | _ => Some (Committed (bool_decide (o = IoOk)), journal, history ++ [m])
    end
  | APolicy _ _ _ _ _, Answers ((PolicyAnswers _ | PolicyFails _ _ _) as x)
  | ACall _ _, Answers ((CallAnswers _ _ _) as x)
  | AArtifact _ _, Answers ((ArtifactAnswers _) as x) => Some (x, journal, history)
  | _, _ => None
  end.

Definition is_done {A} (p : Proc A) : bool := match p with Return _ => true | Act _ _ => false end.

Definition isSerializedToolCall (execs : list toolExecutionCall) (i : nat) : bool :=
  match execs !! i with
  | Some x => match be_tools env !! b_ToolName (ex_call x) with Some t => tl_Serial t | None => false end
  | None => false
  end.

(** A serial call waits for the serial calls in front of it ([runToolCalls]). *)
Definition may_move (execs : list toolExecutionCall) (calls : list (Proc toolCallResult)) (i : nat) : bool :=
  negb (isSerializedToolCall execs i) ||
  forallb (fun j => negb (isSerializedToolCall execs j) ||
                    match calls !! j with Some p => is_done p | None => true end) (seq 0 i).

Definition result_of (p : Proc toolCallResult) : option toolCallResult :=
  match p with Return r => Some r | Act _ _ => None end.

(** [MoveOther]: another writer of the journal; [MoveNext]: the batch goes on
    to its next part. *)
Inductive Move :=
| MoveOther (e : Event)
| MoveAct (c : Choice)
| MoveCall (i : nat) (c : Choice)
| MoveNext.

(** An event that says nothing of a tool call. *)
Definition foreign (e : Event) : bool :=
  match ev_Payload e with
  | ToolPayload _ => false
  | CheckedPayload _ => ev_Type e =?s InputCheckedType
  | _ => true
  end.

Definition act {A} (p : Proc A) (c : Choice) (s : Batch) : option (Action * Proc A * Batch) :=
  match p with
  | Return _ => None
  | Act a k =>
    match perform a c (bt_journal s) (bt_history s) with
    | Some (x, journal, history) =>
      Some (a, k x, mkBatch (bt_stage s) journal history (bt_trace s) (bt_results s))
    | None => None
    end
  end.

Definition set_stage (st : Stage) (s : Batch) : Batch :=
  mkBatch st (bt_journal s) (bt_history s) (bt_trace s) (bt_results s).

Definition add_trace (i : nat) (a : Action) (s : Batch) : Batch :=
  mkBatch (bt_stage s) (bt_journal s) (bt_history s) (bt_trace s ++ [(i, a)]) (bt_results s).

Definition set_results (l : list toolCallResult) (s : Batch) : Batch :=
  mkBatch (bt_stage s) (bt_journal s) (bt_history s) (bt_trace s) l.

Definition step_fn (execs : list toolExecutionCall) (m : Move) (s : Batch) : option Batch :=
  match m, bt_stage s with
  | MoveOther e, _ =>
    if foreign e then Some (mkBatch (bt_stage s) (bt_journal s ++ [e]) (bt_history s) (bt_trace s) (bt_results s)) else None
  | MoveAct c, Announcing p =>
    match act p c s with Some (_, p', s') => Some (set_stage (Announcing p') s') | None => None end
  | MoveAct c, Recording p =>
    match act p c s with Some (_, p', s') => Some (set_stage (Recording p') s') | None => None end
  | MoveNext, Announcing (Return None) => Some (set_stage (Calling (map runToolCall execs)) s)
  | MoveNext, Announcing (Return (Some e)) => Some (set_stage (Ended [e]) s)
  | MoveNext, Calling calls =>
    match mapM result_of calls with
    | Some results => Some (set_results results (set_stage (Recording (record_results execs results)) s))
    | None => None
    end
  | MoveNext, Recording (Return errors) => Some (set_stage (Ended errors) s)
  | MoveCall i c, Calling calls =>
    match calls !! i with
    | Some p =>
      if may_move execs calls i then
        match act p c s with
        | Some (a, p', s') => Some (add_trace i a (set_stage (Calling (<[i := p']> calls)) s'))
        | None => None
        end
      else None
    | None => None
    end
  | _, _ => None
  end.

Definition batch_step (execs : list toolExecutionCall) (s s' : Batch) : Prop :=
  exists m, step_fn execs m s = Some s'.

(** [recordToolBatchLocked] at its start. *)
Definition recordToolBatchLocked (recorded : recordedProviderResponse) (journal : list Event)
    (history : list Message) : Batch :=
  mkBatch (Announcing (announce_calls (executions recorded))) journal history [] [].

End Batch.
