(* ===== verification/ToolBatchProps.v ===== *)
(** * Why a tool batch can be interrupted anywhere

    What a call has said in the journal when it asks a policy or calls the tool,
    and what the repair of [ProtocolRepair] will make of the journal of a batch
    that stopped at any step. *)

From S2P Require Import Prelude GoStd Utf8 Llm Events ThreadTypes ThreadFacts ContextText ToolPolicies ToolBatch ProtocolRepair.

Local Open Scope Z_scope.
Local Open Scope juex_scope.

(** ** What a call may do next *)

(** What the journal is known to say of a call. [kn_dead]: a write of the call
    failed, and may have taken effect. *)
Record Know := mkKnow {
  kn_started : bool;
  kn_dead : bool;
  kn_called : bool;
  kn_input : ToolInput;
}.

Definition event_input (e : Event) : ToolInput :=
  match ev_Payload e with ToolPayload p => tp_Input p | _ => None end.

Definition merge_input (new old : ToolInput) : ToolInput := match new with Some i => Some i | None => old end.

Definition after_emit (e : Event) (x : Answer) (kn : Know) : Know :=
  match x with
  | Committed true => mkKnow true false (kn_called kn) (merge_input (event_input e) (kn_input kn))
  | _ => mkKnow (kn_started kn) true (kn_called kn) (kn_input kn)
  end.

(** An input is the recorded one, or a nil map, which leaves no trace. *)
Definition agrees (input : ToolInput) (kn : Know) : Prop := input = None \/ input = kn_input kn.

Definition live (kn : Know) : Prop := kn_started kn = true /\ kn_dead kn = false.

Section Calls.
  Context (env : BatchEnv).

(** The process of call [x] emits its own events only, before it calls the tool;
    it asks policies and calls the tool when its start is recorded, with the
    input that is recorded; [Q] holds at its end. *)
Fixpoint guarded {A} (x : toolExecutionCall) (kn : Know) (p : Proc A) (Q : Know -> A -> Prop) : Prop :=
  match p with
  | Return a => Q kn a
  | Act a k =>
    match a with
    | AEmit e =>
      (e = Running_ (be_turn env) (ex_payload x) \/
       (kn_started kn = true /\ exists input, e = InputResolved (be_turn env) (ex_payload x) input)) /\
      kn_called kn = false /\ kn_dead kn = false /\
      forall y, guarded x (after_emit e y kn) (k y) Q
    | APolicy _ stage tool input _ =>
      live kn /\ tool = b_ToolName (ex_call x) /\
      (stage = ToolPolicyBeforeExecution -> kn_called kn = false /\ agrees input kn) /\
      forall y, guarded x kn (k y) Q
    | ACall tool input =>
      live kn /\ kn_called kn = false /\ tool = b_ToolName (ex_call x) /\ agrees input kn /\
      forall y, guarded x (mkKnow (kn_started kn) (kn_dead kn) true (kn_input kn)) (k y) Q
    | AArtifact _ _ | AAppend _ => False
    end
  end.

Lemma guarded_bind {A B} x (p : Proc A) (f : A -> Proc B) Q : forall kn,
  guarded x kn p (fun kn a => guarded x kn (f a) Q) -> guarded x kn (pbind p f) Q.
Proof.
  induction p as [a|a k IH]; intros kn; [done|]. simpl. destruct a; intros H; try done.
  - destruct H as (H1 & H2 & H3 & H4). split_and!; [done..|]. intros y. by apply IH.
  - destruct H as (H1 & H2 & H3 & H4). split_and!; [done..|]. intros y. by apply IH.
  - destruct H as (H1 & H2 & H3 & H4 & H5). split_and!; [done..|]. intros y. by apply IH.
Qed.

Lemma guarded_mono {A} x (p : Proc A) (Q R : Know -> A -> Prop) : (forall kn a, Q kn a -> R kn a) ->
  forall kn, guarded x kn p Q -> guarded x kn p R.
Proof.
  intros HQ. induction p as [a|a k IH]; intros kn; simpl; [apply HQ|]. destruct a; try done.
  - intros (H1 & H2 & H3 & H4). split_and!; eauto.
  - intros (H1 & H2 & H3 & H4). split_and!; eauto.
  - intros (H1 & H2 & H3 & H4 & H5). split_and!; eauto.
Qed.

(** ** The policies of a call *)

Definition evaluated (kn : Know) (r : ToolPolicyEvaluation * option ToolError) : Prop :=
  r.2 = None -> live kn /\ kn_called kn = false /\ agrees (te_Input r.1) kn.

Lemma agrees_merge input kn : agrees input (mkKnow true false (kn_called kn) (merge_input input (kn_input kn))).
Proof. unfold agrees, merge_input. simpl. destruct input; auto. Qed.

Lemma apply_policies_before x modules : forall kn ev,
  live kn -> kn_called kn = false -> agrees (te_Input ev) kn ->
  guarded x kn (apply_policies ToolPolicyBeforeExecution (b_ToolName (ex_call x))
    (Some (fun input => emit_event (InputResolved (be_turn env) (ex_payload x) input))) modules ev) evaluated.
Proof.
  induction modules as [|m modules IH]; intros kn ev Hl Hc Ha; simpl; [by intros _|].
  split_and!; [done|done|by intros _|]. intros y.
  assert (forall d err, guarded x kn (apply_decision ToolPolicyBeforeExecution
    (Some (fun input => emit_event (InputResolved (be_turn env) (ex_payload x) input))) m ev d err
    (apply_policies ToolPolicyBeforeExecution (b_ToolName (ex_call x))
       (Some (fun input => emit_event (InputResolved (be_turn env) (ex_payload x) input))) modules)) evaluated) as Hd.
  { intros d err. unfold apply_decision. destruct (negb _); [by intros ?|]. destruct err; [by intros ?|].
    destruct (td_Action d); [by apply IH|by intros _| |by intros ?].
    case_bool_decide as Hi; [apply IH; try done; simpl in *; by rewrite <- Hi|].
    apply guarded_bind. destruct Hl as [Hs Hd]. simpl. split_and!; [right; eauto|done|done|]. intros z.
    destruct z as [[|]| | | |]; simpl; try by intros ?. apply IH; simpl; [by split|done|by apply agrees_merge]. }
  destruct y; try apply Hd; by intros ?.
Qed.

Lemma apply_sets_before x sets : forall kn ev, live kn -> kn_called kn = false -> agrees (te_Input ev) kn ->
  guarded x kn (apply_sets ToolPolicyBeforeExecution (b_ToolName (ex_call x))
    (Some (fun input => emit_event (InputResolved (be_turn env) (ex_payload x) input))) sets ev) evaluated.
Proof.
  induction sets as [|s sets IH]; intros kn ev Hl Hc Ha; simpl; [by intros _|].
  apply guarded_bind. unfold set_applyToolPolicies. destruct (set_closed s).
  - simpl. destruct (negb _); by intros ?.
  - eapply guarded_mono; [|by apply apply_policies_before]. intros kn' [cur err] H.
    destruct (negb _); [by intros ?|]. destruct err as [e|]; [by intros ?|]. destruct (H eq_refl) as (H1 & H2 & H3).
    simpl in H3. destruct (te_Denied cur); [by intros _|]. by apply IH.
Qed.

(** After the call the policies say nothing in the journal. *)
Lemma apply_policies_after x modules : forall kn ev, live kn -> 
  guarded x kn (apply_policies ToolPolicyAfterExecution (b_ToolName (ex_call x)) None modules ev)
    (fun kn' _ => kn' = kn).
Proof.
  induction modules as [|m modules IH]; intros kn ev Hl; simpl; [done|].
  split_and!; [done|done|done|]. intros y.
  assert (forall d err, guarded x kn (apply_decision ToolPolicyAfterExecution None m ev d err
    (apply_policies ToolPolicyAfterExecution (b_ToolName (ex_call x)) None modules)) (fun kn' _ => kn' = kn)) as Hd.
  { intros d err. unfold apply_decision. destruct (negb _); [done|]. destruct err; [done|].
    destruct (td_Action d); [by apply IH|done|by apply IH|done]. }
  destruct y; try apply Hd; done.
Qed.

Lemma apply_sets_after x sets : forall kn ev, live kn ->
  guarded x kn (apply_sets ToolPolicyAfterExecution (b_ToolName (ex_call x)) None sets ev) (fun kn' _ => kn' = kn).
Proof.
  induction sets as [|s sets IH]; intros kn ev Hl; simpl; [done|].
  apply guarded_bind. unfold set_applyToolPolicies. destruct (set_closed s).
  - simpl. by destruct (negb _).
  - eapply guarded_mono; [|by apply apply_policies_after]. intros kn' [cur err] ->.
    destruct (negb _); [done|]. destruct err; [done|]. destruct (te_Denied cur); [done|]. by apply IH.
Qed.

(** ** The call *)

(** A result answers a call. *)
Definition answers (call b : Block) : Prop :=
  b_Type b = BlockToolResult /\ b_ToolUseID b = b_ToolUseID call /\ b_ToolName b = b_ToolName call.

Definition result_ok (x : toolExecutionCall) (r : toolCallResult) : Prop :=
  tcr_Fatal r = None -> answers (ex_call x) (tcr_Block r).

Lemma finish_call_answers call content isError info pre post err :
  answers call (tcr_Block (finish_call env call content isError info pre post err)).
Proof. unfold finish_call. by repeat case_match. Qed.

Lemma runToolCall_guarded x : guarded x (mkKnow false false false (b_Input (ex_call x))) (runToolCall env x)
  (fun _ r => result_ok x r).
Proof.
  unfold runToolCall. apply guarded_bind. simpl. split_and!; [by left|done|done|]. intros y.
  destruct y as [[|]| | | |]; simpl; try done. apply guarded_bind.
  eapply guarded_mono; [|apply apply_sets_before; simpl; [done|done|by right]].
  intros kn [pre err] H. destruct err as [e|].
  - destruct (IsPolicyCheckpointError e); simpl; done.
  - destruct (te_Denied pre); [simpl; done|]. destruct (H eq_refl) as (H1 & H2 & H3).
    simpl. split_and!; [done|done|done|done|]. intros z.
    destruct z as [| | |out cerr info|]; cbn beta iota zeta; apply guarded_bind;
      (eapply guarded_mono; [|by apply apply_sets_after]); intros kn' [post perr] _ _; apply finish_call_answers.
Qed.

End Calls.

(** ** The journal *)

Definition known (journal : list Event) (id : string) : option recoverableToolCall :=
  projectRecoverableToolCalls journal !! id.

Lemma known_snoc journal e id :
  known (journal ++ [e]) id = project_event (projectRecoverableToolCalls journal) e !! id.
Proof. unfold known, projectRecoverableToolCalls. by rewrite foldl_app. Qed.

Lemma known_other journal e id : tp_ToolUseID (tool_fields (ev_Payload e)) <> id ->
  known (journal ++ [e]) id = known journal id.
Proof.
  intros H. rewrite known_snoc. unfold project_event, known.
  destruct (phase_of (ev_Type e)) as [[]|]; try case_match; try done; by (rewrite lookup_insert_ne || rewrite lookup_delete_ne).
Qed.

Lemma known_foreign journal e id : foreign e = true -> id <> ""%string -> known (journal ++ [e]) id = known journal id.
Proof.
  intros Hf Hid. unfold foreign in Hf. destruct (ev_Payload e) eqn:Ep; try done;
    try (apply known_other; rewrite Ep; simpl; congruence).
  rewrite known_snoc. unfold project_event. apply bool_decide_eq_true in Hf. by rewrite Hf.
Qed.

Definition requested_entry (p : ToolCallPayload) : recoverableToolCall :=
  mkRecoverable (cp_ToolUseID p) (cp_Name p) (cp_Input p) (cp_TimeoutSeconds p) (cp_Iter p) (cp_CallIndex p)
    (cp_MessageID p) (cp_Input p) false "" None.

Lemma known_requested journal turn p : cp_ToolUseID p <> ""%string ->
  known (journal ++ [Requested turn p]) (cp_ToolUseID p) = Some (requested_entry p).
Proof.
  intros Hid. rewrite known_snoc. unfold project_event. simpl. rewrite bool_decide_eq_false_2 by done. simpl.
  by rewrite lookup_insert_eq.
Qed.

Lemma known_running journal turn p c : cp_ToolUseID p <> ""%string -> known journal (cp_ToolUseID p) = Some c ->
  exists c', known (journal ++ [Running_ turn p]) (cp_ToolUseID p) = Some c' /\ rc_started c' = true /\
    rc_Input c' = rc_Input c /\ rc_outcome c' = rc_outcome c.
Proof.
  intros Hid Hc. rewrite known_snoc. unfold project_event. simpl. rewrite bool_decide_eq_false_2 by done. simpl.
  rewrite lookup_insert_eq. unfold known in Hc. rewrite Hc. eexists. split; [done|]. done.
Qed.

Lemma known_resolved journal turn p input c : cp_ToolUseID p <> ""%string -> known journal (cp_ToolUseID p) = Some c ->
  exists c', known (journal ++ [InputResolved turn p input]) (cp_ToolUseID p) = Some c' /\ rc_started c' = true /\
    rc_Input c' = merge_input input (rc_Input c) /\ rc_outcome c' = rc_outcome c.
Proof.
  intros Hid Hc. rewrite known_snoc. unfold project_event. simpl. rewrite bool_decide_eq_false_2 by done. simpl.
  rewrite lookup_insert_eq. unfold known in Hc. rewrite Hc. eexists. split; [done|]. done.
Qed.

Lemma known_finished journal turn p mid b t c : cp_ToolUseID p <> ""%string -> known journal (cp_ToolUseID p) = Some c ->
  exists c', known (journal ++ [Finished turn p mid b t]) (cp_ToolUseID p) = Some c' /\ rc_started c' = rc_started c /\
    rc_Input c' = rc_Input c /\ rc_outcome c' = Some (mkOutcome mid b).
Proof.
  intros Hid Hc. rewrite known_snoc. unfold project_event, Finished, tool_event. simpl.
  destruct (b_IsError b); simpl; rewrite bool_decide_eq_false_2 by done; simpl;
    rewrite lookup_insert_eq; unfold known in Hc; rewrite Hc; eexists; (split; [done|]); done.
Qed.

(** ** One action *)

Lemma perform_emit e c journal history y journal' history' :
  perform (AEmit e) c journal history = Some (y, journal', history') ->
  history' = history /\ (journal' = journal \/ journal' = journal ++ [e]) /\
  (y = Committed true /\ journal' = journal ++ [e] \/ y = Committed false).
Proof.
  destruct c as [o|x]; [|done]. simpl. destruct o; [| |]; [destruct (event_valid e); [|done]|..|destruct (event_valid e); [|done]];
    intros [= <- <- <-]; split_and!; auto.
Qed.

Lemma perform_append m c journal history y journal' history' :
  perform (AAppend m) c journal history = Some (y, journal', history') ->
  journal' = journal /\ (history' = history \/ history' = history ++ [m]) /\
  (y = Committed true /\ history' = history ++ [m] \/ y = Committed false).
Proof.
  destruct c as [o|x]; [|done]. simpl. destruct o; intros [= <- <- <-]; split_and!; auto.
Qed.

Lemma perform_ask a c journal history y journal' history' :
  perform a c journal history = Some (y, journal', history') ->
  match a with AEmit _ | AAppend _ => True | _ => journal' = journal /\ history' = history end.
Proof. destruct a, c as [o|[]]; simpl; try done; by intros [= _ <- <-]. Qed.

Lemma act_Some {A} (p : Proc A) c s a p' s' : act p c s = Some (a, p', s') ->
  exists k y journal history, p = Act a k /\ p' = k y /\
    perform a c (bt_journal s) (bt_history s) = Some (y, journal, history) /\
    s' = mkBatch (bt_stage s) journal history (bt_trace s) (bt_results s).
Proof.
  unfold act. destruct p as [|a0 k]; [done|]. destruct (perform a0 c _ _) as [[[y j] h]|] eqn:E; [|done].
  intros [= <- <- <-]. exists k, y, j, h. by split_and!.
Qed.
