(* ===== verification/ToolBatchInv.v ===== *)
(** * The states of a tool batch

    The invariant of the steps of a batch: what its journal says of each call,
    what the call may still do, and what the history holds. *)

From S2P Require Import Prelude GoStd Utf8 Llm Events ThreadTypes ThreadFacts ContextText ToolPolicies ToolBatch ProtocolRepair ToolBatchProps.

Local Open Scope Z_scope.
Local Open Scope juex_scope.

Section Invariant.
  Context (env : BatchEnv) (execs : list toolExecutionCall) (history : list Message).

Local Abbreviation id_of x := (cp_ToolUseID (ex_payload x)).

(** The executions of a response: identities that are not empty and differ. *)
Definition good_execs : Prop :=
  NoDup (map (fun x => id_of x) execs) /\
  Forall (fun x => id_of x <> ""%string /\ id_of x = b_ToolUseID (ex_call x) /\
                   cp_Input (ex_payload x) = b_Input (ex_call x) /\ cp_Name (ex_payload x) = b_ToolName (ex_call x)) execs.

(** *** Announcing *)

Fixpoint announces {A} (sent : list Event) (p : Proc A) (Q : list Event -> A -> Prop) : Prop :=
  match p with
  | Return a => Q sent a
  | Act (AEmit e) k =>
    (foreign e = true \/ exists x, x ∈ execs /\ e = Requested (be_turn env) (ex_payload x)) /\
    forall y, announces (match y with Committed true => sent ++ [e] | _ => sent end) (k y) Q
  | Act _ _ => False
  end.

Lemma announces_bind {A B} (p : Proc A) (f : A -> Proc B) Q : forall sent,
  announces sent p (fun sent a => announces sent (f a) Q) -> announces sent (pbind p f) Q.
Proof.
  induction p as [a|a k IH]; intros sent; [done|]. simpl. destruct a; try done. intros [H1 H2]. split; [done|].
  intros y. by apply IH.
Qed.

Lemma announces_mono {A} (p : Proc A) (Q R : list Event -> A -> Prop) : (forall sent a, Q sent a -> R sent a) ->
  forall sent, announces sent p Q -> announces sent p R.
Proof.
  intros HQ. induction p as [a|a k IH]; intros sent; simpl; [apply HQ|]. destruct a; try done.
  intros [H1 H2]. split; [done|]. eauto.
Qed.

Lemma emit_each_announces l : forall sent, Forall (fun e => exists x, x ∈ execs /\ e = Requested (be_turn env) (ex_payload x)) l ->
  announces sent (emit_each l) (fun sent' ok => ok = true -> forall e, e ∈ sent \/ e ∈ l -> e ∈ sent').
Proof.
  induction l as [|e l IH]; intros sent Hl; simpl; [intros _ e [?|H]; [done|inversion H]|].
  apply Forall_cons in Hl as [He Hl]. split; [by right|]. intros y.
  destruct y as [[|]| | | |]; simpl; try done.
  eapply announces_mono; [|by apply IH]. intros sent' ok H Hok e' He'. apply H; [done|]. set_solver.
Qed.

(** All requests are sent when the calls are to start. *)
Definition all_sent (sent : list Event) (r : option BatchError) : Prop :=
  r = None -> forall x, x ∈ execs -> Requested (be_turn env) (ex_payload x) ∈ sent.

Lemma announce_announces : announces [] (announce_calls env execs) all_sent.
Proof.
  unfold announce_calls. apply announces_bind. simpl. split; [by left|]. intros y.
  destruct y as [[|]| | | |]; simpl; try done. apply announces_bind.
  eapply announces_mono; [|apply emit_each_announces].
  - intros sent ok H. destruct ok; [|done]. intros _ x Hx. apply H; [done|]. right.
    apply list_elem_of_fmap. eauto.
  - apply Forall_forall. intros e (x & -> & Hx)%list_elem_of_fmap. eauto.
Qed.

(** *** Calling *)

(** What the journal says of call [x], given what it knows itself. *)
Definition call_known (x : toolExecutionCall) (kn : Know) (journal : list Event) : Prop :=
  exists c, known journal (id_of x) = Some c /\ rc_outcome c = None /\
    (kn_started kn = true -> rc_started c = true) /\
    (kn_dead kn = false -> rc_started c = kn_started kn /\ rc_Input c = kn_input kn).

(** What a call has done so far. *)
Definition trace_ok (i : nat) (kn : Know) (trace : list (nat * Action)) : Prop :=
  (forall m st t input r, (i, APolicy m st t input r) ∈ trace -> kn_started kn = true) /\
  (forall t input, (i, ACall t input) ∈ trace ->
     kn_called kn = true /\ live kn /\ agrees input kn).

(** *** Recording *)

(** A block of the message: that of the result, its long text replaced. *)
Definition projects (b0 b : Block) : Prop :=
  b = b0 \/ exists text artifact,
    b = mkBlock (b_Type b0) (b_Text b0) (b_Media b0) (b_ToolUseID b0) (b_ToolName b0) (b_Input b0)
          (b_TimeoutSeconds b0) text (b_IsError b0) (b_Signature b0) (b_Redacted b0) (Some artifact) (b_ResultFact b0).

Definition final_block (r : toolCallResult) : Block := guide_block env (tcr_Block (own_result env r)).

Definition final_blocks (results : list toolCallResult) (l : list Block) : Prop :=
  Forall2 projects (map final_block results) l.

(** [bs]: the blocks, once they are fixed; [appended]: the answer to the append. *)
Fixpoint records {A} (results : list toolCallResult) (bs : option (list Block)) (appended : option bool)
    (p : Proc A) (Q : option bool -> A -> Prop) : Prop :=
  match p with
  | Return a => Q appended a
  | Act a k =>
    match a with
    | AArtifact _ _ => bs = None /\ forall y, records results None appended (k y) Q
    | AEmit e =>
      (foreign e = true /\ forall y, records results bs appended (k y) Q) \/
      (exists l i x r b t, (bs = None \/ bs = Some l) /\ final_blocks results l /\
         execs !! i = Some x /\ results !! i = Some r /\ tcr_Fatal r = None /\ l !! i = Some b /\
         e = Finished (be_turn env) (ex_payload x) (resultMessageID env) b t /\
         forall y, records results (Some l) appended (k y) Q)
    | AAppend m =>
      exists l, (bs = None \/ bs = Some l) /\ final_blocks results l /\ m = result_message env l /\
        Forall (fun r => tcr_Fatal r = None) results /\ appended = None /\
        forall y, records results (Some l) (Some (match y with Committed true => true | _ => false end)) (k y) Q
    | APolicy _ _ _ _ _ | ACall _ _ => False
    end
  end.

Definition finished (appended : option bool) (errors : list BatchError) : Prop :=
  errors = [] -> appended = Some true.

(** A process that only writes artifacts. *)
Fixpoint asks {A} (p : Proc A) (Q : A -> Prop) : Prop :=
  match p with
  | Return a => Q a
  | Act (AArtifact _ _) k => forall y, asks (k y) Q
  | Act _ _ => False
  end.

Lemma asks_bind {A B} (p : Proc A) (f : A -> Proc B) Q : asks p (fun a => asks (f a) Q) -> asks (pbind p f) Q.
Proof. induction p as [a|a k IH]; [done|]. simpl. destruct a; try done. intros H y. by apply IH. Qed.

Lemma asks_mono {A} (p : Proc A) (Q R : A -> Prop) : (forall a, Q a -> R a) -> asks p Q -> asks p R.
Proof. intros HQ. induction p as [a|a k IH]; simpl; [apply HQ|]. destruct a; try done. eauto. Qed.

Lemma asks_records {A B} results (p : Proc A) (f : A -> Proc B) P Q : asks p P ->
  (forall a, P a -> records results None None (f a) Q) -> records results None None (pbind p f) Q.
Proof.
  intros H Hf. induction p as [a|a k IH]; simpl in *; [by apply Hf|]. destruct a; try done. split; [done|].
  intros y. by apply IH.
Qed.

Lemma records_assoc {A B C} results (p : Proc A) (h : A -> Proc B) (f : B -> Proc C) Q : forall bs ap,
  records results bs ap (pbind p (fun a => pbind (h a) f)) Q -> records results bs ap (pbind (pbind p h) f) Q.
Proof.
  induction p as [a|a k IH]; intros bs ap; [done|]. simpl. destruct a; try done.
  - intros [[H1 H2]|(l & i & x & r & b & t & H1 & H2 & H3 & H4 & H5 & H6 & H7 & H8)]; [left; split; [done|]; eauto|].
    right. exists l, i, x, r, b, t. split_and!; eauto.
  - intros [H1 H2]. split; eauto.
  - intros (l & H1 & H2 & H3 & H4 & H5 & H6). exists l. split_and!; eauto.
Qed.

Lemma project_blocks_asks l : forall index, asks (project_blocks env index l)
  (fun o => match o with Some (bs, _) => Forall2 projects l bs | None => True end).
Proof.
  induction l as [|b l IH]; intros index; simpl; [constructor|].
  assert (forall b' changed, projects b b' ->
    asks (run r <- project_blocks env (S index) l;;
          Return match r with Some (bs, c) => Some (b' :: bs, changed || c) | None => None end)
      (fun o => match o with Some (bs, _) => Forall2 projects (b :: l) bs | None => True end)) as Hgo.
  { intros b' ch Hb. apply asks_bind. eapply asks_mono; [|apply IH]. intros [[bs c]|] H; simpl; [by constructor|done]. }
  destruct (bool_decide (b_Type b = BlockToolResult) && _); [|apply (Hgo b false); by left].
  simpl. intros y. destruct y as [| | | |[[artifact text]|]]; simpl; try done. apply (Hgo _ true). right. eauto.
Qed.

Lemma emit_outcomes_records results {B} (f : list BatchError -> Proc B) Q l
    (pairs : list (toolExecutionCall * (toolCallResult * Block))) : final_blocks results l ->
  Forall (fun q => exists i r, execs !! i = Some q.1 /\ results !! i = Some r /\ q.2.1 = own_result env r /\
                     l !! i = Some q.2.2) pairs ->
  forall o g, (o = None \/ o = Some l) ->
  (forall errs o', (o' = None \/ o' = Some l) -> records results o' None (f (g errs)) Q) ->
  records results o None (pbind (emit_outcomes env (resultMessageID env) pairs) (fun e => f (g e))) Q.
Proof.
  intros Hfin. induction 1 as [|[x [r b]] pairs (i & r0 & Hx & Hr & Ho & Hb) _ IH]; intros o g Hol Hf; simpl; [by apply Hf|].
  simpl in *. subst r.
  destruct (_ || _) eqn:E; [by apply IH|]. apply orb_false_iff in E as [E _].
  simpl. right. exists l, i, x, r0, b, (ci_TimeoutSeconds (tcr_Info (own_result env r0))).
  split_and!; [done|done|done|done| |done|done|].
  - unfold own_result in E. by destruct (tcr_Fatal r0) eqn:Ef; [exfalso; repeat case_match; simplify_eq/=; congruence|].
  - intros y. assert (forall ok : bool, records results (Some l) None
      (pbind (pbind (emit_outcomes env (resultMessageID env) pairs)
         (fun errors => Return (if ok then errors else ErrCommitOutcome :: errors))) (fun e => f (g e))) Q) as Hok.
    { intros ok. specialize (IH (Some l) (fun errors => g (if ok then errors else ErrCommitOutcome :: errors)) (or_intror eq_refl)).
      apply records_assoc. simpl. apply IH. intros errs o' Ho'. by apply Hf. }
    destruct y as [ok| | | |]; simpl; apply (Hok ok) || apply (Hok false).
Qed.

Lemma own_Fatal r : tcr_Fatal (own_result env r) = tcr_Fatal r.
Proof. unfold own_result. by repeat case_match. Qed.

Lemma fatal_own results : fatal_errors (map (own_result env) results) = fatal_errors results.
Proof.
  unfold fatal_errors. induction results as [|r results IH]; [done|]. cbn. rewrite own_Fatal.
  destruct (tcr_Fatal r); [f_equal|]; exact IH.
Qed.

Lemma fatal_errors_nil results : fatal_errors results = [] -> Forall (fun r => tcr_Fatal r = None) results.
Proof.
  unfold fatal_errors. induction results as [|r results IH]; simpl; [constructor|].
  destruct (tcr_Fatal r) eqn:E; simpl; [done|]. intros H. constructor; [done|by apply IH].
Qed.

Lemma record_results_records results : length results = length execs ->
  records results None None (record_results env execs results) finished.
Proof.
  intros Hlen. unfold record_results. eapply asks_records; [apply project_blocks_asks|].
  intros [[l changed]|] Hl; [|simpl; intros H; by destruct (fatal_errors _)].
  assert (final_blocks results l) as Hfin by (unfold final_blocks, final_block; by rewrite map_map in Hl).
  apply (emit_outcomes_records results (fun errs => _) finished l _ Hfin) with (g := fun e => e); [|by left|].
  - apply Forall_forall. intros [x [r b]] Hq. apply list_elem_of_lookup in Hq as [i Hi].
    rewrite lookup_zip_with in Hi. apply bind_Some in Hi as (x' & Hx & Hi). apply bind_Some in Hi as (rb & Hrb & [= -> ->]).
    rewrite lookup_zip_with in Hrb. apply bind_Some in Hrb as (r' & Hr & Hb). apply bind_Some in Hb as (b' & Hb & [= -> ->]).
    apply list_lookup_fmap_Some in Hr as (r0 & -> & Hr). exists i, r0. by split_and!.
  - intros errs o Ho. rewrite fatal_own. destruct (fatal_errors results ++ errs) as [|e es] eqn:Ef; [|done].
    apply app_eq_nil in Ef as [Ef _]. simpl. exists l. split_and!; [done|done|done|by apply fatal_errors_nil|done|].
    intros y. destruct y as [[|]| | | |]; simpl; try done. destruct changed; simpl; [|done].
    left. split; [done|]. intros y. destruct y as [[|]| | | |]; simpl; done.
Qed.

(** *** The invariant *)

Definition outcome_known (results : list toolCallResult) (bs : option (list Block)) (i : nat)
    (x : toolExecutionCall) (kn : Know) (journal : list Event) : Prop :=
  exists c, known journal (id_of x) = Some c /\
    (kn_started kn = true -> rc_started c = true) /\
    (kn_dead kn = false -> rc_Input c = kn_input kn) /\
    (rc_outcome c = None \/
     exists l r b, bs = Some l /\ final_blocks results l /\ results !! i = Some r /\ tcr_Fatal r = None /\
       l !! i = Some b /\ rc_outcome c = Some (mkOutcome (resultMessageID env) b)).

Definition recorded_ok (results : list toolCallResult) (bs : option (list Block)) (appended : option bool)
    (s : Batch) : Prop :=
  Forall2 result_ok execs results /\
  (forall i x, execs !! i = Some x -> exists kn,
     trace_ok i kn (bt_trace s) /\ outcome_known results bs i x kn (bt_journal s)) /\
  (appended = None -> bt_history s = history) /\
  (bt_history s = history /\ appended <> Some true \/
   exists l, bs = Some l /\ final_blocks results l /\ Forall (fun r => tcr_Fatal r = None) results /\
     bt_history s = history ++ [result_message env l]).

Definition batch_inv (s : Batch) : Prop :=
  match bt_stage s with
  | Announcing p =>
    bt_trace s = [] /\ bt_history s = history /\ exists sent, announces sent p all_sent /\
      forall x, x ∈ execs ->
        (known (bt_journal s) (id_of x) = None \/ known (bt_journal s) (id_of x) = Some (requested_entry (ex_payload x))) /\
        (Requested (be_turn env) (ex_payload x) ∈ sent -> known (bt_journal s) (id_of x) <> None)
  | Calling calls =>
    bt_history s = history /\ length calls = length execs /\
    forall i x p, execs !! i = Some x -> calls !! i = Some p ->
      exists kn, guarded env x kn p (fun _ r => result_ok x r) /\ call_known x kn (bt_journal s) /\
                 trace_ok i kn (bt_trace s)
  | Recording p => exists bs appended, recorded_ok (bt_results s) bs appended s /\
      records (bt_results s) bs appended p finished
  | Ended errors =>
    errors <> [] /\ bt_trace s = [] /\ bt_history s = history /\
      (forall x, x ∈ execs -> known (bt_journal s) (id_of x) = None \/ known (bt_journal s) (id_of x) = Some (requested_entry (ex_payload x))) \/
    exists bs appended, recorded_ok (bt_results s) bs appended s /\ finished appended errors
  end.

(** Another call's event, or a foreign one, leaves what is known of a call. *)
Lemma own_id i j x x' : good_execs -> execs !! i = Some x -> execs !! j = Some x' -> i <> j -> id_of x' <> id_of x.
Proof.
  intros [Hnd _] Hi Hj Hne He. apply Hne.
  eapply (NoDup_lookup (map (fun x => id_of x) execs)); [done| |]; apply list_lookup_fmap_Some; eauto.
Qed.

Lemma good_exec x i : good_execs -> execs !! i = Some x -> id_of x <> ""%string /\ id_of x = b_ToolUseID (ex_call x) /\
  cp_Input (ex_payload x) = b_Input (ex_call x) /\ cp_Name (ex_payload x) = b_ToolName (ex_call x).
Proof. intros [_ H] Hx. by eapply Forall_lookup_1 in H. Qed.

Lemma call_known_ext x kn j j' : known j' (id_of x) = known j (id_of x) -> call_known x kn j -> call_known x kn j'.
Proof. unfold call_known. by intros ->. Qed.

Lemma outcome_known_ext results bs i x kn j j' : known j' (id_of x) = known j (id_of x) ->
  outcome_known results bs i x kn j -> outcome_known results bs i x kn j'.
Proof. unfold outcome_known. by intros ->. Qed.

Lemma trace_ok_other i j kn a tr : i <> j -> trace_ok i kn tr -> trace_ok i kn (tr ++ [(j, a)]).
Proof.
  intros Hne [H1 H2]. split.
  - intros m st t input r [H|H%list_elem_of_singleton]%elem_of_app; [by eapply H1|]. congruence.
  - intros t input [H|H%list_elem_of_singleton]%elem_of_app; [by eapply H2|]. congruence.
Qed.

Lemma inv_other s e : good_execs -> foreign e = true -> batch_inv s ->
  batch_inv (mkBatch (bt_stage s) (bt_journal s ++ [e]) (bt_history s) (bt_trace s) (bt_results s)).
Proof.
  intros Hg Hf.
  assert (forall i x, execs !! i = Some x -> known (bt_journal s ++ [e]) (id_of x) = known (bt_journal s) (id_of x)) as Hk.
  { intros i x Hx. apply known_foreign; [done|]. by eapply good_exec. }
  assert (forall x, x ∈ execs -> known (bt_journal s ++ [e]) (id_of x) = known (bt_journal s) (id_of x)) as Hk'.
  { intros x [i Hx]%list_elem_of_lookup. by eapply Hk. }
  assert (forall bs ap, recorded_ok (bt_results s) bs ap s -> recorded_ok (bt_results s) bs ap
    (mkBatch (bt_stage s) (bt_journal s ++ [e]) (bt_history s) (bt_trace s) (bt_results s))) as Hr.
  { intros bs ap (H1 & H2 & H3). split_and!; [done| |apply H3|apply H3]. intros i x Hx.
    destruct (H2 i x Hx) as (kn & ? & Ho). exists kn. split; [done|]. eapply outcome_known_ext; [by eapply Hk|done]. }
  unfold batch_inv. simpl. destruct (bt_stage s) as [p|calls|p|errors].
  - intros (H1 & H2 & sent & H3 & H4). split_and!; [done|done|]. exists sent. split; [done|].
    intros x Hx. rewrite Hk' by done. by apply H4.
  - intros (H1 & H2 & H3). split_and!; [done|done|]. intros i x p Hx Hp. destruct (H3 i x p Hx Hp) as (kn & ? & Hc & ?).
    exists kn. split_and!; [done| |done]. eapply call_known_ext; [by eapply Hk|done].
  - intros (bs & ap & H1 & H2). exists bs, ap. split; [by apply Hr|done].
  - intros [(H1 & H2 & H3 & H4)|(bs & ap & H1 & H2)].
    + left. split_and!; [done..|]. intros x Hx. rewrite Hk' by done. by apply H4.
    + right. exists bs, ap. split; [by apply Hr|done].
Qed.

(** *** Announcing *)

Lemma known_requested_exec x0 x journal : good_execs -> x0 ∈ execs -> x ∈ execs ->
  (x0 = x /\ known (journal ++ [Requested (be_turn env) (ex_payload x0)]) (id_of x) = Some (requested_entry (ex_payload x))) \/
  (id_of x0 <> id_of x /\
   known (journal ++ [Requested (be_turn env) (ex_payload x0)]) (id_of x) = known journal (id_of x)).
Proof.
  intros Hg [i Hi]%list_elem_of_lookup [j Hj]%list_elem_of_lookup. destruct (decide (i = j)) as [->|Hne].
  - left. rewrite Hj in Hi. injection Hi as <-. split; [done|]. apply known_requested. by eapply good_exec.
  - right. assert (id_of x0 <> id_of x) as Hd by (by eapply own_id; [..|apply not_eq_sym]).
    split; [done|]. by apply known_other.
Qed.

Lemma inv_announce s p c a p' s' : good_execs -> bt_stage s = Announcing p -> batch_inv s ->
  act p c s = Some (a, p', s') -> batch_inv (set_stage (Announcing p') s').
Proof.
  intros Hg Hst Hi (k & y & j & h & -> & -> & Hp & ->)%act_Some. unfold batch_inv in *. rewrite Hst in Hi. simpl.
  destruct Hi as (H1 & H2 & sent & Ha & Hx). simpl in Ha. destruct a as [e| | | |]; try done.
  apply perform_emit in Hp as (-> & Hj & Hy). destruct Ha as [He Hk]. split_and!; [done|done|].
  exists (match y with Committed true => sent ++ [e] | _ => sent end). split; [by apply Hk|].
  assert (forall x, x ∈ execs -> known j (id_of x) = known (bt_journal s) (id_of x) /\
            (e = Requested (be_turn env) (ex_payload x) -> j = bt_journal s) \/
            known j (id_of x) = Some (requested_entry (ex_payload x))) as Hkn.
  { intros x Hxe. destruct Hj as [-> | ->]; [by left|]. destruct He as [He|(x0 & Hx0 & ->)].
    - left. split; [|intros ->; done]. apply list_elem_of_lookup in Hxe as [i Hxe]. apply known_foreign; [done|].
      by eapply good_exec.
    - destruct (known_requested_exec x0 x (bt_journal s) Hg Hx0 Hxe) as [[-> H]|[Hd H]]; [by right|].
      left. split; [done|]. intros [= He]. congruence. }
  intros x Hxe. destruct (Hx x Hxe) as [Hn Hs]. destruct (Hkn x Hxe) as [[-> Hj']| ->]; [|split; [by right|done]].
  split; [done|]. intros Hin. destruct Hy as [[-> ->]| ->]; [|by apply Hs].
  apply elem_of_app in Hin as [Hin|Hin%list_elem_of_singleton]; [by apply Hs|].
  specialize (Hj' (eq_sym Hin)). apply (f_equal length) in Hj'. rewrite length_app in Hj'. simpl in Hj'. lia.
Qed.

(** *** Calling *)

Lemma trace_ok_own i kn kn' a tr : trace_ok i kn tr -> (kn_started kn = true -> kn_started kn' = true) ->
  (kn_called kn = true -> kn' = kn) ->
  match a with
  | APolicy _ _ _ _ _ => kn_started kn' = true
  | ACall _ input => kn_called kn' = true /\ live kn' /\ agrees input kn'
  | _ => True
  end -> trace_ok i kn' (tr ++ [(i, a)]).
Proof.
  intros [H1 H2] Hs Hc Ha. split.
  - intros m st t input r [H|H%list_elem_of_singleton]%elem_of_app; [by eapply Hs, H1|]. by injection H as <-.
  - intros t input [H|H%list_elem_of_singleton]%elem_of_app; [|by injection H as <-].
    destruct (H2 _ _ H) as (E1 & E2 & E3). by rewrite Hc.
Qed.

Lemma call_emits x kn e y journal journal' i tr : id_of x <> ""%string ->
  e = Running_ (be_turn env) (ex_payload x) \/
    (kn_started kn = true /\ exists input, e = InputResolved (be_turn env) (ex_payload x) input) ->
  kn_called kn = false -> kn_dead kn = false ->
  (journal' = journal \/ journal' = journal ++ [e]) ->
  (y = Committed true /\ journal' = journal ++ [e] \/ y = Committed false) ->
  call_known x kn journal -> trace_ok i kn tr ->
  call_known x (after_emit e y kn) journal' /\ trace_ok i (after_emit e y kn) (tr ++ [(i, AEmit e)]).
Proof.
  intros Hid He Hc Hd Hj Hy (c & Hk & Ho & Hs & Hl) Htr. split.
  2: { eapply trace_ok_own; [done| | |done]; [|congruence]. intros ?. by destruct Hy as [[-> _]| ->]. }
  assert (exists c', known (journal ++ [e]) (id_of x) = Some c' /\ rc_started c' = true /\
            rc_Input c' = merge_input (event_input e) (rc_Input c) /\ rc_outcome c' = None) as (c' & Hk' & Hs' & Hi' & Ho').
  { destruct He as [->|[_ [input ->]]].
    - destruct (known_running journal (be_turn env) (ex_payload x) c Hid Hk) as (c' & ? & ? & ? & ?). exists c'.
      split_and!; [done..|congruence].
    - destruct (known_resolved journal (be_turn env) (ex_payload x) input c Hid Hk) as (c' & ? & ? & ? & ?). exists c'.
      split_and!; [done..|congruence]. }
  destruct Hy as [[-> ->]| ->]; simpl.
  - exists c'. split_and!; [done..|]. intros _. split; [done|]. rewrite Hi'. simpl. f_equal. by apply Hl.
  - destruct Hj as [-> | ->]; [exists c|exists c']; split_and!; done.
Qed.

Lemma call_acts x kn a k c y journal history0 journal' history' i tr :
  id_of x <> ""%string -> guarded env x kn (Act a k) (fun _ r => result_ok x r) -> call_known x kn journal ->
  trace_ok i kn tr -> perform a c journal history0 = Some (y, journal', history') ->
  history' = history0 /\ (forall id, id <> id_of x -> known journal' id = known journal id) /\
  exists kn', guarded env x kn' (k y) (fun _ r => result_ok x r) /\ call_known x kn' journal' /\
    trace_ok i kn' (tr ++ [(i, a)]).
Proof.
  intros Hid Hg Hc Ht Hp. simpl in Hg. destruct a as [e|m st t input r|t input|index text|m]; [| | |done..].
  - apply perform_emit in Hp as (-> & Hj & Hy). destruct Hg as (He & Hcl & Hd & Hk). split; [done|]. split.
    + intros id Hne. destruct Hj as [-> | ->]; [done|]. apply known_other.
      destruct He as [->|[_ [input ->]]]; by apply not_eq_sym.
    + exists (after_emit e y kn). split; [by apply Hk|]. by eapply call_emits.
  - apply perform_ask in Hp as [-> ->]. destruct Hg as ([Hs Hd] & _ & _ & Hk). split_and!; [done..|].
    exists kn. split_and!; [by apply Hk|done|]. eapply trace_ok_own; done.
  - apply perform_ask in Hp as [-> ->]. destruct Hg as ([Hs Hd] & Hcl & _ & Ha & Hk). split_and!; [done..|].
    eexists. split_and!; [by apply Hk| |].
    + destruct Hc as (c0 & ? & ? & ? & ?). exists c0. by split_and!.
    + eapply trace_ok_own; [done|done|congruence|]. split_and!; done.
Qed.

Lemma inv_call s calls i p c a p' s' : good_execs -> bt_stage s = Calling calls -> batch_inv s ->
  calls !! i = Some p -> act p c s = Some (a, p', s') ->
  batch_inv (add_trace i a (set_stage (Calling (<[i := p']> calls)) s')).
Proof.
  intros Hg Hst Hi Hp (k & y & j & h & -> & -> & Hpf & ->)%act_Some. unfold batch_inv in *. rewrite Hst in Hi. simpl.
  destruct Hi as (Hh & Hlen & Hc). rewrite Hh in Hpf.
  assert (exists x, execs !! i = Some x) as [x Hx].
  { apply lookup_lt_is_Some. rewrite <- Hlen. by eapply lookup_lt_Some. }
  destruct (Hc i x _ Hx Hp) as (kn & Hgd & Hk & Ht).
  destruct (good_exec x i Hg Hx) as [Hid _].
  destruct (call_acts x kn a k c y _ _ _ _ i _ Hid Hgd Hk Ht Hpf) as (-> & Ho & kn' & H1 & H2 & H3).
  split_and!; [done|by rewrite length_insert|]. intros i' x' q Hx' Hq. destruct (decide (i' = i)) as [->|Hne].
  - rewrite Hx in Hx'. injection Hx' as <-. rewrite list_lookup_insert_eq in Hq by (by eapply lookup_lt_Some).
    injection Hq as <-. by exists kn'.
  - rewrite list_lookup_insert_ne in Hq by done. destruct (Hc i' x' q Hx' Hq) as (kn2 & G1 & G2 & G3). exists kn2.
    split_and!; [done| |by apply trace_ok_other]. eapply call_known_ext; [|done]. apply Ho.
    by eapply own_id; [..|apply not_eq_sym].
Qed.

(** *** Recording *)

Lemma outcome_known_fixed results bs l i x kn journal : bs = None \/ bs = Some l ->
  outcome_known results bs i x kn journal -> outcome_known results (Some l) i x kn journal.
Proof.
  intros Hbs (c & H1 & H2 & H3 & H4). exists c. split_and!; [done..|].
  destruct H4 as [H4|(l' & r & b & -> & H4)]; [by left|]. destruct Hbs as [|[= ->]]; [done|]. right. by exists l, r, b.
Qed.

Lemma outcome_known_finished results l i x r b t kn journal : good_execs -> execs !! i = Some x ->
  final_blocks results l -> results !! i = Some r -> tcr_Fatal r = None -> l !! i = Some b ->
  outcome_known results (Some l) i x kn journal ->
  outcome_known results (Some l) i x kn (journal ++ [Finished (be_turn env) (ex_payload x) (resultMessageID env) b t]).
Proof.
  intros Hg Hx Hl Hr Hf Hb (c & H1 & H2 & H3 & _). destruct (good_exec x i Hg Hx) as [Hid _].
  destruct (known_finished journal (be_turn env) (ex_payload x) (resultMessageID env) b t c Hid H1) as (c' & K1 & K2 & K3 & K4).
  exists c'. rewrite K2, K3. split_and!; [done..|]. right. by exists l, r, b.
Qed.

Lemma inv_record s p c a p' s' : good_execs -> bt_stage s = Recording p -> batch_inv s ->
  act p c s = Some (a, p', s') -> batch_inv (set_stage (Recording p') s').
Proof.
  intros Hg Hst Hi (k & y & j & h & -> & -> & Hp & ->)%act_Some. unfold batch_inv in *. rewrite Hst in Hi. simpl.
  destruct Hi as (bs & ap & (H1 & H2 & H3 & H4) & Hr). simpl in Hr. unfold recorded_ok. simpl.
  destruct a as [e|m st t input r|t input|index text|m]; [|done|done| |].
  - apply perform_emit in Hp as (-> & Hj & _). destruct Hr as [[Hf Hk]|(l & i & x & r & b & t & Hbs & Hl & Hx & Hr & Hfat & Hb & -> & Hk)].
    + exists bs, ap. split; [|by apply Hk]. split_and!; [done| |done|done]. intros i x Hx.
      destruct (H2 i x Hx) as (kn & Ht & Ho). exists kn. split; [done|]. destruct Hj as [-> | ->]; [done|].
      eapply outcome_known_ext; [|done]. apply known_foreign; [done|]. by eapply good_exec.
    + exists (Some l), ap. split; [|by apply Hk]. split_and!; [done| |done|].
      * intros i' x' Hx'. destruct (H2 i' x' Hx') as (kn & Ht & Ho). exists kn. split; [done|].
        apply (outcome_known_fixed _ _ l) in Ho; [|done]. destruct Hj as [-> | ->]; [done|].
        destruct (decide (i' = i)) as [->|Hne].
        -- rewrite Hx in Hx'. injection Hx' as <-. by eapply outcome_known_finished.
        -- eapply outcome_known_ext; [|done]. apply known_other.
           assert (id_of x <> id_of x') as Hd by (by eapply own_id; [..|apply Hne]).
           unfold Finished. by destruct (b_IsError b).
      * destruct H4 as [H4|(l' & -> & H4)]; [by left|]. destruct Hbs as [|[= ->]]; [done|]. right. by exists l.
  - apply perform_ask in Hp as [-> ->]. destruct Hr as [-> Hk]. exists None, ap. split; [|by apply Hk]. by split_and!.
  - apply perform_append in Hp as (-> & Hh & Hy). destruct Hr as (l & Hbs & Hl & -> & Hfat & -> & Hk).
    rewrite (H3 eq_refl) in Hh, Hy. exists (Some l). eexists. split; [|by apply Hk]. split_and!; [done| |done|].
    + intros i x Hx. destruct (H2 i x Hx) as (kn & Ht & Ho). exists kn. split; [done|]. by eapply outcome_known_fixed.
    + destruct Hy as [[-> ->]| ->]; [right; by exists l|]. destruct Hh as [-> | ->]; [by left|right; by exists l].
Qed.

(** *** All steps *)

Lemma inv_start_calls s : good_execs -> bt_stage s = Announcing (Return None) -> batch_inv s ->
  batch_inv (set_stage (Calling (map (runToolCall env) execs)) s).
Proof.
  intros Hg Hst Hi. unfold batch_inv in *. rewrite Hst in Hi. simpl. destruct Hi as (Ht & Hh & sent & Ha & Hx).
  split_and!; [done|by rewrite length_map|]. intros i x p Hxi Hp.
  apply list_lookup_fmap_Some in Hp as (x' & -> & Hx'). rewrite Hxi in Hx'. injection Hx' as <-.
  destruct (Hx x) as [Hk Hs]; [by eapply list_elem_of_lookup_2|].
  destruct Hk as [Hk|Hk]; [exfalso; apply Hs; [|done]; apply (Ha eq_refl); by eapply list_elem_of_lookup_2|].
  exists (mkKnow false false false (b_Input (ex_call x))). split_and!; [apply runToolCall_guarded| |].
  - exists (requested_entry (ex_payload x)). split_and!; [done..|]. intros _. split; [done|]. simpl.
    by eapply good_exec.
  - rewrite Ht. split; intros; by apply not_elem_of_nil in H.
Qed.

Lemma inv_end_calls s calls results : bt_stage s = Calling calls -> batch_inv s -> mapM result_of calls = Some results ->
  batch_inv (set_results results (set_stage (Recording (record_results env execs results)) s)).
Proof.
  intros Hst Hi Hm%mapM_Some. unfold batch_inv in *. rewrite Hst in Hi. simpl. destruct Hi as (Hh & Hlen & Hc).
  assert (length results = length execs) as Hlr by (rewrite <- Hlen; symmetry; by eapply Forall2_length).
  assert (forall i x, execs !! i = Some x -> exists r kn, results !! i = Some r /\ result_ok x r /\
            call_known x kn (bt_journal s) /\ trace_ok i kn (bt_trace s)) as Hall.
  { intros i x Hx. assert (exists p, calls !! i = Some p) as [p Hp].
    { apply lookup_lt_is_Some. rewrite Hlen. by eapply lookup_lt_Some. }
    destruct (Forall2_lookup_l _ _ _ _ _ Hm Hp) as (r & Hr & Hres).
    destruct (Hc i x p Hx Hp) as (kn & H1 & H2 & H3). destruct p as [r'|]; [|done]. injection Hres as ->.
    exists r, kn. by split_and!. }
  exists None, None. split; [|by apply record_results_records]. split_and!; [| |done|by left].
  - apply Forall2_same_length_lookup_2; [done|]. intros i x r Hx Hr. destruct (Hall i x Hx) as (r' & kn & Hr' & H & _).
    rewrite Hr in Hr'. by injection Hr' as <-.
  - intros i x Hx. destruct (Hall i x Hx) as (r & kn & _ & _ & (c & K1 & K2 & K3 & K4) & Ht). exists kn. split; [done|].
    exists c. split_and!; [done|done|apply K4|by left].
Qed.

Lemma batch_step_inv m s s' : good_execs -> step_fn env execs m s = Some s' -> batch_inv s -> batch_inv s'.
Proof.
  intros Hg Hs Hi. destruct m as [e|c|i c|]; simpl in Hs.
  - destruct (foreign e) eqn:E; [|done]. injection Hs as <-. by apply inv_other.
  - destruct (bt_stage s) as [p|calls|p|errors] eqn:E; try done;
      destruct (act p c s) as [[[a p'] s0]|] eqn:Ea; try done; injection Hs as <-; [by eapply inv_announce|by eapply inv_record].
  - destruct (bt_stage s) as [p|calls|p|errors] eqn:E; try done. destruct (calls !! i) as [p|] eqn:Ep; [|done].
    destruct (may_move _ _ _ _); [|done]. destruct (act p c s) as [[[a p'] s0]|] eqn:Ea; [|done]. injection Hs as <-.
    by eapply inv_call.
  - destruct (bt_stage s) as [[[e|]|]|calls|[errors|]|errors] eqn:E; try done.
    + injection Hs as <-. unfold batch_inv in *. rewrite E in Hi. simpl. destruct Hi as (H1 & H2 & sent & _ & H).
      left. split_and!; [done..|]. intros x Hx. by apply H.
    + injection Hs as <-. by apply inv_start_calls.
    + destruct (mapM result_of calls) as [results|] eqn:Em; [|done]. injection Hs as <-. by eapply inv_end_calls.
    + injection Hs as <-. unfold batch_inv in *. rewrite E in Hi. simpl. right. destruct Hi as (bs & ap & H1 & H2).
      exists bs, ap. by split.
Qed.

End Invariant.
