(* ===== verification/ToolBatchSafety.v ===== *)
(** * What a tool batch guarantees

    The properties of the runs of [ToolBatch]: what the repair of an interrupted
    batch says, what the model is answered, and the order of serial calls. *)

From S2P Require Import Prelude GoStd Utf8 Llm Events ThreadTypes ThreadFacts ContextText ToolPolicies ToolBatch ProtocolRepair ProtocolRepairProps ToolBatchProps ToolBatchInv.

Local Open Scope Z_scope.
Local Open Scope juex_scope.

(** ** The start of a batch *)

(** The calls of the response have identities of their own, which the journal
    does not know. *)
Definition fresh_calls (recorded : recordedProviderResponse) (journal : list Event) : Prop :=
  NoDup (map b_ToolUseID (rp_toolCalls recorded)) /\
  Forall (fun b => b_ToolUseID b <> ""%string /\ known journal (b_ToolUseID b) = None) (rp_toolCalls recorded).

Lemma executions_lookup recorded i x : executions recorded !! i = Some x <->
  exists call, rp_toolCalls recorded !! i = Some call /\
    x = mkExecution call (toolCallPayload call (rp_iter recorded) (Z.of_nat i) (rp_messageID recorded)).
Proof.
  unfold executions. rewrite list_lookup_imap. destruct (rp_toolCalls recorded !! i) as [call|]; simpl.
  - split; [intros [= <-]; eauto|intros (c & [= <-] & ->); done].
  - split; [done|intros (c & H & _); done].
Qed.

Lemma executions_ids recorded : map (fun x => cp_ToolUseID (ex_payload x)) (executions recorded) =
  map b_ToolUseID (rp_toolCalls recorded).
Proof.
  apply list_eq. intros i. rewrite !list_lookup_fmap. unfold executions. rewrite list_lookup_imap.
  by destruct (rp_toolCalls recorded !! i).
Qed.

Lemma executions_good recorded journal : fresh_calls recorded journal -> good_execs (executions recorded).
Proof.
  intros [Hnd Hf]. split; [by rewrite executions_ids|]. apply Forall_lookup. intros i x Hx.
  apply executions_lookup in Hx as (call & Hc & ->). by destruct (Forall_lookup_1 _ _ _ _ Hf Hc).
Qed.

Section Safety.
  Context (env : BatchEnv) (recorded : recordedProviderResponse).
  Context (journal : list Event) (history : list Message).

Local Abbreviation execs := (executions recorded).
Local Abbreviation start := (recordToolBatchLocked env recorded journal history).

Lemma start_inv : fresh_calls recorded journal -> batch_inv env execs history start.
Proof.
  intros [_ Hf]. unfold batch_inv. simpl. split_and!; [done|done|]. exists []. split; [apply announce_announces|].
  intros x [i Hx]%list_elem_of_lookup. apply executions_lookup in Hx as (call & Hc & ->).
  destruct (Forall_lookup_1 _ _ _ _ Hf Hc) as [_ Hk]. split; [by left|]. intros H. by apply not_elem_of_nil in H.
Qed.

Lemma reachable_batch s : fresh_calls recorded journal -> runs (batch_step env execs) start s ->
  batch_inv env execs history s.
Proof.
  intros Hf Hr. eapply (runs_invariant (batch_step env execs)); [|exact Hr|by apply start_inv].
  intros s1 s2 Hi [m Hm]. eapply batch_step_inv; [by eapply executions_good|exact Hm|exact Hi].
Qed.

(** ** What a state knows of a call *)

Lemma final_answers call r b : answers call (tcr_Block r) -> projects (final_block env r) b -> answers call b.
Proof.
  intros H Hp. assert (answers call (final_block env r)) as Hf.
  { unfold final_block, guide_block, own_result, answers in *. repeat case_match; exact H. }
  destruct Hp as [->|(text & artifact & ->)]; exact Hf.
Qed.

Lemma final_blocks_each results l : final_blocks env results l ->
  Forall2 (fun r b => projects (final_block env r) b) results l.
Proof. apply (Forall2_fmap_l (final_block env) projects). Qed.

Lemma final_blocks_answer results l : Forall2 result_ok execs results ->
  Forall (fun r => tcr_Fatal r = None) results -> final_blocks env results l ->
  Forall2 answers (rp_toolCalls recorded) l.
Proof.
  intros Hr Hf Hl. apply final_blocks_each in Hl. apply Forall2_same_length_lookup_2.
  - apply Forall2_length in Hl, Hr. rewrite <- Hl, <- Hr. unfold executions. by rewrite length_imap.
  - intros i call b Hc Hb. destruct (Forall2_lookup_r _ _ _ _ _ Hl Hb) as (r & Hri & Hp).
    eapply final_answers; [|exact Hp]. destruct (Forall2_lookup_r _ _ _ _ _ Hr Hri) as (x & Hx & Hok).
    apply executions_lookup in Hx as (call' & Hc' & ->). rewrite Hc in Hc'. injection Hc' as <-.
    apply Hok. by eapply (Forall_lookup_1 _ _ _ _ Hf).
Qed.

(** The journal's record of the call, what the call has done, and the recorded
    outcome with the message that carries it. *)
Definition call_view (i : nat) (call : Block) (s : Batch) : Prop :=
  exists kn, trace_ok i kn (bt_trace s) /\
    (kn_started kn = true -> exists c, known (bt_journal s) (b_ToolUseID call) = Some c /\ rc_started c = true /\
      (kn_dead kn = false -> rc_Input c = kn_input kn)) /\
    (forall c o, known (bt_journal s) (b_ToolUseID call) = Some c -> rc_outcome c = Some o ->
      answers call (ro_Block o) /\ ro_MessageID o = resultMessageID env /\
      forall m, bt_history s = history ++ [m] -> blocks m !! i = Some (ro_Block o)).

Local Abbreviation execution_of i call :=
  (mkExecution call (toolCallPayload call (rp_iter recorded) (Z.of_nat i) (rp_messageID recorded))).

Lemma view_announced i call s : bt_trace s = [] ->
  known (bt_journal s) (b_ToolUseID call) = None \/
    known (bt_journal s) (b_ToolUseID call) = Some (requested_entry (ex_payload (execution_of i call))) ->
  call_view i call s.
Proof.
  intros Ht Hk. exists (mkKnow false false false None). rewrite Ht. split_and!; [|done|].
  - split; intros * H; by apply not_elem_of_nil in H.
  - intros c o Hc Ho. destruct Hk as [Hk|Hk]; rewrite Hk in Hc; by simplify_eq.
Qed.

Lemma view_recorded i call s bs ap : rp_toolCalls recorded !! i = Some call ->
  recorded_ok env execs history (bt_results s) bs ap s -> call_view i call s.
Proof.
  intros Hc (H1 & H2 & _ & H4). assert (execs !! i = Some (execution_of i call)) as Hx by (apply executions_lookup; eauto).
  destruct (H2 i _ Hx) as (kn & Ht & (c & K1 & K2 & K3 & K4)). simpl in K1. exists kn.
  split_and!; [done|intros ?; exists c; auto|].
  intros c' o Hc' Ho. rewrite K1 in Hc'. injection Hc' as <-. rewrite Ho in K4.
  destruct K4 as [|(l & r & b & -> & Hl & Hr & Hf & Hb & [= ->])]; [done|]. simpl. split_and!; [|done|].
  - apply final_blocks_each in Hl. destruct (Forall2_lookup_r _ _ _ _ _ Hl Hb) as (r' & Hr' & Hp).
    rewrite Hr in Hr'. injection Hr' as <-. eapply final_answers; [|exact Hp].
    by destruct (Forall2_lookup_l _ _ _ _ _ H1 Hx) as (r' & Hr' & Hok); simplify_eq; apply Hok.
  - intros m Hm. destruct H4 as [[Hh _]|(l' & [= <-] & _ & _ & Hh)]; rewrite Hh in Hm.
    + apply (f_equal length) in Hm. rewrite length_app in Hm. simpl in Hm. lia.
    + apply app_inj_tail in Hm as [_ <-]. done.
Qed.

Lemma reachable_call s i call : fresh_calls recorded journal -> runs (batch_step env execs) start s ->
  rp_toolCalls recorded !! i = Some call -> call_view i call s.
Proof.
  intros Hf Hr Hc. pose proof (reachable_batch s Hf Hr) as Hi.
  assert (execs !! i = Some (execution_of i call)) as Hx by (apply executions_lookup; eauto).
  assert (execution_of i call ∈ execs) as Hin by (by eapply list_elem_of_lookup_2).
  unfold batch_inv in Hi. destruct (bt_stage s) as [p|calls|p|errors].
  - destruct Hi as (Ht & _ & sent & _ & Hk). apply view_announced; [done|]. by apply (Hk _ Hin).
  - destruct Hi as (_ & Hlen & Hi). destruct (lookup_lt_is_Some_2 calls i) as [p Hp].
    { rewrite Hlen. by eapply lookup_lt_Some. }
    destruct (Hi i _ p Hx Hp) as (kn & _ & (c & K1 & K2 & K3 & K4) & Ht). simpl in K1. exists kn. split_and!; [done| |].
    + intros Hs. exists c. split_and!; [done|by apply K3|]. intros Hd. by apply K4.
    + intros c' o Hc' Ho. congruence.
  - destruct Hi as (bs & ap & Hi & _). by eapply view_recorded.
  - destruct Hi as [(_ & Ht & _ & Hk)|(bs & ap & Hi & _)]; [|by eapply view_recorded].
    apply view_announced; [done|]. exact (Hk _ Hin).
Qed.

(** ** Properties *)

(** An action that reaches beyond the journal. *)
Definition invokes (a : Action) : Prop :=
  match a with APolicy _ _ _ _ _ | ACall _ _ => True | _ => False end.

(** What the repair makes of a call when the batch stops in state [s]. *)
Definition repaired_call (s : Batch) (call : Block) : recoverableToolCall :=
  declared_call (rp_messageID recorded) call
    (default zero_call (projectRecoverableToolCalls (bt_journal s) !! b_ToolUseID call)).

(** C12: a batch whose calls have identities of their own ([fresh_calls]) may stop
    at any step, and the repair tells the truth about each of its calls. A call that is reported as not started has asked no policy and
    called no tool; the tool was called with the input that is reported, or with a
    nil one; and a recorded outcome is the block that answers the call in the
    message, when the message was written. *)
Theorem interrupted_batch_is_told_truly encode_input s i call : fresh_calls recorded journal ->
  runs (batch_step env execs) start s -> rp_toolCalls recorded !! i = Some call ->
  let c := repaired_call s call in
  ((recoveredToolResult encode_input c).2 = codeNotStarted ->
     forall a, (i, a) ∈ bt_trace s -> ~ invokes a) /\
  (forall tool input, (i, ACall tool input) ∈ bt_trace s -> input = None \/ rc_Input c = input) /\
  ((recoveredToolResult encode_input c).2 = codeRecorded ->
     answers call (recoveredToolResult encode_input c).1 /\
     forall m, bt_history s = history ++ [m] -> blocks m !! i = Some (recoveredToolResult encode_input c).1).
Proof.
  intros Hf Hr Hc. destruct (reachable_call s i call Hf Hr Hc) as (kn & [Ht1 Ht2] & Hst & Hout).
  unfold repaired_call, recoveredToolResult. simpl. fold (known (bt_journal s) (b_ToolUseID call)).
  split_and!.
  - intros Hcode a Ha Hinv. assert (kn_started kn = true) as (c & Hk & Hs & _)%Hst.
    { destruct a; try done; [by eapply Ht1|]. by apply Ht2 in Ha as (_ & [? _] & _). }
    rewrite Hk in Hcode. simpl in Hcode. by destruct (rc_outcome c); [|rewrite Hs in Hcode].
  - intros tool input Ha. apply Ht2 in Ha as (_ & [Hs Hd] & [-> | ->]); [by left|].
    destruct (Hst Hs) as (c & Hk & _ & Hi). specialize (Hi Hd). rewrite Hk. simpl. rewrite <- Hi.
    destruct (rc_Input c); [by right|by left].
  - destruct (known (bt_journal s) (b_ToolUseID call)) as [c|] eqn:Ek; simpl.
    + destruct (rc_outcome c) as [o|] eqn:Eo; [|by destruct (rc_started c)]. intros _. simpl.
      destruct (Hout c o eq_refl Eo) as (Ha & _ & Hm).
      assert (as_result (ro_Block o) = ro_Block o) as ->; [|done]. destruct Ha as [Ht _]. unfold as_result.
      rewrite <- Ht. by destruct (ro_Block o).
    + done.
Qed.

(** The provider history ends with the response: its calls are the open ones. *)
Definition awaits : Prop :=
  repairable history /\
  forall id, id ∈ map b_ToolUseID (rp_toolCalls recorded) <-> open_calls id (flat history) = 1.

Lemma answers_ids calls l : Forall2 answers calls l ->
  map b_ToolUseID l = map b_ToolUseID calls /\ Forall (fun b => b_Type b = BlockToolResult) l.
Proof.
  induction 1 as [|call b calls l (H1 & H2 & _) _ [IH1 IH2]]; [done|]. simpl. rewrite H2, IH1. split; [done|]. by constructor.
Qed.

Lemma recorded_history bs ap s : fresh_calls recorded journal -> awaits ->
  recorded_ok env execs history (bt_results s) bs ap s ->
  (bt_history s = history /\ ap <> Some true \/
   (exists bs, bt_history s = history ++ [result_message env bs] /\ Forall2 answers (rp_toolCalls recorded) bs) /\
   ValidateToolTranscript (bt_history s) = None).
Proof.
  intros Hf [Hrep Hopen] (H1 & _ & _ & [H4|(l & _ & Hl & Hfat & Hh)]); [by left|right].
  pose proof (final_blocks_answer _ l H1 Hfat Hl) as Ha. destruct (answers_ids _ _ Ha) as [Hids Htypes].
  split; [by exists l|]. rewrite Hh. apply results_complete; unfold blocks; simpl; rewrite ?Hids; [done|done|apply Hf|done].
Qed.

Lemma ended_history s : fresh_calls recorded journal -> awaits ->
  runs (batch_step env execs) start s -> bt_stage s = Ended [] ->
  exists bs, bt_history s = history ++ [result_message env bs] /\ Forall2 answers (rp_toolCalls recorded) bs.
Proof.
  intros Hf Hw Hr Hst. pose proof (reachable_batch s Hf Hr) as Hi. unfold batch_inv in Hi. rewrite Hst in Hi.
  destruct Hi as [(He & _)|(bs & ap & Hi & Hfin)]; [done|].
  destruct (recorded_history _ _ _ Hf Hw Hi) as [[_ Hap]|[? _]]; [|done]. by destruct (Hap (Hfin eq_refl)).
Qed.

(** C13: the model gets one answer to every call, in the order of the calls, in
    one message, or none at all. At any step of a batch the provider history is
    that of its start, still to be repaired, or has the message of all results
    behind it, and then follows the tool protocol; a batch that returns no error
    has written the message. *)
Theorem batch_answers_every_call s : fresh_calls recorded journal -> awaits ->
  runs (batch_step env execs) start s ->
  (bt_history s = history \/
   (exists bs, bt_history s = history ++ [result_message env bs] /\ Forall2 answers (rp_toolCalls recorded) bs) /\
   ValidateToolTranscript (bt_history s) = None) /\
  (bt_stage s = Ended [] -> bt_history s <> history).
Proof.
  intros Hf Hw Hr. split.
  2: { intros Hst Hh. destruct (ended_history s Hf Hw Hr Hst) as (l & He & _). rewrite He in Hh.
       apply (f_equal length) in Hh. rewrite length_app in Hh. simpl in Hh. lia. }
  pose proof (reachable_batch s Hf Hr) as Hi. unfold batch_inv in Hi.
  destruct (bt_stage s) as [p|calls|p|errors]; [left; apply Hi|left; apply Hi| |].
  - destruct Hi as (bs & ap & Hi & _). destruct (recorded_history _ _ _ Hf Hw Hi) as [[? _]|?]; [by left|by right].
  - destruct Hi as [(He & _ & Hh & _)|(bs & ap & Hi & _)]; [by left|].
    destruct (recorded_history _ _ _ Hf Hw Hi) as [[? _]|?]; [by left|by right].
Qed.

(** ** Serial calls *)

(** Each serial call has acted after all serial calls in front of it. *)
Definition serial_inv (s : Batch) : Prop :=
  (forall i j a calls p, (i < j)%nat -> isSerializedToolCall env execs i = true -> isSerializedToolCall env execs j = true ->
     bt_stage s = Calling calls -> (j, a) ∈ bt_trace s -> calls !! i = Some p -> is_done p = true) /\
  (forall i j a t1 t2, (i < j)%nat -> isSerializedToolCall env execs i = true -> isSerializedToolCall env execs j = true ->
     bt_trace s = t1 ++ (j, a) :: t2 -> i ∉ map fst t2) /\
  (forall p, bt_stage s = Announcing p -> bt_trace s = []).

Lemma snoc_split {A} (l t1 t2 : list A) x y : l ++ [x] = t1 ++ y :: t2 ->
  t2 = [] /\ x = y /\ l = t1 \/ exists t2', t2 = t2' ++ [x] /\ l = t1 ++ y :: t2'.
Proof.
  destruct t2 as [|z t2' _] using rev_ind; intros H.
  - apply app_inj_tail in H as [-> ->]. by left.
  - right. exists t2'. rewrite app_comm_cons, app_assoc in H. by apply app_inj_tail in H as [-> ->].
Qed.

Lemma serial_call s calls i p c a p' s' : serial_inv s -> bt_stage s = Calling calls -> calls !! i = Some p ->
  may_move env execs calls i = true -> act p c s = Some (a, p', s') ->
  serial_inv (add_trace i a (set_stage (Calling (<[i := p']> calls)) s')).
Proof.
  intros (H1 & H2 & _) Hst Hp Hmay (k & y & j0 & h & -> & -> & _ & ->)%act_Some. unfold serial_inv. simpl.
  split_and!; [| |done].
  - intros i' j b calls' q Hlt Hi Hj [= <-] Hin Hq. apply elem_of_app in Hin as [Hin|[= -> ->]%list_elem_of_singleton].
    + destruct (decide (i' = i)) as [->|Hne].
      * by pose proof (H1 i j b calls _ Hlt Hi Hj Hst Hin Hp).
      * rewrite list_lookup_insert_ne in Hq by done. by eapply H1.
    + rewrite list_lookup_insert_ne in Hq by lia. unfold may_move in Hmay. rewrite Hj in Hmay. simpl in Hmay.
      rewrite forallb_forall in Hmay. specialize (Hmay i'). rewrite Hi, Hq in Hmay. simpl in Hmay. apply Hmay, in_seq. lia.
  - intros i' j b t1 t2 Hlt Hi Hj Ht. apply snoc_split in Ht as [(-> & _ & _)|(t2' & -> & Ht)].
    { apply not_elem_of_nil. }
    rewrite map_app. simpl. intros [Hin|<-%list_elem_of_singleton]%elem_of_app; [by eapply H2|].
    assert (is_done (Act a k) = true); [|done]. eapply (H1 i' j b calls); [done..| |done]. rewrite Ht. set_solver.
Qed.

Lemma serial_quiet s s' : serial_inv s -> bt_trace s' = bt_trace s ->
  (forall calls, bt_stage s' = Calling calls -> bt_stage s = Calling calls \/ bt_trace s = []) ->
  (forall p, bt_stage s' = Announcing p -> exists q, bt_stage s = Announcing q) -> serial_inv s'.
Proof.
  intros (H1 & H2 & H3) Ht Hc Ha. unfold serial_inv. rewrite Ht. split_and!.
  - intros i j a calls p Hlt Hi Hj Hst Hin. destruct (Hc _ Hst) as [Hst'|He]; [by eapply H1|].
    rewrite He in Hin. by apply not_elem_of_nil in Hin.
  - done.
  - intros p Hp. destruct (Ha p Hp) as [q Hq]. by eapply H3.
Qed.

Lemma serial_step s s' : serial_inv s -> batch_step env execs s s' -> serial_inv s'.
Proof.
  intros Hi [m Hs]. pose proof Hi as (_ & _ & H3). destruct m as [e|c|i c|]; simpl in Hs.
  - destruct (foreign e); [|done]. injection Hs as <-. apply (serial_quiet s); simpl; eauto.
  - destruct (bt_stage s) as [p|calls|p|errors] eqn:E; try done;
      destruct (act p c s) as [[[a p'] s0]|] eqn:Ea; try done; injection Hs as <-;
      apply act_Some in Ea as (k & y & j & h & -> & -> & _ & ->); by apply (serial_quiet s); simpl; eauto.
  - destruct (bt_stage s) as [p|calls|p|errors] eqn:E; try done. destruct (calls !! i) as [p|] eqn:Ep; [|done].
    destruct (may_move _ _ _ _) eqn:Em; [|done]. destruct (act p c s) as [[[a p'] s0]|] eqn:Ea; [|done]. injection Hs as <-.
    by eapply serial_call.
  - destruct (bt_stage s) as [[[e|]|]|calls|[errors|]|errors] eqn:E; try done.
    4: injection Hs as <-; by apply (serial_quiet s).
    3: destruct (mapM result_of calls) as [results|] eqn:Em; [|done].
    all: injection Hs as <-; apply (serial_quiet s); simpl; try done. intros ? _. right. by eapply H3.
Qed.

(** C36: serial tools never overlap. In every run, when a call of a serial tool has
    taken any action, no serial call in front of it takes an action again. *)
Theorem serial_calls_run_in_order s i j a before after : runs (batch_step env execs) start s ->
  (i < j)%nat -> isSerializedToolCall env execs i = true -> isSerializedToolCall env execs j = true ->
  bt_trace s = before ++ (j, a) :: after -> i ∉ map fst after.
Proof.
  intros Hr. assert (serial_inv s) as (_ & H & _); [|by apply H].
  eapply (runs_invariant (batch_step env execs)); [|exact Hr|]; [intros s1 s2 H1 H2; by eapply serial_step|].
  split_and!; [|intros i' j' a' [] t2 _ _ _ Ht; done|done]. intros i' j' a' calls p _ _ _ Hst. done.
Qed.
End Safety.
