(* ===== verification/ToolBatchPolicies.v ===== *)
(** * No policy is bypassed

    The paths of one tool call of [ToolBatch]: which policies it has asked, and
    what they answered, when it calls the tool or returns without it. *)

From S2P Require Import Prelude GoStd Utf8 Llm Events ContextText ToolPolicies ToolBatch ProtocolRepair ToolBatchProps.

Local Open Scope Z_scope.
Local Open Scope juex_scope.

(** ** Paths of a process *)

Abbreviation Path := (list (Action * Answer)) (only parsing).

(** The process after the actions of [path], answered as it says. *)
Fixpoint after {A} (p : Proc A) (path : Path) {struct path} : option (Proc A) :=
  match path with
  | [] => Some p
  | (_, y) :: path => match p with Act _ k => after (k y) path | Return _ => None end
  end.

(** The path names the actions the process takes. *)
Fixpoint follows {A} (p : Proc A) (path : Path) {struct path} : Prop :=
  match path with
  | [] => True
  | (a, y) :: path => match p with Act b k => a = b /\ follows (k y) path | Return _ => False end
  end.

(** [Q] holds at every action behind [path], [R] at every return. *)
Fixpoint on_paths {A} (path : Path) (p : Proc A) (Q : Path -> Action -> Prop) (R : Path -> A -> Prop) : Prop :=
  match p with
  | Return a => R path a
  | Act a k => Q path a /\ forall y, on_paths (path ++ [(a, y)]) (k y) Q R
  end.

Section Paths.
  Context (Q : Path -> Action -> Prop).

Lemma on_paths_bind {A B} (p : Proc A) (f : A -> Proc B) R : forall path,
  on_paths path p Q (fun path a => on_paths path (f a) Q R) -> on_paths path (pbind p f) Q R.
Proof. induction p as [a|a k IH]; intros path; simpl; [done|]. intros [H1 H2]. split; [done|]. intros y. by apply IH. Qed.

Lemma on_paths_mono {A} (p : Proc A) (R R' : Path -> A -> Prop) : (forall path a, R path a -> R' path a) ->
  forall path, on_paths path p Q R -> on_paths path p Q R'.
Proof. intros HR. induction p as [a|a k IH]; intros path; simpl; [apply HR|]. intros [H1 H2]. split; eauto. Qed.

Lemma on_paths_after {A} (p : Proc A) R path : forall pre p', on_paths pre p Q R -> follows p path -> after p path = Some p' ->
  on_paths (pre ++ path) p' Q R.
Proof.
  revert p. induction path as [|[a y] path IH]; intros p pre p' H Hf Ha; simpl in *.
  - injection Ha as <-. by rewrite app_nil_r.
  - destruct p as [|b k]; [done|]. destruct Hf as [-> Hf]. destruct H as [_ H].
    specialize (IH (k y) (pre ++ [(b, y)]) p' (H y) Hf Ha). by rewrite <- app_assoc in IH.
Qed.
End Paths.

(** ** What the policies were asked *)

(** One question before the call: the policy, the tool, its input and the result
    it was asked about, and the answer. *)
Definition Question : Type := string * string * ToolInput * ToolPolicyResult * Answer.

Definition asked (path : Path) : list Question :=
  omap (fun q => match q.1 with APolicy m ToolPolicyBeforeExecution t i r => Some (m, t, i, r, q.2) | _ => None end) path.

(** The policies [modules] were asked, in their order and no others, about
    [tool]: the first about [input], each later one about the input the policies
    in front of it left; every one let the call pass, and [final] is the input
    they left in the end. *)
Fixpoint consulted (tool : string) (input : ToolInput) (modules : list string) (log : list Question)
    (final : ToolInput) {struct modules} : Prop :=
  match modules, log with
  | [], [] => final = input
  | m :: modules, (m', t, i, r, PolicyAnswers d) :: log =>
    m' = m /\ t = tool /\ i = input /\ r = zero_result /\
    (td_Action d = ToolPolicyAllow /\ consulted tool input modules log final \/
     td_Action d = ToolPolicyTransform /\ consulted tool (td_Input d) modules log final)
  | _, _ => False
  end.

Definition is_call (a : Action) : bool := match a with ACall _ _ => true | _ => false end.

Definition made_call (path : Path) : bool := existsb (fun q => is_call q.1) path.

Lemma asked_snoc path a y : asked (path ++ [(a, y)]) =
  asked path ++ match a with APolicy m ToolPolicyBeforeExecution t i r => [(m, t, i, r, y)] | _ => [] end.
Proof. unfold asked. rewrite omap_app. cbn. by destruct a as [|? []| | |]. Qed.

Lemma made_call_snoc path a y : made_call (path ++ [(a, y)]) = made_call path || is_call a.
Proof. unfold made_call. rewrite existsb_app. simpl. by rewrite orb_false_r. Qed.

(** What a decision that lets the call pass leaves of the input. *)
Definition leaves (d : ToolPolicyDecision) (input left : ToolInput) : Prop :=
  td_Action d = ToolPolicyAllow /\ left = input \/ td_Action d = ToolPolicyTransform /\ left = td_Input d.

Lemma consulted_snoc tool modules m d left : forall input log i, consulted tool input modules log i -> leaves d i left ->
  consulted tool input (modules ++ [m]) (log ++ [(m, tool, i, zero_result, PolicyAnswers d)]) left.
Proof.
  induction modules as [|m0 modules IH]; intros input [|[[[[m' t] i'] r] y] log] i Hc Hl; simpl in *; try done.
  - subst i. destruct Hl as [[? ->]|[? ->]]; split_and!; tauto.
  - destruct y as [| |d'| | ]; try done. destruct Hc as (? & ? & ? & ? & Hc). split_and!; try done.
    destruct Hc as [[? Hc]|[? Hc]]; [left|right]; (split; [done|]; by eapply IH).
Qed.

Section Calls.
  Context (env : BatchEnv).

Local Abbreviation all_policies := (concat (map set_toolPolicies (be_sets env))).

(** The tool is called once, when every policy has passed. *)
Definition calls_after (x : toolExecutionCall) (path : Path) (a : Action) : Prop :=
  match a with
  | ACall tool input =>
    made_call path = false /\ tool = b_ToolName (ex_call x) /\
    consulted tool (b_Input (ex_call x)) all_policies (asked path) input
  | _ => True
  end.

Lemma emit_paths x path e (R : Path -> bool -> Prop) :
  (forall y b, R (path ++ [(AEmit e, y)]) b) -> on_paths path (emit_event e) (calls_after x) R.
Proof. intros H. simpl. by split. Qed.

(** Policies that let a call pass, one set or several: what they add to the
    questions [modules0] had answered, when they are reached with [ev0]. *)
Definition lets_pass (tool : string) (before : Path) (modules0 modules : list string) (ev0 : ToolPolicyEvaluation)
    (path : Path) (r : Evaluated) : Prop :=
  made_call path = false /\
  (forall input, te_Result ev0 = zero_result -> consulted tool input modules0 (asked before) (te_Input ev0) ->
     r.2 = None -> te_Denied r.1 = false ->
     te_Result r.1 = zero_result /\ consulted tool input (modules0 ++ modules) (asked path) (te_Input r.1)).

Lemma apply_policies_paths x modules : forall path modules0 ev, made_call path = false ->
  on_paths path (apply_policies ToolPolicyBeforeExecution (b_ToolName (ex_call x))
    (Some (fun input => emit_event (InputResolved (be_turn env) (ex_payload x) input))) modules ev) (calls_after x)
    (lets_pass (b_ToolName (ex_call x)) path modules0 modules ev).
Proof.
  set (tool := b_ToolName (ex_call x)).
  induction modules as [|m modules IH]; intros path modules0 ev Hn; simpl.
  { split; [done|]. rewrite app_nil_r. intros input Hr Hc _ _. by split. }
  split; [done|]. intros y. set (path' := path ++ [_]).
  assert (made_call path' = false) as Hn' by (unfold path'; by rewrite made_call_snoc, Hn).
  assert (forall r, (r.2 <> None \/ te_Denied r.1 = true) -> lets_pass tool path modules0 (m :: modules) ev path' r) as Hstop
    by (intros r Hr; split; [done|]; intros input _ _ H1 H2; destruct Hr; congruence).
  assert (forall d ev', y = PolicyAnswers d -> leaves d (te_Input ev) (te_Input ev') -> te_Result ev' = te_Result ev ->
    forall path2, asked path2 = asked path' -> made_call path2 = false ->
    on_paths path2 (apply_policies ToolPolicyBeforeExecution tool
      (Some (fun input => emit_event (InputResolved (be_turn env) (ex_payload x) input))) modules ev') (calls_after x)
      (lets_pass tool path modules0 (m :: modules) ev)) as Hgo.
  { intros d ev' -> Hl Hres path2 Ha Hn2. eapply on_paths_mono; [|by apply (IH path2 (modules0 ++ [m]))].
    intros path3 r [H1 H2]. split; [done|]. intros input Hr Hc. rewrite <- app_assoc in H2. apply H2; [congruence|].
    rewrite Ha. unfold path'. rewrite asked_snoc, Hr. by apply consulted_snoc. }
  assert (forall d err, (y = PolicyAnswers d \/ err <> None) ->
    on_paths path' (apply_decision ToolPolicyBeforeExecution
      (Some (fun input => emit_event (InputResolved (be_turn env) (ex_payload x) input))) m ev d err
      (apply_policies ToolPolicyBeforeExecution tool
         (Some (fun input => emit_event (InputResolved (be_turn env) (ex_payload x) input))) modules)) (calls_after x)
      (lets_pass tool path modules0 (m :: modules) ev)) as Hd.
  { intros d err Hy. unfold apply_decision. destruct (negb _); [apply Hstop; by left|].
    destruct err as [e|]; [apply Hstop; by left|]. destruct Hy as [Hy|]; [|done].
    destruct (td_Action d) eqn:Ed.
    - apply (Hgo d); [done|by left|done..].
    - apply Hstop. by right.
    - assert (leaves d (te_Input ev) (td_Input d)) as Hl by (by right).
      destruct (bool_decide _); [by apply (Hgo d)|].
      apply on_paths_bind, emit_paths. intros z ok. set (path2 := path' ++ [_]).
      assert (made_call path2 = false) as Hn2 by (unfold path2; by rewrite made_call_snoc, Hn').
      assert (asked path2 = asked path') as Ha by (unfold path2; by rewrite asked_snoc, app_nil_r).
      destruct ok; [by apply (Hgo d)|]. split; [done|]. by intros input _ _ ?.
    - apply Hstop. by left. }
  destruct y; try (apply Hstop; by left); apply Hd; [by left|by right].
Qed.

Lemma apply_sets_paths x sets : forall path modules0 ev, made_call path = false -> te_Denied ev = false ->
  on_paths path (apply_sets ToolPolicyBeforeExecution (b_ToolName (ex_call x))
    (Some (fun input => emit_event (InputResolved (be_turn env) (ex_payload x) input))) sets ev) (calls_after x)
    (lets_pass (b_ToolName (ex_call x)) path modules0 (concat (map set_toolPolicies sets)) ev).
Proof.
  set (tool := b_ToolName (ex_call x)).
  induction sets as [|s sets IH]; intros path modules0 ev Hn Hd; simpl.
  { split; [done|]. rewrite app_nil_r. intros input Hr Hc _ _. by split. }
  apply on_paths_bind. unfold set_applyToolPolicies. destruct (set_closed s).
  { simpl. destruct (negb _); (split; [done|]; by intros input _ _ ?). }
  eapply on_paths_mono; [|by apply (apply_policies_paths x (set_toolPolicies s) path modules0)].
  intros path' [cur err] [H1 H2]. destruct (negb _); [split; [done|]; by intros input _ _ ?|].
  destruct err as [e|]; [split; [done|]; by intros input _ _ ?|].
  destruct (te_Denied cur) eqn:Ed; [by split; [|intros input _ _ _ ?]|].
  eapply on_paths_mono; [|by apply (IH path' (modules0 ++ set_toolPolicies s))]. intros path3 r [H3 H4].
  split; [done|]. intros input Hr Hc. rewrite <- app_assoc in H4. simpl in H4.
  destruct (H2 input Hr Hc eq_refl Ed) as [E1 E2]. by apply H4.
Qed.

(** Behind the call there is no other. *)
Lemma guarded_no_call {A} x (p : Proc A) Q (R : Path -> A -> Prop) : (forall path a, made_call path = true -> R path a) ->
  forall kn path, kn_called kn = true -> guarded env x kn p Q -> made_call path = true -> on_paths path p (calls_after x) R.
Proof.
  intros HR. induction p as [a|a k IH]; intros kn path Hc Hg Hm; simpl in *; [by apply HR|].
  destruct a as [e|m st t i r|t i|index text|m]; try done.
  - destruct Hg as (_ & ? & _). congruence.
  - destruct Hg as (_ & _ & _ & Hk). split; [done|]. intros y. eapply IH; [done|apply Hk|]. by rewrite made_call_snoc, Hm.
  - destruct Hg as (_ & ? & _). congruence.
Qed.

(** A result that is an error, or ends the batch. *)
Definition refuses (r : toolCallResult) : Prop := tcr_Fatal r <> None \/ b_IsError (tcr_Block r) = true.

Lemma runToolCall_paths x : on_paths [] (runToolCall env x) (calls_after x)
  (fun path r => made_call path = false -> refuses r).
Proof.
  unfold runToolCall. apply on_paths_bind, emit_paths. intros y started. set (path := [] ++ [_]).
  assert (made_call path = false) as Hn by done. assert (asked path = []) as Hp by done. clearbody path.
  destruct started; simpl; [|by intros _; left]. apply on_paths_bind. unfold ApplyToolPoliciesWithInputCheckpoint.
  eapply on_paths_mono; [|by apply (apply_sets_paths x (be_sets env) path [])]. clear y. intros path' [pre err] [H1 H2].
  destruct err as [e|]; [destruct (IsPolicyCheckpointError e); intros _; [by left|by right]|].
  destruct (te_Denied pre) eqn:Ed; [by intros _; right|]. simpl. split.
  { split_and!; [done..|]. apply (H2 (b_Input (ex_call x))); [done| |done|done]. by rewrite Hp. }
  intros y. set (path2 := path' ++ [_]).
  assert (made_call path2 = true) as Hm by (unfold path2; by rewrite made_call_snoc, H1).
  destruct (match y with CallAnswers out e info => _ | _ => _ end) as [[out cerr] info].
  apply on_paths_bind. eapply (guarded_no_call x _ (fun _ _ => True)); [|by instantiate (1 := mkKnow true false true None)| |done].
  - intros path3 [post perr] Hm3. simpl. congruence.
  - eapply guarded_mono; [|by apply apply_sets_after]. done.
Qed.

(** C14: no policy is bypassed. On every path of a tool call, whatever is answered:
    a tool is called at most once; it is the tool of the call; every policy of
    every module set, in their order, has been asked about this tool, the first
    about the input of the call and each later one about the input that the ones
    before it left; each has allowed the call or rewritten its input; and the
    tool gets exactly the input they left. A call that returns without the tool
    is answered with an error, or ends the batch. *)
Theorem no_policy_is_bypassed x path p : follows (runToolCall env x) path ->
  after (runToolCall env x) path = Some p ->
  match p with
  | Act (ACall tool input) _ =>
    made_call path = false /\ tool = b_ToolName (ex_call x) /\
    consulted tool (b_Input (ex_call x)) (concat (map set_toolPolicies (be_sets env))) (asked path) input
  | Act _ _ => True
  | Return r => made_call path = false -> refuses r
  end.
Proof.
  intros Hf Ha. pose proof (on_paths_after _ _ _ path [] p (runToolCall_paths x) Hf Ha) as H.
  destruct p as [r|[| | | |] k]; simpl in H; try done. by destruct H as [H _].
Qed.
End Calls.
