(* ===== verification/ToolBatchExamples.v ===== *)
(** * The tool batch: runs

    Concrete batches, played move by move; they instantiate the properties. *)

From Stdlib Require Import Ascii String.
From S2P Require Import Prelude GoStd Utf8 Llm Events ThreadTypes ThreadFacts ContextText ToolPolicies ToolBatch ProtocolRepair ProtocolRepairProps ToolBatchProps ToolBatchInv ToolBatchSafety ToolBatchPolicies.

Local Open Scope Z_scope.
Local Open Scope juex_scope.

(** Two calls of a serial tool, behind one policy. *)
Definition ex_tool_env : BatchEnv :=
  mkBatchEnv "turn-1" {["shell" := mkTool true "" ""]} [mkPolicySet false ["guard"%string]]
    [("shell", "terminal")%string] 1000 100000 (fun _ => "failed"%string) (fun s => s) "2".

Definition ex_input (text : string) : ToolInput := Some [("command"%string, JStr text)].

Definition ex_tool_use (id : string) : Block :=
  mkBlock BlockToolUse "" None id "shell" (ex_input id) 0 "" false "" false None None.

Definition ex_response : recordedProviderResponse := mkRecorded [ex_tool_use "a"; ex_tool_use "b"] 0 "msg-1".

Definition ex_asked : list Message :=
  [TextMessage RoleUser "go";
   mkMessage "msg-1" RoleAssistant (Some (rp_toolCalls ex_response)) "" false "" None].

#[local] Abbreviation ex_start_batch := (recordToolBatchLocked ex_tool_env ex_response [] ex_asked).
#[local] Abbreviation ex_runs s := (runs (batch_step ex_tool_env (executions ex_response)) ex_start_batch s).

(** ** Playing moves *)

Fixpoint play (moves : list Move) (s : Batch) : option Batch :=
  match moves with
  | [] => Some s
  | m :: moves => match step_fn ex_tool_env (executions ex_response) m s with Some s' => play moves s' | None => None end
  end.

Lemma play_runs moves : forall s s', play moves s = Some s' -> runs (batch_step ex_tool_env (executions ex_response)) s s'.
Proof.
  induction moves as [|m moves IH]; intros s s'; simpl; [intros [= <-]; apply runs_refl|].
  destruct (step_fn _ _ m s) as [s1|] eqn:E; [|done]. intros H. eapply runs_step; [by exists m|by apply IH].
Qed.

Definition ex_answered (moves : list Move) : Batch := default ex_start_batch (play moves ex_start_batch).

Lemma answered_runs moves : ex_runs (ex_answered moves).
Proof.
  unfold ex_answered. destruct (play moves ex_start_batch) as [s|] eqn:E; simpl; [by eapply play_runs|apply runs_refl].
Qed.

Definition ex_announced : list Move := [MoveAct (Writes IoOk); MoveAct (Writes IoOk); MoveAct (Writes IoOk); MoveNext].

Definition ex_decide (a : ToolPolicyAction) (input : ToolInput) : Choice :=
  Answers (PolicyAnswers (mkDecision a "" input zero_result [])).

(** A call whose policy rewrites the input; its last two actions are the call
    itself and the policy behind it. *)
Definition ex_rewritten (i : nat) (input : ToolInput) : list Move :=
  [MoveCall i (Writes IoOk); MoveCall i (ex_decide ToolPolicyTransform input); MoveCall i (Writes IoOk);
   MoveCall i (Answers (CallAnswers "done" None no_info)); MoveCall i (ex_decide ToolPolicyAllow None)].

Definition ex_denied (i : nat) : list Move :=
  [MoveCall i (Writes IoOk); MoveCall i (ex_decide ToolPolicyDeny None)].

Definition ex_recorded : list Move :=
  [MoveNext; MoveAct (Writes IoOk); MoveAct (Writes IoOk); MoveAct (Writes IoOk); MoveNext].

(** The batch is interrupted when the first call has run; its input was rewritten. *)
Definition ex_stopped : Batch := ex_answered (ex_announced ++ ex_rewritten 0 (ex_input "safe")).

(** The second call is denied, and the batch comes to its end. *)
Definition ex_complete : Batch :=
  ex_answered (ex_announced ++ ex_rewritten 0 (ex_input "safe") ++ ex_denied 1 ++ ex_recorded).

Lemma ex_fresh : fresh_calls ex_response [].
Proof.
  split; [refine (bool_decide_eq_true_1 _ _); vm_compute; reflexivity|].
  repeat first [constructor; [by split|]|by constructor].
Qed.

Example complete_batch_ends : bt_stage ex_complete = Ended [].
Proof. vm_compute. reflexivity. Qed.

Lemma interrupted_batch_is_told_truly_witness :
  rc_Input (repaired_call ex_response ex_stopped (ex_tool_use "a")) = ex_input "safe" /\
  ~ exists a, (1%nat, a) ∈ bt_trace ex_stopped /\ invokes a.
Proof.
  split.
  - destruct (interrupted_batch_is_told_truly ex_tool_env ex_response [] ex_asked (fun _ => None) ex_stopped 0
      (ex_tool_use "a") ex_fresh (answered_runs _) eq_refl) as (_ & H & _).
    destruct (H "shell"%string (ex_input "safe")) as [Hn|Hi]; [|discriminate Hn|exact Hi].
    refine (list_elem_of_lookup_2 _ 3 _ _). vm_compute. reflexivity.
  - intros (a & Ha & Hi).
    destruct (interrupted_batch_is_told_truly ex_tool_env ex_response [] ex_asked (fun _ => None) ex_stopped 1
      (ex_tool_use "b") ex_fresh (answered_runs _) eq_refl) as (H & _ & _).
    refine (H _ a Ha Hi). vm_compute. reflexivity.
Defined.

Lemma ex_awaits : awaits ex_response ex_asked.
Proof.
  split; [split|].
  - apply checked_good. by vm_compute.
  - refine (bool_decide_eq_true_1 _ _). vm_compute. reflexivity.
  - intros id. assert (open_calls id (flat ex_asked) = (if decide (id = "a"%string) then 1 else 0) + (if decide (id = "b"%string) then 1 else 0)) as ->.
    { unfold flat. cbn. rewrite !delta_cases. cbn. repeat case_bool_decide; repeat case_decide; try congruence; done. }
    simpl. split.
    + intros [->|[->|[]%not_elem_of_nil]%elem_of_cons]%elem_of_cons; by repeat case_decide.
    + intros H. repeat case_decide; try lia; subst; set_solver.
Qed.

Lemma batch_answers_every_call_witness :
  exists bs, bt_history ex_complete = ex_asked ++ [result_message ex_tool_env bs] /\
    Forall2 answers (rp_toolCalls ex_response) bs /\ ValidateToolTranscript (bt_history ex_complete) = None.
Proof.
  destruct (batch_answers_every_call ex_tool_env ex_response [] ex_asked ex_complete ex_fresh ex_awaits
    (answered_runs _)) as [[H|[(bs & H1 & H2) H3]] Hend].
  - destruct (Hend complete_batch_ends H).
  - exists bs. exact (conj H1 (conj H2 H3)).
Defined.

Lemma serial_calls_run_in_order_witness : 0%nat ∉ map fst (drop 6 (bt_trace ex_complete)).
Proof.
  eapply (serial_calls_run_in_order ex_tool_env ex_response [] ex_asked ex_complete 0 1
    (AEmit (Running_ "turn-1" (toolCallPayload (ex_tool_use "b") 0 1 "msg-1"))) (take 5 (bt_trace ex_complete)) _
    (answered_runs _)); [lia|reflexivity|reflexivity|]. vm_compute. reflexivity.
Defined.

(** A path of the first call to its tool. *)
Definition ex_execution : toolExecutionCall :=
  mkExecution (ex_tool_use "a") (toolCallPayload (ex_tool_use "a") 0 0 "msg-1").
Definition ex_path : Path :=
  [(AEmit (Running_ "turn-1" (ex_payload ex_execution)), Committed true);
   (APolicy "guard" ToolPolicyBeforeExecution "shell" (ex_input "a") zero_result,
    PolicyAnswers (mkDecision ToolPolicyAllow "" None zero_result []))].

Lemma no_policy_is_bypassed_witness : exists k,
  after (runToolCall ex_tool_env ex_execution) ex_path = Some (Act (ACall "shell" (ex_input "a")) k) /\
  consulted "shell" (ex_input "a") ["guard"%string] (asked ex_path) (ex_input "a").
Proof.
  eexists. split; [reflexivity|].
  exact (proj2 (proj2 (no_policy_is_bypassed ex_tool_env ex_execution ex_path _ ltac:(repeat split) eq_refl))).
Defined.

(** ** An input the journal forgets *)

(** A policy that takes the input away: the tool is called with a nil map, and the
    repair of the interrupted batch reports the input the model declared. *)
Definition ex_emptied : Batch := ex_answered (ex_announced ++ ex_rewritten 0 None).

Theorem nil_input_is_not_reported :
  (0%nat, ACall "shell" None) ∈ bt_trace ex_emptied /\
  (recoveredToolResult (fun _ => None) (repaired_call ex_response ex_emptied (ex_tool_use "a"))).2 = codeUnknown /\
  rc_Input (repaired_call ex_response ex_emptied (ex_tool_use "a")) = ex_input "a".
Proof.
  split; [|by vm_compute]. apply list_elem_of_lookup_2 with 3%nat. vm_compute. reflexivity.
Qed.
