(* ===== verification/LlmText.v ===== *)
(** * The plain text of blocks

    [BlocksPlainText] and [ImagePlainText] ([foundation/llm/text.go]): the text
    that a turn returns to its caller. The size of an image is printed with one
    decimal of a [float64]; both roundings are written out. *)

From Stdlib Require Import Ascii String.
From S2P Require Import Prelude GoStd GoText Llm.

Local Open Scope Z_scope.
Local Open Scope juex_scope.

(** ** Numbers *)

(** The nearest multiple of [d] to [n], in units of [d]; a half goes to the even one. *)
Definition round_even (n d : Z) : Z :=
  let q := n / d in
  if n mod d * 2 <? d then q
  else if d <? n mod d * 2 then q + 1
  else q + q mod 2.

(** [float64(n)], which keeps 53 bits; its value is an integer. *)
Definition float64_of (n : Z) : Z :=
  if n <? 2 ^ 53 then n
  else
    let unit := 2 ^ (Z.log2 n - 52) in
    round_even n unit * unit.

(** [%.1f] of [n / 1024], of which the quotient is exact. *)
Definition Sprintf1f_kb (n : Z) : string :=
  let tenths := round_even (float64_of n * 10) 1024 in
  (Itoa (tenths / 10) ++ "." ++ Itoa (tenths mod 10))%string.

Definition formatMediaBytes (bytes : Z) : string :=
  if bytes <=? 0 then ""
  else if bytes <? 1024 then (Itoa bytes ++ " B")%string
  else (Sprintf1f_kb bytes ++ " KB")%string.

(** ** Images *)

(** [path.Base]: the last element that is not empty. *)
Definition Base (p : string) : string :=
  if p =?s "" then "."
  else
    match last (filter (fun c => c <> []) (SplitOn "/"%char (T p))) with
    | Some c => string_of c
    | None => "/"
    end.

Definition forward_slash (c : ascii) : ascii := if bool_decide (c = "\"%char) then "/"%char else c.

Definition ImagePlainText (media : option MediaRef) : string :=
  match media with
  | None => "[图片: unavailable]"
  | Some m =>
    let base := Base (string_of (map forward_slash (T (md_ArtifactPath m)))) in
    let name := if (base =?s ".") || (base =?s "/") || (TrimSpace base =?s "") then "image"%string else base in
    let size := formatMediaBytes (md_OriginalBytes m) in
    let meta :=
      (if (0 <? md_Width m) && (0 <? md_Height m)
       then [(Itoa (md_Width m) ++ "x" ++ Itoa (md_Height m))%string] else []) ++
      (if size =?s "" then [] else [size]) in
    match meta with
    | [] => ("[图片: " ++ name ++ "]")%string
    | _ => ("[图片: " ++ name ++ " (" ++ String.concat ", " meta ++ ")]")%string
    end
  end.

(** ** Blocks *)

Definition block_text (b : Block) : list string :=
  match b_Type b with
  | BlockText => if b_Text b =?s "" then [] else [b_Text b]
  | BlockImage => [ImagePlainText (b_Media b)]
  | BlockToolResult =>
    (if b_Content b =?s "" then [] else [b_Content b]) ++
    match b_Media b with Some m => [ImagePlainText (Some m)] | None => [] end
  | _ => []
  end.

Definition BlocksPlainText (bs : list Block) : string :=
  String.concat (String newline "") (concat (map block_text bs)).

(** ** Lemmas *)

Lemma round_even_near n d : 0 < d -> 2 * Z.abs (round_even n d * d - n) <= d.
Proof.
  intros Hd. unfold round_even. pose proof (Z.div_mod n d ltac:(lia)). pose proof (Z.mod_pos_bound n d Hd).
  pose proof (Z.mod_pos_bound (n / d) 2 ltac:(lia)).
  repeat case_match; nia.
Qed.

Lemma float64_of_exact n : n < 2 ^ 53 -> float64_of n = n.
Proof. intros Hn. unfold float64_of. by apply Z.ltb_lt in Hn as ->. Qed.

Example image_sizes :
  map formatMediaBytes [0; 1; 1023; 1024; 1075; 1076; 1126; 1536; 1048576; 2 ^ 53 + 1024]
  = [""; "1 B"; "1023 B"; "1.0 KB"; "1.0 KB"; "1.1 KB"; "1.1 KB"; "1.5 KB"; "1024.0 KB"; "8796093022209.0 KB"]%string.
Proof. vm_compute. reflexivity. Qed.

(** 1.25 and 1.75 are halves: both go to the even tenth. *)
Example image_sizes_half : map formatMediaBytes [1280; 1792] = ["1.2 KB"; "1.8 KB"]%string.
Proof. vm_compute. reflexivity. Qed.

Example image_text :
  ImagePlainText (Some (mkMediaRef "media\2026/a.png" "image/png" "" 2048 640 480))
  = "[图片: a.png (640x480, 2.0 KB)]"%string.
Proof. vm_compute. reflexivity. Qed.

Example image_text_nameless :
  ImagePlainText (Some (mkMediaRef "//" "" "" 0 0 0)) = "[图片: image]"%string.
Proof. vm_compute. reflexivity. Qed.
