(* ===== verification/TurnLoop.v ===== *)
(** * The turn loop

    [TurnMessageWithID] and [runLocked] ([framework/runtime/loop.go],
    [turn_lifecycle.go]): a turn restores its inputs, records its start, and then
    asks the model, records the answer and runs its tools, over and over, until an
    answer ends it. It drains its inputs and closes through [EngineInput], and its
    tool calls are a batch of [ToolBatch] on the journal and the history of the
    thread.

    Between two of its parts, while it is active, other callers run: they receive
    inputs. What a turn takes from its surroundings is an outcome: a compaction or
    a new context replaces the history; a request for an answer may compact first.
    The transcript of a request is the history of the thread it is built from:
    the active context ([assembleActiveContext], see [ContextBudget]), the messages
    that modules add and the projection for a provider are not repeated here, and
    of the attempts of a request the last one is noted. The payloads of events,
    token estimates, provenance and the ledger of tool failures are left out; an
    event of the loop is drawn as an outcome and not logged. *)

From S2P Require Import Prelude GoStd Llm LlmText Events PendingInputs PendingQueue EngineInput ContextText ToolPolicies ToolBatch.

Local Open Scope Z_scope.
Local Open Scope juex_scope.

(** ** Data *)

(** What a compaction does to the history, and whether it fails. *)
Record Compaction := mkCompaction {
  cp_history : option (list Message);
  cp_failed : bool;
}.

(** How [requestProviderTurnLocked] ends. Of its error: whether it is a
    cancellation or an overflow of the context ([errorclass.Classify]), and whether
    a waiting input outweighs it ([IsRetryableProviderError]). *)
Inductive RequestOutcome :=
| RequestAnswered (notice : option Message) (m : Message)
| RequestFailed (cancelled overflow retryable : bool).

Inductive Transition :=
| NoTransition
| TransitionCompact (c : Compaction)
| TransitionNew (renewed failed : bool).

(** [fc_applied]: the outcome of [CommitFinishCandidate]. *)
Record FinishCandidate := mkCandidate {
  fc_applied : option bool;
  fc_Continuation : string;
}.

Record TurnEnv := mkTurnEnv {
  te_engine : EngineEnv;
  te_others : nat -> list PendingInputRequest;
  te_prompt : nat -> bool;
  te_compact : nat -> Compaction;
  te_context : nat -> bool;
  te_request : nat -> option (list Message) * RequestOutcome;
  te_tools : BatchEnv;
  te_moves : nat -> list Move;
  te_transition : nat -> Transition;
  te_finish : nat -> option (list FinishCandidate);
  te_policyContext : nat -> bool;
}.

(** The fields of [turnLifecycle] that change. The others are history variables:
    the transcripts of the requests when they were prepared and when they were
    made, that of the last one that was answered, the messages that came from
    inputs, the responses with the journal and the history they met, and whether
    the history was ever replaced. *)
Record turnLifecycle := mkTurn {
  tl_lastText : string;
  tl_retriedOverflow : bool;
  tl_activeClosed : bool;
  tl_pendingLifecycleHeld : bool;
  tl_prepared : list (list Message);
  tl_requested : list (list Message);
  tl_answered : option (list Message);
  tl_inputs : list Message;
  tl_responses : list (list Event * list Message * Message);
  tl_replaced : bool;
}.

Definition new_turn : turnLifecycle := mkTurn "" false false false [] [] None [] [] false.

Record TWorld := mkTWorld {
  tw_engine : EWorld;
  tw_turn : turnLifecycle;
}.

Definition TM (A : Type) : Type := SM TWorld EngineError A.

Definition set_tw_engine (w : EWorld) (t : TWorld) : TWorld := mkTWorld w (tw_turn t).
Definition set_tw_turn (l : turnLifecycle) (t : TWorld) : TWorld := mkTWorld (tw_engine t) l.

Definition with_lastText (s : string) (l : turnLifecycle) : turnLifecycle :=
  mkTurn s (tl_retriedOverflow l) (tl_activeClosed l) (tl_pendingLifecycleHeld l) (tl_prepared l) (tl_requested l) (tl_answered l)
    (tl_inputs l) (tl_responses l) (tl_replaced l).
Definition with_retried (l : turnLifecycle) : turnLifecycle :=
  mkTurn (tl_lastText l) true (tl_activeClosed l) (tl_pendingLifecycleHeld l) (tl_prepared l) (tl_requested l) (tl_answered l)
    (tl_inputs l) (tl_responses l) (tl_replaced l).
Definition with_closed (b : bool) (l : turnLifecycle) : turnLifecycle :=
  mkTurn (tl_lastText l) (tl_retriedOverflow l) b (tl_pendingLifecycleHeld l) (tl_prepared l) (tl_requested l) (tl_answered l)
    (tl_inputs l) (tl_responses l) (tl_replaced l).
Definition with_held (l : turnLifecycle) : turnLifecycle :=
  mkTurn (tl_lastText l) (tl_retriedOverflow l) (tl_activeClosed l) true (tl_prepared l) (tl_requested l)
    (tl_answered l) (tl_inputs l) (tl_responses l) (tl_replaced l).
Definition with_prepared (h : list Message) (l : turnLifecycle) : turnLifecycle :=
  mkTurn (tl_lastText l) (tl_retriedOverflow l) (tl_activeClosed l) (tl_pendingLifecycleHeld l) (tl_prepared l ++ [h]) (tl_requested l)
    (tl_answered l) (tl_inputs l) (tl_responses l) (tl_replaced l).
Definition with_requested (h : list Message) (l : turnLifecycle) : turnLifecycle :=
  mkTurn (tl_lastText l) (tl_retriedOverflow l) (tl_activeClosed l) (tl_pendingLifecycleHeld l) (tl_prepared l) (tl_requested l ++ [h])
    (tl_answered l) (tl_inputs l) (tl_responses l) (tl_replaced l).
Definition with_answered (h : list Message) (l : turnLifecycle) : turnLifecycle :=
  mkTurn (tl_lastText l) (tl_retriedOverflow l) (tl_activeClosed l) (tl_pendingLifecycleHeld l) (tl_prepared l) (tl_requested l)
    (Some h) (tl_inputs l) (tl_responses l) (tl_replaced l).
Definition with_inputs (ms : list Message) (l : turnLifecycle) : turnLifecycle :=
  mkTurn (tl_lastText l) (tl_retriedOverflow l) (tl_activeClosed l) (tl_pendingLifecycleHeld l) (tl_prepared l) (tl_requested l)
    (tl_answered l) (tl_inputs l ++ ms) (tl_responses l) (tl_replaced l).
Definition with_response (j : list Event) (h : list Message) (m : Message) (l : turnLifecycle) : turnLifecycle :=
  mkTurn (tl_lastText l) (tl_retriedOverflow l) (tl_activeClosed l) (tl_pendingLifecycleHeld l) (tl_prepared l) (tl_requested l)
    (tl_answered l) (tl_inputs l) (tl_responses l ++ [(j, h, m)]) (tl_replaced l).
Definition with_replaced (l : turnLifecycle) : turnLifecycle :=
  mkTurn (tl_lastText l) (tl_retriedOverflow l) (tl_activeClosed l) (tl_pendingLifecycleHeld l) (tl_prepared l) (tl_requested l)
    (tl_answered l) (tl_inputs l) (tl_responses l) true.

(** ** World *)

(** The events and the messages of the thread. *)
Definition tw_history (t : TWorld) : list Message :=
  default [] (history_of (w_thread (ew_queue (tw_engine t)))).
Definition tw_journal (t : TWorld) : list Event :=
  match w_thread (ew_queue (tw_engine t)) with Some th => th_events th | None => [] end.

Definition set_records (events : list Event) (h : list Message) (w : EWorld) : EWorld :=
  match w_thread (ew_queue w) with
  | Some th =>
    set_ew_queue (set_thread (Some (mkThread events (th_scope th) h (th_pendingInputs th))) (ew_queue w)) w
  | None => w
  end.

Definition tget : TM turnLifecycle := fun t => (Ok (tw_turn t), t).
Definition tmodify (f : turnLifecycle -> turnLifecycle) : TM unit :=
  fun t => (Ok tt, set_tw_turn (f (tw_turn t)) t).

(** A method of the engine. *)
Definition on_engine {A} (m : EM A) : TM A := fun t =>
  let '(r, w) := m (tw_engine t) in (r, set_tw_engine w t).

(** A method of the engine that may commit inputs. *)
Definition on_inputs {A} (m : EM A) : TM A := fun t =>
  let '(r, w) := m (tw_engine t) in
  let t' := set_tw_engine w t in
  (r, set_tw_turn (with_inputs (drop (length (tw_history t)) (tw_history t')) (tw_turn t)) t').

Definition tattempt {A} (m : TM A) : TM (result EngineError A) := fun t =>
  let '(r, t') := m t in (Ok r, t').

(** A history variable that takes the history as it is. *)
Definition note (f : list Message -> turnLifecycle -> turnLifecycle) : TM unit :=
  fun t => (Ok tt, set_tw_turn (f (tw_history t) (tw_turn t)) t).

Definition replace_history (h : list Message) : TM unit := fun t =>
  (Ok tt, mkTWorld (set_records (tw_journal t) h (tw_engine t)) (with_replaced (tw_turn t))).

Section Turn.
  Context (env : TurnEnv).

Local Abbreviation eenv := (te_engine env).

Definition tdraw {A} (f : nat -> A) : TM A := on_engine (draw_outcome f).

(** [cancellation.ContextError]. *)
Definition check_cancelled : TM unit :=
  do cancelled <- tdraw (ee_cancelled eenv);;
  if cancelled : bool then fail ErrCancelled else ret tt.

(** An event of the loop. *)
Definition emit_unlogged : TM unit :=
  do r <- tdraw (ee_emit eenv);;
  match r with IoOk => ret tt | _ => fail ErrEmit end.

(** Other callers receive inputs. *)
Fixpoint receive_all (requests : list PendingInputRequest) : EM unit :=
  match requests with
  | [] => ret tt
  | r :: l => do_ attempt (ReceivePendingInput eenv r);; receive_all l
  end.

Definition interlude : TM unit :=
  do requests <- tdraw (te_others env);;
  on_engine (receive_all requests).

(** ** Compaction *)

(** [compactLocked], [compactLockedForContextWindow]. *)
Definition compact : TM unit :=
  do c <- tdraw (te_compact env);;
  do_ (match cp_history c with Some h => replace_history h | None => ret tt end);;
  if cp_failed c then fail (ErrTurn TurnCompaction) else ret tt.

Definition canContinueAfterAutoCompactError (m : Message) : TM bool :=
  do cancelled <- tdraw (ee_cancelled eenv);;
  ret (negb cancelled && ((m_Kind m =?s MessageKindMCPEvent) || (m_Kind m =?s MessageKindWorkerThread))).

(** ** The start of a turn *)

(** Runs [m]; after an error records the start of the turn with [message]. *)
Definition persist_start {A} (turn : string) (message : Message) (m : TM A) : TM A :=
  do r <- tattempt m;;
  match r with
  | Ok a => ret a
  | Err e =>
    do p <- tattempt (on_inputs (recordTurnStartLocked eenv turn message));;
    fail (join_error e (error_of p))
  end.

Definition prepareTurnContextLocked (turn : string) (original : Message) : TM Message :=
  do message <- persist_start turn (with_PolicyBlocked original)
                  (on_engine (applyTurnInputPolicies eenv original));;
  do_ persist_start turn message (on_engine (prepareAdmittedInput eenv ""));;
  do p <- persist_start turn message (on_engine (projectMessageLocked eenv message));;
  do_ persist_start turn message (on_engine (emitProjectionApplied eenv turn p.2));;
  do ok <- tdraw (te_prompt env);;
  do_ persist_start turn p.1 (if ok : bool then ret tt else fail (ErrTurn TurnPrompt));;
  do c <- tattempt compact;;
  match c with
  | Ok _ => ret p.1
  | Err e =>
    do go <- canContinueAfterAutoCompactError p.1;;
    if go : bool then ret p.1 else persist_start turn p.1 (fail e)
  end.

(** ** One answer *)

Definition set_batch (turn fresh : string) (b : BatchEnv) : BatchEnv :=
  mkBatchEnv turn (be_tools b) (be_sets b) (be_catalog b) (be_ContentMaxTokens b) (be_InlineMaxBytes b)
    (be_public b) (be_bound b) fresh.

(** A batch under the moves of its environment; one that cannot be made is
    skipped. *)
Definition play_moves (benv : BatchEnv) (execs : list toolExecutionCall) (moves : list Move) (s : Batch) : Batch :=
  foldl (fun s m => default s (step_fn benv execs m s)) s moves.

(** [recordToolBatchLocked]. [TurnSchedule]: the moves did not end it,
    and the code has no such run. *)
Definition run_batch (turn : string) (recorded : recordedProviderResponse) : TM unit :=
  do fresh <- on_engine (lift (newID (ee_queue eenv)));;
  do moves <- tdraw (te_moves env);;
  fun t =>
    match w_thread (ew_queue (tw_engine t)) with
    | None => (Err (ErrTurn TurnNoThread), t)
    | Some _ =>
      let benv := set_batch turn fresh (te_tools env) in
      let s := play_moves benv (executions recorded) moves
                 (recordToolBatchLocked benv recorded (tw_journal t) (tw_history t)) in
      (match bt_stage s with
       | Ended [] => Ok tt
       | Ended _ => Err (ErrTurn TurnToolBatch)
       | _ => Err (ErrTurn TurnSchedule)
       end, set_tw_engine (set_records (bt_journal s) (bt_history s) (tw_engine t)) t)
    end.

(** The messages of a response, appended in one commit. *)
Definition append_messages (ms : list Message) (w : EWorld) : EWorld :=
  match w_thread (ew_queue w) with
  | Some th => set_records (th_events th) (th_history th ++ ms) w
  | None => w
  end.

(** [recordProviderResponseLocked]; the blocks are those that
    [prepareToolInputs] has prepared. *)
Definition recordProviderResponseLocked (iter : Z) (notice : option Message) (m : Message) :
    TM (recordedProviderResponse * string) :=
  do id <- (if m_ID m =?s "" then on_engine (lift (newID (ee_queue eenv))) else ret "");;
  let m := if m_ID m =?s "" then with_ID ("msg-" ++ id)%string m else m in
  do_ (fun t => (Ok tt, set_tw_turn (with_response (tw_journal t) (tw_history t) m (with_inputs (option_list notice) (tw_turn t))) t));;
  do r <- tdraw (ee_append eenv);;
  do_ (match r with
       | IoFail => ret tt
       | _ => on_engine (fun w => (Ok tt, append_messages (option_list notice ++ [m]) w))
       end);;
  if bool_decide (r = IoOk) then
    do_ emit_unlogged;;
    ret (mkRecorded (ToolCalls m) iter (m_ID m), BlocksPlainText (blocks m))
  else fail ErrAppend.

(** ** The end of a turn *)

(** [finishOrContinueLocked], with what it leaves in the lifecycle. *)
Definition finish_turn (turn output : string) : TM unit :=
  do_ interlude;;
  do r <- tattempt (on_engine (finishOrContinueLocked eenv turn));;
  match r with
  | Ok closed => tmodify (fun l => with_closed closed (with_lastText output l))
  | Err e => do_ tmodify (with_closed true);; fail e
  end.

Fixpoint finish_candidates (turn output : string) (l : list FinishCandidate) : TM unit :=
  match l with
  | [] => finish_turn turn output
  | c :: l =>
    match fc_applied c with
    | None => fail (ErrTurn TurnFinishPolicy)
    | Some false => finish_candidates turn output l
    | Some true =>
      if fc_Continuation c =?s "" then tmodify (fun l => with_closed false (with_lastText output l))
      else
        do_ interlude;;
        do_ on_engine (enqueueContinuation eenv (fc_Continuation c));;
        finish_turn turn output
    end
  end.

Definition applyFinishPolicyLocked (turn output : string) : TM unit :=
  do_ tattempt emit_unlogged;;
  do evaluation <- tdraw (te_finish env);;
  match evaluation with
  | None => fail (ErrTurn TurnFinishPolicy)
  | Some candidates =>
    do ok <- tdraw (te_policyContext env);;
    if ok : bool then finish_candidates turn output candidates else fail (ErrTurn TurnPolicyContext)
  end.

(** ** One iteration *)

(** [applyRequestedContextTransitionLocked] and what follows it. *)
Definition apply_transition (turn : string) : TM unit :=
  do tr <- tdraw (te_transition env);;
  match tr with
  | NoTransition => ret tt
  | TransitionCompact c =>
    do_ (match cp_history c with Some h => replace_history h | None => ret tt end);;
    if cp_failed c then fail (ErrTurn TurnTransition) else ret tt
  | TransitionNew renewed failed =>
    do_ (if renewed : bool then replace_history [] else ret tt);;
    if failed : bool then fail (ErrTurn TurnTransition) else finish_turn turn "Context renewed."
  end.

(** [continueAfterProviderFailure]; its event may fail. *)
Definition continueAfterProviderFailure (turn : string) (retryable : bool) : TM bool :=
  do cancelled <- tdraw (ee_cancelled eenv);;
  if cancelled || negb retryable then ret false
  else
    do en <- on_engine get_engine;;
    if (en_activeTurnID en =?s turn) && negb (bool_decide (en_pendingInput en = [])) then
      do_ tattempt emit_unlogged;;
      ret true
    else ret false.

Definition request_failed (turn : string) (cancelled overflow retryable : bool) : TM unit :=
  do now <- tdraw (ee_cancelled eenv);;
  if now && cancelled then fail ErrCancelled
  else
    do l <- tget;;
    if overflow && negb (tl_retriedOverflow l) then
      do_ compact;;
      tmodify with_retried
    else
      do_ interlude;;
      do go <- continueAfterProviderFailure turn retryable;;
      if go : bool then ret tt else fail (ErrTurn TurnProvider).

Definition runProviderIterationLocked (turn : string) (iter : Z) : TM unit :=
  do_ check_cancelled;;
  do_ interlude;;
  do_ on_inputs (drainPendingInputLocked eenv turn);;
  do_ emit_unlogged;;
  do ok <- tdraw (te_context env);;
  do_ (if ok : bool then ret tt else fail (ErrTurn TurnContext));;
  do_ note with_prepared;;
  do_ interlude;;
  do request <- tdraw (te_request env);;
  do_ (match request.1 with Some h => replace_history h | None => ret tt end);;
  do_ note with_requested;;
  match request.2 with
  | RequestFailed cancelled overflow retryable => request_failed turn cancelled overflow retryable
  | RequestAnswered notice m =>
    do_ note with_answered;;
    do_ check_cancelled;;
    do recorded <- recordProviderResponseLocked iter notice m;;
    do_ check_cancelled;;
    match rp_toolCalls recorded.1 with
    | [] => applyFinishPolicyLocked turn recorded.2
    | _ =>
      do_ interlude;;
      do_ run_batch turn recorded.1;;
      apply_transition turn
    end
  end.

(** The loop of [runLocked]; the code sets no bound. *)
Fixpoint turn_loop (fuel : nat) (turn : string) (iter : Z) : TM unit :=
  match fuel with
  | O => fail ErrOutOfFuel
  | S k =>
    do_ runProviderIterationLocked turn iter;;
    do l <- tget;;
    if tl_activeClosed l then ret tt else turn_loop k turn (iter + 1)
  end.

(** ** A turn *)

(** What [runLocked] does when the inputs cannot be restored. Then it takes
    the mutex of the inputs and holds it until the turn has been failed. *)
Definition restore_failed (turn : string) (message : Message) (e : EngineError) : TM unit :=
  do_ interlude;;
  do_ tmodify with_held;;
  do p <- tattempt (on_inputs (preservePendingInputAfterFailureLocked eenv turn));;
  let e := join_error e (error_of p) in
  do known <- on_engine (threadHasMessageID (m_ID message));;
  if known : bool then fail e
  else
    do s <- tattempt (on_inputs (recordTurnStartLocked eenv turn message));;
    fail (join_error e (error_of s)).

Definition runLocked (fuel : nat) (turn : string) (message : Message) : TM string :=
  do_ on_engine (repair_outcome eenv);;
  do_ interlude;;
  do r <- tattempt (on_inputs (restorePendingInput eenv turn (m_ID message)));;
  match r with
  | Err e => do_ restore_failed turn message e;; ret ""
  | Ok _ =>
    do_ interlude;;
    do prepared <- prepareTurnContextLocked turn message;;
    do_ on_inputs (recordTurnStartLocked eenv turn prepared);;
    do_ turn_loop fuel turn 0;;
    do l <- tget;;
    ret (tl_lastText l)
  end.

(** [TurnMessageWithID] behind the admission of the turn. *)
Definition execute_turn (fuel : nat) (turn : string) (message : Message) : TM string :=
  do_ tmodify (fun _ => new_turn);;
  do r <- tattempt (runLocked fuel turn message);;
  do r <- (match r with
           | Ok output => ret (Ok output)
           | Err e =>
             do l <- tget;;
             if tl_activeClosed l then ret (Err e)
             else
               do_ (if tl_pendingLifecycleHeld l then ret tt else interlude);;
               do e' <- on_inputs (failActiveTurnLocked eenv turn e);;
               ret (Err e')
           end);;
  do l <- tget;;
  do_ (if tl_activeClosed l then ret tt else on_engine (finishActiveTurn turn));;
  do_ on_engine (finishTurnExecution turn);;
  match r with Ok output => ret output | Err e => fail e end.

(** [TurnMessageWithID] for a turn with an identity. *)
Definition TurnMessageWithID (fuel : nat) (message : Message) (turn : string) : TM string :=
  do message <- on_engine (admitTurnMessageForExecution eenv turn message);;
  execute_turn fuel turn message.

End Turn.
