(* ===== verification/TurnFrame.v ===== *)
(** * The turn loop: what the parts of a turn leave alone

    While a turn is active, an input that another caller receives joins it
    ([joins]); no part of the turn but its end gives up the engine ([steady]). *)

From S2P Require Import Prelude GoStd Llm Events PendingInputs PendingQueue EngineInput EngineInputFrame EngineInputDrain EngineInputSound EngineInputProps EngineInputAdmission ContextText ToolPolicies ToolBatch TurnLoop.

Local Open Scope Z_scope.
Local Open Scope juex_scope.

(** ** Inputs of other callers *)

Section Receive.
  Context (env : EngineEnv).

(** Called while a turn is active, [m] starts none: its input goes behind the
    others, or is refused. *)
Definition joins (m : EM Returned) : Prop := forall w r w', active w <> "" -> m w = (r, w') ->
  grows w w' /\ match r with Ok (_, Some e) => plain e = true | _ => True end.

Lemma joins_ret rs err :
  match err with Some e => plain e = true | None => True end -> joins (ret (rs, err)).
Proof. intros He w r w' _ [= <- <-]. split; [reflexivity|done]. Qed.

Lemma joins_grows (m : EM Returned) w w1 r w' : active w <> "" -> grows w w1 -> joins m ->
  m w1 = (r, w') -> grows w w' /\ match r with Ok (_, Some e) => plain e = true | _ => True end.
Proof.
  intros Ha Hg Hm E. destruct (Hm w1 r w') as [Hg' Hr]; [by rewrite (gr_active _ _ Hg)|done|].
  split; [by etrans|done].
Qed.

Lemma joins_quiet {A} (m : EM A) (k : A -> EM Returned) :
  quiet m -> (forall a, joins (k a)) -> joins (bind m k).
Proof.
  intros Hq Hk w r w' Ha E. specialize (Hq w).
  apply bind_run in E as [(a & w1 & E1 & E)|(e & E1 & ->)]; rewrite E1 in Hq; simpl in Hq; [|done].
  by eapply joins_grows.
Qed.

(** The same for a call that is tried and whose error is plain. *)
Lemma joins_attempt {A} (m : EM A) (k : result EngineError A -> EM Returned) :
  quiet m -> sound m -> (forall x, EngineInputSound.plain_result x = true -> joins (k x)) ->
  joins (bind (attempt m) k).
Proof.
  intros Hq Hs Hk w r w' Ha E. specialize (Hq w). destruct (Hs w) as [_ Hp].
  apply attempt_run in E as (x & w1 & E1 & E). rewrite E1 in Hq, Hp. simpl in Hq, Hp.
  eapply joins_grows; [done|exact Hq|by apply Hk|done].
Qed.

Lemma sound_persisted id : sound (persistedPendingMessage env id).
Proof. unfold persistedPendingMessage. solve_sound. Qed.

Lemma sound_completed id : sound (pendingInputCompleted env id).
Proof. unfold pendingInputCompleted. solve_sound. Qed.

Lemma sound_persistPending m opts : sound (persistPendingMessage env m opts).
Proof. unfold persistPendingMessage. solve_sound. Qed.

#[local] Hint Resolve quiet_status quiet_turnID quiet_completed sound_persisted sound_completed
  sound_persistPending : quiet sound.

Lemma joins_reread id st e k :
  match e with Some e => plain e = true | None => True end ->
  (forall c, match (k c).2 with Some e => plain e = true | None => True end) ->
  joins (reread env id st e k).
Proof.
  intros He Hk. unfold reread. apply joins_attempt; [auto with quiet|auto with sound|].
  intros [c|e'] Hp.
  - specialize (Hk (default zeroRecord c)). destruct (k (default zeroRecord c)). by apply joins_ret.
  - apply joins_ret. simpl in Hp. destruct e as [e|]; simpl; [by rewrite He|done].
Qed.

Lemma joins_receive_new rounds msg req : joins (receive_new env rounds msg req).
Proof.
  induction rounds as [|k IH]; cbn [receive_new].
  { apply joins_quiet; [auto with quiet|]. intros st. by apply joins_ret. }
  intros w r w' Ha E. apply bind_run in E as [(st & w1 & E1 & E)|(e & E1 & _)]; [|discriminate E1].
  injection E1 as <- <-. change (st_TurnID _) with (active w) in E.
  rewrite (proj2 (bool_decide_eq_false _)) in E by done. simpl in E.
  destruct req; [injection E as <- <-; split; [reflexivity|done]|].
  pose proof (quiet_enqueueMessage env msg (mkOptions "" 0) w) as Hq.
  apply bind_run in E as [([[st record] err] & w1 & E1 & E)|(e & E1 & ->)]; rewrite E1 in Hq;
    simpl in Hq; [|done].
  destruct err as [e|]; [|injection E as <- <-; by split].
  apply enqueue_message_no_active in E1 as [Hp Hno].
  destruct (error_is is_no_active e); [by destruct (Ha (Hno eq_refl))|].
  injection E as <- <-. by split.
Qed.

Lemma joins_receive_persisted rounds record : joins (receive_persisted env rounds record).
Proof.
  induction rounds as [|k IH]; cbn [receive_persisted].
  { apply joins_quiet; [auto with quiet|]. intros st. by apply joins_ret. }
  intros w r w' Ha E. pose proof (quiet_enqueuePersisted env record w) as Hq.
  apply bind_run in E as [([st err] & w1 & E1 & E)|(e & E1 & ->)]; rewrite E1 in Hq;
    simpl in Hq; [|done].
  assert (forall m, joins m -> m w1 = (r, w') ->
    grows w w' /\ match r with Ok (_, Some e) => plain e = true | _ => True end) as Hback
    by (intros m Hm Em; by eapply joins_grows).
  destruct err as [e|]; [|by eapply Hback; [apply joins_reread|exact E]].
  apply enqueue_no_active in E1 as [Hp Hno].
  destruct (error_is is_queue_full e); [by eapply Hback; [apply joins_reread|exact E]|].
  destruct (error_is is_expired e); [by eapply Hback; [apply joins_reread|exact E]|].
  destruct (error_is is_handled e); [by eapply Hback; [apply joins_reread|exact E]|].
  destruct (error_is is_no_active e); [by destruct (Ha (Hno eq_refl))|].
  injection E as <- <-. by split.
Qed.

Lemma joins_receivePersisted id : joins (receivePersistedPendingInput env id).
Proof.
  unfold receivePersistedPendingInput.
  apply joins_attempt; [auto with quiet|auto with sound|]. intros [[record|]|e] Hp; [| |by apply joins_ret].
  - apply joins_quiet; [auto with quiet|]. intros st.
    repeat (match goal with |- joins (if ?b then _ else _) => destruct b end; [by apply joins_ret|]).
    apply joins_receive_persisted.
  - apply joins_attempt; [auto with quiet|auto with sound|]. intros [[]|e] Hp2; try by apply joins_ret.
    apply joins_quiet; [auto with quiet|]. intros st. by apply joins_ret.
Qed.

Lemma joins_receive_checked request : joins (receive_checked env request).
Proof.
  unfold receive_checked. intros w r w' Ha E.
  apply bind_run in E as [(p & w1 & E1 & E)|(e & E1 & ->)].
  - assert (grows w w1 /\
      match p with inl (_, Some e) => plain e = true | _ => True end) as [Hg Hp].
    { destruct (rq_Options request) as [opts|]; [|injection E1 as <- <-; by split].
      destruct (rq_RecordID request =?s ""); [|injection E1 as <- <-; by split].
      apply attempt_run in E1 as (x & w2 & E2 & E1).
      pose proof (quiet_persistPending env (rq_Message request) opts w) as Hg.
      pose proof (sound_persistPending (rq_Message request) opts w) as [_ Hp].
      rewrite E2 in Hg, Hp. simpl in Hg, Hp.
      destruct x as [record|e]; [destruct (rq_DeferDelivery request)|]; by injection E1 as <- <-. }
    eapply joins_grows; [done|exact Hg| |exact E]. destruct p as [[rs err]|id]; [by apply joins_ret|].
    apply joins_quiet; [auto with quiet|]. intros en.
    destruct (en_terminalPublishing en <>?s ""); [by apply joins_ret|].
    destruct (id <>?s ""); [apply joins_receivePersisted|apply joins_receive_new].
  - exfalso. destruct (rq_Options request) as [opts|]; [|discriminate E1].
    destruct (rq_RecordID request =?s ""); [|discriminate E1].
    apply attempt_run in E1 as (x & w2 & E2 & E1).
    destruct x as [record|e']; [destruct (rq_DeferDelivery request)|]; discriminate E1.
Qed.

(** While a turn is active nothing is taken over from an earlier one. *)
Lemma take_retried_active request w : active w <> "" -> exists refused,
  take_retried env request w = (Ok (refused, []), w) /\
  match refused with Some (_, Some e) => plain e = true | _ => True end.
Proof.
  intros Ha. unfold take_retried. cbv zeta.
  destruct (rq_RetryTurnID request =?s ""); [by exists None|].
  destruct (m_Kind (rq_Message request) <>?s MessageKindSystemNotice); [by eexists|].
  unfold bind at 1, engine_status, bind at 1, get_engine, ret at 1.
  change (st_TurnID _) with (active w). rewrite (proj2 (bool_decide_eq_false _)) by done. by eexists.
Qed.

Lemma joins_receive_locked request : joins (receive_locked env request false).
Proof.
  unfold receive_locked. apply joins_quiet; [auto with quiet|]. intros cancelled.
  apply joins_quiet; [auto with quiet|]. intros en.
  destruct cancelled; [by apply joins_ret|]. destruct (en_maintenanceReserved en); [by apply joins_ret|].
  intros w r w' Ha E. destruct (take_retried_active request w Ha) as (refused & Et & Hp).
  unfold bind at 1 in E. rewrite Et in E.
  destruct refused as [[rs err]|]; [injection E as <- <-; split; [reflexivity|done]|].
  apply bind_run in E as [([rs err] & w1 & E1 & E)|(e & E1 & ->)].
  - injection E as <- <-. apply bind_run in E1 as [([rs1 err1] & w2 & E2 & E1)|(? & _ & ?)]; [|done].
    apply joins_receive_checked in E2 as [Hg Hp2]; [|done]. by injection E1 as <- <- <-.
  - apply bind_run in E1 as [([rs1 err1] & w2 & E2 & E1)|(e' & E2 & _)]; [discriminate E1|].
    apply joins_receive_checked in E2 as [Hg _]; [|done]. by split.
Qed.

Lemma receive_joins request w r w' : active w <> "" ->
  ReceivePendingInput env request w = (r, w') -> grows w w'.
Proof.
  intros Ha E. unfold ReceivePendingInput, receivePendingInput in E.
  pose proof (quiet_draw (ee_cancelled env) w) as Hq.
  apply bind_run in E as [(c & w1 & E1 & E)|(e & E1 & _)]; [|discriminate E1].
  rewrite E1 in Hq. simpl in Hq. destruct c; [by injection E as <- <-|].
  apply bind_run in E as [([rs err] & w2 & E2 & E)|(e & E2 & _)];
    (apply joins_receive_locked in E2 as [Hg Hp]; [|by rewrite (gr_active _ _ Hq)]);
    [|by etrans].
  destruct err as [e|]; [|injection E as <- <-; by etrans].
  unfold publishStagedTerminalError in E. rewrite (plain_staged e Hp) in E.
  injection E as <- <-. by etrans.
Qed.

End Receive.

(** ** The transcript of a drain *)

(** Messages went behind those of the transcript. *)
Definition appends (w w' : EWorld) : Prop :=
  match history_of (w_thread (ew_queue w)) with
  | Some h => exists ms, history_of (w_thread (ew_queue w')) = Some (h ++ ms)
  | None => history_of (w_thread (ew_queue w')) = None
  end.

#[export] Instance appends_preorder : PreOrder appends.
Proof.
  split.
  - intros w. unfold appends. destruct (history_of _) as [h|]; [|done]. exists []. by rewrite app_nil_r.
  - intros w1 w2 w3. unfold appends. destruct (history_of (w_thread (ew_queue w1))) as [h|].
    + intros [l1 ->] [l2 ->]. exists (l1 ++ l2). by rewrite app_assoc.
    + by intros ->.
Qed.

Lemma appends_same w w' : same_thread (ew_queue w) (ew_queue w') -> appends w w'.
Proof.
  intros (_ & H & _). unfold appends. rewrite H. clear H.
  destruct (history_of _) as [h|]; [|done].
  exists []. by rewrite app_nil_r.
Qed.

Lemma appends_thread w w' : appends w w' -> has_thread w -> has_thread w'.
Proof.
  unfold appends, has_thread. intros H [th E]. rewrite E in H. destruct H as [ms H].
  destruct (w_thread (ew_queue w')); [by eexists|done].
Qed.

Definition writes {A} (m : EM A) : Prop := forall w, appends w (m w).2.

Lemma writes_quiet {A} (m : EM A) : quiet m -> writes m.
Proof. intros Hq w. apply appends_same, (Hq w). Qed.

Lemma records_bind {A B} (m : EM A) (k : A -> EM B) :
  writes m -> (forall a, writes (k a)) -> writes (bind m k).
Proof.
  intros Hm Hk w. unfold bind. specialize (Hm w). destruct (m w) as [[a|e] w1]; [|done].
  etrans; [exact Hm|apply Hk].
Qed.

Lemma records_attempt {A} (m : EM A) : writes m -> writes (attempt m).
Proof. intros Hm w. unfold attempt. specialize (Hm w). by destruct (m w). Qed.

Lemma writes_modify f : writes (modify_engine f).
Proof. intros w. by apply appends_same. Qed.

#[local] Hint Resolve writes_modify writes_quiet : writes.

Ltac writes_step :=
  match goal with
  | |- writes (bind _ _) => apply records_bind
  | |- writes (attempt _) => apply records_attempt
  | |- forall _, _ => intro
  | |- writes (match ?x with _ => _ end) => destruct x
  | |- writes _ => solve [eauto with writes quiet keeps]
  end.
Ltac solve_writes := repeat (cbv zeta; writes_step).

Section Drain.
  Context (env : EngineEnv).

Lemma writes_append m e : writes (append_to_thread env m e).
Proof.
  unfold append_to_thread. apply records_bind; [solve_writes|]. intros id w.
  unfold append_thread_message, appends.
  destruct (ee_append env (ew_calls w)); simpl; destruct (w_thread (ew_queue w)) as [th|] eqn:E; simpl;
    rewrite ?E; try done; first [by eexists | exists []; by rewrite app_nil_r].
Qed.
#[local] Hint Resolve writes_append : writes.

Lemma writes_appendInput m : writes (appendInputMessage env m).
Proof. unfold appendInputMessage. solve_writes. Qed.
#[local] Hint Resolve writes_appendInput : writes.

Lemma writes_appendRecovered m : writes (appendRecoveredTurnInputLocked env m).
Proof. unfold appendRecoveredTurnInputLocked. solve_writes. Qed.
#[local] Hint Resolve writes_appendRecovered : writes.

Lemma writes_persist_after {A} (m : EM A) p : writes m -> writes p -> writes (persist_after m p).
Proof. intros. unfold persist_after. solve_writes. Qed.

Lemma writes_restoreAccepted turn id m : writes (restoreAcceptedTurnInputLocked env turn id m).
Proof.
  unfold restoreAcceptedTurnInputLocked.
  repeat first [apply writes_persist_after | writes_step].
Qed.
#[local] Hint Resolve writes_restoreAccepted : writes.

Lemma writes_on_queue m : keeps m -> writes (on_queue m).
Proof. intros. apply writes_quiet. by apply quiet_on_queue. Qed.

Lemma writes_commit_items turn its : forall l, writes (commit_items env turn its l).
Proof. induction its as [|it its IH]; intros l; cbn [commit_items]; solve_writes. Qed.

Lemma writes_batch turn its : writes (commitPendingInputBatchLocked env turn its).
Proof.
  unfold commitPendingInputBatchLocked. destruct its; [solve_writes|]. cbv zeta.
  apply records_bind; [solve_writes|]. intros _.
  apply records_bind; [apply writes_on_queue, keeps_updateStates|]. intros _.
  apply records_bind; [apply writes_commit_items|]. intros processed.
  apply records_bind; [apply writes_on_queue, keeps_updateStates|]. intros _. solve_writes.
Qed.

Lemma writes_prepend l : writes (prependPendingInput l).
Proof. unfold prependPendingInput. destruct l; solve_writes. Qed.
#[local] Hint Resolve writes_batch writes_prepend : writes.

Lemma writes_turn_input turn it : writes (commit_turn_input env turn it).
Proof.
  unfold commit_turn_input. cbv zeta.
  assert (forall m, keeps m -> writes (if it_RecordID it =?s "" then ret tt else on_queue m)) as Hq.
  { intros m Hm. destruct (it_RecordID it =?s ""); [solve_writes|by apply writes_on_queue]. }
  apply records_bind; [solve_writes|]. intros _.
  apply records_bind; [apply Hq, keeps_updateStates|]. intros _.
  apply records_bind; [solve_writes|]. intros []; [apply Hq, keeps_updateStates|solve_writes].
Qed.
#[local] Hint Resolve writes_turn_input : writes.

Lemma writes_sequence turn l : forall q, writes (commit_sequence env turn l q).
Proof. induction l; intros q; cbn [commit_sequence]; unfold flush_queued; solve_writes. Qed.

Lemma writes_drain turn : writes (drainPendingInputLocked env turn).
Proof.
  unfold drainPendingInputLocked, drainPendingInputLifecycleLocked, commitPendingInputSequenceLocked.
  apply records_bind; [solve_writes|]. intros []; [solve_writes|].
  apply records_bind; [solve_writes|]. intros en. apply records_bind; [solve_writes|].
  intros _. apply writes_sequence.
Qed.

End Drain.

(** ** Parts that leave the turn alone *)

(** While a turn is active, [m] publishes and lets inputs in, and that is all. *)
Definition calm {A} (m : TM A) : Prop := forall t, active (tw_engine t) <> "" ->
  grows (tw_engine t) (tw_engine (m t).2) /\ tw_turn (m t).2 = tw_turn t.

Lemma calm_ret {A} (a : A) : calm (ret a).
Proof. intros t _. split; reflexivity. Qed.
Lemma calm_fail {A} e : calm (fail e : TM A).
Proof. intros t _. split; reflexivity. Qed.
Lemma calm_tget : calm tget.
Proof. intros t _. split; reflexivity. Qed.

Lemma calm_bind {A B} (m : TM A) (k : A -> TM B) :
  calm m -> (forall a, calm (k a)) -> calm (bind m k).
Proof.
  intros Hm Hk t Ha. unfold bind. destruct (Hm t Ha) as [Hg Ht].
  destruct (m t) as [[a|e] t1]; simpl in *; [|done].
  destruct (Hk a t1) as [Hg2 Ht2]; [by rewrite (gr_active _ _ Hg)|].
  split; [by etrans|congruence].
Qed.

Lemma calm_tattempt {A} (m : TM A) : calm m -> calm (tattempt m).
Proof. intros Hm t Ha. unfold tattempt. specialize (Hm t Ha). by destruct (m t). Qed.

Lemma calm_on_engine {A} (m : EM A) : quiet m -> calm (on_engine m).
Proof.
  intros Hq t _. unfold on_engine. specialize (Hq (tw_engine t)). by destruct (m (tw_engine t)).
Qed.

#[export] Hint Resolve calm_ret calm_fail calm_tget calm_tattempt : calm.
#[export] Hint Extern 2 (calm (on_engine _)) => (apply calm_on_engine; solve [eauto with quiet]) : calm.

Ltac calm_step :=
  match goal with
  | |- calm (bind _ _) => apply calm_bind
  | |- calm (tattempt _) => apply calm_tattempt
  | |- forall _, _ => intro
  | |- calm (match ?x with _ => _ end) => destruct x
  | |- calm _ => solve [eauto with calm]
  end.
Ltac solve_calm := repeat (cbv zeta; calm_step).

Section Turn.
  Context (env : TurnEnv).

Lemma receive_all_grows requests : forall w, active w <> "" ->
  grows w (receive_all env requests w).2 /\ (receive_all env requests w).1 = Ok tt.
Proof.
  induction requests as [|rq l IH]; intros w Ha; cbn [receive_all]; [split; reflexivity|].
  unfold bind, attempt. destruct (ReceivePendingInput _ rq w) as [r w1] eqn:E.
  apply receive_joins in E as Hg; [|done].
  destruct (IH w1) as [Hg2 Hr]; [by rewrite (gr_active _ _ Hg)|]. split; [by etrans|done].
Qed.

Lemma calm_tdraw {A} (f : nat -> A) : calm (tdraw f).
Proof. apply calm_on_engine, quiet_draw. Qed.
#[local] Hint Resolve calm_tdraw : calm.

Lemma calm_interlude : calm (interlude env).
Proof.
  unfold interlude. apply calm_bind; [auto with calm|]. intros requests t Ha. unfold on_engine.
  destruct (receive_all_grows requests (tw_engine t) Ha) as [Hg _].
  by destruct (receive_all env requests (tw_engine t)).
Qed.

Lemma interlude_ok t : active (tw_engine t) <> "" -> (interlude env t).1 = Ok tt.
Proof.
  intros Ha. unfold interlude, bind, tdraw, on_engine, draw_outcome.
  set (w := mkEWorld _ _ _ _ _ _).
  destruct (receive_all_grows (te_others env (ew_calls (tw_engine t))) w Ha) as [_ Hok].
  cbn [tw_engine set_tw_engine]. by destruct (receive_all env _ w).
Qed.

Lemma calm_check : calm (check_cancelled env).
Proof. unfold check_cancelled. solve_calm. Qed.

Lemma calm_emit : calm (emit_unlogged env).
Proof. unfold emit_unlogged. solve_calm. Qed.
#[local] Hint Resolve calm_emit : calm.

Lemma calm_canContinue m : calm (canContinueAfterAutoCompactError env m).
Proof. unfold canContinueAfterAutoCompactError. solve_calm. Qed.

Lemma calm_continueAfter turn retryable : calm (continueAfterProviderFailure env turn retryable).
Proof. unfold continueAfterProviderFailure. solve_calm. Qed.

End Turn.

#[export] Hint Resolve calm_tdraw calm_interlude calm_check calm_emit calm_canContinue
  calm_continueAfter : calm.

(** ** Triples *)

(** From [I] a run of [m] that returns [a] ends in [J a], one that fails in [F]. *)
Definition triple {A} (F I : TWorld -> Prop) (m : TM A) (J : A -> TWorld -> Prop) : Prop :=
  forall t, I t -> match m t with (Ok a, t') => J a t' | (Err _, t') => F t' end.

Section Triples.
  Context (F : TWorld -> Prop).

Lemma triple_ret {A} I (a : A) : triple F (I a) (ret a) I.
Proof. by intros t Ht. Qed.

Lemma triple_fail {A} I e (J : A -> TWorld -> Prop) : (forall t, I t -> F t) -> triple F I (fail e) J.
Proof. intros H t Ht. by apply H. Qed.

Lemma triple_bind {A B} I (m : TM A) J (k : A -> TM B) K :
  triple F I m J -> (forall a, triple F (J a) (k a) K) -> triple F I (bind m k) K.
Proof.
  intros Hm Hk t Ht. unfold bind. specialize (Hm t Ht). destruct (m t) as [[a|e] t1]; [|done].
  by apply Hk.
Qed.

Lemma triple_weaken {A} (I I' : TWorld -> Prop) (m : TM A) (J J' : A -> TWorld -> Prop) :
  triple F I m J -> (forall t, I' t -> I t) -> (forall a t, J a t -> J' a t) -> triple F I' m J'.
Proof.
  intros Hm Hi Hj t Ht. specialize (Hm t (Hi t Ht)). destruct (m t) as [[a|e] t1]; [by apply Hj|done].
Qed.

(** The end of a call that is tried is that of the call itself. *)
Lemma triple_tattempt {A} I (m : TM A) J G :
  triple G I m J ->
  triple F I (tattempt m) (fun r t => match r with Ok a => J a t | Err _ => G t end).
Proof.
  intros Hm t Ht. unfold tattempt. specialize (Hm t Ht). by destruct (m t) as [[a|e] t1].
Qed.

(** An assertion that a calm part cannot falsify. *)
Definition stable (I : TWorld -> Prop) : Prop := forall t t', I t ->
  active (tw_engine t) <> "" /\
  (grows (tw_engine t) (tw_engine t') -> tw_turn t' = tw_turn t -> I t').

Lemma triple_calm {A} I (m : TM A) :
  calm m -> stable I -> (forall t, I t -> F t) -> triple F I m (fun _ => I).
Proof.
  intros Hm Hs HF t Ht. destruct (Hs t (m t).2 Ht) as [Ha Hi].
  destruct (Hm t Ha) as [Hg Hl]. specialize (Hi Hg Hl). by destruct (m t) as [[a|e] t1]; [|apply HF].
Qed.

Lemma triple_calm_bind {A B} I (m : TM A) (k : A -> TM B) K :
  calm m -> stable I -> (forall t, I t -> F t) -> (forall a, triple F I (k a) K) ->
  triple F I (bind m k) K.
Proof. intros Hm Hs HF Hk. eapply triple_bind; [by apply triple_calm|exact Hk]. Qed.

End Triples.

(** ** From the answer to the end of a round

    [P] holds before the parts that may end a turn, [Q] behind them. *)

Section Finishing.
  Context (env : TurnEnv) (turn : string) (F P Q : TWorld -> Prop).
  Context (Hfail : forall t, P t -> F t).
  Context (Hcalm : forall A (m : TM A), calm m -> triple F P m (fun _ => P)).
  Context (Hfinish : forall output, triple F P (finish_turn env turn output) (fun _ => Q)).

Lemma triple_draw {A B} (f : nat -> A) (k : A -> TM B) K :
  (forall n, triple F P (k (f n)) K) -> triple F P (bind (tdraw f) k) K.
Proof.
  intros Hk t Ht. pose proof (Hcalm _ (tdraw f) (calm_tdraw f) t Ht) as Hd.
  unfold bind, tdraw, on_engine, draw_outcome in *. cbn [fst snd] in *. by apply Hk.
Qed.

Lemma triple_candidates output l : (forall prompt, quiet (enqueueContinuation (te_engine env) prompt)) ->
  (forall t, P t -> Q (set_tw_turn (with_closed false (with_lastText output (tw_turn t))) t)) ->
  triple F P (finish_candidates env turn output l) (fun _ => Q).
Proof.
  intros Hq Hopen. induction l as [|c l IH]; cbn [finish_candidates]; [apply Hfinish|].
  destruct (fc_applied c) as [[]|]; [|exact IH|by apply triple_fail].
  destruct (fc_Continuation c =?s ""); [by intros t Ht; apply Hopen|].
  eapply triple_bind; [apply Hcalm, calm_interlude|]. intros ?.
  eapply triple_bind; [apply Hcalm, calm_on_engine, Hq|]. intros ?. apply Hfinish.
Qed.

Lemma triple_policy output : (forall prompt, quiet (enqueueContinuation (te_engine env) prompt)) ->
  (forall t, P t -> Q (set_tw_turn (with_closed false (with_lastText output (tw_turn t))) t)) ->
  triple F P (applyFinishPolicyLocked env turn output) (fun _ => Q).
Proof.
  intros Hq Hopen. unfold applyFinishPolicyLocked.
  eapply triple_bind; [apply Hcalm, calm_tattempt, calm_emit|]. intros ?.
  apply triple_draw. intros n. destruct (te_finish env n); [|by apply triple_fail].
  apply triple_draw. intros n'. destruct (te_policyContext env n'); [by apply triple_candidates|by apply triple_fail].
Qed.

Lemma triple_transition : (forall t, P t -> Q t) ->
  (forall n h, match te_transition env n with
    | TransitionCompact c => cp_history c = Some h
    | TransitionNew _ _ => h = []
    | NoTransition => False
    end -> triple F P (replace_history h) (fun _ => P)) ->
  triple F P (apply_transition env turn) (fun _ => Q).
Proof.
  intros Hgo Hr. unfold apply_transition. apply triple_draw. intros n. specialize (Hr n).
  destruct (te_transition env n) as [|c|renewed failed].
  - intros t Ht. by apply Hgo.
  - eapply triple_bind; [destruct (cp_history c); [by apply Hr|by intros t Ht]|]. intros ?.
    destruct (cp_failed c); [by apply triple_fail|]. intros t Ht. by apply Hgo.
  - eapply triple_bind; [destruct renewed; [by apply Hr|by intros t Ht]|]. intros ?.
    destruct failed; [by apply triple_fail|apply Hfinish].
Qed.

End Finishing.

Lemma quiet_continuation env prompt : quiet (enqueueContinuation env prompt).
Proof. unfold enqueueContinuation. solve_quiet. Qed.
#[export] Hint Resolve quiet_continuation : quiet.
