(* ===== verification/TurnEnds.v ===== *)
(** * The turn loop: how a turn ends

    No part of a turn but its end gives up the engine; whatever happens on the
    way, the turn that was started is closed and its end is announced. *)

From S2P Require Import Prelude GoStd Llm Events PendingInputs PendingQueue EngineInput EngineInputFrame EngineInputDrain EngineInputSound EngineInputProps EngineInputAdmission ContextText ToolPolicies ToolBatch TurnLoop TurnFrame.

Local Open Scope Z_scope.
Local Open Scope juex_scope.

Section Ends.
  Context (env : TurnEnv) (turn : string).

Local Abbreviation eenv := (te_engine env).

(** ** States of a turn *)

(** The turn holds the engine. *)
Record running (t : TWorld) : Prop := mkRunning {
  ru_named : turn <> "";
  ru_active : active (tw_engine t) = turn;
  ru_executing : en_executingTurnID (ew_engine (tw_engine t)) = turn;
  ru_terminal : terminal (tw_engine t) = "";
  ru_open : tl_activeClosed (tw_turn t) = false;
}.

(** Its inputs and its end are settled; what is left is to stop executing. *)
Record released (w : EWorld) : Prop := mkReleased {
  re_active : active w = "";
  re_executing : en_executingTurnID (ew_engine w) = turn;
  re_terminal : terminal w = "";
}.

Definition end_logged (type : string) (w : EWorld) : Prop :=
  exists ev, TurnEnded ev ∈ ew_log w /\ ev_TurnID ev = turn /\ ev_Type ev = type.

(** The last thing the turn did was a commit of its error that failed. *)
Definition commit_failed (w : EWorld) : Prop :=
  exists cause w1 e w2, recordTurnEnd eenv false turn cause w1 = (Err e, w2) /\
    ew_queue w = ew_queue w2 /\ ew_log w = ew_log w2 /\ ew_calls w = ew_calls w2.

Definition told (w : EWorld) : Prop :=
  end_logged "turn.completed" w \/ end_logged "turn.errored" w \/ commit_failed w.

Definition closed (t : TWorld) : Prop :=
  tl_activeClosed (tw_turn t) = true /\ released (tw_engine t).

(** A failure either leaves the turn running, or has closed it. *)
Definition failing (t : TWorld) : Prop := running t \/ closed t /\ told (tw_engine t).

Definition going (t : TWorld) : Prop :=
  running t \/ closed t /\ end_logged "turn.completed" (tw_engine t).

Lemma running_active t : running t -> active (tw_engine t) <> "".
Proof. intros [? -> _ _ _]. done. Qed.

Lemma running_holders t t' : holders (tw_engine t') = holders (tw_engine t) ->
  tl_activeClosed (tw_turn t') = tl_activeClosed (tw_turn t) -> running t -> running t'.
Proof.
  intros Hh Hc []. unfold holders in Hh. injection Hh as A E T _. unfold terminal in *.
  split; [done|by rewrite A|by rewrite E|unfold terminal; by rewrite T|by rewrite Hc].
Qed.

Lemma stable_running : stable running.
Proof.
  intros t t' Hr. split; [by apply running_active|]. intros Hg Ht.
  eapply running_holders; [by apply grows_holders|by rewrite Ht|done].
Qed.

Lemma running_failing t : running t -> failing t.
Proof. by left. Qed.

(** ** Parts that keep the engine *)

Definition steady {A} (m : TM A) : Prop := triple running running m (fun _ => running).

Lemma steady_calm {A} (m : TM A) : calm m -> steady m.
Proof. intros Hm. apply triple_calm; [done|apply stable_running|done]. Qed.

Lemma steady_bind {A B} (m : TM A) (k : A -> TM B) :
  steady m -> (forall a, steady (k a)) -> steady (bind m k).
Proof. apply triple_bind. Qed.

Lemma steady_tattempt {A} (m : TM A) : steady m -> steady (tattempt m).
Proof.
  intros Hm t Ht. unfold tattempt. specialize (Hm t Ht). by destruct (m t) as [[a|e] t1].
Qed.

Lemma steady_inputs {A} (m : EM A) : (forall w, holders (m w).2 = holders w) -> steady (on_inputs m).
Proof.
  intros Hm t Ht. unfold on_inputs. specialize (Hm (tw_engine t)).
  destruct (m (tw_engine t)) as [[a|e] w]; eapply running_holders; try exact Ht; done.
Qed.

Lemma steady_sound {A} (m : EM A) : sound m -> steady (on_inputs m).
Proof. intros Hm. apply steady_inputs. intros w. by destruct (Hm w) as [[? _] _]. Qed.

Lemma steady_modify f : (forall l, tl_activeClosed (f l) = tl_activeClosed l) -> steady (tmodify f).
Proof. intros Hf t Ht. refine (running_holders t _ _ _ Ht); [done|apply Hf]. Qed.

Lemma steady_note f : (forall h l, tl_activeClosed (f h l) = tl_activeClosed l) -> steady (note f).
Proof. intros Hf t Ht. refine (running_holders t _ _ _ Ht); [done|apply Hf]. Qed.

Lemma set_records_holders events h w : holders (set_records events h w) = holders w.
Proof. unfold set_records. by destruct (w_thread (ew_queue w)). Qed.

Lemma steady_replace h : steady (replace_history h).
Proof. intros t Ht. eapply running_holders; [apply set_records_holders|done|exact Ht]. Qed.

Lemma steady_batch recorded : steady (run_batch env turn recorded).
Proof.
  unfold run_batch. apply steady_bind; [apply steady_calm; auto with calm quiet keeps|]. intros fresh.
  apply steady_bind; [apply steady_calm; auto with calm|]. intros moves t Ht.
  destruct (w_thread _); [|done]. cbv zeta.
  destruct (bt_stage _) as [| | |[]];
    (eapply running_holders; [apply set_records_holders|done|exact Ht]).
Qed.

#[local] Hint Resolve steady_calm steady_sound steady_replace steady_batch calm_ret : steady.
#[local] Hint Extern 1 (steady (tmodify _)) => (apply steady_modify; intros; reflexivity) : steady.
#[local] Hint Extern 1 (steady (note _)) => (apply steady_note; intros; reflexivity) : steady.

#[local] Hint Extern 2 (steady (on_engine _)) =>
  (apply steady_calm, calm_on_engine; solve [eauto with quiet]) : steady.

(** Walks a part along its binds and matches. *)
Ltac steady_step :=
  match goal with
  | |- steady (bind _ _) => apply steady_bind
  | |- steady (tattempt _) => apply steady_tattempt
  | |- forall _, _ => intro
  | |- steady (match ?x with _ => _ end) => destruct x
  | |- steady _ => solve [eauto with steady calm sound]
  end.
Ltac solve_steady := repeat (cbv zeta; steady_step).

Lemma steady_fail {A} e : steady (fail e : TM A).
Proof. by apply steady_calm, calm_fail. Qed.
Lemma steady_ret {A} (a : A) : steady (ret a).
Proof. by apply steady_calm, calm_ret. Qed.
#[local] Hint Resolve steady_fail steady_ret : steady.

Lemma steady_compact : steady (compact env).
Proof. unfold compact. solve_steady. Qed.
#[local] Hint Resolve steady_compact : steady.

Lemma steady_persist {A} message (m : TM A) : steady m -> steady (persist_start env turn message m).
Proof. intros Hm. unfold persist_start. solve_steady. Qed.

Lemma steady_prepare original : steady (prepareTurnContextLocked env turn original).
Proof.
  unfold prepareTurnContextLocked. repeat (cbv zeta; first [apply steady_persist | steady_step]).
Qed.

Lemma steady_record iter notice m : steady (recordProviderResponseLocked env iter notice m).
Proof.
  unfold recordProviderResponseLocked. cbv zeta.
  apply steady_bind; [destruct (m_ID m =?s ""); eauto with steady calm quiet keeps|]. intros id.
  apply steady_bind.
  { intros t Ht. refine (running_holders t _ _ _ Ht); done. }
  intros _. apply steady_bind; [auto with steady calm|]. intros r.
  apply steady_bind; [|solve_steady].
  destruct r; [|solve_steady|]; intros t Ht; (refine (running_holders t _ _ _ Ht); [|done]);
    unfold append_messages; simpl; (destruct (w_thread _); [apply set_records_holders|done]).
Qed.

Lemma steady_request_failed cancelled overflow retryable :
  steady (request_failed env turn cancelled overflow retryable).
Proof. unfold request_failed. solve_steady. Qed.
#[local] Hint Resolve steady_prepare steady_record steady_request_failed : steady.

Lemma steady_going {A} (m : TM A) : steady m -> triple failing running m (fun _ => running).
Proof.
  intros Hm t Ht. specialize (Hm t Ht). destruct (m t) as [[a|e] t']; [done|by left].
Qed.

(** ** The end of a turn *)

Lemma commitError_told cause w r w' : terminal w = turn ->
  commitAndPublishTurnError eenv turn cause w = (r, w') ->
  settled turn w w' /\ (end_logged "turn.errored" w' \/ commit_failed w').
Proof.
  intros Ht E. split; [by eapply commitError_settled|].
  unfold commitAndPublishTurnError in E. apply attempt_run in E as (x & w1 & E1 & E).
  assert (terminal w1 = turn) as Ht1.
  { pose proof (quiet_recordTurnEnd eenv false turn cause w) as Hg. rewrite E1 in Hg. simpl in Hg.
    unfold terminal. by rewrite (gr_terminal _ _ Hg). }
  destruct x as [ev|e].
  - left. apply recordTurnEnd_logged in E1 as (Hl & ? & ?). exists ev. split_and!; [|done..].
    pose proof (publishTerminal_settled eenv turn ev w1 r w' Ht1 E) as [_ _ _ [l ->] _ _].
    apply elem_of_app. by left.
  - right. exists cause, w, e, w1. split; [done|].
    unfold finishTerminalPublication, modify_engine, bind, fail in E. injection E as _ <-. done.
Qed.

Lemma finishOrContinue_run t r w' : running t -> finishOrContinueLocked eenv turn (tw_engine t) = (r, w') ->
  match r with
  | Ok false => w' = tw_engine t
  | Ok true => released w' /\ end_logged "turn.completed" w'
  | Err _ => released w' /\ told w'
  end.
Proof.
  intros [Hne Ha He Ht _] E. unfold finishOrContinueLocked, activeTurnHasNoPending in E.
  unfold bind at 1 2, get_engine, ret at 1 in E. destruct (negb _); [by injection E as <- <-|].
  destruct (beginTerminal_run turn (tw_engine t)) as (Hte & _ & _ & Hact).
  rewrite Ha, bool_decide_eq_true_2 in Hact by done.
  assert (en_executingTurnID (ew_engine (beginTerminalPublication turn (tw_engine t)).2) = turn) as Hex.
  { unfold beginTerminalPublication, modify_engine. simpl. by destruct (_ =?s _). }
  set (w0 := (beginTerminalPublication turn (tw_engine t)).2) in *.
  assert (forall w2, settled turn w0 w2 -> released w2) as Hre.
  { intros w2 [T A _ _ X _]. split; congruence. }
  change (bind (beginTerminalPublication turn) ?k (tw_engine t)) with (k tt w0) in E. cbv beta in E.
  apply attempt_run in E as (x & w1 & E1 & E).
  pose proof (quiet_recordTurnEnd eenv true turn ErrEmit w0) as Hg. rewrite E1 in Hg. simpl in Hg.
  assert (terminal w1 = turn) as Ht1 by (unfold terminal; by rewrite (gr_terminal _ _ Hg)).
  destruct x as [ev|e].
  - apply recordTurnEnd_logged in E1 as (Hl & ? & ?).
    assert (forall w2, settled turn w1 w2 -> end_logged "turn.completed" w2) as Hlog.
    { intros w2 [_ _ _ [l El] _ _]. exists ev. rewrite El. split_and!; [set_solver|done..]. }
    apply bind_run in E as [(u & w2 & E2 & E)|(e & E2 & ->)];
      pose proof (publishTerminal_settled eenv turn ev w1 _ _ Ht1 E2) as Hs;
      pose proof (Hre _ (settled_grows _ _ _ _ Hg Hs)); [injection E as <- <-|]; split; [done| |done|left]; by apply Hlog.
  - apply attempt_run in E as (p & w2 & E2 & E). injection E as <- <-.
    apply commitError_told in E2 as [Hs Hto]; [|done].
    split; [apply Hre; by eapply settled_grows|by right].
Qed.

Lemma ends_finish output : triple failing running (finish_turn env turn output) (fun _ => going).
Proof.
  unfold finish_turn. apply triple_calm_bind; [apply calm_interlude|apply stable_running|apply running_failing|].
  intros ? t Ht. unfold bind at 1, tattempt, on_engine.
  destruct (finishOrContinueLocked eenv turn (tw_engine t)) as [r w'] eqn:E.
  pose proof (finishOrContinue_run t r w' Ht E) as Hr. destruct r as [[]|e]; simpl.
  - right. split; [by split; [|apply Hr]|apply Hr].
  - left. subst w'. refine (running_holders t _ _ _ Ht); [done|]. simpl. by rewrite (ru_open _ Ht).
  - right. split; [by split; [|apply Hr]|apply Hr].
Qed.

Lemma ends_policy output : triple failing running (applyFinishPolicyLocked env turn output) (fun _ => going).
Proof.
  apply triple_policy; [apply running_failing| |apply ends_finish|intros; apply quiet_continuation|].
  - intros A m Hm. by apply steady_going, steady_calm.
  - intros t Ht. left. refine (running_holders t _ _ _ Ht); [done|]. simpl. by rewrite (ru_open _ Ht).
Qed.

Lemma ends_transition : triple failing running (apply_transition env turn) (fun _ => going).
Proof.
  apply triple_transition; [apply running_failing| |apply ends_finish|by left|].
  - intros A m Hm. by apply steady_going, steady_calm.
  - intros n h _. apply steady_going, steady_replace.
Qed.

(** ** The loop *)

Lemma ends_iteration iter :
  triple failing running (runProviderIterationLocked env turn iter) (fun _ => going).
Proof.
  unfold runProviderIterationLocked.
  do 5 (eapply triple_bind; [apply steady_going; auto with steady calm sound|]; intros ?).
  eapply triple_bind; [apply steady_going; match goal with |- steady (if ?b then _ else _) => destruct b end; auto with steady|]. intros ?.
  do 3 (eapply triple_bind; [apply steady_going; auto with steady calm|]; intros ?).
  match goal with |- context [match ?x.1 with _ => _ end] => destruct x as [replaced [notice m|cancelled overflow retryable]]; simpl end.
  - eapply triple_bind; [apply steady_going; destruct replaced; auto with steady|]. intros ?.
    do 5 (eapply triple_bind; [apply steady_going; auto with steady calm|]; intros ?).
    destruct (rp_toolCalls _); [apply ends_policy|].
    do 2 (eapply triple_bind; [apply steady_going; auto with steady calm|]; intros ?).
    apply ends_transition.
  - eapply triple_bind; [apply steady_going; destruct replaced; auto with steady|]. intros ?.
    eapply triple_bind; [apply steady_going; auto with steady calm|]. intros ?.
    intros t Ht. pose proof (steady_request_failed cancelled overflow retryable t Ht) as Hr.
    destruct (request_failed _ _ _ _ _ t) as [[u|e] t']; by left.
Qed.

Lemma ends_loop fuel : forall iter,
  triple failing running (turn_loop env fuel turn iter) (fun _ t => closed t /\ end_logged "turn.completed" (tw_engine t)).
Proof.
  induction fuel as [|fuel IH]; intros iter; cbn [turn_loop]; [apply triple_fail, running_failing|].
  eapply triple_bind; [apply ends_iteration|]. intros ? t [Ht|[Hc Hl]].
  - unfold bind at 1, tget. rewrite (ru_open _ Ht). by apply IH.
  - unfold bind at 1, tget. rewrite (proj1 Hc). by split.
Qed.

(** ** A turn *)

(** The mutex of the inputs is held; they may have been settled already. *)
Record held (t : TWorld) : Prop := mkHeld {
  he_named : turn <> "";
  he_active : active (tw_engine t) = turn \/ active (tw_engine t) = "";
  he_executing : en_executingTurnID (ew_engine (tw_engine t)) = turn;
  he_terminal : terminal (tw_engine t) = "";
  he_open : tl_activeClosed (tw_turn t) = false;
  he_held : tl_pendingLifecycleHeld (tw_turn t) = true;
}.

Definition stopped (t : TWorld) : Prop := failing t \/ held t.

Lemma held_holders t t' : holders (tw_engine t') = holders (tw_engine t) ->
  tl_activeClosed (tw_turn t') = tl_activeClosed (tw_turn t) ->
  tl_pendingLifecycleHeld (tw_turn t') = tl_pendingLifecycleHeld (tw_turn t) -> held t -> held t'.
Proof.
  intros Hh Hc Hd []. unfold holders in Hh. injection Hh as A E T _. unfold terminal in *.
  split; [done|by rewrite A|by rewrite E|unfold terminal; by rewrite T|by rewrite Hc|by rewrite Hd].
Qed.

(** The inputs of the turn are preserved; that may settle them. *)
Lemma preserve_loose w r w' : preservePendingInputAfterFailureLocked eenv turn w = (r, w') ->
  (active w' = active w \/ active w' = "") /\ others w' = others w.
Proof. intros E. apply preserve_loop_released in E as (? & ? & _). by split. Qed.

Lemma ends_restore_failed message e :
  triple stopped running (restore_failed env turn message e) (fun _ _ => False).
Proof.
  intros t Ht. unfold restore_failed.
  pose proof (steady_calm _ (calm_interlude env) t Ht) as Hi. unfold bind at 1.
  destruct (interlude env t) as [[u|e0] t0]; [|by left; left].
  unfold bind at 1, tmodify. set (t1 := set_tw_turn _ t0).
  unfold bind at 1, tattempt at 1, on_inputs at 1.
  destruct (preservePendingInputAfterFailureLocked _ turn (tw_engine t1)) as [p w2] eqn:E2.
  apply preserve_loose in E2 as [Ha Ho]. set (t2 := set_tw_turn _ _).
  assert (held t2) as Hh.
  { destruct Hi. injection Ho as O1 O2 O3. split; simpl; try done; [|congruence..].
    change (tw_engine t1) with (tw_engine t0) in *. destruct Ha as [Ha|Ha]; [left; congruence|by right]. }
  unfold bind at 1. unfold on_engine at 1, threadHasMessageID.
  destruct (has_message _ _); [by right|]. unfold bind, tattempt, on_inputs.
  destruct (sound_recordTurnStart eenv turn message (tw_engine (set_tw_engine (tw_engine t2) t2))) as [[Hho _] _].
  destruct (recordTurnStartLocked eenv turn message _) as [s w3]. right.
  refine (held_holders t2 _ _ _ _ Hh); done.
Qed.

Lemma ends_run fuel message : triple stopped running (runLocked env fuel turn message)
  (fun _ t => closed t /\ end_logged "turn.completed" (tw_engine t)).
Proof.
  assert (forall A (m : TM A) J, triple failing running m J -> triple stopped running m J) as Hw.
  { intros A m J Hm t Ht. specialize (Hm t Ht). destruct (m t) as [[a|e] t']; [done|by left]. }
  unfold runLocked.
  eapply triple_bind; [apply Hw, steady_going; auto with steady calm quiet|]. intros ?.
  eapply triple_bind; [apply Hw, steady_going; auto with steady calm|]. intros ?.
  eapply triple_bind; [apply Hw, steady_going, steady_tattempt; auto with steady sound|]. intros [u|e].
  - do 3 (eapply triple_bind; [apply Hw, steady_going; auto with steady calm sound|]; intros ?).
    eapply triple_bind; [apply Hw, ends_loop|]. intros ? t Ht. exact Ht.
  - eapply triple_bind; [apply ends_restore_failed|]. by intros ? t.
Qed.

(** The inputs are settled, the error is committed. *)
Lemma failActive_run cause w r w' : turn <> "" -> active w = turn \/ active w = "" ->
  en_executingTurnID (ew_engine w) = turn ->
  failActiveTurnLocked eenv turn cause w = (r, w') ->
  (exists e, r = Ok e) /\ released w' /\ told w'.
Proof.
  intros Hne Ha Hex E. unfold failActiveTurnLocked in E. apply attempt_run in E as (p & w1 & E1 & E).
  apply preserve_loose in E1 as [Ha1 Ho1]. injection Ho1 as O1 _ _.
  destruct (beginTerminal_run turn w1) as (Hte & _ & _ & Hact).
  assert (en_executingTurnID (ew_engine (beginTerminalPublication turn w1).2) = turn) as Hex1.
  { unfold beginTerminalPublication, modify_engine. simpl. destruct (_ =?s _); simpl; congruence. }
  set (w2 := (beginTerminalPublication turn w1).2) in *.
  change (bind (beginTerminalPublication turn) ?k w1) with (k tt w2) in E. cbv beta in E.
  apply attempt_run in E as (x & w3 & E3 & E). injection E as <- <-.
  apply commitError_told in E3 as [[T A _ _ X _] Hto]; [|done].
  split; [by eexists|]. split; [|by right].
  split; [|congruence|done]. rewrite A, Hact. destruct (active w1 =?s turn) eqn:Et; [done|].
  apply bool_decide_eq_false in Et. destruct Ha, Ha1; congruence.
Qed.

Lemma end_logged_log type w w' : ew_log w' = ew_log w -> end_logged type w -> end_logged type w'.
Proof. intros E (ev & ? & ?). exists ev. by rewrite E. Qed.

(** Nothing is told, asked or stored. *)
Definition silent (w w' : EWorld) : Prop :=
  ew_log w' = ew_log w /\ ew_calls w' = ew_calls w /\ ew_queue w' = ew_queue w.

Lemma told_silent w w' : silent w w' -> told w -> told w'.
Proof.
  intros (El & Ec & Eq) [H|[H|(c & w1 & e & w2 & E & H1 & H2 & H3)]];
    [left; by eapply end_logged_log|right; left; by eapply end_logged_log|].
  right. right. exists c, w1, e, w2. split_and!; congruence.
Qed.

Lemma finishActive_released w : released w ->
  released (finishActiveTurn turn w).2 /\ silent w (finishActiveTurn turn w).2.
Proof.
  intros [A E T]. unfold finishActiveTurn, modify_engine, active, terminal in *. simpl.
  split; [|done]. by destruct (_ =?s _).
Qed.

(** The deferred calls of [TurnMessageWithID]. *)
Definition leave (y : result EngineError string) : TM string :=
  do l <- tget;;
  do_ (if tl_activeClosed l then ret tt else on_engine (finishActiveTurn turn));;
  do_ on_engine (finishTurnExecution turn);;
  match y with Ok output => ret output | Err e => fail e end.

Lemma leave_run y t r t' : released (tw_engine t) -> leave y t = (r, t') ->
  r = y /\ silent (tw_engine t) (tw_engine t') /\
  active (tw_engine t') = "" /\ en_executingTurnID (ew_engine (tw_engine t')) = "" /\
  terminal (tw_engine t') = "".
Proof.
  intros Hre E. unfold leave, bind at 1, tget in E.
  assert (exists w, released w /\ silent (tw_engine t) w /\
    tw_engine t' = (finishTurnExecution turn w).2 /\ r = y) as (w & [A X T] & Hs & Ew & ->).
  { destruct (tl_activeClosed (tw_turn t)).
    - exists (tw_engine t). destruct y; by injection E as <- <-.
    - destruct (finishActive_released _ Hre). exists (finishActiveTurn turn (tw_engine t)).2.
      destruct y; by injection E as <- <-. }
  split; [done|]. rewrite Ew. unfold finishTurnExecution, modify_engine, active, terminal in *. simpl.
  by rewrite X, bool_decide_eq_true_2.
Qed.

(** What is done about an error. *)
Definition fail_turn (e : EngineError) : TM (result EngineError string) :=
  do l <- tget;;
  if tl_activeClosed l then ret (Err e)
  else
    do_ (if tl_pendingLifecycleHeld l then ret tt else interlude env);;
    do e' <- on_inputs (failActiveTurnLocked eenv turn e);;
    ret (Err e').

Lemma fail_turn_run e t r t' : stopped t -> fail_turn e t = (r, t') ->
  (exists e', r = Ok (Err e')) /\ released (tw_engine t') /\ told (tw_engine t').
Proof.
  intros Hs E. unfold fail_turn, bind at 1, tget in E.
  assert (closed t /\ told (tw_engine t) \/ running t \/ held t) as [[[Hc Hre] Hto]|Hs'].
  { destruct Hs as [[?|?]|?]; auto. }
  { rewrite Hc in E. injection E as <- <-. split; [by eexists|done]. }
  assert (tl_activeClosed (tw_turn t) = false) as Hopen by (by destruct Hs' as [[]|[]]).
  rewrite Hopen in E. unfold bind at 1 in E.
  assert (exists t1, (if tl_pendingLifecycleHeld (tw_turn t) then ret tt else interlude env) t = (Ok tt, t1) /\
    (running t1 \/ held t1)) as (t1 & Ei & Hs1).
  { destruct Hs' as [Hr|Hh]; [|rewrite (he_held _ Hh); exists t; by auto].
    destruct (tl_pendingLifecycleHeld (tw_turn t)); [exists t; by auto|].
    pose proof (steady_calm _ (calm_interlude env) t Hr) as Hi.
    pose proof (interlude_ok env t (running_active t Hr)) as Hok.
    destruct (interlude env t) as [x t1]. simpl in Hok. subst x. exists t1. split; [done|by left]. }
  rewrite Ei in E. unfold bind, on_inputs in E.
  destruct (failActiveTurnLocked eenv turn e (tw_engine t1)) as [x w2] eqn:E2.
  apply failActive_run in E2 as ((e' & ->) & Hre & Hto); [|destruct Hs1 as [[]|[]]; by auto..].
  injection E as <- <-. split; [by eexists|done].
Qed.

(** What an execution leaves, once the turn holds the engine. *)
Lemma execute_ends fuel message t r t' : turn <> "" -> active (tw_engine t) = turn ->
  en_executingTurnID (ew_engine (tw_engine t)) = turn -> terminal (tw_engine t) = "" ->
  execute_turn env fuel turn message t = (r, t') ->
  active (tw_engine t') = "" /\ en_executingTurnID (ew_engine (tw_engine t')) = "" /\
  terminal (tw_engine t') = "" /\
  match r with Ok _ => end_logged "turn.completed" (tw_engine t') | Err _ => told (tw_engine t') end.
Proof.
  intros Hne Ha Hex Hte E. unfold execute_turn, bind at 1, tmodify in E.
  set (t0 := set_tw_turn new_turn t) in E.
  assert (running t0) as Hr0 by (by split).
  pose proof (ends_run fuel message t0 Hr0) as Hrun.
  unfold bind at 1, tattempt in E. destruct (runLocked env fuel turn message t0) as [[output|e] t1].
  - destruct Hrun as [[_ Hre] Hlog]. unfold bind at 1, ret at 1 in E.
    apply (leave_run (Ok output)) in E as (-> & (L & _) & ? & ? & ?); [|done]. split_and!; try done.
    by eapply end_logged_log.
  - unfold bind at 1 in E. fold (fail_turn e) in E.
    destruct (fail_turn e t1) as [x t2] eqn:E2.
    apply fail_turn_run in E2 as ((e' & ->) & Hre & Hto); [|done].
    apply (leave_run (Err e')) in E as (-> & Hs & ? & ? & ?); [|done]. split_and!; try done.
    by eapply told_silent.
Qed.

End Ends.

(** C5: an idle engine that is given a turn is idle again when the call returns,
    and the end of the turn is known. Whatever the model, the tools, the policies
    and the storage do, and whoever queues inputs meanwhile: no turn is left
    active or executing and no publication of an end is left open. A turn that
    returns a text has committed its completion. One that fails has committed its
    completion or its error, or the last thing it did was a commit of that error
    that failed, or it was not admitted at all. *)
Theorem turn_leaves_engine_idle env fuel message turn t r t' :
  active (tw_engine t) = "" -> en_executingTurnID (ew_engine (tw_engine t)) = "" ->
  TurnMessageWithID env fuel message turn t = (r, t') ->
  active (tw_engine t') = "" /\ en_executingTurnID (ew_engine (tw_engine t')) = "" /\
  terminal (tw_engine t') = terminal (tw_engine t) /\
  match r with
  | Ok _ => end_logged turn "turn.completed" (tw_engine t')
  | Err _ => told env turn (tw_engine t') \/
      exists e, admitTurnMessageForExecution (te_engine env) turn message (tw_engine t) = (Err e, tw_engine t')
  end.
Proof.
  intros Ha Hex E. unfold TurnMessageWithID, bind at 1, on_engine in E.
  destruct (admitTurnMessageForExecution _ turn message (tw_engine t)) as [[m|e] w1] eqn:E1;
    pose proof (execution_admitted _ _ _ _ _ _ E1) as Had.
  - destruct Had as (_ & Ht & Hne & _ & Ha1 & Hex1 & Ht1 & _).
    apply execute_ends in E as (? & ? & ? & Hr); [|done..]. split_and!; [done|done|congruence|].
    destruct r; [done|by left].
  - destruct Had as (Ha1 & Ht1 & Hex1 & _). injection E as <- <-. simpl.
    split_and!; [congruence..|]. right. by eexists.
Qed.
