(* ===== verification/TurnSees.v ===== *)
(** * The turn loop: what the model is shown

    An input that waits when the loop starts, or arrives later, is put into the
    transcript and shown to the model before the turn ends. *)

From S2P Require Import Prelude GoStd Llm Events PendingInputs PendingQueue EngineInput EngineInputFrame EngineInputDrain EngineInputSound EngineInputProps EngineInputAdmission ContextText ToolPolicies ToolBatch ToolBatchProps TurnLoop TurnFrame TurnEnds.

Local Open Scope Z_scope.
Local Open Scope juex_scope.

(** ** Closing without an arrival *)

(** No input arrives or leaves, and the transcript stays. *)
Definition untouched (w w' : EWorld) : Prop :=
  pending w' = pending w /\ ew_arrived w' = ew_arrived w /\ same_thread (ew_queue w) (ew_queue w').

#[export] Instance untouched_preorder : PreOrder untouched.
Proof.
  split; [by intros w|]. intros ??? (P1 & A1 & T1) (P2 & A2 & T2).
  split_and!; [congruence..|by etrans].
Qed.

Definition leaves {A} (m : EM A) : Prop := forall w, untouched w (m w).2.

Lemma leaves_ret {A} (a : A) : leaves (ret a).
Proof. intros w. reflexivity. Qed.
Lemma leaves_fail {A} e : leaves (fail e : EM A).
Proof. intros w. reflexivity. Qed.
Lemma leaves_bind {A B} (m : EM A) (k : A -> EM B) :
  leaves m -> (forall a, leaves (k a)) -> leaves (bind m k).
Proof.
  intros Hm Hk w. unfold bind. specialize (Hm w). destruct (m w) as [[a|e] w1]; [|done].
  etrans; [exact Hm|apply Hk].
Qed.
Lemma leaves_attempt {A} (m : EM A) : leaves m -> leaves (attempt m).
Proof. intros Hm w. unfold attempt. specialize (Hm w). by destruct (m w). Qed.
Lemma leaves_missing : leaves queue_missing.
Proof. intros w. reflexivity. Qed.
Lemma leaves_get : leaves get_engine.
Proof. intros w. reflexivity. Qed.
Lemma leaves_lift {A} (m : M A) : keeps m -> leaves (lift m).
Proof.
  intros Hm w. unfold lift. specialize (Hm (ew_queue w)).
  by destruct (m (ew_queue w)) as [[a|e] q].
Qed.
Lemma leaves_emit env ev : leaves (emit env ev).
Proof. intros w. unfold emit. by destruct (ee_emit env (ew_calls w)). Qed.
Lemma leaves_modify f : (forall en, en_pendingInput (f en) = en_pendingInput en) -> leaves (modify_engine f).
Proof. intros Hf w. split_and!; [apply Hf|done|reflexivity]. Qed.

#[local] Hint Resolve leaves_ret leaves_fail leaves_missing leaves_get leaves_emit : leaves.
#[local] Hint Extern 1 (leaves (lift _)) => (apply leaves_lift; solve [eauto with keeps]) : leaves.
#[local] Hint Extern 1 (leaves (modify_engine _)) =>
  (apply leaves_modify; intros ?; repeat case_match; reflexivity) : leaves.

Ltac leaves_step :=
  match goal with
  | |- leaves (bind _ _) => apply leaves_bind
  | |- leaves (attempt _) => apply leaves_attempt
  | |- forall _, _ => intro
  | |- leaves (match ?x with _ => _ end) => destruct x
  | |- leaves _ => solve [eauto with leaves]
  end.
Ltac solve_leaves := repeat (cbv zeta; leaves_step).

Lemma leaves_recordTurnEnd env completed turn cause : leaves (recordTurnEnd env completed turn cause).
Proof. unfold recordTurnEnd, pendingInputIDsForTurn. solve_leaves. Qed.

Lemma leaves_publish env turn ev : leaves (publishTerminalEvent env turn ev).
Proof. unfold publishTerminalEvent, on_queue, finishTerminalPublication. solve_leaves. Qed.
#[local] Hint Resolve leaves_recordTurnEnd leaves_publish : leaves.

Lemma leaves_finish env turn : leaves (finishOrContinueLocked env turn).
Proof.
  unfold finishOrContinueLocked, activeTurnHasNoPending, commitAndPublishTurnError,
    beginTerminalPublication, finishTerminalPublication.
  solve_leaves.
Qed.

Lemma untouched_extends w w' : untouched w w' -> extends w w'.
Proof. intros (P & A & _). exists []. by rewrite P, A, !app_nil_r. Qed.

Lemma same_thread_ids w w' : same_thread (ew_queue w) (ew_queue w') ->
  message_ids w' = message_ids w /\ (has_thread w -> has_thread w').
Proof.
  intros (_ & Hh & _). unfold message_ids, has_thread. rewrite Hh. split; [done|].
  destruct (w_thread (ew_queue w)), (w_thread (ew_queue w')); naive_solver.
Qed.

Section Sees.
  Context (env : TurnEnv) (turn : string).

Local Abbreviation eenv := (te_engine env).

(** ** Parts that take nothing back *)

(** Inputs go behind those that wait; the transcript grows, unless it is
    replaced. *)
Record carry (t t' : TWorld) : Prop := mkCarry {
  ca_running : running turn t';
  ca_thread : has_thread (tw_engine t');
  ca_extends : extends (tw_engine t) (tw_engine t');
  ca_prepared : forall h, h ∈ tl_prepared (tw_turn t) -> h ∈ tl_prepared (tw_turn t');
  ca_answered : tl_answered (tw_turn t') = tl_answered (tw_turn t);
  ca_ids : tl_replaced (tw_turn t') = false -> tl_replaced (tw_turn t) = false /\
    forall id, id ∈ message_ids (tw_engine t) -> id ∈ message_ids (tw_engine t');
}.

Definition carries {A} (m : TM A) : Prop := forall t, running turn t -> has_thread (tw_engine t) -> carry t (m t).2.

Lemma carry_trans t1 t2 t3 : carry t1 t2 -> carry t2 t3 -> carry t1 t3.
Proof.
  intros [R1 T1 E1 P1 A1 I1] [R2 T2 E2 P2 A2 I2]. split; [done|done|by etrans|auto|congruence|].
  intros Hf. destruct (I2 Hf) as [Hf2 H2]. destruct (I1 Hf2) as [Hf1 H1]. split; [done|auto].
Qed.

Lemma carries_bind {A B} (m : TM A) (k : A -> TM B) :
  carries m -> (forall a, carries (k a)) -> carries (bind m k).
Proof.
  intros Hm Hk t Ht Hth. unfold bind. specialize (Hm t Ht Hth). destruct (m t) as [[a|e] t1]; [|done].
  eapply carry_trans; [exact Hm|]. apply Hk; apply Hm.
Qed.

Lemma carries_tattempt {A} (m : TM A) : carries m -> carries (tattempt m).
Proof. intros Hm t Ht Hth. unfold tattempt. specialize (Hm t Ht Hth). by destruct (m t). Qed.

(** The engine and the lifecycle, but for the fields [carry] looks at. *)
Lemma carry_turn t l : running turn t -> has_thread (tw_engine t) -> tl_activeClosed l = false ->
  (forall h, h ∈ tl_prepared (tw_turn t) -> h ∈ tl_prepared l) ->
  tl_answered l = tl_answered (tw_turn t) -> (tl_replaced l = false -> tl_replaced (tw_turn t) = false) ->
  carry t (set_tw_turn l t).
Proof.
  intros Hr Hth Hc Hp Ha Hf. split; simpl; [|done|reflexivity|done|done|auto].
  refine (running_holders turn t _ _ _ Hr); [done|]. by rewrite (ru_open _ _ Hr).
Qed.

Lemma carries_calm {A} (m : TM A) : calm m -> carries m.
Proof.
  intros Hm t Ht Hh. destruct (Hm t (running_active _ _ Ht)) as [Hg Hl].
  destruct (same_thread_ids _ _ (gr_thread _ _ Hg)) as [Hi Hth].
  split; [|auto|apply (gr_pending _ _ Hg)|by rewrite Hl|by rewrite Hl|rewrite Hl, Hi; auto].
  refine (running_holders turn t _ _ _ Ht); [by apply grows_holders|by rewrite Hl].
Qed.

Lemma set_records_ids events h w : has_thread w ->
  message_ids (set_records events h w) = map m_ID h /\ has_thread (set_records events h w).
Proof. intros [th Hth]. unfold set_records, message_ids, has_thread. rewrite Hth. simpl. by split. Qed.

Lemma set_records_extends events h w : extends w (set_records events h w).
Proof. exists []. unfold set_records. rewrite !app_nil_r. by destruct (w_thread (ew_queue w)). Qed.

(** A new history behind the old one. *)
Lemma carry_records t l events h : running turn t -> has_thread (tw_engine t) ->
  tl_activeClosed l = false -> tl_prepared l = tl_prepared (tw_turn t) ->
  tl_answered l = tl_answered (tw_turn t) ->
  (tl_replaced l = false -> tl_replaced (tw_turn t) = false /\ tw_history t `prefix_of` h) ->
  carry t (mkTWorld (set_records events h (tw_engine t)) l).
Proof.
  intros Hr Hth Hc Hp Ha Hf. destruct (set_records_ids events h (tw_engine t) Hth) as [Hi Hth'].
  split; simpl; [|done|apply set_records_extends|by rewrite Hp|done|].
  - refine (running_holders turn t _ _ _ Hr); [apply set_records_holders|]. by rewrite (ru_open _ _ Hr).
  - intros Hl. destruct (Hf Hl) as [? [l' ->]]. split; [done|]. rewrite Hi.
    change (message_ids (tw_engine t)) with (map m_ID (tw_history t)). intros id. rewrite map_app. set_solver.
Qed.

Lemma carries_modify f :
  (forall l, tl_activeClosed (f l) = tl_activeClosed l /\ tl_prepared (f l) = tl_prepared l /\
             tl_answered (f l) = tl_answered l /\ tl_replaced (f l) = tl_replaced l) ->
  carries (tmodify f).
Proof.
  intros Hf t Ht Hth. destruct (Hf (tw_turn t)) as (H1 & H2 & H3 & H4).
  apply carry_turn; [done|done|rewrite H1; apply Ht|by rewrite H2|done|by rewrite H4].
Qed.

Lemma carries_replace h : carries (replace_history h).
Proof.
  intros t Ht Hth. apply carry_records; [done|done|apply Ht|done|done|done].
Qed.

#[local] Hint Resolve carries_replace carries_calm calm_ret : carries.
#[local] Hint Extern 1 (carries (tmodify _)) =>
  (apply carries_modify; intros; split_and!; reflexivity) : carries.
#[local] Hint Extern 2 (carries (on_engine _)) =>
  (apply carries_calm, calm_on_engine; solve [eauto with quiet keeps]) : carries.

Ltac carries_step :=
  match goal with
  | |- carries (bind _ _) => apply carries_bind
  | |- carries (tattempt _) => apply carries_tattempt
  | |- forall _, _ => intro
  | |- carries (match ?x with _ => _ end) => destruct x
  | |- carries _ => solve [eauto with carries calm]
  end.
Ltac solve_carries := repeat (cbv zeta; carries_step).

Lemma carries_compact : carries (compact env).
Proof. unfold compact. solve_carries. Qed.
#[local] Hint Resolve carries_compact : carries.

Lemma carries_request_failed cancelled overflow retryable :
  carries (request_failed env turn cancelled overflow retryable).
Proof. unfold request_failed. solve_carries. Qed.

Lemma carries_append ms : carries (on_engine (fun w => (Ok tt, append_messages ms w))).
Proof.
  intros t Ht Hth. unfold on_engine, append_messages. pose proof Hth as [th Eth]. rewrite Eth. simpl.
  apply carry_records; [done|done|apply Ht|done|done|]. intros Hf. split; [done|].
  unfold tw_history. rewrite Eth. by exists ms.
Qed.
#[local] Hint Resolve carries_append : carries.

Lemma carries_record iter notice m : carries (recordProviderResponseLocked env iter notice m).
Proof.
  unfold recordProviderResponseLocked. cbv zeta.
  apply carries_bind; [destruct (m_ID m =?s ""); eauto with carries|]. intros id.
  apply carries_bind.
  { intros t Ht Hth. by apply carry_turn; [done|done|apply Ht|..]. }
  solve_carries.
Qed.

(** The moves of a batch add to the history. *)
Lemma act_prefix {A} (p : Proc A) c s a p' s' : act p c s = Some (a, p', s') ->
  bt_history s `prefix_of` bt_history s'.
Proof.
  intros (k & y & j & h & -> & _ & E & ->)%act_Some. simpl.
  destruct a; try (apply perform_ask in E as [_ ->]; done).
  - by apply perform_emit in E as (-> & _).
  - apply perform_append in E as (_ & [-> | ->] & _); [done|by apply prefix_app_r].
Qed.

Lemma step_prefix benv execs m s s' : step_fn benv execs m s = Some s' ->
  bt_history s `prefix_of` bt_history s'.
Proof.
  intros E. unfold step_fn in E. destruct m as [e|c|i c|].
  - destruct (foreign e); [|done]. by injection E as <-.
  - destruct (bt_stage s); try done;
      (destruct (act _ c s) as [[[a p'] s0]|] eqn:Ea; [|done]); injection E as <-; by apply act_prefix in Ea.
  - destruct (bt_stage s) as [|l| |]; try done. destruct (l !! i); [|done]. destruct (may_move _ _ _ _); [|done].
    destruct (act _ c s) as [[[a p'] s0]|] eqn:Ea; [|done]. injection E as <-. by apply act_prefix in Ea.
  - destruct (bt_stage s) as [[[e|]|]|l|[l|]|]; try done; try by injection E as <-.
    destruct (mapM result_of l); [|done]. by injection E as <-.
Qed.

Lemma play_prefix benv execs moves : forall s,
  bt_history s `prefix_of` bt_history (play_moves benv execs moves s).
Proof.
  induction moves as [|m moves IH]; intros s; [done|]. cbn [play_moves foldl].
  etrans; [|apply IH]. destruct (step_fn benv execs m s) as [s'|] eqn:E; [|done]. by eapply step_prefix.
Qed.

Lemma carries_batch recorded : carries (run_batch env turn recorded).
Proof.
  unfold run_batch. apply carries_bind; [eauto with carries|]. intros fresh.
  apply carries_bind; [eauto with carries calm|]. intros moves t Ht Hth.
  pose proof Hth as [th Eth]. rewrite Eth. cbv zeta. simpl.
  apply carry_records; [done|done|apply Ht|done|done|]. intros Hf. split; [done|].
  apply (play_prefix (set_batch turn fresh (te_tools env)) (executions recorded) moves
    (recordToolBatchLocked _ recorded (tw_journal t) (tw_history t))).
Qed.

#[local] Hint Resolve carries_record carries_batch carries_request_failed : carries.

Lemma finish_carries t r w' : running turn t -> has_thread (tw_engine t) ->
  finishOrContinueLocked eenv turn (tw_engine t) = (r, w') ->
  untouched (tw_engine t) w' /\ (r = Ok true -> pending w' = []).
Proof.
  intros Hr Hth E. pose proof (leaves_finish eenv turn (tw_engine t)) as Hl. rewrite E in Hl. simpl in Hl.
  split; [done|]. intros ->. destruct Hl as [-> _].
  unfold finishOrContinueLocked, activeTurnHasNoPending, bind at 1 2, get_engine, ret at 1 in E.
  fold (active (tw_engine t)) (pending (tw_engine t)) in E. rewrite (ru_active _ _ Hr) in E.
  rewrite bool_decide_eq_true_2 in E by done. simpl in E. by destruct (pending (tw_engine t)).
Qed.

(** ** Which inputs the model has been shown *)

Section Tracked.
  Context (w0 : EWorld).

(** The inputs that waited at the start, and those that arrived since. *)
Definition inputs_since (w : EWorld) : list queuedPendingInput := pending w0 ++ arrived_since w0 w.

Definition prepared (t : TWorld) (it : queuedPendingInput) : Prop :=
  exists h, h ∈ tl_prepared (tw_turn t) /\ item_id it ∈ map m_ID h.

Definition present (t : TWorld) (it : queuedPendingInput) : Prop :=
  tl_replaced (tw_turn t) = false -> item_id it ∈ message_ids (tw_engine t).

Definition shown (t : TWorld) (it : queuedPendingInput) : Prop :=
  prepared t it /\
  (tl_replaced (tw_turn t) = false ->
   exists h, tl_answered (tw_turn t) = Some h /\ item_id it ∈ map m_ID h).

Definition drained_now (t : TWorld) (it : queuedPendingInput) : Prop :=
  prepared t it \/ item_id it ∈ message_ids (tw_engine t).

(** Every input waits, or is present and in the state [S]. *)
Record tracks (S : TWorld -> queuedPendingInput -> Prop) (t : TWorld) : Prop := mkTracks {
  tr_running : running turn t;
  tr_thread : has_thread (tw_engine t);
  tr_prefix : ew_arrived w0 `prefix_of` ew_arrived (tw_engine t);
  tr_pending : named (inputs_since (tw_engine t)) ->
    forall it, it ∈ pending (tw_engine t) -> it ∈ inputs_since (tw_engine t);
  tr_items : named (inputs_since (tw_engine t)) -> forall it, it ∈ inputs_since (tw_engine t) ->
    it ∈ pending (tw_engine t) \/ S t it /\ present t it;
}.

Lemma since_extends w w' arrived : ew_arrived w0 `prefix_of` ew_arrived w ->
  ew_arrived w' = ew_arrived w ++ arrived -> inputs_since w' = inputs_since w ++ arrived.
Proof.
  intros Hp E. unfold inputs_since. by rewrite (arrived_since_step w0 w w' arrived), app_assoc.
Qed.

Lemma tracks_carry (S S' : TWorld -> queuedPendingInput -> Prop) t t' : tracks S t ->
  running turn t' -> has_thread (tw_engine t') -> extends (tw_engine t) (tw_engine t') ->
  (tl_replaced (tw_turn t') = false -> tl_replaced (tw_turn t) = false /\
    forall id, id ∈ message_ids (tw_engine t) -> id ∈ message_ids (tw_engine t')) ->
  (forall it, S t it -> present t it -> S' t' it) -> tracks S' t'.
Proof.
  intros [Hr Hth Hp Hsub Hit] Hr' Hth' (arrived & Ep & Ea) Hids HS.
  pose proof (since_extends _ _ _ Hp Ea) as Es.
  split; [done|done|rewrite Ea; by apply prefix_app_r| |].
  - rewrite Es. intros Hn it. apply Forall_app in Hn as [Hn _].
    rewrite Ep, !elem_of_app. intros [?|?]; auto.
  - rewrite Es. intros Hn it [Hin|Hin]%elem_of_app; [|left; rewrite Ep; set_solver].
    apply Forall_app in Hn as [Hn _]. destruct (Hit Hn it Hin) as [?|[Hs Hpr]]; [left; rewrite Ep; set_solver|].
    right. split; [by apply HS|]. intros Hf. destruct (Hids Hf) as [Hf0 Hi]. by apply Hi, Hpr.
Qed.

Definition anyway : TWorld -> Prop := fun _ => True.

(** A part that takes nothing back, where [S] depends on nothing else. *)
Lemma triple_carries {A} S (m : TM A) : carries m ->
  (forall t t' it, carry t t' -> S t it -> S t' it) -> triple anyway (tracks S) m (fun _ => tracks S).
Proof.
  intros Hm HS t Ht. destruct (Hm t (tr_running _ _ Ht) (tr_thread _ _ Ht)) as [] eqn:Ec. clear Ec.
  pose proof (Hm t (tr_running _ _ Ht) (tr_thread _ _ Ht)) as Hc.
  destruct (m t) as [[a|e] t']; [|done]. simpl in *.
  eapply tracks_carry; [exact Ht|done..|]. intros it Hs _. by eapply HS.
Qed.

Lemma prepared_carry t t' it : carry t t' -> prepared t it -> prepared t' it.
Proof. intros Hc (h & Hh & Hi). exists h. split; [by apply Hc|done]. Qed.

Lemma shown_carry t t' it : carry t t' -> shown t it -> shown t' it.
Proof.
  intros Hc [Hp Ha]. split; [by eapply prepared_carry|]. intros Hf.
  rewrite (ca_answered _ _ Hc). apply Ha. by destruct (ca_ids _ _ Hc Hf).
Qed.
#[local] Hint Resolve prepared_carry shown_carry : carries.

(** *** The drain *)

Lemma tracks_drain : triple anyway (tracks prepared)
  (on_inputs (drainPendingInputLocked eenv turn)) (fun _ => tracks drained_now).
Proof.
  intros t [Hr Hth Hp Hsub Hit]. unfold on_inputs.
  destruct (drainPendingInputLocked eenv turn (tw_engine t)) as [[[]|e] w'] eqn:E; [|done].
  set (t' := set_tw_turn _ _).
  pose proof (sound_drainPending eenv turn (tw_engine t)) as [[Hho _] _].
  pose proof (writes_drain eenv turn (tw_engine t)) as Hw. rewrite E in Hho, Hw. simpl in Hho, Hw.
  unfold drainPendingInputLocked in E. apply bind_run in E as [(c & w1 & E1 & E)|(e & _ & ?)]; [|done].
  destruct c; [done|]. unfold draw_outcome in E1. injection E1 as _ <-. set (w1 := mkEWorld _ _ _ _ _ _) in E.
  pose proof (sound_drain eenv turn w1) as [Ht1 _]. rewrite E in Ht1. simpl in Ht1.
  pose proof (tight_prefix _ _ Ht1) as [arrived Ea].
  pose proof (since_extends (tw_engine t) w' arrived Hp Ea) as Es.
  assert (named (inputs_since w') -> round w1 w' /\ named (inputs_since (tw_engine t))) as Hround.
  { intros Hn. rewrite Es in Hn. apply Forall_app in Hn as [Hn _]. split; [|done].
    eapply drain_round; [exact Hth| |exact E]. eapply named_sub; [|exact Hn]. by apply Hsub. }
  assert (named (inputs_since w') -> pending w' = arrived) as Hpe.
  { intros Hn. destruct (Hround Hn) as [[_ _ _ Hpe _] _]. rewrite Hpe. by apply arrived_since_app. }
  split.
  - by refine (running_holders turn t t' Hho _ Hr).
  - by eapply appends_thread.
  - change (tw_engine t') with w'. rewrite Ea. by apply prefix_app_r.
  - change (tw_engine t') with w'. intros Hn it. rewrite (Hpe Hn), Es. set_solver.
  - change (tw_engine t') with w'. intros Hn it Hin. destruct (Hround Hn) as [[_ _ _ _ Hids] Hn0].
    rewrite Es in Hin. apply elem_of_app in Hin as [Hin|Hin]; [|left; by rewrite (Hpe Hn)]. right.
    change (message_ids w' = deliver (message_ids (tw_engine t)) (item_ids (pending (tw_engine t)))) in Hids.
    unfold drained_now, present. change (tw_engine t') with w'. rewrite Hids, deliver_elem.
    destruct (Hit Hn0 it Hin) as [Hpd|[Hs Hpr]].
    + assert (item_id it ∈ item_ids (pending (tw_engine t))) by (by apply list_elem_of_fmap_2). tauto.
    + split; [by left|]. intros Hf. left. by apply Hpr.
Qed.

(** *** The history variables *)

Lemma note_carry f t S S' : tracks S t ->
  (forall h l, tl_activeClosed (f h l) = tl_activeClosed l /\ tl_replaced (f h l) = tl_replaced l) ->
  (forall it, S t it -> present t it -> S' (note f t).2 it) -> tracks S' (note f t).2.
Proof.
  intros Ht Hf HS. pose proof Ht as [Hr Hth _ _ _]. destruct (Hf (tw_history t) (tw_turn t)) as [H1 H2].
  apply (tracks_carry S S' t); [done| |done|reflexivity| |done].
  - by refine (running_holders turn t _ _ _ Hr).
  - simpl. by rewrite H2.
Qed.

Lemma tracks_prepared : triple anyway (tracks drained_now) (note with_prepared) (fun _ => tracks prepared).
Proof.
  intros t Ht. apply (note_carry _ t drained_now prepared); [done..|]. intros it [(h & Hh & Hi)|Hi] _.
  - exists h. simpl. rewrite elem_of_app. auto.
  - exists (tw_history t). simpl. rewrite elem_of_app, list_elem_of_singleton. auto.
Qed.

Lemma tracks_answered : triple anyway (tracks prepared) (note with_answered) (fun _ => tracks shown).
Proof.
  intros t Ht. apply (note_carry _ t prepared shown); [done..|]. intros it Hs Hpr.
  split; [exact Hs|]. intros Hf. exists (tw_history t). split; [done|]. by apply Hpr.
Qed.

(** *** The end *)

Definition all_shown (t : TWorld) : Prop := named (inputs_since (tw_engine t)) ->
  forall it, it ∈ inputs_since (tw_engine t) -> shown t it.

Definition onward (t : TWorld) : Prop :=
  tl_activeClosed (tw_turn t) = false /\ tracks prepared t \/
  tl_activeClosed (tw_turn t) = true /\ all_shown t.

Lemma tracks_weaken S S' t : tracks S t -> (forall it, S t it -> S' t it) -> tracks S' t.
Proof.
  intros Ht HS. apply (tracks_carry S S' t t Ht); [apply Ht|apply Ht|reflexivity|auto|auto].
Qed.

Lemma shown_onward t : tracks shown t -> onward t.
Proof.
  intros Ht. left. split; [apply (ru_open _ _ (tr_running _ _ Ht))|].
  eapply tracks_weaken; [exact Ht|]. by intros it [].
Qed.

Lemma tracks_open output t : tracks shown t ->
  tracks shown (set_tw_turn (with_closed false (with_lastText output (tw_turn t))) t).
Proof.
  intros Ht. apply (tracks_carry shown shown t); [done| |apply Ht|reflexivity|auto|auto].
  refine (running_holders turn t _ _ _ (tr_running _ _ Ht)); [done|]. simpl.
  by rewrite (ru_open _ _ (tr_running _ _ Ht)).
Qed.

Lemma sees_finish output : triple anyway (tracks shown) (finish_turn env turn output) (fun _ => onward).
Proof.
  unfold finish_turn. eapply triple_bind; [apply triple_carries; eauto with carries calm|].
  intros ? t Ht. unfold bind at 1, tattempt, on_engine.
  destruct (finishOrContinueLocked eenv turn (tw_engine t)) as [r w'] eqn:E.
  destruct (finish_carries t r w' (tr_running _ _ Ht) (tr_thread _ _ Ht) E) as [Hu Hnil].
  pose proof (finishOrContinue_run env turn t r w' (tr_running _ _ Ht) E) as Hr.
  destruct r as [[]|e]; simpl; [| |done].
  - right. split; [done|]. intros Hn it Hin. destruct Hu as (Hp & Ha & Hth).
    assert (inputs_since w' = inputs_since (tw_engine t)) as Es by (unfold inputs_since, arrived_since; by rewrite Ha).
    change (tw_engine _) with w' in Hn, Hin. rewrite Es in Hn, Hin.
    destruct (tr_items _ _ Ht Hn it Hin) as [Hpd|[Hs _]]; [|exact Hs].
    rewrite <- Hp, (Hnil eq_refl) in Hpd. by apply not_elem_of_nil in Hpd.
  - subst w'. apply shown_onward. exact (tracks_open output t Ht).
Qed.

Lemma sees_calm {A} (m : TM A) : calm m -> triple anyway (tracks shown) m (fun _ => tracks shown).
Proof. intros Hm. apply triple_carries; eauto with carries. Qed.

Lemma sees_policy output : triple anyway (tracks shown) (applyFinishPolicyLocked env turn output) (fun _ => onward).
Proof.
  apply triple_policy; [done|apply @sees_calm|apply sees_finish|intros; apply quiet_continuation|].
  intros t Ht. apply shown_onward. by apply tracks_open.
Qed.

Lemma sees_transition : triple anyway (tracks shown) (apply_transition env turn) (fun _ => onward).
Proof.
  apply triple_transition; [done|apply @sees_calm|apply sees_finish|apply shown_onward|].
  intros n h _. apply triple_carries; eauto with carries.
Qed.

(** ** The loop *)

Lemma sees_iteration iter : triple anyway (tracks prepared)
  (runProviderIterationLocked env turn iter) (fun _ => onward).
Proof.
  assert (forall m : TM unit, carries m -> triple anyway (tracks prepared) m (fun _ => tracks prepared)) as Hc.
  { intros m Hm. apply triple_carries; eauto with carries. }
  assert (forall A (m : TM A), calm m -> triple anyway (tracks drained_now) m (fun _ => tracks drained_now)) as Hd.
  { intros A m Hm t Ht. destruct (Hm t (running_active _ _ (tr_running _ _ Ht))) as [Hg Hl].
    pose proof (carries_calm m Hm t (tr_running _ _ Ht) (tr_thread _ _ Ht)) as Hca.
    destruct (m t) as [[a|e] t']; [|done]. simpl in *. destruct (same_thread_ids _ _ (gr_thread _ _ Hg)) as [Hi _].
    apply (tracks_carry drained_now drained_now t); [done|apply Hca..|].
    intros it [Hpr|Hin] _; [left; by eapply prepared_carry|right; by rewrite Hi]. }
  unfold runProviderIterationLocked.
  do 2 (eapply triple_bind; [apply Hc; eauto with carries calm|]; intros ?).
  eapply triple_bind; [apply tracks_drain|]. intros ?.
  do 2 (eapply triple_bind; [apply Hd; eauto with calm|]; intros ?).
  eapply triple_bind; [apply Hd; match goal with |- calm (if ?b then _ else _) => destruct b end; eauto with calm|]. intros ?.
  eapply triple_bind; [apply tracks_prepared|]. intros ?.
  eapply triple_bind; [apply Hc; eauto with carries calm|]. intros ?.
  eapply triple_bind; [apply triple_carries; eauto with carries calm|]. intros [replaced outcome]. simpl.
  eapply triple_bind; [apply Hc; destruct replaced; eauto with carries|]. intros ?.
  eapply (triple_bind _ _ _ (fun _ => tracks prepared)).
  { intros t Ht. apply (note_carry _ t prepared prepared); by intros. }
  intros ?. destruct outcome as [notice m|cancelled overflow retryable].
  - eapply triple_bind; [apply tracks_answered|]. intros ?.
    do 3 (eapply triple_bind; [apply triple_carries; eauto with carries calm|]; intros ?).
    destruct (rp_toolCalls _); [apply sees_policy|].
    do 2 (eapply triple_bind; [apply triple_carries; eauto with carries calm|]; intros ?).
    apply sees_transition.
  - intros t Ht. pose proof (Hc _ (carries_request_failed cancelled overflow retryable) t Ht) as Hr.
    destruct (request_failed _ _ _ _ _ t) as [[u|e] t']; [|done]. left.
    split; [apply (ru_open _ _ (tr_running _ _ Hr))|done].
Qed.

Lemma sees_loop fuel : forall iter, triple anyway (tracks prepared)
  (turn_loop env fuel turn iter) (fun _ => all_shown).
Proof.
  induction fuel as [|fuel IH]; intros iter; cbn [turn_loop]; [by apply triple_fail|].
  eapply triple_bind; [apply sees_iteration|]. intros ? t [[Hc Ht]|[Hc Ha]];
    unfold bind at 1, tget; rewrite Hc; [by apply IH|exact Ha].
Qed.

End Tracked.

End Sees.

(** C4: the model is shown every input before the turn ends. When the loop of a
    turn returns without an error, each input that waited when it started and each
    that arrived while it ran is in the transcript that some request was prepared
    from; and if nothing replaced the history meanwhile (no compaction, no new
    context), it is in that of the last request the model answered. This
    holds whatever callers queue inputs and whenever, across tools, failed
    requests and continuations. *)
Theorem provider_sees_every_input env turn fuel iter t t' it :
  running turn t -> tw_turn t = new_turn -> has_thread (tw_engine t) ->
  turn_loop env fuel turn iter t = (Ok tt, t') ->
  named (pending (tw_engine t) ++ arrived_since (tw_engine t) (tw_engine t')) ->
  it ∈ pending (tw_engine t) ++ arrived_since (tw_engine t) (tw_engine t') ->
  (exists h, h ∈ tl_prepared (tw_turn t') /\ item_id it ∈ map m_ID h) /\
  (tl_replaced (tw_turn t') = false ->
   exists h, tl_answered (tw_turn t') = Some h /\ item_id it ∈ map m_ID h).
Proof.
  intros Hr _ Hth E Hn Hin.
  assert (tracks turn (tw_engine t) prepared t) as Ht.
  { split; [done..| |]; unfold inputs_since; rewrite (arrived_since_app (tw_engine t) (tw_engine t) []), app_nil_r
      by (by rewrite app_nil_r); auto. }
  pose proof (sees_loop env turn (tw_engine t) fuel iter t Ht) as Hs. rewrite E in Hs.
  by apply (Hs Hn it Hin).
Qed.
