(* ===== verification/TurnStops.v ===== *)
(** * The turn loop: when it stops

    The loop has no bound of its own. It asks at the start of every round whether
    the turn was cancelled, and every round asks something ([later]). *)

From S2P Require Import Prelude GoStd Llm Events PendingInputs PendingQueue EngineInput EngineInputFrame EngineInputDrain EngineInputSound EngineInputProps EngineInputAdmission ContextText ToolPolicies ToolBatch TurnLoop TurnFrame TurnEnds.

Local Open Scope Z_scope.
Local Open Scope juex_scope.

(** ** Outcomes are drawn one after the other *)

Definition later {A} (m : EM A) : Prop := forall w, (ew_calls w <= ew_calls (m w).2)%nat.

Lemma later_ret {A} (a : A) : later (ret a).
Proof. intros w. reflexivity. Qed.
Lemma later_fail {A} e : later (fail e : EM A).
Proof. intros w. reflexivity. Qed.
Lemma later_bind {A B} (m : EM A) (k : A -> EM B) :
  later m -> (forall a, later (k a)) -> later (bind m k).
Proof.
  intros Hm Hk w. unfold bind. specialize (Hm w). destruct (m w) as [[a|e] w1]; [|done].
  specialize (Hk a w1). simpl in *. lia.
Qed.
Lemma later_attempt {A} (m : EM A) : later m -> later (attempt m).
Proof. intros Hm w. unfold attempt. specialize (Hm w). by destruct (m w). Qed.
Lemma later_get : later get_engine.
Proof. intros w. reflexivity. Qed.
Lemma later_missing : later queue_missing.
Proof. intros w. reflexivity. Qed.
Lemma later_has id : later (threadHasMessageID id).
Proof. intros w. reflexivity. Qed.
Lemma later_modify f : later (modify_engine f).
Proof. intros w. reflexivity. Qed.
Lemma later_queue_input it : later (queue_input it).
Proof. intros w. reflexivity. Qed.
Lemma later_window : later next_window.
Proof. intros w. reflexivity. Qed.
Lemma later_draw {A} (f : nat -> A) : later (draw_outcome f).
Proof. intros w. simpl. lia. Qed.
Lemma later_lift {A} (m : M A) : later (lift m).
Proof. intros w. unfold lift. by destruct (m (ew_queue w)) as [[a|e] q]. Qed.
Lemma later_emit env ev : later (emit env ev).
Proof. intros w. unfold emit. destruct (ee_emit env (ew_calls w)); simpl; lia. Qed.

#[export] Hint Resolve later_ret later_fail later_get later_missing later_has later_modify
  later_queue_input later_window later_draw later_lift later_emit : later.

Ltac head_of m := lazymatch m with ?f _ => head_of f | _ => m end.

(** Walks a method, and into the methods it calls. *)
Ltac later_step :=
  match goal with
  | |- later (bind _ _) => apply later_bind
  | |- later (attempt _) => apply later_attempt
  | |- forall _, _ => intro
  | |- later (match ?x with _ => _ end) => destruct x
  | |- later _ => solve [eauto with later]
  | |- later ?m => let h := head_of m in unfold h
  end.
Ltac solve_later := repeat (cbv zeta; later_step).

Section Engine.
  Context (env : EngineEnv).

Lemma later_arrivals l : later (arrivals env l).
Proof. induction l as [|a l IH]; cbn [arrivals]; solve_later. Qed.
#[local] Hint Resolve later_arrivals : later.

Lemma later_emit_all l : later (emit_all env l).
Proof. induction l as [|a l IH]; cbn [emit_all]; solve_later. Qed.
#[local] Hint Resolve later_emit_all : later.

Lemma later_flush : later (flushPendingEvents env).
Proof.
  intros w. unfold flushPendingEvents. generalize (length (ew_windows w) + 2)%nat as fuel.
  intros fuel. revert w. change (later (flush_loop env fuel)).
  induction fuel as [|fuel IH]; cbn [flush_loop]; solve_later.
Qed.
#[local] Hint Resolve later_flush : later.

Lemma later_append m e : later (append_to_thread env m e).
Proof.
  unfold append_to_thread. apply later_bind; [solve_later|]. intros id w.
  destruct (ee_append env (ew_calls w)); simpl; lia.
Qed.
#[local] Hint Resolve later_append : later.

Lemma later_commit_items turn its : forall l, later (commit_items env turn its l).
Proof. induction its as [|it its IH]; intros l; cbn [commit_items]; solve_later. Qed.
#[local] Hint Resolve later_commit_items : later.

Lemma later_sequence turn l : forall q, later (commit_sequence env turn l q).
Proof. induction l as [|it l IH]; intros q; cbn [commit_sequence]; solve_later. Qed.
#[local] Hint Resolve later_sequence : later.

Lemma later_drain turn : later (drainPendingInputLocked env turn).
Proof. solve_later. Qed.

Lemma later_preserve turn : later (preservePendingInputAfterFailureLocked env turn).
Proof.
  intros w. unfold preservePendingInputAfterFailureLocked. generalize (length (ew_windows w) + 2)%nat as fuel.
  generalize false as repaired. intros repaired fuel. revert repaired w.
  change (forall repaired, later (preserve_loop env fuel repaired turn)).
  induction fuel as [|fuel IH]; intros repaired; cbn [preserve_loop]; solve_later.
Qed.
#[local] Hint Resolve later_preserve : later.

Lemma later_admit turn m : later (admitTurnMessage env turn m).
Proof. solve_later. Qed.
#[local] Hint Resolve later_admit : later.

Lemma later_receive_new rounds msg req : later (receive_new env rounds msg req).
Proof. induction rounds as [|k IH]; cbn [receive_new]; solve_later. Qed.

Lemma later_receive_persisted rounds record : later (receive_persisted env rounds record).
Proof. induction rounds as [|k IH]; cbn [receive_persisted]; solve_later. Qed.
#[local] Hint Resolve later_receive_new later_receive_persisted : later.

Lemma later_take request : later (take_retried env request).
Proof.
  unfold take_retried. cbv zeta. destruct (_ =?s _); [solve_later|]. destruct (_ <>?s _); [solve_later|].
  apply later_bind; [solve_later|]. intros st. destruct (_ <>?s _); [solve_later|].
  apply later_bind; [solve_later|]. intros []; [solve_later|].
  apply later_bind; [|intros []; solve_later]. intros w.
  by destruct (retryTurnInputs _ _ _) as [[l e] q].
Qed.
#[local] Hint Resolve later_take : later.

Lemma later_receive request : later (ReceivePendingInput env request).
Proof. solve_later. Qed.

Lemma later_finish turn : later (finishOrContinueLocked env turn).
Proof. solve_later. Qed.

Lemma later_continuation prompt : later (enqueueContinuation env prompt).
Proof. solve_later. Qed.

End Engine.

#[export] Hint Resolve later_drain later_receive later_finish later_continuation : later.

(** ** Errors of the engine *)

Section Errors.
  Context (env : EngineEnv).

Definition honest {A} (m : EM A) : Prop := forall w, EngineInputSound.plain_result (m w).1 = true.

Lemma honest_sound {A} (m : EM A) : sound m -> honest m.
Proof. intros Hm w. apply Hm. Qed.

Lemma honest_total {A} (m : EM A) : total m -> honest m.
Proof. intros Hm w. by destruct (Hm w) as [a ->]. Qed.

Lemma honest_bind {A B} (m : EM A) (k : A -> EM B) :
  honest m -> (forall a, honest (k a)) -> honest (bind m k).
Proof.
  intros Hm Hk w. unfold bind. specialize (Hm w). destruct (m w) as [[a|e] w1]; [|done]. apply Hk.
Qed.

Lemma honest_attempt {A B} (m : EM A) (k : result EngineError A -> EM B) :
  honest m -> (forall r, EngineInputSound.plain_result r = true -> honest (k r)) ->
  honest (bind (attempt m) k).
Proof.
  intros Hm Hk w. unfold bind, attempt. specialize (Hm w). destruct (m w) as [r w1]. by apply Hk.
Qed.

#[local] Hint Resolve honest_sound honest_total : honest.

Lemma honest_modify f : honest (modify_engine f).
Proof. by intros w. Qed.
#[local] Hint Resolve honest_modify : honest.

Lemma honest_record completed turn cause : honest (recordTurnEnd env completed turn cause).
Proof. apply honest_sound. unfold recordTurnEnd, pendingInputIDsForTurn. solve_sound. Qed.

Lemma honest_publish turn ev : honest (publishTerminalEvent env turn ev).
Proof.
  unfold publishTerminalEvent. apply honest_attempt; [auto with honest sound|]. intros r Hr.
  apply honest_bind; [apply honest_modify|]. intros _ w. by destruct r.
Qed.

Lemma honest_commitError turn cause : honest (commitAndPublishTurnError env turn cause).
Proof.
  unfold commitAndPublishTurnError. apply honest_attempt; [apply honest_record|].
  intros [ev|e] Hr; [apply honest_publish|]. apply honest_bind; [apply honest_modify|]. by intros _ w.
Qed.

Lemma honest_finish turn : honest (finishOrContinueLocked env turn).
Proof.
  unfold finishOrContinueLocked, activeTurnHasNoPending.
  apply honest_bind; [apply honest_sound; solve_sound|]. intros idle.
  destruct (negb idle); [by intros w|]. apply honest_bind; [apply honest_modify|]. intros _.
  apply honest_attempt; [apply honest_record|]. intros [ev|e] Hr.
  - apply honest_bind; [apply honest_publish|]. by intros _ w.
  - apply honest_attempt; [apply honest_commitError|]. intros p Hp w. by apply plain_join.
Qed.

Lemma total_enqueue m opts : total (enqueuePendingMessageWithOptions env m opts).
Proof.
  assert (forall A (f : nat -> A), total (draw_outcome f)) as Hd by (intros A f w; by eexists).
  assert (total queue_missing) as Hm by (intros w; by eexists).
  assert (forall it, total (queue_input it)) as Hq by (intros it w; by eexists).
  pose proof (total_stage). pose proof (total_flush env).
  unfold enqueuePendingMessageWithOptions, enqueue_message, publish_staged. solve_total.
Qed.

Lemma honest_continuation prompt : honest (enqueueContinuation env prompt).
Proof.
  unfold enqueueContinuation. apply honest_bind; [auto with honest sound|]. intros en.
  destruct (_ && _); [by intros w|]. intros w. unfold bind at 1.
  destruct (total_enqueue (with_Kind MessageKindContinuation (TextMessage RoleUser prompt)) (mkOptions "" 0) w) as [a Ea].
  destruct (enqueuePendingMessageWithOptions _ _ _ w) as [r w1] eqn:E. simpl in Ea. subst r.
  destruct a as [[st record] [e|]]; [|done]. by apply enqueue_message_no_active in E as [? _].
Qed.

End Errors.

(** ** Parts of a turn *)

(** A part draws outcomes, and its error is one of the code. *)
Definition passes {A} (m : TM A) : Prop := forall t,
  (ew_calls (tw_engine t) <= ew_calls (tw_engine (m t).2))%nat /\
  EngineInputSound.plain_result (m t).1 = true.

Lemma passes_ret {A} (a : A) : passes (ret a).
Proof. by intros t. Qed.
Lemma passes_fail {A} e : plain e = true -> passes (fail e : TM A).
Proof. by intros He t. Qed.
Lemma passes_tget : passes tget.
Proof. by intros t. Qed.
Lemma passes_modify f : passes (tmodify f).
Proof. by intros t. Qed.
Lemma passes_note f : passes (note f).
Proof. by intros t. Qed.
Lemma passes_replace h : passes (replace_history h).
Proof. intros t. unfold replace_history, set_records. simpl. by destruct (w_thread _). Qed.

Lemma passes_bind {A B} (m : TM A) (k : A -> TM B) :
  passes m -> (forall a, passes (k a)) -> passes (bind m k).
Proof.
  intros Hm Hk t. unfold bind. destruct (Hm t) as [Hc Hp]. destruct (m t) as [[a|e] t1]; [|done].
  destruct (Hk a t1). simpl in *. split; [lia|done].
Qed.

Lemma passes_tattempt {A B} (m : TM A) (k : result EngineError A -> TM B) :
  passes m -> (forall r, EngineInputSound.plain_result r = true -> passes (k r)) ->
  passes (bind (tattempt m) k).
Proof.
  intros Hm Hk t. unfold bind, tattempt. destruct (Hm t) as [Hc Hp]. destruct (m t) as [r t1].
  destruct (Hk r Hp t1). simpl in *. split; [lia|done].
Qed.

Lemma passes_engine {A} (m : EM A) : later m -> honest m -> passes (on_engine m).
Proof.
  intros Hl Hh t. unfold on_engine. specialize (Hl (tw_engine t)). specialize (Hh (tw_engine t)).
  by destruct (m (tw_engine t)).
Qed.

Lemma passes_inputs {A} (m : EM A) : later m -> honest m -> passes (on_inputs m).
Proof.
  intros Hl Hh t. unfold on_inputs. specialize (Hl (tw_engine t)). specialize (Hh (tw_engine t)).
  by destruct (m (tw_engine t)).
Qed.

#[local] Hint Resolve passes_ret passes_tget passes_modify passes_note passes_replace : passes.
#[local] Hint Extern 1 (passes (fail _)) => (apply passes_fail; solve [eauto]) : passes.

Ltac passes_step :=
  match goal with
  | |- passes (bind (tattempt _) _) => apply passes_tattempt
  | |- passes (bind _ _) => apply passes_bind
  | |- forall _, _ => intro
  | |- passes (match ?x with _ => _ end) => destruct x; simpl in *
  | |- passes _ => solve [eauto with passes]
  end.
Ltac solve_passes := repeat (cbv zeta; passes_step).

Section Turn.
  Context (env : TurnEnv) (turn : string).

Local Abbreviation eenv := (te_engine env).

Lemma passes_draw {A} (f : nat -> A) : passes (tdraw f).
Proof. apply passes_engine; [apply later_draw|apply honest_sound, sound_draw]. Qed.

Lemma passes_newID : passes (on_engine (lift (newID (ee_queue eenv)))).
Proof. apply passes_engine; [apply later_lift|apply honest_sound, sound_lift]. Qed.

Lemma passes_get : passes (on_engine get_engine).
Proof. by intros t. Qed.
#[local] Hint Resolve passes_draw passes_newID passes_get : passes.

Lemma passes_interlude : passes (interlude env).
Proof.
  unfold interlude. apply passes_bind; [auto with passes|]. intros l. apply passes_engine.
  - induction l as [|r l IH]; cbn [receive_all]; [auto with later|].
    apply later_bind; [apply later_attempt, later_receive|]. by intros _.
  - apply honest_total. induction l as [|r l IH]; cbn [receive_all]; solve_total.
Qed.
#[local] Hint Resolve passes_interlude : passes.

Lemma passes_check : passes (check_cancelled env).
Proof. unfold check_cancelled. solve_passes. Qed.
Lemma passes_emit : passes (emit_unlogged env).
Proof. unfold emit_unlogged. solve_passes. Qed.
#[local] Hint Resolve passes_check passes_emit : passes.

Lemma passes_compact : passes (compact env).
Proof. unfold compact. solve_passes. Qed.
#[local] Hint Resolve passes_compact : passes.

Lemma passes_batch recorded : passes (run_batch env turn recorded).
Proof.
  unfold run_batch. apply passes_bind; [auto with passes|]. intros fresh.
  apply passes_bind; [auto with passes|]. intros moves t.
  destruct (w_thread _) as [th|] eqn:E; [|done]. cbv zeta. unfold set_records. rewrite E. simpl.
  split; [done|]. by destruct (bt_stage _) as [| | |[]].
Qed.

Lemma passes_append ms : passes (on_engine (fun w => (Ok tt, append_messages ms w))).
Proof.
  intros t. unfold on_engine, append_messages, set_records. simpl.
  destruct (w_thread _) eqn:E; rewrite ?E; done.
Qed.
#[local] Hint Resolve passes_batch passes_append : passes.

Lemma passes_record iter notice m : passes (recordProviderResponseLocked env iter notice m).
Proof.
  unfold recordProviderResponseLocked. cbv zeta.
  apply passes_bind; [destruct (m_ID m =?s ""); auto with passes|]. intros id.
  apply passes_bind; [by intros t|]. solve_passes.
Qed.

Lemma passes_finish output : passes (finish_turn env turn output).
Proof.
  unfold finish_turn. apply passes_bind; [auto with passes|]. intros _.
  apply passes_tattempt; [apply passes_engine; [auto with later|apply honest_finish]|]. solve_passes.
Qed.
#[local] Hint Resolve passes_record passes_finish : passes.

Lemma passes_continuation prompt : passes (on_engine (enqueueContinuation eenv prompt)).
Proof. apply passes_engine; [auto with later|apply honest_continuation]. Qed.
#[local] Hint Resolve passes_continuation : passes.

Lemma passes_candidates output l : passes (finish_candidates env turn output l).
Proof. induction l as [|c l IH]; cbn [finish_candidates]; solve_passes. Qed.
#[local] Hint Resolve passes_candidates : passes.

(** Every round asks first whether the turn was cancelled. *)
Lemma iteration_split iter : exists rest : unit -> TM unit,
  runProviderIterationLocked env turn iter = bind (check_cancelled env) rest /\
  forall u, passes (rest u).
Proof.
  unfold runProviderIterationLocked. eexists. split; [reflexivity|]. intros ?. cbv beta.
  unfold applyFinishPolicyLocked, apply_transition, request_failed, continueAfterProviderFailure.
  apply passes_bind; [auto with passes|]. intros _.
  apply passes_bind; [apply passes_inputs; [auto with later|apply honest_sound; auto with sound]|].
  solve_passes.
Qed.

Lemma iteration_runs iter t : match runProviderIterationLocked env turn iter t with
  | (Ok _, t') => ee_cancelled eenv (ew_calls (tw_engine t)) = false /\
      (S (ew_calls (tw_engine t)) <= ew_calls (tw_engine t'))%nat
  | (Err e, _) => plain e = true
  end.
Proof.
  destruct (iteration_split iter) as (rest & -> & Hrest).
  unfold bind at 1, check_cancelled, bind at 1, tdraw, on_engine, draw_outcome.
  destruct (ee_cancelled eenv (ew_calls (tw_engine t))); simpl; [done|].
  set (t1 := set_tw_engine _ t). destruct (Hrest tt t1) as [Hc Hp].
  destruct (rest tt t1) as [[u|e] t']; [|done]. split; [done|]. simpl in *. lia.
Qed.

Section Cancelled.
  Context (N : nat) (Hcancelled : forall n, (N <= n)%nat -> ee_cancelled eenv n = true).

(** Enough rounds to come to the cancellation. *)
Definition rounds_enough (fuel : nat) (t : TWorld) : Prop :=
  (1 <= fuel /\ N < fuel + ew_calls (tw_engine t))%nat.

Lemma round_left fuel iter t u t' : rounds_enough (S fuel) t ->
  runProviderIterationLocked env turn iter t = (Ok u, t') -> rounds_enough fuel t'.
Proof.
  intros [_ Hf] E. pose proof (iteration_runs iter t) as Hr. rewrite E in Hr. destruct Hr as [Hn Hc].
  destruct (decide (N <= ew_calls (tw_engine t))%nat) as [Hle|]; [by rewrite Hcancelled in Hn|].
  unfold rounds_enough. lia.
Qed.

Lemma loop_stops fuel : forall fuel' iter t, rounds_enough fuel t -> (fuel <= fuel')%nat ->
  turn_loop env fuel' turn iter t = turn_loop env fuel turn iter t.
Proof.
  induction fuel as [|fuel IH]; intros fuel' iter t Hf Hle; [destruct Hf; lia|].
  destruct fuel' as [|fuel']; [lia|]. cbn [turn_loop]. unfold bind at 1. symmetry. unfold bind at 1.
  destruct (runProviderIterationLocked env turn iter t) as [[u|e] t'] eqn:E; [|done].
  pose proof (round_left fuel iter t u t' Hf E) as Hf'. unfold bind, tget. destruct (tl_activeClosed _); [done|].
  symmetry. apply IH; [done|lia].
Qed.

Lemma loop_plain fuel : forall iter t, rounds_enough fuel t ->
  EngineInputSound.plain_result (turn_loop env fuel turn iter t).1 = true.
Proof.
  induction fuel as [|fuel IH]; intros iter t Hf; [destruct Hf; lia|]. cbn [turn_loop]. unfold bind at 1.
  pose proof (iteration_runs iter t) as Hr. pose proof (round_left fuel iter t) as Hl.
  destruct (runProviderIterationLocked env turn iter t) as [[u|e] t'] eqn:E; [|done].
  specialize (Hl u t' Hf eq_refl). unfold bind, tget. destruct (tl_activeClosed _); [done|]. by apply IH.
Qed.

End Cancelled.
End Turn.

Lemma bind_ext {A B} (m : TM A) (k k' : A -> TM B) t : (forall a t, k a t = k' a t) ->
  bind m k t = bind m k' t.
Proof. intros H. unfold bind. destruct (m t) as [[a|e] t1]; [apply H|done]. Qed.

(** C29: a turn that is cancelled ends. The loop has no bound of its own, and a
    model that asks for tools for ever would keep it running; but if the turn is
    cancelled from some point on, no run is longer than the number of questions
    that came before: with one round more than that, the loop does not run out,
    and more rounds change nothing, neither for the loop nor for the whole turn. *)
Theorem cancelled_turn_ends env turn N fuel :
  (forall n, (N <= n)%nat -> ee_cancelled (te_engine env) n = true) -> (N < fuel)%nat ->
  (forall iter t, (turn_loop env fuel turn iter t).1 <> Err ErrOutOfFuel) /\
  (forall message t, execute_turn env fuel turn message t = execute_turn env (S N) turn message t).
Proof.
  intros Hc Hf. split.
  - intros iter t E.
    pose proof (loop_plain env turn N Hc fuel iter t ltac:(unfold rounds_enough; lia)) as Hp.
    by rewrite E in Hp.
  - intros message t. unfold execute_turn. apply bind_ext. intros ? t1.
    assert (runLocked env fuel turn message t1 = runLocked env (S N) turn message t1) as Hrun.
    { unfold runLocked. do 2 (apply bind_ext; intros ? ?). apply bind_ext.
      intros [u|e] t4; [|done]. do 3 (apply bind_ext; intros ? ?). unfold bind at 1. symmetry. unfold bind at 1.
      by rewrite (loop_stops env turn N Hc (S N) fuel) by (unfold rounds_enough; lia). }
    unfold bind at 1, tattempt at 1. by rewrite Hrun.
Qed.
