(* ===== verification/TurnTranscript.v ===== *)
(** * The turn loop: what a request contains

    Between two rounds the transcript is [complete]: every call has its answer.
    So each request of a turn follows the tool protocol of the providers. *)

From S2P Require Import Prelude GoStd Llm Events PendingInputs PendingQueue ProtocolRepair ProtocolRepairProps EngineInput EngineInputFrame EngineInputDrain EngineInputSound EngineInputProps EngineInputAdmission ContextText ToolPolicies ToolBatch ToolBatchProps ToolBatchInv ToolBatchSafety TurnLoop TurnFrame TurnEnds.

Local Open Scope Z_scope.
Local Open Scope juex_scope.

(** ** Complete transcripts *)

Record complete (h : list Message) : Prop := mkComplete {
  cm_repairable : repairable h;
  cm_answered : forall id, open_calls id (flat h) = 0;
}.

(** A message that neither calls a tool nor answers a call. *)
Definition plain_message (m : Message) : Prop :=
  Forall (fun b => is_call b = false /\ is_answer b = false) (blocks m).

Lemma complete_valid h : complete h -> ValidateToolTranscript h = None.
Proof. intros [[Hg _] Ho]. apply validate_iff_balanced. by split. Qed.

Lemma complete_nil : complete [].
Proof. split; [|done]. split; [by intros [|] ? ? ?|constructor]. Qed.

Lemma open_calls_calls l id : Forall (fun b => is_answer b = false) l -> NoDup (calls l) ->
  open_calls id l = if decide (id ∈ calls l) then 1 else 0.
Proof.
  induction l as [|b l IH]; intros Ha Hnd; [by rewrite decide_False by (apply not_elem_of_nil)|].
  apply Forall_cons in Ha as [Hb Ha]. change (b :: l) with ([b] ++ l) in *. rewrite calls_app in *.
  apply NoDup_app in Hnd as (_ & Hdis & Hnd). cbn [app open_calls]. rewrite IH, delta_cases, Hb by done.
  assert (calls [b] = if is_call b then [b_ToolUseID b] else []) as Ec by (unfold calls; simpl; by destruct (is_call b)).
  rewrite Ec in *. destruct (is_call b); simpl in *.
  - case_bool_decide as Hid; subst.
    + rewrite decide_False by (apply Hdis; by left). rewrite decide_True by (by left). done.
    + destruct (decide (id ∈ calls l)); case_decide as Hx; try done; exfalso; set_solver.
  - case_bool_decide; done.
Qed.

Lemma good_unanswered h m : complete h -> Forall (fun b => is_answer b = false) (blocks m) ->
  good_history (fun _ => 0) (h ++ [m]).
Proof.
  intros [[Hg _] Ho] Ha. apply good_history_snoc. split; [done|]. intros l1 b l2 E. split.
  - intros [id Hid]. rewrite Ho in Hid. lia.
  - intros id. rewrite Ho. replace (blocks m) with ((l1 ++ [b]) ++ l2) in Ha by (by rewrite E, <- app_assoc).
    apply Forall_app in Ha as [Ha _].
    enough (0 <= open_calls id (l1 ++ [b])) by lia. clear E. revert Ha. generalize (l1 ++ [b]) as l.
    induction l as [|x l IH]; intros Ha; [done|]. apply Forall_cons in Ha as [Hx Ha]. cbn [open_calls].
    specialize (IH Ha). rewrite delta_cases, Hx. case_bool_decide; [destruct (is_call x)|]; lia.
Qed.

Lemma plain_calls m : plain_message m -> calls (blocks m) = [].
Proof.
  unfold plain_message, calls. generalize (blocks m) as l. induction l as [|b l IH]; [done|].
  intros [[Hb _] Hl]%Forall_cons. simpl. rewrite Hb. by apply IH.
Qed.

Lemma plain_unanswered m : plain_message m -> Forall (fun b => is_answer b = false) (blocks m).
Proof. intros H. eapply Forall_impl; [exact H|]. by intros b []. Qed.

Lemma complete_plain h m : complete h -> plain_message m -> complete (h ++ [m]).
Proof.
  intros Hc Hm. pose proof (plain_calls m Hm) as Hn. pose proof (plain_unanswered m Hm) as Ha. split.
  - split; [by apply good_unanswered|]. rewrite flat_app, flat_singleton, calls_app, Hn, app_nil_r. apply Hc.
  - intros id. rewrite flat_app, flat_singleton, open_calls_app, (cm_answered _ Hc).
    rewrite open_calls_calls; [|done|rewrite Hn; constructor].
    rewrite Hn, decide_False by (apply not_elem_of_nil). done.
Qed.

Lemma complete_plains ms : forall h, complete h -> Forall plain_message ms -> complete (h ++ ms).
Proof.
  induction ms as [|m ms IH]; intros h Hc Hm; [by rewrite app_nil_r|].
  apply Forall_cons in Hm as [Hm Hms]. replace (h ++ m :: ms) with ((h ++ [m]) ++ ms) by (by rewrite <- app_assoc).
  apply IH; [by apply complete_plain|done].
Qed.

(** ** Responses *)

(** A response with the journal and the history it met: its calls have new
    identities, and it answers none. *)
Definition fresh_response (r : list Event * list Message * Message) : Prop :=
  let '(journal, h, m) := r in
  fresh_calls (mkRecorded (ToolCalls m) 0 "") journal /\
  Forall (fun b => is_answer b = false) (blocks m) /\
  forall id, id ∈ calls (blocks m) -> id ∉ calls (flat h).

Lemma tool_calls_ids m : Forall (fun b => b_ToolUseID b <> ""%string) (ToolCalls m) ->
  map b_ToolUseID (ToolCalls m) = calls (blocks m).
Proof.
  unfold ToolCalls, calls. generalize (blocks m) as l. induction l as [|b l IH]; [done|].
  rewrite filter_cons. simpl. unfold is_call at 1. destruct (decide (b_Type b = BlockToolUse)) as [Ht|Ht].
  - intros [Hb Hl]%Forall_cons. rewrite bool_decide_eq_true_2, bool_decide_eq_false_2 by done. simpl. f_equal. auto.
  - rewrite bool_decide_eq_false_2 by done. simpl. auto.
Qed.

(** The transcript behind a response waits for its calls, and for nothing else. *)
Lemma response_awaits journal h h0 m iter id : fresh_response (journal, h0, m) -> complete h ->
  calls (flat h) = calls (flat h0) ->
  awaits (mkRecorded (ToolCalls m) iter id) (h ++ [m]) /\ (ToolCalls m = [] -> complete (h ++ [m])).
Proof.
  intros ([Hnd Hids] & Ha & Hnew) Hc Hcalls. cbn [rp_toolCalls] in *.
  assert (map b_ToolUseID (ToolCalls m) = calls (blocks m)) as Ei.
  { apply tool_calls_ids. eapply Forall_impl; [exact Hids|]. by intros b []. }
  rewrite Ei in Hnd.
  assert (repairable (h ++ [m])) as Hrep.
  { split; [by apply good_unanswered|]. rewrite flat_app, flat_singleton, calls_app.
    apply NoDup_app. split_and!; [apply Hc| |done]. intros x Hx Hx'. apply (Hnew x Hx'). by rewrite <- Hcalls. }
  assert (forall x, open_calls x (flat (h ++ [m])) = if decide (x ∈ calls (blocks m)) then 1 else 0) as Ho.
  { intros x. rewrite flat_app, flat_singleton, open_calls_app, (cm_answered _ Hc). by rewrite open_calls_calls. }
  split.
  - split; [done|]. intros x. cbn [rp_toolCalls]. rewrite Ei, Ho. case_decide; split; (done || lia).
  - intros Hnil. split; [done|]. intros x. rewrite Ho, <- Ei, Hnil. rewrite decide_False; [done|]. apply not_elem_of_nil.
Qed.

Lemma results_calls l : Forall (fun b => b_Type b = BlockToolResult) l -> calls l = [].
Proof.
  induction 1 as [|b l Hb _ IH]; [done|]. unfold calls in *. simpl.
  assert (is_call b = false) as -> by (unfold is_call; by rewrite Hb). done.
Qed.

(** The results of a batch make it complete again. *)
Lemma answered_complete recorded journal h benv bs : fresh_calls recorded journal -> awaits recorded h ->
  Forall2 answers (rp_toolCalls recorded) bs -> complete (h ++ [result_message benv bs]).
Proof.
  intros [Hnd _] [Hrep Hopen] Hb. destruct (answers_ids _ _ Hb) as [Hids Htypes].
  assert (balanced (h ++ [result_message benv bs])) as [Hg Ho].
  { apply validate_iff_balanced, results_complete; unfold blocks; simpl; rewrite ?Hids; done. }
  split; [|done]. split; [done|]. rewrite flat_app, flat_singleton, calls_app.
  change (blocks (result_message benv bs)) with bs. rewrite (results_calls bs Htypes), app_nil_r. apply Hrep.
Qed.

(** ** A turn *)

(** What replaces a history is complete. *)
Record complete_replacements (env : TurnEnv) : Prop := mkReplacements {
  rp_compact : forall n h, cp_history (te_compact env n) = Some h -> complete h;
  rp_request : forall n h, (te_request env n).1 = Some h -> complete h;
  rp_transition : forall n c h, te_transition env n = TransitionCompact c -> cp_history c = Some h -> complete h;
}.

(** What reached the transcript from outside: inputs without calls or answers,
    responses with new calls. *)
Definition sane (l : turnLifecycle) : Prop :=
  Forall plain_message (tl_inputs l) /\ Forall fresh_response (tl_responses l).

Definition requests_valid (l : turnLifecycle) : Prop :=
  Forall (fun h => ValidateToolTranscript h = None) (tl_requested l).

Section Transcript.
  Context (env : TurnEnv) (turn : string) (Henv : complete_replacements env).

Local Abbreviation eenv := (te_engine env).

(** Whatever happens, the requests so far were valid. *)
Definition valid_so_far (t : TWorld) : Prop := sane (tw_turn t) -> requests_valid (tw_turn t).

(** Between two rounds. *)
Record ready (t : TWorld) : Prop := mkReady {
  rd_running : running turn t;
  rd_has_thread : has_thread (tw_engine t);
  rd_complete : sane (tw_turn t) -> complete (tw_history t);
  rd_valid : valid_so_far t;
}.

(** Behind a response. *)
Record awaiting (recorded : recordedProviderResponse) (t : TWorld) : Prop := mkAwaiting {
  aw_running : running turn t;
  aw_has_thread : has_thread (tw_engine t);
  aw_fresh : sane (tw_turn t) -> fresh_calls recorded (tw_journal t);
  aw_awaits : sane (tw_turn t) -> awaits recorded (tw_history t);
  aw_complete : sane (tw_turn t) -> rp_toolCalls recorded = [] -> complete (tw_history t);
  aw_valid : valid_so_far t;
}.

Lemma ready_valid t : ready t -> valid_so_far t.
Proof. by intros []. Qed.

Lemma calm_state t t' : running turn t -> grows (tw_engine t) (tw_engine t') -> tw_turn t' = tw_turn t ->
  running turn t' /\ tw_history t' = tw_history t /\ tw_journal t' = tw_journal t /\
  (has_thread (tw_engine t) -> has_thread (tw_engine t')).
Proof.
  intros Hr Hg Hl. destruct (stable_running turn t t' Hr) as [_ Hr'].
  destruct (gr_thread _ _ Hg) as (_ & Hh & He). split_and!; [auto|unfold tw_history; by rewrite Hh| |].
  - unfold tw_journal. destruct (w_thread (ew_queue (tw_engine t))), (w_thread (ew_queue (tw_engine t')));
      simpl in He; congruence.
  - by apply (mv_thread _ _ (grows_moves _ _ Hg)).
Qed.

Lemma stable_ready : stable ready.
Proof.
  intros t t' [Hr Hth Hc Hv]. split; [by eapply running_active|]. intros Hg Hl.
  destruct (calm_state t t' Hr Hg Hl) as (Hr' & Hh & _ & Hth'). unfold valid_so_far in *.
  split; [done|auto|by rewrite Hl, Hh|unfold valid_so_far; by rewrite Hl].
Qed.

Lemma stable_awaiting recorded : stable (awaiting recorded).
Proof.
  intros t t' [Hr Hth Hf Ha Hc Hv]. split; [by eapply running_active|]. intros Hg Hl.
  destruct (calm_state t t' Hr Hg Hl) as (Hr' & Hh & Hj & Hth'). unfold valid_so_far in *.
  split; [done|auto|by rewrite Hl, Hj|by rewrite Hl, Hh|by rewrite Hl, Hh|unfold valid_so_far; by rewrite Hl].
Qed.

Lemma ready_calm {A} (m : TM A) : calm m -> triple valid_so_far ready m (fun _ => ready).
Proof. intros Hm. apply triple_calm; [done|apply stable_ready|apply ready_valid]. Qed.

Lemma awaiting_calm recorded {A} (m : TM A) : calm m ->
  triple valid_so_far (awaiting recorded) m (fun _ => awaiting recorded).
Proof. intros Hm. apply triple_calm; [done|apply stable_awaiting|by intros t []]. Qed.

(** *** Inputs and replacements *)

Lemma ready_replace h : complete h -> triple valid_so_far ready (replace_history h) (fun _ => ready).
Proof.
  intros Hh t [Hr [th Eth] Hc Hv].
  split; simpl; [| |intros _|exact Hv].
  - refine (running_holders turn t _ _ _ Hr); [apply set_records_holders|done].
  - unfold set_records, has_thread. rewrite Eth. by eexists.
  - unfold tw_history. simpl. unfold set_records. by rewrite Eth.
Qed.

Lemma ready_drain : triple valid_so_far ready (on_inputs (drainPendingInputLocked eenv turn)) (fun _ => ready).
Proof.
  intros t [Hr Hth Hc Hv]. unfold on_inputs.
  pose proof (sound_drainPending eenv turn (tw_engine t)) as [[Hho _] _].
  pose proof (writes_drain eenv turn (tw_engine t)) as Hw.
  destruct (drainPendingInputLocked eenv turn (tw_engine t)) as [r w']. simpl in Hho, Hw.
  set (t' := set_tw_turn _ _).
  assert (exists ms, tw_history t' = tw_history t ++ ms) as [ms Hms].
  { destruct Hth as [th Eth]. unfold appends in Hw. rewrite Eth in Hw. destruct Hw as [ms Hw].
    exists ms. unfold tw_history. rewrite Eth. simpl. by rewrite Hw. }
  assert (tl_inputs (tw_turn t') = tl_inputs (tw_turn t) ++ ms) as Hin.
  { simpl. change (tw_history (set_tw_engine w' t)) with (tw_history t'). by rewrite Hms, drop_app_length. }
  assert (sane (tw_turn t') -> sane (tw_turn t) /\ Forall plain_message ms) as Hs.
  { unfold sane. rewrite Hin. intros [[H1 H2]%Forall_app H3]. by split. }
  assert (valid_so_far t') as Hv' by (intros H; apply Hv, Hs, H).
  destruct r as [u|e]; [|exact Hv'].
  split; [by refine (running_holders turn t t' Hho _ Hr)|by eapply appends_thread| |exact Hv'].
  intros [H1 H2]%Hs. rewrite Hms. apply complete_plains; [by apply Hc|done].
Qed.

Lemma ready_note f : (forall h l, tl_activeClosed (f h l) = tl_activeClosed l /\
    tl_inputs (f h l) = tl_inputs l /\ tl_responses (f h l) = tl_responses l /\
    (tl_requested (f h l) = tl_requested l \/ tl_requested (f h l) = tl_requested l ++ [h])) ->
  triple valid_so_far ready (note f) (fun _ => ready).
Proof.
  intros Hf t [Hr Hth Hc Hv]. destruct (Hf (tw_history t) (tw_turn t)) as (H1 & H2 & H3 & H4).
  assert (sane (f (tw_history t) (tw_turn t)) -> sane (tw_turn t)) as Hs by (unfold sane; by rewrite H2, H3).
  split; simpl; [by refine (running_holders turn t _ _ _ Hr)|done|intros H; by apply Hc, Hs|].
  intros H%Hs. specialize (Hv H). unfold requests_valid in *. simpl. destruct H4 as [-> | ->]; [done|].
  apply Forall_app. split; [done|]. constructor; [|constructor]. by apply complete_valid, Hc.
Qed.

Lemma ready_modify f : (forall l, tl_activeClosed (f l) = tl_activeClosed l /\
    tl_inputs (f l) = tl_inputs l /\ tl_responses (f l) = tl_responses l /\ tl_requested (f l) = tl_requested l) ->
  triple valid_so_far ready (tmodify f) (fun _ => ready).
Proof.
  intros Hf. apply (ready_note (fun _ => f)). intros h l. destruct (Hf l) as (? & ? & ? & ?). auto.
Qed.

Lemma ready_draw {A B} (f : nat -> A) (k : A -> TM B) K :
  (forall n, triple valid_so_far ready (k (f n)) K) -> triple valid_so_far ready (bind (tdraw f) k) K.
Proof. apply triple_draw. intros. by apply ready_calm. Qed.

Lemma ready_compact : triple valid_so_far ready (compact env) (fun _ => ready).
Proof.
  unfold compact. apply ready_draw. intros n. eapply triple_bind.
  - destruct (cp_history (te_compact env n)) as [h|] eqn:E; [apply ready_replace; by eapply rp_compact|by intros t Ht].
  - intros ?. destruct (cp_failed _); [apply triple_fail, ready_valid|by intros t Ht].
Qed.

Lemma ready_request_failed cancelled overflow retryable :
  triple valid_so_far ready (request_failed env turn cancelled overflow retryable) (fun _ => ready).
Proof.
  unfold request_failed. apply ready_draw. intros n.
  destruct (_ && cancelled); [apply triple_fail, ready_valid|].
  eapply triple_bind; [apply ready_calm; auto with calm|]. intros l.
  destruct (overflow && _).
  - eapply triple_bind; [apply ready_compact|]. intros ?. by apply ready_modify.
  - eapply triple_bind; [apply ready_calm; auto with calm|]. intros ?.
    eapply triple_bind; [apply ready_calm; auto with calm|]. intros [].
    + by intros t Ht.
    + apply triple_fail, ready_valid.
Qed.

(** *** A response *)

Lemma append_state ms t : running turn t -> has_thread (tw_engine t) ->
  let t' := set_tw_engine (append_messages ms (tw_engine t)) t in
  running turn t' /\ has_thread (tw_engine t') /\ tw_history t' = tw_history t ++ ms /\
  tw_journal t' = tw_journal t.
Proof.
  intros Hr [th Eth]. cbv zeta. unfold tw_history, tw_journal, has_thread, append_messages. rewrite Eth.
  split; [refine (running_holders turn t _ _ _ Hr); [apply set_records_holders|done]|].
  unfold set_records. simpl. rewrite Eth. simpl. split_and!; [by eexists|done|done].
Qed.

(** The transcript, the notice and the response. *)
Lemma record_state iter notice m journal h : fresh_response (journal, h, m) -> complete h ->
  Forall plain_message (option_list notice) ->
  let recorded := mkRecorded (ToolCalls m) iter (m_ID m) in
  fresh_calls recorded journal /\ awaits recorded (h ++ option_list notice ++ [m]) /\
  (ToolCalls m = [] -> complete (h ++ option_list notice ++ [m])).
Proof.
  intros Hf Hc Hn. cbv zeta. rewrite app_assoc.
  split; [apply Hf|]. apply (response_awaits journal _ h); [done|by apply complete_plains|].
  rewrite flat_app, calls_app. replace (calls (flat (option_list notice))) with (@nil string); [by rewrite app_nil_r|].
  destruct notice as [n|]; [|done]. symmetry. simpl in *. apply Forall_cons in Hn as [Hn _].
  change [n] with ([] ++ [n]). rewrite flat_app, flat_singleton. by apply plain_calls.
Qed.

(** The response is there, and not yet in the transcript. *)
Record answering (notice : option Message) (m : Message) (t : TWorld) : Prop := mkAnswering {
  an_running : running turn t;
  an_has_thread : has_thread (tw_engine t);
  an_complete : sane (tw_turn t) -> complete (tw_history t) /\ Forall plain_message (option_list notice) /\
    fresh_response (tw_journal t, tw_history t, m);
  an_valid : valid_so_far t;
}.

Lemma answering_valid notice m t : answering notice m t -> valid_so_far t.
Proof. by intros []. Qed.

Lemma answering_calm notice m {A} (k : TM A) : calm k ->
  triple valid_so_far (answering notice m) k (fun _ => answering notice m).
Proof.
  intros Hk. apply triple_calm; [done| |apply answering_valid].
  intros t t' [Hr Hth Hc Hv]. split; [by eapply running_active|]. intros Hg Hl.
  destruct (calm_state t t' Hr Hg Hl) as (Hr' & Hh & Hj & Hth'). unfold valid_so_far in *.
  split; [done|auto|by rewrite Hl, Hh, Hj|unfold valid_so_far; by rewrite Hl].
Qed.

Lemma answering_start notice m t : ready t -> answering notice m
  (set_tw_turn (with_response (tw_journal t) (tw_history t) m (with_inputs (option_list notice) (tw_turn t))) t).
Proof.
  intros [Hr Hth Hc Hv]. set (t1 := set_tw_turn _ t).
  assert (sane (tw_turn t1) -> sane (tw_turn t) /\ Forall plain_message (option_list notice) /\
    fresh_response (tw_journal t, tw_history t, m)) as Hs.
  { unfold sane. simpl. intros [[H1 H2]%Forall_app [H3 H4]%Forall_app].
    apply Forall_cons in H4 as [H4 _]. exact (conj (conj H1 H3) (conj H2 H4)). }
  split; [by refine (running_holders turn t _ _ _ Hr)|done| |].
  - intros (H & ? & ?)%Hs. split; [by apply Hc|done].
  - intros (H & _)%Hs. by apply Hv.
Qed.

Lemma answering_append notice m iter : triple valid_so_far (answering notice m)
  (on_engine (fun w => (Ok tt, append_messages (option_list notice ++ [m]) w)))
  (fun _ => awaiting (mkRecorded (ToolCalls m) iter (m_ID m))).
Proof.
  intros t [Hr Hth Hc Hv]. unfold on_engine.
  destruct (append_state (option_list notice ++ [m]) t Hr Hth) as (Hr' & Hth' & Hh & Hj).
  assert (sane (tw_turn t) -> _) as Hrec
    by (intros H; destruct (Hc H) as (H1 & H2 & H3); exact (record_state iter notice m _ _ H3 H1 H2)).
  split; [done|done|..|done]; intros H; destruct (Hrec H) as (H1 & H2 & H3).
  - by rewrite Hj.
  - by rewrite Hh.
  - by rewrite Hh.
Qed.

Lemma awaits_record iter notice m : triple valid_so_far ready
  (recordProviderResponseLocked env iter notice m) (fun r => awaiting r.1).
Proof.
  unfold recordProviderResponseLocked. cbv zeta.
  eapply triple_bind; [apply ready_calm; destruct (m_ID m =?s ""); eauto with calm quiet keeps|]. intros id.
  set (m' := if m_ID m =?s "" then _ else m). clearbody m'.
  apply (triple_bind _ _ _ (fun _ => answering notice m')); [intros t Ht; by apply answering_start|]. intros ?.
  apply triple_draw; [intros A k Hk; by apply answering_calm|]. intros n.
  destruct (ee_append eenv n).
  - eapply triple_bind; [apply (answering_append notice m' iter)|]. intros ?. rewrite bool_decide_eq_true_2 by done.
    eapply triple_bind; [apply awaiting_calm, calm_emit|]. intros ? t Ht. exact Ht.
  - eapply (triple_bind _ _ _ (fun _ => answering notice m')); [by intros t Ht|]. intros ?.
    apply triple_fail, answering_valid.
  - eapply triple_bind; [apply (answering_append notice m' iter)|]. intros ?. rewrite bool_decide_eq_false_2 by done.
    apply triple_fail. by intros t [].
Qed.

(** *** A batch *)

Lemma play_runs_batch benv execs moves : forall s, runs (batch_step benv execs) s (play_moves benv execs moves s).
Proof.
  induction moves as [|m moves IH]; intros s; [apply runs_refl|]. cbn [play_moves foldl].
  destruct (step_fn benv execs m s) as [s'|] eqn:E; [|apply IH]. eapply runs_step; [by exists m|apply IH].
Qed.

Lemma ready_batch recorded : triple valid_so_far (awaiting recorded) (run_batch env turn recorded) (fun _ => ready).
Proof.
  unfold run_batch. eapply triple_bind; [apply awaiting_calm; eauto with calm quiet keeps|]. intros fresh.
  apply triple_draw; [intros A k Hk; by apply awaiting_calm|]. intros n t Ht.
  destruct Ht as [Hr Hth Hf Ha _ Hv]. pose proof Hth as [th Eth]. rewrite Eth. cbv zeta.
  set (benv := set_batch turn fresh (te_tools env)). set (s := play_moves _ _ _ _).
  assert (runs (batch_step benv (executions recorded))
    (recordToolBatchLocked benv recorded (tw_journal t) (tw_history t)) s) as Hruns by apply play_runs_batch.
  clearbody s.
  assert (bt_stage s = Ended [] -> ready (set_tw_engine (set_records (bt_journal s) (bt_history s) (tw_engine t)) t)) as Hok.
  { intros Hst. split; simpl; [| |intros H|exact Hv].
    - refine (running_holders turn t _ _ _ Hr); [apply set_records_holders|done].
    - unfold set_records, has_thread. rewrite Eth. by eexists.
    - unfold tw_history at 1. simpl. unfold set_records. rewrite Eth. simpl.
      destruct (ended_history _ _ _ _ s (Hf H) (Ha H) Hruns Hst) as (bs & -> & Hbs).
      by eapply answered_complete; [apply Hf|apply Ha|]. }
  destruct (bt_stage s) as [| | |[]]; [exact Hv..|by apply Hok|exact Hv].
Qed.

(** *** The end of a turn *)

Definition moving (t : TWorld) : Prop := tl_activeClosed (tw_turn t) = false /\ ready t \/
  tl_activeClosed (tw_turn t) = true /\ valid_so_far t.

Lemma ready_moving t : ready t -> moving t.
Proof. intros Hr. left. split; [apply (rd_running _ Hr)|done]. Qed.

Lemma ready_open output t : ready t ->
  ready (set_tw_turn (with_closed false (with_lastText output (tw_turn t))) t).
Proof.
  intros Ht. pose proof (ready_modify (fun l => with_lastText output l) ltac:(done) t Ht) as [Hr Hth Hc Hv].
  split; [|exact Hth|exact Hc|exact Hv]. refine (running_holders turn t _ _ _ (rd_running _ Ht)); [done|].
  simpl. by rewrite (ru_open _ _ (rd_running _ Ht)).
Qed.

Lemma valid_finish output : triple valid_so_far ready (finish_turn env turn output) (fun _ => moving).
Proof.
  unfold finish_turn. eapply triple_bind; [apply ready_calm, calm_interlude|].
  intros ? t Ht. unfold bind at 1, tattempt, on_engine.
  destruct (finishOrContinueLocked eenv turn (tw_engine t)) as [r w'] eqn:E.
  pose proof (finishOrContinue_run env turn t r w' (rd_running _ Ht) E) as Hr.
  destruct r as [[]|e]; simpl.
  - right. split; [done|]. exact (rd_valid _ Ht).
  - subst w'. apply ready_moving. exact (ready_open output t Ht).
  - exact (rd_valid _ Ht).
Qed.

Lemma valid_policy output : triple valid_so_far ready (applyFinishPolicyLocked env turn output) (fun _ => moving).
Proof.
  apply triple_policy; [apply ready_valid|apply @ready_calm|apply valid_finish|intros; apply quiet_continuation|].
  intros t Ht. by apply ready_moving, ready_open.
Qed.

Lemma valid_transition : triple valid_so_far ready (apply_transition env turn) (fun _ => moving).
Proof.
  apply triple_transition; [apply ready_valid|apply @ready_calm|apply valid_finish|apply ready_moving|].
  intros n h Hn. apply ready_replace. destruct (te_transition env n) as [|c|] eqn:E; [done| |subst h; apply complete_nil].
  by eapply rp_transition.
Qed.

(** *** The loop *)

Lemma valid_iteration iter : triple valid_so_far ready (runProviderIterationLocked env turn iter) (fun _ => moving).
Proof.
  unfold runProviderIterationLocked.
  do 2 (eapply triple_bind; [apply ready_calm; auto with calm|]; intros ?).
  eapply triple_bind; [apply ready_drain|]. intros ?.
  eapply triple_bind; [apply ready_calm; auto with calm|]. intros ?.
  apply ready_draw. intros n1.
  eapply triple_bind; [apply ready_calm; destruct (te_context env n1); auto with calm|]. intros ?.
  eapply triple_bind; [apply ready_note; auto|]. intros ?.
  eapply triple_bind; [apply ready_calm; auto with calm|]. intros ?.
  apply ready_draw. intros n2.
  eapply (triple_bind _ _ _ (fun _ => ready)).
  { destruct (te_request env n2).1 as [h|] eqn:E; [apply ready_replace; by eapply rp_request|by intros t Ht]. }
  intros ?. eapply triple_bind; [apply ready_note; auto|]. intros ?.
  destruct (te_request env n2).2 as [notice m|cancelled overflow retryable].
  - eapply triple_bind; [apply ready_note; auto|]. intros ?.
    eapply triple_bind; [apply ready_calm; auto with calm|]. intros ?.
    eapply triple_bind; [apply awaits_record|]. intros [recorded output]. simpl.
    eapply triple_bind; [apply awaiting_calm; auto with calm|]. intros ?.
    destruct (rp_toolCalls recorded) as [|c l] eqn:Ec.
    + intros t [Hr Hth Hf Ha Hc Hv]. apply valid_policy. split; [done|done| |done]. intros H. by apply Hc.
    + eapply triple_bind; [apply awaiting_calm; auto with calm|]. intros ?.
      eapply triple_bind; [apply ready_batch|]. intros ?. apply valid_transition.
  - intros t Ht. pose proof (ready_request_failed cancelled overflow retryable t Ht) as Hr.
    destruct (request_failed _ _ _ _ _ t) as [[u|e] t']; [|exact Hr]. by apply ready_moving.
Qed.

Lemma valid_loop fuel : forall iter, triple valid_so_far ready (turn_loop env fuel turn iter) (fun _ => valid_so_far).
Proof.
  induction fuel as [|fuel IH]; intros iter; cbn [turn_loop]; [apply triple_fail, ready_valid|].
  eapply triple_bind; [apply valid_iteration|]. intros ? t [[Hc Ht]|[Hc Ha]];
    unfold bind at 1, tget; rewrite Hc; [by apply IH|exact Ha].
Qed.

End Transcript.

(** C3: no request of a turn breaks the tool protocol of the providers. If the
    turn starts from a complete transcript, what compactions and context changes
    put in its place is complete, inputs bring no calls and no results, and the
    model gives its calls new identities, then every request the loop makes is
    built from a transcript that passes the validation: each call is answered, once, before the
    conversation goes on. Whatever the tools and the policies do, whether writes
    fail, and whether the loop returns, fails or is out of rounds. *)
Theorem provider_gets_valid_transcripts env turn fuel iter t r t' h :
  complete_replacements env ->
  running turn t -> tw_turn t = new_turn -> has_thread (tw_engine t) -> complete (tw_history t) ->
  turn_loop env fuel turn iter t = (r, t') ->
  Forall plain_message (tl_inputs (tw_turn t')) -> Forall fresh_response (tl_responses (tw_turn t')) ->
  h ∈ tl_requested (tw_turn t') -> ValidateToolTranscript h = None.
Proof.
  intros Henv Hr Hnew Hth Hc E Hin Hre Hh.
  assert (ready turn t) as Ht.
  { split; [done..|]. intros _. rewrite Hnew. constructor. }
  pose proof (valid_loop env turn Henv fuel iter t Ht) as Hv. rewrite E in Hv.
  assert (valid_so_far t') as Hv' by (by destruct r).
  by eapply Forall_forall in Hh; [|apply Hv'].
Qed.
