(* ===== verification/TurnExamples.v ===== *)
(** * The turn loop: runs

    A turn that calls a tool, is given an input meanwhile, and ends; and a turn
    that would call tools for ever and is cancelled. They instantiate the
    properties. *)

From Stdlib Require Import Ascii String.
From S2P Require Import Prelude GoStd Llm Events PendingInputs PendingQueue PendingQueueExamples ProtocolRepair ProtocolRepairProps EngineInput EngineInputFrame EngineInputDrain EngineInputProps EngineInputExamples ContextText ToolPolicies ToolBatch ToolBatchSafety ToolBatchExamples TurnLoop TurnFrame TurnEnds TurnSees TurnStops TurnTranscript.

Local Open Scope Z_scope.
Local Open Scope juex_scope.

Definition ex_answer : Message := TextMessage RoleAssistant "done".
Definition ex_call : Message := mkMessage "" RoleAssistant (Some [ex_tool_use "a"]) "" false "" None.

(** One call: announced, allowed, run, recorded. *)
Definition ex_batch_moves : list Move :=
  [MoveAct (Writes IoOk); MoveAct (Writes IoOk); MoveNext;
   MoveCall 0 (Writes IoOk); MoveCall 0 (ex_decide ToolPolicyAllow None);
   MoveCall 0 (Answers (CallAnswers "done" None no_info)); MoveCall 0 (ex_decide ToolPolicyAllow None);
   MoveNext; MoveAct (Writes IoOk); MoveAct (Writes IoOk); MoveNext].

(** The [n]th outcome: the model calls a tool before the [calls]th and answers
    behind it; at the [late]th another input arrives. *)
Definition ex_turn_env (engine : EngineEnv) (calls late : nat) : TurnEnv :=
  mkTurnEnv engine (fun n => if (n =? late)%nat then [ex_request] else []) (fun _ => true)
    (fun _ => mkCompaction None false) (fun _ => true)
    (fun n => (None, RequestAnswered None (if (n <? calls)%nat then ex_call else ex_answer)))
    ex_tool_env (fun _ => ex_batch_moves) (fun _ => NoTransition) (fun _ => Some []) (fun _ => true).

Definition ex_begin : TWorld := mkTWorld ex_waiting new_turn.

(** An input arrives when the model has answered and the turn is about to end:
    the model is asked once more. *)
#[local] Abbreviation ex_turn_run := (turn_loop (ex_turn_env ex_working 40 54) 10 ex_turn 0 ex_begin).

Example turn_run_ends : ex_turn_run.1 = Ok tt /\ length (tl_requested (tw_turn ex_turn_run.2)) = 3%nat.
Proof. vm_compute. by split. Qed.

Lemma ex_begin_running : running ex_turn ex_begin.
Proof. split; vm_compute; [discriminate|reflexivity..]. Qed.

Definition ex_late : queuedPendingInput :=
  List.nth 3 (ew_arrived (tw_engine ex_turn_run.2)) (mkItem "" zeroMessage OriginQueued).

Lemma provider_sees_every_input_witness :
  exists h, tl_answered (tw_turn ex_turn_run.2) = Some h /\ item_id ex_late ∈ map m_ID h.
Proof.
  refine (proj2 (provider_sees_every_input (ex_turn_env ex_working 40 54) ex_turn 10 0 ex_begin ex_turn_run.2 ex_late
    ex_begin_running eq_refl ex_thread_there _ _ _) _).
  - apply pair_of_fst. vm_compute. reflexivity.
  - solve_named.
  - apply list_elem_of_lookup_2 with 3%nat. vm_compute. reflexivity.
  - vm_compute. reflexivity.
Defined.

(** ** A turn from idle to idle *)

#[local] Abbreviation ex_whole :=
  (TurnMessageWithID (ex_turn_env ex_working 20 1000) 10 (ex_message "m1") "turn-1"
     (mkTWorld (ex_idle []) new_turn)).

Lemma turn_leaves_engine_idle_witness :
  ex_whole.1 = Ok "done"%string /\ active (tw_engine ex_whole.2) = "" /\
  match ex_whole.1 with
  | Ok _ => end_logged "turn-1" "turn.completed" (tw_engine ex_whole.2)
  | Err _ => True
  end.
Proof.
  split; [vm_compute; reflexivity|].
  destruct (turn_leaves_engine_idle (ex_turn_env ex_working 20 1000) 10 (ex_message "m1") "turn-1"
    (mkTWorld (ex_idle []) new_turn) ex_whole.1 ex_whole.2 eq_refl eq_refl (surjective_pairing _))
    as (Ha & _ & _ & Hr).
  split; [exact Ha|]. destruct ex_whole.1; [exact Hr|exact I].
Defined.

(** ** A cancelled turn *)

(** Cancelled from the [k]th outcome on. *)
Definition ex_cancelled (k : nat) : EngineEnv :=
  mkEngineEnv ex_env (fun _ => IoOk) (fun _ => IoOk) (fun _ => Some None) (fun _ => Some None)
    (fun _ => true) (fun _ => true) (fun n => (k <=? n)%nat) 16 0 0 false (fun _ => ("failed", "internal")%string).

Lemma cancelled_turn_ends_witness :
  (turn_loop (ex_turn_env (ex_cancelled 60) 1000 1000) 61 ex_turn 0 ex_begin).1 = Err ErrCancelled /\
  execute_turn (ex_turn_env (ex_cancelled 60) 1000 1000) 90 ex_turn (ex_message "m1") ex_begin =
  execute_turn (ex_turn_env (ex_cancelled 60) 1000 1000) 61 ex_turn (ex_message "m1") ex_begin.
Proof.
  split; [vm_compute; reflexivity|].
  refine (proj2 (cancelled_turn_ends (ex_turn_env (ex_cancelled 60) 1000 1000) ex_turn 60 90 _ _) _ _).
  - intros n Hn. by apply Nat.leb_le.
  - lia.
Defined.

(** ** Valid requests *)

(** A response to a transcript without calls, or one that calls nothing. *)
Lemma fresh_by_computation j h m :
  bool_decide (NoDup (map b_ToolUseID (ToolCalls m))) = true ->
  Forall (fun b => b_ToolUseID b <> ""%string /\ ToolBatchProps.known j (b_ToolUseID b) = None) (ToolCalls m) ->
  forallb (fun b => negb (is_answer b)) (blocks m) = true ->
  calls (flat h) = [] \/ calls (blocks m) = [] -> fresh_response (j, h, m).
Proof.
  intros Hnd%bool_decide_eq_true Hf Ha Hc. split; [by split|]. split.
  - apply Forall_forall. intros b Hb%list_elem_of_In. apply negb_true_iff. revert b Hb. by apply forallb_forall.
  - intros id Hid. destruct Hc as [-> | Hc]; [apply not_elem_of_nil|]. rewrite Hc in Hid. by apply not_elem_of_nil in Hid.
Qed.

Lemma ex_responses_fresh : Forall fresh_response (tl_responses (tw_turn ex_turn_run.2)).
Proof.
  let l := eval vm_compute in (tl_responses (tw_turn ex_turn_run.2)) in
  replace (tl_responses (tw_turn ex_turn_run.2)) with l by (vm_compute; reflexivity).
  repeat (apply Forall_cons; split; [apply fresh_by_computation|]); try apply Forall_nil_2;
    try (vm_compute; reflexivity).
  all: try (apply Forall_cons; split; [|apply Forall_nil_2]; split; vm_compute; [discriminate|reflexivity]).
  all: try (left; vm_compute; reflexivity).
  all: try (right; vm_compute; reflexivity).
  all: apply Forall_nil_2.
Qed.

Definition ex_last_request : list Message := List.nth 2 (tl_requested (tw_turn ex_turn_run.2)) [].

Lemma provider_gets_valid_transcripts_witness :
  length ex_last_request = 7%nat /\ ValidateToolTranscript ex_last_request = None.
Proof.
  split; [vm_compute; reflexivity|].
  eapply (provider_gets_valid_transcripts (ex_turn_env ex_working 40 54) ex_turn 10 0 ex_begin ex_turn_run.1
    ex_turn_run.2 ex_last_request).
  - by split.
  - exact ex_begin_running.
  - reflexivity.
  - exact ex_thread_there.
  - replace (tw_history ex_begin) with (@nil Message) by (vm_compute; reflexivity). apply complete_nil.
  - exact (surjective_pairing _).
  - vm_compute. repeat constructor.
  - exact ex_responses_fresh.
  - apply list_elem_of_lookup_2 with 2%nat. vm_compute. reflexivity.
Defined.
